(* ===== verification/_CoqProject ===== *)
-Q . S2P
Prelude.v
Grammar.v
Address.v
Coverage.v
RouterTypes.v
Component.v
Coalesce.v
Solver.v
WireId.v
Plan.v
Route.v
Router.v
Bag.v
Limits.v
Planning.v
Compile.v
Schema.v
Canonical.v
Ingest.v
IngestSpec.v
IngestRefine.v
Governed.v
QueueBytes.v
QueueCodec.v
QueueRoundtrip.v
Lanes.v
LaneInvariant.v
Delivery.v
Retention.v
History.v
OwnerIndex.v
Attempts.v
Attribution.v
ReadSessions.v
Requests.v
RequestInvariant.v
RequestFrames.v
Exchange.v
ExchangeInvariant.v
ExchangeSound.v
Postings.v
PostingsRead.v
PostingsFormat.v
PostingsRun.v
Compaction.v
HeapMerge.v
CompactionCorrect.v
CompactionSegment.v
PostingsCodec.v
PackedStore.v
PackedRep.v
ScanCorrect.v
PackedUpdate.v
PackedCompact.v
PackedLevels.v
PackedPublish.v
PackedDeaths.v
PackedFlush.v
PackedTheorems.v
Commit.v
Query.v
BinaryEvent.v
BinaryAtoms.v
BinaryRow.v
BinaryView.v
BinarySidecar.v
BinaryCanonical.v
BinarySafety.v
BinaryTheorems.v
QueryCorrect.v
StoreTheorems.v
