(* ===== verification/Prelude.v ===== *)
(** * NMP: a verified model of its store, its router and its request engine

    NMP is a client-side Nostr engine in Rust.  An application opens live
    queries; the resolver turns them into demand atoms (a filter, how to route
    it, the identity to read as); the router compiles the atoms into one
    subscription plan per relay session; the engine sends the plan as REQs,
    ingests what relays return into the store, and records how far each
    selection is covered; writes go through a durable publish queue with one
    delivery lane per relay.  This library models the parts of that system
    that decide what is stored, what is asked, what is claimed and what is
    retried, and proves the properties that make them correct.

    ** Conventions

    - Rust's [u64], [u32] and [usize] values are [N] or [nat], with the checks
      and the wrap-around of the source written out where it matters
      ([u64_max], [checked_add_u64], [wrapping_succ_u64]).
    - A [BTreeMap] or [HashMap] is a [gmap], a [BTreeSet] a [gset]; iteration in
      key order is [ordered] and [ordered_map], over the order classes of this
      file, which agree with the derived [Ord] of the source.
    - A panic ([expect], [assert!], an index out of range) and a persistence
      error are [None]; a [Result] whose error is inspected is a sum or an
      option of its own, and [BinaryEvent.Outcome] tells a panic from an error.  A redb transaction is one step of the model.
    - Code outside the repository is a class whose laws state the documented
      behaviour, with an instance that shows the laws can hold: the hex codec
      and the event matcher of the nostr crate ([Grammar.HexCodec],
      [Grammar.EventMatcher]), its tag reader ([Address.TagReader]), timestamp
      arithmetic ([Coverage.TimestampArith]), the BLAKE3 descriptor hash
      ([Router.FilterHash]), the routing facts an application supplies
      ([RouterTypes.RoutingFacts]), the keyed hash that chooses the shard of a
      posting ([Postings.ShardHash]), the order of tag letters in a filter
      ([Query.TagOrder]), and the parsers of relay URLs ([Canonical.RelayParser])
      and of tags and signatures ([BinaryEvent.RowReader]).
    - Recursion that is not structural carries fuel: the merge loops of
      [Coalesce] get the square of the number of entries (a scan is linear and
      every merge removes an entry), and the greedy loop of [Solver] one round
      per relay and one more (every round selects a relay).  The scan and the
      compaction of postings get the number of postings left in their sources,
      and the compaction of levels the number of runs and of levels (a
      compaction leaves fewer runs).  The walk of a tag in an event row gets the
      length of the row (an element takes four of its bytes), and a LEB128 length
      five groups of seven bits (it has 32 bits).  The theorems show that the fuel given is
      enough; everything else is structural.

    ** Files

    Shared
    - [Prelude]: orders, ordered iteration, list and option lemmas, fallible
      folds, the [nmp] hint database and the tactics [decide_now], [case_tests].
    - [Grammar] (nmp-grammar): filters, demand atoms, sessions, lowering a
      filter to the nostr crate, NIP-01 matching.
    - [Address] (nmp-store/address_key): replaceable and addressable keys.

    Router (nmp-router)
    - [RouterTypes], [Component], [Coalesce], [Solver], [WireId], [Plan],
      [Route]: facts and budgets, filter components, the merge fixed point, the
      relay cover, wire tokens, plan differences and the routing lanes.
    - [Router]: [compile_demand] with everything it calls; [Bag], [Limits],
      [Planning] prove its stages and [Compile] the whole.

    Store (nmp-store)
    - [Coverage]: coverage keys, intervals, recording and garbage collection.
    - [Schema], [Canonical]: durable byte keys, and the tables of one write
      transaction with their reference counts.
    - [Ingest], [IngestSpec], [IngestRefine], [Governed]: governed ingest, the
      abstract store it implements, the simulation between the two, and the
      theorems about whole deliveries.
    - [Postings], [Compaction]: the bytes of the query index
      (redb_store/postings.rs): runs, dictionaries, segments, dead-key blocks,
      run metadata, and the merge of segments.  [PostingsRead],
      [PostingsFormat], [PostingsRun], [PostingsCodec], [HeapMerge],
      [CompactionCorrect], [CompactionSegment]: what validated bytes hold, and
      that encoding, searching and merging agree on it.
    - [PackedStore]: the index in its tables (redb_store/postings_store.rs):
      publishing, deaths, levels, scans.  [PackedRep] relates the tables to a
      map of live postings; [PackedUpdate], [PackedCompact], [PackedLevels],
      [PackedPublish], [PackedDeaths], [PackedFlush], [ScanCorrect] show that
      each operation keeps that relation, and [PackedTheorems] states it.
    - [Commit]: the commit of a governed write, which joins the two halves.
    - [Query]: the planner, the residual filter, the ordered scan and the query
      doors (redb_store/query.rs, store.rs, event_ops.rs, binary_event.rs);
      [QueryCorrect], [StoreTheorems]: what they return.
    - [BinaryEvent]: the bytes of an event row and of the state beside it
      (binary_event.rs), and the view that filters and materializes a row where
      it lies.  [BinaryAtoms], [BinaryRow], [BinaryView]: lengths and atoms, the
      layout [encode_event] writes, and what the view reads from it;
      [BinarySidecar]: local state, provenance, displaced rows;
      [BinaryCanonical]: nothing else parses; [BinarySafety]: nothing panics;
      [BinaryTheorems] states it.
    - [QueueBytes], [QueueCodec], [QueueRoundtrip]: the publish-queue byte
      codec.
    - [Lanes], [LaneInvariant], [Delivery]: every door that moves a delivery
      lane, the journal invariant, and the theorems about reachable journals.
    - [Retention], [History]: receipts, their ordered history, closing an
      intent, and retention.

    Engine (nmp-engine)
    - [OwnerIndex]: maps with a reverse index, and what makes them mirror.
    - [Attempts]: attempts to hand a REQ to the transport, parked retries, and
      the backoff.
    - [Attribution]: the FIFO of send-time snapshots and what an EOSE proves.
    - [ReadSessions]: which sessions the plan reads from, counted per relay.
    - [Requests]: the request half of the reducer, composed as the code composes
      it: sending and handoff, evidence, metadata of running requests, claim
      transfers, replacements, abandonment, completion, retries, plan deltas,
      replays, and the runtime's execution of wire effects.
    - [RequestInvariant], [RequestFrames]: what every operation keeps, and what
      it leaves alone.
    - [Exchange]: the conversation of these requests with a relay as a step
      relation (the relay is assumed to follow NIP-01);
      [ExchangeInvariant], [ExchangeSound]: its invariant and the theorems.

    ** What the theorems show

    - Ingest: a batch of verified events never fails and implements the
      abstract store; the order and repetition of deliveries does not matter;
      what a kind:5 deleted stays deleted; expiry is exact; a relay's echo signs
      exactly the drafts waiting for it.
    - The query index: an encoded run reads back what was written; the packed
      tables are a map of live postings to every scan, flush and compaction;
      compaction bounds every level and ends.
    - Queries: after a committed batch every query returns exactly the newest
      rows of the abstract store it selects; the choice of an index changes no
      row, pages continue each other, and the merged page of several filters is
      the page of their union.
    - Routing: compiling never panics, stays within every limit, asks enough
      relays for every author and exactly the named ones for explicit atoms,
      never mixes contexts, keeps tokens stable and reports exactly what it
      refused; coalescing neither loses nor gains events and its optimised loop
      equals the plain one; plan differences apply.
    - Coverage: recording invents nothing and never moves backwards; garbage
      collection never leaves a row over an evicted event, keeps exactly what it
      must and equals the victim-by-victim pass.
    - Delivery: no door loses an update, history only grows, deadlines are read
      exactly, recovery succeeds from every reachable journal.
    - Receipts: the ended history is bounded and exactly accounted for, ages out
      in order, and every settled write can be closed.
    - Codecs: bytes decode to a value exactly when they are its encoding; range
      scans see exactly their rows.
    - Event rows: a row parses to an event exactly when it is the encoding of the
      event; the filter that runs on a row's bytes is the filter on the event, as
      [Query] has it; a corrupt row is an error and never a panic; local state,
      provenance and displaced rows read back.
    - Requests: the owner of request attempts refines two plain maps and never
      panics; an attempt settles at most once; the backoff is the capped
      exponential at every count; an incremental plan delta keeps the same
      sessions as a rebuild.
    - Conversations: in every reachable conversation with a relay the owners of
      the requests are well formed, no handler panics, and every instant a
      coverage row proves stands on an EOSE that earned it.  The theorem needs
      that a subscription is not sent again while an answer to a forgotten send
      of it may still arrive; [auth_replay_breaks_coverage] runs the case in
      which the code does that.

    ** Not modelled

    Sockets, threads, channels and signers (nmp-transport, nmp-runtime,
    nmp-signer) are I/O around the reducer.  The resolver's graph, the
    incremental admission and withdrawal of the router, the AUTH and history
    reducers of the engine, its write scheduler,
    semantic edits and the NIP vocabularies above the facade are
    pure code not modelled here yet.  Timing, memory and the wall clock enter as
    arguments of the operations that read them. *)

From stdpp Require Export base tactics option list gmap strings sorting
  numbers fin_maps fin_sets relations.
From Stdlib Require Export Lia.

(** ** Automation shared by the development *)

(** Membership and domain facts that [eauto with nmp] may use. *)
Create HintDb nmp discriminated.

(** Closes a closed goal whose proposition has a [Decision], by evaluating the
    decision procedure in the virtual machine. *)
Ltac decide_now := apply (bool_decide_unpack _); vm_compute; exact I.

(** Splits every boolean or decidable test of the goal's [match]es. *)
Ltac case_tests := repeat (case_match || case_decide); simplify_eq/=.

(** ** Machine integers *)

(** The largest values of Rust's [u32] and [u64], which the models hold in [N]. *)
Definition u32_max : N := 2 ^ 32 - 1.
Definition u64_max : N := 2 ^ 64 - 1.

(** ** Total orders, as Rust's [Ord] *)

Class Ord (A : Type) := cmp : A → A → comparison.
#[global] Hint Mode Ord ! : typeclass_instances.

Class OrdLaws (A : Type) `{Ord A} : Prop := {
  cmp_eq (x y : A) : cmp x y = Eq ↔ x = y;
  cmp_sym (x y : A) : cmp y x = CompOpp (cmp x y);
  cmp_trans (x y z : A) : cmp x y = Lt → cmp y z = Lt → cmp x z = Lt
}.
#[global] Hint Mode OrdLaws ! - : typeclass_instances.

(** [x <= y], as a decidable relation. *)
Definition cmp_le {A} `{Ord A} (x y : A) : Prop := cmp x y ≠ Gt.
Definition cmp_lt {A} `{Ord A} (x y : A) : Prop := cmp x y = Lt.

#[global] Instance cmp_le_dec {A} `{Ord A} (x y : A) : Decision (cmp_le x y).
Proof. unfold cmp_le. destruct (cmp x y); [left|left|right]; congruence. Defined.

#[global] Instance cmp_lt_dec {A} `{Ord A} (x y : A) : Decision (cmp_lt x y).
Proof. unfold cmp_lt. destruct (cmp x y); [right|left|right]; congruence. Defined.

(** Lexicographic continuation: [Ordering::then_with]. *)
Definition then_with (c : comparison) (d : comparison) : comparison :=
  match c with Eq => d | _ => c end.

Section ord_facts.
Context {A} `{OrdLaws A}.
Implicit Types x y z : A.

Lemma cmp_refl x : cmp x x = Eq.
Proof. by apply cmp_eq. Qed.

Lemma cmp_lt_gt x y : cmp x y = Lt ↔ cmp y x = Gt.
Proof. rewrite (cmp_sym x y). by destruct (cmp x y). Qed.

Lemma cmp_lt_irrefl x : ¬ cmp_lt x x.
Proof. unfold cmp_lt. by rewrite cmp_refl. Qed.

Lemma cmp_le_lt_eq x y : cmp_le x y ↔ cmp_lt x y ∨ x = y.
Proof.
  unfold cmp_le, cmp_lt. rewrite <-cmp_eq.
  destruct (cmp x y); intuition congruence.
Qed.

#[global] Instance cmp_lt_trans : Transitive (cmp_lt (A:=A)).
Proof. intros x y z. apply cmp_trans. Qed.

#[global] Instance cmp_lt_strict : StrictOrder (cmp_lt (A:=A)).
Proof. split; [exact cmp_lt_irrefl | apply _]. Qed.

#[global] Instance cmp_le_refl : Reflexive (cmp_le (A:=A)).
Proof. intros x. unfold cmp_le. by rewrite cmp_refl. Qed.

#[global] Instance cmp_le_trans : Transitive (cmp_le (A:=A)).
Proof.
  intros x y z. rewrite !cmp_le_lt_eq.
  intros [?| ->] [?| ->]; auto. left. by etrans.
Qed.

#[global] Instance cmp_le_anti : AntiSymm (=) (cmp_le (A:=A)).
Proof.
  intros x y. rewrite !cmp_le_lt_eq. intros [Hxy| ->] [Hyx| Heq]; auto.
  exfalso. apply (cmp_lt_irrefl x). by etrans.
Qed.

#[global] Instance cmp_le_total : Total (cmp_le (A:=A)).
Proof.
  intros x y. unfold cmp_le. rewrite (cmp_sym x y).
  destruct (cmp x y); naive_solver.
Qed.

Lemma cmp_not_le x y : ¬ cmp_le x y ↔ cmp_lt y x.
Proof.
  unfold cmp_le, cmp_lt. rewrite (cmp_lt_gt y x).
  destruct (cmp x y); naive_solver.
Qed.
End ord_facts.

(** ** Instances *)

#[global] Instance N_ord : Ord N := N.compare.
#[global] Instance N_ord_laws : OrdLaws N.
Proof.
  split; unfold cmp, N_ord.
  - apply N.compare_eq_iff.
  - intros x y. by rewrite N.compare_antisym.
  - intros x y z. rewrite !N.compare_lt_iff. lia.
Qed.

#[global] Instance nat_ord : Ord nat := Nat.compare.
#[global] Instance nat_ord_laws : OrdLaws nat.
Proof.
  split; unfold cmp, nat_ord.
  - apply Nat.compare_eq_iff.
  - intros x y. by rewrite Nat.compare_antisym.
  - intros x y z. rewrite !Nat.compare_lt_iff. lia.
Qed.

(** An order pulled back along an injection: [derive(Ord)] on a struct is the
    order of the tuple of its fields. *)
Definition ord_via {A B} `{Ord B} (f : A → B) : Ord A := λ x y, cmp (f x) (f y).

Lemma ord_via_laws {A B} `{OrdLaws B} (f : A → B) :
  Inj (=) (=) f → @OrdLaws A (ord_via f).
Proof.
  intros Hinj. split; unfold cmp, ord_via.
  - intros x y. rewrite cmp_eq. split; [apply Hinj | by intros ->].
  - intros x y. apply cmp_sym.
  - intros x y z. apply cmp_trans.
Qed.

#[global] Instance ascii_ord : Ord Ascii.ascii := ord_via Ascii.N_of_ascii.
#[global] Instance ascii_ord_laws : OrdLaws Ascii.ascii.
Proof.
  apply ord_via_laws. intros x y Hxy.
  by rewrite <-(Ascii.ascii_N_embedding x), <-(Ascii.ascii_N_embedding y), Hxy.
Qed.

#[global] Instance bool_ord : Ord bool := ord_via (λ b : bool, if b then 1%N else 0%N).
#[global] Instance bool_ord_laws : OrdLaws bool.
Proof. apply ord_via_laws. by intros [] []. Qed.

#[global] Instance prod_ord {A B} `{Ord A, Ord B} : Ord (A * B) :=
  λ x y, then_with (cmp x.1 y.1) (cmp x.2 y.2).
#[global] Instance prod_ord_laws {A B} `{OrdLaws A, OrdLaws B} : OrdLaws (A * B).
Proof.
  split; unfold cmp, prod_ord.
  - intros [x1 x2] [y1 y2]; simpl. split.
    + destruct (cmp x1 y1) eqn:E; simpl; [|done..].
      apply cmp_eq in E as ->. by intros ->%cmp_eq.
    + intros [= -> ->]. by rewrite !cmp_refl.
  - intros [x1 x2] [y1 y2]; simpl.
    rewrite (cmp_sym x1 y1), (cmp_sym x2 y2). by destruct (cmp x1 y1).
  - intros [x1 x2] [y1 y2] [z1 z2]; simpl.
    destruct (cmp x1 y1) eqn:E1; simpl; [|intros _|done].
    + apply cmp_eq in E1 as ->. intros Hxy.
      destruct (cmp y1 z1); simpl; [|done..]. by apply cmp_trans.
    + destruct (cmp y1 z1) eqn:E2; simpl; [|intros _|done].
      * apply cmp_eq in E2 as ->. intros _. by rewrite E1.
      * by rewrite (cmp_trans _ _ _ E1 E2).
Qed.

#[global] Instance option_ord {A} `{Ord A} : Ord (option A) := λ x y,
  match x, y with
  | None, None => Eq | None, Some _ => Lt | Some _, None => Gt
  | Some x, Some y => cmp x y
  end.
#[global] Instance option_ord_laws {A} `{OrdLaws A} : OrdLaws (option A).
Proof.
  split; unfold cmp, option_ord.
  - intros [x|] [y|]; rewrite ?cmp_eq; naive_solver.
  - intros [x|] [y|]; try done. apply cmp_sym.
  - intros [x|] [y|] [z|]; try done. apply cmp_trans.
Qed.

Fixpoint list_cmp {A} `{Ord A} (l k : list A) : comparison :=
  match l, k with
  | [], [] => Eq | [], _ => Lt | _, [] => Gt
  | x :: l, y :: k => then_with (cmp x y) (list_cmp l k)
  end.
#[global] Instance list_ord {A} `{Ord A} : Ord (list A) := list_cmp.
#[global] Instance list_ord_laws {A} `{OrdLaws A} : OrdLaws (list A).
Proof.
  split; unfold cmp, list_ord.
  - induction x as [|x l IH]; intros [|y k]; simpl; try done. split.
    + destruct (cmp x y) eqn:E; simpl; [|done..].
      apply cmp_eq in E as ->. by intros ->%IH.
    + intros [= -> ->]. rewrite cmp_refl. by apply IH.
  - induction x as [|x l IH]; intros [|y k]; simpl; try done.
    rewrite (cmp_sym x y), IH. by destruct (cmp x y).
  - induction x as [|x l IH]; intros [|y k] [|z m]; simpl; try done.
    destruct (cmp x y) eqn:E1; simpl; [|intros _|done].
    + apply cmp_eq in E1 as ->. intros Hxy.
      destruct (cmp y z); simpl; [|done..]. by apply IH.
    + destruct (cmp y z) eqn:E2; simpl; [|intros _|done].
      * apply cmp_eq in E2 as ->. by rewrite E1.
      * by rewrite (cmp_trans _ _ _ E1 E2).
Qed.

(** Rust strings compare as their UTF-8 bytes. *)
#[global] Instance string_ord : Ord string := ord_via String.list_ascii_of_string.
#[global] Instance string_ord_laws : OrdLaws string.
Proof.
  apply ord_via_laws. intros x y Hxy.
  by rewrite <-(String.string_of_list_ascii_of_string x),
    <-(String.string_of_list_ascii_of_string y), Hxy.
Qed.

(** ** [BTreeSet] and [BTreeMap]

    A [BTreeSet<A>] is a [gset A] and a [BTreeMap<K, V>] a [gmap K V]; where
    the source iterates one, the model goes through [ordered] or
    [ordered_map], which list the contents in ascending key order. *)

Definition key_le {K V} `{Ord K} (p q : K * V) : Prop := cmp_le p.1 q.1.
#[global] Instance key_le_dec {K V} `{Ord K} (p q : K * V) : Decision (key_le p q) :=
  cmp_le_dec p.1 q.1.

Definition ordered {A} `{Ord A, Countable A} (X : gset A) : list A :=
  merge_sort cmp_le (elements X).

Definition ordered_map {K V} `{Ord K, Countable K} (m : gmap K V) : list (K * V) :=
  merge_sort key_le (map_to_list m).

Section ordered_set.
Context {A} `{OrdLaws A, Countable A}.
Implicit Types X Y : gset A.

Lemma ordered_perm X : ordered X ≡ₚ elements X.
Proof. apply merge_sort_Permutation. Qed.

Lemma elem_of_ordered X x : x ∈ ordered X ↔ x ∈ X.
Proof. by rewrite ordered_perm, elem_of_elements. Qed.

Lemma NoDup_ordered X : NoDup (ordered X).
Proof. rewrite ordered_perm. apply NoDup_elements. Qed.

Lemma length_ordered X : length (ordered X) = size X.
Proof. by rewrite ordered_perm. Qed.

Lemma Sorted_ordered X : StronglySorted cmp_le (ordered X).
Proof. apply Sorted_StronglySorted; [apply _|]. apply (Sorted_merge_sort _). Qed.

#[global] Instance ordered_inj : Inj (=) (=) (ordered (A:=A)).
Proof.
  intros X Y HXY. apply set_eq. intros x.
  by rewrite <-!elem_of_ordered, HXY.
Qed.
End ordered_set.

Section ordered_map.
Context {K V : Type} `{OrdLaws K, Countable K}.
Implicit Types m : gmap K V.

#[local] Instance key_le_trans : Transitive (key_le (K:=K) (V:=V)).
Proof. intros p q r. unfold key_le. by apply cmp_le_trans. Qed.

#[local] Instance key_le_total : Total (key_le (K:=K) (V:=V)).
Proof. intros p q. unfold key_le. apply (total cmp_le). Qed.

Lemma ordered_map_perm m : ordered_map m ≡ₚ map_to_list m.
Proof. apply merge_sort_Permutation. Qed.

Lemma elem_of_ordered_map m k v : (k, v) ∈ ordered_map m ↔ m !! k = Some v.
Proof. by rewrite ordered_map_perm, elem_of_map_to_list. Qed.

Lemma NoDup_ordered_map_fst m : NoDup (ordered_map m).*1.
Proof. rewrite ordered_map_perm. apply NoDup_fst_map_to_list. Qed.

Lemma elem_of_ordered_map_fst m k : k ∈ (ordered_map m).*1 ↔ is_Some (m !! k).
Proof.
  rewrite list_elem_of_fmap. split.
  - intros ([k' v] & -> & Hm%elem_of_ordered_map). by eexists.
  - intros [v Hv]. exists (k, v). by rewrite elem_of_ordered_map.
Qed.

Lemma length_ordered_map m : length (ordered_map m) = size m.
Proof. by rewrite ordered_map_perm, length_map_to_list. Qed.

Lemma list_to_ordered_map m : list_to_map (ordered_map m) = m.
Proof.
  rewrite <-(list_to_map_to_list m) at 2. apply list_to_map_proper.
  - apply NoDup_ordered_map_fst.
  - apply ordered_map_perm.
Qed.

Lemma Sorted_ordered_map m : StronglySorted key_le (ordered_map m).
Proof. apply Sorted_StronglySorted; [apply _|]. apply (Sorted_merge_sort _). Qed.

#[global] Instance ordered_map_inj : Inj (=) (=) (ordered_map (K:=K) (V:=V)).
Proof.
  intros m1 m2 Heq. by rewrite <-(list_to_ordered_map m1), Heq, list_to_ordered_map.
Qed.
End ordered_map.

#[global] Instance gset_ord {A} `{Ord A, Countable A} : Ord (gset A) := ord_via ordered.
#[global] Instance gset_ord_laws {A} `{OrdLaws A, Countable A} : OrdLaws (gset A).
Proof. apply ord_via_laws. apply _. Qed.

#[global] Instance gmap_ord {K V} `{Ord K, Countable K, Ord V} : Ord (gmap K V) :=
  ord_via ordered_map.
#[global] Instance gmap_ord_laws {K V} `{OrdLaws K, Countable K, OrdLaws V} :
  OrdLaws (gmap K V).
Proof. apply ord_via_laws. apply _. Qed.

(** ** Generic lemmas on maps and lists *)

Lemma map_Forall_list_to_map {K A} `{Countable K} (P : K → A → Prop) (l : list (K * A)) :
  NoDup l.*1 →
  map_Forall P (list_to_map l : gmap K A) ↔ Forall (λ p, P p.1 p.2) l.
Proof.
  intros Hnd. rewrite Forall_forall. split.
  - intros HP [k v] Hin. apply HP. by apply elem_of_list_to_map_1.
  - intros HP k v Hkv. by apply (HP (k, v)), elem_of_list_to_map_2.
Qed.

(** [<[T]>::partition_point]: the length of the prefix satisfying [P]. *)
Fixpoint partition_point {A} (P : A → bool) (l : list A) : nat :=
  match l with
  | [] => 0
  | x :: l => if P x then S (partition_point P l) else 0
  end.

(** [&l[start..end]]; [None] is the panic on an inverted or overlong range. *)
Definition slice {A} (l : list A) (start end_ : nat) : option (list A) :=
  if decide (start ≤ end_ ∧ end_ ≤ length l) then Some (take (end_ - start) (drop start l)) else None.

Section partition_point.
Context {A : Type}.
Implicit Types (P Q : A → bool) (l : list A).

Lemma partition_point_le P l : partition_point P l ≤ length l.
Proof. induction l as [|x l IH]; simpl; [done|]. destruct (P x); lia. Qed.

Lemma partition_point_mono P Q l :
  (∀ x, P x = true → Q x = true) → partition_point P l ≤ partition_point Q l.
Proof.
  intros HPQ. induction l as [|x l IH]; simpl; [done|].
  destruct (P x) eqn:E; [|lia]. rewrite (HPQ _ E). lia.
Qed.

Lemma partition_point_lookup_lt P l i x :
  l !! i = Some x → i < partition_point P l → P x = true.
Proof.
  revert i. induction l as [|y l IH]; intros i; simpl; [done|].
  destruct (P y) eqn:E; [|lia]. destruct i as [|i]; simpl.
  - by intros [= <-].
  - intros Hi Hlt. apply (IH i); [done|lia].
Qed.

Lemma partition_point_lookup_ge P (R : relation A) l i x :
  StronglySorted R l → (∀ x y, R x y → P y = true → P x = true) →
  l !! i = Some x → partition_point P l ≤ i → P x = false.
Proof.
  intros Hs Hdown. revert i. induction Hs as [|y l Hs IH Hy]; intros i; [done|]. simpl.
  destruct (P y) eqn:E.
  - destruct i as [|i]; [lia|]. simpl. intros ??. apply (IH i); [done|lia].
  - intros Hi _. destruct i as [|i]; simpl in Hi; [by simplify_eq|].
    apply not_true_iff_false. intros Hx. rewrite (Hdown y x) in E; [done| |done].
    rewrite Forall_forall in Hy. eapply Hy, list_elem_of_lookup_2, Hi.
Qed.
End partition_point.

Lemma slice_Some {A} (l : list A) s e :
  s ≤ e → e ≤ length l → slice l s e = Some (take (e - s) (drop s l)).
Proof. intros. unfold slice. by rewrite decide_True. Qed.

Lemma elem_of_take_drop {A} (l : list A) s e x :
  x ∈ take (e - s) (drop s l) ↔ ∃ i, l !! i = Some x ∧ s ≤ i < e.
Proof.
  rewrite list_elem_of_lookup. split.
  - intros [i Hi]. apply lookup_take_Some in Hi as [Hi ?]. rewrite lookup_drop in Hi.
    exists (s + i). split; [done|lia].
  - intros (i & Hi & ?). exists (i - s).
    rewrite lookup_take_lt, lookup_drop by lia. by replace (s + (i - s)) with i by lia.
Qed.

Lemma StronglySorted_sublist {A} (R : relation A) (l k : list A) :
  sublist l k → StronglySorted R k → StronglySorted R l.
Proof.
  induction 1 as [|x l k Hs IH|x l k Hs IH]; intros Hk; [done|..].
  - apply StronglySorted_inv in Hk as [Hk Hx]. constructor; [by apply IH|].
    rewrite Forall_forall in *. intros y Hy. apply Hx. by eapply elem_of_sublist.
  - apply StronglySorted_inv in Hk as [Hk _]. by apply IH.
Qed.

Lemma StronglySorted_snoc {A} (R : relation A) (l : list A) x :
  StronglySorted R l → (∀ y, y ∈ l → R y x) → StronglySorted R (l ++ [x]).
Proof.
  intros Hl Hx. apply StronglySorted_app. split_and!; [|done|repeat constructor].
  by intros y z Hy ->%list_elem_of_singleton; apply Hx.
Qed.

Lemma StronglySorted_last {A} (R : relation A) (l : list A) m x :
  StronglySorted R l → last l = Some m → x ∈ l → x = m ∨ R x m.
Proof.
  intros Hs Hm Hx. apply last_Some in Hm as [l' ->].
  apply elem_of_app in Hx as [Hx|Hx%list_elem_of_singleton]; [|by left].
  right. eapply StronglySorted_app_1_elem_of; [done..|]. by apply list_elem_of_singleton.
Qed.

(** A strictly sorted list is determined by its elements. *)
Lemma StronglySorted_ext {A} (R : relation A) (l k : list A) :
  (∀ x y, R x y → R y x → False) → StronglySorted R l → StronglySorted R k → (∀ x, x ∈ l ↔ x ∈ k) → l = k.
Proof.
  intros Hasym. revert k. induction l as [|x l IH]; intros k Hl Hk Hlk.
  - destruct k as [|y k]; [done|]. exfalso. apply (not_elem_of_nil y), Hlk. set_solver.
  - destruct k as [|y k]; [exfalso; apply (not_elem_of_nil x), Hlk; set_solver|].
    apply StronglySorted_inv in Hl as [Hl Hx], Hk as [Hk Hy]. rewrite Forall_forall in Hx, Hy.
    setoid_rewrite elem_of_cons in Hlk.
    assert (x = y) as <-.
    { destruct (proj1 (Hlk x) (or_introl eq_refl)) as [->|Hxk]; [done|].
      destruct (proj2 (Hlk y) (or_introl eq_refl)) as [->|Hyl]; [done|]. exfalso. eauto. }
    f_equal. apply IH; [done..|]. intros z. split; intros Hz.
    + destruct (proj1 (Hlk z) (or_intror Hz)) as [->|]; [|done]. exfalso. eauto.
    + destruct (proj2 (Hlk z) (or_intror Hz)) as [->|]; [|done]. exfalso. eauto.
Qed.

Lemma StronglySorted_omap {A B} (R : relation A) (Q : relation B) (g : A → option B) l :
  StronglySorted R l →
  (∀ x y a b, x ∈ l → y ∈ l → R x y → g x = Some a → g y = Some b → Q a b) → StronglySorted Q (omap g l).
Proof.
  induction 1 as [|x l Hl IH Hx]; intros Hg; simpl; [constructor|].
  assert (StronglySorted Q (omap g l)) as Hs.
  { apply IH. intros x1 y1 a b ????. apply (Hg x1 y1); [by right|by right|done..]. }
  destruct (g x) as [a|] eqn:E; [|done]. constructor; [done|]. rewrite Forall_forall in Hx. rewrite Forall_forall.
  intros b (y & Hy & Hb)%list_elem_of_omap. eapply Hg; [by left|by right|by apply Hx|done..].
Qed.

(** Keeping the first [n] elements and keeping those that satisfy [P]. *)
Lemma elem_of_take_filter {A} (P : A → Prop) `{∀ x, Decision (P x)} n l x :
  x ∈ take n l → P x → x ∈ take n (filter P l).
Proof.
  revert n. induction l as [|y l IH]; intros [|n] Hx Hp; simpl in *; try by apply not_elem_of_nil in Hx.
  rewrite filter_cons. apply elem_of_cons in Hx as [<-|Hx].
  - rewrite decide_True by done. by left.
  - case_decide; [right; by apply IH|]. apply (IH n Hx) in Hp as (i & Hi & ?)%elem_of_take.
    apply elem_of_take. exists i. split; [done|lia].
Qed.

Lemma take_filter_all {A} (P : A → Prop) `{∀ x, Decision (P x)} n l :
  Forall P (take n l) → take n (filter P l) = take n l.
Proof.
  revert n. induction l as [|y l IH]; intros [|n] Hall; simpl in *; try done.
  inversion Hall; subst. rewrite filter_cons_True by done. simpl. f_equal. by apply IH.
Qed.

Lemma existsb_elem {A} (f : A → bool) l : existsb f l = true ↔ ∃ x, x ∈ l ∧ f x = true.
Proof. rewrite existsb_exists. by setoid_rewrite list_elem_of_In. Qed.

Lemma unique_by_key {A K} (f : A → K) (l : list A) (x y : A) :
  NoDup (f <$> l) → x ∈ l → y ∈ l → f x = f y → x = y.
Proof.
  induction l as [|z l IH]; csimpl; [by intros _ ?%not_elem_of_nil|].
  rewrite NoDup_cons, !elem_of_cons, list_elem_of_fmap.
  intros [Hz Hnd] [-> |Hx] [-> |Hy] Heq; [done| | |by apply IH];
    exfalso; apply Hz; eauto.
Qed.

(** A deterministic relation reaches at most one normal form. *)
Lemma deterministic_nf_unique {A} (R : relation A) x y z :
  (∀ x y z, R x y → R x z → y = z) →
  rtc R x y → nf R y → rtc R x z → nf R z → y = z.
Proof.
  intros Hdet Hxy Hy. revert z. induction Hxy as [x|x x' y Hx Hxy IH]; intros z Hxz Hz.
  - by eapply rtc_nf.
  - inversion Hxz as [|? w ? Hxw Hwz]; subst.
    + destruct Hz. by eexists.
    + rewrite (Hdet _ _ _ Hx Hxw) in *. by apply IH.
Qed.

Lemma elem_of_concat {A} (ls : list (list A)) x : x ∈ concat ls ↔ ∃ l, x ∈ l ∧ l ∈ ls.
Proof.
  induction ls as [|l ls IH]; simpl.
  - split; [by intros ?%not_elem_of_nil|by intros (? & _ & ?%not_elem_of_nil)].
  - rewrite elem_of_app, IH. setoid_rewrite elem_of_cons. naive_solver.
Qed.

Lemma elem_of_union_fmap {A B} `{Countable B} (f : A → gset B) (l : list A) x :
  x ∈ ⋃ (f <$> l) ↔ ∃ y, y ∈ l ∧ x ∈ f y.
Proof. rewrite elem_of_union_list. setoid_rewrite list_elem_of_fmap. naive_solver. Qed.

Lemma exists_pair {A B} (P : A * B → Prop) : (∃ p, P p) ↔ ∃ a b, P (a, b).
Proof. split; [intros [[a b] ?]; eauto|intros (a & b & ?); eauto]. Qed.

Lemma size_union_list_le {A} `{Countable A} (Xs : list (gset A)) n :
  (∀ X, X ∈ Xs → size X ≤ n) → size (⋃ Xs) ≤ n * length Xs.
Proof.
  induction Xs as [|X Xs IH]; intros HX; [apply Nat.le_0_l|]; cbn [union_list foldr length].
  assert (size (X ∪ ⋃ Xs) ≤ size X + size (⋃ Xs)) as Hle.
  { rewrite size_union_alt. pose proof (subseteq_size (⋃ Xs ∖ X) (⋃ Xs) ltac:(set_solver)). lia. }
  pose proof (HX X ltac:(left)). assert (size (⋃ Xs) ≤ n * length Xs) by (apply IH; set_solver). lia.
Qed.

(** A fallible left fold succeeds with an invariant of the processed prefix. *)
Lemma foldl_option_ind {A B} (f : B → A → option B) (P : list A → B → Prop) (l : list A) b :
  P [] b →
  (∀ pre x post b, l = pre ++ x :: post → P pre b → ∃ b', f b x = Some b' ∧ P (pre ++ [x]) b') →
  ∃ b', foldl (λ o x, b ← o; f b x) (Some b) l = Some b' ∧ P l b'.
Proof.
  intros Hb Hstep.
  cut (∀ post pre b, l = pre ++ post → P pre b →
         ∃ b', foldl (λ o x, b ← o; f b x) (Some b) post = Some b' ∧ P l b').
  { intros Hgo. by apply (Hgo l [] b). }
  induction post as [|x post IH]; intros pre b' Hl HP; simpl.
  - rewrite app_nil_r in Hl. subst. by exists b'.
  - destruct (Hstep pre x post b' Hl HP) as (b'' & -> & HP').
    apply (IH (pre ++ [x])); [|done]. by rewrite Hl, <-(assoc_L (++)).
Qed.

(** The same for a loop that is known to succeed. *)
Lemma foldl_option_inv {A B} (f : B → A → option B) (P : list A → B → Prop) (l : list A) b b' :
  P [] b →
  (∀ pre x post b c, l = pre ++ x :: post → P pre b → f b x = Some c → P (pre ++ [x]) c) →
  foldl (λ o x, b ← o; f b x) (Some b) l = Some b' → P l b'.
Proof.
  intros Hb Hstep.
  cut (∀ post pre b, l = pre ++ post → P pre b →
         foldl (λ o x, b ← o; f b x) (Some b) post = Some b' → P l b').
  { intros Hgo. by apply (Hgo l [] b). }
  induction post as [|x post IH]; intros pre c Hl Hc; simpl.
  - intros [= <-]. by rewrite Hl, app_nil_r.
  - destruct (f c x) as [d|] eqn:E.
    + intros Hf. apply (IH (pre ++ [x]) d); [by rewrite <-app_assoc|by eapply Hstep|done].
    + intros Hf. exfalso. clear -Hf. by induction post.
Qed.

(** ** Comparators

    A closure passed to [sort_by] is a chain of comparisons joined by [then];
    the chain is again an ordering up to ties. *)

Record Comparator {A} (c : A → A → comparison) : Prop := {
  comparator_opp x y : c y x = CompOpp (c x y);
  comparator_trans x y z : c x y ≠ Gt → c y z ≠ Gt → c x z ≠ Gt
}.

Lemma comparator_by {A B} `{OrdLaws B} (f : A → B) : Comparator (λ x y, cmp (f x) (f y)).
Proof. split; [intros; apply cmp_sym|]. intros x y z. apply (cmp_le_trans (f x)). Qed.

Lemma comparator_rev {A} (c : A → A → comparison) : Comparator c → Comparator (flip c).
Proof.
  intros Hc. split; unfold flip; [intros; apply Hc|]. intros x y z ??. by apply (comparator_trans c Hc z y x).
Qed.

Lemma comparator_lt {A} (c : A → A → comparison) x y z :
  Comparator c → c x y ≠ Gt → c y z ≠ Gt → c x y = Lt ∨ c y z = Lt → c x z = Lt.
Proof.
  intros Hc Hxy Hyz Hlt. pose proof (comparator_trans c Hc x y z Hxy Hyz) as Hxz.
  destruct (c x z) eqn:E; [exfalso|done..].
  assert (c z x ≠ Gt) as Hzx by (by rewrite (comparator_opp c Hc), E).
  destruct Hlt as [E'|E'].
  - apply (comparator_trans c Hc y z x Hyz Hzx). by rewrite (comparator_opp c Hc), E'.
  - apply (comparator_trans c Hc z x y Hzx Hxy). by rewrite (comparator_opp c Hc), E'.
Qed.

Lemma comparator_then {A} (c d : A → A → comparison) :
  Comparator c → Comparator d → Comparator (λ x y, then_with (c x y) (d x y)).
Proof.
  intros Hc Hd. split.
  - intros x y. rewrite (comparator_opp c Hc), (comparator_opp d Hd). by destruct (c x y), (d x y).
  - intros x y z Hxy Hyz.
    assert (c x y ≠ Gt) as Cxy by (by intros E; rewrite E in Hxy).
    assert (c y z ≠ Gt) as Cyz by (by intros E; rewrite E in Hyz).
    pose proof (comparator_trans c Hc x y z Cxy Cyz) as Cxz. pose proof (comparator_lt c x y z Hc Cxy Cyz).
    destruct (c x z) eqn:Exz; [|done..]. simpl.
    destruct (c x y) eqn:Exy; [|naive_solver..]. destruct (c y z) eqn:Eyz; [|naive_solver..].
    by apply (comparator_trans d Hd x y z).
Qed.

Section sort_by.
Context {A : Type} (R : relation A) `{∀ x y, Decision (R x y)} (c : A → A → comparison).
Context (Hc : Comparator c) (HR : ∀ x y, R x y ↔ c x y ≠ Gt).

Lemma sort_by_sorted l : StronglySorted R (merge_sort R l).
Proof.
  assert (Transitive R) by (intros x y z; rewrite !HR; apply Hc).
  assert (Total R).
  { intros x y. rewrite !HR, (comparator_opp c Hc x y). destruct (c x y); naive_solver. }
  apply Sorted_StronglySorted; [done|]. apply (Sorted_merge_sort _).
Qed.

(** Keeping a prefix of the sorted list keeps the best. *)
Lemma sort_by_prefix l n x y :
  x ∈ take n (merge_sort R l) → y ∈ drop n (merge_sort R l) → R x y.
Proof.
  intros Hx Hy. pose proof (sort_by_sorted l) as Hs. rewrite <-(take_drop n (merge_sort R l)) in Hs.
  apply StronglySorted_app in Hs as (Hs & _). by apply Hs.
Qed.
End sort_by.
