(* ===== verification/Grammar.v ===== *)
(** * The value vocabulary of [nmp-grammar]

    Resolved filters, demand atoms and their identity context, translated from
    [crates/nmp-grammar/src/{concrete,descriptor,indexed_tag_name,demand}.rs],
    and the part of the [nostr] crate they are lowered to.

    [nostr] is a third-party crate.  Its identifiers ([PublicKey], [EventId],
    [RelayUrl]) are compared, ordered and stored by the code but never looked
    into, so they are modelled as opaque numbers and strings; its functions are
    the parameters of the classes [HexCodec] and [EventMatcher], with the
    documented behaviour the code relies on as [HexLaws] and [MatchLaws]. *)

From S2P Require Import Prelude.
From Stdlib Require HexString.

Abbreviation PublicKey := N (only parsing).
Abbreviation EventId := N (only parsing).
Abbreviation RelayUrl := string (only parsing).

(** ** Tag names *)

(** [IndexedTagName(char)]: a Rust [char], as its scalar value. *)
Record IndexedTagName := mkTagName { as_char : N }.

#[global] Instance IndexedTagName_eq_dec : EqDecision IndexedTagName.
Proof. solve_decision. Defined.
#[global] Instance IndexedTagName_countable : Countable IndexedTagName.
Proof. by refine (inj_countable' as_char mkTagName _); intros []. Defined.
#[global] Instance IndexedTagName_ord : Ord IndexedTagName := ord_via as_char.
#[global] Instance IndexedTagName_ord_laws : OrdLaws IndexedTagName.
Proof. apply ord_via_laws. by intros [] [] [= ->]. Qed.

(** [char::is_ascii_alphabetic]. *)
Definition is_ascii_alphabetic (c : N) : bool :=
  ((65 <=? c) && (c <=? 90) || (97 <=? c) && (c <=? 122))%N.

(** [IndexedTagName::new]. *)
Definition tag_name_new (c : N) : option IndexedTagName :=
  if is_ascii_alphabetic c then Some (mkTagName c) else None.

(** ** Resolved filters *)

Record ConcreteFilter := mkFilter {
  f_kinds : option (gset N);
  f_authors : option (gset string);
  f_ids : option (gset string);
  f_tags : gmap IndexedTagName (gset string);
  f_since : option N;
  f_until : option N;
  f_limit : option N
}.

(** [derive(Ord)]: the fields in declaration order. *)
Definition filter_fields (f : ConcreteFilter) :=
  (f_kinds f, (f_authors f, (f_ids f, (f_tags f, (f_since f, (f_until f, f_limit f)))))).
Definition filter_of_fields
    (t : option (gset N) * (option (gset string) * (option (gset string) *
         (gmap IndexedTagName (gset string) * (option N * (option N * option N)))))) :=
  let '(k, (a, (i, (t, (s, (u, l)))))) := t in mkFilter k a i t s u l.

Lemma filter_of_fields_of f : filter_of_fields (filter_fields f) = f.
Proof. by destruct f. Qed.

#[global] Instance filter_fields_inj : Inj (=) (=) filter_fields.
Proof. intros f g Hfg. by rewrite <-(filter_of_fields_of f), Hfg, filter_of_fields_of. Qed.
#[global] Instance ConcreteFilter_eq_dec : EqDecision ConcreteFilter.
Proof. solve_decision. Defined.
#[global] Instance ConcreteFilter_countable : Countable ConcreteFilter.
Proof. exact (inj_countable' filter_fields filter_of_fields filter_of_fields_of). Defined.
#[global] Instance ConcreteFilter_ord : Ord ConcreteFilter := ord_via filter_fields.
#[global] Instance ConcreteFilter_ord_laws : OrdLaws ConcreteFilter.
Proof. apply ord_via_laws. apply _. Qed.

Definition filter_default : ConcreteFilter := mkFilter None None None ∅ None None None.

(** Field updates, as [f.kinds = ...] in the source. *)
Definition set_kinds (k : option (gset N)) (f : ConcreteFilter) : ConcreteFilter :=
  mkFilter k (f_authors f) (f_ids f) (f_tags f) (f_since f) (f_until f) (f_limit f).
Definition set_authors (a : option (gset string)) (f : ConcreteFilter) : ConcreteFilter :=
  mkFilter (f_kinds f) a (f_ids f) (f_tags f) (f_since f) (f_until f) (f_limit f).
Definition set_ids (i : option (gset string)) (f : ConcreteFilter) : ConcreteFilter :=
  mkFilter (f_kinds f) (f_authors f) i (f_tags f) (f_since f) (f_until f) (f_limit f).
Definition set_tags (t : gmap IndexedTagName (gset string)) (f : ConcreteFilter) : ConcreteFilter :=
  mkFilter (f_kinds f) (f_authors f) (f_ids f) t (f_since f) (f_until f) (f_limit f).

(** ** Routing and identity context *)

Inductive ReadRouting := Auto | Explicit (relays : list RelayUrl).

Definition routing_relays (r : ReadRouting) : option (list RelayUrl) :=
  match r with Auto => None | Explicit rs => Some rs end.
Definition routing_of_relays (o : option (list RelayUrl)) : ReadRouting :=
  match o with None => Auto | Some rs => Explicit rs end.

#[global] Instance ReadRouting_eq_dec : EqDecision ReadRouting.
Proof. solve_decision. Defined.
#[global] Instance ReadRouting_countable : Countable ReadRouting.
Proof. by refine (inj_countable' routing_relays routing_of_relays _); intros []. Defined.
#[global] Instance ReadRouting_ord : Ord ReadRouting := ord_via routing_relays.
#[global] Instance ReadRouting_ord_laws : OrdLaws ReadRouting.
Proof. apply ord_via_laws. by intros [] [] [=]; simplify_eq. Qed.

Inductive RoutingEvidenceKind := Hint | SourceProvenance.

Definition evidence_kind_tag (k : RoutingEvidenceKind) : bool :=
  match k with Hint => false | SourceProvenance => true end.

#[global] Instance RoutingEvidenceKind_eq_dec : EqDecision RoutingEvidenceKind.
Proof. solve_decision. Defined.

Record RoutingEvidence := mkEvidence { ev_relay : RelayUrl; ev_origin : RoutingEvidenceKind }.

Definition evidence_fields (e : RoutingEvidence) := (ev_relay e, evidence_kind_tag (ev_origin e)).
Definition evidence_of_fields (p : string * bool) : RoutingEvidence :=
  mkEvidence p.1 (if p.2 then SourceProvenance else Hint).
Lemma evidence_of_fields_of e : evidence_of_fields (evidence_fields e) = e.
Proof. by destruct e as [? []]. Qed.

#[global] Instance RoutingEvidence_eq_dec : EqDecision RoutingEvidence.
Proof. solve_decision. Defined.
#[global] Instance RoutingEvidence_countable : Countable RoutingEvidence.
Proof. exact (inj_countable' evidence_fields evidence_of_fields evidence_of_fields_of). Defined.
#[global] Instance RoutingEvidence_ord : Ord RoutingEvidence := ord_via evidence_fields.
#[global] Instance RoutingEvidence_ord_laws : OrdLaws RoutingEvidence.
Proof.
  apply ord_via_laws. intros e e' He.
  by rewrite <-(evidence_of_fields_of e), He, evidence_of_fields_of.
Qed.

Record ContextualAtom := mkAtom {
  a_filter : ConcreteFilter;
  a_routing : ReadRouting;
  a_authenticate_as : option PublicKey;
  a_routing_evidence : gset RoutingEvidence
}.

Definition atom_fields (a : ContextualAtom) :=
  (a_filter a, (a_routing a, (a_authenticate_as a, a_routing_evidence a))).
Definition atom_of_fields
    (t : ConcreteFilter * (ReadRouting * (option N * gset RoutingEvidence))) : ContextualAtom :=
  let '(f, (r, (p, e))) := t in mkAtom f r p e.
Lemma atom_of_fields_of a : atom_of_fields (atom_fields a) = a.
Proof. by destruct a. Qed.

#[global] Instance atom_fields_inj : Inj (=) (=) atom_fields.
Proof. intros a b Hab. by rewrite <-(atom_of_fields_of a), Hab, atom_of_fields_of. Qed.
#[global] Instance ContextualAtom_eq_dec : EqDecision ContextualAtom.
Proof. solve_decision. Defined.
#[global] Instance ContextualAtom_countable : Countable ContextualAtom.
Proof. exact (inj_countable' atom_fields atom_of_fields atom_of_fields_of). Defined.
#[global] Instance ContextualAtom_ord : Ord ContextualAtom := ord_via atom_fields.
#[global] Instance ContextualAtom_ord_laws : OrdLaws ContextualAtom.
Proof. apply ord_via_laws. apply _. Qed.

Record RelaySessionKey := mkSession { s_relay : RelayUrl; s_authenticate_as : option PublicKey }.

Definition session_fields (s : RelaySessionKey) := (s_relay s, s_authenticate_as s).
Definition session_of_fields (p : string * option N) : RelaySessionKey := mkSession p.1 p.2.
Lemma session_of_fields_of s : session_of_fields (session_fields s) = s.
Proof. by destruct s. Qed.

#[global] Instance RelaySessionKey_eq_dec : EqDecision RelaySessionKey.
Proof. solve_decision. Defined.
#[global] Instance RelaySessionKey_countable : Countable RelaySessionKey.
Proof. exact (inj_countable' session_fields session_of_fields session_of_fields_of). Defined.
#[global] Instance RelaySessionKey_ord : Ord RelaySessionKey := ord_via session_fields.
#[global] Instance RelaySessionKey_ord_laws : OrdLaws RelaySessionKey.
Proof.
  apply ord_via_laws. intros s t Hst.
  by rewrite <-(session_of_fields_of s), Hst, session_of_fields_of.
Qed.

(** ** The [nostr] crate: events, filters, and the parameters standing for its code *)

(** A signed NIP-01 event: the fields of [nostr::Event]. *)
Record Event := mkEvent {
  e_id : EventId;
  e_pubkey : PublicKey;
  e_created_at : N;
  e_kind : N;
  e_tags : list (list string);
  e_content : string;
  e_sig : N
}.

#[global] Instance Event_eq_dec : EqDecision Event.
Proof. solve_decision. Defined.

(** The fields of [nostr::Filter]; [nf_generic_tags] is keyed by the letter of
    its [SingleLetterTag]. *)
Record NFilter := mkNFilter {
  nf_ids : option (gset EventId);
  nf_authors : option (gset PublicKey);
  nf_kinds : option (gset N);
  nf_search : option string;
  nf_since : option N;
  nf_until : option N;
  nf_limit : option N;
  nf_generic_tags : gmap N (gset string)
}.

(** [PublicKey::{from_hex,to_hex}] and [EventId::{from_hex,to_hex}]. *)
Class HexCodec := {
  pk_from_hex : string → option PublicKey;
  pk_to_hex : PublicKey → string;
  id_from_hex : string → option EventId;
  id_to_hex : EventId → string
}.

(** Lowercase hexadecimal digits. *)
Definition is_hex_char (c : Ascii.ascii) : Prop :=
  c ∈ String.list_ascii_of_string "0123456789abcdef".
Definition hex_string (s : string) : Prop := Forall is_hex_char (String.list_ascii_of_string s).

#[global] Instance hex_string_dec s : Decision (hex_string s).
Proof. unfold hex_string, is_hex_char. apply _. Defined.

Class HexLaws `{HexCodec} : Prop := {
  pk_from_to_hex (p : PublicKey) : pk_from_hex (pk_to_hex p) = Some p;
  id_from_to_hex (i : EventId) : id_from_hex (id_to_hex i) = Some i;
  pk_to_hex_digits (p : PublicKey) : hex_string (pk_to_hex p)
}.

#[global] Instance pk_to_hex_inj `{HexLaws} : Inj (=) (=) pk_to_hex.
Proof. intros p q Hpq. apply (inj Some). by rewrite <-!pk_from_to_hex, Hpq. Qed.

(** [nostr::Filter::match_event] under [MatchEventOptions::new()]. *)
Class EventMatcher := match_event : NFilter → Event → bool.

(** An absent or empty value set constrains nothing. *)
Definition admits {A} `{Countable A} (o : option (gset A)) (x : A) : Prop :=
  match o with None => True | Some X => X = ∅ ∨ x ∈ X end.

Definition letter_string (c : N) : string := String (Ascii.ascii_of_N c) EmptyString.

(** Some tag named by the letter [c] carries one of [values] as its content. *)
Definition tag_admits (e : Event) (c : N) (values : gset string) : Prop :=
  Exists (λ tag, match tag with
                 | name :: v :: _ => name = letter_string c ∧ v ∈ values
                 | _ => False
                 end) (e_tags e).

Definition since_admits (o : option N) (t : N) : Prop :=
  match o with None => True | Some s => (s ≤ t)%N end.
Definition until_admits (o : option N) (t : N) : Prop :=
  match o with None => True | Some u => (t ≤ u)%N end.

(** NIP-01 filter semantics: conditions on distinct fields, and on distinct tag
    names, are conjunctive; the values of one field or name are alternatives. *)
Definition nip01_matches (f : NFilter) (e : Event) : Prop :=
  admits (nf_ids f) (e_id e) ∧ admits (nf_authors f) (e_pubkey e) ∧
  admits (nf_kinds f) (e_kind e) ∧
  since_admits (nf_since f) (e_created_at e) ∧ until_admits (nf_until f) (e_created_at e) ∧
  map_Forall (tag_admits e) (nf_generic_tags f).

Class MatchLaws `{EventMatcher} : Prop :=
  match_event_spec (f : NFilter) (e : Event) :
    nf_search f = None → match_event f e = true ↔ nip01_matches f e.

#[global] Instance admits_dec {A} `{Countable A} (o : option (gset A)) x : Decision (admits o x).
Proof. destruct o; simpl; apply _. Defined.
#[global] Instance tag_admits_dec e c values : Decision (tag_admits e c values).
Proof. apply Exists_dec. intros [|name [|v tag]]; apply _. Defined.
#[global] Instance since_admits_dec o t : Decision (since_admits o t).
Proof. destruct o; simpl; apply _. Defined.
#[global] Instance until_admits_dec o t : Decision (until_admits o t).
Proof. destruct o; simpl; apply _. Defined.
#[global] Instance nip01_matches_dec f e : Decision (nip01_matches f e).
Proof. unfold nip01_matches. apply _. Defined.

(** ** Lowering to [nostr::Filter] *)

Section to_nostr.
Context `{HexCodec}.

Definition parse_set {A} `{Countable A} (parse : string → option A)
    (o : option (gset string)) : option (option (gset A)) :=
  match o with
  | None => Some None
  | Some X => xs ← mapM parse (ordered X); Some (Some (list_to_set xs))
  end.

Definition parse_tag (p : IndexedTagName * gset string) : option (N * gset string) :=
  if is_ascii_alphabetic (as_char p.1) then Some (as_char p.1, p.2) else None.

(** [ConcreteFilter::to_nostr]; [None] is its panic on a malformed author, id
    or tag letter. *)
Definition to_nostr (f : ConcreteFilter) : option NFilter :=
  authors ← parse_set pk_from_hex (f_authors f);
  ids ← parse_set id_from_hex (f_ids f);
  tags ← mapM parse_tag (ordered_map (f_tags f));
  Some (mkNFilter ids authors (f_kinds f) None (f_since f) (f_until f) (f_limit f)
          (list_to_map tags)).

(** [filter.to_nostr().match_event(event, ..)], the only way the code asks
    whether an event matches a resolved filter. *)
Definition filter_matches `{EventMatcher} (f : ConcreteFilter) (e : Event) : option bool :=
  nf ← to_nostr f; Some (match_event nf e).
End to_nostr.

(** ** What [filter_matches] computes on a well-formed filter *)

Section matching.
Context `{HexCodec}.

Definition parses {A} (parse : string → option A) (o : option (gset string)) : Prop :=
  match o with None => True | Some X => set_Forall (λ s, is_Some (parse s)) X end.
#[global] Instance parses_dec {A} (parse : string → option A) o : Decision (parses parse o).
Proof. destruct o; simpl; apply _. Defined.

(** The construction invariant [to_nostr] states: authors and ids are hex,
    tag names are letters. *)
Definition wf_filter (f : ConcreteFilter) : Prop :=
  parses pk_from_hex (f_authors f) ∧ parses id_from_hex (f_ids f) ∧
  map_Forall (λ name _, is_ascii_alphabetic (as_char name) = true) (f_tags f).

Definition str_admits {A} (parse : string → option A) (o : option (gset string)) (x : A) : Prop :=
  match o with None => True | Some X => X = ∅ ∨ ∃ s, s ∈ X ∧ parse s = Some x end.

Definition concrete_matches (f : ConcreteFilter) (e : Event) : Prop :=
  admits (f_kinds f) (e_kind e) ∧
  str_admits pk_from_hex (f_authors f) (e_pubkey e) ∧
  str_admits id_from_hex (f_ids f) (e_id e) ∧
  since_admits (f_since f) (e_created_at e) ∧ until_admits (f_until f) (e_created_at e) ∧
  map_Forall (λ name values, tag_admits e (as_char name) values) (f_tags f).

Lemma parse_set_spec {A} `{Countable A} (parse : string → option A) o :
  parses parse o →
  ∃ o', parse_set parse o = Some o' ∧ ∀ x, admits o' x ↔ str_admits parse o x.
Proof.
  destruct o as [X|]; simpl; [|by exists None].
  intros HX.
  destruct (mapM parse (ordered X)) as [xs|] eqn:E.
  - exists (Some (list_to_set xs)). split; [done|]. intros x. simpl.
    apply mapM_Some in E.
    assert (∀ x, x ∈ xs ↔ ∃ s, s ∈ X ∧ parse s = Some x) as Helem.
    { intros y. split.
      - intros [i Hi]%list_elem_of_lookup.
        destruct (Forall2_lookup_r _ _ _ _ _ E Hi) as (s & Hs & Hp).
        exists s. split; [|done]. apply elem_of_ordered. by eapply list_elem_of_lookup_2.
      - intros (s & Hs & Hp). apply elem_of_ordered in Hs.
        apply list_elem_of_lookup in Hs as [i Hi].
        destruct (Forall2_lookup_l _ _ _ _ _ E Hi) as (z & Hz & Hp').
        simplify_eq. by eapply list_elem_of_lookup_2. }
    rewrite elem_of_list_to_set, Helem.
    assert (list_to_set (C:=gset A) xs = ∅ ↔ X = ∅) as ->; [|done].
    rewrite !elem_of_equiv_empty_L. split.
    + intros Hxs s Hs. destruct (HX s Hs) as [x' Hx']. apply (Hxs x').
      rewrite elem_of_list_to_set, Helem. by exists s.
    + intros HXe x' (s & Hs & _)%elem_of_list_to_set%Helem. by apply (HXe s).
  - exfalso. apply mapM_None, Exists_exists in E as (s & Hs & HN).
    apply elem_of_ordered in Hs. destruct (HX s Hs). congruence.
Qed.

Lemma parse_tags_spec (m : gmap IndexedTagName (gset string)) :
  map_Forall (λ name _, is_ascii_alphabetic (as_char name) = true) m →
  ∃ l, mapM parse_tag (ordered_map m) = Some l ∧
    ∀ P : N → gset string → Prop,
      map_Forall P (list_to_map l : gmap N (gset string)) ↔ map_Forall (λ name, P (as_char name)) m.
Proof.
  intros Hm. exists ((λ p, (as_char p.1, p.2)) <$> ordered_map m). split.
  - apply mapM_Some, Forall2_fmap_r, Forall_Forall2_diag, Forall_forall.
    intros [name v] Hin%elem_of_ordered_map. unfold parse_tag; simpl.
    by rewrite (Hm _ _ Hin).
  - intros P. rewrite map_Forall_list_to_map.
    2: { rewrite <-list_fmap_compose.
         rewrite (list_fmap_ext _ (as_char ∘ fst)); [|done].
         rewrite list_fmap_compose. apply NoDup_fmap_2, NoDup_ordered_map_fst.
         by intros [] [] [= ->]. }
    rewrite Forall_fmap, Forall_forall. unfold compose; simpl. split.
    + intros Hall name v Hv. by apply (Hall (name, v)), elem_of_ordered_map.
    + intros Hall [name v] Hin%elem_of_ordered_map. by apply (Hall name v).
Qed.

Lemma to_nostr_spec f :
  wf_filter f →
  ∃ nf, to_nostr f = Some nf ∧ nf_search nf = None ∧
    ∀ e, nip01_matches nf e ↔ concrete_matches f e.
Proof.
  intros (Ha & Hi & Ht). unfold to_nostr.
  destruct (parse_set_spec _ _ Ha) as (oa & -> & Hoa).
  destruct (parse_set_spec _ _ Hi) as (oi & -> & Hoi).
  destruct (parse_tags_spec _ Ht) as (lt & -> & Hlt).
  simpl. eexists. split; [done|]. split; [done|]. intros e.
  unfold nip01_matches, concrete_matches; simpl.
  rewrite Hoa, Hoi, (Hlt (tag_admits e)). tauto.
Qed.

Lemma filter_matches_spec `{MatchLaws} f e :
  wf_filter f →
  ∃ b, filter_matches f e = Some b ∧ (b = true ↔ concrete_matches f e).
Proof.
  intros Hwf. destruct (to_nostr_spec f Hwf) as (nf & Hnf & Hs & Hspec).
  exists (match_event nf e). unfold filter_matches. rewrite Hnf. split; [done|].
  by rewrite match_event_spec, Hspec.
Qed.
End matching.

(** ** A concrete instance of the parameters, for closed evaluation *)

Module Sample.
Definition to_hex (n : N) : string :=
  match n with N0 => "0"%string | Npos p => HexString.Raw.of_pos p EmptyString end.
Definition from_hex (s : string) : option N :=
  let n := HexString.Raw.to_N s 0 in
  if String.eqb (to_hex n) s then Some n else None.

Lemma from_to_hex n : from_hex (to_hex n) = Some n.
Proof.
  unfold from_hex. assert (HexString.Raw.to_N (to_hex n) 0 = n) as ->.
  { destruct n; [done|]. unfold to_hex. by rewrite HexString.Raw.to_N_of_pos. }
  by rewrite String.eqb_refl.
Qed.

Lemma hex_string_cons c s : is_hex_char c → hex_string s → hex_string (String c s).
Proof. by constructor. Qed.

Fixpoint of_pos_digits (p : positive) (rest : string) {struct p} :
  hex_string rest → hex_string (HexString.Raw.of_pos p rest).
Proof.
  intros Hrest. do 4 try destruct p as [p|p|]; simpl;
    try (apply of_pos_digits); (apply hex_string_cons; [|done]);
    by apply (bool_decide_unpack _).
Qed.

Lemma to_hex_digits n : hex_string (to_hex n).
Proof.
  destruct n as [|p]; [by apply (bool_decide_unpack _)|].
  apply of_pos_digits. constructor.
Qed.

#[global] Instance sample_hex : HexCodec := {|
  pk_from_hex := from_hex; pk_to_hex := to_hex;
  id_from_hex := from_hex; id_to_hex := to_hex |}.
#[global] Instance sample_hex_laws : HexLaws.
Proof. split; auto using from_to_hex, to_hex_digits. Qed.

#[global] Instance sample_matcher : EventMatcher := λ f e, bool_decide (nip01_matches f e).
#[global] Instance sample_matcher_laws : MatchLaws.
Proof. intros f e _. unfold match_event, sample_matcher. by rewrite bool_decide_eq_true. Qed.
End Sample.
