(* ===== verification/Address.v ===== *)
(** * Replaceable and addressable keys

    [crates/nmp-store/src/address_key.rs]: which events compete for one address,
    the durable spelling of an address, and the rule that picks its winner. *)

From S2P Require Import Prelude Grammar.
From stdpp Require Import pretty.

(** [nostr::Tags::identifier]: the content of the [d] tag, if any. *)
Class TagReader := tags_identifier : list (list string) → option string.

#[global] Instance sample_tag_reader : TagReader := λ tags,
  head (omap (λ tag, match tag with
                     | name :: v :: _ => if String.eqb name "d" then Some v else None
                     | _ => None
                     end) tags).

Inductive AddressKey :=
  | Replaceable (pk : PublicKey) (kind : N)
  | Addressable (pk : PublicKey) (kind : N) (d : string).

#[global] Instance AddressKey_eq_dec : EqDecision AddressKey.
Proof. solve_decision. Defined.

Definition is_replaceable_kind (kind : N) : bool :=
  ((kind =? 0) || (kind =? 3) || (10000 <=? kind) && (kind <=? 19999))%N.

Definition is_addressable_kind (kind : N) : bool :=
  ((30000 <=? kind) && (kind <=? 39999))%N.

Definition address_key_for `{TagReader} (e : Event) : option AddressKey :=
  if is_replaceable_kind (e_kind e) then Some (Replaceable (e_pubkey e) (e_kind e))
  else if is_addressable_kind (e_kind e) then
    Some (Addressable (e_pubkey e) (e_kind e) (default ""%string (tags_identifier (e_tags e))))
  else None.

(** [nostr::nips::nip01::Coordinate]. *)
Record Coordinate := mkCoordinate { co_kind : N; co_public_key : PublicKey; co_identifier : string }.

Definition address_key_for_coordinate (c : Coordinate) : option AddressKey :=
  if is_replaceable_kind (co_kind c) then Some (Replaceable (co_public_key c) (co_kind c))
  else if is_addressable_kind (co_kind c) then
    Some (Addressable (co_public_key c) (co_kind c) (co_identifier c))
  else None.

Definition nul : string := String (Ascii.ascii_of_nat 0) EmptyString.

(** [AddressKey::to_redb_key]; a [u16] prints in decimal. *)
Definition to_redb_key `{HexCodec} (k : AddressKey) : string :=
  match k with
  | Replaceable pk kind => "R" +:+ nul +:+ pk_to_hex pk +:+ nul +:+ pretty kind
  | Addressable pk kind d =>
      "A" +:+ nul +:+ pk_to_hex pk +:+ nul +:+ pretty kind +:+ nul +:+ d
  end.

Definition candidate_wins (candidate current : Event) : bool :=
  match cmp (e_created_at candidate) (e_created_at current) with
  | Gt => true
  | Lt => false
  | Eq => bool_decide (cmp_lt (e_id candidate) (e_id current))
  end.

(** The row an address holds after its events arrive in the order [l]: each
    arrival takes the address iff it wins over the row there. *)
Definition arrive (current : option Event) (e : Event) : option Event :=
  match current with
  | None => Some e
  | Some c => if candidate_wins e c then Some e else Some c
  end.
Definition winner (l : list Event) : option Event := foldl arrive None l.

(** ** The competition order *)

Lemma candidate_wins_spec a b :
  candidate_wins a b = true ↔
    (e_created_at b < e_created_at a)%N ∨
    e_created_at a = e_created_at b ∧ (e_id a < e_id b)%N.
Proof.
  unfold candidate_wins, cmp, N_ord.
  destruct (N.compare_spec (e_created_at a) (e_created_at b)) as [Heq|Hlt|Hgt].
  - rewrite bool_decide_eq_true. unfold cmp_lt, cmp, N_ord. rewrite N.compare_lt_iff. lia.
  - split; [done|]. lia.
  - split; [|done]. lia.
Qed.

(** Losing both ways means being the same event id at the same instant. *)
Lemma candidate_wins_total a b :
  e_id a ≠ e_id b → candidate_wins a b = negb (candidate_wins b a).
Proof.
  intros Hid. apply eq_true_iff_eq. rewrite negb_true_iff, <-not_true_iff_false.
  rewrite !candidate_wins_spec. lia.
Qed.

Lemma candidate_wins_trans a b c :
  candidate_wins a b = true → candidate_wins b c = true → candidate_wins a c = true.
Proof. rewrite !candidate_wins_spec. lia. Qed.

Lemma candidate_wins_irrefl a : candidate_wins a a = false.
Proof. apply not_true_iff_false. rewrite candidate_wins_spec. lia. Qed.

(** [w] beats every other member of [l]. *)
Definition beats_all (w : Event) (l : list Event) : Prop :=
  w ∈ l ∧ ∀ e, e ∈ l → e = w ∨ candidate_wins w e = true.

Lemma winner_snoc l e : winner (l ++ [e]) = arrive (winner l) e.
Proof. unfold winner. by rewrite foldl_app. Qed.

Lemma winner_beats_all l :
  NoDup (e_id <$> l) → l ≠ [] → ∃ w, winner l = Some w ∧ beats_all w l.
Proof.
  induction l as [|e l IH] using rev_ind; [done|]. intros Hnd _.
  rewrite fmap_app, NoDup_app in Hnd. destruct Hnd as (Hnd & Hdisj & _).
  rewrite winner_snoc. destruct (decide (l = [])) as [-> |Hne].
  { exists e. split; [done|]. split; [set_solver|]. simpl. set_solver. }
  destruct (IH Hnd Hne) as (w & -> & Hw & Hall). simpl.
  assert (e_id e ≠ e_id w) as Hid.
  { intros Heq. apply (Hdisj (e_id e)); [|simpl; set_solver].
    rewrite Heq. by apply list_elem_of_fmap_2. }
  destruct (candidate_wins e w) eqn:E.
  - exists e. split; [done|]. split; [set_solver|].
    intros x [Hx| ->%list_elem_of_singleton]%elem_of_app; [|by left].
    right. destruct (Hall x Hx) as [-> |?]; [done|]. by eapply candidate_wins_trans.
  - exists w. split; [done|]. split; [set_solver|].
    intros x [Hx| ->%list_elem_of_singleton]%elem_of_app; [by apply Hall|].
    right. by rewrite (candidate_wins_total w e), E.
Qed.

Lemma beats_all_unique w w' l : beats_all w l → beats_all w' l → w = w'.
Proof.
  intros [Hw Hall] [Hw' Hall'].
  destruct (Hall w' Hw') as [?|H1]; [done|]. destruct (Hall' w Hw) as [?|H2]; [done|].
  exfalso. pose proof (candidate_wins_trans _ _ _ H1 H2) as H3.
  by rewrite candidate_wins_irrefl in H3.
Qed.

(** Delivery order does not decide an address. Whatever order the competing
    events of one address arrive in, the same row ends up holding it. *)
Theorem winner_order_independent (l l' : list Event) :
  NoDup (e_id <$> l) → l ≡ₚ l' → winner l = winner l'.
Proof.
  intros Hnd Hperm. destruct (decide (l = [])) as [-> |Hne].
  { by apply Permutation_nil in Hperm as ->. }
  destruct (winner_beats_all l Hnd Hne) as (w & -> & Hw).
  destruct (winner_beats_all l') as (w' & -> & Hw').
  { by rewrite <-Hperm. }
  { intros ->. by apply Hne, Permutation_nil_r. }
  f_equal. eapply beats_all_unique; [done|].
  destruct Hw' as [? Hall]. split; [by rewrite Hperm|]. intros x. rewrite Hperm. apply Hall.
Qed.

(** ** Durable address keys *)

Definition nul_free (s : string) : Prop :=
  Ascii.ascii_of_nat 0 ∉ String.list_ascii_of_string s.

Lemma append_nul_inj (a a' b b' : string) :
  nul_free a → nul_free a' → a +:+ nul +:+ b = a' +:+ nul +:+ b' → a = a' ∧ b = b'.
Proof.
  unfold nul_free. revert a'. induction a as [|c a IH]; intros [|c' a']; simpl; intros Ha Ha' Heq.
  - by simplify_eq.
  - exfalso. injection Heq as <- _. apply Ha'. left.
  - exfalso. injection Heq as -> _. apply Ha. left.
  - injection Heq as -> Heq. apply IH in Heq as [-> ->]; [done|..]; set_solver.
Qed.

Lemma hex_string_nul_free s : hex_string s → nul_free s.
Proof.
  unfold hex_string, nul_free. rewrite Forall_forall. intros Hs Hin%Hs.
  unfold is_hex_char in Hin. revert Hin. by apply (bool_decide_unpack _).
Qed.

Lemma nul_free_cons c s : c ≠ Ascii.ascii_of_nat 0 → nul_free s → nul_free (String c s).
Proof. unfold nul_free. simpl. set_solver. Qed.

Lemma pretty_N_nul_free (n : N) : nul_free (pretty n).
Proof.
  unfold pretty, pretty_N. case_decide; [by apply (bool_decide_unpack _)|].
  assert (∀ s, nul_free s → nul_free (pretty_N_go n s)) as Hgo.
  { clear. induction (N.lt_wf_0 n) as [n _ IH]. intros s Hs.
    destruct (decide (0 < n)%N) as [Hn|Hn].
    - rewrite pretty_N_go_step by done. apply IH; [by apply N.div_lt|].
      apply nul_free_cons; [|done]. unfold pretty_N_char. by repeat case_match.
    - assert (n = 0%N) as -> by lia. by rewrite pretty_N_go_0. }
  apply Hgo. by apply (bool_decide_unpack _).
Qed.

(** Two addresses never share a durable key. *)
#[global] Instance to_redb_key_inj `{HexLaws} : Inj (=) (=) to_redb_key.
Proof.
  intros k k'. pose proof pretty_N_nul_free as Hp.
  assert (∀ p, nul_free (pk_to_hex p)) as Hh by auto using hex_string_nul_free, pk_to_hex_digits.
  destruct k as [pk kind|pk kind d], k' as [pk' kind'|pk' kind' d']; simpl; intros Heq;
    [|done|done|]; injection Heq as Heq; apply append_nul_inj in Heq as [->%(inj _) Heq]; auto.
  - by apply (inj pretty) in Heq as ->.
  - apply append_nul_inj in Heq as [->%(inj pretty) ->]; auto.
Qed.

(** Two addresses never share a durable key, whatever bytes a [d] tag holds. *)
Theorem to_redb_key_injective `{HexLaws} (k k' : AddressKey) :
  to_redb_key k = to_redb_key k' → k = k'.
Proof. apply (inj to_redb_key). Qed.

(** ** Witnesses *)

Definition sample_event (id created : N) : Event := mkEvent id 7 created 0 [] "" 0.

Lemma winner_order_independent_witness :
  winner [sample_event 1 5; sample_event 2 9; sample_event 3 9]
  = winner [sample_event 3 9; sample_event 1 5; sample_event 2 9].
Proof.
  apply winner_order_independent.
  - by apply (bool_decide_unpack _); vm_compute.
  - symmetry. apply (Permutation_cons_append [_; _]).
Defined.

Lemma to_redb_key_injective_witness :
  @to_redb_key Sample.sample_hex (Addressable 7 30000 ("a" +:+ nul +:+ "b"))
  ≠ @to_redb_key Sample.sample_hex (Addressable 7 30000 "a").
Proof.
  intros Heq. apply (@to_redb_key_injective Sample.sample_hex Sample.sample_hex_laws) in Heq.
  discriminate Heq.
Defined.
