(* ===== verification/Coverage.v ===== *)
(** * Coverage watermarks

    [crates/nmp-store/src/{coverage,coverage_claims}.rs] and the coverage half
    of [redb_store/event_ops.rs]: window-erased coverage identity, the claims an
    atom proves, the interval algebra of proven windows, and the garbage
    collection pass that shrinks them.  The durable [COVERAGE] table is a map
    from (coverage key, session) to the proven interval; a redb transaction is
    one step of the model. *)

From S2P Require Import Prelude Grammar Address.

(** ** Coverage identity *)

Definition window_erase (f : ConcreteFilter) : ConcreteFilter :=
  mkFilter (f_kinds f) (f_authors f) (f_ids f) (f_tags f) None None None.

(** [CoverageKey(ContextualAtom)]. *)
Record CoverageKey := mkCoverageKey { ck_atom : ContextualAtom }.

#[global] Instance CoverageKey_eq_dec : EqDecision CoverageKey.
Proof. solve_decision. Defined.
#[global] Instance CoverageKey_countable : Countable CoverageKey.
Proof. by refine (inj_countable' ck_atom mkCoverageKey _); intros []. Defined.
#[global] Instance CoverageKey_ord : Ord CoverageKey := ord_via ck_atom.
#[global] Instance CoverageKey_ord_laws : OrdLaws CoverageKey.
Proof. apply ord_via_laws. by intros [] [] [= ->]. Qed.

Definition coverage_key (a : ContextualAtom) : CoverageKey :=
  mkCoverageKey (mkAtom (window_erase (a_filter a)) (a_routing a) (a_authenticate_as a) ∅).

(** [coverage_claim_atoms]: the exact shapes one atom may claim durably. *)
Definition coverage_claim_atoms (a : ContextualAtom) : gset ContextualAtom :=
  match a_routing a with
  | Explicit _ => {[ a ]}
  | Auto =>
      match f_authors (a_filter a) with
      | None => {[ a ]}
      | Some authors =>
          if decide (authors = ∅) then ∅
          else if decide (size authors = 1) then {[ a ]}
          else list_to_set
                 ((λ author, mkAtom (set_authors (Some {[ author ]}) (a_filter a)) (a_routing a)
                              (a_authenticate_as a) (a_routing_evidence a)) <$> ordered authors)
      end
  end.

(** ** Proven intervals *)

(** [nostr::Timestamp] is a [u64] of seconds; its [+] and [-] are the
    parameter [TimestampArith]. *)

Class TimestampArith := {
  ts_add : N → N → N;
  ts_sub : N → N → N
}.
Class TimestampLaws `{TimestampArith} : Prop := {
  ts_add_sat (t n : N) : ts_add t n = N.min (t + n) u64_max;
  ts_sub_sat (t n : N) : ts_sub t n = (t - n)%N
}.

#[global] Instance sample_ts : TimestampArith :=
  {| ts_add := λ t n, N.min (t + n) u64_max; ts_sub := N.sub |}.
#[global] Instance sample_ts_laws : TimestampLaws.
Proof. by split. Qed.

Record CoverageInterval := mkInterval { ci_from : N; ci_through : N }.
#[global] Instance CoverageInterval_eq_dec : EqDecision CoverageInterval.
Proof. solve_decision. Defined.

(** The instants an interval proves. *)
Definition within (t : N) (i : CoverageInterval) : Prop := (ci_from i ≤ t ≤ ci_through i)%N.
#[global] Instance within_dec t i : Decision (within t i).
Proof. unfold within. apply _. Defined.

Section intervals.
Context `{TimestampArith}.

Definition touches (cur incoming : CoverageInterval) : bool :=
  (ci_from incoming <=? ts_add (ci_through cur) 1)%N &&
  (ts_sub (ci_from cur) 1 <=? ci_through incoming)%N.

Definition merge_interval (existing : option CoverageInterval) (incoming : CoverageInterval)
    : CoverageInterval :=
  match existing with
  | None => incoming
  | Some cur =>
      if touches cur incoming then
        mkInterval (N.min (ci_from cur) (ci_from incoming))
                   (N.max (ci_through cur) (ci_through incoming))
      else if (ci_through cur <? ci_through incoming)%N then incoming else cur
  end.
End intervals.

(** [u64::checked_add]. *)
Definition checked_add_u64 (x y : N) : option N :=
  if (x + y <=? u64_max)%N then Some (x + y)%N else None.

Definition shrink_after_eviction (i : CoverageInterval) (evicted_at : N)
    : option CoverageInterval :=
  new_from ← checked_add_u64 evicted_at 1;
  if (ci_through i <? new_from)%N then None else Some (mkInterval new_from (ci_through i)).

(** ** The victim index *)

(** [GcVictimIndex::new]: the victims' [created_at], sorted ascending. *)
Definition victim_index_new (victims : list Event) : list N :=
  merge_sort cmp_le (e_created_at <$> victims).

(** [GcVictimIndex::max_within]; the outer [None] is a panic. *)
Definition max_within (created_at : list N) (i : CoverageInterval) : option (option N) :=
  let start := partition_point (λ t, (t <? ci_from i)%N) created_at in
  let end_ := partition_point (λ t, (t <=? ci_through i)%N) created_at in
  run ← slice created_at start end_; Some (last run).

(** ** The coverage table *)

Abbreviation CoverageTable := (gmap (CoverageKey * RelaySessionKey) CoverageInterval) (only parsing).

Definition record_coverage `{TimestampArith}
    (claims : list (CoverageKey * RelaySessionKey * CoverageInterval))
    (table : CoverageTable) : CoverageTable :=
  foldl (λ t c, let '(key, session, proven) := c in
                <[(key, session) := merge_interval (t !! (key, session)) proven]> t)
        table claims.

Definition get_coverage (table : CoverageTable) (key : CoverageKey) (session : RelaySessionKey)
    : option CoverageInterval := table !! (key, session).

(** ** Garbage collection *)

(** [GcRetentionSet]: live claims, window-erased on construction. *)
Definition retention_new (claims : list ConcreteFilter) : list ConcreteFilter :=
  window_erase <$> claims.

Inductive SigState := Pending | Signed.
#[global] Instance SigState_eq_dec : EqDecision SigState.
Proof. solve_decision. Defined.

(** [LocalOrigin]; an [IntentId] is a [u64]. *)
Record LocalOrigin := mkLocal { lo_owners : gset N; lo_sig_state : SigState }.
#[global] Instance local_origin_eq_dec : EqDecision LocalOrigin.
Proof. solve_decision. Defined.

Record GcReport := mkReport {
  events_evicted : nat; coverage_rows_shrunk : nat; coverage_rows_deleted : nat
}.
#[global] Instance gc_report_eq_dec : EqDecision GcReport.
Proof. solve_decision. Defined.

(** One canonical event row: the event and its local sidecar. *)
Abbreviation EventRow := (Event * option LocalOrigin)%type (only parsing).

Section gc.
Context `{HexCodec, EventMatcher, TagReader}.

(** [GcRetentionSet::is_claimed]: the first matching claim ends the scan. *)
Fixpoint is_claimed (claims : list ConcreteFilter) (e : Event) : option bool :=
  match claims with
  | [] => Some false
  | c :: claims =>
      b ← filter_matches c e; if b : bool then Some true else is_claimed claims e
  end.

(** The [consider] closure of [gc]; [suppressed] is the answer of the open
    suppression claims. *)
Definition is_victim (suppressed : Event → bool) (claims : list ConcreteFilter)
    (row : EventRow) : option bool :=
  if address_key_for row.1 is Some _ then Some false
  else if row.2 is Some (mkLocal _ Pending) then Some false
  else if suppressed row.1 then Some false
  else b ← is_claimed claims row.1; Some (negb b).

Fixpoint gc_victims (suppressed : Event → bool) (claims : list ConcreteFilter)
    (rows : list EventRow) : option (list Event) :=
  match rows with
  | [] => Some []
  | row :: rows =>
      b ← is_victim suppressed claims row;
      rest ← gc_victims suppressed claims rows;
      Some (if b : bool then row.1 :: rest else rest)
  end.

Inductive RowUpdate := Keep | Shrink (next : CoverageInterval) | Delete.

(** One coverage row against the victim index. *)
Definition gc_row (index : list N) (i : CoverageInterval) : option RowUpdate :=
  m ← max_within index i;
  Some (match m with
        | None => Keep
        | Some m => match shrink_after_eviction i m with
                    | Some next => Shrink next
                    | None => Delete
                    end
        end).

Definition apply_update (t : CoverageTable) (r : GcReport)
    (u : CoverageKey * RelaySessionKey * RowUpdate) : CoverageTable * GcReport :=
  match u.2 with
  | Keep => (t, r)
  | Shrink next => (<[u.1 := next]> t,
      mkReport (events_evicted r) (S (coverage_rows_shrunk r)) (coverage_rows_deleted r))
  | Delete => (delete u.1 t,
      mkReport (events_evicted r) (coverage_rows_shrunk r) (S (coverage_rows_deleted r)))
  end.

Definition gc_updates (index : list N) (table : CoverageTable)
    : option (list (CoverageKey * RelaySessionKey * RowUpdate)) :=
  mapM (λ p, u ← gc_row index p.2; Some (p.1, u)) (map_to_list table).

(** [event_ops::gc]: evict the unclaimed rows, then shrink every coverage row
    an evicted event falls inside, in one transaction. *)
Definition gc (suppressed : Event → bool) (claims : list ConcreteFilter)
    (rows : list EventRow) (table : CoverageTable)
    : option (list EventRow * CoverageTable * GcReport) :=
  victims ← gc_victims suppressed claims rows;
  let rows' := filter (λ row, e_id row.1 ∉ (e_id <$> victims)) rows in
  updates ← gc_updates (victim_index_new victims) table;
  let '(table', report) :=
    foldl (λ acc u, apply_update acc.1 acc.2 u) (table, mkReport (length victims) 0 0) updates in
  Some (rows', table', report).
End gc.

(** ** Interval lemmas *)

Lemma checked_add_u64_Some x y z :
  checked_add_u64 x y = Some z ↔ z = (x + y)%N ∧ (x + y ≤ u64_max)%N.
Proof.
  unfold checked_add_u64. destruct (N.leb_spec (x + y) u64_max); naive_solver lia.
Qed.

Lemma checked_add_u64_None x y : checked_add_u64 x y = None ↔ (u64_max < x + y)%N.
Proof. unfold checked_add_u64. destruct (N.leb_spec (x + y) u64_max); naive_solver lia. Qed.

Lemma shrink_Some i t i' :
  shrink_after_eviction i t = Some i' ↔
    i' = mkInterval (t + 1) (ci_through i) ∧ (t + 1 ≤ ci_through i)%N ∧ (t + 1 ≤ u64_max)%N.
Proof.
  unfold shrink_after_eviction. destruct (checked_add_u64 t 1) as [z|] eqn:E; simpl.
  - apply checked_add_u64_Some in E as [-> ?].
    destruct (N.ltb_spec (ci_through i) (t + 1)); naive_solver lia.
  - apply checked_add_u64_None in E. naive_solver lia.
Qed.

Lemma shrink_None i t :
  shrink_after_eviction i t = None ↔ (ci_through i < t + 1)%N ∨ (u64_max < t + 1)%N.
Proof.
  destruct (shrink_after_eviction i t) as [i'|] eqn:E.
  - apply shrink_Some in E. naive_solver lia.
  - unfold shrink_after_eviction in E. destruct (checked_add_u64 t 1) as [z|] eqn:E'; simpl in E.
    + apply checked_add_u64_Some in E' as [-> ?].
      destruct (N.ltb_spec (ci_through i) (t + 1)); naive_solver lia.
    + apply checked_add_u64_None in E'. naive_solver lia.
Qed.

(** [m] is the greatest of [ts] inside [i]. *)
Definition greatest_within (m : N) (ts : list N) (i : CoverageInterval) : Prop :=
  m ∈ ts ∧ within m i ∧ ∀ t, t ∈ ts → within t i → (t ≤ m)%N.

Lemma max_within_spec ts i :
  StronglySorted cmp_le ts → (ci_from i ≤ ci_through i)%N →
  (max_within ts i = Some None ∧ ∀ t, t ∈ ts → ¬ within t i) ∨
  ∃ m, max_within ts i = Some (Some m) ∧ greatest_within m ts i.
Proof.
  intros Hs Hi. unfold max_within.
  set (s := partition_point _ ts). set (e := partition_point _ ts).
  assert (s ≤ e) as Hse.
  { apply partition_point_mono. intros t. rewrite N.ltb_lt, N.leb_le. lia. }
  rewrite (slice_Some ts s e Hse (partition_point_le _ _)). simpl.
  assert (∀ x y : N, cmp_le x y → (x ≤ y)%N) as Hle.
  { intros x y. unfold cmp_le, cmp, N_ord. by rewrite N.compare_le_iff. }
  assert (∀ t, t ∈ take (e - s) (drop s ts) ↔ t ∈ ts ∧ within t i) as Hrun.
  { intros t. rewrite elem_of_take_drop, list_elem_of_lookup. unfold within. split.
    - intros (j & Hj & Hs' & He'). split; [by exists j|].
      apply (partition_point_lookup_lt _ _ _ _ Hj), N.leb_le in He'.
      assert (ci_from i ≤ t)%N; [|lia]. apply N.ltb_ge.
      eapply (partition_point_lookup_ge (λ t, (t <? ci_from i)%N)); [done| |done..].
      intros x y Hxy%Hle. rewrite !N.ltb_lt. lia.
    - intros [[j Hj] [Hfrom Hthr]]. exists j. split; [done|]. split.
      + apply Nat.nlt_ge. intros Hlt.
        apply (partition_point_lookup_lt _ _ _ _ Hj), N.ltb_lt in Hlt. lia.
      + apply Nat.nle_gt. intros Hge. apply N.lt_nge in Hthr; [done|]. apply N.leb_gt.
        eapply (partition_point_lookup_ge (λ t, (t <=? ci_through i)%N)); [done| |done..].
        intros x y Hxy%Hle. rewrite !N.leb_le. lia. }
  destruct (last (take (e - s) (drop s ts))) as [m|] eqn:Hlast.
  - right. exists m. split; [done|].
    assert (m ∈ take (e - s) (drop s ts)) as Hm by (by apply last_Some_elem_of).
    apply Hrun in Hm as [Hm Hw]. split_and!; [done..|]. intros t Ht Hwt.
    destruct (StronglySorted_last cmp_le (take (e - s) (drop s ts)) m t) as [-> |?%Hle]; [|done|..].
    + eapply StronglySorted_sublist; [|done].
      by trans (drop s ts); [apply sublist_take|apply sublist_drop].
    + apply Hrun. done.
    + done.
    + done.
  - left. split; [done|]. apply last_None in Hlast. intros t Ht Hw.
    assert (t ∈ take (e - s) (drop s ts)) as Hin by (by apply Hrun).
    rewrite Hlast in Hin. by apply not_elem_of_nil in Hin.
Qed.

(** Applying one victim to one row, the way a per-victim loop would. *)
Definition apply_victim (o : option CoverageInterval) (t : N) : option CoverageInterval :=
  match o with
  | None => None
  | Some i => if decide (within t i) then shrink_after_eviction i t else Some i
  end.

Lemma foldl_apply_victim_None ts : foldl apply_victim None ts = None.
Proof. by induction ts. Qed.

Lemma foldl_apply_victim_outside ts i :
  (∀ t, t ∈ ts → ¬ within t i) → foldl apply_victim (Some i) ts = Some i.
Proof.
  induction ts as [|t ts IH]; [done|]. intros Hout. simpl.
  rewrite decide_False by (apply Hout; left). apply IH. set_solver.
Qed.

Lemma foldl_apply_victim_greatest ts i m :
  greatest_within m ts i → foldl apply_victim (Some i) ts = shrink_after_eviction i m.
Proof.
  revert i. induction ts as [|t ts IH]; intros i (Hm & Hw & Hmax).
  { by apply not_elem_of_nil in Hm. }
  simpl. destruct (decide (within t i)) as [Ht|Ht].
  - assert (t ≤ m)%N as Htm by (apply Hmax; [left|done]).
    destruct (shrink_after_eviction i t) as [i'|] eqn:E.
    + apply shrink_Some in E as (-> & ? & ?). destruct (decide (m = t)) as [-> |Hne].
      * rewrite foldl_apply_victim_outside; [symmetry; by apply shrink_Some|].
        intros t' Ht' Hw'. assert (t' ≤ t)%N; [|unfold within in *; simpl in *; lia].
        apply Hmax; [by right|]. unfold within in *; simpl in *; lia.
      * rewrite IH; [done|]. split_and!.
        { by apply elem_of_cons in Hm as [?|?]. }
        { unfold within in *; simpl in *; lia. }
        intros t' Ht' Hw'. apply Hmax; [by right|]. unfold within in *; simpl in *; lia.
    + rewrite foldl_apply_victim_None. symmetry.
      apply shrink_None in E. apply shrink_None. lia.
  - apply IH. split_and!; [|done|].
    + apply elem_of_cons in Hm as [-> |?]; [done|done].
    + intros t' Ht'. apply Hmax. by right.
Qed.

Definition proper_interval (i : CoverageInterval) : Prop :=
  (ci_from i ≤ ci_through i ≤ u64_max)%N.

Lemma victim_index_sorted victims : StronglySorted cmp_le (victim_index_new victims).
Proof. apply Sorted_StronglySorted; [apply _|]. apply (Sorted_merge_sort _). Qed.

Lemma elem_of_victim_index victims t :
  t ∈ victim_index_new victims ↔ ∃ e, e ∈ victims ∧ t = e_created_at e.
Proof.
  unfold victim_index_new. rewrite merge_sort_Permutation, list_elem_of_fmap. naive_solver.
Qed.

Definition update_result (i : CoverageInterval) (u : RowUpdate) : option CoverageInterval :=
  match u with Keep => Some i | Shrink next => Some next | Delete => None end.

(** The single pass over the victim index gives each coverage row exactly
    what applying every victim to it one by one, in any order, would. *)
Theorem gc_row_is_per_victim_fold (victims : list Event) (ts : list N) (i : CoverageInterval) :
  proper_interval i → ts ≡ₚ e_created_at <$> victims →
  ∃ u, gc_row (victim_index_new victims) i = Some u ∧
       foldl apply_victim (Some i) ts = update_result i u.
Proof.
  intros [Hi _] Hts. unfold gc_row.
  assert (∀ t, t ∈ ts ↔ t ∈ victim_index_new victims) as Hin.
  { intros t. rewrite Hts. unfold victim_index_new. by rewrite merge_sort_Permutation. }
  destruct (max_within_spec _ i (victim_index_sorted victims) Hi)
    as [[-> Hout]|(m & -> & Hm & Hw & Hmax)]; simpl; eexists; (split; [done|]).
  - apply foldl_apply_victim_outside. intros t. rewrite Hin. apply Hout.
  - rewrite (foldl_apply_victim_greatest _ _ m).
    + by destruct (shrink_after_eviction i m).
    + split_and!; [by apply Hin|done|]. intros t. rewrite Hin. apply Hmax.
Qed.

Lemma gc_row_spec victims i :
  proper_interval i →
  ∃ u, gc_row (victim_index_new victims) i = Some u ∧
    (∀ i', update_result i u = Some i' →
       (∀ t, within t i' → within t i) ∧
       (∀ e, e ∈ victims → ¬ within (e_created_at e) i') ∧
       ci_through i' = ci_through i ∧ proper_interval i') ∧
    ((∀ e, e ∈ victims → ¬ within (e_created_at e) i) → u = Keep).
Proof.
  intros Hp. destruct Hp as [Hi Hb] eqn:E; clear E. unfold gc_row.
  destruct (max_within_spec _ i (victim_index_sorted victims) Hi)
    as [[-> Hout]|(m & -> & Hm & Hw & Hmax)]; simpl; eexists; (split; [done|]).
  - split; [|done]. intros i' [= <-]. split_and!; auto.
    intros e He. apply Hout, elem_of_victim_index. by exists e.
  - apply elem_of_victim_index in Hm as (em & Hem & Heq). split.
    + destruct (shrink_after_eviction i m) as [i'|] eqn:E; simpl; [|done].
      intros ? [= <-]. apply shrink_Some in E as (-> & ? & ?).
      unfold proper_interval, within in *; simpl. split_and!; [lia..| |lia|lia|lia].
      intros e He Hwe. assert (e_created_at e ≤ m)%N; [|lia].
      apply Hmax; [|lia]. apply elem_of_victim_index. by exists e.
    + intros Hnone. exfalso. apply (Hnone em Hem). by rewrite <-Heq.
Qed.

(** ** The coverage table under recording and collection *)

Definition updated (o : option CoverageInterval) (u : RowUpdate) : option CoverageInterval :=
  match u with Keep => o | Shrink next => Some next | Delete => None end.

Lemma apply_updates_lookup (us : list (CoverageKey * RelaySessionKey * RowUpdate))
    (acc : CoverageTable * GcReport) k :
  NoDup us.*1 →
  (foldl (λ acc u, apply_update acc.1 acc.2 u) acc us).1 !! k =
    match list_to_map (M:=gmap _ _) us !! k with
    | Some u => updated (acc.1 !! k) u
    | None => acc.1 !! k
    end.
Proof.
  revert acc. induction us as [|[k' u] us IH]; intros acc Hnd; [done|].
  apply NoDup_cons in Hnd as [Hk Hnd]. cbn [fmap list_fmap foldl list_to_map] in *. simpl.
  rewrite IH by done. unfold apply_update; simpl.
  destruct (decide (k = k')) as [-> |Hne].
  - rewrite (not_elem_of_list_to_map_1 us k') by done.
    rewrite lookup_insert_eq. destruct u; simpl; by simplify_map_eq.
  - rewrite lookup_insert_ne by done. destruct u; simpl; by simplify_map_eq.
Qed.

Lemma gc_updates_spec index table us :
  gc_updates index table = Some us →
  NoDup us.*1 ∧
  ∀ k, match table !! k with
       | Some i => ∃ u, gc_row index i = Some u ∧ list_to_map (M:=gmap _ _) us !! k = Some u
       | None => list_to_map (M:=gmap _ _) us !! k = None
       end.
Proof.
  unfold gc_updates. intros Hus%mapM_Some.
  assert (us.*1 = (map_to_list table).*1) as Hkeys.
  { clear -Hus. induction Hus as [|p u l k Hp Hrest IH]; simpl; [done|].
    destruct (gc_row index p.2); simplify_eq/=. by rewrite IH. }
  assert (NoDup us.*1) as Hnd by (rewrite Hkeys; apply NoDup_fst_map_to_list).
  split; [done|]. intros k. destruct (table !! k) as [i|] eqn:Hk.
  - apply elem_of_map_to_list, list_elem_of_lookup in Hk as [j Hj].
    destruct (Forall2_lookup_l _ _ _ _ _ Hus Hj) as (u & Hu & Hrow). simpl in Hrow.
    destruct (gc_row index i) as [u'|] eqn:E; simplify_eq/=. exists u'. split; [done|].
    apply elem_of_list_to_map_1; [done|]. by eapply list_elem_of_lookup_2.
  - apply not_elem_of_list_to_map_1. rewrite Hkeys. intros Hin.
    apply list_elem_of_fmap in Hin as ([k' v] & -> & Hv%elem_of_map_to_list). simpl in Hk. congruence.
Qed.

(** Every stored interval is proper: the precondition of [GcVictimIndex]. *)
Definition proper_table (table : CoverageTable) : Prop :=
  map_Forall (λ _ i, proper_interval i) table.

Section gc_theorems.
Context `{HexCodec, EventMatcher, TagReader}.
Variable suppressed : Event → bool.

Lemma gc_victims_spec claims rows victims :
  gc_victims suppressed claims rows = Some victims →
  ∀ e, e ∈ victims ↔ ∃ row, row ∈ rows ∧ row.1 = e ∧ is_victim suppressed claims row = Some true.
Proof.
  revert victims. induction rows as [|row rows IH]; intros victims; simpl.
  { intros [= <-] e. split; [by intros ?%not_elem_of_nil|]. by intros (?&?%not_elem_of_nil&_). }
  destruct (is_victim suppressed claims row) as [b|] eqn:E; [|done]. simpl.
  destruct (gc_victims suppressed claims rows) as [rest|]; [|done]. simpl.
  intros [= <-] e. specialize (IH rest eq_refl e).
  destruct b; rewrite ?elem_of_cons, IH; setoid_rewrite elem_of_cons; naive_solver.
Qed.


Lemma gc_inv claims rows table rows' table' report :
  gc suppressed claims rows table = Some (rows', table', report) →
  ∃ victims us,
    gc_victims suppressed claims rows = Some victims ∧
    gc_updates (victim_index_new victims) table = Some us ∧
    rows' = filter (λ row, e_id row.1 ∉ (e_id <$> victims)) rows ∧
    table' = (foldl (λ acc u, apply_update acc.1 acc.2 u)
                (table, mkReport (length victims) 0 0) us).1.
Proof.
  unfold gc. destruct (gc_victims suppressed claims rows) as [victims|]; [|done]. simpl.
  destruct (gc_updates (victim_index_new victims) table) as [us|] eqn:Hus; [|done]. simpl.
  destruct (foldl _ _ us) as [t r] eqn:E. intros [= <- <- <-]. exists victims, us.
  split_and!; try done. by rewrite E.
Qed.

(** C34: a collection never leaves a watermark over data it evicted, and never
    extends one. Every coverage row that survives is inside the row it was,
    and no evicted event falls inside it. *)
Theorem gc_coverage_sound claims rows table rows' table' report :
  proper_table table → NoDup ((λ row, e_id row.1) <$> rows) →
  gc suppressed claims rows table = Some (rows', table', report) →
  proper_table table' ∧
  ∀ k i', table' !! k = Some i' →
    (∃ i, table !! k = Some i ∧ ci_through i' = ci_through i ∧ ∀ t, within t i' → within t i) ∧
    (∀ row, row ∈ rows → row ∉ rows' → ¬ within (e_created_at row.1) i').
Proof.
  intros Hproper Hids (victims & us & Hv & Hus & -> & ->)%gc_inv.
  destruct (gc_updates_spec _ _ _ Hus) as [Hnd Hlook].
  assert (∀ k i', (foldl (λ acc u, apply_update acc.1 acc.2 u)
                (table, mkReport (length victims) 0 0) us).1 !! k = Some i' →
            ∃ i u, table !! k = Some i ∧ gc_row (victim_index_new victims) i = Some u ∧
                   update_result i u = Some i') as Hinv.
  { intros k i'. rewrite apply_updates_lookup by done. simpl. specialize (Hlook k).
    destruct (table !! k) as [i|] eqn:Hk; [|by rewrite Hlook].
    destruct Hlook as (u & Hu & ->). intros Hr. exists i, u. by destruct u. }
  split.
  - intros k i' (i & u & Hk & Hu & Hr)%Hinv.
    destruct (gc_row_spec victims i (Hproper _ _ Hk)) as (u' & Hu' & Hres & _).
    simplify_eq. by apply Hres.
  - intros k i' (i & u & Hk & Hu & Hr)%Hinv.
    destruct (gc_row_spec victims i (Hproper _ _ Hk)) as (u' & Hu' & Hres & _).
    simplify_eq. destruct (Hres _ Hr) as (Hsub & Hout & Hthr & _). split; [by exists i|].
    intros row Hrow Hgone.
    assert (e_id row.1 ∈ e_id <$> victims) as (e & Heq & He)%list_elem_of_fmap.
    { apply dec_stable. intros Hn. apply Hgone. by apply list_elem_of_filter. }
    assert (e = row.1) as ->; [|by apply Hout].
    destruct (gc_victims_spec _ _ _ Hv e) as [(row' & Hrow' & <- & _) _]; [done|].
    by rewrite (unique_by_key _ _ _ _ Hids Hrow Hrow' Heq).
Qed.

End gc_theorems.

Section recording.
Context `{TimestampLaws}.

Lemma touches_spec cur incoming :
  touches cur incoming = true ↔
    (ci_from incoming ≤ N.min (ci_through cur + 1) u64_max)%N ∧
    (ci_from cur - 1 ≤ ci_through incoming)%N.
Proof. unfold touches. by rewrite andb_true_iff, !N.leb_le, ts_add_sat, ts_sub_sat. Qed.

Lemma merge_interval_through cur incoming :
  ci_through (merge_interval (Some cur) incoming) = N.max (ci_through cur) (ci_through incoming).
Proof.
  simpl. destruct (touches cur incoming); [done|].
  destruct (N.ltb_spec (ci_through cur) (ci_through incoming)); simpl; lia.
Qed.

Lemma merge_interval_within cur incoming t :
  (ci_through cur ≤ u64_max)%N → (ci_through incoming ≤ u64_max)%N →
  within t (merge_interval (Some cur) incoming) → within t cur ∨ within t incoming.
Proof.
  intros ??. simpl. destruct (touches cur incoming) eqn:E.
  - apply touches_spec in E. unfold within; simpl. lia.
  - destruct (N.ltb_spec (ci_through cur) (ci_through incoming)); auto.
Qed.

Lemma merge_interval_proper o incoming :
  (∀ cur, o = Some cur → proper_interval cur) → proper_interval incoming →
  proper_interval (merge_interval o incoming).
Proof.
  destruct o as [cur|]; simpl; [|done]. intros Hc Hi. specialize (Hc cur eq_refl).
  destruct (touches cur incoming).
  - unfold proper_interval in *; simpl. lia.
  - by destruct (ci_through cur <? ci_through incoming)%N.
Qed.

(** C: merging two touching intervals gives exactly their union; merging two
    disjoint ones keeps the one that reaches further. *)
Theorem merge_interval_exact cur incoming :
  proper_interval cur → proper_interval incoming →
  (touches cur incoming = true →
     ∀ t, within t (merge_interval (Some cur) incoming) ↔ within t cur ∨ within t incoming) ∧
  (touches cur incoming = false →
     (∀ t, within t cur → ¬ within t incoming) ∧
     merge_interval (Some cur) incoming =
       if (ci_through cur <? ci_through incoming)%N then incoming else cur).
Proof.
  intros [Hc1 Hc2] [Hi1 Hi2]. split; intros E.
  - intros t. split; [by apply merge_interval_within|].
    simpl. rewrite E. unfold within; simpl. lia.
  - split; [|by simpl; rewrite E]. intros t Ht Ht'.
    apply not_true_iff_false in E. apply E, touches_spec. unfold within in *. lia.
Qed.

(** One recorded claim. *)
Definition record_one (t : CoverageTable) (c : CoverageKey * RelaySessionKey * CoverageInterval)
    : CoverageTable := <[c.1 := merge_interval (t !! c.1) c.2]> t.

Lemma record_coverage_foldl
    (claims : list (CoverageKey * RelaySessionKey * CoverageInterval)) (table : CoverageTable) :
  record_coverage claims table = foldl record_one table claims.
Proof.
  unfold record_coverage. revert table.
  induction claims as [|[[key session] proven] claims IH]; intros table; simpl; [done|].
  by rewrite IH.
Qed.

Lemma record_one_proper t c :
  proper_table t → proper_interval c.2 → proper_table (record_one t c).
Proof.
  intros Ht Hc. apply map_Forall_insert_2; [|done].
  apply merge_interval_proper; [|done]. intros cur. apply Ht.
Qed.

(** Every instant proven after recording was proven before or by a claim; the
    rows need not be proper, only within the machine word. *)
Lemma record_coverage_within
    (claims : list (CoverageKey * RelaySessionKey * CoverageInterval)) (table : CoverageTable) :
  map_Forall (λ _ i, (ci_through i ≤ u64_max)%N) table →
  Forall (λ c, (ci_through c.2 ≤ u64_max)%N) claims →
  map_Forall (λ _ i, (ci_through i ≤ u64_max)%N) (record_coverage claims table) ∧
  ∀ k i t, record_coverage claims table !! k = Some i → within t i →
    (∃ i0, table !! k = Some i0 ∧ within t i0) ∨ (∃ p, (k, p) ∈ claims ∧ within t p).
Proof.
  rewrite record_coverage_foldl. revert table.
  induction claims as [|[k' p'] claims IH]; intros table Ht Hc.
  { split; [done|]. intros k i t Hk Hw. left. by exists i. }
  apply Forall_cons in Hc as [Hp Hc]. simpl in Hp. simpl.
  destruct (IH (record_one table (k', p'))) as [Hbound Hin]; [|done|].
  { apply map_Forall_insert_2; [|done]. simpl. destruct (table !! k') as [cur|] eqn:Hcur; [|done].
    rewrite merge_interval_through. specialize (Ht _ _ Hcur). simpl in Ht. lia. }
  split; [done|]. intros k i t Hk Hw.
  destruct (Hin k i t Hk Hw) as [(i0 & Hk0 & Hw0)|(p & Hp' & Hwp)].
  - unfold record_one in Hk0; simpl in Hk0. destruct (decide (k = k')) as [-> |Hne].
    + rewrite lookup_insert_eq in Hk0. simplify_eq.
      destruct (table !! k') as [cur|] eqn:Hcur.
      * apply merge_interval_within in Hw0 as [?|?]; [left; eauto|right|by apply (Ht _ _ Hcur)|done].
        exists p'. split; [left|done].
      * right. exists p'. split; [left|done].
    + rewrite lookup_insert_ne in Hk0 by done. left. by exists i0.
  - right. exists p. split; [by right|done].
Qed.

(** Recording claims invents no coverage. Every instant a row proves
    afterwards was proven before, or by a recorded claim for that same
    selection on that same session; and every row stays proper. *)
Theorem record_coverage_sound
    (claims : list (CoverageKey * RelaySessionKey * CoverageInterval)) (table : CoverageTable) :
  proper_table table → Forall (λ c, proper_interval c.2) claims →
  proper_table (record_coverage claims table) ∧
  ∀ k i t, record_coverage claims table !! k = Some i → within t i →
    (∃ i0, table !! k = Some i0 ∧ within t i0) ∨ (∃ p, (k, p) ∈ claims ∧ within t p).
Proof.
  intros Ht Hc. split.
  - rewrite record_coverage_foldl. revert table Ht.
    induction Hc as [|c claims Hp _ IH]; intros table Ht; simpl; [done|].
    by apply IH, record_one_proper.
  - apply record_coverage_within.
    + intros k i Hi. apply (Ht _ _ Hi).
    + eapply Forall_impl; [exact Hc|]. intros c [_ ?]. done.
Qed.

Lemma foldl_record_one_through
    (claims : list (CoverageKey * RelaySessionKey * CoverageInterval)) (table : CoverageTable) k i :
  table !! k = Some i →
  ∃ i', foldl record_one table claims !! k = Some i' ∧ (ci_through i ≤ ci_through i')%N.
Proof.
  revert table i. induction claims as [|[k' p'] claims IH]; intros table i Hk; simpl.
  { by exists i. }
  destruct (decide (k = k')) as [-> |Hne].
  - destruct (IH (record_one table (k', p')) (merge_interval (Some i) p')) as (i' & ? & Hle).
    { unfold record_one. simpl. by rewrite lookup_insert_eq, Hk. }
    exists i'. split; [done|]. rewrite merge_interval_through in Hle. lia.
  - apply IH. unfold record_one. by rewrite lookup_insert_ne.
Qed.

(** Recording only advances. No watermark is lowered, and every recorded
    claim is reached by the row it names. *)
Theorem record_coverage_advances
    (claims : list (CoverageKey * RelaySessionKey * CoverageInterval)) (table : CoverageTable) k i :
  table !! k = Some i ∨ (k, i) ∈ claims →
  ∃ i', record_coverage claims table !! k = Some i' ∧ (ci_through i ≤ ci_through i')%N.
Proof.
  rewrite record_coverage_foldl. intros [Hk|Hin]; [by apply foldl_record_one_through|].
  apply list_elem_of_split in Hin as (l1 & l2 & ->). rewrite foldl_app. simpl.
  set (t := foldl record_one table l1).
  destruct (foldl_record_one_through l2 (record_one t (k, i)) k
              (merge_interval (t !! k) i)) as (i' & Hi' & Hle).
  { unfold record_one. apply lookup_insert_eq. }
  exists i'. split; [done|]. destruct (t !! k) as [cur|]; [|done].
  rewrite merge_interval_through in Hle. lia.
Qed.
End recording.

Section gc_total.
Context `{HexCodec, EventMatcher, TagReader}.

Lemma is_claimed_total claims e : Forall wf_filter claims → is_Some (is_claimed claims e).
Proof.
  induction 1 as [|c claims Hc _ IH]; simpl; [by eexists|].
  destruct (to_nostr_spec c Hc) as (nf & Hnf & _). unfold filter_matches. rewrite Hnf. simpl.
  destruct (match_event nf e); [by eexists|done].
Qed.

(** Over a table of proper intervals and well-formed live claims, a
    collection runs to completion: no slice, index or filter panics. *)
Theorem gc_total suppressed claims rows table :
  proper_table table → Forall wf_filter claims →
  is_Some (gc suppressed (retention_new claims) rows table).
Proof.
  intros Ht Hc. unfold gc.
  assert (Forall wf_filter (retention_new claims)) as Hc' by (by apply Forall_fmap).
  assert (is_Some (gc_victims suppressed (retention_new claims) rows)) as [victims ->].
  { induction rows as [|row rows [rest IH]]; simpl; [by eexists|]. rewrite IH.
    unfold is_victim. destruct (is_claimed_total (retention_new claims) row.1 Hc') as [b ->].
    destruct (address_key_for row.1); [by eexists|].
    destruct row as [e [[? []]|]]; simpl; try (by eexists); destruct (suppressed e); by eexists. }
  simpl. assert (is_Some (gc_updates (victim_index_new victims) table)) as [us ->].
  { unfold gc_updates. apply mapM_is_Some, Forall_forall.
    intros [k i] Hk%elem_of_map_to_list. simpl.
    destruct (gc_row_spec victims i (Ht _ _ Hk)) as (u & -> & _). by eexists. }
  simpl. destruct (foldl _ _ us). by eexists.
Qed.
End gc_total.

Section claim_atoms.
Context `{HexCodec}.

Lemma elem_of_claim_atoms_many a authors c :
  a_routing a = Auto → f_authors (a_filter a) = Some authors → authors ≠ ∅ →
  c ∈ coverage_claim_atoms a ↔
    ∃ author, author ∈ authors ∧
      c = mkAtom (set_authors (Some {[ author ]}) (a_filter a)) (a_routing a)
            (a_authenticate_as a) (a_routing_evidence a).
Proof.
  intros Hr Ha Hne. unfold coverage_claim_atoms. rewrite Hr, Ha, decide_False by done.
  destruct (decide (size authors = 1)) as [Hsz|_].
  - apply size_1_elem_of in Hsz as [x Hx]. rewrite elem_of_singleton.
    assert (authors = {[ x ]}) as -> by set_solver.
    assert (a = mkAtom (set_authors (Some {[ x ]}) (a_filter a)) Auto
              (a_authenticate_as a) (a_routing_evidence a)) as Heq.
    { destruct a as [[] ? ? ?]; simplify_eq/=. done. }
    split; [intros ->; exists x; set_solver|].
    intros (author & ->%elem_of_singleton & ->). by symmetry.
  - rewrite elem_of_list_to_set, list_elem_of_fmap.
    setoid_rewrite elem_of_ordered. naive_solver.
Qed.

(** The durable claims of an atom split its selection by author and lose
    nothing: an event matches the atom exactly when it matches one of the
    claims, and every claim keeps the atom's routing and identity. *)
Theorem coverage_claims_partition a e :
  (∀ authors, a_routing a = Auto → f_authors (a_filter a) = Some authors → authors ≠ ∅) →
  (concrete_matches (a_filter a) e ↔
     ∃ c, c ∈ coverage_claim_atoms a ∧ concrete_matches (a_filter c) e) ∧
  (∀ c, c ∈ coverage_claim_atoms a →
     a_routing c = a_routing a ∧ a_authenticate_as c = a_authenticate_as a).
Proof.
  intros Hne.
  assert (coverage_claim_atoms a = {[ a ]} ∨
          ∃ authors, a_routing a = Auto ∧ f_authors (a_filter a) = Some authors ∧ authors ≠ ∅)
    as [->|(authors & Hr & Ha & Hauth)].
  { unfold coverage_claim_atoms. destruct (a_routing a) eqn:Hr; [|by left].
    destruct (f_authors (a_filter a)) as [authors|] eqn:Ha; [|by left]. right. eauto. }
  { split; [set_solver|]. by intros c ->%elem_of_singleton. }
  pose proof (λ c, elem_of_claim_atoms_many a authors c Hr Ha Hauth) as Hin. split.
  - unfold concrete_matches. split.
    + intros (Hk & Hau & Hrest). rewrite Ha in Hau. destruct Hau as [?|(s & Hs & Hp)]; [done|].
      eexists. split; [apply Hin; eauto|]. simpl. split_and!; try apply Hrest; [done|].
      right. exists s. split; [set_solver|done].
    + intros (c & (author & Hau & ->)%Hin & Hk & Hc & Hrest). simpl in *.
      split_and!; try apply Hrest; [done|]. rewrite Ha. right.
      destruct Hc as [Hbad|(s & ->%elem_of_singleton & Hp)]; [set_solver|]. by exists author.
  - by intros c (author & _ & ->)%Hin.
Qed.
End claim_atoms.

(** ** Witnesses *)

Module CoverageSample.
Import Sample.

Definition note (id created : N) : Event := mkEvent id 7 created 1 [] "" 0.
Definition key : CoverageKey :=
  coverage_key (mkAtom (set_kinds (Some {[ 1%N ]}) filter_default) Auto None ∅).
Definition session : RelaySessionKey := mkSession "wss://r.example" None.
Definition table : CoverageTable := {[ (key, session) := mkInterval 0 100 ]}.
Definition rows : list EventRow := [(note 1 40, None); (note 2 60, None)].
Definition claims : list ConcreteFilter := [set_ids (Some {[ to_hex 2 ]}) filter_default].

Lemma table_proper : proper_table table.
Proof. apply map_Forall_singleton. decide_now. Qed.

Lemma gc_run : gc (λ _, false) claims rows table =
  Some ([(note 2 60, None)], {[ (key, session) := mkInterval 41 100 ]}, mkReport 1 1 0).
Proof. decide_now. Qed.

Lemma rows_nodup : NoDup ((λ row : EventRow, e_id row.1) <$> rows).
Proof. decide_now. Qed.
End CoverageSample.

Lemma gc_row_is_per_victim_fold_witness :
  ∃ u, gc_row (victim_index_new [CoverageSample.note 1 40; CoverageSample.note 2 60])
         (mkInterval 0 100) = Some u ∧
       foldl apply_victim (Some (mkInterval 0 100)) [60; 40]%N = update_result (mkInterval 0 100) u.
Proof.
  apply gc_row_is_per_victim_fold; [decide_now|]. apply perm_swap.
Defined.

Lemma gc_coverage_sound_witness :
  ¬ within 40 (mkInterval 41 100).
Proof.
  exact (proj2 (proj2 (gc_coverage_sound (λ _, false) CoverageSample.claims CoverageSample.rows
    CoverageSample.table _ _ _ CoverageSample.table_proper CoverageSample.rows_nodup
    CoverageSample.gc_run)
    (CoverageSample.key, CoverageSample.session) (mkInterval 41 100) (lookup_singleton_eq _ _))
    (CoverageSample.note 1 40, None) ltac:(decide_now) ltac:(decide_now)).
Defined.


Lemma merge_interval_exact_witness :
  within 7 (merge_interval (Some (mkInterval 0 9)) (mkInterval 10 20)).
Proof.
  apply (proj1 (merge_interval_exact (mkInterval 0 9) (mkInterval 10 20)
    ltac:(decide_now) ltac:(decide_now)) eq_refl).
  left. decide_now.
Defined.

Lemma record_coverage_sound_witness :
  (∃ i0, CoverageSample.table !! (CoverageSample.key, CoverageSample.session) = Some i0 ∧ within 105 i0) ∨
  (∃ p, ((CoverageSample.key, CoverageSample.session), p)
          ∈ [((CoverageSample.key, CoverageSample.session), mkInterval 90 110)] ∧ within 105 p).
Proof.
  refine (proj2 (record_coverage_sound
    [((CoverageSample.key, CoverageSample.session), mkInterval 90 110)] CoverageSample.table
    CoverageSample.table_proper _) (CoverageSample.key, CoverageSample.session)
    (mkInterval 0 110) 105%N _ _).
  - repeat constructor; decide_now.
  - decide_now.
  - decide_now.
Defined.

Lemma record_coverage_advances_witness :
  ∃ i', record_coverage [((CoverageSample.key, CoverageSample.session), mkInterval 500 600)]
          CoverageSample.table !! (CoverageSample.key, CoverageSample.session) = Some i' ∧
        (600 ≤ ci_through i')%N.
Proof.
  apply (record_coverage_advances [((CoverageSample.key, CoverageSample.session), mkInterval 500 600)]
    CoverageSample.table (CoverageSample.key, CoverageSample.session) (mkInterval 500 600)).
  right. left.
Defined.

Lemma gc_total_witness :
  is_Some (@gc Sample.sample_hex Sample.sample_matcher _ (λ _, false)
    (retention_new CoverageSample.claims) CoverageSample.rows CoverageSample.table).
Proof.
  apply gc_total; [exact CoverageSample.table_proper|].
  apply Forall_singleton. split_and!; simpl; [done| |apply map_Forall_empty].
  intros s ->%elem_of_singleton. exists 2%N. apply (Sample.from_to_hex 2).
Defined.

Lemma coverage_claims_partition_witness :
  ∃ c, c ∈ coverage_claim_atoms
             (mkAtom (set_authors (Some {[ Sample.to_hex 7; Sample.to_hex 8 ]}) filter_default)
                     Auto None ∅) ∧
       @concrete_matches Sample.sample_hex (a_filter c) (CoverageSample.note 1 40).
Proof.
  apply (@coverage_claims_partition Sample.sample_hex
    (mkAtom (set_authors (Some {[ Sample.to_hex 7; Sample.to_hex 8 ]}) filter_default) Auto None ∅)
    (CoverageSample.note 1 40)).
  - intros authors _ [= <-]. decide_now.
  - split_and!; simpl; try done. right. exists (Sample.to_hex 7).
    split; [set_solver|]. apply (Sample.from_to_hex 7).
Defined.
