(* ===== verification/RouterTypes.v ===== *)
(** * The vocabulary of [nmp-router]

    The data the routing components exchange:
    [crates/nmp-router/src/facts.rs] (lanes and the read-only fact surface),
    [budget.rs] (the bounds one compile plans within), the types of [route.rs]
    (route provenance) and of [plan.rs] (demand identity, wire subscription
    ids, requests and plans).  A [usize] that counts elements of a collection
    is a [nat]; a [u64] is an [N].  The trait [RoutingFacts] is the class of
    that name, so the theorems hold for every implementation of it. *)

From S2P Require Import Prelude Grammar Coverage.

(** ** [facts.rs] *)

Inductive Lane := AuthorOutbound | LaneHint | Provenance | OperatorApp | OperatorFallback | LaneExact.

#[global] Instance Lane_eq_dec : EqDecision Lane.
Proof. solve_decision. Defined.

(** [derive(Ord)]: the variants in declaration order. *)
Definition lane_index (l : Lane) : nat :=
  match l with
  | AuthorOutbound => 0 | LaneHint => 1 | Provenance => 2
  | OperatorApp => 3 | OperatorFallback => 4 | LaneExact => 5
  end.
Definition lane_of_index (n : nat) : Lane :=
  match n with
  | 0 => AuthorOutbound | 1 => LaneHint | 2 => Provenance
  | 3 => OperatorApp | 4 => OperatorFallback | _ => LaneExact
  end.
Lemma lane_of_index_of l : lane_of_index (lane_index l) = l.
Proof. by destruct l. Qed.

#[global] Instance Lane_countable : Countable Lane.
Proof. exact (inj_countable' lane_index lane_of_index lane_of_index_of). Defined.
#[global] Instance Lane_ord : Ord Lane := ord_via lane_index.
#[global] Instance Lane_ord_laws : OrdLaws Lane.
Proof. apply ord_via_laws. by intros [] []. Qed.

Record LanedRelay := mkLaned { lr_url : RelayUrl; lr_lane : Lane }.

#[global] Instance LanedRelay_eq_dec : EqDecision LanedRelay.
Proof. solve_decision. Defined.

Record AuthorRoutes := mkRoutes { outbound : gset RelayUrl; inbound : gset RelayUrl }.

(** [AuthorRoutes::new]. *)
Definition author_routes_new (out inb : list RelayUrl) : AuthorRoutes :=
  mkRoutes (list_to_set out) (list_to_set inb).

Inductive AuthorRouteState := Unknown | Present (routes : AuthorRoutes) | Absent.

Class RoutingFacts := {
  author_routes : PublicKey → AuthorRouteState;
  operator_app_relays : list RelayUrl;
  operator_fallback_relays : list RelayUrl
}.

(** ** [budget.rs] *)

Record AdvertisedRelayLimits := mkLimits {
  l_max_subscriptions : option nat;
  l_max_subid_length : option nat
}.

Record CompileBudget := mkBudget {
  relay_cap : nat;
  advertised : gmap RelayUrl AdvertisedRelayLimits
}.

Definition wire_sub_id_chars : nat := 64.

Definition with_relay_cap (cap : nat) : CompileBudget := mkBudget cap ∅.

Definition advertising (relay : RelayUrl) (limits : AdvertisedRelayLimits) (b : CompileBudget)
    : CompileBudget :=
  mkBudget (relay_cap b) (<[relay := limits]> (advertised b)).

Definition advertising_all (limits : list (RelayUrl * AdvertisedRelayLimits)) (b : CompileBudget)
    : CompileBudget :=
  mkBudget (relay_cap b) (foldl (λ m p, <[p.1 := p.2]> m) (advertised b) limits).

Definition max_subscriptions (b : CompileBudget) (relay : RelayUrl) : option nat :=
  limits ← advertised b !! relay; l_max_subscriptions limits.

Definition max_subid_length (b : CompileBudget) (relay : RelayUrl) : option nat :=
  limits ← advertised b !! relay; l_max_subid_length limits.

Definition rejects_our_subscription_ids (b : CompileBudget) (relay : RelayUrl) : bool :=
  match max_subid_length b relay with
  | Some length => length <? wire_sub_id_chars
  | None => false
  end.

(** ** [route.rs]: route provenance *)

Inductive RouteKind := KCoverage | KSupplemental | KExact.

#[global] Instance RouteKind_eq_dec : EqDecision RouteKind.
Proof. solve_decision. Defined.

Definition kind_index (k : RouteKind) : nat :=
  match k with KCoverage => 0 | KSupplemental => 1 | KExact => 2 end.
Definition kind_of_index (n : nat) : RouteKind :=
  match n with 0 => KCoverage | 1 => KSupplemental | _ => KExact end.

Record RouteProvenance := mkProv {
  rp_relay : RelayUrl;
  rp_lane : Lane;
  rp_covers_authors : gset PublicKey;
  rp_route_kind : RouteKind
}.

#[global] Instance RouteProvenance_eq_dec : EqDecision RouteProvenance.
Proof. solve_decision. Defined.

Definition prov_fields (p : RouteProvenance) :=
  (rp_relay p, (rp_lane p, (rp_covers_authors p, kind_index (rp_route_kind p)))).
Definition prov_of_fields (t : string * (Lane * (gset N * nat))) : RouteProvenance :=
  let '(r, (l, (c, k))) := t in mkProv r l c (kind_of_index k).
Lemma prov_of_fields_of p : prov_of_fields (prov_fields p) = p.
Proof. by destruct p as [? ? ? []]. Qed.

#[global] Instance RouteProvenance_countable : Countable RouteProvenance.
Proof. exact (inj_countable' prov_fields prov_of_fields prov_of_fields_of). Defined.

(** ** [plan.rs] *)

(** [DemandKey]: the coverage identity with the window and count restored. *)
Record DemandKey := mkDemand {
  d_coverage : CoverageKey;
  d_since : option N;
  d_until : option N;
  d_limit : option N
}.

Definition demand_fields (d : DemandKey) := (d_coverage d, (d_since d, (d_until d, d_limit d))).
Definition demand_of_fields (t : CoverageKey * (option N * (option N * option N))) : DemandKey :=
  let '(c, (s, (u, l))) := t in mkDemand c s u l.
Lemma demand_of_fields_of d : demand_of_fields (demand_fields d) = d.
Proof. by destruct d. Qed.

#[global] Instance demand_fields_inj : Inj (=) (=) demand_fields.
Proof. intros a b Hab. by rewrite <-(demand_of_fields_of a), Hab, demand_of_fields_of. Qed.
#[global] Instance DemandKey_eq_dec : EqDecision DemandKey.
Proof. solve_decision. Defined.
#[global] Instance DemandKey_countable : Countable DemandKey.
Proof. exact (inj_countable' demand_fields demand_of_fields demand_of_fields_of). Defined.
#[global] Instance DemandKey_ord : Ord DemandKey := ord_via demand_fields.
#[global] Instance DemandKey_ord_laws : OrdLaws DemandKey.
Proof. apply ord_via_laws. apply _. Qed.

(** [DemandKey::from_filter] and [DemandKey::for_atom]. *)
Definition demand_from_filter (coverage : CoverageKey) (f : ConcreteFilter) : DemandKey :=
  mkDemand coverage (f_since f) (f_until f) (f_limit f).
Definition demand_for_atom (a : ContextualAtom) : DemandKey :=
  demand_from_filter (coverage_key a) (a_filter a).

(** [SubId(relay, WireToken { mint }, authenticate_as)]. *)
Record SubId := mkSub { sub_relay : RelayUrl; sub_mint : N; sub_auth : option PublicKey }.

(** The session a [SubId] names: [RelaySessionKey::new(sub_id.0, sub_id.2)]. *)
Definition sub_session (s : SubId) : RelaySessionKey := mkSession (sub_relay s) (sub_auth s).

Definition sub_fields (s : SubId) := (sub_relay s, (sub_mint s, sub_auth s)).
Definition sub_of_fields (t : string * (N * option N)) : SubId :=
  let '(r, (m, a)) := t in mkSub r m a.
Lemma sub_of_fields_of s : sub_of_fields (sub_fields s) = s.
Proof. by destruct s. Qed.

#[global] Instance sub_fields_inj : Inj (=) (=) sub_fields.
Proof. intros a b Hab. by rewrite <-(sub_of_fields_of a), Hab, sub_of_fields_of. Qed.
#[global] Instance SubId_eq_dec : EqDecision SubId.
Proof. solve_decision. Defined.
#[global] Instance SubId_countable : Countable SubId.
Proof. exact (inj_countable' sub_fields sub_of_fields sub_of_fields_of). Defined.
#[global] Instance SubId_ord : Ord SubId := ord_via sub_fields.
#[global] Instance SubId_ord_laws : OrdLaws SubId.
Proof. apply ord_via_laws. apply _. Qed.

(** [SubId::allocate]: the token is the counter and nothing else. *)
Definition allocate (relay : RelayUrl) (_source : ReadRouting) (authenticate_as : option PublicKey)
    (counter : N) : SubId :=
  mkSub relay counter authenticate_as.

Record WireReq := mkReq {
  r_sub_id : SubId;
  r_filter : ConcreteFilter;
  r_routing : ReadRouting;
  r_provenance : gset RouteProvenance;
  r_coverage_claims : gset CoverageKey;
  r_owner_demands : gset DemandKey;
  r_coverage_assignments : gset (DemandKey * PublicKey)
}.

#[global] Instance WireReq_eq_dec : EqDecision WireReq.
Proof. solve_decision. Defined.

Record BudgetShortfall := mkShort { bs_budget : nat; bs_planned : nat; bs_refused : nat }.

#[global] Instance BudgetShortfall_eq_dec : EqDecision BudgetShortfall.
Proof. solve_decision. Defined.

Record RelayPlan := mkPlan {
  p_reqs : gmap RelaySessionKey (list WireReq);
  p_limited_demands : gset DemandKey;
  p_refused_sessions : gset RelaySessionKey;
  p_subscription_shortfalls : gmap RelaySessionKey BudgetShortfall
}.

Inductive WireOp := Req (s : SubId) (f : ConcreteFilter) | Close (s : SubId).

#[global] Instance WireOp_eq_dec : EqDecision WireOp.
Proof. solve_decision. Defined.

(** [WireDelta { ops }]. *)
Abbreviation WireDelta := (list (RelaySessionKey * list WireOp)).

(** Demand identity separates atoms exactly by selection, window, count and
    context: only the routing evidence is forgotten. *)
Lemma demand_for_atom_inj a b :
  demand_for_atom a = demand_for_atom b ↔
  a_filter a = a_filter b ∧ a_routing a = a_routing b ∧ a_authenticate_as a = a_authenticate_as b.
Proof.
  unfold demand_for_atom, demand_from_filter, coverage_key, window_erase.
  destruct a as [[] ? ? ?], b as [[] ? ? ?]; simpl. split.
  - intros [=]. by simplify_eq.
  - intros ([=] & -> & ->). by subst.
Qed.
