(* ===== verification/Component.v ===== *)
(** * The structural components of a filter

    [crates/nmp-router/src/component.rs]: a filter read as a bag of independent
    components, and the short-circuiting search for the one component two
    filters differ in, shared by coalescing and by wire-token assignment. *)

From S2P Require Import Prelude Grammar.

Inductive Component := Since | Until | Kinds | Authors | Ids | Limit | Tag (name : IndexedTagName).

#[global] Instance Component_eq_dec : EqDecision Component.
Proof. solve_decision. Defined.

#[global] Instance Tag_inj : Inj (=) (=) Tag.
Proof. by intros ?? [=]. Qed.

(** The closure [record]: the outer [None] is its [false], on which the caller
    returns; the value is the variable [found]. *)
Definition record (found : option Component) (c : Component) (differs : bool)
    : option (option Component) :=
  if negb differs then Some found
  else match found with
       | Some _ => None
       | None => Some (Some c)
       end.

(** The names of [a], then those of [b] that [a] does not carry. *)
Definition tag_names (a b : ConcreteFilter) : list IndexedTagName :=
  (ordered_map (f_tags a)).*1 ++
  filter (λ name, f_tags a !! name = None) (ordered_map (f_tags b)).*1.

Fixpoint record_tags (a b : ConcreteFilter) (found : option Component)
    (names : list IndexedTagName) : option (option Component) :=
  match names with
  | [] => Some found
  | name :: names =>
      found ← record found (Tag name) (bool_decide (f_tags a !! name ≠ f_tags b !! name));
      record_tags a b found names
  end.

Definition sole_difference (a b : ConcreteFilter) : option Component :=
  found ← record None Since (bool_decide (f_since a ≠ f_since b));
  found ← record found Until (bool_decide (f_until a ≠ f_until b));
  found ← record found Kinds (bool_decide (f_kinds a ≠ f_kinds b));
  found ← record found Authors (bool_decide (f_authors a ≠ f_authors b));
  found ← record found Ids (bool_decide (f_ids a ≠ f_ids b));
  found ← record found Limit (bool_decide (f_limit a ≠ f_limit b));
  found ← record_tags a b found (tag_names a b);
  found.

(** ** The exhaustive reading of the model *)

(** The two filters disagree on the component. *)
Definition differs (a b : ConcreteFilter) (c : Component) : Prop :=
  match c with
  | Since => f_since a ≠ f_since b
  | Until => f_until a ≠ f_until b
  | Kinds => f_kinds a ≠ f_kinds b
  | Authors => f_authors a ≠ f_authors b
  | Ids => f_ids a ≠ f_ids b
  | Limit => f_limit a ≠ f_limit b
  | Tag name => f_tags a !! name ≠ f_tags b !! name
  end.
#[global] Instance differs_dec a b c : Decision (differs a b c).
Proof. destruct c; simpl; apply _. Defined.

Definition components (a b : ConcreteFilter) : list Component :=
  [Since; Until; Kinds; Authors; Ids; Limit] ++ (Tag <$> tag_names a b).

(** Every component the two filters differ in, once each. *)
Definition differing (a b : ConcreteFilter) : list Component := filter (differs a b) (components a b).

Lemma elem_of_tag_names a b name :
  name ∈ tag_names a b ↔ is_Some (f_tags a !! name) ∨ is_Some (f_tags b !! name).
Proof.
  unfold tag_names. rewrite elem_of_app, list_elem_of_filter, !elem_of_ordered_map_fst.
  destruct (f_tags a !! name); rewrite <-?elem_of_dom; naive_solver.
Qed.

Lemma NoDup_components a b : NoDup (components a b).
Proof.
  apply NoDup_app. split_and!; [decide_now|..].
  - intros c Hc. rewrite list_elem_of_fmap. intros (name & -> & _). revert Hc. clear. set_solver.
  - apply (NoDup_fmap_2 _). unfold tag_names. apply NoDup_app. split_and!.
    + apply NoDup_ordered_map_fst.
    + intros name Ha Hb. apply elem_of_ordered_map_fst in Ha.
      apply list_elem_of_filter in Hb as [Hn _]. rewrite Hn in Ha. by destruct Ha.
    + apply NoDup_filter, NoDup_ordered_map_fst.
Qed.

Lemma elem_of_components a b c : differs a b c → c ∈ components a b.
Proof.
  intros Hd. unfold components. rewrite elem_of_app.
  destruct c as [| | | | | |name]; [left; clear; set_solver..|right].
  apply list_elem_of_fmap_2, elem_of_tag_names. simpl in Hd.
  destruct (f_tags a !! name), (f_tags b !! name); naive_solver.
Qed.

Lemma elem_of_differing a b c : c ∈ differing a b ↔ differs a b c.
Proof. unfold differing. rewrite list_elem_of_filter. naive_solver eauto using elem_of_components. Qed.

(** One left-to-right sweep of [record] over a list of components. *)
Fixpoint sweep (a b : ConcreteFilter) (found : option Component) (cs : list Component)
    : option (option Component) :=
  match cs with
  | [] => Some found
  | c :: cs => found ← record found c (bool_decide (differs a b c)); sweep a b found cs
  end.

Lemma sweep_tags a b found names : sweep a b found (Tag <$> names) = record_tags a b found names.
Proof.
  revert found. induction names as [|name names IH]; intros found; [done|]. csimpl.
  destruct (record _ _ _); simpl; [apply IH|done].
Qed.

Lemma sole_difference_sweep a b : sole_difference a b = mjoin (sweep a b None (components a b)).
Proof.
  unfold sole_difference, components. simpl.
  repeat (match goal with |- context [record ?f ?c ?d] => destruct (record f c d) as [?|]; simpl end;
          [|done]).
  by rewrite sweep_tags.
Qed.

Lemma sweep_spec a b found cs :
  sweep a b found cs =
    match option_list found ++ filter (differs a b) cs with
    | [] => Some None
    | [c] => Some (Some c)
    | _ => None
    end.
Proof.
  revert found. induction cs as [|c cs IH]; intros found; simpl.
  { by destruct found. }
  rewrite filter_cons. unfold record. case_bool_decide; simpl.
  - rewrite decide_True by done. destruct found; simpl; [done|]. by rewrite IH.
  - rewrite decide_False by done. by rewrite IH.
Qed.

Lemma sole_difference_differing a b c : sole_difference a b = Some c ↔ differing a b = [c].
Proof.
  rewrite sole_difference_sweep, sweep_spec. simpl. fold (differing a b).
  destruct (differing a b) as [|? [|??]]; naive_solver.
Qed.

Lemma sole_difference_only a b c :
  sole_difference a b = Some c ↔ ∀ c', differs a b c' ↔ c' = c.
Proof.
  rewrite sole_difference_differing. setoid_rewrite <-elem_of_differing.
  assert (NoDup (differing a b)) as Hnd by apply NoDup_filter, NoDup_components.
  split.
  - intros -> c'. apply list_elem_of_singleton.
  - intros Hc. destruct (differing a b) as [|c1 [|c2 cs]].
    + exfalso. apply (not_elem_of_nil c). by apply Hc.
    + f_equal. apply Hc. left.
    + apply NoDup_cons in Hnd as [Hn _]. destruct Hn.
      rewrite (proj1 (Hc c1)), <-(proj1 (Hc c2)); [left|right; left|left].
Qed.

Lemma differs_sym a b c : differs a b c ↔ differs b a c.
Proof. destruct c; simpl; naive_solver. Qed.

(** [sole_difference] names a component exactly when it is the one component
    in which the two filters differ, so the short-circuiting search agrees with
    the exhaustive list of differences; it does not depend on the order of its
    arguments, and it answers [None] for equal filters. *)
Theorem sole_difference_spec a b :
  (∀ c, sole_difference a b = Some c ↔ differing a b = [c]) ∧
  (∀ c, sole_difference a b = Some c ↔ ∀ c', differs a b c' ↔ c' = c) ∧
  sole_difference b a = sole_difference a b ∧
  sole_difference a a = None.
Proof.
  split_and!; [apply sole_difference_differing|apply sole_difference_only|..].
  - apply option_eq. intros c. rewrite !sole_difference_only.
    by setoid_rewrite (differs_sym b a).
  - apply eq_None_not_Some. intros [c Hc].
    pose proof (proj2 (proj1 (sole_difference_only a a c) Hc c) eq_refl) as Hd. by destruct c.
Qed.
