(* ===== verification/Coalesce.v ===== *)
(** * Coalescing

    [crates/nmp-router/src/coalesce.rs]: the merge-rule registry, the one
    default rule [StructuralUnion], and the pipeline that deduplicates, merges
    to a fixed point and deduplicates again the entries of one context
    partition.

    A [Vec<Entry>] is a list, an index expression [current[i]] is a lookup whose
    [None] is the panic, and the two [while] loops are recursions on fuel whose
    [None] is running out of it; [merge_fixed_point_is_restart] shows neither
    happens.  The counter [pair_attempts] (a [Cell<u64>]) is threaded through
    every attempt. *)

From S2P Require Import Prelude Grammar Coverage RouterTypes Component.

(** ** Entries *)

Record EntryOwnership := mkOwn {
  o_claims : gset CoverageKey;
  o_demands : gset DemandKey;
  o_assignments : gset (DemandKey * PublicKey)
}.

Definition own_default : EntryOwnership := mkOwn ∅ ∅ ∅.

#[global] Instance EntryOwnership_eq_dec : EqDecision EntryOwnership.
Proof. solve_decision. Defined.

(** [EntryOwnership::extend]. *)
Definition own_extend (a b : EntryOwnership) : EntryOwnership :=
  mkOwn (o_claims a ∪ o_claims b) (o_demands a ∪ o_demands b) (o_assignments a ∪ o_assignments b).

Record Entry := mkEntry {
  en_filter : ConcreteFilter;
  en_prov : list RouteProvenance;
  en_own : EntryOwnership
}.

#[global] Instance Entry_eq_dec : EqDecision Entry.
Proof. solve_decision. Defined.

(** ** Rules *)

Record MergeRule := mkRule {
  rule_name : string;
  try_merge : ConcreteFilter → ConcreteFilter → option ConcreteFilter
}.

Definition max_ids_per_filter : nat := 256.
Definition max_tag_values_per_filter : nat := 500.

Definition neither_limited (a b : ConcreteFilter) : bool :=
  bool_decide (f_limit a = None) && bool_decide (f_limit b = None).

Definition both_constrain {A} `{Countable A} (a b : option (gset A)) : option (gset A * gset A) :=
  match a, b with
  | Some a, Some b => if decide (a ≠ ∅ ∧ b ≠ ∅) then Some (a, b) else None
  | _, _ => None
  end.

(** [<StructuralUnion as MergeRule>::try_merge]. *)
Definition structural_union_merge (a b : ConcreteFilter) : option ConcreteFilter :=
  if negb (neither_limited a b) then None else
  component ← sole_difference a b;
  match component with
  | Since | Until => None
  | Limit => None
  | Kinds =>
      '(a_kinds, b_kinds) ← both_constrain (f_kinds a) (f_kinds b);
      Some (set_kinds (Some (a_kinds ∪ b_kinds)) a)
  | Authors =>
      '(a_authors, b_authors) ← both_constrain (f_authors a) (f_authors b);
      Some (set_authors (Some (a_authors ∪ b_authors)) a)
  | Ids =>
      '(a_ids, b_ids) ← both_constrain (f_ids a) (f_ids b);
      let ids := a_ids ∪ b_ids in
      if max_ids_per_filter <? size ids then None
      else Some (set_ids (Some ids) a)
  | Tag name =>
      a_values ← f_tags a !! name;
      b_values ← f_tags b !! name;
      let values := a_values ∪ b_values in
      if max_tag_values_per_filter <? size values then None
      else Some (set_tags (<[name := values]> (f_tags a)) a)
  end.

Definition StructuralUnion : MergeRule := mkRule "StructuralUnion" structural_union_merge.

(** [<DiscardSecondOperand as MergeRule>::try_merge]. *)
Definition discard_second_merge (a b : ConcreteFilter) : option ConcreteFilter :=
  if bool_decide (f_kinds a = f_kinds b) && bool_decide (a ≠ b) then Some a else None.

Definition DiscardSecondOperand : MergeRule :=
  mkRule "DiscardSecondOperand" discard_second_merge.

(** ** The registry *)

Record RuleRegistry := mkRegistry {
  rules : list MergeRule;
  dropped : list string;
  pair_attempts : N
}.

Definition default_widen_only : RuleRegistry := mkRegistry [StructuralUnion] [] 0.
Definition dedup_only : RuleRegistry := mkRegistry [] [] 0.

Definition register (rule : MergeRule) (verified_widening : bool) (reg : RuleRegistry)
    : RuleRegistry :=
  if verified_widening then mkRegistry (rules reg ++ [rule]) (dropped reg) (pair_attempts reg)
  else mkRegistry (rules reg) (dropped reg ++ [rule_name rule]) (pair_attempts reg).

Definition dropped_rules (reg : RuleRegistry) : list string := dropped reg.
Definition fork (reg : RuleRegistry) : RuleRegistry := mkRegistry (rules reg) (dropped reg) 0.

(** [u64::saturating_add(1)]. *)
Definition saturating_incr (n : N) : N := N.min (n + 1) u64_max.

(** The loop of [try_merge_pair] over the rules. *)
Fixpoint merge_pair (rs : list MergeRule) (a b : Entry) : option Entry :=
  match rs with
  | [] => None
  | rule :: rs =>
      match try_merge rule (en_filter a) (en_filter b) with
      | Some merged =>
          Some (mkEntry merged (en_prov a ++ en_prov b) (own_extend (en_own a) (en_own b)))
      | None => merge_pair rs a b
      end
  end.

Section pipeline.
Context (rs : list MergeRule).

Definition try_merge_pair (attempts : N) (a b : Entry) : N * option Entry :=
  (saturating_incr attempts, merge_pair rs a b).

(** [current.remove(j); current.remove(i); current.push(merged)]. *)
Definition apply_merge (current : list Entry) (i j : nat) (merged : Entry) : list Entry :=
  delete i (delete j current) ++ [merged].

Fixpoint revalidate_loop (fuel : nat) (attempts : N) (current : list Entry) (settled k : nat)
    : option (N * list Entry * nat) :=
  match fuel with
  | 0 => None
  | S fuel =>
      if k <? settled then
        let tail := length current - 1 in
        a ← current !! k;
        b ← current !! tail;
        let '(attempts, o) := try_merge_pair attempts a b in
        match o with
        | Some merged =>
            revalidate_loop fuel attempts (apply_merge current k tail merged) (settled - 1) 0
        | None => revalidate_loop fuel attempts current settled (S k)
        end
      else Some (attempts, current, settled)
  end.

Definition revalidate_prefix_against_tail (attempts : N) (current : list Entry) (settled : nat)
    : option (N * list Entry * nat) :=
  revalidate_loop (S settled * S settled) attempts current settled 0.

Fixpoint fixed_point_loop (fuel : nat) (attempts : N) (current : list Entry) (settled j : nat)
    : option (N * list Entry) :=
  match fuel with
  | 0 => None
  | S fuel =>
      if settled <? length current then
        if length current <=? j then
          fixed_point_loop fuel attempts current (settled + 1) (settled + 2)
        else
          a ← current !! settled;
          b ← current !! j;
          let '(attempts, o) := try_merge_pair attempts a b in
          match o with
          | Some merged =>
              '(attempts, current, settled) ←
                revalidate_prefix_against_tail attempts (apply_merge current settled j merged) settled;
              fixed_point_loop fuel attempts current settled (settled + 1)
          | None => fixed_point_loop fuel attempts current settled (j + 1)
          end
      else Some (attempts, current)
  end.

Definition merge_fixed_point (attempts : N) (current : list Entry) : option (N * list Entry) :=
  fixed_point_loop (S (length current) * S (length current)) attempts current 0 1.

(** [p.extend(prov); retained.extend(ownership)]. *)
Definition absorb (r e : Entry) : Entry :=
  mkEntry (en_filter r) (en_prov r ++ en_prov e) (own_extend (en_own r) (en_own e)).

Definition bag_insert (m : gmap ConcreteFilter Entry) (e : Entry) : gmap ConcreteFilter Entry :=
  match m !! en_filter e with
  | Some r => <[en_filter e := absorb r e]> m
  | None => <[en_filter e := e]> m
  end.

(** Step 1 of [coalesce_with]: exact deduplication, in filter order. *)
Definition dedup_entries (entries : list Entry) : list Entry :=
  (ordered_map (foldl bag_insert ∅ entries)).*2.

Definition survivor_step (acc : gmap ConcreteFilter nat * list Entry) (e : Entry)
    : gmap ConcreteFilter nat * list Entry :=
  let '(first_index, out) := acc in
  match first_index !! en_filter e with
  | Some first => (first_index, alter (λ r, absorb r e) first out)
  | None => (<[en_filter e := length out]> first_index, out ++ [e])
  end.

Definition dedup_survivors (entries : list Entry) : list Entry :=
  (foldl survivor_step (∅, []) entries).2.

Definition coalesce_with (attempts : N) (entries : list Entry) : option (N * list Entry) :=
  '(attempts, current) ← merge_fixed_point attempts (dedup_entries entries);
  Some (attempts, dedup_survivors current).

Definition coalesce (attempts : N) (filters : gset ConcreteFilter)
    : option (N * list ConcreteFilter) :=
  match coalesce_with attempts ((λ f, mkEntry f [] own_default) <$> ordered filters) with
  | Some (attempts, out) => Some (attempts, en_filter <$> out)
  | None => None
  end.
End pipeline.

(** ** The reference: restart the row-major scan after every merge *)

Section restart.
Context (rs : list MergeRule).
Implicit Types current : list Entry.

(** No rule accepts the pair at the two positions. *)
Definition free current (i j : nat) : Prop :=
  ∀ a b, current !! i = Some a → current !! j = Some b → merge_pair rs a b = None.

(** One round of the nested loop that restarts from [i = 0]: it merges the
    first pair in row-major order that some rule accepts. *)
Inductive restart_step current : list Entry → Prop :=
  restart_merge i j a b m :
    i < j → current !! i = Some a → current !! j = Some b →
    merge_pair rs a b = Some m →
    (∀ i' j', i' < j' → i' < i ∨ i' = i ∧ j' < j → free current i' j') →
    restart_step current (apply_merge current i j m).

Lemma length_apply_merge current i j m :
  i < j → j < length current → length (apply_merge current i j m) = length current - 1.
Proof.
  intros Hij Hj. unfold apply_merge. rewrite length_app. simpl.
  assert (length (delete j current) = length current - 1) as Hl.
  { by apply length_delete, lookup_lt_is_Some_2. }
  rewrite length_delete by (apply lookup_lt_is_Some_2; lia). lia.
Qed.

(** The position in [delete i l] of the element at [x] of [l]. *)
Definition skip (i x : nat) : nat := if decide (x < i) then x else S x.

Lemma skip_mono i x y : x < y → skip i x < skip i y.
Proof. unfold skip. repeat case_decide; lia. Qed.

Lemma apply_merge_lookup current i j m x :
  i < j → j < length current → x < length current - 2 →
  apply_merge current i j m !! x = current !! skip j (skip i x).
Proof.
  intros Hij Hj Hx. unfold apply_merge.
  assert (length (delete j current) = length current - 1) as Hl.
  { by apply length_delete, lookup_lt_is_Some_2. }
  rewrite lookup_app_l.
  - by rewrite !list_lookup_delete.
  - rewrite length_delete by (apply lookup_lt_is_Some_2; lia). lia.
Qed.

(** The first [settled] rows are free against everything. *)
Definition settled_free current settled : Prop :=
  ∀ i j, i < settled → i < j → free current i j.
(** The same, except that the last entry is not yet compared. *)
Definition settled_free_but_tail current settled : Prop :=
  ∀ i j, i < settled → i < j → j < length current - 1 → free current i j.

(** Merging at [(i, j)] with row [i] not below the settled prefix, or with the
    tail, keeps the rest of the prefix free. *)
Lemma apply_merge_settled current i j m settled settled' :
  i < j → j < length current →
  (∀ x, x < settled' → skip j (skip i x) < settled) →
  settled' ≤ length current - 2 →
  (∀ p q, p < settled → p < q → q < length current → p ≠ i → q ≠ j → free current p q) →
  settled_free_but_tail (apply_merge current i j m) settled'.
Proof.
  intros Hij Hj Hs Hs' Hfree x y Hx Hxy Hy a b.
  rewrite length_apply_merge in Hy by done.
  rewrite !apply_merge_lookup by lia. apply Hfree.
  - by apply Hs.
  - by do 2 apply skip_mono.
  - unfold skip. repeat case_decide; lia.
  - unfold skip. repeat case_decide; lia.
  - unfold skip. repeat case_decide; lia.
Qed.

Lemma revalidate_spec fuel n current settled k :
  settled * S settled + (settled - k) < fuel →
  settled < length current → k ≤ settled →
  settled_free_but_tail current settled →
  (∀ i, i < k → free current i (length current - 1)) →
  ∃ n' current' settled',
    revalidate_loop rs fuel n current settled k = Some (n', current', settled') ∧
    rtc restart_step current current' ∧ settled_free current' settled' ∧
    settled' < length current' ∧ length current' ≤ length current ∧
    length current' - settled' = length current - settled ∧
    (n' ≤ n + N.of_nat ((settled - k) + (length current - length current') * settled))%N.
Proof.
  revert n current settled k. induction fuel as [|fuel IH]; intros n current settled k Hfuel Hs Hk Hfree Hdone; [lia|].
  simpl. destruct (Nat.ltb_spec k settled) as [Hlt|Hge].
  2: { exists n, current, settled. split_and!; try done; [|lia]. intros i j Hi Hij.
       destruct (decide (j < length current - 1)); [by apply Hfree|].
       intros a b Ha Hb. pose proof (lookup_lt_Some _ _ _ Hb).
       apply (Hdone i); [lia|done|]. by replace (length current - 1) with j by lia. }
  destruct (lookup_lt_is_Some_2 current k) as [a Ha]; [lia|].
  destruct (lookup_lt_is_Some_2 current (length current - 1)) as [b Hb]; [lia|].
  rewrite Ha, Hb. simpl. destruct (merge_pair rs a b) as [m|] eqn:Hm.
  - pose proof (length_apply_merge current k (length current - 1) m ltac:(lia) ltac:(lia)) as Hlen.
    edestruct (IH (saturating_incr n) (apply_merge current k (length current - 1) m) (settled - 1) 0)
      as (n' & current' & settled' & Hrun & Hsteps & Hset & Hlt' & Hle & Hd & Hn'); try lia.
    + eapply apply_merge_settled; [lia..| | |].
      * intros x Hx. instantiate (1 := settled). unfold skip. repeat case_decide; lia.
      * lia.
      * intros p q ?????. apply Hfree; lia.
    + exists n', current', settled'. rewrite Hlen in *. split_and!; try done; try lia.
      * eapply rtc_l; [|done]. eapply restart_merge; [|done..|]; [lia|].
        intros i' j' Hij' Hbefore. destruct (decide (j' < length current - 1)).
        { apply Hfree; lia. }
        intros ?? Hi' Hj'. pose proof (lookup_lt_Some _ _ _ Hj').
        apply (Hdone i'); [lia|done|]. by replace (length current - 1) with j' by lia.
      * assert (1 + (settled - 1 - 0 + (length current - 1 - length current') * (settled - 1)) ≤
                settled - k + (length current - length current') * settled) as Hnat.
        { replace (length current - length current')
            with (S (length current - 1 - length current')) by lia.
          destruct settled as [|s]; [lia|]. replace (S s - 1) with s by lia. nia. }
        unfold saturating_incr in Hn'. lia.
  - edestruct (IH (saturating_incr n) current settled (S k))
      as (n' & current' & settled' & Hrun & Hsteps & Hset & Hlt' & Hle & Hd & Hn'); try done; try lia.
    + intros i Hi. destruct (decide (i = k)) as [->|]; [|apply Hdone; lia]. intros ????. by simplify_eq.
    + exists n', current', settled'. split_and!; try done. unfold saturating_incr in Hn'. lia.
Qed.

(** What a run of the outer loop from a state establishes; [bound] bounds the
    length of the lists it meets. *)
Definition runs_to (bound fuel : nat) (n : N) current settled j : Prop :=
  ∃ n' current',
    fixed_point_loop rs fuel n current settled j = Some (n', current') ∧
    rtc restart_step current current' ∧ settled_free current' (length current') ∧
    length current' ≤ length current ∧
    (n' ≤ n + N.of_nat ((length current - settled) * bound + (length current - j)
                         + (length current - length current') * bound))%N.

(** A merge at [(settled, j)] followed by the sweep of the prefix. *)
Lemma row_merge_spec n current settled j a b m :
  settled < j → current !! settled = Some a → current !! j = Some b →
  merge_pair rs a b = Some m →
  settled_free current settled → (∀ j', settled < j' → j' < j → free current settled j') →
  ∃ n' current' settled',
    revalidate_prefix_against_tail rs n (apply_merge current settled j m) settled
      = Some (n', current', settled') ∧
    rtc restart_step current current' ∧ settled_free current' settled' ∧
    settled' < length current' ∧ length current' < length current ∧
    length current' - settled' = length current - settled - 1 ∧
    (n' ≤ n + N.of_nat ((length current - length current') * settled))%N.
Proof.
  intros Hj Ha Hb Hm Hfree Hrow. pose proof (lookup_lt_Some _ _ _ Hb) as Hlt.
  pose proof (length_apply_merge current settled j m Hj Hlt) as Hlen.
  destruct (revalidate_spec (S settled * S settled) n (apply_merge current settled j m) settled 0)
    as (n' & current' & settled' & Hrun & Hsteps & Hset & Hlt' & Hle & Hd & Hn'); try lia.
  - eapply apply_merge_settled; [lia..| | |].
    + intros x Hx. instantiate (1 := settled). unfold skip. repeat case_decide; lia.
    + lia.
    + intros p q ?????. apply Hfree; lia.
  - exists n', current', settled'. rewrite Hlen in *. split_and!; try done; try lia.
    + eapply rtc_l; [|done]. eapply restart_merge; [done..|].
      intros i' j' Hij' [?|[-> ?]]; [by apply Hfree|by apply Hrow].
    + replace (length current - length current')
        with (S (length current - 1 - length current')) by lia. lia.
Qed.

Lemma fixed_point_spec bound fuel n current settled j :
  (length current - settled) * S bound + (length current - j) < fuel →
  length current ≤ bound → settled ≤ length current → settled < j →
  settled_free current settled → (∀ j', settled < j' → j' < j → free current settled j') →
  runs_to bound fuel n current settled j.
Proof.
  revert n current settled j.
  induction fuel as [|fuel IH]; intros n current settled j Hfuel Hbound Hs Hj Hfree Hrow; [lia|].
  unfold runs_to. simpl. destruct (Nat.ltb_spec settled (length current)) as [Hlt|Hge].
  2: { exists n, current. replace (length current) with settled by lia. split_and!; [done..|lia]. }
  destruct (Nat.leb_spec (length current) j) as [Hdone|Hmore].
  - edestruct (IH n current (settled + 1) (settled + 2))
      as (n' & current' & Hrun & Hsteps & Hset & Hle & Hn'); try lia.
    + intros i j' Hi Hij. destruct (decide (i = settled)) as [->|]; [|apply Hfree; lia].
      intros a b Ha Hb. pose proof (lookup_lt_Some _ _ _ Hb). apply (Hrow j'); [lia|lia|done..].
    + exists n', current'. split_and!; try done. nia.
  - destruct (lookup_lt_is_Some_2 current settled Hlt) as [a Ha].
    destruct (lookup_lt_is_Some_2 current j Hmore) as [b Hb].
    rewrite Ha, Hb. simpl. destruct (merge_pair rs a b) as [m|] eqn:Hm.
    + edestruct (row_merge_spec (saturating_incr n))
        as (n1 & current1 & settled1 & -> & Hsteps1 & Hset1 & Hlt1 & Hle1 & Hd1 & Hn1); [done..|].
      assert (length current - settled = S (length current1 - settled1)) as Hd by lia.
      rewrite Hd, Nat.mul_succ_l in *.
      simpl. edestruct (IH n1 current1 settled1 (settled1 + 1))
        as (n' & current' & Hrun & Hsteps & Hset & Hle & Hn'); [lia..|done| |].
      { intros. lia. }
      exists n', current'. split_and!; try done; [by eapply rtc_trans|lia|].
      pose proof (Nat.mul_le_mono_l settled bound (length current - length current1)).
      replace (length current - length current')
        with ((length current - length current1) + (length current1 - length current')) by lia.
      unfold saturating_incr in Hn1. lia.
    + edestruct (IH (saturating_incr n) current settled (j + 1))
        as (n' & current' & Hrun & Hsteps & Hset & Hle & Hn'); try done; try lia.
      { intros j' ??. destruct (decide (j' = j)) as [->|]; [intros ????; by simplify_eq|].
        apply Hrow; lia. }
      exists n', current'. split_and!; try done. unfold saturating_incr in Hn'. lia.
Qed.


Lemma restart_step_deterministic current out1 out2 :
  restart_step current out1 → restart_step current out2 → out1 = out2.
Proof.
  intros [i1 j1 a1 b1 m1 Hij1 Ha1 Hb1 Hm1 Hfirst1] [i2 j2 a2 b2 m2 Hij2 Ha2 Hb2 Hm2 Hfirst2].
  destruct (decide (i1 < i2 ∨ i1 = i2 ∧ j1 < j2)) as [Hlt|Hge].
  { rewrite (Hfirst2 i1 j1 Hij1 Hlt _ _ Ha1 Hb1) in Hm1. done. }
  destruct (decide (i2 < i1 ∨ i2 = i1 ∧ j2 < j1)) as [Hlt|Hge'].
  { rewrite (Hfirst1 i2 j2 Hij2 Hlt _ _ Ha2 Hb2) in Hm2. done. }
  assert (i1 = i2) as <- by lia. assert (j1 = j2) as <- by lia. by simplify_eq.
Qed.

Lemma settled_free_nf current : settled_free current (length current) → nf restart_step current.
Proof.
  intros Hfree [out [i j a b m Hij Ha Hb Hm _]].
  rewrite (Hfree i j) with (a := a) (b := b) in Hm; try done. by eapply lookup_lt_Some.
Qed.

Lemma merge_fixed_point_spec n current :
  ∃ n' current',
    merge_fixed_point rs n current = Some (n', current') ∧
    rtc restart_step current current' ∧ settled_free current' (length current') ∧
    (n' ≤ n + N.of_nat (2 * length current * length current + length current))%N.
Proof.
  destruct (fixed_point_spec (length current) (S (length current) * S (length current)) n current 0 1)
    as (n' & current' & Hrun & Hsteps & Hfree & Hle & Hn');
    [lia..|intros ??; lia|intros; lia|].
  exists n', current'. split_and!; try done.
  pose proof (Nat.mul_le_mono_r (length current - length current') (length current) (length current)).
  lia.
Qed.

(** C32: the optimised merge loop always finishes, and computes exactly what
    restarting the row-major scan after every merge computes: its result is the
    one normal form reachable by merging, at each round, the first pair some
    rule accepts.  It attempts at most [2 n^2 + n] pairs on [n] entries. *)
Theorem merge_fixed_point_is_restart n current :
  ∃ n' current',
    merge_fixed_point rs n current = Some (n', current') ∧
    (∀ out, rtc restart_step current out ∧ nf restart_step out ↔ out = current') ∧
    (n' ≤ n + N.of_nat (2 * length current * length current + length current))%N.
Proof.
  destruct (merge_fixed_point_spec n current) as (n' & current' & Hrun & Hsteps & Hfree & Hn').
  apply settled_free_nf in Hfree. exists n', current'. split_and!; [done| |done].
  intros out. split; [|by intros ->]. intros [Hout Hnf].
  eapply (deterministic_nf_unique restart_step); eauto using restart_step_deterministic.
Qed.
End restart.

(** ** Coalescing partitions its entries *)

Section partition.
Context (rs : list MergeRule).

(** [built g o]: the entry [o] was made from the entries [g] by folding
    duplicates and applying rules. *)
Inductive built : list Entry → Entry → Prop :=
  | built_entry e : built [e] e
  | built_duplicate g1 g2 a b :
      built g1 a → built g2 b → en_filter a = en_filter b → built (g1 ++ g2) (absorb a b)
  | built_merge g1 g2 a b m :
      built g1 a → built g2 b → merge_pair rs a b = Some m → built (g1 ++ g2) m.

(** [outs] are built from groups that partition [ins]. *)
Definition partitioned (ins outs : list Entry) : Prop :=
  ∃ groups : list (list Entry * Entry),
    groups.*2 = outs ∧ concat groups.*1 ≡ₚ ins ∧ Forall (λ p, built p.1 p.2) groups.

Definition joined (a b m : Entry) : Prop :=
  (en_filter a = en_filter b ∧ m = absorb a b) ∨ merge_pair rs a b = Some m.

Lemma built_joined g1 g2 a b m : built g1 a → built g2 b → joined a b m → built (g1 ++ g2) m.
Proof.
  intros ?? [[? ->]|?]; [by apply built_duplicate|by eapply built_merge].
Qed.

Lemma partitioned_perm ins outs outs' : outs' ≡ₚ outs → partitioned ins outs → partitioned ins outs'.
Proof.
  intros Hperm (groups & <- & Hins & Hbuilt).
  destruct (Permutation_map_inv snd groups Hperm) as (groups' & -> & Hg).
  exists groups'. split_and!; [done| |by rewrite <-Hg].
  by rewrite <-Hins, Hg.
Qed.

#[global] Instance partitioned_proper : Proper ((≡ₚ) ==> (≡ₚ) ==> iff) partitioned.
Proof.
  assert (∀ ins ins' outs, ins ≡ₚ ins' → partitioned ins outs → partitioned ins' outs) as Hins.
  { intros ins ins' outs Hp (groups & ? & Hg & ?). exists groups. by rewrite Hg. }
  intros ins ins' Hp outs outs' Hq. split; intros H.
  - eapply Hins, partitioned_perm; [done|by symmetry|done].
  - eapply Hins, partitioned_perm; [by symmetry|done..].
Qed.

Lemma partitioned_add ins outs e : partitioned ins outs → partitioned (ins ++ [e]) (e :: outs).
Proof.
  intros (groups & <- & Hins & Hbuilt). exists (([e], e) :: groups). split_and!; [done|..].
  - simpl. by rewrite Hins, Permutation_app_comm.
  - constructor; [constructor|done].
Qed.

Lemma partitioned_join ins a b m outs :
  joined a b m → partitioned ins (a :: b :: outs) → partitioned ins (m :: outs).
Proof.
  intros Hj ([|[g1 a'] [|[g2 b'] groups]] & Hout & Hins & Hbuilt); simplify_eq/=.
  apply Forall_cons in Hbuilt as [Ha [Hb Hbuilt]%Forall_cons].
  exists ((g1 ++ g2, m) :: groups). split_and!; [done| |].
  - simpl. by rewrite <-Hins, (assoc_L (++)).
  - constructor; [by eapply built_joined|done].
Qed.

Lemma restart_step_partitioned ins outs outs' :
  rtc (restart_step rs) outs outs' → partitioned ins outs → partitioned ins outs'.
Proof.
  induction 1 as [|outs mid outs' [i j a b m Hij Ha Hb Hm _] _ IH]; [done|].
  intros Hp. apply IH. unfold apply_merge. rewrite Permutation_app_comm. simpl.
  eapply partitioned_join; [by right|]. eapply partitioned_perm; [|exact Hp].
  etrans; [apply perm_swap|]. symmetry. etrans; [apply (delete_Permutation outs j b Hb)|].
  constructor. apply (delete_Permutation _ i a). by rewrite list_lookup_delete_lt.
Qed.

(** *** Step 1 *)

Definition keyed (m : gmap ConcreteFilter Entry) : Prop := map_Forall (λ k r, en_filter r = k) m.

Lemma bag_insert_keyed m e : keyed m → keyed (bag_insert m e).
Proof.
  intros Hm. unfold bag_insert. destruct (m !! en_filter e) as [r|] eqn:Hr.
  - apply map_Forall_insert_2; [|done]. by apply Hm in Hr.
  - by apply map_Forall_insert_2.
Qed.

Lemma bag_insert_partitioned ins m e :
  keyed m → partitioned ins (map_to_list m).*2 →
  partitioned (ins ++ [e]) (map_to_list (bag_insert m e)).*2.
Proof.
  intros Hm Hp%(partitioned_add _ _ e). unfold bag_insert.
  destruct (m !! en_filter e) as [r|] eqn:Hr.
  - pose proof (Hm _ _ Hr) as Hf. rewrite <-insert_delete_eq.
    rewrite map_to_list_insert by apply lookup_delete_eq. simpl.
    apply (partitioned_join _ r e); [by left|].
    rewrite <-(map_to_list_delete m (en_filter e) r Hr) in Hp. simpl in Hp.
    by rewrite perm_swap in Hp.
  - by rewrite map_to_list_insert.
Qed.

Lemma dedup_entries_partitioned entries : partitioned entries (dedup_entries entries).
Proof.
  unfold dedup_entries.
  rewrite ordered_map_perm.
  cut (∀ m ins, keyed m → partitioned ins (map_to_list m).*2 →
         partitioned (ins ++ entries) (map_to_list (foldl bag_insert m entries)).*2).
  { intros Hind. apply (Hind ∅ []); [apply map_Forall_empty|].
    rewrite map_to_list_empty. by exists []. }
  induction entries as [|e entries IH]; intros m ins Hm Hp; simpl.
  - by rewrite app_nil_r.
  - rewrite (cons_middle e ins entries), (assoc_L (++)).
    apply IH; [by apply bag_insert_keyed|by apply bag_insert_partitioned].
Qed.

(** *** Step 3 *)

(** The index names, for each filter, the position of the entry carrying it. *)
Definition indexed (idx : gmap ConcreteFilter nat) (out : list Entry) : Prop :=
  ∀ f i, idx !! f = Some i ↔ ∃ r, out !! i = Some r ∧ en_filter r = f.

Lemma absorb_at_filters (first : nat) e (out : list Entry) :
  en_filter <$> alter (λ r, absorb r e) first out = en_filter <$> out.
Proof.
  apply list_eq. intros i. rewrite !list_lookup_fmap, list_lookup_alter.
  case_decide; subst; by destruct (out !! _).
Qed.

Lemma indexed_filters idx out out' :
  en_filter <$> out = en_filter <$> out' → indexed idx out → indexed idx out'.
Proof.
  intros Hf Hidx f i. rewrite (Hidx f i).
  assert (∀ l : list Entry, (∃ r, l !! i = Some r ∧ en_filter r = f) ↔
            (en_filter <$> l) !! i = Some f) as Hl.
  { intros l. rewrite list_lookup_fmap_Some. naive_solver. }
  by rewrite !Hl, Hf.
Qed.

Lemma indexed_snoc idx out e :
  indexed idx out → idx !! en_filter e = None →
  indexed (<[en_filter e := length out]> idx) (out ++ [e]).
Proof.
  intros Hidx Hnone f i. rewrite lookup_insert_Some, (Hidx f i).
  split.
  - intros [[<- <-]|[Hne (r & Hr & <-)]].
    + exists e. by rewrite lookup_snoc_Some; auto.
    + exists r. split; [|done]. by apply lookup_app_l_Some.
  - intros (r & [[Hi Hr]|[-> ->]]%lookup_snoc_Some & <-); [right|by left].
    split; [|by exists r]. intros Heq. apply (eq_None_not_Some (idx !! en_filter e)); [done|].
    exists i. apply Hidx. by exists r.
Qed.

Lemma survivor_step_spec ins idx out e rest :
  indexed idx out → NoDup (en_filter <$> out) → partitioned ins (out ++ e :: rest) →
  ∃ idx' out', survivor_step (idx, out) e = (idx', out') ∧
    indexed idx' out' ∧ NoDup (en_filter <$> out') ∧ partitioned ins (out' ++ rest) ∧
    (en_filter <$> out' = en_filter <$> out ∨ en_filter <$> out' = (en_filter <$> out) ++ [en_filter e]).
Proof.
  intros Hidx Hnd Hp. simpl.
  destruct (idx !! en_filter e) as [first|] eqn:Hfirst; eexists _, _; (split; [done|]).
  - pose proof (absorb_at_filters first e out) as Hf.
    split_and!; [by eapply indexed_filters|by rewrite Hf| |by left].
    apply Hidx in Hfirst as (r & Hr & Hfr).
    apply list_elem_of_split_length in Hr as (l1 & l2 & -> & ->).
    rewrite <-(Nat.add_0_r (length l1)), alter_app_r. simpl.
    rewrite <-Permutation_middle. apply (partitioned_join _ r e); [by left|].
    rewrite <-(Permutation_middle (l1 ++ r :: l2)), <-(Permutation_middle l1) in Hp.
    by rewrite <-app_comm_cons, perm_swap in Hp.
  - rewrite !fmap_app, <-(assoc_L (++)). split_and!; [by apply indexed_snoc| |done|by right].
    apply NoDup_app. split_and!; [done| |apply NoDup_singleton].
    intros f Hf ->%list_elem_of_singleton.
    apply list_elem_of_fmap in Hf as (r & Hr & Hin).
    apply list_elem_of_lookup in Hin as [i Hi].
    apply (eq_None_not_Some (idx !! en_filter e)); [done|]. exists i. apply Hidx. eauto.
Qed.

Lemma dedup_survivors_spec ins entries :
  partitioned ins entries →
  partitioned ins (dedup_survivors entries) ∧
  NoDup (en_filter <$> dedup_survivors entries) ∧
  sublist (en_filter <$> dedup_survivors entries) (en_filter <$> entries).
Proof.
  unfold dedup_survivors.
  cut (∀ idx out, indexed idx out → NoDup (en_filter <$> out) → partitioned ins (out ++ entries) →
         let out' := (foldl survivor_step (idx, out) entries).2 in
         partitioned ins out' ∧ NoDup (en_filter <$> out') ∧
         sublist (en_filter <$> out') ((en_filter <$> out) ++ (en_filter <$> entries))).
  { intros Hind Hp. apply (Hind ∅ []); [|constructor|done].
    intros f i. rewrite lookup_empty. naive_solver. }
  induction entries as [|e entries IH]; intros idx out Hidx Hnd Hp; cbn [foldl].
  - rewrite app_nil_r in *. done.
  - destruct (survivor_step_spec ins idx out e entries) as (idx' & out' & -> & Hidx' & Hnd' & Hp' & Hf);
      [done..|].
    destruct (IH idx' out' Hidx' Hnd' Hp') as (? & ? & Hsub). split_and!; [done..|].
    etrans; [exact Hsub|]. rewrite fmap_cons. destruct Hf as [->| ->].
    + by apply sublist_app, sublist_cons.
    + by rewrite <-(assoc_L (++)).
Qed.
End partition.

(** ** What coalescing computes *)

Definition own_union (g : list Entry) : EntryOwnership := foldr own_extend own_default (en_own <$> g).

(** No rule accepts the pair of filters. *)
Definition unmergeable (rs : list MergeRule) (f g : ConcreteFilter) : Prop :=
  Forall (λ rule, try_merge rule f g = None) rs.

Lemma own_extend_assoc a b c : own_extend a (own_extend b c) = own_extend (own_extend a b) c.
Proof. unfold own_extend. simpl. by rewrite !(assoc_L (∪)). Qed.

Lemma own_union_app g1 g2 : own_union (g1 ++ g2) = own_extend (own_union g1) (own_union g2).
Proof.
  unfold own_union. rewrite fmap_app. induction g1 as [|e g1 IH]; csimpl.
  - destruct (foldr _ _ _). unfold own_extend. simpl. by rewrite !(left_id_L ∅ (∪)).
  - by rewrite IH, own_extend_assoc.
Qed.

Lemma merge_pair_Some rs a b m :
  merge_pair rs a b = Some m →
  ∃ rule, rule ∈ rs ∧ try_merge rule (en_filter a) (en_filter b) = Some (en_filter m) ∧
          en_prov m = en_prov a ++ en_prov b ∧ en_own m = own_extend (en_own a) (en_own b).
Proof.
  induction rs as [|rule rs IH]; simpl; [done|].
  destruct (try_merge rule _ _) eqn:Hr; intros Hm.
  - simplify_eq/=. exists rule. split_and!; [left|done..].
  - destruct (IH Hm) as (rule' & ? & ?). exists rule'. split; [by right|done].
Qed.

Lemma merge_pair_None rs a b :
  merge_pair rs a b = None ↔ unmergeable rs (en_filter a) (en_filter b).
Proof.
  unfold unmergeable. induction rs as [|rule rs IH]; simpl; [by split; [constructor|]|].
  rewrite Forall_cons. destruct (try_merge rule _ _); naive_solver.
Qed.

(** Provenance and ownership of a built entry are those of its group. *)
Lemma built_bookkeeping rs g o :
  built rs g o → g ≠ [] ∧ en_own o = own_union g ∧ en_prov o = concat (en_prov <$> g).
Proof.
  induction 1 as [e|g1 g2 a b _ (? & Ho1 & Hp1) _ (? & Ho2 & Hp2) _
                 |g1 g2 a b m _ (? & Ho1 & Hp1) _ (? & Ho2 & Hp2) (rule & _ & _ & Hp & Ho)%merge_pair_Some].
  - unfold own_union. csimpl. rewrite app_nil_r. split_and!; [done| |done].
    destruct e as [? ? []]. unfold own_extend. simpl. by rewrite !(right_id_L ∅ (∪)).
  - rewrite own_union_app, fmap_app, concat_app, <-Ho1, <-Ho2, <-Hp1, <-Hp2.
    split_and!; [|done..]. by destruct g1.
  - rewrite own_union_app, fmap_app, concat_app, <-Ho1, <-Ho2, <-Hp1, <-Hp2.
    split_and!; [|done..]. by destruct g1.
Qed.

(** Every member's bookkeeping is contained in the built entry's. *)
Lemma built_contains rs g o x :
  built rs g o → x ∈ g →
  en_prov x ⊆ en_prov o ∧ o_claims (en_own x) ⊆ o_claims (en_own o) ∧
  o_demands (en_own x) ⊆ o_demands (en_own o) ∧
  o_assignments (en_own x) ⊆ o_assignments (en_own o).
Proof.
  intros (_ & -> & ->)%built_bookkeeping (g1 & g2 & ->)%list_elem_of_split.
  rewrite own_union_app, fmap_app, concat_app. csimpl. unfold own_extend. simpl. split_and!; set_solver.
Qed.

Lemma partitioned_groups rs ins outs :
  partitioned rs ins outs →
  (∀ o, o ∈ outs → ∃ g, built rs g o ∧ g ⊆ ins) ∧
  (∀ x, x ∈ ins → ∃ g o, o ∈ outs ∧ built rs g o ∧ x ∈ g ∧ g ⊆ ins).
Proof.
  intros (groups & <- & Hins & Hbuilt). rewrite Forall_forall in Hbuilt.
  assert (∀ g o, (g, o) ∈ groups → o ∈ groups.*2 ∧ built rs g o ∧ g ⊆ ins) as Hg.
  { intros g o Hgo. split_and!; [by apply (list_elem_of_fmap_2 snd _ (g, o))|by apply (Hbuilt (g, o))|].
    intros x Hx. rewrite <-Hins, elem_of_concat. exists g. split; [done|].
    by apply (list_elem_of_fmap_2 fst _ (g, o)). }
  split.
  - intros o ([g o'] & -> & Hgo%Hg)%list_elem_of_fmap. exists g. naive_solver.
  - intros x. rewrite <-Hins, elem_of_concat. intros (g & Hx & ([g' o] & -> & Hgo)%list_elem_of_fmap).
    exists g', o. apply Hg in Hgo. naive_solver.
Qed.

Lemma settled_free_sorted rs current :
  settled_free rs current (length current) → StronglySorted (unmergeable rs) (en_filter <$> current).
Proof.
  induction current as [|e current IH]; intros Hfree; csimpl; [constructor|]. constructor.
  - apply IH. intros i j Hi Hij. apply (Hfree (S i) (S j)); simpl; lia.
  - apply Forall_fmap, Forall_lookup. intros j b Hb. apply merge_pair_None.
    by apply (Hfree 0 (S j)); simpl; [lia..| |].
Qed.

Lemma coalesce_with_spec rs n entries :
  ∃ n' out, coalesce_with rs n entries = Some (n', out) ∧ partitioned rs entries out ∧
    NoDup (en_filter <$> out) ∧ StronglySorted (unmergeable rs) (en_filter <$> out).
Proof.
  destruct (merge_fixed_point_spec rs n (dedup_entries entries))
    as (n' & current & Hrun & Hsteps & Hfree & _).
  unfold coalesce_with. rewrite Hrun. simpl. eexists _, _. split; [done|].
  destruct (dedup_survivors_spec rs entries current) as (Hp & Hnd & Hsub).
  { eapply restart_step_partitioned, dedup_entries_partitioned. done. }
  split_and!; [done..|]. by eapply StronglySorted_sublist, settled_free_sorted.
Qed.

(** Coalescing always finishes and partitions its entries into non-empty
    groups, one per output request: a request carries exactly the provenance
    and exactly the ownership of its group, so no demand is dropped and none is
    credited to a request it did not become part of. No two requests share a
    filter, and no rule could merge any two of them. *)
Theorem coalesce_partitions rs n entries :
  ∃ n' out (groups : list (list Entry * Entry)),
    coalesce_with rs n entries = Some (n', out) ∧
    groups.*2 = out ∧ concat groups.*1 ≡ₚ entries ∧
    (∀ g o, (g, o) ∈ groups →
       g ≠ [] ∧ en_own o = own_union g ∧ en_prov o = concat (en_prov <$> g)) ∧
    NoDup (en_filter <$> out) ∧ StronglySorted (unmergeable rs) (en_filter <$> out).
Proof.
  destruct (coalesce_with_spec rs n entries)
    as (n' & out & Hrun & (groups & Hout & Hins & Hbuilt) & Hnd & Hsorted).
  exists n', out, groups. split_and!; [done..| |done|done].
  intros g o Hgo. rewrite Forall_forall in Hbuilt. by eapply built_bookkeeping, (Hbuilt (g, o)).
Qed.

(** ** The widening contract *)

Section widening.
Context `{HexCodec}.

(** [matches(try_merge(a,b)) ⊇ matches(a) ∪ matches(b)]. *)
Class Widens (rule : MergeRule) : Prop :=
  widens a b m e :
    try_merge rule a b = Some m → concrete_matches a e ∨ concrete_matches b e → concrete_matches m e.

(** The same, with nothing matched beyond the two operands. *)
Class Exact (rule : MergeRule) : Prop :=
  exact a b m e :
    try_merge rule a b = Some m → concrete_matches m e ↔ concrete_matches a e ∨ concrete_matches b e.

#[export] Instance Exact_Widens rule : Exact rule → Widens rule.
Proof. intros Hrule a b m e Hm ?. by apply (Hrule _ _ _ _ Hm). Qed.

Lemma both_constrain_Some {A} `{Countable A} (a b : option (gset A)) X Y :
  both_constrain a b = Some (X, Y) ↔ a = Some X ∧ b = Some Y ∧ X ≠ ∅ ∧ Y ≠ ∅.
Proof. unfold both_constrain. destruct a, b; try case_decide; naive_solver. Qed.

Lemma both_constrain_swap {A} `{Countable A} (a b : option (gset A)) :
  both_constrain a b = prod_swap <$> both_constrain b a.
Proof. unfold both_constrain. destruct a, b; simpl; repeat case_decide; naive_solver. Qed.

Lemma admits_union {A} `{Countable A} (X Y : gset A) x :
  X ≠ ∅ → Y ≠ ∅ → admits (Some (X ∪ Y)) x ↔ admits (Some X) x ∨ admits (Some Y) x.
Proof. intros. simpl. set_solver. Qed.

Lemma str_admits_union {A} (parse : string → option A) (X Y : gset string) x :
  X ≠ ∅ → Y ≠ ∅ →
  str_admits parse (Some (X ∪ Y)) x ↔ str_admits parse (Some X) x ∨ str_admits parse (Some Y) x.
Proof. intros. simpl. split; set_solver. Qed.

Lemma tag_admits_union e c X Y : tag_admits e c (X ∪ Y) ↔ tag_admits e c X ∨ tag_admits e c Y.
Proof.
  unfold tag_admits. rewrite !Exists_exists. split.
  - intros ([|name [|v tag]] & Hin & Hv); try done. destruct Hv as [? [?|?]%elem_of_union].
    + left. by eexists.
    + right. by eexists.
  - intros [([|name [|v tag]] & Hin & Hv)|([|name [|v tag]] & Hin & Hv)]; try done;
      eexists; (split; [done|]); simpl; set_solver.
Qed.

(** Filters that differ in one component at most agree on the fields of all
    the others. *)
Lemma sole_difference_eq a b c c' :
  sole_difference a b = Some c → c' ≠ c → ¬ differs a b c'.
Proof. intros Hc Hne Hd. apply Hne. by apply (proj1 (sole_difference_only a b c) Hc). Qed.

Lemma tags_split a b name X Y :
  sole_difference a b = Some (Tag name) → f_tags a !! name = Some X → f_tags b !! name = Some Y →
  f_tags a = <[name := X]> (delete name (f_tags a)) ∧
  f_tags b = <[name := Y]> (delete name (f_tags a)).
Proof.
  intros Hc HX HY. split; [by rewrite insert_delete_id|].
  apply map_eq. intros n. destruct (decide (n = name)) as [->|Hne].
  - by rewrite lookup_insert_eq.
  - rewrite lookup_insert_ne, lookup_delete_ne by done.
    apply dec_stable. intros Hd. apply Hne. apply (inj Tag).
    apply (proj1 (sole_difference_only a b (Tag name)) Hc). simpl. congruence.
Qed.

(** The second operand, as an update of the first. *)
Lemma sole_difference_shape a b c :
  sole_difference a b = Some c →
  match c with
  | Kinds => b = set_kinds (f_kinds b) a
  | Authors => b = set_authors (f_authors b) a
  | Ids => b = set_ids (f_ids b) a
  | Tag _ => b = set_tags (f_tags b) a
  | Since | Until | Limit => True
  end.
Proof.
  intros Hc.
  assert (∀ c', c' ≠ c → ¬ differs a b c') as Hall by eauto using sole_difference_eq.
  assert ((∀ name, Tag name ≠ c) → f_tags a = f_tags b) as Htags.
  { intros Hn. apply map_eq. intros name. apply dec_stable, (Hall (Tag name)), Hn. }
  pose proof (Hall Since) as Hs. pose proof (Hall Until) as Hu. pose proof (Hall Kinds) as Hk.
  pose proof (Hall Authors) as Ha. pose proof (Hall Ids) as Hi. pose proof (Hall Limit) as Hl.
  simpl in *. clear Hall Hc. destruct a, b, c; simpl in *; try done;
    unfold set_kinds, set_authors, set_ids, set_tags; simpl;
    f_equal; symmetry; try (by apply Htags); apply dec_stable; auto.
Qed.

Lemma tags_match_union e a b name X Y :
  sole_difference a b = Some (Tag name) → f_tags a !! name = Some X → f_tags b !! name = Some Y →
  let ok := map_Forall (λ name values, tag_admits e (as_char name) values) in
  ok (<[name := X ∪ Y]> (f_tags a)) ↔ ok (f_tags a) ∨ ok (f_tags b).
Proof.
  intros Hc HX HY ok. destruct (tags_split a b name X Y Hc HX HY) as [Ha Hb].
  assert (∀ Z, ok (<[name := Z]> (delete name (f_tags a))) ↔
               tag_admits e (as_char name) Z ∧ ok (delete name (f_tags a))) as Hins.
  { intros Z. unfold ok. by rewrite map_Forall_insert by apply lookup_delete_eq. }
  pose proof (Hins X) as HokX. rewrite <-Ha in HokX.
  rewrite Hb, <-(insert_delete_eq (f_tags a)), !Hins, tag_admits_union, HokX. tauto.
Qed.

#[export] Instance structural_union_is_exact : Exact StructuralUnion.
Proof.
  intros a b m e. simpl. unfold structural_union_merge.
  destruct (neither_limited a b); simpl; [|done].
  destruct (sole_difference a b) as [c|] eqn:Hc; simpl; [|done].
  pose proof (sole_difference_shape _ _ _ Hc) as Hb. destruct c as [| | | | | |name]; try done.
  1-3: destruct (both_constrain _ _) as [[X Y]|] eqn:HXY; simpl; [|done];
       apply both_constrain_Some in HXY as (HX & HY & ? & ?); try case_match; intros; simplify_eq;
       rewrite Hb, HY; unfold concrete_matches, set_kinds, set_authors, set_ids;
       cbn [f_kinds f_authors f_ids f_tags f_since f_until];
       rewrite ?admits_union, ?str_admits_union by done; rewrite HX; tauto.
  destruct (f_tags a !! name) as [X|] eqn:HX; simpl; [|done].
  destruct (f_tags b !! name) as [Y|] eqn:HY; simpl; [|done].
  case_match; intros; simplify_eq.
  pose proof (tags_match_union e a b name X Y Hc HX HY) as Htags. simpl in Htags.
  rewrite Hb. unfold concrete_matches, set_tags.
  cbn [f_kinds f_authors f_ids f_tags f_since f_until]. rewrite Htags. tauto.
Qed.

Lemma built_widens rs g o e :
  Forall Widens rs → built rs g o →
  Exists (λ x, concrete_matches (en_filter x) e) g → concrete_matches (en_filter o) e.
Proof.
  intros Hrs. induction 1 as [x|g1 g2 a b _ IH1 _ IH2 Hf|g1 g2 a b m _ IH1 _ IH2 Hm].
  - by rewrite Exists_cons, Exists_nil; intros [|].
  - rewrite Exists_app. intros [?|?]; [by apply IH1|]. simpl. rewrite Hf. by apply IH2.
  - apply merge_pair_Some in Hm as (rule & Hrule & Hm & _). rewrite Exists_app.
    rewrite Forall_forall in Hrs. intros Hx. apply (Hrs _ Hrule _ _ _ e Hm). tauto.
Qed.

Lemma built_exact rs g o e :
  Forall Exact rs → built rs g o →
  concrete_matches (en_filter o) e ↔ Exists (λ x, concrete_matches (en_filter x) e) g.
Proof.
  intros Hrs. induction 1 as [x|g1 g2 a b _ IH1 _ IH2 Hf|g1 g2 a b m _ IH1 _ IH2 Hm].
  - rewrite Exists_cons, Exists_nil. tauto.
  - rewrite Exists_app, <-IH1, <-IH2, <-Hf. simpl. tauto.
  - apply merge_pair_Some in Hm as (rule & Hrule & Hm & _). rewrite Exists_app, <-IH1, <-IH2.
    rewrite Forall_forall in Hrs. apply (Hrs _ Hrule _ _ _ e Hm).
Qed.

(** What a merge leaves of the fields it does not union. *)
Lemma structural_union_fields a b m :
  structural_union_merge a b = Some m →
  (f_limit a = None ∧ f_limit b = None) ∧
  (f_ids m = f_ids a ∨ ∃ ids, f_ids m = Some ids ∧ size ids ≤ max_ids_per_filter) ∧
  (∀ name, f_tags m !! name = f_tags a !! name ∨
     ∃ values, f_tags m !! name = Some values ∧ size values ≤ max_tag_values_per_filter).
Proof.
  unfold structural_union_merge, neither_limited. intros Hm.
  destruct (decide (f_limit a = None)) as [Ha|];
    [|by rewrite (bool_decide_eq_false_2 (f_limit a = None)) in Hm].
  destruct (decide (f_limit b = None)) as [Hb|];
    [|by rewrite (bool_decide_eq_false_2 (f_limit b = None)), andb_false_r in Hm].
  split; [done|]. rewrite !bool_decide_eq_true_2 in Hm by done. simpl in Hm.
  destruct (sole_difference a b) as [[| | | | | |name]|]; simpl in Hm; try done.
  1-3: destruct (both_constrain _ _) as [[X Y]|]; simpl in Hm; [|done].
  - simplify_eq/=. auto.
  - simplify_eq/=. auto.
  - destruct (Nat.ltb_spec max_ids_per_filter (size (X ∪ Y))); simplify_eq/=. split; [right; eauto|by left].
  - destruct (f_tags a !! name) as [X|], (f_tags b !! name) as [Y|]; simplify_eq/=.
    destruct (Nat.ltb_spec max_tag_values_per_filter (size (X ∪ Y))); simplify_eq/=.
    split; [by left|]. intros n. destruct (decide (n = name)) as [->|].
    + right. rewrite lookup_insert_eq. eauto.
    + left. by rewrite lookup_insert_ne.
Qed.

Lemma structural_union_comm a b : structural_union_merge a b = structural_union_merge b a.
Proof.
  unfold structural_union_merge, neither_limited. rewrite andb_comm.
  destruct (_ && _); simpl; [|done].
  assert (sole_difference b a = sole_difference a b) as ->.
  { apply option_eq. intros c. rewrite !sole_difference_only. by setoid_rewrite (differs_sym b a). }
  destruct (sole_difference a b) as [c|] eqn:Hc; simpl; [|done].
  pose proof (sole_difference_shape _ _ _ Hc) as Hb. destruct c as [| | | | | |name]; try done.
  1-3: rewrite (both_constrain_swap (_ b)); destruct (both_constrain _ _) as [[X Y]|]; simpl; [|done];
       rewrite (comm_L (∪) Y X), Hb; reflexivity.
  - destruct (f_tags a !! name) as [X|] eqn:HX, (f_tags b !! name) as [Y|] eqn:HY; simpl; try done.
    rewrite (comm_L (∪) Y X). case_match; [done|].
    destruct (tags_split a b name X Y Hc HX HY) as [_ Hb'].
    assert (<[name := X ∪ Y]> (f_tags b) = <[name := X ∪ Y]> (f_tags a)) as ->.
    { by rewrite Hb', insert_insert_eq, insert_delete_eq. }
    rewrite Hb. reflexivity.
Qed.

(** A capped value list is either within the cap or one an input already had. *)
Lemma built_caps g o :
  built [StructuralUnion] g o →
  (∀ ids, f_ids (en_filter o) = Some ids →
     size ids ≤ max_ids_per_filter ∨ ∃ x, x ∈ g ∧ f_ids (en_filter x) = Some ids) ∧
  (∀ name values, f_tags (en_filter o) !! name = Some values →
     size values ≤ max_tag_values_per_filter ∨
     ∃ x, x ∈ g ∧ f_tags (en_filter x) !! name = Some values).
Proof.
  induction 1 as [x|g1 g2 a b _ [IH1 IH1'] _ _ _|g1 g2 a b m _ [IH1 IH1'] _ _ Hm].
  - split; intros; right; exists x; (split; [left|done]).
  - setoid_rewrite elem_of_app. split; naive_solver.
  - apply merge_pair_Some in Hm as (rule & ->%list_elem_of_singleton & Hm & _).
    apply structural_union_fields in Hm as (_ & Hids & Htags). setoid_rewrite elem_of_app. split.
    + intros ids Ho. destruct Hids as [Hids|(? & Hids & ?)]; [|left; congruence].
      rewrite Hids in Ho. naive_solver.
    + intros name values Ho. destruct (Htags name) as [Hn|(? & Hn & ?)]; [|left; congruence].
      rewrite Hn in Ho. naive_solver.
Qed.

(** A filter carrying a limit is only ever folded with its own duplicates. *)
Lemma built_limited g o x :
  built [StructuralUnion] g o → x ∈ g → f_limit (en_filter x) ≠ None → en_filter o = en_filter x.
Proof.
  induction 1 as [y|g1 g2 a b H1 IH1 H2 IH2 Hf|g1 g2 a b m H1 IH1 H2 IH2 Hm]; intros Hx Hl.
  - by apply list_elem_of_singleton in Hx as ->.
  - apply elem_of_app in Hx as [Hx|Hx]; simpl; [by apply IH1|]. rewrite Hf. by apply IH2.
  - apply merge_pair_Some in Hm as (rule & ->%list_elem_of_singleton & Hm & _).
    apply structural_union_fields in Hm as ([Ha Hb] & _).
    apply elem_of_app in Hx as [Hx|Hx]; exfalso; apply Hl.
    + by rewrite <-(IH1 Hx Hl).
    + by rewrite <-(IH2 Hx Hl).
Qed.

(** The default merge rule is exact. A merged filter matches an event
    exactly when one of its operands does, whatever the order of the operands;
    it never touches a filter that carries a limit, and a value list it makes
    respects the caps. *)
Theorem structural_union_exact a b m :
  structural_union_merge a b = Some m →
  structural_union_merge b a = Some m ∧
  (∀ e, concrete_matches m e ↔ concrete_matches a e ∨ concrete_matches b e) ∧
  (f_limit a = None ∧ f_limit b = None) ∧
  (f_ids m = f_ids a ∨ ∃ ids, f_ids m = Some ids ∧ size ids ≤ max_ids_per_filter) ∧
  (∀ name, f_tags m !! name = f_tags a !! name ∨
     ∃ values, f_tags m !! name = Some values ∧ size values ≤ max_tag_values_per_filter).
Proof.
  intros Hm. split; [by rewrite structural_union_comm|].
  split; [|by eapply structural_union_fields].
  intros e. by apply (structural_union_is_exact a b m e).
Qed.

(** C31: under the default registry a request matches an event exactly when one
    of the entries it was made from does, a bounded entry keeps its filter
    unchanged, and no value list exceeds its cap unless an entry already did. *)
Theorem coalesce_default_exact n entries :
  ∃ n' out (groups : list (list Entry * Entry)),
    coalesce_with [StructuralUnion] n entries = Some (n', out) ∧
    groups.*2 = out ∧ concat groups.*1 ≡ₚ entries ∧
    ∀ g o, (g, o) ∈ groups →
      (∀ e, concrete_matches (en_filter o) e ↔ Exists (λ x, concrete_matches (en_filter x) e) g) ∧
      (∀ x, x ∈ g → f_limit (en_filter x) ≠ None → en_filter o = en_filter x) ∧
      (∀ ids, f_ids (en_filter o) = Some ids →
         size ids ≤ max_ids_per_filter ∨ ∃ x, x ∈ g ∧ f_ids (en_filter x) = Some ids) ∧
      (∀ name values, f_tags (en_filter o) !! name = Some values →
         size values ≤ max_tag_values_per_filter ∨
         ∃ x, x ∈ g ∧ f_tags (en_filter x) !! name = Some values).
Proof.
  destruct (coalesce_with_spec [StructuralUnion] n entries)
    as (n' & out & Hrun & (groups & Hout & Hins & Hbuilt) & _).
  exists n', out, groups. split_and!; [done..|]. rewrite Forall_forall in Hbuilt.
  intros g o Hgo%Hbuilt. split_and!.
  - intros e. eapply built_exact; [|done]. apply Forall_singleton, _.
  - intros x. by apply built_limited.
  - by apply built_caps.
  - by apply built_caps.
Qed.

(** Whatever widening rules a registry holds, coalescing under-delivers
    nothing: each entry is served by a request that matches all its events and
    carries its provenance, claims, owners and assignments. *)
Theorem coalesce_widens rs n entries :
  Forall Widens rs →
  ∃ n' out, coalesce_with rs n entries = Some (n', out) ∧
    ∀ x, x ∈ entries → ∃ o, o ∈ out ∧
      (∀ e, concrete_matches (en_filter x) e → concrete_matches (en_filter o) e) ∧
      en_prov x ⊆ en_prov o ∧ o_claims (en_own x) ⊆ o_claims (en_own o) ∧
      o_demands (en_own x) ⊆ o_demands (en_own o) ∧
      o_assignments (en_own x) ⊆ o_assignments (en_own o).
Proof.
  intros Hrs. destruct (coalesce_with_spec rs n entries)
    as (n' & out & Hrun & Hpart & _).
  exists n', out. split; [done|]. intros x Hx.
  destruct (proj2 (partitioned_groups rs entries out Hpart) x Hx) as (g & o & Ho & Hb & Hg & _).
  exists o. split; [done|]. split.
  - intros e He. eapply built_widens; [done..|]. apply Exists_exists. eauto.
  - by eapply built_contains.
Qed.
End widening.

(** ** Witnesses *)

Module CoalesceSample.
Import Sample.

Definition by_kind (k : N) : ConcreteFilter := set_kinds (Some {[ k ]}) filter_default.
Definition by_author (k : N) (a : N) : ConcreteFilter := set_authors (Some {[ to_hex a ]}) (by_kind k).
Definition demand (f : ConcreteFilter) : DemandKey := demand_for_atom (mkAtom f Auto None ∅).
Definition entry (f : ConcreteFilter) : Entry := mkEntry f [] (mkOwn ∅ {[ demand f ]} ∅).
Definition note (kind author : N) : Event := mkEvent 1 author 0 kind [] EmptyString 0.

(** Two single-author requests of one kind become one, which then absorbs the
    request of another kind for the same two authors. *)
Definition entries : list Entry :=
  [entry (by_author 1 7); entry (by_author 1 8);
   entry (set_authors (Some {[ to_hex 7; to_hex 8 ]}) (by_kind 2))].
Definition merged : ConcreteFilter :=
  set_authors (Some {[ to_hex 7; to_hex 8 ]}) (set_kinds (Some {[ 1%N; 2%N ]}) filter_default).

Lemma entries_coalesce :
  (λ r : N * list Entry, (r.1, en_filter <$> r.2)) <$> coalesce_with [StructuralUnion] 0 entries
  = Some (2%N, [merged]).
Proof. decide_now. Qed.
End CoalesceSample.

(** The deliberately unsound rule breaks the widening contract, and
    registering a rule that is not verified leaves the registry's merge
    decisions unchanged while reporting the rule as dropped. *)
Theorem unverified_rules_are_dropped (reg : RuleRegistry) rule :
  ¬ @Widens Sample.sample_hex DiscardSecondOperand ∧
  rules (register rule false reg) = rules reg ∧
  rule_name rule ∈ dropped_rules (register rule false reg) ∧
  (∀ entries n, coalesce_with (rules (register rule false reg)) n entries
                = coalesce_with (rules reg) n entries).
Proof.
  split_and!; [|done| |done].
  - intros Hw.
    assert (@concrete_matches Sample.sample_hex (CoalesceSample.by_author 1 7)
              (CoalesceSample.note 1 8)) as (_ & Hm & _).
    { eapply (Hw (CoalesceSample.by_author 1 7) (CoalesceSample.by_author 1 8)); [decide_now|].
      right. split_and!; simpl; [set_solver| |done..|apply map_Forall_empty].
      right. exists (Sample.to_hex 8). split; [set_solver|]. apply (Sample.from_to_hex 8). }
    destruct Hm as [Hm|(x & ->%elem_of_singleton & Hx)]; [set_solver|].
    by pose proof (eq_trans (eq_sym (Sample.from_to_hex 7)) Hx).
  - apply elem_of_app. right. by left.
Qed.

Lemma structural_union_exact_witness :
  @concrete_matches Sample.sample_hex
    (set_authors (Some {[ Sample.to_hex 7; Sample.to_hex 8 ]}) (CoalesceSample.by_kind 1))
    (CoalesceSample.note 1 8).
Proof.
  apply (proj1 (proj2 (@structural_union_exact Sample.sample_hex
    (CoalesceSample.by_author 1 7) (CoalesceSample.by_author 1 8)
    (set_authors (Some {[ Sample.to_hex 7; Sample.to_hex 8 ]}) (CoalesceSample.by_kind 1))
    ltac:(decide_now)))).
  right. split_and!; simpl; [set_solver| |done..|apply map_Forall_empty].
  right. exists (Sample.to_hex 8). split; [set_solver|]. apply (Sample.from_to_hex 8).
Defined.

Lemma coalesce_widens_witness :
  ∃ n' out, coalesce_with [StructuralUnion] 0 CoalesceSample.entries = Some (n', out) ∧
    ∃ o, o ∈ out ∧ CoalesceSample.demand (CoalesceSample.by_author 1 7) ∈ o_demands (en_own o).
Proof.
  destruct (@coalesce_widens Sample.sample_hex [StructuralUnion] 0 CoalesceSample.entries
              ltac:(apply Forall_singleton, _)) as (n' & out & Hrun & Hserved).
  exists n', out. split; [exact Hrun|].
  destruct (Hserved (CoalesceSample.entry (CoalesceSample.by_author 1 7)))
    as (o & Ho & _ & _ & _ & Hd & _); [left|].
  exists o. split; [exact Ho|]. apply Hd. simpl. by apply elem_of_singleton.
Defined.
