(* ===== verification/Solver.v ===== *)
(** * The coverage solver

    [crates/nmp-router/src/solver.rs]: the capped, greedy, deterministic
    [k]-cover of an author set by candidate relays.  The [loop] is a recursion
    on fuel: every round selects a relay that was not selected, so one more
    round than there are candidate relays is enough ([solve_correct]).  An index
    or [unwrap] on a map is a lookup whose [None] is the panic.  [usize::MAX],
    the cap the router passes, is kept as a number: [in_cap] is an [N]. *)

From S2P Require Import Prelude Grammar RouterTypes.

Record CoverageInput := mkInput {
  in_candidates : gmap PublicKey (list LanedRelay);
  in_k : nat;
  in_cap : N
}.

Inductive ShortfallReason := NoCandidates | FewerCandidatesThanK | CapExhausted.

#[global] Instance ShortfallReason_eq_dec : EqDecision ShortfallReason.
Proof. solve_decision. Defined.

Record Shortfall := mkShortfall {
  sf_requested_k : nat;
  sf_achieved : nat;
  sf_reason : ShortfallReason
}.

#[global] Instance Shortfall_eq_dec : EqDecision Shortfall.
Proof. solve_decision. Defined.

Record CoverageResult := mkCoverage {
  selected : gset RelayUrl;
  assignment : gmap PublicKey (gset RelayUrl);
  shortfall : gmap PublicKey Shortfall
}.

(** The distinct relays of a candidate list. *)
Definition distinct (l : list LanedRelay) : gset RelayUrl := list_to_set (lr_url <$> l).

(** [Iterator::max_by]: the accumulated element is kept only when it compares
    greater. *)
Definition max_by {A} (compare : A → A → comparison) (l : list A) : option A :=
  match l with
  | [] => None
  | x :: l => Some (foldl (λ x y, match compare x y with Gt => x | _ => y end) x l)
  end.

(** Highest score first, then the smaller url. *)
Definition score_compare (a b : RelayUrl * nat) : comparison :=
  then_with (Nat.compare a.2 b.2) (cmp b.1 a.1).

(** The mutable variables of [solve]'s loop. *)
Record SolveState := mkState {
  ss_selected : gset RelayUrl;
  ss_assignment : gmap PublicKey (gset RelayUrl);
  ss_need : gmap PublicKey nat
}.

Section solve.
Context (input : CoverageInput).

Definition ceiling (l : list LanedRelay) : nat := size (distinct l) `min` in_k input.

Definition initial_state : SolveState :=
  mkState ∅ ((λ _, ∅) <$> in_candidates input) (ceiling <$> in_candidates input).

(** [need.get(author).cloned().unwrap_or(0)]. *)
Definition need_of (st : SolveState) (author : PublicKey) : nat := default 0 (ss_need st !! author).

(** The inner loop over one author's candidates, with its [seen] set. *)
Definition score_step (covered : gset RelayUrl) (st : SolveState)
    (acc : gset RelayUrl * gmap RelayUrl nat) (lr : LanedRelay)
    : gset RelayUrl * gmap RelayUrl nat :=
  let '(seen, scores) := acc in
  if decide (lr_url lr ∈ covered ∨ lr_url lr ∈ ss_selected st) then (seen, scores)
  else if decide (lr_url lr ∈ seen) then (seen, scores)
  else ({[ lr_url lr ]} ∪ seen, <[lr_url lr := default 0 (scores !! lr_url lr) + 1]> scores).

Definition score_list (covered : gset RelayUrl) (st : SolveState)
    (scores : gmap RelayUrl nat) (l : list LanedRelay) : gmap RelayUrl nat :=
  (foldl (score_step covered st) (∅, scores) l).2.

Fixpoint score_all (st : SolveState) (scores : gmap RelayUrl nat)
    (candidates : list (PublicKey * list LanedRelay)) : option (gmap RelayUrl nat) :=
  match candidates with
  | [] => Some scores
  | (author, l) :: candidates =>
      if decide (need_of st author = 0) then score_all st scores candidates
      else
        covered ← ss_assignment st !! author;
        score_all st (score_list covered st scores l) candidates
  end.

Fixpoint assign_all (best : RelayUrl) (st : SolveState)
    (candidates : list (PublicKey * list LanedRelay)) : option SolveState :=
  match candidates with
  | [] => Some st
  | (author, l) :: candidates =>
      if decide (need_of st author = 0) then assign_all best st candidates
      else if decide (best ∈ lr_url <$> l) then
        assigned ← ss_assignment st !! author;
        n ← ss_need st !! author;
        assign_all best
          (mkState (ss_selected st) (<[author := {[ best ]} ∪ assigned]> (ss_assignment st))
             (<[author := n - 1]> (ss_need st)))
          candidates
      else assign_all best st candidates
  end.

(** One turn of the loop: [None] is a panic, [Some None] a [break]. *)
Definition solve_round (st : SolveState) : option (option SolveState) :=
  if (in_cap input <=? N.of_nat (size (ss_selected st)))%N then Some None
  else if forallb (λ p, bool_decide (p.2 = 0)) (ordered_map (ss_need st)) then Some None
  else
    scores ← score_all st ∅ (ordered_map (in_candidates input));
    match max_by score_compare (ordered_map scores) with
    | None => Some None
    | Some (best_relay, _) =>
        st' ← assign_all best_relay
                (mkState ({[ best_relay ]} ∪ ss_selected st) (ss_assignment st) (ss_need st))
                (ordered_map (in_candidates input));
        Some (Some st')
    end.

Fixpoint solve_loop (fuel : nat) (st : SolveState) : option SolveState :=
  match fuel with
  | 0 => None
  | S fuel =>
      next ← solve_round st;
      match next with
      | None => Some st
      | Some st' => solve_loop fuel st'
      end
  end.

(** Every relay some author lists. *)
Definition all_urls : gset RelayUrl := ⋃ ((distinct ∘ snd) <$> ordered_map (in_candidates input)).

Definition shortfall_reason (l : list LanedRelay) : ShortfallReason :=
  if decide (distinct l = ∅) then NoCandidates
  else if size (distinct l) <? in_k input then FewerCandidatesThanK
  else CapExhausted.

(** The reporting loop; [input.candidates[author]] may panic. *)
Fixpoint shortfalls (assignments : list (PublicKey * gset RelayUrl))
    (acc : gmap PublicKey Shortfall) : option (gmap PublicKey Shortfall) :=
  match assignments with
  | [] => Some acc
  | (author, assigned) :: rest =>
      if in_k input <=? size assigned then shortfalls rest acc
      else
        l ← in_candidates input !! author;
        shortfalls rest
          (<[author := mkShortfall (in_k input) (size assigned) (shortfall_reason l)]> acc)
  end.

Definition solve : option CoverageResult :=
  st ← solve_loop (S (size all_urls)) initial_state;
  short ← shortfalls (ordered_map (ss_assignment st)) ∅;
  Some (mkCoverage (ss_selected st) (ss_assignment st) short).
End solve.

(** ** Selection of the best relay *)

Section max_by.
Context {A} (compare : A → A → comparison).
Hypothesis compare_trans :
  ∀ x y z, compare x y ≠ Gt → compare y z ≠ Gt → compare x z ≠ Gt.
Hypothesis compare_total : ∀ x y, compare x y = Gt → compare y x ≠ Gt.

Lemma max_by_spec l x : max_by compare l = Some x → x ∈ l ∧ ∀ y, y ∈ l → compare y x ≠ Gt.
Proof.
  destruct l as [|z l]; simpl; [done|]. intros [= <-].
  induction l as [|y l IH] using rev_ind.
  - simpl. split; [left|]. intros y ->%list_elem_of_singleton Hgt. by apply (compare_total z z).
  - rewrite foldl_snoc. set (best := foldl _ _ _) in *. destruct IH as [Hin Hbest].
    setoid_rewrite elem_of_cons. setoid_rewrite elem_of_app. setoid_rewrite list_elem_of_singleton.
    setoid_rewrite elem_of_cons in Hbest. apply elem_of_cons in Hin.
    destruct (compare best y) eqn:Hby.
    1-2: split; [by auto|]; intros w [->|[Hw| ->]];
      [eapply (compare_trans _ best); [auto|congruence]..|];
      intros Hgt; by apply (compare_total y y).
    split; [tauto|]. intros w [->|[Hw| ->]]; auto.
Qed.
End max_by.

Lemma score_compare_le a b :
  score_compare a b ≠ Gt ↔ a.2 < b.2 ∨ a.2 = b.2 ∧ cmp_le b.1 a.1.
Proof.
  unfold score_compare, then_with, cmp_le. destruct (Nat.compare_spec a.2 b.2); naive_solver lia.
Qed.

Lemma best_score l x :
  max_by score_compare l = Some x →
  x ∈ l ∧ ∀ y, y ∈ l → y.2 < x.2 ∨ y.2 = x.2 ∧ cmp_le x.1 y.1.
Proof.
  intros Hx. destruct (max_by_spec score_compare) with (l := l) (x := x) as [Hin Hbest]; [..|done|].
  - intros a b c. rewrite !score_compare_le. intros [?|[? Hab]] [?|[? Hbc]]; [left; lia..|right].
    split; [lia|]. by etrans.
  - intros a b Hgt. apply score_compare_le.
    assert (¬ score_compare a b ≠ Gt) as Hn by auto. rewrite score_compare_le in Hn.
    destruct (total cmp_le a.1 b.1); destruct (decide (b.2 < a.2)); [left; lia| |left; lia|];
      right; (split; [lia|]); [done|]. exfalso. apply Hn. right. split; [lia|done].
  - split; [done|]. intros y Hy. by apply score_compare_le, Hbest.
Qed.

(** ** What the two inner loops compute *)

Lemma elem_of_distinct l u : u ∈ distinct l ↔ u ∈ lr_url <$> l.
Proof. unfold distinct. by rewrite elem_of_list_to_set. Qed.

Lemma score_list_lookup covered st scores l u :
  covered ⊆ ss_selected st →
  score_list covered st scores l !! u =
    if decide (u ∈ distinct l ∧ u ∉ ss_selected st) then Some (default 0 (scores !! u) + 1)
    else scores !! u.
Proof.
  intros Hcov. unfold score_list.
  cut (let r := foldl (score_step covered st) (∅, scores) l in
       (∀ v, v ∈ r.1 ↔ v ∈ distinct l ∧ v ∉ ss_selected st) ∧
       r.2 !! u = if decide (u ∈ distinct l ∧ u ∉ ss_selected st)
                  then Some (default 0 (scores !! u) + 1) else scores !! u); [by intros [_ ?]|].
  induction l as [|lr l [IHs IH]] using rev_ind; simpl.
  { split; [set_solver|]. by rewrite decide_False by set_solver. }
  assert (∀ v, v ∈ distinct (l ++ [lr]) ↔ v ∈ distinct l ∨ v = lr_url lr) as Hd.
  { intros v. rewrite !elem_of_distinct, fmap_app, elem_of_app. set_solver. }
  rewrite foldl_snoc. destruct (foldl _ _ l) as [seen sc]. simpl in *. unfold score_step.
  destruct (decide (lr_url lr ∈ covered ∨ lr_url lr ∈ ss_selected st)) as [Hskip|Hskip].
  { split; [set_solver|]. simpl. rewrite IH. apply decide_ext. set_solver. }
  destruct (decide (lr_url lr ∈ seen)) as [Hseen|Hseen]; simpl.
  { split; [set_solver|]. rewrite IH. apply decide_ext. set_solver. }
  split; [set_solver|]. destruct (decide (u = lr_url lr)) as [->|Hne].
  - rewrite lookup_insert_eq, decide_True by set_solver.
    by rewrite IH, decide_False by (by rewrite <-IHs).
  - rewrite lookup_insert_ne by done. rewrite IH. apply decide_ext. set_solver.
Qed.

(** The number of open slots a relay would fill. *)
Definition fills (st : SolveState) (cs : list (PublicKey * list LanedRelay)) (u : RelayUrl) : nat :=
  length (filter (λ p, need_of st p.1 ≠ 0 ∧ u ∈ distinct p.2) cs).

Lemma fills_cons st a l cs u :
  fills st ((a, l) :: cs) u =
    (if decide (need_of st a ≠ 0 ∧ u ∈ distinct l) then 1 else 0) + fills st cs u.
Proof. unfold fills. rewrite filter_cons. simpl. by case_decide. Qed.

Lemma score_all_spec st scores cs :
  (∀ a l, (a, l) ∈ cs → need_of st a ≠ 0 → ∃ g, ss_assignment st !! a = Some g ∧ g ⊆ ss_selected st) →
  ∃ scores', score_all st scores cs = Some scores' ∧
    ∀ u, scores' !! u =
      if decide (u ∈ ss_selected st ∨ fills st cs u = 0) then scores !! u
      else Some (default 0 (scores !! u) + fills st cs u).
Proof.
  revert scores. induction cs as [|[a l] cs IH]; intros scores Hok; simpl.
  { exists scores. split; [done|]. intros u. by rewrite decide_True by auto. }
  destruct (decide (need_of st a = 0)) as [Hn|Hn].
  - destruct (IH scores) as (scores' & Hrun & Hs); [set_solver|].
    exists scores'. split; [done|]. intros u. rewrite Hs, fills_cons.
    by rewrite (decide_False (P := need_of st a ≠ 0 ∧ _)) by naive_solver.
  - destruct (Hok a l) as (g & Hg & Hsub); [left|done|]. rewrite Hg. simpl.
    destruct (IH (score_list g st scores l)) as (scores' & -> & Hs); [set_solver|].
    exists scores'. split; [done|]. intros u. rewrite Hs, score_list_lookup, fills_cons by done.
    destruct (decide (u ∈ ss_selected st)) as [Hu|Hu].
    { rewrite !(decide_True (P := u ∈ ss_selected st ∨ _)) by auto.
      by rewrite decide_False by naive_solver. }
    destruct (decide (u ∈ distinct l)) as [Hl|Hl].
    + rewrite (decide_True (P := _ ∧ u ∈ distinct l)) by done.
      rewrite (decide_True (P := _ ∧ u ∉ _)) by done.
      rewrite (decide_False (P := _ ∨ 1 + _ = 0)) by naive_solver lia.
      case_decide as Hc; simpl; f_equal; [|lia]. destruct Hc as [|Hc]; [done|]. rewrite Hc. lia.
    + rewrite (decide_False (P := _ ∧ u ∈ distinct l)) by naive_solver.
      by rewrite (decide_False (P := _ ∧ u ∉ _)) by naive_solver.
Qed.

(** What one author's entries become when [best] is selected. *)
Definition after_best (best : RelayUrl) (l : list LanedRelay) (g : gset RelayUrl) (n : nat)
    : gset RelayUrl * nat :=
  if decide (n ≠ 0 ∧ best ∈ distinct l) then ({[ best ]} ∪ g, n - 1) else (g, n).

Lemma assign_all_spec best st cs :
  NoDup cs.*1 →
  (∀ a l, (a, l) ∈ cs → is_Some (ss_assignment st !! a) ∧ is_Some (ss_need st !! a)) →
  ∃ st', assign_all best st cs = Some st' ∧ ss_selected st' = ss_selected st ∧
    (∀ a, a ∉ cs.*1 →
       ss_assignment st' !! a = ss_assignment st !! a ∧ ss_need st' !! a = ss_need st !! a) ∧
    (∀ a l g n, (a, l) ∈ cs → ss_assignment st !! a = Some g → ss_need st !! a = Some n →
       ss_assignment st' !! a = Some (after_best best l g n).1 ∧
       ss_need st' !! a = Some (after_best best l g n).2).
Proof.
  revert st. induction cs as [|[a l] cs IH]; intros st Hnd Hok; csimpl.
  { exists st. split_and!; [done..|]. by intros ???? []%not_elem_of_nil. }
  apply NoDup_cons in Hnd as [Ha Hnd].
  destruct (Hok a l) as [[g Hg] [n Hn]]; [left|].
  assert (∀ st1, ss_selected st1 = ss_selected st →
    ss_assignment st1 = <[a := (after_best best l g n).1]> (ss_assignment st) →
    ss_need st1 = <[a := (after_best best l g n).2]> (ss_need st) →
    ∃ st', assign_all best st1 cs = Some st' ∧ ss_selected st' = ss_selected st ∧
      (∀ b, b ∉ a :: cs.*1 →
         ss_assignment st' !! b = ss_assignment st !! b ∧ ss_need st' !! b = ss_need st !! b) ∧
      (∀ b k h m, (b, k) ∈ (a, l) :: cs → ss_assignment st !! b = Some h → ss_need st !! b = Some m →
         ss_assignment st' !! b = Some (after_best best k h m).1 ∧
         ss_need st' !! b = Some (after_best best k h m).2)) as Hgo.
  { intros st1 Hsel Hasg Hneed.
    destruct (IH st1) as (st' & Hrun & Hsel' & Hout & Hin); [done| |].
    { intros b k Hb. rewrite Hasg, Hneed. rewrite !lookup_insert_is_Some'.
      split; right; by eapply Hok; right. }
    exists st'. split_and!; [done|by rewrite Hsel'|..].
    - intros b [Hne Hb]%not_elem_of_cons. destruct (Hout b Hb) as [-> ->].
      by rewrite Hasg, Hneed, !lookup_insert_ne.
    - intros b k h m [[= -> ->]|Hb]%elem_of_cons Hh Hm.
      + destruct (Hout a Ha) as [-> ->]. simplify_eq. by rewrite Hasg, Hneed, !lookup_insert_eq.
      + assert (b ≠ a) by (intros ->; apply Ha, list_elem_of_fmap; by exists (a, k)).
        apply Hin; [done|by rewrite Hasg, lookup_insert_ne|by rewrite Hneed, lookup_insert_ne]. }
  unfold need_of. rewrite Hn. simpl. unfold after_best in Hgo.
  destruct (decide (n = 0)) as [->|Hn0].
  { rewrite (decide_False (P := 0 ≠ 0 ∧ _)) in Hgo by naive_solver.
    by apply Hgo; rewrite ?insert_id. }
  destruct (decide (best ∈ lr_url <$> l)) as [Hl|Hl].
  - rewrite Hg. simpl. rewrite (decide_True (P := n ≠ 0 ∧ _)) in Hgo by (by rewrite elem_of_distinct).
    by apply Hgo.
  - rewrite (decide_False (P := n ≠ 0 ∧ _)) in Hgo by (rewrite elem_of_distinct; naive_solver).
    by apply Hgo; rewrite ?insert_id.
Qed.

(** ** The loop invariant *)

Section solved.
Context (input : CoverageInput).

(** One author's part of the state. *)
Record author_inv (sel : gset RelayUrl) (l : list LanedRelay) (g : gset RelayUrl) (n : nat) : Prop := {
  ai_listed : g ⊆ distinct l;
  ai_selected : g ⊆ sel;
  ai_sum : n + size g = ceiling input l;
  ai_needy : n ≠ 0 → distinct l ∩ sel ⊆ g
}.

Record solve_inv (st : SolveState) : Prop := {
  si_dom_assignment : dom (ss_assignment st) = dom (in_candidates input);
  si_dom_need : dom (ss_need st) = dom (in_candidates input);
  si_author a l g n :
    in_candidates input !! a = Some l → ss_assignment st !! a = Some g → ss_need st !! a = Some n →
    author_inv (ss_selected st) l g n;
  si_used u : u ∈ ss_selected st → ∃ a g, ss_assignment st !! a = Some g ∧ u ∈ g;
  si_cap : (N.of_nat (size (ss_selected st)) ≤ in_cap input)%N
}.

Lemma si_lookup st a l :
  solve_inv st → in_candidates input !! a = Some l →
  ∃ g n, ss_assignment st !! a = Some g ∧ ss_need st !! a = Some n ∧
         author_inv (ss_selected st) l g n.
Proof.
  intros Hst Ha. assert (a ∈ dom (in_candidates input)) as Hdom by (by apply elem_of_dom_2 in Ha).
  pose proof Hdom as Hdom'. rewrite <-(si_dom_assignment _ Hst) in Hdom.
  rewrite <-(si_dom_need _ Hst) in Hdom'. apply elem_of_dom in Hdom as [g Hg].
  apply elem_of_dom in Hdom' as [n Hn]. exists g, n. split_and!; [done..|]. by eapply si_author.
Qed.

Lemma solve_inv_initial : solve_inv (initial_state input).
Proof.
  split; simpl; [by rewrite dom_fmap_L..| |set_solver|].
  - intros a l g n Ha. rewrite !lookup_fmap, Ha. intros [= <-] [= <-].
    split; [set_solver..| |set_solver]. by rewrite size_empty.
  - apply N.le_0_l.
Qed.

Lemma author_inv_step sel l g n best :
  author_inv sel l g n → best ∉ sel →
  author_inv ({[ best ]} ∪ sel) l (after_best best l g n).1 (after_best best l g n).2.
Proof.
  intros [Hl Hs Hsum Hneed] Hb. unfold after_best.
  destruct (decide (n ≠ 0 ∧ best ∈ distinct l)) as [[Hn Hbl]|Hno]; simpl.
  - specialize (Hneed Hn). split; [set_solver..| |set_solver].
    rewrite size_union, size_singleton by set_solver. lia.
  - split; [done|set_solver|done|]. intros Hn. specialize (Hneed Hn).
    assert (best ∉ distinct l) by naive_solver. set_solver.
Qed.

(** An author with an open slot lists a relay that is not selected yet. *)
Lemma author_inv_open sel l g n :
  author_inv sel l g n → n ≠ 0 → ∃ u, u ∈ distinct l ∧ u ∉ sel.
Proof.
  intros [Hl Hs Hsum Hneed] Hn.
  destruct (decide (distinct l ∖ sel = ∅)) as [Hempty|(u & Hu)%set_choose_L]; [|set_solver].
  assert (distinct l ⊆ g) as Hsub.
  { intros u Hu. apply Hneed; [done|]. apply elem_of_intersection. split; [done|].
    destruct (decide (u ∈ sel)); [done|set_solver]. }
  apply subseteq_size in Hsub. unfold ceiling in Hsum. lia.
Qed.

Lemma elem_of_fills st cs u :
  fills st cs u ≠ 0 ↔ ∃ a l, (a, l) ∈ cs ∧ need_of st a ≠ 0 ∧ u ∈ distinct l.
Proof.
  induction cs as [|[a l] cs IH].
  - split; [done|]. by intros (? & ? & ?%not_elem_of_nil & _).
  - rewrite fills_cons. setoid_rewrite elem_of_cons. case_decide; [|naive_solver].
    split; [|lia]. intros _. exists a, l. naive_solver.
Qed.

(** Why the loop may stop. *)
Definition finished (st : SolveState) : Prop :=
  (in_cap input ≤ N.of_nat (size (ss_selected st)))%N ∨ ∀ a n, ss_need st !! a = Some n → n = 0.

(** A greedy choice: it is new, it fills an open slot, and no unselected relay
    fills more, the smaller url winning a tie. *)
Definition greedy_choice (st : SolveState) (best : RelayUrl) : Prop :=
  let cs := ordered_map (in_candidates input) in
  (best ∉ ss_selected st) ∧ fills st cs best ≠ 0 ∧
  ∀ u, u ∉ ss_selected st →
    fills st cs u < fills st cs best ∨ fills st cs u = fills st cs best ∧ cmp_le best u ∨
    fills st cs u = 0.

Lemma scores_spec st :
  solve_inv st →
  ∃ scores, score_all st ∅ (ordered_map (in_candidates input)) = Some scores ∧
    ∀ u n, scores !! u = Some n ↔
      (u ∉ ss_selected st) ∧ n = fills st (ordered_map (in_candidates input)) u ∧ n ≠ 0.
Proof.
  intros Hst. destruct (score_all_spec st ∅ (ordered_map (in_candidates input))) as (scores & Hrun & Hs).
  { intros a l Ha%elem_of_ordered_map _.
    destruct (si_lookup st a l Hst Ha) as (g & n & Hg & _ & Hinv).
    exists g. split; [done|]. apply Hinv. }
  exists scores. split; [done|]. intros u n. rewrite Hs, lookup_empty. simpl.
  case_decide; naive_solver.
Qed.

Lemma solve_inv_step st best :
  solve_inv st → (N.of_nat (size (ss_selected st)) < in_cap input)%N → greedy_choice st best →
  ∃ st',
    assign_all best (mkState ({[ best ]} ∪ ss_selected st) (ss_assignment st) (ss_need st))
      (ordered_map (in_candidates input)) = Some st' ∧
    ss_selected st' = {[ best ]} ∪ ss_selected st ∧ solve_inv st'.
Proof.
  intros Hst Hcap (Hnew & Hfills & _).
  destruct (assign_all_spec best
              (mkState ({[ best ]} ∪ ss_selected st) (ss_assignment st) (ss_need st))
              (ordered_map (in_candidates input))) as (st' & Hrun & Hsel & Hout & Hin);
    [apply NoDup_ordered_map_fst| |].
  { intros a l Ha%elem_of_ordered_map. destruct (si_lookup st a l Hst Ha) as (g & n & Hg & Hn & _).
    by split; eexists. }
  exists st'. simpl in *. split_and!; [done..|].
  assert (∀ a, is_Some (in_candidates input !! a) ∨
               ss_assignment st' !! a = ss_assignment st !! a ∧ ss_need st' !! a = ss_need st !! a)
    as Hcase.
  { intros a. destruct (in_candidates input !! a) eqn:Ha; [by left; eexists|right]. apply Hout.
    rewrite elem_of_ordered_map_fst, Ha. by intros [? ?]. }
  assert (∀ a l, in_candidates input !! a = Some l → ∃ g n,
    ss_assignment st !! a = Some g ∧ ss_need st !! a = Some n ∧ author_inv (ss_selected st) l g n ∧
    ss_assignment st' !! a = Some (after_best best l g n).1 ∧
    ss_need st' !! a = Some (after_best best l g n).2) as Hpt.
  { intros a l Ha. destruct (si_lookup st a l Hst Ha) as (g & n & Hg & Hn & Hai).
    exists g, n. split_and!; [done..| |]; eapply Hin; eauto; by apply elem_of_ordered_map. }
  split.
  - rewrite <-(si_dom_assignment _ Hst). apply set_eq. intros a. rewrite !elem_of_dom.
    destruct (Hcase a) as [[l Ha]|[-> _]]; [|done].
    destruct (Hpt a l Ha) as (g & n & -> & _ & _ & -> & _). by split; eexists.
  - rewrite <-(si_dom_need _ Hst). apply set_eq. intros a. rewrite !elem_of_dom.
    destruct (Hcase a) as [[l Ha]|[_ ->]]; [|done].
    destruct (Hpt a l Ha) as (g & n & _ & -> & _ & _ & ->). by split; eexists.
  - intros a l g' n' Ha Hg' Hn'. destruct (Hpt a l Ha) as (g & n & _ & _ & Hai & Hg & Hn).
    simplify_eq. rewrite Hsel. by apply author_inv_step.
  - intros u. rewrite Hsel. intros [->%elem_of_singleton|Hu]%elem_of_union.
    + apply elem_of_fills in Hfills as (a & l & Ha%elem_of_ordered_map & Hn & Hl).
      destruct (Hpt a l Ha) as (g & n & _ & Hneed & _ & Hg & _).
      unfold need_of in Hn. rewrite Hneed in Hn. simpl in Hn. exists a. eexists. split; [exact Hg|].
      unfold after_best. rewrite decide_True by done. simpl. set_solver.
    + destruct (si_used st Hst u Hu) as (a & g & Hg & Hug).
      destruct (Hcase a) as [[l Ha]|[Heq _]]; [|exists a, g; by rewrite Heq].
      destruct (Hpt a l Ha) as (g0 & n & Hg0 & _ & _ & Hg' & _). simplify_eq.
      exists a. eexists. split; [exact Hg'|]. unfold after_best. case_decide; simpl; set_solver.
  - rewrite Hsel, size_union, size_singleton by set_solver. lia.
Qed.

Lemma solve_round_spec st :
  solve_inv st →
  (solve_round input st = Some None ∧ finished st) ∨
  ∃ best st', solve_round input st = Some (Some st') ∧ greedy_choice st best ∧
    ss_selected st' = {[ best ]} ∪ ss_selected st ∧ solve_inv st'.
Proof.
  intros Hst. unfold solve_round.
  destruct (N.leb_spec (in_cap input) (N.of_nat (size (ss_selected st)))) as [Hcap|Hcap].
  { left. split; [done|]. by left. }
  destruct (forallb _ _) eqn:Hall.
  { left. split; [done|]. right. intros a n Ha%elem_of_ordered_map.
    rewrite forallb_forall in Hall. apply list_elem_of_In, Hall in Ha. by case_bool_decide. }
  destruct (scores_spec st Hst) as (scores & -> & Hscores). simpl.
  destruct (max_by score_compare (ordered_map scores)) as [[best s]|] eqn:Hbest.
  - right. apply best_score in Hbest as [Hin%elem_of_ordered_map%Hscores Hbest].
    destruct Hin as (Hnew & -> & Hfill).
    assert (greedy_choice st best) as Hgreedy.
    { split_and!; [done..|]. intros u Hu.
      destruct (decide (fills st (ordered_map (in_candidates input)) u = 0)); [by auto|].
      destruct (Hbest (u, fills st (ordered_map (in_candidates input)) u)); [|by auto..].
      by apply elem_of_ordered_map, Hscores. }
    destruct (solve_inv_step st best Hst Hcap Hgreedy) as (st' & -> & Hsel & Hst').
    simpl. exists best, st'. auto.
  - left. split; [done|]. right. intros a n Hn. apply dec_stable. intros Hn0.
    assert (scores = ∅) as ->.
    { apply map_empty. intros u. destruct (scores !! u) as [m|] eqn:Hm; [|done].
      apply elem_of_ordered_map in Hm. destruct (ordered_map scores); [by apply not_elem_of_nil in Hm|done]. }
    assert (is_Some (in_candidates input !! a)) as [l Ha].
    { apply elem_of_dom. rewrite <-(si_dom_need _ Hst). by apply elem_of_dom_2 in Hn. }
    destruct (si_lookup st a l Hst Ha) as (g & n' & Hg & Hn' & Hinv). simplify_eq.
    destruct (author_inv_open _ _ _ _ Hinv Hn0) as (u & Hu & Hnew).
    assert (fills st (ordered_map (in_candidates input)) u ≠ 0) as Hf.
    { apply elem_of_fills. exists a, l. rewrite elem_of_ordered_map. unfold need_of. by rewrite Hn. }
    pose proof (proj2 (Hscores u _) (conj Hnew (conj eq_refl Hf))). done.
Qed.

Lemma selected_listed st : solve_inv st → ss_selected st ⊆ all_urls input.
Proof.
  intros Hst u Hu. destruct (si_used st Hst u Hu) as (a & g & Hg & Hug).
  assert (is_Some (in_candidates input !! a)) as [l Ha].
  { apply elem_of_dom. rewrite <-(si_dom_assignment _ Hst). by apply elem_of_dom_2 in Hg. }
  destruct (si_lookup st a l Hst Ha) as (g' & n & Hg' & _ & Hinv). simplify_eq.
  unfold all_urls. apply elem_of_union_list. exists (distinct l). split; [|by apply (ai_listed _ _ _ _ Hinv)].
  apply list_elem_of_fmap. exists (a, l). split; [done|]. by apply elem_of_ordered_map.
Qed.

Lemma solve_loop_spec fuel st :
  solve_inv st → size (all_urls input) - size (ss_selected st) < fuel →
  ∃ st', solve_loop input fuel st = Some st' ∧ solve_inv st' ∧ finished st'.
Proof.
  revert st. induction fuel as [|fuel IH]; intros st Hst Hfuel; [lia|]. simpl.
  destruct (solve_round_spec st Hst) as [[-> Hfin]|(best & st' & -> & (Hnew & _) & Hsel & Hst')]; simpl.
  { by exists st. }
  apply IH; [done|]. pose proof (subseteq_size _ _ (selected_listed st' Hst')) as Hle.
  rewrite Hsel, size_union, size_singleton in Hle by set_solver.
  rewrite Hsel, size_union, size_singleton by set_solver. lia.
Qed.

Lemma shortfalls_spec asgs acc :
  NoDup asgs.*1 → (∀ a g, (a, g) ∈ asgs → is_Some (in_candidates input !! a)) →
  ∃ short, shortfalls input asgs acc = Some short ∧
    (∀ a, a ∉ asgs.*1 → short !! a = acc !! a) ∧
    (∀ a g l, (a, g) ∈ asgs → in_candidates input !! a = Some l →
       short !! a = if in_k input <=? size g then acc !! a
                    else Some (mkShortfall (in_k input) (size g) (shortfall_reason input l))).
Proof.
  revert acc. induction asgs as [|[a g] asgs IH]; intros acc Hnd Hok; csimpl.
  { exists acc. split_and!; [done..|]. by intros ??? []%not_elem_of_nil. }
  apply NoDup_cons in Hnd as [Ha Hnd]. destruct (Hok a g) as [l Hl]; [left|].
  assert (∀ b h, (b, h) ∈ asgs → b ≠ a) as Hne.
  { intros b h Hb ->. apply Ha, list_elem_of_fmap. by exists (a, h). }
  set (acc' := if in_k input <=? size g then acc else
    <[a := mkShortfall (in_k input) (size g) (shortfall_reason input l)]> acc).
  assert (∀ b, b ≠ a → acc' !! b = acc !! b) as Hacc.
  { intros b Hb. unfold acc'. case_match; [done|]. by rewrite lookup_insert_ne. }
  destruct (IH acc') as (short & Hrun & Hout & Hin); [done|set_solver|].
  exists short. split_and!.
  - unfold acc' in Hrun. case_match; [done|]. by rewrite Hl.
  - intros b [? Hb]%not_elem_of_cons. rewrite Hout by done. by apply Hacc.
  - intros b h k [[= -> ->]|Hb]%elem_of_cons Hk.
    + rewrite Hout by done. simplify_eq. unfold acc'. case_match; [done|]. apply lookup_insert_eq.
    + rewrite (Hin b h k Hb Hk), Hacc by eauto. done.
Qed.

(** A run of the loop, with the relays it selected in order. *)
Inductive greedy_run : SolveState → list RelayUrl → SolveState → Prop :=
  | greedy_stop st : finished st → greedy_run st [] st
  | greedy_round st best st' trace st'' :
      greedy_choice st best →
      ss_selected st' = {[ best ]} ∪ ss_selected st →
      greedy_run st' trace st'' → greedy_run st (best :: trace) st''.

Lemma solve_loop_greedy fuel st st' :
  solve_inv st → solve_loop input fuel st = Some st' →
  solve_inv st' ∧ ∃ trace, greedy_run st trace st'.
Proof.
  revert st. induction fuel as [|fuel IH]; intros st Hst; simpl; [done|].
  destruct (solve_round_spec st Hst) as [[-> Hfin]|(best & st1 & -> & Hgreedy & Hsel & Hst1)]; simpl.
  - intros [= <-]. split; [done|]. exists []. by constructor.
  - intros Hrun. destruct (IH st1 Hst1 Hrun) as [? [trace Htrace]]. split; [done|].
    exists (best :: trace). by econstructor.
Qed.

Lemma greedy_run_selected st trace st' :
  greedy_run st trace st' →
  ss_selected st' = list_to_set trace ∪ ss_selected st ∧ NoDup trace ∧
  (∀ u, u ∈ trace → u ∉ ss_selected st).
Proof.
  induction 1 as [st Hfin|st best st1 trace st' (Hnew & _) Hsel _ (IH & Hnd & Hfresh)].
  - split_and!; [set_solver|constructor|set_solver].
  - split_and!; [set_solver| |].
    + constructor; [|done]. intros Hin%Hfresh. set_solver.
    + intros u [->|Hu]%elem_of_cons; [done|]. apply Hfresh in Hu. set_solver.
Qed.

(** Everything the theorems below say, in terms of the final loop state. *)
Lemma solve_state :
  ∃ st short trace,
    solve input = Some (mkCoverage (ss_selected st) (ss_assignment st) short) ∧
    solve_inv st ∧ finished st ∧ greedy_run (initial_state input) trace st ∧
    ∀ a g l, ss_assignment st !! a = Some g → in_candidates input !! a = Some l →
      short !! a = if in_k input <=? size g then None
                   else Some (mkShortfall (in_k input) (size g) (shortfall_reason input l)).
Proof.
  destruct (solve_loop_spec (S (size (all_urls input))) (initial_state input))
    as (st & Hloop & Hst & Hfin); [apply solve_inv_initial|lia|].
  destruct (solve_loop_greedy _ _ _ solve_inv_initial Hloop) as [_ [trace Htrace]].
  destruct (shortfalls_spec (ordered_map (ss_assignment st)) ∅) as (short & Hshort & _ & Hin).
  { apply NoDup_ordered_map_fst. }
  { intros a g Hg%elem_of_ordered_map. apply elem_of_dom. rewrite <-(si_dom_assignment _ Hst).
    by apply elem_of_dom_2 in Hg. }
  exists st, short, trace. unfold solve. rewrite Hloop. simpl. rewrite Hshort.
  split_and!; [done..|]. intros a g l Hg Hl.
  rewrite (Hin a g l); [by rewrite lookup_empty|by apply elem_of_ordered_map|done].
Qed.

Lemma si_candidate st a g :
  solve_inv st → ss_assignment st !! a = Some g →
  ∃ l n, in_candidates input !! a = Some l ∧ author_inv (ss_selected st) l g n.
Proof.
  intros Hst Hg. assert (is_Some (in_candidates input !! a)) as [l Ha].
  { apply elem_of_dom. rewrite <-(si_dom_assignment _ Hst). by apply elem_of_dom_2 in Hg. }
  destruct (si_lookup st a l Hst Ha) as (g' & n & Hg' & _ & Hinv). simplify_eq. eauto.
Qed.

Lemma selected_bound st :
  solve_inv st → size (ss_selected st) ≤ in_k input * size (in_candidates input).
Proof.
  intros Hst. rewrite <-(length_ordered_map (in_candidates input)),
    <-(length_fmap (λ p, default ∅ (ss_assignment st !! p.1))).
  etrans; [|apply size_union_list_le].
  - apply subseteq_size. intros u (a & g & Hg & Hu)%(si_used _ Hst). apply elem_of_union_list.
    exists g. split; [|done]. apply list_elem_of_fmap.
    destruct (si_candidate st a g Hst Hg) as (l & n & Ha & _).
    exists (a, l). simpl. rewrite Hg. split; [done|]. by apply elem_of_ordered_map.
  - intros g ([a l] & -> & Ha%elem_of_ordered_map)%list_elem_of_fmap. simpl.
    destruct (si_lookup st a l Hst Ha) as (g & n & -> & _ & Hinv). simpl.
    pose proof (ai_sum _ _ _ _ Hinv) as Hsum. unfold ceiling in Hsum. lia.
Qed.

(** The solver always returns. Its selection stays within the cap and is
    exactly the relays it assigned; every author of the input, and no other,
    has an assignment made of relays it lists, at most [k] of them; unless the
    cap was reached each author got as many as [k] and its list allow; and the
    shortfall report has exactly the authors below [k], with what they
    achieved and a reason that blames the cap only when the cap was reached. *)
Theorem solve_correct :
  ∃ cov, solve input = Some cov ∧
    (N.of_nat (size (selected cov)) ≤ in_cap input)%N ∧
    dom (assignment cov) = dom (in_candidates input) ∧
    (∀ u, u ∈ selected cov ↔ ∃ a g, assignment cov !! a = Some g ∧ u ∈ g) ∧
    ∀ a l, in_candidates input !! a = Some l →
      ∃ g, assignment cov !! a = Some g ∧ g ⊆ distinct l ∧ size g ≤ in_k input ∧
        (size g = size (distinct l) `min` in_k input ∨
         N.of_nat (size (selected cov)) = in_cap input) ∧
        (shortfall cov !! a =
           if in_k input <=? size g then None
           else Some (mkShortfall (in_k input) (size g) (shortfall_reason input l))) ∧
        (∀ s, shortfall cov !! a = Some s → sf_reason s = CapExhausted →
           N.of_nat (size (selected cov)) = in_cap input).
Proof.
  destruct solve_state as (st & short & trace & Hrun & Hst & Hfin & _ & Hshort).
  eexists. split; [done|]. simpl. split_and!; [apply Hst|apply Hst|..].
  - intros u. split; [apply (si_used _ Hst)|]. intros (a & g & Hg & Hu).
    destruct (si_candidate st a g Hst Hg) as (l & n & _ & Hinv). by apply (ai_selected _ _ _ _ Hinv).
  - intros a l Ha. destruct (si_lookup st a l Hst Ha) as (g & n & Hg & Hn & Hinv).
    pose proof (ai_sum _ _ _ _ Hinv) as Hsum. unfold ceiling in Hsum.
    assert (size g = size (distinct l) `min` in_k input ∨
            N.of_nat (size (ss_selected st)) = in_cap input) as Hdone.
    { destruct Hfin as [Hcap|Hneed]; [right|left; rewrite (Hneed a n Hn) in Hsum; lia].
      pose proof (si_cap _ Hst). lia. }
    exists g. rewrite (Hshort a g l Hg Ha). split_and!; [done|apply Hinv|lia|done|done|].
    intros s Hs Hr. destruct Hdone as [Hfull|]; [exfalso|done].
    destruct (Nat.leb_spec (in_k input) (size g)); simplify_eq/=.
    unfold shortfall_reason in Hr. repeat case_decide; try done.
    destruct (Nat.ltb_spec (size (distinct l)) (in_k input)); [done|lia].
Qed.

(** The solver is the greedy cover it documents. The relays are selected one
    by one, each is new, fills at least one open slot, and fills at least as
    many as any other unselected relay, the smaller url winning a tie; the loop
    takes at most [k] rounds per author. *)
Theorem solve_greedy :
  ∃ cov st trace,
    solve input = Some cov ∧ greedy_run (initial_state input) trace st ∧ NoDup trace ∧
    selected cov = list_to_set trace ∧ assignment cov = ss_assignment st ∧
    length trace ≤ in_k input * size (in_candidates input).
Proof.
  destruct solve_state as (st & short & trace & Hrun & Hst & _ & Htrace & _).
  destruct (greedy_run_selected _ _ _ Htrace) as (Hsel & Hnd & _). simpl in Hsel.
  rewrite (right_id_L ∅ (∪)) in Hsel.
  eexists _, st, trace. split_and!; [done..|].
  assert (length trace = size (ss_selected st)) as ->; [|by apply selected_bound].
  rewrite Hsel. unfold size, set_size. simpl. by rewrite elements_list_to_set.
Qed.
End solved.

(** With a cap that binds, an author listing fewer than [k] relays may be cut
    below its own ceiling, and its report still says [FewerCandidatesThanK]. *)
Definition capped_input : CoverageInput :=
  mkInput (list_to_map [(1%N, [mkLaned "wss://a" AuthorOutbound]);
                        (2%N, [mkLaned "wss://b" AuthorOutbound])]) 2 1.

Lemma fewer_candidates_below_ceiling :
  (λ cov, shortfall cov !! 2%N) <$> solve capped_input
    = Some (Some (mkShortfall 2 0 FewerCandidatesThanK)) ∧
  ceiling capped_input [mkLaned "wss://b" AuthorOutbound] = 1.
Proof. split; decide_now. Qed.
