(* ===== verification/WireId.v ===== *)
(** * Wire tokens

    [crates/nmp-router/src/wire_id.rs]: which previously allocated subscription
    id a newly compiled filter keeps, and which one it names as its
    predecessor.  The closure [mint] of the caller is the pair of the function
    [mk] that makes an id from the counter and the counter itself, a [u64] that
    wraps as it does in a release build. *)

From S2P Require Import Prelude Grammar Coverage RouterTypes Component.

Record Assignment := mkAssignment { as_sub_id : SubId; as_predecessor : option SubId }.

#[global] Instance Assignment_eq_dec : EqDecision Assignment.
Proof. solve_decision. Defined.

(** [fn overlap] and [fn nearest] of [affinity]. *)
Definition overlap {A} `{Countable A} (a b : option (gset A)) : nat * N :=
  match a, b with
  | Some a, Some b => (size (a ∩ b), 0%N)
  | _, _ => (0, 0%N)
  end.

Definition abs_diff (a b : N) : N := if (a <? b)%N then (b - a)%N else (a - b)%N.

Definition nearest (a b : option N) : nat * N :=
  match a, b with
  | Some a, Some b => (0, abs_diff a b)
  | _, _ => (0, u64_max)
  end.

Definition affinity (component : Component) (a b : ConcreteFilter) : nat * N :=
  match component with
  | Kinds => overlap (f_kinds a) (f_kinds b)
  | Authors => overlap (f_authors a) (f_authors b)
  | Ids => overlap (f_ids a) (f_ids b)
  | Tag name => overlap (f_tags a !! name) (f_tags b !! name)
  | Since => nearest (f_since a) (f_since b)
  | Until => nearest (f_until a) (f_until b)
  | Limit => nearest (f_limit a) (f_limit b)
  end.

(** The ordering key [(Reverse(overlap), distance, filter, sub)]. *)
Definition TieBreak : Type := nat * (N * (ConcreteFilter * SubId)).
Definition tie_compare (a b : TieBreak) : comparison :=
  then_with (Nat.compare b.1 a.1) (cmp a.2 b.2).

(** [mint_counter += 1] on a [u64]. *)
Definition wrapping_incr (c : N) : N := (c + 1) mod 2 ^ 64.

Record AssignState := mkAssign {
  ast_taken : list bool;
  ast_out : list (option Assignment);
  ast_counter : N
}.

Section assign.
Context (mk : N → SubId) (priors : list (ConcreteFilter * SubId)) (next : list ConcreteFilter).

(** [priors.iter().enumerate()]. *)
Definition enumerated : list (nat * (ConcreteFilter * SubId)) := imap pair priors.

(** [next[i].cmp(&next[j]).then(i.cmp(&j))], the order of the sweep. *)
Definition index_le (i j : nat) : Prop :=
  then_with (cmp (next !! i) (next !! j)) (Nat.compare i j) ≠ Gt.
#[local] Instance index_le_dec i j : Decision (index_le i j).
Proof. unfold index_le. apply _. Defined.

Definition order : list nat := merge_sort index_le (seq 0 (length next)).

Definition zero_diff_step (taken : list bool) (f : ConcreteFilter)
    (best : option (nat * SubId)) (p : nat * (ConcreteFilter * SubId)) : option (nat * SubId) :=
  let '(p, (prior_filter, prior_sub)) := p in
  if decide (taken !! p = Some true ∨ prior_filter ≠ f) then best
  else match best with
       | None => Some (p, prior_sub)
       | Some (_, b) => if decide (cmp_lt prior_sub b) then Some (p, prior_sub) else best
       end.

(** Phase 1 for one filter. *)
Definition phase1 (st : AssignState) (i : nat) : option AssignState :=
  f ← next !! i;
  Some (match foldl (zero_diff_step (ast_taken st) f) None enumerated with
        | Some (p, sub) =>
            mkAssign (<[p := true]> (ast_taken st))
              (<[i := Some (mkAssignment sub None)]> (ast_out st)) (ast_counter st)
        | None => st
        end).

Definition one_diff_step (taken : list bool) (f : ConcreteFilter)
    (best : option (nat * TieBreak)) (p : nat * (ConcreteFilter * SubId))
    : option (nat * TieBreak) :=
  let '(p, (prior_filter, prior_sub)) := p in
  if decide (taken !! p = Some true) then best
  else match sole_difference prior_filter f with
       | None => best
       | Some component =>
           let '(overlap, distance) := affinity component prior_filter f in
           let key := (overlap, (distance, (prior_filter, prior_sub))) in
           match best with
           | None => Some (p, key)
           | Some (_, best_key) =>
               match tie_compare key best_key with Lt => Some (p, key) | _ => best end
           end
       end.

(** Phase 2 for one filter. *)
Definition phase2 (st : AssignState) (i : nat) : option AssignState :=
  f ← next !! i;
  o ← ast_out st !! i;
  Some (match o with
        | Some _ => st
        | None =>
            match foldl (one_diff_step (ast_taken st) f) None enumerated with
            | Some (p, key) =>
                mkAssign (<[p := true]> (ast_taken st))
                  (<[i := Some (mkAssignment (mk (ast_counter st)) (Some key.2.2.2))]> (ast_out st))
                  (wrapping_incr (ast_counter st))
            | None => st
            end
        end).

(** Phase 3 for one filter. *)
Definition phase3 (st : AssignState) (i : nat) : option AssignState :=
  o ← ast_out st !! i;
  Some (match o with
        | Some _ => st
        | None =>
            mkAssign (ast_taken st)
              (<[i := Some (mkAssignment (mk (ast_counter st)) None)]> (ast_out st))
              (wrapping_incr (ast_counter st))
        end).

Definition sweep_order (phase : AssignState → nat → option AssignState) (st : AssignState)
    : option AssignState :=
  foldl (λ o i, st ← o; phase st i) (Some st) order.

(** [assign]: the assignments in [next]'s order, and the counter afterwards. *)
Definition assign (counter : N) : option (list Assignment * N) :=
  st ← sweep_order phase1
         (mkAssign (replicate (length priors) false) (replicate (length next) None) counter);
  st ← sweep_order phase2 st;
  st ← sweep_order phase3 st;
  out ← mapM id (ast_out st);
  Some (out, ast_counter st).
End assign.

(** ** Where an assignment comes from *)

(** A kept prior, or a minted id with the prior it replaces; priors are named
    by their index. *)
Inductive origin := Kept (p : nat) | Fresh (m : N) (replaced : option nat).

Definition prior_of (o : origin) : option nat :=
  match o with Kept p => Some p | Fresh _ replaced => replaced end.
Definition minted_of (o : origin) : option N :=
  match o with Kept _ => None | Fresh m _ => Some m end.

(** The values of a partial function over the cells that are set. *)
Definition collect {B} (f : origin → option B) (os : list (option origin)) : list B :=
  omap (λ x, x ≫= f) os.

Lemma collect_insert {B} (f : origin → option B) os i o :
  os !! i = Some None → collect f (<[i := Some o]> os) ≡ₚ option_list (f o) ++ collect f os.
Proof.
  intros (l1 & l2 & -> & ->)%list_elem_of_split_length. unfold collect.
  rewrite insert_app_r_alt, Nat.sub_diag by done. simpl. rewrite !omap_app. simpl.
  destruct (f o); simpl; [|done]. symmetry. apply Permutation_middle.
Qed.

Lemma elem_of_collect {B} (f : origin → option B) os b :
  b ∈ collect f os ↔ ∃ i o, os !! i = Some (Some o) ∧ f o = Some b.
Proof.
  unfold collect. rewrite list_elem_of_omap. split.
  - intros ([o|] & [i Hi]%list_elem_of_lookup & Hb); [|done]. eauto.
  - intros (i & o & Ho & Hb). exists (Some o). split; [by eapply list_elem_of_lookup_2|done].
Qed.

Lemma length_collect {B} (f : origin → option B) os : length (collect f os) ≤ length os.
Proof.
  unfold collect. induction os as [|x os IH]; csimpl; [done|]. destruct (x ≫= f); simpl; lia.
Qed.

Section assigned.
Context (mk : N → SubId) (priors : list (ConcreteFilter * SubId)) (next : list ConcreteFilter).
Context (c0 : N).

Definition explains (f : ConcreteFilter) (o : origin) (a : Assignment) : Prop :=
  match o with
  | Kept p => priors !! p = Some (f, as_sub_id a) ∧ as_predecessor a = None
  | Fresh m None => as_sub_id a = mk m ∧ as_predecessor a = None
  | Fresh m (Some p) => as_sub_id a = mk m ∧
      ∃ g s c, priors !! p = Some (g, s) ∧ as_predecessor a = Some s ∧ sole_difference g f = Some c
  end.

(** The loop invariant: [os] says where every assignment made so far comes from. *)
Record assign_inv (st : AssignState) (os : list (option origin)) : Prop := {
  av_out : length (ast_out st) = length next;
  av_os : length os = length next;
  av_taken : length (ast_taken st) = length priors;
  av_some i a : ast_out st !! i = Some (Some a) →
    ∃ o f, os !! i = Some (Some o) ∧ next !! i = Some f ∧ explains f o a;
  av_none i : ast_out st !! i = Some None → os !! i = Some None;
  av_priors : NoDup (collect prior_of os);
  av_used p : p ∈ collect prior_of os ↔ ast_taken st !! p = Some true;
  av_minted : NoDup (collect minted_of os);
  av_range m : m ∈ collect minted_of os → (c0 ≤ m < ast_counter st)%N;
  av_counter : ast_counter st = (c0 + N.of_nat (length (collect minted_of os)))%N
}.

(** The state after the cell [i] is set to [a], whose origin is [o]. *)
Definition set_cell (st : AssignState) (i : nat) (o : origin) (a : Assignment) : AssignState :=
  mkAssign (match prior_of o with Some p => <[p := true]> (ast_taken st) | None => ast_taken st end)
    (<[i := Some a]> (ast_out st))
    (match minted_of o with Some _ => wrapping_incr (ast_counter st) | None => ast_counter st end).

Lemma wrapping_incr_small c : (c + 1 < 2 ^ 64)%N → wrapping_incr c = (c + 1)%N.
Proof. intros. unfold wrapping_incr. by apply N.mod_small. Qed.

Lemma assign_inv_set st os i f o a :
  (c0 + N.of_nat (length next) < 2 ^ 64)%N →
  assign_inv st os → next !! i = Some f → ast_out st !! i = Some None → explains f o a →
  (∀ p, prior_of o = Some p → p < length priors ∧ ast_taken st !! p ≠ Some true) →
  (∀ m, minted_of o = Some m → m = ast_counter st) →
  assign_inv (set_cell st i o a) (<[i := Some o]> os).
Proof.
  intros Hwrap Hinv Hf Hi Ha Hp Hm. pose proof (av_none _ _ Hinv i Hi) as Ho.
  pose proof (collect_insert prior_of os i o Ho) as Hcp.
  pose proof (collect_insert minted_of os i o Ho) as Hcm.
  assert (length (collect minted_of (<[i := Some o]> os)) ≤ length next) as Hlen.
  { rewrite <-(av_os _ _ Hinv), <-(length_insert os i (Some o)). apply length_collect. }
  assert (minted_of o = None ∨
          minted_of o = Some (ast_counter st) ∧
          wrapping_incr (ast_counter st) = (ast_counter st + 1)%N) as Hmint.
  { destruct (minted_of o) as [m|] eqn:Hmo; [right|by left].
    rewrite (Hm m eq_refl) in *. split; [done|]. apply wrapping_incr_small.
    rewrite Hcm, length_app in Hlen. simpl in Hlen. pose proof (av_counter _ _ Hinv). lia. }
  split; simpl.
  - by rewrite length_insert, (av_out _ _ Hinv).
  - by rewrite length_insert, (av_os _ _ Hinv).
  - destruct (prior_of o); rewrite ?length_insert; apply Hinv.
  - intros j b. destruct (decide (i = j)) as [->|Hne].
    + rewrite list_lookup_insert_eq by (by eapply lookup_lt_Some). intros [= <-].
      exists o, f. by rewrite list_lookup_insert_eq by (by eapply lookup_lt_Some).
    + rewrite !list_lookup_insert_ne by done. apply Hinv.
  - intros j. destruct (decide (i = j)) as [->|Hne].
    + by rewrite list_lookup_insert_eq by (by eapply lookup_lt_Some).
    + rewrite !list_lookup_insert_ne by done. apply Hinv.
  - rewrite Hcp. destruct (prior_of o) as [p|]; simpl; [|apply Hinv].
    constructor; [|apply Hinv]. rewrite (av_used _ _ Hinv). by apply Hp.
  - intros p. rewrite Hcp, elem_of_app, (av_used _ _ Hinv).
    destruct (prior_of o) as [q|]; simpl; [|by rewrite elem_of_nil; tauto].
    rewrite list_elem_of_singleton. destruct (Hp q eq_refl) as [Hq _].
    destruct (decide (q = p)) as [->|].
    + rewrite list_lookup_insert_eq by (by rewrite (av_taken _ _ Hinv)). tauto.
    + rewrite list_lookup_insert_ne by done. naive_solver.
  - rewrite Hcm. destruct Hmint as [->|[-> _]]; simpl; [apply Hinv|].
    constructor; [|apply Hinv]. intros ?%(av_range _ _ Hinv). lia.
  - intros m. rewrite Hcm, elem_of_app. pose proof (av_counter _ _ Hinv) as Hc.
    destruct Hmint as [->|[-> ->]]; simpl.
    + rewrite elem_of_nil. intros [[]|?]. by apply Hinv.
    + rewrite list_elem_of_singleton. intros [->|?%(av_range _ _ Hinv)]; lia.
  - rewrite Hcm, length_app, (av_counter _ _ Hinv).
    destruct Hmint as [->|[-> Hw]]; simpl; [lia|]. rewrite <-(av_counter _ _ Hinv), Hw.
    rewrite (av_counter _ _ Hinv). lia.
Qed.

Lemma elem_of_enumerated p x : (p, x) ∈ enumerated priors ↔ priors !! p = Some x.
Proof.
  unfold enumerated. rewrite elem_of_lookup_imap. split; [by intros (? & ? & [= -> ->] & ?)|eauto].
Qed.

(** The zero-diff scan: an untaken prior with this very filter, of least id,
    or none exists. *)
Lemma zero_diff_spec taken f l :
  match foldl (zero_diff_step taken f) None l with
  | Some (p, sub) => (p, (f, sub)) ∈ l ∧ taken !! p ≠ Some true ∧
      ∀ q s, (q, (f, s)) ∈ l → taken !! q ≠ Some true → cmp_le sub s
  | None => ∀ q s, (q, (f, s)) ∈ l → taken !! q = Some true
  end.
Proof.
  induction l as [|[p [g s]] l IH] using rev_ind; simpl.
  { by intros ?? ?%not_elem_of_nil. }
  assert (∀ q t, (q, (f, t)) ∈ l ++ [(p, (g, s))] ↔ (q, (f, t)) ∈ l ∨ q = p ∧ g = f ∧ t = s) as Hl.
  { intros q t. rewrite elem_of_app, list_elem_of_singleton. naive_solver. }
  rewrite foldl_snoc. destruct (foldl _ None l) as [[b sb]|]; simpl.
  - destruct IH as (Hin & Hb & Hleast). case_decide as Hskip.
    { split_and!; [by apply Hl; left|done|]. intros q t Hq%Hl. naive_solver. }
    apply Decidable.not_or in Hskip as [Hp Hg]. assert (g = f) as -> by (by apply dec_stable).
    case_decide as Hlt.
    + split_and!; [by apply Hl; right|done|].
      intros q t [Hq|(-> & _ & ->)]%Hl Ht; [|apply cmp_le_refl].
      etrans; [|by eapply Hleast]. apply cmp_le_lt_eq. by left.
    + split_and!; [by apply Hl; left|done|].
      intros q t [Hq|(-> & _ & ->)]%Hl Ht; [by eapply Hleast|].
      apply dec_stable. by intros Hn%cmp_not_le.
  - case_decide as Hskip.
    + intros q t [Hq|(-> & -> & ->)]%Hl; [by eapply IH|]. by destruct Hskip.
    + apply Decidable.not_or in Hskip as [Hp Hg]. assert (g = f) as -> by (by apply dec_stable).
      split_and!; [by apply Hl; right|done|].
      intros q t [Hq|(-> & _ & ->)]%Hl Ht; [|apply cmp_le_refl]. destruct Ht. by eapply IH.
Qed.

(** The one-diff scan finds an untaken prior one component away. *)
Lemma one_diff_spec taken f l p key :
  foldl (one_diff_step taken f) None l = Some (p, key) →
  ∃ g c, (p, (g, key.2.2.2)) ∈ l ∧ taken !! p ≠ Some true ∧ sole_difference g f = Some c.
Proof.
  revert p key. induction l as [|[q [h s]] l IH] using rev_ind; intros p key; simpl; [done|].
  rewrite foldl_snoc. intros Hstep.
  assert (foldl (one_diff_step taken f) None l = Some (p, key) ∨
          taken !! q ≠ Some true ∧ is_Some (sole_difference h f) ∧ p = q ∧ key.2.2.2 = s) as [Hold|Hnew].
  { unfold one_diff_step in Hstep at 1. case_decide; [by left|].
    destruct (sole_difference h f) as [c|]; [|by left]. destruct (affinity c h f) as [o d].
    destruct (foldl _ None l) as [[b kb]|]; [|right; by simplify_eq/=].
    destruct (tie_compare _ _); simplify_eq/=; auto. }
  - destruct (IH p key Hold) as (g & c & ? & ? & ?). exists g, c. rewrite elem_of_app. auto.
  - destruct Hnew as (? & [c Hc] & -> & <-). exists h, c.
    rewrite elem_of_app, list_elem_of_singleton. auto.
Qed.

(** ** The three phases *)

Lemma sweep_ind (phase : AssignState → nat → option AssignState)
    (P : list nat → AssignState → Prop) st0 :
  P [] st0 →
  (∀ done st i, P done st → i < length next → i ∉ done →
     ∃ st', phase st i = Some st' ∧ P (i :: done) st') →
  ∃ st done, sweep_order next phase st0 = Some st ∧ P done st ∧ ∀ i, i < length next → i ∈ done.
Proof.
  intros H0 Hstep. unfold sweep_order.
  assert (order next ≡ₚ seq 0 (length next)) as Hperm by apply merge_sort_Permutation.
  assert (NoDup (order next)) as Hnd by (rewrite Hperm; apply NoDup_seq).
  assert (∀ i, i ∈ order next ↔ i < length next) as Hin.
  { intros i. rewrite Hperm, elem_of_seq. lia. }
  cut (∀ l done st, P done st → NoDup l → (∀ i, i ∈ l → i < length next ∧ i ∉ done) →
         ∃ st', foldl (λ o i, st ← o; phase st i) (Some st) l = Some st' ∧ P (reverse l ++ done) st').
  { intros Hgo. destruct (Hgo (order next) [] st0 H0 Hnd) as (st & Hrun & HP).
    { intros i Hi%Hin. split; [done|]. apply not_elem_of_nil. }
    exists st, (reverse (order next) ++ []). split_and!; [done..|].
    intros i Hi. rewrite app_nil_r, elem_of_reverse. by apply Hin. }
  clear Hnd Hin Hperm. induction l as [|i l IH]; intros done st HP Hnd Hok; simpl; [by exists st|].
  apply NoDup_cons in Hnd as [Hi Hnd].
  destruct (Hstep done st i HP) as (st' & -> & HP'); [apply Hok; left..|].
  destruct (IH (i :: done) st' HP' Hnd) as (st'' & Hrun & HP'').
  { intros j Hj. split; [apply Hok; by right|]. rewrite elem_of_cons. intros [->|Hd]; [done|].
    by apply (Hok j); [right|]. }
  exists st''. split; [done|]. by rewrite reverse_cons, <-(assoc_L (++)).
Qed.

Context (Hwrap : (c0 + N.of_nat (length next) < 2 ^ 64)%N) (Hnext : NoDup next).

(** Every filter a prior carries unchanged keeps the least such prior. *)
Definition keeps_zero_diff (os : list (option origin)) (i : nat) : Prop :=
  ∀ f q s, next !! i = Some f → priors !! q = Some (f, s) →
    ∃ p s', os !! i = Some (Some (Kept p)) ∧ priors !! p = Some (f, s') ∧ cmp_le s' s.

Definition after_phase1 (done : list nat) (st : AssignState) (os : list (option origin)) : Prop :=
  assign_inv st os ∧ (∀ i o, os !! i = Some (Some o) → ∃ p, o = Kept p) ∧
  (∀ i, i < length next → i ∉ done → ast_out st !! i = Some None) ∧
  (∀ i, i ∈ done → keeps_zero_diff os i).

Lemma assign_inv_cell st os i o :
  assign_inv st os → os !! i = Some (Some o) →
  ∃ a f, ast_out st !! i = Some (Some a) ∧ next !! i = Some f ∧ explains f o a.
Proof.
  intros Hinv Ho. assert (is_Some (ast_out st !! i)) as [x Hx].
  { apply lookup_lt_is_Some. rewrite (av_out _ _ Hinv), <-(av_os _ _ Hinv). by eapply lookup_lt_Some. }
  destruct x as [a|]; [|by rewrite (av_none _ _ Hinv i Hx) in Ho].
  destruct (av_some _ _ Hinv i a Hx) as (o' & f & Ho' & Hf & Ha). simplify_eq. eauto.
Qed.

(** A prior of this very filter is still free when the filter's turn comes. *)
Lemma phase1_untaken done st os i f q s :
  after_phase1 done st os → ast_out st !! i = Some None → next !! i = Some f →
  priors !! q = Some (f, s) → ast_taken st !! q ≠ Some true.
Proof.
  intros (Hinv & Hkept & _) Hi Hf Hq Ht. apply (av_used _ _ Hinv), elem_of_collect in Ht.
  destruct Ht as (j & o & Ho & Hp). destruct (Hkept j o Ho) as [p ->]. simplify_eq/=.
  destruct (assign_inv_cell _ _ _ _ Hinv Ho) as (a & g & Ha & Hg & Hex & _). simplify_eq.
  by rewrite (NoDup_lookup next i j f Hnext Hf Hg), Ha in Hi.
Qed.

Lemma phase1_step done st os i :
  after_phase1 done st os → i < length next → i ∉ done →
  ∃ st' os', phase1 priors next st i = Some st' ∧ after_phase1 (i :: done) st' os'.
Proof.
  intros Hst Hi Hdone. pose proof Hst as (Hinv & Hkept & Htodo & Hzero).
  destruct (lookup_lt_is_Some_2 next i Hi) as [f Hf]. unfold phase1. rewrite Hf. simpl.
  pose proof (Htodo i Hi Hdone) as Hnone. pose proof (av_none _ _ Hinv i Hnone) as Hos.
  pose proof (zero_diff_spec (ast_taken st) f (enumerated priors)) as Hbest.
  destruct (foldl _ None _) as [[p sub]|].
  - destruct Hbest as (Hp%elem_of_enumerated & Hfree & Hleast).
    exists (set_cell st i (Kept p) (mkAssignment sub None)), (<[i := Some (Kept p)]> os).
    split; [done|]. split_and!.
    + apply (assign_inv_set _ _ _ f); try done.
      intros q [= <-]. split; [by eapply lookup_lt_Some|done].
    + intros j o. destruct (decide (i = j)) as [->|]; [|rewrite list_lookup_insert_ne by done; eauto].
      rewrite list_lookup_insert_eq by (by eapply lookup_lt_Some). intros [= <-]. eauto.
    + intros j Hj [? Hd]%not_elem_of_cons. simpl. rewrite list_lookup_insert_ne by done. auto.
    + intros j [->|Hj]%elem_of_cons g q s Hg Hq.
      * simplify_eq. exists p, sub. rewrite list_lookup_insert_eq by (by eapply lookup_lt_Some).
        split_and!; [done..|]. eapply (Hleast q); [by apply elem_of_enumerated|].
        by eapply phase1_untaken.
      * rewrite list_lookup_insert_ne by (by intros ->). by eapply Hzero.
  - exists st, os. split; [done|]. split_and!; [done..| |].
    + intros j Hj [? Hd]%not_elem_of_cons. auto.
    + intros j [->|Hj]%elem_of_cons; [|by apply Hzero]. intros g q s Hg Hq. simplify_eq.
      exfalso. apply (phase1_untaken _ _ _ _ _ q s Hst Hnone Hf Hq), (Hbest q s).
      by apply elem_of_enumerated.
Qed.

(** Phases 2 and 3 only set empty cells. *)
Definition extends (os os' : list (option origin)) : Prop :=
  ∀ i o, os !! i = Some (Some o) → os' !! i = Some (Some o).

#[local] Instance extends_preorder : PreOrder extends.
Proof. split; [by intros os i o|]. intros os1 os2 os3 H12 H23 i o Ho. by apply H23, H12. Qed.

Lemma extends_insert os i o : os !! i = Some None → extends os (<[i := Some o]> os).
Proof.
  intros Hi j o' Hj. rewrite list_lookup_insert_ne; [done|]. intros ->. congruence.
Qed.

Lemma phase2_step st os i :
  assign_inv st os → i < length next →
  ∃ st' os', phase2 mk priors next st i = Some st' ∧ assign_inv st' os' ∧ extends os os'.
Proof.
  intros Hinv Hi. destruct (lookup_lt_is_Some_2 next i Hi) as [f Hf].
  destruct (lookup_lt_is_Some_2 (ast_out st) i) as [x Hx]; [by rewrite (av_out _ _ Hinv)|].
  unfold phase2. rewrite Hf. simpl. rewrite Hx. simpl.
  destruct x as [a|]; [by exists st, os|].
  destruct (foldl _ None _) as [[p key]|] eqn:Hbest; [|by exists st, os].
  apply one_diff_spec in Hbest as (g & c & Hp%elem_of_enumerated & Hfree & Hc).
  exists (set_cell st i (Fresh (ast_counter st) (Some p))
            (mkAssignment (mk (ast_counter st)) (Some key.2.2.2))),
         (<[i := Some (Fresh (ast_counter st) (Some p))]> os).
  split; [done|]. split; [|by apply extends_insert, (av_none _ _ Hinv)].
  apply (assign_inv_set _ _ _ f); try done.
  - split; [done|]. eauto 10.
  - intros q [= <-]. split; [by eapply lookup_lt_Some|done].
  - by intros m [= <-].
Qed.

Lemma phase3_step st os i :
  assign_inv st os → i < length next →
  ∃ st' os', phase3 mk st i = Some st' ∧ assign_inv st' os' ∧ extends os os' ∧
    ∃ o, os' !! i = Some (Some o).
Proof.
  intros Hinv Hi. destruct (lookup_lt_is_Some_2 next i Hi) as [f Hf].
  destruct (lookup_lt_is_Some_2 (ast_out st) i) as [x Hx]; [by rewrite (av_out _ _ Hinv)|].
  unfold phase3. rewrite Hx. simpl. destruct x as [a|].
  { exists st, os. split_and!; [done..|].
    destruct (av_some _ _ Hinv i a Hx) as (o & ? & ? & _). eauto. }
  pose proof (av_none _ _ Hinv i Hx) as Hos.
  exists (set_cell st i (Fresh (ast_counter st) None) (mkAssignment (mk (ast_counter st)) None)),
         (<[i := Some (Fresh (ast_counter st) None)]> os).
  split; [done|]. split_and!; [|by apply extends_insert|].
  - apply (assign_inv_set _ _ _ f); try done. by intros m [= <-].
  - eexists. apply list_lookup_insert_eq. by eapply lookup_lt_Some.
Qed.

Lemma initial_assign_inv :
  assign_inv (mkAssign (replicate (length priors) false) (replicate (length next) None) c0)
    (replicate (length next) None).
Proof.
  assert (∀ {B} (f : origin → option B) n, collect f (replicate n None) = []) as Hempty.
  { intros B f n. unfold collect. by induction n. }
  split; simpl; rewrite ?length_replicate, ?Hempty; try done.
  - intros i a [? _]%lookup_replicate. done.
  - intros i [_ ?]%lookup_replicate. by apply lookup_replicate.
  - constructor.
  - intros p. rewrite elem_of_nil, lookup_replicate. naive_solver.
  - constructor.
  - by intros m ?%not_elem_of_nil.
  - simpl. lia.
Qed.

Lemma assign_spec :
  ∃ out c' os,
    assign mk priors next c0 = Some (out, c') ∧ length out = length next ∧
    c' = (c0 + N.of_nat (length (collect minted_of os)))%N ∧ length os = length next ∧
    (∀ i a, out !! i = Some a →
       ∃ o f, os !! i = Some (Some o) ∧ next !! i = Some f ∧ explains f o a) ∧
    NoDup (collect prior_of os) ∧ NoDup (collect minted_of os) ∧
    (∀ m, m ∈ collect minted_of os → (c0 ≤ m < c')%N) ∧
    (∀ i, i < length next → keeps_zero_diff os i).
Proof.
  unfold assign.
  destruct (sweep_ind (phase1 priors next) (λ done st, ∃ os, after_phase1 done st os)
    (mkAssign (replicate (length priors) false) (replicate (length next) None) c0))
    as (st1 & done1 & -> & (os1 & Hinv1 & _ & _ & Hzero) & Hall1).
  { exists (replicate (length next) None). split_and!; [apply initial_assign_inv|..]; simpl.
    - by intros i o [? _]%lookup_replicate.
    - intros i Hi _. by apply lookup_replicate.
    - by intros i ?%not_elem_of_nil. }
  { intros done st i [os Hos] Hi Hd. destruct (phase1_step done st os i Hos Hi Hd) as (? & ? & ? & ?).
    eauto. }
  simpl. destruct (sweep_ind (phase2 mk priors next) (λ _ st, ∃ os, assign_inv st os ∧ extends os1 os) st1)
    as (st2 & _ & -> & (os2 & Hinv2 & Hext2) & _).
  { by exists os1. }
  { intros _ st i (os & Hos & Hext) Hi _. destruct (phase2_step st os i Hos Hi) as (st' & os' & ? & ? & ?).
    exists st'. split; [done|]. exists os'. split; [done|]. by etrans. }
  simpl. destruct (sweep_ind (phase3 mk)
    (λ done st, ∃ os, assign_inv st os ∧ extends os1 os ∧ ∀ i, i ∈ done → ∃ o, os !! i = Some (Some o)) st2)
    as (st3 & done3 & -> & (os3 & Hinv3 & Hext3 & Hset) & Hall3).
  { exists os2. split_and!; [done..|]. by intros i ?%not_elem_of_nil. }
  { intros done st i (os & Hos & Hext & Hset) Hi _.
    destruct (phase3_step st os i Hos Hi) as (st' & os' & ? & ? & Hext' & Hi').
    exists st'. split; [done|]. exists os'. split_and!; [done|by etrans|].
    intros j [->|[o Ho]%Hset]%elem_of_cons; eauto. }
  simpl. destruct (mapM id (ast_out st3)) as [out|] eqn:Hout.
  2: { apply mapM_None, Exists_exists in Hout as ([a|] & [i Hi]%list_elem_of_lookup & ?); [done|].
       destruct (Hset i) as [o Ho]; [|by rewrite (av_none _ _ Hinv3 i Hi) in Ho].
       apply Hall3. rewrite <-(av_out _ _ Hinv3). by eapply lookup_lt_Some. }
  apply mapM_Some in Hout.
  exists out, (ast_counter st3), os3. simpl. split_and!; try apply Hinv3; [done|..].
  - rewrite <-(av_out _ _ Hinv3). symmetry. by eapply Forall2_length.
  - intros i a Ha. destruct (Forall2_lookup_r _ _ _ _ _ Hout Ha) as (x & Hx & Hxa).
    simpl in Hxa. subst x. by apply (av_some _ _ Hinv3).
  - intros i Hi f q s Hf Hq. destruct (Hzero i (Hall1 i Hi) f q s Hf Hq) as (p & s' & Ho & ? & ?).
    exists p, s'. auto.
Qed.
End assigned.

(** ** Injectivity of the assignment *)

(** The priors of a partition: pairwise distinct ids, none of which a mint from
    [c0] on can produce. *)
Record fresh_namespace (mk : N → SubId) (priors : list (ConcreteFilter * SubId)) (c0 : N) : Prop := {
  fn_priors : NoDup priors.*2;
  fn_mk : Inj (=) (=) mk;
  fn_fresh f s m : (f, s) ∈ priors → (c0 ≤ m)%N → s ≠ mk m
}.

Section injectivity.
Context (mk : N → SubId) (priors : list (ConcreteFilter * SubId)) (next : list ConcreteFilter).
Context (c0 : N) (Hns : fresh_namespace mk priors c0).

Lemma priors_same_sub p q f g s :
  priors !! p = Some (f, s) → priors !! q = Some (g, s) → p = q.
Proof.
  intros Hp Hq. apply (NoDup_lookup priors.*2 p q s); [apply Hns|..]; by rewrite list_lookup_fmap, ?Hp, ?Hq.
Qed.

Lemma collect_same {B} (f : origin → option B) os i j oi oj b :
  NoDup (collect f os) → os !! i = Some (Some oi) → os !! j = Some (Some oj) →
  f oi = Some b → f oj = Some b → i = j.
Proof.
  intros Hnd Hi Hj Hfi Hfj. destruct (decide (i = j)) as [|Hne]; [done|exfalso].
  assert (∀ i j oi oj, i < j → os !! i = Some (Some oi) → os !! j = Some (Some oj) →
            f oi = Some b → f oj = Some b → False) as Hlt.
  { clear i j oi oj Hi Hj Hfi Hfj Hne. intros i j oi oj Hlt Hi Hj Hfi Hfj.
    apply list_elem_of_split_length in Hi as (l1 & l2 & -> & ->).
    rewrite lookup_app_r in Hj by lia. destruct (j - length l1) as [|k] eqn:Hk; [lia|]. simpl in Hj.
    unfold collect in Hnd. rewrite omap_app in Hnd. simpl in Hnd. rewrite Hfi in Hnd.
    apply NoDup_app in Hnd as (_ & _ & Hnd). apply NoDup_cons in Hnd as [Hn _]. apply Hn.
    apply list_elem_of_omap. exists (Some oj). split; [by eapply list_elem_of_lookup_2|done]. }
  destruct (Nat.lt_total i j) as [?|[?|?]]; [|done|]; eapply Hlt; [|exact Hi|exact Hj| | | |exact Hj|exact Hi| |]; done.
Qed.

(** Two assignments with one id, or one naming the other's id as its
    predecessor, have one origin. *)
Lemma explains_same os f g oi oj ai aj (c' : N) :
  (∀ m, m ∈ collect minted_of os → (c0 ≤ m < c')%N) →
  (∀ m, minted_of oi = Some m → m ∈ collect minted_of os) →
  (∀ m, minted_of oj = Some m → m ∈ collect minted_of os) →
  explains mk priors f oi ai → explains mk priors g oj aj → as_sub_id ai = as_sub_id aj →
  (∃ p, oi = Kept p ∧ oj = Kept p) ∨ ∃ m, minted_of oi = Some m ∧ minted_of oj = Some m.
Proof.
  intros Hr Hmi Hmj Hi Hj Heq.
  destruct oi as [p|mi ri], oj as [q|mj rj]; simpl in *.
  - destruct Hi as [Hi _], Hj as [Hj _]. left. exists p. split; [done|].
    rewrite Heq in Hi. by rewrite (priors_same_sub _ _ _ _ _ Hi Hj).
  - destruct Hi as [Hi _]. assert (as_sub_id aj = mk mj) as Hmk by (destruct rj; apply Hj).
    exfalso. apply (fn_fresh _ _ _ Hns f (as_sub_id ai) mj); [by eapply list_elem_of_lookup_2| |congruence].
    destruct (Hr mj); [by apply Hmj|done].
  - destruct Hj as [Hj _]. assert (as_sub_id ai = mk mi) as Hmk by (destruct ri; apply Hi).
    exfalso. apply (fn_fresh _ _ _ Hns g (as_sub_id aj) mi); [by eapply list_elem_of_lookup_2| |congruence].
    destruct (Hr mi); [by apply Hmi|done].
  - assert (as_sub_id ai = mk mi) as Hmki by (destruct ri; apply Hi).
    assert (as_sub_id aj = mk mj) as Hmkj by (destruct rj; apply Hj).
    right. exists mi. split; [done|]. f_equal. apply (fn_mk _ _ _ Hns). congruence.
Qed.

Context (Hwrap : (c0 + N.of_nat (length next) < 2 ^ 64)%N) (Hnext : NoDup next).

Lemma assign_sub_ids :
  ∃ out c',
    assign mk priors next c0 = Some (out, c') ∧ length out = length next ∧
    (c0 ≤ c' ≤ c0 + N.of_nat (length next))%N ∧ NoDup (as_sub_id <$> out) ∧
    ∀ i a f, out !! i = Some a → next !! i = Some f →
      (as_predecessor a = None ∧ (f, as_sub_id a) ∈ priors ∧
       ∀ s, (f, s) ∈ priors → cmp_le (as_sub_id a) s) ∨
      ((∀ s, (f, s) ∉ priors) ∧ ∃ m, (c0 ≤ m < c')%N ∧ as_sub_id a = mk m).
Proof.
  destruct (assign_spec mk priors next c0 Hwrap Hnext)
    as (out & c' & os & Hrun & Hlen & Hc' & Hos & Hex & Hpr & Hmi & Hrange & Hzero).
  exists out, c'. split_and!; [done|done|lia| | |].
  - pose proof (length_collect minted_of os). lia.
  - apply NoDup_alt. intros i j s Hi Hj.
    apply list_lookup_fmap_Some in Hi as (ai & -> & Hi).
    apply list_lookup_fmap_Some in Hj as (aj & Heq & Hj).
    destruct (Hex i ai Hi) as (oi & f & Hoi & _ & Hxi), (Hex j aj Hj) as (oj & g & Hoj & _ & Hxj).
    destruct (explains_same os f g oi oj ai aj c') as [(p & -> & ->)|(m & Hm & Hm')]; try done.
    + intros m Hm. apply elem_of_collect. eauto.
    + intros m Hm. apply elem_of_collect. eauto.
    + by eapply (collect_same prior_of os i j).
    + by eapply (collect_same minted_of os i j).
  - intros i a f Ha Hf. destruct (Hex i a Ha) as (o & f' & Ho & Hf' & Hx). simplify_eq.
    destruct o as [p|m r].
    + left. destruct Hx as [Hp Hpred]. split_and!; [done|by eapply list_elem_of_lookup_2|].
      intros s [q Hq]%list_elem_of_lookup.
      destruct (Hzero i (lookup_lt_Some _ _ _ Hf) f q s Hf Hq) as (p' & s' & Ho' & Hp' & Hle).
      by simplify_eq.
    + right. split.
      * intros s [q Hq]%list_elem_of_lookup.
        destruct (Hzero i (lookup_lt_Some _ _ _ Hf) f q s Hf Hq) as (p' & s' & Ho' & _). by simplify_eq.
      * exists m. split; [apply Hrange, elem_of_collect; eauto|]. destruct r; apply Hx.
Qed.

(** Assigning wire tokens is total and injective. Every filter gets an id no
    other filter gets; a filter some prior carries byte for byte keeps the
    least id of such a prior and replaces nothing; any other filter gets a
    freshly minted id.  A named predecessor is a prior that differs in exactly
    one component, no two filters name the same one, and no predecessor is an
    id still in use. *)
Theorem assign_correct :
  ∃ out c',
    assign mk priors next c0 = Some (out, c') ∧ length out = length next ∧
    (c0 ≤ c' ≤ c0 + N.of_nat (length next))%N ∧ NoDup (as_sub_id <$> out) ∧
    (∀ i a f, out !! i = Some a → next !! i = Some f →
      (as_predecessor a = None ∧ (f, as_sub_id a) ∈ priors ∧
       ∀ s, (f, s) ∈ priors → cmp_le (as_sub_id a) s) ∨
      ((∀ s, (f, s) ∉ priors) ∧ ∃ m, (c0 ≤ m < c')%N ∧ as_sub_id a = mk m)) ∧
    (∀ i a f s, out !! i = Some a → next !! i = Some f → as_predecessor a = Some s →
      (∃ g c, (g, s) ∈ priors ∧ sole_difference g f = Some c) ∧
      (s ∉ as_sub_id <$> out) ∧
      ∀ j b, out !! j = Some b → as_predecessor b = Some s → j = i).
Proof.
  destruct assign_sub_ids as (out & c' & Hrun & Hlen & [Hc1 Hc2] & Hnd & Hids).
  exists out, c'. split_and!; [done..|].
  destruct (assign_spec mk priors next c0 Hwrap Hnext)
    as (out' & c'' & os & Hrun' & _ & _ & _ & Hex & Hpr & _ & Hrange & _).
  rewrite Hrun in Hrun'. injection Hrun' as <- <-.
  assert (∀ i a s, out !! i = Some a → as_predecessor a = Some s → ∃ m p g f c,
    os !! i = Some (Some (Fresh m (Some p))) ∧ next !! i = Some f ∧
    priors !! p = Some (g, s) ∧ sole_difference g f = Some c) as Hpred.
  { intros i a s Ha Hs. destruct (Hex i a Ha) as (o & f & Ho & Hf & Hx).
    destruct o as [p|m [p|]]; simpl in Hx; [destruct Hx as [_ Hx]; congruence| |destruct Hx; congruence].
    destruct Hx as (_ & g & s' & c & Hp & Hs' & Hc). simplify_eq. eauto 10. }
  intros i a f s Ha Hf Hs. destruct (Hpred i a s Ha Hs) as (m & p & g & f' & c & Ho & Hf' & Hp & Hc).
  simplify_eq. split_and!.
  - exists g, c. split; [by eapply list_elem_of_lookup_2|done].
  - intros (b & -> & [j Hj]%list_elem_of_lookup)%list_elem_of_fmap.
    destruct (Hex j b Hj) as (o & h & Hoj & _ & Hx). destruct o as [q|m' r].
    + destruct Hx as [Hq _]. pose proof (priors_same_sub p q g h _ Hp Hq) as ->.
      pose proof (collect_same prior_of os i j _ _ q Hpr Ho Hoj eq_refl eq_refl) as ->.
      simplify_eq.
    + assert (as_sub_id b = mk m') as Hmk by (destruct r; apply Hx).
      apply (fn_fresh _ _ _ Hns g (as_sub_id b) m'); [by eapply list_elem_of_lookup_2| |done].
      destruct (Hrange m'); [apply elem_of_collect; eauto|done].
  - intros j b Hb Hsb. destruct (Hpred j b s Hb Hsb) as (m' & q & h & f' & c2 & Hoj & _ & Hq & _).
    pose proof (priors_same_sub p q g h _ Hp Hq) as ->.
    by eapply (collect_same prior_of os j i).
Qed.
End injectivity.

(** ** Witness *)

Module WireIdSample.
Definition mk (m : N) : SubId := allocate "wss://r" Auto None m.
Definition kind (k : N) : ConcreteFilter := set_kinds (Some {[ k ]}) filter_default.
Definition priors : list (ConcreteFilter * SubId) := [(kind 1, mk 0); (kind 2, mk 1)].
Definition next : list ConcreteFilter :=
  [set_kinds (Some {[ 2%N; 3%N ]}) filter_default; kind 1].

Lemma namespace : fresh_namespace mk priors 2.
Proof.
  split; [decide_now|by intros ?? [=]|].
  intros f s m Hin Hm ->. apply (list_elem_of_fmap_2 (λ p, sub_mint p.2)) in Hin.
  simpl in Hin. apply elem_of_cons in Hin as [-> | ->%list_elem_of_singleton]; lia.
Qed.

(** The unchanged filter keeps its id; the widened one gets a fresh id and
    names the prior it shares a value with. *)
Lemma run : assign mk priors next 2 =
  Some ([mkAssignment (mk 2) (Some (mk 1)); mkAssignment (mk 0) None], 3%N).
Proof. decide_now. Qed.
End WireIdSample.

Lemma assign_correct_witness :
  ∃ out c', assign WireIdSample.mk WireIdSample.priors WireIdSample.next 2 = Some (out, c') ∧
    NoDup (as_sub_id <$> out).
Proof.
  destruct (assign_correct WireIdSample.mk WireIdSample.priors WireIdSample.next 2
    WireIdSample.namespace ltac:(decide_now) ltac:(decide_now)) as (out & c' & Hrun & _ & _ & Hnd & _).
  exists out, c'. exact (conj Hrun Hnd).
Defined.
