(* ===== verification/Plan.v ===== *)
(** * Plan diffing

    [diff_plans] of [crates/nmp-router/src/plan.rs]: the wire operations that
    turn the running plan into the next one.  The reference is the relay's
    side of the protocol: per session, the map from open subscription ids to
    their filters, which [REQ] extends or overwrites and [CLOSE] shrinks. *)

From S2P Require Import Prelude Grammar RouterTypes.

(** [.map(|r| (&r.sub_id, &r.filter)).collect()]: the last request with an id wins. *)
Definition by_sub (reqs : list WireReq) : gmap SubId ConcreteFilter :=
  foldl (λ m r, <[r_sub_id r := r_filter r]> m) ∅ reqs.

(** The body of the loop over sessions; [None] is [continue]. *)
Definition diff_session (prev next : option (list WireReq)) : option (list WireOp) :=
  let prev_by_sub := by_sub (default [] prev) in
  let next_by_sub := by_sub (default [] next) in
  let closes :=
    merge_sort cmp_le
      (filter (λ s, next_by_sub !! s = None) (ordered_map prev_by_sub).*1) in
  let reqs :=
    merge_sort key_le
      (filter (λ p, prev_by_sub !! p.1 ≠ Some p.2) (ordered_map next_by_sub)) in
  if decide (closes = [] ∧ reqs = []) then None
  else Some ((Close <$> closes) ++ ((λ p, Req p.1 p.2) <$> reqs)).

Definition diff_plans (prev next : RelayPlan) : WireDelta :=
  omap (λ session,
          ops ← diff_session (p_reqs prev !! session) (p_reqs next !! session);
          Some (session, ops))
    (ordered (dom (p_reqs prev) ∪ dom (p_reqs next))).

(** ** The relay's side *)

(** The subscriptions a plan keeps open on a session. *)
Definition open_subs (plan : RelayPlan) (session : RelaySessionKey) : gmap SubId ConcreteFilter :=
  by_sub (default [] (p_reqs plan !! session)).

Definition apply_op (subs : gmap SubId ConcreteFilter) (op : WireOp) : gmap SubId ConcreteFilter :=
  match op with
  | Req s f => <[s := f]> subs
  | Close s => delete s subs
  end.

Definition apply_delta (subs : RelaySessionKey → gmap SubId ConcreteFilter) (delta : WireDelta)
    : RelaySessionKey → gmap SubId ConcreteFilter :=
  foldl (λ subs p session,
           if decide (session = p.1) then foldl apply_op (subs session) p.2 else subs session)
    subs delta.

(** ** Correctness of the delta *)

Lemma foldl_close subs ss s :
  foldl apply_op subs (Close <$> ss) !! s = if decide (s ∈ ss) then None else subs !! s.
Proof.
  revert subs. induction ss as [|t ss IH]; intros subs.
  - by rewrite decide_False by apply not_elem_of_nil.
  - rewrite fmap_cons. cbn [foldl apply_op]. rewrite IH. destruct (decide (s ∈ ss)) as [Hin|Hin].
    + by rewrite decide_True by set_solver.
    + destruct (decide (s = t)) as [->|].
      * by rewrite lookup_delete_eq, decide_True by left.
      * by rewrite lookup_delete_ne, decide_False by set_solver.
Qed.

Lemma foldl_req subs (l : list (SubId * ConcreteFilter)) s :
  NoDup l.*1 →
  foldl apply_op subs ((λ p, Req p.1 p.2) <$> l) !! s =
    match (list_to_map l : gmap SubId ConcreteFilter) !! s with Some f => Some f | None => subs !! s end.
Proof.
  revert subs. induction l as [|[t f] l IH]; intros subs Hnd; csimpl; [done|].
  apply NoDup_cons in Hnd as [Ht Hnd]. rewrite IH by done.
  destruct (decide (s = t)) as [->|].
  - by rewrite not_elem_of_list_to_map_1, !lookup_insert_eq by done.
  - by rewrite !lookup_insert_ne by done.
Qed.

(** The two sorted lists of [diff_session], by membership. *)
Lemma diff_session_ops prev next ops :
  diff_session prev next = Some ops →
  ∃ closes reqs,
    ops = (Close <$> closes) ++ ((λ p, Req p.1 p.2) <$> reqs) ∧
    NoDup closes ∧ NoDup reqs.*1 ∧ ¬ (closes = [] ∧ reqs = []) ∧
    (∀ s, s ∈ closes ↔ is_Some (by_sub (default [] prev) !! s) ∧ by_sub (default [] next) !! s = None) ∧
    (∀ s f, (s, f) ∈ reqs ↔ by_sub (default [] next) !! s = Some f ∧ by_sub (default [] prev) !! s ≠ Some f).
Proof.
  unfold diff_session. case_decide as Hempty; [done|]. intros [= <-].
  eexists _, _. split; [done|]. split_and!.
  - rewrite merge_sort_Permutation. apply NoDup_filter, NoDup_ordered_map_fst.
  - rewrite merge_sort_Permutation.
    eapply sublist_NoDup, fmap_sublist, sublist_filter. apply NoDup_ordered_map_fst.
  - done.
  - intros s. rewrite merge_sort_Permutation, list_elem_of_filter, elem_of_ordered_map_fst. tauto.
  - intros s f. rewrite merge_sort_Permutation, list_elem_of_filter, elem_of_ordered_map. simpl. tauto.
Qed.

Lemma diff_session_refines prev next :
  foldl apply_op (by_sub (default [] prev)) (default [] (diff_session prev next))
  = by_sub (default [] next).
Proof.
  destruct (diff_session prev next) as [ops|] eqn:Hops.
  - apply diff_session_ops in Hops as (closes & reqs & -> & _ & Hnd & _ & Hclose & Hreq).
    apply map_eq. intros s. simpl. rewrite foldl_app, foldl_req, foldl_close by done.
    destruct (list_to_map reqs !! s) as [f|] eqn:Hf.
    + apply elem_of_list_to_map_2, Hreq in Hf as [-> _]. done.
    + case_decide as Hin; [by apply Hclose in Hin as [_ ->]|].
      destruct (by_sub (default [] next) !! s) as [f|] eqn:Hn.
      * destruct (decide (by_sub (default [] prev) !! s = Some f)) as [|Hne]; [done|].
        apply not_elem_of_list_to_map_2 in Hf. destruct Hf. apply list_elem_of_fmap.
        exists (s, f). split; [done|]. by apply Hreq.
      * apply eq_None_not_Some. intros Hsome. apply Hin, Hclose. done.
  - unfold diff_session in Hops. case_decide as Hempty; [|done]. destruct Hempty as [Hc Hr]. simpl.
    assert (∀ s, is_Some (by_sub (default [] prev) !! s) → by_sub (default [] next) !! s ≠ None) as Hdom.
    { intros s Hs Hn. apply (not_elem_of_nil s). rewrite <-Hc, merge_sort_Permutation.
      by apply list_elem_of_filter; rewrite elem_of_ordered_map_fst. }
    assert (∀ s f, by_sub (default [] next) !! s = Some f → by_sub (default [] prev) !! s = Some f) as Hsub.
    { intros s f Hf. apply dec_stable. intros Hne. apply (not_elem_of_nil (s, f)).
      rewrite <-Hr, merge_sort_Permutation. by apply list_elem_of_filter; rewrite elem_of_ordered_map. }
    apply map_eq. intros s. destruct (by_sub (default [] next) !! s) as [f|] eqn:Hn; [by apply Hsub|].
    apply eq_None_not_Some. intros Hs. by apply (Hdom s Hs).
Qed.

Lemma elem_of_diff_plans prev next session ops :
  (session, ops) ∈ diff_plans prev next ↔
  diff_session (p_reqs prev !! session) (p_reqs next !! session) = Some ops.
Proof.
  unfold diff_plans. rewrite list_elem_of_omap. split.
  - intros (session' & _ & Hs). destruct (diff_session _ _) eqn:Hd; by simplify_eq/=.
  - intros Hd. exists session. rewrite Hd. split; [|done]. apply elem_of_ordered.
    destruct (decide (session ∈ dom (p_reqs prev) ∪ dom (p_reqs next))) as [|Hn]; [done|].
    apply not_elem_of_union in Hn as [Hp%not_elem_of_dom Hq%not_elem_of_dom].
    by rewrite Hp, Hq in Hd.
Qed.

Lemma NoDup_diff_plans prev next : NoDup (diff_plans prev next).*1.
Proof.
  unfold diff_plans.
  pose proof (NoDup_ordered (dom (p_reqs prev) ∪ dom (p_reqs next))) as Hnd.
  induction Hnd as [|session l Hs _ IH]; csimpl; [constructor|].
  destruct (diff_session _ _); csimpl; [|done]. constructor; [|done].
  intros ([s ops] & -> & Hin)%list_elem_of_fmap.
  apply list_elem_of_omap in Hin as (s' & Hs' & Hd). destruct (diff_session _ _) in Hd; by simplify_eq/=.
Qed.

Lemma apply_delta_lookup subs delta session :
  NoDup delta.*1 →
  apply_delta subs delta session =
    foldl apply_op (subs session) (default [] ((list_to_map delta : gmap _ _) !! session)).
Proof.
  unfold apply_delta. revert subs. induction delta as [|[s ops] delta IH]; intros subs Hnd; [done|].
  apply NoDup_cons in Hnd as [Hs Hnd]. csimpl. rewrite IH by done.
  destruct (decide (session = s)) as [->|].
  - by rewrite not_elem_of_list_to_map_1, lookup_insert_eq by done.
  - by rewrite lookup_insert_ne by done.
Qed.

(** The delta is correct and minimal. Applied to the subscriptions the
    previous plan keeps open it yields, on every session, exactly those of the
    next plan; it closes only what the next plan dropped, sends only a request
    that is new or whose filter changed, lists a session at most once and only
    when it has an operation, and touches no subscription twice. *)
Theorem diff_plans_correct prev next :
  (∀ session, apply_delta (open_subs prev) (diff_plans prev next) session = open_subs next session) ∧
  NoDup (diff_plans prev next).*1 ∧
  (∀ session ops, (session, ops) ∈ diff_plans prev next →
     ops ≠ [] ∧ NoDup ((λ op, match op with Req s _ | Close s => s end) <$> ops) ∧
     (∀ s, Close s ∈ ops → is_Some (open_subs prev session !! s) ∧ open_subs next session !! s = None) ∧
     (∀ s f, Req s f ∈ ops →
        open_subs next session !! s = Some f ∧ open_subs prev session !! s ≠ Some f)).
Proof.
  split_and!; [|apply NoDup_diff_plans|].
  - intros session. rewrite apply_delta_lookup by apply NoDup_diff_plans. unfold open_subs.
    rewrite <-(diff_session_refines (p_reqs prev !! session) (p_reqs next !! session)). do 2 f_equal.
    apply option_eq. intros ops. rewrite <-elem_of_diff_plans.
    symmetry. apply elem_of_list_to_map, NoDup_diff_plans.
  - intros session ops Hin%elem_of_diff_plans.
    apply diff_session_ops in Hin as (closes & reqs & -> & Hc & Hr & Hne & Hclose & Hreq).
    unfold open_subs. split_and!.
    + destruct closes, reqs; naive_solver.
    + rewrite fmap_app, <-!list_fmap_compose. apply NoDup_app. split_and!.
      * by rewrite list_fmap_id.
      * intros s (s' & -> & Hs%Hclose)%list_elem_of_fmap ([t f] & Heq & Ht%Hreq)%list_elem_of_fmap.
        simplify_eq/=. destruct Hs as [_ Hs], Ht as [Ht _]. congruence.
      * done.
    + intros s [(s' & [= ->] & ?%Hclose)%list_elem_of_fmap|(? & ? & _)%list_elem_of_fmap]%elem_of_app; done.
    + intros s f [(? & ? & _)%list_elem_of_fmap|([t g] & [= -> ->] & ?%Hreq)%list_elem_of_fmap]%elem_of_app; done.
Qed.
