(* ===== verification/Route.v ===== *)
(** * Route formation

    [crates/nmp-router/src/route.rs]: the author-erased skeleton of a filter,
    the classification of an atom by its declared routing, the candidate lists
    the solver works on, and the routes each lane contributes.  [None] is the
    panic of an [expect]. *)

From S2P Require Import Prelude Grammar RouterTypes Solver.

(** [Skeleton(ConcreteFilter)]. *)
Record Skeleton := mkSkeleton { sk_filter : ConcreteFilter }.

#[global] Instance Skeleton_eq_dec : EqDecision Skeleton.
Proof. solve_decision. Defined.
#[global] Instance Skeleton_countable : Countable Skeleton.
Proof. by refine (inj_countable' sk_filter mkSkeleton _); intros []. Defined.
#[global] Instance Skeleton_ord : Ord Skeleton := ord_via sk_filter.
#[global] Instance Skeleton_ord_laws : OrdLaws Skeleton.
Proof. apply ord_via_laws. by intros [] [] [= ->]. Qed.

Inductive AtomClass := ClassAuto | ClassExact (relays : gset RelayUrl).

Definition classify (routing : ReadRouting) : AtomClass :=
  match routing with
  | Auto => ClassAuto
  | Explicit relays => ClassExact (list_to_set relays)
  end.

Section skeleton.
Context `{HexCodec}.

(** [Skeleton::of]. *)
Definition skeleton_of (atom : ConcreteFilter) : option (Skeleton * gset PublicKey) :=
  authors ← mapM pk_from_hex (default [] (ordered <$> f_authors atom));
  Some (mkSkeleton (set_authors None atom), list_to_set authors).

(** [Skeleton::with_authors]. *)
Definition with_authors (sk : Skeleton) (authors : gset PublicKey) : ConcreteFilter :=
  set_authors (if decide (authors = ∅) then None
               else Some (list_to_set (pk_to_hex <$> ordered authors))) (sk_filter sk).

Definition outbox_authors (atom : ConcreteFilter) (routing : ReadRouting) : option (gset PublicKey) :=
  match routing with
  | Auto => snd <$> skeleton_of atom
  | Explicit _ => Some ∅
  end.
End skeleton.

(** A route: the relay and why it is there. *)
Abbreviation LaneRoute := (RelayUrl * RouteProvenance)%type.

Section routes.
Context `{RoutingFacts}.

Definition author_candidates (author : PublicKey) : list LanedRelay :=
  match author_routes author with
  | Present routes => (λ url, mkLaned url AuthorOutbound) <$> ordered (outbound routes)
  | Unknown | Absent => []
  end.

Definition build_candidates (authors : gset PublicKey) : gmap PublicKey (list LanedRelay) :=
  list_to_map ((λ author, (author, author_candidates author)) <$> ordered authors).

Definition evidence_lane (origin : RoutingEvidenceKind) : Lane :=
  match origin with Hint => LaneHint | SourceProvenance => Provenance end.

(** The inner loop over one author's evidence. *)
Definition add_evidence (l : list LanedRelay) (fact : RoutingEvidence) : list LanedRelay :=
  if decide (ev_relay fact ∈ lr_url <$> l) then l
  else l ++ [mkLaned (ev_relay fact) (evidence_lane (ev_origin fact))].

Definition add_projected_candidates (candidates : gmap PublicKey (list LanedRelay))
    (evidence_by_author : gmap PublicKey (gset RoutingEvidence))
    : gmap PublicKey (list LanedRelay) :=
  foldl (λ cs p, <[p.1 := foldl add_evidence (default [] (cs !! p.1)) (ordered p.2)]> cs)
    candidates (ordered_map evidence_by_author).

Definition provenance_for_projected (evidence : gset RoutingEvidence) : list LaneRoute :=
  (λ fact, (ev_relay fact,
            mkProv (ev_relay fact) (evidence_lane (ev_origin fact)) ∅ KSupplemental))
  <$> ordered evidence.

Definition operator_app_routes (covers_authors : gset PublicKey) : list LaneRoute :=
  (λ relay, (relay, mkProv relay OperatorApp covers_authors KSupplemental)) <$> operator_app_relays.

Definition operator_fallback_routes (shortfall_authors : gset PublicKey) : list LaneRoute :=
  if decide (shortfall_authors = ∅ ∨ operator_app_relays ≠ []) then []
  else (λ relay, (relay, mkProv relay OperatorFallback shortfall_authors KSupplemental))
       <$> operator_fallback_relays.

Definition lane_of (candidates : gmap PublicKey (list LanedRelay)) (author : PublicKey)
    (relay : RelayUrl) : option Lane :=
  l ← candidates !! author;
  candidate ← head (filter (λ c, lr_url c = relay) l);
  Some (lr_lane candidate).

(** [provenance_for_coverage]: one route per assigned (author, relay) pair, in
    the order of the assignment. *)
Definition provenance_for_coverage (coverage : CoverageResult)
    (candidates : gmap PublicKey (list LanedRelay)) : option (list LaneRoute) :=
  mapM (λ p : PublicKey * RelayUrl,
          let '(author, relay) := p in
          lane ← lane_of candidates author relay;
          Some (relay, mkProv relay lane {[ author ]} KCoverage))
    (p ← ordered_map (assignment coverage); relay ← ordered p.2; [(p.1, relay)]).

Definition provenance_for_exact (relays : gset RelayUrl) : list LaneRoute :=
  (λ relay, (relay, mkProv relay LaneExact ∅ KExact)) <$> ordered relays.
End routes.

(** ** Skeletons and matching *)

Section skeleton_facts.
Context `{HexLaws}.

Lemma skeleton_of_Some f sk authors :
  skeleton_of f = Some (sk, authors) →
  sk = mkSkeleton (set_authors None f) ∧
  ∀ p, p ∈ authors ↔ ∃ X s, f_authors f = Some X ∧ s ∈ X ∧ pk_from_hex s = Some p.
Proof.
  unfold skeleton_of. destruct (mapM _ _) as [ps|] eqn:Hps; simpl; [|done]. intros [= <- <-].
  split; [done|]. intros p. rewrite elem_of_list_to_set. apply mapM_Some in Hps.
  destruct (f_authors f) as [X|]; simpl in Hps.
  - split.
    + intros [i Hi]%list_elem_of_lookup. destruct (Forall2_lookup_r _ _ _ _ _ Hps Hi) as (s & Hs & Hp).
      exists X, s. split_and!; [done| |done]. apply elem_of_ordered. by eapply list_elem_of_lookup_2.
    + intros (? & s & [= <-] & [i Hi]%elem_of_ordered%list_elem_of_lookup & Hp).
      destruct (Forall2_lookup_l _ _ _ _ _ Hps Hi) as (p' & Hp' & Heq). simplify_eq.
      by eapply list_elem_of_lookup_2.
  - apply Forall2_nil_inv_l in Hps as ->. split; [by intros ?%not_elem_of_nil|naive_solver].
Qed.

Lemma skeleton_of_parses f sk authors X s :
  skeleton_of f = Some (sk, authors) → f_authors f = Some X → s ∈ X → is_Some (pk_from_hex s).
Proof.
  unfold skeleton_of. intros Hsk HX Hs. rewrite HX in Hsk. simpl in Hsk.
  destruct (mapM _ _) as [ps|] eqn:Hps; [|done]. apply mapM_Some in Hps.
  apply elem_of_ordered, list_elem_of_lookup in Hs as [i Hi].
  destruct (Forall2_lookup_l _ _ _ _ _ Hps Hi) as (p & _ & ?). by exists p.
Qed.

Lemma skeleton_of_total f : parses pk_from_hex (f_authors f) → is_Some (skeleton_of f).
Proof.
  intros Hf. unfold skeleton_of.
  assert (is_Some (mapM pk_from_hex (default [] (ordered <$> f_authors f)))) as [ps ->]; [|by eexists].
  apply mapM_is_Some, Forall_forall. intros s. destruct (f_authors f) as [X|]; simpl in *.
  - intros Hs%elem_of_ordered. by apply Hf.
  - by intros ?%not_elem_of_nil.
Qed.

Lemma with_authors_matches sk authors e :
  f_authors (sk_filter sk) = None →
  concrete_matches (with_authors sk authors) e ↔
  concrete_matches (sk_filter sk) e ∧ (authors = ∅ ∨ e_pubkey e ∈ authors).
Proof.
  intros Hsk. unfold concrete_matches, with_authors, set_authors. simpl. rewrite Hsk.
  destruct (decide (authors = ∅)) as [Hempty|Hne]; [simpl; tauto|]. simpl.
  assert ((list_to_set (pk_to_hex <$> ordered authors) = (∅ : gset string) ∨
    ∃ s, s ∈ (list_to_set (pk_to_hex <$> ordered authors) : gset string) ∧ pk_from_hex s = Some (e_pubkey e))
    ↔ e_pubkey e ∈ authors) as ->; [|tauto].
  setoid_rewrite elem_of_list_to_set. setoid_rewrite list_elem_of_fmap. split.
  - intros [Hbad|(s & (p & -> & Hp%elem_of_ordered) & Hs)].
    + destruct Hne. apply elem_of_equiv_empty_L. intros p Hp%elem_of_ordered.
      apply (not_elem_of_empty (C := gset string) (pk_to_hex p)). rewrite <-Hbad.
      apply elem_of_list_to_set, list_elem_of_fmap. eauto.
    + rewrite pk_from_to_hex in Hs. by simplify_eq.
  - intros Hp. right. exists (pk_to_hex (e_pubkey e)). rewrite pk_from_to_hex. split; [|done].
    exists (e_pubkey e). by rewrite elem_of_ordered.
Qed.

(** An atom's selection is its skeleton restricted to its authors. *)
Lemma skeleton_of_matches f sk authors e :
  skeleton_of f = Some (sk, authors) → concrete_matches f e →
  concrete_matches (sk_filter sk) e ∧
  (f_authors f = None ∨ f_authors f = Some ∅ ∨ e_pubkey e ∈ authors).
Proof.
  intros [-> Hauth]%skeleton_of_Some (Hk & Ha & Hrest). split.
  - split; [done|]. split; [done|]. apply Hrest.
  - destruct (f_authors f) as [X|] eqn:HX; [right|by left]. destruct Ha as [->|(s & Hs & Hp)]; [by left|right].
    apply Hauth. eauto.
Qed.
End skeleton_facts.

(** ** Candidates and coverage routes *)

Section route_facts.
Context `{RoutingFacts}.

Lemma build_candidates_lookup authors a :
  build_candidates authors !! a =
    if decide (a ∈ authors) then Some (author_candidates a) else None.
Proof.
  unfold build_candidates. case_decide as Ha.
  - apply elem_of_list_to_map_1'.
    + by intros l (b & [= -> ->] & _)%list_elem_of_fmap.
    + apply list_elem_of_fmap. exists a. by rewrite elem_of_ordered.
  - apply not_elem_of_list_to_map_1. rewrite <-list_fmap_compose. simpl.
    intros (b & -> & Hb%elem_of_ordered)%list_elem_of_fmap. done.
Qed.

Lemma foldl_add_evidence_prefix l facts : l `prefix_of` foldl add_evidence l facts.
Proof.
  revert l. induction facts as [|f facts IH]; intros l; simpl; [done|].
  etrans; [|apply IH]. unfold add_evidence. case_decide; [done|]. by apply prefix_app_r.
Qed.

Lemma add_projected_lookup cs ev a :
  add_projected_candidates cs ev !! a =
    match ev !! a with
    | Some facts => Some (foldl add_evidence (default [] (cs !! a)) (ordered facts))
    | None => cs !! a
    end.
Proof.
  unfold add_projected_candidates.
  cut (∀ l : list (PublicKey * gset RoutingEvidence), NoDup l.*1 →
    foldl (λ cs p, <[p.1 := foldl add_evidence (default [] (cs !! p.1)) (ordered p.2)]> cs) cs l !! a =
    match (list_to_map l : gmap _ _) !! a with
    | Some facts => Some (foldl add_evidence (default [] (cs !! a)) (ordered facts))
    | None => cs !! a
    end).
  { intros Hl. by rewrite Hl, list_to_ordered_map by apply NoDup_ordered_map_fst. }
  intros l. revert cs. induction l as [|[b facts] l IH]; intros cs Hnd; csimpl; [done|].
  apply NoDup_cons in Hnd as [Hb Hnd]. rewrite IH by done.
  destruct (decide (a = b)) as [->|].
  - by rewrite not_elem_of_list_to_map_1, !lookup_insert_eq by done.
  - by rewrite !lookup_insert_ne by done.
Qed.

Lemma lane_of_total cs a l u :
  cs !! a = Some l → u ∈ distinct l → is_Some (lane_of cs a u).
Proof.
  intros Hl Hu. unfold lane_of. rewrite Hl. simpl.
  apply elem_of_distinct, list_elem_of_fmap in Hu as (c & -> & Hc).
  destruct (filter (λ d, lr_url d = lr_url c) l) as [|d ds] eqn:Hf; simpl; [|by eexists].
  exfalso. apply (not_elem_of_nil c). rewrite <-Hf. by apply list_elem_of_filter.
Qed.

(** Coverage routes name exactly the assigned (author, relay) pairs. *)
Lemma provenance_for_coverage_spec cov cs :
  (∀ a g, assignment cov !! a = Some g → ∃ l, cs !! a = Some l ∧ g ⊆ distinct l) →
  ∃ routes, provenance_for_coverage cov cs = Some routes ∧
    (∀ r, r ∈ routes → ∃ a g, assignment cov !! a = Some g ∧ r.1 ∈ g ∧ rp_covers_authors r.2 = {[ a ]}) ∧
    (∀ a g u, assignment cov !! a = Some g → u ∈ g →
       ∃ r, r ∈ routes ∧ r.1 = u ∧ rp_covers_authors r.2 = {[ a ]}).
Proof.
  intros Hok. unfold provenance_for_coverage.
  set (pairs := p ← ordered_map (assignment cov); relay ← ordered p.2; [(p.1, relay)]).
  assert (∀ a u, (a, u) ∈ pairs ↔ ∃ g, assignment cov !! a = Some g ∧ u ∈ g) as Hpairs.
  { intros a u. unfold pairs. rewrite list_elem_of_bind. split.
    - intros ([b g] & (v & Hv & Hu%elem_of_ordered)%list_elem_of_bind & Hb%elem_of_ordered_map).
      apply list_elem_of_singleton in Hv as [= -> ->]. simpl in Hu. eauto.
    - intros (g & Hg & Hu). exists (a, g). rewrite elem_of_ordered_map. split; [|done].
      apply list_elem_of_bind. exists u. rewrite elem_of_ordered. split; [|done]. by left. }
  destruct (mapM _ pairs) as [routes|] eqn:Hm.
  2: { apply mapM_None, Exists_exists in Hm as ([a u] & (g & Hg & Hu)%Hpairs & Hnone).
       destruct (Hok a g Hg) as (l & Hl & Hsub).
       destruct (lane_of_total cs a l u Hl) as [lane Hlane]; [by apply Hsub|]. by rewrite Hlane in Hnone. }
  apply mapM_Some in Hm. exists routes. split; [done|]. split.
  - intros r [i Hi]%list_elem_of_lookup. destruct (Forall2_lookup_r _ _ _ _ _ Hm Hi) as ([a u] & Hau & Hr).
    apply list_elem_of_lookup_2, Hpairs in Hau as (g & Hg & Hu).
    destruct (lane_of cs a u); simplify_eq/=. eauto.
  - intros a g u Hg Hu. assert ((a, u) ∈ pairs) as [i Hi]%list_elem_of_lookup by (apply Hpairs; eauto).
    destruct (Forall2_lookup_l _ _ _ _ _ Hm Hi) as (r & Hr & Heq).
    exists r. split; [by eapply list_elem_of_lookup_2|]. destruct (lane_of cs a u); by simplify_eq/=.
Qed.
End route_facts.
