(* ===== verification/Router.v ===== *)
(** * The planning core

    [compile_demand] of [crates/nmp-router/src/router.rs] and the functions it
    is made of: group the demand, route every group through its lanes,
    materialize the per-session bag, apply the relay ceiling, coalesce each
    context partition, assign wire tokens, apply each relay's subscription
    budget and report what was cut.  [reduce_outbox_shortfall] is from
    [ownership.rs].

    A [BTreeMap] is a [gmap] walked in key order; [None] is a panic (a malformed
    author, an [expect], or the final injectivity assertion).  The hash that
    breaks ties in [refuse_over_budget] is the parameter [FilterHash]: the
    BLAKE3 digest of [nmp_grammar::ConcreteFilter::hash]. *)

From S2P Require Import Prelude Grammar Coverage RouterTypes Component Coalesce Solver WireId Route.

Class FilterHash := filter_hash : ConcreteFilter → N.

(** ** The bag *)

Abbreviation SourceBag := (gmap ReadRouting (list Entry)).
Abbreviation SessionBag := (gmap RelaySessionKey SourceBag).

(** [bag.entry(session).or_default().entry(source).or_default().push(entry)]. *)
Definition bag_push (bag : SessionBag) (session : RelaySessionKey) (source : ReadRouting)
    (entry : Entry) : SessionBag :=
  let by_source := default ∅ (bag !! session) in
  <[session := <[source := default [] (by_source !! source) ++ [entry]]> by_source]> bag.

Definition push_routes (bag : SessionBag) (filter : ConcreteFilter) (source : ReadRouting)
    (authenticate_as : option PublicKey) (routes : list LaneRoute) (ownership : EntryOwnership)
    : SessionBag :=
  foldl (λ bag r, bag_push bag (mkSession r.1 authenticate_as) source
                    (mkEntry filter [r.2] ownership)) bag routes.

(** ** The relay ceiling *)

Record RelayCapOutcome := mkCapOutcome {
  co_limited_demands : gset DemandKey;
  co_refused_sessions : gset RelaySessionKey;
  co_refused_demands : gmap RelaySessionKey (gset DemandKey);
  co_refused_coverage_assignments : gset (DemandKey * PublicKey)
}.

(** [by_source.values().flatten()]. *)
Definition bag_entries (by_source : SourceBag) : list Entry := concat (ordered_map by_source).*2.

Definition Ranked : Type := RelaySessionKey * (nat * nat).

Definition rank_session (p : RelaySessionKey * SourceBag) : Ranked :=
  let entries := bag_entries p.2 in
  (p.1, (size (⋃ ((λ e, o_assignments (en_own e)) <$> entries)),
         sum_list ((λ e, Nat.max (Nat.max (length (en_prov e)) (size (o_claims (en_own e)))) 1)
                   <$> entries))).

(** The comparator of [ranked.sort_by]. *)
Definition rank_le (a b : Ranked) : Prop :=
  then_with (Nat.compare b.2.1 a.2.1)
    (then_with (Nat.compare b.2.2 a.2.2) (cmp a.1 b.1)) ≠ Gt.
#[global] Instance rank_le_dec a b : Decision (rank_le a b).
Proof. unfold rank_le. apply _. Defined.

Definition apply_global_relay_cap (bag : SessionBag) (cap : nat) : SessionBag * RelayCapOutcome :=
  if size bag <=? cap then (bag, mkCapOutcome ∅ ∅ ∅ ∅)
  else
    let ranked := merge_sort rank_le (rank_session <$> ordered_map bag) in
    let selected : gset RelaySessionKey := list_to_set (take cap ranked).*1 in
    let refused := filter (λ p, p.1 ∉ selected) (ordered_map bag) in
    let refused_entries := p ← refused; (λ e, (p.1, en_own e)) <$> bag_entries p.2 in
    (filter (λ p, p.1 ∈ selected) bag,
     mkCapOutcome
       (⋃ ((λ e, o_demands e.2) <$> refused_entries))
       (list_to_set refused.*1)
       (foldl (λ m e, <[e.1 := default ∅ (m !! e.1) ∪ o_demands e.2]> m) ∅ refused_entries)
       (⋃ ((λ e, o_assignments e.2) <$> refused_entries))).

(** ** The per-relay subscription budget *)

Section refuse.
Context `{FilterHash}.

Definition request_le (incumbents : gset SubId) (a b : WireReq) : Prop :=
  let incumbent r := if decide (r_sub_id r ∈ incumbents) then 1 else 0 in
  then_with (Nat.compare (incumbent b) (incumbent a))
    (then_with (Nat.compare (size (r_coverage_assignments b)) (size (r_coverage_assignments a)))
      (then_with (Nat.compare (size (r_coverage_claims b)) (size (r_coverage_claims a)))
        (then_with (Nat.compare (size (r_provenance b)) (size (r_provenance a)))
          (N.compare (filter_hash (r_filter a)) (filter_hash (r_filter b)))))) ≠ Gt.
#[global] Instance request_le_dec incumbents a b : Decision (request_le incumbents a b).
Proof. unfold request_le. apply _. Defined.

Definition sub_le (a b : WireReq) : Prop := cmp_le (r_sub_id a) (r_sub_id b).
#[global] Instance sub_le_dec a b : Decision (sub_le a b).
Proof. unfold sub_le. apply _. Defined.

(** [refuse_over_budget]: the requests kept, in token order, and those refused. *)
Definition refuse_over_budget (session_reqs : list WireReq) (allowed : nat)
    (prior_reqs : option (list WireReq)) : list WireReq * list WireReq :=
  let incumbents : gset SubId := list_to_set (r_sub_id <$> default [] prior_reqs) in
  let ranked := merge_sort (request_le incumbents) session_reqs in
  let at_ := Nat.min allowed (length ranked) in
  (merge_sort sub_le (take at_ ranked), drop at_ ranked).
End refuse.

(** ** Ownership *)

Definition exact_atom_ownership (atom : ContextualAtom) : EntryOwnership :=
  mkOwn (list_to_set (coverage_key <$> ordered (coverage_claim_atoms atom)))
    {[ demand_for_atom atom ]} ∅.

Record AutoAtomGroup := mkGroup {
  g_evidence_by_author : gmap PublicKey (gset RoutingEvidence);
  g_routing_evidence : gset RoutingEvidence;
  g_authors : gset PublicKey;
  g_unbounded : bool;
  g_demands : gset DemandKey;
  g_authors_by_demand : gmap DemandKey (gset PublicKey)
}.

Definition group_default : AutoAtomGroup := mkGroup ∅ ∅ ∅ false ∅ ∅.

Section ownership.
Context `{HexCodec}.

Definition auto_ownership (skeleton : Skeleton) (authenticate_as : option PublicKey)
    (group : AutoAtomGroup) (authors coverage_authors : gset PublicKey) (unbounded : bool)
    : EntryOwnership :=
  let claims : gset CoverageKey := list_to_set
    ((λ author, coverage_key
        (mkAtom (with_authors skeleton {[ author ]}) Auto authenticate_as
           (default ∅ (g_evidence_by_author group !! author)))) <$> ordered authors) in
  let owners : gset DemandKey := list_to_set
    (filter (λ p, authors ∩ p.2 ≠ ∅) (ordered_map (g_authors_by_demand group))).*1 in
  let assignments := list_to_set
    (p ← ordered_map (g_authors_by_demand group);
     (λ author, (p.1, author)) <$> ordered (coverage_authors ∩ p.2)) in
  if unbounded then
    mkOwn ({[ coverage_key (mkAtom (with_authors skeleton ∅) Auto authenticate_as
                              (g_routing_evidence group)) ]} ∪ claims)
      (owners ∪ list_to_set
         (filter (λ p, p.2 = ∅) (ordered_map (g_authors_by_demand group))).*1)
      assignments
  else mkOwn claims owners assignments.
End ownership.

(** ** Step 1: group the demand *)

Abbreviation GroupKey := (Skeleton * option PublicKey)%type.

Record Grouped := mkGrouped {
  gr_auto : gmap GroupKey AutoAtomGroup;
  gr_authors_by_demand : gmap DemandKey (gset PublicKey);
  gr_exact : list (ContextualAtom * gset RelayUrl)
}.

(** The updates one [Auto] atom makes to its group. *)
Definition add_to_group (atom : ContextualAtom) (authors : gset PublicKey) (group : AutoAtomGroup)
    : AutoAtomGroup :=
  let demand := demand_for_atom atom in
  mkGroup
    (foldl (λ m author, <[author := default ∅ (m !! author) ∪ a_routing_evidence atom]> m)
       (g_evidence_by_author group) (ordered authors))
    (g_routing_evidence group ∪ a_routing_evidence atom)
    (g_authors group ∪ authors)
    (bool_decide (f_authors (a_filter atom) = None) || g_unbounded group)
    ({[ demand ]} ∪ g_demands group)
    (<[demand := authors]> (g_authors_by_demand group)).

Section compile.
Context `{HexCodec, RoutingFacts, FilterHash}.

Definition group_atom (gr : Grouped) (atom : ContextualAtom) : option Grouped :=
  match classify (a_routing atom) with
  | ClassAuto =>
      p ← skeleton_of (a_filter atom);
      let '(skeleton, authors) := p in
      let key := (skeleton, a_authenticate_as atom) in
      let group := default group_default (gr_auto gr !! key) in
      Some (mkGrouped (<[key := add_to_group atom authors group]> (gr_auto gr))
              (<[demand_for_atom atom := authors]> (gr_authors_by_demand gr)) (gr_exact gr))
  | ClassExact relays =>
      Some (mkGrouped (gr_auto gr) (gr_authors_by_demand gr) (gr_exact gr ++ [(atom, relays)]))
  end.

Definition group_demand (demand : gset ContextualAtom) : option Grouped :=
  foldl (λ o atom, gr ← o; group_atom gr atom) (Some (mkGrouped ∅ ∅ [])) (ordered demand).

(** ** Steps 2 and 3: route every group and materialize the bag *)

Definition Uncovered : Type := gmap DemandKey (gmap PublicKey Shortfall).

(** [usize::MAX]. *)
Definition usize_max : N := 2 ^ 64 - 1.

Definition group_candidates (group : AutoAtomGroup) : gmap PublicKey (list LanedRelay) :=
  add_projected_candidates (build_candidates (g_authors group)) (g_evidence_by_author group).

(** The loop over the group's demands. *)
Fixpoint record_uncovered (coverage : CoverageResult) (group : AutoAtomGroup)
    (demands : list DemandKey) (uncovered : Uncovered) : option Uncovered :=
  match demands with
  | [] => Some uncovered
  | demand :: demands =>
      authors ← g_authors_by_demand group !! demand;
      let exact : gmap PublicKey Shortfall := list_to_map
        (omap (λ author, fact ← shortfall coverage !! author; Some (author, fact))
           (ordered authors)) in
      record_uncovered coverage group demands
        (if decide (exact = ∅) then uncovered else <[demand := exact]> uncovered)
  end.

(** The fold that makes [by_relay]. *)
Definition add_by_relay (m : gmap RelayUrl (gset PublicKey * list RouteProvenance)) (r : LaneRoute)
    : gmap RelayUrl (gset PublicKey * list RouteProvenance) :=
  let entry := default (∅, []) (m !! r.1) in
  <[r.1 := (entry.1 ∪ rp_covers_authors r.2, entry.2 ++ [r.2])]> m.

(** One entry per (relay, skeleton), with every author the relay was solved for. *)
Definition push_coverage (skeleton : Skeleton) (authenticate_as : option PublicKey)
    (group : AutoAtomGroup) (bag : SessionBag)
    (p : RelayUrl * (gset PublicKey * list RouteProvenance)) : SessionBag :=
  let '(relay, (relay_authors, provenance)) := p in
  bag_push bag (mkSession relay authenticate_as) Auto
    (mkEntry (with_authors skeleton relay_authors) provenance
       (auto_ownership skeleton authenticate_as group relay_authors relay_authors false)).

Definition lane_filter (skeleton : Skeleton) (group : AutoAtomGroup) : ConcreteFilter :=
  if g_unbounded group then with_authors skeleton ∅ else with_authors skeleton (g_authors group).

(** The lanes added outside the solve: the group's own evidence when it is
    unbounded, the operator's app relays, and the fallback relays for the
    authors the solve left short. *)
Definition push_additive (skeleton : Skeleton) (authenticate_as : option PublicKey)
    (group : AutoAtomGroup) (coverage : CoverageResult) (bag : SessionBag) : SessionBag :=
  let lane_ownership :=
    auto_ownership skeleton authenticate_as group (g_authors group) ∅ (g_unbounded group) in
  let bag :=
    if g_unbounded group then
      push_routes bag (lane_filter skeleton group) Auto authenticate_as
        (provenance_for_projected (g_routing_evidence group)) lane_ownership
    else bag in
  let bag := push_routes bag (lane_filter skeleton group) Auto authenticate_as
               (operator_app_routes (g_authors group)) lane_ownership in
  let shortfall_authors := dom (shortfall coverage) in
  push_routes bag (with_authors skeleton shortfall_authors) Auto authenticate_as
    (operator_fallback_routes shortfall_authors)
    (auto_ownership skeleton authenticate_as group shortfall_authors ∅ false).

(** The body of the loop over the groups. *)
Definition route_group (acc : SessionBag * Uncovered) (p : GroupKey * AutoAtomGroup)
    : option (SessionBag * Uncovered) :=
  let '(bag, uncovered) := acc in
  let '((skeleton, authenticate_as), group) := p in
  let candidates := group_candidates group in
  coverage ← solve (mkInput candidates 2 usize_max);
  uncovered ← record_uncovered coverage group (ordered (g_demands group)) uncovered;
  routes ← provenance_for_coverage coverage candidates;
  let bag := foldl (push_coverage skeleton authenticate_as group) bag
               (ordered_map (foldl add_by_relay ∅ routes)) in
  Some (push_additive skeleton authenticate_as group coverage bag, uncovered).

(** The loop over the explicitly routed atoms. *)
Definition push_exact (bag : SessionBag) (p : ContextualAtom * gset RelayUrl) : SessionBag :=
  let '(atom, relays) := p in
  push_routes bag (a_filter atom) (Explicit (ordered relays)) (a_authenticate_as atom)
    (provenance_for_exact relays) (exact_atom_ownership atom).

Definition materialize (gr : Grouped) : option (SessionBag * Uncovered) :=
  acc ← foldl (λ o p, acc ← o; route_group acc p) (Some (∅, ∅)) (ordered_map (gr_auto gr));
  let '(bag, uncovered) := acc in
  Some (foldl push_exact bag (gr_exact gr), uncovered).
End compile.

(** ** Steps 5 and 6: coalesce, assign tokens, apply each budget *)

Record RequestReplacement := mkReplacement {
  rr_session : RelaySessionKey;
  rr_prior_sub_id : SubId;
  rr_next_sub_id : SubId
}.

#[global] Instance RequestReplacement_eq_dec : EqDecision RequestReplacement.
Proof. solve_decision. Defined.
#[global] Instance RequestReplacement_countable : Countable RequestReplacement.
Proof.
  by refine (inj_countable' (λ r, (rr_session r, rr_prior_sub_id r, rr_next_sub_id r))
    (λ t, mkReplacement t.1.1 t.1.2 t.2) _); intros [].
Defined.

(** The variables of the loop over one session's partitions. *)
Record PartitionState := mkPart {
  ps_counter : N;
  ps_attempts : N;
  ps_reqs : list WireReq;
  ps_replacements : gset RequestReplacement
}.

(** The variables of the loop over the sessions. *)
Record SessionState := mkSess {
  st_counter : N;
  st_attempts : N;
  st_reqs : gmap RelaySessionKey (list WireReq);
  st_replacements : gset RequestReplacement;
  st_limited : gset DemandKey;
  st_refused_sessions : gset RelaySessionKey;
  st_shortfalls : gmap RelaySessionKey BudgetShortfall;
  st_budget_refused : list (RelaySessionKey * WireReq)
}.

(** The requests of the previous plan in one matching partition. *)
Definition partition_priors (incumbents : option (list WireReq)) (source : ReadRouting)
    : list (ConcreteFilter * SubId) :=
  (λ r, (r_filter r, r_sub_id r)) <$> filter (λ r, r_routing r = source) (default [] incumbents).

(** The request of a coalesced entry and its assignment. *)
Definition wire_req (source : ReadRouting) (p : Entry * Assignment) : WireReq :=
  let '(entry, a) := p in
  mkReq (as_sub_id a) (en_filter entry) source (list_to_set (en_prov entry))
    (o_claims (en_own entry)) (o_demands (en_own entry)) (o_assignments (en_own entry)).

Definition replacement_of (session : RelaySessionKey) (a : Assignment)
    : option RequestReplacement :=
  prior ← as_predecessor a; Some (mkReplacement session prior (as_sub_id a)).

Definition compile_partition (rs : list MergeRule) (incumbents : option (list WireReq))
    (session : RelaySessionKey) (ps : PartitionState) (p : ReadRouting * list Entry)
    : option PartitionState :=
  let '(source, entries) := p in
  '(attempts, merged) ← coalesce_with rs (ps_attempts ps) entries;
  '(assigned, counter) ←
    assign (allocate (s_relay session) source (s_authenticate_as session))
      (partition_priors incumbents source) (en_filter <$> merged) (ps_counter ps);
  Some (mkPart counter attempts
          (ps_reqs ps ++ (wire_req source <$> zip merged assigned))
          (ps_replacements ps ∪ list_to_set (omap (replacement_of session) assigned))).

Section sessions.
Context `{FilterHash}.

(** A session's requests against its relay's advertised limit. *)
Definition apply_budget (budget : CompileBudget) (incumbents : option (list WireReq))
    (session : RelaySessionKey) (st : SessionState) (ps : PartitionState) : SessionState :=
  let session_reqs := merge_sort sub_le (ps_reqs ps) in
  let planned := length session_reqs in
  let keep reqs limited refused_sessions shortfalls budget_refused :=
    mkSess (ps_counter ps) (ps_attempts ps) reqs (ps_replacements ps)
      limited refused_sessions shortfalls budget_refused in
  let unlimited :=
    keep (<[session := session_reqs]> (st_reqs st)) (st_limited st)
      (st_refused_sessions st) (st_shortfalls st) (st_budget_refused st) in
  match max_subscriptions budget (s_relay session) with
  | None => unlimited
  | Some allowed =>
      if planned <=? allowed then unlimited
      else
        let '(kept, refused) := refuse_over_budget session_reqs allowed incumbents in
        let limited := st_limited st ∪ ⋃ (r_owner_demands <$> refused) in
        let budget_refused := st_budget_refused st ++ ((λ r, (session, r)) <$> refused) in
        let shortfalls :=
          <[session := mkShort allowed planned (length refused)]> (st_shortfalls st) in
        if decide (kept = []) then
          keep (st_reqs st) limited ({[ session ]} ∪ st_refused_sessions st)
            shortfalls budget_refused
        else
          keep (<[session := kept]> (st_reqs st)) limited (st_refused_sessions st)
            shortfalls budget_refused
  end.

Definition compile_session (rs : list MergeRule) (budget : CompileBudget)
    (incumbent_reqs : gmap RelaySessionKey (list WireReq)) (st : SessionState)
    (p : RelaySessionKey * SourceBag) : option SessionState :=
  let '(session, by_source) := p in
  ps ← foldl (λ o q, ps ← o; compile_partition rs (incumbent_reqs !! session) session ps q)
         (Some (mkPart (st_counter st) (st_attempts st) [] (st_replacements st)))
         (ordered_map by_source);
  Some (apply_budget budget (incumbent_reqs !! session) session st ps).
End sessions.

(** ** The shortfall report *)

(** [reduce_outbox_shortfall] of [ownership.rs]. *)
Definition reduce_outbox_shortfall (intrinsic : option Shortfall) (achieved : nat)
    (coverage_refused_by_local_limit : bool) : option Shortfall :=
  let required := 2 in
  if required <=? achieved then None
  else match intrinsic with
       | Some fact =>
           let reason :=
             if decide (0 < achieved ∧ sf_reason fact = NoCandidates) then FewerCandidatesThanK
             else sf_reason fact in
           Some (mkShortfall (sf_requested_k fact) achieved reason)
       | None =>
           if coverage_refused_by_local_limit
           then Some (mkShortfall required achieved CapExhausted) else None
       end.

(** The index from a coverage assignment to the sessions serving it. *)
Definition selected_assignments (reqs : gmap RelaySessionKey (list WireReq))
    : gmap (DemandKey * PublicKey) (gset RelaySessionKey) :=
  foldl (λ m p, <[p.1 := default ∅ (m !! p.1) ∪ {[ p.2 ]}]> m) ∅
    (q ← ordered_map reqs; r ← q.2; (λ a, (a, q.1)) <$> ordered (r_coverage_assignments r)).

Definition reduce_demand (selected : gmap (DemandKey * PublicKey) (gset RelaySessionKey))
    (refused : gset (DemandKey * PublicKey)) (uncovered : Uncovered)
    (p : DemandKey * gset PublicKey) : Uncovered :=
  let '(demand, authors) := p in
  let intrinsic : gmap PublicKey Shortfall := default ∅ (uncovered !! demand) in
  let exact : gmap PublicKey Shortfall := list_to_map
    (omap (λ author,
        fact ← reduce_outbox_shortfall (intrinsic !! author)
                 (default 0 (size <$> selected !! (demand, author)))
                 (bool_decide ((demand, author) ∈ refused));
        Some (author, fact)) (ordered authors)) in
  if decide (exact = ∅) then delete demand uncovered else <[demand := exact]> (delete demand uncovered).

(** The release-build assertion: no two requests share a subscription id. *)
Fixpoint distinct_ids (seen : gset SubId) (reqs : list WireReq) : bool :=
  match reqs with
  | [] => true
  | r :: reqs => bool_decide (r_sub_id r ∉ seen) && distinct_ids ({[ r_sub_id r ]} ∪ seen) reqs
  end.

Record CompiledDemand := mkCompiled {
  cd_plan : RelayPlan;
  cd_replacements : gset RequestReplacement;
  cd_uncovered_by_demand : Uncovered;
  cd_cap_refused_demands : gmap RelaySessionKey (gset DemandKey);
  cd_cap_refused_coverage_assignments : gset (DemandKey * PublicKey);
  cd_budget_refused_requests : list (RelaySessionKey * WireReq);
  cd_next_token : N;
  cd_pair_attempts : N
}.

Section compile_demand.
Context `{HexCodec, RoutingFacts, FilterHash}.

(** The loop over the sessions of the capped bag. *)
Definition compile_sessions (rs : list MergeRule) (budget : CompileBudget)
    (incumbent_reqs : gmap RelaySessionKey (list WireReq)) (st : SessionState)
    (sessions : list (RelaySessionKey * SourceBag)) : option SessionState :=
  foldl (λ o p, st ← o; compile_session rs budget incumbent_reqs st p) (Some st) sessions.

Definition compile_demand (reg : RuleRegistry) (next_token : N)
    (incumbent_reqs : gmap RelaySessionKey (list WireReq)) (demand : gset ContextualAtom)
    (budget : CompileBudget) : option CompiledDemand :=
  gr ← group_demand demand;
  '(full_bag, uncovered) ← materialize gr;
  let '(bag, cap) := apply_global_relay_cap full_bag (relay_cap budget) in
  st ← compile_sessions (rules reg) budget incumbent_reqs
         (mkSess next_token (pair_attempts reg) ∅ ∅ (co_limited_demands cap)
            (co_refused_sessions cap) ∅ []) (ordered_map bag);
  let refused := co_refused_coverage_assignments cap ∪
                 ⋃ ((λ p, r_coverage_assignments p.2) <$> st_budget_refused st) in
  let uncovered := foldl (reduce_demand (selected_assignments (st_reqs st)) refused) uncovered
                     (ordered_map (gr_authors_by_demand gr)) in
  if distinct_ids ∅ (concat (ordered_map (st_reqs st)).*2) then
    Some (mkCompiled
            (mkPlan (st_reqs st) (st_limited st) (st_refused_sessions st) (st_shortfalls st))
            (st_replacements st) uncovered (co_refused_demands cap)
            (co_refused_coverage_assignments cap) (st_budget_refused st)
            (st_counter st) (st_attempts st))
  else None.
End compile_demand.
