(* ===== verification/Bag.v ===== *)
(** * The materialized bag

    What the first half of [compile_demand] puts into the per-session bag: the
    grouping of the demand, and for every atom the entries its lanes push.
    These lemmas carry the theorems of [Planning]. *)

From S2P Require Import Prelude Grammar Coverage RouterTypes Component Coalesce Solver WireId Route Router.

(** ** Membership in a bag *)

Definition bag_in (bag : SessionBag) (session : RelaySessionKey) (source : ReadRouting) (e : Entry)
    : Prop :=
  ∃ by_source entries, bag !! session = Some by_source ∧ by_source !! source = Some entries ∧ e ∈ entries.

Lemma bag_in_empty session source e : ¬ bag_in ∅ session source e.
Proof. intros (? & ? & ? & _). by simplify_map_eq. Qed.

Lemma bag_in_push bag session source x session' source' e :
  bag_in (bag_push bag session source x) session' source' e ↔
  bag_in bag session' source' e ∨ session' = session ∧ source' = source ∧ e = x.
Proof.
  unfold bag_in, bag_push. destruct (decide (session' = session)) as [->|Hs].
  - setoid_rewrite lookup_insert_eq. destruct (decide (source' = source)) as [->|Hr].
    + split.
      * intros (bs & es & [= <-] & Hes & He). rewrite lookup_insert_eq in Hes. injection Hes as <-.
        apply elem_of_app in He as [He| ->%list_elem_of_singleton]; [left|by right].
        destruct (bag !! session) as [bs|]; simpl in He.
        -- destruct (bs !! source) as [es|] eqn:Hes; simpl in He; [by exists bs, es|by apply not_elem_of_nil in He].
        -- rewrite lookup_empty in He. by apply not_elem_of_nil in He.
      * intros H. eexists _, _. split; [done|]. split; [apply lookup_insert_eq|]. apply elem_of_app.
        destruct H as [(bs & es & -> & Hes & He)|(_ & _ & ->)]; [left; simpl; by rewrite Hes|right; by left].
    + split.
      * intros (bs & es & [= <-] & Hes & He). rewrite lookup_insert_ne in Hes by done. left.
        destruct (bag !! session) as [bs|]; simpl in Hes; [by exists bs, es|]. by rewrite lookup_empty in Hes.
      * intros [(bs & es & -> & Hes & He)|(_ & ? & _)]; [|done]. eexists _, es. split; [done|].
        by rewrite lookup_insert_ne by done.
  - setoid_rewrite lookup_insert_ne; [|done..]. naive_solver.
Qed.

Lemma bag_in_push_routes bag f source auth routes own session source' e :
  bag_in (push_routes bag f source auth routes own) session source' e ↔
  bag_in bag session source' e ∨
  source' = source ∧ ∃ r, r ∈ routes ∧ session = mkSession r.1 auth ∧ e = mkEntry f [r.2] own.
Proof.
  unfold push_routes. revert bag. induction routes as [|r routes IH]; intros bag; simpl.
  - split; [by left|]. intros [?|(_ & r & ?%not_elem_of_nil & _)]; done.
  - rewrite IH, bag_in_push. setoid_rewrite elem_of_cons. naive_solver.
Qed.

(** The per-relay index of the coverage routes. *)
Lemma by_relay_spec routes u :
  match foldl add_by_relay ∅ routes !! u with
  | Some (authors, _) =>
      (∃ r, r ∈ routes ∧ r.1 = u) ∧
      ∀ a, a ∈ authors ↔ ∃ r, r ∈ routes ∧ r.1 = u ∧ a ∈ rp_covers_authors r.2
  | None => ∀ r, r ∈ routes → r.1 ≠ u
  end.
Proof.
  induction routes as [|r routes IH] using rev_ind; simpl.
  { rewrite lookup_empty. by intros r ?%not_elem_of_nil. }
  rewrite foldl_snoc. unfold add_by_relay at 1.
  assert (∀ r', r' ∈ routes ++ [r] ↔ r' ∈ routes ∨ r' = r) as Hr.
  { intros r'. by rewrite elem_of_app, list_elem_of_singleton. }
  destruct (decide (u = r.1)) as [->|Hne].
  - rewrite lookup_insert_eq. split; [exists r; rewrite Hr; auto|]. intros a. rewrite elem_of_union.
    setoid_rewrite Hr. destruct (foldl add_by_relay ∅ routes !! r.1) as [[authors provs]|]; simpl.
    + destruct IH as [_ IH]. rewrite IH. naive_solver.
    + split; [set_solver|]. intros (r' & [Hr'| ->] & Hu & Ha); [by destruct (IH r' Hr')|by right].
  - rewrite lookup_insert_ne by done.
    destruct (foldl add_by_relay ∅ routes !! u) as [[authors provs]|]; simpl.
    + destruct IH as [[r' ?] IH]. setoid_rewrite Hr. split; [naive_solver|].
      intros a. rewrite IH. naive_solver.
    + intros r' [?| ->]%Hr; [by apply IH|done].
Qed.

Section push_facts.
Context `{HexCodec}.

Lemma bag_in_push_coverage sk auth group l bag session source e :
  bag_in (foldl (push_coverage sk auth group) bag l) session source e ↔
  bag_in bag session source e ∨
  source = Auto ∧ ∃ u authors provs, (u, (authors, provs)) ∈ l ∧ session = mkSession u auth ∧
    e = mkEntry (with_authors sk authors) provs (auto_ownership sk auth group authors authors false).
Proof.
  revert bag. induction l as [|[u [authors provs]] l IH]; intros bag; simpl.
  - split; [by left|]. by intros [?|(_ & ? & ? & ? & ?%not_elem_of_nil & _)].
  - rewrite IH, bag_in_push. setoid_rewrite elem_of_cons. naive_solver.
Qed.

Lemma bag_in_push_exact bag l session source e :
  bag_in (foldl push_exact bag l) session source e ↔
  bag_in bag session source e ∨
  ∃ atom relays u, (atom, relays) ∈ l ∧ u ∈ relays ∧
    session = mkSession u (a_authenticate_as atom) ∧ source = Explicit (ordered relays) ∧
    e = mkEntry (a_filter atom) [mkProv u LaneExact ∅ KExact] (exact_atom_ownership atom).
Proof.
  revert bag. induction l as [|[atom relays] l IH]; intros bag; simpl.
  - split; [by left|]. by intros [?|(? & ? & ? & ?%not_elem_of_nil & _)].
  - rewrite IH, bag_in_push_routes. unfold provenance_for_exact.
    setoid_rewrite elem_of_cons. setoid_rewrite list_elem_of_fmap. setoid_rewrite elem_of_ordered.
    naive_solver.
Qed.

Lemma elem_of_auto_demands sk auth group authors cov unbounded d :
  d ∈ o_demands (auto_ownership sk auth group authors cov unbounded) ↔
  ∃ X, g_authors_by_demand group !! d = Some X ∧
    (authors ∩ X ≠ ∅ ∨ unbounded = true ∧ X = ∅).
Proof.
  assert (∀ (P : DemandKey * gset PublicKey → Prop) `{∀ p, Decision (P p)},
    d ∈ (list_to_set (filter P (ordered_map (g_authors_by_demand group))).*1 : gset DemandKey) ↔
    ∃ X, g_authors_by_demand group !! d = Some X ∧ P (d, X)) as Hfilter.
  { intros P ?. rewrite elem_of_list_to_set, list_elem_of_fmap. split.
    - intros ([d' X] & -> & [HP Hin%elem_of_ordered_map]%list_elem_of_filter). eauto.
    - intros (X & HX & HP). exists (d, X). by rewrite list_elem_of_filter, elem_of_ordered_map. }
  unfold auto_ownership. destruct unbounded; simpl.
  - rewrite elem_of_union, !Hfilter. naive_solver.
  - rewrite Hfilter. naive_solver.
Qed.
End push_facts.

(** ** Grouping *)

Section grouping.
Context `{HexLaws}.

(** The construction invariant [Skeleton::of] relies on. *)
Definition wf_demand (demand : gset ContextualAtom) : Prop :=
  ∀ a, a ∈ demand → a_routing a = Auto → parses pk_from_hex (f_authors (a_filter a)).

(** One group, in terms of the atoms grouped so far. *)
Record group_inv (atoms : list ContextualAtom) (sk : Skeleton) (auth : option PublicKey)
    (group : AutoAtomGroup) : Prop := {
  gi_erased : f_authors (sk_filter sk) = None;
  gi_evidence : dom (g_evidence_by_author group) = g_authors group;
  gi_demands : g_demands group = dom (g_authors_by_demand group);
  gi_owner d X : g_authors_by_demand group !! d = Some X →
    X ⊆ g_authors group ∧
    ∃ atom, atom ∈ atoms ∧ a_routing atom = Auto ∧ a_authenticate_as atom = auth ∧
            d = demand_for_atom atom ∧ skeleton_of (a_filter atom) = Some (sk, X);
  gi_author a : a ∈ g_authors group → ∃ d X, g_authors_by_demand group !! d = Some X ∧ a ∈ X
}.

Record grouped_inv (atoms : list ContextualAtom) (gr : Grouped) : Prop := {
  gv_group sk auth group : gr_auto gr !! (sk, auth) = Some group → group_inv atoms sk auth group;
  gv_auto atom : atom ∈ atoms → a_routing atom = Auto →
    ∃ sk X group, skeleton_of (a_filter atom) = Some (sk, X) ∧
      gr_auto gr !! (sk, a_authenticate_as atom) = Some group ∧
      g_authors_by_demand group !! demand_for_atom atom = Some X ∧
      (f_authors (a_filter atom) = None → g_unbounded group = true);
  gv_exact atom relays : (atom, relays) ∈ gr_exact gr ↔
    atom ∈ atoms ∧ ∃ l, a_routing atom = Explicit l ∧ relays = list_to_set l
}.

Lemma dom_foldl_insert {A} (f : gmap PublicKey A → PublicKey → A) (l : list PublicKey) m :
  dom (foldl (λ m a, <[a := f m a]> m) m l) = dom m ∪ list_to_set l.
Proof.
  revert m. induction l as [|a l IH]; intros m; simpl; [set_solver|]. rewrite IH, dom_insert_L. set_solver.
Qed.

Lemma list_to_set_ordered {A} `{OrdLaws A, Countable A} (X : gset A) :
  (list_to_set (ordered X) : gset A) = X.
Proof. apply set_eq. intros x. by rewrite elem_of_list_to_set, elem_of_ordered. Qed.

(** Adding an atom to the group of its skeleton. *)
Lemma group_inv_add atoms sk auth group atom X :
  group_inv atoms sk auth group ∨ group = group_default →
  a_routing atom = Auto → a_authenticate_as atom = auth →
  skeleton_of (a_filter atom) = Some (sk, X) →
  group_inv (atoms ++ [atom]) sk auth (add_to_group atom X group).
Proof.
  intros Hg Hr Ha Hsk. pose proof (skeleton_of_Some _ _ _ Hsk) as [-> _].
  assert (dom (g_evidence_by_author group) = g_authors group ∧
          g_demands group = dom (g_authors_by_demand group)) as [Hev Hd].
  { destruct Hg as [Hg| ->]; [by split; apply Hg|]. simpl. by rewrite !dom_empty_L. }
  assert (∀ d Y, g_authors_by_demand group !! d = Some Y →
    Y ⊆ g_authors group ∧
    ∃ b, b ∈ atoms ∧ a_routing b = Auto ∧ a_authenticate_as b = auth ∧ d = demand_for_atom b ∧
         skeleton_of (a_filter b) = Some (mkSkeleton (set_authors None (a_filter atom)), Y)) as Hown.
  { intros d Y HY. destruct Hg as [Hg| ->]; [by apply Hg|]. simpl in HY. by rewrite lookup_empty in HY. }
  split; simpl.
  - done.
  - by rewrite dom_foldl_insert, Hev, list_to_set_ordered.
  - by rewrite dom_insert_L, Hd.
  - intros d Y. rewrite lookup_insert_Some. intros [[<- <-]|[_ (HY & b & ? & ?)%Hown]].
    + split; [set_solver|]. exists atom. split_and!; try done. apply elem_of_app. right. by left.
    + split; [set_solver|]. exists b. split; [by apply elem_of_app; left|done].
  - intros a [Hin|Hin]%elem_of_union.
    + destruct Hg as [Hg| ->]; [|simpl in Hin; by apply not_elem_of_empty in Hin].
      destruct (gi_author _ _ _ _ Hg a Hin) as (d & Y & HY & HaY).
      destruct (decide (d = demand_for_atom atom)) as [->|].
      * exists (demand_for_atom atom), X. rewrite lookup_insert_eq. split; [done|].
        destruct (Hown _ _ HY) as (_ & b & _ & _ & _ & Heq%demand_for_atom_inj & Hb).
        destruct Heq as (Heq & _). rewrite <-Heq, Hsk in Hb. by simplify_eq.
      * exists d, Y. by rewrite lookup_insert_ne.
    + exists (demand_for_atom atom), X. by rewrite lookup_insert_eq.
Qed.

Lemma group_inv_mono atoms atom sk auth group :
  group_inv atoms sk auth group → group_inv (atoms ++ [atom]) sk auth group.
Proof.
  intros Hg. split; try apply Hg. intros d X HX.
  destruct (gi_owner _ _ _ _ Hg d X HX) as (? & b & ? & ?). split; [done|].
  exists b. split; [by apply elem_of_app; left|done].
Qed.

Lemma group_atom_auto atoms gr atom :
  grouped_inv atoms gr → a_routing atom = Auto → parses pk_from_hex (f_authors (a_filter atom)) →
  ∃ gr', group_atom gr atom = Some gr' ∧ grouped_inv (atoms ++ [atom]) gr'.
Proof.
  intros Hgr Hr Hparse. destruct (skeleton_of_total _ Hparse) as [[sk X] Hsk].
  unfold group_atom. rewrite Hr. simpl. rewrite Hsk. simpl. eexists. split; [done|].
  set (key := (sk, a_authenticate_as atom)).
  set (group := default group_default (gr_auto gr !! key)).
  split; simpl.
  - intros sk' auth' group'. rewrite lookup_insert_Some. intros [[[= <- <-] <-]|[_ Hg]].
    + apply group_inv_add; try done. unfold group. destruct (gr_auto gr !! key) eqn:Hk; [left|by right].
      by apply (gv_group _ _ Hgr).
    + by apply group_inv_mono, (gv_group _ _ Hgr).
  - intros b [Hb|Hb]%elem_of_app Hrb.
    + destruct (gv_auto _ _ Hgr b Hb Hrb) as (sk' & Y & g & Hsk' & Hg & Hd & Hu).
      destruct (decide ((sk', a_authenticate_as b) = key)) as [Hkey|Hkey].
      * exists sk', Y, (add_to_group atom X group). rewrite Hkey, lookup_insert_eq.
        assert (group = g) as -> by (unfold group; by rewrite <-Hkey, Hg).
        split_and!; [done..| |].
        -- simpl. destruct (decide (demand_for_atom b = demand_for_atom atom)) as [Heq|];
             [|by rewrite lookup_insert_ne by congruence].
           rewrite Heq, lookup_insert_eq. apply demand_for_atom_inj in Heq as (Heq & _). congruence.
        -- intros Hn. simpl. rewrite (Hu Hn). by rewrite orb_true_r.
      * exists sk', Y, g. by rewrite lookup_insert_ne by congruence.
    + apply list_elem_of_singleton in Hb as ->. exists sk, X, (add_to_group atom X group).
      rewrite lookup_insert_eq. split_and!; [done|done|apply lookup_insert_eq|].
      intros Hn. simpl. by rewrite bool_decide_eq_true_2.
  - intros b relays. rewrite (gv_exact _ _ Hgr), elem_of_app, list_elem_of_singleton.
    split; [naive_solver|]. intros [[?| ->] (l & Hl & ?)]; [eauto|congruence].
Qed.

Lemma group_demand_spec demand :
  wf_demand demand → ∃ gr, group_demand demand = Some gr ∧ grouped_inv (ordered demand) gr.
Proof.
  intros Hwf. apply foldl_option_ind.
  - split; simpl.
    + intros sk auth group. by rewrite lookup_empty.
    + by intros atom ?%not_elem_of_nil.
    + intros atom relays. split; [by intros ?%not_elem_of_nil|]. by intros [?%not_elem_of_nil _].
  - intros pre atom post gr Hl Hgr.
    assert (atom ∈ demand) as Hin.
    { apply elem_of_ordered. rewrite Hl. apply elem_of_app. right. by left. }
    destruct (a_routing atom) as [|l] eqn:Hr; [by apply group_atom_auto; auto|].
    unfold group_atom. rewrite Hr. simpl. eexists. split; [done|]. split; simpl.
    + intros sk auth group Hg. by apply group_inv_mono, (gv_group _ _ Hgr).
    + intros b [Hb|Hb]%elem_of_app Hrb; [by apply (gv_auto _ _ Hgr)|].
      apply list_elem_of_singleton in Hb as ->. congruence.
    + intros b relays. rewrite !elem_of_app, !list_elem_of_singleton, (gv_exact _ _ Hgr). split.
      * intros [[? ?]|[= -> ->]]; [by auto|]. split; [by right|]. eauto.
      * intros [[?| ->] (l' & Hl' & ->)]; [left; by eauto|right]. rewrite Hr in Hl'. by simplify_eq.
Qed.
End grouping.

(** ** Routing a group *)

Section routing.
Context `{HexLaws, RoutingFacts}.

Lemma group_candidates_spec atoms sk auth group :
  group_inv atoms sk auth group →
  dom (group_candidates group) = g_authors group ∧
  ∀ a l, group_candidates group !! a = Some l →
    ∀ routes, author_routes a = Present routes → outbound routes ⊆ distinct l.
Proof.
  intros Hg. unfold group_candidates. split.
  - apply set_eq. intros a. rewrite elem_of_dom, add_projected_lookup.
    destruct (g_evidence_by_author group !! a) as [facts|] eqn:Hev.
    + apply elem_of_dom_2 in Hev. rewrite (gi_evidence _ _ _ _ Hg) in Hev. by split.
    + apply not_elem_of_dom in Hev. rewrite (gi_evidence _ _ _ _ Hg) in Hev.
      rewrite build_candidates_lookup, decide_False by done. by split; [intros []|].
  - intros a l Hl routes Hroutes u Hu. apply elem_of_distinct.
    assert (author_candidates a `prefix_of` l) as Hpre.
    { rewrite add_projected_lookup in Hl. destruct (g_evidence_by_author group !! a) eqn:Hev.
      - injection Hl as <-. apply elem_of_dom_2 in Hev. rewrite (gi_evidence _ _ _ _ Hg) in Hev.
        rewrite build_candidates_lookup, decide_True by done. apply foldl_add_evidence_prefix.
      - rewrite build_candidates_lookup in Hl. by case_decide; simplify_eq. }
    destruct Hpre as [rest ->]. rewrite fmap_app. apply elem_of_app. left.
    unfold author_candidates. rewrite Hroutes, <-list_fmap_compose. simpl.
    rewrite list_fmap_id. by apply elem_of_ordered.
Qed.

(** The solve of one group: total, complete for every author. *)
Lemma group_solve atoms sk auth group :
  group_inv atoms sk auth group → (2 * N.of_nat (size (g_authors group)) < usize_max)%N →
  ∃ cov, solve (mkInput (group_candidates group) 2 usize_max) = Some cov ∧
    (∀ a g, assignment cov !! a = Some g → a ∈ g_authors group ∧
       ∃ l, group_candidates group !! a = Some l ∧ g ⊆ distinct l) ∧
    (∀ a, a ∈ g_authors group → ∃ l g, group_candidates group !! a = Some l ∧
       assignment cov !! a = Some g ∧ size g = size (distinct l) `min` 2).
Proof.
  intros Hg Hsize. destruct (group_candidates_spec _ _ _ _ Hg) as [Hdom _].
  destruct (solve_state (mkInput (group_candidates group) 2 usize_max))
    as (st & short & trace & Hrun & Hst & Hfin & _). eexists. split; [done|]. simpl. split.
  - intros a g Ha. destruct (si_candidate _ st a g Hst Ha) as (l & n & Hl & Hinv). simpl in Hl.
    split; [rewrite <-Hdom; by apply elem_of_dom_2 in Hl|]. exists l. split; [done|]. apply Hinv.
  - intros a Ha. rewrite <-Hdom in Ha. apply elem_of_dom in Ha as [l Hl].
    destruct (si_lookup _ st a l Hst Hl) as (g & n & Hg' & Hn & Hinv). exists l, g.
    split_and!; [done..|]. pose proof (ai_sum _ _ _ _ _ Hinv) as Hsum. unfold ceiling in Hsum. simpl in Hsum.
    destruct Hfin as [Hcap|Hneed]; [|rewrite (Hneed a n Hn) in Hsum; lia]. simpl in Hcap.
    pose proof (selected_bound _ st Hst) as Hb. simpl in Hb.
    rewrite <-(size_dom (group_candidates group)), Hdom in Hb. lia.
Qed.

Lemma record_uncovered_total cov group demands unc :
  (∀ d, d ∈ demands → is_Some (g_authors_by_demand group !! d)) →
  is_Some (record_uncovered cov group demands unc).
Proof.
  revert unc. induction demands as [|d demands IH]; intros unc Hok; simpl; [by eexists|].
  destruct (Hok d) as [X ->]; [left|]. simpl. apply IH. set_solver.
Qed.

(** The entries a routed group has in the bag: for every author, one on each of
    the relays solved for it, and one on every app relay. *)
Record group_present (sk : Skeleton) (auth : option PublicKey) (group : AutoAtomGroup)
    (bag : SessionBag) : Prop := {
  gp_covers a : a ∈ g_authors group → ∃ l (R : gset RelayUrl),
    group_candidates group !! a = Some l ∧ R ⊆ distinct l ∧ size R = size (distinct l) `min` 2 ∧
    ∀ u, u ∈ R → ∃ e authors, bag_in bag (mkSession u auth) Auto e ∧
      en_filter e = with_authors sk authors ∧ a ∈ authors ∧
      ∀ d X, g_authors_by_demand group !! d = Some X → a ∈ X → d ∈ o_demands (en_own e);
  gp_app u : u ∈ operator_app_relays → ∃ e, bag_in bag (mkSession u auth) Auto e ∧
    en_filter e = lane_filter sk group ∧
    ∀ d X, g_authors_by_demand group !! d = Some X →
      g_authors group ∩ X ≠ ∅ ∨ g_unbounded group = true ∧ X = ∅ → d ∈ o_demands (en_own e)
}.

(** What routing one group does to the bag. *)
Record group_routed (sk : Skeleton) (auth : option PublicKey) (group : AutoAtomGroup)
    (bag bag' : SessionBag) : Prop := {
  rg_keeps session source e : bag_in bag session source e → bag_in bag' session source e;
  rg_adds session source e : bag_in bag' session source e → bag_in bag session source e ∨
    source = Auto ∧ s_authenticate_as session = auth ∧
    ∀ d, d ∈ o_demands (en_own e) → is_Some (g_authors_by_demand group !! d);
  rg_present : group_present sk auth group bag'
}.

Lemma group_present_mono sk auth group bag bag' :
  (∀ session source e, bag_in bag session source e → bag_in bag' session source e) →
  group_present sk auth group bag → group_present sk auth group bag'.
Proof.
  intros Hmono Hp. split.
  - intros a Ha. destruct (gp_covers _ _ _ _ Hp a Ha) as (l & R & ? & ? & ? & HR).
    exists l, R. split_and!; [done..|]. intros u (e & authors & ? & ?)%HR. exists e, authors. auto.
  - intros u Hu. destruct (gp_app _ _ _ _ Hp u Hu) as (e & ? & ?). exists e. auto.
Qed.

(** Every assigned (author, relay) pair has its entry. *)
Lemma coverage_entry sk auth group bag routes a r :
  r ∈ routes → a ∈ rp_covers_authors r.2 →
  ∃ e authors,
    bag_in (foldl (push_coverage sk auth group) bag (ordered_map (foldl add_by_relay ∅ routes)))
      (mkSession r.1 auth) Auto e ∧
    en_filter e = with_authors sk authors ∧ a ∈ authors ∧
    ∀ d X, g_authors_by_demand group !! d = Some X → a ∈ X → d ∈ o_demands (en_own e).
Proof.
  intros Hr Ha. pose proof (by_relay_spec routes r.1) as Hby.
  destruct (foldl add_by_relay ∅ routes !! r.1) as [[authors provs]|] eqn:Hf; [|by destruct (Hby r Hr)].
  destruct Hby as [_ Hby]. assert (a ∈ authors) as Hauth by (apply Hby; eauto).
  exists (mkEntry (with_authors sk authors) provs (auto_ownership sk auth group authors authors false)),
    authors. split_and!; [|done|done|].
  - apply bag_in_push_coverage. right. split; [done|]. eexists _, _, _.
    split; [by apply elem_of_ordered_map|done].
  - intros d X HX HaX. cbn [en_own]. apply elem_of_auto_demands. exists X. split; [done|]. left. set_solver.
Qed.

Lemma route_group_spec atoms sk auth group bag unc :
  group_inv atoms sk auth group → (2 * N.of_nat (size (g_authors group)) < usize_max)%N →
  ∃ bag' unc', route_group (bag, unc) ((sk, auth), group) = Some (bag', unc') ∧
    group_routed sk auth group bag bag'.
Proof.
  intros Hg Hsize. destruct (group_solve _ _ _ _ Hg Hsize) as (cov & Hsolve & Hasg & Hfull).
  unfold route_group. rewrite Hsolve. cbn [mbind option_bind].
  destruct (record_uncovered_total cov group (ordered (g_demands group)) unc) as [unc' ->].
  { intros d Hd%elem_of_ordered. rewrite (gi_demands _ _ _ _ Hg) in Hd. by apply elem_of_dom. }
  cbn [mbind option_bind].
  destruct (provenance_for_coverage_spec cov (group_candidates group)) as (routes & -> & Hr1 & Hr2).
  { intros a g Ha. destruct (Hasg a g Ha) as (_ & l & ?). eauto. }
  cbn [mbind option_bind]. eexists _, unc'. split; [done|]. unfold push_additive. split.
  - intros session source e Hin. rewrite !bag_in_push_routes. left. left.
    destruct (g_unbounded group); rewrite ?bag_in_push_routes, bag_in_push_coverage; auto.
  - intros session source e. rewrite !bag_in_push_routes.
    assert (∀ f A B c, e = mkEntry f A (auto_ownership sk auth group B c (g_unbounded group)) ∨
                       e = mkEntry f A (auto_ownership sk auth group B c false) →
            ∀ d, d ∈ o_demands (en_own e) → is_Some (g_authors_by_demand group !! d)) as Hown.
    { intros f A B c [->| ->] d Hd; cbn [en_own] in Hd;
        apply elem_of_auto_demands in Hd as (X & -> & _); by eexists. }
    intros [[Hin|(-> & r & _ & -> & He)]|(-> & r & _ & -> & He)]; [|by right; eauto 10..].
    destruct (g_unbounded group); rewrite ?bag_in_push_routes, bag_in_push_coverage in Hin;
      naive_solver.
  - split.
    { intros a Ha. destruct (Hfull a Ha) as (l & R & Hl & HR & Hsz).
      exists l, R. split_and!; [done| |done|].
      { destruct (Hasg a R HR) as (_ & l' & Hl' & ?). by simplify_eq. }
      intros u Hu. destruct (Hr2 a R u HR Hu) as (r & Hr & <- & Hcov).
      destruct (coverage_entry sk auth group bag routes a r) as (e & authors & Hin & ?);
        [done|rewrite Hcov; set_solver|].
      exists e, authors. split; [|done]. rewrite !bag_in_push_routes. left. left.
      destruct (g_unbounded group); [rewrite bag_in_push_routes; left|]; exact Hin. }
    intros u Hu. eexists. split; [|split].
    + rewrite !bag_in_push_routes. left. right. split; [done|]. unfold operator_app_routes.
      eexists. split; [by apply list_elem_of_fmap_2|]. done.
    + done.
    + intros d X HX Hd. cbn [en_own]. apply elem_of_auto_demands. eauto.
Qed.

(** ** The whole bag *)

(** Every author some atom of the demand names. *)
Definition demand_authors (demand : gset ContextualAtom) : gset PublicKey :=
  ⋃ ((λ a, default ∅ (snd <$> skeleton_of (a_filter a))) <$> ordered demand).

(** An atom and the bag partition it may enter. *)
Definition same_context (atom : ContextualAtom) (session : RelaySessionKey) (source : ReadRouting)
    : Prop :=
  a_authenticate_as atom = s_authenticate_as session ∧
  (a_routing atom = Auto ∧ source = Auto ∨
   ∃ l, a_routing atom = Explicit l ∧ source = Explicit (ordered (list_to_set l : gset RelayUrl)) ∧
        s_relay session ∈ l).

(** The entry carries the atom's demand and matches those of its events that
    satisfy [P]. *)
Definition serves (atom : ContextualAtom) (P : Event → Prop) (e : Entry) : Prop :=
  demand_for_atom atom ∈ o_demands (en_own e) ∧
  ∀ ev, P ev → concrete_matches (a_filter atom) ev → concrete_matches (en_filter e) ev.

Record bag_spec (demand : gset ContextualAtom) (bag : SessionBag) : Prop := {
  bs_context session source e d :
    bag_in bag session source e → d ∈ o_demands (en_own e) →
    ∃ atom, atom ∈ demand ∧ d = demand_for_atom atom ∧ same_context atom session source;
  bs_exact atom l u :
    atom ∈ demand → a_routing atom = Explicit l → u ∈ l →
    ∃ source e, bag_in bag (mkSession u (a_authenticate_as atom)) source e ∧
      serves atom (λ _, True) e;
  bs_covers atom sk X a routes :
    atom ∈ demand → a_routing atom = Auto → skeleton_of (a_filter atom) = Some (sk, X) → a ∈ X →
    author_routes a = Present routes →
    ∃ R : gset RelayUrl, size (outbound routes) `min` 2 ≤ size R ∧
      ∀ u, u ∈ R → ∃ e, bag_in bag (mkSession u (a_authenticate_as atom)) Auto e ∧
        serves atom (λ ev, e_pubkey ev = a) e;
  bs_app atom u :
    atom ∈ demand → a_routing atom = Auto → f_authors (a_filter atom) ≠ Some ∅ →
    u ∈ operator_app_relays →
    ∃ e, bag_in bag (mkSession u (a_authenticate_as atom)) Auto e ∧ serves atom (λ _, True) e
}.

Lemma group_authors_small demand sk auth group :
  group_inv (ordered demand) sk auth group → g_authors group ⊆ demand_authors demand.
Proof.
  intros Hg a (d & X & HX & Ha)%(gi_author _ _ _ _ Hg).
  destruct (gi_owner _ _ _ _ Hg d X HX) as (_ & atom & Hin & _ & _ & _ & Hsk).
  apply elem_of_union_list. exists X. split; [|done]. apply list_elem_of_fmap. exists atom.
  by rewrite Hsk.
Qed.

(** The groups routed so far. *)
Definition groups_routed (done : list (GroupKey * AutoAtomGroup)) (bag : SessionBag) : Prop :=
  (∀ session source e, bag_in bag session source e →
     source = Auto ∧ ∀ d, d ∈ o_demands (en_own e) →
       ∃ sk group, ((sk, s_authenticate_as session), group) ∈ done ∧
         is_Some (g_authors_by_demand group !! d)) ∧
  (∀ sk auth group, ((sk, auth), group) ∈ done → group_present sk auth group bag).

Lemma route_groups_spec demand gr :
  grouped_inv (ordered demand) gr → (2 * N.of_nat (size (demand_authors demand)) < usize_max)%N →
  ∃ acc, foldl (λ o p, acc ← o; route_group acc p) (Some (∅, ∅)) (ordered_map (gr_auto gr)) = Some acc ∧
    groups_routed (ordered_map (gr_auto gr)) acc.1.
Proof.
  intros Hgr Hsize. apply (foldl_option_ind _ (λ done acc, groups_routed done acc.1)).
  - split; [by intros ??? ?%bag_in_empty|]. by intros ??? ?%not_elem_of_nil.
  - intros pre [[sk auth] group] post [bag unc] Hl [Hsound Hpresent].
    assert (group_inv (ordered demand) sk auth group) as Hg.
    { apply (gv_group _ _ Hgr), elem_of_ordered_map. rewrite Hl. apply elem_of_app. right. by left. }
    destruct (route_group_spec (ordered demand) sk auth group bag unc Hg) as (bag' & unc' & Hrun & Hr).
    { pose proof (subseteq_size _ _ (group_authors_small _ _ _ _ Hg)). lia. }
    exists (bag', unc'). split; [done|]. simpl in *. split.
    + intros session source e [Hin|(-> & <- & Hd)]%(rg_adds _ _ _ _ _ Hr).
      * destruct (Hsound _ _ _ Hin) as [-> Hd]. split; [done|].
        intros d (sk' & g & ? & ?)%Hd. exists sk', g. split; [by apply elem_of_app; left|done].
      * split; [done|]. intros d ?%Hd. exists sk, group. split; [apply elem_of_app; right; by left|done].
    + intros sk' auth' group' [Hin|Hin]%elem_of_app.
      * eapply group_present_mono; [apply (rg_keeps _ _ _ _ _ Hr)|]. by apply Hpresent.
      * apply list_elem_of_singleton in Hin as [= -> -> ->]. apply Hr.
Qed.

(** An atom's events by an author of an entry restricted to [authors]. *)
Lemma with_authors_serves atom sk X authors ev :
  skeleton_of (a_filter atom) = Some (sk, X) → authors = ∅ ∨ e_pubkey ev ∈ authors →
  concrete_matches (a_filter atom) ev → concrete_matches (with_authors sk authors) ev.
Proof.
  intros Hsk Hin Hm. destruct (skeleton_of_matches _ _ _ _ Hsk Hm) as [Hskm _].
  apply with_authors_matches; [|done]. by apply skeleton_of_Some in Hsk as [-> _].
Qed.

Lemma present_covers demand gr bag atom sk X a routes :
  grouped_inv (ordered demand) gr →
  (∀ sk auth group, ((sk, auth), group) ∈ ordered_map (gr_auto gr) → group_present sk auth group bag) →
  atom ∈ demand → a_routing atom = Auto → skeleton_of (a_filter atom) = Some (sk, X) → a ∈ X →
  author_routes a = Present routes →
  ∃ R : gset RelayUrl, size (outbound routes) `min` 2 ≤ size R ∧
    ∀ u, u ∈ R → ∃ e, bag_in bag (mkSession u (a_authenticate_as atom)) Auto e ∧
      serves atom (λ ev, e_pubkey ev = a) e.
Proof.
  intros Hgr Hpres Hatom Hr Hsk Ha Hroutes.
  destruct (gv_auto _ _ Hgr atom) as (sk' & X' & group & Hsk' & Hg & HX & _);
    [by apply elem_of_ordered|done|]. simplify_eq.
  pose proof (Hpres sk (a_authenticate_as atom) group ltac:(by apply elem_of_ordered_map)) as Hp.
  apply (gv_group _ _ Hgr) in Hg. destruct (gi_owner _ _ _ _ Hg _ _ HX) as [HXg _].
  destruct (gp_covers _ _ _ _ Hp a) as (l & R & Hl & _ & HR & Hcov); [by apply HXg|].
  destruct (group_candidates_spec _ _ _ _ Hg) as [_ Hout].
  pose proof (subseteq_size _ _ (Hout a l Hl routes Hroutes)).
  exists R. split; [lia|]. intros u Hu. destruct (Hcov u Hu) as (e & authors & Hin & Hf & Haa & Hown).
  exists e. split; [done|]. split; [by eapply Hown|].
  intros ev <- Hm. rewrite Hf. eapply with_authors_serves; eauto.
Qed.

Lemma present_app demand gr bag atom u :
  grouped_inv (ordered demand) gr →
  (∀ sk auth group, ((sk, auth), group) ∈ ordered_map (gr_auto gr) → group_present sk auth group bag) →
  atom ∈ demand → a_routing atom = Auto → f_authors (a_filter atom) ≠ Some ∅ →
  u ∈ operator_app_relays →
  ∃ e, bag_in bag (mkSession u (a_authenticate_as atom)) Auto e ∧ serves atom (λ _, True) e.
Proof.
  intros Hgr Hpres Hatom Hr Hne Hu.
  destruct (gv_auto _ _ Hgr atom) as (sk & X & group & Hsk & Hg & HX & Hunb);
    [by apply elem_of_ordered|done|].
  pose proof (Hpres sk (a_authenticate_as atom) group ltac:(by apply elem_of_ordered_map)) as Hp.
  apply (gv_group _ _ Hgr) in Hg. destruct (gi_owner _ _ _ _ Hg _ _ HX) as [HXg _].
  destruct (gp_app _ _ _ _ Hp u Hu) as (e & Hin & Hf & Hown).
  pose proof (skeleton_of_Some _ _ _ Hsk) as [_ HinX].
  exists e. split; [done|]. split.
  - apply (Hown _ X HX). destruct (decide (X = ∅)) as [->|]; [right|left; set_solver].
    split; [|done]. apply Hunb. destruct (f_authors (a_filter atom)) as [Y|] eqn:HY; [|done].
    exfalso. apply Hne. f_equal. apply elem_of_equiv_empty_L. intros s Hs.
    destruct (skeleton_of_parses _ _ _ _ _ Hsk HY Hs) as [p Hpk].
    apply (not_elem_of_empty (C := gset PublicKey) p), HinX. eauto.
  - intros ev _ Hm. rewrite Hf. unfold lane_filter.
    destruct (skeleton_of_matches _ _ _ _ Hsk Hm) as [_ Hauth].
    destruct (g_unbounded group); eapply with_authors_serves; eauto. right.
    destruct Hauth as [Hn|[Hn|Hin']]; [by apply Hunb in Hn|done|by apply HXg].
Qed.

Lemma materialize_spec demand gr :
  grouped_inv (ordered demand) gr → (2 * N.of_nat (size (demand_authors demand)) < usize_max)%N →
  ∃ bag unc, materialize gr = Some (bag, unc) ∧ bag_spec demand bag.
Proof.
  intros Hgr Hsize. destruct (route_groups_spec demand gr Hgr Hsize) as ([bag0 unc] & Hrun & Hsound & Hpres).
  unfold materialize. rewrite Hrun. simpl in *. eexists _, unc. split; [done|].
  assert (∀ sk auth group, ((sk, auth), group) ∈ ordered_map (gr_auto gr) →
            group_present sk auth group (foldl push_exact bag0 (gr_exact gr))) as Hpres'.
  { intros sk auth group Hin. eapply group_present_mono; [|by apply Hpres].
    intros. apply bag_in_push_exact. by left. }
  split; [| |by intros; eapply present_covers|by intros; eapply present_app].
  - intros session source e d [Hin|Hin]%bag_in_push_exact Hd.
    + destruct (Hsound _ _ _ Hin) as [-> Hown]. destruct (Hown d Hd) as (sk & group & Hg & [X HX]).
      apply elem_of_ordered_map, (gv_group _ _ Hgr) in Hg.
      destruct (gi_owner _ _ _ _ Hg d X HX) as (_ & atom & Hatom & Hr & Ha & -> & _).
      exists atom. rewrite <-elem_of_ordered. split_and!; [done..|]. split; [done|]. by left.
    + destruct Hin as (atom & relays & u & Hex & Hu & -> & -> & ->).
      apply (gv_exact _ _ Hgr) in Hex as (Hatom & l & Hl & ->).
      simpl in Hd. apply elem_of_singleton in Hd as ->.
      exists atom. rewrite <-elem_of_ordered. split_and!; [done..|]. split; [done|]. right.
      exists l. split_and!; [done..|]. by apply elem_of_list_to_set in Hu.
  - intros atom l u Hatom Hl Hu. eexists _, (mkEntry (a_filter atom) _ (exact_atom_ownership atom)).
    split; [apply bag_in_push_exact; right; exists atom, (list_to_set l), u|].
    + rewrite (gv_exact _ _ Hgr), elem_of_ordered, elem_of_list_to_set. split_and!; eauto.
    + split; [simpl; by apply elem_of_singleton|done].
Qed.
End routing.
