(* ===== verification/Limits.v ===== *)
(** * The two ceilings of a plan

    [apply_global_relay_cap] and [refuse_over_budget] of
    [crates/nmp-router/src/router.rs]: both keep a best-ranked prefix, and both
    report everything they cut. *)

From S2P Require Import Prelude Grammar Coverage RouterTypes Component Coalesce Solver WireId Route Router Bag.

Lemma comparator_desc {A} (f : A → nat) : Comparator (λ a b, Nat.compare (f b) (f a)).
Proof. apply (comparator_rev (λ a b, cmp (f a) (f b))), comparator_by. Qed.

(** ** The relay ceiling *)

Lemma rank_le_comparator : Comparator (λ a b : Ranked,
  then_with (Nat.compare b.2.1 a.2.1) (then_with (Nat.compare b.2.2 a.2.2) (cmp a.1 b.1))).
Proof.
  apply comparator_then; [apply (comparator_desc (λ a : Ranked, a.2.1))|].
  apply comparator_then; [apply (comparator_desc (λ a : Ranked, a.2.2))|apply comparator_by].
Qed.

Lemma elem_of_bag_entries by_source e :
  e ∈ bag_entries by_source ↔ ∃ source entries, by_source !! source = Some entries ∧ e ∈ entries.
Proof.
  unfold bag_entries. rewrite elem_of_concat. split.
  - intros (l & He & ([source entries] & -> & Hin)%list_elem_of_fmap). apply elem_of_ordered_map in Hin. eauto.
  - intros (source & entries & Hin & He). exists entries. split; [done|].
    by apply (list_elem_of_fmap_2 snd _ (source, entries)), elem_of_ordered_map.
Qed.

(** The demand keys gathered per refused session. *)
Lemma gathered_demands (l : list (RelaySessionKey * EntryOwnership))
    (m : gmap RelaySessionKey (gset DemandKey)) session d :
  d ∈ default ∅ (foldl (λ m e, <[e.1 := default ∅ (m !! e.1) ∪ o_demands e.2]> m) m l !! session) ↔
  d ∈ default ∅ (m !! session) ∨ ∃ own, (session, own) ∈ l ∧ d ∈ o_demands own.
Proof.
  revert m. induction l as [|[s own] l IH]; intros m; csimpl.
  - split; [by left|]. intros [?|(? & ?%not_elem_of_nil & _)]; done.
  - rewrite IH. setoid_rewrite elem_of_cons. destruct (decide (s = session)) as [->|].
    + rewrite lookup_insert_eq. simpl. rewrite elem_of_union. naive_solver.
    + rewrite lookup_insert_ne by done. naive_solver.
Qed.

Section cap.
Context (bag : SessionBag) (cap : nat).

Definition cap_kept : SessionBag := (apply_global_relay_cap bag cap).1.
Definition cap_outcome : RelayCapOutcome := (apply_global_relay_cap bag cap).2.

(** An entry of a session the ceiling refused. *)
Definition cut_entry (session : RelaySessionKey) (e : Entry) : Prop :=
  session ∈ co_refused_sessions cap_outcome ∧ ∃ source, bag_in bag session source e.

Definition ranked : list Ranked := merge_sort rank_le (rank_session <$> ordered_map bag).

Lemma ranked_fst : ranked.*1 ≡ₚ (ordered_map bag).*1.
Proof. unfold ranked. rewrite merge_sort_Permutation, <-list_fmap_compose. done. Qed.

Lemma ranked_nodup : NoDup ranked.*1.
Proof. rewrite ranked_fst. apply NoDup_ordered_map_fst. Qed.

Lemma elem_of_ranked r :
  r ∈ ranked ↔ ∃ session by_source, bag !! session = Some by_source ∧ r = rank_session (session, by_source).
Proof.
  unfold ranked. rewrite merge_sort_Permutation, list_elem_of_fmap. split.
  - intros ([session by_source] & -> & Hin%elem_of_ordered_map). eauto.
  - intros (session & by_source & Hin & ->). exists (session, by_source). split; [done|by apply elem_of_ordered_map].
Qed.

Definition selected : gset RelaySessionKey := list_to_set (take cap ranked).*1.
Definition refused : list (RelaySessionKey * SourceBag) := filter (λ p, p.1 ∉ selected) (ordered_map bag).

Lemma selected_size : size selected = Nat.min cap (size bag).
Proof.
  unfold selected. rewrite size_list_to_set, length_fmap, length_take.
  - by rewrite <-(length_fmap fst ranked), ranked_fst, length_fmap, length_ordered_map.
  - eapply sublist_NoDup, fmap_sublist, sublist_take. apply ranked_nodup.
Qed.

Lemma selected_in_bag session : session ∈ selected → is_Some (bag !! session).
Proof.
  intros (r & -> & Hr%elem_of_take)%elem_of_list_to_set%list_elem_of_fmap.
  destruct Hr as (i & Hi & _). apply list_elem_of_lookup_2, elem_of_ranked in Hi as (s & b & Hb & ->). by exists b.
Qed.

Lemma elem_of_refused session by_source :
  (session, by_source) ∈ refused ↔ bag !! session = Some by_source ∧ session ∉ selected.
Proof. unfold refused. rewrite list_elem_of_filter, elem_of_ordered_map. simpl. tauto. Qed.

Lemma selected_outranks session by_source session' by_source' :
  bag !! session = Some by_source → session ∈ selected →
  bag !! session' = Some by_source' → session' ∉ selected →
  rank_le (rank_session (session, by_source)) (rank_session (session', by_source')).
Proof.
  intros Hb Hin Hb' Hnot. unfold selected in Hin, Hnot. rewrite elem_of_list_to_set in Hin, Hnot.
  apply (sort_by_prefix rank_le _ rank_le_comparator (λ x y, iff_refl _)
           (rank_session <$> ordered_map bag) cap); fold ranked.
  - apply list_elem_of_fmap in Hin as (r & -> & Hr). pose proof Hr as (i & Hi & _)%elem_of_take.
    apply list_elem_of_lookup_2, elem_of_ranked in Hi as (s & b & Hs & ->). simpl in *. by simplify_eq.
  - assert (rank_session (session', by_source') ∈ ranked) as Hr by (apply elem_of_ranked; eauto).
    rewrite <-(take_drop cap ranked) in Hr. apply elem_of_app in Hr as [Hr|Hr]; [|done].
    destruct Hnot. by apply (list_elem_of_fmap_2 fst) in Hr.
Qed.

(** What the ceiling keeps. *)
Lemma cap_keeps :
  size cap_kept = Nat.min cap (size bag) ∧
  (∀ session by_source, cap_kept !! session = Some by_source ↔
     bag !! session = Some by_source ∧ session ∉ co_refused_sessions cap_outcome) ∧
  (∀ session, session ∈ co_refused_sessions cap_outcome ↔
     is_Some (bag !! session) ∧ (session ∉ selected) ∧ cap < size bag).
Proof.
  pose proof selected_size as Hsize. pose proof selected_in_bag as Hin.
  unfold cap_kept, cap_outcome, apply_global_relay_cap. destruct (Nat.leb_spec (size bag) cap); simpl.
  { split_and!; [lia|set_solver|]. intros; split; [set_solver|lia]. }
  fold ranked. fold selected. fold refused.
  assert (∀ session, session ∈ (list_to_set refused.*1 : gset _) ↔
            is_Some (bag !! session) ∧ (session ∉ selected)) as Href.
  { intros session. rewrite elem_of_list_to_set, list_elem_of_fmap. split.
    - intros ([s b] & -> & [? ?]%elem_of_refused). eauto.
    - intros [[b Hb] ?]. exists (session, b). split; [done|by apply elem_of_refused]. }
  split_and!.
  - rewrite <-Hsize, <-size_dom. f_equal. apply set_eq. intros session.
    rewrite elem_of_dom. split.
    + intros [b [_ ?]%map_lookup_filter_Some]. done.
    + intros Hs. destruct (Hin session Hs) as [b Hb]. exists b. by apply map_lookup_filter_Some.
  - intros session b. rewrite map_lookup_filter_Some, Href. simpl.
    split; [naive_solver|]. intros [Hb Hn]. split; [done|].
    destruct (decide (session ∈ selected)); [done|]. destruct Hn; eauto.
  - intros session. rewrite Href. naive_solver.
Qed.

(** What the ceiling reports: everything the refused sessions carried. *)
Lemma cap_reports :
  (∀ d, d ∈ co_limited_demands cap_outcome ↔
     ∃ session e, cut_entry session e ∧ d ∈ o_demands (en_own e)) ∧
  (∀ session d, d ∈ default ∅ (co_refused_demands cap_outcome !! session) ↔
     ∃ e, cut_entry session e ∧ d ∈ o_demands (en_own e)) ∧
  (∀ a, a ∈ co_refused_coverage_assignments cap_outcome ↔
     ∃ session e, cut_entry session e ∧ a ∈ o_assignments (en_own e)).
Proof.
  unfold cut_entry. destruct cap_keeps as (_ & _ & Href). setoid_rewrite Href. clear Href.
  unfold cap_outcome, apply_global_relay_cap. destruct (Nat.leb_spec (size bag) cap) as [|Hlt]; simpl.
  { repeat split; rewrite ?lookup_empty; (set_solver || naive_solver lia). }
  fold ranked. fold selected. fold refused.
  set (cut := p ← refused; _).
  assert (∀ session own, (session, own) ∈ cut ↔ ∃ e, own = en_own e ∧
    ((is_Some (bag !! session) ∧ (session ∉ selected) ∧ cap < size bag) ∧
     ∃ source, bag_in bag session source e)) as Hcut.
  { intros session own. unfold cut. rewrite list_elem_of_bind. split.
    - intros ([s b] & (e & [= -> ->] & (source & es & ? & ?)%elem_of_bag_entries)%list_elem_of_fmap &
        [Hb Hs]%elem_of_refused). exists e. split; [done|]. split; [eauto|]. by exists source, b, es.
    - intros (e & -> & (_ & Hs & _) & source & b & es & Hb & Hes & He).
      exists (session, b). rewrite elem_of_refused. split; [|done].
      apply list_elem_of_fmap. exists e. split; [done|]. apply elem_of_bag_entries. eauto. }
  split_and!.
  - intros d. rewrite elem_of_union_fmap, exists_pair. setoid_rewrite Hcut. naive_solver.
  - intros session d. rewrite gathered_demands, lookup_empty. setoid_rewrite Hcut. set_solver.
  - intros a. rewrite elem_of_union_fmap, exists_pair. setoid_rewrite Hcut. naive_solver.
Qed.
End cap.

(** C28: [apply_global_relay_cap] keeps exactly [min cap |bag|] sessions,
    unchanged; every session it keeps ranks at least as high (assigned
    (demand, author) pairs, then entry weight, then key) as every session it
    refuses; and its outcome names exactly the refused sessions and exactly the
    demands and coverage assignments their entries carried. *)
Theorem apply_global_relay_cap_correct (bag : SessionBag) (cap : nat) :
  let kept := cap_kept bag cap in
  let outcome := cap_outcome bag cap in
  size kept = Nat.min cap (size bag) ∧
  (∀ session by_source, kept !! session = Some by_source ↔
     bag !! session = Some by_source ∧ session ∉ co_refused_sessions outcome) ∧
  co_refused_sessions outcome ⊆ dom bag ∧
  (∀ session by_source session' by_source',
     kept !! session = Some by_source → bag !! session' = Some by_source' →
     session' ∈ co_refused_sessions outcome →
     rank_le (rank_session (session, by_source)) (rank_session (session', by_source'))) ∧
  (∀ d, d ∈ co_limited_demands outcome ↔
     ∃ session e, cut_entry bag cap session e ∧ d ∈ o_demands (en_own e)) ∧
  (∀ session d, d ∈ default ∅ (co_refused_demands outcome !! session) ↔
     ∃ e, cut_entry bag cap session e ∧ d ∈ o_demands (en_own e)) ∧
  (∀ a, a ∈ co_refused_coverage_assignments outcome ↔
     ∃ session e, cut_entry bag cap session e ∧ a ∈ o_assignments (en_own e)).
Proof.
  intros kept outcome. destruct (cap_keeps bag cap) as (Hsize & Hkept & Href).
  destruct (cap_reports bag cap) as (Hlim & Hdem & Hasg).
  split; [done|]. split; [done|]. split; [|split; [|done]].
  - intros session (? & _)%Href. by apply elem_of_dom.
  - intros session b session' b' [Hb Hn]%Hkept Hb' (_ & Hs' & Hlt)%Href.
    apply (selected_outranks bag cap); [done| |done..].
    destruct (decide (session ∈ selected bag cap)); [done|]. destruct Hn. apply Href. eauto.
Qed.

(** ** The subscription budget of one relay *)

Section budget.
Context `{FilterHash}.

Lemma request_le_comparator incumbents : ∃ c, Comparator c ∧
  ∀ a b, request_le incumbents a b ↔ c a b ≠ Gt.
Proof.
  eexists. split; [|intros a b; unfold request_le; apply iff_refl]. simpl.
  apply comparator_then;
    [apply (comparator_desc (λ r, if decide (r_sub_id r ∈ incumbents) then 1 else 0))|].
  apply comparator_then; [apply (comparator_desc (λ r, size (r_coverage_assignments r)))|].
  apply comparator_then; [apply (comparator_desc (λ r, size (r_coverage_claims r)))|].
  apply comparator_then; [apply (comparator_desc (λ r, size (r_provenance r)))|].
  apply (comparator_by (λ a, filter_hash (r_filter a))).
Qed.

Lemma sub_le_comparator : ∃ c, Comparator c ∧ ∀ a b, sub_le a b ↔ c a b ≠ Gt.
Proof.
  exists (λ a b, cmp (r_sub_id a) (r_sub_id b)). split; [apply comparator_by|by intros].
Qed.

(** The cut loses nothing and respects the allowance. *)
Lemma refuse_over_budget_perm reqs allowed prior kept refused :
  refuse_over_budget reqs allowed prior = (kept, refused) →
  kept ++ refused ≡ₚ reqs ∧ length kept = Nat.min allowed (length reqs).
Proof.
  intros [= <- <-]. split.
  - rewrite (merge_sort_Permutation sub_le), take_drop. apply merge_sort_Permutation.
  - rewrite merge_sort_Permutation, length_take, merge_sort_Permutation. lia.
Qed.

(** C27: [refuse_over_budget] keeps exactly [min allowed n] of the [n] requests
    and returns the rest as refused, losing none; every request kept ranks at
    least as high as every one refused, so a request the relay is already
    serving is refused only when every request kept is already being served;
    and the kept requests are in subscription-id order. *)
Theorem refuse_over_budget_correct reqs allowed prior :
  let '(kept, refused) := refuse_over_budget reqs allowed prior in
  let incumbents : gset SubId := list_to_set (r_sub_id <$> default [] prior) in
  kept ++ refused ≡ₚ reqs ∧ length kept = Nat.min allowed (length reqs) ∧
  (∀ a b, a ∈ kept → b ∈ refused → request_le incumbents a b) ∧
  (∀ a b, a ∈ kept → b ∈ refused → r_sub_id b ∈ incumbents → r_sub_id a ∈ incumbents) ∧
  StronglySorted sub_le kept.
Proof.
  destruct (refuse_over_budget reqs allowed prior) as [kept refused] eqn:Hrun. intros incumbents.
  destruct (refuse_over_budget_perm _ _ _ _ _ Hrun) as [Hperm Hlen].
  unfold refuse_over_budget in Hrun. fold incumbents in Hrun. injection Hrun as <- <-.
  assert (∀ a b, a ∈ merge_sort sub_le (take (Nat.min allowed (length (merge_sort (request_le incumbents) reqs)))
            (merge_sort (request_le incumbents) reqs)) →
          b ∈ drop (Nat.min allowed (length (merge_sort (request_le incumbents) reqs)))
            (merge_sort (request_le incumbents) reqs) → request_le incumbents a b) as Hrank.
  { intros a b Ha. rewrite merge_sort_Permutation in Ha. revert Ha.
    destruct (request_le_comparator incumbents) as (c & Hc & HR). by apply (sort_by_prefix _ c Hc HR). }
  split; [done|]. split; [done|]. split; [done|]. split.
  - intros a b Ha Hb Hin. specialize (Hrank a b Ha Hb). unfold request_le in Hrank.
    destruct (decide (r_sub_id a ∈ incumbents)); [done|].
    by rewrite (decide_True (P := r_sub_id b ∈ incumbents)) in Hrank.
  - destruct sub_le_comparator as (c & Hc & HR). by apply (sort_by_sorted _ c Hc HR).
Qed.
End budget.
