(* ===== verification/Planning.v ===== *)
(** * The planning core, verified

    The theorems about [Router.compile_demand]: it never panics, it stays
    within the relay ceiling and every advertised subscription budget, its
    subscription ids are unique and continue the running plan's, contexts are
    never mixed, and every routed demand is either served or reported as
    limited. *)

From S2P Require Import Prelude Grammar Coverage RouterTypes Component Coalesce Solver WireId Route Router Bag Limits.

(** ** Requests and the entries they were made from *)

Definition made_from (rs : list MergeRule) (g : list Entry) (r : WireReq) : Prop :=
  ∃ o, built rs g o ∧ r_filter r = en_filter o ∧ r_provenance r = list_to_set (en_prov o) ∧
    r_coverage_claims r = o_claims (en_own o) ∧ r_owner_demands r = o_demands (en_own o) ∧
    r_coverage_assignments r = o_assignments (en_own o).

(** The ids of the running plan: distinct on a session, made for that session,
    and minted before [next_token]. *)
Definition wf_incumbents (next_token : N) (inc : gmap RelaySessionKey (list WireReq)) : Prop :=
  ∀ session reqs, inc !! session = Some reqs →
    NoDup (r_sub_id <$> reqs) ∧
    ∀ r, r ∈ reqs → sub_relay (r_sub_id r) = s_relay session ∧
      sub_auth (r_sub_id r) = s_authenticate_as session ∧ (sub_mint (r_sub_id r) < next_token)%N.

(** Where a request's id comes from: an incumbent of the same filter and
    routing, or a mint between [c0] and [c] when there is none. *)
Definition id_origin (inc : option (list WireReq)) (session : RelaySessionKey) (c0 c : N)
    (r : WireReq) : Prop :=
  let same q := q ∈ default [] inc ∧ r_filter q = r_filter r ∧ r_routing q = r_routing r in
  (∃ q, same q ∧ r_sub_id q = r_sub_id r) ∨
  ((∀ q, ¬ same q) ∧
   ∃ m, (c0 ≤ m < c)%N ∧ r_sub_id r = mkSub (s_relay session) m (s_authenticate_as session)).

Lemma elem_of_partition_priors inc source f s :
  (f, s) ∈ partition_priors inc source ↔
  ∃ q, q ∈ default [] inc ∧ r_filter q = f ∧ r_sub_id q = s ∧ r_routing q = source.
Proof.
  unfold partition_priors. rewrite list_elem_of_fmap. setoid_rewrite list_elem_of_filter. naive_solver.
Qed.

Lemma coalesced_length rs n entries n' out :
  coalesce_with rs n entries = Some (n', out) → length out ≤ length entries.
Proof.
  intros Hrun. destruct (coalesce_with_spec rs n entries) as (n1 & out1 & Hrun1 & (groups & Hout & Hins & Hb) & _).
  simplify_eq. rewrite <-Hins, length_fmap. clear -Hb.
  induction Hb as [|[g o] groups Hg _ IH]; csimpl; [done|].
  apply built_bookkeeping in Hg as [Hne _]. rewrite length_app. simpl in *.
  destruct g; simpl in *; [done|]. unfold fmap in *. lia.
Qed.

Section partitions.
Context (rs : list MergeRule) (inc : option (list WireReq)) (session : RelaySessionKey) (c0 : N).
Context (Hinc : NoDup (r_sub_id <$> default [] inc)).
Context (Hids : ∀ r, r ∈ default [] inc → sub_relay (r_sub_id r) = s_relay session ∧
  sub_auth (r_sub_id r) = s_authenticate_as session ∧ (sub_mint (r_sub_id r) < c0)%N).

Definition entry_total (done : list (ReadRouting * list Entry)) : nat := length (concat done.*2).

Record partition_inv (done : list (ReadRouting * list Entry)) (ps : PartitionState) : Prop := {
  pi_counter : (c0 ≤ ps_counter ps ≤ c0 + N.of_nat (entry_total done))%N;
  pi_nodup : NoDup (r_sub_id <$> ps_reqs ps);
  pi_origin r : r ∈ ps_reqs ps → id_origin inc session c0 (ps_counter ps) r;
  pi_sound r : r ∈ ps_reqs ps →
    ∃ entries g, (r_routing r, entries) ∈ done ∧ g ⊆ entries ∧ made_from rs g r;
  pi_complete source entries x : (source, entries) ∈ done → x ∈ entries →
    ∃ r g, r ∈ ps_reqs ps ∧ r_routing r = source ∧ x ∈ g ∧ g ⊆ entries ∧ made_from rs g r
}.

Lemma partition_namespace source c :
  (c0 ≤ c)%N →
  fresh_namespace (allocate (s_relay session) source (s_authenticate_as session))
    (partition_priors inc source) c.
Proof.
  intros Hc. split.
  - unfold partition_priors. rewrite <-list_fmap_compose.
    eapply sublist_NoDup; [exact Hinc|]. apply fmap_sublist, sublist_filter.
  - by intros m m' [=].
  - intros f s m (q & Hq & _ & <- & _)%elem_of_partition_priors Hm Heq.
    destruct (Hids q Hq) as (_ & _ & Hlt). rewrite Heq in Hlt. simpl in Hlt. lia.
Qed.

(** The requests one partition contributes. *)
Lemma wire_reqs_lookup source merged assigned r :
  r ∈ wire_req source <$> zip merged assigned →
  ∃ i o a, merged !! i = Some o ∧ assigned !! i = Some a ∧ r = wire_req source (o, a).
Proof.
  intros ([o a] & -> & [i Hi]%list_elem_of_lookup)%list_elem_of_fmap.
  apply lookup_zip_Some in Hi as [Ho Ha]. by exists i, o, a.
Qed.

Lemma entry_total_snoc done source entries :
  entry_total (done ++ [(source, entries)]) = entry_total done + length entries.
Proof. unfold entry_total. rewrite fmap_app, concat_app, length_app. simpl. by rewrite app_nil_r. Qed.

(** The requests of one partition, before they join the session's. *)
Lemma partition_requests n counter source entries :
  (c0 ≤ counter)%N → (counter + N.of_nat (length entries) < 2 ^ 64)%N →
  ∃ n' merged assigned counter',
    coalesce_with rs n entries = Some (n', merged) ∧
    assign (allocate (s_relay session) source (s_authenticate_as session))
      (partition_priors inc source) (en_filter <$> merged) counter = Some (assigned, counter') ∧
    (counter ≤ counter' ≤ counter + N.of_nat (length entries))%N ∧
    let new := wire_req source <$> zip merged assigned in
    NoDup (r_sub_id <$> new) ∧
    (∀ r, r ∈ new → r_routing r = source ∧ id_origin inc session counter counter' r ∧
       ∃ g, g ⊆ entries ∧ made_from rs g r) ∧
    (∀ x, x ∈ entries → ∃ r g, r ∈ new ∧ x ∈ g ∧ g ⊆ entries ∧ made_from rs g r).
Proof.
  intros Hc Hroom. destruct (coalesce_with_spec rs n entries) as (n' & merged & Hrun & Hpart & Hnd & _).
  pose proof (coalesced_length _ _ _ _ _ Hrun) as Hlen.
  destruct (assign_sub_ids (allocate (s_relay session) source (s_authenticate_as session))
    (partition_priors inc source) (en_filter <$> merged) counter)
    as (assigned & counter' & Hassign & Hlen' & Hc' & Hndids & Horigin).
  { by apply partition_namespace. } { rewrite length_fmap. lia. } { done. }
  rewrite length_fmap in *. destruct (partitioned_groups _ _ _ Hpart) as [Hmade Hserved].
  assert (∀ g o a, built rs g o → made_from rs g (wire_req source (o, a))) as Hfrom.
  { intros g o a Hb. exists o. split_and!; done. }
  exists n', merged, assigned, counter'. cbv zeta. split_and!; [done|done|lia|lia|..].
  - rewrite <-list_fmap_compose. rewrite <-(snd_zip merged assigned), <-list_fmap_compose in Hndids by lia.
    by rewrite (list_fmap_ext _ (as_sub_id ∘ snd)) by (by intros i []).
  - intros r (i & o & a & Ho & Ha & ->)%wire_reqs_lookup. split; [done|]. split.
    + destruct (Horigin i a (en_filter o)) as [(_ & Hin & _)|(Hnone & m & Hm & Hmk)];
        [done|by rewrite list_lookup_fmap, Ho|..].
      * left. apply elem_of_partition_priors in Hin as (q & ? & ? & ? & ?). exists q. simpl. auto.
      * right. split; [|by exists m]. simpl. intros q (Hq & Hf & Hr).
        apply (Hnone (r_sub_id q)), elem_of_partition_priors. eauto.
    + destruct (Hmade o) as (g & Hb & Hsub); [by eapply list_elem_of_lookup_2|]. eauto.
  - intros x Hx. destruct (Hserved x Hx) as (g & o & [i Hi]%list_elem_of_lookup & Hb & Hxg & Hsub).
    destruct (lookup_lt_is_Some_2 assigned i) as [a Ha].
    { rewrite Hlen'. by eapply lookup_lt_Some. }
    exists (wire_req source (o, a)), g. split_and!; [|done|done|by apply Hfrom].
    apply list_elem_of_fmap. exists (o, a). split; [done|]. apply list_elem_of_lookup. exists i.
    by apply lookup_zip_Some.
Qed.

Lemma id_origin_widen a b a' b' r :
  (a' ≤ a)%N → (b ≤ b')%N → id_origin inc session a b r → id_origin inc session a' b' r.
Proof.
  intros Ha Hb [?|(? & m & ? & ?)]; [by left|]. right. split; [done|]. exists m. split; [lia|done].
Qed.

(** Requests of different partitions never share an id. *)
Lemma id_origin_disjoint c c' r r' :
  (c0 ≤ c)%N → id_origin inc session c0 c r → id_origin inc session c c' r' →
  r_routing r ≠ r_routing r' → r_sub_id r ≠ r_sub_id r'.
Proof.
  intros Hc Hr Hr' Hne Heq.
  destruct Hr as [(q & (Hq & _ & Hqr) & Hqs)|(_ & m & Hm & Hms)],
           Hr' as [(q' & (Hq' & _ & Hqr') & Hqs')|(_ & m' & Hm' & Hms')].
  - assert (q = q') as <-; [|congruence]. eapply (unique_by_key r_sub_id); [exact Hinc|done..|congruence].
  - destruct (Hids q Hq) as (_ & _ & Hlt). rewrite Hqs, Heq, Hms' in Hlt. simpl in Hlt. lia.
  - destruct (Hids q' Hq') as (_ & _ & Hlt). rewrite Hqs', <-Heq, Hms in Hlt. simpl in Hlt. lia.
  - rewrite Heq, Hms' in Hms. injection Hms as <-. lia.
Qed.

Lemma compile_partition_step done ps source entries :
  partition_inv done ps → source ∉ done.*1 →
  (c0 + N.of_nat (entry_total done + length entries) < 2 ^ 64)%N →
  ∃ ps', compile_partition rs inc session ps (source, entries) = Some ps' ∧
    partition_inv (done ++ [(source, entries)]) ps'.
Proof.
  intros Hps Hnew Hroom. pose proof (pi_counter _ _ Hps) as Hc.
  destruct (partition_requests (ps_attempts ps) (ps_counter ps) source entries)
    as (n' & merged & assigned & counter' & Hrun & Hassign & Hc' & Hnd & Hsound & Hcomplete);
    [lia|lia|].
  unfold compile_partition. rewrite Hrun. simpl. rewrite Hassign. simpl.
  eexists. split; [done|]. cbv zeta in *. split; cbn [ps_counter ps_reqs].
  - rewrite entry_total_snoc. lia.
  - rewrite fmap_app. apply NoDup_app. split_and!; [apply Hps| |done].
    intros s (r & -> & Hr)%list_elem_of_fmap (r' & Heq & Hr')%list_elem_of_fmap.
    destruct (pi_sound _ _ Hps r Hr) as (es & _ & Hes & _).
    destruct (Hsound r' Hr') as (Hrt & Ho' & _).
    apply (id_origin_disjoint (ps_counter ps) counter' r r'); [lia|by apply (pi_origin _ _ Hps)|done| |done].
    rewrite Hrt. intros Hbad. apply Hnew. rewrite <-Hbad. by apply (list_elem_of_fmap_2 fst _ (_, es)).
  - intros r [Hr|Hr]%elem_of_app.
    + eapply id_origin_widen; [..|by apply (pi_origin _ _ Hps)]; lia.
    + destruct (Hsound r Hr) as (_ & Ho & _). eapply id_origin_widen; [..|exact Ho]; lia.
  - intros r [Hr|Hr]%elem_of_app.
    + destruct (pi_sound _ _ Hps r Hr) as (es & g & ? & ?). exists es, g. split; [by apply elem_of_app; left|done].
    + destruct (Hsound r Hr) as (-> & _ & g & ? & ?). exists entries, g.
      split; [apply elem_of_app; right; by left|done].
  - intros source' entries' x [Hin|[= -> ->]%list_elem_of_singleton]%elem_of_app Hx.
    + destruct (pi_complete _ _ Hps _ _ _ Hin Hx) as (r & g & ? & ?). exists r, g.
      split; [by apply elem_of_app; left|done].
    + destruct (Hcomplete x Hx) as (r & g & Hr & ?). exists r, g.
      split; [by apply elem_of_app; right|]. by destruct (Hsound r Hr).
Qed.

Lemma compile_partitions_spec n replacements by_source :
  (c0 + N.of_nat (length (bag_entries by_source)) < 2 ^ 64)%N →
  ∃ ps, foldl (λ o q, ps ← o; compile_partition rs inc session ps q)
          (Some (mkPart c0 n [] replacements)) (ordered_map by_source) = Some ps ∧
    partition_inv (ordered_map by_source) ps.
Proof.
  intros Hroom. apply foldl_option_ind.
  - split; simpl; [unfold entry_total; simpl; lia|constructor|..].
    + by intros r ?%not_elem_of_nil.
    + by intros r ?%not_elem_of_nil.
    + by intros ??? ?%not_elem_of_nil.
  - intros pre [source entries] post ps Hl Hps. apply compile_partition_step; [done|..].
    + pose proof (NoDup_ordered_map_fst by_source) as Hnd. rewrite Hl, fmap_app in Hnd.
      apply NoDup_app in Hnd as (_ & Hdisj & _). intros Hin. apply (Hdisj source Hin). by left.
    + unfold bag_entries in Hroom. rewrite Hl, fmap_app, concat_app, length_app in Hroom.
      csimpl in Hroom. rewrite length_app in Hroom. unfold entry_total. lia.
Qed.
End partitions.

(** ** One session *)

Definition within_budget (budget : CompileBudget) (session : RelaySessionKey) (reqs : list WireReq)
    : Prop :=
  match max_subscriptions budget (s_relay session) with
  | Some allowed => length reqs ≤ allowed
  | None => True
  end.

(** A request a session's bag accounts for. *)
Definition from_bag (rs : list MergeRule) (by_source : SourceBag) (r : WireReq) : Prop :=
  ∃ entries g, by_source !! r_routing r = Some entries ∧ g ⊆ entries ∧ made_from rs g r.

Section sessions.
Context `{FilterHash}.
Context (rs : list MergeRule) (budget : CompileBudget) (inc : gmap RelaySessionKey (list WireReq)).
Context (c0 : N) (Hinc : wf_incumbents c0 inc).

Lemma incumbents_nodup session : NoDup (r_sub_id <$> default [] (inc !! session)).
Proof. destruct (inc !! session) as [reqs|] eqn:E; [by apply (Hinc session)|constructor]. Qed.

Lemma incumbents_ids session c r :
  (c0 ≤ c)%N → r ∈ default [] (inc !! session) → sub_relay (r_sub_id r) = s_relay session ∧
  sub_auth (r_sub_id r) = s_authenticate_as session ∧ (sub_mint (r_sub_id r) < c)%N.
Proof.
  intros Hc. destruct (inc !! session) as [reqs|] eqn:E; simpl; [|by intros ?%not_elem_of_nil].
  intros Hr. destruct (Hinc session reqs E) as [_ Hall]. destruct (Hall r Hr) as (? & ? & ?).
  split_and!; [done..|lia].
Qed.

(** How one session's requests were split into kept and refused. *)
Record session_split (session : RelaySessionKey) (st st' : SessionState)
    (kept refused : list WireReq) : Prop := {
  ss_budget : within_budget budget session kept;
  ss_refused : refused ≠ [] → ∃ allowed, max_subscriptions budget (s_relay session) = Some allowed ∧
    length kept = allowed ∧
    st_shortfalls st' !! session = Some (mkShort allowed (length (kept ++ refused)) (length refused));
  ss_other session' : session' ≠ session → st_reqs st' !! session' = st_reqs st !! session';
  ss_own : st_reqs st' !! session = Some kept ∨
    kept = [] ∧ refused ≠ [] ∧ st_reqs st' !! session = st_reqs st !! session;
  ss_limited : st_limited st' = st_limited st ∪ ⋃ (r_owner_demands <$> refused);
  ss_reported : st_budget_refused st' = st_budget_refused st ++ ((λ r, (session, r)) <$> refused)
}.

Lemma apply_budget_spec session st ps :
  let st' := apply_budget budget (inc !! session) session st ps in
  st_counter st' = ps_counter ps ∧
  ∃ kept refused, kept ++ refused ≡ₚ ps_reqs ps ∧ session_split session st st' kept refused.
Proof.
  pose proof (merge_sort_Permutation sub_le (ps_reqs ps)) as Hperm.
  assert (∀ st', st_reqs st' = <[session := merge_sort sub_le (ps_reqs ps)]> (st_reqs st) →
    st_limited st' = st_limited st → st_budget_refused st' = st_budget_refused st →
    within_budget budget session (merge_sort sub_le (ps_reqs ps)) →
    ∃ kept refused, kept ++ refused ≡ₚ ps_reqs ps ∧ session_split session st st' kept refused) as Hall.
  { intros st' Hr Hl Hb Hw. exists (merge_sort sub_le (ps_reqs ps)), []. rewrite app_nil_r.
    split; [done|]. split; [done|done|..]; rewrite ?Hr, ?Hl, ?Hb.
    - intros. by apply lookup_insert_ne.
    - left. apply lookup_insert_eq.
    - set_solver.
    - by rewrite app_nil_r. }
  unfold apply_budget, within_budget in *.
  destruct (max_subscriptions budget (s_relay session)) as [allowed|] eqn:Hmax; [|by split; [|apply Hall]].
  destruct (Nat.leb_spec (length (merge_sort sub_le (ps_reqs ps))) allowed); [by split; [|apply Hall]|].
  destruct (refuse_over_budget _ _ _) as [kept refused] eqn:Hcut.
  apply refuse_over_budget_perm in Hcut as [Hcut Hlen].
  assert (length (kept ++ refused) = length (merge_sort sub_le (ps_reqs ps))) as Hsum by by rewrite Hcut.
  split; [by case_decide|]. exists kept, refused. split; [by rewrite Hcut|].
  assert (refused ≠ []) as Hne by (intros ->; rewrite app_nil_r in Hsum; lia).
  case_decide as Hk; (split; [unfold within_budget; rewrite Hmax; lia|
    intros _; exists allowed; rewrite Hsum; split_and!; [done|lia|apply lookup_insert_eq]|..]);
    try done; simpl; intros; [by right|by apply lookup_insert_ne|left; apply lookup_insert_eq].
Qed.

(** What one session adds. *)
Record session_step (session : RelaySessionKey) (by_source : SourceBag) (st st' : SessionState)
    (kept refused : list WireReq) : Prop := {
  sp_counter : (st_counter st ≤ st_counter st' ≤
                st_counter st + N.of_nat (length (bag_entries by_source)))%N;
  sp_nodup : NoDup (r_sub_id <$> kept ++ refused);
  sp_sound r : r ∈ kept ++ refused →
    id_origin (inc !! session) session (st_counter st) (st_counter st') r ∧ from_bag rs by_source r;
  sp_complete source entries x : by_source !! source = Some entries → x ∈ entries →
    ∃ r g, r ∈ kept ++ refused ∧ r_routing r = source ∧ x ∈ g ∧ g ⊆ entries ∧ made_from rs g r;
  sp_split : session_split session st st' kept refused
}.

Lemma compile_session_spec session by_source st :
  (c0 ≤ st_counter st)%N →
  (st_counter st + N.of_nat (length (bag_entries by_source)) < 2 ^ 64)%N →
  ∃ st' kept refused, compile_session rs budget inc st (session, by_source) = Some st' ∧
    session_step session by_source st st' kept refused.
Proof.
  intros Hc Hroom.
  destruct (compile_partitions_spec rs (inc !! session) session (st_counter st)
    (incumbents_nodup session) (λ r, incumbents_ids session _ r Hc) (st_attempts st)
    (st_replacements st) by_source Hroom) as (ps & Hrun & Hps).
  unfold compile_session. rewrite Hrun. cbn [mbind option_bind].
  destruct (apply_budget_spec session st ps) as (Hcnt & kept & refused & Hperm & Hsplit).
  eexists _, kept, refused. split; [done|]. split; [| | | |done]; rewrite ?Hcnt.
  - apply (pi_counter _ _ _ _ _ _ Hps).
  - rewrite Hperm. apply (pi_nodup _ _ _ _ _ _ Hps).
  - intros r. rewrite Hperm. intros Hr. split; [by apply (pi_origin _ _ _ _ _ _ Hps)|].
    destruct (pi_sound _ _ _ _ _ _ Hps r Hr) as (es & g & Hes%elem_of_ordered_map & ?). by exists es, g.
  - intros source es x Hes Hx. setoid_rewrite Hperm.
    by apply (pi_complete _ _ _ _ _ _ Hps); [apply elem_of_ordered_map|].
Qed.
(** ** All sessions *)

Definition bag_total (sessions : list (RelaySessionKey * SourceBag)) : nat :=
  sum_list ((λ p, length (bag_entries p.2)) <$> sessions).

(** A request of the compile, kept on its session or refused by its budget. *)
Definition planned (st : SessionState) (session : RelaySessionKey) (r : WireReq) : Prop :=
  r ∈ default [] (st_reqs st !! session).

Record sessions_inv (limited0 : gset DemandKey) (done : list (RelaySessionKey * SourceBag))
    (st : SessionState) : Prop := {
  sv_counter : (c0 ≤ st_counter st ≤ c0 + N.of_nat (bag_total done))%N;
  sv_dom session : is_Some (st_reqs st !! session) → session ∈ done.*1;
  sv_nodup session : NoDup (r_sub_id <$> default [] (st_reqs st !! session));
  sv_budget session : within_budget budget session (default [] (st_reqs st !! session));
  sv_sound session r : planned st session r ∨ (session, r) ∈ st_budget_refused st →
    id_origin (inc !! session) session c0 (st_counter st) r ∧
    ∃ by_source, (session, by_source) ∈ done ∧ from_bag rs by_source r;
  sv_refused session r : (session, r) ∈ st_budget_refused st →
    is_Some (max_subscriptions budget (s_relay session));
  sv_limited d : d ∈ st_limited st ↔ d ∈ limited0 ∨
    ∃ session r, (session, r) ∈ st_budget_refused st ∧ d ∈ r_owner_demands r;
  sv_complete session by_source source entries x :
    (session, by_source) ∈ done → by_source !! source = Some entries → x ∈ entries →
    ∃ r g, (planned st session r ∨ (session, r) ∈ st_budget_refused st) ∧
      r_routing r = source ∧ x ∈ g ∧ g ⊆ entries ∧ made_from rs g r
}.

Lemma within_budget_nil session : within_budget budget session [].
Proof. unfold within_budget. destruct (max_subscriptions budget (s_relay session)); simpl; [lia|done]. Qed.

Lemma sessions_inv_init limited0 n repl refused0 shortfalls :
  sessions_inv limited0 [] (mkSess c0 n ∅ repl limited0 refused0 shortfalls []).
Proof.
  split; unfold planned; simpl.
  - unfold bag_total. simpl. lia.
  - intros session [? Hs]. by rewrite lookup_empty in Hs.
  - intros. rewrite lookup_empty. constructor.
  - intros. rewrite lookup_empty. apply within_budget_nil.
  - intros session r. rewrite lookup_empty. by intros [?%not_elem_of_nil|?%not_elem_of_nil].
  - by intros ?? ?%not_elem_of_nil.
  - intros d. split; [by left|]. by intros [?|(? & ? & ?%not_elem_of_nil & _)].
  - by intros ????? ?%not_elem_of_nil.
Qed.

(** The step's effect on one session's planned requests. *)
Lemma split_planned session st st' kept refused :
  session_split session st st' kept refused → st_reqs st !! session = None →
  default [] (st_reqs st' !! session) = kept.
Proof.
  intros Hs Hnone. destruct (ss_own _ _ _ _ _ Hs) as [->|(-> & _ & ->)]; [done|]. by rewrite Hnone.
Qed.

Lemma sessions_inv_step limited0 done session by_source st st' kept refused :
  sessions_inv limited0 done st → session ∉ done.*1 →
  session_step session by_source st st' kept refused →
  sessions_inv limited0 (done ++ [(session, by_source)]) st'.
Proof.
  intros Hst Hnew Hstep. pose proof (sp_split _ _ _ _ _ _ Hstep) as Hs.
  pose proof (sv_counter _ _ _ Hst) as Hc. pose proof (sp_counter _ _ _ _ _ _ Hstep) as Hc'.
  assert (st_reqs st !! session = None) as Hnone.
  { apply eq_None_not_Some. intros ?. by apply Hnew, (sv_dom _ _ _ Hst). }
  pose proof (split_planned _ _ _ _ _ Hs Hnone) as Hown.
  assert (∀ s r, planned st' s r ∨ (s, r) ∈ st_budget_refused st' ↔
            (planned st s r ∨ (s, r) ∈ st_budget_refused st) ∨ s = session ∧ r ∈ kept ++ refused) as Hin.
  { intros s r. unfold planned. rewrite (ss_reported _ _ _ _ _ Hs), !elem_of_app, list_elem_of_fmap.
    destruct (decide (s = session)) as [->|].
    - rewrite Hown, Hnone. set_solver.
    - rewrite (ss_other _ _ _ _ _ Hs) by done. naive_solver. }
  split.
  - unfold bag_total in *. rewrite fmap_app, sum_list_with_app. simpl. lia.
  - intros s Hsome. rewrite fmap_app, elem_of_app. destruct (decide (s = session)) as [->|].
    + right. by left.
    + left. rewrite (ss_other _ _ _ _ _ Hs) in Hsome by done. by apply (sv_dom _ _ _ Hst).
  - intros s. destruct (decide (s = session)) as [->|].
    + rewrite Hown. pose proof (sp_nodup _ _ _ _ _ _ Hstep) as Hnd. rewrite fmap_app in Hnd.
      by apply NoDup_app in Hnd as [? _].
    + rewrite (ss_other _ _ _ _ _ Hs) by done. apply Hst.
  - intros s. destruct (decide (s = session)) as [->|].
    + rewrite Hown. apply Hs.
    + rewrite (ss_other _ _ _ _ _ Hs) by done. apply Hst.
  - intros s r [Hr|[-> Hr]]%Hin; setoid_rewrite elem_of_app.
    + destruct (sv_sound _ _ _ Hst s r Hr) as (? & b & ? & ?).
      split; [eapply id_origin_widen; [..|done]; lia|eauto].
    + destruct (sp_sound _ _ _ _ _ _ Hstep r Hr) as [? ?].
      split; [eapply id_origin_widen; [..|done]; lia|]. exists by_source. rewrite list_elem_of_singleton. eauto.
  - intros s r. rewrite (ss_reported _ _ _ _ _ Hs), elem_of_app, list_elem_of_fmap.
    intros [?|(r' & [= -> ->] & Hr)]; [by eapply Hst|].
    destruct (ss_refused _ _ _ _ _ Hs) as (n & -> & _); [|by exists n]. by intros ->; apply not_elem_of_nil in Hr.
  - intros d. rewrite (ss_limited _ _ _ _ _ Hs), (ss_reported _ _ _ _ _ Hs), elem_of_union.
    rewrite (sv_limited _ _ _ Hst), elem_of_union_fmap. setoid_rewrite elem_of_app.
    setoid_rewrite list_elem_of_fmap. naive_solver.
  - intros s b source es x [Hd|[= -> ->]%list_elem_of_singleton]%elem_of_app Hes Hx; setoid_rewrite Hin.
    + destruct (sv_complete _ _ _ Hst s b source es x Hd Hes Hx) as (r & g & ? & ?). exists r, g. eauto.
    + destruct (sp_complete _ _ _ _ _ _ Hstep source es x Hes Hx) as (r & g & ? & ?). exists r, g. eauto.
Qed.

Lemma compile_sessions_spec (bag : SessionBag) limited0 n repl refused0 shortfalls :
  (c0 + N.of_nat (bag_total (ordered_map bag)) < 2 ^ 64)%N →
  ∃ st, compile_sessions rs budget inc (mkSess c0 n ∅ repl limited0 refused0 shortfalls [])
          (ordered_map bag) = Some st ∧ sessions_inv limited0 (ordered_map bag) st.
Proof.
  intros Hroom. apply foldl_option_ind; [apply sessions_inv_init|].
  intros pre [session by_source] post st Hl Hst. pose proof (sv_counter _ _ _ Hst) as Hc.
  assert (bag_total (ordered_map bag) =
    bag_total pre + (length (bag_entries by_source) + bag_total post)) as Htot.
  { rewrite Hl. unfold bag_total. by rewrite fmap_app, sum_list_with_app. }
  destruct (compile_session_spec session by_source st) as (st' & kept & refused & Hrun & Hstep); [lia..|].
  exists st'. split; [done|]. eapply sessions_inv_step; [done| |done].
  pose proof (NoDup_ordered_map_fst bag) as Hnd. rewrite Hl, fmap_app in Hnd.
  apply NoDup_app in Hnd as (_ & Hdisj & _). intros Hin. apply (Hdisj session Hin). by left.
Qed.
End sessions.
