(* ===== verification/Compile.v ===== *)
(** * The planning core, end to end

    The theorems about [compile_demand] of [crates/nmp-router/src/router.rs]:
    it never panics, it respects both ceilings, its subscription ids are unique
    and continue the running plan's, contexts are never mixed, and whatever it
    routes is either on the wire or reported as limited. *)

From S2P Require Import Prelude Grammar Coverage RouterTypes Component Coalesce Solver WireId Route Router Bag Limits Planning.

(** ** Requests and their owners *)

(** The number of bag entries a demand materializes: the most ids one compile
    can mint. *)
Definition entry_count `{HexCodec, RoutingFacts} (demand : gset ContextualAtom) : nat :=
  match gr ← group_demand demand; materialize gr with
  | Some (bag, _) => bag_total (ordered_map bag)
  | None => 0
  end.

(** What a compile relies on: authors are hex keys (the resolver parsed them),
    the running plan's ids were minted before [next_token], and neither the
    mint counter nor the solver's [usize::MAX] relay cap is within reach. *)
Record well_posed `{HexCodec, RoutingFacts} (next_token : N)
    (inc : gmap RelaySessionKey (list WireReq)) (demand : gset ContextualAtom) : Prop := {
  wp_authors : wf_demand demand;
  wp_incumbents : wf_incumbents next_token inc;
  wp_room : (next_token + N.of_nat (entry_count demand) < 2 ^ 64)%N;
  wp_small : (2 * N.of_nat (size (demand_authors demand)) < usize_max)%N
}.

Lemma bag_total_submseteq l k : l ⊆+ k → bag_total l ≤ bag_total k.
Proof.
  intros [k' Hk]%submseteq_Permutation. unfold bag_total. rewrite Hk, fmap_app, sum_list_with_app. lia.
Qed.

Lemma bag_total_kept (bag : SessionBag) cap :
  bag_total (ordered_map (cap_kept bag cap)) ≤ bag_total (ordered_map bag).
Proof.
  apply bag_total_submseteq. rewrite !ordered_map_perm. apply map_to_list_submseteq.
  apply map_subseteq_spec. intros session b Hb. by apply (cap_keeps bag cap) in Hb as [? _].
Qed.

Lemma elem_of_own_union_demands g d :
  d ∈ o_demands (own_union g) ↔ ∃ x, x ∈ g ∧ d ∈ o_demands (en_own x).
Proof.
  unfold own_union. induction g as [|x g IH]; csimpl.
  - split; [set_solver|]. by intros (? & ?%not_elem_of_nil & _).
  - rewrite elem_of_union, IH. set_solver.
Qed.

(** ** Injectivity of the plan's ids *)

Lemma distinct_ids_NoDup seen reqs :
  distinct_ids seen reqs = true ↔ NoDup (r_sub_id <$> reqs) ∧ ∀ r, r ∈ reqs → r_sub_id r ∉ seen.
Proof.
  revert seen. induction reqs as [|r reqs IH]; intros seen; csimpl.
  - split; [intros _|done]. split; [constructor|]. by intros r ?%not_elem_of_nil.
  - rewrite andb_true_iff, bool_decide_eq_true, IH, NoDup_cons. setoid_rewrite elem_of_cons.
    setoid_rewrite list_elem_of_fmap. set_solver.
Qed.

Definition plan_ids (reqs : gmap RelaySessionKey (list WireReq)) : list SubId :=
  r_sub_id <$> concat (ordered_map reqs).*2.

(** Ids that name their session are unique when they are unique per session. *)
Lemma plan_ids_nodup reqs :
  (∀ session l, reqs !! session = Some l → NoDup (r_sub_id <$> l) ∧
     ∀ r, r ∈ l → sub_relay (r_sub_id r) = s_relay session ∧ sub_auth (r_sub_id r) = s_authenticate_as session) →
  NoDup (plan_ids reqs).
Proof.
  intros Hreqs. unfold plan_ids. setoid_rewrite <-elem_of_ordered_map in Hreqs.
  pose proof (NoDup_ordered_map_fst reqs) as Hnd.
  induction (ordered_map reqs) as [|[session l] rest IH]; [constructor|].
  csimpl in *. apply NoDup_cons in Hnd as [Hnew Hnd]. rewrite fmap_app. apply NoDup_app.
  destruct (Hreqs session l ltac:(by left)) as [Hl Hids]. split_and!; [done| |].
  - intros s (r & -> & Hr)%list_elem_of_fmap (r' & Heq & (l' & Hr' & Hl')%elem_of_concat)%list_elem_of_fmap.
    apply list_elem_of_fmap in Hl' as ([session' l''] & -> & Hin).
    destruct (Hreqs session' l'' ltac:(by right)) as [_ Hids'].
    destruct (Hids r Hr) as [Hu Ha], (Hids' r' Hr') as [Hu' Ha'].
    assert (session = session') as <-.
    { destruct session, session'. simpl in *. congruence. }
    by apply Hnew, (list_elem_of_fmap_2 fst _ (session, l'')).
  - apply IH; [|done]. intros s l' ?. apply Hreqs. by right.
Qed.

Section compile.
Context `{HexLaws, RoutingFacts, FilterHash}.
Context (reg : RuleRegistry) (next_token : N) (inc : gmap RelaySessionKey (list WireReq)).
Context (demand : gset ContextualAtom) (budget : CompileBudget).
Context (Hwp : well_posed next_token inc demand).

(** The intermediate states of a successful compile. *)
Record compiled_from (bag : SessionBag) (st : SessionState) (cd : CompiledDemand) : Prop := {
  cf_bag : bag_spec demand bag;
  cf_sessions : sessions_inv (rules reg) budget inc next_token
    (co_limited_demands (cap_outcome bag (relay_cap budget)))
    (ordered_map (cap_kept bag (relay_cap budget))) st;
  cf_reqs : p_reqs (cd_plan cd) = st_reqs st;
  cf_limited : p_limited_demands (cd_plan cd) = st_limited st;
  cf_refused : cd_budget_refused_requests cd = st_budget_refused st;
  cf_cap_refused : cd_cap_refused_demands cd =
    co_refused_demands (cap_outcome bag (relay_cap budget));
  cf_next : cd_next_token cd = st_counter st
}.

Lemma id_origin_session session c r :
  id_origin (inc !! session) session next_token c r →
  sub_relay (r_sub_id r) = s_relay session ∧ sub_auth (r_sub_id r) = s_authenticate_as session ∧
  (next_token ≤ c → sub_mint (r_sub_id r) < c)%N.
Proof.
  intros [(q & (Hq & _) & <-)|(_ & m & Hm & ->)]; [|simpl; split_and!; [done..|lia]].
  destruct (incumbents_ids inc next_token (wp_incumbents _ _ _ Hwp) session next_token q) as (? & ? & ?);
    [lia|done|]. split_and!; [done..|lia].
Qed.

Lemma sessions_inv_ids limited0 sessions st :
  sessions_inv (rules reg) budget inc next_token limited0 sessions st → NoDup (plan_ids (st_reqs st)).
Proof.
  intros Hst. apply plan_ids_nodup. intros session l Hl. split.
  - pose proof (sv_nodup _ _ _ _ _ _ _ Hst session) as Hnd. by rewrite Hl in Hnd.
  - intros r Hr. destruct (sv_sound _ _ _ _ _ _ _ Hst session r) as [Ho _].
    { left. unfold planned. by rewrite Hl. }
    by apply id_origin_session in Ho as (? & ? & _).
Qed.

Lemma compile_demand_spec :
  ∃ bag st cd, compile_demand reg next_token inc demand budget = Some cd ∧ compiled_from bag st cd.
Proof.
  destruct (group_demand_spec demand (wp_authors _ _ _ Hwp)) as (gr & Hgr & Hinv).
  destruct (materialize_spec demand gr Hinv (wp_small _ _ _ Hwp)) as (bag & unc & Hmat & Hbag).
  pose proof (wp_room _ _ _ Hwp) as Hroom. unfold entry_count in Hroom. rewrite Hgr in Hroom.
  cbn [mbind option_bind] in Hroom. rewrite Hmat in Hroom.
  pose proof (bag_total_kept bag (relay_cap budget)) as Hle.
  destruct (compile_sessions_spec (rules reg) budget inc next_token (wp_incumbents _ _ _ Hwp)
    (cap_kept bag (relay_cap budget)) (co_limited_demands (cap_outcome bag (relay_cap budget)))
    (pair_attempts reg) ∅ (co_refused_sessions (cap_outcome bag (relay_cap budget))) ∅)
    as (st & Hrun & Hst); [lia|].
  unfold compile_demand. rewrite Hgr. cbn [mbind option_bind]. rewrite Hmat. cbn [mbind option_bind].
  unfold cap_kept, cap_outcome in *. destruct (apply_global_relay_cap bag (relay_cap budget)) as [kept cap] eqn:Hcap.
  simpl in Hrun, Hst. rewrite Hrun. cbn [mbind option_bind].
  assert (distinct_ids ∅ (concat (ordered_map (st_reqs st)).*2) = true) as ->.
  { apply distinct_ids_NoDup. split; [by apply sessions_inv_ids in Hst|set_solver]. }
  eexists bag, st, _. split; [done|]. split; try done; unfold cap_kept, cap_outcome; by rewrite Hcap.
Qed.

(** What becomes of a bag entry. *)
Definition on_wire (cd : CompiledDemand) (session : RelaySessionKey) (r : WireReq) : Prop :=
  r ∈ default [] (p_reqs (cd_plan cd) !! session).

Lemma entry_outcome bag st cd session source x :
  compiled_from bag st cd → Forall Widens (rules reg) → bag_in bag session source x →
  (∃ r, on_wire cd session r ∧ r_routing r = source ∧ o_demands (en_own x) ⊆ r_owner_demands r ∧
     ∀ ev, concrete_matches (en_filter x) ev → concrete_matches (r_filter r) ev) ∨
  o_demands (en_own x) ⊆ p_limited_demands (cd_plan cd).
Proof.
  intros Hcf Hw (b & entries & Hb & Hes & Hx). pose proof (cf_sessions _ _ _ Hcf) as Hst.
  unfold on_wire. rewrite (cf_reqs _ _ _ Hcf), (cf_limited _ _ _ Hcf).
  destruct (cap_keeps bag (relay_cap budget)) as (_ & Hkept & _).
  destruct (decide (session ∈ co_refused_sessions (cap_outcome bag (relay_cap budget)))) as [Hcut|Hnot].
  { right. intros d Hd. apply (sv_limited _ _ _ _ _ _ _ Hst). left. apply cap_reports.
    exists session, x. split; [|done]. split; [done|]. by exists source, b, entries. }
  destruct (sv_complete _ _ _ _ _ _ _ Hst session b source entries x) as (r & g & Hr & Hsrc & Hxg & _ & o & Hbuilt & Hf & _ & _ & Hown & _);
    [by apply elem_of_ordered_map, Hkept|done..|].
  destruct (built_contains _ _ _ x Hbuilt Hxg) as (_ & _ & Hdem & _). rewrite <-Hown in Hdem.
  destruct Hr as [Hr|Hr].
  - left. exists r. split_and!; [done..|]. intros ev Hev. rewrite Hf.
    eapply built_widens; [done..|]. apply Exists_exists. by exists x.
  - right. intros d Hd. apply (sv_limited _ _ _ _ _ _ _ Hst). right. eauto.
Qed.

(** An entry that serves an atom's events is on the wire or limited. *)
Lemma serves_outcome bag st cd session source x atom P :
  compiled_from bag st cd → Forall Widens (rules reg) → bag_in bag session source x → serves atom P x →
  demand_for_atom atom ∉ p_limited_demands (cd_plan cd) →
  ∃ r, on_wire cd session r ∧ r_routing r = source ∧ demand_for_atom atom ∈ r_owner_demands r ∧
    ∀ ev, P ev → concrete_matches (a_filter atom) ev → concrete_matches (r_filter r) ev.
Proof.
  intros Hcf Hw Hin [Hd Hm] Hlim.
  destruct (entry_outcome _ _ _ _ _ _ Hcf Hw Hin) as [(r & ? & ? & Hdem & Hf)|Hdem]; [|by destruct Hlim; apply Hdem].
  exists r. split_and!; auto.
Qed.

(** C14: [compile_demand] never panics, opens no more sessions than the relay
    ceiling allows, and never plans more requests on a session than its relay
    advertises it will serve. *)
Theorem compile_demand_within_limits :
  ∃ cd, compile_demand reg next_token inc demand budget = Some cd ∧
    size (p_reqs (cd_plan cd)) ≤ relay_cap budget ∧
    ∀ session reqs, p_reqs (cd_plan cd) !! session = Some reqs → within_budget budget session reqs.
Proof.
  destruct compile_demand_spec as (bag & st & cd & Hrun & Hcf). exists cd. split; [done|].
  rewrite (cf_reqs _ _ _ Hcf). pose proof (cf_sessions _ _ _ Hcf) as Hst. split.
  - destruct (cap_keeps bag (relay_cap budget)) as (Hsize & _).
    rewrite <-size_dom. etrans; [apply (subseteq_size _ (dom (cap_kept bag (relay_cap budget))))|rewrite size_dom; lia].
    intros session [? Hs]%elem_of_dom. apply elem_of_dom, elem_of_ordered_map_fst, (sv_dom _ _ _ _ _ _ _ Hst). eauto.
  - intros session reqs Hs. pose proof (sv_budget _ _ _ _ _ _ _ Hst session) as Hb. by rewrite Hs in Hb.
Qed.

(** C26: the plan's subscription ids are globally unique; a request whose filter
    and routing an incumbent of its session has keeps that incumbent's id and
    every other id is freshly minted; and the plan is a valid incumbent for the
    next compile, so these guarantees hold along any sequence of compiles. *)
Theorem compile_demand_ids :
  ∃ cd, compile_demand reg next_token inc demand budget = Some cd ∧
    NoDup (plan_ids (p_reqs (cd_plan cd))) ∧
    (∀ session r, on_wire cd session r →
       id_origin (inc !! session) session next_token (cd_next_token cd) r) ∧
    (next_token ≤ cd_next_token cd)%N ∧
    wf_incumbents (cd_next_token cd) (p_reqs (cd_plan cd)).
Proof.
  destruct compile_demand_spec as (bag & st & cd & Hrun & Hcf). exists cd. split; [done|].
  unfold on_wire. rewrite (cf_reqs _ _ _ Hcf), (cf_next _ _ _ Hcf). pose proof (cf_sessions _ _ _ Hcf) as Hst.
  pose proof (sv_counter _ _ _ _ _ _ _ Hst) as [Hc _].
  assert (∀ session r, r ∈ default [] (st_reqs st !! session) →
    id_origin (inc !! session) session next_token (st_counter st) r) as Ho.
  { intros session r Hr. by apply (sv_sound _ _ _ _ _ _ _ Hst session r); left. }
  split; [by apply sessions_inv_ids in Hst|]. split; [done|]. split; [done|].
  intros session reqs Hs. split.
  - pose proof (sv_nodup _ _ _ _ _ _ _ Hst session) as Hnd. by rewrite Hs in Hnd.
  - intros r Hr. destruct (id_origin_session session (st_counter st) r) as (? & ? & Hm); [|auto].
    apply Ho. by rewrite Hs.
Qed.

(** C25: contexts are never mixed: every demand a request on the wire is owned by
    comes from an atom of the demand that authenticates as that session's
    identity and has that request's routing, and a request of an explicitly
    routed atom is only ever sent to a relay the atom names. *)
Theorem compile_demand_contexts :
  ∃ cd, compile_demand reg next_token inc demand budget = Some cd ∧
    ∀ session r d, on_wire cd session r → d ∈ r_owner_demands r →
      ∃ atom, atom ∈ demand ∧ d = demand_for_atom atom ∧ same_context atom session (r_routing r).
Proof.
  destruct compile_demand_spec as (bag & st & cd & Hrun & Hcf). exists cd. split; [done|].
  unfold on_wire. rewrite (cf_reqs _ _ _ Hcf). pose proof (cf_sessions _ _ _ Hcf) as Hst.
  intros session r d Hr Hd.
  destruct (sv_sound _ _ _ _ _ _ _ Hst session r) as (_ & b & Hb & entries & g & Hes & Hg & o & Hbuilt & _ & _ & _ & Hown & _);
    [by left|].
  apply elem_of_ordered_map, (cap_keeps bag (relay_cap budget)) in Hb as [Hb _].
  apply built_bookkeeping in Hbuilt as (_ & Ho & _). rewrite Hown, Ho in Hd.
  apply elem_of_own_union_demands in Hd as (x & Hx & Hd).
  apply (bs_context _ _ (cf_bag _ _ _ Hcf) session (r_routing r) x d); [|done]. exists b, entries. auto.
Qed.

(** C16: every explicitly routed atom is on the wire of every relay it names, in
    a request that carries its demand and matches every event it matches, unless
    its demand is reported as limited. *)
Theorem compile_demand_serves_explicit :
  Forall Widens (rules reg) →
  ∃ cd, compile_demand reg next_token inc demand budget = Some cd ∧
    ∀ atom l u, atom ∈ demand → a_routing atom = Explicit l → u ∈ l →
      demand_for_atom atom ∉ p_limited_demands (cd_plan cd) →
      ∃ r, on_wire cd (mkSession u (a_authenticate_as atom)) r ∧
        demand_for_atom atom ∈ r_owner_demands r ∧
        ∀ ev, concrete_matches (a_filter atom) ev → concrete_matches (r_filter r) ev.
Proof.
  intros Hw. destruct compile_demand_spec as (bag & st & cd & Hrun & Hcf). exists cd. split; [done|].
  intros atom l u Hatom Hl Hu Hlim.
  destruct (bs_exact _ _ (cf_bag _ _ _ Hcf) atom l u Hatom Hl Hu) as (source & e & Hin & Hs).
  destruct (serves_outcome _ _ _ _ _ _ _ _ Hcf Hw Hin Hs Hlim) as (r & ? & _ & ? & ?). exists r. auto.
Qed.


(** The limited report is exact: a demand is reported as limited if and only
    if the relay ceiling refused one of its sessions or a relay's advertised
    budget refused one of its requests, and a request is budget-refused only on
    a relay that advertises a limit. *)
Theorem compile_demand_limited_exact :
  ∃ cd, compile_demand reg next_token inc demand budget = Some cd ∧
    (∀ d, d ∈ p_limited_demands (cd_plan cd) ↔
       (∃ session, d ∈ default ∅ (cd_cap_refused_demands cd !! session)) ∨
       ∃ session r, (session, r) ∈ cd_budget_refused_requests cd ∧ d ∈ r_owner_demands r) ∧
    ∀ session r, (session, r) ∈ cd_budget_refused_requests cd →
      is_Some (max_subscriptions budget (s_relay session)).
Proof.
  destruct compile_demand_spec as (bag & st & cd & Hrun & Hcf). exists cd. split; [done|].
  pose proof (cf_sessions _ _ _ Hcf) as Hst. rewrite (cf_limited _ _ _ Hcf), (cf_refused _ _ _ Hcf).
  rewrite (cf_cap_refused _ _ _ Hcf). split; [|by apply Hst].
  destruct (cap_reports bag (relay_cap budget)) as (Hlim & Hdem & _).
  intros d. rewrite (sv_limited _ _ _ _ _ _ _ Hst), Hlim. setoid_rewrite Hdem. done.
Qed.
End compile.

(** ** A concrete compile

    Two atoms: notes by author 7, who writes to three relays, and an explicitly
    routed copy read as identity 3.  Relay [b] advertises one subscription. *)

Module CompileSample.
Import Sample.

#[global] Instance facts : RoutingFacts := {|
  author_routes a := if decide (a = 7%N) then Present (mkRoutes {[ "wss://a"; "wss://b"; "wss://c" ]} ∅)
                     else Unknown;
  operator_app_relays := ["wss://app"]; operator_fallback_relays := [] |}.
#[global] Instance hash : FilterHash := λ _, 0%N.

Definition notes : ConcreteFilter :=
  set_authors (Some {[ to_hex 7 ]}) (set_kinds (Some {[ 1%N ]}) filter_default).
Definition auto_atom : ContextualAtom := mkAtom notes Auto None ∅.
Definition explicit_atom : ContextualAtom := mkAtom notes (Explicit ["wss://z"]) (Some 3%N) ∅.
Definition demand : gset ContextualAtom := {[ auto_atom; explicit_atom ]}.
Definition budget : CompileBudget :=
  advertising "wss://b" (mkLimits (Some 1) None) (with_relay_cap 10).

(** The running plan already asks the app relay for these notes. *)
Definition running : gmap RelaySessionKey (list WireReq) :=
  {[ mkSession "wss://app" None := [mkReq (mkSub "wss://app" 4 None) notes Auto ∅ ∅ ∅ ∅] ]}.

Lemma posed : well_posed 5 running demand.
Proof.
  split.
  - apply (bool_decide_unpack (set_Forall (λ a, a_routing a = Auto → parses pk_from_hex (f_authors (a_filter a))) demand)).
    vm_compute. exact I.
  - intros session reqs Hin. unfold running in Hin. apply lookup_singleton_Some in Hin as [<- <-]. split; [decide_now|].
    intros r ->%list_elem_of_singleton. by split_and!.
  - assert (entry_count demand = 4) as -> by decide_now. done.
  - assert (size (demand_authors demand) = 1) as -> by decide_now. done.
Qed.

Lemma widening : Forall Widens (rules default_widen_only).
Proof. apply Forall_singleton, _. Qed.

(** "Notes by nobody": an empty author set, as opposed to no author constraint. *)
Definition nobody : ContextualAtom :=
  mkAtom (set_authors (Some ∅) (set_kinds (Some {[ 1%N ]}) filter_default)) Auto None ∅.
End CompileSample.

Import Sample CompileSample.

Lemma compile_demand_within_limits_witness :
  ∃ cd, compile_demand default_widen_only 5 running demand budget = Some cd ∧
    size (p_reqs (cd_plan cd)) ≤ 10.
Proof.
  destruct (compile_demand_within_limits default_widen_only 5 running demand budget posed)
    as (cd & Hrun & Hsize & _). exists cd. exact (conj Hrun Hsize).
Defined.

Lemma compile_demand_ids_witness :
  ∃ cd, compile_demand default_widen_only 5 running demand budget = Some cd ∧
    NoDup (plan_ids (p_reqs (cd_plan cd))) ∧ wf_incumbents (cd_next_token cd) (p_reqs (cd_plan cd)).
Proof.
  destruct (compile_demand_ids default_widen_only 5 running demand budget posed)
    as (cd & Hrun & Hnd & _ & _ & Hwf). exists cd. exact (conj Hrun (conj Hnd Hwf)).
Defined.

Lemma compile_demand_contexts_witness :
  ∃ cd, compile_demand default_widen_only 5 running demand budget = Some cd ∧
    ∀ r, on_wire cd (mkSession "wss://z" (Some 3%N)) r → demand_for_atom auto_atom ∉ r_owner_demands r.
Proof.
  destruct (compile_demand_contexts default_widen_only 5 running demand budget posed)
    as (cd & Hrun & Hctx). exists cd. split; [exact Hrun|]. intros r Hr Hd.
  destruct (Hctx _ r _ Hr Hd) as (atom & _ & (_ & _ & Ha)%demand_for_atom_inj & Hauth & _). by rewrite <-Ha in Hauth.
Defined.

Lemma compile_demand_serves_explicit_witness :
  ∃ cd, compile_demand default_widen_only 5 running demand budget = Some cd ∧
    (demand_for_atom explicit_atom ∉ p_limited_demands (cd_plan cd) →
     ∃ r, on_wire cd (mkSession "wss://z" (Some 3%N)) r ∧
       demand_for_atom explicit_atom ∈ r_owner_demands r).
Proof.
  destruct (compile_demand_serves_explicit default_widen_only 5 running demand budget posed widening)
    as (cd & Hrun & Hserves). exists cd. split; [exact Hrun|]. intros Hlim.
  destruct (Hserves explicit_atom ["wss://z"] "wss://z") as (r & Hr & Hd & _);
    [set_solver|done|by left|exact Hlim|]. exists r. exact (conj Hr Hd).
Defined.


Lemma compile_demand_limited_exact_witness :
  ∃ cd, compile_demand default_widen_only 5 running demand budget = Some cd ∧
    ∀ session r, (session, r) ∈ cd_budget_refused_requests cd → s_relay session = "wss://b".
Proof.
  destruct (compile_demand_limited_exact default_widen_only 5 running demand budget posed)
    as (cd & Hrun & _ & Hlim). exists cd. split; [exact Hrun|]. intros session r Hr.
  destruct (Hlim session r Hr) as [n Hn]. unfold max_subscriptions, budget in Hn.
  destruct (decide ("wss://b" = s_relay session)) as [|Hne]; [done|].
  cbn [advertised advertising with_relay_cap] in Hn. by rewrite lookup_insert_ne in Hn by done.
Defined.

(** An atom that names an empty set of authors is not marked unbounded, yet its
    plan sends the app relay the author-less skeleton, in a request that no
    demand owns and that can prove no coverage: without authors the two branches
    of [lane_filter] agree. *)
Lemma empty_author_set_is_planned_unowned :
  (λ cd, (λ r, (f_authors (r_filter r), r_owner_demands r, r_coverage_claims r)) <$>
           default [] (p_reqs (cd_plan cd) !! mkSession "wss://app" None))
    <$> compile_demand default_widen_only 0 ∅ {[ nobody ]} budget = Some [(None, ∅, ∅)].
Proof. decide_now. Qed.
