(* ===== verification/Schema.v ===== *)
(** * Durable key layouts

    The byte keys of [crates/nmp-store/src/redb_store/schema.rs] and
    [query.rs].  A table orders its keys as byte strings, so a scan between two
    keys is only right if the layout keeps the logical order: a big-endian
    integer compares like its value, and the columns of one event are
    contiguous.

    A byte is an [N] below 256; [&[u8]] is a list of them, ordered
    lexicographically. *)

From S2P Require Import Prelude Grammar.

(** ** Big-endian integers *)

Abbreviation bytes := (list N) (only parsing).

(** [uN::to_be_bytes] for a width of [w] bytes. *)
Fixpoint be_bytes (w : nat) (n : N) : bytes :=
  match w with
  | O => []
  | S w => be_bytes w (n / 256) ++ [(n mod 256)%N]
  end.

(** [uN::from_be_bytes]. *)
Definition from_be_bytes (bs : bytes) : N := foldl (λ acc b, (acc * 256 + b)%N) 0%N bs.

(** [str::as_bytes]. *)
Definition as_bytes (s : string) : bytes := Ascii.N_of_ascii <$> String.list_ascii_of_string s.

Lemma length_be_bytes w n : length (be_bytes w n) = w.
Proof. revert n. induction w as [|w IH]; intros n; simpl; [done|]. rewrite length_app, IH. simpl. lia. Qed.

Lemma from_be_bytes_app bs cs :
  from_be_bytes (bs ++ cs) = (from_be_bytes bs * 256 ^ N.of_nat (length cs) + from_be_bytes cs)%N.
Proof.
  unfold from_be_bytes. rewrite foldl_app. generalize (foldl (λ acc b, (acc * 256 + b)%N) 0%N bs) as a.
  induction cs as [|c cs IH] using rev_ind; intros a; [simpl; lia|].
  rewrite !foldl_app, IH, length_app, Nat2N.inj_add, N.pow_add_r. simpl. lia.
Qed.

Lemma from_to_be_bytes w n : (n < 256 ^ N.of_nat w)%N → from_be_bytes (be_bytes w n) = n.
Proof.
  revert n. induction w as [|w IH]; intros n Hn.
  - simpl in *. unfold from_be_bytes. simpl. lia.
  - simpl. rewrite from_be_bytes_app, IH.
    + unfold from_be_bytes. simpl. pose proof (N.div_mod n 256). lia.
    + rewrite Nat2N.inj_succ, N.pow_succ_r' in Hn. apply N.Div0.div_lt_upper_bound. lia.
Qed.

Lemma be_bytes_inj w n m :
  (n < 256 ^ N.of_nat w)%N → (m < 256 ^ N.of_nat w)%N → be_bytes w n = be_bytes w m → n = m.
Proof. intros Hn Hm Heq. by rewrite <-(from_to_be_bytes w n), <-(from_to_be_bytes w m), Heq. Qed.

(** Byte strings of one length compare segment by segment. *)
Lemma cmp_app (a b x y : bytes) :
  length a = length b → cmp (a ++ x) (b ++ y) = then_with (cmp a b) (cmp x y).
Proof.
  revert b. induction a as [|c a IH]; intros [|d b]; simpl; try done. intros [= Hlen].
  unfold cmp, list_ord in *. simpl. rewrite IH by done. by destruct (cmp c d).
Qed.

Lemma compare_digits n m :
  then_with (N.compare (n / 256) (m / 256)) (N.compare (n mod 256) (m mod 256)) = N.compare n m.
Proof.
  pose proof (N.div_mod n 256 ltac:(done)). pose proof (N.div_mod m 256 ltac:(done)).
  pose proof (N.mod_lt n 256 ltac:(done)). pose proof (N.mod_lt m 256 ltac:(done)).
  set (a := (n / 256)%N) in *. set (b := (m / 256)%N) in *.
  set (r := (n mod 256)%N) in *. set (s := (m mod 256)%N) in *. clearbody a b r s.
  destruct (N.compare_spec a b) as [Hd|Hd|Hd]; simpl; symmetry.
  - destruct (N.compare_spec r s) as [Hm|Hm|Hm];
      [apply N.compare_eq_iff|apply N.compare_lt_iff|apply N.compare_gt_iff]; lia.
  - apply N.compare_lt_iff. lia.
  - apply N.compare_gt_iff. lia.
Qed.

(** Big-endian keys sort like the numbers they spell. *)
Lemma cmp_be_bytes w n m :
  (n < 256 ^ N.of_nat w)%N → (m < 256 ^ N.of_nat w)%N → cmp (be_bytes w n) (be_bytes w m) = N.compare n m.
Proof.
  revert n m. induction w as [|w IH]; intros n m Hn Hm.
  - simpl in *. replace n with 0%N by lia. by replace m with 0%N by lia.
  - simpl. rewrite cmp_app by (by rewrite !length_be_bytes).
    rewrite Nat2N.inj_succ, N.pow_succ_r' in Hn, Hm.
    rewrite IH by (apply N.Div0.div_lt_upper_bound; lia). rewrite <-(compare_digits n m).
    f_equal. change (then_with (N.compare (n mod 256) (m mod 256)) Eq = N.compare (n mod 256) (m mod 256)).
    by destruct (N.compare (n mod 256) (m mod 256)).
Qed.

#[global] Arguments be_bytes : simpl never.

Lemma slice_suffix {A} (a b : list A) : slice (a ++ b) (length a) (length a + length b) = Some b.
Proof.
  unfold slice. rewrite decide_True by (rewrite length_app; lia).
  rewrite drop_app_length. f_equal. apply take_ge. lia.
Qed.

(** ** The columns of one event *)

Definition event_col_row : N := 0.
Definition event_col_local : N := 1.
Definition event_col_observation : N := 2.

Definition event_row_key (event_key : N) : bytes := be_bytes 8 event_key ++ [event_col_row].
Definition event_local_key (event_key : N) : bytes := be_bytes 8 event_key ++ [event_col_local].

Definition event_all_columns_bounds (event_key : N) : bytes * bytes :=
  (be_bytes 8 event_key ++ [0%N], be_bytes 8 event_key ++ replicate 5 255%N).

Definition observation_key (event_key relay_key : N) : bytes :=
  be_bytes 8 event_key ++ [event_col_observation] ++ be_bytes 4 relay_key.

Definition observation_bounds (event_key : N) : bytes * bytes :=
  (observation_key event_key 0, observation_key event_key (2 ^ 32 - 1)).

(** [key[9..13]]; [None] is the slice's panic. *)
Definition observation_relay_key (key : bytes) : option N :=
  from_be_bytes <$> slice key 9 13.

(** The keys of the [EVENTS] table. *)
Inductive EventColumn := ColRow | ColLocal | ColObservation (relay_key : N).

Definition column_key (event_key : N) (c : EventColumn) : bytes :=
  match c with
  | ColRow => event_row_key event_key
  | ColLocal => event_local_key event_key
  | ColObservation r => observation_key event_key r
  end.

Definition valid_column (c : EventColumn) : Prop :=
  match c with ColObservation r => (r < 2 ^ 32)%N | _ => True end.

(** What follows the event key. *)
Definition column_suffix (c : EventColumn) : bytes :=
  match c with
  | ColRow => [event_col_row]
  | ColLocal => [event_col_local]
  | ColObservation r => event_col_observation :: be_bytes 4 r
  end.

Lemma column_key_suffix k c : column_key k c = be_bytes 8 k ++ column_suffix c.
Proof. by destruct c. Qed.

Definition in_range (bounds : bytes * bytes) (key : bytes) : Prop :=
  cmp_le bounds.1 key ∧ cmp_le key bounds.2.

(** A range whose bounds share an event key selects among its columns. *)
Lemma event_key_range k k' lo hi x :
  (k < 2 ^ 64)%N → (k' < 2 ^ 64)%N →
  in_range (be_bytes 8 k ++ lo, be_bytes 8 k ++ hi) (be_bytes 8 k' ++ x) ↔
  k' = k ∧ in_range (lo, hi) x.
Proof.
  intros Hk Hk'. unfold in_range, cmp_le. cbn [fst snd].
  rewrite !cmp_app by (by rewrite !length_be_bytes). rewrite !cmp_be_bytes by done.
  destruct (N.compare_spec k k') as [->|Hlt|Hlt].
  - rewrite N.compare_refl. simpl. tauto.
  - rewrite (proj2 (N.compare_gt_iff k' k)) by done. simpl. split; [tauto|lia].
  - simpl. split; [tauto|lia].
Qed.

Lemma column_suffix_inj c c' :
  valid_column c → valid_column c' → column_suffix c = column_suffix c' → c = c'.
Proof.
  destruct c, c'; simpl; try done. intros ?? Heq%(f_equal tail). f_equal. by apply (be_bytes_inj 4).
Qed.

Lemma column_suffix_bounds c :
  valid_column c →
  in_range ([0%N], replicate 5 255%N) (column_suffix c) ∧
  (in_range (column_suffix (ColObservation 0), column_suffix (ColObservation (2 ^ 32 - 1))) (column_suffix c) ↔
   ∃ r, c = ColObservation r).
Proof.
  intros Hc. split.
  - destruct c; split; done.
  - destruct c as [| |r]; (split; [intros [??]|intros [? ?]]); try done; [by eexists|].
    unfold in_range, cmp_le. cbn [fst snd column_suffix]. simpl in Hc.
    change (event_col_observation :: ?l) with ([event_col_observation] ++ l).
    rewrite !cmp_app by done. rewrite !cmp_be_bytes by done. simpl. split.
    + by destruct r.
    + apply N.compare_le_iff. lia.
Qed.

(** The columns of an event are exactly one contiguous key range, and so are
    its observations: a key of the [EVENTS] table lies between
    [event_all_columns_bounds] iff it is a column of that event, and between
    [observation_bounds] iff it is one of its observations. Distinct columns
    have distinct keys, and an observation key gives back its relay. *)
Theorem event_columns_contiguous event_key event_key' c :
  (event_key < 2 ^ 64)%N → (event_key' < 2 ^ 64)%N → valid_column c →
  (in_range (event_all_columns_bounds event_key) (column_key event_key' c) ↔ event_key' = event_key) ∧
  (in_range (observation_bounds event_key) (column_key event_key' c) ↔
     event_key' = event_key ∧ ∃ r, c = ColObservation r) ∧
  (∀ c', valid_column c' → column_key event_key c = column_key event_key' c' →
     event_key = event_key' ∧ c = c') ∧
  (∀ r, c = ColObservation r → observation_relay_key (column_key event_key c) = Some r).
Proof.
  intros Hk Hk' Hc. destruct (column_suffix_bounds c Hc) as [Hall Hobs].
  rewrite !column_key_suffix. split; [|split; [|split]].
  - unfold event_all_columns_bounds. rewrite event_key_range by done. tauto.
  - unfold observation_bounds. change (observation_key ?k ?r) with (be_bytes 8 k ++ column_suffix (ColObservation r)).
    rewrite event_key_range by done. tauto.
  - intros c' Hc'. rewrite column_key_suffix. intros [Hkey Hsuf]%app_inj_1; [|by rewrite !length_be_bytes].
    split; [by apply (be_bytes_inj 8)|by apply column_suffix_inj].
  - intros r ->. simpl in Hc. unfold observation_relay_key. cbn [column_suffix].
    change (event_col_observation :: ?l) with ([event_col_observation] ++ l).
    rewrite (app_assoc _ [_]). pose proof (slice_suffix (be_bytes 8 event_key ++ [event_col_observation]) (be_bytes 4 r)) as Hs.
    rewrite length_app, !length_be_bytes in Hs. cbn [length Nat.add] in Hs.
    rewrite Hs. cbn [fmap option_fmap option_map]. by rewrite from_to_be_bytes.
Qed.

(** ** Expiration keys *)

Definition expiration_key (ts id : N) : bytes := be_bytes 8 ts ++ be_bytes 32 id.

(** The first eight bytes of the fixed-width key. *)
Definition expiration_key_timestamp (key : bytes) : N := from_be_bytes (take 8 key).

Definition expiration_key_upper_bound (ts : N) : bytes := be_bytes 8 ts ++ replicate 32 255%N.

Lemma replicate_max w : replicate w 255%N = be_bytes w (256 ^ N.of_nat w - 1).
Proof.
  induction w as [|w IH]; [done|].
  rewrite replicate_S_end, IH. rewrite Nat2N.inj_succ, N.pow_succ_r'.
  assert (0 < 256 ^ N.of_nat w)%N as Hpos by (apply N.neq_0_lt_0, N.pow_nonzero; lia).
  change (be_bytes (S w) ?n) with (be_bytes w (n / 256) ++ [(n mod 256)%N]).
  replace (256 * 256 ^ N.of_nat w - 1)%N with (255 + (256 ^ N.of_nat w - 1) * 256)%N by lia.
  rewrite N.div_add, N.Div0.mod_add by lia. f_equal.
Qed.

#[global] Opaque be_bytes.

Lemma cmp_le_max w n : (n < 256 ^ N.of_nat w)%N → cmp_le (be_bytes w n) (replicate w 255%N).
Proof.
  intros Hn. rewrite replicate_max. unfold cmp_le. rewrite cmp_be_bytes by lia.
  apply N.compare_le_iff. lia.
Qed.

(** Scanning the expiration index up to [expiration_key_upper_bound now]
    visits exactly the rows whose deadline is at or before [now]; the deadline
    reads back from the key, keys sort by deadline, and distinct (deadline, id)
    pairs have distinct keys. *)
Theorem expiration_index_range ts id ts' id' now :
  (ts < 2 ^ 64)%N → (ts' < 2 ^ 64)%N → (now < 2 ^ 64)%N → (id < 2 ^ 256)%N → (id' < 2 ^ 256)%N →
  (cmp_le (expiration_key ts id) (expiration_key_upper_bound now) ↔ (ts ≤ now)%N) ∧
  expiration_key_timestamp (expiration_key ts id) = ts ∧
  ((ts < ts')%N → cmp_lt (expiration_key ts id) (expiration_key ts' id')) ∧
  (expiration_key ts id = expiration_key ts' id' → ts = ts' ∧ id = id').
Proof.
  intros Hts Hts' Hnow Hid Hid'. unfold expiration_key, expiration_key_upper_bound, cmp_le, cmp_lt.
  rewrite !cmp_app by (by rewrite !length_be_bytes). rewrite !(cmp_be_bytes 8) by done.
  split; [|split; [|split]].
  - destruct (N.compare_spec ts now) as [->|Hlt|Hgt]; simpl.
    + split; [lia|]. intros _. by apply (cmp_le_max 32).
    + split; [lia|done].
    + split; [done|lia].
  - unfold expiration_key_timestamp. rewrite take_app_le, take_ge by (rewrite length_be_bytes; lia).
    by apply (from_to_be_bytes 8).
  - intros Hlt. by rewrite (proj2 (N.compare_lt_iff ts ts')).
  - intros [Ht Hi]%app_inj_1; [|by rewrite !length_be_bytes].
    split; [by apply (be_bytes_inj 8)|by apply (be_bytes_inj 32)].
Qed.

(** ** Tombstone and suppression keys *)

Definition tombstone_id : N := 0.
Definition tombstone_addr : N := 1.
Definition id_tombstone_key (id author : N) : bytes := tombstone_id :: be_bytes 32 id ++ be_bytes 32 author.
Definition addr_tombstone_key (address : string) : bytes := tombstone_addr :: as_bytes address.

Definition publish_queue_suppress_id : N := 0.
Definition publish_queue_suppress_addr : N := 1.
Definition id_suppress_key (id_and_author : bytes) : bytes := publish_queue_suppress_id :: id_and_author.
Definition addr_suppress_key (address : bytes) : bytes := publish_queue_suppress_addr :: address.

#[global] Instance N_of_ascii_inj : Inj (=) (=) Ascii.N_of_ascii.
Proof. intros a b Heq. by rewrite <-(Ascii.ascii_N_embedding a), Heq, Ascii.ascii_N_embedding. Qed.

#[global] Instance as_bytes_inj : Inj (=) (=) as_bytes.
Proof.
  intros s t Heq. unfold as_bytes in Heq.
  apply (inj (fmap (M:=list) Ascii.N_of_ascii)) in Heq.
  by rewrite <-(String.string_of_list_ascii_of_string s), Heq, String.string_of_list_ascii_of_string.
Qed.

(** The two kinds of tombstone share a table without colliding. *)
Lemma tombstone_keys_inj id author id' author' address address' :
  (id < 2 ^ 256)%N → (id' < 2 ^ 256)%N → (author < 2 ^ 256)%N → (author' < 2 ^ 256)%N →
  (id_tombstone_key id author = id_tombstone_key id' author' → id = id' ∧ author = author') ∧
  (addr_tombstone_key address = addr_tombstone_key address' → address = address') ∧
  id_tombstone_key id author ≠ addr_tombstone_key address.
Proof.
  intros ????. split; [|split; [|done]].
  - intros Heq%(f_equal tail). apply app_inj_1 in Heq as [Hi Ha]; [|by rewrite !length_be_bytes].
    split; by apply (be_bytes_inj 32).
  - intros Heq%(f_equal tail). by apply as_bytes_inj.
Qed.

(** ** Tag index prefixes *)

(** [b'0'..=b'9'] and [b'a'..=b'f']. *)
Definition nibble (byte : N) : option N :=
  if ((48 <=? byte) && (byte <=? 57))%N then Some (byte - 48)%N
  else if ((97 <=? byte) && (byte <=? 102))%N then Some (byte - 97 + 10)%N
  else None.

Fixpoint decode_pairs (bs : bytes) : option bytes :=
  match bs with
  | [] => Some []
  | [_] => None
  | hi :: lo :: bs =>
      h ← nibble hi; l ← nibble lo; raw ← decode_pairs bs;
      Some (N.lor (N.shiftl h 4) l :: raw)
  end.

Definition decode_hex_32 (value : string) : option bytes :=
  if length (as_bytes value) =? 64 then decode_pairs (as_bytes value) else None.

(** [HEX[i]]. *)
Definition hex_digit (i : N) : N := if (i <? 10)%N then (48 + i)%N else (87 + i)%N.

Definition encode_pairs (raw : bytes) : bytes :=
  raw ≫= λ byte, [hex_digit (N.shiftr byte 4); hex_digit (N.land byte 15)].

(** [tag_index_prefix]; [None] is its [expect] on a value of 2^32 bytes or more. *)
Definition tag_index_prefix (tag : N) (value : string) : option bytes :=
  match decode_hex_32 value with
  | Some raw_id => Some (tag :: 1%N :: raw_id)
  | None =>
      let value := as_bytes value in
      if (N.of_nat (length value) <? 2 ^ 32)%N
      then Some (tag :: 0%N :: be_bytes 4 (N.of_nat (length value)) ++ value) else None
  end.

Lemma nibble_spec b x : nibble b = Some x → (x < 16)%N ∧ hex_digit x = b.
Proof.
  unfold nibble, hex_digit.
  destruct ((48 <=? b) && (b <=? 57))%N eqn:E; [|destruct ((97 <=? b) && (b <=? 102))%N eqn:E'; [|done]];
    intros [= <-]; rewrite andb_true_iff, !N.leb_le in *;
    (split; [lia|]); [destruct (N.ltb_spec (b - 48) 10)|destruct (N.ltb_spec (b - 97 + 10) 10)]; lia.
Qed.

Lemma join_nibbles h l :
  (h < 16)%N → (l < 16)%N →
  N.shiftr (N.lor (N.shiftl h 4) l) 4 = h ∧ N.land (N.lor (N.shiftl h 4) l) 15 = l.
Proof.
  intros Hh Hl. rewrite N.shiftr_lor, N.shiftr_shiftl_l, N.land_lor_distr_l by done.
  change 15%N with (N.ones 4). rewrite !N.land_ones, N.shiftl_0_r, N.shiftl_mul_pow2, N.shiftr_div_pow2.
  change (2 ^ 4)%N with 16%N.
  rewrite (N.div_small l 16), (N.mod_small l 16), N.Div0.mod_mul by lia. by rewrite N.lor_0_r, N.lor_0_l.
Qed.

Fixpoint encode_decode_pairs (bs raw : bytes) {struct bs} : decode_pairs bs = Some raw → encode_pairs raw = bs.
Proof.
  destruct bs as [|hi [|lo bs]]; simpl; intros H.
  - by injection H as <-.
  - done.
  - destruct (nibble hi) as [h|] eqn:Eh; simpl in H; [|done].
    destruct (nibble lo) as [l|] eqn:El; simpl in H; [|done].
    destruct (decode_pairs bs) as [raw'|] eqn:Ed; simpl in H; [|done]. injection H as <-.
    apply nibble_spec in Eh as [Hh Hhd], El as [Hl Hld].
    destruct (join_nibbles h l Hh Hl) as [Hs Ha].
    unfold encode_pairs. csimpl. rewrite Hs, Ha, Hhd, Hld. do 2 f_equal. by apply encode_decode_pairs.
Qed.

Lemma decode_hex_32_inj v v' raw : decode_hex_32 v = Some raw → decode_hex_32 v' = Some raw → v = v'.
Proof.
  unfold decode_hex_32. intros H H'. case_tests. apply (inj as_bytes).
  apply encode_decode_pairs in H as <-, H' as <-. done.
Qed.

Lemma decode_pairs_length bs raw : decode_pairs bs = Some raw → length bs = 2 * length raw.
Proof.
  intros <-%encode_decode_pairs. unfold encode_pairs. induction raw as [|b raw IH]; csimpl; [done|].
  rewrite IH. lia.
Qed.

Lemma decode_hex_32_length v raw : decode_hex_32 v = Some raw → length raw = 32.
Proof.
  unfold decode_hex_32. destruct (Nat.eqb_spec (length (as_bytes v)) 64) as [E|]; [|done].
  intros ?%decode_pairs_length. lia.
Qed.

Lemma decode_hex_32_bytes v raw : decode_hex_32 v = Some raw → as_bytes v = encode_pairs raw.
Proof. unfold decode_hex_32. case_match; [|done]. by intros <-%encode_decode_pairs. Qed.

Lemma tag_index_prefix_sep tag value tag' value' p p' :
  tag_index_prefix tag value = Some p → tag_index_prefix tag' value' = Some p' → p `prefix_of` p' →
  tag = tag' ∧ value = value'.
Proof.
  unfold tag_index_prefix. intros Hp Hp' Hpre.
  destruct (decode_hex_32 value) as [raw|] eqn:E, (decode_hex_32 value') as [raw'|] eqn:E';
    try (destruct (N.ltb_spec (N.of_nat (length (as_bytes value))) (2 ^ 32)); [|done]);
    try (destruct (N.ltb_spec (N.of_nat (length (as_bytes value'))) (2 ^ 32)); [|done]);
    injection Hp as <-; injection Hp' as <-;
    apply prefix_cons_inv_1 in Hpre as Ht; apply prefix_cons_inv_2 in Hpre;
    apply prefix_cons_inv_1 in Hpre as Hk; apply prefix_cons_inv_2 in Hpre; try done; (split; [done|]).
  - assert (raw = raw') as <-; [|by eapply decode_hex_32_inj].
    apply prefix_length_eq; [done|].
    by rewrite (decode_hex_32_length _ _ E), (decode_hex_32_length _ _ E').
  - destruct Hpre as [s Hs]. rewrite <-app_assoc in Hs.
    apply app_inj_1 in Hs as [Hlen Hval]; [|by rewrite !length_be_bytes].
    apply (be_bytes_inj 4), Nat2N.inj in Hlen; [|done..].
    rewrite Hval, length_app in Hlen. destruct s; [|simpl in Hlen; lia].
    rewrite app_nil_r in Hval. symmetry. by apply (inj as_bytes).
Qed.

(** Tag index prefixes are prefix-free: no (tag, value) pair's prefix extends
    another pair's, so scanning the rows under one prefix never meets a row of
    another tag or value, whether the value is packed as a raw 32-byte id or
    spelled out with its length. *)
Theorem tag_index_prefix_free tag value tag' value' p p' :
  tag_index_prefix tag value = Some p → tag_index_prefix tag' value' = Some p' → p `prefix_of` p' →
  tag = tag' ∧ value = value'.
Proof. apply tag_index_prefix_sep. Qed.

(** ** Relay dictionary rows *)

(** [std::str::from_utf8]. *)
Class Utf8 := from_utf8 : bytes → option string.
Class Utf8Laws `{Utf8} : Prop := from_utf8_as_bytes s : from_utf8 (as_bytes s) = Some s.

Definition encode_relay_row (refs : N) (url : string) : bytes := be_bytes 8 refs ++ as_bytes url.

(** [None] is the refusal of a short or non-UTF-8 row. *)
Definition decode_relay_row `{Utf8} (value : bytes) : option (N * string) :=
  if length value <? 8 then None
  else
    let '(refs, url) := (take 8 value, drop 8 value) in
    url ← from_utf8 url; Some (from_be_bytes refs, url).

Lemma decode_encode_relay_row `{Utf8Laws} refs url :
  (refs < 2 ^ 64)%N → decode_relay_row (encode_relay_row refs url) = Some (refs, url).
Proof.
  intros Hrefs. unfold decode_relay_row, encode_relay_row. pose proof (length_be_bytes 8 refs) as Hlen.
  rewrite length_app, Hlen. cbn [Nat.add]. rewrite (proj2 (Nat.ltb_ge _ _)) by lia.
  rewrite take_app_le, take_ge, drop_app_le, drop_ge by lia. rewrite app_nil_l, from_utf8_as_bytes.
  cbn [mbind option_bind]. by rewrite (from_to_be_bytes 8).
Qed.

(** ** Concrete keys *)

#[global] Instance sample_utf8 : Utf8 := λ bs, Some (String.string_of_list_ascii (Ascii.ascii_of_N <$> bs)).
#[global] Instance sample_utf8_laws : Utf8Laws.
Proof.
  intros s. unfold from_utf8, sample_utf8, as_bytes. f_equal.
  rewrite <-list_fmap_compose, (list_fmap_ext _ id), list_fmap_id.
  - apply String.string_of_list_ascii_of_string.
  - intros i x _. apply Ascii.ascii_N_embedding.
Qed.

Lemma event_columns_contiguous_witness :
  in_range (observation_bounds 7) (column_key 7 (ColObservation 3)) ∧
  ¬ in_range (event_all_columns_bounds 7) (column_key 8 ColRow).
Proof.
  split.
  - apply (event_columns_contiguous 7 7 (ColObservation 3)); [done..|]. split; [done|by eexists].
  - destruct (event_columns_contiguous 7 8 ColRow) as [H _]; [done..|]. by intros ?%H.
Defined.

Lemma expiration_index_range_witness :
  cmp_le (expiration_key 300 9) (expiration_key_upper_bound 300) ∧
  ¬ cmp_le (expiration_key 301 0) (expiration_key_upper_bound 300).
Proof.
  split.
  - by apply (expiration_index_range 300 9 0 0 300).
  - destruct (expiration_index_range 301 0 0 0 300) as [H _]; [done..|]. by intros ?%H.
Defined.

Lemma tag_index_prefix_free_witness :
  ∃ p p', tag_index_prefix 116 "nostr" = Some p ∧ tag_index_prefix 116 "nostrich" = Some p' ∧
    ¬ p `prefix_of` p'.
Proof.
  eexists _, _. split; [vm_compute; reflexivity|]. split; [vm_compute; reflexivity|].
  intros Hpre. by destruct (tag_index_prefix_free 116 "nostr" 116 "nostrich" _ _
    ltac:(vm_compute; reflexivity) ltac:(vm_compute; reflexivity) Hpre).
Defined.
