(* ===== verification/Canonical.v ===== *)
(** * The canonical event tables

    [CanonicalWriteTables] of [crates/nmp-store/src/redb_store/canonical.rs]:
    the note, local and observation columns of every event, the raw-id map, the
    interned relay dictionary with its reference counts, and the two surrogate
    allocators.

    The [EVENTS] tree holds three columns per event key; its key layout
    ([Schema.event_columns_contiguous]) makes each column a map of its own.  A
    note is the event itself: the binary codec is not part of this component.
    [None] is a [PersistenceError], on which the transaction is dropped. *)

From S2P Require Import Prelude Grammar Coverage.

Abbreviation EventKey := N (only parsing).
Abbreviation RelayKey := N (only parsing).

(** ** Rows as callers see them *)

Record Provenance := mkProv { pv_seen : gmap RelayUrl N; pv_local : option LocalOrigin }.
Record StoredEvent := mkStored { se_event : Event; se_provenance : Provenance }.

#[global] Instance Provenance_eq_dec : EqDecision Provenance.
Proof. solve_decision. Defined.
#[global] Instance StoredEvent_eq_dec : EqDecision StoredEvent.
Proof. solve_decision. Defined.

(** [Provenance::merge_observation]: the map it leaves and whether it grew. *)
Definition provenance_merge (p : Provenance) (relay : RelayUrl) (at_ : N) : bool * Provenance :=
  match pv_seen p !! relay with
  | None => (true, mkProv (<[relay := at_]> (pv_seen p)) (pv_local p))
  | Some existing =>
      if (existing <? at_)%N then (true, mkProv (<[relay := at_]> (pv_seen p)) (pv_local p))
      else (false, p)
  end.

(** [Provenance::visible_under_pin]. *)
Definition visible_under_pin (p : Provenance) (pinned : gset RelayUrl) : bool :=
  bool_decide (is_Some (pv_local p)) || bool_decide (dom (pv_seen p) ∩ pinned ≠ ∅).

(** ** The tables *)

Record Canonical := mkCanonical {
  c_rows : gmap EventKey Event;
  c_locals : gmap EventKey LocalOrigin;
  c_observations : gmap (EventKey * RelayKey) N;
  c_event_ids : gmap EventId EventKey;
  c_relays : gmap RelayKey (N * RelayUrl);
  c_relay_ids : gmap RelayUrl RelayKey;
  c_meta_event : option N;
  c_meta_relay : option N;
  c_next_event_key : EventKey;
  c_next_relay_key : RelayKey;
  c_event_dirty : bool;
  c_relay_dirty : bool;
  c_relay_ref_counts : gmap RelayKey N
}.

Definition set_rows f c := mkCanonical (f (c_rows c)) (c_locals c) (c_observations c) (c_event_ids c)
  (c_relays c) (c_relay_ids c) (c_meta_event c) (c_meta_relay c) (c_next_event_key c)
  (c_next_relay_key c) (c_event_dirty c) (c_relay_dirty c) (c_relay_ref_counts c).
Definition set_locals f c := mkCanonical (c_rows c) (f (c_locals c)) (c_observations c) (c_event_ids c)
  (c_relays c) (c_relay_ids c) (c_meta_event c) (c_meta_relay c) (c_next_event_key c)
  (c_next_relay_key c) (c_event_dirty c) (c_relay_dirty c) (c_relay_ref_counts c).
Definition set_observations f c := mkCanonical (c_rows c) (c_locals c) (f (c_observations c)) (c_event_ids c)
  (c_relays c) (c_relay_ids c) (c_meta_event c) (c_meta_relay c) (c_next_event_key c)
  (c_next_relay_key c) (c_event_dirty c) (c_relay_dirty c) (c_relay_ref_counts c).
Definition set_event_ids f c := mkCanonical (c_rows c) (c_locals c) (c_observations c) (f (c_event_ids c))
  (c_relays c) (c_relay_ids c) (c_meta_event c) (c_meta_relay c) (c_next_event_key c)
  (c_next_relay_key c) (c_event_dirty c) (c_relay_dirty c) (c_relay_ref_counts c).
Definition set_relays f g c := mkCanonical (c_rows c) (c_locals c) (c_observations c) (c_event_ids c)
  (f (c_relays c)) (g (c_relay_ids c)) (c_meta_event c) (c_meta_relay c) (c_next_event_key c)
  (c_next_relay_key c) (c_event_dirty c) (c_relay_dirty c) (c_relay_ref_counts c).
Definition set_ref_counts f c := mkCanonical (c_rows c) (c_locals c) (c_observations c) (c_event_ids c)
  (c_relays c) (c_relay_ids c) (c_meta_event c) (c_meta_relay c) (c_next_event_key c)
  (c_next_relay_key c) (c_event_dirty c) (c_relay_dirty c) (f (c_relay_ref_counts c)).

(** ** Reads *)

(** [RelayUrl::parse]; a [RelayUrl] is its [as_str]. *)
Class RelayParser := parse_relay : string → option RelayUrl.
Class RelayParserLaws `{RelayParser} : Prop := parse_relay_as_str (u : RelayUrl) : parse_relay u = Some u.

Definition key_for_id (c : Canonical) (id : EventId) : option EventKey := c_event_ids c !! id.

Definition fold_seen_at (seen : gmap RelayUrl N) (relay : RelayUrl) (at_ : N) : gmap RelayUrl N :=
  match seen !! relay with
  | Some existing => if (existing <? at_)%N then <[relay := at_]> seen else seen
  | None => <[relay := at_]> seen
  end.

(** The observation column of one event, in relay-key order. *)
Definition observations_of (c : Canonical) (event_key : EventKey) : list (RelayKey * N) :=
  (λ p, (p.1.2, p.2)) <$> filter (λ p, p.1.1 = event_key) (ordered_map (c_observations c)).

Section reads.
Context `{RelayParser}.

Definition load_seen (c : Canonical) (event_key : EventKey) : option (gmap RelayUrl N) :=
  foldl (λ o p, seen ← o; row ← c_relays c !! p.1; relay ← parse_relay row.2;
                Some (fold_seen_at seen relay p.2))
    (Some ∅) (observations_of c event_key).

Definition load_by_key (c : Canonical) (key : EventKey) : option (option StoredEvent) :=
  match c_rows c !! key with
  | None => Some None
  | Some event =>
      seen ← load_seen c key;
      Some (Some (mkStored event (mkProv seen (c_locals c !! key))))
  end.

Definition load_by_id (c : Canonical) (id : EventId) : option (option (EventKey * StoredEvent)) :=
  match key_for_id c id with
  | None => Some None
  | Some key => fmap (M:=option) (pair key) <$> load_by_key c key
  end.
End reads.

Definition load_local (c : Canonical) (key : EventKey) : option LocalOrigin := c_locals c !! key.

(** ** Allocators and the relay dictionary *)

(** [CanonicalWriteTables::open] over the durable tables. *)
Definition open (c : Canonical) : option Canonical :=
  let next_relay := default 1%N (c_meta_relay c) in
  if (next_relay <? 2 ^ 32)%N then
    Some (mkCanonical (c_rows c) (c_locals c) (c_observations c) (c_event_ids c) (c_relays c)
            (c_relay_ids c) (c_meta_event c) (c_meta_relay c) (default 1%N (c_meta_event c))
            next_relay false false ∅)
  else None.

Definition allocate_key (c : Canonical) : option (EventKey * Canonical) :=
  let next := c_next_event_key c in
  if (next + 1 <? 2 ^ 64)%N then
    Some (next, mkCanonical (c_rows c) (c_locals c) (c_observations c) (c_event_ids c) (c_relays c)
                  (c_relay_ids c) (c_meta_event c) (c_meta_relay c) (next + 1) (c_next_relay_key c)
                  true (c_relay_dirty c) (c_relay_ref_counts c))
  else None.

Definition allocate_relay_key (c : Canonical) : option (RelayKey * Canonical) :=
  let next := c_next_relay_key c in
  if (next + 1 <? 2 ^ 32)%N then
    Some (next, mkCanonical (c_rows c) (c_locals c) (c_observations c) (c_event_ids c) (c_relays c)
                  (c_relay_ids c) (c_meta_event c) (c_meta_relay c) (c_next_event_key c) (next + 1)
                  (c_event_dirty c) true (c_relay_ref_counts c))
  else None.

Definition intern_relay (c : Canonical) (relay : RelayUrl) : option (RelayKey * Canonical) :=
  match c_relay_ids c !! relay with
  | Some existing => Some (existing, c)
  | None =>
      '(key, c) ← allocate_relay_key c;
      Some (key, set_relays <[key := (0%N, relay)]> <[relay := key]> c)
  end.

(** The count of the transaction, else the durable one. *)
Definition relay_ref (c : Canonical) (relay_key : RelayKey) : option N :=
  match c_relay_ref_counts c !! relay_key with
  | Some current => Some current
  | None => fst <$> c_relays c !! relay_key
  end.

(** [effective_relay_ref]: it also caches what it read. *)
Definition effective_relay_ref (c : Canonical) (relay_key : RelayKey) : option (N * Canonical) :=
  current ← relay_ref c relay_key;
  Some (current, set_ref_counts <[relay_key := current]> c).

Definition increment_relay_ref (c : Canonical) (relay_key : RelayKey) : option Canonical :=
  '(current, c) ← effective_relay_ref c relay_key;
  if (current + 1 <? 2 ^ 64)%N then Some (set_ref_counts <[relay_key := (current + 1)%N]> c) else None.

Definition decrement_relay_ref (c : Canonical) (relay_key : RelayKey) : option Canonical :=
  '(current, c) ← effective_relay_ref c relay_key;
  if (1 <=? current)%N then Some (set_ref_counts <[relay_key := (current - 1)%N]> c) else None.

(** One touched relay of [flush_pending]. *)
Definition flush_relay (c : Canonical) (p : RelayKey * N) : option Canonical :=
  let '(relay_key, effective) := p in
  '(persisted, url) ← c_relays c !! relay_key;
  Some (if (0 <? effective)%N then
          if (effective =? persisted)%N then c
          else set_relays <[relay_key := (effective, url)]> id c
        else set_relays (delete relay_key) (delete url) c).

Definition flush_allocators (c : Canonical) : Canonical :=
  mkCanonical (c_rows c) (c_locals c) (c_observations c) (c_event_ids c) (c_relays c) (c_relay_ids c)
    (if c_event_dirty c then Some (c_next_event_key c) else c_meta_event c)
    (if c_relay_dirty c then Some (c_next_relay_key c) else c_meta_relay c)
    (c_next_event_key c) (c_next_relay_key c) false false ∅.

(** [flush_pending]; the touched relays are visited in key order. *)
Definition flush_pending (c : Canonical) : option Canonical :=
  foldl (λ o p, c ← o; flush_relay c p) (Some (flush_allocators c)) (ordered_map (c_relay_ref_counts c)).

(** ** Writes *)

Definition merge_observation (c : Canonical) (event_key : EventKey) (relay : RelayUrl) (at_ : N)
    : option (bool * Canonical) :=
  '(relay_key, c) ← intern_relay c relay;
  let existing := c_observations c !! (event_key, relay_key) in
  if from_option (λ t, at_ <=? t)%N false existing then Some (false, c)
  else
    let c := set_observations <[(event_key, relay_key) := at_]> c in
    match existing with
    | None => c ← increment_relay_ref c relay_key; Some (true, c)
    | Some _ => Some (true, c)
    end.

Definition remove_observation (c : Canonical) (event_key : EventKey) (relay_key : RelayKey)
    : option Canonical :=
  let c' := set_observations (delete (event_key, relay_key)) c in
  match c_observations c !! (event_key, relay_key) with
  | Some _ => decrement_relay_ref c' relay_key
  | None => Some c'
  end.

Definition remove_all_observations (c : Canonical) (event_key : EventKey) : option Canonical :=
  foldl (λ o p, c ← o; remove_observation c event_key p.1) (Some c) (observations_of c event_key).

Definition insert_new (c : Canonical) (event : Event) (provenance : Provenance)
    : option (EventKey * Canonical) :=
  '(key, c) ← allocate_key c;
  let c := set_event_ids <[e_id event := key]> (set_rows <[key := event]> c) in
  let c := match pv_local provenance with
           | Some local => set_locals <[key := local]> c
           | None => c
           end in
  c ← foldl (λ o p, c ← o; snd <$> merge_observation c key p.1 p.2) (Some c)
        (ordered_map (pv_seen provenance));
  Some (key, c).

Definition replace_event (c : Canonical) (key : EventKey) (event : Event) : Canonical :=
  set_rows <[key := event]> c.

Definition replace_local (c : Canonical) (key : EventKey) (local : option LocalOrigin) : Canonical :=
  match local with
  | Some local => set_locals <[key := local]> c
  | None => set_locals (delete key) c
  end.

(** [remove_by_key]: the range delete takes the note and local columns; the
    observations are already gone. *)
Definition remove_by_key (c : Canonical) (key : EventKey) (id : EventId) : option Canonical :=
  c ← remove_all_observations c key;
  let c := set_event_ids (delete id) c in
  Some (set_observations (filter (λ p, p.1.1 ≠ key))
          (set_locals (delete key) (set_rows (delete key) c))).

Section replace.
Context `{RelayParser}.

(** Drop an observation the new provenance no longer has. *)
Definition drop_observation (seen : gmap RelayUrl N) (key : EventKey) (c : Canonical)
    (relay : RelayUrl) : option Canonical :=
  match seen !! relay with
  | Some _ => Some c
  | None => relay_key ← c_relay_ids c !! relay; remove_observation c key relay_key
  end.

(** Write an observation that is new or changed. *)
Definition put_observation (existing : gmap RelayUrl N) (key : EventKey) (c : Canonical)
    (p : RelayUrl * N) : option Canonical :=
  let '(relay, at_) := p in
  if decide (existing !! relay = Some at_) then Some c
  else
    '(relay_key, c) ← intern_relay c relay;
    let c' := set_observations <[(key, relay_key) := at_]> c in
    match c_observations c !! (key, relay_key) with
    | None => increment_relay_ref c' relay_key
    | Some _ => Some c'
    end.

Definition replace_provenance (c : Canonical) (key : EventKey) (provenance : Provenance)
    : option Canonical :=
  existing ← load_seen c key;
  c ← foldl (λ o relay, c ← o; drop_observation (pv_seen provenance) key c relay) (Some c)
        (ordered_map existing).*1;
  c ← foldl (λ o p, c ← o; put_observation existing key c p) (Some c)
        (ordered_map (pv_seen provenance));
  Some (replace_local c key (pv_local provenance)).
End replace.

(** ** The abstraction

    What the tables say of one event, as the map from surrogate keys to rows
    that callers reason about. *)

Definition seen_map (c : Canonical) (key : EventKey) : gmap RelayUrl N :=
  omap (λ relay_key, c_observations c !! (key, relay_key)) (c_relay_ids c).

Definition rows_view (c : Canonical) : gmap EventKey StoredEvent :=
  map_imap (λ key event, Some (mkStored event (mkProv (seen_map c key) (c_locals c !! key)))) (c_rows c).

Definition count (m : gmap (EventKey * RelayKey) N) (relay_key : RelayKey) : nat :=
  size (filter (λ p, p.1.2 = relay_key) m).
Definition obs_count (c : Canonical) (relay_key : RelayKey) : nat := count (c_observations c) relay_key.

(** The invariant of the tables inside a transaction.  While [fresh] is being
    interned it may be unreferenced. *)
Record canonical_wf_but (fresh : option RelayKey) (c : Canonical) : Prop := {
  cw_ids id key : c_event_ids c !! id = Some key ↔ ∃ e, c_rows c !! key = Some e ∧ e_id e = id;
  cw_keys key : is_Some (c_rows c !! key) → (key < c_next_event_key c)%N;
  cw_locals key : is_Some (c_locals c !! key) → is_Some (c_rows c !! key);
  cw_obs key relay_key : is_Some (c_observations c !! (key, relay_key)) →
    is_Some (c_rows c !! key) ∧ is_Some (c_relays c !! relay_key);
  cw_relays relay relay_key :
    c_relay_ids c !! relay = Some relay_key ↔ ∃ refs, c_relays c !! relay_key = Some (refs, relay);
  cw_relay_keys relay_key : is_Some (c_relays c !! relay_key) → (relay_key < c_next_relay_key c)%N;
  cw_refs relay_key : is_Some (c_relays c !! relay_key) →
    relay_ref c relay_key = Some (N.of_nat (obs_count c relay_key));
  cw_counts relay_key : is_Some (c_relay_ref_counts c !! relay_key) → is_Some (c_relays c !! relay_key);
  cw_referenced relay_key refs relay : c_relays c !! relay_key = Some (refs, relay) →
    c_relay_ref_counts c !! relay_key = None → fresh ≠ Some relay_key → (0 < refs)%N;
  cw_meta_event : c_event_dirty c = false → default 1%N (c_meta_event c) = c_next_event_key c;
  cw_meta_relay : c_relay_dirty c = false → default 1%N (c_meta_relay c) = c_next_relay_key c
}.

Abbreviation canonical_wf := (canonical_wf_but None).

(** Room for [n] more keys and observations. *)
Definition has_room (c : Canonical) (n : nat) : Prop :=
  (c_next_event_key c + N.of_nat n < 2 ^ 64)%N ∧ (c_next_relay_key c + N.of_nat n < 2 ^ 32)%N ∧
  (N.of_nat (size (c_observations c)) + N.of_nat n < 2 ^ 64)%N.

Lemma lookup_rows_view c key :
  rows_view c !! key =
  (λ e, mkStored e (mkProv (seen_map c key) (c_locals c !! key))) <$> c_rows c !! key.
Proof. unfold rows_view. rewrite map_lookup_imap. by destruct (c_rows c !! key). Qed.

Lemma lookup_seen_map c key relay :
  seen_map c key !! relay = c_relay_ids c !! relay ≫= λ relay_key, c_observations c !! (key, relay_key).
Proof. apply lookup_omap. Qed.

Lemma rows_view_ext c c' :
  c_rows c' = c_rows c → c_locals c' = c_locals c → (∀ key, seen_map c' key = seen_map c key) →
  rows_view c' = rows_view c.
Proof.
  intros Hrows Hlocals Hseen. apply map_eq. intros key.
  by rewrite !lookup_rows_view, Hrows, Hlocals, Hseen.
Qed.

(** ** Counting observations *)

Lemma count_le m relay_key : count m relay_key ≤ size m.
Proof. apply map_subseteq_size, map_filter_subseteq. Qed.

Lemma count_delete m key rk t rk' :
  m !! (key, rk) = Some t →
  count m rk' = count (delete (key, rk) m) rk' + if decide (rk' = rk) then 1 else 0.
Proof.
  intros Hm. unfold count. rewrite map_filter_delete. case_decide as E.
  - subst. rewrite map_size_delete_Some by (exists t; by apply map_lookup_filter_Some).
    assert (size (filter (λ p : EventKey * RelayKey * N, p.1.2 = rk) m) ≠ 0); [|lia].
    intros Hz%map_size_empty_inv. apply (lookup_empty_Some (M:=gmap (N * N)) (key, rk) t).
    rewrite <-Hz. by apply map_lookup_filter_Some.
  - rewrite delete_id; [lia|]. apply map_lookup_filter_None. right. intros x _ Heq. by apply E.
Qed.

Lemma count_insert m key rk t rk' :
  count (<[(key, rk) := t]> m) rk' =
  count m rk' + match m !! (key, rk) with
                | Some _ => 0
                | None => if decide (rk' = rk) then 1 else 0
                end.
Proof.
  rewrite (count_delete (<[(key, rk) := t]> m) key rk t) by apply lookup_insert_eq.
  rewrite delete_insert_eq. destruct (m !! (key, rk)) as [t'|] eqn:E.
  - rewrite (count_delete m key rk t' rk' E). lia.
  - by rewrite delete_id.
Qed.

Lemma count_zero m rk : count m rk = 0 ↔ ∀ key, m !! (key, rk) = None.
Proof.
  unfold count. rewrite map_size_empty_iff, map_empty. split.
  - intros Hf key. specialize (Hf (key, rk)). apply map_lookup_filter_None in Hf as [?|Hf]; [done|].
    apply eq_None_not_Some. intros [t Ht]. by apply (Hf t Ht).
  - intros Hm [key rk']. apply map_lookup_filter_None. destruct (decide (rk' = rk)) as [->|Hne].
    + left. apply Hm.
    + right. intros x _. done.
Qed.

Lemma elem_of_observations_of c key relay_key t :
  (relay_key, t) ∈ observations_of c key ↔ c_observations c !! (key, relay_key) = Some t.
Proof.
  unfold observations_of. rewrite list_elem_of_fmap. split.
  - intros ([[k r] t'] & [= -> ->] & [Hk Hin]%list_elem_of_filter). simpl in Hk. subst.
    by apply elem_of_ordered_map in Hin.
  - intros Hobs. exists ((key, relay_key), t). split; [done|].
    apply list_elem_of_filter. split; [done|by apply elem_of_ordered_map].
Qed.

Lemma NoDup_observations_of c key : NoDup (observations_of c key).*1.
Proof.
  unfold observations_of. rewrite <-list_fmap_compose.
  assert (NoDup (filter (λ p, p.1.1 = key) (ordered_map (c_observations c))).*1) as Hnd.
  { eapply sublist_NoDup; [apply (NoDup_ordered_map_fst (c_observations c))|].
    apply fmap_sublist, sublist_filter. }
  assert (Forall (λ p, p.1.1 = key) (filter (λ p, p.1.1 = key) (ordered_map (c_observations c)))) as Hkey.
  { apply Forall_forall. by intros p [? _]%list_elem_of_filter. }
  revert Hnd Hkey. generalize (filter (λ p, p.1.1 = key) (ordered_map (c_observations c))) as l.
  induction l as [|[[k r] t] l IH]; csimpl; [by constructor|].
  rewrite !NoDup_cons, Forall_cons. simpl. intros [Hnew Hnd] [-> Hl]. split; [|by apply IH].
  intros ([[k' r'] t'] & -> & Hin)%list_elem_of_fmap. apply Hnew. simpl.
  rewrite Forall_forall in Hl. pose proof (Hl _ Hin) as Hk. simpl in Hk. subst.
  by apply (list_elem_of_fmap_2 fst) in Hin.
Qed.

Section canonical.
Context `{RelayParserLaws}.

Lemma load_seen_spec c key : canonical_wf c → load_seen c key = Some (seen_map c key).
Proof.
  intros Hwf. unfold load_seen.
  destruct (foldl_option_ind
    (λ seen p, row ← c_relays c !! p.1; relay ← parse_relay row.2; Some (fold_seen_at seen relay p.2))
    (λ pre seen, ∀ u t, seen !! u = Some t ↔ ∃ rk, (rk, t) ∈ pre ∧ c_relay_ids c !! u = Some rk)
    (observations_of c key) ∅) as (seen & Hrun & Hseen).
  - intros u t. rewrite lookup_empty. split; [done|]. by intros (rk & ?%not_elem_of_nil & _).
  - intros pre [rk t] post seen Hl Hseen.
    assert (c_observations c !! (key, rk) = Some t) as Hobs.
    { apply elem_of_observations_of. rewrite Hl. apply elem_of_app. right. by left. }
    destruct (cw_obs _ c Hwf key rk) as [_ [[refs relay] Hrelay]]; [by eexists|].
    assert (c_relay_ids c !! relay = Some rk) as Hid by (apply (cw_relays _ c Hwf); eauto).
    simpl. rewrite Hrelay. simpl. rewrite parse_relay_as_str. simpl. eexists. split; [done|].
    assert (rk ∉ pre.*1) as Hnew.
    { pose proof (NoDup_observations_of c key) as Hnd. rewrite Hl, fmap_app in Hnd.
      apply NoDup_app in Hnd as (_ & Hdisj & _). intros Hin. apply (Hdisj rk Hin). by left. }
    assert (seen !! relay = None) as Hfresh.
    { apply eq_None_not_Some. intros [t' (rk' & Hin & Hid')%Hseen]. simplify_eq.
      by apply Hnew, (list_elem_of_fmap_2 fst _ (rk, t')). }
    unfold fold_seen_at. rewrite Hfresh. intros u t'. setoid_rewrite elem_of_app. setoid_rewrite list_elem_of_singleton.
    destruct (decide (u = relay)) as [->|Hne].
    + rewrite lookup_insert_eq. split.
      * intros [= ->]. eauto.
      * intros (rk' & [Hin|[= -> ->]] & Hid'); [|done]. simplify_eq.
        by destruct Hnew; apply (list_elem_of_fmap_2 fst _ (rk, t')).
    + rewrite lookup_insert_ne, Hseen by done. split; [naive_solver|].
      intros (rk' & [?|[= -> ->]] & Hid'); [eauto|]. destruct Hne.
      apply (cw_relays _ c Hwf) in Hid' as [refs' Hid'], Hid as [refs'' Hid]. congruence.
  - rewrite Hrun. f_equal. apply map_eq. intros u. apply option_eq. intros t.
    rewrite Hseen, lookup_seen_map, bind_Some. setoid_rewrite elem_of_observations_of. naive_solver.
Qed.

Lemma load_by_key_spec c key : canonical_wf c → load_by_key c key = Some (rows_view c !! key).
Proof.
  intros Hwf. unfold load_by_key. rewrite lookup_rows_view.
  destruct (c_rows c !! key); [|done]. by rewrite load_seen_spec.
Qed.

Lemma key_for_id_spec c id key :
  canonical_wf c → key_for_id c id = Some key ↔ ∃ se, rows_view c !! key = Some se ∧ e_id (se_event se) = id.
Proof.
  intros Hwf. unfold key_for_id. rewrite (cw_ids _ c Hwf). setoid_rewrite lookup_rows_view.
  split; [intros (e & -> & <-); eauto|]. intros (se & Hse & <-).
  destruct (c_rows c !! key); simplify_eq/=. eauto.
Qed.

Lemma load_by_id_spec c id :
  canonical_wf c → load_by_id c id = Some (key ← key_for_id c id; (λ s, (key, s)) <$> rows_view c !! key).
Proof.
  intros Hwf. unfold load_by_id. destruct (key_for_id c id); [|done]. by rewrite load_by_key_spec.
Qed.
End canonical.

(** ** Writes preserve the invariant *)

(** Two urls never share a relay key. *)
Lemma relay_ids_inj fresh c u u' rk :
  canonical_wf_but fresh c → c_relay_ids c !! u = Some rk → c_relay_ids c !! u' = Some rk → u = u'.
Proof.
  intros Hwf [? Hu]%(cw_relays _ _ Hwf) [? Hu']%(cw_relays _ _ Hwf). congruence.
Qed.

Lemma seen_map_insert fresh c c' key rk relay at_ key' :
  canonical_wf_but fresh c → c_relay_ids c !! relay = Some rk → c_relay_ids c' = c_relay_ids c →
  c_observations c' = <[(key, rk) := at_]> (c_observations c) →
  seen_map c' key' = if decide (key' = key) then <[relay := at_]> (seen_map c key) else seen_map c key'.
Proof.
  intros Hwf Hid Hids Hobs. apply map_eq. intros u.
  rewrite lookup_seen_map, Hids, Hobs. case_decide as Hk; [subst|].
  - destruct (decide (u = relay)) as [->|Hne].
    + rewrite lookup_insert_eq, Hid. simpl. apply lookup_insert_eq.
    + rewrite lookup_insert_ne, lookup_seen_map by done.
      destruct (c_relay_ids c !! u) as [rk'|] eqn:Hu; [simpl|done].
      apply lookup_insert_ne. intros [= <-]. destruct Hne. by eapply relay_ids_inj.
  - rewrite lookup_seen_map. destruct (c_relay_ids c !! u) as [rk'|]; [simpl|done].
    apply lookup_insert_ne. congruence.
Qed.

(** The row a new observation leaves. *)
Definition observe (relay : RelayUrl) (at_ : N) (se : StoredEvent) : StoredEvent :=
  mkStored (se_event se) (mkProv (<[relay := at_]> (pv_seen (se_provenance se))) (pv_local (se_provenance se))).

Lemma rows_view_observe fresh c c' key rk relay at_ :
  canonical_wf_but fresh c → c_relay_ids c !! relay = Some rk → c_relay_ids c' = c_relay_ids c →
  c_observations c' = <[(key, rk) := at_]> (c_observations c) →
  c_rows c' = c_rows c → c_locals c' = c_locals c →
  rows_view c' = alter (observe relay at_) key (rows_view c).
Proof.
  intros Hwf Hid Hids Hobs Hrows Hlocals. apply map_eq. intros key'.
  rewrite lookup_rows_view, Hrows, Hlocals, (seen_map_insert fresh c c' key rk relay at_ key') by done.
  case_decide as Hk; [subst|].
  - rewrite lookup_alter_eq, lookup_rows_view. by destruct (c_rows c !! key).
  - rewrite lookup_alter_ne, lookup_rows_view by done. done.
Qed.

(** An observation of a relay that has not delivered the event yet. *)
Lemma observe_new c key rk refs relay at_ :
  canonical_wf_but (Some rk) c → c_relays c !! rk = Some (refs, relay) → is_Some (c_rows c !! key) →
  c_observations c !! (key, rk) = None → (N.of_nat (size (c_observations c)) + 1 < 2 ^ 64)%N →
  let c1 := set_observations <[(key, rk) := at_]> c in
  increment_relay_ref c1 rk =
    Some (set_ref_counts (λ m, <[rk := N.of_nat (S (obs_count c rk))]> m) c1) ∧
  canonical_wf (set_ref_counts (λ m, <[rk := N.of_nat (S (obs_count c rk))]> m) c1).
Proof.
  intros Hwf Hrk Hrow Hobs Hroom. cbv zeta. unfold increment_relay_ref, effective_relay_ref.
  pose proof (cw_refs _ _ Hwf rk ltac:(by eexists)) as Hrefs.
  change (relay_ref (set_observations _ c) rk) with (relay_ref c rk). rewrite Hrefs.
  cbn [mbind option_bind]. pose proof (count_le (c_observations c) rk) as Hle. unfold obs_count in *.
  rewrite (proj2 (N.ltb_lt _ _)) by lia. split.
  { f_equal. unfold set_ref_counts. simpl. rewrite insert_insert_eq. do 2 f_equal. lia. }
  split; simpl; try apply Hwf.
  - intros key' rk' [t Ht]. destruct (decide ((key, rk) = (key', rk'))) as [[= <- <-]|Hne].
    + split; [done|by eexists].
    + rewrite lookup_insert_ne in Ht by done. apply (cw_obs _ _ Hwf). by eexists.
  - intros rk' Hrk'. unfold relay_ref, obs_count. simpl. rewrite count_insert, Hobs.
    destruct (decide (rk' = rk)) as [->|Hne].
    + rewrite lookup_insert_eq. f_equal. lia.
    + rewrite lookup_insert_ne by done. pose proof (cw_refs _ _ Hwf rk' Hrk') as Hr.
      unfold relay_ref, obs_count in Hr. rewrite Hr. f_equal. lia.
  - intros rk' Hs. destruct (decide (rk' = rk)) as [->|Hne]; [by eexists|].
    rewrite lookup_insert_ne in Hs by done. by apply (cw_counts _ _ Hwf).
  - intros rk' refs' relay' Hr Hn _. destruct (decide (rk' = rk)) as [->|Hne].
    + by rewrite lookup_insert_eq in Hn.
    + rewrite lookup_insert_ne in Hn by done. apply (cw_referenced _ _ Hwf _ _ _ Hr Hn). congruence.
Qed.

Lemma canonical_wf_weaken fresh c : canonical_wf c → canonical_wf_but fresh c.
Proof. intros Hwf. split; try apply Hwf. intros. by eapply (cw_referenced _ _ Hwf). Qed.

(** A key no relay has is observed by no event. *)
Lemma unobserved fresh c key rk :
  canonical_wf_but fresh c → c_relays c !! rk = None → c_observations c !! (key, rk) = None.
Proof.
  intros Hwf Hnone. apply eq_None_not_Some. intros Hs.
  destruct (cw_obs _ _ Hwf _ _ Hs) as [_ [? ?]]. congruence.
Qed.

Lemma next_relay_free fresh c : canonical_wf_but fresh c → c_relays c !! c_next_relay_key c = None.
Proof.
  intros Hwf. apply eq_None_not_Some. intros Hs%(cw_relay_keys _ _ Hwf). lia.
Qed.

Definition interned (c : Canonical) (relay : RelayUrl) : Canonical :=
  mkCanonical (c_rows c) (c_locals c) (c_observations c) (c_event_ids c)
    (<[c_next_relay_key c := (0%N, relay)]> (c_relays c)) (<[relay := c_next_relay_key c]> (c_relay_ids c))
    (c_meta_event c) (c_meta_relay c) (c_next_event_key c) (c_next_relay_key c + 1)
    (c_event_dirty c) true (c_relay_ref_counts c).

Lemma intern_fresh c relay :
  canonical_wf c → c_relay_ids c !! relay = None →
  canonical_wf_but (Some (c_next_relay_key c)) (interned c relay) ∧ rows_view (interned c relay) = rows_view c.
Proof.
  intros Hwf Hnew. pose proof (next_relay_free _ _ Hwf) as Hfree. split.
  - split; simpl; try apply Hwf; try done.
    + intros key rk Hs. destruct (cw_obs _ _ Hwf key rk Hs) as [? [r Hr]]. split; [done|].
      rewrite lookup_insert_ne; [by eexists|]. congruence.
    + intros u rk. destruct (decide (u = relay)) as [->|Hne].
      * rewrite lookup_insert_eq. split.
        -- intros [= <-]. rewrite lookup_insert_eq. eauto.
        -- intros [refs Hr]. destruct (decide (rk = c_next_relay_key c)) as [->|]; [done|].
           rewrite lookup_insert_ne in Hr by done.
           assert (c_relay_ids c !! relay = Some rk) by (apply (cw_relays _ _ Hwf); eauto). congruence.
      * rewrite lookup_insert_ne, (cw_relays _ _ Hwf) by done.
        destruct (decide (rk = c_next_relay_key c)) as [->|].
        -- rewrite lookup_insert_eq, Hfree. split; [by intros [? ?]|]. intros [? [= ]]. congruence.
        -- by rewrite lookup_insert_ne.
    + intros rk [r Hr]. destruct (decide (rk = c_next_relay_key c)) as [->|]; [lia|].
      rewrite lookup_insert_ne in Hr by done. pose proof (cw_relay_keys _ _ Hwf rk ltac:(by eexists)). lia.
    + intros rk Hs. unfold relay_ref, obs_count. simpl.
      destruct (decide (rk = c_next_relay_key c)) as [->|].
      * rewrite lookup_insert_eq. destruct (c_relay_ref_counts c !! c_next_relay_key c) eqn:E.
        { destruct (cw_counts _ _ Hwf (c_next_relay_key c)) as [? ?]; [by eexists|congruence]. }
        simpl. f_equal. assert (count (c_observations c) (c_next_relay_key c) = 0) as ->; [|done].
        apply count_zero. intros key. by eapply unobserved.
      * rewrite lookup_insert_ne in Hs |- * by done. by apply (cw_refs _ _ Hwf).
    + intros rk Hs%(cw_counts _ _ Hwf). rewrite lookup_insert_ne; [done|]. intros <-. by destruct Hs; congruence.
    + intros rk refs u Hr Hn Hne. rewrite lookup_insert_ne in Hr by congruence.
      by eapply (cw_referenced _ _ Hwf).
  - apply rows_view_ext; [done..|]. intros key. apply map_eq. intros u. rewrite !lookup_seen_map. simpl.
    destruct (decide (u = relay)) as [->|]; [|by rewrite lookup_insert_ne].
    rewrite lookup_insert_eq, Hnew. simpl. by eapply unobserved.
Qed.

Lemma intern_relay_spec c relay :
  canonical_wf c → (c_next_relay_key c + 1 < 2 ^ 32)%N →
  ∃ rk c' refs, intern_relay c relay = Some (rk, c') ∧
    canonical_wf_but (Some rk) c' ∧ c_relays c' !! rk = Some (refs, relay) ∧
    c_rows c' = c_rows c ∧ c_locals c' = c_locals c ∧ c_observations c' = c_observations c ∧
    c_next_event_key c' = c_next_event_key c ∧ (c_next_relay_key c' ≤ c_next_relay_key c + 1)%N ∧
    rows_view c' = rows_view c ∧
    (is_Some (c_relay_ids c !! relay) → c' = c) ∧
    (c_relay_ids c !! relay = None → ∀ key, c_observations c !! (key, rk) = None).
Proof.
  intros Hwf Hroom. unfold intern_relay.
  destruct (c_relay_ids c !! relay) as [rk|] eqn:Hid.
  - apply (cw_relays _ _ Hwf) in Hid as [refs Hrk]. exists rk, c, refs.
    split_and!; try done; [by apply canonical_wf_weaken|lia].
  - unfold allocate_relay_key. rewrite (proj2 (N.ltb_lt _ _)) by done. cbn [mbind option_bind].
    destruct (intern_fresh c relay Hwf Hid) as [Hwf' Hview].
    exists (c_next_relay_key c), (interned c relay), 0%N. split; [done|].
    split; [done|]. split; [apply lookup_insert_eq|]. do 4 (split; [done|]). split; [simpl; lia|].
    split; [done|]. split; [by intros []|]. intros _ key. eapply unobserved; [done|]. by eapply next_relay_free.
Qed.

(** A later observation by a relay that already delivered the event. *)
Lemma observe_again c key rk at_ :
  canonical_wf c → is_Some (c_observations c !! (key, rk)) →
  canonical_wf (set_observations <[(key, rk) := at_]> c).
Proof.
  intros Hwf [t Ht]. split; simpl; try apply Hwf.
  - intros key' rk' [t' Ht']. apply (cw_obs _ _ Hwf).
    destruct (decide ((key, rk) = (key', rk'))) as [[= <- <-]|Hne]; [by eexists|].
    rewrite lookup_insert_ne in Ht' by done. by eexists.
  - intros rk' Hrk'. unfold relay_ref, obs_count. simpl. rewrite count_insert, Ht, Nat.add_0_r.
    by apply (cw_refs _ _ Hwf).
Qed.

Lemma alter_observe c key se relay at_ :
  rows_view c !! key = Some se →
  alter (observe relay at_) key (rows_view c) = <[key := observe relay at_ se]> (rows_view c).
Proof.
  intros Hse. apply map_eq. intros k. destruct (decide (k = key)) as [->|].
  - by rewrite lookup_alter_eq, lookup_insert_eq, Hse.
  - by rewrite lookup_alter_ne, lookup_insert_ne.
Qed.

Lemma rows_view_Some c key se :
  rows_view c !! key = Some se →
  c_rows c !! key = Some (se_event se) ∧
  ∀ relay, pv_seen (se_provenance se) !! relay = seen_map c key !! relay.
Proof. rewrite lookup_rows_view. destruct (c_rows c !! key); [|done]. by intros [= <-]. Qed.

Lemma has_room_insert c c' key rk at_ n :
  has_room c (S n) → c_next_event_key c' = c_next_event_key c →
  (c_next_relay_key c' ≤ c_next_relay_key c + 1)%N →
  c_observations c' = <[(key, rk) := at_]> (c_observations c) → has_room c' n.
Proof.
  intros (He & Hr & Ho) He' Hr' Hobs. unfold has_room. rewrite He', Hobs.
  assert (size (<[(key, rk):=at_]> (c_observations c)) ≤ S (size (c_observations c))).
  { rewrite map_size_insert. destruct (c_observations c !! (key, rk)); simpl; lia. }
  split_and!; lia.
Qed.

Lemma has_room_mono c n m : m ≤ n → has_room c n → has_room c m.
Proof. unfold has_room. lia. Qed.

(** The persisted merge is [Provenance::merge_observation] on the row. *)
Lemma merge_observation_spec c key se relay at_ n :
  canonical_wf c → rows_view c !! key = Some se → has_room c (S n) →
  let '(grew, p) := provenance_merge (se_provenance se) relay at_ in
  ∃ c', merge_observation c key relay at_ = Some (grew, c') ∧ canonical_wf c' ∧
    rows_view c' = <[key := mkStored (se_event se) p]> (rows_view c) ∧
    c_next_event_key c' = c_next_event_key c ∧ has_room c' n.
Proof.
  intros Hwf Hse Hroom. destruct (rows_view_Some c key se Hse) as [Hrow Hseen].
  unfold provenance_merge, merge_observation. rewrite Hseen, lookup_seen_map.
  destruct (intern_relay_spec c relay Hwf) as
    (rk & c' & refs & Hrun & Hwf' & Hrk & Hrows & Hlocals & Hobs & Hne & Hnr & Hview & Hsame & Hfree).
  { destruct Hroom as (_ & ? & _). lia. }
  rewrite Hrun. cbn [mbind option_bind].
  assert (c_relay_ids c' !! relay = Some rk) as Hid by (apply (cw_relays _ _ Hwf'); eauto).
  assert (c_observations c' !! (key, rk) = c_relay_ids c !! relay ≫= λ rk, c_observations c !! (key, rk)) as Hex.
  { rewrite Hobs. destruct (c_relay_ids c !! relay) as [rk'|] eqn:E; [|by apply Hfree].
    rewrite Hsame in Hid by eauto. by simplify_eq/=. }
  assert (∀ c1, c_relay_ids c1 = c_relay_ids c' → c_observations c1 = <[(key, rk) := at_]> (c_observations c') →
    c_rows c1 = c_rows c' → c_locals c1 = c_locals c' →
    rows_view c1 = <[key := observe relay at_ se]> (rows_view c)) as Hobserve.
  { intros. rewrite <-alter_observe, <-Hview by done. by eapply rows_view_observe. }
  rewrite <-Hex. destruct (c_observations c' !! (key, rk)) as [t|] eqn:Et; cbn [from_option].
  - assert (c' = c) as -> by (destruct (c_relay_ids c !! relay); [by apply Hsame; eauto|done]).
    destruct (N.leb_spec at_ t), (N.ltb_spec t at_); try lia; cbn [fst snd].
    + exists c. split_and!; try done; [|by eapply has_room_mono, Hroom; lia].
      rewrite insert_id; [done|]. rewrite Hse. by destruct se as [? []].
    + eexists. split; [done|]. split; [apply observe_again; [done|by eexists]|].
      split; [by apply Hobserve|]. split; [done|]. eapply (has_room_insert c _ key rk at_); [done|done|simpl; lia|done].
  - destruct (observe_new c' key rk refs relay at_ Hwf' Hrk) as [Hinc Hwf''];
      [by rewrite Hrows; eexists|done|rewrite Hobs; destruct Hroom as (_ & _ & ?); lia|].
    rewrite Hinc. cbn [mbind option_bind]. eexists. split; [done|]. split; [done|].
    split; [by apply Hobserve|]. split; [done|].
    eapply (has_room_insert c _ key rk at_); [done|done|done|]. simpl. by rewrite Hobs.
Qed.

(** The tables once the note and local columns of a new row are written. *)
Definition with_note (c : Canonical) (event : Event) (local : option LocalOrigin) : Canonical :=
  let key := c_next_event_key c in
  mkCanonical (<[key := event]> (c_rows c))
    (match local with Some l => <[key := l]> (c_locals c) | None => c_locals c end)
    (c_observations c) (<[e_id event := key]> (c_event_ids c)) (c_relays c) (c_relay_ids c)
    (c_meta_event c) (c_meta_relay c) (key + 1) (c_next_relay_key c) true (c_relay_dirty c)
    (c_relay_ref_counts c).

Lemma next_event_free fresh c : canonical_wf_but fresh c → c_rows c !! c_next_event_key c = None.
Proof. intros Hwf. apply eq_None_not_Some. intros ?%(cw_keys _ _ Hwf). lia. Qed.

Lemma with_note_wf c event local :
  canonical_wf c → key_for_id c (e_id event) = None → canonical_wf (with_note c event local).
Proof.
  intros Hwf Hid. pose proof (next_event_free _ _ Hwf) as Hfree. unfold key_for_id in Hid.
  split; simpl; try apply Hwf; try done.
  - intros id key. destruct (decide (id = e_id event)) as [->|Hne].
    + rewrite lookup_insert_eq. split; [intros [= <-]; rewrite lookup_insert_eq; eauto|].
      intros (e & He & Heq). destruct (decide (key = c_next_event_key c)) as [->|]; [done|].
      rewrite lookup_insert_ne in He by done.
      assert (c_event_ids c !! e_id event = Some key) by (apply (cw_ids _ _ Hwf); eauto). congruence.
    + rewrite lookup_insert_ne, (cw_ids _ _ Hwf) by done.
      destruct (decide (key = c_next_event_key c)) as [->|].
      * rewrite lookup_insert_eq, Hfree. naive_solver.
      * by rewrite lookup_insert_ne.
  - intros key [e He]. destruct (decide (key = c_next_event_key c)) as [->|]; [lia|].
    rewrite lookup_insert_ne in He by done. pose proof (cw_keys _ _ Hwf key ltac:(by eexists)). lia.
  - intros key Hl. destruct (decide (key = c_next_event_key c)) as [->|].
    + rewrite lookup_insert_eq. by eexists.
    + rewrite lookup_insert_ne by done. apply (cw_locals _ _ Hwf).
      destruct local; [by rewrite lookup_insert_ne in Hl|done].
  - intros key rk Hs. destruct (cw_obs _ _ Hwf _ _ Hs) as [[e He] ?]. split; [|done].
    rewrite lookup_insert_ne; [by eexists|]. congruence.
Qed.

Lemma with_note_view c event local :
  canonical_wf c →
  rows_view (with_note c event local) =
    <[c_next_event_key c := mkStored event (mkProv ∅ local)]> (rows_view c).
Proof.
  intros Hwf. pose proof (next_event_free _ _ Hwf) as Hfree. apply map_eq. intros key.
  rewrite lookup_rows_view. change (seen_map (with_note c event local) key) with (seen_map c key).
  simpl. destruct (decide (key = c_next_event_key c)) as [->|Hne].
  - rewrite !lookup_insert_eq. simpl. do 3 f_equal.
    + apply map_eq. intros u. rewrite lookup_seen_map, lookup_empty.
      destruct (c_relay_ids c !! u) as [rk|]; [simpl|done]. apply eq_None_not_Some.
      intros Hs. destruct (cw_obs _ _ Hwf _ _ Hs) as [[? ?] _]. congruence.
    + destruct local; [apply lookup_insert_eq|]. apply eq_None_not_Some.
      intros Hl%(cw_locals _ _ Hwf). rewrite Hfree in Hl. by destruct Hl.
  - rewrite !lookup_insert_ne, lookup_rows_view by done. destruct (c_rows c !! key); [|done]. simpl.
    destruct local; [by rewrite lookup_insert_ne|done].
Qed.

Lemma insert_new_spec c event provenance n :
  canonical_wf c → key_for_id c (e_id event) = None → has_room c (n + S (size (pv_seen provenance))) →
  ∃ c', insert_new c event provenance = Some (c_next_event_key c, c') ∧ canonical_wf c' ∧
    rows_view c' = <[c_next_event_key c := mkStored event provenance]> (rows_view c) ∧
    c_next_event_key c' = (c_next_event_key c + 1)%N ∧ has_room c' n.
Proof.
  intros Hwf Hid Hroom. destruct provenance as [seen local]. cbn [pv_seen] in Hroom.
  unfold insert_new, allocate_key. rewrite (proj2 (N.ltb_lt _ _)) by (destruct Hroom as (? & _); lia).
  cbn [mbind option_bind pv_local pv_seen].
  set (key := c_next_event_key c).
  match goal with |- context [foldl _ (Some ?x) _] => replace x with (with_note c event local) by (by destruct local) end.
  destruct (foldl_option_ind (λ c p, snd <$> merge_observation c key p.1 p.2)
    (λ pre c', canonical_wf c' ∧
       rows_view c' = <[key := mkStored event (mkProv (list_to_map (reverse pre)) local)]> (rows_view c) ∧
       c_next_event_key c' = (key + 1)%N ∧ has_room c' (n + (size seen - length pre)))
    (ordered_map seen) (with_note c event local)) as (c' & Hrun & Hwf' & Hview & Hnext & Hroom').
  - split; [by apply with_note_wf|]. split; [by rewrite with_note_view|]. split; [done|].
    destruct Hroom as (? & ? & ?). unfold has_room. simpl. split_and!; lia.
  - intros pre [relay at_] post c1 Hl (Hwf1 & Hview1 & Hnext1 & Hroom1).
    assert (length pre < size seen) as Hlen.
    { rewrite <-length_ordered_map, Hl, length_app. simpl. lia. }
    pose proof (NoDup_ordered_map_fst seen) as Hnd. rewrite Hl, fmap_app in Hnd.
    apply NoDup_app in Hnd as (_ & Hdisj & _).
    pose proof (merge_observation_spec c1 key (mkStored event (mkProv (list_to_map (reverse pre)) local)) relay at_
      (n + (size seen - S (length pre))) Hwf1) as Hmerge.
    unfold provenance_merge in Hmerge. cbn [se_provenance pv_seen pv_local se_event] in Hmerge.
    assert ((list_to_map (reverse pre) : gmap RelayUrl N) !! relay = None) as Hfresh.
    { apply not_elem_of_list_to_map_1. rewrite fmap_reverse, reverse_Permutation.
      intros Hin. apply (Hdisj relay Hin). by left. }
    rewrite Hfresh in Hmerge. destruct Hmerge as (c2 & Hrun & Hwf2 & Hview2 & Hnext2 & Hroom2).
    { rewrite Hview1. apply lookup_insert_eq. }
    { eapply has_room_mono; [|exact Hroom1]. lia. }
    exists c2. cbn [fst snd]. rewrite Hrun. split; [done|]. split; [done|]. split; [|split; [congruence|]].
    + rewrite Hview2, Hview1, insert_insert_eq, reverse_app. done.
    + rewrite length_app. simpl. eapply has_room_mono; [|exact Hroom2]. lia.
  - rewrite Hrun. cbn [mbind option_bind]. exists c'. split; [done|]. split; [done|].
    rewrite length_ordered_map, Nat.sub_diag, Nat.add_0_r in Hroom'. split; [|done].
    rewrite Hview. do 3 f_equal. rewrite <-(list_to_ordered_map seen) at 2.
    apply list_to_map_proper; [|by rewrite reverse_Permutation].
    rewrite fmap_reverse, reverse_Permutation. apply NoDup_ordered_map_fst.
Qed.

(** ** Removal *)

(** Everything but observations and reference counts is untouched. *)
Definition same_frame (c c' : Canonical) : Prop :=
  c_rows c' = c_rows c ∧ c_locals c' = c_locals c ∧ c_event_ids c' = c_event_ids c ∧
  c_relays c' = c_relays c ∧ c_relay_ids c' = c_relay_ids c ∧
  c_next_event_key c' = c_next_event_key c ∧ c_next_relay_key c' = c_next_relay_key c.

Lemma remove_observation_spec c key rk t :
  canonical_wf c → c_observations c !! (key, rk) = Some t →
  ∃ c', remove_observation c key rk = Some c' ∧ canonical_wf c' ∧ same_frame c c' ∧
    c_observations c' = delete (key, rk) (c_observations c).
Proof.
  intros Hwf Ht. destruct (cw_obs _ _ Hwf key rk ltac:(by eexists)) as [_ Hrk].
  unfold remove_observation. rewrite Ht. unfold decrement_relay_ref, effective_relay_ref.
  change (relay_ref (set_observations _ c) rk) with (relay_ref c rk). rewrite (cw_refs _ _ Hwf rk Hrk).
  cbn [mbind option_bind]. pose proof (count_delete _ key rk t rk Ht) as Hcount.
  rewrite decide_True in Hcount by done. unfold obs_count. rewrite (proj2 (N.leb_le _ _)) by lia.
  eexists. split; [done|]. split; [|done]. split; simpl; try apply Hwf.
  - intros key' rk' [t' Ht']. apply lookup_delete_Some in Ht' as [_ Ht']. apply (cw_obs _ _ Hwf). by eexists.
  - intros rk' Hrk'. unfold relay_ref, obs_count. simpl. rewrite insert_insert_eq.
    pose proof (count_delete _ key rk t rk' Ht) as Hc. destruct (decide (rk' = rk)) as [->|Hne].
    + rewrite lookup_insert_eq. f_equal. lia.
    + rewrite lookup_insert_ne by done. pose proof (cw_refs _ _ Hwf rk' Hrk') as Hr.
      unfold relay_ref, obs_count in Hr. rewrite Hr. f_equal. lia.
  - intros rk' Hs. rewrite insert_insert_eq in Hs. destruct (decide (rk' = rk)) as [->|]; [done|].
    rewrite lookup_insert_ne in Hs by done. by apply (cw_counts _ _ Hwf).
  - intros rk' refs u Hr Hn _. rewrite insert_insert_eq in Hn. destruct (decide (rk' = rk)) as [->|].
    + by rewrite lookup_insert_eq in Hn.
    + rewrite lookup_insert_ne in Hn by done. by eapply (cw_referenced _ _ Hwf).
Qed.

Lemma remove_all_observations_spec c key :
  canonical_wf c →
  ∃ c', remove_all_observations c key = Some c' ∧ canonical_wf c' ∧ same_frame c c' ∧
    ∀ key' rk, c_observations c' !! (key', rk) =
      if decide (key' = key) then None else c_observations c !! (key', rk).
Proof.
  intros Hwf. unfold remove_all_observations.
  destruct (foldl_option_ind (λ c p, remove_observation c key p.1)
    (λ pre c', canonical_wf c' ∧ same_frame c c' ∧ ∀ key' rk, c_observations c' !! (key', rk) =
       if decide (key' = key ∧ rk ∈ pre.*1) then None else c_observations c !! (key', rk))
    (observations_of c key) c) as (c' & Hrun & Hwf' & Hframe & Hobs).
  - split; [done|]. split; [done|]. intros key' rk. rewrite decide_False; [done|].
    by intros [_ ?%not_elem_of_nil].
  - intros pre [rk t] post c1 Hl (Hwf1 & Hframe & Hobs).
    pose proof (NoDup_observations_of c key) as Hnd. rewrite Hl, fmap_app in Hnd.
    apply NoDup_app in Hnd as (_ & Hdisj & _).
    destruct (remove_observation_spec c1 key rk t Hwf1) as (c2 & Hrun & Hwf2 & Hframe2 & Hobs2).
    { rewrite Hobs, decide_False; [|by intros [_ Hin]; apply (Hdisj rk Hin); left].
      apply elem_of_observations_of. rewrite Hl. apply elem_of_app. right. by left. }
    exists c2. split; [done|]. split; [done|]. split; [unfold same_frame in *; intuition congruence|].
    intros key' rk'. rewrite Hobs2, fmap_app. destruct (decide ((key, rk) = (key', rk'))) as [[= <- <-]|Hne].
    + rewrite lookup_delete_eq, decide_True; [done|]. split; [done|]. apply elem_of_app. right. by left.
    + rewrite lookup_delete_ne, Hobs by done. apply decide_ext. rewrite elem_of_app. csimpl.
      rewrite list_elem_of_singleton. naive_solver.
  - exists c'. split; [done|]. split; [done|]. split; [done|]. intros key' rk. rewrite Hobs.
    case_decide as Hd; case_decide as Hk; try naive_solver. subst. apply eq_None_not_Some. intros [t Ht].
    destruct Hd. split; [done|]. by apply (list_elem_of_fmap_2 fst _ (rk, t)), elem_of_observations_of.
Qed.

Lemma remove_by_key_spec c key event :
  canonical_wf c → c_rows c !! key = Some event →
  ∃ c', remove_by_key c key (e_id event) = Some c' ∧ canonical_wf c' ∧
    rows_view c' = delete key (rows_view c) ∧
    c_next_event_key c' = c_next_event_key c ∧ ∀ n, has_room c n → has_room c' n.
Proof.
  intros Hwf Hrow.
  destruct (remove_all_observations_spec c key Hwf) as (c1 & Hrun & Hwf1 & Hframe & Hobs).
  destruct Hframe as (Hrows & Hlocals & Hids & Hrelays & Hrids & Hne & Hnr).
  unfold remove_by_key. rewrite Hrun. cbn [mbind option_bind]. eexists. split; [done|].
  assert (filter (λ p, p.1.1 ≠ key) (c_observations c1) = c_observations c1) as Hfilter.
  { apply map_filter_id. intros [k rk] t Ht. simpl. intros ->. by rewrite Hobs, decide_True in Ht. }
  assert (c_event_ids c1 !! e_id event = Some key) as Hid.
  { apply (cw_ids _ _ Hwf1). rewrite Hrows. eauto. }
  split; [|split; [|split; [done|]]].
  - split; simpl; rewrite ?Hfilter; try apply Hwf1.
    + intros id k. rewrite lookup_delete_Some, (cw_ids _ _ Hwf1). setoid_rewrite lookup_delete_Some.
      split.
      * intros (Hne' & e & He & <-). exists e. split; [|done]. split; [|done]. intros <-. congruence.
      * intros (e & [Hne' He] & <-). split; [|eauto]. intros Heq.
        assert (c_event_ids c1 !! e_id event = Some k); [|congruence]. apply (cw_ids _ _ Hwf1). eauto.
    + intros k [e [_ He]%lookup_delete_Some]. apply (cw_keys _ _ Hwf1). by eexists.
    + intros k [l [Hk Hl]%lookup_delete_Some]. rewrite lookup_delete_ne by done.
      apply (cw_locals _ _ Hwf1). by eexists.
    + intros k rk Hs. destruct (cw_obs _ _ Hwf1 _ _ Hs) as [? ?]. split; [|done].
      rewrite lookup_delete_ne; [done|]. intros ->. rewrite Hobs, decide_True in Hs by done. by destruct Hs.
    + intros rk Hs. pose proof (cw_refs _ _ Hwf1 rk Hs) as Hr. unfold relay_ref, obs_count in *. simpl.
      by rewrite Hfilter.
  - apply map_eq. intros k. rewrite lookup_rows_view. simpl. rewrite Hrows, Hlocals.
    destruct (decide (k = key)) as [->|Hk]; [by rewrite !lookup_delete_eq|].
    rewrite !lookup_delete_ne, lookup_rows_view by done. destruct (c_rows c !! k); [|done]. simpl.
    do 3 f_equal. apply map_eq. intros u. rewrite !lookup_seen_map. simpl. rewrite Hfilter, Hrids.
    destruct (c_relay_ids c !! u); [simpl|done]. by rewrite Hobs, decide_False.
  - intros n (He & Hr & Ho). unfold has_room. simpl. rewrite Hfilter, Hne, Hnr.
    split_and!; [done..|]. assert (size (c_observations c1) ≤ size (c_observations c)); [|lia].
    apply map_subseteq_size, map_subseteq_spec. intros [k rk] t. rewrite Hobs. by case_decide.
Qed.

(** ** Column updates *)

Lemma replace_event_spec c key old event :
  canonical_wf c → rows_view c !! key = Some old → e_id event = e_id (se_event old) →
  canonical_wf (replace_event c key event) ∧
  rows_view (replace_event c key event) = <[key := mkStored event (se_provenance old)]> (rows_view c).
Proof.
  intros Hwf Hold Hid. destruct (rows_view_Some _ _ _ Hold) as [Hrow _]. split.
  - split; simpl; try apply Hwf.
    + intros id k. rewrite (cw_ids _ _ Hwf). destruct (decide (k = key)) as [->|].
      * rewrite lookup_insert_eq, Hrow. naive_solver.
      * by rewrite lookup_insert_ne.
    + intros k [e He]. apply (cw_keys _ _ Hwf). destruct (decide (k = key)) as [->|]; [by eexists|].
      rewrite lookup_insert_ne in He by done. by eexists.
    + intros k Hl%(cw_locals _ _ Hwf). destruct (decide (k = key)) as [->|].
      * rewrite lookup_insert_eq. by eexists.
      * by rewrite lookup_insert_ne.
    + intros k rk [Hk ?]%(cw_obs _ _ Hwf). split; [|done]. destruct (decide (k = key)) as [->|].
      * rewrite lookup_insert_eq. by eexists.
      * by rewrite lookup_insert_ne.
  - apply map_eq. intros k. rewrite lookup_rows_view. simpl. destruct (decide (k = key)) as [->|].
    + rewrite !lookup_insert_eq. simpl. rewrite lookup_rows_view, Hrow in Hold. by injection Hold as <-.
    + by rewrite !lookup_insert_ne, lookup_rows_view.
Qed.

Lemma replace_local_spec c key old local :
  canonical_wf c → rows_view c !! key = Some old →
  canonical_wf (replace_local c key local) ∧
  rows_view (replace_local c key local) =
    <[key := mkStored (se_event old) (mkProv (pv_seen (se_provenance old)) local)]> (rows_view c).
Proof.
  intros Hwf Hold. destruct (rows_view_Some _ _ _ Hold) as [Hrow _].
  assert (∀ k, c_locals (replace_local c key local) !! k = if decide (k = key) then local else c_locals c !! k) as Hl.
  { intros k. unfold replace_local. case_decide as Hk; [subst|]; destruct local; simpl;
      [apply lookup_insert_eq|apply lookup_delete_eq|by apply lookup_insert_ne|by apply lookup_delete_ne]. }
  split.
  - assert (∀ k, is_Some (c_locals (replace_local c key local) !! k) → is_Some (c_rows c !! k)) as Hlocal.
    { intros k. rewrite Hl. case_decide; [subst; by eexists|apply (cw_locals _ _ Hwf)]. }
    destruct local; split; simpl; try apply Hwf; exact Hlocal.
  - apply map_eq. intros k. rewrite lookup_rows_view, Hl.
    replace (c_rows (replace_local c key local)) with (c_rows c) by (by destruct local).
    replace (seen_map (replace_local c key local) k) with (seen_map c k) by (by destruct local).
    case_decide as Hk; [subst|].
    + rewrite lookup_insert_eq. rewrite lookup_rows_view, Hrow in Hold. rewrite Hrow. by injection Hold as <-.
    + by rewrite lookup_insert_ne, lookup_rows_view.
Qed.

(** ** Committing *)

(** The dictionary once the touched relays [counts] are settled. *)
Definition settled (counts : gmap RelayKey N) (c c' : Canonical) : Prop :=
  (∀ rk, c_relays c' !! rk =
     match counts !! rk with
     | Some effective => if (0 <? effective)%N then (λ r, (effective, r.2)) <$> c_relays c !! rk else None
     | None => c_relays c !! rk
     end) ∧
  (∀ u, c_relay_ids c' !! u =
     rk ← c_relay_ids c !! u; if decide (counts !! rk = Some 0%N) then None else Some rk) ∧
  c' = mkCanonical (c_rows c) (c_locals c) (c_observations c) (c_event_ids c) (c_relays c')
    (c_relay_ids c') (c_meta_event (flush_allocators c)) (c_meta_relay (flush_allocators c))
    (c_next_event_key c) (c_next_relay_key c) false false ∅.

Lemma flush_relay_step c c' counts rk effective :
  canonical_wf c → settled counts c c' → counts !! rk = None →
  c_relay_ref_counts c !! rk = Some effective →
  ∃ c'', flush_relay c' (rk, effective) = Some c'' ∧ settled (<[rk := effective]> counts) c c''.
Proof.
  intros Hwf (Hrelays & Hids & Hc') Hnew Heff.
  destruct (cw_counts _ _ Hwf rk ltac:(by eexists)) as [[persisted url] Hrk].
  pose proof (Hrelays rk) as Hrk'. rewrite Hnew, Hrk in Hrk'.
  assert (c_relay_ids c !! url = Some rk) as Hurl by (apply (cw_relays _ _ Hwf); eauto).
  unfold flush_relay. rewrite Hrk'. cbn [mbind option_bind]. eexists. split; [done|].
  destruct (N.ltb_spec 0 effective) as [Hpos|Hzero].
  - assert (∀ rk', <[rk := effective]> counts !! rk' = Some 0%N ↔ counts !! rk' = Some 0%N) as Hz.
    { intros rk'. destruct (decide (rk' = rk)) as [->|]; [|by rewrite lookup_insert_ne].
      rewrite lookup_insert_eq, Hnew. split; [intros [= ->]; lia|done]. }
    destruct (N.eqb_spec effective persisted) as [->|Hne]; (split; [|split]).
    + intros rk'. rewrite Hrelays. destruct (decide (rk' = rk)) as [->|]; [|by rewrite lookup_insert_ne].
      rewrite lookup_insert_eq, Hnew, Hrk. by rewrite (proj2 (N.ltb_lt _ _)).
    + intros u. rewrite Hids. destruct (c_relay_ids c !! u); [simpl|done]. apply decide_ext. by rewrite Hz.
    + done.
    + intros rk'. simpl. destruct (decide (rk' = rk)) as [->|].
      * rewrite !lookup_insert_eq, Hrk. by rewrite (proj2 (N.ltb_lt _ _)).
      * by rewrite !lookup_insert_ne, Hrelays.
    + intros u. simpl. rewrite Hids. destruct (c_relay_ids c !! u); [simpl|done]. apply decide_ext. by rewrite Hz.
    + rewrite Hc' at 1. done.
  - replace effective with 0%N in * by lia. split; [|split].
    + intros rk'. simpl. destruct (decide (rk' = rk)) as [->|].
      * by rewrite lookup_delete_eq, lookup_insert_eq.
      * by rewrite lookup_delete_ne, lookup_insert_ne, Hrelays.
    + intros u. simpl. destruct (decide (u = url)) as [->|].
      * rewrite lookup_delete_eq, Hurl. simpl. by rewrite lookup_insert_eq, decide_True.
      * rewrite lookup_delete_ne, Hids by done. destruct (c_relay_ids c !! u) as [rk'|] eqn:Hu; [simpl|done].
        rewrite lookup_insert_ne; [done|]. intros <-. by assert (u = url) by (by eapply relay_ids_inj).
    + rewrite Hc' at 1. done.
Qed.

Lemma flush_pending_settled c :
  canonical_wf c → ∃ c', flush_pending c = Some c' ∧ settled (c_relay_ref_counts c) c c'.
Proof.
  intros Hwf. unfold flush_pending.
  destruct (foldl_option_ind flush_relay
    (λ pre c', settled (list_to_map (reverse pre)) c c') (ordered_map (c_relay_ref_counts c))
    (flush_allocators c)) as (c' & Hrun & Hsettled).
  - split; [done|]. split; [|done]. intros u. simpl. by destruct (c_relay_ids c !! u).
  - intros pre [rk effective] post c' Hl Hs. rewrite reverse_app.
    apply (flush_relay_step c c' (list_to_map (reverse pre)) rk effective Hwf Hs).
    + apply not_elem_of_list_to_map_1. rewrite fmap_reverse, reverse_Permutation.
      pose proof (NoDup_ordered_map_fst (c_relay_ref_counts c)) as Hnd. rewrite Hl, fmap_app in Hnd.
      apply NoDup_app in Hnd as (_ & Hdisj & _). intros Hin. apply (Hdisj rk Hin). by left.
    + apply elem_of_ordered_map. rewrite Hl. apply elem_of_app. right. by left.
  - exists c'. split; [done|]. rewrite <-(list_to_ordered_map (c_relay_ref_counts c)).
    rewrite (list_to_map_proper (ordered_map (c_relay_ref_counts c)) (reverse (ordered_map (c_relay_ref_counts c))));
      [done|apply NoDup_ordered_map_fst|by rewrite reverse_Permutation].
Qed.

(** Whether a relay survives the commit, and with which count. *)
Lemma settled_relay c c' rk refs u :
  canonical_wf c → settled (c_relay_ref_counts c) c c' → c_relays c' !! rk = Some (refs, u) →
  (∃ refs0, c_relays c !! rk = Some (refs0, u)) ∧ refs = N.of_nat (obs_count c rk) ∧ (0 < refs)%N.
Proof.
  intros Hwf (Hrelays & _) Hr. rewrite Hrelays in Hr.
  destruct (c_relay_ref_counts c !! rk) as [effective|] eqn:Heff.
  - destruct (N.ltb_spec 0 effective); [|done].
    destruct (c_relays c !! rk) as [[refs0 u0]|] eqn:Hrk; simplify_eq/=.
    pose proof (cw_refs _ _ Hwf rk ltac:(by eexists)) as Hcount. unfold relay_ref in Hcount.
    rewrite Heff in Hcount. injection Hcount as ->. eauto.
  - pose proof (cw_refs _ _ Hwf rk ltac:(by eexists)) as Hcount. unfold relay_ref in Hcount.
    rewrite Heff, Hr in Hcount. injection Hcount as ->. split; [eauto|]. split; [done|].
    by eapply (cw_referenced _ _ Hwf).
Qed.

(** A relay some event observed is never collected. *)
Lemma observed_not_zero c key rk :
  canonical_wf c → is_Some (c_observations c !! (key, rk)) → c_relay_ref_counts c !! rk ≠ Some 0%N.
Proof.
  intros Hwf [t Ht] Hz. pose proof (cw_obs _ _ Hwf key rk ltac:(by eexists)) as [_ Hrk].
  pose proof (cw_refs _ _ Hwf rk Hrk) as Hcount. unfold relay_ref in Hcount. rewrite Hz in Hcount.
  injection Hcount as Hcount. assert (obs_count c rk = 0) as Hzero by lia.
  unfold obs_count in Hzero. rewrite count_zero in Hzero. by rewrite Hzero in Ht.
Qed.

Lemma settled_wf c c' :
  canonical_wf c → settled (c_relay_ref_counts c) c c' → canonical_wf c' ∧ rows_view c' = rows_view c.
Proof.
  intros Hwf Hs. pose proof Hs as (Hrelays & Hids & Hc').
  assert (∀ rk refs u, c_relays c !! rk = Some (refs, u) → c_relay_ref_counts c !! rk ≠ Some 0%N →
            ∃ refs', c_relays c' !! rk = Some (refs', u)) as Hkept.
  { intros rk refs u Hrk Hz. rewrite Hrelays. destruct (c_relay_ref_counts c !! rk) as [eff|] eqn:E; [|eauto].
    destruct (N.ltb_spec 0 eff) as [|Hle]; [rewrite Hrk; simpl; eauto|]. destruct Hz. do 2 f_equal. lia. }
  assert (∃ relays' ids', c' = mkCanonical (c_rows c) (c_locals c) (c_observations c) (c_event_ids c) relays' ids'
    (c_meta_event (flush_allocators c)) (c_meta_relay (flush_allocators c))
    (c_next_event_key c) (c_next_relay_key c) false false ∅) as (relays' & ids' & Heq) by eauto.
  clear Hc'. subst c'. cbn [c_relays c_relay_ids] in *. split.
  - split; simpl; try apply Hwf; try done.
    + intros key rk Hobs. split; [by apply (cw_obs _ _ Hwf key rk)|].
      destruct (cw_obs _ _ Hwf key rk Hobs) as [_ [[refs u] Hrk]].
      destruct (Hkept rk refs u Hrk) as [refs' ?]; [by eapply observed_not_zero|]. by eexists.
    + intros u rk. rewrite Hids. split.
      * intros (rk' & Hu & Hd)%bind_Some. case_decide as Hz; [done|]. injection Hd as ->.
        apply (cw_relays _ _ Hwf) in Hu as [refs Hrk]. eauto.
      * intros [refs Hrk]. destruct (settled_relay _ _ rk refs u Hwf Hs Hrk) as ([refs0 Hrk0] & Href & Hpos).
        assert (c_relay_ids c !! u = Some rk) as -> by (apply (cw_relays _ _ Hwf); eauto). simpl.
        rewrite decide_False; [done|]. intros Hz. rewrite Hrelays, Hz in Hrk. done.
    + intros rk [[refs u] Hrk]. destruct (settled_relay _ _ rk refs u Hwf Hs Hrk) as ([refs0 Hrk0] & _).
      apply (cw_relay_keys _ _ Hwf). by eexists.
    + intros rk [[refs u] Hrk]. unfold relay_ref, obs_count. simpl. rewrite lookup_empty, Hrk. simpl.
      by destruct (settled_relay _ _ rk refs u Hwf Hs Hrk) as (_ & -> & _).
    + intros rk. rewrite lookup_empty. by intros [].
    + intros rk refs u Hrk _ _. by destruct (settled_relay _ _ rk refs u Hwf Hs Hrk) as (_ & _ & ?).
    + intros _. destruct (c_event_dirty c) eqn:E; [done|]. by apply (cw_meta_event _ _ Hwf).
    + intros _. destruct (c_relay_dirty c) eqn:E; [done|]. by apply (cw_meta_relay _ _ Hwf).
  - apply rows_view_ext; [done..|]. intros key. apply map_eq. intros u. rewrite !lookup_seen_map. simpl.
    rewrite Hids.
    destruct (c_relay_ids c !! u) as [rk|]; [simpl|done]. case_decide as Hz; [simpl|done].
    symmetry. apply eq_None_not_Some. intros Hobs. by apply (observed_not_zero c key rk).
Qed.

(** ** The interface the governed mutations rely on *)

Class CanonicalStore (C : Type) := {
  cs_key_for_id : C → EventId → option EventKey;
  cs_load_by_key : C → EventKey → option (option StoredEvent);
  cs_load_local : C → EventKey → option LocalOrigin;
  cs_merge_observation : C → EventKey → RelayUrl → N → option (bool * C);
  cs_replace_event : C → EventKey → Event → C;
  cs_replace_local : C → EventKey → option LocalOrigin → C;
  cs_insert_new : C → Event → Provenance → option (EventKey * C);
  cs_remove : C → EventKey → EventId → option C;
  cs_flush : C → option C
}.

(** Its contract: a map from keys to rows, with unique event ids. *)
Class CanonicalLaws (C : Type) `{CanonicalStore C} := {
  cs_wf : C → Prop;
  cs_rows : C → gmap EventKey StoredEvent;
  cs_room : C → nat → Prop;
  cs_next : C → EventKey;
  cs_room_le c m n : m ≤ n → cs_room c n → cs_room c m;
  cs_keys c key : cs_wf c → is_Some (cs_rows c !! key) → (key < cs_next c)%N;
  cs_key_for_id_spec c id key : cs_wf c →
    cs_key_for_id c id = Some key ↔ ∃ se, cs_rows c !! key = Some se ∧ e_id (se_event se) = id;
  cs_load_spec c key : cs_wf c → cs_load_by_key c key = Some (cs_rows c !! key);
  cs_load_local_spec c key se : cs_wf c → cs_rows c !! key = Some se →
    cs_load_local c key = pv_local (se_provenance se);
  cs_merge_spec c key se relay at_ n :
    cs_wf c → cs_rows c !! key = Some se → cs_room c (S n) →
    let '(grew, p) := provenance_merge (se_provenance se) relay at_ in
    ∃ c', cs_merge_observation c key relay at_ = Some (grew, c') ∧ cs_wf c' ∧
      cs_rows c' = <[key := mkStored (se_event se) p]> (cs_rows c) ∧ cs_next c' = cs_next c ∧ cs_room c' n;
  cs_replace_event_spec c key old event :
    cs_wf c → cs_rows c !! key = Some old → e_id event = e_id (se_event old) →
    cs_wf (cs_replace_event c key event) ∧
    cs_rows (cs_replace_event c key event) = <[key := mkStored event (se_provenance old)]> (cs_rows c) ∧
    cs_next (cs_replace_event c key event) = cs_next c ∧
    ∀ n, cs_room c n → cs_room (cs_replace_event c key event) n;
  cs_replace_local_spec c key old local :
    cs_wf c → cs_rows c !! key = Some old →
    cs_wf (cs_replace_local c key local) ∧
    cs_rows (cs_replace_local c key local) =
      <[key := mkStored (se_event old) (mkProv (pv_seen (se_provenance old)) local)]> (cs_rows c) ∧
    cs_next (cs_replace_local c key local) = cs_next c ∧
    ∀ n, cs_room c n → cs_room (cs_replace_local c key local) n;
  cs_insert_spec c event provenance n :
    cs_wf c → cs_key_for_id c (e_id event) = None → cs_room c (n + S (size (pv_seen provenance))) →
    ∃ c', cs_insert_new c event provenance = Some (cs_next c, c') ∧ cs_wf c' ∧
      cs_rows c' = <[cs_next c := mkStored event provenance]> (cs_rows c) ∧
      cs_next c' = (cs_next c + 1)%N ∧ cs_room c' n;
  cs_remove_spec c key se :
    cs_wf c → cs_rows c !! key = Some se →
    ∃ c', cs_remove c key (e_id (se_event se)) = Some c' ∧ cs_wf c' ∧
      cs_rows c' = delete key (cs_rows c) ∧ cs_next c' = cs_next c ∧ (∀ n, cs_room c n → cs_room c' n);
  cs_flush_spec c : cs_wf c →
    ∃ c', cs_flush c = Some c' ∧ cs_wf c' ∧ cs_rows c' = cs_rows c ∧ cs_next c' = cs_next c ∧
      ∀ n, cs_room c n → cs_room c' n
}.

#[global] Instance canonical_store `{RelayParser} : CanonicalStore Canonical := {|
  cs_key_for_id := key_for_id; cs_load_by_key := load_by_key; cs_load_local := load_local;
  cs_merge_observation := merge_observation; cs_replace_event := replace_event;
  cs_replace_local := replace_local; cs_insert_new := insert_new; cs_remove := remove_by_key;
  cs_flush := flush_pending |}.

#[global] Program Instance canonical_laws `{RelayParserLaws} : CanonicalLaws Canonical := {|
  cs_wf := canonical_wf; cs_rows := rows_view; cs_room := has_room; cs_next := c_next_event_key |}.
Next Obligation. unfold has_room. intros. lia. Qed.
Next Obligation.
  intros ?? c key Hwf [se Hse]. apply (cw_keys _ _ Hwf). destruct (rows_view_Some c key se Hse) as [-> _]. by eexists.
Qed.
Next Obligation. intros. by apply key_for_id_spec. Qed.
Next Obligation. intros. by apply load_by_key_spec. Qed.
Next Obligation.
  intros ?? c key se _ Hse. rewrite lookup_rows_view in Hse. destruct (c_rows c !! key); [|done].
  by injection Hse as <-.
Qed.
Next Obligation.
  intros ?? c key se relay at_ n Hwf Hse Hroom. pose proof (merge_observation_spec c key se relay at_ n Hwf Hse Hroom) as Hm.
  destruct (provenance_merge (se_provenance se) relay at_). destruct Hm as (c' & ? & ? & ? & ? & ?). eauto 10.
Qed.
Next Obligation.
  intros ?? c key old event Hwf Hold Hid. by destruct (replace_event_spec c key old event Hwf Hold Hid).
Qed.
Next Obligation.
  intros ?? c key old local Hwf Hold. destruct (replace_local_spec c key old local Hwf Hold).
  split_and!; by destruct local.
Qed.
Next Obligation.
  intros ?? c event provenance n Hwf Hid Hroom.
  destruct (insert_new_spec c event provenance n Hwf Hid Hroom) as (c' & ? & ? & ? & ? & ?). eauto 10.
Qed.
Next Obligation.
  intros ?? c key se Hwf Hse. destruct (rows_view_Some c key se Hse) as [Hrow _].
  destruct (remove_by_key_spec c key (se_event se) Hwf Hrow) as (c' & ? & ? & ? & ? & ?). eauto 10.
Qed.

Next Obligation.
  intros ?? c Hwf. destruct (flush_pending_settled c Hwf) as (c' & Hrun & Hs).
  destruct (settled_wf c c' Hwf Hs) as [Hwf' Hview]. destruct Hs as (_ & _ & Hc').
  exists c'. split_and!; [done..|by rewrite Hc'|]. unfold has_room. by rewrite Hc'.
Qed.

(** ** What the tables guarantee *)

Lemma load_by_id_view `{RelayParserLaws} c id key se :
  canonical_wf c →
  load_by_id c id = Some (Some (key, se)) ↔ rows_view c !! key = Some se ∧ e_id (se_event se) = id.
Proof.
  intros Hwf. rewrite load_by_id_spec by done. split.
  - intros Heq. injection Heq as Heq. apply bind_Some in Heq as (k & Hk & (s & Hs & [= -> ->])%fmap_Some).
    split; [done|]. apply (key_for_id_spec c id k Hwf) in Hk as (se' & Hse' & Hid). congruence.
  - intros [Hse Hid]. assert (key_for_id c id = Some key) as -> by (apply (key_for_id_spec c id key Hwf); eauto).
    simpl. by rewrite Hse.
Qed.

(** Rows that agree give the same answer for an id. *)
Lemma load_by_id_agree `{RelayParserLaws} c c' id :
  canonical_wf c → canonical_wf c' →
  (∀ key se, e_id (se_event se) = id → rows_view c !! key = Some se ↔ rows_view c' !! key = Some se) →
  load_by_id c id = load_by_id c' id.
Proof.
  intros Hwf Hwf' Hagree.
  assert (∃ o, load_by_id c id = Some o) as [o Ho] by (rewrite load_by_id_spec by done; eauto).
  assert (∃ o, load_by_id c' id = Some o) as [o' Ho'] by (rewrite load_by_id_spec by done; eauto).
  rewrite Ho, Ho'. f_equal. apply option_eq. intros [key se].
  assert (o = Some (key, se) ↔ load_by_id c id = Some (Some (key, se))) as -> by (rewrite Ho; naive_solver).
  assert (o' = Some (key, se) ↔ load_by_id c' id = Some (Some (key, se))) as -> by (rewrite Ho'; naive_solver).
  rewrite !load_by_id_view by done. split; intros [? ?]; (split; [|done]); by apply Hagree.
Qed.

(** A row written by [insert_new] reads back by id with exactly its event and
    provenance, no other id's answer changes, and removing it restores every
    answer. *)
Theorem insert_new_round_trip `{RelayParserLaws} c event provenance n :
  canonical_wf c → key_for_id c (e_id event) = None → has_room c (n + S (size (pv_seen provenance))) →
  ∃ key c', insert_new c event provenance = Some (key, c') ∧ canonical_wf c' ∧
    load_by_id c' (e_id event) = Some (Some (key, mkStored event provenance)) ∧
    (∀ id, id ≠ e_id event → load_by_id c' id = load_by_id c id) ∧
    ∃ c'', remove_by_key c' key (e_id event) = Some c'' ∧ canonical_wf c'' ∧
      ∀ id, load_by_id c'' id = load_by_id c id.
Proof.
  intros Hwf Hid Hroom. destruct (insert_new_spec c event provenance n Hwf Hid Hroom) as (c' & Hrun & Hwf' & Hview & _).
  assert (rows_view c !! c_next_event_key c = None) as Hfree by (by rewrite lookup_rows_view, (next_event_free None)).
  exists (c_next_event_key c), c'. split; [done|]. split; [done|].
  assert (rows_view c' !! c_next_event_key c = Some (mkStored event provenance)) as Hrow
    by (rewrite Hview; apply lookup_insert_eq).
  split; [by apply load_by_id_view|]. split.
  - intros id Hne. symmetry. apply load_by_id_agree; [done..|]. intros key se Hse. rewrite Hview.
    destruct (decide (key = c_next_event_key c)) as [->|]; [|by rewrite lookup_insert_ne].
    rewrite lookup_insert_eq, Hfree. split; [done|]. intros [= <-]. by destruct Hne.
  - destruct (rows_view_Some _ _ _ Hrow) as [Hnote _].
    destruct (remove_by_key_spec c' _ event Hwf' Hnote) as (c'' & Hrem & Hwf'' & Hview'' & _).
    exists c''. split; [done|]. split; [done|]. intros id. apply load_by_id_agree; [done..|].
    intros key se _. by rewrite Hview'', Hview, delete_insert_id.
Qed.

(** Committing settles the relay dictionary exactly: every interned relay's
    stored reference count is the number of events it was observed on, no relay
    without an observation is kept, the url index and the dictionary are
    inverse to each other, no row changes, and reopening the tables gives the
    same state back. *)
Theorem flush_pending_exact `{RelayParserLaws} c :
  canonical_wf c → (c_next_relay_key c < 2 ^ 32)%N →
  ∃ c', flush_pending c = Some c' ∧ canonical_wf c' ∧ rows_view c' = rows_view c ∧
    (∀ relay_key refs relay, c_relays c' !! relay_key = Some (refs, relay) →
       refs = N.of_nat (obs_count c' relay_key) ∧ (0 < refs)%N) ∧
    (∀ relay relay_key, c_relay_ids c' !! relay = Some relay_key ↔
       ∃ refs, c_relays c' !! relay_key = Some (refs, relay)) ∧
    open c' = Some c'.
Proof.
  intros Hwf Hroom. destruct (flush_pending_settled c Hwf) as (c' & Hrun & Hs).
  destruct (settled_wf c c' Hwf Hs) as [Hwf' Hview]. exists c'. split; [done|]. split; [done|].
  split; [done|]. pose proof Hs as (_ & _ & Hc'). split; [|split].
  - intros rk refs u Hrk. destruct (settled_relay c c' rk refs u Hwf Hs Hrk) as (_ & -> & ?).
    split; [|done]. unfold obs_count. by rewrite Hc'.
  - apply Hwf'.
  - unfold open. rewrite (cw_meta_event _ _ Hwf'), (cw_meta_relay _ _ Hwf') by (by rewrite Hc').
    rewrite Hc'. cbn. rewrite (proj2 (N.ltb_lt _ _)) by done. done.
Qed.

Module CanonicalSample.
#[global] Instance parser : RelayParser := λ s, Some s.
#[global] Instance parser_laws : RelayParserLaws.
Proof. done. Qed.

Definition empty : Canonical := mkCanonical ∅ ∅ ∅ ∅ ∅ ∅ None None 1 1 false false ∅.

Lemma empty_wf : canonical_wf empty.
Proof.
  split; simpl; intros; rewrite ?lookup_empty in *; try done; try (by destruct H).
  - split; [done|]. by intros (e & ? & _).
  - split; [done|]. by intros [refs ?].
Qed.

Definition note : Event := mkEvent 11 7 100 1 [] "hello" 5.
Definition seen : Provenance := mkProv {[ "wss://a" := 101%N; "wss://b" := 103%N ]} None.
End CanonicalSample.

Lemma insert_new_round_trip_witness :
  ∃ key c', insert_new CanonicalSample.empty CanonicalSample.note CanonicalSample.seen = Some (key, c') ∧
    load_by_id c' 11 = Some (Some (key, mkStored CanonicalSample.note CanonicalSample.seen)).
Proof.
  destruct (insert_new_round_trip CanonicalSample.empty CanonicalSample.note CanonicalSample.seen 0)
    as (key & c' & Hrun & _ & Hload & _);
    [exact CanonicalSample.empty_wf|reflexivity|decide_now|].
  exists key, c'. exact (conj Hrun Hload).
Defined.

Lemma flush_pending_exact_witness :
  ∃ c', flush_pending CanonicalSample.empty = Some c' ∧ open c' = Some c'.
Proof.
  destruct (flush_pending_exact CanonicalSample.empty CanonicalSample.empty_wf ltac:(done))
    as (c' & Hrun & _ & _ & _ & _ & Hopen).
  exists c'. exact (conj Hrun Hopen).
Defined.
