(* ===== verification/Ingest.v ===== *)
(** * Governed ingest

    The one door events enter and leave the store by:
    [insert_with_tables] of [crates/nmp-store/src/redb_store/ingest.rs],
    tombstones, row removal, kind:5 deletions and signature fan-out of
    [mutation.rs], and [expire_due] and [remove] of [event_ops.rs].

    The canonical tables are used through their interface
    ([Canonical.CanonicalStore]).  The tombstone and suppression tables hold two
    kinds of key each, which never collide ([Schema.tombstone_keys_inj]), so
    each is two maps; the publish-queue tables hold decoded records.  [None] is
    a [PersistenceError] or a panic, on either of which nothing is committed. *)

From S2P Require Import Prelude Grammar Address Coverage Schema Canonical.

(** The parts of [nostr::Event] and [nostr::Tags] the store reads. *)
Class EventReader := {
  tags_expiration : list (list string) → option N;
  tags_event_ids : list (list string) → list EventId;
  tags_coordinates : list (list string) → list Coordinate;
  (** the [single_letter_tag] and [content] of the tags that have both *)
  tags_indexed : list (list string) → list (N * string);
  is_expired_at : Event → N → bool
}.

Definition kind_event_deletion : N := 5.

Record RelayObserved := mkObserved { ob_relay : RelayUrl; ob_at : N }.

Inductive RefuseReason := AlreadyExpired | Tombstoned.

Inductive InsertOutcome :=
  | Inserted
  | Duplicate (provenance_grew : bool) (satisfied_intents : list N) (locally_accepted : bool)
  | Superseded (replaced : StoredEvent)
  | Stale
  | Refused (reason : RefuseReason)
  | Kind5Processed (deleted : list StoredEvent).

(** ** Postings *)

Record PendingEvent := mkPending {
  pe_created_at : N;
  pe_id : bytes;
  pe_event_key : EventKey;
  pe_author : bytes;
  pe_kind : bytes;
  pe_tags : gset (list N)
}.

Record PostingsBatch := mkBatch {
  pb_additions : gmap EventKey PendingEvent;
  pb_deaths : gset EventKey
}.

Section postings.
Context `{EventReader}.

(** [PendingEvent::prepare]. *)
Definition prepare (event : Event) (event_key : EventKey) : option PendingEvent :=
  prefixes ← mapM (λ p, tag_index_prefix p.1 p.2) (tags_indexed (e_tags event));
  Some (mkPending (e_created_at event) (be_bytes 32 (e_id event)) event_key
          (be_bytes 32 (e_pubkey event)) (be_bytes 2 (e_kind event)) (list_to_set prefixes)).

Definition batch_insert (b : PostingsBatch) (event : Event) (event_key : EventKey)
    : option PostingsBatch :=
  pending ← prepare event event_key;
  Some (mkBatch (<[event_key := pending]> (pb_additions b)) (pb_deaths b ∖ {[ event_key ]})).

Definition batch_remove (b : PostingsBatch) (event_key : EventKey) : PostingsBatch :=
  match pb_additions b !! event_key with
  | Some _ => mkBatch (delete event_key (pb_additions b)) (pb_deaths b)
  | None => mkBatch (pb_additions b) ({[ event_key ]} ∪ pb_deaths b)
  end.
End postings.

(** ** The publish-queue tables a mutation reaches *)

Inductive IntentSigState := AwaitingSigner | IntentPending | IntentSigned.
#[global] Instance IntentSigState_eq_dec : EqDecision IntentSigState.
Proof. solve_decision. Defined.

Record MaterializationRef := mkMatRef { mr_materialization_id : N; mr_event_id : EventId }.

Inductive IntentWork :=
  | WorkEvent (frozen : Event) (routing : string) (sig_state : IntentSigState)
  | WorkReplaceableOperation (coordinate : Coordinate)
      (materialization : option (MaterializationRef * string * IntentSigState)).

Record IntentRecord := mkIntent {
  in_receipt_id : N;
  in_work : IntentWork;
  in_expected_pubkey : PublicKey;
  in_signing_identity_ref : string;
  in_accepted_at : N
}.

Inductive ReceiptState :=
  | ReceiptAccepted | ReceiptSigned | ReceiptCompensated | ReceiptCancelled | ReceiptSuperseded
  | ReceiptNoDestination | ReceiptRefused (reason : RefuseReason).

Inductive OperationAcceptance := Bodyless | BodyComplete (event_id : EventId).

Record MaterializationReceipt := mkMatReceipt {
  mt_materialization : MaterializationRef;
  mt_sig_state : IntentSigState
}.

Inductive OperationReceiptState :=
  | Contributing (current : option MaterializationReceipt)
  | Settled (materialization : MaterializationRef)
  | Resolved
  | OperationCancelled
  | OperationRefused (reason : string).

Inductive ReceiptPayload :=
  | PayloadEvent (event_id : EventId) (state : ReceiptState)
  | PayloadReplaceableOperation (coordinate : Coordinate) (acceptance : OperationAcceptance)
      (state : OperationReceiptState).

Record ReceiptRecord := mkReceipt {
  rc_intent_id : option N;
  rc_expected_pubkey : PublicKey;
  rc_accepted_at : option N;
  rc_payload : ReceiptPayload;
  rc_terminal : option N * option N * option N
}.

Inductive SuppressClaim :=
  | ClaimId (target : EventId) (claiming_author : PublicKey)
  | ClaimAddr (key : string) (ceiling : N) (deleting_author : PublicKey).

Record AddrClaimant := mkAddrClaimant { ac_intent_id : N; ac_ceiling : N }.

Record Queue := mkQueue {
  q_intents : gmap N IntentRecord;
  q_receipts : gmap N ReceiptRecord;
  q_displaced : gmap N StoredEvent;
  q_kind5_claims : gmap N (list SuppressClaim);
  q_suppress_id : gmap (EventId * PublicKey) (list N);
  q_suppress_addr : gmap string (list AddrClaimant)
}.

(** [update_publish_queue_receipt] of [mutation.rs]. *)
Definition update_receipt (q : Queue) (receipt_id : N) (state : ReceiptState) : option Queue :=
  record ← q_receipts q !! receipt_id;
  match rc_payload record, state with
  | PayloadEvent _ ReceiptSuperseded, _ => None
  | PayloadEvent _ _, ReceiptSuperseded => None
  | PayloadEvent id _, _ =>
      let record := mkReceipt (rc_intent_id record) (rc_expected_pubkey record) (rc_accepted_at record)
                      (PayloadEvent id state) (rc_terminal record) in
      Some (mkQueue (q_intents q) (<[receipt_id := record]> (q_receipts q)) (q_displaced q)
              (q_kind5_claims q) (q_suppress_id q) (q_suppress_addr q))
  | PayloadReplaceableOperation _ _ _, _ => None
  end.

(** [remove_claimant]. *)
Definition remove_claimant (q : Queue) (key : EventId * PublicKey) (intent_id : N) : Queue :=
  match q_suppress_id q !! key with
  | None => q
  | Some claimants =>
      let claimants := filter (λ id, id ≠ intent_id) claimants in
      mkQueue (q_intents q) (q_receipts q) (q_displaced q) (q_kind5_claims q)
        (if decide (claimants = []) then delete key (q_suppress_id q)
         else <[key := claimants]> (q_suppress_id q))
        (q_suppress_addr q)
  end.

(** [remove_addr_claimant]. *)
Definition remove_addr_claimant (q : Queue) (key : string) (intent_id : N) : Queue :=
  match q_suppress_addr q !! key with
  | None => q
  | Some claimants =>
      let claimants := filter (λ c, ac_intent_id c ≠ intent_id) claimants in
      mkQueue (q_intents q) (q_receipts q) (q_displaced q) (q_kind5_claims q) (q_suppress_id q)
        (match claimants with
         | [] => delete key (q_suppress_addr q)
         | _ => <[key := claimants]> (q_suppress_addr q)
         end)
  end.

(** The two suppression lookups of [is_suppressed_in_txn]. *)
Definition is_suppressed `{HexCodec, TagReader} (q : Queue) (event : Event) : bool :=
  match q_suppress_id q !! (e_id event, e_pubkey event) with
  | Some _ => true
  | None =>
      match address_key_for event with
      | Some key =>
          existsb (λ c, (e_created_at event <=? ac_ceiling c)%N)
            (default [] (q_suppress_addr q !! to_redb_key key))
      | None => false
      end
  end.

(** ** The transaction *)

Record AddrTombstone := mkAddrTombstone {
  at_ceiling : N;
  at_deleting_event_id : EventId;
  at_deleting_author : PublicKey
}.

(** [RedbIngestTxn]. *)
Record Txn (C : Type) := mkTxn {
  t_canonical : C;
  t_addr_index : gmap string EventKey;
  t_id_tombstones : gmap (EventId * PublicKey) EventId;
  t_addr_tombstones : gmap string AddrTombstone;
  t_expiration : gmap (N * EventId) EventKey;
  t_queue : Queue;
  t_postings : PostingsBatch
}.
#[global] Arguments mkTxn {_} _ _ _ _ _ _ _.
#[global] Arguments t_canonical {_} _.
#[global] Arguments t_addr_index {_} _.
#[global] Arguments t_id_tombstones {_} _.
#[global] Arguments t_addr_tombstones {_} _.
#[global] Arguments t_expiration {_} _.
#[global] Arguments t_queue {_} _.
#[global] Arguments t_postings {_} _.

Definition set_canonical {C} (t : Txn C) (c : C) : Txn C :=
  mkTxn c (t_addr_index t) (t_id_tombstones t) (t_addr_tombstones t) (t_expiration t) (t_queue t) (t_postings t).
Definition set_addr_index {C} (t : Txn C) (m : gmap string EventKey) : Txn C :=
  mkTxn (t_canonical t) m (t_id_tombstones t) (t_addr_tombstones t) (t_expiration t) (t_queue t) (t_postings t).
Definition set_id_tombstones {C} (t : Txn C) (m : gmap (EventId * PublicKey) EventId) : Txn C :=
  mkTxn (t_canonical t) (t_addr_index t) m (t_addr_tombstones t) (t_expiration t) (t_queue t) (t_postings t).
Definition set_addr_tombstones {C} (t : Txn C) (m : gmap string AddrTombstone) : Txn C :=
  mkTxn (t_canonical t) (t_addr_index t) (t_id_tombstones t) m (t_expiration t) (t_queue t) (t_postings t).
Definition set_expiration {C} (t : Txn C) (m : gmap (N * EventId) EventKey) : Txn C :=
  mkTxn (t_canonical t) (t_addr_index t) (t_id_tombstones t) (t_addr_tombstones t) m (t_queue t) (t_postings t).
Definition set_queue {C} (t : Txn C) (q : Queue) : Txn C :=
  mkTxn (t_canonical t) (t_addr_index t) (t_id_tombstones t) (t_addr_tombstones t) (t_expiration t) q (t_postings t).
Definition set_postings {C} (t : Txn C) (b : PostingsBatch) : Txn C :=
  mkTxn (t_canonical t) (t_addr_index t) (t_id_tombstones t) (t_addr_tombstones t) (t_expiration t) (t_queue t) b.

(** The durable address of an event. *)
Definition addr_of `{HexCodec, TagReader} (e : Event) : option string := to_redb_key <$> address_key_for e.

(** [IntentRecord::event_mut] writing its two borrows: the frozen event and
    its signature state; [None] for a replaceable operation. *)
Definition sign_work (w : IntentWork) (canonical_event : Event) : option (IntentSigState * IntentWork) :=
  match w with
  | WorkEvent _ routing sig_state => Some (sig_state, WorkEvent canonical_event routing IntentSigned)
  | WorkReplaceableOperation _ _ => None
  end.

Definition put_intent (q : Queue) (id : N) (r : IntentRecord) : Queue :=
  mkQueue (<[id := r]> (q_intents q)) (q_receipts q) (q_displaced q) (q_kind5_claims q)
    (q_suppress_id q) (q_suppress_addr q).
Definition displaced_remove (q : Queue) (id : N) : Queue :=
  mkQueue (q_intents q) (q_receipts q) (delete id (q_displaced q)) (q_kind5_claims q)
    (q_suppress_id q) (q_suppress_addr q).
Definition kind5_claims_remove (q : Queue) (id : N) : Queue :=
  mkQueue (q_intents q) (q_receipts q) (q_displaced q) (delete id (q_kind5_claims q))
    (q_suppress_id q) (q_suppress_addr q).

(** The claims an owner staged, dropped one by one. *)
Definition drop_claims (q : Queue) (owner : N) (claims : list SuppressClaim) : Queue :=
  foldl (λ q claim,
    match claim with
    | ClaimId target claiming_author => remove_claimant q (target, claiming_author) owner
    | ClaimAddr key _ _ => remove_addr_claimant q key owner
    end) q claims.

(** The suppression claims of an owner whose deletion is now signed. *)
Definition close_claims (canonical_event : Event) (owner : N) (q : Queue) : Queue :=
  if (e_kind canonical_event =? kind_event_deletion)%N then
    match q_kind5_claims q !! owner with
    | None => q
    | Some claims => drop_claims (kind5_claims_remove q owner) owner claims
    end
  else q.

(** One owner of the loop of [fan_out_signed_in_txn]. *)
Definition fan_out_owner (canonical_event : Event) (acc : list N * Queue) (owner : N)
    : option (list N * Queue) :=
  let '(transitioned, q) := acc in
  let q := displaced_remove q owner in
  match q_intents q !! owner with
  | None => Some (transitioned, close_claims canonical_event owner q)
  | Some record =>
      match sign_work (in_work record) canonical_event with
      | None => Some (transitioned, close_claims canonical_event owner q)
      | Some (IntentSigned, _) => Some (transitioned, q)
      | Some (_, work) =>
          let record := mkIntent (in_receipt_id record) work (in_expected_pubkey record)
                          (in_signing_identity_ref record) (in_accepted_at record) in
          q ← update_receipt (put_intent q owner record) (in_receipt_id record) ReceiptSigned;
          Some (transitioned ++ [owner], close_claims canonical_event owner q)
      end
  end.

(** ** Operations *)

Section ingest.
Context `{CanonicalStore C, HexCodec, TagReader, EventReader}.

Definition tombstone_refuses (t : Txn C) (event : Event) : bool :=
  match t_id_tombstones t !! (e_id event, e_pubkey event) with
  | Some _ => true
  | None =>
      match address_key_for event with
      | None => false
      | Some key =>
          match t_addr_tombstones t !! to_redb_key key with
          | Some rec => (e_created_at event <=? at_ceiling rec)%N
          | None => false
          end
      end
  end.

(** [RedbIngestTxn::load_by_id], through the canonical tables. *)
Definition txn_load_by_id (t : Txn C) (id : EventId) : option (option (EventKey * StoredEvent)) :=
  match cs_key_for_id (t_canonical t) id with
  | None => Some None
  | Some key => fmap (M:=option) (pair key) <$> cs_load_by_key (t_canonical t) key
  end.

(** [remove_row_in_txn]. *)
Definition remove_row (t : Txn C) (id : EventId) (predicate : StoredEvent → bool)
    : option (option StoredEvent * Txn C) :=
  found ← txn_load_by_id t id;
  match found with
  | None => Some (None, t)
  | Some (event_key, se) =>
      if negb (predicate se) then Some (None, t) else
      c ← cs_remove (t_canonical t) event_key id;
      let t := set_canonical t c in
      let t := set_postings t (batch_remove (t_postings t) event_key) in
      let t :=
        match addr_of (se_event se) with
        | None => t
        | Some a =>
            if decide (t_addr_index t !! a = Some event_key)
            then set_addr_index t (delete a (t_addr_index t)) else t
        end in
      let t :=
        match tags_expiration (e_tags (se_event se)) with
        | None => t
        | Some ts => set_expiration t (delete (ts, id) (t_expiration t))
        end in
      Some (Some se, t)
  end.

(** One [e] tag of [process_kind5_deletions]. *)
Definition delete_id (deleting : Event) (acc : list StoredEvent * Txn C) (target : EventId)
    : option (list StoredEvent * Txn C) :=
  let '(deleted, t) := acc in
  '(removed, t) ← remove_row t target (λ se, bool_decide (e_pubkey (se_event se) = e_pubkey deleting));
  Some (deleted ++ option_list removed,
        set_id_tombstones t (<[(target, e_pubkey deleting) := e_id deleting]> (t_id_tombstones t))).

(** One [a] tag of [process_kind5_deletions]. *)
Definition delete_address (deleting : Event) (acc : list StoredEvent * Txn C) (coord : Coordinate)
    : option (list StoredEvent * Txn C) :=
  let '(deleted, t) := acc in
  if decide (co_public_key coord = e_pubkey deleting) then
    match address_key_for_coordinate coord with
    | None => Some (deleted, t)
    | Some key =>
        let a := to_redb_key key in
        let record := mkAddrTombstone (e_created_at deleting) (e_id deleting) (e_pubkey deleting) in
        let raise :=
          match t_addr_tombstones t !! a with
          | None => true
          | Some rec => (at_ceiling rec <? e_created_at deleting)%N
          end in
        let t := if raise then set_addr_tombstones t (<[a := record]> (t_addr_tombstones t)) else t in
        match t_addr_index t !! a with
        | None => Some (deleted, t)
        | Some current_key =>
            found ← cs_load_by_key (t_canonical t) current_key;
            current ← found;
            '(removed, t) ← remove_row t (e_id (se_event current))
                              (λ se, (e_created_at (se_event se) <=? e_created_at deleting)%N);
            Some (deleted ++ option_list removed, t)
        end
    end
  else Some (deleted, t).

Definition process_kind5_deletions (t : Txn C) (deleting : Event) : option (list StoredEvent * Txn C) :=
  acc ← foldl (λ acc id, acc ≫= λ acc, delete_id deleting acc id)
          (Some ([], t)) (tags_event_ids (e_tags deleting));
  foldl (λ acc coord, acc ≫= λ acc, delete_address deleting acc coord)
    (Some acc) (tags_coordinates (e_tags deleting)).

(** [fan_out_signed_in_txn]; a [BTreeSet] iterates in ascending order. *)
Definition fan_out_signed (t : Txn C) (owners : gset N) (canonical_event : Event)
    : option (list N * Txn C) :=
  '(transitioned, q) ← foldl (λ acc owner, acc ≫= λ acc, fan_out_owner canonical_event acc owner)
                         (Some ([], t_queue t)) (ordered owners);
  let t := set_queue t q in
  if (e_kind canonical_event =? kind_event_deletion)%N then
    '(_, t) ← process_kind5_deletions t canonical_event; Some (transitioned, t)
  else Some (transitioned, t).

(** The storing block [insert_with_tables] repeats for a free id: the canonical
    row, the address slot, the postings and the expiration entry. *)
Definition store_row (t : Txn C) (event : Event) (provenance : Provenance) : option (Txn C) :=
  '(event_key, c) ← cs_insert_new (t_canonical t) event provenance;
  let t := set_canonical t c in
  let t := match addr_of event with
           | None => t
           | Some a => set_addr_index t (<[a := event_key]> (t_addr_index t))
           end in
  batch ← batch_insert (t_postings t) event event_key;
  let t := set_postings t batch in
  Some (match tags_expiration (e_tags event) with
        | None => t
        | Some ts => set_expiration t (<[(ts, e_id event) := event_key]> (t_expiration t))
        end).

(** The address competition of a new event. *)
Definition compete (t : Txn C) (event : Event) (provenance : Provenance)
    : option (InsertOutcome * Txn C) :=
  match addr_of event with
  | None => t ← store_row t event provenance; Some (Inserted, t)
  | Some a =>
      match t_addr_index t !! a with
      | None => t ← store_row t event provenance; Some (Inserted, t)
      | Some current_key =>
          found ← cs_load_by_key (t_canonical t) current_key;
          replaced ← found;
          if candidate_wins event (se_event replaced) then
            '(removed, t) ← remove_row t (e_id (se_event replaced)) (λ _, true);
            _ ← removed;
            t ← store_row t event provenance;
            Some (Superseded replaced, t)
          else Some (Stale, t)
      end
  end.

(** An event whose id is already held. *)
Definition merge_duplicate (t : Txn C) (event_key : EventKey) (event : Event) (from : RelayObserved)
    : option (InsertOutcome * Txn C) :=
  let local := cs_load_local (t_canonical t) event_key in
  '(grew, c) ← cs_merge_observation (t_canonical t) event_key (ob_relay from) (ob_at from);
  let t := set_canonical t c in
  match local with
  | Some (mkLocal owners Pending) =>
      let t := set_canonical t (cs_replace_event (t_canonical t) event_key event) in
      let t := set_canonical t
                 (cs_replace_local (t_canonical t) event_key (Some (mkLocal owners Signed))) in
      '(satisfied, t) ← fan_out_signed t owners event;
      Some (Duplicate grew satisfied true, t)
  | Some _ => Some (Duplicate grew [] true, t)
  | None => Some (Duplicate grew [] false, t)
  end.

Definition insert_with_tables (t : Txn C) (event : Event) (from : RelayObserved)
    : option (InsertOutcome * Txn C) :=
  if is_expired_at event (ob_at from) then Some (Refused AlreadyExpired, t) else
  match cs_key_for_id (t_canonical t) (e_id event) with
  | Some event_key => merge_duplicate t event_key event from
  | None =>
      if tombstone_refuses t event then Some (Refused Tombstoned, t) else
      let provenance := mkProv {[ ob_relay from := ob_at from ]} None in
      '(outcome, t) ← compete t event provenance;
      if (e_kind event =? kind_event_deletion)%N then
        match outcome with
        | Inserted =>
            '(deleted, t) ← process_kind5_deletions t event;
            Some (Kind5Processed deleted, t)
        | _ => Some (outcome, t)
        end
      else Some (outcome, t)
  end.

(** The loop of [insert_batch]. *)
Definition insert_batch (t : Txn C) (events : list (Event * RelayObserved))
    : option (list InsertOutcome * Txn C) :=
  foldl (λ acc ev,
    '(outcomes, t) ← acc;
    '(o, t) ← insert_with_tables t ev.1 ev.2;
    Some (outcomes ++ [o], t)) (Some ([], t)) events.

(** The body of [event_ops::remove]. *)
Definition remove (t : Txn C) (id : EventId) : option (option StoredEvent * Txn C) :=
  remove_row t id (λ _, true).

(** The keys of the expiration entries up to [now], in index order. *)
Definition due_keys (t : Txn C) (now : N) : list EventKey :=
  (filter (λ p, (p.1.1 ≤ now)%N) (ordered_map (t_expiration t))).*2.

Definition expire_due (t : Txn C) (now : N) : option (list StoredEvent * Txn C) :=
  foldl (λ acc event_key,
    '(removed, t) ← acc;
    found ← cs_load_by_key (t_canonical t) event_key;
    match found with
    | None => Some (removed, t)
    | Some stored =>
        '(row, t) ← remove_row t (e_id (se_event stored)) (λ _, true);
        Some (removed ++ option_list row, t)
    end) (Some ([], t)) (due_keys t now).

(** [GovernedWrite::apply]: run the mutation, then flush the canonical tables'
    transaction-local state.  A failure commits nothing. *)
Definition governed_apply {A} (mutate : Txn C → option (A * Txn C)) (t : Txn C) : option (A * Txn C) :=
  '(result, t) ← mutate t;
  c ← cs_flush (t_canonical t);
  Some (result, set_canonical t c).

(** [event_ops::insert_batch]: an empty batch opens no transaction. *)
Definition store_insert_batch (t : Txn C) (events : list (Event * RelayObserved))
    : option (list InsertOutcome * Txn C) :=
  if decide (events = []) then Some ([], t) else governed_apply (λ t, insert_batch t events) t.

(** [event_ops::insert], [remove] and [expire_due]. *)
Definition store_insert (t : Txn C) (event : Event) (from : RelayObserved) : option (InsertOutcome * Txn C) :=
  governed_apply (λ t, insert_with_tables t event from) t.
Definition store_remove (t : Txn C) (id : EventId) : option (option StoredEvent * Txn C) :=
  governed_apply (λ t, remove t id) t.
Definition store_expire_due (t : Txn C) (now : N) : option (list StoredEvent * Txn C) :=
  governed_apply (λ t, expire_due t now) t.

(** [next_expiration]: the timestamp of the first expiration entry. *)
Definition next_expiration (t : Txn C) : option N := (λ p, p.1.1) <$> head (ordered_map (t_expiration t)).
End ingest.
