(* ===== verification/IngestSpec.v ===== *)
(** * What governed ingest promises

    An abstract store with no keys, no indexes and no journal: the rows held by
    event id and the two kinds of permanent tombstone.  [ingest_step] says what
    one delivered event may do to it; [IngestRefine] shows that
    [Ingest.insert_with_tables] does exactly that.  Here: the step relation, its
    invariant by rule induction, the permanence of deletions, and convergence:
    the rows held do not depend on the order of delivery. *)

From S2P Require Import Prelude Grammar Address Coverage Canonical Ingest.

#[global] Instance AddressKey_countable : Countable AddressKey.
Proof.
  refine (inj_countable'
    (λ k, match k with Replaceable p n => inl (p, n) | Addressable p n d => inr (p, n, d) end)
    (λ s, match s with inl (p, n) => Replaceable p n | inr (p, n, d) => Addressable p n d end) _).
  by intros [].
Defined.

(** Two events with the same signed content; the signature may differ. *)
Definition same_content (e e' : Event) : Prop :=
  e_id e = e_id e' ∧ e_pubkey e = e_pubkey e' ∧ e_created_at e = e_created_at e' ∧
  e_kind e = e_kind e' ∧ e_tags e = e_tags e' ∧ e_content e = e_content e'.

(** The events the verification gate lets through.  A NIP-01 id is a hash of
    the content, so two genuine events with one id have the same content. *)
Class Genuine := genuine : Event → Prop.
Class GenuineLaws `{Genuine} : Prop :=
  genuine_content e e' : genuine e → genuine e' → e_id e = e_id e' → same_content e e'.

Record Store := mkStore {
  st_rows : gmap EventId StoredEvent;
  st_ids : gset (EventId * PublicKey);
  st_ceilings : gmap AddressKey N
}.

Section spec.
Context `{TagReader, EventReader, Genuine}.

(** The addresses a deletion may claim: those of its own author. *)
Definition claimed_by (author : PublicKey) (coords : list Coordinate) : list AddressKey :=
  omap address_key_for_coordinate (filter (λ c, co_public_key c = author) coords).
Definition claimed (d : Event) : list AddressKey := claimed_by (e_pubkey d) (tags_coordinates (e_tags d)).

(** [d] deletes [e]: same author, and [e] is named by its id, or by its address
    and is no newer. *)
Definition deletes (d e : Event) : Prop :=
  e_pubkey e = e_pubkey d ∧
  (e_id e ∈ tags_event_ids (e_tags d) ∨
   address_key_for e ∈ (Some <$> claimed d) ∧ (e_created_at e ≤ e_created_at d)%N).

#[global] Instance deletes_dec d e : Decision (deletes d e).
Proof. unfold deletes. apply _. Defined.

Definition is_deletion (e : Event) : Prop := e_kind e = kind_event_deletion.

Definition survivors (d : Event) (rows : gmap EventId StoredEvent) : gmap EventId StoredEvent :=
  filter (λ p, ¬ deletes d (se_event p.2)) rows.
Definition victims (d : Event) (rows : gmap EventId StoredEvent) : gmap EventId StoredEvent :=
  filter (λ p, deletes d (se_event p.2)) rows.

(** Every author's claim on an id is kept apart. *)
Definition claim_ids (d : Event) (ids : gset (EventId * PublicKey)) : gset (EventId * PublicKey) :=
  list_to_set ((λ id, (id, e_pubkey d)) <$> tags_event_ids (e_tags d)) ∪ ids.
(** Ceilings only rise. *)
Definition raise_to (ceiling : N) (keys : list AddressKey) (m : gmap AddressKey N) : gmap AddressKey N :=
  union_with (λ a b, Some (N.max a b)) m (gset_to_gmap ceiling (list_to_set keys)).
Definition raise_ceilings (d : Event) (m : gmap AddressKey N) : gmap AddressKey N :=
  raise_to (e_created_at d) (claimed d) m.

Definition apply_deletion (d : Event) (s : Store) : Store :=
  mkStore (survivors d (st_rows s)) (claim_ids d (st_ids s)) (raise_ceilings d (st_ceilings s)).
Definition after_signing (e : Event) (s : Store) : Store :=
  if decide (is_deletion e) then apply_deletion e s else s.

Definition with_rows (s : Store) (rows : gmap EventId StoredEvent) : Store :=
  mkStore rows (st_ids s) (st_ceilings s).

Definition tombstoned (s : Store) (e : Event) : Prop :=
  (e_id e, e_pubkey e) ∈ st_ids s ∨
  ∃ k c, address_key_for e = Some k ∧ st_ceilings s !! k = Some c ∧ (e_created_at e ≤ c)%N.

(** The held row an event competes with for its address. *)
Definition rival (s : Store) (e : Event) (se : StoredEvent) : Prop :=
  st_rows s !! e_id (se_event se) = Some se ∧
  is_Some (address_key_for e) ∧ address_key_for (se_event se) = address_key_for e.

Definition fresh_row (e : Event) (from : RelayObserved) : StoredEvent :=
  mkStored e (mkProv {[ ob_relay from := ob_at from ]} None).

(** One delivered event. *)
Inductive ingest_step (s : Store) (e : Event) (from : RelayObserved) : InsertOutcome → Store → Prop :=
  | step_expired :
      is_expired_at e (ob_at from) = true →
      ingest_step s e from (Refused AlreadyExpired) s
  | step_duplicate se grew p :
      is_expired_at e (ob_at from) = false →
      st_rows s !! e_id e = Some se →
      (∀ owners, pv_local (se_provenance se) ≠ Some (mkLocal owners Pending)) →
      provenance_merge (se_provenance se) (ob_relay from) (ob_at from) = (grew, p) →
      ingest_step s e from (Duplicate grew [] (bool_decide (is_Some (pv_local (se_provenance se)))))
        (with_rows s (<[e_id e := mkStored (se_event se) p]> (st_rows s)))
  | step_adopted se owners grew p satisfied :
      is_expired_at e (ob_at from) = false →
      st_rows s !! e_id e = Some se →
      pv_local (se_provenance se) = Some (mkLocal owners Pending) →
      provenance_merge (se_provenance se) (ob_relay from) (ob_at from) = (grew, p) →
      satisfied `sublist_of` ordered owners →
      ingest_step s e from (Duplicate grew satisfied true)
        (after_signing e (with_rows s
          (<[e_id e := mkStored e (mkProv (pv_seen p) (Some (mkLocal owners Signed)))]> (st_rows s))))
  | step_tombstoned :
      is_expired_at e (ob_at from) = false →
      st_rows s !! e_id e = None → tombstoned s e →
      ingest_step s e from (Refused Tombstoned) s
  | step_stale se :
      is_expired_at e (ob_at from) = false →
      st_rows s !! e_id e = None → ¬ tombstoned s e →
      rival s e se → candidate_wins e (se_event se) = false →
      ingest_step s e from Stale s
  | step_superseded se :
      is_expired_at e (ob_at from) = false →
      st_rows s !! e_id e = None → ¬ tombstoned s e →
      rival s e se → candidate_wins e (se_event se) = true →
      ingest_step s e from (Superseded se)
        (with_rows s (<[e_id e := fresh_row e from]> (delete (e_id (se_event se)) (st_rows s))))
  | step_inserted :
      is_expired_at e (ob_at from) = false →
      st_rows s !! e_id e = None → ¬ tombstoned s e → ¬ is_deletion e →
      (∀ se, ¬ rival s e se) →
      ingest_step s e from Inserted (with_rows s (<[e_id e := fresh_row e from]> (st_rows s)))
  | step_kind5 deleted :
      is_expired_at e (ob_at from) = false →
      st_rows s !! e_id e = None → ¬ tombstoned s e → is_deletion e →
      let stored := <[e_id e := fresh_row e from]> (st_rows s) in
      deleted ≡ₚ (map_to_list (victims e stored)).*2 →
      ingest_step s e from (Kind5Processed deleted) (apply_deletion e (with_rows s stored)).

(** A run of deliveries with its outcomes. *)
Inductive ingest_run (s : Store) : list (Event * RelayObserved) → list InsertOutcome → Store → Prop :=
  | run_nil : ingest_run s [] [] s
  | run_snoc evs e from outcomes o s' s'' :
      ingest_run s evs outcomes s' → ingest_step s' e from o s'' →
      ingest_run s (evs ++ [(e, from)]) (outcomes ++ [o]) s''.
End spec.

(** ** The invariant *)

Lemma same_content_address `{TagReader} e e' : same_content e e' → address_key_for e = address_key_for e'.
Proof. destruct e, e'. by intros (?&?&?&?&?&?); simplify_eq/=. Qed.

(** An address names its author. *)
Definition address_author (k : AddressKey) : PublicKey :=
  match k with Replaceable p _ => p | Addressable p _ _ => p end.

Lemma address_key_for_author `{TagReader} e k : address_key_for e = Some k → e_pubkey e = address_author k.
Proof. unfold address_key_for. intros. by case_tests. Qed.

Lemma address_key_for_coordinate_author c k :
  address_key_for_coordinate c = Some k → co_public_key c = address_author k.
Proof. unfold address_key_for_coordinate. intros. by case_tests. Qed.

Section invariant.
Context `{TagReader, EventReader, GenuineLaws}.

Lemma claimed_by_author author coords k : k ∈ claimed_by author coords → address_author k = author.
Proof.
  unfold claimed_by. intros (c & [Heq _]%list_elem_of_filter & Hk)%list_elem_of_omap.
  by rewrite <-Heq, (address_key_for_coordinate_author c k).
Qed.

Lemma lookup_raise_to ceiling keys m k :
  raise_to ceiling keys m !! k =
  if decide (k ∈ keys) then Some (default ceiling (N.max ceiling <$> m !! k)) else m !! k.
Proof.
  unfold raise_to. rewrite lookup_union_with.
  case_decide as Hk.
  - assert ((gset_to_gmap ceiling (list_to_set keys) : gmap AddressKey N) !! k = Some ceiling) as ->
      by (apply lookup_gset_to_gmap_Some; split; [by apply elem_of_list_to_set|done]).
    destruct (m !! k); simpl; [by rewrite N.max_comm|done].
  - assert ((gset_to_gmap ceiling (list_to_set keys) : gmap AddressKey N) !! k = None) as ->
      by (apply lookup_gset_to_gmap_None; by rewrite elem_of_list_to_set).
    by destruct (m !! k).
Qed.

(** Deleting [d] tombstones exactly what it deletes, on top of the rest. *)
Lemma tombstoned_apply_deletion d s e :
  tombstoned (apply_deletion d s) e ↔ deletes d e ∨ tombstoned s e.
Proof.
  unfold tombstoned, apply_deletion, claim_ids, deletes; simpl. unfold raise_ceilings. setoid_rewrite lookup_raise_to.
  rewrite elem_of_union, elem_of_list_to_set, list_elem_of_fmap. split.
  - intros [[(id & [= -> ->] & ?)|?]|(k & c & Hk & Hc & Hle)]; [naive_solver|naive_solver|].
    case_decide as Hin; [|naive_solver].
    destruct (decide (e_created_at e ≤ e_created_at d)%N) as [Hle'|Hgt].
    + left. split; [|right; split; [|done]].
      * by rewrite (address_key_for_author e k), (claimed_by_author _ _ k Hin).
      * rewrite Hk. by apply list_elem_of_fmap_2.
    + right. right. exists k. destruct (st_ceilings s !! k) as [c'|]; simplify_eq/=; [|lia].
      exists c'. split_and!; [done..|lia].
  - intros [[Heq [Hid|[(k & Hk & Hin)%list_elem_of_fmap Hle]]]|[?|(k & c & Hk & Hc & Hle)]].
    + left. left. rewrite Heq. eauto.
    + right. eexists k, _. rewrite decide_True by done. split; [done|]. split; [done|].
      destruct (st_ceilings s !! k); simpl; lia.
    + eauto.
    + right. exists k. rewrite Hc. case_decide; [|eauto]. eexists. split_and!; [done..|]. simpl. lia.
Qed.

Record store_ok (s : Store) : Prop := {
  so_ids : ∀ id se, st_rows s !! id = Some se → e_id (se_event se) = id;
  so_genuine : ∀ id se, st_rows s !! id = Some se → genuine (se_event se);
  so_address : ∀ i j a b, st_rows s !! i = Some a → st_rows s !! j = Some b →
    is_Some (address_key_for (se_event a)) →
    address_key_for (se_event a) = address_key_for (se_event b) → i = j;
  so_live : ∀ id se, st_rows s !! id = Some se → ¬ tombstoned s (se_event se)
}.

Lemma store_ok_shrink s rows : rows ⊆ st_rows s → store_ok s → store_ok (with_rows s rows).
Proof.
  intros Hsub [Hids Hgen Haddr Hlive]. split; simpl; intros.
  - eapply Hids, lookup_weaken; eauto.
  - eapply Hgen, lookup_weaken; eauto.
  - eapply Haddr; eauto using lookup_weaken.
  - eapply Hlive, lookup_weaken; eauto.
Qed.

Lemma store_ok_deletion d s : store_ok s → store_ok (apply_deletion d s).
Proof.
  intros Hok. destruct (store_ok_shrink s (survivors d (st_rows s))) as [Hids Hgen Haddr Hlive].
  { apply map_filter_subseteq. } { done. }
  split; [done..|]. intros id se Hse Ht%tombstoned_apply_deletion.
  destruct Ht as [Hd|Ht]; [|by eapply Hlive].
  by apply map_lookup_filter_Some in Hse as [_ Hnd].
Qed.

(** Putting a live, genuine event at its id, when no other row has its address. *)
Lemma store_ok_put s e p :
  store_ok s → genuine e → ¬ tombstoned s e →
  (∀ id se, st_rows s !! id = Some se → is_Some (address_key_for e) →
     address_key_for (se_event se) = address_key_for e → id = e_id e) →
  store_ok (with_rows s (<[e_id e := mkStored e p]> (st_rows s))).
Proof.
  intros Hok Hg Ht Ha. split; simpl.
  - intros id se [[<- <-]|[_ ?]]%lookup_insert_Some; [done|by apply Hok].
  - intros id se [[<- <-]|[_ ?]]%lookup_insert_Some; [done|by eapply so_genuine].
  - intros i j a b [[<- <-]|[_ Hi]]%lookup_insert_Some [[<- <-]|[_ Hj]]%lookup_insert_Some; simpl; [done|..].
    + intros Hs Heq. symmetry. eauto.
    + intros Hs Heq. rewrite Heq in Hs. eauto.
    + by eapply so_address.
  - intros id se [[<- <-]|[_ Hse]]%lookup_insert_Some; [done|]. by eapply so_live in Hse.
Qed.

Lemma store_ok_step s e from o s' :
  store_ok s → genuine e → ingest_step s e from o s' → store_ok s'.
Proof.
  intros Hok Hg Hstep.
  assert (∀ e' p se, st_rows s !! e_id e' = Some se → genuine e' →
    store_ok (with_rows s (<[e_id e' := mkStored e' p]> (st_rows s)))) as Hput.
  { intros e' p se Hse Hge. pose proof (so_ids _ Hok _ _ Hse) as Hid.
    pose proof (genuine_content _ _ (so_genuine _ Hok _ _ Hse) Hge Hid) as Hsame.
    apply store_ok_put; [done..| |].
    - pose proof (so_live _ Hok _ _ Hse) as Hlive. unfold tombstoned in *.
      rewrite (same_content_address _ _ Hsame) in Hlive. destruct Hsame as (<- & <- & <- & _). done.
    - intros id se' Hse' Hs Heq. rewrite <-(same_content_address _ _ Hsame) in Hs, Heq.
      eapply (so_address _ Hok); [done|done| |done]. by rewrite Heq. }
  destruct Hstep as [ |se grew p _ Hse _ Hm|se owners grew p sat _ Hse Hl Hm| | |se _ Hid Ht Hr _|
    _ Hid Ht _ Hr|deleted _ Hid Ht Hk stored _]; try done.
  - pose proof (so_ids _ Hok _ _ Hse) as Hid. rewrite <-Hid in Hse |- *.
    by eapply Hput; [|eapply (so_genuine _ Hok)].
  - unfold after_signing. case_decide; [apply store_ok_deletion|]; by eapply Hput.
  - assert (store_ok (with_rows s (delete (e_id (se_event se)) (st_rows s)))) as Hsh
      by (apply store_ok_shrink; [apply delete_subseteq|done]).
    apply (store_ok_put _ e (mkProv {[ ob_relay from := ob_at from ]} None) Hsh Hg Ht).
    simpl. intros id se' [Hne Hse']%lookup_delete_Some Hs Heq. destruct Hr as (Hr1 & _ & Hr2).
    destruct Hne. eapply (so_address _ Hok); [done..| |]; by rewrite Hr2.
  - apply store_ok_put; [done..|]. intros id se Hse Hs Heq. destruct (Hr se). split_and!; [|done..].
    by rewrite (so_ids _ Hok _ _ Hse).
  - apply store_ok_deletion. apply store_ok_put; [done..|]. intros id se _ [k Hs].
    unfold address_key_for in Hs. unfold is_deletion in Hk. by rewrite Hk in Hs.
Qed.
End invariant.

(** ** Runs *)

Section runs.
Context `{TagReader, EventReader, GenuineLaws}.

Lemma store_ok_run s evs os s' :
  store_ok s → Forall genuine evs.*1 → ingest_run s evs os s' → store_ok s'.
Proof.
  intros Hok Hg Hrun. induction Hrun as [|evs e from os o s' s'' _ IH Hstep]; [done|].
  rewrite fmap_app, Forall_app in Hg. destruct Hg as [Hg [He _]%Forall_cons].
  eapply store_ok_step; [by apply IH|done..].
Qed.

(** Tombstones are permanent. *)
Lemma tombstoned_step s e from o s' x : ingest_step s e from o s' → tombstoned s x → tombstoned s' x.
Proof.
  destruct 1; try done; intros.
  - unfold after_signing. case_decide; [|done]. apply tombstoned_apply_deletion. by right.
  - apply tombstoned_apply_deletion. by right.
Qed.

Lemma tombstoned_run s evs os s' x : ingest_run s evs os s' → tombstoned s x → tombstoned s' x.
Proof. induction 1; [done|]. intros. eapply tombstoned_step; [done|]. auto. Qed.

Lemma tombstoned_same_content s e e' : same_content e e' → tombstoned s e → tombstoned s e'.
Proof.
  intros Hs. unfold tombstoned. rewrite (same_content_address _ _ Hs).
  destruct Hs as (-> & -> & -> & _). done.
Qed.

Lemma deletes_same_content d d' e e' : same_content d d' → same_content e e' → deletes d e → deletes d' e'.
Proof.
  intros Hd He. unfold deletes, claimed, claimed_by. rewrite (same_content_address _ _ He).
  destruct Hd as (_ & -> & -> & _ & -> & _), He as (-> & -> & -> & _). done.
Qed.

(** A tombstoned event is not held and is refused. *)
Lemma tombstoned_refused s e :
  store_ok s → genuine e → tombstoned s e →
  st_rows s !! e_id e = None ∧ ∀ from o s', ingest_step s e from o s' → s' = s ∧ ∃ r, o = Refused r.
Proof.
  intros Hok Hg Ht.
  assert (st_rows s !! e_id e = None) as Hnone.
  { apply eq_None_not_Some. intros [se Hse]. apply (so_live _ Hok _ _ Hse).
    eapply tombstoned_same_content; [|done]. apply genuine_content; [done|by eapply so_genuine|].
    by rewrite (so_ids _ Hok _ _ Hse). }
  split; [done|]. intros from o s' Hstep. destruct Hstep; by eauto || congruence.
Qed.

(** An accepted deletion tombstones what it deletes. *)
Lemma kind5_tombstones s d from deleted s' x :
  ingest_step s d from (Kind5Processed deleted) s' → deletes d x → tombstoned s' x.
Proof.
  intros Hstep Hd. remember (Kind5Processed deleted) as o. destruct Hstep; try done.
  apply tombstoned_apply_deletion. by left.
Qed.
End runs.

(** ** Convergence *)

Section convergence.
Context `{TagReader, EventReader, GenuineLaws}.

Definition empty_store : Store := mkStore ∅ ∅ ∅.

(** The deletions of [l] leave [e] alone. *)
Definition undeleted (l : list Event) (e : Event) : Prop := ∀ d, d ∈ l → is_deletion d → ¬ deletes d e.

(** The rows a delivered set settles on: undeleted, and the winner of their
    address among the undeleted. *)
Definition settles_on (l : list Event) (e : Event) : Prop :=
  e ∈ l ∧ undeleted l e ∧
  ∀ e', e' ∈ l → undeleted l e' → is_Some (address_key_for e) → address_key_for e' = address_key_for e →
    e_id e' = e_id e ∨ candidate_wins e e' = true.

(** No deletion names a replaceable event or another deletion by id. *)
Definition plain_deletions (l : list Event) : Prop :=
  ∀ d e, d ∈ l → e ∈ l → is_deletion d → e_pubkey e = e_pubkey d →
    e_id e ∈ tags_event_ids (e_tags d) → address_key_for e = None ∧ ¬ is_deletion e.

Record converging (l : list Event) (s : Store) : Prop := {
  cv_rows : ∀ id se, st_rows s !! id = Some se → se_event se ∈ l ∧ pv_local (se_provenance se) = None;
  cv_tombs : ∀ x, tombstoned s x ↔ ∃ d, d ∈ l ∧ is_deletion d ∧ deletes d x;
  cv_held : ∀ e, e ∈ l → undeleted l e → ∃ id se, st_rows s !! id = Some se ∧
    (id = e_id e ∨ is_Some (address_key_for e) ∧ address_key_for (se_event se) = address_key_for e ∧
                   candidate_wins (se_event se) e = true)
}.

Lemma deletion_no_address e : is_deletion e → address_key_for e = None.
Proof. unfold is_deletion, address_key_for. by intros ->. Qed.

Lemma tombs_undeleted l s e : converging l s → ¬ tombstoned s e ↔ undeleted l e.
Proof. intros Hc. rewrite (cv_tombs _ _ Hc). unfold undeleted. naive_solver. Qed.

Lemma undeleted_app l l' e : undeleted (l ++ l') e ↔ undeleted l e ∧ undeleted l' e.
Proof. unfold undeleted. set_solver. Qed.

Lemma undeleted_other l e x : ¬ is_deletion e → undeleted (l ++ [e]) x ↔ undeleted l x.
Proof. intros He. rewrite undeleted_app. unfold undeleted at 2. set_solver. Qed.

Lemma tombs_other l s e x :
  converging l s → ¬ is_deletion e →
  tombstoned s x ↔ ∃ d, d ∈ l ++ [e] ∧ is_deletion d ∧ deletes d x.
Proof.
  intros Hc He. rewrite (cv_tombs _ _ Hc). setoid_rewrite elem_of_app. setoid_rewrite list_elem_of_singleton.
  naive_solver.
Qed.

(** What a converging store holds is what its deliveries settle on. *)
Lemma converging_holds l s id :
  Forall genuine l → store_ok s → converging l s →
  is_Some (st_rows s !! id) ↔ ∃ e, settles_on l e ∧ e_id e = id.
Proof.
  intros Hg Hok Hc. rewrite Forall_forall in Hg. split.
  - intros [se Hse]. exists (se_event se). split; [|by eapply so_ids].
    destruct (cv_rows _ _ Hc _ _ Hse) as [Hin _]. split; [done|].
    split; [by eapply tombs_undeleted, so_live|]. intros e' He' Hu' Hs Haddr.
    destruct (cv_held _ _ Hc e' He' Hu') as (id' & r & Hr & Hcase).
    assert (address_key_for (se_event r) = address_key_for e') as Har.
    { destruct Hcase as [-> |(_ & ? & _)]; [|done]. apply same_content_address, genuine_content; auto.
      - by eapply so_genuine.
      - by eapply so_ids. }
    assert (id' = id) as ->.
    { eapply so_address; [done|exact Hr|exact Hse|..]; rewrite Har, Haddr; done. }
    rewrite Hse in Hr. injection Hr as <-. rewrite (so_ids _ Hok _ _ Hse). naive_solver.
  - intros (e & (Hin & Hu & Hwin) & <-).
    destruct (cv_held _ _ Hc e Hin Hu) as (id' & r & Hr & [-> |(Hs & Haddr & Hw)]); [done|].
    destruct (Hwin (se_event r)) as [Hid|Hw']; try done.
    + by eapply cv_rows.
    + by eapply tombs_undeleted, so_live.
    + by rewrite <-Hid, (so_ids _ Hok _ _ Hr), Hr.
    + pose proof (candidate_wins_trans _ _ _ Hw Hw') as Hirr. by rewrite candidate_wins_irrefl in Hirr.
Qed.

Lemma converging_empty : converging [] empty_store.
Proof.
  split; simpl.
  - by intros ??; rewrite lookup_empty.
  - intros x. unfold tombstoned; simpl. setoid_rewrite lookup_empty. set_solver.
  - set_solver.
Qed.

Lemma store_ok_empty : store_ok empty_store.
Proof. split; simpl; intros *; by rewrite lookup_empty. Qed.

(** An event already delivered settles nothing new. *)
Lemma converging_again l s e p se :
  store_ok s → converging l s → Forall genuine l → genuine e →
  st_rows s !! e_id e = Some se → pv_local p = None →
  converging (l ++ [e]) (with_rows s (<[e_id e := mkStored (se_event se) p]> (st_rows s))).
Proof.
  intros Hok Hc Hg Hge Hse Hp. destruct (cv_rows _ _ Hc _ _ Hse) as [Hin _].
  assert (same_content e (se_event se)) as Hsame.
  { apply genuine_content; [done|by eapply so_genuine|]. by rewrite (so_ids _ Hok _ _ Hse). }
  split; simpl.
  - intros id r [[<- <-]|[_ Hr]]%lookup_insert_Some; simpl; [set_solver|].
    destruct (cv_rows _ _ Hc _ _ Hr). set_solver.
  - intros x. change (tombstoned s x ↔ ∃ d, d ∈ l ++ [e] ∧ is_deletion d ∧ deletes d x).
    rewrite (cv_tombs _ _ Hc). setoid_rewrite elem_of_app. setoid_rewrite list_elem_of_singleton. split; [naive_solver|].
    intros (d & [Hd| ->] & Hdel & Hx); [eauto|]. exists (se_event se). split; [done|]. split.
    + unfold is_deletion in *. by destruct Hsame as (_ & _ & _ & <- & _).
    + by eapply deletes_same_content.
  - intros x Hx [Hu _]%undeleted_app.
    assert (∃ id r, st_rows s !! id = Some r ∧ (id = e_id x ∨ is_Some (address_key_for x) ∧
      address_key_for (se_event r) = address_key_for x ∧ candidate_wins (se_event r) x = true))
      as (id & r & Hr & Hcase).
    { apply elem_of_app in Hx as [Hx| ->%list_elem_of_singleton]; [by apply (cv_held _ _ Hc)|eauto]. }
    destruct (decide (id = e_id e)) as [-> |].
    + rewrite Hse in Hr. injection Hr as <-. eexists _, _. split; [apply lookup_insert_eq|done].
    + eexists id, r. by rewrite lookup_insert_ne.
Qed.

(** A new event that is not a deletion, put in place of the rows [gone]. *)
Lemma converging_put l s e from rows :
  converging l s → ¬ is_deletion e → rows ⊆ st_rows s → rows !! e_id e = None →
  (∀ id r, st_rows s !! id = Some r → rows !! id = None →
     is_Some (address_key_for e) ∧ address_key_for (se_event r) = address_key_for e ∧
     candidate_wins e (se_event r) = true) →
  (∀ id r, st_rows s !! id = Some r → e_id (se_event r) = id) → Forall genuine l →
  (∀ id r, st_rows s !! id = Some r → genuine (se_event r)) →
  converging (l ++ [e]) (with_rows s (<[e_id e := fresh_row e from]> rows)).
Proof.
  intros Hc He Hsub Hnone Hgone Hids Hg Hgr. split; simpl.
  - intros id r [[<- <-]|[_ Hr]]%lookup_insert_Some; simpl; [set_solver|].
    eapply lookup_weaken in Hr; [|done]. destruct (cv_rows _ _ Hc _ _ Hr). set_solver.
  - intros x. by apply (tombs_other l s).
  - intros x Hx Hu%undeleted_other; [|done].
    apply elem_of_app in Hx as [Hx| ->%list_elem_of_singleton];
      [|eexists _, _; split; [apply lookup_insert_eq|by left]].
    destruct (cv_held _ _ Hc x Hx Hu) as (id & r & Hr & Hcase).
    destruct (rows !! id) as [r'|] eqn:Hrow.
    + assert (r' = r) as -> by (eapply lookup_weaken in Hrow; [|done]; congruence).
      exists id, r. split; [|done]. rewrite lookup_insert_ne; congruence.
    + destruct (Hgone id r Hr Hrow) as (Hs & Haddr & Hw).
      eexists _, _. split; [apply lookup_insert_eq|]. right. simpl.
      assert (address_key_for (se_event r) = address_key_for x ∧ candidate_wins e x = true) as [Hax Hwx].
      { destruct Hcase as [-> |(_ & ? & Hw')]; [|split; [done|by eapply candidate_wins_trans]].
        assert (same_content (se_event r) x) as Hsame.
        { apply genuine_content; [by eapply Hgr|by eapply Forall_forall|by eapply Hids]. }
        split; [by apply same_content_address|]. revert Hw. rewrite !candidate_wins_spec.
        by destruct Hsame as (-> & _ & -> & _). }
      split_and!; [by rewrite <-Hax, Haddr|congruence|done].
Qed.

(** A new event that changes nothing. *)
Lemma converging_refused l s e :
  converging l s → ¬ is_deletion e →
  (undeleted l e → ∃ id se, st_rows s !! id = Some se ∧ is_Some (address_key_for e) ∧
     address_key_for (se_event se) = address_key_for e ∧ candidate_wins (se_event se) e = true) →
  converging (l ++ [e]) s.
Proof.
  intros Hc He Hlose. split.
  - intros id r Hr. destruct (cv_rows _ _ Hc _ _ Hr). set_solver.
  - intros x. by apply tombs_other.
  - intros x Hx Hu. rewrite (undeleted_other l e x He) in Hu.
    apply elem_of_app in Hx as [Hx| ->%list_elem_of_singleton]; [by apply (cv_held _ _ Hc)|].
    destruct (Hlose Hu) as (id & se & ? & ? & ? & ?). exists id, se. eauto.
Qed.

(** A new deletion. *)
Lemma converging_deletion l s e from :
  store_ok s → converging l s → Forall genuine l → plain_deletions (l ++ [e]) → is_deletion e →
  st_rows s !! e_id e = None →
  converging (l ++ [e]) (apply_deletion e (with_rows s (<[e_id e := fresh_row e from]> (st_rows s)))).
Proof.
  intros Hok Hc Hg Hplain He Hnone. rewrite Forall_forall in Hg. split; simpl.
  - intros id r [[[<- <-]|[_ Hr]]%lookup_insert_Some _]%map_lookup_filter_Some; simpl; [set_solver|].
    destruct (cv_rows _ _ Hc _ _ Hr). set_solver.
  - intros x. rewrite tombstoned_apply_deletion.
    change (deletes e x ∨ tombstoned s x ↔ ∃ d, d ∈ l ++ [e] ∧ is_deletion d ∧ deletes d x).
    rewrite (cv_tombs _ _ Hc). setoid_rewrite elem_of_app. setoid_rewrite list_elem_of_singleton. naive_solver.
  - intros x Hx Hu'. pose proof Hu' as [Hu Hue]%undeleted_app.
    assert (¬ deletes e x) as Hnd by (apply Hue; set_solver).
    apply elem_of_app in Hx as [Hx| ->%list_elem_of_singleton]; cycle 1.
    { exists (e_id e), (fresh_row e from). split; [|by left].
      apply map_lookup_filter_Some. split; [apply lookup_insert_eq|done]. }
    destruct (cv_held _ _ Hc x Hx Hu) as (id & r & Hr & Hcase). exists id, r. split; [|done].
    apply map_lookup_filter_Some. split; [rewrite lookup_insert_ne; [done|congruence]|]. simpl.
    intros Hdr. apply Hnd. destruct Hcase as [-> |(Hs & Haddr & Hw)].
    { eapply deletes_same_content; [done| |done].
      apply genuine_content; [by eapply so_genuine|auto|by eapply so_ids]. }
    destruct (cv_rows _ _ Hc _ _ Hr) as [Hrl _]. destruct Hdr as [Hpk [Hid|[Hcl Hle]]].
    { destruct (Hplain e (se_event r)) as [Hna _]; [set_solver..|]. rewrite <-Haddr, Hna in Hs. by destruct Hs. }
    destruct Hs as [k Hk]. split.
    { rewrite (address_key_for_author x k Hk), <-Hpk. symmetry. apply address_key_for_author. by rewrite Haddr. }
    right. rewrite <-Haddr. split; [done|]. apply candidate_wins_spec in Hw. lia.
Qed.

Lemma converging_step l s e from o s' :
  store_ok s → converging l s → Forall genuine l → genuine e → plain_deletions (l ++ [e]) →
  is_expired_at e (ob_at from) = false → ingest_step s e from o s' → converging (l ++ [e]) s'.
Proof.
  intros Hok Hc Hg Hge Hplain Hexp Hstep.
  pose proof (so_ids _ Hok) as Hids. pose proof (so_genuine _ Hok) as Hgr.
  destruct Hstep as [ |se grew p _ Hse _ Hm|se owners grew p sat _ Hse Hl Hm|_ Hid Ht|se _ Hid Ht Hr Hw|
    se _ Hid Ht Hr Hw|_ Hid Ht Hd Hr|deleted _ Hid Ht Hk stored _]; [congruence|..].
  - apply converging_again; try done. destruct (cv_rows _ _ Hc _ _ Hse) as [_ Hl]. revert Hm.
    unfold provenance_merge. intros. by case_tests.
  - destruct (cv_rows _ _ Hc _ _ Hse) as [_ Hl']. congruence.
  - apply (cv_tombs _ _ Hc) in Ht as (d & Hd & Hdd & Hdel). apply converging_refused; [done| |].
    + intros He. destruct Hdel as [Hpk [Hin|[(k & Hk & _)%list_elem_of_fmap _]]].
      * destruct (Hplain d e) as [_ Hne]; try done; set_solver.
      * by rewrite (deletion_no_address e He) in Hk.
    + intros Hu. by destruct (Hu d Hd Hdd).
  - destruct Hr as (Hr & Hs & Haddr). apply converging_refused; [done| |].
    + intros He. rewrite (deletion_no_address e He) in Hs. by destruct Hs.
    + intros _. eexists _, _. split_and!; [exact Hr|done..|].
      rewrite candidate_wins_total, Hw; [done|]. intros Heq. congruence.
  - destruct Hr as (Hr & Hs & Haddr). apply (converging_put l s e from); try done.
    + intros He. rewrite (deletion_no_address e He) in Hs. by destruct Hs.
    + apply delete_subseteq.
    + apply lookup_delete_None. by right.
    + intros id r Hrow Hdel. apply lookup_delete_None in Hdel as [<- |?]; [|congruence].
      rewrite Hr in Hrow. by injection Hrow as <-.
  - apply (converging_put l s e from); try done. intros id r Hrow Hnone. congruence.
  - by apply converging_deletion.
Qed.

Lemma converging_run evs os s :
  Forall genuine evs.*1 → Forall (λ ev, is_expired_at ev.1 (ob_at ev.2) = false) evs →
  plain_deletions evs.*1 → ingest_run empty_store evs os s → converging evs.*1 s ∧ store_ok s.
Proof.
  intros Hg Hexp Hplain Hrun. induction Hrun as [|evs e from os o s' s'' Hrun IH Hstep].
  { split; [apply converging_empty|apply store_ok_empty]. }
  rewrite fmap_app, Forall_app in Hg. destruct Hg as [Hg [Hge _]%Forall_cons].
  rewrite Forall_app in Hexp. destruct Hexp as [Hexp [He _]%Forall_cons].
  rewrite fmap_app in Hplain |- *.
  destruct IH as [Hc Hok]; [done..| |].
  { intros d x Hd Hx. apply Hplain; set_solver. }
  split; [by eapply converging_step|by eapply store_ok_step].
Qed.

(** Two deliveries of the same events settle on the same rows. *)
Lemma settles_on_set l l' e : (∀ x, x ∈ l ↔ x ∈ l') → settles_on l e → settles_on l' e.
Proof. unfold settles_on, undeleted. intros Hl. setoid_rewrite Hl. done. Qed.
End convergence.
