(* ===== verification/IngestRefine.v ===== *)
(** * Governed ingest refines its specification

    [represents] relates the tables of a transaction to an [IngestSpec.Store]:
    the canonical rows, the exact contents of the address index, the expiration
    index and the postings, and the two tombstone tables.  Every operation of
    [Ingest] is total on represented states and moves them as the specification
    says. *)

From S2P Require Import Prelude Grammar Address Coverage Schema Canonical Ingest IngestSpec.

(** ** Sweeps over a map *)

(** One more key leaves the filtered map. *)
Lemma filter_sweep {K A} `{Countable K} (m : gmap K A) (P P' : K * A → Prop) (q : A → bool) (i : K)
    `{!∀ p, Decision (P p), !∀ p, Decision (P' p)} :
  (∀ k x, m !! k = Some x → P' (k, x) ↔ P (k, x) ∨ k = i ∧ q x = true) →
  let o := filter (λ p, ¬ P p) m !! i ≫= λ x, if q x then Some x else None in
  filter (λ p, ¬ P' p) m = match o with Some _ => delete i (filter (λ p, ¬ P p) m) | None => filter (λ p, ¬ P p) m end ∧
  (map_to_list (filter P' m)).*2 ≡ₚ (map_to_list (filter P m)).*2 ++ option_list o.
Proof.
  intros HP o.
  assert ((∀ k y, m !! k = Some y → P' (k, y) ↔ P (k, y)) → o = None →
    filter (λ p, ¬ P' p) m = match o with Some _ => delete i (filter (λ p, ¬ P p) m) | None => filter (λ p, ¬ P p) m end ∧
    (map_to_list (filter P' m)).*2 ≡ₚ (map_to_list (filter P m)).*2 ++ option_list o) as Hsame.
  { intros Heq ->. rewrite app_nil_r. split.
    - apply map_filter_ext. intros k y Hk. by rewrite Heq.
    - assert (filter P' m = filter P m) as -> by (apply map_filter_ext; auto). done. }
  subst o. destruct (filter (λ p, ¬ P p) m !! i) as [x|] eqn:Hi; simpl in *; [destruct (q x) eqn:Hq|].
  - apply map_lookup_filter_Some in Hi as [Hi Hn]. split.
    + apply map_eq. intros k. apply option_eq. intros y.
      rewrite map_lookup_filter_Some, lookup_delete_Some, map_lookup_filter_Some. split.
      * intros [Hk Hny]. rewrite HP in Hny by done. split; [|naive_solver]. intros <-. naive_solver.
      * intros (Hne & Hk & Hny). split; [done|]. rewrite HP by done. naive_solver.
    + assert (filter P' m = <[i := x]> (filter P m)) as ->.
      { apply map_eq. intros k. apply option_eq. intros y.
        rewrite map_lookup_filter_Some, lookup_insert_Some, map_lookup_filter_Some. split.
        - intros [Hk Hy]. rewrite HP in Hy by done. destruct (decide (i = k)) as [<-|]; naive_solver.
        - intros [[<- <-]|(Hne & Hk & Hy)]; (split; [done|]); rewrite HP by done; naive_solver. }
      rewrite map_to_list_insert; [|by apply map_lookup_filter_None; right; naive_solver].
      rewrite Permutation_app_comm. done.
  - apply map_lookup_filter_Some in Hi as [Hi Hn]. apply Hsame; [|done].
    intros k y Hk. rewrite HP by done. split; [|naive_solver]. intros [?|[-> Hqy]]; [done|congruence].
  - apply Hsame; [|done]. intros k y Hk. rewrite HP by done. split; [|naive_solver].
    intros [?|[-> Hqy]]; [done|]. apply map_lookup_filter_None in Hi as [Hi|Hi]; [congruence|].
    apply dec_stable. by apply Hi.
Qed.

(** ** The relation *)

(** The postings durable when the transaction opened, and the event key it
    opened at: every key the index has used is below. *)
Record Durable := mkDurable { du_live : gmap EventKey PendingEvent; du_next : EventKey }.

Section represents.
Context `{HexCodec, TagReader, EventReader, CanonicalLaws C}.
Context (durable : Durable).

(** The postings of a key once the batch is flushed. *)
Definition posted (b : PostingsBatch) (key : EventKey) : option PendingEvent :=
  match pb_additions b !! key with
  | Some p => Some p
  | None => if decide (key ∈ pb_deaths b) then None else du_live durable !! key
  end.

Definition indexable (e : Event) : Prop := ∀ key, is_Some (prepare e key).

(** Every unsigned event intent has an open receipt. *)
Definition queue_ok (q : Queue) : Prop :=
  ∀ id r frozen routing st, q_intents q !! id = Some r → in_work r = WorkEvent frozen routing st →
    st ≠ IntentSigned → ∃ rc eid state, q_receipts q !! in_receipt_id r = Some rc ∧
      rc_payload rc = PayloadEvent eid state ∧ state ≠ ReceiptSuperseded.

(** The indexes hold exactly the canonical rows. *)
Record indexed (t : Txn C) : Prop := {
  ix_wf : cs_wf (t_canonical t);
  ix_addr : ∀ a key, t_addr_index t !! a = Some key ↔
    ∃ se, cs_rows (t_canonical t) !! key = Some se ∧ addr_of (se_event se) = Some a;
  ix_exp : ∀ ts id key, t_expiration t !! (ts, id) = Some key ↔
    ∃ se, cs_rows (t_canonical t) !! key = Some se ∧ e_id (se_event se) = id ∧
      tags_expiration (e_tags (se_event se)) = Some ts;
  ix_posted : ∀ key, posted (t_postings t) key =
    cs_rows (t_canonical t) !! key ≫= λ se, prepare (se_event se) key;
  ix_indexable : ∀ key se, cs_rows (t_canonical t) !! key = Some se → indexable (se_event se);
  ix_durable : ∀ key, is_Some (du_live durable !! key) → (key < du_next durable)%N;
  ix_next : (du_next durable ≤ cs_next (t_canonical t))%N;
  ix_additions : ∀ key, is_Some (pb_additions (t_postings t) !! key) →
    (du_next durable ≤ key < cs_next (t_canonical t))%N;
  ix_deaths : ∀ key, key ∈ pb_deaths (t_postings t) → is_Some (du_live durable !! key)
}.

Lemma ix_not_added t key :
  indexed t → is_Some (du_live durable !! key) → pb_additions (t_postings t) !! key = None.
Proof.
  intros Hix Hk%(ix_durable t Hix). apply eq_None_not_Some. intros Hs%(ix_additions t Hix). lia.
Qed.

Record represents (t : Txn C) (s : Store) : Prop := {
  rp_indexed : indexed t;
  rp_rows : ∀ id se, st_rows s !! id = Some se ↔
    ∃ key, cs_rows (t_canonical t) !! key = Some se ∧ e_id (se_event se) = id;
  rp_ids : ∀ p, is_Some (t_id_tombstones t !! p) ↔ p ∈ st_ids s;
  rp_ceilings : ∀ k, at_ceiling <$> t_addr_tombstones t !! to_redb_key k = st_ceilings s !! k;
  rp_queue : queue_ok (t_queue t)
}.

(** What an operation leaves alone. *)
Definition frame (t t' : Txn C) : Prop :=
  t_queue t' = t_queue t ∧ (∀ n, cs_room (t_canonical t) n → cs_room (t_canonical t') n) ∧
  cs_rows (t_canonical t') ⊆ cs_rows (t_canonical t).

#[global] Instance frame_preorder : PreOrder frame.
Proof.
  split; [by split|]. intros t1 t2 t3 (Hq & Hn & Hr) (Hq' & Hn' & Hr').
  split_and!; [congruence|by eauto|by etrans].
Qed.
End represents.

Lemma with_rows_id s : with_rows s (st_rows s) = s.
Proof. by destruct s. Qed.

Section rows.
Context `{HexCodec, TagReader, EventReader, CanonicalLaws C}.
Context (durable : Durable).
Implicit Types (t : Txn C) (s : Store).
Local Abbreviation indexed := (indexed durable).
Local Abbreviation represents := (represents durable).

Lemma key_unique c key key' (se se' : StoredEvent) :
  cs_wf c → cs_rows c !! key = Some se → cs_rows c !! key' = Some se' →
  e_id (se_event se) = e_id (se_event se') → key = key'.
Proof.
  intros Hwf Hk Hk' Heq.
  assert (cs_key_for_id c (e_id (se_event se)) = Some key) as Hf by (apply cs_key_for_id_spec; eauto).
  assert (cs_key_for_id c (e_id (se_event se)) = Some key') as Hf' by (apply cs_key_for_id_spec; eauto).
  congruence.
Qed.

Lemma key_for_id_represented t s id :
  represents t s →
  match cs_key_for_id (t_canonical t) id with
  | Some key => ∃ se, cs_rows (t_canonical t) !! key = Some se ∧ st_rows s !! id = Some se ∧ e_id (se_event se) = id
  | None => st_rows s !! id = None
  end.
Proof.
  intros Hr. pose proof (ix_wf _ _ (rp_indexed _ _ _ Hr)) as Hwf.
  destruct (cs_key_for_id (t_canonical t) id) as [key|] eqn:E.
  - apply cs_key_for_id_spec in E as (se & Hse & Hid); [|done]. exists se. split_and!; [done| |done].
    apply (rp_rows _ _ _ Hr). eauto.
  - apply eq_None_not_Some. intros [se (key & Hk & Hid)%(rp_rows _ _ _ Hr)].
    assert (cs_key_for_id (t_canonical t) id = Some key) by (apply cs_key_for_id_spec; eauto). congruence.
Qed.

Lemma txn_load_by_id_spec t s id :
  represents t s →
  match st_rows s !! id with
  | Some se => ∃ key, txn_load_by_id t id = Some (Some (key, se)) ∧
      cs_rows (t_canonical t) !! key = Some se ∧ e_id (se_event se) = id
  | None => txn_load_by_id t id = Some None
  end.
Proof.
  intros Hr. pose proof (key_for_id_represented t s id Hr) as Hk. unfold txn_load_by_id.
  destruct (cs_key_for_id (t_canonical t) id) as [key|].
  - destruct Hk as (se & Hse & -> & Hid). exists key.
    rewrite cs_load_spec, Hse by apply Hr. done.
  - by rewrite Hk.
Qed.

Lemma posted_remove b key key' :
  (∀ k, is_Some (du_live durable !! k) → pb_additions b !! k = None) →
  posted durable (batch_remove b key) key' = if decide (key' = key) then None else posted durable b key'.
Proof.
  intros Hdur. unfold posted, batch_remove. destruct (pb_additions b !! key) as [p|] eqn:Hk; simpl.
  - destruct (decide (key' = key)) as [->|Hne]; [|by rewrite lookup_delete_ne].
    rewrite lookup_delete_eq. case_decide; [done|]. apply eq_None_not_Some. intros Hs%Hdur. congruence.
  - destruct (decide (key' = key)) as [->|Hne]; [rewrite Hk, decide_True by set_solver; done|].
    destruct (pb_additions b !! key'); [done|]. apply decide_ext. set_solver.
Qed.

(** Removing one canonical row together with its index entries. *)
Definition removed_indexes t (c : C) (key : EventKey) (se : StoredEvent) : Txn C :=
  mkTxn c
    (match addr_of (se_event se) with
     | None => t_addr_index t
     | Some a => if decide (t_addr_index t !! a = Some key) then delete a (t_addr_index t) else t_addr_index t
     end)
    (t_id_tombstones t) (t_addr_tombstones t)
    (match tags_expiration (e_tags (se_event se)) with
     | None => t_expiration t
     | Some ts => delete (ts, e_id (se_event se)) (t_expiration t)
     end)
    (t_queue t) (batch_remove (t_postings t) key).

Lemma indexed_remove t c key se :
  indexed t → cs_rows (t_canonical t) !! key = Some se → cs_wf c →
  cs_rows c = delete key (cs_rows (t_canonical t)) → cs_next c = cs_next (t_canonical t) →
  indexed (removed_indexes t c key se).
Proof.
  intros Hix Hse Hwf Hrows Hnext. split; simpl; rewrite ?Hrows.
  - done.
  - intros a key'. setoid_rewrite lookup_delete_Some.
    assert (∀ a', addr_of (se_event se) = Some a' → t_addr_index t !! a' = Some key) as Hkey
      by (intros; apply (ix_addr _ _ Hix); eauto).
    destruct (addr_of (se_event se)) as [a'|] eqn:Ha.
    + rewrite decide_True by auto. rewrite lookup_delete_Some, (ix_addr _ _ Hix). split.
      * intros [Hne (se' & Hse' & Ha')]. exists se'. split; [|done]. split; [|done]. intros <-. congruence.
      * intros (se' & [Hne Hse'] & Ha'). split; [|eauto]. intros <-.
        assert (t_addr_index t !! a' = Some key') by (apply (ix_addr _ _ Hix); eauto).
        specialize (Hkey _ eq_refl). congruence.
    + rewrite (ix_addr _ _ Hix). split; intros (se' & Hse' & Ha'); exists se'.
      * split; [|done]. split; [|done]. intros <-. congruence.
      * split; [apply Hse'|done].
  - intros ts id key'. setoid_rewrite lookup_delete_Some.
    transitivity (t_expiration t !! (ts, id) = Some key' ∧ key' ≠ key).
    + destruct (tags_expiration (e_tags (se_event se))) as [ts'|] eqn:Hts.
      * rewrite lookup_delete_Some. split; intros [Ha Hb].
        -- split; [done|]. intros ->. apply (ix_exp _ _ Hix) in Hb as (se' & Hse' & Hid & Hts'). congruence.
        -- split; [|done]. intros [= <- <-]. apply (ix_exp _ _ Hix) in Ha as (se' & Hse' & Hid & Hts').
           apply Hb. eapply key_unique; [apply Hix|exact Hse'|exact Hse|done].
      * split; [|naive_solver]. intros Ha. split; [done|]. intros ->.
        apply (ix_exp _ _ Hix) in Ha as (se' & Hse' & Hid & Hts'). congruence.
    + rewrite (ix_exp _ _ Hix). naive_solver.
  - intros key'. rewrite posted_remove by (intros; by apply (ix_not_added durable t)).
    case_decide as Heq; [subst; by rewrite lookup_delete_eq|].
    by rewrite lookup_delete_ne, (ix_posted _ _ Hix).
  - intros key' se' [_ ?]%lookup_delete_Some. by eapply (ix_indexable _ _ Hix).
  - apply Hix.
  - rewrite Hnext. apply Hix.
  - intros key' Hs. rewrite Hnext. apply (ix_additions _ _ Hix). revert Hs. unfold batch_remove.
    destruct (pb_additions (t_postings t) !! key); simpl; [|done]. intros [q [_ Hq]%lookup_delete_Some]. by eexists.
  - intros key'. unfold batch_remove. destruct (pb_additions (t_postings t) !! key) eqn:Hadd; simpl; [apply (ix_deaths _ _ Hix)|].
    intros [->%elem_of_singleton|Hd]%elem_of_union; [|by apply (ix_deaths _ _ Hix)].
    pose proof (ix_posted _ _ Hix key) as Hp. unfold posted in Hp. rewrite Hadd, Hse in Hp. simpl in Hp.
    destruct (ix_indexable _ _ Hix _ _ Hse key) as [pe Hpe]. rewrite Hpe in Hp. case_decide; [done|by eexists].
Qed.

Lemma remove_row_spec t s id q :
  represents t s →
  let o := st_rows s !! id ≫= λ se : StoredEvent, if (q se : bool) then Some se else None in
  ∃ t', remove_row t id q = Some (o, t') ∧
    represents t' (with_rows s (match o with Some _ => delete id (st_rows s) | None => st_rows s end)) ∧
    frame t t'.
Proof.
  intros Hr. pose proof (txn_load_by_id_spec t s id Hr) as Hload. unfold remove_row.
  destruct (st_rows s !! id) as [se|] eqn:Hid; simpl; cycle 1.
  { rewrite Hload. exists t. rewrite with_rows_id. by split_and!. }
  destruct Hload as (key & -> & Hse & <-). simpl. destruct (q se); simpl; cycle 1.
  { exists t. rewrite with_rows_id. by split_and!. }
  destruct (cs_remove_spec (t_canonical t) key se) as (c & -> & Hwf & Hrows & Hnext & Hroom); [apply Hr|done|].
  simpl. exists (removed_indexes t c key se). split_and!.
  - unfold removed_indexes, set_addr_index, set_expiration. simpl.
    destruct (addr_of (se_event se)); [case_decide|];
      by destruct (tags_expiration (e_tags (se_event se))).
  - split; simpl; try apply Hr; [eapply indexed_remove; by try apply Hr|].
    intros id' se'. rewrite lookup_delete_Some, (rp_rows _ _ _ Hr). setoid_rewrite Hrows.
    setoid_rewrite lookup_delete_Some. split.
    + intros [Hne (key' & Hk' & Hid')]. exists key'. split; [|done]. split; [|done]. intros <-. congruence.
    + intros (key' & [Hne Hk'] & Hid'). split; [|eauto]. intros Heq. apply Hne.
      eapply key_unique; [apply Hr|exact Hse|exact Hk'|congruence].
  - split_and!; simpl; [done..|]. rewrite Hrows. apply delete_subseteq.
Qed.

(** A new canonical row together with its index entries. *)
Definition stored_indexes t (c : C) (key : EventKey) (e : Event) (b : PostingsBatch) : Txn C :=
  mkTxn c
    (match addr_of e with None => t_addr_index t | Some a => <[a := key]> (t_addr_index t) end)
    (t_id_tombstones t) (t_addr_tombstones t)
    (match tags_expiration (e_tags e) with
     | None => t_expiration t
     | Some ts => <[(ts, e_id e) := key]> (t_expiration t)
     end)
    (t_queue t) b.

Lemma indexed_store t c e p b :
  indexed t → cs_key_for_id (t_canonical t) (e_id e) = None →
  (∀ a, addr_of e = Some a → t_addr_index t !! a = None) → indexable e → cs_wf c →
  cs_rows c = <[cs_next (t_canonical t) := mkStored e p]> (cs_rows (t_canonical t)) →
  cs_next c = (cs_next (t_canonical t) + 1)%N →
  batch_insert (t_postings t) e (cs_next (t_canonical t)) = Some b →
  indexed (stored_indexes t c (cs_next (t_canonical t)) e b).
Proof.
  intros Hix Hid Hfree Hind Hwf Hrows Hnext Hb. set (key := cs_next (t_canonical t)) in *.
  assert (∀ k se, cs_rows (t_canonical t) !! k = Some se → k ≠ key) as Hfresh.
  { intros k se Hk ->. apply (N.lt_irrefl key), (cs_keys (t_canonical t)); [apply Hix|by eexists]. }
  assert (∀ k se, cs_rows (t_canonical t) !! k = Some se → e_id (se_event se) ≠ e_id e) as Hne.
  { intros k se Hk Heq. enough (cs_key_for_id (t_canonical t) (e_id e) = Some k) by congruence.
    apply cs_key_for_id_spec; [apply Hix|eauto]. }
  unfold batch_insert in Hb. apply bind_Some in Hb as (pe & Hpe & [= <-]).
  split; simpl; rewrite ?Hrows.
  - done.
  - intros a key'. setoid_rewrite lookup_insert_Some.
    transitivity (key' = key ∧ addr_of e = Some a ∨ t_addr_index t !! a = Some key').
    + destruct (addr_of e) as [a'|] eqn:Ha; [|naive_solver].
      rewrite lookup_insert_Some. split; [naive_solver|].
      intros [[-> [= ->]]|Hk]; [by left|]. right. split; [|done]. intros ->. rewrite Hfree in Hk; done.
    + rewrite (ix_addr _ _ Hix). split.
      * intros [[-> ?]|(se & Hse & Ha)]; [eexists; split; [by left|done]|]. exists se.
        split; [|done]. right. split; [|done]. intros <-. by eapply Hfresh.
      * intros (se & [[-> <-]|[_ Hse]] & Ha); [by left|]. right. eauto.
  - intros ts id key'. setoid_rewrite lookup_insert_Some.
    transitivity (key' = key ∧ e_id e = id ∧ tags_expiration (e_tags e) = Some ts ∨ t_expiration t !! (ts, id) = Some key').
    + destruct (tags_expiration (e_tags e)) as [ts'|] eqn:Hts; [|naive_solver].
      rewrite lookup_insert_Some. split; [naive_solver|].
      intros [(-> & -> & [= ->])|Hk]; [by left|]. right. split; [|done].
      intros [= -> <-]. apply (ix_exp _ _ Hix) in Hk as (se & Hse & Heq & _). by eapply Hne.
    + rewrite (ix_exp _ _ Hix). split.
      * intros [(-> & ? & ?)|(se & Hse & Ha)]; [eexists; split; [by left|done]|]. exists se.
        split; [|done]. right. split; [|done]. intros <-. by eapply Hfresh.
      * intros (se & [[-> <-]|[_ Hse]] & Ha); [by left|]. right. eauto.
  - intros key'. unfold posted; simpl. destruct (decide (key' = key)) as [->|Hkey].
    + rewrite !lookup_insert_eq. simpl. by rewrite Hpe.
    + rewrite !lookup_insert_ne by done. rewrite <-(ix_posted _ _ Hix). unfold posted.
      destruct (pb_additions (t_postings t) !! key'); [done|]. apply decide_ext. set_solver.
  - intros k se [[<- <-]|[_ Hse]]%lookup_insert_Some; [done|]. by eapply (ix_indexable _ _ Hix).
  - apply Hix.
  - rewrite Hnext. pose proof (ix_next _ _ Hix) as Hn. fold key in Hn. lia.
  - rewrite Hnext. pose proof (ix_next _ _ Hix) as Hn. fold key in Hn.
    intros k [q [[<- _]|[_ Hq]]%lookup_insert_Some]; [lia|].
    pose proof (ix_additions _ _ Hix k (mk_is_Some _ _ Hq)) as Hk. fold key in Hk. lia.
  - intros k [Hk _]%elem_of_difference. by apply (ix_deaths _ _ Hix).
Qed.

Lemma store_row_spec t s e p n :
  represents t s → st_rows s !! e_id e = None →
  (∀ a, addr_of e = Some a → t_addr_index t !! a = None) → indexable e →
  cs_room (t_canonical t) (n + S (size (pv_seen p))) →
  ∃ t', store_row t e p = Some t' ∧ t_queue t' = t_queue t ∧ cs_room (t_canonical t') n ∧
    represents t' (with_rows s (<[e_id e := mkStored e p]> (st_rows s))).
Proof.
  intros Hr Hid Hfree Hind Hroom. pose proof (key_for_id_represented t s (e_id e) Hr) as Hk.
  destruct (cs_key_for_id (t_canonical t) (e_id e)) as [?|] eqn:Hkey; [by destruct Hk as (? & ? & ? & _); congruence|].
  destruct (cs_insert_spec (t_canonical t) e p n) as (c & Hins & Hwf & Hrows & Hnext & Hroom'); [apply Hr|done|done|].
  destruct (Hind (cs_next (t_canonical t))) as [pe Hpe].
  assert (∃ b, batch_insert (t_postings t) e (cs_next (t_canonical t)) = Some b) as [b Hb]
    by (unfold batch_insert; rewrite Hpe; by eexists).
  exists (stored_indexes t c (cs_next (t_canonical t)) e b).
  split; [|split_and!; [done..|split; simpl; try apply Hr]].
  - unfold store_row. rewrite Hins. simpl. unfold set_addr_index, stored_indexes.
    destruct (addr_of e); simpl; rewrite Hb; simpl; by destruct (tags_expiration (e_tags e)).
  - eapply indexed_store; by try apply Hr.
  - intros id se. rewrite lookup_insert_Some, (rp_rows _ _ _ Hr). setoid_rewrite Hrows.
    setoid_rewrite lookup_insert_Some. split.
    + intros [[<- <-]|[Hne (key & Hse & Heq)]]; [eexists; split; [by left|done]|].
      exists key. split; [|done]. right. split; [|done]. intros <-.
      apply (N.lt_irrefl (cs_next (t_canonical t))), (cs_keys (t_canonical t)); [apply Hr|by eexists].
    + intros (key & [[<- <-]|[Hne Hse]] & Heq); [by left|]. right. split; [|eauto]. intros <-.
      enough (st_rows s !! e_id e = Some se) by congruence. apply (rp_rows _ _ _ Hr). eauto.
Qed.

(** Rewriting one row with another of the same content. *)
Lemma represents_update t s key old new c :
  represents t s → cs_rows (t_canonical t) !! key = Some old →
  same_content (se_event old) (se_event new) → cs_wf c →
  cs_rows c = <[key := new]> (cs_rows (t_canonical t)) → cs_next c = cs_next (t_canonical t) →
  represents (set_canonical t c) (with_rows s (<[e_id (se_event new) := new]> (st_rows s))).
Proof.
  intros Hr Hold Hsame Hwf Hrows Hnext. pose proof (rp_indexed _ _ _ Hr) as Hix.
  assert (∀ (Q : EventKey → Event → Prop), (∀ k, Q k (se_event old) ↔ Q k (se_event new)) →
    ∀ key', (∃ se, cs_rows c !! key' = Some se ∧ Q key' (se_event se)) ↔
            ∃ se, cs_rows (t_canonical t) !! key' = Some se ∧ Q key' (se_event se)) as Hex.
  { intros Q HQ key'. rewrite Hrows. destruct (decide (key' = key)) as [->|].
    - rewrite lookup_insert_eq, Hold. setoid_rewrite (inj_iff Some). specialize (HQ key). naive_solver.
    - by rewrite lookup_insert_ne. }
  assert (addr_of (se_event old) = addr_of (se_event new)) as Haddr
    by (unfold addr_of; by rewrite (same_content_address _ _ Hsame)).
  destruct Hsame as (Hid & Hpk & Hca & Hkind & Htags & Hcontent).
  split; [split| | | |]; simpl; try (by apply Hr); try done.
  - intros a key'. rewrite (ix_addr _ _ Hix). symmetry. apply (Hex (λ _ e, addr_of e = Some a)). by rewrite Haddr.
  - intros ts id key'. rewrite (ix_exp _ _ Hix). symmetry.
    apply (Hex (λ _ e, e_id e = id ∧ tags_expiration (e_tags e) = Some ts)). by rewrite Hid, Htags.
  - intros key'. rewrite (ix_posted _ _ Hix), Hrows. destruct (decide (key' = key)) as [->|].
    + rewrite lookup_insert_eq, Hold. simpl. unfold prepare. by rewrite Htags, Hca, Hid, Hpk, Hkind.
    + by rewrite lookup_insert_ne.
  - intros k se. rewrite Hrows. intros [[<- <-]|[_ Hse]]%lookup_insert_Some; [|by eapply (ix_indexable _ _ Hix)].
    intros k. destruct (ix_indexable _ _ Hix _ _ Hold k) as [pe Hpe]. revert Hpe. unfold prepare.
    rewrite Htags. intros (? & -> & _)%bind_Some. by eexists.
  - rewrite Hnext. apply (ix_next _ _ Hix).
  - intros k Hk. rewrite Hnext. by apply (ix_additions _ _ Hix).
  - intros id se. rewrite Hrows, lookup_insert_Some, (rp_rows _ _ _ Hr). setoid_rewrite lookup_insert_Some. split.
    + intros [[<- <-]|[Hne (k & Hk & Heq)]]; [eexists; split; [by left|done]|].
      exists k. split; [|done]. right. split; [|done]. intros <-. congruence.
    + intros (k & [[<- <-]|[Hne Hk]] & Heq); [by left|]. right. split; [|eauto]. intros Heq'.
      apply Hne. eapply key_unique; [apply Hr|exact Hold|exact Hk|congruence].
Qed.
End rows.

(** ** Deletions *)

Section deletions.
Context `{HexLaws, TagReader, EventReader, CanonicalLaws C}.
Context (durable : Durable).
Implicit Types (t : Txn C) (s : Store).
Local Abbreviation represents := (represents durable).

(** What has left the rows once some of a deletion's tags are processed. *)
Definition swept (d : Event) (ids : list EventId) (keys : list AddressKey) (p : EventId * StoredEvent) : Prop :=
  e_pubkey (se_event p.2) = e_pubkey d ∧
  (p.1 ∈ ids ∨
   address_key_for (se_event p.2) ∈ (Some <$> keys) ∧ (e_created_at (se_event p.2) ≤ e_created_at d)%N).
#[global] Instance swept_dec d ids keys p : Decision (swept d ids keys p).
Proof. unfold swept. apply _. Defined.

Definition deleting (d : Event) (s : Store) (ids : list EventId) (keys : list AddressKey) : Store :=
  mkStore (filter (λ p, ¬ swept d ids keys p) (st_rows s))
    (list_to_set ((λ id, (id, e_pubkey d)) <$> ids) ∪ st_ids s)
    (raise_to (e_created_at d) keys (st_ceilings s)).

Definition deletion_state (d : Event) t s (ids : list EventId) (keys : list AddressKey)
    (acc : list StoredEvent * Txn C) : Prop :=
  represents acc.2 (deleting d s ids keys) ∧ frame t acc.2 ∧
  acc.1 ≡ₚ (map_to_list (filter (swept d ids keys) (st_rows s))).*2.

Lemma deleting_nil d s : deleting d s [] [] = s.
Proof.
  destruct s as [rows ids ceilings]. unfold deleting; simpl. f_equal.
  - apply map_filter_id. intros i x _ [_ [?|[? _]]]; set_solver.
  - set_solver.
  - apply map_eq. intros k. rewrite lookup_raise_to. by rewrite decide_False by set_solver.
Qed.

Lemma deletion_state_nil d t s : represents t s → deletion_state d t s [] [] ([], t).
Proof.
  intros Hr. split_and!; simpl; [by rewrite deleting_nil|done|].
  rewrite map_empty_filter_2; [by rewrite map_to_list_empty|].
  intros i x _ [_ [?|[? _]]]; set_solver.
Qed.

Lemma represents_tombstone t s p id :
  represents t s →
  represents (set_id_tombstones t (<[p := id]> (t_id_tombstones t)))
    (mkStore (st_rows s) ({[ p ]} ∪ st_ids s) (st_ceilings s)).
Proof.
  intros Hr. pose proof (rp_indexed _ _ _ Hr) as Hix.
  split; simpl; try apply Hr; [by destruct Hix; split|].
  intros p'. rewrite elem_of_union, elem_of_singleton, <-(rp_ids _ _ _ Hr), lookup_insert_is_Some.
  destruct (decide (p = p')); naive_solver.
Qed.

Lemma delete_id_step d t s ids acc id :
  deletion_state d t s ids [] acc →
  ∃ acc', delete_id d acc id = Some acc' ∧ deletion_state d t s (ids ++ [id]) [] acc'.
Proof.
  destruct acc as [deleted t1]. intros (Hr & Hf & Hperm); simpl in *.
  set (q := λ se, bool_decide (e_pubkey (se_event se) = e_pubkey d)).
  destruct (remove_row_spec durable t1 (deleting d s ids []) id q Hr) as (t2 & Hrun & Hr2 & Hf2).
  destruct (filter_sweep (st_rows s) (swept d ids []) (swept d (ids ++ [id]) []) q id) as [Hrows Hsw].
  { intros k x _. unfold swept, q; simpl. rewrite elem_of_app, list_elem_of_singleton, bool_decide_eq_true.
    split; [intros [? [[?| ->]|[? _]]]; set_solver|naive_solver]. }
  unfold delete_id. fold q. rewrite Hrun. simpl. eexists. split; [done|].
  split_and!; simpl; [|by trans t2; [trans t1|]|by rewrite Hsw, Hperm].
  apply (represents_tombstone _ _ (id, e_pubkey d) (e_id d)) in Hr2. revert Hr2. simpl.
  unfold deleting; simpl. rewrite <-Hrows. intros Hr2.
  assert (list_to_set ((λ id, (id, e_pubkey d)) <$> ids ++ [id]) ∪ st_ids s =
    {[(id, e_pubkey d)]} ∪ (list_to_set ((λ id, (id, e_pubkey d)) <$> ids) ∪ st_ids s)) as -> by set_solver.
  exact Hr2.
Qed.

(** The ceiling update of one claimed address. *)
Lemma represents_ceiling t s d k :
  represents t s →
  let raise := match t_addr_tombstones t !! to_redb_key k with
               | None => true
               | Some rec => (at_ceiling rec <? e_created_at d)%N
               end in
  let record := mkAddrTombstone (e_created_at d) (e_id d) (e_pubkey d) in
  represents
    (if raise then set_addr_tombstones t (<[to_redb_key k := record]> (t_addr_tombstones t)) else t)
    (mkStore (st_rows s) (st_ids s) (raise_to (e_created_at d) [k] (st_ceilings s))).
Proof.
  intros Hr raise record. pose proof (rp_indexed _ _ _ Hr) as Hix. pose proof (rp_ceilings _ _ _ Hr k) as Hk.
  assert (∀ k', at_ceiling <$> (if raise then <[to_redb_key k := record]> (t_addr_tombstones t)
      else t_addr_tombstones t) !! to_redb_key k' = raise_to (e_created_at d) [k] (st_ceilings s) !! k') as Hc.
  { intros k'. rewrite lookup_raise_to. case_decide as Hin.
    - apply list_elem_of_singleton in Hin as ->. rewrite <-Hk. subst raise.
      destruct (t_addr_tombstones t !! to_redb_key k) as [rec|] eqn:Hrec; simpl; [|by rewrite lookup_insert_eq].
      destruct (N.ltb_spec (at_ceiling rec) (e_created_at d)); [rewrite lookup_insert_eq|rewrite Hrec];
        simpl; f_equal; lia.
    - rewrite <-(rp_ceilings _ _ _ Hr). destruct raise; [|done]. rewrite lookup_insert_ne; [done|].
      intros ->%(inj to_redb_key). set_solver. }
  destruct raise; split; simpl; try apply Hr; try done. by destruct Hix; split.
Qed.

(** The row the address index holds is the one row with that address. *)
Lemma addr_index_represented t s k key :
  represents t s → t_addr_index t !! to_redb_key k = Some key →
  ∃ se, cs_load_by_key (t_canonical t) key = Some (Some se) ∧ st_rows s !! e_id (se_event se) = Some se ∧
    address_key_for (se_event se) = Some k.
Proof.
  intros Hr (se & Hse & Ha)%(ix_addr _ _ (rp_indexed _ _ _ Hr)). exists se.
  rewrite cs_load_spec, Hse by apply Hr. split; [done|]. split; [apply (rp_rows _ _ _ Hr); eauto|].
  unfold addr_of in Ha. apply fmap_Some in Ha as (k' & -> & ->%(inj to_redb_key)). done.
Qed.

Lemma address_represented t s id se k :
  represents t s → st_rows s !! id = Some se → address_key_for (se_event se) = Some k →
  ∃ key, t_addr_index t !! to_redb_key k = Some key ∧ cs_rows (t_canonical t) !! key = Some se.
Proof.
  intros Hr (key & Hse & _)%(rp_rows _ _ _ Hr) Hk. exists key. split; [|done].
  apply (ix_addr _ _ (rp_indexed _ _ _ Hr)). exists se. split; [done|]. unfold addr_of. by rewrite Hk.
Qed.

(** Two held rows of one address are the same row. *)
Lemma address_unique t s id id' se se' k :
  represents t s → st_rows s !! id = Some se → st_rows s !! id' = Some se' →
  address_key_for (se_event se) = Some k → address_key_for (se_event se') = Some k → id = id' ∧ se = se'.
Proof.
  intros Hr Hse Hse' Hk Hk'.
  destruct (address_represented t s id se k) as (key & Hi & Hrow); [done..|].
  destruct (address_represented t s id' se' k) as (key' & Hi' & Hrow'); [done..|].
  apply (rp_rows _ _ _ Hr) in Hse as (? & _ & <-), Hse' as (? & _ & <-).
  assert (key = key') as -> by congruence. by assert (se = se') as -> by congruence.
Qed.

Lemma swept_snoc d ids keys k id se :
  address_author k = e_pubkey d →
  swept d ids (keys ++ [k]) (id, se) ↔
  swept d ids keys (id, se) ∨
  address_key_for (se_event se) = Some k ∧ (e_created_at (se_event se) ≤ e_created_at d)%N.
Proof.
  intros Hauth. unfold swept; simpl. rewrite fmap_app, elem_of_app. simpl. rewrite list_elem_of_singleton.
  pose proof (address_key_for_author (se_event se) k) as Hk. rewrite Hauth in Hk. naive_solver.
Qed.

Lemma raise_to_snoc ceiling keys k m : raise_to ceiling [k] (raise_to ceiling keys m) = raise_to ceiling (keys ++ [k]) m.
Proof.
  apply map_eq. intros k'. rewrite !lookup_raise_to.
  destruct (m !! k'); repeat case_decide; set_solver || (simpl; f_equal; lia).
Qed.

(** Removing the row of one claimed address, if it is not newer. *)
Lemma delete_current d t s ids keys k deleted :
  address_author k = e_pubkey d →
  represents t (mkStore (st_rows (deleting d s ids keys)) (st_ids (deleting d s ids keys))
    (raise_to (e_created_at d) (keys ++ [k]) (st_ceilings s))) →
  deleted ≡ₚ (map_to_list (filter (swept d ids keys) (st_rows s))).*2 →
  ∃ acc', match t_addr_index t !! to_redb_key k with
    | None => Some (deleted, t)
    | Some current_key =>
        found ← cs_load_by_key (t_canonical t) current_key;
        current ← found;
        '(removed, t) ← remove_row t (e_id (se_event current))
                          (λ se, (e_created_at (se_event se) <=? e_created_at d)%N);
        Some (deleted ++ option_list removed, t)
    end = Some acc' ∧ deletion_state d t s ids (keys ++ [k]) acc'.
Proof.
  intros Hauth Hr Hperm.
  destruct (t_addr_index t !! to_redb_key k) as [key|] eqn:Hidx.
  - destruct (addr_index_represented _ _ k key Hr Hidx) as (se & -> & Hse & Hak). simpl in Hse |- *.
    set (q := λ se, (e_created_at (se_event se) <=? e_created_at d)%N).
    destruct (remove_row_spec durable t _ (e_id (se_event se)) q Hr) as (t3 & Hrun & Hr3 & Hf3).
    destruct (filter_sweep (st_rows s) (swept d ids keys) (swept d ids (keys ++ [k])) q (e_id (se_event se)))
      as [Hrows Hsw].
    { intros id se' Hse'. rewrite swept_snoc by done. subst q; simpl. rewrite N.leb_le.
      destruct (decide (swept d ids keys (id, se'))) as [?|Hs]; [tauto|].
      enough (address_key_for (se_event se') = Some k ↔ id = e_id (se_event se)) by tauto.
      assert (st_rows (deleting d s ids keys) !! id = Some se') as Hin by (by apply map_lookup_filter_Some).
      split; [|intros ->; simpl in Hin; congruence]. intros Hak'.
      by apply (address_unique t _ _ _ se' se k Hr). }
    rewrite Hrun. simpl. eexists. split; [done|].
    split_and!; simpl; [|done|by rewrite Hsw, Hperm].
    revert Hr3. unfold deleting; simpl. by rewrite <-Hrows.
  - destruct (filter_sweep (st_rows s) (swept d ids keys) (swept d ids (keys ++ [k])) (λ _, false) (e_id d))
      as [Hrows Hsw].
    { intros id se' Hse'. rewrite swept_snoc by done.
      destruct (decide (swept d ids keys (id, se'))) as [?|Hs]; [tauto|].
      assert (st_rows (deleting d s ids keys) !! id = Some se') as Hin by (by apply map_lookup_filter_Some).
      enough (address_key_for (se_event se') ≠ Some k) by naive_solver. intros Ha.
      destruct (address_represented t _ id se' k Hr Hin Ha) as (? & ? & _). congruence. }
    assert (∀ o : option StoredEvent, (o ≫= λ _, None) = (None : option StoredEvent)) as Hnone by (by intros []).
    rewrite Hnone in Hrows, Hsw. eexists. split; [done|].
    split_and!; simpl; [|done|by rewrite Hsw, app_nil_r]. unfold deleting. by rewrite Hrows.
Qed.

Lemma delete_address_step d t s ids keys acc c :
  deletion_state d t s ids keys acc →
  ∃ acc', delete_address d acc c = Some acc' ∧
    deletion_state d t s ids (keys ++ claimed_by (e_pubkey d) [c]) acc'.
Proof.
  destruct acc as [deleted t1]. intros (Hr & Hf & Hperm); simpl in *. unfold delete_address, claimed_by.
  rewrite filter_cons, filter_nil.
  case_decide as Hpk; simpl; [|rewrite app_nil_r; eexists; split; [done|by split_and!]].
  destruct (address_key_for_coordinate c) as [k|] eqn:Hk; simpl;
    [|rewrite app_nil_r; eexists; split; [done|by split_and!]].
  pose proof (represents_ceiling t1 _ d k Hr) as Hr1. cbv zeta in Hr1.
  match type of Hr1 with ?R ?x ?y => set (t2 := x) in * end. unfold deleting in Hr1; simpl in Hr1. rewrite raise_to_snoc in Hr1.
  assert (frame t1 t2) as Hf1 by (subst t2; by case_match).
  destruct (delete_current d t2 s ids keys k deleted) as (acc' & Hrun & Hr2 & Hf2 & Hp); [|done..|].
  { by rewrite <-(address_key_for_coordinate_author c k), Hpk. }
  exists acc'. split; [exact Hrun|]. split_and!; [done| |done]. trans t2; [by trans t1|done].
Qed.

Lemma claimed_by_app author cs cs' : claimed_by author (cs ++ cs') = claimed_by author cs ++ claimed_by author cs'.
Proof. unfold claimed_by. by rewrite filter_app, omap_app. Qed.

Lemma represented_id t s id se : represents t s → st_rows s !! id = Some se → e_id (se_event se) = id.
Proof. intros Hr Hse. by apply (rp_rows _ _ _ Hr) in Hse as (? & _ & ?). Qed.

(** Both loops of a deletion together. *)
Lemma process_kind5_spec t s d :
  represents t s →
  ∃ deleted t', process_kind5_deletions t d = Some (deleted, t') ∧
    represents t' (apply_deletion d s) ∧ frame t t' ∧ deleted ≡ₚ (map_to_list (victims d (st_rows s))).*2.
Proof.
  intros Hr. unfold process_kind5_deletions.
  destruct (foldl_option_ind (delete_id d) (λ ids acc, deletion_state d t s ids [] acc)
    (tags_event_ids (e_tags d)) ([], t)) as (acc & -> & Hacc).
  { by apply deletion_state_nil. }
  { intros pre id post b _. by apply delete_id_step. }
  simpl.
  destruct (foldl_option_ind (delete_address d)
    (λ cs acc, deletion_state d t s (tags_event_ids (e_tags d)) (claimed_by (e_pubkey d) cs) acc)
    (tags_coordinates (e_tags d)) acc) as ([deleted t'] & -> & Hr' & Hf & Hperm).
  { done. }
  { intros pre c post b _. rewrite claimed_by_app. by apply delete_address_step. }
  exists deleted, t'. split; [done|]. simpl in *.
  assert (∀ id se, st_rows s !! id = Some se →
    swept d (tags_event_ids (e_tags d)) (claimed d) (id, se) ↔ deletes d (se_event se)) as Heq.
  { intros id se Hse. unfold swept, deletes; simpl. by rewrite (represented_id t s id se Hr Hse). }
  split_and!; [|done|].
  - unfold apply_deletion, survivors. revert Hr'. unfold deleting, raise_ceilings, claim_ids, claimed. simpl.
    assert (filter (λ p, ¬ swept d (tags_event_ids (e_tags d)) (claimed d) p) (st_rows s) =
      filter (λ p, ¬ deletes d (se_event p.2)) (st_rows s)) as Hfe
      by (apply map_filter_ext; intros id se Hse; simpl; by rewrite Heq).
    unfold claimed in Hfe. by rewrite Hfe.
  - rewrite Hperm. unfold victims.
    assert (filter (swept d (tags_event_ids (e_tags d)) (claimed d)) (st_rows s) =
      filter (λ p, deletes d (se_event p.2)) (st_rows s)) as <-
      by (apply map_filter_ext; intros id se Hse; simpl; by rewrite Heq).
    done.
Qed.

(** ** Signature fan-out *)

Lemma update_receipt_signed q id rc eid state :
  q_receipts q !! id = Some rc → rc_payload rc = PayloadEvent eid state → state ≠ ReceiptSuperseded →
  ∃ rc', rc_payload rc' = PayloadEvent eid ReceiptSigned ∧
    update_receipt q id ReceiptSigned =
      Some (mkQueue (q_intents q) (<[id := rc']> (q_receipts q)) (q_displaced q) (q_kind5_claims q)
              (q_suppress_id q) (q_suppress_addr q)).
Proof.
  intros Hrc Hp Hst. unfold update_receipt. rewrite Hrc. simpl. rewrite Hp.
  destruct state; try done; (eexists; split; [|reflexivity]; done).
Qed.

Lemma drop_claims_intents q owner claims :
  q_intents (drop_claims q owner claims) = q_intents q ∧ q_receipts (drop_claims q owner claims) = q_receipts q.
Proof.
  unfold drop_claims. revert q. induction claims as [|[target author|key c a] claims IH]; intros q; simpl; [done|..];
    rewrite !(proj1 (IH _)), !(proj2 (IH _)); unfold remove_claimant, remove_addr_claimant; by case_match.
Qed.

Lemma queue_ok_same q q' :
  q_intents q' = q_intents q → q_receipts q' = q_receipts q → queue_ok q → queue_ok q'.
Proof. intros Hi Hr Hq id r frozen routing st. rewrite Hi, Hr. apply Hq. Qed.

(** Signing an event intent keeps every unsigned intent's receipt open. *)
Lemma queue_ok_sign q owner r rc rc' eid state e frozen routing st :
  queue_ok q → q_receipts q !! in_receipt_id r = Some rc → rc_payload rc = PayloadEvent eid state →
  in_work r = WorkEvent frozen routing st → rc_payload rc' = PayloadEvent eid ReceiptSigned →
  queue_ok (mkQueue
    (<[owner := mkIntent (in_receipt_id r) (WorkEvent e routing IntentSigned) (in_expected_pubkey r)
                  (in_signing_identity_ref r) (in_accepted_at r)]> (q_intents q))
    (<[in_receipt_id r := rc']> (q_receipts q)) (q_displaced q) (q_kind5_claims q)
    (q_suppress_id q) (q_suppress_addr q)).
Proof.
  intros Hq Hrc Hp Hw Hp' id r' frozen' routing' st' Hi Hw' Hst'. simpl in Hi |- *.
  apply lookup_insert_Some in Hi as [[<- <-]|[Hne Hi]]; [simpl in Hw'; congruence|].
  destruct (Hq id r' frozen' routing' st' Hi Hw' Hst') as (rc0 & eid0 & state0 & Hrc0 & Hp0 & Hst0).
  destruct (decide (in_receipt_id r' = in_receipt_id r)) as [->|Hner].
  - exists rc', eid, ReceiptSigned. by rewrite lookup_insert_eq.
  - exists rc0, eid0, state0. by rewrite lookup_insert_ne.
Qed.

Lemma queue_ok_close q e owner : queue_ok q → queue_ok (close_claims e owner q).
Proof.
  intros Hq. unfold close_claims. case_match; [|done]. case_match; [|done].
  eapply queue_ok_same; [apply drop_claims_intents..|]. by apply (queue_ok_same q).
Qed.

Lemma fan_out_owner_step e transitioned q owner :
  queue_ok q →
  ∃ transitioned' q', fan_out_owner e (transitioned, q) owner = Some (transitioned', q') ∧ queue_ok q' ∧
    (transitioned' = transitioned ∨ transitioned' = transitioned ++ [owner]).
Proof.
  intros Hq. unfold fan_out_owner.
  set (q1 := displaced_remove q owner). assert (queue_ok q1) as Hq1 by (by apply (queue_ok_same q)).
  pose proof (queue_ok_close q1 e owner Hq1) as Hclose.
  destruct (q_intents q1 !! owner) as [r|] eqn:Hr; [|eauto 10].
  destruct (in_work r) as [frozen routing st|coord m] eqn:Hw; simpl; [|eauto 10].
  destruct (decide (st = IntentSigned)) as [->|Hst]; [eauto 10|].
  destruct (Hq1 owner r frozen routing st Hr Hw Hst) as (rc & eid & state & Hrc & Hp & Hst').
  destruct (update_receipt_signed (put_intent q1 owner (mkIntent (in_receipt_id r)
    (WorkEvent e routing IntentSigned) (in_expected_pubkey r) (in_signing_identity_ref r) (in_accepted_at r)))
    (in_receipt_id r) rc eid state) as (rc' & Hp' & Hup); [done..|].
  eexists (transitioned ++ [owner]), _. split_and!; [|apply queue_ok_close|by right].
  - simpl in Hup |- *. destruct st; [|..|done]; rewrite Hup; reflexivity.
  - by eapply queue_ok_sign.
Qed.
End deletions.

(** ** Insertion *)

Section insertion.
Context `{HexLaws, TagReader, EventReader, CanonicalLaws C, GenuineLaws}.
Context (durable : Durable).
Implicit Types (t : Txn C) (s : Store).
Local Abbreviation represents := (represents durable).

Lemma represents_queue t s q : represents t s → queue_ok q → represents (set_queue t q) s.
Proof. intros [[] ? ? ? ?] ?. by split; [split|..]. Qed.

Lemma fan_out_signed_spec t s owners e :
  represents t s →
  ∃ satisfied t', fan_out_signed t owners e = Some (satisfied, t') ∧
    represents t' (after_signing e s) ∧ satisfied `sublist_of` ordered owners ∧
    ∀ n, cs_room (t_canonical t) n → cs_room (t_canonical t') n.
Proof.
  intros Hr. unfold fan_out_signed.
  destruct (foldl_option_ind (fan_out_owner e) (λ pre acc, acc.1 `sublist_of` pre ∧ queue_ok acc.2)
    (ordered owners) ([], t_queue t)) as ([sat q] & -> & Hsub & Hq).
  { split; [done|apply Hr]. }
  { intros pre owner post [tr q] _ [Hsub Hq]. cbn [fst snd] in *.
    destruct (fan_out_owner_step e tr q owner Hq) as (tr' & q' & -> & Hq' & [-> | ->]);
      (eexists; split; [done|]; split; [|done]); simpl.
    - by apply sublist_inserts_r.
    - by apply sublist_app. }
  simpl in *. pose proof (represents_queue t s q Hr Hq) as Hr'. unfold after_signing, is_deletion.
  destruct (N.eqb_spec (e_kind e) kind_event_deletion) as [He|He].
  - rewrite decide_True by done.
    destruct (process_kind5_spec durable (set_queue t q) s e Hr') as (deleted & t' & -> & Hr'' & Hf & _).
    simpl. exists sat, t'. split_and!; [done..|]. apply Hf.
  - rewrite decide_False by done. eauto 10.
Qed.

Lemma tombstone_refuses_spec t s e : represents t s → tombstone_refuses t e = true ↔ tombstoned s e.
Proof.
  intros Hr. unfold tombstone_refuses, tombstoned.
  pose proof (rp_ids _ _ _ Hr (e_id e, e_pubkey e)) as Hid.
  destruct (t_id_tombstones t !! (e_id e, e_pubkey e)) as [?|].
  { split; [|done]. intros _. left. by apply Hid. }
  split.
  - destruct (address_key_for e) as [k|] eqn:Hk; [|done]. pose proof (rp_ceilings _ _ _ Hr k) as Hc.
    destruct (t_addr_tombstones t !! to_redb_key k) as [rec|]; [|done]. intros Hle%N.leb_le. right.
    by exists k, (at_ceiling rec).
  - intros [Hin|(k & c & -> & Hc & Hle)]; [apply Hid in Hin; by destruct Hin|].
    rewrite <-(rp_ceilings _ _ _ Hr) in Hc. apply fmap_Some in Hc as (rec & -> & ->). by apply N.leb_le.
Qed.

(** The relay's copy of a pending draft is adopted, then fanned out. *)
Lemma merge_adopts t s key se e from owners n :
  represents t s → cs_room (t_canonical t) (S n) → cs_rows (t_canonical t) !! key = Some se →
  same_content (se_event se) e → pv_local (se_provenance se) = Some (mkLocal owners Pending) →
  ∃ t1 s1, let '(grew, p) := provenance_merge (se_provenance se) (ob_relay from) (ob_at from) in
    merge_duplicate t key e from =
      ('(satisfied, t) ← fan_out_signed t1 owners e; Some (Duplicate grew satisfied true, t)) ∧
    s1 = with_rows s
      (<[e_id e := mkStored e (mkProv (pv_seen p) (Some (mkLocal owners Signed)))]> (st_rows s)) ∧
    represents t1 s1 ∧ t_queue t1 = t_queue t ∧ cs_room (t_canonical t1) n.
Proof.
  intros Hr Hroom Hse Hsame Hl. pose proof (ix_wf _ _ (rp_indexed _ _ _ Hr)) as Hwf. unfold merge_duplicate.
  rewrite (cs_load_local_spec _ _ se Hwf Hse), Hl.
  pose proof (cs_merge_spec (t_canonical t) key se (ob_relay from) (ob_at from) n Hwf Hse Hroom) as Hm.
  destruct (provenance_merge (se_provenance se) (ob_relay from) (ob_at from)) as [grew p].
  destruct Hm as (c & -> & Hwf' & Hrows & Hnext & Hroom'). cbn [mbind option_bind].
  assert (cs_rows c !! key = Some (mkStored (se_event se) p)) as Hse1 by (rewrite Hrows; apply lookup_insert_eq).
  destruct (cs_replace_event_spec c key _ e Hwf' Hse1 (eq_sym (proj1 Hsame))) as (Hwf2 & Hrows2 & Hnext2 & Hroom2).
  assert (cs_rows (cs_replace_event c key e) !! key = Some (mkStored e p)) as Hse2
    by (rewrite Hrows2; apply lookup_insert_eq).
  destruct (cs_replace_local_spec _ key _ (Some (mkLocal owners Signed)) Hwf2 Hse2) as (Hwf3 & Hrows3 & Hnext3 & Hroom3).
  eexists (set_canonical t (cs_replace_local (cs_replace_event c key e) key _)), _.
  split; [done|]. split; [done|]. split_and!; [|done|by apply Hroom3, Hroom2].
  apply (represents_update durable t s key se); try done.
  - by rewrite Hrows3, Hrows2, Hrows, !insert_insert_eq.
  - by rewrite Hnext3, Hnext2.
Qed.

(** An event delivered again. *)
Lemma merge_duplicate_spec t s key se e from n :
  represents t s → store_ok s → genuine e → cs_room (t_canonical t) (S n) →
  cs_rows (t_canonical t) !! key = Some se → st_rows s !! e_id e = Some se →
  is_expired_at e (ob_at from) = false →
  ∃ o t' s', merge_duplicate t key e from = Some (o, t') ∧ ingest_step s e from o s' ∧
    represents t' s' ∧ cs_room (t_canonical t') n.
Proof.
  intros Hr Hok Hg Hroom Hse Hid Hexp.
  assert (same_content (se_event se) e) as Hsame.
  { apply genuine_content; [by eapply so_genuine|done|by eapply so_ids]. }
  pose proof (step_duplicate s e from se) as Hdup. pose proof (step_adopted s e from se) as Hadopt.
  destruct (provenance_merge (se_provenance se) (ob_relay from) (ob_at from)) as [grew p] eqn:Hp.
  destruct (pv_local (se_provenance se)) as [[owners []]|] eqn:Hl.
  { destruct (merge_adopts t s key se e from owners n) as (t1 & s1 & Hm); [done..|]. rewrite Hp in Hm.
    destruct Hm as (-> & -> & Hr1 & _ & Hroom1).
    destruct (fan_out_signed_spec t1 _ owners e Hr1) as (sat & t' & -> & Hr2 & Hsub & Hroom2). simpl.
    do 3 eexists. split; [done|]. split; [by eapply Hadopt|]. split; [exact Hr2|by apply Hroom2]. }
  all: pose proof (ix_wf _ _ (rp_indexed _ _ _ Hr)) as Hwf; unfold merge_duplicate;
    rewrite (cs_load_local_spec _ _ se Hwf Hse), Hl;
    pose proof (cs_merge_spec (t_canonical t) key se (ob_relay from) (ob_at from) n Hwf Hse Hroom) as Hm;
    rewrite Hp in Hm; destruct Hm as (c & -> & Hwf' & Hrows & Hnext & Hroom'); simpl;
    pose proof (represents_update durable t s key se (mkStored (se_event se) p) c Hr Hse
      ltac:(by split_and!) Hwf' Hrows Hnext) as Hr'; simpl in Hr'; rewrite (proj1 Hsame) in Hr';
    do 3 eexists; (split; [done|]); (split; [|done]); by apply (Hdup grew p).
Qed.

Lemma no_rival t s e : represents t s →
  (∀ a, addr_of e = Some a → t_addr_index t !! a = None) → ∀ se, ¬ rival s e se.
Proof.
  intros Hr Hfree se (Hse & [k Hk] & Heq).
  destruct (address_represented durable t s _ se k Hr Hse) as (key & Hidx & _); [congruence|].
  rewrite (Hfree (to_redb_key k)) in Hidx; [done|]. unfold addr_of. by rewrite Hk.
Qed.

(** A new event that is not tombstoned: the competition and, for a deletion,
    what it deletes. *)
Lemma insert_fresh_spec t s e from n :
  represents t s → indexable e → cs_room (t_canonical t) (n + 2) →
  is_expired_at e (ob_at from) = false → st_rows s !! e_id e = None → ¬ tombstoned s e →
  ∃ o t' s',
    ('(outcome, t) ← compete t e (mkProv {[ ob_relay from := ob_at from ]} None);
     if (e_kind e =? kind_event_deletion)%N then
       match outcome with
       | Inserted => '(deleted, t) ← process_kind5_deletions t e; Some (Kind5Processed deleted, t)
       | _ => Some (outcome, t)
       end
     else Some (outcome, t)) = Some (o, t') ∧
    ingest_step s e from o s' ∧ represents t' s' ∧ cs_room (t_canonical t') n.
Proof.
  intros Hr Hind Hroom Hexp Hid Ht. set (p := mkProv {[ ob_relay from := ob_at from ]} None).
  assert (∀ t1 s1, represents t1 s1 → st_rows s1 !! e_id e = None →
    (∀ a, addr_of e = Some a → t_addr_index t1 !! a = None) → cs_room (t_canonical t1) (n + 2) →
    ∃ t', store_row t1 e p = Some t' ∧ cs_room (t_canonical t') n ∧
      represents t' (with_rows s1 (<[e_id e := fresh_row e from]> (st_rows s1)))) as Hstore.
  { intros t1 s1 Hr1 Hid1 Hfree Hroom1. destruct (store_row_spec durable t1 s1 e p n) as (t' & ? & _ & ? & ?); eauto.
    subst p; simpl. by rewrite map_size_singleton. }
  assert ((∀ a, addr_of e = Some a → t_addr_index t !! a = None) →
    compete t e p = t ← store_row t e p; Some (Inserted, t)) as Hcomp.
  { intros Hfree. unfold compete. destruct (addr_of e) as [a|]; [|done]. by rewrite Hfree. }
  destruct (addr_of e ≫= λ a, t_addr_index t !! a) as [key|] eqn:Hocc; cycle 1.
  - assert (∀ a, addr_of e = Some a → t_addr_index t !! a = None) as Hfree
      by (intros a Ha; by rewrite Ha in Hocc).
    rewrite Hcomp by done. destruct (Hstore t s Hr Hid Hfree Hroom) as (t' & -> & Hroom' & Hr'). simpl.
    destruct (N.eqb_spec (e_kind e) kind_event_deletion) as [He|He].
    + destruct (process_kind5_spec durable t' _ e Hr') as (deleted & t'' & -> & Hr'' & Hf & Hperm). simpl.
      do 3 eexists. split; [done|]. split; [by eapply step_kind5|]. split; [done|by apply Hf].
    + do 3 eexists. split; [done|]. split; [eapply step_inserted; by try eapply no_rival|done].
  - apply bind_Some in Hocc as (a & (k & Hk & ->)%fmap_Some_1 & Hidx).
    assert (e_kind e ≠ kind_event_deletion) as He
      by (intros He; rewrite (deletion_no_address e He) in Hk; done).
    destruct (addr_index_represented durable t s k key Hr Hidx) as (se & Hload & Hse & Hak).
    assert (rival s e se) as Hrival by (split_and!; [done|by eexists|congruence]).
    unfold compete, addr_of. rewrite Hk. simpl. rewrite Hidx, Hload. simpl.
    rewrite (proj2 (N.eqb_neq _ _) He). destruct (candidate_wins e (se_event se)) eqn:Hw; simpl; cycle 1.
    { do 3 eexists. split; [done|]. split; [by eapply step_stale|]. split; [done|]. eapply cs_room_le; [|done]. lia. }
    destruct (remove_row_spec durable t s (e_id (se_event se)) (λ _, true) Hr) as (t1 & Hrun & Hr1 & Hq1 & Hroom1 & _).
    rewrite Hse in Hrun, Hr1. simpl in Hrun, Hr1. rewrite Hrun. simpl.
    destruct (Hstore t1 _ Hr1) as (t' & -> & Hroom' & Hr'); [|..|by apply Hroom1|].
    { apply lookup_delete_None. by right. }
    { intros a Ha. apply eq_None_not_Some. intros [key' Hkey']. unfold addr_of in Ha. rewrite Hk in Ha.
      injection Ha as <-. destruct (addr_index_represented durable t1 _ k key' Hr1 Hkey') as (se' & _ & Hse' & Hak').
      simpl in Hse'. apply lookup_delete_Some in Hse' as [Hne Hse']. apply Hne.
      by apply (address_unique durable t s _ _ se se' k Hr). }
    simpl. do 3 eexists. split; [done|]. split; [by eapply step_superseded|done].
Qed.

(** One delivered event, whatever it is. *)
Lemma insert_spec t s e from n :
  represents t s → store_ok s → genuine e → indexable e → cs_room (t_canonical t) (n + 2) →
  ∃ o t' s', insert_with_tables t e from = Some (o, t') ∧ ingest_step s e from o s' ∧
    represents t' s' ∧ store_ok s' ∧ cs_room (t_canonical t') n.
Proof.
  intros Hr Hok Hg Hind Hroom.
  enough (∃ o t' s', insert_with_tables t e from = Some (o, t') ∧ ingest_step s e from o s' ∧
    represents t' s' ∧ cs_room (t_canonical t') n) as (o & t' & s' & ? & Hstep & ? & ?).
  { exists o, t', s'. split_and!; try done. by eapply store_ok_step. }
  assert (cs_room (t_canonical t) n) as Hroom0 by (eapply cs_room_le; [|done]; lia).
  unfold insert_with_tables. destruct (is_expired_at e (ob_at from)) eqn:Hexp.
  { do 3 eexists. split; [done|]. split; [by apply step_expired|done]. }
  pose proof (key_for_id_represented durable t s (e_id e) Hr) as Hk.
  destruct (cs_key_for_id (t_canonical t) (e_id e)) as [key|].
  { destruct Hk as (se & Hse & Hid & _). eapply merge_duplicate_spec; try done. eapply cs_room_le; [|exact Hroom]. lia. }
  destruct (tombstone_refuses t e) eqn:Ht.
  { apply (tombstone_refuses_spec t s e Hr) in Ht. do 3 eexists. split; [done|].
    split; [by apply step_tombstoned|done]. }
  apply insert_fresh_spec; try done. intros Ht'%(tombstone_refuses_spec t s e Hr). congruence.
Qed.

Lemma insert_batch_spec t s evs n :
  represents t s → store_ok s → Forall genuine evs.*1 → Forall indexable evs.*1 →
  cs_room (t_canonical t) (n + 2 * length evs) →
  ∃ os t' s', insert_batch t evs = Some (os, t') ∧ ingest_run s evs os s' ∧
    represents t' s' ∧ store_ok s' ∧ cs_room (t_canonical t') n.
Proof.
  intros Hr Hok Hg Hi. rewrite Forall_fmap in Hg, Hi. revert n.
  induction evs as [|[e from] evs IH] using rev_ind; intros n Hroom.
  { exists [], t, s. split_and!; [done|constructor|done..|]. simpl in Hroom. by rewrite Nat.add_0_r in Hroom. }
  apply Forall_app in Hg as [Hg [He _]%Forall_cons], Hi as [Hi [Hie _]%Forall_cons].
  destruct (IH Hg Hi (n + 2)) as (os & t1 & s1 & Hrun & Hsteps & Hr1 & Hok1 & Hroom1).
  { eapply cs_room_le; [|done]. rewrite length_app. simpl. lia. }
  destruct (insert_spec t1 s1 e from n) as (o & t2 & s2 & Hins & Hstep & Hr2 & Hok2 & Hroom2); [done..|].
  exists (os ++ [o]), t2, s2. split_and!; [|by econstructor|done..].
  unfold insert_batch in *. rewrite foldl_app, Hrun. simpl. by rewrite Hins.
Qed.

(** ** Expiry *)

Definition expired_by (now : N) (se : StoredEvent) : Prop :=
  match tags_expiration (e_tags (se_event se)) with Some ts => (ts ≤ now)%N | None => False end.
#[global] Instance expired_by_dec now se : Decision (expired_by now se).
Proof. unfold expired_by. case_match; apply _. Defined.

Lemma elem_of_due_keys t s now key :
  represents t s →
  key ∈ due_keys t now ↔ ∃ se, cs_rows (t_canonical t) !! key = Some se ∧ expired_by now se.
Proof.
  intros Hr. unfold due_keys, expired_by. rewrite list_elem_of_fmap. split.
  - intros ([[ts id] key'] & -> & [Hle Hin]%list_elem_of_filter). apply elem_of_ordered_map in Hin.
    apply (ix_exp _ _ (rp_indexed _ _ _ Hr)) in Hin as (se & Hse & _ & Hts). exists se. by rewrite Hts.
  - intros (se & Hse & Hexp). destruct (tags_expiration (e_tags (se_event se))) as [ts|] eqn:Hts; [|done].
    exists (ts, e_id (se_event se), key). split; [done|]. apply list_elem_of_filter. split; [done|].
    apply elem_of_ordered_map, (ix_exp _ _ (rp_indexed _ _ _ Hr)). eauto.
Qed.

Lemma NoDup_due_keys t s now : represents t s → NoDup (due_keys t now).
Proof.
  intros Hr. unfold due_keys. apply NoDup_fmap_2_strong.
  - intros [[ts id] key] [[ts' id'] key'] [_ Hin%elem_of_ordered_map]%list_elem_of_filter
      [_ Hin'%elem_of_ordered_map]%list_elem_of_filter. simpl. intros ->.
    apply (ix_exp _ _ (rp_indexed _ _ _ Hr)) in Hin as (se & Hse & <- & Hts), Hin' as (se' & Hse' & <- & Hts').
    by simplify_eq.
  - apply NoDup_filter. eapply NoDup_fmap_1, NoDup_ordered_map_fst.
Qed.

(** The rows of the keys expired so far. *)
Definition keys_ids (rows : gmap EventKey StoredEvent) (keys : list EventKey) : list EventId :=
  omap (λ key, (λ se, e_id (se_event se)) <$> rows !! key) keys.

Definition keys_gone (rows : gmap EventKey StoredEvent) (keys : list EventKey) (p : EventId * StoredEvent) : Prop :=
  p.1 ∈ keys_ids rows keys.
#[global] Instance keys_gone_dec rows keys p : Decision (keys_gone rows keys p).
Proof. unfold keys_gone. apply _. Defined.

Lemma expire_step t s pre key se removed t1 :
  represents t s → key ∉ pre → cs_rows (t_canonical t) !! key = Some se →
  let gone := keys_gone (cs_rows (t_canonical t)) in
  represents t1 (with_rows s (filter (λ p, ¬ gone pre p) (st_rows s))) → frame t t1 →
  removed ≡ₚ (map_to_list (filter (gone pre) (st_rows s))).*2 →
  ∃ row t2, cs_load_by_key (t_canonical t1) key = Some (Some se) ∧
    remove_row t1 (e_id (se_event se)) (λ _, true) = Some (row, t2) ∧
    represents t2 (with_rows s (filter (λ p, ¬ gone (pre ++ [key]) p) (st_rows s))) ∧ frame t t2 ∧
    removed ++ option_list row ≡ₚ (map_to_list (filter (gone (pre ++ [key])) (st_rows s))).*2.
Proof.
  intros Hr Hnin Hse gone Hr1 Hf Hperm.
  assert (e_id (se_event se) ∉ keys_ids (cs_rows (t_canonical t)) pre) as Hfresh.
  { unfold keys_ids. intros (key' & Hin & (se' & Hse' & Heq)%fmap_Some_1)%list_elem_of_omap.
    apply Hnin. by rewrite (key_unique (t_canonical t) key key' se se') by (done || apply Hr). }
  assert (st_rows s !! e_id (se_event se) = Some se) as Hid by (apply (rp_rows _ _ _ Hr); eauto).
  assert (filter (λ p, ¬ gone pre p) (st_rows s) !! e_id (se_event se) = Some se) as Hid1
    by (by apply map_lookup_filter_Some).
  apply (rp_rows _ _ _ Hr1) in Hid1 as Hrow. destruct Hrow as (key' & Hse1 & _).
  assert (key' = key) as ->.
  { eapply key_unique; [apply Hr|by eapply lookup_weaken; [|apply Hf]|exact Hse|done]. }
  destruct (remove_row_spec durable t1 _ (e_id (se_event se)) (λ _, true) Hr1) as (t2 & Hrun & Hr2 & Hf2).
  destruct (filter_sweep (st_rows s) (gone pre) (gone (pre ++ [key])) (λ _, true) (e_id (se_event se)))
    as [Hrows Hsw].
  { intros k x _. subst gone. unfold keys_gone, keys_ids. simpl. rewrite omap_app, elem_of_app. simpl. rewrite Hse. simpl.
    rewrite list_elem_of_singleton. naive_solver. }
  eexists _, t2. rewrite cs_load_spec, Hse1 by apply Hr1. split; [done|]. split; [exact Hrun|].
  split_and!; [|by trans t1|by rewrite Hsw, Hperm].
  revert Hr2. simpl. by rewrite <-Hrows.
Qed.

Lemma expire_due_spec t s now :
  represents t s →
  ∃ removed t', expire_due t now = Some (removed, t') ∧ frame t t' ∧
    represents t' (with_rows s (filter (λ p, ¬ expired_by now p.2) (st_rows s))) ∧
    removed ≡ₚ (map_to_list (filter (λ p, expired_by now p.2) (st_rows s))).*2.
Proof.
  intros Hr. unfold expire_due.
  set (gone := keys_gone (cs_rows (t_canonical t))).
  destruct (foldl_option_ind (λ (acc : list StoredEvent * Txn C) event_key,
    let '(removed, t) := acc in
    found ← cs_load_by_key (t_canonical t) event_key;
    match found with
    | None => Some (removed, t)
    | Some stored =>
        '(row, t) ← remove_row t (e_id (se_event stored)) (λ _, true);
        Some (removed ++ option_list row, t)
    end)
    (λ pre acc, represents acc.2 (with_rows s (filter (λ p, ¬ gone pre p) (st_rows s))) ∧ frame t acc.2 ∧
       acc.1 ≡ₚ (map_to_list (filter (gone pre) (st_rows s))).*2)
    (due_keys t now) ([], t)) as ([removed t'] & Hrun & Hr' & Hf & Hperm).
  - split_and!; simpl; [|done|].
    + rewrite map_filter_id, with_rows_id; [done|]. intros i x _. subst gone. unfold keys_gone. set_solver.
    + rewrite map_empty_filter_2; [by rewrite map_to_list_empty|]. intros i x _. subst gone. unfold keys_gone. set_solver.
  - intros pre key post [removed t1] Hl (Hr1 & Hf1 & Hp1). simpl in Hr1, Hf1, Hp1.
    assert (key ∈ due_keys t now) as Hin by (rewrite Hl; set_solver).
    apply (elem_of_due_keys t s now key Hr) in Hin as (se & Hse & _).
    assert (key ∉ pre) as Hnin.
    { pose proof (NoDup_due_keys t s now Hr) as Hnd. rewrite Hl in Hnd. apply NoDup_app in Hnd as (_ & Hd & _).
      intros Hin. apply (Hd key Hin). set_solver. }
    destruct (expire_step t s pre key se removed t1) as (row & t2 & Hload & Hrm & Hr2 & Hf2 & Hp2); [done..|].
    rewrite Hload. simpl. rewrite Hrm. simpl. eexists. split; [done|]. by split_and!.
  - assert (∀ id se, st_rows s !! id = Some se → gone (due_keys t now) (id, se) ↔ expired_by now se) as Heq.
    { intros id se Hse. subst gone. unfold keys_gone, keys_ids. simpl. rewrite list_elem_of_omap. split.
      - intros (key & (se' & Hse' & Hexp)%(elem_of_due_keys t s now key Hr) & Hk). rewrite Hse' in Hk.
        injection Hk as Hk. assert (st_rows s !! id = Some se') by (apply (rp_rows _ _ _ Hr); eauto). congruence.
      - intros Hexp. apply (rp_rows _ _ _ Hr) in Hse as (key & Hse & Hid). exists key.
        split; [apply (elem_of_due_keys t s now key Hr); eauto|]. rewrite Hse. simpl. by rewrite Hid. }
    exists removed, t'. simpl in *. split_and!; [exact Hrun|done|..].
    + assert (filter (λ p, ¬ expired_by now p.2) (st_rows s) = filter (λ p, ¬ gone (due_keys t now) p) (st_rows s)) as ->
        by (apply map_filter_ext; intros id se Hse; simpl; by rewrite Heq). done.
    + assert (filter (λ p, expired_by now p.2) (st_rows s) = filter (gone (due_keys t now)) (st_rows s)) as ->
        by (apply map_filter_ext; intros id se Hse; simpl; by rewrite Heq). done.
Qed.
End insertion.
