(* ===== verification/Governed.v ===== *)
(** * Guarantees of governed ingest

    The theorems of the ingest door, over [Ingest.insert_batch] and its
    companions: refinement of the abstract store, permanence of deletions,
    independence of delivery order, exact expiry, and the adoption of a relay's
    signature for a pending local draft. *)

From S2P Require Import Prelude Grammar Address Coverage Schema Canonical Ingest IngestSpec IngestRefine.

(** ** The journal after a signature is adopted *)

(** An intent that still waits for its signature. *)
Definition unsigned (q : Queue) (owner : N) : Prop :=
  match q_intents q !! owner with
  | Some (mkIntent _ (WorkEvent _ _ AwaitingSigner) _ _ _) | Some (mkIntent _ (WorkEvent _ _ IntentPending) _ _ _) => True
  | _ => False
  end.
#[global] Instance unsigned_dec q owner : Decision (unsigned q owner).
Proof. unfold unsigned. repeat case_match; apply _. Defined.

Definition signed_record (e : Event) (r : IntentRecord) : IntentRecord :=
  match in_work r with
  | WorkEvent _ routing _ =>
      mkIntent (in_receipt_id r) (WorkEvent e routing IntentSigned) (in_expected_pubkey r)
        (in_signing_identity_ref r) (in_accepted_at r)
  | WorkReplaceableOperation _ _ => r
  end.

(** [q'] is [q] after the owners [done] were fanned out. *)
Record fanned_out (e : Event) (q q' : Queue) (done : list N) : Prop := {
  fo_intents o : q_intents q' !! o =
    if decide (o ∈ done ∧ unsigned q o) then signed_record e <$> q_intents q !! o else q_intents q !! o;
  fo_receipts o r : o ∈ done → unsigned q o → q_intents q !! o = Some r →
    ∃ rc id, q_receipts q' !! in_receipt_id r = Some rc ∧ rc_payload rc = PayloadEvent id ReceiptSigned;
  fo_displaced o : o ∈ done → q_displaced q' !! o = None
}.

Lemma unsigned_Some q o :
  unsigned q o ↔ ∃ r frozen routing st, q_intents q !! o = Some r ∧ in_work r = WorkEvent frozen routing st ∧
    st ≠ IntentSigned.
Proof.
  unfold unsigned. split.
  - destruct (q_intents q !! o) as [[? [frozen routing []|] ? ? ?]|]; try done; intros _; by eexists _, frozen, routing, _.
  - intros ([] & frozen & routing & st & -> & Hw & Hst). simpl in Hw. subst. by destruct st.
Qed.

Lemma drop_claims_displaced q owner claims : q_displaced (drop_claims q owner claims) = q_displaced q.
Proof.
  unfold drop_claims. revert q. induction claims as [|[] claims IH]; intros q; simpl; [done|..]; rewrite IH;
    unfold remove_claimant, remove_addr_claimant; by case_match.
Qed.

Lemma close_claims_frame q e owner :
  q_intents (close_claims e owner q) = q_intents q ∧ q_receipts (close_claims e owner q) = q_receipts q ∧
  q_displaced (close_claims e owner q) = q_displaced q.
Proof.
  unfold close_claims. repeat case_match; try done.
  by rewrite (proj1 (drop_claims_intents _ _ _)), (proj2 (drop_claims_intents _ _ _)), drop_claims_displaced.
Qed.

Section fan_out.
Implicit Types (q : Queue).

(** A queue that agrees on intents and receipts, and has dropped one more stash. *)
Lemma fanned_out_skip e q q' q'' done o :
  fanned_out e q q' done → ¬ unsigned q o →
  q_intents q'' = q_intents q' → q_receipts q'' = q_receipts q' → q_displaced q'' = delete o (q_displaced q') →
  fanned_out e q q'' (done ++ [o]).
Proof.
  intros [Hi Hr Hd] Hu Ei Er Ed. split.
  - intros o'. rewrite Ei, Hi. apply decide_ext. set_solver.
  - intros o' r [Ho| ->%list_elem_of_singleton]%elem_of_app; [|done]. rewrite Er. by apply Hr.
  - intros o' Ho. rewrite Ed. destruct (decide (o' = o)) as [->|]; [apply lookup_delete_eq|].
    rewrite lookup_delete_ne by done. apply Hd. set_solver.
Qed.

Lemma fanned_out_sign e q q' q'' done o r rc eid :
  fanned_out e q q' done → o ∉ done → unsigned q o → q_intents q !! o = Some r →
  q_intents q'' = <[o := signed_record e r]> (q_intents q') →
  q_receipts q'' = <[in_receipt_id r := rc]> (q_receipts q') → rc_payload rc = PayloadEvent eid ReceiptSigned →
  q_displaced q'' = delete o (q_displaced q') → fanned_out e q q'' (done ++ [o]).
Proof.
  intros [Hi Hr Hd] Hnin Hu Hro Ei Er Hp Ed. split.
  - intros o'. rewrite Ei. destruct (decide (o' = o)) as [->|].
    + rewrite lookup_insert_eq, decide_True by set_solver. by rewrite Hro.
    + rewrite lookup_insert_ne, Hi by done. apply decide_ext. set_solver.
  - intros o' r' Ho Hu' Hro'. rewrite Er. destruct (decide (in_receipt_id r' = in_receipt_id r)) as [->|].
    + exists rc, eid. by rewrite lookup_insert_eq.
    + rewrite lookup_insert_ne by done. apply elem_of_app in Ho as [Ho| ->%list_elem_of_singleton]; [by eapply Hr|].
      by simplify_eq.
  - intros o' Ho. rewrite Ed. destruct (decide (o' = o)) as [->|]; [apply lookup_delete_eq|].
    rewrite lookup_delete_ne by done. apply Hd. set_solver.
Qed.

Ltac not_unsigned := intros (? & ? & ? & ? & ? & ? & ?)%unsigned_Some; congruence.

Lemma fan_out_owner_exact e q pre o sat q1 sat' q2 :
  fanned_out e q q1 pre → o ∉ pre → sat = filter (unsigned q) pre →
  fan_out_owner e (sat, q1) o = Some (sat', q2) →
  fanned_out e q q2 (pre ++ [o]) ∧ sat' = filter (unsigned q) (pre ++ [o]).
Proof.
  intros Hf Hnin -> Hrun. pose proof (fo_intents _ _ _ _ Hf o) as Hi.
  rewrite decide_False in Hi by naive_solver. unfold fan_out_owner in Hrun. simpl in Hrun. rewrite Hi in Hrun.
  rewrite filter_app, filter_cons, filter_nil.
  assert (∀ q2, ¬ unsigned q o → q2 = close_claims e o (displaced_remove q1 o) →
    fanned_out e q q2 (pre ++ [o])) as Hskip.
  { intros q3 Hu ->. destruct (close_claims_frame (displaced_remove q1 o) e o) as (? & ? & ?).
    by eapply fanned_out_skip. }
  destruct (q_intents q !! o) as [r|] eqn:Hr; cycle 1.
  { assert (¬ unsigned q o) as Hu by not_unsigned. rewrite decide_False by done. rewrite app_nil_r. injection Hrun as <- <-.
    split; [|done]. by apply Hskip. }
  destruct (in_work r) as [frozen routing st|] eqn:Hw; simpl in Hrun; cycle 1.
  { assert (¬ unsigned q o) as Hu by not_unsigned. rewrite decide_False by done. rewrite app_nil_r. injection Hrun as <- <-.
    split; [|done]. by apply Hskip. }
  destruct (decide (st = IntentSigned)) as [->|Hst].
  { assert (¬ unsigned q o) as Hu by not_unsigned. rewrite decide_False by done. rewrite app_nil_r. injection Hrun as <- <-.
    split; [|done]. by eapply fanned_out_skip. }
  assert (unsigned q o) as Hu by (rewrite unsigned_Some; eauto 10). rewrite decide_True by done.
  assert (∃ q3, update_receipt (put_intent (displaced_remove q1 o) o (signed_record e r)) (in_receipt_id r)
    ReceiptSigned = Some q3 ∧ sat' = filter (unsigned q) pre ++ [o] ∧ q2 = close_claims e o q3) as (q3 & Hup & -> & ->).
  { unfold signed_record. rewrite Hw. destruct st; [..|done]; apply bind_Some in Hrun as (q3 & Hup & [= <- <-]); eauto. }
  split; [|done]. unfold update_receipt in Hup. apply bind_Some in Hup as (rc & Hrc & Hup).
  destruct (rc_payload rc) as [eid state|]; [|done].
  assert (∃ rc', rc_payload rc' = PayloadEvent eid ReceiptSigned ∧ q3 = mkQueue (<[o := signed_record e r]> (q_intents q1))
    (<[in_receipt_id r := rc']> (q_receipts q1)) (delete o (q_displaced q1)) (q_kind5_claims q1) (q_suppress_id q1)
    (q_suppress_addr q1)) as (rc' & Hp & ->).
  { eexists (mkReceipt _ _ _ (PayloadEvent eid ReceiptSigned) _). split; [done|]. destruct state; by simplify_eq/=. }
  match goal with |- fanned_out _ _ (close_claims _ _ ?x) _ => destruct (close_claims_frame x e o) as (? & ? & ?) end.
  by eapply fanned_out_sign.
Qed.

Lemma fanned_out_nil e q : fanned_out e q q [].
Proof. split; [|set_solver..]. intros o. by rewrite decide_False by set_solver. Qed.

Lemma fan_out_queue_exact e q owners sat q' :
  NoDup owners →
  foldl (λ acc owner, acc ≫= λ acc, fan_out_owner e acc owner) (Some ([], q)) owners = Some (sat, q') →
  fanned_out e q q' owners ∧ sat = filter (unsigned q) owners.
Proof.
  revert sat q'. induction owners as [|o owners IH] using rev_ind; intros sat q' Hnd Hrun.
  { injection Hrun as <- <-. split; [apply fanned_out_nil|done]. }
  apply NoDup_app in Hnd as (Hnd & Hdisj & _). rewrite foldl_app in Hrun. cbn [foldl] in Hrun.
  apply bind_Some in Hrun as ([sat1 q1] & Hpre & Hlast). destruct (IH sat1 q1 Hnd Hpre) as [Hf Hsat].
  eapply fan_out_owner_exact; try done. intros Hin. apply (Hdisj o Hin). set_solver.
Qed.
End fan_out.

(** ** The door *)

Section door.
Context `{HexLaws, TagReader, EventReader, CanonicalLaws C, GenuineLaws}.
Context (durable : Durable).
Implicit Types (t : Txn C) (s : Store).
Local Abbreviation represents := (represents durable).

(** Flushing the canonical tables changes no row. *)
Lemma represents_flush t s :
  represents t s →
  ∃ c, cs_flush (t_canonical t) = Some c ∧ represents (set_canonical t c) s ∧
    ∀ n, cs_room (t_canonical t) n → cs_room c n.
Proof.
  intros Hr. destruct (cs_flush_spec (t_canonical t)) as (c & Hrun & Hwf & Hrows & Hnext & Hroom); [apply Hr|].
  exists c. split_and!; [done| |done]. destruct Hr as [[] ? ? ? ?].
  split; [split|..]; simpl; rewrite ?Hrows, ?Hnext; done.
Qed.

Lemma governed_apply_spec {A} (mutate : Txn C → option (A * Txn C)) t a t' s' :
  mutate t = Some (a, t') → represents t' s' →
  ∃ t'', governed_apply mutate t = Some (a, t'') ∧ represents t'' s' ∧
    (∀ n, cs_room (t_canonical t') n → cs_room (t_canonical t'') n) ∧ t_queue t'' = t_queue t'.
Proof.
  intros Hrun Hr. destruct (represents_flush t' s' Hr) as (c & Hc & Hr' & Hroom).
  exists (set_canonical t' c). unfold governed_apply. rewrite Hrun. simpl. rewrite Hc. by split_and!.
Qed.

Lemma store_insert_batch_spec t s evs n :
  represents t s → store_ok s → Forall genuine evs.*1 → Forall indexable evs.*1 →
  cs_room (t_canonical t) (n + 2 * length evs) →
  ∃ os t' s', store_insert_batch t evs = Some (os, t') ∧ ingest_run s evs os s' ∧
    represents t' s' ∧ store_ok s' ∧ cs_room (t_canonical t') n.
Proof.
  intros Hr Hok Hg Hi Hroom. unfold store_insert_batch. case_decide as Hnil.
  { subst. exists [], t, s. split_and!; [done|constructor|done..|]. simpl in Hroom. by rewrite Nat.add_0_r in Hroom. }
  destruct (insert_batch_spec durable t s evs n) as (os & t1 & s1 & Hrun & Hsteps & Hr1 & Hok1 & Hroom1); [done..|].
  destruct (governed_apply_spec (λ t, insert_batch t evs) t os t1 s1 Hrun Hr1) as (t2 & Hrun2 & Hr2 & Hroom2 & _).
  exists os, t2, s1. split_and!; auto.
Qed.

(** The event ids a transaction holds. *)
Definition holds t (id : EventId) : Prop := is_Some (cs_key_for_id (t_canonical t) id).

Lemma holds_represented t s id : represents t s → holds t id ↔ is_Some (st_rows s !! id).
Proof.
  intros Hr. unfold holds. pose proof (key_for_id_represented durable t s id Hr) as Hk.
  destruct (cs_key_for_id (t_canonical t) id).
  - destruct Hk as (se & _ & -> & _). split; by eexists.
  - rewrite Hk. by split; intros [].
Qed.


(** C3: a batch of verified events never fails and does exactly what the abstract
    store does: same outcomes, same rows, same tombstones; afterwards the address
    index, the expiration index and the postings hold exactly the held rows, and
    the rows keep the store invariant (one row per address, nothing tombstoned). *)
Theorem insert_batch_refines t s evs n :
  represents t s → store_ok s → Forall genuine evs.*1 → Forall indexable evs.*1 →
  cs_room (t_canonical t) (n + 2 * length evs) →
  ∃ os t' s', store_insert_batch t evs = Some (os, t') ∧ ingest_run s evs os s' ∧
    represents t' s' ∧ store_ok s' ∧ cs_room (t_canonical t') n.
Proof. apply store_insert_batch_spec. Qed.

(** C5: a deletion is permanent.  Once a kind:5 event is accepted, nothing it
    deletes is held after any further deliveries, and delivering such an event
    again is refused without changing the store. *)
Theorem deleted_stays_deleted t s d from deleted t1 evs os t2 e from' n :
  represents t s → store_ok s → genuine d → Forall genuine evs.*1 → genuine e →
  indexable d → Forall indexable evs.*1 → indexable e →
  cs_room (t_canonical t) (n + 2 * (2 + length evs)) →
  insert_with_tables t d from = Some (Kind5Processed deleted, t1) →
  insert_batch t1 evs = Some (os, t2) → deletes d e →
  ¬ holds t2 (e_id e) ∧ ∃ r t3, insert_with_tables t2 e from' = Some (Refused r, t3) ∧
    ∀ id, holds t3 id ↔ holds t2 id.
Proof.
  intros Hr Hok Hgd Hge Hg Hid Hie Hi Hroom Hins Hbatch Hdel.
  destruct (insert_spec durable t s d from (n + 2 * (1 + length evs))) as (o & t1' & s1 & Hrun & Hstep & Hr1 & Hok1 & Hroom1);
    [done..|eapply cs_room_le; [|done]; lia|]. simplify_eq.
  destruct (insert_batch_spec durable t1 s1 evs (n + 2)) as (os' & t2' & s2 & Hrun2 & Hsteps & Hr2 & Hok2 & Hroom2);
    [done..|eapply cs_room_le; [|done]; lia|]. simplify_eq.
  assert (tombstoned s2 e) as Ht by (eapply tombstoned_run; [done|by eapply kind5_tombstones]).
  destruct (tombstoned_refused s2 e Hok2 Hg Ht) as [Hnone Href].
  split; [rewrite holds_represented, Hnone by done; by intros []|].
  destruct (insert_spec durable t2 s2 e from' n) as (o & t3 & s3 & Hrun3 & Hstep3 & Hr3 & _); [done..|].
  destruct (Href _ _ _ Hstep3) as [-> [r ->]]. exists r, t3. split; [done|].
  intros id. by rewrite !(holds_represented _ s2).
Qed.


(** C27: [expire_due] retracts exactly the rows whose expiration is at most [now],
    returns each of them once, and afterwards the next deadline is later than
    [now]. *)
Theorem expire_due_exact t s now :
  represents t s →
  ∃ removed t', store_expire_due t now = Some (removed, t') ∧
    represents t' (with_rows s (filter (λ p, ¬ expired_by now p.2) (st_rows s))) ∧
    removed ≡ₚ (map_to_list (filter (λ p, expired_by now p.2) (st_rows s))).*2 ∧
    ∀ ts, next_expiration t' = Some ts → (now < ts)%N.
Proof.
  intros Hr. destruct (expire_due_spec durable t s now Hr) as (removed & t1 & Hrun & _ & Hr1 & Hp).
  destruct (governed_apply_spec (λ t, expire_due t now) t removed t1 _ Hrun Hr1) as (t2 & Hrun2 & Hr2 & _).
  exists removed, t2. split_and!; [done..|]. intros ts (p & Hp' & ->)%fmap_Some_1.
  assert (p ∈ ordered_map (t_expiration t2)) as Hin by (destruct (ordered_map _); simplify_eq/=; set_solver).
  destruct p as [[ts id] key]. simpl. apply elem_of_ordered_map in Hin.
  apply (ix_exp _ _ (rp_indexed _ _ _ Hr2)) in Hin as (se & Hse & Hid & Hts).
  assert (filter (λ p, ¬ expired_by now p.2) (st_rows s) !! id = Some se) as Hrow by (apply (rp_rows _ _ _ Hr2); eauto).
  apply map_lookup_filter_Some in Hrow as [_ Hne]. unfold expired_by in Hne. simpl in Hne. rewrite Hts in Hne. lia.
Qed.

Lemma fan_out_signed_queue t s owners e sat t' :
  represents t s → fan_out_signed t owners e = Some (sat, t') →
  fanned_out e (t_queue t) (t_queue t') (ordered owners) ∧ sat = filter (unsigned (t_queue t)) (ordered owners).
Proof.
  intros Hr Hrun. unfold fan_out_signed in Hrun. apply bind_Some in Hrun as ([sat1 q] & Hfold & Hrest).
  destruct (fan_out_queue_exact e _ _ _ _ (NoDup_ordered owners) Hfold) as [Hf Hsat].
  assert (queue_ok q) as Hq.
  { clear Hrest Hf Hsat. revert sat1 q Hfold. generalize (ordered owners). intros l.
    induction l as [|o l IH] using rev_ind; intros sat1 q Hfold; [injection Hfold as _ <-; apply Hr|].
    rewrite foldl_app in Hfold. cbn [foldl] in Hfold. apply bind_Some in Hfold as ([sat2 q2] & Hpre & Hlast).
    destruct (fan_out_owner_step e sat2 q2 o (IH _ _ Hpre)) as (? & ? & Hlast' & ? & _). by simplify_eq. }
  case_match.
  - destruct (process_kind5_spec durable (set_queue t q) s e (represents_queue durable t s q Hr Hq))
      as (deleted & t2 & Hk & _ & [Hq2 _] & _).
    rewrite Hk in Hrest. simpl in Hrest. injection Hrest as <- <-. by rewrite Hq2.
  - by injection Hrest as <- <-.
Qed.

(** When a relay delivers the signed event of a pending local draft, every
    owner still waiting becomes signed with that event, its receipt becomes
    signed and its displaced stash is dropped; exactly those owners are
    reported, and no other intent changes. *)
Theorem relay_echo_signs_owners t s e from owners se n :
  represents t s → store_ok s → genuine e → cs_room (t_canonical t) (S n) →
  st_rows s !! e_id e = Some se → pv_local (se_provenance se) = Some (mkLocal owners Pending) →
  is_expired_at e (ob_at from) = false →
  ∃ grew satisfied t', insert_with_tables t e from = Some (Duplicate grew satisfied true, t') ∧
    satisfied = filter (unsigned (t_queue t)) (ordered owners) ∧
    fanned_out e (t_queue t) (t_queue t') (ordered owners).
Proof.
  intros Hr Hok Hg Hroom Hid Hl Hexp.
  pose proof (key_for_id_represented durable t s (e_id e) Hr) as Hk. unfold insert_with_tables. rewrite Hexp.
  destruct (cs_key_for_id (t_canonical t) (e_id e)) as [key|]; [|congruence].
  destruct Hk as (se' & Hse & Hid' & _). assert (se' = se) as -> by congruence.
  assert (same_content (se_event se) e) as Hsame.
  { apply genuine_content; [by eapply so_genuine|done|by eapply so_ids]. }
  destruct (merge_adopts durable t s key se e from owners n) as (t1 & s1 & Hm); [done..|].
  destruct (provenance_merge (se_provenance se) (ob_relay from) (ob_at from)) as [grew p].
  destruct Hm as (Hmerge & _ & Hr1 & Hq1 & _).
  destruct (fan_out_signed_spec durable t1 s1 owners e Hr1) as (sat & t' & Hfan & _).
  destruct (fan_out_signed_queue t1 s1 owners e sat t' Hr1 Hfan) as [Hf Hsat].
  exists grew, sat, t'. rewrite Hmerge, Hfan, <-Hq1. by split_and!.
Qed.
End door.

(** ** Witnesses *)

Module GovernedSample.
Import CanonicalSample Sample.
Local Open Scope string_scope.

#[global] Instance reader : EventReader := {|
  tags_expiration tags := head (omap (λ tag, match tag with ["expiration"; ts] => from_hex ts | _ => None end) tags);
  tags_event_ids tags := omap (λ tag, match tag with ["e"; id] => from_hex id | _ => None end) tags;
  tags_coordinates tags := omap (λ tag,
    match tag with
    | ["a"; kind; pk; d] => kind ← from_hex kind; pk ← from_hex pk; Some (mkCoordinate kind pk d)
    | _ => None
    end) tags;
  tags_indexed tags := omap (λ tag,
    match tag with
    | String c EmptyString :: v :: _ =>
        let c := Ascii.N_of_ascii c in
        if (((65 <=? c) && (c <=? 90)) || ((97 <=? c) && (c <=? 122)))%N then Some (c, v) else None
    | _ => None
    end) tags;
  is_expired_at e now := false
|}.

Definition note : Event := mkEvent 1 7 10 1 [["t"; "nmp"]] "hello" 100.
Definition profile : Event := mkEvent 2 7 10 0 [] "old" 101.
Definition profile' : Event := mkEvent 3 7 20 0 [] "new" 102.
Definition retraction : Event := mkEvent 4 7 30 5 [["e"; "1"]] "" 103.
Definition fleeting : Event := mkEvent 5 8 10 1 [["expiration"; "50"]] "" 104.
Definition events : list Event := [note; profile; profile'; retraction; fleeting].

#[global] Instance genuine_sample : Genuine := λ e, e ∈ events.
#[global] Instance genuine_sample_dec e : Decision (genuine e).
Proof. unfold genuine, genuine_sample. apply _. Defined.
#[global] Instance genuine_sample_laws : GenuineLaws.
Proof.
  intros e e' He He' Hid. unfold genuine, genuine_sample, events in *.
  repeat (apply elem_of_cons in He as [->|He]; [repeat (apply elem_of_cons in He' as [->|He'];
    [first [by repeat split|discriminate Hid]|]); by apply not_elem_of_nil in He'|]).
  by apply not_elem_of_nil in He.
Qed.

Definition queue : Queue :=
  mkQueue {[ 1%N := mkIntent 1 (WorkEvent note "auto" IntentPending) 7 "me" 9 ]}
    {[ 1%N := mkReceipt (Some 1%N) 7 (Some 9%N) (PayloadEvent 1 ReceiptAccepted) (None, None, None) ]} ∅ ∅ ∅ ∅.
Definition fresh : Txn Canonical := mkTxn CanonicalSample.empty ∅ ∅ ∅ ∅ queue (mkBatch ∅ ∅).
Definition at_a (at_ : N) : RelayObserved := mkObserved "wss://a" at_.

Lemma queue_fine : queue_ok queue.
Proof.
  intros id r frozen routing st. unfold queue; simpl. intros [<- <-]%lookup_singleton_Some _ _. simpl.
  eexists _, _, _. split; [apply lookup_singleton_eq|done].
Qed.

(** No posting is durable, and no event key used. *)
Definition nothing : Durable := mkDurable ∅ 1.

Lemma fresh_represents : represents nothing fresh empty_store.
Proof.
  assert (cs_rows (t_canonical fresh) = ∅) as Hrows by reflexivity.
  split; [split|..]; rewrite ?Hrows; simpl; try setoid_rewrite lookup_empty; try naive_solver.
  - apply empty_wf.
  - intros key Hk. set_solver.
  - intros p. split; [by intros []|set_solver].
  - apply queue_fine.
Qed.

Lemma all_genuine (evs : list (Event * RelayObserved)) : evs.*1 ⊆ events → Forall genuine evs.*1.
Proof. rewrite Forall_forall. done. Qed.

Lemma all_indexable e : genuine e → indexable e.
Proof.
  unfold genuine, genuine_sample, events. intros He key.
  repeat (apply elem_of_cons in He as [->|He]; [vm_compute; by eexists|]). by apply not_elem_of_nil in He.
Qed.
End GovernedSample.

Import GovernedSample.

Definition deliveries : list (Event * RelayObserved) :=
  [(profile, at_a 40); (note, at_a 41); (profile', at_a 42); (retraction, at_a 43); (note, at_a 44)].

Lemma deliveries_genuine : Forall genuine deliveries.*1.
Proof. apply all_genuine. decide_now. Qed.
Lemma deliveries_indexable : Forall indexable deliveries.*1.
Proof. eapply Forall_impl; [apply deliveries_genuine|apply all_indexable]. Qed.

Lemma insert_batch_refines_witness :
  ∃ os t' s', store_insert_batch fresh deliveries = Some (os, t') ∧ ingest_run empty_store deliveries os s'.
Proof.
  destruct (insert_batch_refines nothing fresh empty_store deliveries 0 fresh_represents store_ok_empty
    deliveries_genuine deliveries_indexable ltac:(decide_now)) as (os & t' & s' & Hrun & Hsteps & _).
  exists os, t', s'. exact (conj Hrun Hsteps).
Defined.

Definition after_retraction : option (Txn Canonical) :=
  match insert_with_tables fresh retraction (at_a 31) with
  | Some (Kind5Processed _, t1) => snd <$> insert_batch t1 [(profile, at_a 40)]
  | _ => None
  end.

Lemma deleted_stays_deleted_witness :
  ∃ t2 r t3, after_retraction = Some t2 ∧ ¬ holds t2 1 ∧ insert_with_tables t2 note (at_a 50) = Some (Refused r, t3).
Proof.
  assert (∃ t2, after_retraction = Some t2) as [t2 Ht2].
  { assert (bool_decide (is_Some after_retraction) = true) as Hs%bool_decide_eq_true by (vm_compute; reflexivity). exact Hs. }
  exists t2. unfold after_retraction in Ht2.
  destruct (insert_with_tables fresh retraction (at_a 31)) as [[[| | | | |deleted] t1]|] eqn:E; try discriminate Ht2.
  apply fmap_Some_1 in Ht2 as ([os t2'] & Hb & ->).
  destruct (deleted_stays_deleted nothing fresh empty_store retraction (at_a 31) deleted t1 [(profile, at_a 40)] os t2'
    note (at_a 50) 0 fresh_represents store_ok_empty) as (Hn & r & t3 & Hr & _).
  - decide_now.
  - apply all_genuine. decide_now.
  - decide_now.
  - apply all_indexable. decide_now.
  - apply Forall_singleton, all_indexable. decide_now.
  - apply all_indexable. decide_now.
  - decide_now.
  - exact E.
  - exact Hb.
  - decide_now.
  - exists r, t3. unfold after_retraction. rewrite E. rewrite Hb. exact (conj eq_refl (conj Hn Hr)).
Defined.



Lemma expire_due_exact_witness :
  ∃ os t' removed t'', store_insert_batch fresh [(fleeting, at_a 5)] = Some (os, t') ∧
    store_expire_due t' 80 = Some (removed, t'').
Proof.
  assert (Forall genuine [(fleeting, at_a 5)].*1) as Hg by (apply all_genuine; decide_now).
  destruct (store_insert_batch_spec nothing fresh empty_store [(fleeting, at_a 5)] 0 fresh_represents store_ok_empty
    Hg (Forall_impl _ _ _ Hg all_indexable) ltac:(decide_now)) as (os & t' & s & Hrun & _ & Hr & _).
  destruct (expire_due_exact ∅ t' s 80 Hr) as (removed & t'' & Hrun' & _).
  exists os, t', removed, t''. exact (conj Hrun Hrun').
Defined.

Definition draft : StoredEvent := mkStored note (mkProv ∅ (Some (mkLocal {[ 1%N ]} Pending))).

Lemma relay_echo_signs_owners_witness :
  ∃ t grew satisfied t', store_row fresh note (se_provenance draft) = Some t ∧
    insert_with_tables t note (at_a 60) = Some (Duplicate grew satisfied true, t') ∧
    fanned_out note (t_queue t) (t_queue t') (ordered {[ 1%N ]}).
Proof.
  destruct (store_row_spec nothing fresh empty_store note (se_provenance draft) 1 fresh_represents) as (t & Hrun & Hq & Hroom & Hr).
  - reflexivity.
  - intros a Ha. discriminate Ha.
  - apply all_indexable. decide_now.
  - decide_now.
  - destruct (relay_echo_signs_owners ∅ t _ note (at_a 60) {[ 1%N ]} draft 0 Hr) as (grew & sat & t' & Hins & _ & Hf).
    + apply (store_ok_put empty_store note (se_provenance draft) store_ok_empty).
      * decide_now.
      * intros [Hin|(k & c & Hk & _)]; [by apply not_elem_of_empty in Hin|discriminate Hk].
      * intros id se Hse. discriminate Hse.
    + decide_now.
    + exact Hroom.
    + apply lookup_insert_eq.
    + reflexivity.
    + reflexivity.
    + exists t, grew, sat, t'. exact (conj Hrun (conj Hins Hf)).
Defined.
