(* ===== verification/QueueBytes.v ===== *)
(** * Publish-queue byte streams

    The [Encoder] and [Decoder] of
    [crates/nmp-store/src/redb_store/publish_queue_codec.rs] and the keys of the
    publish-queue tables.

    An [Encoder] only appends, so an encoding function is the bytes it appends
    or its error.  A [Decoder]'s state is the bytes after its cursor.  A
    [Format] relates a decoder to the encodings it accepts: it reads each one
    back, whatever follows, and accepts nothing else. *)

From S2P Require Import Prelude Grammar Schema.

Inductive CodecError :=
  | Truncated | BadMagic | UnsupportedVersion (v : N) | InvalidReserved
  | InvalidTag (what : string) (tag : N) | InvalidUtf8 | InvalidRelay | NonCanonicalRelay
  | InvalidPublicKey | InvalidEvent | InvalidValue (what : string) | TrailingBytes
  | LengthOverflow | BoundExceeded (what : string).

#[global] Instance CodecError_eq_dec : EqDecision CodecError.
Proof. solve_decision. Defined.

Definition Result (A : Type) : Type := CodecError + A.
#[global] Instance result_ret : MRet Result := λ A x, inr x.
#[global] Instance result_bind : MBind Result := λ A B f m,
  match m with inl e => inl e | inr x => f x end.

Definition max_relay_bytes : N := 4096.
Definition max_text_bytes : N := 65536.
Definition max_reason_bytes : N := 4096.
Definition max_route_relays : N := 4096.
Definition max_suppression_claims : N := 65536.

(** Whether a byte string is well-formed UTF-8, as [std::str::from_utf8] decides. *)
Definition continuation (b : N) : bool := (128 <=? b)%N && (b <=? 191)%N.
Definition byte_within (lo b hi : N) : bool := (lo <=? b)%N && (b <=? hi)%N.

Fixpoint utf8_valid (bs : bytes) : bool :=
  match bs with
  | [] => true
  | b0 :: r0 =>
      if (b0 <=? 127)%N then utf8_valid r0
      else match r0 with
      | [] => false
      | b1 :: r1 =>
          if byte_within 194 b0 223 then continuation b1 && utf8_valid r1
          else match r1 with
          | [] => false
          | b2 :: r2 =>
              if byte_within 224 b0 239 then
                byte_within (if (b0 =? 224)%N then 160 else 128) b1 (if (b0 =? 237)%N then 159 else 191)
                && continuation b2 && utf8_valid r2
              else match r2 with
              | [] => false
              | b3 :: r3 =>
                  byte_within 240 b0 244
                  && byte_within (if (b0 =? 240)%N then 144 else 128) b1 (if (b0 =? 244)%N then 143 else 191)
                  && continuation b2 && continuation b3 && utf8_valid r3
              end
          end
      end
  end.

(** ** The encoder *)

Definition value_version : N := 1.
Definition header_len : nat := 8.

Definition enc_new (magic : bytes) : bytes := magic ++ [value_version] ++ [0; 0; 0]%N.

Definition enc_bytes (value : bytes) (bound : N) (name : string) : Result bytes :=
  let len := N.of_nat (length value) in
  if (bound <? len)%N then inl (BoundExceeded name)
  else if (len <? 2 ^ 32)%N then inr (be_bytes 4 len ++ value)
  else inl LengthOverflow.

Definition enc_text (value : string) (bound : N) (name : string) : Result bytes :=
  enc_bytes (as_bytes value) bound name.

Definition enc_optional_text (value : option string) (bound : N) (name : string) : Result bytes :=
  match value with
  | None => inr [0%N]
  | Some value => rest ← enc_text value bound name; mret (1%N :: rest)
  end.

(** ** The decoder *)

Definition Decoder (A : Type) : Type := bytes → Result (A * bytes).
#[global] Instance decoder_ret : MRet Decoder := λ A x bs, inr (x, bs).
#[global] Instance decoder_bind : MBind Decoder := λ A B f d bs,
  match d bs with inl e => inl e | inr (x, rest) => f x rest end.

Definition dec_err {A} (e : CodecError) : Decoder A := λ _, inl e.

(** [Decoder::new], which leaves the cursor after the header. *)
Definition dec_new (bs magic : bytes) : Result bytes :=
  if length bs <? header_len then inl Truncated
  else if decide (take 4 bs ≠ magic) then inl BadMagic
  else if decide (bs !! 4 ≠ Some value_version) then inl (UnsupportedVersion (default 0%N (bs !! 4)))
  else if decide (take 3 (drop 5 bs) ≠ [0; 0; 0]%N) then inl InvalidReserved
  else inr (drop header_len bs).

Definition dec_take (len : N) : Decoder bytes := λ bs,
  if (len <=? N.of_nat (length bs))%N then inr (take (N.to_nat len) bs, drop (N.to_nat len) bs)
  else inl Truncated.

(** [u8], [u16], [u32] and [u64] are [dec_uint] at 1, 2, 4 and 8 bytes. *)
Definition dec_uint (width : N) : Decoder N := bs ← dec_take width; mret (from_be_bytes bs).

Definition dec_u8 : Decoder N := dec_uint 1.
Definition dec_u16 : Decoder N := dec_uint 2.
Definition dec_u32 : Decoder N := dec_uint 4.
Definition dec_u64 : Decoder N := dec_uint 8.

Definition dec_bytes (bound : N) (name : string) : Decoder bytes :=
  len ← dec_u32;
  if (bound <? len)%N then dec_err (BoundExceeded name) else dec_take len.

Definition string_of_bytes (bs : bytes) : string := String.string_of_list_ascii (Ascii.ascii_of_N <$> bs).

Definition dec_text (bound : N) (name : string) : Decoder string :=
  bs ← dec_bytes bound name;
  if utf8_valid bs then mret (string_of_bytes bs) else dec_err InvalidUtf8.

Definition dec_optional_text (bound : N) (name : string) : Decoder (option string) :=
  tag ← dec_u8;
  match tag with
  | 0%N => mret None
  | 1%N => text ← dec_text bound name; mret (Some text)
  | other => dec_err (InvalidTag "optional text" other)
  end.

(** [PublicKey::from_slice]: the 32 bytes of a key, or a refusal. *)
Class PublicKeyReader := pk_from_slice : bytes → option PublicKey.
Class PublicKeyReaderLaws `{PublicKeyReader} : Prop := {
  pk_from_slice_bytes (bs : bytes) (pk : PublicKey) : pk_from_slice bs = Some pk → bs = be_bytes 32 pk
}.

Definition dec_public_key `{PublicKeyReader} : Decoder PublicKey :=
  bs ← dec_take 32;
  match pk_from_slice bs with Some pk => mret pk | None => dec_err InvalidPublicKey end.

Definition dec_event_id : Decoder EventId := dec_uint 32.

(** [decoder.finish()] after [d]. *)
Definition dec_finish {A} (d : Decoder A) (bs : bytes) : Result A :=
  '(x, rest) ← d bs;
  match rest with [] => mret x | _ => inl TrailingBytes end.

(** A whole value: its header, its body and nothing after it. *)
Definition decode_value {A} (magic : bytes) (d : Decoder A) (bs : bytes) : Result A :=
  body ← dec_new bs magic; dec_finish d body.

(** [for _ in 0..count { v.push(d?) }]. *)
Fixpoint dec_count {A} (d : Decoder A) (count : nat) : Decoder (list A) :=
  match count with
  | O => mret []
  | S count => x ← d; l ← dec_count d count; mret (x :: l)
  end.

(** ** Formats *)

Definition is_bytes (bs : bytes) : Prop := Forall (λ b, b < 256)%N bs.

Class Format {A} (d : Decoder A) (spelled : A → bytes → Prop) : Prop := {
  format_reads (x : A) (frag rest : bytes) : spelled x frag → d (frag ++ rest) = inr (x, rest);
  format_exact (bs : bytes) (x : A) (rest : bytes) :
    is_bytes bs → d bs = inr (x, rest) → ∃ frag, bs = frag ++ rest ∧ spelled x frag
}.
#[global] Hint Mode Format ! ! - : typeclass_instances.

Lemma bind_reads {A B} (d : Decoder A) (k : A → Decoder B) {P} `{!Format d P} x frag rest :
  P x frag → (d ≫= k) (frag ++ rest) = k x rest.
Proof. intros HP. unfold mbind, decoder_bind. by rewrite (format_reads x frag rest HP). Qed.

Lemma bind_inr {A B} (d : Decoder A) (k : A → Decoder B) bs y rest :
  (d ≫= k) bs = inr (y, rest) → ∃ x mid, d bs = inr (x, mid) ∧ k x mid = inr (y, rest).
Proof. unfold mbind, decoder_bind. destruct (d bs) as [|[x mid]] eqn:E; [done|]. eauto. Qed.

Lemma result_bind_inr {A B} (m : Result A) (k : A → Result B) y :
  m ≫= k = inr y → ∃ x, m = inr x ∧ k x = inr y.
Proof. destruct m as [|x]; [done|]. exists x. done. Qed.

Lemma is_bytes_app bs cs : is_bytes (bs ++ cs) ↔ is_bytes bs ∧ is_bytes cs.
Proof. apply Forall_app. Qed.

Lemma from_be_bytes_snoc bs b : from_be_bytes (bs ++ [b]) = (from_be_bytes bs * 256 + b)%N.
Proof. unfold from_be_bytes. by rewrite foldl_app. Qed.

(** A byte string is the big-endian spelling of the number it reads as. *)
Lemma be_from_bytes bs :
  is_bytes bs →
  be_bytes (length bs) (from_be_bytes bs) = bs ∧ (from_be_bytes bs < 256 ^ N.of_nat (length bs))%N.
Proof.
  induction bs as [|b bs IH] using rev_ind; [done|].
  intros [Hbs Hb]%is_bytes_app. apply (Forall_inv (P:=λ b, b < 256)%N) in Hb. destruct (IH Hbs) as [IH1 IH2].
  rewrite length_app, Nat.add_comm, from_be_bytes_snoc. cbn [length Nat.add].
  assert ((from_be_bytes bs * 256 + b) / 256 = from_be_bytes bs ∧
          (from_be_bytes bs * 256 + b) mod 256 = b)%N as [Hd Hm].
  { split; symmetry; [apply (N.div_unique _ _ _ b)|apply (N.mod_unique _ _ (from_be_bytes bs))]; lia. }
  split.
  - change (be_bytes (S ?w) ?n) with (be_bytes w (n / 256) ++ [n mod 256])%N. by rewrite Hd, Hm, IH1.
  - rewrite Nat2N.inj_succ, N.pow_succ_r'. lia.
Qed.

Lemma is_bytes_be w n : is_bytes (be_bytes w n).
Proof.
  revert n. induction w as [|w IH]; intros n; [constructor|].
  change (be_bytes (S w) n) with (be_bytes w (n / 256) ++ [n mod 256])%N.
  apply is_bytes_app. split; [apply IH|]. constructor; [by apply N.mod_lt|done].
Qed.

Lemma is_bytes_as_bytes s : is_bytes (as_bytes s).
Proof. unfold as_bytes. apply Forall_fmap, Forall_true. intros a. apply Ascii.N_ascii_bounded. Qed.

Lemma string_of_as_bytes s : string_of_bytes (as_bytes s) = s.
Proof.
  unfold string_of_bytes, as_bytes. rewrite <-list_fmap_compose, (list_fmap_ext _ id), list_fmap_id.
  - apply String.string_of_list_ascii_of_string.
  - intros i x _. apply Ascii.ascii_N_embedding.
Qed.

Lemma as_string_of_bytes bs : is_bytes bs → as_bytes (string_of_bytes bs) = bs.
Proof.
  intros Hbs. unfold string_of_bytes, as_bytes. rewrite String.list_ascii_of_string_of_list_ascii.
  rewrite <-list_fmap_compose. etrans; [|apply list_fmap_id]. apply list_fmap_ext.
  intros i x Hx. apply Ascii.N_ascii_embedding. by eapply (Forall_lookup_1 _ _ _ _ Hbs).
Qed.

(** Reads the next field of the goal as [x], or the next field of [H] as
    whatever its format spells. *)
Ltac dec_read x :=
  rewrite <-?app_assoc;
  match goal with
  | |- context [mbind (M := Decoder) ?k ?d (?f ++ ?r)] => rewrite (bind_reads d k x f r)
  end.
Ltac dec_inv H Hbs :=
  let x := fresh "x" in let mid := fresh "mid" in let Hx := fresh "Hx" in
  apply bind_inr in H as (x & mid & Hx & H);
  apply (format_exact _ _ _ Hbs) in Hx as (? & -> & Hx);
  apply is_bytes_app in Hbs as [? Hbs].

#[global] Instance dec_take_format len :
  Format (dec_take len) (λ v f, f = v ∧ N.of_nat (length v) = len).
Proof.
  split.
  - intros v f rest [-> <-]. unfold dec_take. rewrite (proj2 (N.leb_le _ _)) by (rewrite length_app; lia).
    by rewrite Nat2N.id, take_app_length, drop_app_length.
  - intros bs v rest _ Hd. unfold dec_take in Hd. destruct (N.leb_spec len (N.of_nat (length bs))); [|done].
    injection Hd as <- <-. exists (take (N.to_nat len) bs). split; [by rewrite take_drop|].
    split; [done|]. rewrite length_take. lia.
Qed.

(** A fixed-width unsigned integer. *)
Definition uint (w : nat) (n : N) (f : bytes) : Prop := (n < 256 ^ N.of_nat w)%N ∧ f = be_bytes w n.

#[global] Instance dec_uint_format width : Format (dec_uint width) (uint (N.to_nat width)).
Proof.
  split.
  - intros n f rest [Hn ->]. unfold dec_uint.
    dec_read (be_bytes (N.to_nat width) n).
    + unfold mret, decoder_ret. by rewrite from_to_be_bytes.
    + split; [done|]. rewrite length_be_bytes. lia.
  - intros bs n rest Hbs (v & mid & Hv & Heq)%bind_inr.
    destruct (format_exact _ _ _ Hbs Hv) as (f & -> & -> & Hlen).
    injection Heq as <- <-. apply is_bytes_app in Hbs as [Hbs _]. exists v. split; [done|].
    destruct (be_from_bytes v Hbs) as [Hs Hr]. subst width. rewrite Nat2N.id. by split.
Qed.

#[global] Instance dec_u8_format : Format dec_u8 (uint 1) := dec_uint_format 1.
#[global] Instance dec_u16_format : Format dec_u16 (uint 2) := dec_uint_format 2.
#[global] Instance dec_u32_format : Format dec_u32 (uint 4) := dec_uint_format 4.
#[global] Instance dec_u64_format : Format dec_u64 (uint 8) := dec_uint_format 8.
#[global] Instance dec_event_id_format : Format dec_event_id (uint 32) := dec_uint_format 32.

#[global] Instance dec_bytes_format bound name :
  Format (dec_bytes bound name) (λ v f, is_bytes v ∧ enc_bytes v bound name = inr f).
Proof.
  split.
  - intros v f rest [_ He]. unfold enc_bytes in He.
    destruct (N.ltb_spec bound (N.of_nat (length v))) as [|Hb]; [done|].
    destruct (N.ltb_spec (N.of_nat (length v)) (2 ^ 32)) as [Hl|]; [|done]. injection He as <-.
    unfold dec_bytes. dec_read (N.of_nat (length v)); [|done].
    rewrite (proj2 (N.ltb_ge _ _)) by done. by apply format_reads.
  - intros bs v rest Hbs Hd. unfold dec_bytes in Hd. dec_inv Hd Hbs.
    destruct Hx as [Hlt ->]. destruct (N.ltb_spec bound x) as [|Hb]; [done|].
    apply (format_exact _ _ _ Hbs) in Hd as (? & -> & -> & Hlen).
    apply is_bytes_app in Hbs as [Hv _]. eexists. rewrite app_assoc. split; [done|]. split; [done|].
    unfold enc_bytes. rewrite Hlen, (proj2 (N.ltb_ge _ _)), (proj2 (N.ltb_lt _ _)) by done. done.
Qed.

(** A Rust [String] is well-formed UTF-8. *)
Definition text_ok (s : string) : Prop := utf8_valid (as_bytes s) = true.

#[global] Instance dec_text_format bound name :
  Format (dec_text bound name) (λ s f, text_ok s ∧ enc_text s bound name = inr f).
Proof.
  split.
  - intros s f rest [Hok He]. unfold dec_text.
    dec_read (as_bytes s); [|split; [apply is_bytes_as_bytes|done]].
    unfold text_ok in Hok. rewrite Hok. by rewrite string_of_as_bytes.
  - intros bs s rest Hbs Hd. unfold dec_text in Hd. dec_inv Hd Hbs.
    destruct (utf8_valid x) eqn:Eu; [|done]. injection Hd as <- <-.
    destruct Hx as [Hb He]. eexists. split; [done|].
    unfold text_ok, enc_text. by rewrite as_string_of_bytes.
Qed.

#[global] Instance dec_optional_text_format bound name :
  Format (dec_optional_text bound name)
    (λ o f, (∀ s, o = Some s → text_ok s) ∧ enc_optional_text o bound name = inr f).
Proof.
  split.
  - intros [s|] f rest [Hok He]; unfold enc_optional_text in He; unfold dec_optional_text.
    + apply result_bind_inr in He as (g & He & [= <-]).
      change (1%N :: g) with ([1%N] ++ g). dec_read 1%N; [|by split].
      dec_read s; [done|]. by split; [apply Hok|].
    + injection He as <-. dec_read 0%N; [|by split]. done.
  - intros bs o rest Hbs Hd. unfold dec_optional_text in Hd. dec_inv Hd Hbs.
    destruct Hx as [Hlt ->]. destruct x as [|[|p|]]; try done.
    + injection Hd as <- <-. exists [0%N]. split; [done|]. by split.
    + dec_inv Hd Hbs. destruct Hx as [Hok He]. injection Hd as <- <-.
      eexists. rewrite app_assoc. split; [done|]. simpl. rewrite He. split; [by intros ? [= <-]|done].
Qed.

(** A key is one the reader accepts back. *)
Definition pk_ok `{PublicKeyReader} (pk : PublicKey) : Prop := pk_from_slice (be_bytes 32 pk) = Some pk.

#[global] Instance dec_public_key_format `{PublicKeyReaderLaws} :
  Format dec_public_key (λ pk f, pk_ok pk ∧ f = be_bytes 32 pk).
Proof.
  split.
  - intros pk f rest [Hok ->]. unfold dec_public_key. dec_read (be_bytes 32 pk).
    + unfold pk_ok in Hok. by rewrite Hok.
    + by rewrite length_be_bytes.
  - intros bs pk rest Hbs Hd. unfold dec_public_key in Hd. dec_inv Hd Hbs. destruct Hx as [-> Hlen].
    destruct (pk_from_slice x) as [pk'|] eqn:E; [|done]. injection Hd as <- <-.
    exists x. split; [done|]. apply pk_from_slice_bytes in E as Heq. by rewrite Heq in E |- *.
Qed.

#[global] Instance dec_count_format {A} (d : Decoder A) (P : A → bytes → Prop) count `{!Format d P} :
  Format (dec_count d count) (λ l f, length l = count ∧ ∃ fs, Forall2 P l fs ∧ f = concat fs).
Proof.
  split.
  - intros l f rest (<- & fs & HF & ->). revert rest. induction HF as [|x g l fs Hx HF IH]; intros rest; [done|].
    cbn [length dec_count concat]. dec_read x; [|done]. unfold mbind, decoder_bind. by rewrite IH.
  - induction count as [|count IH]; intros bs l rest Hbs Hd; cbn [dec_count] in Hd.
    + injection Hd as <- <-. exists []. split; [done|]. split; [done|]. by exists [].
    + dec_inv Hd Hbs. apply bind_inr in Hd as (l' & mid' & Hl & Heq). injection Heq as <- <-.
      destruct (IH _ _ _ Hbs Hl) as (f & -> & <- & fs & HF & ->).
      eexists (_ ++ concat fs). rewrite app_assoc. split; [done|]. split; [done|].
      eexists (_ :: fs). split; [by constructor|done].
Qed.

(** Records whose encoding is total: [concat] of their fields' spellings. *)
Lemma Forall2_spelled {A} (P : A → bytes → Prop) (enc : A → bytes) (ok : A → Prop) l fs :
  (∀ x f, P x f ↔ ok x ∧ f = enc x) → Forall2 P l fs ↔ Forall ok l ∧ fs = enc <$> l.
Proof.
  intros HP. split.
  - intros HF. induction HF as [|x f l fs Hx HF [IH1 ->]]; [done|].
    apply HP in Hx as [Hx ->]. split; [by constructor|done].
  - intros [Hl ->]. induction Hl as [|x l Hx Hl IH]; constructor; [by apply HP|done].
Qed.

(** A value decodes to [x] iff it is the header followed by a spelling of [x]. *)
Lemma decode_value_iff {A} (magic : bytes) (d : Decoder A) P `{!Format d P} bs x :
  length magic = 4 → is_bytes bs →
  decode_value magic d bs = inr x ↔ ∃ frag, P x frag ∧ bs = enc_new magic ++ frag.
Proof.
  intros Hm Hbs. unfold decode_value, dec_new, header_len. split.
  - intros Hd. destruct (Nat.ltb_spec (length bs) 8) as [|Hlen]; [done|].
    repeat case_decide; try done. cbn [mbind result_bind] in Hd.
    unfold dec_finish in Hd. apply result_bind_inr in Hd as ([y [|? rest]] & Hy & [= <-]).
    assert (bs = enc_new magic ++ drop 8 bs) as Hsplit.
    { do 8 (destruct bs as [|? bs]; [simpl in Hlen; lia|]). simpl in *. unfold enc_new.
      subst magic. naive_solver. }
    assert (is_bytes (drop 8 bs)) as Hdrop by (rewrite Hsplit in Hbs; by apply is_bytes_app in Hbs as [_ ?]).
    destruct (format_exact _ _ _ Hdrop Hy) as (f & Hf & HP). exists f. split; [done|].
    rewrite Hsplit, Hf. by rewrite app_nil_r.
  - intros (f & HP & ->). do 4 (destruct magic as [|? magic]; [done|]). destruct magic; [|done].
    unfold enc_new. simpl. rewrite !decide_False by (by intros ?; auto).
    cbn [mbind result_bind]. unfold dec_finish. rewrite drop_0, <-(app_nil_r f).
    by rewrite (format_reads x f [] HP).
Qed.

(** Splits the tag byte [x] of the hypothesis [H] into the ones it accepts. *)
Ltac tag_split H x :=
  destruct x as [|[[[|?|]|[|?|]|]|[[|?|]|[|?|]|]|]]; try done; try discriminate H.

(** ** Keys *)

Definition intent_key (id : N) : bytes := be_bytes 8 id.
Definition parse_intent_key (key : bytes) : Result N :=
  if decide (length key = 8) then mret (from_be_bytes key) else inl (InvalidValue "intent key length").

Definition lane_key (intent_id relay_id : N) : bytes := be_bytes 8 intent_id ++ be_bytes 4 relay_id.
Definition parse_lane_key (key : bytes) : Result (N * N) :=
  if decide (length key ≠ 12) then inl (InvalidValue "lane key length")
  else mret (from_be_bytes (take 8 key), from_be_bytes (drop 8 key)).
Definition lane_range (intent_id : N) : bytes * bytes := (lane_key intent_id 0, lane_key intent_id u32_max).

Definition attempt_key (intent_id relay_id ordinal : N) : bytes :=
  lane_key intent_id relay_id ++ be_bytes 8 ordinal.
Definition parse_attempt_key (key : bytes) : Result (N * N * N) :=
  if decide (length key ≠ 20) then inl (InvalidValue "attempt key length")
  else
    '(intent_id, relay_id) ← parse_lane_key (take 12 key);
    mret (intent_id, relay_id, from_be_bytes (drop 12 key)).
Definition attempt_range (intent_id : N) : bytes * bytes :=
  (attempt_key intent_id 0 0, attempt_key intent_id u32_max u64_max).

Definition route_revision_key (intent_id ordinal : N) : bytes := be_bytes 8 intent_id ++ be_bytes 8 ordinal.
Definition parse_route_revision_key (key : bytes) : Result (N * N) :=
  if decide (length key ≠ 16) then inl (InvalidValue "route revision key length")
  else mret (from_be_bytes (take 8 key), from_be_bytes (drop 8 key)).
Definition route_revision_range (intent_id : N) : bytes * bytes :=
  (route_revision_key intent_id 0, route_revision_key intent_id u64_max).

Definition deadline_key (at_ intent_id relay_id : N) : bytes :=
  be_bytes 8 at_ ++ be_bytes 8 intent_id ++ be_bytes 4 relay_id.
Definition parse_deadline_key (key : bytes) : Result (N * N * N) :=
  if decide (length key ≠ 20) then inl (InvalidValue "deadline key length")
  else mret (from_be_bytes (take 8 key), from_be_bytes (take 8 (drop 8 key)), from_be_bytes (drop 16 key)).
Definition deadline_due_range (now : N) : bytes * bytes :=
  (deadline_key 0 0 0, deadline_key now u64_max u32_max).

(** A number segment decides the order of keys that agree before it. *)
Lemma cmp_be_app w n m x y :
  (n < 256 ^ N.of_nat w)%N → (m < 256 ^ N.of_nat w)%N →
  cmp (be_bytes w n ++ x) (be_bytes w m ++ y) = then_with (N.compare n m) (cmp x y).
Proof. intros. rewrite cmp_app by (by rewrite !length_be_bytes). by rewrite cmp_be_bytes. Qed.

Lemma in_range_be_app w n lo hi x :
  (n < 256 ^ N.of_nat w)%N → in_range (lo, hi) x →
  in_range (be_bytes w 0 ++ lo, be_bytes w (256 ^ N.of_nat w - 1) ++ hi) (be_bytes w n ++ x).
Proof.
  intros Hn [Hlo Hhi]. unfold in_range, cmp_le in *. cbn [fst snd] in *.
  assert (0 < 256 ^ N.of_nat w)%N by lia. rewrite !cmp_be_app by lia.
  destruct (N.compare_spec 0 n), (N.compare_spec n (256 ^ N.of_nat w - 1)); simpl; (split; [|]); try done; lia.
Qed.

Lemma in_range_be w n :
  (n < 256 ^ N.of_nat w)%N → in_range (be_bytes w 0, be_bytes w (256 ^ N.of_nat w - 1)) (be_bytes w n).
Proof.
  intros Hn. pose proof (in_range_be_app w n [] [] [] Hn) as H. rewrite !app_nil_r in H. by apply H.
Qed.

Lemma take_be w n x : take w (be_bytes w n ++ x) = be_bytes w n.
Proof. by rewrite <-(length_be_bytes w n) at 1; rewrite take_app_length. Qed.
Lemma drop_be w n x : drop w (be_bytes w n ++ x) = x.
Proof. by rewrite <-(length_be_bytes w n) at 1; rewrite drop_app_length. Qed.

Lemma parse_keys intent_id relay_id n :
  (intent_id < 2 ^ 64)%N → (relay_id < 2 ^ 32)%N → (n < 2 ^ 64)%N →
  parse_intent_key (intent_key intent_id) = inr intent_id ∧
  parse_lane_key (lane_key intent_id relay_id) = inr (intent_id, relay_id) ∧
  parse_attempt_key (attempt_key intent_id relay_id n) = inr (intent_id, relay_id, n) ∧
  parse_route_revision_key (route_revision_key intent_id n) = inr (intent_id, n) ∧
  parse_deadline_key (deadline_key n intent_id relay_id) = inr (n, intent_id, relay_id).
Proof.
  intros Hi Hr Hn.
  assert (parse_lane_key (lane_key intent_id relay_id) = inr (intent_id, relay_id)) as Hlane.
  { unfold parse_lane_key, lane_key. rewrite decide_False by (rewrite length_app, !length_be_bytes; lia).
    by rewrite take_be, drop_be, (from_to_be_bytes 8), (from_to_be_bytes 4). }
  split; [|split; [done|split; [|split]]].
  - unfold parse_intent_key, intent_key. rewrite decide_True by apply length_be_bytes.
    by rewrite (from_to_be_bytes 8).
  - unfold parse_attempt_key, attempt_key.
    rewrite decide_False by (unfold lane_key; rewrite !length_app, !length_be_bytes; lia).
    assert (length (lane_key intent_id relay_id) = 12) as Hlen
      by (unfold lane_key; rewrite length_app, !length_be_bytes; lia).
    rewrite take_app_le, take_ge, drop_app_le, drop_ge by lia. rewrite Hlane. simpl.
    by rewrite (from_to_be_bytes 8).
  - unfold parse_route_revision_key, route_revision_key.
    rewrite decide_False by (rewrite length_app, !length_be_bytes; lia).
    by rewrite take_be, drop_be, !(from_to_be_bytes 8).
  - unfold parse_deadline_key, deadline_key.
    rewrite decide_False by (rewrite !length_app, !length_be_bytes; lia).
    change 16 with (8 + 8). rewrite <-drop_drop.
    by rewrite take_be, drop_be, take_be, drop_be, !(from_to_be_bytes 8), (from_to_be_bytes 4).
Qed.

(** The ordered scans of the publish-queue tables select what they mean to.
    An intent's lane, attempt and route ranges hold exactly its own keys, the
    due range holds exactly the deadlines that have come, an earlier deadline
    sorts first, and every key parses back to the row it names. *)
Theorem queue_key_ranges intent_id intent_id' relay_id n now :
  (intent_id < 2 ^ 64)%N → (intent_id' < 2 ^ 64)%N → (relay_id < 2 ^ 32)%N → (n < 2 ^ 64)%N → (now < 2 ^ 64)%N →
  (in_range (lane_range intent_id) (lane_key intent_id' relay_id) ↔ intent_id' = intent_id) ∧
  (in_range (attempt_range intent_id) (attempt_key intent_id' relay_id n) ↔ intent_id' = intent_id) ∧
  (in_range (route_revision_range intent_id) (route_revision_key intent_id' n) ↔ intent_id' = intent_id) ∧
  (in_range (deadline_due_range now) (deadline_key n intent_id' relay_id) ↔ (n <= now)%N) ∧
  (∀ relay_id', (n < now)%N →
     cmp_lt (deadline_key n intent_id' relay_id) (deadline_key now intent_id relay_id')) ∧
  parse_intent_key (intent_key intent_id) = inr intent_id ∧
  parse_lane_key (lane_key intent_id relay_id) = inr (intent_id, relay_id) ∧
  parse_attempt_key (attempt_key intent_id relay_id n) = inr (intent_id, relay_id, n) ∧
  parse_route_revision_key (route_revision_key intent_id n) = inr (intent_id, n) ∧
  parse_deadline_key (deadline_key n intent_id relay_id) = inr (n, intent_id, relay_id).
Proof.
  intros Hi Hi' Hr Hn Hnow.
  split; [|split; [|split; [|split; [|split; [|by apply parse_keys]]]]].
  - unfold lane_range, lane_key. rewrite event_key_range by done.
    split; [by intros [? _]|]. intros ->. split; [done|]. by apply (in_range_be 4).
  - unfold attempt_range, attempt_key, lane_key. rewrite <-!app_assoc, event_key_range by done.
    split; [by intros [? _]|]. intros ->. split; [done|].
    apply (in_range_be_app 4); [done|]. by apply (in_range_be 8).
  - unfold route_revision_range, route_revision_key. rewrite event_key_range by done.
    split; [by intros [? _]|]. intros ->. split; [done|]. by apply (in_range_be 8).
  - unfold deadline_due_range, deadline_key, in_range, cmp_le. cbn [fst snd].
    rewrite (cmp_be_app 8 0 n), (cmp_be_app 8 n now) by done.
    destruct (in_range_be_app 8 intent_id' (be_bytes 4 0) (be_bytes 4 u32_max) (be_bytes 4 relay_id) Hi'
      (in_range_be 4 relay_id Hr)) as [Hlo Hhi].
    split.
    + intros [_ Hle]. destruct (N.compare_spec n now); [lia..|done].
    + intros Hle. split.
      * destruct (N.compare_spec 0 n); simpl; [exact Hlo|done|lia].
      * destruct (N.compare_spec n now); simpl; [exact Hhi|done|lia].
  - intros relay_id' Hlt. unfold cmp_lt, deadline_key. rewrite cmp_be_app by done.
    by rewrite (proj2 (N.compare_lt_iff n now)).
Qed.

Lemma queue_key_ranges_witness :
  in_range (deadline_due_range 100) (deadline_key 100 7 2) ∧
  ¬ in_range (deadline_due_range 100) (deadline_key 101 0 0) ∧
  in_range (attempt_range 7) (attempt_key 7 2 5) ∧ ¬ in_range (attempt_range 7) (attempt_key 8 0 0).
Proof.
  destruct (queue_key_ranges 7 7 2 100 100) as (_ & _ & _ & Hdue & _); [done..|].
  destruct (queue_key_ranges 7 0 0 101 100) as (_ & _ & _ & Hlate & _); [done..|].
  destruct (queue_key_ranges 7 7 2 5 0) as (_ & Hin & _); [done..|].
  destruct (queue_key_ranges 7 8 0 0 0) as (_ & Hout & _); [done..|].
  split; [by apply Hdue|]. split; [by intros ?%Hlate|]. split; [by apply Hin|by intros ?%Hout].
Defined.
