(* ===== verification/QueueCodec.v ===== *)
(** * Publish-queue records

    The values of the publish-queue tables
    ([crates/nmp-store/src/redb_store/publish_queue_codec.rs]): the delivery
    vocabulary of [crates/nmp-store/src/lib.rs] and each record's encoder and
    decoder, with the values a decoder accepts. *)

From S2P Require Import Prelude Grammar Address Schema Canonical Ingest QueueBytes.

(** ** The delivery vocabulary *)

Inductive AuthDenialSource := Policy | Signer | Relay.
Record AuthDenial := mkDenial { ad_source : AuthDenialSource; ad_reason : string }.

Inductive AttemptOutcome := Started | Acked | Rejected (reason : string) | GaveUp.

Inductive TerminalOutcome :=
  | TerminalAcked | TerminalRejected (reason : string) | TerminalGaveUp | TerminalAuthDenied (denial : AuthDenial).

Inductive TransientCause :=
  | Interrupted | AckTimedOut | ConnectionLost | RelayRateLimited | RelayError | AuthRequired.

Inductive InFlightPhase := AwaitingHandoff | AwaitingAck (deadline : N).

Inductive LaneState :=
  | WaitingConnection
  | WaitingAuth
  | Eligible (since : N)
  | InFlight (ordinal : N) (phase : InFlightPhase)
  | Transient (ordinal eligible_at : N) (cause : TransientCause) (raw_reason : option string)
  | Terminal (ordinal : N) (outcome : TerminalOutcome).

Inductive DeadlineKind := RetryEligible | AckTimeout.
Inductive HandoffEvidence := NotHandedOff | Written | Ambiguous.

Record AttemptHandoff := mkHandoff { ho_at : N; ho_result : HandoffEvidence }.
Record AttemptTransient := mkTransient {
  tr_eligible_at : N; tr_cause : TransientCause; tr_raw_reason : option string
}.

(** [PublishQueueAttemptDetails] without the three fields of its key. *)
Record AttemptDetails := mkDetails {
  dt_started_at : option N;
  dt_handoff : option AttemptHandoff;
  dt_transient : option AttemptTransient;
  dt_finished_at : option N;
  dt_terminal : option AttemptOutcome
}.

#[global] Instance AuthDenialSource_eq_dec : EqDecision AuthDenialSource.
Proof. solve_decision. Defined.
#[global] Instance AuthDenial_eq_dec : EqDecision AuthDenial.
Proof. solve_decision. Defined.
#[global] Instance AttemptOutcome_eq_dec : EqDecision AttemptOutcome.
Proof. solve_decision. Defined.
#[global] Instance TerminalOutcome_eq_dec : EqDecision TerminalOutcome.
Proof. solve_decision. Defined.
#[global] Instance TransientCause_eq_dec : EqDecision TransientCause.
Proof. solve_decision. Defined.
#[global] Instance InFlightPhase_eq_dec : EqDecision InFlightPhase.
Proof. solve_decision. Defined.
#[global] Instance LaneState_eq_dec : EqDecision LaneState.
Proof. solve_decision. Defined.
#[global] Instance DeadlineKind_eq_dec : EqDecision DeadlineKind.
Proof. solve_decision. Defined.
#[global] Instance HandoffEvidence_eq_dec : EqDecision HandoffEvidence.
Proof. solve_decision. Defined.
#[global] Instance AttemptHandoff_eq_dec : EqDecision AttemptHandoff.
Proof. solve_decision. Defined.
#[global] Instance AttemptTransient_eq_dec : EqDecision AttemptTransient.
Proof. solve_decision. Defined.
#[global] Instance AttemptDetails_eq_dec : EqDecision AttemptDetails.
Proof. solve_decision. Defined.

(** ** Attempts, lanes, deadlines *)

Definition encode_attempt_outcome (outcome : AttemptOutcome) : Result bytes :=
  match outcome with
  | Started => mret [0%N]
  | Acked => mret [1%N]
  | Rejected reason => r ← enc_text reason max_reason_bytes "rejection reason"; mret ([2%N] ++ r)
  | GaveUp => mret [3%N]
  end.

Definition decode_attempt_outcome : Decoder AttemptOutcome :=
  tag ← dec_u8;
  match tag with
  | 0%N => mret Started
  | 1%N => mret Acked
  | 2%N => r ← dec_text max_reason_bytes "rejection reason"; mret (Rejected r)
  | 3%N => mret GaveUp
  | other => dec_err (InvalidTag "attempt outcome" other)
  end.

Definition attempt_magic : bytes := as_bytes "NMDA".
Definition lane_magic : bytes := as_bytes "NMDL".
Definition deadline_magic : bytes := as_bytes "NMDD".
Definition detail_magic : bytes := as_bytes "NMDT".
Definition route_magic : bytes := as_bytes "NMDV".
Definition receipt_magic : bytes := as_bytes "NMDR".
Definition claims_magic : bytes := as_bytes "NMDC".
Definition claimants_magic : bytes := as_bytes "NMDQ".
Definition addr_claimants_magic : bytes := as_bytes "NMDX".
Definition relay_magic : bytes := as_bytes "NMDU".

Definition encode_attempt (event_id : EventId) (outcome : AttemptOutcome) : Result bytes :=
  o ← encode_attempt_outcome outcome; mret (enc_new attempt_magic ++ be_bytes 32 event_id ++ o).

Definition decode_attempt (bs : bytes) : Result (EventId * AttemptOutcome) :=
  decode_value attempt_magic (
    event_id ← dec_event_id; outcome ← decode_attempt_outcome; mret (event_id, outcome)) bs.

Definition encode_auth_source (source : AuthDenialSource) : bytes :=
  [match source with Policy => 0 | Signer => 1 | Relay => 2 end]%N.

Definition decode_auth_source : Decoder AuthDenialSource :=
  tag ← dec_u8;
  match tag with
  | 0%N => mret Policy | 1%N => mret Signer | 2%N => mret Relay
  | other => dec_err (InvalidTag "auth denial source" other)
  end.

Definition encode_transient_cause (cause : TransientCause) : bytes :=
  [match cause with
   | Interrupted => 0 | AckTimedOut => 1 | ConnectionLost => 2
   | RelayRateLimited => 3 | RelayError => 4 | AuthRequired => 5
   end]%N.

Definition decode_transient_cause : Decoder TransientCause :=
  tag ← dec_u8;
  match tag with
  | 0%N => mret Interrupted | 1%N => mret AckTimedOut | 2%N => mret ConnectionLost
  | 3%N => mret RelayRateLimited | 4%N => mret RelayError | 5%N => mret AuthRequired
  | other => dec_err (InvalidTag "transient cause" other)
  end.

Definition encode_terminal (outcome : TerminalOutcome) : Result bytes :=
  match outcome with
  | TerminalAcked => mret [0%N]
  | TerminalRejected reason =>
      r ← enc_text reason max_reason_bytes "terminal rejection reason"; mret ([1%N] ++ r)
  | TerminalGaveUp => mret [2%N]
  | TerminalAuthDenied denial =>
      r ← enc_text (ad_reason denial) max_reason_bytes "authentication denial reason";
      mret ([4%N] ++ encode_auth_source (ad_source denial) ++ r)
  end.

Definition decode_terminal : Decoder TerminalOutcome :=
  tag ← dec_u8;
  match tag with
  | 0%N => mret TerminalAcked
  | 1%N => r ← dec_text max_reason_bytes "terminal rejection reason"; mret (TerminalRejected r)
  | 2%N => mret TerminalGaveUp
  | 4%N =>
      source ← decode_auth_source;
      r ← dec_text max_reason_bytes "authentication denial reason";
      mret (TerminalAuthDenied (mkDenial source r))
  | other => dec_err (InvalidTag "lane terminal outcome" other)
  end.

Definition encode_phase (phase : InFlightPhase) : bytes :=
  match phase with AwaitingHandoff => [0%N] | AwaitingAck deadline => [1%N] ++ be_bytes 8 deadline end.

Definition encode_lane_state (state : LaneState) : Result bytes :=
  match state with
  | WaitingConnection => mret [0%N]
  | WaitingAuth => mret [1%N]
  | Eligible since => mret ([2%N] ++ be_bytes 8 since)
  | InFlight ordinal phase => mret ([3%N] ++ be_bytes 8 ordinal ++ encode_phase phase)
  | Transient ordinal eligible_at cause raw_reason =>
      r ← enc_optional_text raw_reason max_reason_bytes "transient raw reason";
      mret ([4%N] ++ be_bytes 8 ordinal ++ be_bytes 8 eligible_at ++ encode_transient_cause cause ++ r)
  | Terminal ordinal outcome =>
      o ← encode_terminal outcome; mret ([5%N] ++ be_bytes 8 ordinal ++ o)
  end.

Definition decode_phase : Decoder InFlightPhase :=
  tag ← dec_u8;
  match tag with
  | 0%N => mret AwaitingHandoff
  | 1%N => deadline ← dec_u64; mret (AwaitingAck deadline)
  | other => dec_err (InvalidTag "in-flight phase" other)
  end.

Definition decode_lane_state : Decoder LaneState :=
  tag ← dec_u8;
  match tag with
  | 0%N => mret WaitingConnection
  | 1%N => mret WaitingAuth
  | 2%N => since ← dec_u64; mret (Eligible since)
  | 3%N => ordinal ← dec_u64; phase ← decode_phase; mret (InFlight ordinal phase)
  | 4%N =>
      ordinal ← dec_u64; eligible_at ← dec_u64; cause ← decode_transient_cause;
      raw_reason ← dec_optional_text max_reason_bytes "transient raw reason";
      mret (Transient ordinal eligible_at cause raw_reason)
  | 5%N => ordinal ← dec_u64; outcome ← decode_terminal; mret (Terminal ordinal outcome)
  | other => dec_err (InvalidTag "lane state" other)
  end.

(** A row of [PUBLISH_QUEUE_LANES]. *)
Record LaneRow := mkLaneRow {
  ln_event_id : EventId; ln_revision : N; ln_last_ordinal : N; ln_state : LaneState
}.
#[global] Instance LaneRow_eq_dec : EqDecision LaneRow.
Proof. solve_decision. Defined.

Definition state_ordinal (state : LaneState) : option N :=
  match state with
  | InFlight ordinal _ | Transient ordinal _ _ _ | Terminal ordinal _ => Some ordinal
  | _ => None
  end.

Definition encode_lane (row : LaneRow) : Result bytes :=
  if (ln_revision row =? 0)%N then inl (InvalidValue "lane revision must be non-zero")
  else
    s ← encode_lane_state (ln_state row);
    mret (enc_new lane_magic ++ be_bytes 32 (ln_event_id row) ++ be_bytes 8 (ln_revision row) ++
          be_bytes 8 (ln_last_ordinal row) ++ s).

Definition decode_lane (bs : bytes) : Result LaneRow :=
  row ← decode_value lane_magic (
    event_id ← dec_event_id; revision ← dec_u64; last_ordinal ← dec_u64; state ← decode_lane_state;
    mret (mkLaneRow event_id revision last_ordinal state)) bs;
  if (ln_revision row =? 0)%N then inl (InvalidValue "lane revision must be non-zero")
  else match state_ordinal (ln_state row) with
  | Some ordinal =>
      if (ordinal =? ln_last_ordinal row)%N then mret row
      else inl (InvalidValue "lane state ordinal disagrees with cursor")
  | None => mret row
  end.

Definition encode_deadline (lane_revision : N) (kind : DeadlineKind) : bytes :=
  enc_new deadline_magic ++ be_bytes 8 lane_revision ++
  [match kind with RetryEligible => 0 | AckTimeout => 1 end]%N.

Definition decode_deadline_body : Decoder (N * DeadlineKind) :=
  lane_revision ← dec_u64;
  tag ← dec_u8;
  match tag with
  | 0%N => mret (lane_revision, RetryEligible)
  | 1%N => mret (lane_revision, AckTimeout)
  | other => dec_err (InvalidTag "deadline kind" other)
  end.
Definition decode_deadline (bs : bytes) : Result (N * DeadlineKind) :=
  decode_value deadline_magic decode_deadline_body bs.

(** ** Attempt details *)

(** The [None => 0, Some(x) => 1 ++ x] match each optional field is written
    and read with; [what] names the field in the tag's error. *)
Definition enc_option {A} (enc : A → Result bytes) (o : option A) : Result bytes :=
  match o with None => mret [0%N] | Some x => b ← enc x; mret ([1%N] ++ b) end.

Definition dec_option {A} (what : string) (d : Decoder A) : Decoder (option A) :=
  tag ← dec_u8;
  match tag with
  | 0%N => mret None
  | 1%N => x ← d; mret (Some x)
  | other => dec_err (InvalidTag what other)
  end.

Definition enc_u64 (n : N) : Result bytes := mret (be_bytes 8 n).

Definition encode_handoff_result (result : HandoffEvidence) : bytes :=
  [match result with NotHandedOff => 0 | Written => 1 | Ambiguous => 2 end]%N.

Definition decode_handoff_result : Decoder HandoffEvidence :=
  tag ← dec_u8;
  match tag with
  | 0%N => mret NotHandedOff | 1%N => mret Written | 2%N => mret Ambiguous
  | other => dec_err (InvalidTag "handoff evidence" other)
  end.

Definition encode_handoff (h : AttemptHandoff) : Result bytes :=
  mret (be_bytes 8 (ho_at h) ++ encode_handoff_result (ho_result h)).
Definition decode_handoff : Decoder AttemptHandoff :=
  at_ ← dec_u64; result ← decode_handoff_result; mret (mkHandoff at_ result).

Definition encode_transient (t : AttemptTransient) : Result bytes :=
  r ← enc_optional_text (tr_raw_reason t) max_reason_bytes "transient raw reason";
  mret (be_bytes 8 (tr_eligible_at t) ++ encode_transient_cause (tr_cause t) ++ r).
Definition decode_transient : Decoder AttemptTransient :=
  eligible_at ← dec_u64; cause ← decode_transient_cause;
  raw_reason ← dec_optional_text max_reason_bytes "transient raw reason";
  mret (mkTransient eligible_at cause raw_reason).

Definition encode_attempt_details (details : AttemptDetails) : Result bytes :=
  started_at ← enc_option enc_u64 (dt_started_at details);
  handoff ← enc_option encode_handoff (dt_handoff details);
  transient ← enc_option encode_transient (dt_transient details);
  finished_at ← enc_option enc_u64 (dt_finished_at details);
  terminal ← enc_option encode_attempt_outcome (dt_terminal details);
  mret (enc_new detail_magic ++ started_at ++ handoff ++ transient ++ finished_at ++ terminal).

Definition decode_attempt_detail_prefix : Decoder (option N * option AttemptHandoff) :=
  started_at ← dec_option "attempt start" dec_u64;
  handoff ← dec_option "attempt handoff" decode_handoff;
  mret (started_at, handoff).

Definition decode_attempt_detail_body : Decoder AttemptDetails :=
  '(started_at, handoff) ← decode_attempt_detail_prefix;
  transient ← dec_option "attempt transient" decode_transient;
  finished_at ← dec_option "attempt finish" dec_u64;
  terminal ← dec_option "attempt terminal" decode_attempt_outcome;
  mret (mkDetails started_at handoff transient finished_at terminal).

Definition decode_attempt_details (bs : bytes) : Result AttemptDetails :=
  details ← decode_value detail_magic decode_attempt_detail_body bs;
  if decide (dt_terminal details = Some Started) then
    inl (InvalidValue "attempt terminal cannot contain Started")
  else if decide (is_Some (dt_finished_at details) ↔ is_Some (dt_terminal details)) then mret details
  else inl (InvalidValue "attempt finish and terminal must coexist").

Definition decode_attempt_handoff (bs : bytes) : Result (option AttemptHandoff) :=
  details ← decode_attempt_details bs; mret (dt_handoff details).

(** ** Routes and claimants *)

(** [windows(2).any(|pair| f(pair[0], pair[1]))]. *)
Fixpoint windows_any (f : N → N → bool) (l : list N) : bool :=
  match l with
  | a :: (b :: _) as tl => f a b || windows_any f tl
  | _ => false
  end.

Definition strictly_ordered (l : list N) : bool := negb (windows_any (λ a b, b <=? a)%N l).

Definition encode_route (relays : list N) : Result bytes :=
  if (max_route_relays <? N.of_nat (length relays))%N then inl (BoundExceeded "route relay count")
  else if strictly_ordered relays then
    mret (enc_new route_magic ++ be_bytes 4 (N.of_nat (length relays)) ++ concat (be_bytes 4 <$> relays))
  else inl (InvalidValue "route relay ids must be strictly ordered").

(** A count within [bound] and that many values read by [d]. *)
Definition dec_list {A} (bound : N) (what : string) (d : Decoder A) : Decoder (list A) :=
  count ← dec_u32;
  if (bound <? count)%N then dec_err (BoundExceeded what) else dec_count d (N.to_nat count).

Definition decode_route (bs : bytes) : Result (list N) :=
  relays ← decode_value route_magic (dec_list max_route_relays "route relay count" dec_u32) bs;
  if strictly_ordered relays then mret relays
  else inl (InvalidValue "route relay ids must be strictly ordered").

(** [Vec::dedup]: of each run of equal elements, the first. *)
Fixpoint dedup (l : list N) : list N :=
  match l with
  | a :: (b :: _) as tl => if (a =? b)%N then dedup tl else a :: dedup tl
  | l => l
  end.

Definition encode_claimants (claimants : list N) : Result bytes :=
  if (max_suppression_claims <? N.of_nat (length claimants))%N then inl (BoundExceeded "claimant count")
  else
    let canonical := dedup (merge_sort N.le claimants) in
    mret (enc_new claimants_magic ++ be_bytes 4 (N.of_nat (length canonical)) ++
          concat (be_bytes 8 <$> canonical)).

Definition decode_claimants (bs : bytes) : Result (list N) :=
  claimants ← decode_value claimants_magic (dec_list max_suppression_claims "claimant count" dec_u64) bs;
  if strictly_ordered claimants then mret claimants
  else inl (InvalidValue "claimants must be strictly ordered").

Definition claimant_le (a b : AddrClaimant) : Prop := (ac_intent_id a <= ac_intent_id b)%N.
#[global] Instance claimant_le_dec a b : Decision (claimant_le a b).
Proof. unfold claimant_le. apply _. Defined.

Definition encode_addr_claimants (claimants : list AddrClaimant) : Result bytes :=
  if (max_suppression_claims <? N.of_nat (length claimants))%N then inl (BoundExceeded "address claimant count")
  else
    let canonical := merge_sort claimant_le claimants in
    if windows_any N.eqb (ac_intent_id <$> canonical) then inl (InvalidValue "duplicate address claimant")
    else mret (enc_new addr_claimants_magic ++ be_bytes 4 (N.of_nat (length canonical)) ++
               concat ((λ c, be_bytes 8 (ac_intent_id c) ++ be_bytes 8 (ac_ceiling c)) <$> canonical)).

Definition dec_addr_claimant : Decoder AddrClaimant :=
  intent_id ← dec_u64; ceiling ← dec_u64; mret (mkAddrClaimant intent_id ceiling).

Definition decode_addr_claimants (bs : bytes) : Result (list AddrClaimant) :=
  claimants ← decode_value addr_claimants_magic
    (dec_list max_suppression_claims "address claimant count" dec_addr_claimant) bs;
  if strictly_ordered (ac_intent_id <$> claimants) then mret claimants
  else inl (InvalidValue "address claimants must be strictly ordered").

(** ** Suppression claims *)

Section claims.
Context `{PublicKeyReader}.

Definition encode_claim (claim : SuppressClaim) : Result bytes :=
  match claim with
  | ClaimId target claiming_author => mret ([0%N] ++ be_bytes 32 target ++ be_bytes 32 claiming_author)
  | ClaimAddr key ceiling deleting_author =>
      k ← enc_bytes (as_bytes key) max_text_bytes "address suppression key";
      mret ([1%N] ++ k ++ be_bytes 8 ceiling ++ be_bytes 32 deleting_author)
  end.

Definition encode_claims (claims : list SuppressClaim) : Result bytes :=
  if (max_suppression_claims <? N.of_nat (length claims))%N then inl (BoundExceeded "suppression claim count")
  else
    body ← foldr (λ claim rest, c ← encode_claim claim; r ← rest; mret (c ++ r)) (mret []) claims;
    mret (enc_new claims_magic ++ be_bytes 4 (N.of_nat (length claims)) ++ body).

Definition dec_claim : Decoder SuppressClaim :=
  tag ← dec_u8;
  match tag with
  | 0%N =>
      target ← dec_event_id; claiming_author ← dec_public_key; mret (ClaimId target claiming_author)
  | 1%N =>
      key ← dec_bytes max_text_bytes "address suppression key"; ceiling ← dec_u64;
      deleting_author ← dec_public_key; mret (ClaimAddr (string_of_bytes key) ceiling deleting_author)
  | other => dec_err (InvalidTag "suppression claim" other)
  end.

Definition decode_claims (bs : bytes) : Result (list SuppressClaim) :=
  decode_value claims_magic (dec_list max_suppression_claims "suppression claim count" dec_claim) bs.

(** ** Receipts *)

Definition encode_sig_state (value : IntentSigState) : bytes :=
  [match value with AwaitingSigner => 0 | IntentPending => 1 | IntentSigned => 2 end]%N.

Definition decode_sig_state : Decoder IntentSigState :=
  tag ← dec_u8;
  match tag with
  | 0%N => mret AwaitingSigner | 1%N => mret IntentPending | 2%N => mret IntentSigned
  | other => dec_err (InvalidTag "intent signature state" other)
  end.

Definition max_coordinate_identifier_bytes : N := 65536.

Definition encode_coordinate (coordinate : Coordinate) : Result bytes :=
  match address_key_for_coordinate coordinate with
  | None => inl (InvalidValue "operation coordinate is not replaceable/addressable")
  | Some _ =>
      identifier ← enc_text (co_identifier coordinate) max_coordinate_identifier_bytes
        "operation coordinate identifier";
      mret (be_bytes 2 (co_kind coordinate) ++ be_bytes 32 (co_public_key coordinate) ++ identifier)
  end.

Definition decode_coordinate : Decoder Coordinate :=
  kind ← dec_u16; public_key ← dec_public_key;
  identifier ← dec_text max_coordinate_identifier_bytes "operation coordinate identifier";
  let coordinate := mkCoordinate kind public_key identifier in
  match address_key_for_coordinate coordinate with
  | None => dec_err (InvalidValue "operation coordinate is not replaceable/addressable")
  | Some _ => mret coordinate
  end.

Definition encode_refuse_reason (reason : RefuseReason) : bytes :=
  match reason with AlreadyExpired => [0%N] | Tombstoned => [1%N] end.

Definition decode_refuse_reason : Decoder RefuseReason :=
  tag ← dec_u8;
  match tag with
  | 0%N => mret AlreadyExpired | 1%N => mret Tombstoned
  | other => dec_err (InvalidTag "refuse reason" other)
  end.

Definition encode_receipt_state (state : ReceiptState) : bytes :=
  match state with
  | ReceiptAccepted => [0%N] | ReceiptSigned => [1%N] | ReceiptCompensated => [2%N]
  | ReceiptCancelled => [3%N] | ReceiptSuperseded => [4%N] | ReceiptNoDestination => [6%N]
  | ReceiptRefused reason => [5%N] ++ encode_refuse_reason reason
  end.

Definition decode_receipt_state : Decoder ReceiptState :=
  tag ← dec_u8;
  match tag with
  | 0%N => mret ReceiptAccepted | 1%N => mret ReceiptSigned | 2%N => mret ReceiptCompensated
  | 3%N => mret ReceiptCancelled | 4%N => mret ReceiptSuperseded | 6%N => mret ReceiptNoDestination
  | 5%N => reason ← decode_refuse_reason; mret (ReceiptRefused reason)
  | other => dec_err (InvalidTag "receipt state" other)
  end.

Definition encode_materialization (m : MaterializationRef) : bytes :=
  be_bytes 8 (mr_materialization_id m) ++ be_bytes 32 (mr_event_id m).
Definition decode_materialization : Decoder MaterializationRef :=
  id ← dec_u64; event_id ← dec_event_id; mret (mkMatRef id event_id).

Definition encode_acceptance (acceptance : OperationAcceptance) : bytes :=
  match acceptance with Bodyless => [0%N] | BodyComplete event_id => [1%N] ++ be_bytes 32 event_id end.

Definition decode_acceptance : Decoder OperationAcceptance :=
  tag ← dec_u8;
  match tag with
  | 0%N => mret Bodyless
  | 1%N => event_id ← dec_event_id; mret (BodyComplete event_id)
  | other => dec_err (InvalidTag "operation acceptance" other)
  end.

Definition encode_materialization_receipt (m : MaterializationReceipt) : Result bytes :=
  mret (encode_materialization (mt_materialization m) ++ encode_sig_state (mt_sig_state m)).
Definition decode_materialization_receipt : Decoder MaterializationReceipt :=
  m ← decode_materialization; sig_state ← decode_sig_state; mret (mkMatReceipt m sig_state).

Definition encode_operation_state (state : OperationReceiptState) : Result bytes :=
  match state with
  | Contributing current => c ← enc_option encode_materialization_receipt current; mret ([0%N] ++ c)
  | Settled materialization => mret ([4%N] ++ encode_materialization materialization)
  | Resolved => mret [1%N]
  | OperationCancelled => mret [2%N]
  | OperationRefused reason => r ← enc_text reason max_text_bytes "operation refusal"; mret ([3%N] ++ r)
  end.

Definition decode_operation_state : Decoder OperationReceiptState :=
  tag ← dec_u8;
  match tag with
  | 0%N =>
      current ← dec_option "optional receipt materialization" decode_materialization_receipt;
      mret (Contributing current)
  | 1%N => mret Resolved
  | 2%N => mret OperationCancelled
  | 3%N => r ← dec_text max_text_bytes "operation refusal"; mret (OperationRefused r)
  | 4%N => m ← decode_materialization; mret (Settled m)
  | other => dec_err (InvalidTag "operation receipt state" other)
  end.

Definition encode_payload (payload : ReceiptPayload) : Result bytes :=
  match payload with
  | PayloadEvent event_id state => mret ([0%N] ++ be_bytes 32 event_id ++ encode_receipt_state state)
  | PayloadReplaceableOperation coordinate acceptance state =>
      c ← encode_coordinate coordinate;
      s ← encode_operation_state state;
      mret ([1%N] ++ c ++ encode_acceptance acceptance ++ s)
  end.

Definition decode_payload : Decoder ReceiptPayload :=
  tag ← dec_u8;
  match tag with
  | 0%N => event_id ← dec_event_id; state ← decode_receipt_state; mret (PayloadEvent event_id state)
  | 1%N =>
      coordinate ← decode_coordinate; acceptance ← decode_acceptance; state ← decode_operation_state;
      mret (PayloadReplaceableOperation coordinate acceptance state)
  | other => dec_err (InvalidTag "receipt payload" other)
  end.

(** The terminal metadata, which is written all or none. *)
Definition encode_terminal_metadata (t : option N * option N * option N) : option bytes :=
  match t with
  | (None, None, None) => Some [0%N]
  | (Some sequence, Some terminal_at, Some terminal_bytes) =>
      Some ([1%N] ++ be_bytes 8 sequence ++ be_bytes 8 terminal_at ++ be_bytes 8 terminal_bytes)
  | _ => None
  end.

Definition decode_terminal_metadata : Decoder (option N * option N * option N) :=
  tag ← dec_u8;
  match tag with
  | 0%N => mret (None, None, None)
  | 1%N =>
      sequence ← dec_u64; terminal_at ← dec_u64; terminal_bytes ← dec_u64;
      mret (Some sequence, Some terminal_at, Some terminal_bytes)
  | other => dec_err (InvalidTag "terminal receipt metadata" other)
  end.

(** [None] is one of the encoder's three panics: an operation coordinate that is
    no address, an oversized refusal, or mixed terminal metadata. *)
Definition encode_receipt (record : ReceiptRecord) : option bytes :=
  match enc_option enc_u64 (rc_intent_id record), enc_option enc_u64 (rc_accepted_at record),
    encode_payload (rc_payload record), encode_terminal_metadata (rc_terminal record) with
  | inr intent_id, inr accepted_at, inr payload, Some terminal =>
      Some (enc_new receipt_magic ++ intent_id ++ be_bytes 32 (rc_expected_pubkey record) ++
            accepted_at ++ payload ++ terminal)
  | _, _, _, _ => None
  end.

Definition decode_receipt_body : Decoder ReceiptRecord :=
  intent_id ← dec_option "receipt intent" dec_u64;
  expected_pubkey ← dec_public_key;
  accepted_at ← dec_option "receipt acceptance" dec_u64;
  payload ← decode_payload;
  terminal ← decode_terminal_metadata;
  mret (mkReceipt intent_id expected_pubkey accepted_at payload terminal).

Definition decode_receipt (bs : bytes) : Result ReceiptRecord :=
  decode_value receipt_magic decode_receipt_body bs.

End claims.

(** ** The relay dictionary *)

Definition encode_relay (relay : RelayUrl) : Result bytes :=
  r ← enc_text relay max_relay_bytes "relay URL"; mret (enc_new relay_magic ++ r).

Definition decode_relay `{RelayParser} (bs : bytes) : Result RelayUrl :=
  encoded ← decode_value relay_magic (dec_text max_relay_bytes "relay URL") bs;
  match parse_relay encoded with
  | None => inl InvalidRelay
  | Some relay => if String.eqb relay encoded then mret relay else inl NonCanonicalRelay
  end.
