(* ===== verification/QueueRoundtrip.v ===== *)
(** * Publish-queue records round-trip

    Every record of [QueueCodec] is written as bytes its decoder reads back,
    and a decoder accepts nothing but what its encoder writes: each stored
    value has exactly one spelling. *)

From S2P Require Import Prelude Grammar Address Schema Canonical Ingest QueueBytes QueueCodec.

(** ** Values of the Rust types: machine-width integers and UTF-8 text *)

Definition u64 (n : N) : Prop := (n < 2 ^ 64)%N.
Definition id256 (n : N) : Prop := (n < 2 ^ 256)%N.
Definition on_some {A} (P : A → Prop) (o : option A) : Prop := ∀ x, o = Some x → P x.

Definition outcome_ok (o : AttemptOutcome) : Prop :=
  match o with Rejected reason => text_ok reason | _ => True end.
Definition terminal_ok (o : TerminalOutcome) : Prop :=
  match o with
  | TerminalRejected reason => text_ok reason
  | TerminalAuthDenied denial => text_ok (ad_reason denial)
  | _ => True
  end.
Definition phase_ok (p : InFlightPhase) : Prop :=
  match p with AwaitingHandoff => True | AwaitingAck deadline => u64 deadline end.
Definition state_ok (s : LaneState) : Prop :=
  match s with
  | WaitingConnection | WaitingAuth => True
  | Eligible since => u64 since
  | InFlight ordinal phase => u64 ordinal ∧ phase_ok phase
  | Transient ordinal eligible_at _ raw_reason => u64 ordinal ∧ u64 eligible_at ∧ on_some text_ok raw_reason
  | Terminal ordinal outcome => u64 ordinal ∧ terminal_ok outcome
  end.
Definition handoff_ok (h : AttemptHandoff) : Prop := u64 (ho_at h).
Definition transient_ok (t : AttemptTransient) : Prop :=
  u64 (tr_eligible_at t) ∧ on_some text_ok (tr_raw_reason t).

(** ** Automation *)

#[global] Arguments uint : simpl never.
#[global] Hint Unfold u64 id256 : nmp.

(** One field of a reading goal: a tag byte, an integer, or a field whose
    spelling is at hand. *)
Ltac read_step :=
  rewrite <-?app_assoc;
  lazymatch goal with
  | |- context [mbind (M := Decoder) ?k ?d ([?b] ++ ?r)] => rewrite (bind_reads d k b [b] r) by (by split)
  | |- context [mbind (M := Decoder) ?k ?d (be_bytes ?w ?n ++ ?r)] =>
      rewrite (bind_reads d k n (be_bytes w n) r) by (split; [assumption|reflexivity])
  | |- context [mbind (M := Decoder) ?k ?d (?f ++ ?r)] =>
      erewrite (bind_reads d k _ f r) by (eauto with nmp)
  end; cbn match.
Ltac split_encoded :=
  repeat match goal with
  | He : mbind (M := Result) _ _ = inr _ |- _ =>
      let b := fresh "b" in let Hb := fresh "Hb" in
      apply result_bind_inr in He as (b & Hb & He)
  end;
  repeat match goal with
  | He : mret (M := Result) _ = inr _ |- _ => apply (inj inr) in He; subst
  | He : inr _ = inr _ |- _ => apply (inj inr) in He; subst
  end.
Ltac read_all := split_encoded; repeat read_step; done.

(** The next field of a successful read, with its spelling. *)
Ltac inv_step Hd Hbs :=
  let Hx := fresh "Hx" in
  match type of Hd with mbind (M := Decoder) _ _ _ = _ => idtac end;
  dec_inv Hd Hbs.
Ltac spelled :=
  repeat match goal with
  | Hx : uint _ _ _ |- _ => destruct Hx as [? ->]
  | Hx : _ ∧ _ |- _ => destruct Hx as [? ?]
  end.
(** The bytes read are the concatenation of the fields' spellings, which the
    encoder writes. *)
Ltac encoded_done :=
  repeat match goal with He : _ = inr _ |- _ => rewrite He; clear He; cbn end;
  rewrite <-?app_assoc; reflexivity.
Ltac exact_done :=
  eexists; split; [rewrite ?app_assoc; reflexivity|];
  split; [done|]; try match goal with |- ?enc _ = _ => unfold enc end; cbn; encoded_done.

(** ** Lanes and attempts *)

#[global] Instance outcome_format :
  Format decode_attempt_outcome (λ o f, outcome_ok o ∧ encode_attempt_outcome o = inr f).
Proof.
  split.
  - intros o f rest [Hok He]. unfold decode_attempt_outcome.
    destruct o; cbn [encode_attempt_outcome outcome_ok] in *; read_all.
  - intros bs o rest Hbs Hd. unfold decode_attempt_outcome in Hd. inv_step Hd Hbs; spelled.
    tag_split Hd x; repeat (inv_step Hd Hbs; spelled); injection Hd as <- <-; exact_done.
Qed.

#[global] Instance auth_source_format : Format decode_auth_source (λ o f, f = encode_auth_source o).
Proof.
  split.
  - intros o f rest ->. unfold decode_auth_source, encode_auth_source. destruct o; read_all.
  - intros bs o rest Hbs Hd. unfold decode_auth_source in Hd. inv_step Hd Hbs; spelled.
    tag_split Hd x; injection Hd as <- <-; by eexists.
Qed.

#[global] Instance cause_format : Format decode_transient_cause (λ o f, f = encode_transient_cause o).
Proof.
  split.
  - intros o f rest ->. unfold decode_transient_cause, encode_transient_cause. destruct o; read_all.
  - intros bs o rest Hbs Hd. unfold decode_transient_cause in Hd. inv_step Hd Hbs; spelled.
    tag_split Hd x; injection Hd as <- <-; by eexists.
Qed.

#[global] Instance terminal_format :
  Format decode_terminal (λ o f, terminal_ok o ∧ encode_terminal o = inr f).
Proof.
  split.
  - intros o f rest [Hok He]. unfold decode_terminal.
    destruct o as [| | |[source reason]]; cbn [encode_terminal terminal_ok ad_source ad_reason] in *; read_all.
  - intros bs o rest Hbs Hd. unfold decode_terminal in Hd. inv_step Hd Hbs; spelled.
    tag_split Hd x; repeat (inv_step Hd Hbs; spelled); subst; injection Hd as <- <-; exact_done.
Qed.

#[global] Instance phase_format : Format decode_phase (λ p f, phase_ok p ∧ f = encode_phase p).
Proof.
  split.
  - intros o f rest [Hok ->]. unfold decode_phase. destruct o; cbn [encode_phase phase_ok] in *; read_all.
  - intros bs o rest Hbs Hd. unfold decode_phase in Hd. inv_step Hd Hbs; spelled.
    tag_split Hd x; repeat (inv_step Hd Hbs; spelled); subst; injection Hd as <- <-; exact_done.
Qed.

#[global] Instance lane_state_format :
  Format decode_lane_state (λ s f, state_ok s ∧ encode_lane_state s = inr f).
Proof.
  split.
  - intros o f rest [Hok He]. unfold decode_lane_state.
    destruct o; cbn [encode_lane_state state_ok] in *; spelled; read_all.
  - intros bs o rest Hbs Hd. unfold decode_lane_state in Hd. inv_step Hd Hbs; spelled.
    tag_split Hd x; repeat (inv_step Hd Hbs; spelled); subst; injection Hd as <- <-; exact_done.
Qed.

(** ** Attempt details *)

(** How an optional field is spelled, given how its value is. *)
Definition opt_spelled {A} (P : A → bytes → Prop) (o : option A) (f : bytes) : Prop :=
  match o with None => f = [0%N] | Some x => ∃ g, P x g ∧ f = [1%N] ++ g end.

#[global] Instance dec_option_format {A} (d : Decoder A) P what `{!Format d P} :
  Format (dec_option what d) (opt_spelled P).
Proof.
  split.
  - intros [x|] f rest; unfold dec_option; cbn [opt_spelled]; [intros (g & HP & ->)|intros ->]; read_all.
  - intros bs o rest Hbs Hd. unfold dec_option in Hd. inv_step Hd Hbs; spelled.
    tag_split Hd x; repeat (inv_step Hd Hbs); injection Hd as <- <-.
    + by exists [0%N].
    + eexists. rewrite app_assoc. split; [done|]. by eexists.
Qed.

Lemma opt_spelled_iff {A} (P : A → bytes → Prop) (ok : A → Prop) enc o f :
  (∀ x g, P x g ↔ ok x ∧ enc x = inr g) →
  opt_spelled P o f ↔ on_some ok o ∧ enc_option enc o = inr f.
Proof.
  intros HP. unfold on_some, enc_option, mret, result_ret. destruct o as [x|]; cbn [opt_spelled]; split.
  - intros (g & [Hok ->]%HP & ->). split; [|done]. by intros ? [= <-].
  - intros [Hok (g & He & [= <-])%result_bind_inr]. exists g. split; [|done]. apply HP. auto.
  - by intros ->.
  - intros [_ He]. by injection He as <-.
Qed.

Lemma u64_spelled n g : uint 8 n g ↔ u64 n ∧ enc_u64 n = inr g.
Proof. unfold uint, u64, enc_u64, mret, result_ret. naive_solver. Qed.

#[global] Instance handoff_result_format :
  Format decode_handoff_result (λ r f, f = encode_handoff_result r).
Proof.
  split.
  - intros o f rest ->. unfold decode_handoff_result, encode_handoff_result. destruct o; read_all.
  - intros bs o rest Hbs Hd. unfold decode_handoff_result in Hd. inv_step Hd Hbs; spelled.
    tag_split Hd x; injection Hd as <- <-; by eexists.
Qed.

#[global] Instance handoff_format :
  Format decode_handoff (λ h f, handoff_ok h ∧ encode_handoff h = inr f).
Proof.
  split.
  - intros [at_ result] f rest [Hok He]. unfold decode_handoff, encode_handoff, handoff_ok in *. cbn in Hok.
    cbn [ho_at ho_result] in *. read_all.
  - intros bs o rest Hbs Hd. unfold decode_handoff in Hd. repeat (inv_step Hd Hbs; spelled).
    subst. injection Hd as <- <-. exact_done.
Qed.

#[global] Instance transient_format :
  Format decode_transient (λ t f, transient_ok t ∧ encode_transient t = inr f).
Proof.
  split.
  - intros [at_ cause raw] f rest [[??] He]. unfold decode_transient, encode_transient in *.
    cbn [tr_eligible_at tr_cause tr_raw_reason] in *. read_all.
  - intros bs o rest Hbs Hd. unfold decode_transient in Hd. repeat (inv_step Hd Hbs; spelled).
    subst. injection Hd as <- <-. exact_done.
Qed.

(** A detail row's body, field by field. *)
Definition details_spelled (d : AttemptDetails) (f : bytes) : Prop :=
  ∃ f1 f2 f3 f4 f5, opt_spelled (uint 8) (dt_started_at d) f1 ∧
    opt_spelled (λ h f, handoff_ok h ∧ encode_handoff h = inr f) (dt_handoff d) f2 ∧
    opt_spelled (λ t f, transient_ok t ∧ encode_transient t = inr f) (dt_transient d) f3 ∧
    opt_spelled (uint 8) (dt_finished_at d) f4 ∧
    opt_spelled (λ o f, outcome_ok o ∧ encode_attempt_outcome o = inr f) (dt_terminal d) f5 ∧
    f = f1 ++ f2 ++ f3 ++ f4 ++ f5.

#[global] Instance details_format : Format decode_attempt_detail_body details_spelled.
Proof.
  split.
  - intros [??? ? ?] f rest (f1 & f2 & f3 & f4 & f5 & ? & ? & ? & ? & ? & ->).
    unfold decode_attempt_detail_body, decode_attempt_detail_prefix. cbn in *.
    unfold mbind at 1, decoder_bind at 1. repeat read_step.
    unfold mret, decoder_ret. repeat read_step. done.
  - intros bs o rest Hbs Hd. unfold decode_attempt_detail_body in Hd.
    apply bind_inr in Hd as ([??] & mid & Hp & Hd). unfold decode_attempt_detail_prefix in Hp.
    do 2 inv_step Hp Hbs. injection Hp as -> -> ->. do 3 inv_step Hd Hbs. injection Hd as <- <-.
    eexists. rewrite !app_assoc. split; [reflexivity|]. rewrite <-!app_assoc.
    eexists _, _, _, _, _. eauto 10.
Qed.


(** ** Counted lists *)

#[global] Instance dec_list_format {A} (d : Decoder A) P bound what `{!Format d P} :
  Format (dec_list bound what d) (λ l f,
    (N.of_nat (length l) <= bound)%N ∧ (N.of_nat (length l) < 2 ^ 32)%N ∧
    ∃ fs, Forall2 P l fs ∧ f = be_bytes 4 (N.of_nat (length l)) ++ concat fs).
Proof.
  split.
  - intros l f rest (Hb & Hlt & fs & HF & ->). unfold dec_list.
    rewrite <-app_assoc. dec_read (N.of_nat (length l)); [|done].
    rewrite (proj2 (N.ltb_ge _ _)) by done. rewrite Nat2N.id. apply format_reads. eauto.
  - intros bs l rest Hbs Hd. unfold dec_list in Hd. inv_step Hd Hbs; spelled.
    destruct (N.ltb_spec bound x) as [|Hb]; [done|].
    apply (format_exact _ _ _ Hbs) in Hd as (f & -> & Hlen & fs & HF & ->).
    assert (N.of_nat (length l) = x) as Hx by lia.
    eexists. rewrite app_assoc. split; [reflexivity|]. rewrite Hx. eauto.
Qed.

Lemma strictly_ordered_cons a b l :
  strictly_ordered (a :: b :: l) = true ↔ (a < b)%N ∧ strictly_ordered (b :: l) = true.
Proof.
  unfold strictly_ordered. cbn [windows_any]. rewrite negb_orb, andb_true_iff, negb_true_iff, N.leb_gt. done.
Qed.

(** On a sorted list, no two neighbours are equal iff it is strictly ordered. *)
Lemma sorted_windows l :
  StronglySorted N.le l → windows_any N.eqb l = negb (strictly_ordered l).
Proof.
  unfold strictly_ordered. rewrite negb_involutive.
  induction 1 as [|a l Hl IH Ha]; [done|]. destruct l as [|b l]; [done|].
  cbn [windows_any] in *. rewrite IH. f_equal. apply Forall_inv in Ha.
  destruct (N.eqb_spec a b), (N.leb_spec b a); done || lia.
Qed.

Lemma dedup_cons a l : ∃ l', dedup (a :: l) = a :: l'.
Proof.
  revert a. induction l as [|b l IH]; intros a; [by exists []|]. cbn [dedup].
  destruct (N.eqb_spec a b) as [->|]; [apply IH|]. eauto.
Qed.

(** Sorting and deduplicating gives the set in order. *)
Lemma dedup_sorted l :
  StronglySorted N.le l → strictly_ordered (dedup l) = true ∧ ∀ x, x ∈ dedup l ↔ x ∈ l.
Proof.
  induction 1 as [|a l Hl [IH1 IH2] Ha]; [done|]. destruct l as [|b l]; [done|].
  cbn [dedup] in *. destruct (N.eqb_spec a b) as [->|Hne].
  - split; [done|]. intros x. rewrite IH2. set_solver.
  - split; [|set_solver]. apply Forall_inv in Ha. destruct (dedup_cons b l) as [l' Heq].
    cbn [dedup] in *. rewrite Heq in *. apply strictly_ordered_cons. split; [lia|done].
Qed.

Lemma strictly_sorted l : strictly_ordered l = true → StronglySorted N.lt l.
Proof.
  induction l as [|a l IH]; [constructor|]. intros Hs. destruct l as [|b l]; [repeat constructor|].
  apply strictly_ordered_cons in Hs as [Hab Hs]. specialize (IH Hs). constructor; [done|].
  constructor; [done|]. apply StronglySorted_inv in IH as [_ IH].
  eapply Forall_impl; [exact IH|]. simpl. lia.
Qed.

Lemma dedup_strict l : strictly_ordered l = true → dedup l = l.
Proof.
  induction l as [|a l IH]; [done|]. destruct l as [|b l]; [done|].
  intros [Hab Hs]%strictly_ordered_cons. cbn [dedup] in *. rewrite (proj2 (N.eqb_neq a b)) by lia.
  by rewrite IH.
Qed.

Lemma merge_sort_sorted_id {A} (R : relation A) `{!RelDecision R, !Transitive R, !Total R, !AntiSymm (=) R} l :
  StronglySorted R l → merge_sort R l = l.
Proof.
  intros Hl. apply (StronglySorted_unique R); [by apply StronglySorted_merge_sort|done|].
  apply merge_sort_Permutation.
Qed.

(** A total field's spelling, as [Forall2_spelled] wants it. *)
Lemma uint_spelled w n f : uint w n f ↔ (n < 256 ^ N.of_nat w)%N ∧ f = be_bytes w n.
Proof. done. Qed.

(** What a counted list of infallibly spelled values decodes to. *)
Lemma decode_counted {A} (ok : A → Prop) (enc : A → bytes) magic (d : Decoder A) P bound what bs l `{!Format d P} :
  (∀ x f, P x f ↔ ok x ∧ f = enc x) → length magic = 4 → (bound < 2 ^ 32)%N → is_bytes bs →
  decode_value magic (dec_list bound what d) bs = inr l ↔
  Forall ok l ∧ (N.of_nat (length l) <= bound)%N ∧
  bs = enc_new magic ++ be_bytes 4 (N.of_nat (length l)) ++ concat (enc <$> l).
Proof.
  intros HP Hm Hb Hbs. rewrite (decode_value_iff magic _ _ bs l Hm Hbs). split.
  - intros (f & (Hle & _ & fs & HF & ->) & ->). apply (Forall2_spelled P enc ok) in HF as [Hok ->]; done.
  - intros (Hok & Hle & ->). eexists. split; [|reflexivity].
    split; [done|]. split; [lia|]. eexists. split; [|reflexivity]. by apply (Forall2_spelled P enc ok).
Qed.

Lemma decode_encode_route bs relays :
  is_bytes bs → decode_route bs = inr relays ↔ Forall (λ r, r < 2 ^ 32)%N relays ∧ encode_route relays = inr bs.
Proof.
  intros Hbs. unfold decode_route, encode_route.
  pose proof (λ l, decode_counted _ _ route_magic dec_u32 _ max_route_relays "route relay count" bs l
    (uint_spelled 4) eq_refl eq_refl Hbs) as Hc. split.
  - intros (l & (Hok & Hle & ->)%Hc & Hs)%result_bind_inr.
    destruct (strictly_ordered l) eqn:Eo; [|done]. injection Hs as <-.
    by rewrite (proj2 (N.ltb_ge _ _)), Eo.
  - intros [Hok He]. destruct (N.ltb_spec max_route_relays (N.of_nat (length relays))); [done|].
    destruct (strictly_ordered relays) eqn:Eo; [|done]. injection He as <-.
    rewrite (proj2 (Hc relays)) by done. cbn. by rewrite Eo.
Qed.

#[global] Instance claimant_le_trans : Transitive claimant_le.
Proof. intros a b c. unfold claimant_le. lia. Qed.
#[global] Instance claimant_le_total : Total claimant_le.
Proof. intros a b. unfold claimant_le. lia. Qed.

Definition claimant_ok (c : AddrClaimant) : Prop := u64 (ac_intent_id c) ∧ u64 (ac_ceiling c).

Lemma strictly_sorted_le l : strictly_ordered l = true → StronglySorted N.le l.
Proof.
  intros Hs%strictly_sorted. induction Hs as [|a l Hl IH Ha]; constructor; [done|].
  eapply Forall_impl; [exact Ha|]. simpl. lia.
Qed.

Lemma length_dedup l : length (dedup l) ≤ length l.
Proof.
  induction l as [|a l IH]; [done|]. destruct l as [|b l]; [done|]. cbn [dedup] in *.
  destruct (a =? b)%N; simpl in *; lia.
Qed.

(** Whatever order the claimants are given in, they are read back in order and
    without repetition. *)
Lemma decode_encode_claimants bs claimants :
  is_bytes bs → Forall u64 claimants → encode_claimants claimants = inr bs →
  decode_claimants bs = inr (dedup (merge_sort N.le claimants)).
Proof.
  intros Hbs Hok. unfold decode_claimants, encode_claimants.
  destruct (N.ltb_spec max_suppression_claims (N.of_nat (length claimants))) as [|Hle]; [done|].
  set (l := dedup (merge_sort N.le claimants)). intros [= Heq].
  destruct (dedup_sorted (merge_sort N.le claimants)) as [Hs Hel]; [apply (StronglySorted_merge_sort N.le)|].
  pose proof (merge_sort_Permutation N.le claimants) as Hperm.
  rewrite (proj2 (decode_counted _ _ claimants_magic dec_u64 _ max_suppression_claims "claimant count" bs l
    (uint_spelled 8) eq_refl eq_refl Hbs)).
  - cbn [mbind result_bind]. fold l in Hs. by rewrite Hs.
  - split; [|split; [|done]].
    + apply Forall_forall. intros x Hx. apply Hel in Hx. rewrite Hperm in Hx.
      by apply (proj1 (Forall_forall _ _) Hok).
    + pose proof (length_dedup (merge_sort N.le claimants)). pose proof (Permutation_length Hperm). unfold l. lia.
Qed.

Lemma decode_claimants_exact bs claimants :
  is_bytes bs →
  decode_claimants bs = inr claimants ↔
  Forall u64 claimants ∧ strictly_ordered claimants = true ∧ encode_claimants claimants = inr bs.
Proof.
  intros Hbs. pose proof (λ l, decode_counted _ _ claimants_magic dec_u64 _ max_suppression_claims
    "claimant count" bs l (uint_spelled 8) eq_refl eq_refl Hbs) as Hc. split.
  - unfold decode_claimants. intros (l & (Hok & Hle & ->)%Hc & Hs)%result_bind_inr.
    destruct (strictly_ordered l) eqn:Eo; [|done]. injection Hs as <-. split; [done|]. split; [done|]. unfold encode_claimants. rewrite (proj2 (N.ltb_ge _ _)) by done.
    rewrite (merge_sort_sorted_id N.le), dedup_strict; [done|done|].
    by apply strictly_sorted_le.
  - intros (Hok & Hs & He). rewrite (decode_encode_claimants bs claimants) by done.
    rewrite (merge_sort_sorted_id N.le), dedup_strict; [done|done|].
    by apply strictly_sorted_le.
Qed.

#[global] Instance addr_claimant_format : Format dec_addr_claimant
  (λ c f, claimant_ok c ∧ f = be_bytes 8 (ac_intent_id c) ++ be_bytes 8 (ac_ceiling c)).
Proof.
  split.
  - intros [i c] f rest [[??] ->]. unfold dec_addr_claimant. cbn [ac_intent_id ac_ceiling] in *. read_all.
  - intros bs c rest Hbs Hd. unfold dec_addr_claimant in Hd. repeat (inv_step Hd Hbs; spelled).
    injection Hd as <- <-. exact_done.
Qed.

(** Sorting by intent leaves the claimants' intents sorted. *)
Lemma sorted_claimants l : StronglySorted N.le (ac_intent_id <$> merge_sort claimant_le l).
Proof.
  pose proof (StronglySorted_merge_sort claimant_le l) as Hs.
  induction Hs as [|c l' Hl IH Hc]; simpl; constructor; [done|]. by apply Forall_fmap.
Qed.

Lemma encode_addr_claimants_inv l bs :
  encode_addr_claimants l = inr bs ↔
  (N.of_nat (length l) <= max_suppression_claims)%N ∧
  strictly_ordered (ac_intent_id <$> merge_sort claimant_le l) = true ∧
  bs = enc_new addr_claimants_magic ++ be_bytes 4 (N.of_nat (length (merge_sort claimant_le l))) ++
       concat ((λ c, be_bytes 8 (ac_intent_id c) ++ be_bytes 8 (ac_ceiling c)) <$> merge_sort claimant_le l).
Proof.
  unfold encode_addr_claimants. rewrite sorted_windows by apply sorted_claimants.
  destruct (N.ltb_spec max_suppression_claims (N.of_nat (length l))) as [|Hle]; [split; [done|lia]|].
  destruct (strictly_ordered _); simpl.
  - split; [intros [= <-]; done|by intros (_ & _ & ->)].
  - split; [done|by intros (_ & ? & _)].
Qed.

Lemma decode_encode_addr_claimants bs l :
  is_bytes bs → Forall claimant_ok l → encode_addr_claimants l = inr bs →
  decode_addr_claimants bs = inr (merge_sort claimant_le l).
Proof.
  intros Hbs Hok (Hle & Hs & Heq)%encode_addr_claimants_inv. unfold decode_addr_claimants.
  pose proof (merge_sort_Permutation claimant_le l) as Hperm.
  rewrite (proj2 (decode_counted _ _ addr_claimants_magic dec_addr_claimant _ max_suppression_claims
    "address claimant count" bs (merge_sort claimant_le l) (λ _ _, iff_refl _) eq_refl eq_refl Hbs)).
  - cbn [mbind result_bind]. by rewrite Hs.
  - split; [by rewrite Hperm|]. split; [|done]. by rewrite (Permutation_length Hperm).
Qed.

Lemma sorted_addr_claimants_id l :
  strictly_ordered (ac_intent_id <$> l) = true → merge_sort claimant_le l = l.
Proof.
  intros Hs%strictly_sorted. pose proof (merge_sort_Permutation claimant_le l) as Hperm.
  assert (∀ x y, x ∈ l → y ∈ l → ac_intent_id x = ac_intent_id y → x = y) as Hinj.
  { clear Hperm. induction l as [|c l IH]; [set_solver|]. simpl in Hs.
    apply StronglySorted_inv in Hs as [Hs Hc]. rewrite Forall_fmap in Hc.
    assert (∀ x, x ∈ l → (ac_intent_id c < ac_intent_id x)%N) as Hlt by (by apply Forall_forall).
    intros x y [->|Hx]%elem_of_cons [->|Hy]%elem_of_cons Heq; [done| | |by apply IH].
    - apply Hlt in Hy. lia.
    - apply Hlt in Hx. lia. }
  apply (StronglySorted_unique_strong claimant_le); [|apply (StronglySorted_merge_sort claimant_le)| |done].
  - intros x y Hx Hy ??. rewrite Hperm in Hx. apply Hinj; [done..|]. unfold claimant_le in *. lia.
  - clear Hperm Hinj. induction l as [|c l IH]; [constructor|]. simpl in Hs.
    apply StronglySorted_inv in Hs as [Hs Hc]. constructor; [by apply IH|].
    rewrite Forall_fmap in Hc. eapply Forall_impl; [exact Hc|]. unfold claimant_le. simpl. lia.
Qed.

Lemma decode_addr_claimants_exact bs l :
  is_bytes bs →
  decode_addr_claimants bs = inr l ↔
  Forall claimant_ok l ∧ strictly_ordered (ac_intent_id <$> l) = true ∧ encode_addr_claimants l = inr bs.
Proof.
  intros Hbs. pose proof (λ l, decode_counted _ _ addr_claimants_magic dec_addr_claimant _
    max_suppression_claims "address claimant count" bs l (λ _ _, iff_refl _) eq_refl eq_refl Hbs) as Hc. split.
  - unfold decode_addr_claimants. intros (l' & (Hok & Hle & ->)%Hc & Hs)%result_bind_inr.
    destruct (strictly_ordered _) eqn:Eo; [|done]. injection Hs as <-. split; [done|]. split; [done|]. apply encode_addr_claimants_inv. by rewrite sorted_addr_claimants_id.
  - intros (Hok & Hs & He). rewrite (decode_encode_addr_claimants bs l) by done.
    by rewrite sorted_addr_claimants_id.
Qed.

(** ** Suppression claims and receipts *)

Section receipts.
Context `{PublicKeyReaderLaws}.

Definition claim_ok (c : SuppressClaim) : Prop :=
  match c with
  | ClaimId target claiming_author => id256 target ∧ pk_ok claiming_author
  | ClaimAddr _ ceiling deleting_author => u64 ceiling ∧ pk_ok deleting_author
  end.
Definition coordinate_ok (c : Coordinate) : Prop :=
  (co_kind c < 2 ^ 16)%N ∧ pk_ok (co_public_key c) ∧ text_ok (co_identifier c).
Definition materialization_ok (m : MaterializationRef) : Prop :=
  u64 (mr_materialization_id m) ∧ id256 (mr_event_id m).
Definition operation_state_ok (s : OperationReceiptState) : Prop :=
  match s with
  | Contributing current => on_some (λ m, materialization_ok (mt_materialization m)) current
  | Settled m => materialization_ok m
  | OperationRefused reason => text_ok reason
  | _ => True
  end.
Definition payload_ok (p : ReceiptPayload) : Prop :=
  match p with
  | PayloadEvent event_id _ => id256 event_id
  | PayloadReplaceableOperation coordinate acceptance state =>
      coordinate_ok coordinate ∧ (∀ id, acceptance = BodyComplete id → id256 id) ∧ operation_state_ok state
  end.
Definition metadata_ok (t : option N * option N * option N) : Prop :=
  on_some u64 t.1.1 ∧ on_some u64 t.1.2 ∧ on_some u64 t.2.
Definition receipt_ok (r : ReceiptRecord) : Prop :=
  on_some u64 (rc_intent_id r) ∧ pk_ok (rc_expected_pubkey r) ∧ on_some u64 (rc_accepted_at r) ∧
  payload_ok (rc_payload r) ∧ metadata_ok (rc_terminal r).

#[global] Instance claim_format : Format dec_claim (λ c f, claim_ok c ∧ encode_claim c = inr f).
Proof.
  split.
  - intros c f rest [Hok He]. unfold dec_claim.
    destruct c as [t a|k c d]; cbn [encode_claim claim_ok] in *; destruct Hok; split_encoded; repeat read_step.
    + done.
    + dec_read (as_bytes k); [|by split; [apply is_bytes_as_bytes|]].
      repeat read_step. by rewrite string_of_as_bytes.
  - intros bs c rest Hbs Hd. unfold dec_claim in Hd. inv_step Hd Hbs; spelled.
    tag_split Hd x; repeat (inv_step Hd Hbs; spelled); subst; injection Hd as <- <-; [exact_done|].
    eexists; split; [rewrite ?app_assoc; reflexivity|]. split; [done|]. cbn [encode_claim].
    rewrite as_string_of_bytes by done. encoded_done.
Qed.

#[global] Instance sig_state_format : Format decode_sig_state (λ s f, f = encode_sig_state s).
Proof.
  split.
  - intros o f rest ->. unfold decode_sig_state, encode_sig_state. destruct o; read_all.
  - intros bs o rest Hbs Hd. unfold decode_sig_state in Hd. inv_step Hd Hbs; spelled.
    tag_split Hd x; injection Hd as <- <-; by eexists.
Qed.

#[global] Instance coordinate_format :
  Format decode_coordinate (λ c f, coordinate_ok c ∧ encode_coordinate c = inr f).
Proof.
  split.
  - intros [k pk d] f rest [(?&?&?) He]. unfold decode_coordinate, encode_coordinate in *.
    cbn [co_kind co_public_key co_identifier] in *.
    destruct (address_key_for_coordinate _) eqn:Ea; [|done]. split_encoded. repeat read_step. by rewrite Ea.
  - intros bs c rest Hbs Hd. unfold decode_coordinate in Hd. repeat (inv_step Hd Hbs; spelled). subst.
    destruct (address_key_for_coordinate _) eqn:Ea; [|done]. injection Hd as <- <-.
    eexists; split; [rewrite ?app_assoc; reflexivity|]. split; [done|]. unfold encode_coordinate. rewrite Ea.
    cbn [co_kind co_public_key co_identifier]. encoded_done.
Qed.

#[global] Instance refuse_reason_format : Format decode_refuse_reason (λ r f, f = encode_refuse_reason r).
Proof.
  split.
  - intros o f rest ->. unfold decode_refuse_reason. destruct o; cbn [encode_refuse_reason]; read_all.
  - intros bs o rest Hbs Hd. unfold decode_refuse_reason in Hd. inv_step Hd Hbs; spelled.
    tag_split Hd x; injection Hd as <- <-; by eexists.
Qed.

#[global] Instance receipt_state_format : Format decode_receipt_state (λ s f, f = encode_receipt_state s).
Proof.
  split.
  - intros o f rest ->. unfold decode_receipt_state. destruct o; cbn [encode_receipt_state]; read_all.
  - intros bs o rest Hbs Hd. unfold decode_receipt_state in Hd. inv_step Hd Hbs; spelled.
    tag_split Hd x; repeat (inv_step Hd Hbs; spelled); subst; injection Hd as <- <-;
      (eexists; split; [rewrite ?app_assoc; reflexivity|done]).
Qed.

#[global] Instance materialization_format :
  Format decode_materialization (λ m f, materialization_ok m ∧ f = encode_materialization m).
Proof.
  split.
  - intros [i e] f rest [[??] ->]. unfold decode_materialization, encode_materialization.
    cbn [mr_materialization_id mr_event_id] in *. read_all.
  - intros bs o rest Hbs Hd. unfold decode_materialization in Hd. repeat (inv_step Hd Hbs; spelled).
    injection Hd as <- <-. exact_done.
Qed.

#[global] Instance acceptance_format :
  Format decode_acceptance (λ a f, (∀ id, a = BodyComplete id → id256 id) ∧ f = encode_acceptance a).
Proof.
  split.
  - intros [|id] f rest [Hok ->]; unfold decode_acceptance; cbn [encode_acceptance]; [read_all|].
    specialize (Hok id eq_refl). read_all.
  - intros bs o rest Hbs Hd. unfold decode_acceptance in Hd. inv_step Hd Hbs; spelled.
    tag_split Hd x; repeat (inv_step Hd Hbs; spelled); injection Hd as <- <-.
    + exact_done.
    + eexists; split; [rewrite app_assoc; reflexivity|]. split; [by intros ? [= <-]|done].
Qed.

#[global] Instance materialization_receipt_format :
  Format decode_materialization_receipt
    (λ m f, materialization_ok (mt_materialization m) ∧ encode_materialization_receipt m = inr f).
Proof.
  split.
  - intros [m s] f rest [Hok He]. unfold decode_materialization_receipt, encode_materialization_receipt in *.
    cbn [mt_materialization mt_sig_state] in *. read_all.
  - intros bs o rest Hbs Hd. unfold decode_materialization_receipt in Hd. repeat (inv_step Hd Hbs; spelled).
    subst. injection Hd as <- <-. exact_done.
Qed.
(** An operation state, with its optional materialization as spelled. *)
#[global] Instance operation_state_format :
  Format decode_operation_state (λ s f, operation_state_ok s ∧ encode_operation_state s = inr f).
Proof.
  pose proof (λ o f, opt_spelled_iff _ (λ m, materialization_ok (mt_materialization m))
    encode_materialization_receipt o f (λ _ _, iff_refl _)) as Hm.
  split.
  - intros o f rest [Hok He]. unfold decode_operation_state.
    destruct o; cbn [encode_operation_state operation_state_ok] in *; split_encoded; repeat read_step; try done.
    dec_read current; [done|]. by apply Hm.
  - intros bs o rest Hbs Hd. unfold decode_operation_state in Hd. inv_step Hd Hbs; spelled.
    tag_split Hd x; repeat (inv_step Hd Hbs; spelled);
      repeat match goal with Hx : opt_spelled _ _ _ |- _ => apply Hm in Hx as [? ?] end;
      subst; injection Hd as <- <-; exact_done.
Qed.

#[global] Instance payload_format : Format decode_payload (λ p f, payload_ok p ∧ encode_payload p = inr f).
Proof.
  split.
  - intros p f rest [Hok He]. unfold decode_payload.
    destruct p; cbn [encode_payload payload_ok] in *; [|destruct Hok as (?&?&?)]; read_all.
  - intros bs p rest Hbs Hd. unfold decode_payload in Hd. inv_step Hd Hbs; spelled.
    tag_split Hd x; repeat (inv_step Hd Hbs; spelled); subst; injection Hd as <- <-; exact_done.
Qed.

#[global] Instance metadata_format :
  Format decode_terminal_metadata (λ t f, metadata_ok t ∧ encode_terminal_metadata t = Some f).
Proof.
  split.
  - intros [[[s|] [a|]] [b|]] f rest [(H1 & H2 & H3) He]; try done; injection He as <-;
      unfold decode_terminal_metadata; cbn [fst snd] in *.
    + specialize (H1 s eq_refl). specialize (H2 a eq_refl). specialize (H3 b eq_refl).
      change (?x :: ?l) with ([x] ++ l). read_all.
    + read_all.
  - intros bs t rest Hbs Hd. unfold decode_terminal_metadata in Hd. inv_step Hd Hbs; spelled.
    tag_split Hd x; repeat (inv_step Hd Hbs; spelled); injection Hd as <- <-.
    + by exists [0%N].
    + eexists; split; [rewrite ?app_assoc; reflexivity|]. rewrite <-?app_assoc.
      split; [|done]. by split; [|split]; intros ? [= <-].
Qed.

(** A receipt's body, field by field. *)
Definition receipt_spelled (r : ReceiptRecord) (f : bytes) : Prop :=
  ∃ f1 f3 f4 f5, opt_spelled (uint 8) (rc_intent_id r) f1 ∧ pk_ok (rc_expected_pubkey r) ∧
    opt_spelled (uint 8) (rc_accepted_at r) f3 ∧
    (payload_ok (rc_payload r) ∧ encode_payload (rc_payload r) = inr f4) ∧
    (metadata_ok (rc_terminal r) ∧ encode_terminal_metadata (rc_terminal r) = Some f5) ∧
    f = f1 ++ be_bytes 32 (rc_expected_pubkey r) ++ f3 ++ f4 ++ f5.

#[global] Instance receipt_format : Format decode_receipt_body receipt_spelled.
Proof.
  split.
  - intros [i pk a p t] f rest (f1 & f3 & f4 & f5 & ? & ? & ? & ? & ? & ->).
    unfold decode_receipt_body. cbn [rc_intent_id rc_expected_pubkey rc_accepted_at rc_payload rc_terminal] in *.
    read_all.
  - intros bs r rest Hbs Hd. unfold decode_receipt_body in Hd. do 5 inv_step Hd Hbs.
    injection Hd as <- <-. destruct Hx0 as [? ->].
    eexists. rewrite !app_assoc. split; [reflexivity|]. rewrite <-!app_assoc.
    eexists _, _, _, _. eauto 10.
Qed.

Lemma receipt_spelled_iff r f :
  receipt_spelled r f ↔ receipt_ok r ∧ encode_receipt r = Some (enc_new receipt_magic ++ f).
Proof.
  pose proof (λ o f, opt_spelled_iff (uint 8) u64 enc_u64 o f u64_spelled) as Hu.
  unfold receipt_spelled, receipt_ok, encode_receipt. split.
  - intros (f1 & f3 & f4 & f5 & [? ->]%Hu & ? & [? ->]%Hu & [? ->] & [? ->] & ->). done.
  - intros [(? & ? & ? & ? & ?) He]. repeat case_match; try done.
    injection He as <-. eexists _, _, _, _. rewrite !Hu. eauto 15.
Qed.
End receipts.

(** ** The records *)

#[global] Instance deadline_format :
  Format decode_deadline_body (λ d f, u64 d.1 ∧ f = be_bytes 8 d.1 ++
    [match d.2 with RetryEligible => 0 | AckTimeout => 1 end]%N).
Proof.
  split.
  - intros [n k] f rest [Hok ->]. unfold decode_deadline_body. cbn [fst snd] in *. destruct k; read_all.
  - intros bs d rest Hbs Hd. unfold decode_deadline_body in Hd. repeat (inv_step Hd Hbs; spelled).
    tag_split Hd x0; injection Hd as <- <-; exact_done.
Qed.






Section control.
Context `{PublicKeyReaderLaws} `{RelayParser}.

Lemma claims_spelled l body :
  (∃ fs, Forall2 (λ c f, claim_ok c ∧ encode_claim c = inr f) l fs ∧ body = concat fs) ↔
  Forall claim_ok l ∧
  foldr (λ claim rest, c ← encode_claim claim; r ← rest; mret (c ++ r)) (mret []) l = inr body.
Proof.
  revert body. induction l as [|c l IH]; intros body; cbn [foldr].
  - split; [by intros (fs & ->%Forall2_nil_inv_l & ->)|]. intros [_ [= <-]]. by exists [].
  - split.
    + intros (fs & (f & fs' & [Hok ->] & HF & ->)%Forall2_cons_inv_l & ->).
      destruct (proj1 (IH (concat fs'))) as [Hl ->]; [by eexists|]. split; [by constructor|done].
    + intros [[Hc Hl]%Forall_cons (f & Hf & (r & Hr & [= <-])%result_bind_inr)%result_bind_inr].
      destruct (proj2 (IH r) (conj Hl Hr)) as (fs & HF & ->). exists (f :: fs). split; [by constructor|done].
Qed.

Lemma decode_claims_iff bs l :
  is_bytes bs → decode_claims bs = inr l ↔ Forall claim_ok l ∧ encode_claims l = inr bs.
Proof.
  intros Hbs. unfold decode_claims, encode_claims. rewrite (decode_value_iff claims_magic _ _ bs l eq_refl Hbs).
  split.
  - intros (f & (Hle & Hlt & fs & HF & ->) & ->).
    destruct (proj1 (claims_spelled l (concat fs))) as [Hok ->]; [by eexists|].
    by rewrite (proj2 (N.ltb_ge _ _)).
  - intros [Hok He]. destruct (N.ltb_spec max_suppression_claims (N.of_nat (length l))) as [|Hle]; [done|].
    apply result_bind_inr in He as (body & Hb & [= <-]).
    destruct (proj2 (claims_spelled l body) (conj Hok Hb)) as (fs & HF & ->).
    eexists. split; [|reflexivity]. split; [done|]. split; [unfold max_suppression_claims in *; lia|]. eauto.
Qed.

Lemma decode_relay_iff bs relay :
  is_bytes bs →
  decode_relay bs = inr relay ↔ text_ok relay ∧ parse_relay relay = Some relay ∧ encode_relay relay = inr bs.
Proof.
  intros Hbs. unfold decode_relay, encode_relay.
  pose proof (λ r, decode_value_iff relay_magic (dec_text max_relay_bytes "relay URL") _ bs r eq_refl Hbs) as Hv.
  split.
  - intros (r & (f & [Hok He] & ->)%Hv & Hp)%result_bind_inr. destruct (parse_relay r) as [u|] eqn:E; [|done].
    destruct (String.eqb_spec u r) as [->|]; [|done]. injection Hp as <-. by rewrite He.
  - intros (Hok & Hp & (f & He & [= <-])%result_bind_inr).
    rewrite (proj2 (Hv relay)) by eauto. cbn [mbind result_bind]. by rewrite Hp, String.eqb_refl.
Qed.


(** C28: the control records of the publish queue survive storage exactly. A byte
    string decodes to a route, a receipt, a list of suppression claims, a
    claimant set or a relay iff it is that value's encoding; claimants are
    stored sorted, so any order of them is read back as the ordered set. *)
Theorem control_records_roundtrip bs :
  is_bytes bs →
  (∀ relays, decode_route bs = inr relays ↔ Forall (λ r, r < 2 ^ 32)%N relays ∧ encode_route relays = inr bs) ∧
  (∀ r, decode_receipt bs = inr r ↔ receipt_ok r ∧ encode_receipt r = Some bs) ∧
  (∀ l, decode_claims bs = inr l ↔ Forall claim_ok l ∧ encode_claims l = inr bs) ∧
  (∀ l, decode_claimants bs = inr l ↔
     Forall u64 l ∧ strictly_ordered l = true ∧ encode_claimants l = inr bs) ∧
  (∀ l, Forall u64 l → encode_claimants l = inr bs →
     decode_claimants bs = inr (dedup (merge_sort N.le l)) ∧ ∀ x, x ∈ dedup (merge_sort N.le l) ↔ x ∈ l) ∧
  (∀ l, decode_addr_claimants bs = inr l ↔
     Forall claimant_ok l ∧ strictly_ordered (ac_intent_id <$> l) = true ∧ encode_addr_claimants l = inr bs) ∧
  (∀ relay, decode_relay bs = inr relay ↔
     text_ok relay ∧ parse_relay relay = Some relay ∧ encode_relay relay = inr bs).
Proof.
  intros Hbs. split; [intros; by apply decode_encode_route|]. split; [|split; [intros; by apply decode_claims_iff|]].
  { intros r. unfold decode_receipt. rewrite (decode_value_iff receipt_magic _ _ bs r eq_refl Hbs). split.
    - intros (f & [Hok He]%receipt_spelled_iff & ->). done.
    - intros [Hok He]. assert (∃ f, bs = enc_new receipt_magic ++ f) as [f ->].
      { unfold encode_receipt in He. repeat case_match; simplify_eq. by eexists. }
      exists f. by rewrite receipt_spelled_iff. }
  split; [intros; by apply decode_claimants_exact|]. split; [|split].
  - intros l Hok He. split; [by apply decode_encode_claimants|]. intros x.
    destruct (dedup_sorted (merge_sort N.le l)) as [_ Hel]; [apply (StronglySorted_merge_sort N.le)|].
    by rewrite Hel, (merge_sort_Permutation N.le l).
  - intros; by apply decode_addr_claimants_exact.
  - intros; by apply decode_relay_iff.
Qed.
End control.

(** ** Concrete records *)

#[global] Instance is_bytes_dec bs : Decision (is_bytes bs).
Proof. unfold is_bytes. apply _. Defined.

#[global] Instance sample_pk_reader : PublicKeyReader := λ bs,
  if decide (length bs = 32 ∧ is_bytes bs) then Some (from_be_bytes bs) else None.
#[global] Instance sample_pk_reader_laws : PublicKeyReaderLaws.
Proof.
  split. intros bs pk. unfold pk_from_slice, sample_pk_reader. case_decide as Hd; [|done].
  intros [= <-]. destruct Hd as [Hlen Hbs]. rewrite <-Hlen. symmetry. by apply be_from_bytes.
Qed.

Module RecordSample.
Definition receipt : ReceiptRecord :=
  mkReceipt (Some 4%N) 9 (Some 1700%N)
    (PayloadReplaceableOperation (mkCoordinate 30023 9 "post") (BodyComplete 77)
       (Contributing (Some (mkMatReceipt (mkMatRef 1 77) IntentSigned))))
    (None, None, None).
Definition receipt_bytes : bytes := default [] (encode_receipt receipt).
End RecordSample.


Lemma control_records_roundtrip_witness :
  decode_receipt RecordSample.receipt_bytes = inr RecordSample.receipt.
Proof.
  assert (is_bytes RecordSample.receipt_bytes) as Hbs by decide_now.
  apply (proj1 (proj2 (control_records_roundtrip RecordSample.receipt_bytes Hbs)) RecordSample.receipt).
  split; [|vm_compute; reflexivity].
  split; [intros ? [= <-]; vm_compute; reflexivity|]. split; [vm_compute; reflexivity|].
  split; [intros ? [= <-]; vm_compute; reflexivity|]. split; [|by split; [|split]; intros ? [=]].
  split; [split; [|split]; vm_compute; reflexivity|].
  split; [intros ? [= <-]; vm_compute; reflexivity|]. intros ? [= <-]. split; vm_compute; reflexivity.
Defined.
