(* ===== verification/Lanes.v ===== *)
(** * Delivery lanes

    One lane per relay an intent is published to: its cursor, its attempts and
    their evidence, and the deadline index that wakes it
    ([crates/nmp-store/src/redb_store/publish_queue.rs],
    [publish_queue_ops.rs], and [persist_lane_state] and the relay dictionary of
    [store.rs]).

    The tables hold decoded records: a write fails where the encoder fails and a
    read where the decoder's cross-checks do ([QueueRoundtrip]).  [None] is a
    [PersistenceError]; every operation is one transaction, so nothing of a
    failed one is kept.  The relay dictionary is read from its tables; the cache
    in front of them holds copies of rows that never change. *)

From S2P Require Import Prelude Grammar Address Coverage Schema Canonical Ingest QueueBytes QueueCodec.

Definition u64_succ (n : N) : option N := if (n <? u64_max)%N then Some (n + 1)%N else None.
Definition u64_saturating_succ (n : N) : N := if (n <? u64_max)%N then (n + 1)%N else u64_max.

Record LaneKey := mkLaneKey { lk_intent_id : N; lk_event_id : EventId; lk_relay : RelayUrl }.
#[global] Instance LaneKey_eq_dec : EqDecision LaneKey.
Proof. solve_decision. Defined.

(** [PublishQueueLane]. *)
Record DeliveryLane := mkLane { la_key : LaneKey; la_row : LaneRow }.

Record Deadline := mkDeadline {
  dl_at : N; dl_key : LaneKey; dl_lane_revision : N; dl_kind : DeadlineKind
}.
#[global] Instance Deadline_eq_dec : EqDecision Deadline.
Proof. solve_decision. Defined.

Record Attempt := mkAttempt {
  at_relay : RelayUrl; at_ordinal : N; at_event_id : EventId; at_outcome : AttemptOutcome
}.

Inductive PostHandoffState :=
  | PostWaitingConnection
  | PostAwaitingAck (deadline : N)
  | PostTransient (eligible_at : N) (cause : TransientCause) (raw_reason : option string)
  | PostTerminal (outcome : AttemptOutcome) (finished_at : N).

(** The delivery tables, keyed by intent, relay surrogate and ordinal. *)
Record Journal := mkJournal {
  j_intents : gmap N IntentRecord;
  j_routes : gmap (N * N) (list N);
  j_attempts : gmap (N * N * N) (EventId * AttemptOutcome);
  j_details : gmap (N * N * N) AttemptDetails;
  j_lanes : gmap (N * N) LaneRow;
  j_deadlines : gmap (N * N * N) (N * DeadlineKind);
  j_relays : gmap N RelayUrl;
  j_relay_ids : gmap RelayUrl N;
  j_next_relay : N
}.

Definition set_lanes (j : Journal) lanes deadlines : Journal :=
  mkJournal (j_intents j) (j_routes j) (j_attempts j) (j_details j) lanes deadlines
    (j_relays j) (j_relay_ids j) (j_next_relay j).
Definition set_attempts (j : Journal) attempts details : Journal :=
  mkJournal (j_intents j) (j_routes j) attempts details (j_lanes j) (j_deadlines j)
    (j_relays j) (j_relay_ids j) (j_next_relay j).
Definition set_details (j : Journal) details : Journal := set_attempts j (j_attempts j) details.
Definition set_routes (j : Journal) routes : Journal :=
  mkJournal (j_intents j) routes (j_attempts j) (j_details j) (j_lanes j) (j_deadlines j)
    (j_relays j) (j_relay_ids j) (j_next_relay j).
Definition set_dictionary (j : Journal) relays relay_ids next : Journal :=
  mkJournal (j_intents j) (j_routes j) (j_attempts j) (j_details j) (j_lanes j) (j_deadlines j)
    relays relay_ids next.

(** ** Reading and writing records *)

Definition encodes {A} (r : Result A) : Prop := match r with inr _ => True | inl _ => False end.
#[global] Instance encodes_dec {A} (r : Result A) : Decision (encodes r).
Proof. destruct r; apply _. Defined.

(** The cross-checks of [decode_lane]. *)
Definition lane_decodes (row : LaneRow) : Prop :=
  ln_revision row ≠ 0%N ∧
  match state_ordinal (ln_state row) with Some ordinal => ordinal = ln_last_ordinal row | None => True end.
#[global] Instance lane_decodes_dec row : Decision (lane_decodes row).
Proof. unfold lane_decodes. destruct (state_ordinal _); apply _. Defined.

(** The cross-checks of [decode_attempt_detail]. *)
Definition details_decode (d : AttemptDetails) : Prop :=
  dt_terminal d ≠ Some Started ∧ (is_Some (dt_finished_at d) ↔ is_Some (dt_terminal d)).
#[global] Instance details_decode_dec d : Decision (details_decode d).
Proof. unfold details_decode. apply _. Defined.

Definition read_lane (j : Journal) (k : N * N) : option LaneRow :=
  row ← j_lanes j !! k; guard (lane_decodes row);; Some row.
Definition read_details (j : Journal) (k : N * N * N) : option AttemptDetails :=
  d ← j_details j !! k; guard (details_decode d);; Some d.
Definition write_details (j : Journal) (k : N * N * N) (d : AttemptDetails) : option Journal :=
  guard (encodes (encode_attempt_details d));; Some (set_details j (<[k := d]> (j_details j))).

(** ** The relay dictionary *)

Definition publish_queue_relay_id (j : Journal) (relay : RelayUrl) : option N :=
  id ← j_relay_ids j !! relay;
  url ← j_relays j !! id;
  guard (url = relay);; Some id.

Definition publish_queue_relay (j : Journal) (id : N) : option RelayUrl :=
  relay ← j_relays j !! id;
  reverse_id ← j_relay_ids j !! relay;
  guard (reverse_id = id);; Some relay.

Definition intern_relay_in_txn (j : Journal) (relay : RelayUrl) : option (N * Journal) :=
  match j_relay_ids j !! relay with
  | Some id =>
      forward ← j_relays j !! id;
      guard (forward = relay);; Some (id, j)
  | None =>
      let id := j_next_relay j in
      next ← u64_succ id;
      guard (id <= u32_max)%N;;
      guard (encodes (encode_relay relay));;
      Some (id, set_dictionary j (<[id := relay]> (j_relays j)) (<[relay := id]> (j_relay_ids j)) next)
  end.

Fixpoint intern_relays (j : Journal) (relays : list RelayUrl) : option (list N * Journal) :=
  match relays with
  | [] => Some ([], j)
  | relay :: relays =>
      '(id, j) ← intern_relay_in_txn j relay;
      '(ids, j) ← intern_relays j relays;
      Some (id :: ids, j)
  end.

(** ** Routes *)

(** The ordinals of an intent's recorded routes. *)
Definition route_ordinals (j : Journal) (intent_id : N) : list N :=
  omap (λ '((i, ordinal), _), if (i =? intent_id)%N then Some ordinal else None) (map_to_list (j_routes j)).

(** [canonical_route_ids]: collecting into a [BTreeSet]. *)
Definition canonical_route_ids (ids : list N) : list N := ordered (list_to_set ids : gset N).

Definition record_route_revision (j : Journal) (intent_id : N) (relays : gset RelayUrl)
    : option (N * Journal) :=
  guard (is_Some (j_intents j !! intent_id));;
  let last := foldl N.max 0%N (route_ordinals j intent_id) in
  ordinal ← u64_succ last;
  '(interned, j) ← intern_relays j (ordered relays);
  let ids := canonical_route_ids interned in
  guard (encodes (encode_route ids));;
  Some (ordinal, set_routes j (<[(intent_id, ordinal) := ids]> (j_routes j))).

(** ** The lane cursor and its deadline *)

Definition lane_state_deadline (state : LaneState) : option (N * DeadlineKind) :=
  match state with
  | Transient _ eligible_at _ _ => Some (eligible_at, RetryEligible)
  | InFlight _ (AwaitingAck deadline) => Some (deadline, AckTimeout)
  | _ => None
  end.

Definition lane_deadline (lane : DeliveryLane) : option Deadline :=
  '(at_, kind) ← lane_state_deadline (ln_state (la_row lane));
  Some (mkDeadline at_ (la_key lane) (ln_revision (la_row lane)) kind).

(** The deadline table without the entry of the lane [k] in [state]. *)
Definition clear_deadline (k : N * N) (state : LaneState) (deadlines : gmap (N * N * N) (N * DeadlineKind)) :=
  match lane_state_deadline state with
  | Some (at_, _) => delete (at_, k.1, k.2) deadlines
  | None => deadlines
  end.
Definition post_deadline (k : N * N) (row : LaneRow) (deadlines : gmap (N * N * N) (N * DeadlineKind)) :=
  match lane_state_deadline (ln_state row) with
  | Some (at_, kind) => <[(at_, k.1, k.2) := (ln_revision row, kind)]> deadlines
  | None => deadlines
  end.

Definition replace_lane (j : Journal) (key : LaneKey) (relay_id expected_revision : N) (state : LaneState)
    : option (DeliveryLane * Journal) :=
  let k := (lk_intent_id key, relay_id) in
  current ← read_lane j k;
  guard (ln_event_id current = lk_event_id key);;
  guard (ln_revision current = expected_revision);;
  let deadlines := clear_deadline k (ln_state current) (j_deadlines j) in
  revision ← u64_succ (ln_revision current);
  last_ordinal ← match state_ordinal state with
    | Some ordinal =>
        if (u64_saturating_succ (ln_last_ordinal current) <? ordinal)%N then None else Some ordinal
    | None => Some (ln_last_ordinal current)
    end;
  let row := mkLaneRow (lk_event_id key) revision last_ordinal state in
  guard (encodes (encode_lane row));;
  Some (mkLane key row, set_lanes j (<[k := row]> (j_lanes j)) (post_deadline k row deadlines)).

(** [IntentRecord::current_event_id]. *)
Definition current_event_id (r : IntentRecord) : option EventId :=
  match in_work r with
  | WorkEvent frozen _ _ => Some (e_id frozen)
  | WorkReplaceableOperation _ materialization => (λ m, mr_event_id m.1.1) <$> materialization
  end.

Definition persist_lane_state (j : Journal) (key : LaneKey) (expected_revision : N) (state : LaneState)
    : option (DeliveryLane * Journal) :=
  relay_id ← publish_queue_relay_id j (lk_relay key);
  intent ← j_intents j !! lk_intent_id key;
  event_id ← current_event_id intent;
  guard (event_id = lk_event_id key);;
  replace_lane j key relay_id expected_revision state.

Definition set_lane_waiting (j : Journal) (key : LaneKey) (expected_revision : N) (auth : bool) :=
  persist_lane_state j key expected_revision (if auth then WaitingAuth else WaitingConnection).

Definition set_lane_eligible (j : Journal) (key : LaneKey) (expected_revision since : N) :=
  persist_lane_state j key expected_revision (Eligible since).

(** ** Attempts *)

Definition reason_fits (reason : option string) : Prop :=
  match reason with
  | Some reason => (N.of_nat (length (as_bytes reason)) <= 4096)%N
  | None => True
  end.
#[global] Instance reason_fits_dec reason : Decision (reason_fits reason).
Proof. unfold reason_fits. destruct reason; apply _. Defined.

Definition with_transient (d : AttemptDetails) (t : AttemptTransient) : AttemptDetails :=
  mkDetails (dt_started_at d) (dt_handoff d) (Some t) (dt_finished_at d) (dt_terminal d).
Definition with_handoff (d : AttemptDetails) (h : AttemptHandoff) : AttemptDetails :=
  mkDetails (dt_started_at d) (Some h) (dt_transient d) (dt_finished_at d) (dt_terminal d).
Definition with_terminal (d : AttemptDetails) (outcome : AttemptOutcome) (finished_at : N) : AttemptDetails :=
  mkDetails (dt_started_at d) (dt_handoff d) (dt_transient d) (Some finished_at) (Some outcome).

Definition set_lane_transient (j : Journal) (key : LaneKey) (expected_revision ordinal eligible_at : N)
    (cause : TransientCause) (raw_reason : option string) : option (DeliveryLane * Journal) :=
  guard (reason_fits raw_reason);;
  relay_id ← publish_queue_relay_id j (lk_relay key);
  current ← read_lane j (lk_intent_id key, relay_id);
  guard (ln_event_id current = lk_event_id key ∧ ln_last_ordinal current = ordinal);;
  j ← (if (0 <? ordinal)%N then
         let k := (lk_intent_id key, relay_id, ordinal) in
         d ← read_details j k;
         write_details j k (with_transient d (mkTransient eligible_at cause raw_reason))
       else Some j);
  replace_lane j key relay_id expected_revision (Transient ordinal eligible_at cause raw_reason).

Definition suspend_lane_attempt (j : Journal) (key : LaneKey) (expected_revision ordinal at_ : N)
    (cause : TransientCause) (raw_reason : option string) (auth : bool) : option (DeliveryLane * Journal) :=
  guard (reason_fits raw_reason);;
  relay_id ← publish_queue_relay_id j (lk_relay key);
  current ← read_lane j (lk_intent_id key, relay_id);
  guard (ln_event_id current = lk_event_id key ∧ ln_revision current = expected_revision ∧
         ln_last_ordinal current = ordinal ∧ ordinal ≠ 0%N);;
  let k := (lk_intent_id key, relay_id, ordinal) in
  d ← read_details j k;
  j ← write_details j k (with_transient d (mkTransient at_ cause raw_reason));
  replace_lane j key relay_id expected_revision (if auth then WaitingAuth else WaitingConnection).

Definition started (started_at : N) : AttemptDetails := mkDetails (Some started_at) None None None None.

(** [query] is the store's [query] of one exact id; nothing below depends on
    what it returns. *)
Definition start_lane_attempt (query : EventId → option (option Event)) (j : Journal) (key : LaneKey)
    (expected_revision : N) (event : Event) (started_at : N) : option (Attempt * DeliveryLane * Journal) :=
  intent ← j_intents j !! lk_intent_id key;
  '(intent_event, sig_state) ← match in_work intent with
    | WorkEvent frozen _ sig_state => Some (frozen, sig_state)
    | WorkReplaceableOperation _ (Some (current, _, sig_state)) =>
        rows ← query (mr_event_id current);
        stored ← rows;
        Some (stored, sig_state)
    | WorkReplaceableOperation _ None => None
    end;
  guard (sig_state = IntentSigned ∧ intent_event = event);;
  relay_id ← publish_queue_relay_id j (lk_relay key);
  current ← read_lane j (lk_intent_id key, relay_id);
  guard (ln_event_id current = lk_event_id key ∧ ln_revision current = expected_revision);;
  match ln_state current with
  | Eligible _ =>
      ordinal ← u64_succ (ln_last_ordinal current);
      let k := (lk_intent_id key, relay_id, ordinal) in
      guard (encodes (encode_attempt (e_id event) Started));;
      guard (encodes (encode_attempt_details (started started_at)));;
      let j := set_attempts j (<[k := (e_id event, Started)]> (j_attempts j))
                 (<[k := started started_at]> (j_details j)) in
      '(lane, j) ← replace_lane j key relay_id expected_revision (InFlight ordinal AwaitingHandoff);
      Some (mkAttempt (lk_relay key) ordinal (e_id event) Started, lane, j)
  | _ => None
  end.

(** [TerminalOutcome::from_attempt]. *)
Definition terminal_from_attempt (outcome : AttemptOutcome) : option TerminalOutcome :=
  match outcome with
  | Started => None
  | Acked => Some TerminalAcked
  | Rejected reason => Some (TerminalRejected reason)
  | GaveUp => Some TerminalGaveUp
  end.

Definition post_fits (next : PostHandoffState) : Prop :=
  match next with PostTransient _ _ raw_reason => reason_fits raw_reason | _ => True end.
#[global] Instance post_fits_dec next : Decision (post_fits next).
Proof. unfold post_fits. destruct next; apply _. Defined.

Definition record_lane_handoff (j : Journal) (key : LaneKey) (expected_revision ordinal : N)
    (detail : AttemptHandoff) (next : PostHandoffState) : option (DeliveryLane * Journal) :=
  guard (post_fits next);;
  relay_id ← publish_queue_relay_id j (lk_relay key);
  current ← read_lane j (lk_intent_id key, relay_id);
  guard (ln_event_id current = lk_event_id key ∧ ln_revision current = expected_revision ∧
         ln_last_ordinal current = ordinal);;
  guard (ln_state current = InFlight ordinal AwaitingHandoff);;
  let k := (lk_intent_id key, relay_id, ordinal) in
  d ← read_details j k;
  d ← match dt_handoff d with
      | Some existing => guard (existing = detail);; Some d
      | None => Some (with_handoff d detail)
      end;
  '(state, d) ← match next with
    | PostWaitingConnection => Some (WaitingConnection, d)
    | PostAwaitingAck deadline => Some (InFlight ordinal (AwaitingAck deadline), d)
    | PostTransient eligible_at cause raw_reason => Some (Transient ordinal eligible_at cause raw_reason, d)
    | PostTerminal outcome finished_at =>
        terminal ← terminal_from_attempt outcome;
        Some (Terminal ordinal terminal, with_terminal d outcome finished_at)
    end;
  '(lane, j) ← replace_lane j key relay_id expected_revision state;
  guard (ln_last_ordinal (la_row lane) = ordinal);;
  j ← write_details j k d;
  Some (lane, j).

Definition finish_lane_attempt (j : Journal) (key : LaneKey) (expected_revision ordinal : N)
    (outcome : AttemptOutcome) (finished_at : N) : option (DeliveryLane * Journal) :=
  lane_outcome ← terminal_from_attempt outcome;
  relay_id ← publish_queue_relay_id j (lk_relay key);
  current ← read_lane j (lk_intent_id key, relay_id);
  guard (ln_event_id current = lk_event_id key ∧ ln_revision current = expected_revision ∧
         ln_last_ordinal current = ordinal);;
  let k := (lk_intent_id key, relay_id, ordinal) in
  d ← read_details j k;
  match dt_terminal d with
  | Some existing =>
      guard (existing = outcome ∧ dt_finished_at d = Some finished_at ∧
             ln_state current = Terminal ordinal lane_outcome);;
      Some (mkLane key current, j)
  | None =>
      j ← write_details j k (with_terminal d outcome finished_at);
      replace_lane j key relay_id expected_revision (Terminal ordinal lane_outcome)
  end.

Definition deny_lane_auth (j : Journal) (key : LaneKey) (expected_revision : N) (denial : AuthDenial)
    : option (DeliveryLane * Journal) :=
  guard (reason_fits (Some (ad_reason denial)));;
  relay_id ← publish_queue_relay_id j (lk_relay key);
  current ← read_lane j (lk_intent_id key, relay_id);
  guard (ln_event_id current = lk_event_id key ∧ ln_revision current = expected_revision);;
  match ln_state current with
  | Terminal _ (TerminalAuthDenied existing) =>
      guard (existing = denial);; Some (mkLane key current, j)
  | WaitingAuth =>
      replace_lane j key relay_id expected_revision
        (Terminal (ln_last_ordinal current) (TerminalAuthDenied denial))
  | _ => None
  end.

(** ** Recovery *)

(** The rows of an intent in a table keyed by intent first, in key order. *)
Definition intent_lanes (j : Journal) (intent_id : N) : list (N * LaneRow) :=
  (λ p, (p.1.2, p.2)) <$> ordered_map (filter (λ p, p.1.1 = intent_id) (j_lanes j)).
Definition intent_rows {A} (m : gmap (N * N * N) A) (intent_id : N) : list (N * N * A) :=
  (λ p, (p.1.1.2, p.1.2, p.2)) <$> ordered_map (filter (λ p, p.1.1.1 = intent_id) m).

Definition recover_publish_queue_lanes (j : Journal) (intent_id : N) : option (list DeliveryLane) :=
  lanes ← mapM (λ '(relay_id, _),
    row ← read_lane j (intent_id, relay_id);
    relay ← publish_queue_relay j relay_id;
    Some (mkLane (mkLaneKey intent_id (ln_event_id row) relay) row)) (intent_lanes j intent_id);
  Some (merge_sort (λ a b, cmp_le (lk_relay (la_key a)) (lk_relay (la_key b))) lanes).

Definition attempt_is_live (outcome : AttemptOutcome) (details : option AttemptDetails) : bool :=
  match outcome with
  | Started =>
      match details with
      | Some d =>
          match dt_terminal d, dt_transient d with
          | None, None =>
              match dt_handoff d with
              | Some h => bool_decide (ho_result h ≠ NotHandedOff)
              | None => true
              end
          | _, _ => false
          end
      | None => true
      end
  | _ => false
  end.

(** An attempt's outcome with the terminal of its detail row laid over it. *)
Definition effective_outcome (details : option AttemptDetails) (outcome : AttemptOutcome) : AttemptOutcome :=
  match details with
  | Some d => default outcome (dt_terminal d)
  | None => outcome
  end.

(** The attempts of one intent, with their relay surrogates. *)
Definition bootstrap_attempts (j : Journal) (intent_id : N) : option (list (N * Attempt)) :=
  attempts ← mapM (λ '(relay_id, ordinal, (event_id, outcome)),
    relay ← publish_queue_relay j relay_id;
    Some (relay_id, mkAttempt relay ordinal event_id
            (effective_outcome (j_details j !! (intent_id, relay_id, ordinal)) outcome)))
    (intent_rows (j_attempts j) intent_id);
  Some (merge_sort (λ a b, cmp_le (at_relay a.2, at_ordinal a.2) (at_relay b.2, at_ordinal b.2)) attempts).

(** The contradiction a lane's history must not show: two live attempts, or a
    live attempt that is not the last. *)
Definition live_history_ok (j : Journal) (intent_id relay_id : N) (attempts : list Attempt) : bool :=
  let live a := attempt_is_live (at_outcome a) (j_details j !! (intent_id, relay_id, at_ordinal a)) in
  let live_count := length (filter (λ a, live a = true) attempts) in
  negb ((1 <? live_count) ||
        ((live_count =? 1) && match last attempts with Some a => negb (live a) | None => false end)).

Definition bootstrap_lane (intent_id : N) (event_id : EventId) (attempts : list (N * Attempt))
    (j : Journal) (relay_id : N) : option Journal :=
  _ ← publish_queue_relay j relay_id;
  let lane_attempts := snd <$> filter (λ p, p.1 = relay_id) attempts in
  let current_attempts := filter (λ a, at_event_id a = event_id) lane_attempts in
  if live_history_ok j intent_id relay_id current_attempts then
    match j_lanes j !! (intent_id, relay_id) with
    | Some _ =>
        existing ← read_lane j (intent_id, relay_id);
        guard (ln_event_id existing = event_id);; Some j
    | None =>
        let row := mkLaneRow event_id 1 0 WaitingConnection in
        guard (encodes (encode_lane row));;
        Some (set_lanes j (<[(intent_id, relay_id) := row]> (j_lanes j)) (j_deadlines j))
    end
  else None.

(** Every relay of every route recorded for the intent. *)
Definition routed_relays (j : Journal) (intent_id : N) : gset N :=
  list_to_set (concat (omap (λ '((i, _), ids), if (i =? intent_id)%N then Some ids else None)
                         (map_to_list (j_routes j)))).

Definition bootstrap_publish_queue_lanes (j : Journal) (intent_id : N) : option (list DeliveryLane * Journal) :=
  intent ← j_intents j !! intent_id;
  event_id ← current_event_id intent;
  _ ← mapM (λ '(relay_id, ordinal, _),
         _ ← publish_queue_relay j relay_id; read_details j (intent_id, relay_id, ordinal))
       (intent_rows (j_details j) intent_id);
  attempts ← bootstrap_attempts j intent_id;
  j' ← foldl (λ acc relay_id, j ← acc; bootstrap_lane intent_id event_id attempts j relay_id)
         (Some j) (ordered (routed_relays j intent_id));
  lanes ← recover_publish_queue_lanes j' intent_id;
  Some (lanes, j').

(** ** Deadlines *)

(** One deadline row checked against its lane. *)
Definition read_deadline (j : Journal) (k : N * N * N) (v : N * DeadlineKind) : option Deadline :=
  let '(at_, intent_id, relay_id) := k in
  row ← read_lane j (intent_id, relay_id);
  relay ← publish_queue_relay j relay_id;
  let key := mkLaneKey intent_id (ln_event_id row) relay in
  let deadline := mkDeadline at_ key v.1 v.2 in
  guard (lane_deadline (mkLane key row) = Some deadline);; Some deadline.

(** Rows in key order, stopping at [limit]. *)
Definition due_publish_queue_deadlines (j : Journal) (now : N) (limit : nat) : option (list Deadline) :=
  guard (limit ≤ 1024);;
  mapM (λ p, read_deadline j p.1 p.2)
    (take limit (ordered_map (filter (λ p, (p.1.1.1 <= now)%N) (j_deadlines j)))).

Definition next_publish_queue_deadline (j : Journal) : option (option N) :=
  match ordered_map (j_deadlines j) with
  | [] => Some None
  | (k, v) :: _ => d ← read_deadline j k v; Some (Some (dl_at d))
  end.

(** [clear_intent_deadlines]: the deadlines named by the intent's lane rows. *)
Definition clear_intent_deadlines (j : Journal) (intent_id : N) : option (gmap (N * N * N) (N * DeadlineKind)) :=
  keys ← mapM (λ '(relay_id, _), row ← read_lane j (intent_id, relay_id);
                 Some ((λ d, (d.1, intent_id, relay_id)) <$> lane_state_deadline (ln_state row)))
           (intent_lanes j intent_id);
  Some (foldl (λ m k, delete k m) (j_deadlines j) (omap id keys)).

(** What [remove_publish_queue_entry] and the retirement of a superseded owner
    do to the delivery tables: the deadlines go while the lanes still name
    them, then every row of the intent. *)
Definition forget_intent (j : Journal) (intent_id : N) : option Journal :=
  deadlines ← clear_intent_deadlines j intent_id;
  Some (mkJournal (j_intents j)
          (filter (λ p, p.1.1 ≠ intent_id) (j_routes j))
          (filter (λ p, p.1.1.1 ≠ intent_id) (j_attempts j))
          (filter (λ p, p.1.1.1 ≠ intent_id) (j_details j))
          (filter (λ p, p.1.1 ≠ intent_id) (j_lanes j))
          deadlines (j_relays j) (j_relay_ids j) (j_next_relay j)).

(** ** Driving the tables *)

Inductive LaneOp :=
  | OpRoute (intent_id : N) (relays : gset RelayUrl)
  | OpBootstrap (intent_id : N)
  | OpWaiting (key : LaneKey) (expected_revision : N) (auth : bool)
  | OpEligible (key : LaneKey) (expected_revision since : N)
  | OpTransient (key : LaneKey) (expected_revision ordinal eligible_at : N) (cause : TransientCause)
      (raw_reason : option string)
  | OpSuspend (key : LaneKey) (expected_revision ordinal at_ : N) (cause : TransientCause)
      (raw_reason : option string) (auth : bool)
  | OpStart (key : LaneKey) (expected_revision : N) (event : Event) (started_at : N)
  | OpHandoff (key : LaneKey) (expected_revision ordinal : N) (detail : AttemptHandoff) (next : PostHandoffState)
  | OpFinish (key : LaneKey) (expected_revision ordinal : N) (outcome : AttemptOutcome) (finished_at : N)
  | OpDeny (key : LaneKey) (expected_revision : N) (denial : AuthDenial).

Definition apply_lane_op (query : EventId → option (option Event)) (j : Journal) (op : LaneOp) : option Journal :=
  match op with
  | OpRoute intent_id relays => snd <$> record_route_revision j intent_id relays
  | OpBootstrap intent_id => snd <$> bootstrap_publish_queue_lanes j intent_id
  | OpWaiting key rev auth => snd <$> set_lane_waiting j key rev auth
  | OpEligible key rev since => snd <$> set_lane_eligible j key rev since
  | OpTransient key rev ordinal eligible_at cause raw_reason =>
      snd <$> set_lane_transient j key rev ordinal eligible_at cause raw_reason
  | OpSuspend key rev ordinal at_ cause raw_reason auth =>
      snd <$> suspend_lane_attempt j key rev ordinal at_ cause raw_reason auth
  | OpStart key rev event started_at => snd <$> start_lane_attempt query j key rev event started_at
  | OpHandoff key rev ordinal detail next => snd <$> record_lane_handoff j key rev ordinal detail next
  | OpFinish key rev ordinal outcome finished_at =>
      snd <$> finish_lane_attempt j key rev ordinal outcome finished_at
  | OpDeny key rev denial => snd <$> deny_lane_auth j key rev denial
  end.
