(* ===== verification/LaneInvariant.v ===== *)
(** * What the delivery tables keep

    The invariant of [Lanes]: the deadline index names exactly the deadlines of
    the lanes, attempt ordinals run from one to the lane's cursor, and the
    evidence of an attempt only grows.  Every operation preserves it, whatever
    it is called with. *)

From S2P Require Import Prelude Grammar Address Coverage Schema Canonical Ingest QueueBytes QueueCodec Lanes.

(** ** The invariant *)

Local Abbreviation Lanes := (gmap (N * N) LaneRow).
Local Abbreviation Deadlines := (gmap (N * N * N) (N * DeadlineKind)).
Local Abbreviation Details := (gmap (N * N * N) AttemptDetails).

(** The deadline index is the lanes' deadlines, and nothing else. *)
Definition deadlines_exact (lanes : Lanes) (deadlines : Deadlines) : Prop :=
  ∀ at_ i r revision kind,
    deadlines !! (at_, i, r) = Some (revision, kind) ↔
    ∃ row, lanes !! (i, r) = Some row ∧ lane_state_deadline (ln_state row) = Some (at_, kind) ∧
           ln_revision row = revision.

(** Attempt evidence only grows: the start is fixed, a handoff and a terminal
    are written once. *)
Definition details_grow (d d' : AttemptDetails) : Prop :=
  dt_started_at d' = dt_started_at d ∧
  (∀ h, dt_handoff d = Some h → dt_handoff d' = Some h) ∧
  (∀ o, dt_terminal d = Some o → dt_terminal d' = Some o ∧ dt_finished_at d' = dt_finished_at d) ∧
  (is_Some (dt_transient d) → is_Some (dt_transient d')).

(** What is known of the attempt a lane is in flight with. *)
Definition inflight_ok (state : LaneState) (d : AttemptDetails) : Prop :=
  match state with
  | InFlight _ phase => dt_terminal d = None ∧ (phase = AwaitingHandoff → dt_handoff d = None)
  | _ => True
  end.

Record history_ok (lanes : Lanes) (attempts : gmap (N * N * N) (EventId * AttemptOutcome)) (details : Details)
    : Prop := {
  ho_attempt i r o : is_Some (attempts !! (i, r, o)) ↔
    ∃ row, lanes !! (i, r) = Some row ∧ (1 <= o <= ln_last_ordinal row)%N;
  ho_detail k : is_Some (details !! k) ↔ is_Some (attempts !! k);
  ho_decode k d : details !! k = Some d → details_decode d;
  ho_started k a : attempts !! k = Some a → a.2 = Started;
  ho_inflight i r row d : lanes !! (i, r) = Some row → details !! (i, r, ln_last_ordinal row) = Some d →
    inflight_ok (ln_state row) d
}.

Record dictionary_ok (j : Journal) : Prop := {
  di_inverse id url : j_relays j !! id = Some url ↔ j_relay_ids j !! url = Some id;
  di_next id : is_Some (j_relays j !! id) → (id < j_next_relay j)%N;
  di_lane i r : is_Some (j_lanes j !! (i, r)) → is_Some (j_relays j !! r);
  di_route i o ids r : j_routes j !! (i, o) = Some ids → r ∈ ids → is_Some (j_relays j !! r)
}.

Record journal_ok (j : Journal) : Prop := {
  jo_lane k row : j_lanes j !! k = Some row → lane_decodes row;
  jo_deadlines : deadlines_exact (j_lanes j) (j_deadlines j);
  jo_history : history_ok (j_lanes j) (j_attempts j) (j_details j);
  jo_dictionary : dictionary_ok j
}.

(** ** Replacing a lane *)

Lemma deadlines_exact_replace lanes deadlines i r current row :
  deadlines_exact lanes deadlines → lanes !! (i, r) = current →
  deadlines_exact (<[(i, r) := row]> lanes)
    (post_deadline (i, r) row (from_option (λ c, clear_deadline (i, r) (ln_state c) deadlines) deadlines current)).
Proof.
  intros Hex Hcur at_ i' r' revision kind.
  set (cleared := from_option _ _ _).
  assert (∀ at_, cleared !! (at_, i, r) = None) as Hgone.
  { intros a. apply eq_None_not_Some. intros [[rev k] Hl]. unfold cleared in Hl.
    destruct current as [c|]; simpl in Hl.
    - unfold clear_deadline in Hl. destruct (lane_state_deadline (ln_state c)) as [[a' k']|] eqn:E; simpl in Hl.
      + apply lookup_delete_Some in Hl as [Hne (row' & Hrow & Hd & _)%Hex]. rewrite Hcur in Hrow.
        injection Hrow as <-. congruence.
      + apply Hex in Hl as (row' & Hrow & Hd & _). rewrite Hcur in Hrow. injection Hrow as <-. congruence.
    - apply Hex in Hl as (row' & Hrow & _). congruence. }
  assert (∀ k, (k.1.2, k.2) ≠ (i, r) → cleared !! k = deadlines !! k) as Hkeep.
  { intros [[a i0] r0] Hne. unfold cleared. destruct current as [c|]; [|done]. simpl. unfold clear_deadline.
    destruct (lane_state_deadline (ln_state c)) as [[a' k']|]; [|done]. simpl.
    apply lookup_delete_ne. simpl in Hne. congruence. }
  destruct (decide ((i', r') = (i, r))) as [[= -> ->]|Hne].
  - rewrite lookup_insert_eq. unfold post_deadline.
    destruct (lane_state_deadline (ln_state row)) as [[a k]|] eqn:E; simpl.
    + destruct (decide (at_ = a)) as [->|Hat].
      * rewrite lookup_insert_eq. naive_solver.
      * rewrite lookup_insert_ne by congruence. rewrite Hgone. naive_solver.
    + rewrite Hgone. naive_solver.
  - rewrite lookup_insert_ne by done. etrans; [|apply (Hex at_ i' r' revision kind)].
    rewrite <-(Hkeep (at_, i', r')) by done. unfold post_deadline. destruct (lane_state_deadline (ln_state row)) as [[a k]|]; [|done].
    simpl. by rewrite lookup_insert_ne by congruence.
Qed.

(** ** What an operation does to one lane *)

Definition same_dictionary (j j' : Journal) : Prop :=
  j_intents j' = j_intents j ∧ j_routes j' = j_routes j ∧
  j_relays j' = j_relays j ∧ j_relay_ids j' = j_relay_ids j ∧ j_next_relay j' = j_next_relay j.

(** The lane [(i, r)] moves from [row] to [row'], at the next revision. *)
Record moved (j j' : Journal) (i r : N) (row row' : LaneRow) : Prop := {
  mv_row : j_lanes j !! (i, r) = Some row;
  mv_read : lane_decodes row;
  mv_revision : ln_revision row' = (ln_revision row + 1)%N;
  mv_event : ln_event_id row' = ln_event_id row;
  mv_decodes : lane_decodes row';
  mv_lanes : j_lanes j' = <[(i, r) := row']> (j_lanes j);
  mv_deadlines : j_deadlines j' =
    post_deadline (i, r) row' (clear_deadline (i, r) (ln_state row) (j_deadlines j));
  mv_same : same_dictionary j j'
}.

(** The evidence of the attempt [k] grows and no other changes. *)
Definition evidence_step (details details' : Details) (k : N * N * N) : Prop :=
  (∀ k', k' ≠ k → details' !! k' = details !! k') ∧
  (details' !! k = details !! k ∨
   ∃ d d', details !! k = Some d ∧ details' !! k = Some d' ∧ details_grow d d' ∧ details_decode d').

Lemma details_grow_refl d : details_grow d d.
Proof. by repeat split. Qed.

Lemma details_grow_trans d1 d2 d3 : details_grow d1 d2 → details_grow d2 d3 → details_grow d1 d3.
Proof.
  intros (H1a & H1b & H1c & H1d) (H2a & H2b & H2c & H2d).
  split; [congruence|]. split; [auto|]. split; [|auto].
  intros o [Ho Hf]%H1c. destruct (H2c o Ho) as [Ho' Hf']. split; [done|congruence].
Qed.

Lemma read_lane_Some j k row : read_lane j k = Some row → j_lanes j !! k = Some row ∧ lane_decodes row.
Proof. unfold read_lane. by intros (? & ? & (? & _ & [= ->])%bind_Some)%bind_Some. Qed.

Lemma read_details_Some j k d : read_details j k = Some d → j_details j !! k = Some d ∧ details_decode d.
Proof. unfold read_details. by intros (? & ? & (? & _ & [= ->])%bind_Some)%bind_Some. Qed.

Lemma write_details_Some j k d j' :
  write_details j k d = Some j' → j' = set_details j (<[k := d]> (j_details j)).
Proof. unfold write_details. by intros (_ & _ & [= <-])%bind_Some. Qed.

Lemma u64_succ_Some n m : u64_succ n = Some m → m = (n + 1)%N ∧ (n < u64_max)%N.
Proof. unfold u64_succ. destruct (N.ltb_spec n u64_max); [|done]. by intros [= <-]. Qed.

Lemma replace_lane_spec j key r revision state lane j' :
  replace_lane j key r revision state = Some (lane, j') →
  ∃ row, moved j j' (lk_intent_id key) r row (la_row lane) ∧
    la_key lane = key ∧ ln_revision row = revision ∧ ln_event_id row = lk_event_id key ∧
    ln_state (la_row lane) = state ∧
    ln_last_ordinal (la_row lane) = default (ln_last_ordinal row) (state_ordinal state) ∧
    j_attempts j' = j_attempts j ∧ j_details j' = j_details j.
Proof.
  unfold replace_lane. intros (row & [Hrow Hdec]%read_lane_Some & Hr)%bind_Some.
  apply bind_Some in Hr as (Hev & _ & Hr). apply bind_Some in Hr as (Hrev & _ & Hr).
  apply bind_Some in Hr as (rev & [-> Hmax]%u64_succ_Some & Hr).
  apply bind_Some in Hr as (last & Hlast & Hr). apply bind_Some in Hr as (Henc & _ & [= <- <-]).
  assert (last = default (ln_last_ordinal row) (state_ordinal state) ∧
          (∀ o, state_ordinal state = Some o → o = last)) as [-> Hcur].
  { destruct (state_ordinal state); [|by injection Hlast as ->]. case_match; [done|].
    injection Hlast as ->. by split; [|intros ? [= ->]]. }
  exists row. split; [|done]. split; try done. split; simpl; [lia|].
  destruct (state_ordinal state); [|done]. by apply Hcur.
Qed.

(** Whether the attempt [k] is settled: its evidence says it is over. *)
Definition settled_attempt (details : Details) (k : N * N * N) : Prop :=
  attempt_is_live Started (details !! k) = false.

(** A compare-and-set of one lane, with the evidence of its last attempt. *)
Record updated (j j' : Journal) (key : LaneKey) (revision r : N) (row row' : LaneRow) : Prop := {
  up_relay : publish_queue_relay_id j (lk_relay key) = Some r;
  up_moved : moved j j' (lk_intent_id key) r row row';
  up_expected : ln_revision row = revision ∧ ln_event_id row = lk_event_id key;
  up_cursor : ln_last_ordinal row' = ln_last_ordinal row;
  up_attempts : j_attempts j' = j_attempts j;
  up_evidence : evidence_step (j_details j) (j_details j') (lk_intent_id key, r, ln_last_ordinal row);
  up_inflight d : j_details j' !! (lk_intent_id key, r, ln_last_ordinal row) = Some d →
    inflight_ok (ln_state row') d
}.

(** Attempt rows and evidence written beforehand do not show in a lane's move. *)
Lemma moved_attempts j j' attempts details i r row row' :
  moved (set_attempts j attempts details) j' i r row row' → moved j j' i r row row'.
Proof. by intros []. Qed.

Lemma evidence_step_refl details k : evidence_step details details k.
Proof. split; [done|by left]. Qed.

Lemma evidence_step_write (details : Details) k d d' :
  details !! k = Some d → details_grow d d' → details_decode d' →
  evidence_step details (<[k := d']> details) k.
Proof.
  intros Hd Hg Hdec. split; [by intros k' ?; rewrite lookup_insert_ne|].
  right. exists d, d'. by rewrite lookup_insert_eq.
Qed.

Lemma with_transient_grows d t : details_grow d (with_transient d t).
Proof. by repeat split. Qed.
Lemma with_transient_decodes d t : details_decode d → details_decode (with_transient d t).
Proof. done. Qed.
Lemma with_handoff_grows d h : dt_handoff d = None → details_grow d (with_handoff d h).
Proof. intros Hn. split; [done|]. split; [by rewrite Hn|done]. Qed.
Lemma with_handoff_decodes d h : details_decode d → details_decode (with_handoff d h).
Proof. done. Qed.
Lemma with_terminal_grows d o n : dt_terminal d = None → details_grow d (with_terminal d o n).
Proof. intros Hn. split; [done|]. split; [done|]. split; [by rewrite Hn|done]. Qed.
Lemma with_terminal_decodes d o n t :
  terminal_from_attempt o = Some t → details_decode (with_terminal d o n).
Proof. intros Ho. split; [by intros [= ->]|]. by split; eexists. Qed.

(** A state that is not in flight asks nothing of the evidence. *)
Lemma inflight_ok_other state d : (∀ o p, state ≠ InFlight o p) → inflight_ok state d.
Proof. destruct state; naive_solver. Qed.

Lemma persist_updates j key revision state lane j' :
  state_ordinal state = None → persist_lane_state j key revision state = Some (lane, j') →
  ∃ r row, updated j j' key revision r row (la_row lane) ∧ j_details j' = j_details j ∧
    ln_state (la_row lane) = state.
Proof.
  intros Hs (r & Hrel & H)%bind_Some. apply bind_Some in H as (intent & Hi & H).
  apply bind_Some in H as (ev & Hev & H). apply bind_Some in H as (_ & _ & H).
  destruct (replace_lane_spec _ _ _ _ _ _ _ H) as (row & Hmv & Hk & Hrev & Heq & Hst & Hlast & Ha & Hd).
  rewrite Hs in Hlast. exists r, row. split; [|done]. split; try done.
  - rewrite Hd. apply evidence_step_refl.
  - intros d _. apply inflight_ok_other. rewrite Hst. by destruct state.
Qed.

Lemma transient_updates j key revision ordinal at_ cause raw lane j' :
  set_lane_transient j key revision ordinal at_ cause raw = Some (lane, j') →
  ∃ r row, updated j j' key revision r row (la_row lane) ∧ ln_last_ordinal row = ordinal ∧
    (ordinal ≠ 0%N → settled_attempt (j_details j') (lk_intent_id key, r, ordinal)).
Proof.
  intros (_ & _ & H)%bind_Some. apply bind_Some in H as (r & Hrel & H).
  apply bind_Some in H as (cur & [Hcur _]%read_lane_Some & H). apply bind_Some in H as ([Hev Hord] & _ & H).
  apply bind_Some in H as (j1 & Hj1 & H).
  destruct (replace_lane_spec _ _ _ _ _ _ _ H) as (row & Hmv & Hk & Hrev & Heq & Hst & Hlast & Ha & Hd).
  assert (evidence_step (j_details j) (j_details j1) (lk_intent_id key, r, ordinal) ∧
          j1 = set_details j (j_details j1) ∧
          (ordinal ≠ 0%N → settled_attempt (j_details j1) (lk_intent_id key, r, ordinal))) as (Hstep & Hj & Hset).
  { destruct (N.ltb_spec 0 ordinal) as [Hpos|Hz].
    - apply bind_Some in Hj1 as (d & [Hdl Hdd]%read_details_Some & ->%write_details_Some). split; [|split; [done|]].
      + by eapply evidence_step_write; [|apply with_transient_grows|apply with_transient_decodes].
      + intros _. unfold settled_attempt. simpl. rewrite lookup_insert_eq. simpl. by destruct (dt_terminal d).
    - injection Hj1 as <-. split; [apply evidence_step_refl|]. split; [by destruct j|lia]. }
  rewrite Hj in Hmv. apply moved_attempts in Hmv. pose proof (mv_row _ _ _ _ _ _ Hmv) as Hrow.
  rewrite Hcur in Hrow. injection Hrow as <-.
  exists r, cur. rewrite Hord. split; [|by rewrite Hd].
  split; try done.
  - rewrite Hlast. simpl. congruence.
  - by rewrite Ha, Hj.
  - by rewrite Hd, Hord.
  - intros d _. apply inflight_ok_other. by rewrite Hst.
Qed.

Lemma suspend_updates j key revision ordinal at_ cause raw auth lane j' :
  suspend_lane_attempt j key revision ordinal at_ cause raw auth = Some (lane, j') →
  ∃ r row, updated j j' key revision r row (la_row lane) ∧ ln_last_ordinal row = ordinal ∧
    settled_attempt (j_details j') (lk_intent_id key, r, ordinal).
Proof.
  intros (_ & _ & H)%bind_Some. apply bind_Some in H as (r & Hrel & H).
  apply bind_Some in H as (cur & [Hcur _]%read_lane_Some & H).
  apply bind_Some in H as ((Hev & Hrev0 & Hord & Hpos) & _ & H).
  apply bind_Some in H as (d & [Hdl Hdd]%read_details_Some & H).
  apply bind_Some in H as (j1 & ->%write_details_Some & H).
  destruct (replace_lane_spec _ _ _ _ _ _ _ H) as (row & Hmv & Hk & Hrev & Heq & Hst & Hlast & Ha & Hd).
  apply moved_attempts in Hmv. pose proof (mv_row _ _ _ _ _ _ Hmv) as Hrow.
  rewrite Hcur in Hrow. injection Hrow as <-.
  exists r, cur. split; [|split; [done|]].
  - split; try done.
    + rewrite Hlast. by destruct auth.
    + rewrite Hd, Hord. by eapply evidence_step_write; [|apply with_transient_grows|apply with_transient_decodes].
    + intros d' _. apply inflight_ok_other. rewrite Hst. by destruct auth.
  - rewrite Hd. unfold settled_attempt. simpl. rewrite lookup_insert_eq. simpl. by destruct (dt_terminal d).
Qed.

Lemma deny_updates j key revision denial lane j' :
  deny_lane_auth j key revision denial = Some (lane, j') →
  j' = j ∨
  ∃ r row, updated j j' key revision r row (la_row lane) ∧ j_details j' = j_details j ∧
    ln_state row = WaitingAuth.
Proof.
  intros (_ & _ & H)%bind_Some. apply bind_Some in H as (r & Hrel & H).
  apply bind_Some in H as (cur & [Hcur _]%read_lane_Some & H). apply bind_Some in H as ([Hev Hrev0] & _ & H).
  destruct (ln_state cur) as [| | | | |o [| | |ex]] eqn:Est; try done.
  - destruct (replace_lane_spec _ _ _ _ _ _ _ H) as (row & Hmv & Hk & Hrev & Heq & Hst & Hlast & Ha & Hd).
    pose proof (mv_row _ _ _ _ _ _ Hmv) as Hrow. rewrite Hcur in Hrow. injection Hrow as <-.
    right. exists r, cur. split; [|done]. split; try done.
    + rewrite Hd. apply evidence_step_refl.
    + intros d _. apply inflight_ok_other. by rewrite Hst.
  - apply bind_Some in H as (_ & _ & [= <- <-]). by left.
Qed.

Lemma finish_updates j key revision ordinal outcome finished_at lane j' :
  finish_lane_attempt j key revision ordinal outcome finished_at = Some (lane, j') →
  j' = j ∨
  ∃ r row, updated j j' key revision r row (la_row lane) ∧ ln_last_ordinal row = ordinal ∧
    settled_attempt (j_details j') (lk_intent_id key, r, ordinal).
Proof.
  intros (t & Ht & H)%bind_Some. apply bind_Some in H as (r & Hrel & H).
  apply bind_Some in H as (cur & [Hcur _]%read_lane_Some & H).
  apply bind_Some in H as ((Hev & Hrev0 & Hord) & _ & H).
  apply bind_Some in H as (d & [Hdl Hdd]%read_details_Some & H).
  destruct (dt_terminal d) as [ex|] eqn:Eterm.
  { apply bind_Some in H as (_ & _ & [= <- <-]). by left. }
  apply bind_Some in H as (j1 & ->%write_details_Some & H).
  destruct (replace_lane_spec _ _ _ _ _ _ _ H) as (row & Hmv & Hk & Hrev & Heq & Hst & Hlast & Ha & Hd).
  apply moved_attempts in Hmv. pose proof (mv_row _ _ _ _ _ _ Hmv) as Hrow.
  rewrite Hcur in Hrow. injection Hrow as <-.
  right. exists r, cur. split; [|split; [done|]].
  - split; try done.
    + rewrite Hlast. simpl. congruence.
    + rewrite Hd, Hord. eapply evidence_step_write; [done|by apply with_terminal_grows|].
      by eapply with_terminal_decodes.
    + intros d' _. apply inflight_ok_other. by rewrite Hst.
  - rewrite Hd. unfold settled_attempt. simpl. by rewrite lookup_insert_eq.
Qed.

(** The discipline of the delivery engine ([on_event_handoff] of
    [write_lifecycle.rs]): it parks the lane on its connection only when the
    bytes were not handed off, and never records a retry at the handoff. *)
Definition handoff_disciplined (detail : AttemptHandoff) (next : PostHandoffState) : Prop :=
  match next with
  | PostWaitingConnection => ho_result detail = NotHandedOff
  | PostTransient _ _ _ => False
  | _ => True
  end.

Lemma handoff_updates j key revision ordinal detail next lane j' :
  history_ok (j_lanes j) (j_attempts j) (j_details j) →
  record_lane_handoff j key revision ordinal detail next = Some (lane, j') →
  ∃ r row, updated j j' key revision r row (la_row lane) ∧ ln_last_ordinal row = ordinal ∧
    (handoff_disciplined detail next →
     (∃ p, ln_state (la_row lane) = InFlight ordinal p) ∨
     settled_attempt (j_details j') (lk_intent_id key, r, ordinal)).
Proof.
  intros Hh (_ & _ & H)%bind_Some. apply bind_Some in H as (r & Hrel & H).
  apply bind_Some in H as (cur & [Hcur _]%read_lane_Some & H).
  apply bind_Some in H as ((Hev & Hrev0 & Hord) & _ & H). apply bind_Some in H as (Hfl & _ & H).
  apply bind_Some in H as (d & [Hdl Hdd]%read_details_Some & H).
  rewrite <-Hord in Hdl. pose proof (ho_inflight _ _ _ Hh _ _ _ _ Hcur Hdl) as Hin.
  rewrite Hfl in Hin. destruct Hin as [Hterm Hno]. specialize (Hno eq_refl). rewrite Hno in H.
  apply bind_Some in H as (d1 & [= <-] & H). apply bind_Some in H as ([st d2] & Hnext & H).
  apply bind_Some in H as ([lane0 j1] & Hrep & H). apply bind_Some in H as (_ & _ & H).
  apply bind_Some in H as (j2 & ->%write_details_Some & [= <- <-]).
  destruct (replace_lane_spec _ _ _ _ _ _ _ Hrep) as (row & Hmv & Hk & Hrev & Heq & Hst & Hlast & Ha & Hd).
  pose proof (mv_row _ _ _ _ _ _ Hmv) as Hrow. rewrite Hcur in Hrow. injection Hrow as <-.
  assert (state_ordinal st = None ∨ state_ordinal st = Some ordinal) as Hso.
  { destruct next; simpl in Hnext; [| | |apply bind_Some in Hnext as (t & _ & Hnext)];
      injection Hnext as <- <-; (by left) || (by right). }
  assert (details_grow d d2 ∧ details_decode d2 ∧ inflight_ok st d2 ∧
    (handoff_disciplined detail next → (∃ p, st = InFlight ordinal p) ∨ attempt_is_live Started (Some d2) = false))
    as (Hg & Hdec & Hifl & Hdisc).
  { pose proof (with_handoff_grows d detail Hno) as Hg1. pose proof (with_handoff_decodes d detail Hdd) as Hd1.
    destruct next as [|deadline|? ? ?|outcome ?]; simpl in Hnext.
    - injection Hnext as <- <-. split; [done|]. split; [done|]. split; [done|].
      intros Hr. right. simpl in *. rewrite Hterm. destruct (dt_transient d); [done|].
      apply bool_decide_eq_false. naive_solver.
    - injection Hnext as <- <-. split; [done|]. split; [done|]. split; [by split|]. intros _. left. by eexists.
    - injection Hnext as <- <-. by split; [|split].
    - apply bind_Some in Hnext as (t & Ht & [= <- <-]). split; [|split; [|split; [done|by right]]].
      + eapply details_grow_trans; [done|]. by apply with_terminal_grows.
      + by eapply with_terminal_decodes. }
  exists r, cur. split; [|split; [done|]].
  - split; try done.
    + by destruct Hmv.
    + rewrite Hlast. destruct Hso as [-> | ->]; [done|]. simpl. congruence.
    + simpl. rewrite Hd, <-Hord. by eapply evidence_step_write.
    + intros d' Hd'. rewrite Hst. simpl in Hd'. rewrite <-Hord, lookup_insert_eq in Hd'. by injection Hd' as <-.
  - intros Hdis. rewrite Hst. destruct (Hdisc Hdis) as [?|?]; [by left|right].
    unfold settled_attempt. simpl. by rewrite lookup_insert_eq.
Qed.

(** A new attempt: the next ordinal, in flight. *)
Record begun (j j' : Journal) (key : LaneKey) (revision r : N) (row row' : LaneRow) (event : Event)
    (started_at : N) : Prop := {
  bg_relay : publish_queue_relay_id j (lk_relay key) = Some r;
  bg_moved : moved j j' (lk_intent_id key) r row row';
  bg_expected : ln_revision row = revision ∧ ln_event_id row = lk_event_id key;
  bg_eligible : ∃ since, ln_state row = Eligible since;
  bg_state : ln_state row' = InFlight (ln_last_ordinal row') AwaitingHandoff;
  bg_cursor : ln_last_ordinal row' = (ln_last_ordinal row + 1)%N;
  bg_attempts : j_attempts j' =
    <[(lk_intent_id key, r, ln_last_ordinal row') := (e_id event, Started)]> (j_attempts j);
  bg_details : j_details j' = <[(lk_intent_id key, r, ln_last_ordinal row') := started started_at]> (j_details j)
}.

Lemma start_begins query j key revision event at_ attempt lane j' :
  start_lane_attempt query j key revision event at_ = Some (attempt, lane, j') →
  ∃ r row, begun j j' key revision r row (la_row lane) event at_ ∧ at_ordinal attempt = ln_last_ordinal (la_row lane).
Proof.
  intros (intent & Hi & H)%bind_Some. apply bind_Some in H as ([ev sig] & Hev & H).
  apply bind_Some in H as (_ & _ & H). apply bind_Some in H as (r & Hrel & H).
  apply bind_Some in H as (cur & [Hcur _]%read_lane_Some & H). apply bind_Some in H as ([Hev' Hrev0] & _ & H).
  destruct (ln_state cur) as [| |since| | |] eqn:Est; try done.
  apply bind_Some in H as (ordinal & [-> _]%u64_succ_Some & H). apply bind_Some in H as (_ & _ & H).
  apply bind_Some in H as (_ & _ & H). apply bind_Some in H as ([lane0 j1] & Hrep & [= <- <- <-]).
  destruct (replace_lane_spec _ _ _ _ _ _ _ Hrep) as (row & Hmv & Hk & Hrev & Heq & Hst & Hlast & Ha & Hd).
  apply moved_attempts in Hmv. pose proof (mv_row _ _ _ _ _ _ Hmv) as Hrow.
  rewrite Hcur in Hrow. injection Hrow as <-. simpl in Hlast. exists r, cur. split; [|by rewrite Hlast].
  split; try done; rewrite ?Hlast; try done. by eexists.
Qed.

(** ** Preservation *)

Lemma publish_queue_relay_id_Some j relay r : publish_queue_relay_id j relay = Some r → j_relays j !! r = Some relay.
Proof. by intros (id & ? & (url & ? & (-> & _ & [= ->])%bind_Some)%bind_Some)%bind_Some. Qed.

Lemma dictionary_ok_lanes j j' :
  dictionary_ok j → same_dictionary j j' →
  (∀ i r, is_Some (j_lanes j' !! (i, r)) → is_Some (j_lanes j !! (i, r)) ∨ is_Some (j_relays j !! r)) →
  dictionary_ok j'.
Proof.
  intros [Hinv Hnext Hlane Hroute] (_ & Hr & Hrel & Hids & Hn) Hl. split.
  - intros id url. by rewrite Hrel, Hids.
  - intros id. rewrite Hrel, Hn. apply Hnext.
  - intros i r [?|?]%Hl; rewrite Hrel; eauto.
  - intros i o ids r. rewrite Hr, Hrel. apply Hroute.
Qed.

(** The parts of the invariant a lane's move preserves by itself. *)
Lemma moved_preserves j j' i r row row' :
  journal_ok j → moved j j' i r row row' →
  (∀ k rw, j_lanes j' !! k = Some rw → lane_decodes rw) ∧
  deadlines_exact (j_lanes j') (j_deadlines j') ∧ dictionary_ok j'.
Proof.
  intros [Hlane Hdl Hh Hdict] [Hrow Hread Hrev Hev Hdec Hlanes Hdls Hsame]. split; [|split].
  - intros k rw. rewrite Hlanes. intros [[_ <-]|[_ ?]]%lookup_insert_Some; [done|by eapply Hlane].
  - rewrite Hlanes, Hdls. by apply (deadlines_exact_replace _ _ _ _ (Some row)).
  - eapply dictionary_ok_lanes; [done..|]. intros i' r'. rewrite Hlanes.
    destruct (decide ((i, r) = (i', r'))) as [[= <- <-]|Hne]; [|rewrite lookup_insert_ne by done; auto].
    intros _. left. by rewrite Hrow.
Qed.

Lemma history_ok_move lanes attempts details details' i r row row' :
  history_ok lanes attempts details → lanes !! (i, r) = Some row → ln_last_ordinal row' = ln_last_ordinal row →
  evidence_step details details' (i, r, ln_last_ordinal row) →
  (∀ d, details' !! (i, r, ln_last_ordinal row) = Some d → inflight_ok (ln_state row') d) →
  history_ok (<[(i, r) := row']> lanes) attempts details'.
Proof.
  intros [Hatt Hdet Hdec Hst Hin] Hrow Hlast [Hother Hhere] Hifl. split.
  - intros i' r' o. rewrite Hatt. destruct (decide ((i, r) = (i', r'))) as [[= <- <-]|Hne].
    + rewrite lookup_insert_eq, Hrow.
      split; intros (? & [= <-] & ?); (eexists; split; [done|]); by rewrite Hlast in *.
    + by rewrite lookup_insert_ne.
  - intros k. rewrite <-Hdet. destruct (decide (k = (i, r, ln_last_ordinal row))) as [->|Hne]; [|by rewrite Hother].
    destruct Hhere as [->|(d & d' & -> & -> & _)]; [done|]. by split; eexists.
  - intros k d Hd. destruct (decide (k = (i, r, ln_last_ordinal row))) as [->|Hne].
    + destruct Hhere as [Heq|(d0 & d' & _ & Heq & _ & ?)]; rewrite Heq in Hd; [by eapply Hdec|by simplify_eq].
    + rewrite Hother in Hd by done. by eapply Hdec.
  - done.
  - intros i' r' rw d. destruct (decide ((i, r) = (i', r'))) as [[= <- <-]|Hne].
    + rewrite lookup_insert_eq. intros [= <-]. rewrite Hlast. apply Hifl.
    + rewrite lookup_insert_ne by done. intros Hrw. rewrite Hother by congruence. by apply Hin.
Qed.

Lemma updated_preserves j j' key revision r row row' :
  journal_ok j → updated j j' key revision r row row' → journal_ok j'.
Proof.
  intros Hok [Hrel Hmv Hexp Hcur Hatt Hev Hifl].
  destruct (moved_preserves _ _ _ _ _ _ Hok Hmv) as (Hlane & Hdl & Hdict). split; [done|done| |done].
  rewrite (mv_lanes _ _ _ _ _ _ Hmv), Hatt. eapply history_ok_move; [apply Hok|apply Hmv|done..].
Qed.

Lemma begun_preserves j j' key revision r row row' event at_ :
  journal_ok j → begun j j' key revision r row row' event at_ → journal_ok j'.
Proof.
  intros Hok [Hrel Hmv Hexp Hel Hst Hcur Hatt Hdet].
  destruct (moved_preserves _ _ _ _ _ _ Hok Hmv) as (Hlane & Hdl & Hdict). split; [done|done| |done].
  destruct (jo_history _ Hok) as [Hat Hde Hdec Hsta Hin]. pose proof (mv_row _ _ _ _ _ _ Hmv) as Hrow.
  rewrite (mv_lanes _ _ _ _ _ _ Hmv), Hatt, Hdet. split.
  - intros i' r' o. destruct (decide ((lk_intent_id key, r) = (i', r'))) as [[= <- <-]|Hne].
    + rewrite lookup_insert_eq. destruct (decide (o = ln_last_ordinal row')) as [->|Ho].
      * rewrite lookup_insert_eq. split; [intros _; exists row'; split; [done|lia]|done].
      * rewrite lookup_insert_ne by congruence. rewrite Hat, Hrow. split.
        -- intros (? & [= <-] & ?). exists row'. split; [done|lia].
        -- intros (? & [= <-] & ?). exists row. split; [done|lia].
    + rewrite !lookup_insert_ne by congruence. apply Hat.
  - intros k. rewrite !lookup_insert_is_Some, Hde. done.
  - intros k d [[_ <-]|[_ ?]]%lookup_insert_Some; [|by eapply Hdec]. by split; [done|split; intros [? ?]].
  - intros k a [[_ <-]|[_ ?]]%lookup_insert_Some; [done|by eapply Hsta].
  - intros i' r' rw d. destruct (decide ((lk_intent_id key, r) = (i', r'))) as [[= <- <-]|Hne].
    + rewrite lookup_insert_eq. intros [= <-]. rewrite lookup_insert_eq. intros [= <-]. by rewrite Hst.
    + rewrite !lookup_insert_ne by congruence. apply Hin.
Qed.

(** ** Routes and recovery *)

(** Interning leaves the delivery rows alone and only adds relays. *)
Definition interned (j j' : Journal) : Prop :=
  j_lanes j' = j_lanes j ∧ j_deadlines j' = j_deadlines j ∧ j_attempts j' = j_attempts j ∧
  j_details j' = j_details j ∧ j_routes j' = j_routes j ∧ j_intents j' = j_intents j ∧
  j_relays j ⊆ j_relays j'.

Lemma interned_trans j1 j2 j3 : interned j1 j2 → interned j2 j3 → interned j1 j3.
Proof.
  intros (?&?&?&?&?&?&?) (?&?&?&?&?&?&?). repeat (split; [congruence|]). by etrans.
Qed.

Lemma intern_relay_in_txn_spec j relay id j' :
  dictionary_ok j → intern_relay_in_txn j relay = Some (id, j') →
  dictionary_ok j' ∧ interned j j' ∧ j_relays j' !! id = Some relay.
Proof.
  intros Hok. pose proof Hok as [Hinv Hnext Hlane Hroute]. unfold intern_relay_in_txn.
  destruct (j_relay_ids j !! relay) as [id0|] eqn:Eid.
  { intros (f & Hf & (-> & _ & [= <- <-])%bind_Some)%bind_Some. done. }
  intros (nx & [-> _]%u64_succ_Some & H)%bind_Some. apply bind_Some in H as (_ & _ & H).
  apply bind_Some in H as (_ & _ & [= <- <-]).
  assert (j_relays j !! j_next_relay j = None) as Hfresh.
  { apply eq_None_not_Some. intros Hs%Hnext. lia. }
  split; [|split; [|by apply lookup_insert_eq]].
  - split; simpl.
    + intros id url. rewrite !lookup_insert_Some. split.
      * intros [[<- <-]|[Hne Hl]]; [by left|]. right. split; [|by apply Hinv].
        intros <-. apply Hinv in Hl. congruence.
      * intros [[<- <-]|[Hne Hl]]; [by left|]. right. split; [|by apply Hinv].
        intros <-. apply Hinv in Hl. congruence.
    + intros id [Heq|Hs%Hnext]%lookup_insert_is_Some'; lia.
    + intros i r Hs. apply lookup_insert_is_Some'. right. eauto.
    + intros i o ids r Hids Hr. apply lookup_insert_is_Some'. right. eauto.
  - repeat (split; [done|]). by apply insert_subseteq.
Qed.

Lemma intern_relays_spec j relays ids j' :
  dictionary_ok j → intern_relays j relays = Some (ids, j') →
  dictionary_ok j' ∧ interned j j' ∧ Forall2 (λ id relay, j_relays j' !! id = Some relay) ids relays.
Proof.
  revert j ids. induction relays as [|relay relays IH]; intros j ids Hok; simpl.
  { intros [= <- <-]. split; [done|]. by split. }
  intros ([id j1] & H1 & ([ids' j2] & H2 & [= <- <-])%bind_Some)%bind_Some.
  destruct (intern_relay_in_txn_spec _ _ _ _ Hok H1) as (Hok1 & Hint1 & Hid).
  destruct (IH _ _ Hok1 H2) as (Hok2 & Hint2 & HF). split; [done|].
  split; [by eapply interned_trans|]. constructor; [|done]. destruct Hint2 as (_&_&_&_&_&_&Hsub).
  by eapply lookup_weaken.
Qed.

Lemma route_preserves j i relays ordinal j' :
  journal_ok j → record_route_revision j i relays = Some (ordinal, j') →
  journal_ok j' ∧ j_lanes j' = j_lanes j ∧ j_attempts j' = j_attempts j ∧ j_details j' = j_details j ∧
  j_intents j' = j_intents j.
Proof.
  intros [Hlane Hdl Hh Hdict] (_ & _ & H)%bind_Some. apply bind_Some in H as (o & _ & H).
  apply bind_Some in H as ([ids j1] & Hin & H). apply bind_Some in H as (_ & _ & [= <- <-]).
  destruct (intern_relays_spec _ _ _ _ Hdict Hin) as (Hdict1 & (Hl & Hd & Ha & Hde & Hr & Hi & Hsub) & HF).
  split; [|by rewrite <-Hl, <-Ha, <-Hde, <-Hi]. split; simpl; rewrite ?Hl, ?Hd, ?Ha, ?Hde; try done.
  destruct Hdict1 as [Hinv Hnext Hlane1 Hroute1]. split; simpl; [done..|].
  intros i' o' ids' r [[_ <-]|[_ Hids]]%lookup_insert_Some Hr'; [|by eapply Hroute1].
  apply elem_of_ordered, elem_of_list_to_set in Hr'.
  apply list_elem_of_lookup in Hr' as [n Hn]. destruct (Forall2_lookup_l _ _ _ _ _ HF Hn) as (url & _ & ?). by eexists.
Qed.

Lemma open_preserves j i r event :
  journal_ok j → j_lanes j !! (i, r) = None → is_Some (j_relays j !! r) →
  journal_ok (set_lanes j (<[(i, r) := mkLaneRow event 1 0 WaitingConnection]> (j_lanes j)) (j_deadlines j)).
Proof.
  intros [Hlane Hdl Hh Hdict] Hno Hr. split; simpl.
  - intros k row [[_ <-]|[_ ?]]%lookup_insert_Some; [done|by eapply Hlane].
  - by apply (deadlines_exact_replace _ _ i r None (mkLaneRow event 1 0 WaitingConnection)).
  - destruct Hh as [Hat Hde Hdec Hsta Hin]. split; [|done..|].
    + intros i' r' o. rewrite Hat. destruct (decide ((i, r) = (i', r'))) as [[= <- <-]|Hne].
      * rewrite lookup_insert_eq, Hno. split; [by intros (? & ? & _)|]. intros (? & [= <-] & ?). simpl in *. lia.
      * by rewrite lookup_insert_ne.
    + intros i' r' row d [[[= <- <-] <-]|[_ ?]]%lookup_insert_Some; [done|by apply Hin].
  - eapply dictionary_ok_lanes; [done|done|]. intros i' r'. simpl.
    intros [[= <- <-]|?]%lookup_insert_is_Some'; auto.
Qed.

(** Recovery adds lanes for routed relays and changes nothing else. *)
Record opened (j j' : Journal) (i event : N) : Prop := {
  op_lanes : j_lanes j ⊆ j_lanes j';
  op_new k row : j_lanes j' !! k = Some row → j_lanes j !! k = None →
    k.1 = i ∧ row = mkLaneRow event 1 0 WaitingConnection;
  op_deadlines : j_deadlines j' = j_deadlines j;
  op_history : j_attempts j' = j_attempts j ∧ j_details j' = j_details j;
  op_same : same_dictionary j j'
}.

Lemma opened_refl j i event : opened j j i event.
Proof. split; [done|congruence|done|done|by repeat split]. Qed.

Lemma opened_trans j1 j2 j3 i event : opened j1 j2 i event → opened j2 j3 i event → opened j1 j3 i event.
Proof.
  intros [Hl1 Hn1 Hd1 [Ha1 He1] (?&?&?&?&?)] [Hl2 Hn2 Hd2 [Ha2 He2] (?&?&?&?&?)].
  split; [by etrans| |congruence|split; congruence|repeat split; congruence].
  intros k row Hk Hno. destruct (j_lanes j2 !! k) as [row2|] eqn:E; [|by apply Hn2].
  rewrite (lookup_weaken _ _ _ _ E Hl2) in Hk. injection Hk as ->. by apply Hn1.
Qed.

Lemma publish_queue_relay_is_Some j r :
  dictionary_ok j → is_Some (publish_queue_relay j r) ↔ is_Some (j_relays j !! r).
Proof.
  intros [Hinv _ _ _]. unfold publish_queue_relay. split.
  - by intros (u & (url & ? & _)%bind_Some).
  - intros [url Hurl]. rewrite Hurl. simpl. rewrite (proj1 (Hinv r url) Hurl). simpl.
    rewrite option_guard_True by done. by eexists.
Qed.

Lemma bootstrap_lane_opens i event attempts j r j' :
  journal_ok j → bootstrap_lane i event attempts j r = Some j' →
  journal_ok j' ∧ opened j j' i event ∧ is_Some (j_lanes j' !! (i, r)).
Proof.
  intros Hok (url & Hurl & H)%bind_Some. simpl in H. case_match; [|done].
  destruct (j_lanes j !! (i, r)) as [row|] eqn:Erow.
  - apply bind_Some in H as (ex & _ & H). apply bind_Some in H as (_ & _ & [= <-]).
    split; [done|]. split; [apply opened_refl|]. by rewrite Erow.
  - injection H as <-.
    assert (is_Some (j_relays j !! r)) as Hr by (apply publish_queue_relay_is_Some; [apply Hok|by eexists]).
    split; [by apply open_preserves|]. split; [|simpl; by rewrite lookup_insert_eq].
    split; simpl; [by apply insert_subseteq| |done|done|by repeat split].
    intros k row [[<- <-]|[_ ?]]%lookup_insert_Some; [done|congruence].
Qed.

Lemma bootstrap_opens j i lanes j' :
  journal_ok j → bootstrap_publish_queue_lanes j i = Some (lanes, j') →
  ∃ intent event, j_intents j !! i = Some intent ∧ current_event_id intent = Some event ∧
    journal_ok j' ∧ opened j j' i event ∧ recover_publish_queue_lanes j' i = Some lanes ∧
    ∀ r, r ∈ routed_relays j i → is_Some (j_lanes j' !! (i, r)).
Proof.
  intros Hok (intent & Hi & H)%bind_Some. apply bind_Some in H as (event & Hev & H).
  apply bind_Some in H as (_ & _ & H). apply bind_Some in H as (attempts & _ & H).
  apply bind_Some in H as (j1 & Hfold & H). apply bind_Some in H as (ls & Hrec & [= <- <-]).
  exists intent, event. split; [done|]. split; [done|].
  apply (foldl_option_inv _ (λ dn j', journal_ok j' ∧ opened j j' i event ∧
    ∀ r, r ∈ dn → is_Some (j_lanes j' !! (i, r)))) in Hfold as (Hok1 & Hop & Hall).
  - split; [done|]. split; [done|]. split; [done|]. intros r Hr. apply Hall. by apply elem_of_ordered.
  - split; [done|]. split; [apply opened_refl|]. set_solver.
  - intros dn r todo j2 j3 _ (Hok2 & Hop2 & Hall2) Hstep.
    destruct (bootstrap_lane_opens _ _ _ _ _ _ Hok2 Hstep) as (Hok3 & Hop3 & Hr).
    split; [done|]. split; [by eapply opened_trans|].
    intros r' [Hr'| ->%list_elem_of_singleton]%elem_of_app; [|done].
    destruct (Hall2 r' Hr') as [row Hrow]. exists row. by apply (lookup_weaken _ _ _ _ Hrow (op_lanes _ _ _ _ Hop3)).
Qed.

(** ** Forgetting an intent *)

Lemma elem_of_intent_lanes j i r row : (r, row) ∈ intent_lanes j i ↔ j_lanes j !! (i, r) = Some row.
Proof.
  unfold intent_lanes. rewrite list_elem_of_fmap. split.
  - intros ([[i' r'] row'] & [= -> ->] & [Hl Hi]%elem_of_ordered_map%map_lookup_filter_Some). simpl in Hi. by subst.
  - intros Hl. exists (i, r, row). split; [done|]. by apply elem_of_ordered_map, map_lookup_filter_Some.
Qed.

Lemma read_lane_ok j k row : journal_ok j → j_lanes j !! k = Some row → read_lane j k = Some row.
Proof.
  intros Hok Hl. unfold read_lane. rewrite Hl. simpl. rewrite option_guard_True; [done|]. by eapply jo_lane.
Qed.

Lemma lookup_foldl_delete {K A} `{Countable K} (ks : list K) (m : gmap K A) k :
  foldl (λ m k, delete k m) m ks !! k = if decide (k ∈ ks) then None else m !! k.
Proof.
  revert m. induction ks as [|k' ks IH]; intros m; simpl; [done|].
  rewrite IH. destruct (decide (k = k')) as [->|Hne].
  - rewrite lookup_delete_eq. by repeat case_decide; set_solver.
  - rewrite lookup_delete_ne by done. by repeat case_decide; set_solver.
Qed.

Lemma clear_intent_deadlines_spec j i :
  journal_ok j →
  ∃ deadlines, clear_intent_deadlines j i = Some deadlines ∧
    ∀ k, deadlines !! k = if decide (k.1.2 = i) then None else j_deadlines j !! k.
Proof.
  intros Hok. unfold clear_intent_deadlines.
  set (f := λ '(r, _), row ← read_lane j (i, r); Some ((λ d, (d.1, i, r)) <$> lane_state_deadline (ln_state row))).
  assert (∀ l, (∀ r row, (r, row) ∈ l → j_lanes j !! (i, r) = Some row) →
    mapM f l = Some ((λ p, (λ d, (d.1, i, p.1)) <$> lane_state_deadline (ln_state p.2)) <$> l)) as Hmap.
  { induction l as [|[r row] l IH]; intros Hl; [done|]. simpl. rewrite (read_lane_ok _ _ row Hok) by (apply Hl; set_solver).
    simpl. rewrite IH by set_solver. done. }
  rewrite Hmap by (intros r row; apply elem_of_intent_lanes). simpl. eexists. split; [done|].
  intros [[a i'] r]. rewrite lookup_foldl_delete. cbn [fst snd].
  assert ((a, i', r) ∈ omap id ((λ p, (λ d, (d.1, i, p.1)) <$> lane_state_deadline (ln_state p.2)) <$> intent_lanes j i) ↔
    i' = i ∧ ∃ row kind, j_lanes j !! (i, r) = Some row ∧ lane_state_deadline (ln_state row) = Some (a, kind)) as Hin.
  { rewrite list_elem_of_omap. setoid_rewrite list_elem_of_fmap. split.
    - intros (o & ([r' row] & -> & Hl%elem_of_intent_lanes) & Ho). simpl in Ho.
      destruct (lane_state_deadline (ln_state row)) as [[a' kind]|] eqn:E; [|done].
      injection Ho as <- <- <-. eauto.
    - intros (-> & row & kind & Hl & Hd). eexists. split; [exists (r, row); split; [done|]|].
      + by apply elem_of_intent_lanes.
      + simpl. by rewrite Hd. }
  destruct (decide (i' = i)) as [->|Hne].
  - case_decide as Hd; [done|]. apply eq_None_not_Some. intros [[rev kind] (row & Hl & Hs & _)%(jo_deadlines _ Hok)].
    apply Hd, Hin. eauto.
  - rewrite decide_False; [done|]. by intros [? _]%Hin.
Qed.

Lemma is_Some_filter {K A} `{Countable K} (P : K * A → Prop) `{!∀ p, Decision (P p)} (Q : K → Prop) (m : gmap K A) k :
  (∀ x, P (k, x) ↔ Q k) → is_Some (filter P m !! k) ↔ is_Some (m !! k) ∧ Q k.
Proof. intros HPQ. unfold is_Some. setoid_rewrite map_lookup_filter_Some. setoid_rewrite HPQ. naive_solver. Qed.

Lemma forget_preserves j i :
  journal_ok j → ∃ j', forget_intent j i = Some j' ∧ journal_ok j'.
Proof.
  intros Hok. destruct (clear_intent_deadlines_spec j i Hok) as (dls & Hcl & Hdls).
  unfold forget_intent. rewrite Hcl. simpl. eexists. split; [done|].
  destruct Hok as [Hlane Hdl [Hat Hde Hdec Hsta Hin] [Hinv Hnext Hlr Hroute]]. split; simpl.
  - intros k row [? _]%map_lookup_filter_Some. eauto.
  - intros a i' r rev kind. rewrite Hdls. cbn [fst snd]. setoid_rewrite map_lookup_filter_Some.
    simpl. case_decide as Hi; [naive_solver|]. rewrite (Hdl a i' r rev kind). naive_solver.
  - split.
    + intros i' r o. rewrite (is_Some_filter _ (λ k, k.1.1 ≠ i)) by done. rewrite Hat.
      setoid_rewrite map_lookup_filter_Some. simpl. naive_solver.
    + intros k. rewrite !(is_Some_filter _ (λ k, k.1.1 ≠ i)) by done. by rewrite Hde.
    + intros k d [? _]%map_lookup_filter_Some. eauto.
    + intros k a [? _]%map_lookup_filter_Some. eauto.
    + intros i' r row d [? _]%map_lookup_filter_Some [? _]%map_lookup_filter_Some. eauto.
  - split; simpl; [done|done| |].
    + intros i' r [row [? _]%map_lookup_filter_Some]. eauto.
    + intros i' o ids r [? _]%map_lookup_filter_Some. eauto.
Qed.
