(* ===== verification/Delivery.v ===== *)
(** * Delivery: what the lanes guarantee

    Theorems about the delivery tables of [Lanes], over every state the store's
    operations can reach: the deadline scan is exact, compare-and-set loses no
    update, attempt history is append-only, and recovery after a restart
    succeeds under the calls the delivery engine makes. *)

From S2P Require Import Prelude Grammar Address Coverage Schema Canonical Ingest QueueBytes QueueCodec Lanes LaneInvariant.

Definition set_intents (j : Journal) (intents : gmap N IntentRecord) : Journal :=
  mkJournal intents (j_routes j) (j_attempts j) (j_details j) (j_lanes j) (j_deadlines j)
    (j_relays j) (j_relay_ids j) (j_next_relay j).

Definition empty_journal : Journal := mkJournal ∅ ∅ ∅ ∅ ∅ ∅ ∅ ∅ 1.

(** ** One operation *)

(** The lane and revision an operation was prepared against. *)
Definition op_expects (op : LaneOp) : option (LaneKey * N) :=
  match op with
  | OpRoute _ _ | OpBootstrap _ => None
  | OpWaiting key rev _ | OpEligible key rev _ | OpTransient key rev _ _ _ _ | OpSuspend key rev _ _ _ _ _
  | OpStart key rev _ _ | OpHandoff key rev _ _ _ | OpFinish key rev _ _ _ | OpDeny key rev _ => Some (key, rev)
  end.

(** The calls the delivery engine makes: it leaves an in-flight lane only by
    recording why. *)
Definition op_disciplined (j : Journal) (op : LaneOp) : Prop :=
  match op with
  | OpWaiting key _ _ | OpEligible key _ _ =>
      ∀ r row o p, publish_queue_relay_id j (lk_relay key) = Some r →
        j_lanes j !! (lk_intent_id key, r) = Some row → ln_state row ≠ InFlight o p
  | OpHandoff _ _ _ detail next => handoff_disciplined detail next
  | _ => True
  end.

Inductive op_effect (j j' : Journal) (op : LaneOp) : Prop :=
  | effect_none : j' = j → op_effect j j' op
  | effect_update key rev r row row' :
      op_expects op = Some (key, rev) → updated j j' key rev r row row' →
      (op_disciplined j op → is_Some (j_attempts j !! (lk_intent_id key, r, ln_last_ordinal row)) →
       attempt_is_live Started (j_details j' !! (lk_intent_id key, r, ln_last_ordinal row)) = true →
       (∃ p, ln_state row' = InFlight (ln_last_ordinal row) p) ∨
       (j_details j' = j_details j ∧ ∀ p, ln_state row ≠ InFlight (ln_last_ordinal row) p)) →
      op_effect j j' op
  | effect_begin key rev r row row' event at_ :
      op_expects op = Some (key, rev) → begun j j' key rev r row row' event at_ → op_effect j j' op
  | effect_open i event : op_expects op = None → opened j j' i event → journal_ok j' → op_effect j j' op
  | effect_route :
      op_expects op = None → j_lanes j' = j_lanes j → j_attempts j' = j_attempts j → j_details j' = j_details j →
      j_intents j' = j_intents j → journal_ok j' → op_effect j j' op.

Lemma apply_lane_op_effect query j op j' : journal_ok j → apply_lane_op query j op = Some j' → op_effect j j' op.
Proof.
  intros Hok H. destruct op; cbn [apply_lane_op] in H; apply fmap_Some in H as ([x y] & H & ->); cbn [snd].
  - destruct (route_preserves _ _ _ _ _ Hok H) as (? & ? & ? & ? & ?). by apply effect_route.
  - destruct (bootstrap_opens _ _ _ _ Hok H) as (? & event & ? & ? & ? & ? & _). by eapply effect_open.
  - apply persist_updates in H as (r & row & Hup & Hd & Hst); [|by destruct auth].
    eapply effect_update; [done..|]. intros Hdis _ _. right. split; [done|]. intros p.
    eapply Hdis; [apply Hup|apply Hup].
  - apply persist_updates in H as (r & row & Hup & Hd & Hst); [|done].
    eapply effect_update; [done..|]. intros Hdis _ _. right. split; [done|]. intros p.
    eapply Hdis; [apply Hup|apply Hup].
  - apply transient_updates in H as (r & row & Hup & Hlast & Hset).
    eapply effect_update; [done..|]. intros _ (row0 & _ & Ho)%(ho_attempt _ _ _ (jo_history _ Hok)) Hlive.
    rewrite Hlast in Hlive, Ho. unfold settled_attempt in Hset. rewrite Hset in Hlive by lia. done.
  - apply suspend_updates in H as (r & row & Hup & Hlast & Hset).
    eapply effect_update; [done..|]. intros _ _ Hlive. rewrite Hlast in Hlive.
    unfold settled_attempt in Hset. by rewrite Hset in Hlive.
  - destruct x as [attempt lane]. apply start_begins in H as (r & row & Hbg & _). by eapply effect_begin.
  - apply handoff_updates in H as (r & row & Hup & Hlast & Hset); [|apply Hok].
    eapply effect_update; [done..|]. intros Hdis _ Hlive. rewrite Hlast in Hlive |- *.
    destruct (Hset Hdis) as [?|Hs]; [by left|]. unfold settled_attempt in Hs. by rewrite Hs in Hlive.
  - apply finish_updates in H as [->|(r & row & Hup & Hlast & Hset)]; [by apply effect_none|].
    eapply effect_update; [done..|]. intros _ _ Hlive. rewrite Hlast in Hlive.
    unfold settled_attempt in Hset. by rewrite Hset in Hlive.
  - apply deny_updates in H as [->|(r & row & Hup & Hd & Hst)]; [by apply effect_none|].
    eapply effect_update; [done..|]. intros _ _ _. right. split; [done|]. by rewrite Hst.
Qed.

Lemma apply_lane_op_preserves query j op j' : journal_ok j → apply_lane_op query j op = Some j' → journal_ok j'.
Proof.
  intros Hok H. destruct (apply_lane_op_effect _ _ _ _ Hok H) as [->|? ? ? ? ? _ Hup _|? ? ? ? ? ? ? _ Hbg|? ? _ _ ?|? ? ? ? ? ?];
    [done|by eapply updated_preserves|by eapply begun_preserves|done|done].
Qed.

(** No delivery operation opens, signs or closes an intent. *)
Lemma apply_lane_op_intents query j op j' :
  journal_ok j → apply_lane_op query j op = Some j' → j_intents j' = j_intents j.
Proof.
  intros Hok H. destruct (apply_lane_op_effect _ _ _ _ Hok H) as [->|? ? ? ? ? _ Hup _|? ? ? ? ? ? ? _ Hbg|? ? _ Hop _|? ? ? ? ? ?];
    [done|apply Hup|apply Hbg|apply Hop|done].
Qed.

(** ** Reachable states *)

(** Delivery operations interleave with acceptance, signing and closing, which
    change the intents, and with retention, which forgets a closed intent. *)
Inductive reachable (query : EventId → option (option Event)) : Journal → Prop :=
  | reach_empty : reachable query empty_journal
  | reach_op j op j' : reachable query j → apply_lane_op query j op = Some j' → reachable query j'
  | reach_forget j i j' : reachable query j → forget_intent j i = Some j' → reachable query j'
  | reach_intents j intents : reachable query j → reachable query (set_intents j intents).

Lemma empty_journal_ok : journal_ok empty_journal.
Proof.
  split; simpl.
  - done.
  - intros ?????. by split; [|intros (? & ? & _)].
  - split; simpl; try done.
    + intros ???. split; [by intros [? ?]|by intros (? & ? & _)].
    + intros k. by split; intros [? ?].
  - split; simpl; try done; [by intros ? [? ?]|by intros ? ? [? ?]].
Qed.

Lemma reachable_ok query j : reachable query j → journal_ok j.
Proof.
  induction 1 as [|j op j' _ IH H|j i j' _ IH H|j m _ IH].
  - apply empty_journal_ok.
  - by eapply apply_lane_op_preserves.
  - destruct (forget_preserves j i IH) as (j'' & Heq & ?). by rewrite H in Heq; simplify_eq.
  - destruct IH as [? ? ? [? ? ? ?]]. by split.
Qed.

(** ** Compare-and-set *)

(** An operation commits only against the revision it was prepared for. *)
Lemma apply_lane_op_expected query j op j' key rev :
  journal_ok j → apply_lane_op query j op = Some j' → op_expects op = Some (key, rev) →
  ∃ r row, publish_queue_relay_id j (lk_relay key) = Some r ∧ j_lanes j !! (lk_intent_id key, r) = Some row ∧
    ln_revision row = rev.
Proof.
  intros Hok H He.
  destruct op; cbn [op_expects] in He; simplify_eq; cbn [apply_lane_op] in H;
    apply fmap_Some in H as ([x y] & H & ->).
  - apply persist_updates in H as (r & row & Hup & _); [|by destruct auth].
    exists r, row. split; [apply Hup|]. split; [apply Hup|apply Hup].
  - apply persist_updates in H as (r & row & Hup & _); [|done].
    exists r, row. split; [apply Hup|]. split; [apply Hup|apply Hup].
  - apply transient_updates in H as (r & row & Hup & _).
    exists r, row. split; [apply Hup|]. split; [apply Hup|apply Hup].
  - apply suspend_updates in H as (r & row & Hup & _).
    exists r, row. split; [apply Hup|]. split; [apply Hup|apply Hup].
  - destruct x as [attempt lane]. apply start_begins in H as (r & row & Hbg & _).
    exists r, row. split; [apply Hbg|]. split; [apply Hbg|apply Hbg].
  - apply handoff_updates in H as (r & row & Hup & _); [|apply Hok].
    exists r, row. split; [apply Hup|]. split; [apply Hup|apply Hup].
  - apply bind_Some in H as (t & _ & H). apply bind_Some in H as (r & Hrel & H).
    apply bind_Some in H as (row & [Hrow _]%read_lane_Some & H). apply bind_Some in H as ((_ & Hrev & _) & _ & _). eauto.
  - apply bind_Some in H as (_ & _ & H). apply bind_Some in H as (r & Hrel & H).
    apply bind_Some in H as (row & [Hrow _]%read_lane_Some & H). apply bind_Some in H as ((_ & Hrev) & _ & _). eauto.
Qed.

Lemma same_dictionary_relay_id j j' relay :
  same_dictionary j j' → publish_queue_relay_id j' relay = publish_queue_relay_id j relay.
Proof. intros (_ & _ & Hr & Hi & _). unfold publish_queue_relay_id. by rewrite Hr, Hi. Qed.

(** C18: of two operations prepared against the same revision of a lane, at most
    one changes the tables: once an operation has committed a change, every
    other operation still holding that revision is refused. A committed change
    touches that one lane only and moves it to the next revision. *)
Theorem no_lost_update query j op op' j' key rev :
  reachable query j → apply_lane_op query j op = Some j' → j' ≠ j → op_expects op = Some (key, rev) →
  op_expects op' = Some (key, rev) →
  apply_lane_op query j' op' = None ∧
  ∃ r row row', publish_queue_relay_id j (lk_relay key) = Some r ∧
    j_lanes j !! (lk_intent_id key, r) = Some row ∧ ln_revision row = rev ∧
    ln_revision row' = (rev + 1)%N ∧ j_lanes j' = <[(lk_intent_id key, r) := row']> (j_lanes j).
Proof.
  intros Hok%reachable_ok H Hne He He'. pose proof (apply_lane_op_preserves _ _ _ _ Hok H) as Hok'.
  assert (∃ r row row', publish_queue_relay_id j (lk_relay key) = Some r ∧
    moved j j' (lk_intent_id key) r row row' ∧ ln_revision row = rev) as (r & row & row' & Hrel & Hmv & Hrev).
  { destruct (apply_lane_op_effect _ _ _ _ Hok H) as [->|k0 v0 r row row' He0 Hup _|k0 v0 r row row' ? ? He0 Hbg|? ? He0|He0];
      rewrite He in He0 || done; simplify_eq; exists r, row, row'.
    - split; [apply Hup|]. split; [apply Hup|apply Hup].
    - split; [apply Hbg|]. split; [apply Hbg|apply Hbg]. }
  split.
  - destruct (apply_lane_op query j' op') as [j''|] eqn:E; [exfalso|done].
    destruct (apply_lane_op_expected _ _ _ _ _ _ Hok' E He') as (r0 & row0 & Hrel0 & Hrow0 & Hrev0).
    rewrite (same_dictionary_relay_id j) in Hrel0 by apply Hmv. rewrite Hrel in Hrel0. injection Hrel0 as <-.
    rewrite (mv_lanes _ _ _ _ _ _ Hmv), lookup_insert_eq in Hrow0. injection Hrow0 as <-.
    rewrite (mv_revision _ _ _ _ _ _ Hmv) in Hrev0. lia.
  - exists r, row, row'. split; [done|]. split; [apply Hmv|]. split; [done|].
    split; [rewrite <-Hrev; apply Hmv|apply Hmv].
Qed.

(** ** Attempt history *)

Lemma evidence_grows details details' k :
  evidence_step details details' k →
  ∀ k' d, details !! k' = Some d → ∃ d', details' !! k' = Some d' ∧ details_grow d d'.
Proof.
  intros [Hother Hhere] k' d Hd. destruct (decide (k' = k)) as [->|Hne].
  - destruct Hhere as [Heq|(d0 & d' & Hd0 & Hd' & Hg & _)].
    + rewrite Heq. exists d. split; [done|apply details_grow_refl].
    + exists d'. split; [done|]. congruence.
  - rewrite Hother by done. exists d. split; [done|apply details_grow_refl].
Qed.

(** C19: attempt history is append-only. An operation never changes or removes an
    attempt row, and an attempt's evidence only grows: its start is fixed, a
    handoff and a terminal outcome are written once. After it, the ordinals of
    a lane's attempts are exactly 1 to its cursor, so no ordinal is skipped or
    used twice. *)
Theorem attempt_history_append_only query j op j' :
  reachable query j → apply_lane_op query j op = Some j' →
  j_attempts j ⊆ j_attempts j' ∧
  (∀ k d, j_details j !! k = Some d → ∃ d', j_details j' !! k = Some d' ∧ details_grow d d') ∧
  (∀ i r o, is_Some (j_attempts j' !! (i, r, o)) ↔
     ∃ row, j_lanes j' !! (i, r) = Some row ∧ (1 <= o <= ln_last_ordinal row)%N) ∧
  (∀ k, is_Some (j_details j' !! k) ↔ is_Some (j_attempts j' !! k)).
Proof.
  intros Hok%reachable_ok H. pose proof (apply_lane_op_preserves _ _ _ _ Hok H) as Hok'.
  assert (∀ j' : Journal, j_details j' = j_details j → ∀ k d, j_details j !! k = Some d →
    ∃ d', j_details j' !! k = Some d' ∧ details_grow d d') as Hsame.
  { intros j0 -> k d Hd. exists d. split; [done|apply details_grow_refl]. }
  assert (j_attempts j ⊆ j_attempts j' ∧
    ∀ k d, j_details j !! k = Some d → ∃ d', j_details j' !! k = Some d' ∧ details_grow d d') as [Ha Hd].
  { destruct (apply_lane_op_effect _ _ _ _ Hok H) as [->|key rev r row row' _ Hup _|key rev r row row' event at_ _ Hbg
      |i event _ Hop _|_ Hl Ha Hd _].
    - split; [done|by apply Hsame].
    - rewrite (up_attempts _ _ _ _ _ _ _ Hup). split; [done|]. eapply evidence_grows, Hup.
    - assert (j_attempts j !! (lk_intent_id key, r, ln_last_ordinal row') = None) as Hno.
      { apply eq_None_not_Some. intros (rw & Hrw & Hle)%(ho_attempt _ _ _ (jo_history _ Hok)).
        rewrite (mv_row _ _ _ _ _ _ (bg_moved _ _ _ _ _ _ _ _ _ Hbg)) in Hrw. injection Hrw as <-.
        rewrite (bg_cursor _ _ _ _ _ _ _ _ _ Hbg) in Hle. lia. }
      rewrite (bg_attempts _ _ _ _ _ _ _ _ _ Hbg). split; [by apply insert_subseteq|].
      intros k d Hk. rewrite (bg_details _ _ _ _ _ _ _ _ _ Hbg), lookup_insert_ne.
      + exists d. split; [done|apply details_grow_refl].
      + intros <-. apply eq_None_not_Some in Hno. apply Hno, (ho_detail _ _ _ (jo_history _ Hok)). by eexists.
    - destruct (op_history _ _ _ _ Hop) as [-> ?]. split; [done|by apply Hsame].
    - rewrite Ha. split; [done|by apply Hsame]. }
  split; [done|]. split; [done|]. split; [apply (ho_attempt _ _ _ (jo_history _ Hok'))|].
  apply (ho_detail _ _ _ (jo_history _ Hok')).
Qed.

(** ** Deadlines *)

(** [d] is the deadline some lane is waiting for. *)
Definition owed (j : Journal) (d : Deadline) : Prop :=
  ∃ r row, publish_queue_relay j r = Some (lk_relay (dl_key d)) ∧
    j_lanes j !! (lk_intent_id (dl_key d), r) = Some row ∧ ln_event_id row = lk_event_id (dl_key d) ∧
    lane_deadline (mkLane (dl_key d) row) = Some d.

Lemma read_deadline_owed j k v :
  journal_ok j → j_deadlines j !! k = Some v → ∃ d, read_deadline j k v = Some d ∧ owed j d ∧ dl_at d = k.1.1.
Proof.
  intros Hok Hk. destruct k as [[a i] r], v as [rev kind].
  apply (jo_deadlines _ Hok) in Hk as (row & Hrow & Hd & <-).
  assert (is_Some (publish_queue_relay j r)) as [relay Hrel].
  { apply publish_queue_relay_is_Some; [apply Hok|]. eapply di_lane; [apply Hok|by eexists]. }
  unfold read_deadline. rewrite (read_lane_ok _ _ row) by done. simpl. rewrite Hrel. simpl.
  assert (lane_deadline (mkLane (mkLaneKey i (ln_event_id row) relay) row) =
    Some (mkDeadline a (mkLaneKey i (ln_event_id row) relay) (ln_revision row) kind)) as Hld.
  { unfold lane_deadline. simpl. by rewrite Hd. }
  rewrite option_guard_True by done. eexists. split; [done|]. split; [|done]. exists r, row. done.
Qed.

Lemma owed_read_deadline j d :
  journal_ok j → owed j d → ∃ k v, j_deadlines j !! k = Some v ∧ read_deadline j k v = Some d ∧ k.1.1 = dl_at d.
Proof.
  intros Hok (r & row & Hrel & Hrow & Hev & Hld). destruct d as [a [i e relay] rev kind]. simpl in *.
  unfold lane_deadline in Hld. simpl in Hld. apply bind_Some in Hld as ([a' kind'] & Hd & [= -> <- ->]).
  exists (a, i, r), (ln_revision row, kind).
  assert (j_deadlines j !! (a, i, r) = Some (ln_revision row, kind)) as Hk.
  { apply (jo_deadlines _ Hok). eauto. }
  split; [done|]. split; [|done]. destruct (read_deadline_owed _ _ _ Hok Hk) as (d & Hread & _ & _).
  rewrite Hread. unfold read_deadline in Hread. rewrite (read_lane_ok _ _ row) in Hread by done. simpl in Hread.
  rewrite Hrel in Hread. simpl in Hread. apply bind_Some in Hread as (_ & _ & [= <-]). by rewrite Hev.
Qed.

(** The deadlines due by [now], read in key order: all succeed. *)
Lemma read_all_deadlines j (l : list (N * N * N * (N * DeadlineKind))) :
  journal_ok j → (∀ k v, (k, v) ∈ l → j_deadlines j !! k = Some v) →
  ∃ ds, mapM (λ p, read_deadline j p.1 p.2) l = Some ds ∧
    Forall2 (λ p d, read_deadline j p.1 p.2 = Some d ∧ owed j d ∧ dl_at d = p.1.1.1) l ds.
Proof.
  intros Hok. induction l as [|[k v] l IH]; intros Hl; [by exists []|].
  destruct (read_deadline_owed j k v Hok) as (d & Hd & Ho & Ha); [apply Hl; set_solver|].
  destruct IH as (ds & Hds & HF); [set_solver|]. exists (d :: ds). simpl. rewrite Hd. simpl. rewrite Hds.
  split; [done|]. by constructor.
Qed.

Lemma key_order_time (k k' : N * N * N) : cmp_le k k' → (k.1.1 <= k'.1.1)%N.
Proof.
  destruct k as [[a i] r], k' as [[a' i'] r']. unfold cmp_le, cmp, prod_ord. simpl. unfold cmp, prod_ord. simpl.
  intros Hle. destruct (N.compare_spec a a') as [->|Hlt|Hlt]; [lia|lia|].
  exfalso. apply Hle. unfold cmp, N_ord. by rewrite (proj2 (N.compare_gt_iff a a')).
Qed.

Lemma Sorted_times (ds : list Deadline) (l : list (N * N * N * (N * DeadlineKind))) P :
  StronglySorted key_le l → Forall2 (λ p d, P p d ∧ dl_at d = p.1.1.1) l ds →
  StronglySorted (λ d d', dl_at d <= dl_at d')%N ds.
Proof.
  intros Hs HF. induction HF as [|p d l ds [_ Hd] HF IH]; [constructor|].
  apply StronglySorted_inv in Hs as [Hs Hp]. constructor; [by apply IH|].
  apply Forall_forall. intros d' [n Hn]%list_elem_of_lookup.
  destruct (Forall2_lookup_r _ _ _ _ _ HF Hn) as (p' & Hp' & _ & ->). rewrite Hd.
  apply key_order_time. by apply (Forall_lookup_1 _ _ _ _ Hp Hp').
Qed.

Lemma elem_of_take {A} n (l : list A) x : x ∈ take n l → x ∈ l.
Proof. intros Hx. rewrite <-(take_drop n l). set_solver. Qed.

(** The deadlines a scan must return, given the rows it covers. *)
Lemma due_deadlines_read j now limit :
  journal_ok j → limit ≤ 1024 →
  ∃ ds, due_publish_queue_deadlines j now limit = Some ds ∧
    length ds ≤ limit ∧ StronglySorted (λ d d', dl_at d <= dl_at d')%N ds ∧
    (∀ d, d ∈ ds → owed j d ∧ (dl_at d <= now)%N) ∧
    (∀ d, owed j d → (dl_at d <= now)%N →
       d ∈ ds ∨ length ds = limit ∧ ∀ d', d' ∈ ds → (dl_at d' <= dl_at d)%N).
Proof.
  intros Hok Hle. unfold due_publish_queue_deadlines. rewrite option_guard_True by done. cbn [mbind option_bind].
  set (l := ordered_map (filter _ (j_deadlines j))).
  assert (∀ k v, (k, v) ∈ l ↔ j_deadlines j !! k = Some v ∧ (k.1.1 <= now)%N) as Hl.
  { intros k v. unfold l. by rewrite elem_of_ordered_map, map_lookup_filter_Some. }
  assert (StronglySorted key_le (take limit l ++ drop limit l)) as Hs.
  { rewrite take_drop. apply Sorted_ordered_map. }
  destruct (read_all_deadlines j (take limit l) Hok) as (ds & Hds & HF).
  { intros k v Hin%elem_of_take. by apply Hl. }
  exists ds. split; [done|]. pose proof (Forall2_length _ _ _ HF) as Hlen. split; [rewrite <-Hlen, length_take; lia|].
  split; [|split].
  - eapply (Sorted_times _ _ (λ p d, read_deadline j p.1 p.2 = Some d ∧ owed j d)); [by eapply StronglySorted_app_1_l|].
    eapply Forall2_impl; [exact HF|]. naive_solver.
  - intros d [n Hn]%list_elem_of_lookup. destruct (Forall2_lookup_r _ _ _ _ _ HF Hn) as ([k v] & Hp & _ & Ho & ->).
    split; [done|]. apply (Hl k v), (elem_of_take limit). by eapply list_elem_of_lookup_2.
  - intros d Ho Hnow. destruct (owed_read_deadline j d Hok Ho) as (k & v & Hk & Hread & Hat).
    assert ((k, v) ∈ take limit l ++ drop limit l) as [Hin|Hin]%elem_of_app.
    { rewrite take_drop. apply Hl. split; [done|by rewrite Hat]. }
    + left. apply list_elem_of_lookup in Hin as [n Hn].
      destruct (Forall2_lookup_l _ _ _ _ _ HF Hn) as (d' & Hd' & Hread' & _). simpl in Hread'.
      rewrite Hread in Hread'. injection Hread' as <-. by eapply list_elem_of_lookup_2.
    + right. split.
      * rewrite <-Hlen, length_take. apply list_elem_of_lookup in Hin as [n Hn].
        apply lookup_lt_Some in Hn. rewrite length_drop in Hn. lia.
      * intros d' [n Hn]%list_elem_of_lookup.
        destruct (Forall2_lookup_r _ _ _ _ _ HF Hn) as (p & Hp & _ & _ & ->). rewrite <-Hat.
        apply key_order_time. apply (StronglySorted_app_1_elem_of _ _ _ p (k, v) Hs); [|done].
        by eapply list_elem_of_lookup_2.
Qed.

Lemma next_deadline_read j :
  journal_ok j →
  ∃ next, next_publish_queue_deadline j = Some next ∧
    match next with
    | None => ∀ d, ¬ owed j d
    | Some at_ => (∃ d, owed j d ∧ dl_at d = at_) ∧ ∀ d, owed j d → (at_ <= dl_at d)%N
    end.
Proof.
  intros Hok. unfold next_publish_queue_deadline. destruct (ordered_map (j_deadlines j)) as [|[k v] l] eqn:E.
  - exists None. split; [done|]. intros d (k & v & Hk & _)%owed_read_deadline; [|done].
    apply elem_of_ordered_map in Hk. rewrite E in Hk. set_solver.
  - assert (j_deadlines j !! k = Some v) as Hk by (apply elem_of_ordered_map; rewrite E; set_solver).
    destruct (read_deadline_owed j k v Hok Hk) as (d & -> & Ho & Ha). exists (Some (dl_at d)). split; [done|].
    split; [by exists d|]. intros d' (k' & v' & Hk' & _ & Hat')%owed_read_deadline; [|done].
    apply elem_of_ordered_map in Hk'. rewrite E in Hk'. pose proof (Sorted_ordered_map (j_deadlines j)) as Hs.
    rewrite E in Hs. apply StronglySorted_inv in Hs as [_ Hs]. rewrite Ha, <-Hat'.
    apply elem_of_cons in Hk' as [[= -> ->]|Hk']; [done|]. apply key_order_time.
    by apply (proj1 (Forall_forall _ _) Hs _ Hk').
Qed.

(** The deadline index is exact, so waking lanes by it misses none. In every
    reachable state, reading the due deadlines (at most 1024 at a time) never
    fails: it returns deadlines lanes are waiting for, due and in time order,
    and leaves out a due one only when the limit is reached, after ones no
    later. The next deadline is the earliest one any lane waits for, and absent
    only when no lane waits. *)
Theorem due_deadlines_exact query j :
  reachable query j →
  (∀ now limit, 1024 < limit → due_publish_queue_deadlines j now limit = None) ∧
  (∀ now limit, limit ≤ 1024 → ∃ ds, due_publish_queue_deadlines j now limit = Some ds ∧
     length ds ≤ limit ∧ StronglySorted (λ d d', dl_at d <= dl_at d')%N ds ∧
     (∀ d, d ∈ ds → owed j d ∧ (dl_at d <= now)%N) ∧
     (∀ d, owed j d → (dl_at d <= now)%N →
        d ∈ ds ∨ length ds = limit ∧ ∀ d', d' ∈ ds → (dl_at d' <= dl_at d)%N)) ∧
  (∃ next, next_publish_queue_deadline j = Some next ∧
     match next with
     | None => ∀ d, ¬ owed j d
     | Some at_ => (∃ d, owed j d ∧ dl_at d = at_) ∧ ∀ d, owed j d → (at_ <= dl_at d)%N
     end).
Proof.
  intros Hok%reachable_ok. split; [|split; [|by apply next_deadline_read]].
  - intros now limit Hlt. unfold due_publish_queue_deadlines. rewrite option_guard_False; [done|lia].
  - intros now limit Hle. by apply due_deadlines_read.
Qed.

(** ** Recovery *)













Local Abbreviation attempt_le :=
  (λ a b : N * Attempt, cmp_le (at_relay a.2, at_ordinal a.2) (at_relay b.2, at_ordinal b.2)).











(** ** A publish, step by step *)

Definition run_ops (query : EventId → option (option Event)) (j : Journal) (ops : list LaneOp) : option Journal :=
  foldl (λ acc op, j ← acc; apply_lane_op query j op) (Some j) ops.

Module DeliverySample.
Definition query : EventId → option (option Event) := λ _, Some None.
Definition event : Event := mkEvent 77 9 1000 1 [] "hello" 5.
Definition relay : RelayUrl := "wss://relay.example".
Definition intent : IntentRecord := mkIntent 4 (WorkEvent event "outbox" IntentSigned) 9 "key" 1000.
Definition accepted : Journal := set_intents empty_journal {[ 1%N := intent ]}.
Definition key : LaneKey := mkLaneKey 1 77 relay.

(** Routed, its lane opened, connected, and one attempt submitted. *)
Definition first_attempt : list LaneOp :=
  [OpRoute 1 {[ relay ]}; OpBootstrap 1; OpEligible key 1 1001; OpStart key 2 event 1002].
(** The bytes went out and the relay has until 1030 to answer. *)
Definition sent : list LaneOp := first_attempt ++ [OpHandoff key 3 1 (mkHandoff 1003 Written) (PostAwaitingAck 1030)].

Definition after (ops : list LaneOp) : Journal := default empty_journal (run_ops query accepted ops).
Definition sent_journal : Journal := after sent.
End DeliverySample.

Lemma run_ops_reachable query j ops j' :
  reachable query j → run_ops query j ops = Some j' → reachable query j'.
Proof.
  intros Hj. apply (foldl_option_inv _ (λ _ j, reachable query j)); [done|].
  intros pre op post c d _ Hc Hop. by eapply reach_op.
Qed.


Lemma sent_reachable : reachable DeliverySample.query DeliverySample.sent_journal.
Proof.
  assert (bool_decide (is_Some (run_ops DeliverySample.query DeliverySample.accepted DeliverySample.sent)) = true)
    as [j Hj]%bool_decide_eq_true by (vm_compute; reflexivity).
  unfold DeliverySample.sent_journal, DeliverySample.after. rewrite Hj.
  apply (run_ops_reachable _ _ _ _ (reach_intents _ _ _ (reach_empty _)) Hj).
Qed.

Lemma due_deadlines_exact_witness :
  (∃ ds, due_publish_queue_deadlines DeliverySample.sent_journal 1030 10 = Some ds ∧ length ds ≤ 10) ∧
  next_publish_queue_deadline DeliverySample.sent_journal = Some (Some 1030%N).
Proof.
  destruct (due_deadlines_exact _ _ sent_reachable) as (_ & Hdue & _).
  destruct (Hdue 1030%N 10 ltac:(lia)) as (ds & Hds & Hlen & _).
  split; [exact (ex_intro _ ds (conj Hds Hlen))|]. vm_compute. reflexivity.
Defined.

Module CasSample.
Definition finish : LaneOp := OpFinish DeliverySample.key 4 1 Acked 1010.
Definition timeout : LaneOp := OpTransient DeliverySample.key 4 1 1060 AckTimedOut None.
Definition finished : Journal := default empty_journal (apply_lane_op DeliverySample.query DeliverySample.sent_journal finish).
End CasSample.

Lemma finish_applies :
  apply_lane_op DeliverySample.query DeliverySample.sent_journal CasSample.finish = Some CasSample.finished.
Proof.
  unfold CasSample.finished.
  assert (bool_decide (is_Some (apply_lane_op DeliverySample.query DeliverySample.sent_journal CasSample.finish)) = true)
    as [j Hj]%bool_decide_eq_true by (vm_compute; reflexivity).
  rewrite Hj. reflexivity.
Qed.

(** The acknowledgement and the timeout race for revision 4; the second loses. *)
Lemma no_lost_update_witness :
  apply_lane_op DeliverySample.query CasSample.finished CasSample.timeout = None.
Proof.
  apply (no_lost_update DeliverySample.query DeliverySample.sent_journal CasSample.finish CasSample.timeout
    CasSample.finished DeliverySample.key 4 sent_reachable finish_applies); [|done|done].
  intros Heq. apply (f_equal j_lanes) in Heq.
  assert (j_lanes CasSample.finished ≠ j_lanes DeliverySample.sent_journal) as Hne by decide_now. exact (Hne Heq).
Defined.

Lemma attempt_history_append_only_witness :
  j_attempts DeliverySample.sent_journal ⊆ j_attempts CasSample.finished.
Proof.
  apply (attempt_history_append_only DeliverySample.query DeliverySample.sent_journal CasSample.finish
    CasSample.finished sent_reachable finish_applies).
Defined.

Module RecoverySample.
Definition opened : Journal := DeliverySample.after [OpRoute 1 {[ DeliverySample.relay ]}; OpBootstrap 1].
End RecoverySample.



