(* ===== verification/Retention.v ===== *)
(** * Terminal receipts and their retention

    A finished write keeps its receipt and delivery evidence as bounded history:
    [mark_terminal_receipt] and its index of
    [crates/nmp-store/src/redb_store/publish_queue.rs], and [close_intent],
    [accept_refused], [maintain_terminal_receipts_in_txn] and
    [remove_publish_queue_entry_in_txn] of [publish_queue_ops.rs], under the
    limits of [terminal_retention.rs].

    The counters of [PUBLISH_QUEUE_META] are fields; an absent row is the value
    the code reads in its place (1 for the id counters, 0 for the others).  The
    rows under [TERMINAL_RECEIPT_PREFIX] are the set [qs_index].  [None] is a
    [PersistenceError] or a panic, on either of which nothing is committed. *)

From S2P Require Import Prelude Grammar Address Coverage Schema Canonical Ingest QueueBytes QueueCodec Lanes LaneInvariant Delivery.

(** ** Limits *)

Record TerminalRetentionLimits := mkLimits { max_age_secs : N; max_count : N; max_bytes : N }.

Definition terminal_receipt_max_age_secs : N := 24 * 60 * 60.
Definition terminal_receipt_max_count : N := 100000.
Definition terminal_receipt_max_bytes : N := 256 * 1024 * 1024.
Definition production : TerminalRetentionLimits :=
  mkLimits terminal_receipt_max_age_secs terminal_receipt_max_count terminal_receipt_max_bytes.

(** ** State *)

Record QueueState := mkQueueState {
  qs_journal : Journal;
  qs_receipts : gmap N ReceiptRecord;
  qs_displaced : gmap N StoredEvent;
  qs_claims : gmap N (list SuppressClaim);
  qs_next_intent : N;
  qs_next_receipt : N;
  qs_next_sequence : N;
  qs_index : gset (N * N);
  qs_count : N;
  qs_bytes : N;
  qs_last_at : N
}.

Definition set_journal (s : QueueState) (j : Journal) : QueueState :=
  mkQueueState j (qs_receipts s) (qs_displaced s) (qs_claims s) (qs_next_intent s) (qs_next_receipt s) (qs_next_sequence s)
    (qs_index s) (qs_count s) (qs_bytes s) (qs_last_at s).
Definition set_receipts (s : QueueState) (receipts : gmap N ReceiptRecord) : QueueState :=
  mkQueueState (qs_journal s) receipts (qs_displaced s) (qs_claims s) (qs_next_intent s) (qs_next_receipt s) (qs_next_sequence s)
    (qs_index s) (qs_count s) (qs_bytes s) (qs_last_at s).
Definition set_next_receipt (s : QueueState) (next : N) : QueueState :=
  mkQueueState (qs_journal s) (qs_receipts s) (qs_displaced s) (qs_claims s) (qs_next_intent s) next (qs_next_sequence s)
    (qs_index s) (qs_count s) (qs_bytes s) (qs_last_at s).
Definition set_index (s : QueueState) (index : gset (N * N)) (count bytes : N) : QueueState :=
  mkQueueState (qs_journal s) (qs_receipts s) (qs_displaced s) (qs_claims s) (qs_next_intent s) (qs_next_receipt s)
    (qs_next_sequence s) index count bytes (qs_last_at s).

Definition with_terminal_metadata (r : ReceiptRecord) (t : option N * option N * option N) : ReceiptRecord :=
  mkReceipt (rc_intent_id r) (rc_expected_pubkey r) (rc_accepted_at r) (rc_payload r) t.

(** ** Counters *)

Definition alloc_counter_in_txn (current : N) : option (N * N) :=
  next ← u64_succ current; Some (current, next).

Definition alloc_receipt_id_in_txn (s : QueueState) : option (N * QueueState) :=
  '(id, next) ← alloc_counter_in_txn (qs_next_receipt s);
  guard (id < 2 ^ 63)%N;; Some (id, set_next_receipt s next).

Definition alloc_intent_id_in_txn (s : QueueState) : option (N * QueueState) :=
  '(id, next) ← alloc_counter_in_txn (qs_next_intent s);
  Some (id, mkQueueState (qs_journal s) (qs_receipts s) (qs_displaced s) (qs_claims s) next (qs_next_receipt s)
              (qs_next_sequence s) (qs_index s) (qs_count s) (qs_bytes s) (qs_last_at s)).

Definition change_meta_u64 (current : N) (delta : Z) : option N :=
  let next := (Z.of_N current + delta)%Z in
  guard (0 <= next <= Z.of_N u64_max)%Z;; Some (Z.to_N next).

(** ** The index *)

Definition terminal_receipt_prefix : bytes := as_bytes "terminal_receipt/".
Definition terminal_receipt_key (sequence receipt_id : N) : bytes :=
  terminal_receipt_prefix ++ be_bytes 8 sequence ++ be_bytes 8 receipt_id.
Definition terminal_receipt_range : bytes * bytes :=
  (terminal_receipt_prefix ++ replicate 16 0%N, terminal_receipt_prefix ++ replicate 16 255%N).

(** [update_publish_queue_receipt] of [publish_queue.rs]. *)
Definition update_publish_queue_receipt (s : QueueState) (receipt_id : N) (state : ReceiptState)
    : option QueueState :=
  record ← qs_receipts s !! receipt_id;
  match rc_payload record with
  | PayloadEvent event_id _ =>
      let record := mkReceipt (rc_intent_id record) (rc_expected_pubkey record) (rc_accepted_at record)
                      (PayloadEvent event_id state) (rc_terminal record) in
      _ ← encode_receipt record;
      Some (set_receipts s (<[receipt_id := record]> (qs_receipts s)))
  | PayloadReplaceableOperation _ _ _ => None
  end.

Definition mark_terminal_receipt (s : QueueState) (receipt_id observed_at exclusive_evidence_bytes : N)
    : option QueueState :=
  record ← qs_receipts s !! receipt_id;
  match rc_terminal record with
  | (Some _, Some _, Some _) => Some s
  | (None, None, None) =>
      '(sequence, next_sequence) ← alloc_counter_in_txn (qs_next_sequence s);
      let terminal_at := N.max observed_at (qs_last_at s) in
      unsized ← encode_receipt (with_terminal_metadata record (Some sequence, Some terminal_at, Some 0%N));
      let receipt_bytes := N.of_nat (8 + length unsized) in
      let index_bytes := N.of_nat (length (terminal_receipt_key sequence receipt_id)) in
      partial ← checked_add_u64 exclusive_evidence_bytes receipt_bytes;
      terminal_bytes ← checked_add_u64 partial index_bytes;
      let record := with_terminal_metadata record (Some sequence, Some terminal_at, Some terminal_bytes) in
      _ ← encode_receipt record;
      guard ((sequence, receipt_id) ∉ qs_index s);;
      count ← change_meta_u64 (qs_count s) 1;
      bytes ← change_meta_u64 (qs_bytes s) (Z.of_N terminal_bytes);
      Some (mkQueueState (qs_journal s) (<[receipt_id := record]> (qs_receipts s)) (qs_displaced s) (qs_claims s)
              (qs_next_intent s) (qs_next_receipt s) next_sequence ({[ (sequence, receipt_id) ]} ∪ qs_index s) count bytes terminal_at)
  | _ => None
  end.

Definition remove_terminal_receipt_index (s : QueueState) (receipt_id : N) (record : ReceiptRecord)
    : option QueueState :=
  match rc_terminal record with
  | (Some sequence, Some _, Some terminal_bytes) =>
      guard ((sequence, receipt_id) ∈ qs_index s);;
      count ← change_meta_u64 (qs_count s) (-1);
      bytes ← change_meta_u64 (qs_bytes s) (- Z.of_N terminal_bytes);
      Some (set_index s (qs_index s ∖ {[ (sequence, receipt_id) ]}) count bytes)
  | _ => Some s
  end.

(** ** Forgetting a receipt *)

Inductive RemoveQueueEntryOutcome := NotFound | StillOpen | Removed.
#[global] Instance RemoveQueueEntryOutcome_eq_dec : EqDecision RemoveQueueEntryOutcome.
Proof. solve_decision. Defined.

Definition remove_publish_queue_entry_in_txn (s : QueueState) (receipt_id : N)
    : option (RemoveQueueEntryOutcome * QueueState) :=
  match qs_receipts s !! receipt_id with
  | None => Some (NotFound, s)
  | Some record =>
      match rc_intent_id record with
      | None =>
          s ← remove_terminal_receipt_index s receipt_id record;
          Some (Removed, set_receipts s (delete receipt_id (qs_receipts s)))
      | Some intent_id =>
          if decide (is_Some (j_intents (qs_journal s) !! intent_id)) then Some (StillOpen, s) else
          guard (qs_claims s !! intent_id = None);;
          s ← remove_terminal_receipt_index s receipt_id record;
          j ← forget_intent (qs_journal s) intent_id;
          Some (Removed,
                mkQueueState j (delete receipt_id (qs_receipts s)) (delete intent_id (qs_displaced s)) (qs_claims s)
                  (qs_next_intent s) (qs_next_receipt s) (qs_next_sequence s) (qs_index s) (qs_count s) (qs_bytes s) (qs_last_at s))
      end
  end.

Definition remove_publish_queue_entry := remove_publish_queue_entry_in_txn.

(** ** Maintenance *)

Definition saturating_add_u64 (x y : N) : N := N.min (x + y) u64_max.

Definition age_due (limits : TerminalRetentionLimits) (now terminal_at : N) : bool :=
  (saturating_add_u64 terminal_at (max_age_secs limits) <=? now)%N.

(** The scan of the index, oldest first: the receipts to remove, and what
    remains once they are gone. *)
Fixpoint retention_candidates (receipts : gmap N ReceiptRecord) (limits : TerminalRetentionLimits) (now : N)
    (rows : list (N * N)) (remaining_count remaining_bytes : N) : option (list N * N * N) :=
  match rows with
  | [] => Some ([], remaining_count, remaining_bytes)
  | (sequence, receipt_id) :: rows =>
      record ← receipts !! receipt_id;
      terminal_bytes ← (rc_terminal record).2;
      guard ((rc_terminal record).1.1 = Some sequence);;
      terminal_at ← (rc_terminal record).1.2;
      if negb (age_due limits now terminal_at) && (remaining_count <=? max_count limits)%N
         && (remaining_bytes <=? max_bytes limits)%N
      then Some ([], remaining_count, remaining_bytes)
      else
        guard (1 <= remaining_count)%N;;
        guard (terminal_bytes <= remaining_bytes)%N;;
        '(candidates, count, bytes) ←
          retention_candidates receipts limits now rows (remaining_count - 1) (remaining_bytes - terminal_bytes);
        Some (receipt_id :: candidates, count, bytes)
  end.

Definition remove_candidate (s : QueueState) (receipt_id : N) : option QueueState :=
  '(outcome, s) ← remove_publish_queue_entry_in_txn s receipt_id;
  guard (outcome = Removed);; Some s.

Definition maintain_terminal_receipts_in_txn (s : QueueState) (now : N) (limits : TerminalRetentionLimits)
    : option (list N * QueueState) :=
  '(candidates, count, bytes) ←
    retention_candidates (qs_receipts s) limits now (ordered (qs_index s)) (qs_count s) (qs_bytes s);
  guard (count <= max_count limits ∧ bytes <= max_bytes limits)%N;;
  s ← foldl (λ acc receipt_id, s ← acc; remove_candidate s receipt_id) (Some s) candidates;
  Some (candidates, s).

Definition terminal_retention_due (s : QueueState) (now : N) (limits : TerminalRetentionLimits) : option bool :=
  if (max_count limits <? qs_count s)%N || (max_bytes limits <? qs_bytes s)%N then Some true else
  match ordered (qs_index s) with
  | [] => Some false
  | (sequence, receipt_id) :: _ =>
      record ← qs_receipts s !! receipt_id;
      guard ((rc_terminal record).1.1 = Some sequence);;
      terminal_at ← (rc_terminal record).1.2;
      Some (age_due limits now terminal_at)
  end.

Definition maintain_terminal_receipts_at (s : QueueState) (now : N) (limits : TerminalRetentionLimits)
    : option (list N * QueueState) :=
  due ← terminal_retention_due s now limits;
  if due : bool then maintain_terminal_receipts_in_txn s now limits else Some ([], s).

(** ** Closing an intent *)

Inductive LaneShape := ShapeNone | ShapeAllTerminal.
#[global] Instance LaneShape_eq_dec : EqDecision LaneShape.
Proof. solve_decision. Defined.
Inductive CloseIntentOutcome := Closed | AlreadyClosed.

(** The stored length of a row, whose encoder succeeded when it was written. *)
Definition evidence_row (key_len : nat) (value : Result bytes) : option N :=
  match value with inr bs => Some (N.of_nat (key_len + length bs)) | inl _ => None end.

Definition add_rows (total : option N) (rows : list (option N)) : option N :=
  foldl (λ acc row, total ← acc; bytes ← row; checked_add_u64 total bytes) total rows.

Definition terminal_intent_evidence_bytes (j : Journal) (intent_id : N) : option N :=
  let attempts := (λ '(_, _, (event_id, outcome)), evidence_row 20 (encode_attempt event_id outcome))
                    <$> intent_rows (j_attempts j) intent_id in
  let details := (λ '(_, _, d), evidence_row 20 (encode_attempt_details d)) <$> intent_rows (j_details j) intent_id in
  let lanes := (λ p, evidence_row 12 (encode_lane p.2)) <$> intent_lanes j intent_id in
  let routes := (λ p, evidence_row 16 (encode_route p.2))
                  <$> ordered_map (filter (λ p, p.1.1 = intent_id) (j_routes j)) in
  add_rows (add_rows (add_rows (add_rows (Some 0%N) attempts) details) lanes) routes.

Definition is_terminal_state (state : LaneState) : bool :=
  match state with Terminal _ _ => true | _ => false end.

Definition shape_holds (shape : LaneShape) (states : list LaneState) : bool :=
  match shape with
  | ShapeNone => bool_decide (states = [])
  | ShapeAllTerminal => bool_decide (states ≠ []) && forallb is_terminal_state states
  end.

(** [marked_at] and [maintained_at] are the two readings of the wall clock. *)
Definition close_intent (s : QueueState) (intent_id : N) (shape : LaneShape) (marked_at maintained_at : N)
    : option (CloseIntentOutcome * QueueState) :=
  match j_intents (qs_journal s) !! intent_id with
  | None => Some (AlreadyClosed, s)
  | Some intent =>
      states ← mapM (λ '(relay_id, _), row ← read_lane (qs_journal s) (intent_id, relay_id); Some (ln_state row))
                 (intent_lanes (qs_journal s) intent_id);
      guard (shape_holds shape states = true);;
      evidence_bytes ← terminal_intent_evidence_bytes (qs_journal s) intent_id;
      s ← (if decide (shape = ShapeNone)
           then update_publish_queue_receipt s (in_receipt_id intent) ReceiptNoDestination else Some s);
      deadlines ← clear_intent_deadlines (qs_journal s) intent_id;
      let j := set_lanes (qs_journal s) (j_lanes (qs_journal s)) deadlines in
      let s := set_journal s (set_intents j (delete intent_id (j_intents j))) in
      s ← mark_terminal_receipt s (in_receipt_id intent) marked_at evidence_bytes;
      '(_, s) ← maintain_terminal_receipts_in_txn s maintained_at production;
      Some (Closed, s)
  end.

Definition close_unroutable_intent (s : QueueState) (intent_id marked_at maintained_at : N) :=
  close_intent s intent_id ShapeNone marked_at maintained_at.
Definition close_terminal_intent (s : QueueState) (intent_id marked_at maintained_at : N) :=
  close_intent s intent_id ShapeAllTerminal marked_at maintained_at.

(** ** A refused write *)

Definition accept_refused (s : QueueState) (frozen_id : EventId) (expected_pubkey : PublicKey) (reason : RefuseReason)
    (marked_at maintained_at : N) : option (N * QueueState) :=
  match reason with
  | AlreadyExpired => None
  | Tombstoned =>
      '(receipt_id, s) ← alloc_receipt_id_in_txn s;
      let record := mkReceipt None expected_pubkey None (PayloadEvent frozen_id (ReceiptRefused reason))
                      (None, None, None) in
      _ ← encode_receipt record;
      s ← mark_terminal_receipt (set_receipts s (<[receipt_id := record]> (qs_receipts s))) receipt_id marked_at 0;
      '(_, s) ← maintain_terminal_receipts_in_txn s maintained_at production;
      Some (receipt_id, s)
  end.

(** ** An accepted write *)

(** What [accept_write] does to these tables once its event is in the store:
    the two ids, the intent and its stash, the claims of a pending deletion,
    the receipt, and maintenance. *)
Definition journal_accepted (s : QueueState) (frozen : Event) (routing : string) (sig_state : IntentSigState)
    (expected_pubkey : PublicKey) (signing_identity_ref : string) (accepted_at : N) (receipt_state : ReceiptState)
    (displaced : option StoredEvent) (claims : option (list SuppressClaim)) (maintained_at : N)
    : option (N * N * QueueState) :=
  '(intent_id, s) ← alloc_intent_id_in_txn s;
  '(receipt_id, s) ← alloc_receipt_id_in_txn s;
  let intent := mkIntent receipt_id (WorkEvent frozen routing sig_state) expected_pubkey signing_identity_ref
                  accepted_at in
  let receipt := mkReceipt (Some intent_id) expected_pubkey (Some accepted_at)
                   (PayloadEvent (e_id frozen) receipt_state) (None, None, None) in
  _ ← encode_receipt receipt;
  let j := qs_journal s in
  let s := mkQueueState (set_intents j (<[intent_id := intent]> (j_intents j)))
             (<[receipt_id := receipt]> (qs_receipts s))
             (match displaced with Some stored => <[intent_id := stored]> (qs_displaced s) | None => qs_displaced s end)
             (match claims with Some l => <[intent_id := l]> (qs_claims s) | None => qs_claims s end)
             (qs_next_intent s) (qs_next_receipt s) (qs_next_sequence s) (qs_index s) (qs_count s) (qs_bytes s)
             (qs_last_at s) in
  '(_, s) ← maintain_terminal_receipts_in_txn s maintained_at production;
  Some (intent_id, receipt_id, s).

(** ** Paging through the retained receipts *)

Definition publish_queue_receipts_after (s : QueueState) (after : option N) (limit : N) : list (N * ReceiptRecord) :=
  if (limit =? 0)%N || bool_decide (after = Some u64_max) then [] else
  let first := match after with Some id => (id + 1)%N | None => 0%N end in
  take (N.to_nat limit) (filter (λ p, (first <= p.1)%N) (ordered_map (qs_receipts s))).
