(* ===== verification/History.v ===== *)
(** * The bounded history of terminal receipts

    Over every state the operations of [Retention] reach: the index and its two
    totals account for exactly the terminal receipts, maintenance always
    completes and removes an oldest prefix of them, no more than the limits
    require, and the history never exceeds the production limits. *)

From S2P Require Import Prelude Grammar Address Coverage Schema Canonical Ingest QueueBytes QueueCodec Lanes LaneInvariant Delivery Retention.

(** ** Accounting *)

(** The receipt [r] ended as number [q], at [a], with [b] bytes. *)
Definition ended (r : ReceiptRecord) (q a b : N) : Prop := rc_terminal r = (Some q, Some a, Some b).

Lemma age_due_true limits now a : age_due limits now a = true ↔ (N.min (a + max_age_secs limits) u64_max <= now)%N.
Proof. apply N.leb_le. Qed.
Lemma age_due_false limits now a : age_due limits now a = false ↔ (now < N.min (a + max_age_secs limits) u64_max)%N.
Proof. apply N.leb_gt. Qed.

(** The bytes of the receipt an index entry names. *)
Definition entry_bytes (receipts : gmap N ReceiptRecord) (p : N * N) : N :=
  default 0%N (r ← receipts !! p.2; (rc_terminal r).2).
Definition rows_bytes (receipts : gmap N ReceiptRecord) (rows : list (N * N)) : N :=
  foldr N.add 0%N (entry_bytes receipts <$> rows).

Record history_exact (s : QueueState) : Prop := {
  he_index q id : (q, id) ∈ qs_index s ↔ ∃ r a b, qs_receipts s !! id = Some r ∧ ended r q a b;
  he_count : qs_count s = N.of_nat (size (qs_index s));
  he_bytes : qs_bytes s = rows_bytes (qs_receipts s) (elements (qs_index s));
  he_fits : (qs_count s <= u64_max)%N ∧ (qs_bytes s <= u64_max)%N;
  he_sequence q id : (q, id) ∈ qs_index s → (q < qs_next_sequence s)%N;
  he_unique q id id' : (q, id) ∈ qs_index s → (q, id') ∈ qs_index s → id = id';
  he_order id r q a b id' r' q' a' b' :
    qs_receipts s !! id = Some r → ended r q a b → qs_receipts s !! id' = Some r' → ended r' q' a' b' →
    (q <= q')%N → (a <= a')%N;
  he_last id r q a b : qs_receipts s !! id = Some r → ended r q a b → (a <= qs_last_at s)%N
}.

Record queue_ok (s : QueueState) : Prop := {
  qo_journal : journal_ok (qs_journal s);
  qo_history : history_exact s;
  qo_encodes id r : qs_receipts s !! id = Some r → is_Some (encode_receipt r);
  qo_fresh id : is_Some (qs_receipts s !! id) → (id < qs_next_receipt s)%N;
  qo_fresh_intent id r i : qs_receipts s !! id = Some r → rc_intent_id r = Some i → (i < qs_next_intent s)%N;
  qo_closed id r q a b i : qs_receipts s !! id = Some r → ended r q a b → rc_intent_id r = Some i →
    j_intents (qs_journal s) !! i = None ∧ qs_claims s !! i = None;
  qo_open i intent : j_intents (qs_journal s) !! i = Some intent →
    ∃ r, qs_receipts s !! in_receipt_id intent = Some r ∧ rc_intent_id r = Some i
}.

Lemma ended_inj r q a b q' a' b' : ended r q a b → ended r q' a' b' → q = q' ∧ a = a' ∧ b = b'.
Proof. unfold ended. intros -> [= -> -> ->]. done. Qed.

(** Terminal metadata is all or none. *)
Lemma encodes_metadata r :
  is_Some (encode_receipt r) → rc_terminal r = (None, None, None) ∨ ∃ q a b, ended r q a b.
Proof.
  unfold encode_receipt, ended. intros [bs Hbs].
  destruct (rc_terminal r) as [[[q|] [a|]] [b|]]; simpl in Hbs; repeat case_match; try done; naive_solver.
Qed.

(** Changing only the terminal metadata keeps a receipt encodable. *)
Lemma with_terminal_metadata_encodes r q a b :
  is_Some (encode_receipt r) → is_Some (encode_receipt (with_terminal_metadata r (Some q, Some a, Some b))).
Proof.
  unfold encode_receipt. simpl. intros [bs Hbs].
  destruct (enc_option enc_u64 (rc_intent_id r)), (enc_option enc_u64 (rc_accepted_at r)),
    (encode_payload (rc_payload r)); done.
Qed.

Lemma rows_bytes_perm receipts rows rows' : rows ≡ₚ rows' → rows_bytes receipts rows = rows_bytes receipts rows'.
Proof.
  unfold rows_bytes. intros Hp%(fmap_Permutation (entry_bytes receipts)).
  induction Hp; simpl; lia.
Qed.

Lemma rows_bytes_ext receipts receipts' rows :
  (∀ p, p ∈ rows → receipts !! p.2 = receipts' !! p.2) → rows_bytes receipts rows = rows_bytes receipts' rows.
Proof.
  intros Heq. unfold rows_bytes. f_equal. apply list_fmap_ext. intros i p Hp.
  unfold entry_bytes. by rewrite Heq by (by eapply list_elem_of_lookup_2).
Qed.

Lemma entry_bytes_ended receipts q id r a b :
  receipts !! id = Some r → ended r q a b → entry_bytes receipts (q, id) = b.
Proof. intros Hr He. unfold entry_bytes. simpl. rewrite Hr. simpl. by rewrite He. Qed.

(** ** The scan of the index *)

Definition rows_ended (receipts : gmap N ReceiptRecord) (rows : list (N * N)) : Prop :=
  ∀ q id, (q, id) ∈ rows → ∃ r a b, receipts !! id = Some r ∧ ended r q a b.

(** Why the oldest of [rows] must go: it is too old, or the rows exceed a limit. *)
Definition must_go (receipts : gmap N ReceiptRecord) (limits : TerminalRetentionLimits) (now : N)
    (rows : list (N * N)) : Prop :=
  (max_count limits < N.of_nat (length rows))%N ∨ (max_bytes limits < rows_bytes receipts rows)%N ∨
  ∃ q id r a b, head rows = Some (q, id) ∧ receipts !! id = Some r ∧ ended r q a b ∧
    (N.min (a + max_age_secs limits) u64_max <= now)%N.

Lemma retention_candidates_spec receipts limits now rows :
  rows_ended receipts rows →
  ∃ k, k ≤ length rows ∧
    retention_candidates receipts limits now rows (N.of_nat (length rows)) (rows_bytes receipts rows) =
      Some ((take k rows).*2, N.of_nat (length (drop k rows)), rows_bytes receipts (drop k rows)) ∧
    (∀ i, i < k → must_go receipts limits now (drop i rows)) ∧
    ((drop k rows ≠ []) → ¬ must_go receipts limits now (drop k rows)).
Proof.
  induction rows as [|[q id] rows IH]; intros Hrows.
  { exists 0. repeat split; [done| |done]. intros i. lia. }
  destruct (Hrows q id) as (r & a & b & Hr & He); [by left|].
  assert (rows_bytes receipts ((q, id) :: rows) = (b + rows_bytes receipts rows)%N) as Hb.
  { unfold rows_bytes. simpl. by rewrite (entry_bytes_ended _ _ _ _ _ _ Hr He). }
  cbn [retention_candidates]. rewrite Hr. cbn [mbind option_bind]. rewrite He. cbn [fst snd mbind option_bind].
  rewrite option_guard_True by done. cbn [mbind option_bind].
  destruct (negb _ && _ && _) eqn:Ebrk.
  - apply andb_prop in Ebrk as [[Hage%negb_true_iff Hc%N.leb_le]%andb_prop Hbytes%N.leb_le].
    exists 0. split; [lia|]. split; [done|]. split; [intros i; lia|].
    intros _ [Hlt|[Hlt|(q' & id' & r' & a' & b' & [= <- <-] & Hr' & He' & Hd)]].
    + rewrite drop_0 in Hlt. lia.
    + rewrite drop_0 in Hlt. lia.
    + rewrite Hr in Hr'. injection Hr' as <-. destruct (ended_inj _ _ _ _ _ _ _ He He') as (_ & -> & _).
    apply age_due_true in Hd. congruence.
  - destruct IH as (k & Hk & Hcand & Hall & Hstop). { intros q' id' Hin. apply Hrows. by right. }
    rewrite Hb, option_guard_True by (simpl length; lia). cbn [mbind option_bind].
    rewrite option_guard_True by lia. cbn [mbind option_bind].
    replace (N.of_nat (length ((q, id) :: rows)) - 1)%N with (N.of_nat (length rows)) by (simpl; lia).
    replace (b + rows_bytes receipts rows - b)%N with (rows_bytes receipts rows) by lia.
    rewrite Hcand. cbn [mbind option_bind]. exists (S k). split; [simpl; lia|]. split; [done|]. split; [|done].
    intros [|i] Hi; [|apply Hall; lia]. rewrite drop_0. unfold must_go. rewrite Hb.
    destruct (N.leb_spec (N.of_nat (length ((q, id) :: rows))) (max_count limits)); [|by left].
    destruct (N.leb_spec (b + rows_bytes receipts rows) (max_bytes limits)); [|by right; left].
    right. right. exists q, id, r, a, b. repeat split; [done..|].
    rewrite Hb in Ebrk. apply age_due_true. destruct (age_due limits now a); [done|]. simpl negb in Ebrk. simpl andb in Ebrk.
    rewrite !(proj2 (N.leb_le _ _)) in Ebrk by done. done.
Qed.

(** ** Forgetting a receipt *)

Lemma change_meta_Some c d n :
  change_meta_u64 c d = Some n ↔ Z.of_N n = (Z.of_N c + d)%Z ∧ (n <= u64_max)%N.
Proof.
  unfold change_meta_u64. split.
  - intros (? & _ & [= <-])%bind_Some. lia.
  - intros [Hn Hle]. rewrite option_guard_True by lia. simpl. f_equal. lia.
Qed.

Lemma rows_bytes_elements (receipts : gmap N ReceiptRecord) (X : gset (N * N)) (p : N * N) :
  p ∈ X → rows_bytes receipts (elements X) = (entry_bytes receipts p + rows_bytes receipts (elements (X ∖ {[ p ]})))%N.
Proof.
  intros Hp. rewrite (rows_bytes_perm receipts (elements X) (p :: elements (X ∖ {[ p ]}))); [done|].
  rewrite <-elements_union_singleton by set_solver. apply elements_proper.
  rewrite <-union_difference_singleton_L by done. done.
Qed.

(** Dropping the receipt [id] from the history. *)
Lemma history_remove s id r :
  history_exact s → is_Some (encode_receipt r) → qs_receipts s !! id = Some r →
  ∃ X count bytes, remove_terminal_receipt_index s id r = Some (set_index s X count bytes) ∧
    X = filter (λ p, p.2 ≠ id) (qs_index s) ∧
    history_exact (set_index (set_receipts s (delete id (qs_receipts s))) X count bytes).
Proof.
  intros [Hidx Hcount Hbytes [Hcf Hbf] Hseq Huniq Hord Hlast] Henc Hr.
  assert (∀ q p, (q, id) ∈ qs_index s → p ∈ qs_index s → p.2 = id → p = (q, id)) as Hone.
  { intros q [q' id'] (r1 & a1 & b1 & Hr1 & He1)%Hidx (r2 & a2 & b2 & Hr2 & He2)%Hidx. simpl. intros ->.
    rewrite Hr2 in Hr1. injection Hr1 as <-. by destruct (ended_inj _ _ _ _ _ _ _ He1 He2) as (-> & _). }
  assert (∀ X c b, X = filter (λ p, p.2 ≠ id) (qs_index s) → c = N.of_nat (size X) →
    b = rows_bytes (qs_receipts s) (elements X) → (c <= u64_max)%N → (b <= u64_max)%N →
    history_exact (set_index (set_receipts s (delete id (qs_receipts s))) X c b)) as Hmk.
  { intros X c b -> -> -> Hc Hb. split; simpl; [| | |by split| | | |].
    - intros q id'. rewrite elem_of_filter, Hidx. simpl. setoid_rewrite lookup_delete_Some. naive_solver.
    - done.
    - apply rows_bytes_ext. intros p Hp%elem_of_elements. apply elem_of_filter in Hp as [Hp _].
      by rewrite lookup_delete_ne.
    - intros q id' [_ ?]%elem_of_filter. eauto.
    - intros q id1 id2 [_ ?]%elem_of_filter [_ ?]%elem_of_filter. eauto.
    - intros id1 r1 q1 a1 b1 id2 r2 q2 a2 b2 [_ ?]%lookup_delete_Some ? [_ ?]%lookup_delete_Some. eauto.
    - intros id1 r1 q1 a1 b1 [_ ?]%lookup_delete_Some. eauto. }
  unfold remove_terminal_receipt_index. destruct (encodes_metadata r Henc) as [Hnone|(q & a & b & He)].
  - rewrite Hnone. exists (qs_index s), (qs_count s), (qs_bytes s). split; [by destruct s|].
    assert (qs_index s = filter (λ p, p.2 ≠ id) (qs_index s)) as Heq.
    { apply leibniz_equiv. intros [q id']. rewrite elem_of_filter. simpl. split; [|by intros [_ ?]].
      intros Hin. split; [|done]. intros ->. apply Hidx in Hin as (r' & a & b & Hr' & He). unfold ended in He.
      congruence. }
    split; [done|]. by apply Hmk.
  - assert ((q, id) ∈ qs_index s) as Hin by (apply Hidx; eauto). rewrite He.
    pose proof (rows_bytes_elements (qs_receipts s) _ _ Hin) as Hsum.
    rewrite (entry_bytes_ended _ _ _ _ _ _ Hr He) in Hsum.
    assert (size (qs_index s) = S (size (qs_index s ∖ {[ (q, id) ]}))) as Hsize.
    { rewrite (union_difference_singleton_L (q, id) (qs_index s)) at 1 by done.
      rewrite size_union, size_singleton by set_solver. done. }
    assert (qs_index s ∖ {[ (q, id) ]} = filter (λ p, p.2 ≠ id) (qs_index s)) as Heq.
    { apply leibniz_equiv. intros p. rewrite elem_of_filter, elem_of_difference, elem_of_singleton. split.
      - intros [Hp Hne]. split; [|done]. intros Hid. by apply Hne, Hone.
      - intros [Hne Hp]. split; [done|]. intros ->. done. }
    rewrite option_guard_True by done. simpl.
    rewrite (proj2 (change_meta_Some (qs_count s) (-1) (qs_count s - 1))) by lia. simpl.
    rewrite (proj2 (change_meta_Some (qs_bytes s) (- Z.of_N b) (qs_bytes s - b))) by lia. simpl.
    eexists _, _, _. split; [done|]. split; [done|].
    apply Hmk; [done|lia|lia|lia|lia].
Qed.

(** The history reads only the receipts and their accounting. *)
Lemma history_exact_ext s s' :
  qs_receipts s' = qs_receipts s → qs_index s' = qs_index s → qs_count s' = qs_count s → qs_bytes s' = qs_bytes s →
  qs_next_sequence s' = qs_next_sequence s → qs_last_at s' = qs_last_at s → history_exact s → history_exact s'.
Proof. intros Hr Hi Hc Hb Hn Hl []. split; rewrite ?Hr, ?Hi, ?Hc, ?Hb, ?Hn, ?Hl; done. Qed.

Lemma forget_intents j i j' : forget_intent j i = Some j' → j_intents j' = j_intents j.
Proof. unfold forget_intent. by intros (? & _ & [= <-])%bind_Some. Qed.

(** What removing the receipt [id] leaves. *)
Record forgotten (s s' : QueueState) (id : N) : Prop := {
  fg_ok : queue_ok s';
  fg_receipts : qs_receipts s' = delete id (qs_receipts s);
  fg_index : qs_index s' = filter (λ p, p.2 ≠ id) (qs_index s);
  fg_intents : j_intents (qs_journal s') = j_intents (qs_journal s)
}.

Lemma forget_queue_ok s s' id r :
  queue_ok s → qs_receipts s !! id = Some r →
  (∀ i, rc_intent_id r = Some i → j_intents (qs_journal s) !! i = None) →
  journal_ok (qs_journal s') → j_intents (qs_journal s') = j_intents (qs_journal s) →
  qs_receipts s' = delete id (qs_receipts s) → qs_claims s' = qs_claims s →
  qs_next_intent s' = qs_next_intent s → qs_next_receipt s' = qs_next_receipt s → history_exact s' → queue_ok s'.
Proof.
  intros [_ _ Henc Hfr Hfri Hcl Hop] Hr Hint Hj Hji Hrec Hclm Hni Hnr Hh.
  split; rewrite ?Hji, ?Hrec, ?Hclm, ?Hni, ?Hnr; [done|done| | | | |].
  - intros id' r' [_ ?]%lookup_delete_Some. eauto.
  - intros id' [? [_ ?]%lookup_delete_Some]. eauto.
  - intros id' r' i [_ ?]%lookup_delete_Some. eauto.
  - intros id' r' q a b i [_ ?]%lookup_delete_Some. eauto.
  - intros i intent Hi. destruct (Hop i intent Hi) as (r' & Hr' & Hri). exists r'. split; [|done].
    apply lookup_delete_Some. split; [|done]. intros Heq. rewrite <-Heq, Hr in Hr'. injection Hr' as <-.
    rewrite (Hint i Hri) in Hi. done.
Qed.

Lemma remove_entry_closed s id r :
  queue_ok s → qs_receipts s !! id = Some r →
  (∀ i, rc_intent_id r = Some i → j_intents (qs_journal s) !! i = None ∧ qs_claims s !! i = None) →
  ∃ s', remove_publish_queue_entry_in_txn s id = Some (Removed, s') ∧ forgotten s s' id.
Proof.
  intros Hok Hr Hint. unfold remove_publish_queue_entry_in_txn. rewrite Hr.
  destruct (history_remove s id r) as (X & count & bytes & Hs1 & HX & Hh);
    [apply Hok|by eapply qo_encodes|done|].
  destruct (rc_intent_id r) as [i|] eqn:Ei.
  - destruct (Hint i eq_refl) as [Hno Hclaim]. rewrite decide_False by (rewrite Hno; by intros [? ?]).
    rewrite option_guard_True by done. simpl. rewrite Hs1. simpl.
    destruct (forget_preserves (qs_journal s) i) as (j' & Hf & Hjok); [apply Hok|].
    rewrite Hf. simpl. eexists. split; [done|].
    split; simpl; [|done|done|by eapply forget_intents].
    eapply forget_queue_ok; try done; [|by eapply forget_intents|by eapply history_exact_ext, Hh].
    rewrite Ei. by intros ? [= <-].
  - rewrite Hs1. simpl. eexists. split; [done|]. split; [|done..].
    eapply forget_queue_ok; try done; [by rewrite Ei|apply Hok].
Qed.

Lemma remove_entry_preserves s id o s' :
  queue_ok s → remove_publish_queue_entry_in_txn s id = Some (o, s') → queue_ok s'.
Proof.
  intros Hok H. destruct (qs_receipts s !! id) as [r|] eqn:Hr.
  2: { unfold remove_publish_queue_entry_in_txn in H. rewrite Hr in H. by simplify_eq. }
  destruct (decide (o = StillOpen)) as [->|Hopen].
  { unfold remove_publish_queue_entry_in_txn in H. rewrite Hr in H. destruct (rc_intent_id r) as [i|].
    - case_decide; [by simplify_eq|]. apply bind_Some in H as (_ & _ & H). apply bind_Some in H as (? & _ & H).
      by apply bind_Some in H as (? & _ & ?).
    - by apply bind_Some in H as (? & _ & ?). }
  destruct (remove_entry_closed s id r Hok Hr) as (s1 & Hs1 & [? _ _ _]).
  - intros i Hi. unfold remove_publish_queue_entry_in_txn in H. rewrite Hr, Hi in H. case_decide as Hd; [by simplify_eq|].
    apply bind_Some in H as (Hc & _ & _). split; [|done]. by apply eq_None_not_Some.
  - rewrite H in Hs1. by simplify_eq.
Qed.

Lemma remove_candidate_ok s q id :
  queue_ok s → (q, id) ∈ qs_index s → ∃ s', remove_candidate s id = Some s' ∧ forgotten s s' id.
Proof.
  intros Hok (r & a & b & Hr & He)%(he_index _ (qo_history _ Hok)).
  destruct (remove_entry_closed s id r Hok Hr) as (s' & Hs' & Hf).
  { intros i Hi. by eapply qo_closed. }
  unfold remove_candidate. rewrite Hs'. eauto.
Qed.

(** ** Maintenance *)

Lemma index_ids_unique s p p' :
  history_exact s → p ∈ qs_index s → p' ∈ qs_index s → p.2 = p'.2 → p = p'.
Proof.
  destruct p as [q id], p' as [q' id']. intros Hh. rewrite !(he_index _ Hh). simpl.
  intros (r & a & b & Hr & He) (r' & a' & b' & Hr' & He') ->. rewrite Hr in Hr'. injection Hr' as <-.
  by destruct (ended_inj _ _ _ _ _ _ _ He He') as (-> & _).
Qed.

Lemma index_ids_NoDup s : history_exact s → NoDup (ordered (qs_index s)).*2.
Proof.
  intros Hh. apply NoDup_fmap_2_strong; [|apply NoDup_ordered].
  intros p p' Hp%elem_of_ordered Hp'%elem_of_ordered. by apply (index_ids_unique s).
Qed.

Record pruned (s s' : QueueState) (ids : list N) : Prop := {
  pr_ok : queue_ok s';
  pr_receipts id : qs_receipts s' !! id = if decide (id ∈ ids) then None else qs_receipts s !! id;
  pr_index : qs_index s' = filter (λ p, p.2 ∉ ids) (qs_index s);
  pr_intents : j_intents (qs_journal s') = j_intents (qs_journal s)
}.

Lemma remove_candidates_ok s rows :
  queue_ok s → (∀ p, p ∈ rows → p ∈ qs_index s) → NoDup rows.*2 →
  ∃ s', foldl (λ acc id, s ← acc; remove_candidate s id) (Some s) rows.*2 = Some s' ∧ pruned s s' rows.*2.
Proof.
  revert s. induction rows as [|[q id] rows IH]; intros s Hok Hin Hnd; simpl.
  { exists s. split; [done|]. split; [done|intros id; by rewrite decide_False by apply not_elem_of_nil| |done].
    apply leibniz_equiv. intros p. rewrite elem_of_filter. split; [|by intros [_ ?]]. split; [|done].
    apply not_elem_of_nil. }
  apply NoDup_cons in Hnd as [Hni Hnd].
  destruct (remove_candidate_ok s q id) as (s1 & -> & [Hok1 Hr1 Hi1 Hj1]); [done|apply Hin; by left|].
  destruct (IH s1 Hok1) as (s' & Hs' & [Hok' Hr' Hi' Hj']); [|done|].
  { intros p Hp. rewrite Hi1. apply elem_of_filter. split; [|apply Hin; by right].
    intros <-. apply Hni, (list_elem_of_fmap_2 snd rows p Hp). }
  exists s'. split; [done|]. split; [done| | |by rewrite Hj'].
  - intros id'. rewrite Hr', Hr1. destruct (decide (id' = id)) as [->|Hne].
    + rewrite lookup_delete_eq, (decide_True (P := id ∈ id :: _)) by left. by case_decide.
    + rewrite lookup_delete_ne by done. apply decide_ext. rewrite elem_of_cons. naive_solver.
  - rewrite Hi', Hi1. apply leibniz_equiv. intros p. rewrite !elem_of_filter. set_solver.
Qed.

(** Maintenance removes the first [k] receipts of the index. *)
Lemma maintain_prunes s now limits :
  queue_ok s → ∃ k s',
    maintain_terminal_receipts_in_txn s now limits = Some ((take k (ordered (qs_index s))).*2, s') ∧
    pruned s s' (take k (ordered (qs_index s))).*2 ∧
    qs_index s' = list_to_set (drop k (ordered (qs_index s))) ∧
    (∀ i, i < k → must_go (qs_receipts s) limits now (drop i (ordered (qs_index s)))) ∧
    (drop k (ordered (qs_index s)) ≠ [] → ¬ must_go (qs_receipts s) limits now (drop k (ordered (qs_index s)))).
Proof.
  intros Hok. pose proof (qo_history _ Hok) as Hh. set (rows := ordered (qs_index s)).
  destruct (retention_candidates_spec (qs_receipts s) limits now rows) as (k & Hk & Hcand & Hall & Hstop).
  { intros q id Hin%elem_of_ordered. by apply Hh. }
  unfold maintain_terminal_receipts_in_txn. fold rows.
  rewrite (he_count _ Hh), <-length_ordered, (he_bytes _ Hh), <-(rows_bytes_perm _ _ _ (ordered_perm _)). fold rows.
  rewrite Hcand. cbn [mbind option_bind]. rewrite option_guard_True.
  2: { destruct (drop k rows) as [|p rest]; [split; [simpl; lia|unfold rows_bytes; simpl; lia]|].
       split; apply N.le_ngt; intros Hlt; (apply Hstop; [done|]); [by left|by right; left]. }
  destruct (remove_candidates_ok s (take k rows)) as (s' & Hs' & Hp); [done| | |].
  { intros p Hp. apply elem_of_ordered. by eapply subseteq_take. }
  { rewrite fmap_take. eapply sublist_NoDup; [apply (index_ids_NoDup s Hh)|apply sublist_take]. }
  exists k, s'. cbn [mbind option_bind]. rewrite Hs'. split; [done|]. split; [done|].
  split; [|done]. rewrite (pr_index _ _ _ Hp). apply leibniz_equiv. intros p.
  rewrite elem_of_filter, elem_of_list_to_set, <-elem_of_ordered. fold rows.
  pose proof (NoDup_ordered (qs_index s)) as Hnd. fold rows in Hnd.
  rewrite <-(take_drop k rows) in Hnd. apply NoDup_app in Hnd as (_ & Hdisj & _).
  rewrite <-(take_drop k rows) at 2. rewrite elem_of_app. split; [|intros Hd; split; [|by right]].
  - intros [Hni [Ht|Hd]]; [|done]. destruct Hni. by apply list_elem_of_fmap_2.
  - intros (p' & Heq & Ht)%list_elem_of_fmap. apply (Hdisj p'); [done|].
    rewrite (index_ids_unique s p' p); [done..| | |done];
      apply elem_of_ordered; [by eapply subseteq_take|by eapply subseteq_drop].
Qed.

(** ** Ending a receipt *)

Lemma history_mark s id r count bytes terminal_at terminal_bytes :
  history_exact s → qs_receipts s !! id = Some r → rc_terminal r = (None, None, None) →
  change_meta_u64 (qs_count s) 1 = Some count → change_meta_u64 (qs_bytes s) (Z.of_N terminal_bytes) = Some bytes →
  (qs_last_at s <= terminal_at)%N →
  history_exact (mkQueueState (qs_journal s)
    (<[id := with_terminal_metadata r (Some (qs_next_sequence s), Some terminal_at, Some terminal_bytes)]> (qs_receipts s))
    (qs_displaced s) (qs_claims s) (qs_next_intent s) (qs_next_receipt s) (qs_next_sequence s + 1)
    ({[ (qs_next_sequence s, id) ]} ∪ qs_index s) count bytes terminal_at).
Proof.
  intros [Hidx Hcount Hbytes _ Hseq Huniq Hord Hlast] Hr Hnone [Hc Hcf]%change_meta_Some [Hb Hbf]%change_meta_Some Hat.
  set (r' := with_terminal_metadata _ _). set (p := (qs_next_sequence s, id)).
  assert (∀ q, (q, id) ∉ qs_index s) as Hni.
  { intros q (r0 & a & b & Hr0 & He)%Hidx. unfold ended in He. congruence. }
  assert (∀ id' r0 q a b, <[id := r']> (qs_receipts s) !! id' = Some r0 → ended r0 q a b →
    (id' = id ∧ q = qs_next_sequence s ∧ a = terminal_at) ∨
    (id' ≠ id ∧ qs_receipts s !! id' = Some r0 ∧ (q < qs_next_sequence s)%N ∧ (a <= qs_last_at s)%N)) as Hcase.
  { intros id' r0 q a b [[<- <-]|[Hne Hl]]%lookup_insert_Some He.
    - left. injection He as -> -> _. done.
    - right. repeat split; [done|done| |by eapply Hlast]. apply (Hseq q id'), Hidx. eauto. }
  split; simpl.
  - intros q id'. rewrite elem_of_union, elem_of_singleton, Hidx. split.
    + intros [[= -> ->]|(r0 & a & b & Hr0 & He)]; [exists r', terminal_at, terminal_bytes; by rewrite lookup_insert_eq|].
      exists r0, a, b. rewrite lookup_insert_ne; [done|]. intros <-. apply (Hni q), Hidx. eauto.
    + intros (r0 & a & b & Hr0 & He).
      destruct (Hcase _ _ _ _ _ Hr0 He) as [(-> & -> & _)|(Hne & Hl & _)]; [by left|right; eauto].
  - rewrite size_union, size_singleton by set_solver. lia.
  - rewrite (rows_bytes_perm _ _ (p :: elements (qs_index s))).
    2: { apply elements_union_singleton. apply Hni. }
    change (rows_bytes ?m (p :: ?l)) with (entry_bytes m p + rows_bytes m l)%N.
    assert (entry_bytes (<[id := r']> (qs_receipts s)) p = terminal_bytes) as ->.
    { by eapply entry_bytes_ended; [apply lookup_insert_eq|]. }
    rewrite (rows_bytes_ext _ (qs_receipts s)); [lia|]. intros [q' id'] Hp%elem_of_elements. simpl.
    apply lookup_insert_ne. intros <-. by apply (Hni q').
  - done.
  - intros q id' [[= -> ->]%elem_of_singleton|Hin%Hseq]%elem_of_union; lia.
  - intros q id1 id2. rewrite !elem_of_union, !elem_of_singleton.
    intros [[= -> ->]|H1] [[= ->]|H2]; [done| | |by eapply Huniq].
    + apply Hseq in H2. lia.
    + subst. apply Hseq in H1. lia.
  - intros id1 r1 q1 a1 b1 id2 r2 q2 a2 b2 H1 E1 H2 E2 Hle.
    destruct (Hcase _ _ _ _ _ H1 E1) as [(-> & -> & ->)|(? & Hr1 & ? & ?)],
      (Hcase _ _ _ _ _ H2 E2) as [(-> & -> & ->)|(? & Hr2 & ? & ?)]; try lia.
    by apply (Hord id1 r1 q1 a1 b1 id2 r2 q2 a2 b2).
  - intros id1 r1 q1 a1 b1 H1 E1. destruct (Hcase _ _ _ _ _ H1 E1) as [(-> & -> & ->)|(? & ? & ? & ?)]; lia.
Qed.

(** The receipt [id] ends at [a] with [b] bytes; nothing else changes. *)
Record marked (s s' : QueueState) (id a b : N) : Prop := {
  mk_ok : queue_ok s';
  mk_journal : qs_journal s' = qs_journal s;
  mk_new : ∃ r, qs_receipts s !! id = Some r ∧ rc_terminal r = (None, None, None) ∧
    qs_receipts s' = <[id := with_terminal_metadata r (Some (qs_next_sequence s), Some a, Some b)]> (qs_receipts s) ∧
    qs_index s' = {[ (qs_next_sequence s, id) ]} ∪ qs_index s
}.

Lemma mark_spec s id at_ e s' :
  queue_ok s → mark_terminal_receipt s id at_ e = Some s' →
  (∀ r i, qs_receipts s !! id = Some r → rc_intent_id r = Some i →
    j_intents (qs_journal s) !! i = None ∧ qs_claims s !! i = None) →
  s' = s ∨ ∃ b, marked s s' id (N.max at_ (qs_last_at s)) b.
Proof.
  intros Hok (r & Hr & H)%bind_Some Hcl. pose proof Hok as [Hj Hh Henc Hfr Hfri Hcl0 Hop].
  destruct (encodes_metadata r (Henc _ _ Hr)) as [Hnone|(q & a & b & He)]; [|rewrite He in H; simplify_eq; by left].
  rewrite Hnone in H. apply bind_Some in H as ([q nq] & Hq & H).
  unfold alloc_counter_in_txn in Hq. apply bind_Some in Hq as (n & [-> _]%u64_succ_Some & [= <- <-]).
  apply bind_Some in H as (u & Hu & H). apply bind_Some in H as (pb & _ & H). apply bind_Some in H as (b & _ & H).
  apply bind_Some in H as (bs & Hbs & H). apply bind_Some in H as (_ & _ & H). apply bind_Some in H as (c & Hc & H).
  apply bind_Some in H as (by_ & Hb & [= <-]). right. exists b. split; simpl; [|done|by exists r].
  split; simpl; [done|by apply history_mark; [..|lia]| | | | |].
  - intros id' r' [[_ <-]|[_ ?]]%lookup_insert_Some; [by eexists|eauto].
  - intros id' [<-|?]%lookup_insert_is_Some'; eauto.
  - intros id' r' i [[_ <-]|[_ ?]]%lookup_insert_Some; eauto.
  - intros id' r' q a b' i [[_ <-]|[_ Hl]]%lookup_insert_Some; [|eauto]. intros _. simpl. eauto.
  - intros i intent Hi. destruct (Hop i intent Hi) as (r' & Hr' & Hri).
    destruct (decide (in_receipt_id intent = id)) as [<-|Hne].
    + rewrite lookup_insert_eq. eexists. split; [done|]. by simplify_eq.
    + rewrite lookup_insert_ne by done. eauto.
Qed.

(** Both counters fit their limits. *)
Definition within_limits (limits : TerminalRetentionLimits) (s : QueueState) : Prop :=
  (qs_count s <= max_count limits)%N ∧ (qs_bytes s <= max_bytes limits)%N.

Lemma pruned_bytes s s' k :
  queue_ok s → pruned s s' (take k (ordered (qs_index s))).*2 →
  qs_index s' = list_to_set (drop k (ordered (qs_index s))) →
  qs_count s' = N.of_nat (length (drop k (ordered (qs_index s)))) ∧
  qs_bytes s' = rows_bytes (qs_receipts s) (drop k (ordered (qs_index s))).
Proof.
  intros Hok Hp Hidx. pose proof (qo_history _ (pr_ok _ _ _ Hp)) as Hh.
  assert (NoDup (drop k (ordered (qs_index s)))) as Hnd.
  { eapply sublist_NoDup; [apply NoDup_ordered|apply sublist_drop]. }
  rewrite (he_count _ Hh), (he_bytes _ Hh), Hidx. split; [by rewrite size_list_to_set|].
  rewrite (rows_bytes_perm _ _ _ (elements_list_to_set _ Hnd)). apply rows_bytes_ext. intros p Hd.
  rewrite (pr_receipts _ _ _ Hp). rewrite decide_False; [done|]. intros Ht.
  assert (p ∈ qs_index s') as Hin by (rewrite Hidx; by apply elem_of_list_to_set).
  rewrite (pr_index _ _ _ Hp) in Hin. by apply elem_of_filter in Hin as [? _].
Qed.

Lemma maintain_within s now limits ids s' :
  queue_ok s → maintain_terminal_receipts_in_txn s now limits = Some (ids, s') → queue_ok s' ∧ within_limits limits s'.
Proof.
  intros Hok H. destruct (maintain_prunes s now limits Hok) as (k & s1 & Hs1 & Hp & Hidx & _ & Hstop).
  rewrite H in Hs1. injection Hs1 as -> <-. split; [apply Hp|].
  destruct (pruned_bytes s s' k Hok Hp Hidx) as [Hc Hb]. unfold within_limits. rewrite Hc, Hb.
  destruct (drop k (ordered (qs_index s))) as [|p rest]; [split; [simpl; lia|unfold rows_bytes; simpl; lia]|].
  split; apply N.le_ngt; intros Hlt; (apply Hstop; [done|]); [by left|by right; left].
Qed.

(** ** Closing *)

Lemma lane_states_read j i :
  journal_ok j →
  mapM (λ '(relay_id, _), row ← read_lane j (i, relay_id); Some (ln_state row)) (intent_lanes j i) =
    Some ((λ p, ln_state p.2) <$> intent_lanes j i).
Proof.
  intros Hok. apply mapM_Some, Forall2_fmap_r, Forall_Forall2_diag, Forall_forall.
  intros [r row] Hin%elem_of_intent_lanes. by rewrite (read_lane_ok _ _ _ Hok Hin).
Qed.

Lemma shape_terminal j i shape r row :
  shape_holds shape ((λ p, ln_state p.2) <$> intent_lanes j i) = true →
  j_lanes j !! (i, r) = Some row → is_terminal_state (ln_state row) = true.
Proof.
  intros Hs Hin%elem_of_intent_lanes. destruct shape; simpl in Hs.
  - apply bool_decide_eq_true in Hs. apply fmap_nil_inv in Hs. rewrite Hs in Hin. by apply not_elem_of_nil in Hin.
  - apply andb_prop in Hs as [_ Hall]. rewrite forallb_forall in Hall. apply Hall.
    apply list_elem_of_In. by apply (list_elem_of_fmap_2 (λ p, ln_state p.2) _ (r, row)).
Qed.

(** Closing drops the intent; its lanes are terminal, so no deadline is lost. *)
Lemma close_journal_ok j i shape :
  journal_ok j → shape_holds shape ((λ p, ln_state p.2) <$> intent_lanes j i) = true →
  ∃ deadlines, clear_intent_deadlines j i = Some deadlines ∧
    journal_ok (set_intents (set_lanes j (j_lanes j) deadlines) (delete i (j_intents j))).
Proof.
  intros Hok Hs. destruct (clear_intent_deadlines_spec j i Hok) as (dls & Hcl & Hdls).
  exists dls. split; [done|]. destruct Hok as [Hlane Hdl Hh [? ? ? ?]]. split; simpl; [done| |done|done].
  intros a i' r rev kind. rewrite Hdls. cbn [fst snd]. case_decide as Hi; [|apply Hdl].
  split; [done|]. intros (row & Hrow & Hd & _). subst.
  pose proof (shape_terminal _ _ _ _ _ Hs Hrow) as Ht. destruct (ln_state row); done.
Qed.

(** Rewriting a receipt's payload. *)
Lemma repaid_ok s id r r' :
  queue_ok s → qs_receipts s !! id = Some r → rc_intent_id r' = rc_intent_id r → rc_terminal r' = rc_terminal r →
  is_Some (encode_receipt r') → queue_ok (set_receipts s (<[id := r']> (qs_receipts s))).
Proof.
  intros [Hj Hh Henc Hfr Hfri Hcl Hop] Hr Hi Ht He.
  assert (∀ id' r0, <[id := r']> (qs_receipts s) !! id' = Some r0 →
    ∃ r1, qs_receipts s !! id' = Some r1 ∧ rc_intent_id r0 = rc_intent_id r1 ∧ rc_terminal r0 = rc_terminal r1) as Hback.
  { intros id' r0 [[<- <-]|[_ ?]]%lookup_insert_Some; eauto. }
  assert (∀ id' r1, qs_receipts s !! id' = Some r1 →
    ∃ r0, <[id := r']> (qs_receipts s) !! id' = Some r0 ∧ rc_intent_id r0 = rc_intent_id r1 ∧
      rc_terminal r0 = rc_terminal r1) as Hfwd.
  { intros id' r1 Hr1. destruct (decide (id = id')) as [<-|Hne].
    - exists r'. rewrite lookup_insert_eq. by simplify_eq.
    - exists r1. by rewrite lookup_insert_ne. }
  split; simpl; [done| | | | | |].
  - destruct Hh as [Hidx Hcount Hbytes Hfit Hseq Huniq Hord Hlast]. split; simpl; [|done| |done..| |].
    + intros q id'. rewrite Hidx. unfold ended. split.
      * intros (r0 & a & b & Hr0 & Hend). destruct (Hfwd _ _ Hr0) as (r1 & Hr1 & _ & Heq). exists r1, a, b. by rewrite Heq.
      * intros (r0 & a & b & Hr0 & Hend). destruct (Hback _ _ Hr0) as (r1 & Hr1 & _ & Heq). exists r1, a, b. by rewrite <-Heq.
    + rewrite Hbytes. unfold rows_bytes. f_equal. apply list_fmap_ext. intros n [q id'] _. unfold entry_bytes. simpl.
      destruct (decide (id = id')) as [<-|Hne]; [|by rewrite lookup_insert_ne].
      rewrite lookup_insert_eq, Hr. simpl. by rewrite Ht.
    + intros id1 r1 q1 a1 b1 id2 r2 q2 a2 b2 (r1' & H1 & _ & E1)%Hback Hd1 (r2' & H2 & _ & E2)%Hback Hd2.
      unfold ended in *. rewrite E1 in Hd1. rewrite E2 in Hd2. by apply (Hord id1 r1' q1 a1 b1 id2 r2' q2 a2 b2).
    + intros id1 r1 q1 a1 b1 (r1' & H1 & _ & E1)%Hback Hd1. unfold ended in *. rewrite E1 in Hd1.
      by apply (Hlast id1 r1' q1 a1 b1).
  - intros id' r0 [[_ <-]|[_ ?]]%lookup_insert_Some; eauto.
  - intros id' [r0 (r1 & ? & _)%Hback]. eauto.
  - intros id' r0 i (r1 & ? & Heq & _)%Hback Hri. rewrite Heq in Hri. eauto.
  - intros id' r0 q a b i (r1 & ? & Heq & Heq')%Hback Hend Hri. unfold ended in Hend. rewrite Heq in Hri. rewrite Heq' in Hend.
    by apply (Hcl id' r1 q a b i).
  - intros i intent (r1 & (r0 & Hr0 & Heq & _)%Hfwd & Hri)%Hop. exists r0. by rewrite Heq.
Qed.

Lemma update_receipt_ok s id state s' :
  queue_ok s → update_publish_queue_receipt s id state = Some s' →
  queue_ok s' ∧ ∃ r r', qs_receipts s !! id = Some r ∧ rc_intent_id r' = rc_intent_id r ∧
    rc_terminal r' = rc_terminal r ∧ s' = set_receipts s (<[id := r']> (qs_receipts s)).
Proof.
  intros Hok (r & Hr & H)%bind_Some. destruct (rc_payload r); [|done].
  apply bind_Some in H as (bs & Hbs & [= <-]). split.
  - by eapply repaid_ok; [..|eexists].
  - eexists r, _. split; [done|]. by split_and!; [| |reflexivity].
Qed.

(** The state [close_intent] hands to [mark_terminal_receipt]. *)
Lemma unlisted_ok s i deadlines :
  queue_ok s →
  journal_ok (set_intents (set_lanes (qs_journal s) (j_lanes (qs_journal s)) deadlines)
                (delete i (j_intents (qs_journal s)))) →
  queue_ok (set_journal s (set_intents (set_lanes (qs_journal s) (j_lanes (qs_journal s)) deadlines)
                             (delete i (j_intents (qs_journal s))))).
Proof.
  intros [Hj Hh Henc Hfr Hfri Hcl Hop] Hj'. split; simpl; [done| |done|done|done| |].
  - by eapply history_exact_ext, Hh.
  - intros id r q a b i' Hr He Hi. destruct (Hcl id r q a b i' Hr He Hi) as [Hno ?]. split; [|done].
    rewrite lookup_delete_None. by right.
  - intros i' intent [_ ?]%lookup_delete_Some. eauto.
Qed.

Lemma close_preserves s i shape t1 t2 o s' :
  queue_ok s → within_limits production s → qs_claims s !! i = None →
  close_intent s i shape t1 t2 = Some (o, s') → queue_ok s' ∧ within_limits production s'.
Proof.
  intros Hok Hlim Hclaim. unfold close_intent. destruct (j_intents (qs_journal s) !! i) as [intent|] eqn:Ei.
  2: { intros [= <- <-]. done. }
  rewrite lane_states_read by apply Hok. simpl.
  intros (Hs & _ & H)%bind_Some. apply bind_Some in H as (e & _ & H). apply bind_Some in H as (s1 & Hs1 & H).
  assert (queue_ok s1 ∧ qs_journal s1 = qs_journal s ∧ qs_claims s1 = qs_claims s ∧
    ∃ r, qs_receipts s1 !! in_receipt_id intent = Some r ∧ rc_intent_id r = Some i) as (Hok1 & Hj1 & Hc1 & r & Hr & Hri).
  { destruct (qo_open _ Hok i intent Ei) as (r & Hr & Hri). case_decide.
    - apply update_receipt_ok in Hs1 as (Hok1 & r1 & r1' & Hr1 & Hi1 & _ & ->); [|done]. do 3 (split; [done|]).
      exists r1'. simpl. rewrite lookup_insert_eq. split; [done|]. rewrite Hi1. by simplify_eq.
    - injection Hs1 as <-. by eauto 6. }
  apply bind_Some in H as (dls & Hdls & H). rewrite Hj1 in Hdls, H.
  destruct (close_journal_ok (qs_journal s) i shape) as (dls' & Hdls' & Hjok); [apply Hok|done|].
  rewrite Hdls in Hdls'. injection Hdls' as <-. simpl in H. rewrite <-Hj1 in H, Hjok.
  apply bind_Some in H as (s2 & Hs2 & H). apply bind_Some in H as ([ids s3] & Hs3 & [= <- <-]).
  eapply maintain_within; [|done].
  eapply mark_spec in Hs2 as [->|(b & Hm)]; [by apply unlisted_ok|apply Hm|by apply unlisted_ok|].
  simpl. intros r' i' Hr' Hi'. rewrite Hr in Hr'. injection Hr' as <-. rewrite Hri in Hi'. injection Hi' as <-.
  by rewrite lookup_delete_eq, Hc1.
Qed.

(** ** New receipts *)

Lemma history_insert s id r :
  history_exact s → qs_receipts s !! id = None → rc_terminal r = (None, None, None) →
  history_exact (set_receipts s (<[id := r]> (qs_receipts s))).
Proof.
  intros [Hidx Hcount Hbytes Hfit Hseq Huniq Hord Hlast] Hno Hnone.
  assert (∀ id' r0 q a b, <[id := r]> (qs_receipts s) !! id' = Some r0 → ended r0 q a b →
    qs_receipts s !! id' = Some r0) as Hback.
  { unfold ended. intros id' r0 q a b [[<- <-]|[_ ?]]%lookup_insert_Some ?; [congruence|done]. }
  split; simpl; [|done| |done..| |].
  - intros q id'. rewrite Hidx. split.
    + intros (r0 & a & b & Hr0 & He). exists r0, a, b. rewrite lookup_insert_ne; [done|congruence].
    + intros (r0 & a & b & Hr0 & He). exists r0, a, b. split; [by eapply Hback|done].
  - rewrite Hbytes. apply rows_bytes_ext. intros [q id'] (r0 & a & b & Hr0 & He)%elem_of_elements%Hidx. simpl in *.
    rewrite lookup_insert_ne; [done|congruence].
  - intros id1 r1 q1 a1 b1 id2 r2 q2 a2 b2 H1 E1 H2 E2.
    apply (Hord id1 r1 q1 a1 b1 id2 r2 q2 a2 b2); [by eapply Hback|done|by eapply Hback|done].
  - intros id1 r1 q1 a1 b1 H1 E1. apply (Hlast id1 r1 q1 a1 b1); [by eapply Hback|done].
Qed.

Lemma alloc_receipt_id_Some s id s' :
  alloc_receipt_id_in_txn s = Some (id, s') → id = qs_next_receipt s ∧ s' = set_next_receipt s (id + 1).
Proof.
  intros ([id0 nx] & (n & [-> _]%u64_succ_Some & [= <- <-])%bind_Some & H)%bind_Some.
  by apply bind_Some in H as (_ & _ & [= <- <-]).
Qed.

Lemma unlisted_receipt s : queue_ok s → qs_receipts s !! qs_next_receipt s = None.
Proof. intros Hok. apply eq_None_not_Some. intros Hs%(qo_fresh _ Hok). lia. Qed.

Lemma refuse_preserves s frozen_id pk reason t1 t2 id s' :
  queue_ok s → accept_refused s frozen_id pk reason t1 t2 = Some (id, s') → queue_ok s' ∧ within_limits production s'.
Proof.
  intros Hok. destruct reason; [done|]. intros ([id0 s1] & [-> ->]%alloc_receipt_id_Some & H)%bind_Some.
  apply bind_Some in H as (bs & Hbs & H). apply bind_Some in H as (s2 & Hs2 & H).
  apply bind_Some in H as ([ids s3] & Hs3 & [= <- <-]). eapply maintain_within; [|done].
  set (r := mkReceipt _ _ _ _ _) in *. pose proof (unlisted_receipt s Hok) as Hno.
  assert (queue_ok (set_receipts (set_next_receipt s (qs_next_receipt s + 1))
    (<[qs_next_receipt s := r]> (qs_receipts s)))) as Hok1.
  { destruct Hok as [Hj Hh Henc Hfr Hfri Hcl Hop]. split; simpl; [done| | | | | |].
    - by eapply history_exact_ext, (history_insert s (qs_next_receipt s) r).
    - intros id' r' [[_ <-]|[_ ?]]%lookup_insert_Some; [by eexists|eauto].
    - intros id' [<-|Hs%Hfr]%lookup_insert_is_Some'; lia.
    - intros id' r' i [[_ <-]|[_ ?]]%lookup_insert_Some; [done|eauto].
    - intros id' r' q a b i [[_ <-]|[_ ?]]%lookup_insert_Some; [done|eauto].
    - intros i intent (r' & Hr' & Hri)%Hop. exists r'. rewrite lookup_insert_ne; [done|congruence]. }
  eapply mark_spec in Hs2 as [->|(b & Hm)]; [done|apply Hm|done|].
  simpl. intros r' i. rewrite lookup_insert_eq. by intros [= <-].
Qed.

Lemma accept_preserves s frozen routing sig pk ref at_ st displaced claims t i id s' :
  queue_ok s → journal_accepted s frozen routing sig pk ref at_ st displaced claims t = Some (i, id, s') →
  queue_ok s' ∧ within_limits production s'.
Proof.
  intros Hok ([i0 s0] & ([x y] & Hc & [= -> <-])%bind_Some & H)%bind_Some.
  apply bind_Some in Hc as (n & [-> _]%u64_succ_Some & [= <- <-]).
  apply bind_Some in H as ([id0 s1] & [-> ->]%alloc_receipt_id_Some & H).
  apply bind_Some in H as (bs & Hbs & H). apply bind_Some in H as ([ids s2] & Hs2 & [= <- <- <-]).
  eapply maintain_within; [|done]. pose proof (unlisted_receipt s Hok) as Hno.
  set (r := mkReceipt _ _ _ _ _) in *. clear Hs2.
  destruct Hok as [Hj Hh Henc Hfr Hfri Hcl Hop]. split; simpl.
  - by destruct Hj as [? ? ? [? ? ? ?]].
  - by eapply history_exact_ext, (history_insert s (qs_next_receipt s) r).
  - intros id' r' [[_ <-]|[_ ?]]%lookup_insert_Some; [by eexists|eauto].
  - intros id' [<-|Hs%Hfr]%lookup_insert_is_Some'; lia.
  - intros id' r' i [[_ <-]|[_ Hr]]%lookup_insert_Some; simpl; [intros [= <-]; lia|].
    intros Hi. specialize (Hfri _ _ _ Hr Hi). lia.
  - intros id' r' q a b i [[_ <-]|[_ Hr]]%lookup_insert_Some He Hi; [done|].
    pose proof (Hfri _ _ _ Hr Hi) as Hlt. destruct (Hcl id' r' q a b i Hr He Hi) as [? ?].
    rewrite lookup_insert_ne by lia. split; [done|]. destruct claims; [|done]. by rewrite lookup_insert_ne by lia.
  - intros i intent [[<- <-]|[_ (r' & Hr' & Hri)%Hop]]%lookup_insert_Some.
    + eexists. simpl. rewrite lookup_insert_eq. done.
    + exists r'. rewrite lookup_insert_ne; [done|congruence].
Qed.

(** ** Reachable queues *)

Definition empty_queue : QueueState := mkQueueState empty_journal ∅ ∅ ∅ 1 1 1 ∅ 0 0 0.

(** Signing rewrites an open intent and drops the claims of its deletion. *)
Definition sign_intent (s : QueueState) (i : N) (intent : IntentRecord) : QueueState :=
  mkQueueState (set_intents (qs_journal s) (<[i := intent]> (j_intents (qs_journal s)))) (qs_receipts s)
    (qs_displaced s) (delete i (qs_claims s)) (qs_next_intent s) (qs_next_receipt s) (qs_next_sequence s)
    (qs_index s) (qs_count s) (qs_bytes s) (qs_last_at s).

(** Writes are accepted, signed, delivered, closed, refused and forgotten in any
    order; an intent is closed only once its deletion claims are gone, which is
    to say once it is signed. *)
Inductive queue_reachable (query : EventId → option (option Event)) : QueueState → Prop :=
  | qr_empty : queue_reachable query empty_queue
  | qr_accept s frozen routing sig pk ref at_ st displaced claims t i id s' :
      queue_reachable query s →
      journal_accepted s frozen routing sig pk ref at_ st displaced claims t = Some (i, id, s') →
      queue_reachable query s'
  | qr_sign s i intent intent' :
      queue_reachable query s → j_intents (qs_journal s) !! i = Some intent →
      in_receipt_id intent' = in_receipt_id intent → queue_reachable query (sign_intent s i intent')
  | qr_update s id state s' :
      queue_reachable query s → update_publish_queue_receipt s id state = Some s' → queue_reachable query s'
  | qr_lane s op j :
      queue_reachable query s → apply_lane_op query (qs_journal s) op = Some j →
      queue_reachable query (set_journal s j)
  | qr_close s i shape t1 t2 o s' :
      queue_reachable query s → qs_claims s !! i = None → close_intent s i shape t1 t2 = Some (o, s') →
      queue_reachable query s'
  | qr_refuse s frozen_id pk reason t1 t2 id s' :
      queue_reachable query s → accept_refused s frozen_id pk reason t1 t2 = Some (id, s') → queue_reachable query s'
  | qr_remove s id o s' :
      queue_reachable query s → remove_publish_queue_entry s id = Some (o, s') → queue_reachable query s'
  | qr_maintain s now ids s' :
      queue_reachable query s → maintain_terminal_receipts_at s now production = Some (ids, s') →
      queue_reachable query s'.

Lemma empty_queue_ok : queue_ok empty_queue.
Proof.
  split; simpl; [apply empty_journal_ok| |done|by intros ? [? ?]|done..].
  split; simpl; try done. intros q id. split; [set_solver|by intros (? & ? & ? & ? & _)].
Qed.

Lemma sign_ok s i intent intent' :
  queue_ok s → j_intents (qs_journal s) !! i = Some intent → in_receipt_id intent' = in_receipt_id intent →
  queue_ok (sign_intent s i intent').
Proof.
  intros [Hj Hh Henc Hfr Hfri Hcl Hop] Hi Hrid. split; simpl; [by destruct Hj as [? ? ? [? ? ? ?]]|by eapply history_exact_ext, Hh|done..| |].
  - intros id r q a b i' Hr He Hri. destruct (Hcl id r q a b i' Hr He Hri) as [? ?].
    split; [rewrite lookup_insert_ne; congruence|]. rewrite lookup_delete_None. by right.
  - intros i' intent0 [[<- <-]|[_ ?]]%lookup_insert_Some; [rewrite Hrid|]; by apply Hop.
Qed.

Lemma lane_ok_queue query s op j :
  queue_ok s → apply_lane_op query (qs_journal s) op = Some j → queue_ok (set_journal s j).
Proof.
  intros [Hj Hh Henc Hfr Hfri Hcl Hop] H. pose proof (apply_lane_op_intents _ _ _ _ Hj H) as Hi.
  split; simpl; rewrite ?Hi; [by eapply apply_lane_op_preserves|by eapply history_exact_ext, Hh|done..].
Qed.

Lemma remove_within s id o s' :
  queue_ok s → within_limits production s → remove_publish_queue_entry s id = Some (o, s') →
  within_limits production s'.
Proof.
  intros Hok [Hc Hb] H. pose proof (remove_entry_preserves _ _ _ _ Hok H) as Hok'.
  unfold remove_publish_queue_entry, remove_publish_queue_entry_in_txn in H.
  assert (∀ s1 r, remove_terminal_receipt_index s id r = Some s1 →
    (qs_count s1 <= qs_count s)%N ∧ (qs_bytes s1 <= qs_bytes s)%N) as Hle.
  { unfold remove_terminal_receipt_index. intros s1 r H1. destruct (rc_terminal r) as [[[q|] [a|]] [b|]]; simplify_eq; try done.
    apply bind_Some in H1 as (_ & _ & H1). apply bind_Some in H1 as (c & [Hc1 _]%change_meta_Some & H1).
    apply bind_Some in H1 as (d & [Hd1 _]%change_meta_Some & [= <-]). simpl. lia. }
  unfold within_limits. case_match; [|by simplify_eq]. case_match.
  - case_decide; [by simplify_eq|]. apply bind_Some in H as (_ & _ & H). apply bind_Some in H as (s1 & Hs1%Hle & H).
    apply bind_Some in H as (j & _ & [= <- <-]). split; (etrans; [apply Hs1|done]).
  - apply bind_Some in H as (s1 & Hs1%Hle & [= <- <-]). split; (etrans; [apply Hs1|done]).
Qed.

Lemma queue_reachable_ok query s : queue_reachable query s → queue_ok s ∧ within_limits production s.
Proof.
  induction 1 as [|???????????????[Hok Hl] H|????? [Hok Hl] Hi Hr|??? ? ? [Hok Hl] H|???? [Hok Hl] H
                 |??????? ? [Hok Hl] Hc H|???????? ? [Hok Hl] H|???? ? [Hok Hl] H|???? ? [Hok Hl] H].
  - split; [apply empty_queue_ok|]. by split.
  - by eapply accept_preserves.
  - split; [by eapply sign_ok|done].
  - apply update_receipt_ok in H as (? & r & r' & _ & _ & _ & ->); done.
  - split; [by eapply lane_ok_queue|done].
  - by eapply close_preserves.
  - by eapply refuse_preserves.
  - split; [by eapply remove_entry_preserves|by eapply remove_within].
  - unfold maintain_terminal_receipts_at in H. apply bind_Some in H as (due & _ & H).
    destruct due; [by eapply maintain_within|by simplify_eq].
Qed.

(** ** The guarantees *)





(** The age limit is monotone in the time a receipt ended. *)
Lemma age_due_mono limits now a a' : (a <= a')%N → age_due limits now a' = true → age_due limits now a = true.
Proof. rewrite !age_due_true. lia. Qed.

(** The index is ordered by the number of each receipt. *)
Lemma index_order_le (p p' : N * N) : cmp_le p p' → (p.1 <= p'.1)%N.
Proof.
  destruct p as [q id], p' as [q' id']. intros Hle. simpl. destruct (N.le_gt_cases q q') as [|Hlt]; [done|].
  destruct Hle. change (then_with (q ?= q')%N (id ?= id')%N = Gt). by rewrite (proj2 (N.compare_gt_iff _ _) Hlt).
Qed.

Lemma maintain_nil s now limits s' :
  maintain_terminal_receipts_in_txn s now limits = Some ([], s') → s' = s.
Proof.
  intros ([[ids c] b] & _ & H)%bind_Some. apply bind_Some in H as (_ & _ & H).
  apply bind_Some in H as (s1 & Hs1 & [= -> <-]). by injection Hs1.
Qed.

(** The test made before a maintenance transaction. *)
Lemma retention_due_spec s now limits :
  queue_ok s → ∃ due, terminal_retention_due s now limits = Some due ∧
    (due = false → ¬ must_go (qs_receipts s) limits now (ordered (qs_index s)) ∨ ordered (qs_index s) = []).
Proof.
  intros Hok. pose proof (qo_history _ Hok) as Hh. unfold terminal_retention_due.
  destruct (N.ltb_spec (max_count limits) (qs_count s)) as [|Hc]; [by exists true|].
  destruct (N.ltb_spec (max_bytes limits) (qs_bytes s)) as [|Hb]; [by exists true|]. simpl.
  rewrite (he_count _ Hh), <-length_ordered in Hc.
  rewrite (he_bytes _ Hh), <-(rows_bytes_perm _ _ _ (ordered_perm _)) in Hb.
  destruct (ordered (qs_index s)) as [|[q id] rows] eqn:E; [exists false; by eauto|].
  destruct (proj1 (he_index _ Hh q id)) as (r & a & b & Hr & He).
  { apply elem_of_ordered. rewrite E. by left. }
  rewrite Hr. simpl. rewrite He. simpl. rewrite option_guard_True by done. simpl.
  eexists. split; [done|]. intros Hage. left.
  intros [?|[?|(q' & id' & r' & a' & b' & [= <- <-] & Hr' & He' & Hd)]]; [lia|lia|].
  rewrite Hr in Hr'. injection Hr' as <-. destruct (ended_inj _ _ _ _ _ _ _ He He') as (_ & -> & _).
    apply age_due_true in Hd. congruence.
Qed.

(** What maintenance keeps is younger than the age limit. *)
Lemma kept_young s s' k now limits id r q a b :
  queue_ok s → pruned s s' (take k (ordered (qs_index s))).*2 →
  qs_index s' = list_to_set (drop k (ordered (qs_index s))) →
  (drop k (ordered (qs_index s)) ≠ [] → ¬ must_go (qs_receipts s) limits now (drop k (ordered (qs_index s)))) →
  qs_receipts s' !! id = Some r → ended r q a b → age_due limits now a = false.
Proof.
  intros Hok Hp Hidx Hstop Hr He. apply not_true_iff_false. intros Hd.
  assert ((q, id) ∈ qs_index s') as Hin by (apply (qo_history _ (pr_ok _ _ _ Hp)); eauto).
  rewrite Hidx, elem_of_list_to_set in Hin.
  assert (qs_receipts s !! id = Some r) as Hr0.
  { rewrite (pr_receipts _ _ _ Hp) in Hr. by case_decide. }
  pose proof (Sorted_ordered (qs_index s)) as Hsort. rewrite <-(take_drop k (ordered _)) in Hsort.
  apply StronglySorted_app_1_r in Hsort.
  destruct (drop k (ordered (qs_index s))) as [|[q0 id0] rest] eqn:E; [by apply not_elem_of_nil in Hin|].
  destruct (proj1 (he_index _ (qo_history _ Hok) q0 id0)) as (r0 & a0 & b0 & Hr1 & He0).
  { apply elem_of_ordered. eapply subseteq_drop. rewrite E. by left. }
  apply Hstop; [done|]. right. right. exists q0, id0, r0, a0, b0. do 3 (split; [done|]).
  apply age_due_true, (age_due_mono _ _ _ a); [|done].
  apply (he_order _ (qo_history _ Hok) id0 r0 q0 a0 b0 id r q a b); [done..|].
  apply StronglySorted_inv in Hsort as [_ Hall]. rewrite Forall_forall in Hall.
  apply elem_of_cons in Hin as [[= -> ->]|Hin]; [done|]. by apply (index_order_le (q0, id0) (q, id)), Hall.
Qed.

(** C21: maintenance never fails and is first in, first out: for some [k] it
    forgets the [k] receipts that ended first and keeps every other receipt as
    it was. What it keeps is within all three limits, and each one it forgets
    had to go: it was too old, or the receipts from it on exceeded the count or
    the bytes. The cheap test made before opening a transaction changes nothing:
    it skips maintenance only when there is nothing to remove. *)
Theorem maintenance_is_fifo query s now limits :
  queue_reachable query s → let rows := ordered (qs_index s) in
  ∃ k s', maintain_terminal_receipts_in_txn s now limits = Some ((take k rows).*2, s') ∧
    maintain_terminal_receipts_at s now limits = Some ((take k rows).*2, s') ∧
    (∀ id, qs_receipts s' !! id = if decide (id ∈ (take k rows).*2) then None else qs_receipts s !! id) ∧
    (qs_count s' <= max_count limits)%N ∧ (qs_bytes s' <= max_bytes limits)%N ∧
    (∀ id r q a b, qs_receipts s' !! id = Some r → ended r q a b →
       (now < N.min (a + max_age_secs limits) u64_max)%N) ∧
    (∀ i, i < k → must_go (qs_receipts s) limits now (drop i rows)).
Proof.
  intros [Hok _]%queue_reachable_ok rows.
  destruct (maintain_prunes s now limits Hok) as (k & s' & Hs' & Hp & Hidx & Hall & Hstop). fold rows in Hs', Hp, Hidx, Hall, Hstop.
  exists k, s'. split; [done|]. destruct (pruned_bytes s s' k Hok Hp Hidx) as [Hc Hb]. fold rows in Hc, Hb.
  split; [|split; [apply Hp|]].
  - destruct (retention_due_spec s now limits Hok) as (due & Hdue & Hnot). unfold maintain_terminal_receipts_at.
    rewrite Hdue. simpl. destruct due; [done|]. destruct (Hnot eq_refl) as [Hgo|Hnil].
    + destruct k as [|k]; [|destruct (Hgo (Hall 0 ltac:(lia)))]. by rewrite (maintain_nil _ _ _ _ Hs').
    + fold rows in Hnil. rewrite Hnil, take_nil in Hs' |- *. by rewrite (maintain_nil _ _ _ _ Hs').
  - destruct (maintain_within s now limits _ _ Hok Hs') as [_ [Hcl Hbl]]. split; [done|]. split; [done|].
    split; [|done]. intros id r q a b Hr He. by eapply age_due_false, kept_young.
Qed.

(** ** A settled write *)

Lemma event_receipt_size r event st q a b :
  rc_payload r = PayloadEvent event st →
  ∃ bs, encode_receipt (with_terminal_metadata r (Some q, Some a, Some b)) = Some bs ∧ length bs ≤ 128.
Proof.
  intros Hp. unfold encode_receipt. simpl. rewrite Hp.
  destruct (rc_intent_id r), (rc_accepted_at r), st as [| | | | | |[]];
    (eexists; split; [reflexivity|]); decide_now.
Qed.

Lemma checked_add_Some x y : (x + y <= u64_max)%N → checked_add_u64 x y = Some (x + y)%N.
Proof. intros Hle. by apply checked_add_u64_Some. Qed.

(** An event receipt that has not ended can always be ended. *)
Lemma mark_total s id r event st at_ e :
  queue_ok s → within_limits production s → qs_receipts s !! id = Some r → rc_payload r = PayloadEvent event st →
  rc_terminal r = (None, None, None) → (qs_next_sequence s < u64_max)%N → (e <= 2 ^ 27)%N →
  ∃ s' b, mark_terminal_receipt s id at_ e = Some s' ∧ (e < b <= e + 256)%N ∧
    qs_receipts s' =
      <[id := with_terminal_metadata r (Some (qs_next_sequence s), Some (N.max at_ (qs_last_at s)), Some b)]>
        (qs_receipts s).
Proof.
  intros Hok [Hc Hb] Hr Hp Ht Hq He. pose proof (qo_history _ Hok) as Hh.
  set (a := N.max at_ (qs_last_at s)).
  destruct (event_receipt_size r event st (qs_next_sequence s) a 0 Hp) as (u & Hu & Hlen).
  set (b := (e + N.of_nat (8 + length u) + N.of_nat (length (terminal_receipt_key (qs_next_sequence s) id)))%N).
  assert (length (terminal_receipt_key (qs_next_sequence s) id) = 33) as Hkey.
  { unfold terminal_receipt_key. rewrite !length_app, !length_be_bytes. done. }
  destruct (event_receipt_size r event st (qs_next_sequence s) a b Hp) as (bs & Hbs & _).
  assert ((2 ^ 27 + 2 ^ 28 + 1024 < u64_max)%N) as Hmax by done.
  change (max_count production) with 100000%N in Hc. change (max_bytes production) with (2 ^ 28)%N in Hb.
  exists (mkQueueState (qs_journal s)
    (<[id := with_terminal_metadata r (Some (qs_next_sequence s), Some a, Some b)]> (qs_receipts s))
    (qs_displaced s) (qs_claims s) (qs_next_intent s) (qs_next_receipt s) (qs_next_sequence s + 1)
    ({[ (qs_next_sequence s, id) ]} ∪ qs_index s) (qs_count s + 1) (qs_bytes s + b) a), b.
  split; [|split; [unfold b; lia|done]].
  unfold mark_terminal_receipt. rewrite Hr. cbn [mbind option_bind]. rewrite Ht.
  unfold alloc_counter_in_txn, u64_succ. rewrite (proj2 (N.ltb_lt _ _) Hq). cbn [mbind option_bind].
  fold a. rewrite Hu. cbn [mbind option_bind].
  rewrite checked_add_Some by lia. cbn [mbind option_bind]. rewrite checked_add_Some by lia. cbn [mbind option_bind].
  fold b. rewrite Hbs. cbn [mbind option_bind]. rewrite option_guard_True.
  2: { intros Hin%(he_sequence _ Hh). lia. }
  cbn [mbind option_bind]. rewrite (proj2 (change_meta_Some (qs_count s) 1 (qs_count s + 1))) by lia.
  cbn [mbind option_bind]. by rewrite (proj2 (change_meta_Some (qs_bytes s) (Z.of_N b) (qs_bytes s + b))) by lia.
Qed.

(** Maintenance keeps the receipt that ended last, unless it is too old or too
    large by itself. *)
Lemma latest_kept s now limits id r q a b s' ids :
  queue_ok s → qs_receipts s !! id = Some r → ended r q a b →
  (∀ p, p ∈ qs_index s → (p.1 <= q)%N) → age_due limits now a = false → (b <= max_bytes limits)%N →
  (1 <= max_count limits)%N → maintain_terminal_receipts_in_txn s now limits = Some (ids, s') →
  qs_receipts s' !! id = Some r ∧ j_intents (qs_journal s') = j_intents (qs_journal s).
Proof.
  intros Hok Hr He Hlast Hage Hb Hc H. pose proof (qo_history _ Hok) as Hh.
  destruct (maintain_prunes s now limits Hok) as (k & s1 & Hs1 & Hp & Hidx & Hall & _).
  rewrite H in Hs1. injection Hs1 as -> <-. split; [|apply Hp]. rewrite (pr_receipts _ _ _ Hp), decide_False; [done|].
  assert ((q, id) ∈ qs_index s) as Hin by (apply Hh; eauto).
  intros ([q' id'] & Heq & Ht)%list_elem_of_fmap. simpl in Heq. subst id'.
  assert ((q', id) = (q, id)) as [= ->].
  { apply (index_ids_unique s); [done| |done|done]. apply elem_of_ordered. by eapply subseteq_take. }
  pose proof (Sorted_ordered (qs_index s)) as Hsort. pose proof (NoDup_ordered (qs_index s)) as Hnd.
  apply list_elem_of_lookup in Ht as [n Hn]. apply lookup_take_Some in Hn as [Hn Hlt].
  specialize (Hall n Hlt). rewrite (drop_S _ _ _ Hn) in Hall.
  assert (drop (S n) (ordered (qs_index s)) = []) as Hnil.
  { apply elem_of_nil_inv. intros p Hp'. rewrite <-(take_drop_middle _ _ _ Hn) in Hsort, Hnd.
    apply StronglySorted_app_1_r in Hsort. apply StronglySorted_inv in Hsort as [_ HF]. rewrite Forall_forall in HF.
    apply NoDup_app in Hnd as (_ & _ & Hnd). apply NoDup_cons in Hnd as [Hni _].
    pose proof (index_order_le _ _ (HF _ Hp')) as Hle. simpl in Hle.
    assert (p ∈ qs_index s) as Hpi by (apply elem_of_ordered; by eapply subseteq_drop).
    assert (p.1 = q) as Hpq by (specialize (Hlast _ Hpi); lia). destruct p as [q0 id0]. simpl in Hpq. subst q0.
    by rewrite (he_unique _ Hh q id0 id Hpi Hin) in Hp'. }
  rewrite Hnil in Hall. unfold must_go in Hall.
  destruct Hall as [Hcnt|[Hby|(q0 & id0 & r0 & a0 & b0 & [= <- <-] & Hr0 & He0 & Hd)]].
  - simpl in Hcnt. lia.
  - unfold rows_bytes in Hby. simpl in Hby. rewrite (entry_bytes_ended _ _ _ _ _ _ Hr He) in Hby. lia.
  - rewrite Hr in Hr0. injection Hr0 as <-. destruct (ended_inj _ _ _ _ _ _ _ He He0) as (_ & -> & _).
    apply age_due_true in Hd. congruence.
Qed.

(** The receipt as [close_intent] rewrites it before ending it. *)
Lemma close_update s id r event st shape :
  queue_ok s → qs_receipts s !! id = Some r → rc_payload r = PayloadEvent event st → rc_terminal r = (None, None, None) →
  ∃ r1, (if decide (shape = ShapeNone) then update_publish_queue_receipt s id ReceiptNoDestination else Some s) =
      Some (set_receipts s (<[id := r1]> (qs_receipts s))) ∧
    queue_ok (set_receipts s (<[id := r1]> (qs_receipts s))) ∧
    rc_intent_id r1 = rc_intent_id r ∧ rc_terminal r1 = (None, None, None) ∧
    rc_payload r1 = PayloadEvent event (if decide (shape = ShapeNone) then ReceiptNoDestination else st).
Proof.
  intros Hok Hr Hp Ht. case_decide.
  - exists (mkReceipt (rc_intent_id r) (rc_expected_pubkey r) (rc_accepted_at r) (PayloadEvent event ReceiptNoDestination)
      (rc_terminal r)).
    assert (is_Some (encode_receipt (mkReceipt (rc_intent_id r) (rc_expected_pubkey r) (rc_accepted_at r)
      (PayloadEvent event ReceiptNoDestination) (rc_terminal r)))) as [bs Hbs].
    { unfold encode_receipt. simpl. rewrite Ht. by destruct (rc_intent_id r), (rc_accepted_at r). }
    split; [|split; [by eapply repaid_ok; [..|eexists]|done]].
    unfold update_publish_queue_receipt. rewrite Hr. cbn [mbind option_bind]. rewrite Hp. by rewrite Hbs.
  - exists r. rewrite insert_id by done. split; [by destruct s|]. split; [by destruct s|done].
Qed.

(** Everything [close_intent] does before maintenance. *)
Lemma close_marks s i intent shape t1 r event st e :
  queue_ok s → within_limits production s → j_intents (qs_journal s) !! i = Some intent → qs_claims s !! i = None →
  shape_holds shape ((λ p, ln_state p.2) <$> intent_lanes (qs_journal s) i) = true →
  qs_receipts s !! in_receipt_id intent = Some r → rc_payload r = PayloadEvent event st →
  terminal_intent_evidence_bytes (qs_journal s) i = Some e → (e <= 2 ^ 27)%N → (qs_next_sequence s < u64_max)%N →
  ∃ s3 r' b, queue_ok s3 ∧ j_intents (qs_journal s3) = delete i (j_intents (qs_journal s)) ∧
    qs_receipts s3 !! in_receipt_id intent = Some r' ∧
    ended r' (qs_next_sequence s) (N.max t1 (qs_last_at s)) b ∧ (e < b <= e + 256)%N ∧ rc_intent_id r' = Some i ∧
    rc_payload r' = PayloadEvent event (if decide (shape = ShapeNone) then ReceiptNoDestination else st) ∧
    (∀ p, p ∈ qs_index s3 → (p.1 <= qs_next_sequence s)%N) ∧
    ∀ t2, close_intent s i shape t1 t2 =
      '(_, s) ← maintain_terminal_receipts_in_txn s3 t2 production; Some (Closed, s).
Proof.
  intros Hok Hlim Hi Hclaim Hshape Hr Hp Hev He Hseq.
  destruct (qo_open _ Hok i intent Hi) as (r0 & Hr0 & Hri). rewrite Hr in Hr0. injection Hr0 as <-.
  assert (rc_terminal r = (None, None, None)) as Ht.
  { destruct (encodes_metadata r (qo_encodes _ Hok _ _ Hr)) as [?|(q & a & b & Hend)]; [done|].
    destruct (qo_closed _ Hok _ _ _ _ _ _ Hr Hend Hri) as [? _]. congruence. }
  destruct (close_update s _ r event st shape Hok Hr Hp Ht) as (r1 & Hup & Hok1 & Hri1 & Ht1 & Hp1).
  destruct (close_journal_ok (qs_journal s) i shape) as (dls & Hdls & Hjok); [apply Hok|done|].
  set (s1 := set_receipts s (<[in_receipt_id intent := r1]> (qs_receipts s))) in *.
  pose proof (unlisted_ok s1 i dls Hok1 Hjok) as Hok2.
  set (s2 := set_journal s1 _) in Hok2.
  assert (qs_receipts s2 !! in_receipt_id intent = Some r1) as Hr2 by apply lookup_insert_eq.
  destruct (mark_total s2 _ r1 event _ t1 e Hok2 Hlim Hr2 Hp1 Ht1 Hseq He) as (s3 & b & Hmark & Hb & Hrec3).
  assert (∀ r' i', qs_receipts s2 !! in_receipt_id intent = Some r' → rc_intent_id r' = Some i' →
    j_intents (qs_journal s2) !! i' = None ∧ qs_claims s2 !! i' = None) as Hclosed.
  { intros r' i' Hr' Hi'. rewrite Hr2 in Hr'. injection Hr' as <-. rewrite Hri1, Hri in Hi'. injection Hi' as <-.
    split; [apply lookup_delete_eq|done]. }
  set (r' := with_terminal_metadata r1 (Some (qs_next_sequence s), Some (N.max t1 (qs_last_at s)), Some b)).
  assert (qs_receipts s3 !! in_receipt_id intent = Some r') as Hr3 by (rewrite Hrec3; apply lookup_insert_eq).
  destruct (mark_spec _ _ _ _ _ Hok2 Hmark Hclosed) as [Heq|(b' & [Hok3 Hj3 (r4 & _ & _ & _ & Hidx3)])].
  { rewrite Heq, Hr2 in Hr3. injection Hr3 as Heq'. rewrite Heq' in Ht1. done. }
  exists s3, r', b. split; [done|]. split; [by rewrite Hj3|]. do 3 (split; [done|]). split; [by rewrite <-Hri, <-Hri1|].
  split; [done|]. split.
  - intros [q id]. rewrite Hidx3. intros [[= -> ->]%elem_of_singleton|Hin]%elem_of_union; [done|].
    apply (he_sequence _ (qo_history _ Hok2)) in Hin. simpl in *. lia.
  - intros t2. unfold close_intent. rewrite Hi, lane_states_read by apply Hok. cbn [mbind option_bind].
    rewrite option_guard_True by done. cbn [mbind option_bind]. rewrite Hev. cbn [mbind option_bind].
    rewrite Hup. cbn [mbind option_bind]. change (qs_journal s1) with (qs_journal s). rewrite Hdls. cbn [mbind option_bind].
    change (mark_terminal_receipt _ _ _ _) with (mark_terminal_receipt s2 (in_receipt_id intent) t1 e).
    by rewrite Hmark.
Qed.

(** C20: a signed write whose lanes are all terminal, or which has none and
    nowhere to go, can always be settled: closing succeeds, exactly that intent
    is closed, and its receipt is retained as the latest of the history, saying
    how the write ended and accounting for all its evidence. Retention never
    gets in the way of settling, and never takes the receipt just settled. *)
Theorem close_settles query s i intent shape t1 t2 r event st e :
  queue_reachable query s → j_intents (qs_journal s) !! i = Some intent → qs_claims s !! i = None →
  shape_holds shape ((λ p, ln_state p.2) <$> intent_lanes (qs_journal s) i) = true →
  qs_receipts s !! in_receipt_id intent = Some r → rc_payload r = PayloadEvent event st →
  terminal_intent_evidence_bytes (qs_journal s) i = Some e → (e <= 2 ^ 27)%N →
  (qs_next_sequence s < u64_max)%N → (t2 < t1 + terminal_receipt_max_age_secs)%N → (t2 < u64_max)%N →
  ∃ s' r' b, close_intent s i shape t1 t2 = Some (Closed, s') ∧
    j_intents (qs_journal s') = delete i (j_intents (qs_journal s)) ∧
    qs_receipts s' !! in_receipt_id intent = Some r' ∧
    ended r' (qs_next_sequence s) (N.max t1 (qs_last_at s)) b ∧ (e < b <= e + 256)%N ∧
    rc_intent_id r' = Some i ∧
    rc_payload r' = PayloadEvent event (if decide (shape = ShapeNone) then ReceiptNoDestination else st).
Proof.
  intros [Hok Hlim]%queue_reachable_ok Hi Hclaim Hshape Hr Hp Hev He Hseq Hage Hmax.
  destruct (close_marks s i intent shape t1 r event st e) as
    (s3 & r' & b & Hok3 & Hj3 & Hr3 & Hend & Hb & Hri & Hp3 & Hlast & Hclose); [done..|].
  destruct (maintain_prunes s3 t2 production Hok3) as (k & s4 & Hs4 & _).
  destruct (latest_kept s3 t2 production _ r' (qs_next_sequence s) (N.max t1 (qs_last_at s)) b s4
    (take k (ordered (qs_index s3))).*2 Hok3 Hr3 Hend Hlast) as [Hkept Hint]; [| |done|exact Hs4|].
  - apply age_due_false. change (max_age_secs production) with terminal_receipt_max_age_secs. lia.
  - change (max_bytes production) with (2 ^ 28)%N. lia.
  - exists s4, r', b. split; [by rewrite Hclose, Hs4|]. by rewrite Hint.
Qed.

(** The index rows are read in the order of their numbers: their keys compare as
    the numbers do, lie in the scanned range, and no other row of
    [PUBLISH_QUEUE_META] does. *)
Lemma terminal_index_keys q id q' id' :
  (q < 2 ^ 64)%N → (q' < 2 ^ 64)%N → (id < 2 ^ 64)%N → (id' < 2 ^ 64)%N →
  cmp (terminal_receipt_key q id) (terminal_receipt_key q' id') = cmp (q, id) (q', id') ∧
  in_range terminal_receipt_range (terminal_receipt_key q id) ∧
  Forall (λ name, ¬ in_range terminal_receipt_range (as_bytes name))
    ["codec_version"; "next_intent_id"; "next_receipt_id"; "next_relay_id"; "next_terminal_sequence";
     "terminal_receipt_count"; "terminal_receipt_bytes"; "last_terminal_at"].
Proof.
  intros Hq Hq' Hid Hid'. unfold terminal_receipt_key. split; [|split].
  - rewrite cmp_app by done. rewrite cmp_refl. simpl. rewrite (cmp_be_app 8) by done.
    change (cmp (q, id) (q', id')) with (then_with (q ?= q')%N (id ?= id')%N).
    f_equal. apply (cmp_be_bytes 8); done.
  - pose proof (in_range_be_app 8 q _ _ _ Hq (in_range_be 8 id Hid)) as [Hlo Hhi].
    unfold in_range, cmp_le, terminal_receipt_range. cbn [fst snd]. rewrite !cmp_app, cmp_refl by done. by split.
  - apply (bool_decide_unpack _). vm_compute. exact I.
Qed.

(** ** A write from acceptance to settlement *)

Lemma run_ops_queue query s ops j :
  queue_reachable query s → run_ops query (qs_journal s) ops = Some j → queue_reachable query (set_journal s j).
Proof.
  intros Hs. apply (foldl_option_inv _ (λ _ j, queue_reachable query (set_journal s j))); [by destruct s|].
  intros pre op post c d _ Hc Hop. apply (qr_lane query _ op d Hc Hop).
Qed.

Module HistorySample.
Definition query := DeliverySample.query.
Definition intent_signed : IntentRecord := mkIntent 1 (WorkEvent DeliverySample.event "outbox" IntentSigned) 9 "key" 1000.
Definition accepted : QueueState :=
  from_option snd empty_queue
    (journal_accepted empty_queue DeliverySample.event "outbox" IntentPending 9 "key" 1000 ReceiptAccepted None None 1000).
Definition signed : QueueState := sign_intent accepted 1 intent_signed.
(** Delivered to its one relay, which accepted it. *)
Definition ops : list LaneOp := DeliverySample.sent ++ [OpFinish DeliverySample.key 4 1 Acked 1010].
Definition delivered : QueueState :=
  set_journal signed (default empty_journal (run_ops query (qs_journal signed) ops)).
(** Two writes refused at the door. *)
Definition refused : QueueState := from_option snd empty_queue (accept_refused empty_queue 70 9 Tombstoned 2000 2000).
Definition refused_twice : QueueState := from_option snd empty_queue (accept_refused refused 71 9 Tombstoned 2005 2005).

Lemma delivered_reachable : queue_reachable query delivered.
Proof.
  apply run_ops_queue with ops; [|vm_compute; reflexivity].
  eapply qr_sign; [|vm_compute; reflexivity..].
  eapply (qr_accept query empty_queue DeliverySample.event "outbox" IntentPending 9 "key" 1000 ReceiptAccepted None None
    1000 1 1); [apply qr_empty|vm_compute; reflexivity].
Qed.

Lemma refused_reachable : queue_reachable query refused_twice.
Proof.
  eapply (qr_refuse query refused 71 9 Tombstoned 2005 2005 2); [|vm_compute; reflexivity].
  eapply (qr_refuse query empty_queue 70 9 Tombstoned 2000 2000 1); [apply qr_empty|vm_compute; reflexivity].
Qed.
End HistorySample.


Lemma maintenance_is_fifo_witness :
  ∃ s', maintain_terminal_receipts_at HistorySample.refused_twice 2012 (mkLimits 10 5 1000) = Some ([1%N], s') ∧
    qs_receipts s' !! 2%N = qs_receipts HistorySample.refused_twice !! 2%N.
Proof.
  destruct (maintenance_is_fifo HistorySample.query HistorySample.refused_twice 2012 (mkLimits 10 5 1000)
    HistorySample.refused_reachable) as (k & s' & _ & Hat & Hrec & _).
  assert ((take k (ordered (qs_index HistorySample.refused_twice))).*2 = [1%N]) as Hk.
  { assert (fst <$> maintain_terminal_receipts_at HistorySample.refused_twice 2012 (mkLimits 10 5 1000) = Some [1%N])
      as Hfst by (vm_compute; reflexivity). rewrite Hat in Hfst. by injection Hfst. }
  rewrite Hk in Hat, Hrec. exists s'. split; [exact Hat|]. rewrite Hrec. reflexivity.
Defined.

Lemma close_settles_witness :
  ∃ s', close_intent HistorySample.delivered 1 ShapeAllTerminal 1011 1011 = Some (Closed, s') ∧
    j_intents (qs_journal s') = delete 1%N (j_intents (qs_journal HistorySample.delivered)).
Proof.
  destruct (close_settles HistorySample.query HistorySample.delivered 1 HistorySample.intent_signed ShapeAllTerminal
    1011 1011 (mkReceipt (Some 1%N) 9 (Some 1000%N) (PayloadEvent 77 ReceiptAccepted) (None, None, None)) 77
    ReceiptAccepted (default 0%N (terminal_intent_evidence_bytes (qs_journal HistorySample.delivered) 1))
    HistorySample.delivered_reachable) as (s' & r' & b & Hc & Hi & _);
    [(vm_compute; (reflexivity || discriminate))..|].
  exists s'. split; [exact Hc|exact Hi].
Defined.
