(* ===== verification/OwnerIndex.v ===== *)
(** * Mirrored indexes

    [crates/nmp-engine/src/core/owner_index.rs]: children keyed by their own
    id, with a reverse index from the key that owns them.  A broken mirror is a
    panic, [None] here.  The request-attempt owner keeps three more reverse
    indexes by hand with the same two moves, [index_add] and [index_remove], so
    the lemmas of this file are shared with it. *)

From S2P Require Import Prelude.

Section reverse_index.
Context {Owner Child : Type} `{Countable Owner, Countable Child}.

(** [index.entry(owner).or_default().insert(child)]. *)
Definition index_add (index : gmap Owner (gset Child)) (owner : Owner) (child : Child)
    : gmap Owner (gset Child) :=
  <[owner := {[ child ]} ∪ default ∅ (index !! owner)]> index.

(** The owner's set must exist and name the child; an emptied set is dropped. *)
Definition index_remove (index : gmap Owner (gset Child)) (owner : Owner) (child : Child)
    : option (gmap Owner (gset Child)) :=
  match index !! owner with
  | None => None
  | Some children =>
      if decide (child ∈ children) then
        let rest := children ∖ {[ child ]} in
        Some (if decide (rest = ∅) then delete owner index else <[owner := rest]> index)
      else None
  end.
End reverse_index.

(** ** The index *)

Record OwnerIndexed (Owner Child V : Type) `{Countable Owner, Countable Child} := mkIndexed {
  by_child : gmap Child V;
  by_owner : gmap Owner (gset Child)
}.
Arguments mkIndexed {_ _ _ _ _ _ _} _ _.
Arguments by_child {_ _ _ _ _ _ _} _.
Arguments by_owner {_ _ _ _ _ _ _} _.

Section owner_indexed.
Context {Owner Child V : Type} `{Countable Owner, Countable Child, Ord Child}.
(** [IndexedChild::owner_key]. *)
Variable owner_key : V → Owner.

Definition owner_indexed_new : OwnerIndexed Owner Child V := mkIndexed ∅ ∅.

Definition owner_indexed_insert (x : OwnerIndexed Owner Child V) (child : Child) (value : V)
    : option (OwnerIndexed Owner Child V) :=
  match by_child x !! child with
  | Some _ => None
  | None => Some (mkIndexed (<[child := value]> (by_child x))
                            (index_add (by_owner x) (owner_key value) child))
  end.

Definition owner_indexed_take (x : OwnerIndexed Owner Child V) (child : Child)
    : option (option V * OwnerIndexed Owner Child V) :=
  match by_child x !! child with
  | None => Some (None, x)
  | Some value =>
      index ← index_remove (by_owner x) (owner_key value) child;
      Some (Some value, mkIndexed (delete child (by_child x)) index)
  end.

(** One child of the torn-out set. *)
Definition take_child (s : list (Child * V) * gmap Child V) (child : Child)
    : option (list (Child * V) * gmap Child V) :=
  value ← s.2 !! child; Some (s.1 ++ [(child, value)], delete child s.2).

Definition owner_indexed_take_owner (x : OwnerIndexed Owner Child V) (owner : Owner)
    : option (list (Child * V) * OwnerIndexed Owner Child V) :=
  let children := default ∅ (by_owner x !! owner) in
  '(taken, rest) ←
    foldl (λ o child, s ← o; take_child s child) (Some ([], by_child x)) (ordered children);
  Some (taken, mkIndexed rest (delete owner (by_owner x))).

Definition owner_indexed_contains (x : OwnerIndexed Owner Child V) (child : Child) : bool :=
  bool_decide (is_Some (by_child x !! child)).
End owner_indexed.

(** ** Mirrors *)

Section mirrors.
Context {Owner Child V : Type} `{Countable Owner, Countable Child}.
Variable owner_key : V → Owner.

(** [assert_consistent]: the reverse index files exactly the live children,
    each under the owner it reports, and files no empty set. *)
Definition mirrors (m : gmap Child V) (index : gmap Owner (gset Child)) : Prop :=
  (∀ o s, index !! o = Some s → s ≠ ∅) ∧
  (∀ o c, c ∈ default ∅ (index !! o) ↔ ∃ v, m !! c = Some v ∧ owner_key v = o).

Lemma mirrors_empty : mirrors ∅ ∅.
Proof.
  split; [by intros ?? ?%lookup_empty_Some|]. intros o c. rewrite lookup_empty. simpl.
  split; [set_solver|]. by intros (v & ?%lookup_empty_Some & _).
Qed.

Lemma mirrors_elem m index c v :
  mirrors m index → m !! c = Some v → ∃ s, index !! owner_key v = Some s ∧ c ∈ s.
Proof.
  intros [_ Hi] Hc. assert (c ∈ default ∅ (index !! owner_key v)) as Hin by (apply Hi; eauto).
  destruct (index !! owner_key v) as [s|]; [by exists s|set_solver].
Qed.

Lemma mirrors_insert m index c v :
  m !! c = None → mirrors m index → mirrors (<[c := v]> m) (index_add index (owner_key v) c).
Proof.
  intros Hc [Hne Hi]. unfold index_add. split.
  - intros o s. rewrite lookup_insert_Some. intros [[_ <-]|[_ ?]]; [set_solver|by eapply Hne].
  - intros o c'. destruct (decide (o = owner_key v)) as [-> |Ho].
    + rewrite lookup_insert_eq. simpl. rewrite elem_of_union, elem_of_singleton, Hi.
      destruct (decide (c' = c)) as [-> |Hcc].
      * rewrite lookup_insert_eq. naive_solver.
      * rewrite lookup_insert_ne by done. naive_solver.
    + rewrite lookup_insert_ne, Hi by done. destruct (decide (c' = c)) as [-> |Hcc].
      * rewrite lookup_insert_eq, Hc. naive_solver.
      * by rewrite lookup_insert_ne.
Qed.

Lemma mirrors_remove m index c v :
  mirrors m index → m !! c = Some v →
  ∃ index', index_remove index (owner_key v) c = Some index' ∧ mirrors (delete c m) index'.
Proof.
  intros Hm Hc. destruct (mirrors_elem _ _ _ _ Hm Hc) as (s & Hs & Hin).
  destruct Hm as [Hne Hi]. unfold index_remove. rewrite Hs, decide_True by done.
  eexists. split; [done|].
  assert (∀ c', c' ∈ s ↔ ∃ w, m !! c' = Some w ∧ owner_key w = owner_key v) as Hs'.
  { intros c'. rewrite <-Hi, Hs. done. }
  assert (∀ o c', o ≠ owner_key v →
    (c' ∈ default ∅ (index !! o) ↔ ∃ w, delete c m !! c' = Some w ∧ owner_key w = o)) as Hother.
  { intros o c' Ho. rewrite Hi. destruct (decide (c' = c)) as [-> |Hcc].
    - rewrite lookup_delete_eq. naive_solver.
    - by rewrite lookup_delete_ne. }
  assert (∀ c', c' ∈ s ∖ {[ c ]} ↔ ∃ w, delete c m !! c' = Some w ∧ owner_key w = owner_key v)
    as Hrest.
  { intros c'. rewrite elem_of_difference, elem_of_singleton, Hs'.
    destruct (decide (c' = c)) as [-> |Hcc].
    - rewrite lookup_delete_eq. naive_solver.
    - rewrite lookup_delete_ne by done. naive_solver. }
  case_decide as Hempty; split.
  - intros o s' [_ ?]%lookup_delete_Some. by eapply Hne.
  - intros o c'. destruct (decide (o = owner_key v)) as [-> |Ho].
    + rewrite lookup_delete_eq. simpl. rewrite <-Hrest, Hempty. done.
    + rewrite lookup_delete_ne by done. by apply Hother.
  - intros o s'. rewrite lookup_insert_Some. intros [[_ <-]|[_ ?]]; [done|by eapply Hne].
  - intros o c'. destruct (decide (o = owner_key v)) as [-> |Ho].
    + rewrite lookup_insert_eq. apply Hrest.
    + rewrite lookup_insert_ne by done. by apply Hother.
Qed.

Lemma mirrors_update m index c v w :
  mirrors m index → m !! c = Some v → owner_key w = owner_key v →
  mirrors (<[c := w]> m) index.
Proof.
  intros [Hne Hi] Hc Ho. split; [done|]. intros o c'. rewrite Hi.
  destruct (decide (c' = c)) as [-> |Hcc].
  - rewrite lookup_insert_eq, Hc. naive_solver.
  - by rewrite lookup_insert_ne.
Qed.

(** What is left when one owner's children are torn out. *)
Definition without (o : Owner) (m : gmap Child V) : gmap Child V :=
  filter (λ p, owner_key p.2 ≠ o) m.

Lemma lookup_without o m c v :
  without o m !! c = Some v ↔ m !! c = Some v ∧ owner_key v ≠ o.
Proof. apply map_lookup_filter_Some. Qed.

Lemma lookup_without_None o m c : m !! c = None → without o m !! c = None.
Proof. intros Hm. apply eq_None_not_Some. intros [v [? _]%lookup_without]. congruence. Qed.

Lemma mirrors_teardown m index o : mirrors m index → mirrors (without o m) (delete o index).
Proof.
  intros [Hne Hi]. split.
  - intros o' s [_ ?]%lookup_delete_Some. by eapply Hne.
  - intros o' c. destruct (decide (o' = o)) as [-> |Ho].
    + rewrite lookup_delete_eq. simpl. split; [set_solver|].
      intros (v & [_ ?]%lookup_without & ?). done.
    + rewrite lookup_delete_ne, Hi by done. setoid_rewrite lookup_without. naive_solver.
Qed.

(** The children one owner's set names are exactly those torn out. *)
Lemma mirrors_without m index o c v :
  mirrors m index → m !! c = Some v →
  (c ∈ default ∅ (index !! o) ↔ without o m !! c = None).
Proof.
  intros [_ Hi] Hc. rewrite Hi, eq_None_not_Some. split.
  - intros (w & Hw & <-) [x [? ?]%lookup_without]. simplify_eq.
  - intros Hn. exists v. split; [done|]. destruct (decide (owner_key v = o)); [done|].
    destruct Hn. exists v. by apply lookup_without.
Qed.
End mirrors.

(** ** Refinement: a plain map *)

Section refinement.
Context {Owner Child V : Type} `{Countable Owner, Countable Child, Ord Child}.
Variable owner_key : V → Owner.
Implicit Types x : OwnerIndexed Owner Child V.

Definition indexed_ok x : Prop := mirrors owner_key (by_child x) (by_owner x).

Lemma indexed_new_ok : indexed_ok owner_indexed_new.
Proof. apply mirrors_empty. Qed.

Lemma owner_indexed_insert_ok x child value :
  indexed_ok x → by_child x !! child = None →
  ∃ x', owner_indexed_insert owner_key x child value = Some x' ∧
    by_child x' = <[child := value]> (by_child x) ∧ indexed_ok x'.
Proof.
  intros Hx Hc. unfold owner_indexed_insert. rewrite Hc. eexists. split_and!; [done|done|].
  by apply mirrors_insert.
Qed.

Lemma owner_indexed_take_ok x child :
  indexed_ok x →
  ∃ x', owner_indexed_take owner_key x child = Some (by_child x !! child, x') ∧
    by_child x' = delete child (by_child x) ∧ indexed_ok x'.
Proof.
  intros Hx. unfold owner_indexed_take. destruct (by_child x !! child) as [v|] eqn:Hv.
  - destruct (mirrors_remove _ _ _ _ _ Hx Hv) as (index & -> & Hm). cbn [mbind option_bind].
    eexists. by split_and!.
  - exists x. split_and!; [done| |done]. by rewrite delete_id.
Qed.

Lemma take_children_ok (m : gmap Child V) (l : list Child) :
  NoDup l → (∀ c, c ∈ l → is_Some (m !! c)) →
  ∃ taken rest,
    foldl (λ o child, s ← o; take_child s child) (Some ([], m)) l = Some (taken, rest) ∧
    taken.*1 = l ∧ (∀ c v, (c, v) ∈ taken → m !! c = Some v) ∧
    (∀ c, rest !! c = if decide (c ∈ l) then None else m !! c).
Proof.
  intros Hnd Hin.
  destruct (foldl_option_ind take_child
    (λ pre '(taken, rest), taken.*1 = pre ∧ (∀ c v, (c, v) ∈ taken → m !! c = Some v) ∧
       (∀ c, (rest : gmap Child V) !! c = if decide (c ∈ pre) then None else m !! c))
    l ([], m)) as ([taken rest] & Hrun & Hpost).
  - split_and!; [done|by intros ?? ?%not_elem_of_nil|]. intros c.
    by rewrite decide_False by apply not_elem_of_nil.
  - intros pre c post [taken rest] -> (Ht & Hs & Hr).
    apply NoDup_app in Hnd as (_ & Hpre & _).
    destruct (Hin c) as [v Hv]; [set_solver|].
    assert (c ∉ pre) as Hc by (intros ?; eapply Hpre; [done|left]).
    unfold take_child. simpl. rewrite Hr, decide_False, Hv by done. cbn [mbind option_bind].
    eexists. split; [done|]. split_and!.
    + by rewrite fmap_app, Ht.
    + intros c' v'. rewrite elem_of_app, list_elem_of_singleton. naive_solver.
    + intros c'. destruct (decide (c' = c)) as [-> |Hne].
      * rewrite lookup_delete_eq, decide_True; [done|]. set_solver.
      * rewrite lookup_delete_ne, Hr by done.
        destruct (decide (c' ∈ pre)), (decide (c' ∈ pre ++ [c])); set_solver.
  - exists taken, rest. split; [exact Hrun|done].
Qed.

Lemma owner_indexed_take_owner_ok x owner :
  indexed_ok x →
  ∃ taken x', owner_indexed_take_owner x owner = Some (taken, x') ∧
    (∀ c v, (c, v) ∈ taken ↔ by_child x !! c = Some v ∧ owner_key v = owner) ∧
    taken.*1 = ordered (list_to_set taken.*1) ∧
    by_child x' = without owner_key owner (by_child x) ∧ indexed_ok x'.
Proof.
  intros Hx. pose proof Hx as [_ Hi]. unfold owner_indexed_take_owner.
  destruct (take_children_ok (by_child x) (ordered (default ∅ (by_owner x !! owner))))
    as (taken & rest & -> & Hfst & Hin & Hrest).
  { apply NoDup_ordered. }
  { intros c Hc%elem_of_ordered%Hi. naive_solver. }
  assert (rest = without owner_key owner (by_child x)) as ->.
  { apply map_eq. intros c. rewrite Hrest. destruct (by_child x !! c) as [v|] eqn:Hv.
    - pose proof (mirrors_without _ _ _ owner c v Hx Hv) as Hw. rewrite <-elem_of_ordered in Hw.
      case_decide as Hc; [symmetry; by apply Hw|].
      destruct (without owner_key owner (by_child x) !! c) as [w|] eqn:E.
      + apply lookup_without in E as [? ?]. congruence.
      + by destruct Hc; apply Hw.
    - rewrite (lookup_without_None owner_key) by done. by case_decide. }
  cbn [mbind option_bind]. eexists _, _. split; [done|]. split_and!.
  - intros c v. split.
    + intros Hcv. pose proof (Hin _ _ Hcv) as Hc. split; [done|].
      assert (c ∈ taken.*1) as Hc' by (apply list_elem_of_fmap; by exists (c, v)).
      rewrite Hfst in Hc'. apply elem_of_ordered, Hi in Hc' as (w & ? & ?). by simplify_eq.
    + intros [Hc Ho]. assert (c ∈ taken.*1) as Hc'.
      { rewrite Hfst. apply elem_of_ordered, Hi. eauto. }
      apply list_elem_of_fmap in Hc' as ([c' v'] & -> & Hcv).
      pose proof (Hin _ _ Hcv). simpl in *. by simplify_eq.
  - rewrite Hfst. f_equal. apply set_eq. intros c. by rewrite elem_of_list_to_set, elem_of_ordered.
  - done.
  - by apply mirrors_teardown.
Qed.
End refinement.
