(* ===== verification/Attempts.v ===== *)
(** * Request-send attempts

    [crates/nmp-engine/src/core/request_attempt.rs]: every local attempt to
    hand one REQ to the transport, the retries parked behind refusals, and the
    four reverse indexes the owner keeps by hand; and the capped backoff of
    [core/mod.rs] that spaces the retries.  A broken mirror, an exhausted
    identity space and an unknown attempt are panics: [None]. *)

From S2P Require Import Prelude Grammar Coverage RouterTypes Router OwnerIndex.

(** ** Backoff *)

Definition retry_initial_secs : N := 3.
Definition retry_max_secs : N := 300.
Definition retry_jitter_max_secs : N := 5.

(** [u64::checked_shl]: refuses a shift of 64 or more, and drops the bits that
    leave the word. *)
Definition checked_shl_u64 (x s : N) : option N :=
  if (s <? 64)%N then Some (N.shiftl x s mod 2 ^ 64)%N else None.

(** [failures] is a [u32]; [saturating_sub] is [N]'s subtraction. *)
Definition unjittered_retry_delay_secs (failures : N) : N :=
  N.min (default u64_max (checked_shl_u64 retry_initial_secs (N.min (failures - 1) 63)))
        retry_max_secs.

(** [u64::to_be_bytes]. *)
Definition to_be_bytes (x : N) : list N :=
  (λ i, (N.shiftr x (8 * N.of_nat i) mod 256)%N) <$> rev (seq 0 8).

(** [str::as_bytes]. *)
Fixpoint str_bytes (s : string) : list N :=
  match s with
  | EmptyString => []
  | String a s => Ascii.N_of_ascii a :: str_bytes s
  end.

(** One byte of FNV-1a, [wrapping_mul] included. *)
Definition fnv_step (hash byte : N) : N :=
  (N.lxor hash byte * 0x100000001b3 mod 2 ^ 64)%N.

(** The key is the lane's intent id and relay. *)
Definition retry_delay_secs (intent_id : N) (relay : RelayUrl) (ordinal : N) : N :=
  let exponent := N.min (ordinal - 1) 63 in
  let base := N.min (default u64_max (checked_shl_u64 retry_initial_secs exponent))
                    retry_max_secs in
  let hash := foldl fnv_step 0xcbf29ce484222325%N
                (to_be_bytes intent_id ++ str_bytes relay ++ to_be_bytes ordinal) in
  N.min (base + hash mod retry_jitter_max_secs) u64_max.

(** ** Attempts *)

(** [nmp_transport::RelayHandle]. *)
Record RelayHandle := mkHandle { h_slot : N; h_generation : N }.
#[global] Instance RelayHandle_eq_dec : EqDecision RelayHandle.
Proof. solve_decision. Defined.

Inductive LocalSendRefusal :=
  | SessionUnavailable
  | WorkerAdmissionRefused (handle : RelayHandle).

(** A [RequestAttemptId] is a [u64]. *)
Inductive RequestHandoffOutcome :=
  | Accepted (attempt_id : N) (handle : RelayHandle)
  | Refused (attempt_id : N) (cause : LocalSendRefusal).

Definition outcome_attempt_id (o : RequestHandoffOutcome) : N :=
  match o with Accepted attempt_id _ | Refused attempt_id _ => attempt_id end.

Record RequestAttemptState := mkAttemptState {
  ra_session : RelaySessionKey;
  ra_sub_id : SubId;
  ra_filter_hash : N;
  ra_filter : ConcreteFilter;
  ra_coverage_claims : gset CoverageKey;
  ra_owner_demands : gset DemandKey;
  ra_request_revision : option N;
  ra_retry_failures : N
}.

(** [RequestRetryKey(session, sub_id)]. *)
Abbreviation RequestRetryKey := (RelaySessionKey * SubId)%type (only parsing).

Record PendingRequestRetry := mkPendingRetry {
  pr_attempt : RequestAttemptState;
  pr_due : N;
  pr_failures : N
}.

Definition retry_key (a : RequestAttemptState) : option RequestRetryKey :=
  Some (ra_session a, ra_sub_id a).

Record RequestAttempts := mkAttempts {
  at_attempts : gmap N RequestAttemptState;
  at_by_sub : gmap SubId (gset N);
  at_by_session : gmap RelaySessionKey (gset N);
  at_next_id : option N;
  at_retries : gmap RequestRetryKey PendingRequestRetry;
  at_retry_by_sub : gmap SubId RequestRetryKey;
  at_retries_by_session : gmap RelaySessionKey (gset RequestRetryKey)
}.

Definition attempts_new : RequestAttempts := mkAttempts ∅ ∅ ∅ (Some 0%N) ∅ ∅ ∅.

Definition mint (st : RequestAttempts) (attempt : RequestAttemptState)
    : option (RequestAttempts * N) :=
  id ← at_next_id st;
  Some (mkAttempts (<[id := attempt]> (at_attempts st))
          (index_add (at_by_sub st) (ra_sub_id attempt) id)
          (index_add (at_by_session st) (ra_session attempt) id)
          (checked_add_u64 id 1)
          (at_retries st) (at_retry_by_sub st) (at_retries_by_session st), id).

(** [forget_sub_edge] and [forget_session_edge]. *)
Definition forget_sub_edge (st : RequestAttempts) (attempt_id : N) (sub_id : SubId)
    : option RequestAttempts :=
  index ← index_remove (at_by_sub st) sub_id attempt_id;
  Some (mkAttempts (at_attempts st) index (at_by_session st) (at_next_id st)
          (at_retries st) (at_retry_by_sub st) (at_retries_by_session st)).

Definition forget_session_edge (st : RequestAttempts) (attempt_id : N) (session : RelaySessionKey)
    : option RequestAttempts :=
  index ← index_remove (at_by_session st) session attempt_id;
  Some (mkAttempts (at_attempts st) (at_by_sub st) index (at_next_id st)
          (at_retries st) (at_retry_by_sub st) (at_retries_by_session st)).

(** [self.attempts.remove(&attempt_id)]. *)
Definition drop_attempt (st : RequestAttempts) (attempt_id : N) : RequestAttempts :=
  mkAttempts (delete attempt_id (at_attempts st)) (at_by_sub st) (at_by_session st) (at_next_id st)
    (at_retries st) (at_retry_by_sub st) (at_retries_by_session st).

(** [remove]; the inner option is the source's. *)
Definition remove_attempt (st : RequestAttempts) (attempt_id : N)
    : option (RequestAttempts * option RequestAttemptState) :=
  match at_attempts st !! attempt_id with
  | None => Some (st, None)
  | Some attempt =>
      st ← forget_sub_edge (drop_attempt st attempt_id) attempt_id (ra_sub_id attempt);
      st ← forget_session_edge st attempt_id (ra_session attempt);
      Some (st, Some attempt)
  end.

Definition take_attempt (st : RequestAttempts) (outcome : RequestHandoffOutcome)
    : option (RequestAttempts * option RequestAttemptState) :=
  remove_attempt st (outcome_attempt_id outcome).

(** ** Retries *)

Definition set_retries (st : RequestAttempts) retries retry_by_sub retries_by_session
    : RequestAttempts :=
  mkAttempts (at_attempts st) (at_by_sub st) (at_by_session st) (at_next_id st)
    retries retry_by_sub retries_by_session.

(** [forget_retry_sub_edge]: the sub's entry must name exactly this key. *)
Definition forget_retry_sub_edge (st : RequestAttempts) (sub_id : SubId) (key : RequestRetryKey)
    : option RequestAttempts :=
  mapped ← at_retry_by_sub st !! sub_id;
  if decide (mapped = key) then
    Some (set_retries st (at_retries st) (delete sub_id (at_retry_by_sub st))
            (at_retries_by_session st))
  else None.

Definition forget_retry_session_edge (st : RequestAttempts) (session : RelaySessionKey)
    (key : RequestRetryKey) : option RequestAttempts :=
  index ← index_remove (at_retries_by_session st) session key;
  Some (set_retries st (at_retries st) (at_retry_by_sub st) index).

(** [self.retries.remove(key)]. *)
Definition drop_retry (st : RequestAttempts) (key : RequestRetryKey) : RequestAttempts :=
  set_retries st (delete key (at_retries st)) (at_retry_by_sub st) (at_retries_by_session st).

Definition remove_retry (st : RequestAttempts) (key : RequestRetryKey)
    : option (RequestAttempts * option PendingRequestRetry) :=
  match at_retries st !! key with
  | None => Some (st, None)
  | Some pending =>
      st ← forget_retry_sub_edge (drop_retry st key) (ra_sub_id (pr_attempt pending)) key;
      st ← forget_retry_session_edge st (ra_session (pr_attempt pending)) key;
      Some (st, Some pending)
  end.

Definition take_retry := remove_retry.

(** [u32::saturating_add(1)]. *)
Definition u32_saturating_succ (n : N) : N := N.min (n + 1) u32_max.

Definition schedule_retry `{TimestampArith} (st : RequestAttempts) (attempt : RequestAttemptState)
    (now : N) : option RequestAttempts :=
  match retry_key attempt with
  | None => Some st
  | Some key =>
      let failures := u32_saturating_succ (ra_retry_failures attempt) in
      '(st, _) ← remove_retry st key;
      Some (set_retries st
        (<[key := mkPendingRetry attempt (ts_add now (unjittered_retry_delay_secs failures)) failures]>
           (at_retries st))
        (<[ra_sub_id attempt := key]> (at_retry_by_sub st))
        (index_add (at_retries_by_session st) (ra_session attempt) key))
  end.

Definition clear_retry_for_attempt (st : RequestAttempts) (attempt : RequestAttemptState)
    : option RequestAttempts :=
  match retry_key attempt with
  | None => Some st
  | Some key => '(st, _) ← remove_retry st key; Some st
  end.

Definition cancel_retry_for_sub (st : RequestAttempts) (sub_id : SubId) : option RequestAttempts :=
  match at_retry_by_sub st !! sub_id with
  | None => Some st
  | Some key =>
      let st := set_retries st (at_retries st) (delete sub_id (at_retry_by_sub st))
                  (at_retries_by_session st) in
      pending ← at_retries st !! key;
      forget_retry_session_edge (drop_retry st key) (ra_session (pr_attempt pending)) key
  end.

(** ** Owner-scoped teardown *)

(** One attempt of the torn-out [by_sub] bucket. *)
Definition retire_sub_attempt (st : RequestAttempts) (attempt_id : N) : option RequestAttempts :=
  attempt ← at_attempts st !! attempt_id;
  forget_session_edge (drop_attempt st attempt_id) attempt_id (ra_session attempt).

Definition retire_for_sub (st : RequestAttempts) (sub_id : SubId) : option RequestAttempts :=
  let attempt_ids := default ∅ (at_by_sub st !! sub_id) in
  let st := mkAttempts (at_attempts st) (delete sub_id (at_by_sub st)) (at_by_session st)
              (at_next_id st) (at_retries st) (at_retry_by_sub st) (at_retries_by_session st) in
  st ← foldl (λ o attempt_id, st ← o; retire_sub_attempt st attempt_id) (Some st)
         (ordered attempt_ids);
  cancel_retry_for_sub st sub_id.

(** One attempt of the torn-out [by_session] bucket, and one retry of the
    torn-out [retries_by_session] bucket. *)
Definition retire_session_attempt (st : RequestAttempts) (attempt_id : N)
    : option RequestAttempts :=
  attempt ← at_attempts st !! attempt_id;
  forget_sub_edge (drop_attempt st attempt_id) attempt_id (ra_sub_id attempt).

Definition retire_session_retry (st : RequestAttempts) (key : RequestRetryKey)
    : option RequestAttempts :=
  pending ← at_retries st !! key;
  forget_retry_sub_edge (drop_retry st key) (ra_sub_id (pr_attempt pending)) key.

Definition retire_for_session (st : RequestAttempts) (session : RelaySessionKey)
    : option RequestAttempts :=
  let attempt_ids := default ∅ (at_by_session st !! session) in
  let st := mkAttempts (at_attempts st) (at_by_sub st) (delete session (at_by_session st))
              (at_next_id st) (at_retries st) (at_retry_by_sub st) (at_retries_by_session st) in
  st ← foldl (λ o attempt_id, st ← o; retire_session_attempt st attempt_id) (Some st)
         (ordered attempt_ids);
  let retry_keys := default ∅ (at_retries_by_session st !! session) in
  let st := set_retries st (at_retries st) (at_retry_by_sub st)
              (delete session (at_retries_by_session st)) in
  foldl (λ o key, st ← o; retire_session_retry st key) (Some st) (ordered retry_keys).

(** ** Reads *)

Definition awaiting_evidence_keys (st : RequestAttempts) : gset (RelaySessionKey * SubId) :=
  list_to_set ((λ a, (ra_session a, ra_sub_id a)) <$>
    ((map_to_list (at_attempts st)).*2 ++ (pr_attempt <$> (map_to_list (at_retries st)).*2))).

Definition next_retry_due (st : RequestAttempts) : option N :=
  foldr (λ due o, Some (match o with None => due | Some d => N.min due d end)) None
    (pr_due <$> (map_to_list (at_retries st)).*2).

Definition due_retry_keys (st : RequestAttempts) (now : N) : list RequestRetryKey :=
  (filter (λ p, (pr_due p.2 ≤ now)%N) (ordered_map (at_retries st))).*1.

Definition set_retry_failures (st : RequestAttempts) (attempt_id failures : N)
    : option RequestAttempts :=
  a ← at_attempts st !! attempt_id;
  Some (mkAttempts
          (<[attempt_id := mkAttemptState (ra_session a) (ra_sub_id a) (ra_filter_hash a)
                             (ra_filter a) (ra_coverage_claims a) (ra_owner_demands a)
                             (ra_request_revision a) failures]> (at_attempts st))
          (at_by_sub st) (at_by_session st) (at_next_id st)
          (at_retries st) (at_retry_by_sub st) (at_retries_by_session st)).

(** ** Abstract specification: two maps and a counter

    What the owner promises, without the reverse indexes. *)

Record AttemptsSpec := mkSpec {
  sp_attempts : gmap N RequestAttemptState;
  sp_retries : gmap RequestRetryKey PendingRequestRetry;
  sp_next_id : option N
}.

Inductive AttemptsOp :=
  | OMint (attempt : RequestAttemptState)
  | OTake (outcome : RequestHandoffOutcome)
  | OSchedule (attempt : RequestAttemptState) (now : N)
  | OClear (attempt : RequestAttemptState)
  | OTakeRetry (key : RequestRetryKey)
  | OSetFailures (attempt_id failures : N)
  | ORetireSub (sub_id : SubId)
  | ORetireSession (session : RelaySessionKey).

Definition retry_sub (p : PendingRequestRetry) : SubId := ra_sub_id (pr_attempt p).
Definition retry_session (p : PendingRequestRetry) : RelaySessionKey := ra_session (pr_attempt p).

(** What an operation hands back to its caller. *)
Inductive AttemptsOut :=
  | NoOut
  | MintedOut (attempt_id : N)
  | AttemptOut (attempt : option RequestAttemptState)
  | RetryOut (retry : option PendingRequestRetry).

Definition spec_op `{TimestampArith} (sp : AttemptsSpec) (op : AttemptsOp)
    : option (AttemptsSpec * AttemptsOut) :=
  let '(mkSpec attempts retries next_id) := sp in
  match op with
  | OMint a =>
      id ← next_id;
      Some (mkSpec (<[id := a]> attempts) retries (checked_add_u64 id 1), MintedOut id)
  | OTake outcome =>
      let id := outcome_attempt_id outcome in
      Some (mkSpec (delete id attempts) retries next_id, AttemptOut (attempts !! id))
  | OSchedule a now =>
      let failures := u32_saturating_succ (ra_retry_failures a) in
      let due := ts_add now (unjittered_retry_delay_secs failures) in
      Some (mkSpec attempts
              (<[(ra_session a, ra_sub_id a) := mkPendingRetry a due failures]> retries) next_id,
            NoOut)
  | OClear a => Some (mkSpec attempts (delete (ra_session a, ra_sub_id a) retries) next_id, NoOut)
  | OTakeRetry key => Some (mkSpec attempts (delete key retries) next_id, RetryOut (retries !! key))
  | OSetFailures id failures =>
      a ← attempts !! id;
      Some (mkSpec
              (<[id := mkAttemptState (ra_session a) (ra_sub_id a) (ra_filter_hash a) (ra_filter a)
                         (ra_coverage_claims a) (ra_owner_demands a) (ra_request_revision a)
                         failures]> attempts) retries next_id, NoOut)
  | ORetireSub sub_id =>
      Some (mkSpec (without ra_sub_id sub_id attempts) (without retry_sub sub_id retries) next_id,
            NoOut)
  | ORetireSession session =>
      Some (mkSpec (without ra_session session attempts) (without retry_session session retries)
              next_id, NoOut)
  end.

Definition run_op `{TimestampArith} (st : RequestAttempts) (op : AttemptsOp)
    : option (RequestAttempts * AttemptsOut) :=
  match op with
  | OMint a => '(st, id) ← mint st a; Some (st, MintedOut id)
  | OTake outcome => '(st, a) ← take_attempt st outcome; Some (st, AttemptOut a)
  | OSchedule a now => st ← schedule_retry st a now; Some (st, NoOut)
  | OClear a => st ← clear_retry_for_attempt st a; Some (st, NoOut)
  | OTakeRetry key => '(st, p) ← take_retry st key; Some (st, RetryOut p)
  | OSetFailures id failures => st ← set_retry_failures st id failures; Some (st, NoOut)
  | ORetireSub sub_id => st ← retire_for_sub st sub_id; Some (st, NoOut)
  | ORetireSession session => st ← retire_for_session st session; Some (st, NoOut)
  end.

(** An attempt is filed under the session its own [SubId] names. *)
Definition at_home (a : RequestAttemptState) : Prop := ra_session a = sub_session (ra_sub_id a).
Definition op_at_home (op : AttemptsOp) : Prop :=
  match op with OMint a | OSchedule a _ => at_home a | _ => True end.

Definition abstract (st : RequestAttempts) : AttemptsSpec :=
  mkSpec (at_attempts st) (at_retries st) (at_next_id st).

(** [assert_consistent], with what makes it inductive. *)
Record attempts_ok (st : RequestAttempts) : Prop := mkAttemptsOk {
  ok_by_sub : mirrors ra_sub_id (at_attempts st) (at_by_sub st);
  ok_by_session : mirrors ra_session (at_attempts st) (at_by_session st);
  ok_retries_by_session : mirrors retry_session (at_retries st) (at_retries_by_session st);
  ok_retry_by_sub s key : at_retry_by_sub st !! s = Some key ↔
    ∃ p, at_retries st !! key = Some p ∧ retry_sub p = s;
  ok_retry_key key p : at_retries st !! key = Some p → key = (retry_session p, retry_sub p);
  ok_retry_home key p : at_retries st !! key = Some p → at_home (pr_attempt p);
  ok_next_id id a n : at_attempts st !! id = Some a → at_next_id st = Some n → (id < n)%N
}.

(** ** Proof of the refinement *)

Lemma attempts_new_ok : attempts_ok attempts_new.
Proof.
  split; try apply mirrors_empty; simpl; intros *; rewrite ?lookup_empty; try done.
  split; [done|]. by intros (p & ? & _).
Qed.

Lemma mint_ok st a n :
  attempts_ok st → at_next_id st = Some n →
  ∃ st', mint st a = Some (st', n) ∧ attempts_ok st' ∧ at_attempts st !! n = None ∧
    abstract st' = mkSpec (<[n := a]> (at_attempts st)) (at_retries st) (checked_add_u64 n 1).
Proof.
  intros [] Hn. unfold mint. rewrite Hn. cbn [mbind option_bind].
  assert (at_attempts st !! n = None) as Hfresh.
  { apply eq_None_not_Some. intros [x Hx]. specialize (ok_next_id0 _ _ _ Hx Hn). lia. }
  eexists. split; [done|]. split; [|done]. split; simpl; try done.
  - by apply mirrors_insert.
  - by apply mirrors_insert.
  - intros id x m Hid [-> _]%checked_add_u64_Some.
    apply lookup_insert_Some in Hid as [[<- _]|[_ Hid]]; [lia|].
    specialize (ok_next_id0 _ _ _ Hid Hn). lia.
Qed.

Lemma remove_attempt_ok st id :
  attempts_ok st →
  ∃ st', remove_attempt st id = Some (st', at_attempts st !! id) ∧ attempts_ok st' ∧
    abstract st' = mkSpec (delete id (at_attempts st)) (at_retries st) (at_next_id st).
Proof.
  intros Hok. unfold remove_attempt. destruct (at_attempts st !! id) as [a|] eqn:Ha.
  - destruct Hok.
    destruct (mirrors_remove _ _ _ _ _ ok_by_sub0 Ha) as (i1 & H1 & Hm1).
    destruct (mirrors_remove _ _ _ _ _ ok_by_session0 Ha) as (i2 & H2 & Hm2).
    unfold forget_sub_edge, forget_session_edge. simpl. rewrite H1. cbn [mbind option_bind].
    simpl. rewrite H2. cbn [mbind option_bind]. eexists. split; [done|]. split; [|done].
    split; simpl; try done. intros id' x n [_ Hx]%lookup_delete_Some. by eapply ok_next_id0.
  - exists st. split_and!; [done|done|]. unfold abstract. by rewrite delete_id.
Qed.

Lemma retry_unique st k1 k2 p1 p2 :
  attempts_ok st → at_retries st !! k1 = Some p1 → at_retries st !! k2 = Some p2 →
  retry_sub p1 = retry_sub p2 → k1 = k2.
Proof.
  intros Hok H1 H2 Hs. rewrite (ok_retry_key _ Hok _ _ H1), (ok_retry_key _ Hok _ _ H2).
  pose proof (ok_retry_home _ Hok _ _ H1) as Hh1. pose proof (ok_retry_home _ Hok _ _ H2) as Hh2.
  unfold at_home, retry_session, retry_sub in *. congruence.
Qed.

(** Dropping a set of retries [D], whatever the order its edges are forgotten
    in, keeps the sub index exact. *)
Lemma retry_by_sub_delete (st : RequestAttempts) (retries : gmap RequestRetryKey PendingRequestRetry)
    (by_sub : gmap SubId RequestRetryKey) :
  attempts_ok st → retries ⊆ at_retries st →
  (∀ s key, by_sub !! s = Some key ↔ at_retry_by_sub st !! s = Some key ∧ is_Some (retries !! key)) →
  ∀ s key, by_sub !! s = Some key ↔ ∃ p, retries !! key = Some p ∧ retry_sub p = s.
Proof.
  intros Hok Hsub Hby s key. rewrite Hby, (ok_retry_by_sub _ Hok). split.
  - intros [(p & Hp & Hs) [q Hq]]. exists q. split; [done|].
    pose proof (lookup_weaken _ _ _ _ Hq Hsub). by simplify_eq.
  - intros (p & Hp & Hs). pose proof (lookup_weaken _ _ _ _ Hp Hsub). eauto.
Qed.

(** The parts of the invariant that survive dropping retries. *)
Lemma attempts_ok_fewer_retries (st : RequestAttempts) (retries : gmap RequestRetryKey PendingRequestRetry)
    (by_sub : gmap SubId RequestRetryKey) by_session :
  attempts_ok st → retries ⊆ at_retries st →
  mirrors retry_session retries by_session →
  (∀ s key, by_sub !! s = Some key ↔ at_retry_by_sub st !! s = Some key ∧ is_Some (retries !! key)) →
  attempts_ok (set_retries st retries by_sub by_session).
Proof.
  intros Hok Hsub Hm Hby. pose proof (retry_by_sub_delete _ _ _ Hok Hsub Hby).
  destruct Hok. split; simpl; try done.
  - intros key p Hp. by eapply ok_retry_key0, lookup_weaken.
  - intros key p Hp. by eapply ok_retry_home0, lookup_weaken.
Qed.

Lemma forget_retry_edge_spec st key p :
  attempts_ok st → at_retries st !! key = Some p →
  at_retry_by_sub st !! retry_sub p = Some key ∧
  ∀ s key', delete (retry_sub p) (at_retry_by_sub st) !! s = Some key' ↔
    at_retry_by_sub st !! s = Some key' ∧ is_Some (delete key (at_retries st) !! key').
Proof.
  intros Hok Hp.
  assert (at_retry_by_sub st !! retry_sub p = Some key) as Hs.
  { apply (ok_retry_by_sub _ Hok). eauto. }
  split; [done|]. intros s key'. rewrite lookup_delete_Some. split.
  - intros [Hne Hk]. split; [done|]. apply (ok_retry_by_sub _ Hok) in Hk as (q & Hq & Hqs).
    exists q. apply lookup_delete_Some. split; [|done]. intros <-. by simplify_eq.
  - intros [Hk [q [Hne Hq]%lookup_delete_Some]]. split; [|done]. intros <-. congruence.
Qed.

Lemma remove_retry_ok st key :
  attempts_ok st →
  ∃ st', remove_retry st key = Some (st', at_retries st !! key) ∧ attempts_ok st' ∧
    abstract st' = mkSpec (at_attempts st) (delete key (at_retries st)) (at_next_id st).
Proof.
  intros Hok. unfold remove_retry. destruct (at_retries st !! key) as [p|] eqn:Hp.
  - destruct (forget_retry_edge_spec _ _ _ Hok Hp) as [Hs Hby].
    destruct (mirrors_remove _ _ _ _ _ (ok_retries_by_session _ Hok) Hp) as (index & Hi & Hm).
    unfold forget_retry_sub_edge. simpl. fold (retry_sub p). rewrite Hs. cbn [mbind option_bind].
    rewrite decide_True by done. cbn [mbind option_bind].
    unfold forget_retry_session_edge. simpl. fold (retry_session p). rewrite Hi.
    cbn [mbind option_bind]. eexists. split; [done|]. split; [|done].
    apply (attempts_ok_fewer_retries st); [done|apply delete_subseteq|done|done].
  - exists st. split_and!; [done|done|]. unfold abstract. by rewrite delete_id.
Qed.

Lemma schedule_retry_ok `{TimestampArith} st a now :
  attempts_ok st → at_home a →
  ∃ st', schedule_retry st a now = Some st' ∧ attempts_ok st' ∧
    spec_op (abstract st) (OSchedule a now) = Some (abstract st', NoOut).
Proof.
  intros Hok Ha. unfold schedule_retry. simpl.
  destruct (remove_retry_ok st (ra_session a, ra_sub_id a) Hok) as (st1 & -> & Hok1 & Habs).
  cbn [mbind option_bind]. eexists. split; [done|].
  injection Habs as Hat Hre Hnx. split.
  2: { unfold abstract, spec_op, set_retries. cbn. by rewrite Hat, Hre, Hnx, insert_delete_eq. }
  set (key := (ra_session a, ra_sub_id a)) in *.
  assert (at_retries st1 !! key = None) as Hfresh by (by rewrite Hre, lookup_delete_eq).
  assert (at_retry_by_sub st1 !! ra_sub_id a = None) as Hnone.
  { apply eq_None_not_Some. intros [k (q & Hq & Hs)%(ok_retry_by_sub _ Hok1)].
    assert (k = key) as ->; [|congruence].
    rewrite (ok_retry_key _ Hok1 _ _ Hq), Hs. pose proof (ok_retry_home _ Hok1 _ _ Hq) as Hh.
    unfold at_home, retry_session, retry_sub, key in *. congruence. }
  destruct Hok1. split; simpl; try done.
  - by apply (mirrors_insert retry_session _ _ key (mkPendingRetry a _ _)).
  - intros s k. rewrite lookup_insert_Some. split.
    + intros [[<- <-]|[Hne (q & Hq & Hqs)%ok_retry_by_sub0]].
      * rewrite lookup_insert_eq. eauto.
      * exists q. rewrite lookup_insert_ne; [done|]. intros <-. congruence.
    + intros (q & [[<- <-]|[Hne Hq]]%lookup_insert_Some & Hqs); [by left|]. right.
      split; [intros <-|]; [|apply ok_retry_by_sub0; eauto].
      assert (at_retry_by_sub st1 !! ra_sub_id a = Some k); [apply ok_retry_by_sub0; eauto|congruence].
  - intros k q [[<- <-]|[_ Hq]]%lookup_insert_Some; [done|by apply ok_retry_key0].
  - intros k q [[<- <-]|[_ Hq]]%lookup_insert_Some; [done|by eapply ok_retry_home0].
Qed.

Lemma cancel_retry_for_sub_ok st sub_id :
  attempts_ok st →
  ∃ st', cancel_retry_for_sub st sub_id = Some st' ∧ attempts_ok st' ∧
    abstract st' = mkSpec (at_attempts st) (without retry_sub sub_id (at_retries st))
                     (at_next_id st).
Proof.
  intros Hok. unfold cancel_retry_for_sub.
  destruct (at_retry_by_sub st !! sub_id) as [key|] eqn:Hk.
  - pose proof Hk as (p & Hp & <-)%(ok_retry_by_sub _ Hok). simpl. rewrite Hp.
    cbn [mbind option_bind].
    destruct (forget_retry_edge_spec _ _ _ Hok Hp) as [_ Hby].
    destruct (mirrors_remove _ _ _ _ _ (ok_retries_by_session _ Hok) Hp) as (index & Hi & Hm).
    unfold forget_retry_session_edge. simpl. fold (retry_session p). rewrite Hi.
    cbn [mbind option_bind]. eexists. split; [done|]. split.
    + apply (attempts_ok_fewer_retries st); [done|apply delete_subseteq|done|done].
    + unfold abstract. cbn. f_equal. apply map_eq. intros k.
      apply option_eq. intros q. rewrite lookup_delete_Some, lookup_without. split.
      * intros [Hne Hq]. split; [done|]. intros Hs. by destruct Hne; eapply retry_unique.
      * intros [Hq Hne]. split; [|done]. intros <-. by simplify_eq.
  - exists st. split_and!; [done|done|]. unfold abstract. f_equal.
    apply map_eq. intros k. apply option_eq. intros q. rewrite lookup_without. split; [|naive_solver].
    intros Hq. split; [done|]. intros Hs.
    assert (at_retry_by_sub st !! sub_id = Some k); [|congruence].
    apply (ok_retry_by_sub _ Hok). eauto.
Qed.

(** ** Teardown loops *)

(** The children left once those of [pre] are gone. *)
Definition remaining {C V} `{Countable C} (m : gmap C V) (pre : list C) : gmap C V :=
  filter (λ p, p.1 ∉ pre) m.

Lemma remaining_nil {C V} `{Countable C} (m : gmap C V) : remaining m [] = m.
Proof. apply map_filter_id. intros ???. apply not_elem_of_nil. Qed.

Lemma remaining_snoc {C V} `{Countable C} (m : gmap C V) pre c :
  remaining m (pre ++ [c]) = delete c (remaining m pre).
Proof.
  apply map_eq. intros k. apply option_eq. intros v. unfold remaining.
  rewrite lookup_delete_Some, !map_lookup_filter_Some. simpl. set_solver.
Qed.

Lemma remaining_lookup {C V} `{Countable C} (m : gmap C V) pre c post v :
  NoDup (pre ++ c :: post) → m !! c = Some v → remaining m pre !! c = Some v.
Proof.
  intros (_ & Hd & _)%NoDup_app Hc. unfold remaining. apply map_lookup_filter_Some. split; [done|].
  intros Hin. eapply Hd; [done|left].
Qed.

Lemma remaining_all {C V O} `{Countable C, Countable O, Ord C} (owner : V → O)
    (m : gmap C V) index o :
  mirrors owner m index → remaining m (ordered (default ∅ (index !! o))) = without owner o m.
Proof.
  intros Hm. apply map_eq. intros c. apply option_eq. intros v.
  rewrite lookup_without. unfold remaining. rewrite map_lookup_filter_Some. simpl.
  rewrite elem_of_ordered. destruct Hm as [_ Hi]. rewrite Hi. naive_solver.
Qed.

Lemma retire_sub_loop st (ids : list N) :
  mirrors ra_session (at_attempts st) (at_by_session st) → NoDup ids →
  (∀ id, id ∈ ids → is_Some (at_attempts st !! id)) →
  ∃ index,
    foldl (λ o id, st ← o; retire_sub_attempt st id) (Some st) ids =
      Some (mkAttempts (remaining (at_attempts st) ids) (at_by_sub st) index (at_next_id st)
              (at_retries st) (at_retry_by_sub st) (at_retries_by_session st)) ∧
    mirrors ra_session (remaining (at_attempts st) ids) index.
Proof.
  intros Hm Hnd Hlive.
  destruct (foldl_option_ind retire_sub_attempt
    (λ pre x, ∃ index, x = mkAttempts (remaining (at_attempts st) pre) (at_by_sub st) index
                (at_next_id st) (at_retries st) (at_retry_by_sub st) (at_retries_by_session st) ∧
       mirrors ra_session (remaining (at_attempts st) pre) index) ids st)
    as (x & Hrun & index & -> & Hi).
  - exists (at_by_session st). rewrite remaining_nil. by destruct st.
  - intros pre id post x -> (index & -> & Hi). destruct (Hlive id) as [a Ha]; [set_solver|].
    pose proof (remaining_lookup _ _ _ _ _ Hnd Ha) as Ha'.
    destruct (mirrors_remove _ _ _ _ _ Hi Ha') as (index' & Hr & Hi').
    unfold retire_sub_attempt. simpl. rewrite Ha'. cbn [mbind option_bind].
    unfold forget_session_edge. simpl. rewrite Hr. cbn [mbind option_bind].
    eexists. split; [done|]. exists index'. unfold drop_attempt. by rewrite remaining_snoc.
  - exists index. split; [exact Hrun|done].
Qed.

Lemma retire_for_sub_ok `{TimestampArith} st sub_id :
  attempts_ok st →
  ∃ st', retire_for_sub st sub_id = Some st' ∧ attempts_ok st' ∧
    spec_op (abstract st) (ORetireSub sub_id) = Some (abstract st', NoOut).
Proof.
  intros Hok. unfold retire_for_sub.
  set (ids := default ∅ (at_by_sub st !! sub_id)).
  set (st0 := mkAttempts _ _ _ _ _ _ _).
  destruct (retire_sub_loop st0 (ordered ids)) as (index & -> & Hi).
  { apply (ok_by_session _ Hok). }
  { apply NoDup_ordered. }
  { intros id Hid%elem_of_ordered%(ok_by_sub _ Hok). naive_solver. }
  cbn [mbind option_bind].
  assert (remaining (at_attempts st0) (ordered ids) = without ra_sub_id sub_id (at_attempts st)) as Hrem
    by apply (remaining_all ra_sub_id), Hok.
  rewrite Hrem in *. set (st1 := mkAttempts _ _ _ _ _ _ _).
  assert (attempts_ok st1) as Hok1.
  { destruct Hok. split; simpl; try done.
    - by apply mirrors_teardown.
    - intros id a n [Ha _]%lookup_without. by eapply ok_next_id0. }
  destruct (cancel_retry_for_sub_ok st1 sub_id Hok1) as (st' & Hrun & Hok' & Habs).
  exists st'. split; [done|]. split; [done|]. by rewrite Habs.
Qed.

Lemma retire_session_loop st (ids : list N) :
  mirrors ra_sub_id (at_attempts st) (at_by_sub st) → NoDup ids →
  (∀ id, id ∈ ids → is_Some (at_attempts st !! id)) →
  ∃ index,
    foldl (λ o id, st ← o; retire_session_attempt st id) (Some st) ids =
      Some (mkAttempts (remaining (at_attempts st) ids) index (at_by_session st) (at_next_id st)
              (at_retries st) (at_retry_by_sub st) (at_retries_by_session st)) ∧
    mirrors ra_sub_id (remaining (at_attempts st) ids) index.
Proof.
  intros Hm Hnd Hlive.
  destruct (foldl_option_ind retire_session_attempt
    (λ pre x, ∃ index, x = mkAttempts (remaining (at_attempts st) pre) index (at_by_session st)
                (at_next_id st) (at_retries st) (at_retry_by_sub st) (at_retries_by_session st) ∧
       mirrors ra_sub_id (remaining (at_attempts st) pre) index) ids st)
    as (x & Hrun & index & -> & Hi).
  - exists (at_by_sub st). rewrite remaining_nil. by destruct st.
  - intros pre id post x -> (index & -> & Hi). destruct (Hlive id) as [a Ha]; [set_solver|].
    pose proof (remaining_lookup _ _ _ _ _ Hnd Ha) as Ha'.
    destruct (mirrors_remove _ _ _ _ _ Hi Ha') as (index' & Hr & Hi').
    unfold retire_session_attempt. simpl. rewrite Ha'. cbn [mbind option_bind].
    unfold forget_sub_edge. simpl. rewrite Hr. cbn [mbind option_bind].
    eexists. split; [done|]. exists index'. unfold drop_attempt. by rewrite remaining_snoc.
  - exists index. split; [exact Hrun|done].
Qed.

(** The sub index once the retries outside [retries] are dropped. *)
Definition sub_index_of (st : RequestAttempts)
    (retries : gmap RequestRetryKey PendingRequestRetry) (by_sub : gmap SubId RequestRetryKey)
    : Prop :=
  ∀ s key, by_sub !! s = Some key ↔ at_retry_by_sub st !! s = Some key ∧ is_Some (retries !! key).

Lemma retire_retries_loop st (keys : list RequestRetryKey) sessions :
  attempts_ok st → NoDup keys → (∀ key, key ∈ keys → is_Some (at_retries st !! key)) →
  ∃ by_sub,
    foldl (λ o key, x ← o; retire_session_retry x key)
      (Some (set_retries st (at_retries st) (at_retry_by_sub st) sessions)) keys =
      Some (set_retries st (remaining (at_retries st) keys) by_sub sessions) ∧
    sub_index_of st (remaining (at_retries st) keys) by_sub.
Proof.
  intros Hok Hnd Hlive.
  destruct (foldl_option_ind retire_session_retry
    (λ pre x, ∃ by_sub, x = set_retries st (remaining (at_retries st) pre) by_sub sessions ∧
       sub_index_of st (remaining (at_retries st) pre) by_sub) keys
    (set_retries st (at_retries st) (at_retry_by_sub st) sessions))
    as (x & Hrun & by_sub & -> & Hi).
  - exists (at_retry_by_sub st). rewrite remaining_nil. split; [done|]. intros s key.
    rewrite (ok_retry_by_sub _ Hok). naive_solver.
  - intros pre key post x -> (by_sub & -> & Hi). destruct (Hlive key) as [p Hp]; [set_solver|].
    pose proof (remaining_lookup _ _ _ _ _ Hnd Hp) as Hp'.
    destruct (forget_retry_edge_spec _ _ _ Hok Hp) as [Hs _].
    unfold retire_session_retry. simpl. rewrite Hp'. cbn [mbind option_bind].
    unfold forget_retry_sub_edge. simpl. fold (retry_sub p).
    assert (by_sub !! retry_sub p = Some key) as -> by (apply Hi; eauto).
    cbn [mbind option_bind]. rewrite decide_True by done. eexists. split; [done|].
    exists (delete (retry_sub p) by_sub). rewrite remaining_snoc. split; [done|].
    intros s key'. rewrite lookup_delete_Some. unfold sub_index_of in Hi. rewrite Hi. split.
    + intros (Hne & Hk & [q Hq]). split; [done|]. exists q. rewrite lookup_delete_ne; [done|].
      intros <-. apply (ok_retry_by_sub _ Hok) in Hk as (q' & ? & <-). by simplify_eq.
    + intros (Hk & q & [Hne Hq]%lookup_delete_Some). split; [|eauto]. intros <-. congruence.
  - exists by_sub. split; [exact Hrun|done].
Qed.

Lemma retire_for_session_ok `{TimestampArith} st session :
  attempts_ok st →
  ∃ st', retire_for_session st session = Some st' ∧ attempts_ok st' ∧
    spec_op (abstract st) (ORetireSession session) = Some (abstract st', NoOut).
Proof.
  intros Hok. unfold retire_for_session.
  set (ids := default ∅ (at_by_session st !! session)).
  set (st0 := mkAttempts _ _ _ _ _ _ _).
  destruct (retire_session_loop st0 (ordered ids)) as (index & -> & Hi).
  { apply (ok_by_sub _ Hok). }
  { apply NoDup_ordered. }
  { intros id Hid%elem_of_ordered%(ok_by_session _ Hok). naive_solver. }
  cbn [mbind option_bind].
  assert (remaining (at_attempts st0) (ordered ids) = without ra_session session (at_attempts st))
    as Hrem by apply (remaining_all ra_session), Hok.
  rewrite Hrem in *. set (st1 := mkAttempts _ _ _ _ _ _ _).
  assert (attempts_ok st1) as Hok1.
  { destruct Hok. split; simpl; try done.
    - by apply mirrors_teardown.
    - intros id a n [Ha _]%lookup_without. by eapply ok_next_id0. }
  set (keys := default ∅ (at_retries_by_session st1 !! session)).
  destruct (retire_retries_loop st1 (ordered keys) (delete session (at_retries_by_session st1)) Hok1)
    as (by_sub & Hrun & Hby).
  { apply NoDup_ordered. }
  { intros key Hkey%elem_of_ordered%(ok_retries_by_session _ Hok1). naive_solver. }
  rewrite Hrun. eexists. split; [done|].
  assert (remaining (at_retries st1) (ordered keys) = without retry_session session (at_retries st1))
    as Hkeys by apply (remaining_all retry_session), Hok1.
  rewrite Hkeys in *. split; [|done].
  apply (attempts_ok_fewer_retries st1); [done|apply map_filter_subseteq| |done].
  apply mirrors_teardown, Hok1.
Qed.

Lemma set_retry_failures_ok st id failures :
  attempts_ok st →
  match at_attempts st !! id, set_retry_failures st id failures with
  | Some a, Some st' =>
      attempts_ok st' ∧
      abstract st' = mkSpec
        (<[id := mkAttemptState (ra_session a) (ra_sub_id a) (ra_filter_hash a) (ra_filter a)
                   (ra_coverage_claims a) (ra_owner_demands a) (ra_request_revision a) failures]>
           (at_attempts st)) (at_retries st) (at_next_id st)
  | None, None => True
  | _, _ => False
  end.
Proof.
  intros Hok. unfold set_retry_failures. destruct (at_attempts st !! id) as [a|] eqn:Ha; [|done].
  cbn [mbind option_bind]. split; [|done]. destruct Hok. split; simpl; try done.
  - by eapply mirrors_update.
  - by eapply mirrors_update.
  - intros id' x n [[<- _]|[_ Hx]]%lookup_insert_Some Hn; by eapply ok_next_id0.
Qed.

Section refinement.
Context `{TimestampArith}.

Lemma run_op_refines st op :
  attempts_ok st → op_at_home op →
  match run_op st op with
  | Some (st', out) => attempts_ok st' ∧ spec_op (abstract st) op = Some (abstract st', out)
  | None => spec_op (abstract st) op = None
  end.
Proof.
  intros Hok Hop. destruct op as [a|outcome|a now|a|key|id failures|sub_id|session]; simpl.
  - destruct (at_next_id st) as [n|] eqn:Hn; [|by unfold mint; rewrite Hn].
    destruct (mint_ok st a n Hok Hn) as (st' & -> & Hok' & _ & Habs). simpl. by rewrite Habs.
  - destruct (remove_attempt_ok st (outcome_attempt_id outcome) Hok) as (st' & Hr & ? & Habs).
    unfold take_attempt. rewrite Hr. simpl. by rewrite Habs.
  - destruct (schedule_retry_ok st a now Hok Hop) as (st' & -> & ? & Habs). by simpl.
  - destruct (remove_retry_ok st (ra_session a, ra_sub_id a) Hok) as (st' & Hr & ? & Habs).
    unfold clear_retry_for_attempt. simpl. rewrite Hr. simpl. by rewrite Habs.
  - destruct (remove_retry_ok st key Hok) as (st' & Hr & ? & Habs).
    unfold take_retry. rewrite Hr. simpl. by rewrite Habs.
  - pose proof (set_retry_failures_ok st id failures Hok) as Hs.
    destruct (at_attempts st !! id), (set_retry_failures st id failures); try done.
    destruct Hs as [? Habs]. simpl. by rewrite Habs.
  - destruct (retire_for_sub_ok st sub_id Hok) as (st' & -> & ? & Habs). by simpl.
  - destruct (retire_for_session_ok st session Hok) as (st' & -> & ? & Habs). by simpl.
Qed.

(** A sequence of operations and what they hand back. *)
Fixpoint run_ops (st : RequestAttempts) (ops : list AttemptsOp)
    : option (RequestAttempts * list AttemptsOut) :=
  match ops with
  | [] => Some (st, [])
  | op :: ops =>
      '(st, out) ← run_op st op; '(st, outs) ← run_ops st ops; Some (st, out :: outs)
  end.

Fixpoint spec_ops (sp : AttemptsSpec) (ops : list AttemptsOp)
    : option (AttemptsSpec * list AttemptsOut) :=
  match ops with
  | [] => Some (sp, [])
  | op :: ops =>
      '(sp, out) ← spec_op sp op; '(sp, outs) ← spec_ops sp ops; Some (sp, out :: outs)
  end.

Lemma run_ops_refines ops st :
  attempts_ok st → Forall op_at_home ops →
  match run_ops st ops with
  | Some (st', outs) => attempts_ok st' ∧ spec_ops (abstract st) ops = Some (abstract st', outs)
  | None => spec_ops (abstract st) ops = None
  end.
Proof.
  intros Hok Hops. revert st Hok. induction Hops as [|op ops Hop _ IH]; intros st Hok; [done|].
  cbn [run_ops spec_ops]. pose proof (run_op_refines st op Hok Hop) as Hstep.
  destruct (run_op st op) as [[st1 out]|]; cbn [mbind option_bind]; [|by rewrite Hstep].
  destruct Hstep as [Hok1 ->]. cbn [mbind option_bind]. specialize (IH st1 Hok1).
  destruct (run_ops st1 ops) as [[st2 outs]|]; cbn [mbind option_bind]; [|by rewrite IH].
  destruct IH as [Hok2 ->]. done.
Qed.
End refinement.

(** ** Theorems *)

Section theorems.
Context `{TimestampArith}.

(** Identities already handed out. *)
Definition minted (st : RequestAttempts) (id : N) : Prop :=
  match at_next_id st with Some n => (id < n)%N | None => True end.

(** One operation, seen from an identity already handed out: it stays handed
    out, and is not filed again once it is gone; an identity it hands out is
    handed out afterwards. *)
Lemma run_op_minted st op st' out id :
  attempts_ok st → op_at_home op → run_op st op = Some (st', out) →
  (minted st id ∨ out = MintedOut id → minted st' id) ∧
  (minted st id → at_attempts st !! id = None → at_attempts st' !! id = None).
Proof.
  intros Hok Hop Hrun. pose proof (run_op_refines st op Hok Hop) as Hr.
  rewrite Hrun in Hr. destruct Hr as [_ Hspec]. unfold minted in *.
  destruct op as [a|o|a now|a|key|id' failures|s|s]; cbn in Hspec.
  - destruct (at_next_id st) as [n|]; [|done]. injection Hspec as Ha _ Hn <-.
    rewrite <-Hn, <-Ha. split.
    + destruct (checked_add_u64 n 1) as [m|] eqn:E; [|done].
      apply checked_add_u64_Some in E as [-> _]. intros [?|[= ->]]; lia.
    + intros ??. by rewrite lookup_insert_ne by lia.
  - injection Hspec as Ha _ Hn <-. rewrite <-Hn, <-Ha. split; [naive_solver|].
    intros _ ?. apply lookup_delete_None; auto.
  - injection Hspec as Ha _ Hn <-. rewrite <-Hn, <-Ha. naive_solver.
  - injection Hspec as Ha _ Hn <-. rewrite <-Hn, <-Ha. naive_solver.
  - injection Hspec as Ha _ Hn <-. rewrite <-Hn, <-Ha. naive_solver.
  - destruct (at_attempts st !! id') as [a|] eqn:Ea; [|done].
    injection Hspec as Ha _ Hn <-. rewrite <-Hn, <-Ha. split; [naive_solver|].
    intros _ ?. rewrite lookup_insert_ne; [done|congruence].
  - injection Hspec as Ha _ Hn <-. rewrite <-Hn, <-Ha. split; [naive_solver|].
    intros _ ?. by apply lookup_without_None.
  - injection Hspec as Ha _ Hn <-. rewrite <-Hn, <-Ha. split; [naive_solver|].
    intros _ ?. by apply lookup_without_None.
Qed.

Lemma run_ops_minted ops st st' outs id :
  attempts_ok st → Forall op_at_home ops → run_ops st ops = Some (st', outs) →
  attempts_ok st' ∧ (minted st id ∨ MintedOut id ∈ outs → minted st' id) ∧
  (minted st id → at_attempts st !! id = None → at_attempts st' !! id = None).
Proof.
  intros Hok Hops. revert st outs Hok.
  induction Hops as [|op ops Hop _ IH]; intros st outs Hok Hrun.
  { cbn in Hrun. injection Hrun as <- <-. split; [done|]. split; [|done].
    by intros [?|?%not_elem_of_nil]. }
  cbn [run_ops] in Hrun. apply bind_Some in Hrun as ([st1 out] & Hstep & Hrun).
  apply bind_Some in Hrun as ([st2 outs2] & Hrest & [= <- <-]).
  pose proof (run_op_refines st op Hok Hop) as Hr. rewrite Hstep in Hr. destruct Hr as [Hok1 _].
  destruct (run_op_minted st op st1 out id Hok Hop Hstep) as [Hm1 Hn1].
  destruct (IH st1 outs2 Hok1 Hrest) as (Hok2 & Hm2 & Hn2).
  split; [done|]. split; [|auto]. rewrite elem_of_cons. naive_solver.
Qed.

(** Whatever operations run, the owner of request attempts behaves as two
    plain maps and a counter.  No reverse index ever disagrees, so no
    operation panics except minting from an exhausted identity space and
    stamping an attempt that is not there, and every value handed back is the
    one the maps give. *)
Theorem attempts_refine_maps (ops : list AttemptsOp) :
  Forall op_at_home ops →
  match run_ops attempts_new ops with
  | Some (st, outs) =>
      attempts_ok st ∧ spec_ops (mkSpec ∅ ∅ (Some 0%N)) ops = Some (abstract st, outs)
  | None => spec_ops (mkSpec ∅ ∅ (Some 0%N)) ops = None
  end.
Proof. apply run_ops_refines, attempts_new_ok. Qed.

(** An attempt is settled at most once.  Once its outcome has been taken, or
    its sub or session retired, a later outcome naming it changes nothing and
    yields nothing, whatever happened in between. *)
Theorem attempt_settles_once (before after : list AttemptsOp) st outs st' outs' id outcome :
  Forall op_at_home before → Forall op_at_home after →
  run_ops attempts_new before = Some (st, outs) → run_ops st after = Some (st', outs') →
  MintedOut id ∈ outs → at_attempts st !! id = None → outcome_attempt_id outcome = id →
  take_attempt st' outcome = Some (st', None).
Proof.
  intros Hb Ha Hrun Hrun' Hmint Hnone <-.
  destruct (run_ops_minted _ _ _ _ (outcome_attempt_id outcome) attempts_new_ok Hb Hrun)
    as (Hok & Hm & _).
  destruct (run_ops_minted _ _ _ _ (outcome_attempt_id outcome) Hok Ha Hrun') as (Hok' & _ & Hgone).
  unfold take_attempt, remove_attempt. by rewrite Hgone by auto.
Qed.
End theorems.

(** The shift of [unjittered_retry_delay_secs] and [retry_delay_secs] wraps at
    64 bits, but never below the cap. *)
Lemma backoff_exact (n : N) :
  N.min (default u64_max (checked_shl_u64 retry_initial_secs (N.min n 63))) retry_max_secs =
  N.min (3 * 2 ^ n) 300.
Proof.
  destruct (N.le_gt_cases n 63) as [Hn|Hn].
  - rewrite (N.min_l n) by done.
    assert (Forall (λ k, N.min (default u64_max (checked_shl_u64 retry_initial_secs k)) retry_max_secs =
                         N.min (3 * 2 ^ k) 300) (N.of_nat <$> seq 0 64)) as Hall by decide_now.
    rewrite Forall_forall in Hall. apply Hall, list_elem_of_fmap. exists (N.to_nat n).
    split; [lia|]. apply elem_of_seq. lia.
  - rewrite (N.min_r n) by lia. assert (2 ^ 7 ≤ 2 ^ n)%N by (apply N.pow_le_mono_r; lia).
    change (2 ^ 7)%N with 128%N in *. rewrite N.min_r by (vm_compute; discriminate).
    unfold retry_max_secs. lia.
Qed.

(** The retry backoff is the capped exponential [min (3 * 2^(n-1)) 300]
    for every count of failures, although the shift wraps at 64 bits; and the
    jitter a delivery lane adds is less than five seconds. *)
Theorem backoff_bounds :
  (∀ failures, unjittered_retry_delay_secs failures = N.min (3 * 2 ^ (failures - 1)) 300) ∧
  (∀ intent_id relay ordinal,
     (unjittered_retry_delay_secs ordinal ≤ retry_delay_secs intent_id relay ordinal <
      unjittered_retry_delay_secs ordinal + 5)%N).
Proof.
  split; [intros; apply backoff_exact|]. intros intent_id relay ordinal.
  unfold unjittered_retry_delay_secs, retry_delay_secs. cbv zeta. rewrite !backoff_exact.
  set (hash := foldl _ _ _). unfold retry_jitter_max_secs.
  pose proof (N.mod_lt hash 5 ltac:(done)). assert (305 < u64_max)%N by done.
  generalize dependent (hash mod 5)%N. generalize dependent (3 * 2 ^ (ordinal - 1))%N.
  generalize dependent u64_max. intros; lia.
Qed.


(** ** A concrete run *)

Module AttemptsSample.
Definition sub : SubId := mkSub "wss://r.example" 4 None.
Definition attempt : RequestAttemptState :=
  mkAttemptState (sub_session sub) sub 0 filter_default ∅ ∅ (Some 0%N) 0.
Definition handed_off : RequestHandoffOutcome := Accepted 0 (mkHandle 1 1).
Definition before : list AttemptsOp := [OMint attempt; OTake handed_off].
Definition after : list AttemptsOp := [OMint attempt; OSchedule attempt 10; ORetireSub sub].

Lemma before_home : Forall op_at_home before.
Proof. by repeat constructor. Qed.
Lemma after_home : Forall op_at_home after.
Proof. by repeat constructor. Qed.

Lemma attempts_refine_maps_witness :
  match run_ops attempts_new (before ++ after) with
  | Some (st, outs) =>
      attempts_ok st ∧
      spec_ops (mkSpec ∅ ∅ (Some 0%N)) (before ++ after) = Some (abstract st, outs)
  | None => False
  end.
Proof.
  pose proof (attempts_refine_maps (before ++ after)
                (Forall_app_2 _ _ _ before_home after_home)) as Href.
  destruct (run_ops attempts_new (before ++ after)) as [[st outs]|] eqn:E; [exact Href|].
  vm_compute in E. discriminate E.
Defined.

Lemma attempt_settles_once_witness :
  ∃ st outs st' outs', run_ops attempts_new before = Some (st, outs) ∧
    run_ops st after = Some (st', outs') ∧ take_attempt st' handed_off = Some (st', None).
Proof.
  destruct (run_ops attempts_new before) as [[st outs]|] eqn:E; [|vm_compute in E; discriminate E].
  destruct (run_ops st after) as [[st' outs']|] eqn:E'.
  - exists st, outs, st', outs'. split; [done|]. split; [done|].
    apply (attempt_settles_once before after st outs st' outs' 0 handed_off
             before_home after_home E E'); [| |reflexivity].
    + vm_compute in E. injection E as _ <-. left.
    + vm_compute in E. injection E as <- _. vm_compute. reflexivity.
  - vm_compute in E. injection E as <- _. vm_compute in E'. discriminate E'.
Defined.
End AttemptsSample.
