(* ===== verification/Attribution.v ===== *)
(** * Coverage attribution

    [crates/nmp-engine/src/core/attribution.rs] and its modules
    [attribution/{completion,wire}.rs]: the FIFO of send-time snapshots of each
    subscription, the wire-name lookup, the claim sets of the live requests,
    and what an EOSE lets the engine claim.  The only panic is the [expect] of
    [attribute_eose_detailed], an outer [None] here. *)

From stdpp Require Import pretty.
From S2P Require Import Prelude Grammar Coverage RouterTypes Router.

(** ** Data *)

Inductive CoveragePoison := LimitedRequest | EventCommitFailed.
Inductive CoverageAuthority := Eligible | Poisoned (reason : CoveragePoison).
#[global] Instance CoveragePoison_eq_dec : EqDecision CoveragePoison.
Proof. solve_decision. Defined.
#[global] Instance CoverageAuthority_eq_dec : EqDecision CoverageAuthority.
Proof. solve_decision. Defined.

(** [CoverageAuthority::poison]. *)
Definition poison (a : CoverageAuthority) (reason : CoveragePoison) : CoverageAuthority :=
  match a with Eligible => Poisoned reason | Poisoned _ => a end.

(** An [AttributionSendId] is a [u64]. *)
Record AttributionSnapshot := mkSnapshot {
  sn_send_id : N;
  sn_coverage_claims : gset CoverageKey;
  sn_filter_hash : N;
  sn_floor : option N;
  sn_until : option N;
  sn_coverage_authority : CoverageAuthority
}.

Record CompletedCoverageClaim := mkCompletedClaim {
  cc_key : CoverageKey;
  cc_interval : CoverageInterval
}.

Record CompletedAttribution := mkCompleted {
  ca_sub_id : SubId;
  ca_send_id : N;
  ca_filter_hash : N;
  ca_coverage_authority : CoverageAuthority;
  ca_claims : list CompletedCoverageClaim
}.

Record AttributionState := mkAttribution {
  next_send_id : N;
  inflight : gmap SubId (list AttributionSnapshot);
  sub_id_by_wire : gmap (RelaySessionKey * string) SubId;
  live_request_claims : gmap SubId (gset CoverageKey)
}.

Definition attribution_new : AttributionState := mkAttribution 0 ∅ ∅ ∅.

Definition set_inflight (st : AttributionState) fifos : AttributionState :=
  mkAttribution (next_send_id st) fifos (sub_id_by_wire st) (live_request_claims st).
Definition set_live_claims (st : AttributionState) claims : AttributionState :=
  mkAttribution (next_send_id st) (inflight st) (sub_id_by_wire st) claims.

(** ** Completions *)

Definition eligible_generation_interval (c : CompletedAttribution) : option CoverageInterval :=
  match ca_coverage_authority c, ca_claims c with
  | Eligible, first :: _ =>
      if forallb (λ claim, bool_decide (cc_interval claim = cc_interval first)) (ca_claims c)
      then Some (cc_interval first) else None
  | _, _ => None
  end.

Definition into_eligible_claims (c : CompletedAttribution) : option (list CompletedCoverageClaim) :=
  match ca_coverage_authority c with Eligible => Some (ca_claims c) | Poisoned _ => None end.

(** ** Claims of live requests *)

Definition retain_live_request_claims (st : AttributionState) (sub_id : SubId)
    (claims : gset CoverageKey) : AttributionState :=
  set_live_claims st (<[sub_id := claims]> (live_request_claims st)).

Definition retain_added_live_request_claims (st : AttributionState) (sub_id : SubId)
    (added : gset CoverageKey) : AttributionState :=
  set_live_claims st
    (<[sub_id := default ∅ (live_request_claims st !! sub_id) ∪ added]> (live_request_claims st)).

Definition release_live_request_claims_delta (st : AttributionState) (sub_id : SubId)
    (removed : gset CoverageKey) : AttributionState :=
  match live_request_claims st !! sub_id with
  | None => st
  | Some retained =>
      let rest := retained ∖ removed in
      set_live_claims st
        (if decide (rest = ∅) then delete sub_id (live_request_claims st)
         else <[sub_id := rest]> (live_request_claims st))
  end.

Definition release_live_request_claims (st : AttributionState) (sub_id : SubId)
    : AttributionState :=
  set_live_claims st (delete sub_id (live_request_claims st)).

(** ** The current generation of one subscription *)

(** [self.inflight.get(sub_id).and_then(VecDeque::back)] with the filter hash
    asked for: the FIFO without it, and it. *)
Definition current_send (st : AttributionState) (sub_id : SubId) (filter_hash : N)
    : option (list AttributionSnapshot * AttributionSnapshot) :=
  match inflight st !! sub_id with
  | None => None
  | Some fifo =>
      match last fifo with
      | Some current =>
          if decide (sn_filter_hash current = filter_hash)
          then Some (removelast fifo, current) else None
      | None => None
      end
  end.

Definition set_claims (s : AttributionSnapshot) (claims : gset CoverageKey)
    : AttributionSnapshot :=
  mkSnapshot (sn_send_id s) claims (sn_filter_hash s) (sn_floor s) (sn_until s)
    (sn_coverage_authority s).

Definition extend_current_send_claims (st : AttributionState) (sub_id : SubId) (filter_hash : N)
    (added : gset CoverageKey) : AttributionState * bool :=
  match current_send st sub_id filter_hash with
  | None => (st, false)
  | Some (older, current) =>
      (set_inflight st
         (<[sub_id := older ++ [set_claims current (sn_coverage_claims current ∪ added)]]>
            (inflight st)), true)
  end.

Definition remove_current_send_claims (st : AttributionState) (sub_id : SubId) (filter_hash : N)
    (removed : gset CoverageKey) : AttributionState * bool :=
  match current_send st sub_id filter_hash with
  | None => (st, false)
  | Some (older, current) =>
      (set_inflight st
         (<[sub_id := older ++ [set_claims current (sn_coverage_claims current ∖ removed)]]>
            (inflight st)), true)
  end.

Definition extend_current_request_claims (st : AttributionState) (sub_id : SubId)
    (filter_hash : N) (added_claims : gset CoverageKey)
    : AttributionState * (bool * gset CoverageKey * bool) :=
  let previous := live_request_claims st !! sub_id in
  let had_previous_claims :=
    match previous with Some claims => bool_decide (claims ≠ ∅) | None => false end in
  let added := match previous with Some claims => added_claims ∖ claims | None => added_claims end in
  match current_send st sub_id filter_hash with
  | None => (st, (had_previous_claims, added, false))
  | Some _ =>
      let st := retain_added_live_request_claims st sub_id added in
      let '(st, _) := extend_current_send_claims st sub_id filter_hash added in
      (st, (had_previous_claims, added, true))
  end.

(** The first snapshot of that revision leaves the FIFO; an emptied FIFO leaves
    the map. *)
Fixpoint remove_revision (revision : N) (fifo : list AttributionSnapshot)
    : list AttributionSnapshot :=
  match fifo with
  | [] => []
  | s :: fifo => if (sn_send_id s =? revision)%N then fifo else s :: remove_revision revision fifo
  end.

Definition discard_send_revision (st : AttributionState) (sub_id : SubId) (revision : N)
    : AttributionState :=
  match inflight st !! sub_id with
  | None => st
  | Some fifo =>
      if existsb (λ s, (sn_send_id s =? revision)%N) fifo then
        let rest := remove_revision revision fifo in
        set_inflight st (match rest with
                         | [] => delete sub_id (inflight st)
                         | _ => <[sub_id := rest]> (inflight st)
                         end)
      else st
  end.

Definition has_inflight (st : AttributionState) (sub_id : SubId) : bool :=
  bool_decide (is_Some (inflight st !! sub_id)).

(** ** Names on the wire *)

(** [WireToken]'s [Display]: the mint counter in decimal. *)
Definition wire_sub_id_string (sub_id : SubId) : string := pretty (sub_mint sub_id).

Definition discard_wire_mapping (st : AttributionState) (session : RelaySessionKey)
    (sub_id : SubId) : AttributionState :=
  mkAttribution (next_send_id st) (inflight st)
    (delete (session, wire_sub_id_string sub_id) (sub_id_by_wire st)) (live_request_claims st).

Definition sub_id_for_wire (st : AttributionState) (session : RelaySessionKey)
    (wire_sub_id : string) : option SubId :=
  sub_id_by_wire st !! (session, wire_sub_id).

(** ** Sends *)

(** [u64::wrapping_add(1)]. *)
Definition wrapping_succ_u64 (x : N) : N := ((x + 1) mod 2 ^ 64)%N.

Section sends.
Context `{FilterHash}.

Definition snapshot_of (send_id : N) (filter : ConcreteFilter) (claims : gset CoverageKey)
    : AttributionSnapshot :=
  mkSnapshot send_id claims (filter_hash filter) (f_since filter) (f_until filter)
    (match f_limit filter with
     | Some _ => Poisoned LimitedRequest
     | None => Eligible
     end).

Definition record_send (st : AttributionState) (session : RelaySessionKey) (sub_id : SubId)
    (filter : ConcreteFilter) (coverage_claims : gset CoverageKey) : AttributionState * N :=
  let send_id := next_send_id st in
  (mkAttribution (wrapping_succ_u64 send_id)
     (<[sub_id := default [] (inflight st !! sub_id) ++ [snapshot_of send_id filter coverage_claims]]>
        (inflight st))
     (<[(session, wire_sub_id_string sub_id) := sub_id]> (sub_id_by_wire st))
     (live_request_claims st), send_id).
End sends.

Definition poison_targets (targets : gset N) (s : AttributionSnapshot) : AttributionSnapshot :=
  if decide (sn_send_id s ∈ targets) then
    mkSnapshot (sn_send_id s) (sn_coverage_claims s) (sn_filter_hash s) (sn_floor s) (sn_until s)
      (poison (sn_coverage_authority s) EventCommitFailed)
  else s.

Definition poison_event_commit_failure (st : AttributionState) (session : RelaySessionKey)
    (wire_sub_id : string) : AttributionState :=
  match sub_id_by_wire st !! (session, wire_sub_id) with
  | None => st
  | Some sub_id =>
      match inflight st !! sub_id with
      | None => st
      | Some fifo =>
          let targets : gset N := list_to_set (sn_send_id <$> fifo) in
          set_inflight st
            ((λ fifo : list AttributionSnapshot, poison_targets targets <$> fifo) <$> inflight st)
      end
  end.

Definition clear_session (st : AttributionState) (session : RelaySessionKey) : AttributionState :=
  let stale : gset SubId :=
    list_to_set (filter (λ p, p.1.1 = session) (map_to_list (sub_id_by_wire st))).*2 in
  mkAttribution (next_send_id st)
    (filter (λ p, p.1 ∉ stale) (inflight st))
    (filter (λ p, p.1.1 ≠ session) (sub_id_by_wire st))
    (live_request_claims st).

Definition discard_sub (st : AttributionState) (sub_id : SubId) : AttributionState :=
  mkAttribution (next_send_id st) (delete sub_id (inflight st))
    (delete (sub_session sub_id, wire_sub_id_string sub_id) (sub_id_by_wire st))
    (live_request_claims st).

(** ** EOSE *)

(** The first poisoned snapshot of the FIFO poisons the completion. *)
Fixpoint fifo_authority (fifo : list AttributionSnapshot) : CoverageAuthority :=
  match fifo with
  | [] => Eligible
  | s :: fifo =>
      match sn_coverage_authority s with
      | Eligible => fifo_authority fifo
      | Poisoned reason => Poisoned reason
      end
  end.

(** The loop of [attribute_eose_detailed]: the keys every snapshot carries, the
    latest floor and the earliest ceiling. *)
Definition fifo_step (acc : option (gset CoverageKey) * N * N) (s : AttributionSnapshot)
    : option (gset CoverageKey) * N * N :=
  let '(attributed, max_floor, min_until) := acc in
  (Some (match attributed with
         | None => sn_coverage_claims s
         | Some keys => keys ∩ sn_coverage_claims s
         end),
   match sn_floor s with Some f => N.max max_floor f | None => max_floor end,
   match sn_until s with Some u => N.min min_until u | None => min_until end).

Definition complete_snapshot (sub_id : SubId) (s : AttributionSnapshot)
    (authority : CoverageAuthority) (claims : list (CoverageKey * CoverageInterval))
    : CompletedAttribution :=
  mkCompleted sub_id (sn_send_id s) (sn_filter_hash s) authority
    ((λ c, mkCompletedClaim c.1 c.2) <$> claims).

Definition attribute_eose_detailed (st : AttributionState) (session : RelaySessionKey)
    (wire_sub_id : string) (eose_time : N)
    : option (AttributionState * option CompletedAttribution) :=
  match sub_id_by_wire st !! (session, wire_sub_id) with
  | None => Some (st, None)
  | Some sub_id =>
      match inflight st !! sub_id with
      | None => Some (st, None)
      | Some fifo =>
          let authority := fifo_authority fifo in
          let '(attributed, max_floor, min_until) := foldl fifo_step (None, 0%N, eose_time) fifo in
          let through := N.min eose_time min_until in
          let interval := mkInterval max_floor through in
          let result := match attributed with
                        | Some keys => (λ k, (k, interval)) <$> ordered keys
                        | None => []
                        end in
          match fifo with
          | [] => None
          | completed :: rest =>
              Some (set_inflight st (match rest with
                                     | [] => delete sub_id (inflight st)
                                     | _ => <[sub_id := rest]> (inflight st)
                                     end),
                    Some (complete_snapshot sub_id completed authority result))
          end
      end
  end.

(** ** The invariant *)

Definition fifo_of (st : AttributionState) (sub_id : SubId) : list AttributionSnapshot :=
  default [] (inflight st !! sub_id).

(** The send ids of all FIFOs. *)
Definition sent_in (st : AttributionState) (sub_id : SubId) (id : N) : Prop :=
  id ∈ sn_send_id <$> fifo_of st sub_id.

(** What [assert_consistent] checks of the FIFOs and of the wire lookup, that
    every FIFO can be found from the wire, and that send ids identify
    snapshots. *)
Record attribution_ok (st : AttributionState) : Prop := mkAttributionOk {
  ok_fifo sub fifo : inflight st !! sub = Some fifo → fifo ≠ [];
  ok_wire session wire sub : sub_id_by_wire st !! (session, wire) = Some sub →
    session = sub_session sub ∧ wire = wire_sub_id_string sub;
  ok_mapped sub : fifo_of st sub ≠ [] →
    sub_id_by_wire st !! (sub_session sub, wire_sub_id_string sub) = Some sub;
  ok_sent sub : StronglySorted N.lt (sn_send_id <$> fifo_of st sub) ∧
    ∀ id, sent_in st sub id → (id < next_send_id st)%N;
  ok_owner sub sub' id : sent_in st sub id → sent_in st sub' id → sub = sub'
}.

Lemma wire_name_inj s1 s2 :
  sub_session s1 = sub_session s2 → wire_sub_id_string s1 = wire_sub_id_string s2 → s1 = s2.
Proof.
  destruct s1 as [r1 m1 a1], s2 as [r2 m2 a2]. unfold sub_session, wire_sub_id_string; simpl.
  intros [= -> ->] Hm%(inj pretty). by subst.
Qed.

Lemma attribution_new_ok : attribution_ok attribution_new.
Proof.
  split; simpl; intros *; unfold sent_in, fifo_of; simpl; rewrite ?lookup_empty; simpl;
    try done; [|by intros ?%not_elem_of_nil].
  split; [constructor|]. by intros ? ?%not_elem_of_nil.
Qed.

Lemma inflight_fifo st sub :
  attribution_ok st → inflight st !! sub =
    match fifo_of st sub with [] => None | fifo => Some fifo end.
Proof.
  intros Hok. unfold fifo_of. destruct (inflight st !! sub) as [[|s fifo]|] eqn:E; try done.
  by apply (ok_fifo _ Hok) in E.
Qed.

(** ** What each operation does to the FIFOs *)

(** An insertion that drops an empty list. *)
Definition put_fifo (m : gmap SubId (list AttributionSnapshot)) sub fifo :=
  match fifo with [] => delete sub m | _ => <[sub := fifo]> m end.

Lemma fifo_of_put st sub fifo sub' :
  fifo_of (set_inflight st (put_fifo (inflight st) sub fifo)) sub' =
  if decide (sub' = sub) then fifo else fifo_of st sub'.
Proof.
  unfold fifo_of. simpl. destruct fifo as [|s fifo]; simpl; case_decide as Hs; subst.
  - by rewrite lookup_delete_eq.
  - by rewrite lookup_delete_ne.
  - by rewrite lookup_insert_eq.
  - by rewrite lookup_insert_ne.
Qed.

(** Replacing one FIFO by one whose ids are a sublist of its own. *)
Lemma put_fifo_ok st sub fifo :
  attribution_ok st → sublist (sn_send_id <$> fifo) (sn_send_id <$> fifo_of st sub) →
  attribution_ok (set_inflight st (put_fifo (inflight st) sub fifo)).
Proof.
  intros Hok Hsub.
  assert (∀ sub' id, sent_in (set_inflight st (put_fifo (inflight st) sub fifo)) sub' id →
    sent_in st sub' id) as Hsent.
  { intros sub' id. unfold sent_in. rewrite fifo_of_put. case_decide; [subst|done].
    intros Hid. by eapply elem_of_submseteq, sublist_submseteq. }
  destruct Hok. split.
  - intros sub' fifo'. simpl. destruct fifo as [|s fifo]; simpl.
    + intros [_ ?]%lookup_delete_Some. by eapply ok_fifo0.
    + intros [[_ <-]|[_ ?]]%lookup_insert_Some; [done|by eapply ok_fifo0].
  - done.
  - intros sub'. rewrite fifo_of_put. case_decide as Hs; [|by apply ok_mapped0].
    subst. intros Hne. apply ok_mapped0. intros E. rewrite E in Hsub.
    destruct fifo; [done|]. by apply sublist_nil_r in Hsub.
  - intros sub'. split.
    + rewrite fifo_of_put. case_decide as Hs; [|apply ok_sent0]. subst.
      eapply StronglySorted_sublist; [done|apply ok_sent0].
    + intros id Hid%Hsent. by eapply ok_sent0.
  - intros sub1 sub2 id H1%Hsent H2%Hsent. by eapply ok_owner0.
Qed.

(** Operations that leave the FIFOs and the wire lookup alone. *)
Lemma set_live_claims_ok st claims : attribution_ok st → attribution_ok (set_live_claims st claims).
Proof. by intros []. Qed.

Section send_lemmas.
Context `{FilterHash}.

Lemma fifo_of_record_send st session sub f claims sub' :
  fifo_of (record_send st session sub f claims).1 sub' =
  if decide (sub' = sub) then fifo_of st sub ++ [snapshot_of (next_send_id st) f claims]
  else fifo_of st sub'.
Proof.
  unfold fifo_of. simpl. case_decide as Hs; [subst; by rewrite lookup_insert_eq|].
  by rewrite lookup_insert_ne.
Qed.

Lemma record_send_ok st sub f claims :
  attribution_ok st → (next_send_id st < u64_max)%N →
  attribution_ok (record_send st (sub_session sub) sub f claims).1.
Proof.
  intros Hok Hlt. pose proof (fifo_of_record_send st (sub_session sub) sub f claims) as Hfifo.
  set (st' := (record_send _ _ _ _ _).1) in *.
  assert (next_send_id st' = next_send_id st + 1)%N as Hnext.
  { simpl. unfold wrapping_succ_u64. apply N.mod_small. unfold u64_max in Hlt. lia. }
  assert (∀ sub' id, sent_in st' sub' id ↔
    sent_in st sub' id ∨ (sub' = sub ∧ id = next_send_id st)) as Hsent.
  { intros sub' id. unfold sent_in. rewrite Hfifo. case_decide as Hs; [subst|naive_solver].
    rewrite fmap_app. simpl. set_solver. }
  destruct Hok. split.
  - intros sub' fifo. simpl. intros [[_ <-]|[_ ?]]%lookup_insert_Some; [|by eapply ok_fifo0].
    by intros [_ ?]%app_nil.
  - intros session wire sub'. simpl. intros [[[= <- <-] <-]|[_ ?]]%lookup_insert_Some; [done|].
    by apply ok_wire0.
  - intros sub'. rewrite Hfifo. case_decide as Hs; intros Hne; simpl.
    + subst. apply lookup_insert_eq.
    + rewrite lookup_insert_ne; [by apply ok_mapped0|]. intros E. destruct Hs. symmetry.
      apply wire_name_inj; [exact (f_equal fst E)|exact (f_equal snd E)].
  - intros sub'. split.
    + rewrite Hfifo. case_decide as Hs; [subst|apply ok_sent0]. rewrite fmap_app.
      apply StronglySorted_snoc; [apply ok_sent0|]. intros id Hid. by apply ok_sent0 in Hid.
    + intros id. rewrite Hnext. intros [Hid|[_ ->]]%Hsent; [|lia]. apply ok_sent0 in Hid. lia.
  - intros s1 s2 id [H1|[-> ->]]%Hsent [H2|[-> E]]%Hsent; try subst.
    + by eapply ok_owner0.
    + apply ok_sent0 in H1. lia.
    + apply ok_sent0 in H2. lia.
    + done.
Qed.
End send_lemmas.

Lemma remove_revision_absent revision fifo :
  existsb (λ s, (sn_send_id s =? revision)%N) fifo = false → remove_revision revision fifo = fifo.
Proof.
  induction fifo as [|s fifo IH]; simpl; [done|]. intros [-> ?]%orb_false_iff. by rewrite IH.
Qed.

Lemma remove_revision_sublist revision fifo : sublist (remove_revision revision fifo) fifo.
Proof.
  induction fifo as [|s fifo IH]; simpl; [constructor|].
  case_match; [by apply sublist_cons|by apply sublist_skip].
Qed.

Lemma discard_send_revision_put st sub revision :
  attribution_ok st →
  discard_send_revision st sub revision =
    set_inflight st (put_fifo (inflight st) sub (remove_revision revision (fifo_of st sub))).
Proof.
  intros Hok. unfold discard_send_revision. rewrite (inflight_fifo _ _ Hok).
  destruct (fifo_of st sub) as [|s fifo] eqn:E.
  { simpl. rewrite delete_id; [by destruct st|]. by rewrite (inflight_fifo _ _ Hok), E. }
  destruct (existsb _ _) eqn:Hex; [done|]. rewrite remove_revision_absent by done. simpl.
  rewrite insert_id; [by destruct st|]. by rewrite (inflight_fifo _ _ Hok), E.
Qed.

Lemma discard_send_revision_ok st sub revision :
  attribution_ok st → attribution_ok (discard_send_revision st sub revision).
Proof.
  intros Hok. rewrite discard_send_revision_put by done. apply put_fifo_ok; [done|].
  apply fmap_sublist, remove_revision_sublist.
Qed.

Lemma current_send_Some st sub h older current :
  current_send st sub h = Some (older, current) →
  fifo_of st sub = older ++ [current] ∧ sn_filter_hash current = h.
Proof.
  unfold current_send, fifo_of. destruct (inflight st !! sub) as [fifo|]; [|done]. simpl.
  destruct (last fifo) as [c|] eqn:Hl; [|done]. case_decide as Hh; [|done]. intros [= <- <-].
  split; [|done]. apply last_Some in Hl as [l ->]. by rewrite removelast_last.
Qed.

Lemma put_fifo_snoc m sub older current :
  <[sub := older ++ [current]]> m = put_fifo m sub (older ++ [current]).
Proof. by destruct older. Qed.

(** Rewriting the claims of the current snapshot. *)
Lemma rewrite_current_ok st sub h older current claims :
  attribution_ok st → current_send st sub h = Some (older, current) →
  attribution_ok (set_inflight st (<[sub := older ++ [set_claims current claims]]> (inflight st))).
Proof.
  intros Hok [Hf _]%current_send_Some. rewrite put_fifo_snoc. apply put_fifo_ok; [done|].
  rewrite Hf, !fmap_app. done.
Qed.

Lemma extend_current_send_claims_ok st sub h added :
  attribution_ok st → attribution_ok (extend_current_send_claims st sub h added).1.
Proof.
  intros Hok. unfold extend_current_send_claims.
  destruct (current_send st sub h) as [[older current]|] eqn:E; [|done].
  by eapply rewrite_current_ok.
Qed.

Lemma remove_current_send_claims_ok st sub h removed :
  attribution_ok st → attribution_ok (remove_current_send_claims st sub h removed).1.
Proof.
  intros Hok. unfold remove_current_send_claims.
  destruct (current_send st sub h) as [[older current]|] eqn:E; [|done].
  by eapply rewrite_current_ok.
Qed.

Lemma extend_current_request_claims_ok st sub h added :
  attribution_ok st → attribution_ok (extend_current_request_claims st sub h added).1.
Proof.
  intros Hok. unfold extend_current_request_claims.
  destruct (current_send st sub h) as [p|]; [|done].
  set (st1 := retain_added_live_request_claims _ _ _).
  assert (attribution_ok st1) as Hok1 by by apply set_live_claims_ok.
  pose proof (extend_current_send_claims_ok st1 sub h
    (match live_request_claims st !! sub with Some claims => added ∖ claims | None => added end) Hok1).
  by destruct (extend_current_send_claims st1 sub h _).
Qed.

Lemma fifo_of_fmap st (f : AttributionSnapshot → AttributionSnapshot) sub :
  fifo_of (set_inflight st ((λ fifo : list AttributionSnapshot, f <$> fifo) <$> inflight st)) sub =
  f <$> fifo_of st sub.
Proof. unfold fifo_of. simpl. rewrite lookup_fmap. by destruct (inflight st !! sub). Qed.

Lemma poison_targets_id T s : sn_send_id (poison_targets T s) = sn_send_id s.
Proof. unfold poison_targets. by case_decide. Qed.

(** A commit failure poisons the whole FIFO of the subscription the event came
    under, and nothing else. *)
Lemma fifo_of_poison st sub sub' :
  attribution_ok st →
  fifo_of (poison_event_commit_failure st (sub_session sub) (wire_sub_id_string sub)) sub' =
  if decide (sub' = sub)
  then (λ s, mkSnapshot (sn_send_id s) (sn_coverage_claims s) (sn_filter_hash s) (sn_floor s)
               (sn_until s) (poison (sn_coverage_authority s) EventCommitFailed)) <$> fifo_of st sub
  else fifo_of st sub'.
Proof.
  intros Hok. unfold poison_event_commit_failure.
  destruct (fifo_of st sub) as [|s0 rest] eqn:Hf.
  { assert (inflight st !! sub = None) as Hn by (by rewrite (inflight_fifo _ _ Hok), Hf).
    destruct (sub_id_by_wire st !! _) as [sub2|] eqn:Hw.
    - apply (ok_wire _ Hok) in Hw as [Hs Hm]. rewrite (wire_name_inj _ _ Hs Hm) in *.
      rewrite Hn. case_decide; [by subst|done].
    - case_decide; [by subst|done]. }
  rewrite (ok_mapped _ Hok) by (by rewrite Hf). rewrite (inflight_fifo _ _ Hok), Hf.
  rewrite fifo_of_fmap. case_decide as Hs.
  - subst. rewrite Hf. apply list_fmap_ext. intros i s Hi. unfold poison_targets.
    rewrite decide_True; [done|]. apply elem_of_list_to_set, list_elem_of_fmap.
    exists s. split; [done|]. by eapply list_elem_of_lookup_2.
  - rewrite <-(list_fmap_id (fifo_of st sub')) at 2. apply list_fmap_ext. intros i s Hi.
    unfold poison_targets. rewrite decide_False; [done|]. intros Hin%elem_of_list_to_set.
    apply Hs. apply (ok_owner _ Hok _ _ (sn_send_id s)).
    + apply list_elem_of_fmap. exists s. split; [done|]. by eapply list_elem_of_lookup_2.
    + unfold sent_in. by rewrite Hf.
Qed.

Lemma poison_event_commit_failure_ok st session wire :
  attribution_ok st → attribution_ok (poison_event_commit_failure st session wire).
Proof.
  intros Hok. unfold poison_event_commit_failure.
  destruct (sub_id_by_wire st !! _) as [sub|]; [|done].
  destruct (inflight st !! sub) as [fifo|]; [|done].
  set (T := list_to_set _).
  assert (∀ sub', sn_send_id <$> fifo_of (set_inflight st
    ((λ fifo : list AttributionSnapshot, poison_targets T <$> fifo) <$> inflight st)) sub' =
    sn_send_id <$> fifo_of st sub') as Hids.
  { intros sub'. rewrite fifo_of_fmap, <-list_fmap_compose. apply list_fmap_ext.
    intros i s _. apply poison_targets_id. }
  destruct Hok. split.
  - intros sub' fifo'. simpl. rewrite lookup_fmap. intros (f & Hf & ->)%fmap_Some.
    apply ok_fifo0 in Hf. by destruct f.
  - done.
  - intros sub' Hne. apply ok_mapped0. intros E. apply Hne. by rewrite fifo_of_fmap, E.
  - intros sub'. unfold sent_in. rewrite Hids. apply ok_sent0.
  - intros s1 s2 id. unfold sent_in. rewrite !Hids. apply ok_owner0.
Qed.

(** ** Forgetting *)

Lemma elem_of_stale st session sub :
  attribution_ok st →
  sub ∈ (list_to_set (filter (λ p, p.1.1 = session) (map_to_list (sub_id_by_wire st))).*2
           : gset SubId) →
  sub_session sub = session.
Proof.
  intros Hok Hin%elem_of_list_to_set. apply list_elem_of_fmap in Hin as ([[k w] s] & -> & Hin).
  apply list_elem_of_filter in Hin as [Hk Hin]. apply elem_of_map_to_list in Hin.
  simpl in *. subst. by destruct (ok_wire _ Hok _ _ _ Hin).
Qed.

Lemma stale_complete st sub :
  attribution_ok st → fifo_of st sub ≠ [] →
  sub ∈ (list_to_set (filter (λ p, p.1.1 = sub_session sub) (map_to_list (sub_id_by_wire st))).*2
           : gset SubId).
Proof.
  intros Hok Hne. apply elem_of_list_to_set, list_elem_of_fmap.
  exists (sub_session sub, wire_sub_id_string sub, sub). split; [done|].
  apply list_elem_of_filter. split; [done|]. by apply elem_of_map_to_list, (ok_mapped _ Hok).
Qed.

(** A dropped session loses exactly its own FIFOs. *)
Lemma fifo_of_clear_session st session sub :
  attribution_ok st →
  fifo_of (clear_session st session) sub =
  if decide (sub_session sub = session) then [] else fifo_of st sub.
Proof.
  intros Hok. unfold fifo_of at 1. unfold clear_session. cbn [inflight].
  set (stale := list_to_set _). case_decide as Hs.
  - assert (filter (λ p, p.1 ∉ stale) (inflight st) !! sub = None) as ->; [|done].
    apply map_lookup_filter_None. right. intros fifo Hf Hnot. apply Hnot. simpl. subst session.
    apply (stale_complete st); [done|]. unfold fifo_of. rewrite Hf. by eapply ok_fifo.
  - unfold fifo_of. f_equal. destruct (inflight st !! sub) as [fifo|] eqn:Hf.
    + apply map_lookup_filter_Some. split; [done|]. simpl. intros Hin. apply Hs.
      by apply (elem_of_stale st).
    + apply map_lookup_filter_None. by left.
Qed.

(** Dropping FIFOs together with their names keeps the invariant. *)
Lemma drop_names_ok st fifos wires :
  attribution_ok st → fifos ⊆ inflight st → wires ⊆ sub_id_by_wire st →
  (∀ sub fifo, fifos !! sub = Some fifo →
     is_Some (wires !! (sub_session sub, wire_sub_id_string sub))) →
  attribution_ok (mkAttribution (next_send_id st) fifos wires (live_request_claims st)).
Proof.
  intros Hok Hf Hw Hnamed. set (st' := mkAttribution _ _ _ _).
  assert (∀ sub, fifo_of st' sub = [] ∨ fifo_of st' sub = fifo_of st sub) as Hfifo.
  { intros sub. unfold fifo_of. simpl. destruct (fifos !! sub) as [fifo|] eqn:E; [|by left].
    right. by rewrite (lookup_weaken _ _ _ _ E Hf). }
  assert (∀ sub id, sent_in st' sub id → sent_in st sub id) as Hsent.
  { intros sub id. unfold sent_in. destruct (Hfifo sub) as [-> | ->]; [|done]. set_solver. }
  destruct Hok. split.
  - intros sub fifo Hs. by eapply ok_fifo0, lookup_weaken.
  - intros session wire sub Hs. by eapply ok_wire0, lookup_weaken.
  - intros sub Hne. simpl. unfold fifo_of in Hne. simpl in Hne.
    destruct (fifos !! sub) as [fifo|] eqn:E; [|done]. destruct (Hnamed _ _ E) as [sub' Hs].
    rewrite Hs. f_equal. pose proof (lookup_weaken _ _ _ _ Hs Hw) as Hs'.
    apply ok_wire0 in Hs' as [??]. symmetry. by apply wire_name_inj.
  - intros sub. split.
    + destruct (Hfifo sub) as [-> | ->]; [constructor|apply ok_sent0].
    + intros id Hid%Hsent. by eapply ok_sent0.
  - intros s1 s2 id H1%Hsent H2%Hsent. by eapply ok_owner0.
Qed.

Lemma clear_session_ok st session : attribution_ok st → attribution_ok (clear_session st session).
Proof.
  intros Hok. apply drop_names_ok; [done|apply map_filter_subseteq|apply map_filter_subseteq|].
  intros sub fifo [Hf Hstale]%map_lookup_filter_Some. exists sub.
  assert (fifo_of st sub ≠ []) as Hne by (unfold fifo_of; rewrite Hf; by eapply ok_fifo).
  apply map_lookup_filter_Some. split; [by apply (ok_mapped _ Hok)|]. simpl. intros <-.
  by apply Hstale, stale_complete.
Qed.

Lemma fifo_of_discard_sub st sub sub' :
  fifo_of (discard_sub st sub) sub' = if decide (sub' = sub) then [] else fifo_of st sub'.
Proof.
  unfold fifo_of. simpl. case_decide; [subst; by rewrite lookup_delete_eq|].
  by rewrite lookup_delete_ne.
Qed.

Lemma discard_sub_ok st sub : attribution_ok st → attribution_ok (discard_sub st sub).
Proof.
  intros Hok. apply drop_names_ok; [done|apply delete_subseteq|apply delete_subseteq|].
  intros sub' fifo [Hne Hf]%lookup_delete_Some. exists sub'.
  apply lookup_delete_Some. split.
  - intros E. apply Hne, wire_name_inj; [exact (f_equal fst E)|exact (f_equal snd E)].
  - apply (ok_mapped _ Hok). unfold fifo_of. rewrite Hf. by eapply ok_fifo.
Qed.

Lemma discard_wire_mapping_ok st sub :
  attribution_ok st → fifo_of st sub = [] →
  attribution_ok (discard_wire_mapping st (sub_session sub) sub).
Proof.
  intros Hok Hnone. apply drop_names_ok; [done|done|apply delete_subseteq|].
  intros sub' fifo Hf. exists sub'.
  assert (fifo_of st sub' ≠ []) as Hne by (unfold fifo_of; rewrite Hf; by eapply ok_fifo).
  apply lookup_delete_Some. split; [|by apply (ok_mapped _ Hok)].
  intros E. destruct Hne. rewrite <-Hnone. f_equal. symmetry.
  apply wire_name_inj; [exact (f_equal fst E)|exact (f_equal snd E)].
Qed.

(** ** What an EOSE proves *)

Definition floor_of (s : AttributionSnapshot) : N := default 0%N (sn_floor s).

(** The loop: every snapshot carries the attributed keys, no floor is above
    the one reported and no ceiling below. *)
Lemma fifo_fold_spec fifo keys fl un keys' fl' un' :
  foldl fifo_step (keys, fl, un) fifo = (keys', fl', un') →
  (fl ≤ fl')%N ∧ (un' ≤ un)%N ∧
  Forall (λ s, (floor_of s ≤ fl')%N ∧ ∀ u, sn_until s = Some u → (un' ≤ u)%N) fifo ∧
  match keys' with
  | None => keys = None ∧ fifo = []
  | Some ks' => ∀ k, k ∈ ks' ↔
      match keys with Some ks => k ∈ ks | None => fifo ≠ [] end ∧
      Forall (λ s, k ∈ sn_coverage_claims s) fifo
  end.
Proof.
  revert keys fl un. induction fifo as [|s fifo IH]; intros keys fl un.
  { intros [= <- <- <-]. split; [done|]. split; [done|]. split; [done|].
    destruct keys as [ks|]; [|done]. intros k. split; [done|]. by intros [? _]. }
  cbn [foldl fifo_step]. intros Hrun. destruct (IH _ _ _ Hrun) as (Hfl & Hun & Hall & Hkeys).
  split; [destruct (sn_floor s); lia|]. split; [destruct (sn_until s); lia|]. split.
  - constructor; [|done]. unfold floor_of. destruct (sn_floor s), (sn_until s); simpl in *;
      (split; [lia|intros ? [=]; try lia]).
  - destruct keys' as [ks'|]; [|by destruct Hkeys]. intros k. rewrite Hkeys, Forall_cons.
    destruct keys as [ks|]; [rewrite elem_of_intersection; tauto|]. naive_solver.
Qed.

Lemma fifo_authority_eligible fifo :
  fifo_authority fifo = Eligible ↔ Forall (λ s, sn_coverage_authority s = Eligible) fifo.
Proof.
  induction fifo as [|s fifo IH]; simpl; [done|]. rewrite Forall_cons.
  destruct (sn_coverage_authority s); [rewrite IH|]; naive_solver.
Qed.

(** What one EOSE under a live name completes: the front of the FIFO leaves,
    and an eligible completion claims exactly the keys every outstanding
    snapshot carries, over the instants every outstanding snapshot allows. *)
Record eose_completes (st : AttributionState) (sub : SubId) (now : N) (s : AttributionSnapshot)
    (rest : list AttributionSnapshot) (c : CompletedAttribution) : Prop := {
  ec_sub : ca_sub_id c = sub;
  ec_send : ca_send_id c = sn_send_id s;
  ec_hash : ca_filter_hash c = sn_filter_hash s;
  ec_authority : ca_coverage_authority c = Eligible ↔
    Forall (λ s, sn_coverage_authority s = Eligible) (s :: rest);
  ec_interval : ∃ interval,
    (ci_through interval ≤ now)%N ∧
    Forall (λ s, (floor_of s ≤ ci_from interval)%N ∧
                 ∀ u, sn_until s = Some u → (ci_through interval ≤ u)%N) (s :: rest) ∧
    ∀ claim, claim ∈ ca_claims c ↔
      cc_interval claim = interval ∧
      Forall (λ s, cc_key claim ∈ sn_coverage_claims s) (s :: rest)
}.

Lemma attribute_eose_spec st sub now :
  attribution_ok st →
  match fifo_of st sub with
  | [] => attribute_eose_detailed st (sub_session sub) (wire_sub_id_string sub) now = Some (st, None)
  | s :: rest =>
      ∃ c, attribute_eose_detailed st (sub_session sub) (wire_sub_id_string sub) now =
             Some (set_inflight st (put_fifo (inflight st) sub rest), Some c) ∧
           eose_completes st sub now s rest c
  end.
Proof.
  intros Hok. unfold attribute_eose_detailed. destruct (fifo_of st sub) as [|s rest] eqn:Hf.
  { destruct (sub_id_by_wire st !! _) as [sub'|] eqn:Hw; [|done].
    apply (ok_wire _ Hok) in Hw as [Hs Hm]. rewrite <-(wire_name_inj _ _ Hs Hm).
    by rewrite (inflight_fifo _ _ Hok), Hf. }
  rewrite (ok_mapped _ Hok) by (by rewrite Hf). rewrite (inflight_fifo _ _ Hok), Hf.
  destruct (foldl fifo_step _ _) as [[keys fl] un] eqn:Hfold.
  pose proof (fifo_fold_spec _ _ _ _ _ _ _ Hfold) as (_ & Hun & Hall & Hkeys).
  destruct keys as [ks|]; [|by destruct Hkeys].
  eexists. split; [done|]. split; try done.
  - apply fifo_authority_eligible.
  - exists (mkInterval fl (N.min now un)). split; [simpl; lia|]. split.
    + eapply Forall_impl; [exact Hall|]. simpl. intros x [? Hu]. split; [done|].
      intros u Hxu. specialize (Hu u Hxu). lia.
    + intros [k i]. simpl. rewrite list_elem_of_fmap. split.
      * intros ([k' i'] & [= -> ->] & Hin). apply list_elem_of_fmap in Hin as (k'' & [= -> ->] & Hk).
        split; [done|]. apply elem_of_ordered in Hk. by apply Hkeys.
      * intros [-> Hk]. exists (k, mkInterval fl (N.min now un)). split; [done|].
        apply list_elem_of_fmap. exists k. split; [done|]. apply elem_of_ordered, Hkeys. done.
Qed.

Lemma attribute_eose_ok st sub now st' o :
  attribution_ok st →
  attribute_eose_detailed st (sub_session sub) (wire_sub_id_string sub) now = Some (st', o) →
  attribution_ok st' ∧ fifo_of st' sub = tail (fifo_of st sub) ∧
  ∀ sub', sub' ≠ sub → fifo_of st' sub' = fifo_of st sub'.
Proof.
  intros Hok Hrun. pose proof (attribute_eose_spec st sub now Hok) as Hspec.
  destruct (fifo_of st sub) as [|s rest] eqn:Hf.
  - rewrite Hrun in Hspec. injection Hspec as -> ->. by rewrite Hf.
  - destruct Hspec as (c & Hrun' & _). rewrite Hrun in Hrun'. injection Hrun' as -> ->.
    split; [apply put_fifo_ok; [done|]; rewrite Hf; by apply sublist_cons|].
    split; [by rewrite fifo_of_put, decide_True|]. intros sub' Hne.
    by rewrite fifo_of_put, decide_False.
Qed.
