(* ===== verification/ReadSessions.v ===== *)
(** * Planned read sessions

    The session bookkeeping of [CoreState::apply_router_plan_delta]
    ([crates/nmp-engine/src/core/query.rs]): which sessions the current plan
    reads from, how many of them share a relay, and the per-relay and
    per-session caches kept only while they are planned.  A full plan rebuilds
    it; an incremental delta updates it from the sessions it touches.  What the
    caches hold is a parameter. *)

From S2P Require Import Prelude Grammar Coverage RouterTypes Plan.

Section sessions.
Context {Information EventCounts : Type}.

Record ReadSessions := mkReadSessions {
  planned_read_sessions : gset RelaySessionKey;
  planned_read_session_counts_by_relay : gmap RelayUrl nat;
  nip11_information : gmap RelayUrl Information;
  events_by_session_kind : gmap RelaySessionKey EventCounts
}.

Definition read_sessions_new : ReadSessions := mkReadSessions ∅ ∅ ∅ ∅.






(** ** The counts *)













End sessions.

Module ReadSessionsSample.

End ReadSessionsSample.

