(* ===== verification/Requests.v ===== *)
(** * The engine's requests

    The request half of [CoreState] ([crates/nmp-engine/src/core]): sending a
    REQ and learning its handoff ([observation.rs]), metadata of running
    requests, claim transfers, replacement of a request by its successor,
    abandonment and the one persistence door of completed requests
    ([query.rs]), the retry dispatch ([request_attempt.rs]), the wire effects
    ([request_effects.rs], [nmp-runtime/src/request_wire.rs]), and the EVENT and
    EOSE branches of [auth_transport.rs].

    The state is the fields of [CoreState] these functions own.  A store error
    is an argument ([stored : bool], whether the coverage transaction
    committed); a panic of an owner is [None].  Evidence refreshes and
    diagnostics are not modelled; the [returns] of a live request
    (coordinate reuse) are not either. *)

From S2P Require Import Prelude Grammar Coverage RouterTypes Router OwnerIndex Attempts Attribution.

(** ** State *)

Abbreviation RequestKey := (RelaySessionKey * SubId)%type (only parsing).

Record PendingRequestEvidence := mkPendingEvidence {
  pe_attempt_id : N;
  pe_request_revision : N;
  pe_session : RelaySessionKey;
  pe_sub_id : SubId;
  pe_filter : ConcreteFilter;
  pe_owner_demands : gset DemandKey
}.

Record ActiveRequestEvidence := mkActiveEvidence {
  ae_request_revision : N;
  ae_session : RelaySessionKey;
  ae_sub_id : SubId;
  ae_owner_demands : gset DemandKey;
  ae_handle : RelayHandle
}.

Inductive StoredEvents :=
  | Streaming (request_revision : N) (committed_interval : option CoverageInterval)
  | Finished (request_revision : N) (committed_interval : option CoverageInterval).
#[global] Instance StoredEvents_eq_dec : EqDecision StoredEvents.
Proof. solve_decision. Defined.

Record LiveWireRequest := mkLiveWire {
  lw_filter : ConcreteFilter;
  lw_handle : RelayHandle;
  lw_stored_events : StoredEvents
}.

Record PendingRequestClaimTransfer := mkTransfer {
  pt_session : RelaySessionKey;
  pt_sub_id : SubId;
  pt_request_revision : N;
  pt_filter_hash : N;
  pt_interval : CoverageInterval;
  pt_claims : gset CoverageKey;
  pt_due : N;
  pt_failures : N
}.

Record PlanExecutionMetadata := mkPlanMetadata {
  pm_filter : ConcreteFilter;
  pm_coverage_claims : gset CoverageKey;
  pm_owner_demands : gset DemandKey
}.

Record CoreRequests := mkCore {
  attempts : RequestAttempts;
  attribution : AttributionState;
  pending_request_evidence : gmap RequestKey (list PendingRequestEvidence);
  active_request_evidence : gmap N ActiveRequestEvidence;
  active_request_revisions_by_sub : gmap RequestKey (gset N);
  live_wire_requests : gmap RequestKey LiveWireRequest;
  pending_request_claim_transfers : gmap RequestKey PendingRequestClaimTransfer;
  plan_execution_metadata : gmap SubId PlanExecutionMetadata;
  request_replacements : OwnerIndexed RelaySessionKey SubId RequestReplacement;
  coverage : CoverageTable;
  clock : N
}.

Definition core_new (clock : N) : CoreRequests :=
  mkCore attempts_new attribution_new ∅ ∅ ∅ ∅ ∅ ∅ owner_indexed_new ∅ clock.

Section setters.
Variable c : CoreRequests.

Definition with_attempts v := mkCore v (attribution c) (pending_request_evidence c)
  (active_request_evidence c) (active_request_revisions_by_sub c) (live_wire_requests c)
  (pending_request_claim_transfers c) (plan_execution_metadata c) (request_replacements c)
  (coverage c) (clock c).
Definition with_attribution v := mkCore (attempts c) v (pending_request_evidence c)
  (active_request_evidence c) (active_request_revisions_by_sub c) (live_wire_requests c)
  (pending_request_claim_transfers c) (plan_execution_metadata c) (request_replacements c)
  (coverage c) (clock c).
Definition with_pending v := mkCore (attempts c) (attribution c) v
  (active_request_evidence c) (active_request_revisions_by_sub c) (live_wire_requests c)
  (pending_request_claim_transfers c) (plan_execution_metadata c) (request_replacements c)
  (coverage c) (clock c).
Definition with_active v by_sub := mkCore (attempts c) (attribution c) (pending_request_evidence c)
  v by_sub (live_wire_requests c)
  (pending_request_claim_transfers c) (plan_execution_metadata c) (request_replacements c)
  (coverage c) (clock c).
Definition with_live v := mkCore (attempts c) (attribution c) (pending_request_evidence c)
  (active_request_evidence c) (active_request_revisions_by_sub c) v
  (pending_request_claim_transfers c) (plan_execution_metadata c) (request_replacements c)
  (coverage c) (clock c).
Definition with_transfers v := mkCore (attempts c) (attribution c) (pending_request_evidence c)
  (active_request_evidence c) (active_request_revisions_by_sub c) (live_wire_requests c)
  v (plan_execution_metadata c) (request_replacements c) (coverage c) (clock c).
Definition with_metadata v := mkCore (attempts c) (attribution c) (pending_request_evidence c)
  (active_request_evidence c) (active_request_revisions_by_sub c) (live_wire_requests c)
  (pending_request_claim_transfers c) v (request_replacements c) (coverage c) (clock c).
Definition with_replacements v := mkCore (attempts c) (attribution c) (pending_request_evidence c)
  (active_request_evidence c) (active_request_revisions_by_sub c) (live_wire_requests c)
  (pending_request_claim_transfers c) (plan_execution_metadata c) v (coverage c) (clock c).
Definition with_coverage v := mkCore (attempts c) (attribution c) (pending_request_evidence c)
  (active_request_evidence c) (active_request_revisions_by_sub c) (live_wire_requests c)
  (pending_request_claim_transfers c) (plan_execution_metadata c) (request_replacements c)
  v (clock c).
Definition with_clock v := mkCore (attempts c) (attribution c) (pending_request_evidence c)
  (active_request_evidence c) (active_request_revisions_by_sub c) (live_wire_requests c)
  (pending_request_claim_transfers c) (plan_execution_metadata c) (request_replacements c)
  (coverage c) v.
End setters.

(** ** Sending *)

(** [RequestSend]. *)
Record RequestSend := mkSend {
  rs_session : RelaySessionKey;
  rs_sub_id : SubId;
  rs_filter : ConcreteFilter;
  rs_coverage_claims : gset CoverageKey;
  rs_owner_demands : gset DemandKey
}.

Section sending.
Context `{FilterHash}.

(** The attribution send and the minted attempt. *)
Definition record_observed_request_detailed (c : CoreRequests) (r : RequestSend)
    : option (CoreRequests * (N * N)) :=
  let '(attr, send) := record_send (attribution c) (rs_session r) (rs_sub_id r) (rs_filter r)
                         (rs_coverage_claims r) in
  '(atts, attempt_id) ← mint (attempts c)
    (mkAttemptState (rs_session r) (rs_sub_id r) (filter_hash (rs_filter r)) (rs_filter r)
       (rs_coverage_claims r) (rs_owner_demands r) (Some send) 0);
  let key := (rs_session r, rs_sub_id r) in
  let queue := default [] (pending_request_evidence c !! key) in
  let c := with_attribution c attr in
  let c := with_attempts c atts in
  let c := with_pending c
    (<[key := queue ++ [mkPendingEvidence attempt_id send (rs_session r) (rs_sub_id r)
                          (rs_filter r) (rs_owner_demands r)]]> (pending_request_evidence c)) in
  Some (c, (send, attempt_id)).

Definition set_pe_demands (p : PendingRequestEvidence) demands : PendingRequestEvidence :=
  mkPendingEvidence (pe_attempt_id p) (pe_request_revision p) (pe_session p) (pe_sub_id p)
    (pe_filter p) demands.
Definition set_ae_demands (a : ActiveRequestEvidence) demands : ActiveRequestEvidence :=
  mkActiveEvidence (ae_request_revision a) (ae_session a) (ae_sub_id a) demands (ae_handle a).

(** The current pending evidence of one key, if its filter has that hash, and
    the rest of its queue. *)
Definition current_pending (c : CoreRequests) (key : RequestKey) (hash : N)
    : option (list PendingRequestEvidence * PendingRequestEvidence) :=
  match pending_request_evidence c !! key with
  | None => None
  | Some queue =>
      match last queue with
      | Some p => if decide (filter_hash (pe_filter p) = hash) then Some (removelast queue, p) else None
      | None => None
      end
  end.

(** The revision still streaming under one key, if its filter has that hash. *)
Definition streaming_revision (c : CoreRequests) (key : RequestKey) (hash : N) : option N :=
  match live_wire_requests c !! key with
  | Some live =>
      if decide (filter_hash (lw_filter live) = hash) then
        match lw_stored_events live with Streaming revision _ => Some revision | Finished _ _ => None end
      else None
  | None => None
  end.

(** [extend_current_request_owner_demands] and [remove_current_request_owner_demands]
    differ in what they do to a demand set. *)
Definition update_current_request_owner_demands (f : gset DemandKey → gset DemandKey)
    (c : CoreRequests) (session : RelaySessionKey) (sub_id : SubId) (hash : N) : CoreRequests :=
  let key := (session, sub_id) in
  let c := match current_pending c key hash with
           | Some (older, p) =>
               with_pending c (<[key := older ++ [set_pe_demands p (f (pe_owner_demands p))]]>
                                 (pending_request_evidence c))
           | None => c
           end in
  match streaming_revision c key hash with
  | Some revision =>
      match active_request_evidence c !! revision with
      | Some a =>
          with_active c (<[revision := set_ae_demands a (f (ae_owner_demands a))]>
                           (active_request_evidence c)) (active_request_revisions_by_sub c)
      | None => c
      end
  | None => c
  end.

Definition extend_current_request_owner_demands (c : CoreRequests) session sub_id hash
    (owner_demands : gset DemandKey) : CoreRequests :=
  update_current_request_owner_demands (λ d, d ∪ owner_demands) c session sub_id hash.
Definition remove_current_request_owner_demands (c : CoreRequests) session sub_id hash
    (owner_demands : gset DemandKey) : CoreRequests :=
  update_current_request_owner_demands (λ d, d ∖ owner_demands) c session sub_id hash.
End sending.

(** ** Evidence of accepted requests *)

Definition take_active_request_evidence (c : CoreRequests) (revision : N)
    : CoreRequests * option ActiveRequestEvidence :=
  match active_request_evidence c !! revision with
  | None => (c, None)
  | Some request =>
      let key := (ae_session request, ae_sub_id request) in
      let by_sub := active_request_revisions_by_sub c in
      let by_sub :=
        match by_sub !! key with
        | None => by_sub
        | Some revisions =>
            let rest := revisions ∖ {[ revision ]} in
            if decide (rest = ∅) then delete key by_sub else <[key := rest]> by_sub
        end in
      (with_active c (delete revision (active_request_evidence c)) by_sub, Some request)
  end.

Definition finish_stored_events (c : CoreRequests) (request : ActiveRequestEvidence)
    : CoreRequests :=
  let key := (ae_session request, ae_sub_id request) in
  match live_wire_requests c !! key with
  | None => c
  | Some live =>
      match lw_stored_events live with
      | Streaming revision interval =>
          if (revision =? ae_request_revision request)%N then
            with_live c (<[key := mkLiveWire (lw_filter live) (lw_handle live)
                                    (Finished revision interval)]> (live_wire_requests c))
          else c
      | Finished _ _ => c
      end
  end.

(** [retire_request_evidence]: the stored-events phase ends, nothing is
    reported. *)
Definition retire_request_evidence (c : CoreRequests) (send : N)
    : CoreRequests * gset DemandKey :=
  match take_active_request_evidence c send with
  | (c, None) => (c, ∅)
  | (c, Some request) => (finish_stored_events c request, ae_owner_demands request)
  end.

(** What leaves the reducer.  [RequestSettled] names the observation and the
    relay that answered. *)
Inductive Effect :=
  | Wire (delta : WireDelta) (attempt_ids : gmap (RelaySessionKey * SubId * N) N)
  | Replay (session : RelaySessionKey) (reqs : list WireReq) (attempt_ids : list N)
  | RequestSettled (observation : N) (relay : RelayUrl).

(** [emit_request_settled]; [observations_for_demands] reads the branch owner. *)
Definition emit_request_settled (observations_for_demands : gset DemandKey → gset N)
    (c : CoreRequests) (send : N) : CoreRequests * list Effect * gset DemandKey :=
  match take_active_request_evidence c send with
  | (c, None) => (c, [], ∅)
  | (c, Some request) =>
      let observations := observations_for_demands (ae_owner_demands request) in
      (finish_stored_events c request,
       (λ o, RequestSettled o (s_relay (ae_session request))) <$> ordered observations,
       ae_owner_demands request)
  end.

Definition is_finished (s : StoredEvents) : bool :=
  match s with Finished _ _ => true | Streaming _ _ => false end.

Definition finished_stored_events (c : CoreRequests) : gset RequestKey :=
  dom (filter (λ p, is_finished (lw_stored_events p.2) = true) (live_wire_requests c)).
Definition placed_request_keys (c : CoreRequests) : gset RequestKey := dom (live_wire_requests c).
Definition awaiting_request_keys (c : CoreRequests) : gset RequestKey :=
  awaiting_evidence_keys (attempts c).

Definition close_requests_for_session (c : CoreRequests) (session : RelaySessionKey)
    (handle : RelayHandle) : CoreRequests :=
  let c := with_live c (filter (λ p, p.1.1 ≠ session ∨ lw_handle p.2 ≠ handle)
                          (live_wire_requests c)) in
  let revisions := (filter (λ p, ae_session p.2 = session ∧ ae_handle p.2 = handle)
                      (map_to_list (active_request_evidence c))).*1 in
  foldl (λ c revision, (take_active_request_evidence c revision).1) c revisions.

Definition close_requests_for_sub (c : CoreRequests) (session : RelaySessionKey)
    (handle : RelayHandle) (sub_id : SubId) : CoreRequests :=
  let key := (session, sub_id) in
  let c := match live_wire_requests c !! key with
           | Some request =>
               if decide (lw_handle request = handle)
               then with_live c (delete key (live_wire_requests c)) else c
           | None => c
           end in
  let revisions :=
    filter (λ revision, match active_request_evidence c !! revision with
                        | Some request => bool_decide (ae_handle request = handle)
                        | None => false
                        end = true)
      (ordered (default ∅ (active_request_revisions_by_sub c !! key))) in
  foldl (λ c revision, (take_active_request_evidence c revision).1) c revisions.

(** ** Claim transfers *)

Definition cancel_request_claim_transfers (c : CoreRequests) (session : RelaySessionKey)
    (sub_id : SubId) (replacement_filter : option N) : CoreRequests :=
  with_transfers c
    (filter (λ p, pt_session p.2 ≠ session ∨ pt_sub_id p.2 ≠ sub_id ∨
                  replacement_filter = Some (pt_filter_hash p.2))
       (pending_request_claim_transfers c)).

Section transfers.
Context `{FilterHash, TimestampArith}.

(** [record_request_coverage_batch]: one transaction, which may fail. *)
Definition record_request_coverage_batch (stored : bool) (c : CoreRequests)
    (batch : list (CoverageKey * RelaySessionKey * CoverageInterval)) : option CoreRequests :=
  if stored then Some (with_coverage c (record_coverage batch (coverage c))) else None.

(** The live request is still the finished generation the transfer speaks for. *)
Definition transfer_still_current (c : CoreRequests) (p : PendingRequestClaimTransfer) : bool :=
  match live_wire_requests c !! (pt_session p, pt_sub_id p) with
  | Some live =>
      (filter_hash (lw_filter live) =? pt_filter_hash p)%N &&
      match lw_stored_events live with
      | Finished revision _ => (revision =? pt_request_revision p)%N
      | Streaming _ _ => false
      end
  | None => false
  end.

Definition attempt_request_claim_transfer (stored : bool) (c : CoreRequests) (key : RequestKey)
    : CoreRequests * gset CoverageKey :=
  match pending_request_claim_transfers c !! key with
  | None => (c, ∅)
  | Some pending =>
      let c := with_transfers c (delete key (pending_request_claim_transfers c)) in
      let batch := (λ k, (k, pt_session pending, pt_interval pending)) <$>
                     ordered (pt_claims pending) in
      match record_request_coverage_batch stored c batch with
      | None =>
          let failures := u32_saturating_succ (pt_failures pending) in
          let due := ts_add (clock c) (unjittered_retry_delay_secs failures) in
          (with_transfers c
             (<[key := mkTransfer (pt_session pending) (pt_sub_id pending)
                         (pt_request_revision pending) (pt_filter_hash pending)
                         (pt_interval pending) (pt_claims pending) due failures]>
                (pending_request_claim_transfers c)), ∅)
      | Some c =>
          let c := if transfer_still_current c pending
                   then with_attribution c
                          (retain_added_live_request_claims (attribution c) (pt_sub_id pending)
                             (pt_claims pending))
                   else c in
          (c, pt_claims pending)
      end
  end.

Definition transfer_finished_request_claims (stored : bool) (c : CoreRequests)
    (session : RelaySessionKey) (sub_id : SubId) (hash : N) (had_previous_claims : bool)
    (added : gset CoverageKey) : CoreRequests * gset CoverageKey :=
  if negb had_previous_claims || bool_decide (added = ∅) then (c, ∅)
  else
    let key := (session, sub_id) in
    match live_wire_requests c !! key with
    | None => (c, ∅)
    | Some live =>
        if negb (filter_hash (lw_filter live) =? hash)%N ||
           bool_decide (is_Some (f_limit (lw_filter live))) then (c, ∅)
        else
          match lw_stored_events live with
          | Finished revision (Some interval) =>
              match pending_request_claim_transfers c !! key with
              | Some pending =>
                  if negb (pt_filter_hash pending =? hash)%N then (c, ∅)
                  else
                    let pending :=
                      mkTransfer (pt_session pending) (pt_sub_id pending) revision
                        (pt_filter_hash pending) interval (pt_claims pending ∪ added)
                        (pt_due pending) (pt_failures pending) in
                    let c := with_transfers c
                               (<[key := pending]> (pending_request_claim_transfers c)) in
                    if (pt_due pending <=? clock c)%N
                    then attempt_request_claim_transfer stored c key else (c, ∅)
              | None =>
                  let c := with_transfers c
                    (<[key := mkTransfer session sub_id revision hash interval added (clock c) 0]>
                       (pending_request_claim_transfers c)) in
                  attempt_request_claim_transfer stored c key
              end
          | _ => (c, ∅)
          end
    end.

(** [due.iter()] in map order; whether each transaction commits is an argument. *)
Definition retry_due_request_claim_transfers (stored : RequestKey → bool) (c : CoreRequests)
    (now : N) : CoreRequests :=
  let due := (filter (λ p, (pt_due p.2 ≤ now)%N)
                (map_to_list (pending_request_claim_transfers c))).*1 in
  foldl (λ c key, (attempt_request_claim_transfer (stored key) c key).1) c due.

Definition reconcile_op (c : CoreRequests) (deferred_closes : gset RequestKey)
    (session : RelaySessionKey) (op : WireOp) : CoreRequests :=
  match op with
  | Req sub_id filter => cancel_request_claim_transfers c session sub_id (Some (filter_hash filter))
  | Close sub_id =>
      if decide ((session, sub_id) ∈ deferred_closes) then c
      else cancel_request_claim_transfers c session sub_id None
  end.

Definition reconcile_request_claim_transfers_except (c : CoreRequests) (delta : WireDelta)
    (deferred_closes : gset RequestKey) : CoreRequests :=
  foldl (λ c '(session, ops), foldl (λ c op, reconcile_op c deferred_closes session op) c ops)
    c delta.
End transfers.

(** ** Abandonment *)

Definition drop_revisions (c : CoreRequests) (revisions : gset N) : gmap N ActiveRequestEvidence :=
  filter (λ p, p.1 ∉ revisions) (active_request_evidence c).

Definition abandon_sub (c : CoreRequests) (sub_id : SubId) : option CoreRequests :=
  atts ← retire_for_sub (attempts c) sub_id;
  let c := with_attempts c atts in
  let c := with_attribution c (discard_sub (attribution c) sub_id) in
  let session := sub_session sub_id in
  let c := cancel_request_claim_transfers c session sub_id None in
  let key := (session, sub_id) in
  let c := with_pending c (delete key (pending_request_evidence c)) in
  let c := match active_request_revisions_by_sub c !! key with
           | Some revisions =>
               with_active c (drop_revisions c revisions)
                 (delete key (active_request_revisions_by_sub c))
           | None => c
           end in
  Some (with_live c (delete key (live_wire_requests c))).

Definition abandon_session_subs (c : CoreRequests) (session : RelaySessionKey)
    : option CoreRequests :=
  atts ← retire_for_session (attempts c) session;
  let c := with_attempts c atts in
  let c := with_attribution c (clear_session (attribution c) session) in
  let c := with_pending c (filter (λ p, p.1.1 ≠ session) (pending_request_evidence c)) in
  let revisions : gset N :=
    ⋃ (filter (λ p, p.1.1 = session) (map_to_list (active_request_revisions_by_sub c))).*2 in
  let c := with_active c (drop_revisions c revisions)
             (filter (λ p, p.1.1 ≠ session) (active_request_revisions_by_sub c)) in
  Some (with_live c (filter (λ p, p.1.1 ≠ session) (live_wire_requests c))).

Definition wire_request_is_live (c : CoreRequests) (session : RelaySessionKey) (sub_id : SubId)
    (filter : ConcreteFilter) (handle : RelayHandle) : bool :=
  match live_wire_requests c !! (session, sub_id) with
  | Some live => bool_decide (lw_filter live = filter ∧ lw_handle live = handle)
  | None => false
  end.

Definition session_has_live_generation (c : CoreRequests) (session : RelaySessionKey)
    (handle : RelayHandle) : bool :=
  existsb (λ p, bool_decide (p.1.1 = session ∧ lw_handle p.2 = handle))
    (map_to_list (live_wire_requests c)).

(** ** Wire effects *)

Section effects.
Context `{FilterHash}.

(** The newest pending attempt of one key with that filter hash. *)
Definition find_attempt (c : CoreRequests) (key : RequestKey) (hash : N) : option N :=
  queue ← pending_request_evidence c !! key;
  request ← find (λ p, (filter_hash (pe_filter p) =? hash)%N) (rev queue);
  Some (pe_attempt_id request).

(** One operation of a delta; a REQ without a pending attempt is a panic. *)
Definition attempted_op (c : CoreRequests) (session : RelaySessionKey)
    (ids : gmap (RelaySessionKey * SubId * N) N) (op : WireOp)
    : option (gmap (RelaySessionKey * SubId * N) N) :=
  match op with
  | Close _ => Some ids
  | Req sub_id filter =>
      attempt ← find_attempt c (session, sub_id) (filter_hash filter);
      Some (<[(session, sub_id, filter_hash filter) := attempt]> ids)
  end.

Definition attempted_wire_delta (c : CoreRequests) (delta : WireDelta) : option Effect :=
  ids ← foldl (λ o p, ids ← o;
                      foldl (λ o op, ids ← o; attempted_op c p.1 ids op) (Some ids) p.2)
          (Some ∅) delta;
  Some (Wire delta ids).

Definition attempted_replay (c : CoreRequests) (session : RelaySessionKey) (reqs : list WireReq)
    : option Effect :=
  ids ← mapM (λ r, find_attempt c (session, r_sub_id r) (filter_hash (r_filter r))) reqs;
  Some (Replay session reqs ids).
End effects.

(** ** Plan metadata and replacements *)

Definition install_plan_execution_metadata (c : CoreRequests) (sub_id : SubId)
    (filter : ConcreteFilter) (coverage_claims : gset CoverageKey)
    (owner_demands : gset DemandKey) : CoreRequests :=
  with_metadata c (<[sub_id := mkPlanMetadata filter coverage_claims owner_demands]>
                     (plan_execution_metadata c)).

Definition retire_plan_execution_metadata (c : CoreRequests) (sub_id : SubId) : CoreRequests :=
  let c := with_attribution c (release_live_request_claims (attribution c) sub_id) in
  with_metadata c (delete sub_id (plan_execution_metadata c)).

(** [IndexedChild::owner_key] of a replacement. *)
Definition insert_request_replacement (c : CoreRequests) (r : RequestReplacement)
    : option CoreRequests :=
  x ← owner_indexed_insert rr_session (request_replacements c) (rr_next_sub_id r) r;
  Some (with_replacements c x).

Definition take_request_replacement (c : CoreRequests) (successor : SubId)
    : option (CoreRequests * option RequestReplacement) :=
  '(r, x) ← owner_indexed_take rr_session (request_replacements c) successor;
  Some (with_replacements c x, r).

Section replacements.
Context `{FilterHash}.

Definition cancel_replacement_successor_work (c : CoreRequests) (successor : SubId)
    : option CoreRequests :=
  c ← abandon_sub c successor;
  let c := retire_plan_execution_metadata c successor in
  Some (cancel_request_claim_transfers c (sub_session successor) successor None).

Definition retire_replacement_predecessor (c : CoreRequests) (r : RequestReplacement)
    : option (CoreRequests * list Effect) :=
  c ← abandon_sub c (rr_prior_sub_id r);
  let c := retire_plan_execution_metadata c (rr_prior_sub_id r) in
  let c := cancel_request_claim_transfers c (rr_session r) (rr_prior_sub_id r) None in
  e ← attempted_wire_delta c [(rr_session r, [Close (rr_prior_sub_id r)])];
  Some (c, [e]).

Definition complete_request_replacement (c : CoreRequests) (successor : SubId)
    : option (CoreRequests * list Effect) :=
  '(c, r) ← take_request_replacement c successor;
  match r with
  | None => Some (c, [])
  | Some r => retire_replacement_predecessor c r
  end.

Definition cancel_request_replacement (c : CoreRequests) (successor : SubId)
    : option (CoreRequests * list Effect) :=
  '(c, r) ← take_request_replacement c successor;
  match r with
  | None => Some (c, [])
  | Some r => c ← cancel_replacement_successor_work c successor; retire_replacement_predecessor c r
  end.

(** One transition of a dropped session. *)
Definition abandon_replacement (c : CoreRequests) (session : RelaySessionKey)
    (r : RequestReplacement) : CoreRequests :=
  let c := retire_plan_execution_metadata c (rr_prior_sub_id r) in
  cancel_request_claim_transfers c session (rr_prior_sub_id r) None.

Definition abandon_request_replacements_for_session (c : CoreRequests)
    (session : RelaySessionKey) : option CoreRequests :=
  '(taken, x) ← owner_indexed_take_owner (request_replacements c) session;
  Some (foldl (λ c r, abandon_replacement c session r.2) (with_replacements c x) taken).
End replacements.

(** ** Handoff *)

Section handoff.
Context `{FilterHash, TimestampArith}.

(** [queue.iter().position(..)] and [queue.remove(position)]. *)
Fixpoint take_pending (attempt_id : N) (queue : list PendingRequestEvidence)
    : option (PendingRequestEvidence * list PendingRequestEvidence) :=
  match queue with
  | [] => None
  | p :: queue =>
      if (pe_attempt_id p =? attempt_id)%N then Some (p, queue)
      else match take_pending attempt_id queue with
           | Some (q, rest) => Some (q, p :: rest)
           | None => None
           end
  end.

Definition accept_handoff (c : CoreRequests) (attempt : RequestAttemptState)
    (request : PendingRequestEvidence) (handle : RelayHandle)
    : option (CoreRequests * list Effect) :=
  atts ← clear_retry_for_attempt (attempts c) attempt;
  let c := with_attempts c atts in
  let key := (pe_session request, pe_sub_id request) in
  let revision := pe_request_revision request in
  let c := with_live c
    (<[key := mkLiveWire (pe_filter request) handle (Streaming revision None)]>
       (live_wire_requests c)) in
  let c := with_active c
    (<[revision := mkActiveEvidence revision (pe_session request) (pe_sub_id request)
                     (pe_owner_demands request) handle]> (active_request_evidence c))
    (<[key := {[ revision ]} ∪ default ∅ (active_request_revisions_by_sub c !! key)]>
       (active_request_revisions_by_sub c)) in
  complete_request_replacement c (ra_sub_id attempt).

Definition refuse_handoff (c : CoreRequests) (key : RequestKey) (attempt : RequestAttemptState)
    (request : PendingRequestEvidence) : option CoreRequests :=
  let c := with_attribution c
    (discard_send_revision (attribution c) (pe_sub_id request) (pe_request_revision request)) in
  let c := if negb (has_inflight (attribution c) (pe_sub_id request)) &&
              negb (bool_decide (is_Some (live_wire_requests c !! key)))
           then with_attribution c
                  (discard_wire_mapping (attribution c) (pe_session request) (pe_sub_id request))
           else c in
  atts ← schedule_retry (attempts c) attempt (clock c);
  Some (with_attempts c atts).

Definition consume_wire_request_handoff (c : CoreRequests) (outcome : RequestHandoffOutcome)
    : option (CoreRequests * list Effect * gset DemandKey) :=
  '(atts, taken) ← take_attempt (attempts c) outcome;
  let c := with_attempts c atts in
  match taken with
  | None => Some (c, [], ∅)
  | Some attempt =>
      let key := (ra_session attempt, ra_sub_id attempt) in
      match pending_request_evidence c !! key with
      | None => Some (c, [], ∅)
      | Some queue =>
          match take_pending (outcome_attempt_id outcome) queue with
          | None => Some (c, [], ∅)
          | Some (request, queue) =>
              let c := with_pending c
                (match queue with
                 | [] => delete key (pending_request_evidence c)
                 | _ => <[key := queue]> (pending_request_evidence c)
                 end) in
              let demands := pe_owner_demands request in
              match outcome with
              | Accepted _ handle =>
                  '(c, effects) ← accept_handoff c attempt request handle;
                  Some (c, effects, demands)
              | Refused _ _ => c ← refuse_handoff c key attempt request; Some (c, [], demands)
              end
          end
      end
  end.

(** ** Metadata of running requests *)

Record RequestMetadataUpdate := mkUpdate {
  mu_session : RelaySessionKey;
  mu_sub_id : SubId;
  mu_filter_hash : N;
  mu_added_coverage_claims : gset CoverageKey;
  mu_added_owner_demands : gset DemandKey
}.

Record RequestMetadataRemoval := mkRemoval {
  mr_session : RelaySessionKey;
  mr_sub_id : SubId;
  mr_filter_hash : N;
  mr_removed_coverage_claims : gset CoverageKey;
  mr_removed_owner_demands : gset DemandKey
}.

Definition extend_plan_execution_metadata (c : CoreRequests) (u : RequestMetadataUpdate)
    : CoreRequests :=
  match plan_execution_metadata c !! mu_sub_id u with
  | None => c
  | Some metadata =>
      if (filter_hash (pm_filter metadata) =? mu_filter_hash u)%N then
        with_metadata c
          (<[mu_sub_id u := mkPlanMetadata (pm_filter metadata)
                              (pm_coverage_claims metadata ∪ mu_added_coverage_claims u)
                              (pm_owner_demands metadata ∪ mu_added_owner_demands u)]>
             (plan_execution_metadata c))
      else c
  end.

Definition apply_request_metadata_update (stored : bool) (c : CoreRequests)
    (u : RequestMetadataUpdate) : CoreRequests * gset CoverageKey :=
  let c := extend_plan_execution_metadata c u in
  let c := extend_current_request_owner_demands c (mu_session u) (mu_sub_id u) (mu_filter_hash u)
             (mu_added_owner_demands u) in
  let '(attr, (had_previous_claims, added, extended_current)) :=
    extend_current_request_claims (attribution c) (mu_sub_id u) (mu_filter_hash u)
      (mu_added_coverage_claims u) in
  let c := with_attribution c attr in
  if extended_current then (c, ∅)
  else transfer_finished_request_claims stored c (mu_session u) (mu_sub_id u) (mu_filter_hash u)
         had_previous_claims added.

(** Each update comes with whether its coverage transaction commits. *)
Definition apply_request_metadata_updates (c : CoreRequests)
    (updates : list (RequestMetadataUpdate * bool)) : CoreRequests * gset CoverageKey :=
  foldl (λ acc u, let '(c, transferred) := acc in
                  let '(c, t) := apply_request_metadata_update u.2 c u.1 in (c, transferred ∪ t))
    (c, ∅) updates.

(** [physical_request_claims] is the router's. *)
Definition apply_request_metadata_removal
    (physical_request_claims : RelaySessionKey → SubId → option (gset CoverageKey))
    (c : CoreRequests) (r : RequestMetadataRemoval) : CoreRequests :=
  let detachable :=
    match physical_request_claims (mr_session r) (mr_sub_id r) with
    | Some physical => mr_removed_coverage_claims r ∖ physical
    | None => mr_removed_coverage_claims r
    end in
  let c := match plan_execution_metadata c !! mr_sub_id r with
           | Some metadata =>
               if (filter_hash (pm_filter metadata) =? mr_filter_hash r)%N then
                 with_metadata c
                   (<[mr_sub_id r := mkPlanMetadata (pm_filter metadata)
                                       (pm_coverage_claims metadata ∖ mr_removed_coverage_claims r)
                                       (pm_owner_demands metadata ∖ mr_removed_owner_demands r)]>
                      (plan_execution_metadata c))
               else c
           | None => c
           end in
  let c := remove_current_request_owner_demands c (mr_session r) (mr_sub_id r) (mr_filter_hash r)
             (mr_removed_owner_demands r) in
  let c := with_attribution c
             (release_live_request_claims_delta (attribution c) (mr_sub_id r) detachable) in
  with_attribution c
    (remove_current_send_claims (attribution c) (mr_sub_id r) (mr_filter_hash r) detachable).1.

Definition apply_request_metadata_removals physical_request_claims (c : CoreRequests)
    (removals : list RequestMetadataRemoval) : CoreRequests :=
  foldl (apply_request_metadata_removal physical_request_claims) c removals.

(** ** Completion *)

(** The pending transfer of this request is covered by its own later EOSE. *)
Definition transfer_superseded (p : PendingRequestClaimTransfer) (revision hash : N)
    (completed : list CompletedCoverageClaim) : bool :=
  (pt_filter_hash p =? hash)%N && (pt_request_revision p <? revision)%N &&
  forallb (λ key, existsb (λ claim, bool_decide (cc_key claim = key) &&
                      (ci_from (cc_interval claim) <=? ci_from (pt_interval p))%N &&
                      (ci_through (pt_interval p) <=? ci_through (cc_interval claim))%N) completed)
    (elements (pt_claims p)).

Definition live_is_streaming (c : CoreRequests) (key : RequestKey) (hash revision : N) : bool :=
  match live_wire_requests c !! key with
  | Some live =>
      (filter_hash (lw_filter live) =? hash)%N &&
      match lw_stored_events live with
      | Streaming live_revision _ => (live_revision =? revision)%N
      | Finished _ _ => false
      end
  | None => false
  end.

Definition retire_request_claim_transfer_covered_by_completion (c : CoreRequests)
    (session : RelaySessionKey) (sub_id : SubId) (revision hash : N)
    (completed : list CompletedCoverageClaim) : CoreRequests :=
  let key := (session, sub_id) in
  match pending_request_claim_transfers c !! key with
  | None => c
  | Some pending =>
      if transfer_superseded pending revision hash completed then
        let c := with_transfers c (delete key (pending_request_claim_transfers c)) in
        if live_is_streaming c key hash revision
        then with_attribution c (retain_added_live_request_claims (attribution c) sub_id
                                   (pt_claims pending))
        else c
      else c
  end.

(** The interval a completed generation proved is kept on its live request. *)
Definition note_committed_interval (c : CoreRequests) (key : RequestKey) (revision : N)
    (interval : option CoverageInterval) : CoreRequests :=
  match live_wire_requests c !! key with
  | Some live =>
      match lw_stored_events live with
      | Streaming live_revision _ =>
          if (live_revision =? revision)%N then
            with_live c (<[key := mkLiveWire (lw_filter live) (lw_handle live)
                                    (Streaming live_revision interval)]> (live_wire_requests c))
          else c
      | Finished _ _ => c
      end
  | None => c
  end.

Definition persist_attributed_completion (stored : bool) (c : CoreRequests)
    (completed : CompletedAttribution) : CoreRequests * option (gset CoverageKey) :=
  let sub_id := ca_sub_id completed in
  let session := sub_session sub_id in
  match into_eligible_claims completed with
  | None => (c, None)
  | Some [] => (c, Some ∅)
  | Some claims =>
      let batch := (λ claim, (cc_key claim, session, cc_interval claim)) <$> claims in
      match record_request_coverage_batch stored c batch with
      | None => (c, None)
      | Some c =>
          let c := retire_request_claim_transfer_covered_by_completion c session sub_id
                     (ca_send_id completed) (ca_filter_hash completed) claims in
          let c := note_committed_interval c (session, sub_id) (ca_send_id completed)
                     (eligible_generation_interval completed) in
          (c, Some (list_to_set (cc_key <$> claims)))
      end
  end.

(** The EOSE branch of [on_relay_frame]. *)
Definition on_eose (observations_for_demands : gset DemandKey → gset N) (stored : bool)
    (c : CoreRequests) (session : RelaySessionKey) (wire_id : string)
    : option (CoreRequests * list Effect) :=
  '(attr, completed) ← attribute_eose_detailed (attribution c) session wire_id (clock c);
  let c := with_attribution c attr in
  match completed with
  | None => Some (c, [])
  | Some completed =>
      match persist_attributed_completion stored c completed with
      | (c, Some _) =>
          let '(c, effects, _) := emit_request_settled observations_for_demands c
                                    (ca_send_id completed) in
          Some (c, effects)
      | (c, None) => Some ((retire_request_evidence c (ca_send_id completed)).1, [])
      end
  end.

(** The [EventCommit] error of [ingest_relay_observations], for the
    attributions of the whole batch. *)
Definition on_event_commit_failure (c : CoreRequests)
    (attributions : list (RelaySessionKey * string)) : CoreRequests :=
  with_attribution c
    (foldl (λ attr p, poison_event_commit_failure attr p.1 p.2) (attribution c) attributions).
End handoff.

(** ** Dispatch *)

(** The derived order of [RequestReplacement]. *)
#[global] Instance RequestReplacement_ord : Ord RequestReplacement :=
  ord_via (λ r, (rr_session r, (rr_prior_sub_id r, rr_next_sub_id r))).

Section dispatch.
Context `{FilterHash, TimestampArith}.

Definition request_retry_is_current (c : CoreRequests) (attempt : RequestAttemptState) : bool :=
  match plan_execution_metadata c !! ra_sub_id attempt with
  | Some metadata => bool_decide (pm_filter metadata = ra_filter attempt)
  | None => false
  end.

Definition retry_request_attempt (acc : CoreRequests * list Effect) (key : RequestKey)
    : option (CoreRequests * list Effect) :=
  let '(c, effects) := acc in
  '(atts, pending) ← take_retry (attempts c) key;
  let c := with_attempts c atts in
  match pending with
  | None => Some (c, effects)
  | Some pending =>
      let a := pr_attempt pending in
      if request_retry_is_current c a then
        '(c, (_, attempt_id)) ← record_observed_request_detailed c
          (mkSend (ra_session a) (ra_sub_id a) (ra_filter a) (ra_coverage_claims a)
             (ra_owner_demands a));
        atts ← set_retry_failures (attempts c) attempt_id (pr_failures pending);
        let c := with_attempts c atts in
        e ← attempted_wire_delta c [(ra_session a, [Req (ra_sub_id a) (ra_filter a)])];
        Some (c, effects ++ [e])
      else Some (c, effects)
  end.

Definition retry_due_request_attempts (c : CoreRequests) (now : N)
    : option (CoreRequests * list Effect) :=
  foldl (λ o key, acc ← o; retry_request_attempt acc key) (Some (c, []))
    (due_retry_keys (attempts c) now).

(** [request_claims] and [request_demands] are the router's. *)
Variable request_claims : RelaySessionKey → SubId → option (gset CoverageKey).
Variable request_demands : RelaySessionKey → SubId → option (gset DemandKey).

(** One replacement of a plan delta, chained onto the one its predecessor is
    still waiting in. *)
Definition install_replacement (c : CoreRequests) (r : RequestReplacement)
    : option CoreRequests :=
  '(c, inherited) ← take_request_replacement c (rr_prior_sub_id r);
  match inherited with
  | None => insert_request_replacement c r
  | Some i =>
      c ← cancel_replacement_successor_work c (rr_prior_sub_id r);
      insert_request_replacement c
        (mkReplacement (rr_session r) (rr_prior_sub_id i) (rr_next_sub_id r))
  end.

(** The first walk over the delta: plan metadata and retained claims. *)
Definition install_op (transition_priors : gset RequestKey) (session : RelaySessionKey)
    (c : CoreRequests) (op : WireOp) : CoreRequests :=
  match op with
  | Req sub_id filter =>
      let claims := default ∅ (request_claims session sub_id) in
      let demands := default ∅ (request_demands session sub_id) in
      let c := install_plan_execution_metadata c sub_id filter claims demands in
      with_attribution c (retain_live_request_claims (attribution c) sub_id claims)
  | Close sub_id =>
      if decide ((session, sub_id) ∈ transition_priors) then c
      else retire_plan_execution_metadata c sub_id
  end.

(** The second walk: requests are recorded, closes abandon their request; the
    operations kept go to the wire. *)
Definition send_op (transition_priors : gset RequestKey) (session : RelaySessionKey)
    (acc : CoreRequests * list Effect * list WireOp) (op : WireOp)
    : option (CoreRequests * list Effect * list WireOp) :=
  let '(c, effects, kept) := acc in
  match op with
  | Req sub_id filter =>
      '(c, _) ← record_observed_request_detailed c
        (mkSend session sub_id filter (default ∅ (request_claims session sub_id))
           (default ∅ (request_demands session sub_id)));
      Some (c, effects, kept ++ [op])
  | Close sub_id =>
      if decide ((session, sub_id) ∈ transition_priors) then Some (c, effects, kept)
      else if owner_indexed_contains (request_replacements c) sub_id then
        '(c, closed) ← cancel_request_replacement c sub_id;
        Some (c, effects ++ closed, kept)
      else c ← abandon_sub c sub_id; Some (c, effects, kept ++ [op])
  end.

Definition send_session (transition_priors : gset RequestKey)
    (acc : CoreRequests * list Effect * WireDelta) (p : RelaySessionKey * list WireOp)
    : option (CoreRequests * list Effect * WireDelta) :=
  let '(c, effects, kept) := acc in
  '(c, effects, ops) ←
    foldl (λ o op, acc ← o; send_op transition_priors p.1 acc op) (Some (c, effects, [])) p.2;
  Some (c, effects, match ops with [] => kept | _ => kept ++ [(p.1, ops)] end).

(** The request half of [apply_router_plan_delta]. *)
Definition apply_router_plan_delta (c : CoreRequests) (replacements : gset RequestReplacement)
    (delta : WireDelta) : option (CoreRequests * list Effect) :=
  c ← foldl (λ o r, c ← o; install_replacement c r) (Some c) (ordered replacements);
  let priors : gset RequestKey := set_map (λ r, (rr_session r, rr_prior_sub_id r)) replacements in
  let c := reconcile_request_claim_transfers_except c delta priors in
  let c := foldl (λ c p, foldl (install_op priors p.1) c p.2) c delta in
  '(c, effects, kept) ← foldl (λ o p, acc ← o; send_session priors acc p) (Some (c, [], [])) delta;
  match kept with
  | [] => Some (c, effects)
  | _ => e ← attempted_wire_delta c kept; Some (c, effects ++ [e])
  end.

(** One planned request of a replay: its metadata, and its send. *)
Definition replay_request (c : CoreRequests) (session : RelaySessionKey) (r : WireReq)
    : option CoreRequests :=
  '(c, _) ← record_observed_request_detailed c
    (mkSend session (r_sub_id r) (r_filter r) (r_coverage_claims r) (r_owner_demands r));
  Some c.

Definition install_request (c : CoreRequests) (r : WireReq) : CoreRequests :=
  install_plan_execution_metadata c (r_sub_id r) (r_filter r) (r_coverage_claims r)
    (r_owner_demands r).

(** The replay of [on_relay_connected]: requests already accepted on this exact
    handle are not sent again. *)
Definition connect_request (session : RelaySessionKey) (handle : RelayHandle)
    (acc : CoreRequests * list WireReq) (r : WireReq) : option (CoreRequests * list WireReq) :=
  let '(c, plain) := acc in
  let c := install_request c r in
  if wire_request_is_live c session (r_sub_id r) (r_filter r) handle then Some (c, plain)
  else c ← replay_request c session r; Some (c, plain ++ [r]).

Definition replay_on_connected (c : CoreRequests) (session : RelaySessionKey)
    (handle : RelayHandle) (same_wire_generation : bool) (planned : option (list WireReq))
    : option (CoreRequests * list Effect) :=
  c ← (if same_wire_generation then Some c else abandon_session_subs c session);
  match planned with
  | None => Some (c, [])
  | Some reqs =>
      '(c, plain) ← foldl (λ o r, acc ← o; connect_request session handle acc r)
                      (Some (c, [])) reqs;
      e ← attempted_replay c session plain;
      Some (c, [e])
  end.

(** The replay of [finish_auth_ok]: every planned request, on the connection
    that was already open. *)
Definition replay_on_auth_ok (c : CoreRequests) (session : RelaySessionKey)
    (planned : option (list WireReq)) : option (CoreRequests * list Effect) :=
  match planned with
  | None => Some (c, [])
  | Some reqs =>
      c ← foldl (λ o r, c ← o; replay_request (install_request c r) session r) (Some c) reqs;
      match reqs with
      | [] => Some (c, [])
      | _ => e ← attempted_replay c session reqs; Some (c, [e])
      end
  end.
End dispatch.

(** ** Executing wire effects

    [apply_wire_delta] and [apply_replay] of the runtime; the pool is a
    parameter. *)

Record Pool := mkPool {
  ensure_session : RelaySessionKey → option RelayHandle;
  live_session_handle : RelaySessionKey → option RelayHandle;
  (** Whether the worker admits one REQ frame. *)
  send_req : RelayHandle → SubId → ConcreteFilter → bool
}.

Section runtime.
Context `{FilterHash} (pool : Pool).

Definition handoff_of (handle : option RelayHandle) (attempt_id : N) (sub_id : SubId)
    (filter : ConcreteFilter) : RequestHandoffOutcome :=
  match handle with
  | Some handle =>
      if send_req pool handle sub_id filter then Accepted attempt_id handle
      else Refused attempt_id (WorkerAdmissionRefused handle)
  | None => Refused attempt_id SessionUnavailable
  end.

Definition is_req (op : WireOp) : bool := match op with Req _ _ => true | Close _ => false end.

(** [delta.attempt_id(..)] indexes the map: a missing entry is a panic. *)
Definition apply_wire_op (ids : gmap (RelaySessionKey * SubId * N) N) (session : RelaySessionKey)
    (handle : option RelayHandle) (op : WireOp) : option (list RequestHandoffOutcome) :=
  match op with
  | Req sub_id filter =>
      id ← ids !! (session, sub_id, filter_hash filter);
      Some [handoff_of handle id sub_id filter]
  | Close _ => Some []
  end.

Definition apply_wire_delta (delta : WireDelta) (ids : gmap (RelaySessionKey * SubId * N) N)
    : option (list RequestHandoffOutcome) :=
  outcomes ← mapM (λ p,
    let '(session, ops) := p in
    let handle := if existsb is_req ops then ensure_session pool session
                  else live_session_handle pool session in
    os ← mapM (apply_wire_op ids session handle) ops;
    Some (concat os)) delta;
  Some (concat outcomes).

Definition apply_replay (session : RelaySessionKey) (reqs : list WireReq) (ids : list N)
    : list RequestHandoffOutcome :=
  match ensure_session pool session with
  | None => (λ id, Refused id SessionUnavailable) <$> ids
  | Some handle =>
      zip_with (λ r id, handoff_of (Some handle) id (r_sub_id r) (r_filter r)) reqs ids
  end.
End runtime.
