(* ===== verification/RequestInvariant.v ===== *)
(** * The invariant of the engine's requests

    What every operation of [Requests] keeps: the owners it is made of are
    consistent, evidence and its index mirror each other, every pending send
    has its live attempt, and everything is filed under the session its own
    [SubId] names.  Under it no operation panics. *)

From S2P Require Import Prelude Grammar Coverage RouterTypes Router OwnerIndex Attempts Attribution Requests.

(** The key a subscription's requests are filed under. *)
Definition home_key (sub : SubId) : RelaySessionKey * SubId := (sub_session sub, sub).

Definition evidence_key (a : ActiveRequestEvidence) : RelaySessionKey * SubId :=
  (ae_session a, ae_sub_id a).

(** One pending queue: not empty, under its own key, each send with the
    attempt that carries it. *)
Record pending_queue_ok (atts : RequestAttempts) (key : RelaySessionKey * SubId)
    (queue : list PendingRequestEvidence) : Prop := mkPendingQueueOk {
  q_some : queue ≠ [];
  q_ids : NoDup (pe_attempt_id <$> queue);
  q_key p : p ∈ queue → (pe_session p, pe_sub_id p) = key ∧ key = home_key (pe_sub_id p);
  q_attempt p : p ∈ queue →
    ∃ a, at_attempts atts !! pe_attempt_id p = Some a ∧ (ra_session a, ra_sub_id a) = key
}.

(** The key a revision is known under, by its pending send or its evidence. *)
Definition revision_key (c : CoreRequests) (r : N) (key : RelaySessionKey * SubId) : Prop :=
  (∃ queue p, pending_request_evidence c !! key = Some queue ∧ p ∈ queue ∧
     pe_request_revision p = r) ∨
  (∃ a, active_request_evidence c !! r = Some a ∧ evidence_key a = key).

Record core_ok (c : CoreRequests) : Prop := mkCoreOk {
  k_attempts : attempts_ok (attempts c);
  k_homes id a : at_attempts (attempts c) !! id = Some a → at_home a;
  k_attribution : attribution_ok (attribution c);
  k_replacements : indexed_ok rr_session (request_replacements c);
  k_evidence : mirrors evidence_key (active_request_evidence c) (active_request_revisions_by_sub c);
  k_evidence_home r a : active_request_evidence c !! r = Some a →
    ae_request_revision a = r ∧ evidence_key a = home_key (ae_sub_id a);
  k_pending key queue : pending_request_evidence c !! key = Some queue →
    pending_queue_ok (attempts c) key queue;
  k_revision r key : revision_key c r key →
    (r < next_send_id (attribution c))%N ∧ ∀ key', revision_key c r key' → key' = key;
  k_live key live : live_wire_requests c !! key = Some live → key = home_key key.2;
  k_transfers key p : pending_request_claim_transfers c !! key = Some p →
    key = (pt_session p, pt_sub_id p) ∧ key = home_key (pt_sub_id p)
}.

Lemma core_new_ok now : core_ok (core_new now).
Proof.
  split; simpl; try (intros *; by rewrite lookup_empty); try done.
  - apply attempts_new_ok.
  - apply attribution_new_ok.
  - apply mirrors_empty.
  - apply mirrors_empty.
  - by intros r key [(? & ? & ? & _)|(? & ? & _)].
Qed.

(** Revisions stay known under one key while sends and evidence only go. *)
Lemma revisions_shrink c c' :
  (∀ r key, revision_key c' r key → revision_key c r key) →
  (next_send_id (attribution c) ≤ next_send_id (attribution c'))%N →
  (∀ r key, revision_key c r key →
     (r < next_send_id (attribution c))%N ∧ ∀ key', revision_key c r key' → key' = key) →
  ∀ r key, revision_key c' r key →
     (r < next_send_id (attribution c'))%N ∧ ∀ key', revision_key c' r key' → key' = key.
Proof.
  intros Hsub Hle Hok r key Hr%Hsub. destruct (Hok _ _ Hr) as [Hlt Hkey].
  split; [lia|]. eauto.
Qed.

(** ** Operations on one owner *)

Lemma with_attribution_ok c attr :
  core_ok c → attribution_ok attr → (next_send_id (attribution c) ≤ next_send_id attr)%N →
  core_ok (with_attribution c attr).
Proof. intros []. split; try done. by apply (revisions_shrink c (with_attribution c attr)). Qed.

Lemma with_coverage_ok c t : core_ok c → core_ok (with_coverage c t).
Proof. by intros []. Qed.

Lemma with_metadata_ok c m : core_ok c → core_ok (with_metadata c m).
Proof. by intros []. Qed.

Lemma with_clock_ok c t : core_ok c → core_ok (with_clock c t).
Proof. by intros []. Qed.

Lemma with_replacements_ok c x :
  core_ok c → indexed_ok rr_session x → core_ok (with_replacements c x).
Proof. by intros []. Qed.

Lemma with_live_ok c m :
  core_ok c → (∀ key live, m !! key = Some live → key = home_key key.2) → core_ok (with_live c m).
Proof. by intros []. Qed.

Lemma fewer_transfers_ok c m :
  core_ok c → m ⊆ pending_request_claim_transfers c → core_ok (with_transfers c m).
Proof.
  intros [] Hm. split; try done. simpl. intros key p Hp. by eapply k_transfers0, lookup_weaken.
Qed.

Lemma cancel_transfers_ok c session sub f :
  core_ok c → core_ok (cancel_request_claim_transfers c session sub f).
Proof. intros Hok. apply fewer_transfers_ok; [done|apply map_filter_subseteq]. Qed.

Lemma insert_transfer_ok c key p :
  core_ok c → key = (pt_session p, pt_sub_id p) → key = home_key (pt_sub_id p) →
  core_ok (with_transfers c (<[key := p]> (pending_request_claim_transfers c))).
Proof.
  intros [] ??. split; try done. simpl.
  intros k q [[<- <-]|[_ ?]]%lookup_insert_Some; [done|by eapply k_transfers0].
Qed.

(** Changing the attempts keeps the pending queues whose attempts survive. *)
Lemma with_attempts_ok c atts :
  core_ok c → attempts_ok atts → (∀ id a, at_attempts atts !! id = Some a → at_home a) →
  (∀ key queue p, pending_request_evidence c !! key = Some queue → p ∈ queue →
     ∃ a, at_attempts atts !! pe_attempt_id p = Some a ∧ (ra_session a, ra_sub_id a) = key) →
  core_ok (with_attempts c atts).
Proof.
  intros [] Hok Hhome Hp. split; try done. simpl. intros key queue Hq.
  destruct (k_pending0 _ _ Hq). split; eauto.
Qed.

Lemma with_attempts_same_ok c atts :
  core_ok c → attempts_ok atts → at_attempts atts = at_attempts (attempts c) →
  core_ok (with_attempts c atts).
Proof.
  intros Hok Ha Heq. apply with_attempts_ok; [done|done| |].
  - intros id a. rewrite Heq. apply (k_homes _ Hok).
  - intros key queue p Hq Hp. rewrite Heq. by apply (q_attempt _ _ _ (k_pending _ Hok _ _ Hq)).
Qed.

(** New queues whose sends were pending before. *)
Lemma with_pending_ok (c : CoreRequests)
    (m : gmap (RelaySessionKey * SubId) (list PendingRequestEvidence)) :
  core_ok c → (∀ key queue, m !! key = Some queue → pending_queue_ok (attempts c) key queue) →
  (∀ key queue p, m !! key = Some queue → p ∈ queue →
     revision_key c (pe_request_revision p) key) →
  core_ok (with_pending c m).
Proof.
  intros [] Hq Hr. split; try done. apply (revisions_shrink c (with_pending c m)); [|done|done].
  intros r key [(queue & p & ? & ? & <-)|?]; [eauto|by right].
Qed.

(** New evidence whose revisions were known under the same key. *)
Lemma with_evidence_ok (c : CoreRequests) (active : gmap N ActiveRequestEvidence)
    (by_sub : gmap (RelaySessionKey * SubId) (gset N)) :
  core_ok c → mirrors evidence_key active by_sub →
  (∀ r a, active !! r = Some a → ∃ b, active_request_evidence c !! r = Some b ∧
     ae_request_revision a = ae_request_revision b ∧ ae_sub_id a = ae_sub_id b ∧
     evidence_key a = evidence_key b) →
  core_ok (with_active c active by_sub).
Proof.
  intros [] Hm Hold. split; try done; simpl.
  - intros r a (b & Hb & -> & -> & ->)%Hold. by apply k_evidence_home0.
  - apply (revisions_shrink c (with_active c active by_sub)); [|done|done]. intros r key. unfold revision_key. simpl.
    intros [?|(a & (b & Hb & _ & _ & Hkey)%Hold & <-)]; [by left|right]. exists b. by rewrite Hkey.
Qed.

(** ** Sending *)

Lemma push_pending_ok (c : CoreRequests) p :
  core_ok c → (pe_session p, pe_sub_id p) = home_key (pe_sub_id p) →
  (∃ a, at_attempts (attempts c) !! pe_attempt_id p = Some a ∧
        (ra_session a, ra_sub_id a) = home_key (pe_sub_id p)) →
  (∀ key queue q, pending_request_evidence c !! key = Some queue → q ∈ queue →
     pe_attempt_id q ≠ pe_attempt_id p) →
  (pe_request_revision p < next_send_id (attribution c))%N →
  (∀ key, ¬ revision_key c (pe_request_revision p) key) →
  core_ok (with_pending c
    (<[home_key (pe_sub_id p) :=
         default [] (pending_request_evidence c !! home_key (pe_sub_id p)) ++ [p]]>
       (pending_request_evidence c))).
Proof.
  set (key := home_key (pe_sub_id p)). intros [] Hkey Hatt Hfresh Hlt Hnew.
  set (old := default [] (pending_request_evidence c !! key)).
  assert (NoDup (pe_attempt_id <$> old) ∧ ∀ q, q ∈ old →
    pe_attempt_id q ≠ pe_attempt_id p ∧ ((pe_session q, pe_sub_id q) = key ∧ key = home_key (pe_sub_id q)) ∧
    ∃ a, at_attempts (attempts c) !! pe_attempt_id q = Some a ∧ (ra_session a, ra_sub_id a) = key)
    as [Hids Hold].
  { unfold old. destruct (pending_request_evidence c !! key) as [queue|] eqn:Hq; simpl.
    - destruct (k_pending0 _ _ Hq). split; [done|]. intros q Hin. split; [by eapply Hfresh|]. auto.
    - split; [apply NoDup_nil_2|]. by intros q ?%not_elem_of_nil. }
  split; try done; simpl.
  - intros k queue [[<- <-]|[_ ?]]%lookup_insert_Some; [|by apply k_pending0]. split.
    + by destruct old.
    + rewrite fmap_app. apply NoDup_app. split; [done|]. split; [|apply NoDup_singleton].
      intros id (q & -> & Hin)%list_elem_of_fmap E%list_elem_of_singleton.
      by apply Hold in Hin as [? _].
    + intros q [Hin|Hin]%elem_of_app; [by apply Hold|]. by apply list_elem_of_singleton in Hin as ->.
    + intros q [Hin|Hin]%elem_of_app; [by apply Hold|]. by apply list_elem_of_singleton in Hin as ->.
  - assert (∀ r k, revision_key (with_pending c (<[key := old ++ [p]]> (pending_request_evidence c))) r k →
      revision_key c r k ∨ (r = pe_request_revision p ∧ k = key)) as Hcases.
    { intros r k. unfold revision_key at 1. simpl.
      intros [(queue & q & [[<- <-]|[_ ?]]%lookup_insert_Some & Hin & <-)|?]; [|left; left; eauto|left; by right].
      apply elem_of_app in Hin as [Hin|Hin].
      - left. left. unfold old in Hin. destruct (pending_request_evidence c !! key) as [queue|] eqn:E; [|set_solver].
        eauto.
      - apply list_elem_of_singleton in Hin as ->. by right. }
    intros r k [Hr|[-> ->]]%Hcases.
    + destruct (k_revision0 _ _ Hr) as [? Hk]. split; [done|].
      intros k' [?|[-> _]]%Hcases; [by apply Hk|]. by apply Hnew in Hr.
    + split; [done|]. intros k' [Hr|[_ ->]]%Hcases; [by apply Hnew in Hr|done].
Qed.

Section sending.
Context `{FilterHash}.

Lemma record_observed_request_ok c r n :
  core_ok c → rs_session r = sub_session (rs_sub_id r) →
  (next_send_id (attribution c) < u64_max)%N → at_next_id (attempts c) = Some n →
  ∃ c', record_observed_request_detailed c r = Some (c', (next_send_id (attribution c), n)) ∧
    core_ok c'.
Proof.
  intros Hok Hhome Hsend Hn. pose proof Hok as [].
  set (a := mkAttemptState (rs_session r) (rs_sub_id r) (filter_hash (rs_filter r)) (rs_filter r)
              (rs_coverage_claims r) (rs_owner_demands r) (Some (next_send_id (attribution c))) 0).
  destruct (mint_ok (attempts c) a n k_attempts0 Hn) as (atts & Hmint & Hatts & Hfresh & Habs).
  injection Habs as Hat Hre Hnx.
  unfold record_observed_request_detailed. simpl. fold a. rewrite Hmint. cbn [mbind option_bind].
  eexists. split; [done|].
  set (attr := (record_send (attribution c) (rs_session r) (rs_sub_id r) (rs_filter r)
                  (rs_coverage_claims r)).1).
  assert (next_send_id attr = next_send_id (attribution c) + 1)%N as Hnext.
  { simpl. unfold wrapping_succ_u64. apply N.mod_small. unfold u64_max in Hsend. lia. }
  assert (core_ok (with_attempts (with_attribution c attr) atts)) as Hok1.
  { apply with_attempts_ok; [|done| |].
    - apply with_attribution_ok; [done| |lia]. unfold attr. rewrite Hhome. by apply record_send_ok.
    - intros id x. rewrite Hat. intros [[<- <-]|[_ ?]]%lookup_insert_Some; [done|].
      by eapply k_homes0.
    - simpl. intros key queue p Hq Hp. destruct (q_attempt _ _ _ (k_pending0 _ _ Hq) p Hp) as (x & Hx & ?).
      exists x. split; [|done]. rewrite Hat, lookup_insert_ne; [done|congruence]. }
  set (p := mkPendingEvidence n (next_send_id (attribution c)) (rs_session r) (rs_sub_id r)
              (rs_filter r) (rs_owner_demands r)).
  assert ((rs_session r, rs_sub_id r) = home_key (pe_sub_id p)) as Hkey
    by (unfold home_key; by rewrite Hhome).
  simpl. rewrite Hkey. apply (push_pending_ok (with_attempts (with_attribution c attr) atts) p);
    [done|done| | |change (next_send_id (attribution c) < next_send_id attr)%N; lia|].
  - exists a. simpl. by rewrite Hat, lookup_insert_eq.
  - simpl. intros key queue q Hq Hin E.
    destruct (q_attempt _ _ _ (k_pending0 _ _ Hq) q Hin) as (x & Hx & _). congruence.
  - intros key Hr. assert (revision_key c (next_send_id (attribution c)) key) as Hr' by exact Hr.
    apply k_revision0 in Hr' as [? _]. lia.
Qed.

Lemma update_owner_demands_ok f c session sub hash :
  core_ok c → core_ok (update_current_request_owner_demands f c session sub hash).
Proof.
  intros Hok. unfold update_current_request_owner_demands.
  assert (core_ok (match current_pending c (session, sub) hash with
    | Some (older, p) =>
        with_pending c (<[(session, sub) := older ++ [set_pe_demands p (f (pe_owner_demands p))]]>
                          (pending_request_evidence c))
    | None => c end)) as Hok1.
  { destruct (current_pending c (session, sub) hash) as [[older p]|] eqn:E; [|done].
    unfold current_pending in E.
    destruct (pending_request_evidence c !! (session, sub)) as [queue|] eqn:Hq; [|done].
    destruct (last queue) as [p'|] eqn:Hl; [|done]. case_decide; [|done]. injection E as <- <-.
    apply last_Some in Hl as [l ->]. rewrite removelast_last.
    destruct (k_pending _ Hok _ _ Hq) as [? Hids Hkey Hatt].
    assert (∀ x, x ∈ l ++ [set_pe_demands p' (f (pe_owner_demands p'))] →
      ∃ y, y ∈ l ++ [p'] ∧ pe_attempt_id x = pe_attempt_id y ∧ pe_session x = pe_session y ∧
           pe_sub_id x = pe_sub_id y ∧ pe_request_revision x = pe_request_revision y) as Hsame.
    { intros x [Hx|Hx]%elem_of_app; [exists x; set_solver|].
      apply list_elem_of_singleton in Hx as ->. exists p'. set_solver. }
    apply with_pending_ok; [done| |].
    - intros k queue [[<- <-]|[_ ?]]%lookup_insert_Some; [|by apply (k_pending _ Hok)]. split.
      + by destruct l.
      + revert Hids. rewrite !fmap_app. done.
      + intros x (y & Hy & _ & -> & -> & _)%Hsame. by apply Hkey.
      + intros x (y & Hy & -> & _)%Hsame. by apply Hatt.
    - intros k queue x [[<- <-]|[_ ?]]%lookup_insert_Some Hx; [|left; eauto].
      apply Hsame in Hx as (y & Hy & _ & _ & _ & ->). left. eauto. }
  set (c1 := match current_pending _ _ _ with Some _ => _ | None => _ end) in *.
  destruct (streaming_revision c1 (session, sub) hash) as [rev|]; [|done].
  destruct (active_request_evidence c1 !! rev) as [a|] eqn:Ha; [|done].
  apply with_evidence_ok; [done| |].
  - by eapply mirrors_update; [apply Hok1|..].
  - intros r x [[<- <-]|[_ ?]]%lookup_insert_Some; [exists a|exists x]; done.
Qed.
End sending.

(** ** Evidence *)

(** Everything but the evidence and its index. *)
Definition same_but_evidence (c c' : CoreRequests) : Prop :=
  ∃ active by_sub, c' = with_active c active by_sub.

Lemma take_active_ok c revision :
  core_ok c →
  core_ok (take_active_request_evidence c revision).1 ∧
  same_but_evidence c (take_active_request_evidence c revision).1.
Proof.
  intros Hok. unfold take_active_request_evidence.
  destruct (active_request_evidence c !! revision) as [a|] eqn:Ha.
  2: { split; [done|]. exists (active_request_evidence c), (active_request_revisions_by_sub c).
       by destruct c. }
  split; [|by eexists _, _].
  destruct (mirrors_remove _ _ _ _ _ (k_evidence _ Hok) Ha) as (index & Hi & Hm).
  unfold index_remove in Hi. fold (evidence_key a).
  destruct (active_request_revisions_by_sub c !! evidence_key a) as [s|]; [|done].
  case_decide; [|done]. injection Hi as <-. apply with_evidence_ok; [done|done|].
  intros r x [_ ?]%lookup_delete_Some. by exists x.
Qed.

Lemma foldl_take_active_ok revisions c :
  core_ok c →
  core_ok (foldl (λ c r, (take_active_request_evidence c r).1) c revisions) ∧
  same_but_evidence c (foldl (λ c r, (take_active_request_evidence c r).1) c revisions).
Proof.
  revert c. induction revisions as [|r revisions IH]; intros c Hok; simpl.
  { split; [done|]. exists (active_request_evidence c), (active_request_revisions_by_sub c).
    by destruct c. }
  destruct (take_active_ok c r Hok) as [Hok1 (a1 & b1 & E1)].
  destruct (IH _ Hok1) as [Hok2 (a2 & b2 & E2)]. split; [done|].
  rewrite E2, E1. by eexists _, _.
Qed.

(** A live request may lose its place or finish; its filter and its revision
    stay. *)
Definition revision_of (s : StoredEvents) : N :=
  match s with Streaming r _ | Finished r _ => r end.
Definition interval_of (s : StoredEvents) : option CoverageInterval :=
  match s with Streaming _ i | Finished _ i => i end.

Definition live_from (m m' : gmap (RelaySessionKey * SubId) LiveWireRequest) : Prop :=
  ∀ key live', m' !! key = Some live' → ∃ live, m !! key = Some live ∧
    lw_filter live' = lw_filter live ∧
    revision_of (lw_stored_events live') = revision_of (lw_stored_events live) ∧
    interval_of (lw_stored_events live') = interval_of (lw_stored_events live).

Lemma live_from_refl m : live_from m m.
Proof. intros key live ?. eauto. Qed.

Lemma live_from_subseteq m m' : m' ⊆ m → live_from m m'.
Proof. intros Hm key live ?. exists live. split; [by eapply lookup_weaken|done]. Qed.

Lemma live_from_home c m :
  core_ok c → live_from (live_wire_requests c) m → core_ok (with_live c m).
Proof.
  intros Hok Hm. apply with_live_ok; [done|]. intros key live' (live & ? & _)%Hm.
  by eapply k_live.
Qed.

Lemma finish_stored_events_ok c request :
  core_ok c →
  core_ok (finish_stored_events c request) ∧
  ∃ m, finish_stored_events c request = with_live c m ∧ live_from (live_wire_requests c) m.
Proof.
  intros Hok. assert (∃ m, finish_stored_events c request = with_live c m ∧
    live_from (live_wire_requests c) m) as (m & Hm & Hfrom).
  { unfold finish_stored_events.
    destruct (live_wire_requests c !! _) as [live|] eqn:Hl;
      [|exists (live_wire_requests c); split; [by destruct c|apply live_from_refl]].
    destruct (lw_stored_events live) as [rev i|] eqn:Hs;
      [|exists (live_wire_requests c); split; [by destruct c|apply live_from_refl]].
    destruct (rev =? _)%N; [|exists (live_wire_requests c); split; [by destruct c|apply live_from_refl]].
    eexists. split; [done|]. intros k live' [[<- <-]|[_ ?]]%lookup_insert_Some; [|eauto].
    exists live. by rewrite Hs. }
  split; [|by exists m]. rewrite Hm. by apply live_from_home.
Qed.

(** ** Abandonment *)

Lemma drop_evidence_ok (c : CoreRequests) (keys : RelaySessionKey * SubId → Prop)
    `{!∀ k, Decision (keys k)} (revisions : gset N)
    (by_sub : gmap (RelaySessionKey * SubId) (gset N)) :
  core_ok c →
  (∀ r a, active_request_evidence c !! r = Some a → (r ∈ revisions ↔ keys (evidence_key a))) →
  (∀ k s, by_sub !! k = Some s ↔ active_request_revisions_by_sub c !! k = Some s ∧ ¬ keys k) →
  core_ok (with_active c (drop_revisions c revisions) by_sub).
Proof.
  intros Hok Hr Hby. apply with_evidence_ok; [done| |].
  - destruct (k_evidence _ Hok) as [Hne Hi]. split.
    + intros o s [? _]%Hby. by eapply Hne.
    + intros o r. unfold drop_revisions. setoid_rewrite map_lookup_filter_Some. simpl.
      destruct (decide (keys o)) as [Ho|Ho].
      * assert (by_sub !! o = None) as -> by (apply eq_None_not_Some; intros [s [_ ?]%Hby]; done).
        simpl. split; [set_solver|]. intros (a & [Ha Hnot] & <-). by destruct Hnot; apply (Hr _ _ Ha).
      * assert (by_sub !! o = active_request_revisions_by_sub c !! o) as ->.
        { apply option_eq. intros s. rewrite Hby. naive_solver. }
        rewrite Hi. split.
        -- intros (a & Ha & <-). exists a. split; [|done]. split; [done|].
           intros Hin. by apply (Hr _ _ Ha) in Hin.
        -- naive_solver.
  - intros r a [? _]%map_lookup_filter_Some. by exists a.
Qed.

Lemma pending_home c key queue :
  core_ok c → pending_request_evidence c !! key = Some queue → key = home_key key.2.
Proof.
  intros Hok Hq. destruct (k_pending _ Hok _ _ Hq) as [Hsome _ Hkey _].
  destruct queue as [|p queue]; [done|]. destruct (Hkey p) as [_ ->]; [left|done].
Qed.

(** What abandoning leaves of the owners the wire depends on. *)
Record abandons (c c' : CoreRequests) (subs : SubId → Prop) : Prop := mkAbandons {
  ab_attempts : at_attempts (attempts c') ⊆ at_attempts (attempts c);
  ab_retries : at_retries (attempts c') ⊆ at_retries (attempts c);
  ab_next : at_next_id (attempts c') = at_next_id (attempts c);
  ab_send : next_send_id (attribution c') = next_send_id (attribution c);
  ab_fifo sub : (subs sub → fifo_of (attribution c') sub = []) ∧
                (¬ subs sub → fifo_of (attribution c') sub = fifo_of (attribution c) sub);
  ab_pending key : (subs key.2 → pending_request_evidence c' !! key = None) ∧
    (¬ subs key.2 → pending_request_evidence c' !! key = pending_request_evidence c !! key);
  ab_live : live_wire_requests c' ⊆ live_wire_requests c;
  ab_live_gone key : subs key.2 → live_wire_requests c' !! key = None;
  ab_transfers : pending_request_claim_transfers c' ⊆ pending_request_claim_transfers c;
  ab_coverage : coverage c' = coverage c;
  ab_clock : clock c' = clock c
}.

Section abandon.
Context `{TimestampArith}.

Lemma retire_sub_attempts_ok c sub atts :
  core_ok c → retire_for_sub (attempts c) sub = Some atts →
  attempts_ok atts ∧ at_attempts atts = without ra_sub_id sub (at_attempts (attempts c)) ∧
  at_retries atts = without retry_sub sub (at_retries (attempts c)) ∧
  at_next_id atts = at_next_id (attempts c).
Proof.
  intros Hok Hr. destruct (retire_for_sub_ok _ sub (k_attempts _ Hok)) as (st & Hst & Hok' & Hspec).
  rewrite Hst in Hr. injection Hr as <-. injection Hspec as -> -> ->. done.
Qed.

Lemma retire_session_attempts_ok c session atts :
  core_ok c → retire_for_session (attempts c) session = Some atts →
  attempts_ok atts ∧ at_attempts atts = without ra_session session (at_attempts (attempts c)) ∧
  at_retries atts = without retry_session session (at_retries (attempts c)) ∧
  at_next_id atts = at_next_id (attempts c).
Proof.
  intros Hok Hr.
  destruct (retire_for_session_ok _ session (k_attempts _ Hok)) as (st & Hst & Hok' & Hspec).
  rewrite Hst in Hr. injection Hr as <-. injection Hspec as -> -> ->. done.
Qed.

(** The pending queues left when the attempts of [subs] and their own queues
    are gone. *)
Lemma retired_queues_ok (c : CoreRequests) (atts : RequestAttempts) (m : gmap (RelaySessionKey * SubId) (list PendingRequestEvidence))
    (gone : RequestAttemptState → Prop) :
  core_ok c → attempts_ok atts →
  (∀ id a, at_attempts atts !! id = Some a ↔ at_attempts (attempts c) !! id = Some a ∧ ¬ gone a) →
  m ⊆ pending_request_evidence c →
  (∀ key queue a, m !! key = Some queue → (ra_session a, ra_sub_id a) = key → ¬ gone a) →
  core_ok (with_pending (with_attempts c atts) m).
Proof.
  intros [] Hatts Hat Hm Hgone. split; try done; simpl.
  - intros id a [? _]%Hat. by eapply k_homes0.
  - intros key queue Hq. destruct (k_pending0 _ _ (lookup_weaken _ _ _ _ Hq Hm)) as [? ? ? Ha].
    split; [done..|]. intros p Hp. destruct (Ha p Hp) as (a & ? & ?). exists a.
    split; [|done]. apply Hat. split; [done|]. by eapply Hgone.
  - apply (revisions_shrink c (with_pending (with_attempts c atts) m)); [|done|done]. intros r key. unfold revision_key. simpl.
    intros [(queue & p & Hq & ? & ?)|?]; [left|by right].
    exists queue, p. split; [by eapply lookup_weaken|done].
Qed.

Lemma abandon_sub_ok c sub :
  core_ok c →
  ∃ c', abandon_sub c sub = Some c' ∧ core_ok c' ∧ abandons c c' (λ s, s = sub).
Proof.
  intros Hok. destruct (retire_for_sub_ok (attempts c) sub (k_attempts _ Hok)) as (atts & Hr & _).
  destruct (retire_sub_attempts_ok c sub atts Hok Hr) as (Hatts & Hat & Hre & Hnx).
  unfold abandon_sub. rewrite Hr. cbn [mbind option_bind]. eexists. split; [done|].
  fold (home_key sub).
  set (c0 := with_pending (with_attempts c atts) (delete (home_key sub) (pending_request_evidence c))).
  assert (core_ok c0) as Hok0.
  { apply (retired_queues_ok c atts _ (λ a, ra_sub_id a = sub)); [done..| |apply delete_subseteq|].
    - intros id a. rewrite Hat. apply lookup_without.
    - intros key queue a [Hne Hq]%lookup_delete_Some Ha Hs. apply Hne.
      rewrite (pending_home _ _ _ Hok Hq). by subst. }
  set (c1 := cancel_request_claim_transfers
    (with_attribution c0 (discard_sub (attribution c) sub)) (sub_session sub) sub None).
  assert (core_ok c1) as Hok1.
  { apply cancel_transfers_ok, with_attribution_ok; [done| |done]. apply discard_sub_ok, Hok. }
  match goal with |- core_ok (with_live ?x ?m) ∧ _ => set (c2 := x); set (lives := m) end.
  assert (c2 = match active_request_revisions_by_sub c1 !! home_key sub with
    | Some revisions => with_active c1 (drop_revisions c1 revisions)
                          (delete (home_key sub) (active_request_revisions_by_sub c1))
    | None => c1 end) as Hc2 by done.
  assert (lives = delete (home_key sub) (live_wire_requests c)) as Hlives
    by (unfold lives; f_equal; by destruct (active_request_revisions_by_sub _ !! _)).
  clearbody c2 lives. subst lives. assert (same_but_evidence c1 c2) as (act & bys & Hc2').
  { rewrite Hc2. destruct (active_request_revisions_by_sub c1 !! home_key sub) as [revs|].
    - by eexists _, _.
    - by exists (active_request_evidence c1), (active_request_revisions_by_sub c1). }
  assert (core_ok c2) as Hok2.
  { rewrite Hc2. destruct (active_request_revisions_by_sub c1 !! home_key sub) as [revs|] eqn:E; [|done].
    apply (drop_evidence_ok c1 (λ k, k = home_key sub)); [done| |].
    - intros r a Ha. destruct (k_evidence _ Hok1) as [_ Hi].
      specialize (Hi (home_key sub) r). rewrite E in Hi. simpl in Hi. rewrite Hi. naive_solver.
    - intros k s. rewrite lookup_delete_Some. naive_solver. }
  split.
  - apply live_from_home; [done|]. apply live_from_subseteq. rewrite Hc2'. apply delete_subseteq.
  - rewrite Hc2'. split; simpl; try done.
    + rewrite Hat. apply map_filter_subseteq.
    + rewrite Hre. apply map_filter_subseteq.
    + intros s. rewrite fifo_of_discard_sub. by case_decide.
    + intros key. split; intros Hs.
      * apply eq_None_not_Some. intros [queue [Hne Hq]%lookup_delete_Some]. apply Hne.
        rewrite (pending_home _ _ _ Hok Hq). by subst.
      * rewrite lookup_delete_ne; [done|]. by intros <-.
    + apply delete_subseteq.
    + intros key Hs. apply eq_None_not_Some. intros [live [Hne Hl]%lookup_delete_Some]. apply Hne.
      rewrite (k_live _ Hok _ _ Hl). by subst.
    + apply map_filter_subseteq.
Qed.
Lemma abandon_session_subs_ok c session :
  core_ok c →
  ∃ c', abandon_session_subs c session = Some c' ∧ core_ok c' ∧
    abandons c c' (λ s, sub_session s = session).
Proof.
  intros Hok.
  destruct (retire_for_session_ok (attempts c) session (k_attempts _ Hok)) as (atts & Hr & _).
  destruct (retire_session_attempts_ok c session atts Hok Hr) as (Hatts & Hat & Hre & Hnx).
  unfold abandon_session_subs. rewrite Hr. cbn [mbind option_bind]. eexists. split; [done|].
  set (c0 := with_pending (with_attempts c atts)
               (filter (λ p, p.1.1 ≠ session) (pending_request_evidence c))).
  assert (core_ok c0) as Hok0.
  { apply (retired_queues_ok c atts _ (λ a, ra_session a = session)); [done..| |apply map_filter_subseteq|].
    - intros id a. rewrite Hat. apply lookup_without.
    - intros key queue a [_ Hk]%map_lookup_filter_Some <- Hs. by apply Hk. }
  set (c1 := with_attribution c0 (clear_session (attribution c) session)).
  assert (core_ok c1) as Hok1
    by (apply with_attribution_ok; [done|apply clear_session_ok, Hok|done]).
  set (revs := ⋃ _).
  set (bys := filter (λ p, p.1.1 ≠ session) (active_request_revisions_by_sub c)).
  assert (core_ok (with_active c1 (drop_revisions c1 revs) bys)) as Hok2.
  { apply (drop_evidence_ok c1 (λ k, k.1 = session)); [done| |].
    - intros r a Ha. unfold revs. rewrite elem_of_union_list. destruct (k_evidence _ Hok1) as [_ Hi]. split.
      + intros (X & (p & -> & Hp)%list_elem_of_fmap & Hr').
        apply list_elem_of_filter in Hp as [Hk Hp]. destruct p as [k X]. apply elem_of_map_to_list in Hp.
        simpl in *. specialize (Hi k r). rewrite Hp in Hi. simpl in Hi.
        apply Hi in Hr' as (a' & Ha' & <-). by simplify_eq.
      + intros Hk. destruct (mirrors_elem _ _ _ _ _ (k_evidence _ Hok1) Ha) as (X & HX & Hr').
        exists X. split; [|done]. apply list_elem_of_fmap. exists (evidence_key a, X). split; [done|].
        apply list_elem_of_filter. split; [done|]. by apply elem_of_map_to_list.
    - intros k s. unfold bys. by rewrite map_lookup_filter_Some. }
  split.
  - apply (live_from_home (with_active c1 (drop_revisions c1 revs) bys)); [done|].
    apply live_from_subseteq, map_filter_subseteq.
  - assert (∀ key, key = home_key key.2 → sub_session key.2 = session ↔ key.1 = session) as Hkey.
    { intros key E. rewrite E. done. }
    split; simpl; try done.
    + rewrite Hat. apply map_filter_subseteq.
    + rewrite Hre. apply map_filter_subseteq.
    + intros s. rewrite fifo_of_clear_session by apply Hok. by case_decide.
    + intros key. split; intros Hs.
      * apply eq_None_not_Some. intros [queue [Hq Hne]%map_lookup_filter_Some]. apply Hne.
        by apply (Hkey _ (pending_home _ _ _ Hok Hq)).
      * apply option_eq. intros queue. rewrite map_lookup_filter_Some. simpl.
        split; [naive_solver|]. intros Hq. split; [done|]. intros Hk.
        by apply Hs, (Hkey _ (pending_home _ _ _ Hok Hq)).
    + apply map_filter_subseteq.
    + intros key Hs. apply eq_None_not_Some. intros [live [Hl Hne]%map_lookup_filter_Some]. apply Hne.
      by apply (Hkey _ (k_live _ Hok _ _ Hl)).
Qed.
End abandon.

(** ** Replacements *)

Section replacements.
Context `{FilterHash, TimestampArith}.

Lemma retire_metadata_ok c sub : core_ok c → core_ok (retire_plan_execution_metadata c sub).
Proof.
  intros Hok. apply with_metadata_ok, with_attribution_ok; [done| |done]. apply set_live_claims_ok, Hok.
Qed.

(** Dropping plan metadata, retained claims and transfers abandons nothing
    more. *)
Lemma abandons_forget c c' subs sub session f :
  abandons c c' subs →
  abandons c (cancel_request_claim_transfers (retire_plan_execution_metadata c' sub) session sub f) subs.
Proof.
  intros []. split; try done. simpl. etrans; [apply map_filter_subseteq|done].
Qed.

Lemma abandons_none c x : abandons c (with_replacements c x) (λ _, False).
Proof. split; simpl; try done; by intros ? []. Qed.

Lemma retire_predecessor_ok c r :
  core_ok c →
  ∃ c' effects, retire_replacement_predecessor c r = Some (c', effects) ∧ core_ok c' ∧
    abandons c c' (λ s, s = rr_prior_sub_id r).
Proof.
  intros Hok. destruct (abandon_sub_ok c (rr_prior_sub_id r) Hok) as (c1 & Hc1 & Hok1 & Hab).
  unfold retire_replacement_predecessor. rewrite Hc1. cbn [mbind option_bind].
  eexists _, _. split; [done|]. split.
  - by apply cancel_transfers_ok, retire_metadata_ok.
  - by apply abandons_forget.
Qed.

Lemma take_replacement_ok c successor :
  core_ok c →
  ∃ x, take_request_replacement c successor =
         Some (with_replacements c x, by_child (request_replacements c) !! successor) ∧
       indexed_ok rr_session x.
Proof.
  intros Hok. destruct (owner_indexed_take_ok rr_session _ successor (k_replacements _ Hok))
    as (x & Hx & _ & Hxok). exists x. split; [|done].
  unfold take_request_replacement. rewrite Hx. done.
Qed.

Lemma complete_replacement_ok c successor :
  core_ok c →
  ∃ c' effects subs, complete_request_replacement c successor = Some (c', effects) ∧ core_ok c' ∧
    abandons c c' subs ∧ (∀ s, subs s ∨ ¬ subs s) ∧
    (∀ s, subs s → ∃ r, by_child (request_replacements c) !! successor = Some r ∧
                        s = rr_prior_sub_id r).
Proof.
  intros Hok. destruct (take_replacement_ok c successor Hok) as (x & Hx & Hxok).
  unfold complete_request_replacement. rewrite Hx. cbn [mbind option_bind].
  pose proof (with_replacements_ok _ _ Hok Hxok) as Hok1.
  destruct (by_child (request_replacements c) !! successor) as [r|] eqn:Hr.
  - destruct (retire_predecessor_ok _ r Hok1) as (c' & effects & Hc' & Hok' & Hab).
    exists c', effects, (λ s, s = rr_prior_sub_id r). split; [done|]. split; [done|].
    split; [by destruct Hab|]. split; [intros s; destruct (decide (s = rr_prior_sub_id r)); auto|].
    intros s ->. by exists r.
  - exists (with_replacements c x), [], (λ _, False). split; [done|]. split; [done|].
    split; [apply abandons_none|]. split; [intros s; right; by intros []|]. by intros ? [].
Qed.
End replacements.

(** ** Handoff *)

Lemma take_pending_Some id queue p rest :
  take_pending id queue = Some (p, rest) →
  pe_attempt_id p = id ∧ ∃ pre post, queue = pre ++ p :: post ∧ rest = pre ++ post.
Proof.
  revert rest. induction queue as [|q queue IH]; intros rest; simpl; [done|].
  destruct (N.eqb_spec (pe_attempt_id q) id) as [Hq|Hq].
  - intros [= <- <-]. split; [done|]. by exists [], queue.
  - destruct (take_pending id queue) as [[p' rest']|]; [|done]. intros [= <- <-].
    destruct (IH _ eq_refl) as (Hid & pre & post & -> & ->). split; [done|].
    by exists (q :: pre), post.
Qed.

Lemma take_pending_head id p queue :
  pe_attempt_id p = id → take_pending id (p :: queue) = Some (p, queue).
Proof. intros <-. simpl. by rewrite N.eqb_refl. Qed.

(** The attempt and its pending entry leave together. *)
Lemma settle_pending_ok (c : CoreRequests) (atts : RequestAttempts) key queue p rest :
  core_ok c → attempts_ok atts →
  at_attempts atts = delete (pe_attempt_id p) (at_attempts (attempts c)) →
  pending_request_evidence c !! key = Some queue →
  take_pending (pe_attempt_id p) queue = Some (p, rest) →
  core_ok (with_pending (with_attempts c atts)
    (match rest with
     | [] => delete key (pending_request_evidence c)
     | _ => <[key := rest]> (pending_request_evidence c)
     end)).
Proof.
  intros Hok Hatts Hat Hq (_ & pre & post & -> & ->)%take_pending_Some.
  pose proof (k_pending _ Hok _ _ Hq) as [_ Hids Hkey Hatt].
  assert (∀ k' q' x, pending_request_evidence c !! k' = Some q' → x ∈ q' →
    k' ≠ key ∨ pe_attempt_id x ≠ pe_attempt_id p →
    ∃ a, at_attempts atts !! pe_attempt_id x = Some a ∧ (ra_session a, ra_sub_id a) = k') as Hkeep.
  { intros k' q' x Hq' Hx Hne.
    destruct (q_attempt _ _ _ (k_pending _ Hok _ _ Hq') x Hx) as (a & Ha & Hak).
    exists a. split; [|done]. rewrite Hat, lookup_delete_ne; [done|]. intros E.
    destruct (Hatt p) as (b & Hb & Hbk); [set_solver|]. rewrite E, Ha in Hb. simplify_eq.
    by destruct Hne. }
  destruct Hok. split; try done; simpl.
  { intros id a. rewrite Hat. intros [_ ?]%lookup_delete_Some. by eapply k_homes0. }
  2: { apply (revisions_shrink c (with_pending (with_attempts c atts) _)); [|done|done]. intros r k. unfold revision_key. simpl.
       intros [(q' & x & Hq' & Hx & ?)|?]; [left|by right].
       assert (k ≠ key ∨ k = key) as [Hne| ->] by (destruct (decide (k = key)); auto).
       - exists q', x. split; [|done]. revert Hq'. case_match;
           [by rewrite lookup_delete_ne|by rewrite lookup_insert_ne].
       - exists (pre ++ p :: post), x. split; [done|]. split; [|done]. revert Hq'. case_match eqn:E;
           [by rewrite lookup_delete_eq|rewrite lookup_insert_eq]. intros [= <-]. rewrite <-E in Hx.
         set_solver. }
  assert (∀ k' q', k' ≠ key → pending_request_evidence c !! k' = Some q' → pending_queue_ok atts k' q')
    as Hothers.
  { intros k' q' Hne Hq'. destruct (k_pending0 _ _ Hq'). split; [done..|]. intros x Hx.
    eapply Hkeep; eauto. }
  assert (pre ++ post ≠ [] → pending_queue_ok atts key (pre ++ post)) as Hrest.
  { intros Hne. rewrite fmap_app, fmap_cons, <-Permutation_middle, <-fmap_app in Hids.
    apply NoDup_cons in Hids as [Hp Hids]. split; [done|done| |].
    - intros x Hx. apply Hkey. set_solver.
    - intros x Hx. eapply Hkeep; [exact Hq|set_solver|]. right. intros E. apply Hp.
      rewrite <-E. by apply list_elem_of_fmap_2. }
  intros k' q'. destruct (pre ++ post) as [|y ys] eqn:E.
  - intros [Hne ?]%lookup_delete_Some. by apply Hothers.
  - intros [[<- <-]|[Hne ?]]%lookup_insert_Some; [by apply Hrest|by apply Hothers].
Qed.

Lemma mirrors_put {O C V} `{Countable O, Countable C} (owner : V → O) (m : gmap C V)
    (index : gmap O (gset C)) c v :
  mirrors owner m index → (∀ w, m !! c = Some w → owner w = owner v) →
  mirrors owner (<[c := v]> m) (index_add index (owner v) c).
Proof.
  intros Hm Hw. destruct (m !! c) as [w|] eqn:Hc; [|by apply mirrors_insert].
  specialize (Hw _ eq_refl). destruct (mirrors_elem _ _ _ _ _ Hm Hc) as (s & Hs & Hin).
  unfold index_add. rewrite <-Hw, Hs. simpl.
  replace ({[c]} ∪ s) with s by set_solver. rewrite (insert_id _ _ _ Hs).
  by eapply mirrors_update; [exact Hm|exact Hc|].
Qed.

Section handoff.
Context `{FilterHash, TimestampArith}.

(** The state between taking the attempt and completing a replacement. *)
Record accepted_core (c : CoreRequests) (p : PendingRequestEvidence)
    (rest : list PendingRequestEvidence) (handle : RelayHandle) (c1 : CoreRequests) : Prop := {
  ac_ok : core_ok c1;
  ac_attribution : attribution c1 = attribution c;
  ac_attempts : at_attempts (attempts c1) ⊆ at_attempts (attempts c);
  ac_retries : at_retries (attempts c1) ⊆ at_retries (attempts c);
  ac_next : at_next_id (attempts c1) = at_next_id (attempts c);
  ac_pending sub : default [] (pending_request_evidence c1 !! home_key sub) =
    if decide (sub = pe_sub_id p) then rest
    else default [] (pending_request_evidence c !! home_key sub);
  ac_live : live_wire_requests c1 =
    <[home_key (pe_sub_id p) :=
        mkLiveWire (pe_filter p) handle (Streaming (pe_request_revision p) None)]>
      (live_wire_requests c);
  ac_transfers : pending_request_claim_transfers c1 = pending_request_claim_transfers c;
  ac_coverage : coverage c1 = coverage c;
  ac_clock : clock c1 = clock c
}.

Lemma put_queue_default (m : gmap (RelaySessionKey * SubId) (list PendingRequestEvidence)) key rest k :
  default [] ((match rest with [] => delete key m | _ => <[key := rest]> m end) !! k) =
  if decide (k = key) then rest else default [] (m !! k).
Proof.
  destruct rest as [|x rest]; case_decide as Hk; subst.
  - by rewrite lookup_delete_eq.
  - by rewrite lookup_delete_ne.
  - by rewrite lookup_insert_eq.
  - by rewrite lookup_insert_ne.
Qed.

(** Taking the attempt of a pending send, whatever its outcome. *)
Lemma take_head_ok c sub p rest outcome :
  core_ok c → pending_request_evidence c !! home_key sub = Some (p :: rest) →
  outcome_attempt_id outcome = pe_attempt_id p →
  ∃ atts a,
    take_attempt (attempts c) outcome = Some (atts, Some a) ∧
    (ra_session a, ra_sub_id a) = home_key sub ∧ pe_sub_id p = sub ∧
    pe_session p = sub_session sub ∧ at_home a ∧
    at_attempts (attempts c) !! pe_attempt_id p = Some a ∧
    at_attempts atts = delete (pe_attempt_id p) (at_attempts (attempts c)) ∧
    at_retries atts = at_retries (attempts c) ∧ at_next_id atts = at_next_id (attempts c) ∧
    core_ok (with_pending (with_attempts c atts)
      (match rest with
       | [] => delete (home_key sub) (pending_request_evidence c)
       | _ => <[home_key sub := rest]> (pending_request_evidence c)
       end)).
Proof.
  intros Hok Hq Ho. pose proof (k_pending _ Hok _ _ Hq) as [_ _ Hkey Hatt].
  destruct (Hatt p) as (a & Ha & Hak); [left|]. destruct (Hkey p) as [Hpk Hps]; [left|].
  destruct (remove_attempt_ok (attempts c) (pe_attempt_id p) (k_attempts _ Hok))
    as (atts & Hr & Hatts & Habs). injection Habs as Hat Hre Hnx.
  exists atts, a. unfold take_attempt. rewrite Ho, Hr, Ha.
  assert (pe_sub_id p = sub) as Hs by (unfold home_key in *; congruence).
  assert (pe_session p = sub_session sub) by (unfold home_key in *; congruence).
  split_and!; try done; [by eapply k_homes|].
  eapply settle_pending_ok; eauto. by apply take_pending_head.
Qed.

Lemma accept_head_ok c sub p rest handle :
  core_ok c → pending_request_evidence c !! home_key sub = Some (p :: rest) →
  ∃ c1 c' effects subs,
    consume_wire_request_handoff c (Accepted (pe_attempt_id p) handle) =
      Some (c', effects, pe_owner_demands p) ∧
    accepted_core c p rest handle c1 ∧ core_ok c' ∧ abandons c1 c' subs ∧
    (∀ s, subs s ∨ ¬ subs s) ∧ ∀ s, subs s → ∃ r, by_child (request_replacements c) !! sub = Some r ∧ s = rr_prior_sub_id r.
Proof.
  intros Hok Hq.
  destruct (take_head_ok c sub p rest (Accepted (pe_attempt_id p) handle) Hok Hq eq_refl)
    as (atts & a & Htake & Hak & Hs & Hps & Hah & Ha & Hat & Hre & Hnx & Hok0).
  unfold consume_wire_request_handoff. rewrite Htake. cbn [mbind option_bind].
  rewrite Hak. cbn [pending_request_evidence with_attempts]. rewrite Hq.
  cbn [outcome_attempt_id]. rewrite (take_pending_head _ p rest eq_refl).
  set (c0 := with_pending _ _) in *. cbn [pe_owner_demands].
  unfold accept_handoff.
  destruct (remove_retry_ok (attempts c0) (ra_session a, ra_sub_id a) (k_attempts _ Hok0))
    as (atts1 & Hclear & Hatts1 & Habs1). injection Habs1 as Hat1 Hre1 Hnx1.
  unfold clear_retry_for_attempt. cbn [retry_key]. rewrite Hclear. cbn [mbind option_bind].
  rewrite Hs, Hps. fold (home_key sub).
  match goal with |- context [complete_request_replacement ?x] => set (c1 := x) end.
  assert (accepted_core c p rest handle c1) as Hacc.
  { split; try done; simpl.
    - set (ev := mkActiveEvidence (pe_request_revision p) (sub_session sub) sub (pe_owner_demands p) handle).
      assert (∀ b, active_request_evidence c !! pe_request_revision p = Some b →
        evidence_key b = home_key sub) as Hev.
      { intros b Hb. eapply k_revision; [exact Hok| |].
        - left. exists (p :: rest), p. split; [exact Hq|]. split; [left|done].
        - right. by exists b. }
      assert (core_ok (with_live (with_attempts c0 atts1)
        (<[home_key sub := mkLiveWire (pe_filter p) handle (Streaming (pe_request_revision p) None)]>
           (live_wire_requests c)))) as Hok1.
      { apply with_live_ok; [by apply with_attempts_same_ok|].
        intros k l [[<- _]|[_ ?]]%lookup_insert_Some; [done|by eapply (k_live _ Hok)]. }
      destruct Hok1. split; try done; simpl.
      + apply (mirrors_put evidence_key _ _ _ ev); [done|]. apply Hev.
      + intros r x [[<- <-]|[_ ?]]%lookup_insert_Some; [done|by apply k_evidence_home0].
      + apply (revisions_shrink c c1); [|done|apply Hok]. intros r k. unfold revision_key. simpl.
        intros [(q' & x & Hq' & Hx & <-)|(x & [[<- <-]|[_ ?]]%lookup_insert_Some & <-)];
          [| |right; eauto].
        * destruct (decide (k = home_key sub)) as [-> |Hk].
          -- left. exists (p :: rest), x. split; [done|]. split; [|done].
             pose proof (put_queue_default (pending_request_evidence c) (home_key sub) rest (home_key sub)) as E.
             rewrite Hq', decide_True in E by done. simpl in E. subst. by right.
          -- left. exists q', x. split; [|done]. revert Hq'. destruct rest;
               [by rewrite lookup_delete_ne|by rewrite lookup_insert_ne].
        * left. exists (p :: rest), p. split; [exact Hq|]. split; [left|done].
    - rewrite Hat1. simpl. rewrite Hat. apply delete_subseteq.
    - rewrite Hre1. simpl. rewrite Hre. apply delete_subseteq.
    - rewrite Hnx1. done.
    - intros s. rewrite put_queue_default, Hs. unfold home_key.
      destruct (decide (s = sub)) as [-> |Hne]; [by rewrite decide_True|].
      rewrite decide_False; [done|congruence].
    - by rewrite Hs. }
  destruct (complete_replacement_ok c1 (ra_sub_id a) (ac_ok _ _ _ _ _ Hacc))
    as (c' & effects & subs & -> & Hok' & Hab & Hdec & Hsubs).
  cbn [mbind option_bind]. exists c1, c', effects, subs. split; [done|]. split; [done|].
  split; [done|]. split; [done|]. split; [done|]. intros s (r & Hr & ->)%Hsubs. exists r. split; [|done].
  injection Hak as _ Hak. by rewrite Hak in Hr.
Qed.
Record refused_core (c : CoreRequests) (p : PendingRequestEvidence)
    (rest : list PendingRequestEvidence) (c' : CoreRequests) : Prop := {
  rc_send : next_send_id (attribution c') = next_send_id (attribution c);
  rc_fifo sub : fifo_of (attribution c') sub =
    if decide (sub = pe_sub_id p)
    then remove_revision (pe_request_revision p) (fifo_of (attribution c) sub)
    else fifo_of (attribution c) sub;
  rc_attempts : at_attempts (attempts c') ⊆ at_attempts (attempts c);
  rc_retries key pr : at_retries (attempts c') !! key = Some pr →
    at_retries (attempts c) !! key = Some pr ∨
    ∃ id, at_attempts (attempts c) !! id = Some (pr_attempt pr);
  rc_next : at_next_id (attempts c') = at_next_id (attempts c);
  rc_pending sub : default [] (pending_request_evidence c' !! home_key sub) =
    if decide (sub = pe_sub_id p) then rest
    else default [] (pending_request_evidence c !! home_key sub);
  rc_live : live_wire_requests c' = live_wire_requests c;
  rc_transfers : pending_request_claim_transfers c' = pending_request_claim_transfers c;
  rc_coverage : coverage c' = coverage c;
  rc_clock : clock c' = clock c
}.

Lemma has_inflight_spec st sub :
  attribution_ok st → has_inflight st sub = false ↔ fifo_of st sub = [].
Proof.
  intros Hok. unfold has_inflight. rewrite (inflight_fifo _ _ Hok).
  destruct (fifo_of st sub); simpl; naive_solver.
Qed.

Lemma fifo_of_discard_revision st sub r sub' :
  attribution_ok st →
  fifo_of (discard_send_revision st sub r) sub' =
  if decide (sub' = sub) then remove_revision r (fifo_of st sub') else fifo_of st sub'.
Proof.
  intros Hok. rewrite discard_send_revision_put, fifo_of_put by done.
  by case_decide; subst.
Qed.

Lemma refuse_head_ok c sub p rest cause :
  core_ok c → pending_request_evidence c !! home_key sub = Some (p :: rest) →
  ∃ c', consume_wire_request_handoff c (Refused (pe_attempt_id p) cause) =
          Some (c', [], pe_owner_demands p) ∧ core_ok c' ∧ refused_core c p rest c'.
Proof.
  intros Hok Hq.
  destruct (take_head_ok c sub p rest (Refused (pe_attempt_id p) cause) Hok Hq eq_refl)
    as (atts & a & Htake & Hak & Hs & Hps & Hah & Ha & Hat & Hre & Hnx & Hok0).
  unfold consume_wire_request_handoff. rewrite Htake. cbn [mbind option_bind].
  rewrite Hak. cbn [pending_request_evidence with_attempts]. rewrite Hq.
  cbn [outcome_attempt_id]. rewrite (take_pending_head _ p rest eq_refl).
  set (c0 := with_pending _ _) in *. unfold refuse_handoff. rewrite Hs, Hps.
  set (attr1 := discard_send_revision (attribution c0) sub (pe_request_revision p)).
  assert (attribution_ok attr1) as Hattr1 by apply discard_send_revision_ok, Hok.
  assert (next_send_id attr1 = next_send_id (attribution c)) as Hn1.
  { unfold attr1. by rewrite discard_send_revision_put by apply Hok. }
  set (c1 := with_attribution c0 attr1).
  match goal with |- context [schedule_retry (attempts ?x)] => set (c2 := x) end.
  assert (∃ attr2, c2 = with_attribution c0 attr2 ∧ attribution_ok attr2 ∧
    next_send_id attr2 = next_send_id (attribution c) ∧
    ∀ s, fifo_of attr2 s = fifo_of attr1 s) as (attr2 & Hc2 & Hattr2 & Hn2 & Hf2).
  { unfold c2. simpl. destruct (negb (has_inflight attr1 sub) && _) eqn:E; [|by exists attr1].
    apply andb_true_iff in E as [E%negb_true_iff _].
    exists (discard_wire_mapping attr1 (sub_session sub) sub). split_and!; [done| |done|done].
    apply discard_wire_mapping_ok; [done|]. by apply has_inflight_spec. }
  assert (core_ok c2) as Hok2.
  { rewrite Hc2. apply with_attribution_ok; [done|done|]. simpl. rewrite Hn2. done. }
  destruct (schedule_retry_ok (attempts c2) a (clock c2) (k_attempts _ Hok2) Hah)
    as (atts' & Hsch & Hatts' & Hspec).
  rewrite Hsch. cbn [mbind option_bind]. eexists. split; [done|].
  cbn in Hspec. injection Hspec as Hat' Hre' Hnx'. split.
  - by apply with_attempts_same_ok.
  - rewrite Hc2 in *. clear c2 Hc2. split; simpl in *; try done.
    + intros s. rewrite Hf2. unfold attr1. rewrite fifo_of_discard_revision by apply Hok.
      by rewrite Hs.
    + rewrite <-Hat', Hat. apply delete_subseteq.
    + intros key pr. rewrite <-Hre', Hre.
      intros [[<- <-]|[_ ?]]%lookup_insert_Some; [right; by eexists|by left].
    + by rewrite <-Hnx', Hnx.
    + intros s. rewrite put_queue_default, Hs. unfold home_key.
      destruct (decide (s = sub)) as [-> |Hne]; [by rewrite decide_True|].
      rewrite decide_False; [done|congruence].
Qed.
End handoff.

(** ** Transfers, metadata and completion *)

Section completion.
Context `{FilterHash, TimestampArith}.

Lemma retain_added_ok c sub claims :
  core_ok c →
  core_ok (with_attribution c (retain_added_live_request_claims (attribution c) sub claims)).
Proof. intros Hok. apply with_attribution_ok; [done| |done]. apply set_live_claims_ok, Hok. Qed.

Lemma attempt_transfer_ok stored c key :
  core_ok c → core_ok (attempt_request_claim_transfer stored c key).1.
Proof.
  intros Hok. unfold attempt_request_claim_transfer.
  destruct (pending_request_claim_transfers c !! key) as [p|] eqn:Hp; [|done].
  assert (core_ok (with_transfers c (delete key (pending_request_claim_transfers c)))) as Hok1
    by (apply fewer_transfers_ok; [done|apply delete_subseteq]).
  set (c1 := with_transfers c (delete key _)) in *.
  unfold record_request_coverage_batch. destruct stored; cbn [fst].
  - set (c2 := with_coverage c1 _).
    assert (core_ok c2) as Hok2 by by apply with_coverage_ok.
    case_match; [|done]. by apply retain_added_ok.
  - destruct (k_transfers _ Hok _ _ Hp) as [Hk Hh]. by apply insert_transfer_ok.
Qed.

Lemma transfer_finished_ok stored c session sub hash had added :
  core_ok c →
  core_ok (transfer_finished_request_claims stored c session sub hash had added).1.
Proof.
  intros Hok. unfold transfer_finished_request_claims. case_match; [done|].
  destruct (live_wire_requests c !! (session, sub)) as [live|] eqn:Hl; [|done].
  pose proof (k_live _ Hok _ _ Hl) as Hkey. simpl in Hkey.
  case_match; [done|]. destruct (lw_stored_events live) as [|rev [i|]]; try done.
  destruct (pending_request_claim_transfers c !! (session, sub)) as [p|] eqn:Hp.
  - case_match; [done|]. destruct (k_transfers _ Hok _ _ Hp) as [Hk Hh].
    set (c1 := with_transfers c _).
    assert (core_ok c1) as Hok1.
    { by apply (insert_transfer_ok c (session, sub) (mkTransfer _ _ _ _ _ _ _ _)). }
    case_match; [by apply attempt_transfer_ok|done].
  - apply attempt_transfer_ok.
    by apply (insert_transfer_ok c (session, sub) (mkTransfer _ _ _ _ _ _ _ _)).
Qed.

Lemma extend_metadata_ok c u : core_ok c → core_ok (extend_plan_execution_metadata c u).
Proof.
  intros Hok. unfold extend_plan_execution_metadata. repeat case_match; try done.
  by apply with_metadata_ok.
Qed.

Lemma extend_claims_send st sub h added :
  next_send_id (extend_current_request_claims st sub h added).1 = next_send_id st.
Proof.
  unfold extend_current_request_claims, extend_current_send_claims.
  by repeat case_match; simplify_eq/=.
Qed.

Lemma apply_update_ok stored c u :
  core_ok c → core_ok (apply_request_metadata_update stored c u).1.
Proof.
  intros Hok. unfold apply_request_metadata_update.
  assert (core_ok (extend_current_request_owner_demands (extend_plan_execution_metadata c u)
    (mu_session u) (mu_sub_id u) (mu_filter_hash u) (mu_added_owner_demands u))) as Hok1
    by by apply update_owner_demands_ok, extend_metadata_ok.
  set (c1 := extend_current_request_owner_demands _ _ _ _ _) in *.
  pose proof (extend_current_request_claims_ok (attribution c1) (mu_sub_id u) (mu_filter_hash u)
    (mu_added_coverage_claims u) (k_attribution _ Hok1)) as Hattr.
  pose proof (extend_claims_send (attribution c1) (mu_sub_id u) (mu_filter_hash u)
    (mu_added_coverage_claims u)) as Hsend.
  destruct (extend_current_request_claims _ _ _ _) as [attr [[had added] ext]]. simpl in *.
  assert (core_ok (with_attribution c1 attr)) as Hok2.
  { apply with_attribution_ok; [done|done|]. by rewrite Hsend. }
  destruct ext; [done|]. by apply transfer_finished_ok.
Qed.

Lemma remove_claims_send st sub h removed :
  next_send_id (remove_current_send_claims st sub h removed).1 = next_send_id st.
Proof. unfold remove_current_send_claims. by repeat case_match. Qed.

Lemma release_delta_ok st sub removed :
  attribution_ok st → attribution_ok (release_live_request_claims_delta st sub removed).
Proof.
  intros Hok. unfold release_live_request_claims_delta. case_match; [|done].
  by apply set_live_claims_ok.
Qed.

Lemma release_delta_send st sub removed :
  next_send_id (release_live_request_claims_delta st sub removed) = next_send_id st ∧
  inflight (release_live_request_claims_delta st sub removed) = inflight st.
Proof. unfold release_live_request_claims_delta. by case_match. Qed.

Lemma apply_removal_ok physical c r :
  core_ok c → core_ok (apply_request_metadata_removal physical c r).
Proof.
  intros Hok. unfold apply_request_metadata_removal.
  set (detachable := match physical _ _ with Some _ => _ | None => _ end).
  set (c1 := match plan_execution_metadata c !! _ with Some _ => _ | None => _ end).
  assert (core_ok c1) as Hok1.
  { unfold c1. repeat case_match; try done. by apply with_metadata_ok. }
  set (c2 := remove_current_request_owner_demands _ _ _ _ _).
  assert (core_ok c2) as Hok2 by by apply update_owner_demands_ok.
  set (c3 := with_attribution c2 _).
  assert (core_ok c3) as Hok3.
  { apply with_attribution_ok; [done|apply release_delta_ok, Hok2|].
    by destruct (release_delta_send (attribution c2) (mr_sub_id r) detachable) as [-> _]. }
  apply with_attribution_ok; [done|apply remove_current_send_claims_ok, Hok3|].
  by rewrite remove_claims_send.
Qed.

Lemma retire_covered_ok c session sub rev hash claims :
  core_ok c →
  core_ok (retire_request_claim_transfer_covered_by_completion c session sub rev hash claims).
Proof.
  intros Hok. unfold retire_request_claim_transfer_covered_by_completion.
  destruct (pending_request_claim_transfers c !! (session, sub)) as [p|]; [|done].
  case_match; [|done].
  assert (core_ok (with_transfers c (delete (session, sub) (pending_request_claim_transfers c))))
    as Hok1 by (apply fewer_transfers_ok; [done|apply delete_subseteq]).
  case_match; [|done]. by apply (retain_added_ok (with_transfers _ _)).
Qed.

Lemma note_interval_ok c key rev i : core_ok c → core_ok (note_committed_interval c key rev i).
Proof.
  intros Hok. unfold note_committed_interval.
  destruct (live_wire_requests c !! key) as [live|] eqn:Hl; [|done].
  destruct (lw_stored_events live); [|done]. case_match; [|done].
  apply with_live_ok; [done|]. intros k l [[<- _]|[_ ?]]%lookup_insert_Some; by eapply k_live.
Qed.

Lemma persist_ok stored c completed :
  core_ok c → core_ok (persist_attributed_completion stored c completed).1.
Proof.
  intros Hok. unfold persist_attributed_completion.
  destruct (into_eligible_claims completed) as [[|claim claims]|]; try done.
  unfold record_request_coverage_batch. destruct stored; [|done].
  by apply note_interval_ok, retire_covered_ok, with_coverage_ok.
Qed.

Lemma retire_evidence_ok c send : core_ok c → core_ok (retire_request_evidence c send).1.
Proof.
  intros Hok. unfold retire_request_evidence. pose proof (take_active_ok c send Hok) as [Hok1 _].
  destruct (take_active_request_evidence c send) as [c1 [a|]]; [|done].
  by apply finish_stored_events_ok.
Qed.

Lemma emit_settled_ok obs c send : core_ok c → core_ok (emit_request_settled obs c send).1.1.
Proof.
  intros Hok. unfold emit_request_settled. pose proof (take_active_ok c send Hok) as [Hok1 _].
  destruct (take_active_request_evidence c send) as [c1 [a|]]; [|done].
  by apply finish_stored_events_ok.
Qed.

Lemma on_eose_ok obs stored c sub :
  core_ok c →
  ∃ c' effects, on_eose obs stored c (sub_session sub) (wire_sub_id_string sub) = Some (c', effects) ∧
    core_ok c'.
Proof.
  intros Hok. unfold on_eose.
  assert (∃ attr o, attribute_eose_detailed (attribution c) (sub_session sub) (wire_sub_id_string sub)
    (clock c) = Some (attr, o) ∧ next_send_id attr = next_send_id (attribution c)) as (attr & o & Hrun & Hn).
  { pose proof (attribute_eose_spec _ sub (clock c) (k_attribution _ Hok)) as Hspec.
    destruct (fifo_of (attribution c) sub); [by eexists _, _|].
    destruct Hspec as (x & -> & _). by eexists _, _. }
  rewrite Hrun. cbn [mbind option_bind].
  destruct (attribute_eose_ok _ _ _ _ _ (k_attribution _ Hok) Hrun) as [Hattr _].
  assert (core_ok (with_attribution c attr)) as Hok1.
  { apply with_attribution_ok; [done|done|]. by rewrite Hn. }
  destruct o as [completed|]; [|by eexists _, _].
  pose proof (persist_ok stored _ completed Hok1) as Hok2.
  destruct (persist_attributed_completion stored _ completed) as [c2 [keys|]]; simpl in Hok2.
  - pose proof (emit_settled_ok obs c2 (ca_send_id completed) Hok2) as Hok3.
    destruct (emit_request_settled obs c2 (ca_send_id completed)) as [[c3 effects] d]. by eexists _, _.
  - eexists _, _. split; [done|]. by apply retire_evidence_ok.
Qed.

Lemma on_event_commit_failure_ok c attributions :
  core_ok c → core_ok (on_event_commit_failure c attributions).
Proof.
  intros Hok. assert (∀ attr, attribution_ok attr →
    attribution_ok (foldl (λ attr p, poison_event_commit_failure attr p.1 p.2) attr attributions) ∧
    next_send_id (foldl (λ attr p, poison_event_commit_failure attr p.1 p.2) attr attributions) =
      next_send_id attr) as Hfold.
  { induction attributions as [|[s w] l IH]; intros attr Hattr; simpl; [done|].
    destruct (IH _ (poison_event_commit_failure_ok attr s w Hattr)) as [? ->]. split; [done|].
    unfold poison_event_commit_failure. by repeat case_match. }
  destruct (Hfold (attribution c) (k_attribution _ Hok)) as [? Hn].
  apply with_attribution_ok; [done|done|]. by rewrite Hn.
Qed.
End completion.
