(* ===== verification/RequestFrames.v ===== *)
(** * What the operations on requests leave alone

    The frames of the operations of [Requests]: which of the owners the wire
    depends on (attempts, FIFOs, pending sends, live requests, transfers,
    coverage rows) each of them touches. *)

From S2P Require Import Prelude Grammar Coverage RouterTypes Router OwnerIndex Attempts Attribution Requests RequestInvariant.

(** Sends recorded and not yet handed off. *)
Definition waiting (c : CoreRequests) (sub : SubId) : list (N * ConcreteFilter) :=
  (λ p, (pe_request_revision p, pe_filter p)) <$>
    default [] (pending_request_evidence c !! home_key sub).


(** Nothing new reaches the wire: attempts, retries and transfers may go, a
    live request may lose its place or finish, and a subscription keeps its
    sends or loses all of them with its place. *)
Record shrinks (c c' : CoreRequests) : Prop := mkShrinks {
  sh_attempts : at_attempts (attempts c') ⊆ at_attempts (attempts c);
  sh_retries : at_retries (attempts c') ⊆ at_retries (attempts c);
  sh_send : next_send_id (attribution c') = next_send_id (attribution c);
  sh_sends sub :
    (fifo_of (attribution c') sub = fifo_of (attribution c) sub ∧ waiting c' sub = waiting c sub) ∨
    (fifo_of (attribution c') sub = [] ∧ waiting c' sub = [] ∧
     live_wire_requests c' !! home_key sub = None);
  sh_live : live_from (live_wire_requests c) (live_wire_requests c');
  sh_transfers : pending_request_claim_transfers c' ⊆ pending_request_claim_transfers c;
  sh_coverage : coverage c' = coverage c;
  sh_clock : clock c' = clock c
}.

Lemma live_from_trans m1 m2 m3 : live_from m1 m2 → live_from m2 m3 → live_from m1 m3.
Proof.
  intros H12 H23 key l3 Hl3. destruct (H23 _ _ Hl3) as (l2 & Hl2 & Hf & Hr & Hi).
  destruct (H12 _ _ Hl2) as (l1 & Hl1 & ? & ? & ?). exists l1. split; [done|]. split_and!; congruence.
Qed.

Lemma live_from_None m m' key : live_from m m' → m !! key = None → m' !! key = None.
Proof.
  intros Hm Hk. apply eq_None_not_Some. intros [l (l' & ? & _)%Hm]. congruence.
Qed.

#[global] Instance shrinks_preorder : PreOrder shrinks.
Proof.
  split.
  - intros c. split; try done; [by left|apply live_from_refl].
  - intros c1 c2 c3 H12 H23. split; try (etrans; [apply H23|apply H12]).
    + intros sub. destruct (sh_sends _ _ H12 sub) as [[E1 E2]|(E1 & E2 & E3)],
        (sh_sends _ _ H23 sub) as [[F1 F2]|(F1 & F2 & F3)]; [left|right..]; split_and!; try congruence.
      eapply live_from_None; [apply H23|done].
    + eapply live_from_trans; [apply H12|apply H23].
Qed.

(** Owners of a request the wire does not see. *)
Lemma shrinks_unseen c c' :
  attempts c' = attempts c → next_send_id (attribution c') = next_send_id (attribution c) →
  inflight (attribution c') = inflight (attribution c) →
  pending_request_evidence c' = pending_request_evidence c →
  live_from (live_wire_requests c) (live_wire_requests c') →
  pending_request_claim_transfers c' ⊆ pending_request_claim_transfers c →
  coverage c' = coverage c → clock c' = clock c → shrinks c c'.
Proof.
  intros Ha ? Hi Hp ????. split; rewrite ?Ha; try done.
  intros sub. left. unfold fifo_of, waiting. by rewrite Hi, Hp.
Qed.

Lemma abandons_shrinks c c' subs :
  (∀ s, subs s ∨ ¬ subs s) → abandons c c' subs → shrinks c c'.
Proof.
  intros Hdec Hab. destruct Hab. split; try done; [|by apply live_from_subseteq].
  intros sub. destruct (ab_fifo sub) as [Hf1 Hf2]. destruct (ab_pending (home_key sub)) as [Hp1 Hp2].
  unfold waiting. destruct (Hdec sub) as [Hs|Hs]; [right|left].
  - rewrite Hp1 by done. split_and!; [by apply Hf1|done|by apply ab_live_gone].
  - rewrite Hp2 by done. split; [by apply Hf2|done].
Qed.

Ltac unseen := apply shrinks_unseen; simpl; try done; try apply live_from_refl.

Lemma take_active_shrinks c r : core_ok c → shrinks c (take_active_request_evidence c r).1.
Proof. intros Hok. destruct (take_active_ok c r Hok) as [_ (a & b & ->)]. unseen. Qed.

Lemma finish_shrinks c request : core_ok c → shrinks c (finish_stored_events c request).
Proof.
  intros Hok. destruct (finish_stored_events_ok c request Hok) as [_ (m & -> & Hm)]. unseen.
Qed.

Lemma retire_evidence_shrinks c send : core_ok c → shrinks c (retire_request_evidence c send).1.
Proof.
  intros Hok. unfold retire_request_evidence.
  pose proof (take_active_ok c send Hok) as [Hok1 _]. pose proof (take_active_shrinks c send Hok) as Hq.
  destruct (take_active_request_evidence c send) as [c1 [a|]]; [|done].
  simpl in *. etrans; [exact Hq|by apply finish_shrinks].
Qed.

Lemma emit_settled_shrinks obs c send : core_ok c → shrinks c (emit_request_settled obs c send).1.1.
Proof.
  intros Hok. unfold emit_request_settled.
  pose proof (take_active_ok c send Hok) as [Hok1 _]. pose proof (take_active_shrinks c send Hok) as Hq.
  destruct (take_active_request_evidence c send) as [c1 [a|]]; [|done].
  simpl in *. etrans; [exact Hq|by apply finish_shrinks].
Qed.

Lemma fewer_live_ok c m :
  core_ok c → m ⊆ live_wire_requests c → core_ok (with_live c m) ∧ shrinks c (with_live c m).
Proof.
  intros Hok Hm. split; [by apply live_from_home, live_from_subseteq|]. unseen.
  by apply live_from_subseteq.
Qed.

Lemma foldl_take_shrinks c c1 revisions :
  core_ok c1 → shrinks c c1 →
  core_ok (foldl (λ c r, (take_active_request_evidence c r).1) c1 revisions) ∧
  shrinks c (foldl (λ c r, (take_active_request_evidence c r).1) c1 revisions).
Proof.
  intros Hok Hq. destruct (foldl_take_active_ok revisions c1 Hok) as [Hok' (a & b & E)].
  split; [done|]. etrans; [exact Hq|]. rewrite E. unseen.
Qed.

Lemma close_session_ok c session handle :
  core_ok c → core_ok (close_requests_for_session c session handle) ∧
  shrinks c (close_requests_for_session c session handle).
Proof.
  intros Hok. unfold close_requests_for_session.
  apply foldl_take_shrinks; apply fewer_live_ok; try done; apply map_filter_subseteq.
Qed.

Lemma close_sub_ok c session handle sub :
  core_ok c → core_ok (close_requests_for_sub c session handle sub) ∧
  shrinks c (close_requests_for_sub c session handle sub).
Proof.
  intros Hok. unfold close_requests_for_sub.
  set (c1 := match live_wire_requests c !! _ with Some _ => _ | None => _ end).
  assert (core_ok c1 ∧ shrinks c c1) as [Hok1 Hq1].
  { unfold c1. repeat case_match; try done. apply fewer_live_ok; [done|apply delete_subseteq]. }
  by apply foldl_take_shrinks.
Qed.

Lemma cancel_transfers_shrinks c session sub f :
  shrinks c (cancel_request_claim_transfers c session sub f).
Proof. unseen. apply map_filter_subseteq. Qed.

Lemma update_owner_demands_shrinks `{FilterHash} f c session sub hash :
  core_ok c → shrinks c (update_current_request_owner_demands f c session sub hash).
Proof.
  intros Hok. unfold update_current_request_owner_demands.
  set (c1 := match current_pending c _ hash with Some _ => _ | None => _ end).
  assert (shrinks c c1) as H1.
  { unfold c1, current_pending.
    destruct (pending_request_evidence c !! (session, sub)) as [queue|] eqn:Hq; [|done].
    destruct (last queue) as [p|] eqn:Hl; [|done]. case_decide; [|done]. simpl.
    split; try done; [|apply live_from_refl]. intros s. left. split; [done|]. unfold waiting. simpl.
    destruct (decide (home_key s = (session, sub))) as [->|Hne]; [|by rewrite lookup_insert_ne].
    rewrite lookup_insert_eq, Hq. simpl. apply last_Some in Hl as [l ->].
    by rewrite removelast_last, !fmap_app. }
  etrans; [exact H1|]. repeat case_match; try done. unseen.
Qed.

Lemma extend_metadata_shrinks `{FilterHash} c u : shrinks c (extend_plan_execution_metadata c u).
Proof. unfold extend_plan_execution_metadata. repeat case_match; try done. unseen. Qed.

Lemma retire_metadata_shrinks c sub : shrinks c (retire_plan_execution_metadata c sub).
Proof. unseen. Qed.

(** ** Plans and replacements *)

Section plans.
Context `{FilterHash, TimestampArith}.

Lemma reconcile_op_ok c deferred session op :
  core_ok c → core_ok (reconcile_op c deferred session op) ∧
  shrinks c (reconcile_op c deferred session op).
Proof.
  intros Hok. unfold reconcile_op. repeat case_match; try done;
    (split; [by apply cancel_transfers_ok|apply cancel_transfers_shrinks]).
Qed.

Lemma install_request_ok c r :
  core_ok c → core_ok (install_request c r) ∧ shrinks c (install_request c r).
Proof. intros Hok. split; [by apply with_metadata_ok|unseen]. Qed.

Lemma install_op_ok claims demands priors session c op :
  core_ok c → core_ok (install_op claims demands priors session c op) ∧
  shrinks c (install_op claims demands priors session c op).
Proof.
  intros Hok. destruct op as [sub g|sub]; simpl.
  - split; [|unseen]. apply with_attribution_ok; [by apply with_metadata_ok| |done].
    apply set_live_claims_ok, Hok.
  - case_decide; [done|]. split; [by apply retire_metadata_ok|apply retire_metadata_shrinks].
Qed.

Lemma abandon_sub_shrinks c sub c' :
  core_ok c → abandon_sub c sub = Some c' → core_ok c' ∧ shrinks c c'.
Proof.
  intros Hok Hc. destruct (abandon_sub_ok c sub Hok) as (c1 & Hc1 & Hok1 & Hab).
  rewrite Hc in Hc1. injection Hc1 as <-. split; [done|]. apply (abandons_shrinks _ _ (λ s, s = sub)); [|done].
  intros s. destruct (decide (s = sub)); auto.
Qed.

Lemma abandon_session_shrinks c session c' :
  core_ok c → abandon_session_subs c session = Some c' → core_ok c' ∧ shrinks c c'.
Proof.
  intros Hok Hc. destruct (abandon_session_subs_ok c session Hok) as (c1 & Hc1 & Hok1 & Hab).
  rewrite Hc in Hc1. injection Hc1 as <-. split; [done|].
  apply (abandons_shrinks _ _ (λ s, sub_session s = session)); [|done].
  intros s. destruct (decide (sub_session s = session)); auto.
Qed.

Lemma cancel_successor_shrinks c sub c' :
  core_ok c → cancel_replacement_successor_work c sub = Some c' → core_ok c' ∧ shrinks c c'.
Proof.
  intros Hok. unfold cancel_replacement_successor_work.
  destruct (abandon_sub c sub) as [c1|] eqn:E; [|done]. cbn [mbind option_bind]. intros [= <-].
  destruct (abandon_sub_shrinks _ _ _ Hok E) as [Hok1 H1].
  split; [by apply cancel_transfers_ok, retire_metadata_ok|].
  etrans; [exact H1|]. etrans; [apply retire_metadata_shrinks|apply cancel_transfers_shrinks].
Qed.

Lemma take_replacement_shrinks c sub c' r :
  core_ok c → take_request_replacement c sub = Some (c', r) → core_ok c' ∧ shrinks c c'.
Proof.
  intros Hok Ht. destruct (take_replacement_ok c sub Hok) as (x & Hx & Hxok).
  rewrite Ht in Hx. injection Hx as -> _. split; [by apply with_replacements_ok|unseen].
Qed.

Lemma insert_replacement_shrinks c r c' :
  core_ok c → insert_request_replacement c r = Some c' → core_ok c' ∧ shrinks c c'.
Proof.
  intros Hok. unfold insert_request_replacement.
  destruct (owner_indexed_insert _ _ _ _) as [x|] eqn:E; [|done]. cbn [mbind option_bind].
  intros [= <-]. split; [|unseen]. apply with_replacements_ok; [done|].
  destruct (by_child (request_replacements c) !! rr_next_sub_id r) eqn:Hc;
    [by unfold owner_indexed_insert in E; rewrite Hc in E|].
  destruct (owner_indexed_insert_ok rr_session _ _ r (k_replacements _ Hok) Hc) as (x' & Hx' & _ & ?).
  congruence.
Qed.

Lemma install_replacement_shrinks c r c' :
  core_ok c → install_replacement c r = Some c' → core_ok c' ∧ shrinks c c'.
Proof.
  intros Hok. unfold install_replacement.
  destruct (take_request_replacement c _) as [[c1 o]|] eqn:E1; [|done]. cbn [mbind option_bind].
  destruct (take_replacement_shrinks _ _ _ _ Hok E1) as [Hok1 H1]. destruct o as [i|].
  - destruct (cancel_replacement_successor_work c1 _) as [c2|] eqn:E2; [|done].
    cbn [mbind option_bind]. destruct (cancel_successor_shrinks _ _ _ Hok1 E2) as [Hok2 H2].
    intros E3. destruct (insert_replacement_shrinks _ _ _ Hok2 E3) as [? H3].
    split; [done|]. etrans; [exact H1|]. by etrans.
  - intros E3. destruct (insert_replacement_shrinks _ _ _ Hok1 E3) as [? H3].
    split; [done|]. by etrans.
Qed.

Lemma retire_predecessor_shrinks c r c' effects :
  core_ok c → retire_replacement_predecessor c r = Some (c', effects) → core_ok c' ∧ shrinks c c'.
Proof.
  intros Hok Hr. destruct (retire_predecessor_ok c r Hok) as (c1 & e & Hc1 & Hok1 & Hab).
  rewrite Hr in Hc1. injection Hc1 as <- _. split; [done|].
  apply (abandons_shrinks _ _ (λ s, s = rr_prior_sub_id r)); [|done].
  intros s. destruct (decide (s = rr_prior_sub_id r)); auto.
Qed.

Lemma complete_replacement_shrinks c sub c' effects :
  core_ok c → complete_request_replacement c sub = Some (c', effects) → core_ok c' ∧ shrinks c c'.
Proof.
  intros Hok. unfold complete_request_replacement.
  destruct (take_request_replacement c _) as [[c1 o]|] eqn:E1; [|done]. cbn [mbind option_bind].
  destruct (take_replacement_shrinks _ _ _ _ Hok E1) as [Hok1 H1]. destruct o as [r|].
  - intros E. destruct (retire_predecessor_shrinks _ _ _ _ Hok1 E). split; [done|]. by etrans.
  - by intros [= <- _].
Qed.

Lemma cancel_replacement_shrinks c sub c' effects :
  core_ok c → cancel_request_replacement c sub = Some (c', effects) → core_ok c' ∧ shrinks c c'.
Proof.
  intros Hok. unfold cancel_request_replacement.
  destruct (take_request_replacement c _) as [[c1 o]|] eqn:E1; [|done]. cbn [mbind option_bind].
  destruct (take_replacement_shrinks _ _ _ _ Hok E1) as [Hok1 H1]. destruct o as [r|]; [|by intros [= <- _]].
  destruct (cancel_replacement_successor_work c1 _) as [c2|] eqn:E2; [|done].
  cbn [mbind option_bind]. destruct (cancel_successor_shrinks _ _ _ Hok1 E2) as [Hok2 H2].
  intros E. destruct (retire_predecessor_shrinks _ _ _ _ Hok2 E). split; [done|].
  etrans; [exact H1|]. by etrans.
Qed.

Lemma abandon_replacements_shrinks c session c' :
  core_ok c → abandon_request_replacements_for_session c session = Some c' →
  core_ok c' ∧ shrinks c c'.
Proof.
  intros Hok. unfold abandon_request_replacements_for_session.
  destruct (owner_indexed_take_owner_ok rr_session _ session (k_replacements _ Hok))
    as (taken & x & -> & _ & _ & _ & Hx).
  cbn [mbind option_bind]. intros [= <-].
  assert (core_ok (with_replacements c x) ∧ shrinks c (with_replacements c x)) as [Hok1 H1]
    by (split; [by apply with_replacements_ok|unseen]).
  revert Hok1 H1. generalize (with_replacements c x) as c1.
  induction taken as [|[k r] taken IH]; intros c1 Hok1 H1; simpl; [done|]. apply IH.
  - by apply cancel_transfers_ok, retire_metadata_ok.
  - etrans; [exact H1|]. etrans; [apply retire_metadata_shrinks|apply cancel_transfers_shrinks].
Qed.
End plans.

(** ** Transfers *)

Definition same_transfer (p p' : PendingRequestClaimTransfer) : Prop :=
  pt_session p' = pt_session p ∧ pt_filter_hash p' = pt_filter_hash p ∧
  pt_interval p' = pt_interval p ∧ pt_claims p' = pt_claims p.

(** Only transfers, coverage rows and retained claims change. *)
Record transfer_only (c c' : CoreRequests) : Prop := {
  to_attempts : attempts c' = attempts c;
  to_send : next_send_id (attribution c') = next_send_id (attribution c);
  to_inflight : inflight (attribution c') = inflight (attribution c);
  to_pending : pending_request_evidence c' = pending_request_evidence c;
  to_live : live_wire_requests c' = live_wire_requests c;
  to_clock : clock c' = clock c
}.

Section transfers.
Context `{FilterHash, TimestampArith}.

Lemma attempt_transfer_view stored c key :
  let c' := (attempt_request_claim_transfer stored c key).1 in
  transfer_only c c' ∧
  (∀ k p', pending_request_claim_transfers c' !! k = Some p' →
     ∃ p, pending_request_claim_transfers c !! k = Some p ∧ same_transfer p p') ∧
  (coverage c' = coverage c ∨
   ∃ p, pending_request_claim_transfers c !! key = Some p ∧
     coverage c' = record_coverage ((λ k, (k, pt_session p, pt_interval p)) <$> ordered (pt_claims p))
                     (coverage c)).
Proof.
  unfold attempt_request_claim_transfer.
  destruct (pending_request_claim_transfers c !! key) as [p|] eqn:Hp; simpl.
  2: { split; [done|]. split; [|by left]. intros k p' ?. by exists p'. }
  assert (∀ k p', delete key (pending_request_claim_transfers c) !! k = Some p' →
    ∃ p, pending_request_claim_transfers c !! k = Some p ∧ same_transfer p p') as Hrest.
  { intros k p' [_ ?]%lookup_delete_Some. by exists p'. }
  destruct stored; simpl.
  - case_match; (split; [done|]; split; [exact Hrest|]; right; by exists p).
  - split; [done|]. split; [|by left].
    intros k p' [[<- <-]|[_ ?]]%lookup_insert_Some; [by exists p|by apply Hrest].
Qed.

(** The transfer a finished request files for claims added to it. *)
Record files_transfer (c : CoreRequests) (session : RelaySessionKey) (sub : SubId) (hash : N)
    (added : gset CoverageKey) (live : LiveWireRequest) (p : PendingRequestClaimTransfer) : Prop := {
  ft_live : live_wire_requests c !! (session, sub) = Some live;
  ft_hash : filter_hash (lw_filter live) = hash;
  ft_limit : f_limit (lw_filter live) = None;
  ft_interval : interval_of (lw_stored_events live) = Some (pt_interval p);
  ft_pt_hash : pt_filter_hash p = hash;
  ft_session : pt_session p = session;
  ft_sub : pt_sub_id p = sub;
  ft_claims k : k ∈ pt_claims p → k ∈ added ∨
    ∃ p0, pending_request_claim_transfers c !! (session, sub) = Some p0 ∧
          pt_filter_hash p0 = hash ∧ k ∈ pt_claims p0
}.

Lemma transfer_finished_view stored c session sub hash had added :
  core_ok c →
  let c' := (transfer_finished_request_claims stored c session sub hash had added).1 in
  c' = c ∨ ∃ live p, files_transfer c session sub hash added live p ∧
    let c1 := with_transfers c (<[(session, sub) := p]> (pending_request_claim_transfers c)) in
    c' = c1 ∨ c' = (attempt_request_claim_transfer stored c1 (session, sub)).1.
Proof.
  intros Hok. unfold transfer_finished_request_claims.
  destruct (negb had || bool_decide (added = ∅)); [by left|].
  destruct (live_wire_requests c !! (session, sub)) as [live|] eqn:Hl; [|by left].
  destruct (negb _ || _) eqn:E; [by left|]. apply orb_false_iff in E as [Eh El].
  apply negb_false_iff, N.eqb_eq in Eh. apply bool_decide_eq_false in El.
  assert (f_limit (lw_filter live) = None) as Hlim by (destruct (f_limit _); [by destruct El|done]).
  destruct (lw_stored_events live) as [|rev [i|]] eqn:Hs; [by left| |by left].
  destruct (pending_request_claim_transfers c !! (session, sub)) as [p0|] eqn:Hp.
  - destruct (negb _) eqn:E0; [by left|]. apply negb_false_iff, N.eqb_eq in E0.
    right. eexists live, _. split.
    2: { cbv zeta. case_match; [by right|by left]. }
    destruct (k_transfers _ Hok _ _ Hp) as [Hk _]. injection Hk as Hk Hk2.
    split; simpl; try done; [by rewrite Hs|].
    intros k [?|?]%elem_of_union; [right; eauto|by left].
  - right. eexists live, _. split; [|by right]. split; simpl; try done; [by rewrite Hs|]. by left.
Qed.
End transfers.

(** ** Completion *)

Lemma eligible_interval_claim x i :
  eligible_generation_interval x = Some i →
  ca_coverage_authority x = Eligible ∧ ∃ claim, claim ∈ ca_claims x ∧ cc_interval claim = i.
Proof.
  unfold eligible_generation_interval. destruct (ca_coverage_authority x); [|done].
  destruct (ca_claims x) as [|claim claims]; [done|]. case_match; [|done]. intros [= <-].
  split; [done|]. exists claim. split; [left|done].
Qed.

Section completion.
Context `{FilterHash, TimestampArith}.

(** What persisting a completion changes. *)
Record persisted (c c' : CoreRequests) (x : CompletedAttribution) : Prop := {
  ps_attempts : attempts c' = attempts c;
  ps_send : next_send_id (attribution c') = next_send_id (attribution c);
  ps_inflight : inflight (attribution c') = inflight (attribution c);
  ps_pending : pending_request_evidence c' = pending_request_evidence c;
  ps_clock : clock c' = clock c;
  ps_transfers : pending_request_claim_transfers c' ⊆ pending_request_claim_transfers c;
  ps_coverage : coverage c' = coverage c ∨
    (ca_coverage_authority x = Eligible ∧
     coverage c' = record_coverage
       ((λ claim, (cc_key claim, sub_session (ca_sub_id x), cc_interval claim)) <$> ca_claims x)
       (coverage c));
  ps_live key live' : live_wire_requests c' !! key = Some live' →
    ∃ live, live_wire_requests c !! key = Some live ∧ lw_filter live' = lw_filter live ∧
      revision_of (lw_stored_events live') = revision_of (lw_stored_events live) ∧
      (interval_of (lw_stored_events live') = interval_of (lw_stored_events live) ∨
       key = home_key (ca_sub_id x) ∧ revision_of (lw_stored_events live) = ca_send_id x ∧
       interval_of (lw_stored_events live') = eligible_generation_interval x)
}.

Lemma note_interval_view c key rev i k live' :
  live_wire_requests (note_committed_interval c key rev i) !! k = Some live' →
  ∃ live, live_wire_requests c !! k = Some live ∧ lw_filter live' = lw_filter live ∧
    revision_of (lw_stored_events live') = revision_of (lw_stored_events live) ∧
    (interval_of (lw_stored_events live') = interval_of (lw_stored_events live) ∨
     k = key ∧ revision_of (lw_stored_events live) = rev ∧
     interval_of (lw_stored_events live') = i).
Proof.
  unfold note_committed_interval.
  destruct (live_wire_requests c !! key) as [live|] eqn:Hl; [|by eauto 10].
  destruct (lw_stored_events live) as [r j|] eqn:Hs; [|by eauto 10].
  destruct (N.eqb_spec r rev) as [->|]; [|by eauto 10]. simpl.
  intros [[<- <-]|[_ ?]]%lookup_insert_Some; [|by eauto 10].
  exists live. rewrite Hs. split; [done|]. split; [done|]. split; [done|]. by right.
Qed.

Lemma persist_view stored c x : persisted c (persist_attributed_completion stored c x).1 x.
Proof.
  assert (persisted c c x) as Hnone.
  { split; try done; [by left|]. intros key live' ?. exists live'. auto. }
  unfold persist_attributed_completion, into_eligible_claims.
  destruct (ca_coverage_authority x) eqn:Ha; [|done].
  destruct (ca_claims x) as [|claim claims] eqn:Hc; [done|].
  unfold record_request_coverage_batch. destruct stored; [|done]. simpl.
  set (batch := _ :: _). set (c1 := with_coverage c _).
  set (c2 := retire_request_claim_transfer_covered_by_completion _ _ _ _ _ _).
  assert (transfer_only c1 c2 ∧ coverage c2 = coverage c1 ∧
    pending_request_claim_transfers c2 ⊆ pending_request_claim_transfers c1) as ([] & Hcov & Htr).
  { unfold c2, retire_request_claim_transfer_covered_by_completion.
    repeat case_match; try done; (split; [done|]; split; [done|]; apply delete_subseteq). }
  assert (∀ key rev i, transfer_only (with_live c2 (live_wire_requests (note_committed_interval c2 key rev i)))
    (note_committed_interval c2 key rev i) ∧
    coverage (note_committed_interval c2 key rev i) = coverage c2 ∧
    pending_request_claim_transfers (note_committed_interval c2 key rev i) =
      pending_request_claim_transfers c2) as Hnote.
  { intros key rev i. unfold note_committed_interval. by repeat case_match. }
  destruct (Hnote (sub_session (ca_sub_id x), ca_sub_id x) (ca_send_id x) (eligible_generation_interval x))
    as ([] & Hcov' & Htr'). simpl in *.
  split; simpl; try (etrans; [eassumption|]; eassumption).
  - rewrite Htr'. exact Htr.
  - right. split; [done|]. rewrite Hcov', Hcov. unfold c1, batch. simpl. by rewrite Hc.
  - intros key live' (live & Hl & ?)%note_interval_view. exists live. split; [|done].
    by rewrite <-Hl, to_live0.
Qed.
End completion.

(** ** Sending *)

Section sending.
Context `{FilterHash, TimestampArith}.

(** What a recorded send changes. *)
Record recorded (c c' : CoreRequests) (r : RequestSend) : Prop := {
  rd_send : next_send_id (attribution c') = (next_send_id (attribution c) + 1)%N;
  rd_fifo sub : fifo_of (attribution c') sub =
    if decide (sub = rs_sub_id r)
    then fifo_of (attribution c) sub ++
           [snapshot_of (next_send_id (attribution c)) (rs_filter r) (rs_coverage_claims r)]
    else fifo_of (attribution c) sub;
  rd_waiting sub : waiting c' sub =
    if decide (sub = rs_sub_id r)
    then waiting c sub ++ [(next_send_id (attribution c), rs_filter r)] else waiting c sub;
  rd_attempts id a : at_attempts (attempts c') !! id = Some a →
    (ra_filter a = rs_filter r ∧ ra_coverage_claims a = rs_coverage_claims r) ∨
    at_attempts (attempts c) !! id = Some a;
  rd_retries : at_retries (attempts c') = at_retries (attempts c);
  rd_live : live_wire_requests c' = live_wire_requests c;
  rd_transfers : pending_request_claim_transfers c' = pending_request_claim_transfers c;
  rd_coverage : coverage c' = coverage c;
  rd_clock : clock c' = clock c
}.

Lemma record_view c r c' ids :
  core_ok c → rs_session r = sub_session (rs_sub_id r) →
  (next_send_id (attribution c) < u64_max)%N → is_Some (at_next_id (attempts c)) →
  record_observed_request_detailed c r = Some (c', ids) →
  core_ok c' ∧ recorded c c' r ∧
  ∃ n, ids = (next_send_id (attribution c), n) ∧ is_Some (at_attempts (attempts c') !! n).
Proof.
  intros Hok Hhome Hsend [n Hn] Hrun.
  destruct (record_observed_request_ok c r n Hok Hhome Hsend Hn) as (c2 & Hrun2 & Hok').
  rewrite Hrun in Hrun2. injection Hrun2 as <- ->. split; [done|].
  revert Hrun. unfold record_observed_request_detailed. simpl.
  set (a := mkAttemptState _ _ _ _ _ _ _ _).
  destruct (mint_ok (attempts c) a n (k_attempts _ Hok) Hn) as (atts & -> & _ & _ & Habs).
  injection Habs as Hat Hre _. cbn [mbind option_bind]. intros [= <-].
  split; [split; simpl; try done|].
  - unfold wrapping_succ_u64. apply N.mod_small. unfold u64_max in Hsend. lia.
  - intros sub. pose proof (fifo_of_record_send (attribution c) (rs_session r) (rs_sub_id r)
      (rs_filter r) (rs_coverage_claims r) sub) as E. simpl in E. rewrite E. by case_decide; subst.
  - intros sub. unfold waiting. simpl. unfold home_key at 1. rewrite Hhome.
    case_decide as Hs; [subst|].
    + rewrite lookup_insert_eq. simpl. by rewrite fmap_app.
    + rewrite lookup_insert_ne; [done|congruence].
  - intros id x. rewrite Hat. intros [[<- <-]|[_ ?]]%lookup_insert_Some; [by left|by right].
  - exists n. split; [done|]. simpl. rewrite Hat, lookup_insert_eq. by eexists.
Qed.

(** A retry drops its entry, then sends again unless the plan moved on. *)
Lemma retry_view c effects key c' effects' :
  core_ok c → (next_send_id (attribution c) < u64_max)%N → is_Some (at_next_id (attempts c)) →
  retry_request_attempt (c, effects) key = Some (c', effects') →
  core_ok c' ∧
  ∃ c1, core_ok c1 ∧ shrinks c c1 ∧ attribution c1 = attribution c ∧
    (c' = c1 ∨ ∃ p c2, at_retries (attempts c) !! key = Some p ∧
       let a := pr_attempt p in
       let r := mkSend (ra_session a) (ra_sub_id a) (ra_filter a) (ra_coverage_claims a)
                  (ra_owner_demands a) in
       ra_session a = sub_session (ra_sub_id a) ∧
       core_ok c2 ∧ recorded c1 c2 r ∧
       (∃ atts, c' = with_attempts c2 atts ∧ at_retries atts = at_retries (attempts c2) ∧
          ∀ id x, at_attempts atts !! id = Some x → ∃ y, at_attempts (attempts c2) !! id = Some y ∧
            ra_filter x = ra_filter y ∧ ra_coverage_claims x = ra_coverage_claims y)).
Proof.
  intros Hok Hsend Hn. unfold retry_request_attempt, take_retry.
  destruct (remove_retry_ok (attempts c) key (k_attempts _ Hok)) as (atts & -> & Hatts & Habs).
  injection Habs as Hat Hre Hnx. cbn [mbind option_bind].
  set (c1 := with_attempts c atts).
  assert (core_ok c1) as Hok1 by by apply with_attempts_same_ok.
  assert (shrinks c c1) as H1.
  { split; simpl; try done; rewrite ?Hat, ?Hre; try done; [apply delete_subseteq|by left|apply live_from_refl]. }
  destruct (at_retries (attempts c) !! key) as [p|] eqn:Hp;
    [|intros [= <- <-]; split; [done|]; exists c1; auto].
  pose proof (ok_retry_home _ (k_attempts _ Hok) _ _ Hp) as Hhome.
  destruct (request_retry_is_current c1 (pr_attempt p));
    [|intros [= <- <-]; split; [done|]; exists c1; auto].
  set (r := mkSend _ _ _ _ _).
  destruct (record_observed_request_detailed c1 r) as [[c2 ids]|] eqn:Hrun; [|done].
  cbn [mbind option_bind].
  destruct (record_view c1 r c2 ids Hok1 Hhome Hsend) as (Hok2 & Hrec & n & -> & [x Hx]); [|done|].
  { unfold c1. simpl. by rewrite Hnx. }
  pose proof (set_retry_failures_ok (attempts c2) n (pr_failures p) (k_attempts _ Hok2)) as Hset.
  rewrite Hx in Hset. destruct (set_retry_failures _ n _) as [atts2|]; [|done].
  destruct Hset as [Hatts2 Habs2]. injection Habs2 as Hat2 Hre2 Hnx2. cbn [mbind option_bind].
  destruct (attempted_wire_delta _ _) as [e|]; [|done]. cbn [mbind option_bind]. intros [= <- <-].
  assert (∀ id z, at_attempts atts2 !! id = Some z → ∃ y, at_attempts (attempts c2) !! id = Some y ∧
    (ra_session z = ra_session y ∧ ra_sub_id z = ra_sub_id y) ∧
    ra_filter z = ra_filter y ∧ ra_coverage_claims z = ra_coverage_claims y) as Hsame.
  { intros id z. rewrite Hat2. intros [[<- <-]|[_ ?]]%lookup_insert_Some; eauto 10. }
  split.
  - apply with_attempts_ok; [done|done| |].
    + intros id z (y & Hy & [E1 E2] & _)%Hsame. unfold at_home. rewrite E1, E2. by eapply (k_homes _ Hok2).
    + intros k queue q Hq Hin. destruct (q_attempt _ _ _ (k_pending _ Hok2 _ _ Hq) q Hin) as (y & Hy & Hk).
      rewrite Hat2. destruct (decide (pe_attempt_id q = n)) as [E|Hne].
      * rewrite E in Hy |- *. rewrite lookup_insert_eq. eexists. split; [done|]. simpl. congruence.
      * rewrite lookup_insert_ne by done. by exists y.
  - exists c1. split; [done|]. split; [done|]. split; [done|]. right. exists p, c2. split; [done|].
    split; [done|]. split; [done|]. split; [done|]. exists atts2. split; [done|]. split; [done|].
    intros id z (y & ? & _ & ?)%Hsame. eauto.
Qed.
End sending.
