(* ===== verification/Exchange.v ===== *)
(** * A relay conversation

    The engine's requests ([Requests]) composed with the connection and the
    relay at its other end, as a step relation: requests are recorded, handed
    to the worker or refused, answered by the relay with the events it holds
    and an EOSE, frames arrive in the order the relay sent them, event commits
    succeed or fail, requests are abandoned, retried and change their claims.

    The relay is not code of this repository.  What is assumed of it is NIP-01:
    it answers the requests of one subscription in the order it got them (it
    may drop an older one for a newer one of the same name), and to a request
    without [limit] it sends the events it holds that match before the EOSE. *)

From S2P Require Import Prelude Grammar Coverage RouterTypes Router OwnerIndex Attempts Attribution Requests RequestInvariant RequestFrames.

(** ** The wire *)

Inductive Frame :=
  | FEvent (e : Event)
  (** The EOSE of one send; the send, its filter and what the relay held are
      ghosts: the wire carries only the subscription name. *)
  | FEose (send : N) (filter : ConcreteFilter) (held : list Event).

(** One EOSE that reached the engine. *)
Record Answer := mkAnswer {
  an_session : RelaySessionKey;
  an_filter : ConcreteFilter;
  an_time : N;
  an_held : list Event
}.

Record World := mkWorld {
  core : CoreRequests;
  (** Sends the relay got and has not answered. *)
  unanswered : SubId → list (N * ConcreteFilter);
  (** Frames on their way to the engine. *)
  inbox : SubId → list Frame;
  answers : list Answer;
  committed : list Event;
  (** Sends that were unanswered, or whose EOSE was on its way, when an event of
      their subscription could not be committed. *)
  tainted : list N
}.

Definition world_new (now : N) : World := mkWorld (core_new now) (λ _, []) (λ _, []) [] [] [].

Definition put {A} (f : SubId → A) (sub : SubId) (x : A) : SubId → A :=
  λ s, if decide (s = sub) then x else f s.

Definition eose_of (f : Frame) : option (N * ConcreteFilter) :=
  match f with FEose send g _ => Some (send, g) | FEvent _ => None end.

(** Sends whose EOSE the engine has not seen, oldest first. *)
Definition outstanding (w : World) (sub : SubId) : list (N * ConcreteFilter) :=
  omap eose_of (inbox w sub) ++ unanswered w sub.

Definition with_core (w : World) c : World :=
  mkWorld c (unanswered w) (inbox w) (answers w) (committed w) (tainted w).
Definition with_unanswered (w : World) u : World :=
  mkWorld (core w) u (inbox w) (answers w) (committed w) (tainted w).
Definition with_inbox (w : World) q : World :=
  mkWorld (core w) (unanswered w) q (answers w) (committed w) (tainted w).

Section exchange.
Context `{HexCodec, FilterHash, TimestampArith}.

(** Within the window of [g], every event of the claim matches [g]. *)
Definition covers (key : CoverageKey) (g : ConcreteFilter) : Prop :=
  ∀ e, concrete_matches (a_filter (ck_atom key)) e →
    since_admits (f_since g) (e_created_at e) → until_admits (f_until g) (e_created_at e) →
    concrete_matches g e.

Definition all_cover (claims : gset CoverageKey) (g : ConcreteFilter) : Prop :=
  ∀ key, key ∈ claims → covers key g.

(** A subscription without a send in the FIFO has no answer on its way. *)
Definition unambiguous (w : World) (sub : SubId) : Prop :=
  fifo_of (attribution (core w)) sub = [] → outstanding w sub = [].

(** Identifiers are left. *)
Definition ids_left (c : CoreRequests) : Prop :=
  (next_send_id (attribution c) < u64_max)%N ∧ is_Some (at_next_id (attempts c)).

Inductive step (w : World) : World → Prop :=
  | StRecord r c' ids :
      rs_session r = sub_session (rs_sub_id r) → all_cover (rs_coverage_claims r) (rs_filter r) →
      unambiguous w (rs_sub_id r) → ids_left (core w) →
      record_observed_request_detailed (core w) r = Some (c', ids) →
      step w (with_core w c')
  | StAccept sub p rest handle c' effects demands :
      pending_request_evidence (core w) !! home_key sub = Some (p :: rest) →
      consume_wire_request_handoff (core w) (Accepted (pe_attempt_id p) handle) =
        Some (c', effects, demands) →
      step w (with_unanswered (with_core w c')
                (put (unanswered w) sub
                   (unanswered w sub ++ [(pe_request_revision p, pe_filter p)])))
  | StRefuse sub p rest cause c' effects demands :
      pending_request_evidence (core w) !! home_key sub = Some (p :: rest) →
      consume_wire_request_handoff (core w) (Refused (pe_attempt_id p) cause) =
        Some (c', effects, demands) →
      step w (with_core w c')
  | StAnswer sub dropped send g rest served held :
      unanswered w sub = dropped ++ (send, g) :: rest →
      (f_limit g = None → ∀ e, e ∈ held → concrete_matches g e → e ∈ served) →
      step w (with_inbox (with_unanswered w (put (unanswered w) sub rest))
                (put (inbox w) sub
                   (inbox w sub ++ (FEvent <$> served) ++ [FEose send g held])))
  | StLiveEvent sub e :
      step w (with_inbox w (put (inbox w) sub (inbox w sub ++ [FEvent e])))
  | StCommit sub e rest :
      inbox w sub = FEvent e :: rest →
      step w (mkWorld (core w) (unanswered w) (put (inbox w) sub rest) (answers w)
                (e :: committed w) (tainted w))
  | StCommitFailed sub e rest :
      inbox w sub = FEvent e :: rest →
      step w (mkWorld (on_event_commit_failure (core w) [(sub_session sub, wire_sub_id_string sub)])
                (unanswered w) (put (inbox w) sub rest) (answers w) (committed w)
                ((outstanding w sub).*1 ++ tainted w))
  | StEose sub send g held rest observations stored c' effects :
      inbox w sub = FEose send g held :: rest →
      on_eose observations stored (core w) (sub_session sub) (wire_sub_id_string sub) =
        Some (c', effects) →
      step w (mkWorld c' (unanswered w) (put (inbox w) sub rest)
                (mkAnswer (sub_session sub) g (clock (core w)) held :: answers w)
                (committed w) (tainted w))
  (** A subscription is closed; its answers may still be on their way. *)
  | StAbandon sub c' :
      abandon_sub (core w) sub = Some c' → step w (with_core w c')
  | StReplaced successor c' effects :
      cancel_request_replacement (core w) successor = Some (c', effects) →
      step w (with_core w c')
  (** The connection is gone, and with it everything on it. *)
  | StDisconnect session c' :
      abandon_session_subs (core w) session = Some c' →
      step w (with_inbox (with_unanswered (with_core w c')
                (λ s, if decide (sub_session s = session) then [] else unanswered w s))
                (λ s, if decide (sub_session s = session) then [] else inbox w s))
  (** An authentication epoch ends on an open connection. *)
  | StAuthEpoch session c' :
      abandon_session_subs (core w) session = Some c' → step w (with_core w c')
  | StClosed session handle : step w (with_core w (close_requests_for_session (core w) session handle))
  | StClosedSub session handle sub :
      step w (with_core w (close_requests_for_sub (core w) session handle sub))
  | StUpdate u stored :
      (∀ g, filter_hash g = mu_filter_hash u → all_cover (mu_added_coverage_claims u) g) →
      step w (with_core w (apply_request_metadata_update stored (core w) u).1)
  | StRemoval physical r :
      step w (with_core w (apply_request_metadata_removal physical (core w) r))
  | StTransfer key stored :
      step w (with_core w (attempt_request_claim_transfer stored (core w) key).1)
  | StReconcile deferred session op :
      step w (with_core w (reconcile_op (core w) deferred session op))
  | StRetry key effects effects' c' :
      (∀ p, at_retries (attempts (core w)) !! key = Some p →
         unambiguous w (ra_sub_id (pr_attempt p))) →
      ids_left (core w) →
      retry_request_attempt (core w, effects) key = Some (c', effects') →
      step w (with_core w c')
  | StInstall request :
      step w (with_core w (install_request (core w) request))
  | StInstallOp claims demands priors session op :
      step w (with_core w (install_op claims demands priors session (core w) op))
  | StReplace replacement c' :
      install_replacement (core w) replacement = Some c' → step w (with_core w c')
  | StDropReplacements session c' :
      abandon_request_replacements_for_session (core w) session = Some c' →
      step w (with_core w c')
  | StClock now :
      (clock (core w) ≤ now ≤ u64_max)%N → step w (with_core w (with_clock (core w) now)).

Inductive reachable (now : N) : World → Prop :=
  | ReachNew : reachable now (world_new now)
  | ReachStep w w' : reachable now w → step w w' → reachable now w'.

(** What a proven instant stands on: an EOSE of that session, not earlier than
    the instant, such that every event the relay held of that instant and
    matching the claim has been committed. *)
Definition justified (w : World) (key : CoverageKey) (session : RelaySessionKey) (t : N) : Prop :=
  ∃ a, a ∈ answers w ∧ an_session a = session ∧ (t ≤ an_time a)%N ∧ f_limit (an_filter a) = None ∧
    ∀ e, e ∈ an_held a → e_created_at e = t → concrete_matches (a_filter (ck_atom key)) e →
      e ∈ committed w.
End exchange.
