(* ===== verification/ExchangeInvariant.v ===== *)
(** * The invariant of a relay conversation

    What every step of [Exchange] keeps: the sends whose EOSE is still to come
    are described, in order, by snapshots of the FIFO; the events an EOSE owes
    are ahead of it; tainted sends are poisoned; rows, live requests and
    transfers hold only intervals that are justified. *)

From S2P Require Import Prelude Grammar Coverage RouterTypes Router OwnerIndex Attempts Attribution Requests RequestInvariant RequestFrames Exchange.

(** ** Sublists *)

Lemma sublist_Forall2_l {A B} (R : A → B → Prop) l l' k :
  sublist l' l → Forall2 R l k → ∃ k', sublist k' k ∧ Forall2 R l' k'.
Proof.
  intros Hs. revert k. induction Hs as [|x l' l Hs IH|x l' l Hs IH]; intros k Hk.
  - exists []. split; [apply sublist_nil_l|done].
  - apply Forall2_cons_inv_l in Hk as (y & k2 & Hxy & Hk & ->).
    destruct (IH _ Hk) as (k' & ? & ?). exists (y :: k'). split; [by apply sublist_skip|by constructor].
  - apply Forall2_cons_inv_l in Hk as (y & k2 & Hxy & Hk & ->).
    destruct (IH _ Hk) as (k' & ? & ?). exists k'. split; [by apply sublist_cons|done].
Qed.

Lemma sublist_Forall2_r {A B} (R : A → B → Prop) l k k' :
  sublist k' k → Forall2 R l k → ∃ l', sublist l' l ∧ Forall2 R l' k'.
Proof.
  intros Hs Hf. apply Forall2_flip in Hf.
  destruct (sublist_Forall2_l _ _ _ _ Hs Hf) as (l' & ? & Hl'). exists l'. split; [done|].
  by apply Forall2_flip in Hl'.
Qed.

Lemma remove_revision_mono r l l' :
  NoDup (sn_send_id <$> l) → sublist l' l → sublist (remove_revision r l') (remove_revision r l).
Proof.
  intros Hd Hs. revert Hd. induction Hs as [|x l' l Hs IH|x l' l Hs IH]; simpl; intros Hd; [done|..];
    apply NoDup_cons in Hd as [Hx Hd].
  - destruct (N.eqb_spec (sn_send_id x) r); [done|]. by apply sublist_skip, IH.
  - destruct (N.eqb_spec (sn_send_id x) r) as [<-|]; [|by apply sublist_cons, IH].
    rewrite remove_revision_absent; [done|]. apply not_true_iff_false. intros Hin. apply Hx.
    apply existsb_exists in Hin as (y & Hy%list_elem_of_In & <-%N.eqb_eq).
    apply list_elem_of_fmap_2. by eapply elem_of_sublist.
Qed.

Lemma remove_revision_middle a s b :
  sn_send_id s ∉ sn_send_id <$> a → remove_revision (sn_send_id s) (a ++ s :: b) = a ++ b.
Proof.
  induction a as [|x a IH]; simpl; intros Hn; [by rewrite N.eqb_refl|].
  apply not_elem_of_cons in Hn as [Hne Hn]. destruct (N.eqb_spec (sn_send_id x) (sn_send_id s)); [done|].
  by rewrite IH.
Qed.

Lemma sorted_lt_NoDup l : StronglySorted N.lt l → NoDup l.
Proof.
  induction 1 as [|x l _ IH Hx]; constructor; [|done]. intros Hin.
  rewrite Forall_forall in Hx. specialize (Hx _ Hin). lia.
Qed.

(** ** Sends and the snapshots that describe them *)

Section sound.
Context `{HexCodec, FilterHash, !TimestampArith, !TimestampLaws}.

Record describes (s : AttributionSnapshot) (x : N * ConcreteFilter) : Prop := mkDescribes {
  ds_id : sn_send_id s = x.1;
  ds_hash : sn_filter_hash s = filter_hash x.2;
  ds_floor : sn_floor s = f_since x.2;
  ds_until : sn_until s = f_until x.2;
  ds_limit : f_limit x.2 ≠ None → sn_coverage_authority s ≠ Eligible;
  ds_claims : all_cover (sn_coverage_claims s) x.2
}.

(** A later state of the same snapshot: it may be poisoned, lose claims, and
    gain claims of every filter with its hash. *)
Record snap_from (s s' : AttributionSnapshot) : Prop := mkSnapFrom {
  sf_id : sn_send_id s' = sn_send_id s;
  sf_hash : sn_filter_hash s' = sn_filter_hash s;
  sf_floor : sn_floor s' = sn_floor s;
  sf_until : sn_until s' = sn_until s;
  sf_authority : sn_coverage_authority s' = Eligible → sn_coverage_authority s = Eligible;
  sf_claims k : k ∈ sn_coverage_claims s' → k ∈ sn_coverage_claims s ∨
    ∀ g, filter_hash g = sn_filter_hash s → covers k g
}.

Lemma snap_from_refl s : snap_from s s.
Proof. split; auto. Qed.

Lemma snap_from_trans s1 s2 s3 : snap_from s1 s2 → snap_from s2 s3 → snap_from s1 s3.
Proof.
  intros [] []. split; try congruence; [by auto|]. intros k [Hk|Hk]%sf_claims1; [by auto|].
  right. intros g Hg. apply Hk. congruence.
Qed.

Lemma snaps_from_refl l : Forall2 snap_from l l.
Proof. apply Forall_Forall2_diag, Forall_true. apply snap_from_refl. Qed.

Lemma snaps_from_trans l1 l2 l3 :
  Forall2 snap_from l1 l2 → Forall2 snap_from l2 l3 → Forall2 snap_from l1 l3.
Proof. apply Forall2_trans. apply snap_from_trans. Qed.

(** The current snapshot of one subscription is rewritten. *)
Lemma rewrite_current_from st sub h older current s' sub' :
  current_send st sub h = Some (older, current) → snap_from current s' →
  Forall2 snap_from (fifo_of st sub')
    (fifo_of (set_inflight st (<[sub := older ++ [s']]> (inflight st))) sub').
Proof.
  intros [Hf _]%current_send_Some Hs. rewrite put_fifo_snoc, fifo_of_put.
  case_decide as E; [subst|apply snaps_from_refl]. rewrite Hf. apply Forall2_app; [apply snaps_from_refl|].
  constructor; [done|constructor].
Qed.

(** Claims are added only where they belong to every filter of that hash. *)
Lemma extend_claims_from st sub h added st' had added' extended :
  (∀ g, filter_hash g = h → all_cover added g) →
  extend_current_request_claims st sub h added = (st', (had, added', extended)) →
  added' ⊆ added ∧ ∀ sub', Forall2 snap_from (fifo_of st sub') (fifo_of st' sub').
Proof.
  intros Hadd. unfold extend_current_request_claims.
  set (fresh := match live_request_claims st !! sub with Some _ => _ | None => _ end).
  assert (fresh ⊆ added) as Hfresh by (unfold fresh; case_match; set_solver).
  destruct (current_send st sub h) as [[older current]|] eqn:Hc.
  2: { intros [= <- <- <- <-]. split; [done|]. intros. apply snaps_from_refl. }
  set (st1 := retain_added_live_request_claims st sub fresh).
  unfold extend_current_send_claims. change (current_send st1 sub h) with (current_send st sub h).
  rewrite Hc. intros [= <- <- <- <-]. split; [done|]. intros sub'.
  apply (rewrite_current_from st sub h older current); [done|].
  split; simpl; try done. intros k [?|Hk]%elem_of_union; [by left|right].
  apply current_send_Some in Hc as [_ Hh]. rewrite Hh. intros g Hg. apply (Hadd g Hg). by apply Hfresh.
Qed.

Lemma remove_claims_from st sub h removed sub' :
  Forall2 snap_from (fifo_of st sub') (fifo_of (remove_current_send_claims st sub h removed).1 sub').
Proof.
  unfold remove_current_send_claims.
  destruct (current_send st sub h) as [[older current]|] eqn:Hc; [|apply snaps_from_refl].
  apply (rewrite_current_from st sub h older current); [done|].
  split; simpl; try done. intros k [? _]%elem_of_difference. by left.
Qed.

Lemma describes_from s s' x : describes s x → snap_from s s' → describes s' x.
Proof.
  intros [Hi Hh Hf Hu Hl Hc] []. split; try congruence.
  - intros Hlim Ha. by apply Hl, sf_authority0.
  - intros k [?|Hk]%sf_claims0; [by apply Hc|]. apply Hk. congruence.
Qed.

(** The outstanding and waiting sends are described, in order, by snapshots of
    the FIFO; or the subscription is gone and nothing of it is attributed. *)
Definition sends_ok (fifo : list AttributionSnapshot) (out wait : list (N * ConcreteFilter))
    (gone : Prop) : Prop :=
  (∃ described, sublist described fifo ∧ Forall2 describes described (out ++ wait)) ∨
  (fifo = [] ∧ wait = [] ∧ gone).

Lemma sends_from fifo fifo' out wait (gone gone' : Prop) :
  Forall2 snap_from fifo fifo' → (gone → gone') →
  sends_ok fifo out wait gone → sends_ok fifo' out wait gone'.
Proof.
  intros Hf Hg [(F & Hs & HF)|(-> & -> & ?)].
  - left. destruct (sublist_Forall2_l _ _ _ _ Hs Hf) as (F' & Hs' & HF'). exists F'. split; [done|].
    clear -HF HF'. revert F' HF'. induction HF as [|s x F l Hd _ IH]; intros F' HF'.
    + apply Forall2_nil_inv_l in HF' as ->. constructor.
    + apply Forall2_cons_inv_l in HF' as (s' & F2 & ? & ? & ->).
      constructor; [by eapply describes_from|by apply IH].
  - apply Forall2_nil_inv_l in Hf as ->. right. auto.
Qed.

Lemma sends_fewer fifo out out' wait (gone : Prop) :
  sublist out' out → sends_ok fifo out wait gone → sends_ok fifo out' wait gone.
Proof.
  intros Ho [(F & Hs & HF)|?]; [left|by right].
  assert (sublist (out' ++ wait) (out ++ wait)) as Ho' by by apply sublist_app.
  destruct (sublist_Forall2_r _ _ _ _ Ho' HF) as (F' & ? & ?).
  exists F'. split; [by etrans|done].
Qed.

Lemma sends_record fifo out wait (gone gone' : Prop) s x :
  (fifo = [] → out = []) → describes s x → sends_ok fifo out wait gone →
  sends_ok (fifo ++ [s]) out (wait ++ [x]) gone'.
Proof.
  intros Hout Hd [(F & Hs & HF)|(-> & -> & _)]; left.
  - exists (F ++ [s]). split; [by apply sublist_app|]. rewrite (assoc_L (++)).
    apply Forall2_app; [done|constructor; [done|constructor]].
  - exists [s]. rewrite (Hout eq_refl). split; [done|constructor; [done|constructor]].
Qed.

Lemma sends_accept fifo out wait (gone gone' : Prop) x :
  sends_ok fifo out (x :: wait) gone → sends_ok fifo (out ++ [x]) wait gone'.
Proof.
  intros [(F & Hs & HF)|(_ & ? & _)]; [|done]. left. exists F. split; [done|].
  by rewrite <-(assoc_L (++)).
Qed.

Lemma sends_head fifo out wait (gone : Prop) x :
  StronglySorted N.lt (sn_send_id <$> fifo) → sends_ok fifo out (x :: wait) gone →
  (∀ y, y ∈ out → (y.1 < x.1)%N) ∧ x.1 ∈ sn_send_id <$> fifo.
Proof.
  intros Hsort [(F & Hs & HF)|(_ & ? & _)]; [|done].
  pose proof (fmap_sublist sn_send_id _ _ Hs) as Hids.
  apply Forall2_app_inv_r in HF as (a & b & Ha & Hb & ->).
  apply Forall2_cons_inv_r in Hb as (s & b2 & Hsx & Hb & ->).
  rewrite fmap_app in Hids. simpl in Hids. split.
  - intros y [i Hi]%list_elem_of_lookup. destruct (Forall2_lookup_r _ _ _ _ _ Ha Hi) as (s' & Hs' & Hd).
    apply (StronglySorted_sublist _ _ _ Hids) in Hsort.
    rewrite <-(ds_id _ _ Hd), <-(ds_id _ _ Hsx).
    eapply StronglySorted_app_1_elem_of; [exact Hsort|..|left].
    apply list_elem_of_fmap_2. by eapply list_elem_of_lookup_2.
  - rewrite <-(ds_id _ _ Hsx). eapply elem_of_sublist; [|exact Hids].
    apply elem_of_app. right. left.
Qed.

Lemma sends_refuse fifo out wait (gone gone' : Prop) x :
  StronglySorted N.lt (sn_send_id <$> fifo) →
  sends_ok fifo out (x :: wait) gone → sends_ok (remove_revision x.1 fifo) out wait gone'.
Proof.
  intros Hsort [(F & Hs & HF)|(_ & ? & _)]; [|done]. left.
  assert (NoDup (sn_send_id <$> fifo)) as Hd by by apply sorted_lt_NoDup.
  apply Forall2_app_inv_r in HF as (a & b & Ha & Hb & ->).
  apply Forall2_cons_inv_r in Hb as (s & b2 & Hsx & Hb & ->).
  exists (a ++ b2). split; [|by apply Forall2_app].
  rewrite <-(ds_id _ _ Hsx), <-(remove_revision_middle a s b2); [by apply remove_revision_mono|].
  pose proof (sublist_NoDup _ _ Hd (fmap_sublist sn_send_id _ _ Hs)) as Hd2. clear Hd. rename Hd2 into Hd.
  rewrite fmap_app in Hd. apply NoDup_app in Hd as (_ & Hd & _). intros Hin.
  by apply (Hd _ Hin); left.
Qed.

Lemma sends_pop f fifo out wait (gone gone' : Prop) x :
  sends_ok (f :: fifo) (x :: out) wait gone → sends_ok fifo out wait gone'.
Proof.
  intros [(F & Hs & HF)|(? & _)]; [|done]. left.
  apply Forall2_cons_inv_r in HF as (s & F2 & _ & HF & ->). exists F2. split; [|done].
  apply sublist_cons_r in Hs as [Hs|(l & [= <- <-] & Hs)]; [|done].
  etrans; [by apply sublist_cons|done].
Qed.
(** ** Frames on their way *)

(** Before an EOSE of a good send come the events it owes: they are known or
    on their way ahead of it. *)
Fixpoint frames_ok (known : Event → Prop) (bad : N → Prop) (q : list Frame) : Prop :=
  match q with
  | [] => True
  | FEvent e :: q => frames_ok (λ x, x = e ∨ known x) bad q
  | FEose send g held :: q =>
      (f_limit g = None → ¬ bad send → ∀ e, e ∈ held → concrete_matches g e → known e) ∧
      frames_ok known bad q
  end.

Lemma frames_mono (K K' : Event → Prop) (B B' : N → Prop) q :
  (∀ e, K e → K' e) → (∀ n, B n → B' n) → frames_ok K B q → frames_ok K' B' q.
Proof.
  revert K K'. induction q as [|[e|send g held] q IH]; intros K K' HK HB; simpl; [done|..].
  - apply IH; [|done]. intros x [?|?]; auto.
  - intros [Hs Hq]. split; [|by eapply IH]. intros Hl Hb e ??. apply HK, Hs; auto.
Qed.

Lemma frames_bad (K : Event → Prop) (B : N → Prop) q :
  (∀ x, x ∈ omap eose_of q → B x.1) → frames_ok K B q.
Proof.
  revert K. induction q as [|[e|send g held] q IH]; intros K HB; simpl; [done|by apply IH|].
  split; [|apply IH; intros x ?; apply HB; by right].
  intros _ []. apply (HB (send, g)). left.
Qed.

Lemma frames_app (K : Event → Prop) (B : N → Prop) q1 q2 :
  frames_ok K B q1 → frames_ok (λ x, FEvent x ∈ q1 ∨ K x) B q2 → frames_ok K B (q1 ++ q2).
Proof.
  revert K. induction q1 as [|[e|send g held] q1 IH]; intros K; simpl.
  - intros _. apply frames_mono; [|done]. intros x [[]%not_elem_of_nil|?]; done.
  - intros Hq1 Hq2. apply IH; [done|]. eapply frames_mono; [|done|exact Hq2].
    intros x [[Hx|?]%elem_of_cons|?]; [injection Hx as ->|..]; auto.
  - intros [Hs Hq1] Hq2. split; [done|]. apply IH; [done|]. eapply frames_mono; [|done|exact Hq2].
    intros x [[?|?]%elem_of_cons|?]; auto. done.
Qed.

Lemma frames_events (K : Event → Prop) (B : N → Prop) es q :
  frames_ok (λ x, x ∈ es ∨ K x) B q → frames_ok K B ((FEvent <$> es) ++ q).
Proof.
  revert K. induction es as [|e es IH]; intros K; simpl.
  - apply frames_mono; [|done]. intros x [?%not_elem_of_nil|?]; done.
  - intros Hq. apply IH. eapply frames_mono; [|done|exact Hq].
    intros x [[->|?]%elem_of_cons|?]; auto.
Qed.

(** ** What is proven *)

Lemma justified_mono w w' k session t :
  (∀ a, a ∈ answers w → a ∈ answers w') → (∀ e, e ∈ committed w → e ∈ committed w') →
  justified w k session t → justified w' k session t.
Proof.
  intros Ha Hc (a & ? & ? & ? & ? & He). exists a. split_and!; auto.
Qed.

(** An interval that stands for every claim a filter covers. *)
Definition proven (w : World) (session : RelaySessionKey) (g : ConcreteFilter)
    (i : CoverageInterval) : Prop :=
  (ci_through i ≤ u64_max)%N ∧
  ∀ k t, covers k g → f_limit g = None → within t i → justified w k session t.

Definition rows_ok (w : World) (table : CoverageTable) : Prop :=
  ∀ k session i, table !! (k, session) = Some i →
    (ci_through i ≤ u64_max)%N ∧ ∀ t, within t i → justified w k session t.

Definition transfer_ok (w : World) (p : PendingRequestClaimTransfer) : Prop :=
  (∀ g, filter_hash g = pt_filter_hash p → all_cover (pt_claims p) g) ∧
  ∃ g, filter_hash g = pt_filter_hash p ∧ f_limit g = None ∧ proven w (pt_session p) g (pt_interval p).

Lemma proven_mono w w' session g i :
  (∀ a, a ∈ answers w → a ∈ answers w') → (∀ e, e ∈ committed w → e ∈ committed w') →
  proven w session g i → proven w' session g i.
Proof. intros Ha Hc [? Hp]. split; [done|]. intros k t ???. eapply justified_mono; eauto. Qed.

(** Recording intervals that are justified keeps the rows justified. *)
Lemma record_rows_ok w table claims :
  rows_ok w table →
  (∀ k session i, (k, session, i) ∈ claims →
     (ci_through i ≤ u64_max)%N ∧ ∀ t, within t i → justified w k session t) →
  rows_ok w (record_coverage claims table).
Proof.
  intros Ht Hc.
  destruct (record_coverage_within claims table) as [Hbound Hin].
  - intros [k session] i Hi. by apply (Ht k session).
  - apply Forall_forall. intros [[k session] i] Hi. by apply (Hc k session).
  - intros k session i Hi. split; [by apply (Hbound _ _ Hi)|]. intros t Hw.
    destruct (Hin _ _ _ Hi Hw) as [(i0 & Hi0 & Hw0)|(p & Hp & Hwp)].
    + by eapply Ht.
    + by eapply Hc.
Qed.

(** ** The invariant *)

Definition covered (a : RequestAttemptState) : Prop := all_cover (ra_coverage_claims a) (ra_filter a).

Definition gone (c : CoreRequests) (sub : SubId) : Prop :=
  live_wire_requests c !! home_key sub = None.

(** A live request is the newest send of its subscription the relay got, and
    keeps only an interval its filter proved. *)
Definition live_ok (w : World) (sub : SubId) (filter : ConcreteFilter) (revision : N)
    (interval : option CoverageInterval) : Prop :=
  (∀ x, x ∈ outstanding w sub → (x.1 ≤ revision)%N ∧ (x.1 = revision → x.2 = filter)) ∧
  ∀ i, interval = Some i → proven w (sub_session sub) filter i.

Record inv (w : World) : Prop := mkInv {
  i_core : core_ok (core w);
  i_clock : (clock (core w) ≤ u64_max)%N;
  i_attempts id a : at_attempts (attempts (core w)) !! id = Some a → covered a;
  i_retries key p : at_retries (attempts (core w)) !! key = Some p → covered (pr_attempt p);
  i_sends sub : sends_ok (fifo_of (attribution (core w)) sub) (outstanding w sub)
                  (waiting (core w) sub) (gone (core w) sub);
  i_bound sub x : x ∈ outstanding w sub →
    (x.1 < next_send_id (attribution (core w)))%N ∧
    ∀ sub', sent_in (attribution (core w)) sub' x.1 → sub' = sub;
  i_tainted n : n ∈ tainted w → (n < next_send_id (attribution (core w)))%N;
  i_poisoned sub s : s ∈ fifo_of (attribution (core w)) sub → sn_send_id s ∈ tainted w →
    sn_coverage_authority s ≠ Eligible;
  i_inbox sub : frames_ok (λ e, e ∈ committed w) (λ n, n ∈ tainted w) (inbox w sub);
  i_live sub live : live_wire_requests (core w) !! home_key sub = Some live →
    live_ok w sub (lw_filter live) (revision_of (lw_stored_events live))
      (interval_of (lw_stored_events live));
  i_rows : rows_ok w (coverage (core w));
  i_transfers key p : pending_request_claim_transfers (core w) !! key = Some p → transfer_ok w p
}.

Lemma world_new_inv now : (now ≤ u64_max)%N → inv (world_new now).
Proof.
  intros Hnow. split; simpl; try done; try by (intros *; rewrite lookup_empty).
  - apply core_new_ok.
  - intros sub. left. exists []. split; [apply sublist_nil_l|constructor].
  - by intros sub x ?%not_elem_of_nil.
  - by intros n ?%not_elem_of_nil.
  - by intros sub s ?%not_elem_of_nil.
Qed.
End sound.
