(* ===== verification/ExchangeSound.v ===== *)
(** * Coverage is earned

    Every step of the conversation of [Exchange] keeps its invariant, and the
    main consequence: every instant a coverage row proves stands on an EOSE of
    that session whose relay had nothing of that instant left that the engine
    does not hold. *)

From S2P Require Import Prelude Grammar Coverage RouterTypes Router OwnerIndex Attempts Attribution Requests RequestInvariant RequestFrames Exchange ExchangeInvariant.

Section sound.
Context `{HexCodec, FilterHash, !TimestampArith, !TimestampLaws}.

(** ** Steps that put nothing new on the wire *)

Record evolves (w : World) (c' : CoreRequests) : Prop := mkEvolves {
  ev_ok : core_ok c';
  ev_clock : (clock c' ≤ u64_max)%N;
  ev_attempts id a : at_attempts (attempts c') !! id = Some a → covered a;
  ev_retries key p : at_retries (attempts c') !! key = Some p → covered (pr_attempt p);
  ev_send : next_send_id (attribution c') = next_send_id (attribution (core w));
  ev_sends sub :
    (Forall2 snap_from (fifo_of (attribution (core w)) sub) (fifo_of (attribution c') sub) ∧
     waiting c' sub = waiting (core w) sub) ∨
    (fifo_of (attribution c') sub = [] ∧ waiting c' sub = [] ∧ gone c' sub);
  ev_live : live_from (live_wire_requests (core w)) (live_wire_requests c');
  ev_rows : rows_ok w (coverage c');
  ev_transfers key p : pending_request_claim_transfers c' !! key = Some p → transfer_ok w p
}.

(** A snapshot of the new FIFO was in the old one. *)
Lemma evolves_snapshot w c' sub s' :
  evolves w c' → s' ∈ fifo_of (attribution c') sub →
  ∃ s, s ∈ fifo_of (attribution (core w)) sub ∧ snap_from s s'.
Proof.
  intros Hev Hin. destruct (ev_sends _ _ Hev sub) as [[Hf _]|(Hf & _)].
  - apply list_elem_of_lookup in Hin as [i Hi].
    destruct (Forall2_lookup_r _ _ _ _ _ Hf Hi) as (s & Hs & ?). exists s.
    split; [by eapply list_elem_of_lookup_2|done].
  - rewrite Hf in Hin. by apply not_elem_of_nil in Hin.
Qed.

Lemma inv_evolves w c' : inv w → evolves w c' → inv (with_core w c').
Proof.
  intros Hw Hev. pose proof Hev as []. split; simpl; try done.
  - intros sub. change (outstanding (with_core w c') sub) with (outstanding w sub).
    pose proof (i_sends _ Hw sub) as Hs.
    destruct (ev_sends0 sub) as [[Hf ->]|?]; [|by right].
    eapply sends_from; [exact Hf| |exact Hs]. by apply live_from_None.
  - intros sub x Hx. destruct (i_bound _ Hw sub x Hx) as [? Hown]. rewrite ev_send0. split; [done|].
    intros sub' (s' & Hid & Hs')%list_elem_of_fmap. apply Hown.
    destruct (evolves_snapshot _ _ _ _ Hev Hs') as (s & Hs & Hf). rewrite Hid, (sf_id _ _ Hf).
    by apply list_elem_of_fmap_2.
  - rewrite ev_send0. apply Hw.
  - intros sub s' Hs' Ht Ha. destruct (evolves_snapshot _ _ _ _ Hev Hs') as (s & Hs & Hf).
    rewrite (sf_id _ _ Hf) in Ht. by apply (i_poisoned _ Hw _ _ Hs Ht), (sf_authority _ _ Hf).
  - apply Hw.
  - intros sub live' (live & Hl & -> & -> & ->)%ev_live0. by apply (i_live _ Hw).
Qed.

Lemma shrinks_evolves w c' : inv w → core_ok c' → shrinks (core w) c' → evolves w c'.
Proof.
  intros Hw Hok []. split; try done.
  - rewrite sh_clock. apply Hw.
  - intros id a Ha. by eapply (i_attempts _ Hw), lookup_weaken.
  - intros key p Hp. by eapply (i_retries _ Hw), lookup_weaken.
  - intros sub. destruct (sh_sends sub) as [[-> ->]|?]; [left|by right]. split; [|done].
    apply snaps_from_refl.
  - rewrite sh_coverage. apply Hw.
  - intros key p Hp. by eapply (i_transfers _ Hw), lookup_weaken.
Qed.

Lemma inv_shrinks w c' : inv w → core_ok c' → shrinks (core w) c' → inv (with_core w c').
Proof. intros. by apply inv_evolves, shrinks_evolves. Qed.

(** ** Transfers and metadata *)

Lemma same_transfer_ok w p p' : same_transfer p p' → transfer_ok w p → transfer_ok w p'.
Proof. intros (Hs & Hh & Hi & Hc). unfold transfer_ok. by rewrite Hs, Hh, Hi, Hc. Qed.

Lemma transfer_rows_ok w p table :
  transfer_ok w p → rows_ok w table →
  rows_ok w (record_coverage ((λ k, (k, pt_session p, pt_interval p)) <$> ordered (pt_claims p)) table).
Proof.
  intros [Hc (g & Hg & Hl & Hmax & Hp)] Ht. apply record_rows_ok; [done|].
  intros k session i (k' & [= -> -> ->] & Hk%elem_of_ordered)%list_elem_of_fmap. split; [done|].
  intros t Hw. apply Hp; [|done|done]. by apply Hc.
Qed.

Lemma attempt_transfer_evolves w stored c key :
  evolves w c → evolves w (attempt_request_claim_transfer stored c key).1.
Proof.
  intros []. destruct (attempt_transfer_view stored c key) as ([] & Htr & Hcov).
  set (c' := (attempt_request_claim_transfer stored c key).1) in *.
  assert (∀ sub, waiting c' sub = waiting c sub) as Hwait.
  { intros sub. unfold waiting. by rewrite to_pending. }
  assert (∀ sub, fifo_of (attribution c') sub = fifo_of (attribution c) sub) as Hfifo.
  { intros sub. unfold fifo_of. by rewrite to_inflight. }
  split; rewrite ?to_attempts, ?to_send, ?to_live, ?to_clock; try done.
  - by apply attempt_transfer_ok.
  - intros sub. rewrite Hwait, Hfifo. unfold gone. rewrite to_live. apply ev_sends0.
  - destruct Hcov as [-> |(p & Hp & ->)]; [done|]. apply transfer_rows_ok; [by eapply ev_transfers0|done].
  - intros k p' (p & Hp & Hs)%Htr. eapply same_transfer_ok; [done|by eapply ev_transfers0].
Qed.
Lemma files_transfer_evolves w c session sub hash added live p :
  inv w → evolves w c → (∀ g, filter_hash g = hash → all_cover added g) →
  files_transfer c session sub hash added live p →
  evolves w (with_transfers c (<[(session, sub) := p]> (pending_request_claim_transfers c))).
Proof.
  intros Hw Hev Hadd []. pose proof Hev as [].
  pose proof (k_live _ ev_ok0 _ _ ft_live) as Hk. simpl in Hk.
  assert (session = sub_session sub) as Hsub by exact (f_equal fst Hk).
  assert (transfer_ok w p) as Hp.
  { split.
    - rewrite ft_pt_hash. intros g Hg k [?|(p0 & Hp0 & Hh & ?)]%ft_claims; [by apply (Hadd g Hg)|].
      apply ev_transfers0 in Hp0 as [Hc _]. apply (Hc g); congruence.
    - exists (lw_filter live). split; [congruence|]. split; [done|].
      destruct (ev_live0 _ _ ft_live) as (l0 & Hl0 & -> & _ & Hi). rewrite ft_session.
      rewrite Hk in Hl0. apply (i_live _ Hw) in Hl0 as [_ Hl0]. rewrite Hsub. apply Hl0. congruence. }
  split; simpl; try done.
  - apply insert_transfer_ok; [done|congruence|]. by rewrite ft_sub.
  - intros k q [[<- <-]|[_ ?]]%lookup_insert_Some; [done|by eapply ev_transfers0].
Qed.

Lemma transfer_finished_evolves w stored c session sub hash had added :
  inv w → evolves w c → (∀ g, filter_hash g = hash → all_cover added g) →
  evolves w (transfer_finished_request_claims stored c session sub hash had added).1.
Proof.
  intros Hw Hev Hadd.
  destruct (transfer_finished_view stored c session sub hash had added (ev_ok _ _ Hev))
    as [->|(live & p & Hp & [->| ->])]; [done|..].
  - by eapply files_transfer_evolves.
  - apply attempt_transfer_evolves. by eapply files_transfer_evolves.
Qed.

Lemma attribution_evolves w c attr :
  evolves w c → attribution_ok attr → next_send_id attr = next_send_id (attribution c) →
  (∀ sub, Forall2 snap_from (fifo_of (attribution c) sub) (fifo_of attr sub)) →
  evolves w (with_attribution c attr).
Proof.
  intros [] Hattr Hn Hf. split; simpl; try done.
  - apply with_attribution_ok; [done|done|by rewrite Hn].
  - congruence.
  - intros sub. specialize (Hf sub). change (waiting (with_attribution c attr) sub) with (waiting c sub).
    destruct (ev_sends0 sub) as [[Hs ?]|(Hs & ? & ?)]; [left|right].
    + split; [|done]. by eapply snaps_from_trans.
    + rewrite Hs in Hf. apply Forall2_nil_inv_l in Hf. auto.
Qed.

Lemma update_evolves w u stored :
  inv w → (∀ g, filter_hash g = mu_filter_hash u → all_cover (mu_added_coverage_claims u) g) →
  evolves w (apply_request_metadata_update stored (core w) u).1.
Proof.
  intros Hw Hadd. unfold apply_request_metadata_update.
  set (c0 := extend_plan_execution_metadata (core w) u).
  set (c1 := extend_current_request_owner_demands _ _ _ _ _).
  assert (core_ok c0) as Hok0 by apply extend_metadata_ok, Hw.
  assert (evolves w c1) as Hev1.
  { apply shrinks_evolves; [done|by apply update_owner_demands_ok|].
    etrans; [apply extend_metadata_shrinks|]. by apply update_owner_demands_shrinks. }
  pose proof (extend_current_request_claims_ok (attribution c1) (mu_sub_id u) (mu_filter_hash u)
    (mu_added_coverage_claims u) (k_attribution _ (ev_ok _ _ Hev1))) as Hattr.
  pose proof (extend_claims_send (attribution c1) (mu_sub_id u) (mu_filter_hash u)
    (mu_added_coverage_claims u)) as Hsend.
  destruct (extend_current_request_claims _ _ _ _) as [attr [[had added] ext]] eqn:E.
  apply extend_claims_from in E as [Hsub Hfrom]; [|done]. simpl in *.
  assert (evolves w (with_attribution c1 attr)) as Hev2 by by apply attribution_evolves.
  destruct ext; [done|]. apply transfer_finished_evolves; [done|done|].
  intros g Hg k Hk. apply (Hadd g Hg). by apply Hsub.
Qed.

Lemma removal_evolves w physical r :
  inv w → evolves w (apply_request_metadata_removal physical (core w) r).
Proof.
  intros Hw. unfold apply_request_metadata_removal.
  set (detachable := match physical _ _ with Some _ => _ | None => _ end).
  set (c1 := match plan_execution_metadata _ !! _ with Some _ => _ | None => _ end).
  assert (core_ok c1 ∧ shrinks (core w) c1) as [Hok1 Hs1].
  { unfold c1. pose proof (i_core _ Hw). repeat case_match; try done.
    split; [by apply with_metadata_ok|unseen]. }
  set (c2 := remove_current_request_owner_demands _ _ _ _ _).
  assert (evolves w c2) as Hev2.
  { apply shrinks_evolves; [done|by apply update_owner_demands_ok|].
    etrans; [exact Hs1|by apply update_owner_demands_shrinks]. }
  set (c3 := with_attribution c2 _).
  assert (evolves w c3) as Hev3.
  { destruct (release_delta_send (attribution c2) (mr_sub_id r) detachable) as [Hn Hi].
    apply attribution_evolves; [done|apply release_delta_ok, Hev2|done|].
    intros sub. unfold fifo_of. rewrite Hi. apply snaps_from_refl. }
  apply attribution_evolves; [done|apply remove_current_send_claims_ok, Hev3|apply remove_claims_send|].
  intros sub. apply remove_claims_from.
Qed.

(** ** Sending *)

Lemma snapshot_describes n g claims : all_cover claims g → describes (snapshot_of n g claims) (n, g).
Proof. intros Hc. split; simpl; try done. by destruct (f_limit g). Qed.

Lemma inv_recorded w c' r :
  inv w → core_ok c' → recorded (core w) c' r → all_cover (rs_coverage_claims r) (rs_filter r) →
  unambiguous w (rs_sub_id r) → inv (with_core w c').
Proof.
  intros Hw Hok [] Hcov Hamb. split; simpl; try done.
  - rewrite rd_clock. apply Hw.
  - intros id a [[Hf Hc]|?]%rd_attempts; [|by eapply i_attempts]. unfold covered. by rewrite Hf, Hc.
  - rewrite rd_retries. apply Hw.
  - intros sub. change (outstanding (with_core w c') sub) with (outstanding w sub).
    rewrite rd_fifo, rd_waiting. unfold gone. rewrite rd_live. pose proof (i_sends _ Hw sub) as Hs.
    case_decide; [subst|done]. eapply sends_record; [exact Hamb| |exact Hs].
    by apply snapshot_describes.
  - intros sub x Hx. destruct (i_bound _ Hw sub x Hx) as [Hlt Hown]. rewrite rd_send. split; [lia|].
    intros sub' Hin. unfold sent_in in Hin. rewrite rd_fifo in Hin. apply Hown. unfold sent_in.
    case_decide; [|done]. rewrite fmap_app in Hin. apply elem_of_app in Hin as [?|Hin]; [done|].
    apply list_elem_of_singleton in Hin. simpl in Hin. lia.
  - intros n Hn%(i_tainted _ Hw). rewrite rd_send. lia.
  - intros sub s. rewrite rd_fifo. case_decide; [|by apply (i_poisoned _ Hw)].
    intros [?|Hs]%elem_of_app Ht; [by eapply (i_poisoned _ Hw)|].
    apply list_elem_of_singleton in Hs as ->. simpl in Ht. apply (i_tainted _ Hw) in Ht. lia.
  - apply Hw.
  - intros sub live. rewrite rd_live. apply (i_live _ Hw).
  - rewrite rd_coverage. apply Hw.
  - rewrite rd_transfers. apply Hw.
Qed.

Lemma inv_attempts w atts :
  inv w → core_ok (with_attempts (core w) atts) →
  (∀ id x, at_attempts atts !! id = Some x → ∃ y, at_attempts (attempts (core w)) !! id = Some y ∧
     ra_filter x = ra_filter y ∧ ra_coverage_claims x = ra_coverage_claims y) →
  at_retries atts = at_retries (attempts (core w)) →
  inv (with_core w (with_attempts (core w) atts)).
Proof.
  intros Hw Hok Hat Hre. pose proof Hw as []. split; simpl; try done.
  - intros id x (y & Hy & Hf & Hc)%Hat. unfold covered. rewrite Hf, Hc. by eapply i_attempts.
  - rewrite Hre. apply i_retries.
Qed.

Lemma inv_retry w key effects effects' c' :
  inv w → ids_left (core w) →
  (∀ p, at_retries (attempts (core w)) !! key = Some p → unambiguous w (ra_sub_id (pr_attempt p))) →
  retry_request_attempt (core w, effects) key = Some (c', effects') →
  inv (with_core w c').
Proof.
  intros Hw [Hsend Hn] Hamb Hrun.
  destruct (retry_view _ _ _ _ _ (i_core _ Hw) Hsend Hn Hrun)
    as (Hok' & c1 & Hok1 & Hs1 & Hattr & [->|(p & c2 & Hp & Hhome & Hok2 & Hrec & atts & -> & Hre & Hat)]).
  - by apply inv_shrinks.
  - assert (inv (with_core w c2)) as Hw2.
    { apply (inv_recorded (with_core w c1)) in Hrec; [done|by apply inv_shrinks|done|..].
      - by apply (i_retries _ Hw _ _ Hp).
      - unfold unambiguous. simpl. rewrite Hattr. by apply (Hamb _ Hp). }
    apply (inv_attempts (with_core w c2)); done.
Qed.

Lemma pending_head_home w sub p rest :
  inv w → pending_request_evidence (core w) !! home_key sub = Some (p :: rest) →
  pe_sub_id p = sub ∧ (pe_request_revision p < next_send_id (attribution (core w)))%N ∧
  waiting (core w) sub = (pe_request_revision p, pe_filter p) ::
                         ((λ p, (pe_request_revision p, pe_filter p)) <$> rest).
Proof.
  intros Hw Hp. destruct (k_pending _ (i_core _ Hw) _ _ Hp) as [_ _ Hkey _].
  destruct (Hkey p) as [_ Hk]; [left|]. split_and!.
  - symmetry. exact (f_equal snd Hk).
  - apply (k_revision _ (i_core _ Hw) _ (home_key sub)). left. exists (p :: rest), p.
    split; [done|]. split; [left|done].
  - unfold waiting. by rewrite Hp.
Qed.

Lemma accepted_outstanding w c1 sub x sub' :
  outstanding (with_unanswered (with_core w c1) (put (unanswered w) sub (unanswered w sub ++ [x]))) sub' =
  if decide (sub' = sub) then outstanding w sub ++ [x] else outstanding w sub'.
Proof.
  unfold outstanding, put. simpl. case_decide; [subst|done]. by rewrite (assoc_L (++)).
Qed.

Lemma inv_accepted w sub p rest handle c1 :
  inv w → pending_request_evidence (core w) !! home_key sub = Some (p :: rest) →
  accepted_core (core w) p rest handle c1 →
  inv (with_unanswered (with_core w c1)
         (put (unanswered w) sub (unanswered w sub ++ [(pe_request_revision p, pe_filter p)]))).
Proof.
  intros Hw Hp []. destruct (pending_head_home _ _ _ _ Hw Hp) as (<- & Hlt & Hwait).
  set (sub := pe_sub_id p) in *. set (x := (pe_request_revision p, pe_filter p)) in *.
  pose proof (i_sends _ Hw sub) as Hs. rewrite Hwait in Hs.
  destruct (sends_head _ _ _ _ _ (proj1 (ok_sent _ (k_attribution _ (i_core _ Hw)) sub)) Hs) as [Hbelow Hin].
  split; simpl; rewrite ?ac_attribution; try done.
  - rewrite ac_clock. apply Hw.
  - intros id a Ha. by eapply (i_attempts _ Hw), lookup_weaken.
  - intros key q Hq. by eapply (i_retries _ Hw), lookup_weaken.
  - intros sub'. rewrite accepted_outstanding. unfold waiting. rewrite ac_pending. fold sub.
    unfold gone. rewrite ac_live. case_decide as E; [subst sub'|].
    + by eapply sends_accept.
    + rewrite lookup_insert_ne; [apply (i_sends _ Hw)|]. unfold home_key. congruence.
  - intros sub' y. rewrite accepted_outstanding. case_decide as E; [subst sub'|apply (i_bound _ Hw)].
    intros [?|Hy]%elem_of_app; [by apply (i_bound _ Hw)|]. apply list_elem_of_singleton in Hy as ->.
    split; [done|]. intros sub' Hs'. by eapply (ok_owner _ (k_attribution _ (i_core _ Hw))).
  - apply Hw.
  - apply Hw.
  - apply Hw.
  - intros sub' live. rewrite ac_live. unfold live_ok. rewrite accepted_outstanding.
    intros [[Hk <-]|[Hk Hl]]%lookup_insert_Some.
    + assert (sub' = sub) as -> by (symmetry; exact (f_equal snd Hk)). rewrite decide_True by done.
      split; [|done]. intros y [Hy|Hy]%elem_of_app.
      * specialize (Hbelow _ Hy). simpl in *. split; lia.
      * by apply list_elem_of_singleton in Hy as ->.
    + rewrite decide_False by congruence. by apply (i_live _ Hw).
  - rewrite ac_coverage. apply Hw.
  - rewrite ac_transfers. apply Hw.
Qed.

Lemma inv_refused w sub p rest c' :
  inv w → pending_request_evidence (core w) !! home_key sub = Some (p :: rest) →
  core_ok c' → refused_core (core w) p rest c' → inv (with_core w c').
Proof.
  intros Hw Hp Hok []. destruct (pending_head_home _ _ _ _ Hw Hp) as (<- & Hlt & Hwait).
  set (sub := pe_sub_id p) in *.
  assert (∀ sub' s, s ∈ fifo_of (attribution c') sub' → s ∈ fifo_of (attribution (core w)) sub') as Hfifo.
  { intros sub' s. rewrite rc_fifo. case_decide; [|done]. intros Hs.
    by eapply elem_of_sublist, remove_revision_sublist. }
  split; simpl; try done.
  - rewrite rc_clock. apply Hw.
  - intros id a Ha. by eapply (i_attempts _ Hw), lookup_weaken.
  - intros key q [?|[id ?]]%rc_retries; [by eapply i_retries|by eapply i_attempts].
  - intros sub'. change (outstanding (with_core w c') sub') with (outstanding w sub').
    rewrite rc_fifo. unfold waiting. rewrite rc_pending. fold sub. unfold gone. rewrite rc_live.
    pose proof (i_sends _ Hw sub') as Hs. case_decide as E; [subst sub'|done].
    rewrite Hwait in Hs. eapply sends_refuse in Hs; [exact Hs|]. apply (ok_sent _ (k_attribution _ (i_core _ Hw))).
  - intros sub' x Hx. rewrite rc_send. destruct (i_bound _ Hw _ _ Hx) as [? Hown]. split; [done|].
    intros s2 (s & E & Hs)%list_elem_of_fmap. apply Hown. unfold sent_in. rewrite E.
    apply list_elem_of_fmap_2. auto.
  - rewrite rc_send. apply Hw.
  - intros sub' s Hs. apply (i_poisoned _ Hw sub'). auto.
  - apply Hw.
  - rewrite rc_live. apply Hw.
  - rewrite rc_coverage. apply Hw.
  - rewrite rc_transfers. apply Hw.
Qed.

(** ** The wire *)

(** The relay, the connection and the store move; the requests do not. *)
Lemma inv_wire w u q ans com :
  let w' := mkWorld (core w) u q ans com (tainted w) in
  inv w → (∀ sub, sublist (outstanding w' sub) (outstanding w sub)) →
  (∀ a, a ∈ answers w → a ∈ ans) → (∀ e, e ∈ committed w → e ∈ com) →
  (∀ sub, frames_ok (λ e, e ∈ com) (λ n, n ∈ tainted w) (q sub)) → inv w'.
Proof.
  intros w' Hw Hout Hans Hcom Hq.
  assert (∀ k session t, justified w k session t → justified w' k session t) as Hmono.
  { intros k session t. by apply justified_mono. }
  split; simpl; try apply Hw; try done.
  - intros sub. eapply sends_fewer; [apply Hout|apply Hw].
  - intros sub x Hx. eapply (i_bound _ Hw), elem_of_sublist; [exact Hx|apply Hout].
  - intros sub live Hl. destruct (i_live _ Hw _ _ Hl) as [Hx Hi]. split.
    + intros x ?. eapply Hx, elem_of_sublist; [done|apply Hout].
    + intros i Hii. eapply proven_mono; [..|by apply Hi]; done.
  - intros k session i Hi. destruct (i_rows _ Hw _ _ _ Hi) as [? Hj]. split; [done|]. auto.
  - intros key p Hp. destruct (i_transfers _ Hw _ _ Hp) as [Hc (g & ? & ? & ?)]. split; [done|].
    exists g. split_and!; [done..|]. by eapply proven_mono.
Qed.

Lemma omap_events es : omap eose_of (FEvent <$> es) = [].
Proof. by induction es. Qed.

Lemma inv_answer w sub dropped send g rest served held :
  inv w → unanswered w sub = dropped ++ (send, g) :: rest →
  (f_limit g = None → ∀ e, e ∈ held → concrete_matches g e → e ∈ served) →
  inv (with_inbox (with_unanswered w (put (unanswered w) sub rest))
         (put (inbox w) sub (inbox w sub ++ (FEvent <$> served) ++ [FEose send g held]))).
Proof.
  intros Hw Hu Hserved. apply (inv_wire w _ _ (answers w) (committed w)); try done.
  - intros sub'. unfold outstanding, put. simpl. case_decide as E; [subst|done].
    rewrite Hu, !omap_app, omap_events. simpl.
    rewrite <-(assoc_L (++)). apply sublist_app; [done|]. simpl.
    change (sublist ([] ++ (send, g) :: rest) (dropped ++ (send, g) :: rest)).
    apply sublist_app; [apply sublist_nil_l|done].
  - intros sub'. unfold put. case_decide as E; [subst|apply (i_inbox _ Hw)].
    apply frames_app; [apply (i_inbox _ Hw)|]. apply frames_events. simpl. split; [|done].
    intros Hl _ e He Hm. left. by apply Hserved.
Qed.

Lemma inv_live_event w sub e :
  inv w → inv (with_inbox w (put (inbox w) sub (inbox w sub ++ [FEvent e]))).
Proof.
  intros Hw. apply inv_wire; try done.
  - intros sub'. unfold outstanding, put. simpl. case_decide as E; [subst|done].
    by rewrite omap_app, app_nil_r.
  - intros sub'. unfold put. case_decide as E; [subst|apply (i_inbox _ Hw)].
    by apply frames_app; [apply (i_inbox _ Hw)|].
Qed.

Lemma pop_outstanding w c ans com ta sub f rest sub' :
  inbox w sub = f :: rest →
  outstanding (mkWorld c (unanswered w) (put (inbox w) sub rest) ans com ta) sub' =
  if decide (sub' = sub) then omap eose_of rest ++ unanswered w sub else outstanding w sub'.
Proof. intros Hq. unfold outstanding, put. simpl. by case_decide; subst. Qed.

Lemma inv_commit w sub e rest :
  inv w → inbox w sub = FEvent e :: rest →
  inv (mkWorld (core w) (unanswered w) (put (inbox w) sub rest) (answers w)
         (e :: committed w) (tainted w)).
Proof.
  intros Hw Hq. apply inv_wire; try done.
  - intros sub'. rewrite (pop_outstanding _ _ _ _ _ _ _ _ _ Hq). case_decide as E; [subst|done].
    unfold outstanding. by rewrite Hq.
  - intros x. by right.
  - intros sub'. unfold put. pose proof (i_inbox _ Hw sub') as Hi. case_decide as E; [subst|].
    + rewrite Hq in Hi. eapply frames_mono; cycle 2; [exact Hi| |done]. intros x [->|?]; [left|by right].
    + eapply frames_mono; cycle 2; [exact Hi| |done]. intros x ?. by right.
Qed.

Lemma failure_evolves w sub :
  inv w → evolves w (on_event_commit_failure (core w) [(sub_session sub, wire_sub_id_string sub)]).
Proof.
  intros Hw. pose proof (k_attribution _ (i_core _ Hw)) as Hattr.
  apply attribution_evolves; simpl.
  - by apply shrinks_evolves; [|apply Hw|].
  - by apply poison_event_commit_failure_ok.
  - unfold poison_event_commit_failure. by repeat case_match.
  - intros sub'. rewrite fifo_of_poison by done. case_decide as E; [subst|apply snaps_from_refl].
    apply Forall2_fmap_r. apply Forall_Forall2_diag, Forall_true. intros s.
    split; simpl; try done; [|by left]. by destruct (sn_coverage_authority s).
Qed.

Lemma inv_commit_failed w sub e rest :
  inv w → inbox w sub = FEvent e :: rest →
  inv (mkWorld (on_event_commit_failure (core w) [(sub_session sub, wire_sub_id_string sub)])
         (unanswered w) (put (inbox w) sub rest) (answers w) (committed w)
         ((outstanding w sub).*1 ++ tainted w)).
Proof.
  intros Hw Hq. pose proof (failure_evolves w sub Hw) as Hev.
  pose proof (inv_evolves _ _ Hw Hev) as Hw'.
  set (c' := on_event_commit_failure _ _) in *. set (w2 := mkWorld _ _ _ _ _ _).
  assert (∀ sub', outstanding w2 sub' = outstanding w sub') as Hout.
  { intros sub'. unfold w2. rewrite (pop_outstanding _ _ _ _ _ _ _ _ _ Hq). case_decide; [subst|done].
    unfold outstanding. by rewrite Hq. }
  split; simpl; try apply Hw'; try done.
  - intros sub'. rewrite Hout. apply (i_sends _ Hw').
  - intros sub' x. rewrite Hout. apply (i_bound _ Hw').
  - intros n [(x & -> & Hx)%list_elem_of_fmap|Hn]%elem_of_app.
    + by apply (i_bound _ Hw' sub).
    + by apply (i_tainted _ Hw').
  - intros sub' s Hs [(x & Hid & Hx)%list_elem_of_fmap|Hn]%elem_of_app.
    2: { by apply (i_poisoned _ Hw' sub'). }
    destruct (i_bound _ Hw' sub x Hx) as [_ Hown]. simpl in Hown.
    assert (sub' = sub) as -> by (apply Hown; rewrite <-Hid; by apply list_elem_of_fmap_2).
    simpl in Hs. rewrite fifo_of_poison, decide_True in Hs by (done || apply (k_attribution _ (i_core _ Hw))).
    apply list_elem_of_fmap in Hs as (s0 & -> & _). simpl. by destruct (sn_coverage_authority s0).
  - intros sub'. unfold put. pose proof (i_inbox _ Hw sub') as Hi. case_decide as E; [subst|].
    + apply frames_bad. intros x Hx. apply elem_of_app. left. apply list_elem_of_fmap_2.
      unfold outstanding. rewrite Hq. apply elem_of_app. by left.
    + eapply frames_mono; cycle 2; [exact Hi|done|]. intros n ?. apply elem_of_app. by right.
  - intros sub' live Hl. destruct (i_live _ Hw' sub' live Hl) as [? ?]. unfold live_ok. rewrite Hout. done.
Qed.

(** ** EOSE *)

Definition after_eose (w : World) (c : CoreRequests) sub g held rest : World :=
  mkWorld c (unanswered w) (put (inbox w) sub rest)
    (mkAnswer (sub_session sub) g (clock (core w)) held :: answers w) (committed w) (tainted w).

(** The snapshot that describes the answered send, in a FIFO headed by [f]. *)
Lemma answered_snapshot w sub send g held rest f fifo :
  inv w → inbox w sub = FEose send g held :: rest →
  fifo_of (attribution (core w)) sub = f :: fifo →
  ∃ s, s ∈ f :: fifo ∧ describes s (send, g) ∧ (sn_send_id f ≤ send)%N.
Proof.
  intros Hw Hq Hf. pose proof (i_sends _ Hw sub) as [(F & Hs & HF)|(Hnil & _)]; [|congruence].
  unfold outstanding in HF. rewrite Hq in HF. simpl in HF.
  apply Forall2_cons_inv_r in HF as (s & F2 & Hd & _ & ->).
  exists s. assert (s ∈ f :: fifo) as Hin.
  { rewrite <-Hf. eapply elem_of_sublist; [|exact Hs]. left. }
  split; [done|]. split; [done|]. rewrite <-(ds_id _ _ Hd : sn_send_id s = send).
  pose proof (proj1 (ok_sent _ (k_attribution _ (i_core _ Hw)) sub)) as Hsort.
  rewrite Hf in Hsort. simpl in Hsort. apply StronglySorted_inv in Hsort as [_ Hall].
  apply elem_of_cons in Hin as [->|Hin]; [done|].
  rewrite Forall_forall in Hall. apply N.lt_le_incl, Hall. by apply list_elem_of_fmap_2.
Qed.

(** What an eligible completion proves of the answered send. *)
Lemma eose_justifies w c sub send g held rest f fifo x i :
  inv w → inbox w sub = FEose send g held :: rest →
  fifo_of (attribution (core w)) sub = f :: fifo →
  eose_completes (attribution (core w)) sub (clock (core w)) f fifo x →
  ca_coverage_authority x = Eligible →
  (∃ claim, claim ∈ ca_claims x ∧ cc_interval claim = i) →
  f_limit g = None ∧ proven (after_eose w c sub g held rest) (sub_session sub) g i ∧
  ∀ claim, claim ∈ ca_claims x → cc_interval claim = i ∧ covers (cc_key claim) g.
Proof.
  intros Hw Hq Hf [_ _ _ Hauth (i' & Hnow & Hall & Hclaims)] Hel (claim0 & Hin0 & <-).
  assert (cc_interval claim0 = i') as -> by by apply Hclaims in Hin0 as [? _].
  destruct (answered_snapshot _ _ _ _ _ _ _ _ Hw Hq Hf) as (s & Hs & Hd & _).
  apply Hauth in Hel. rewrite Forall_forall in Hel. pose proof (Hel _ Hs) as Hels.
  rewrite Forall_forall in Hall. destruct (Hall _ Hs) as [Hfloor Huntil].
  assert (f_limit g = None) as Hlim.
  { destruct (f_limit g) eqn:E; [|done]. destruct (ds_limit _ _ Hd); [|done]. simpl. by rewrite E. }
  split; [done|]. split.
  - split; [pose proof (i_clock _ Hw); lia|]. intros k t Hcov _ [Hfrom Hto].
    eexists (mkAnswer _ g _ held). split; [left|]. split; [done|]. split; [simpl; lia|].
    split; [done|]. simpl. intros e He Ht Hm.
    pose proof (i_inbox _ Hw sub) as Hi. rewrite Hq in Hi. destruct Hi as [Hi _].
    apply Hi; [done| |done|].
    + intros Hta. rewrite <-(ds_id _ _ Hd : _ = send) in Hta.
      eapply (i_poisoned _ Hw sub s); [by rewrite Hf|done|done].
    + apply Hcov; [done|..]; rewrite Ht.
      * unfold floor_of in Hfloor. rewrite (ds_floor _ _ Hd) in Hfloor. simpl in Hfloor.
        destruct (f_since g); simpl in *; [lia|done].
      * rewrite (ds_until _ _ Hd) in Huntil. simpl in Huntil.
        destruct (f_until g) as [u|]; [|done]. specialize (Huntil u eq_refl). simpl. lia.
  - intros claim [-> Hk]%Hclaims. split; [done|]. rewrite Forall_forall in Hk.
    by apply (ds_claims _ _ Hd), (Hk _ Hs).
Qed.

Lemma after_eose_mono w c sub g held rest k session t :
  justified w k session t → justified (after_eose w c sub g held rest) k session t.
Proof. apply justified_mono; [|done]. intros a ?. by right. Qed.

Lemma after_eose_proven w c sub g held rest session h i :
  proven w session h i → proven (after_eose w c sub g held rest) session h i.
Proof. intros [? Hp]. split; [done|]. intros. by apply after_eose_mono, Hp. Qed.

Lemma after_eose_outstanding w c sub send g held rest s :
  inbox w sub = FEose send g held :: rest →
  outstanding (after_eose w c sub g held rest) s =
  if decide (s = sub) then tail (outstanding w sub) else outstanding w s.
Proof.
  intros Hq. unfold after_eose. rewrite (pop_outstanding _ _ _ _ _ _ _ _ _ Hq).
  case_decide; [|done]. unfold outstanding. by rewrite Hq.
Qed.

(** One EOSE, its completion persisted: the popped FIFO and what persisting
    leaves. *)
Section persisted.
Variables (w : World) (sub : SubId) (send : N) (g : ConcreteFilter) (held : list Event)
  (rest : list Frame) (f : AttributionSnapshot) (fifo : list AttributionSnapshot)
  (x : CompletedAttribution) (attr : AttributionState) (c2 : CoreRequests).
Hypothesis Hw : inv w.
Hypothesis Hq : inbox w sub = FEose send g held :: rest.
Hypothesis Hf : fifo_of (attribution (core w)) sub = f :: fifo.
Hypothesis Hx : eose_completes (attribution (core w)) sub (clock (core w)) f fifo x.
Hypothesis Hn : next_send_id attr = next_send_id (attribution (core w)).
Hypothesis Hpop : fifo_of attr sub = fifo.
Hypothesis Hsame : ∀ s, s ≠ sub → fifo_of attr s = fifo_of (attribution (core w)) s.
Hypothesis Hps : persisted (with_attribution (core w) attr) c2 x.

Let w2 := after_eose w c2 sub g held rest.

Lemma persisted_fifo s : fifo_of (attribution c2) s = fifo_of attr s.
Proof. unfold fifo_of. by rewrite (ps_inflight _ _ _ Hps). Qed.

Lemma persisted_snapshot s y :
  y ∈ fifo_of (attribution c2) s → y ∈ fifo_of (attribution (core w)) s.
Proof.
  rewrite persisted_fifo. destruct (decide (s = sub)) as [->|Hne];
    [rewrite Hpop, Hf; by right|by rewrite Hsame].
Qed.

Lemma persisted_outstanding s y : y ∈ outstanding w2 s → y ∈ outstanding w s.
Proof.
  unfold w2. rewrite (after_eose_outstanding _ _ _ _ _ _ _ _ Hq).
  case_decide; [subst|done]. destruct (outstanding w sub); [done|by right].
Qed.

Lemma persisted_sends s :
  sends_ok (fifo_of (attribution c2) s) (outstanding w2 s) (waiting c2 s) (gone c2 s).
Proof.
  unfold w2. rewrite (after_eose_outstanding _ _ _ _ _ _ _ _ Hq), persisted_fifo.
  assert (waiting c2 s = waiting (core w) s) as -> by (unfold waiting; by rewrite (ps_pending _ _ _ Hps)).
  pose proof (i_sends _ Hw s) as Hs. destruct (decide (s = sub)) as [->|Hne].
  - rewrite Hpop. rewrite Hf in Hs. unfold outstanding in Hs |- *. rewrite Hq in Hs |- *.
    simpl in *. eapply sends_pop. exact Hs.
  - rewrite Hsame by done. eapply sends_from; [apply snaps_from_refl| |exact Hs].
    unfold gone. intros Hg. apply eq_None_not_Some. intros [l (l0 & ? & _)%(ps_live _ _ _ Hps)].
    simpl in *. congruence.
Qed.

Lemma persisted_live s live' :
  live_wire_requests c2 !! home_key s = Some live' →
  live_ok w2 s (lw_filter live') (revision_of (lw_stored_events live'))
    (interval_of (lw_stored_events live')).
Proof.
  intros Hl'. destruct (ps_live _ _ _ Hps _ _ Hl') as (live & Hl & -> & -> & Hi).
  destruct (i_live _ Hw _ _ Hl) as [Hxs Hii].
  split; [intros y ?%persisted_outstanding; by apply Hxs|]. intros i Hsome.
  destruct Hi as [Hi|(Hk & Hrev & Hi)]; [apply after_eose_proven, Hii; congruence|].
  rewrite Hi in Hsome. apply eligible_interval_claim in Hsome as [Hel Hclaim].
  destruct (eose_justifies _ c2 _ _ _ _ _ _ _ _ _ Hw Hq Hf Hx Hel Hclaim) as (_ & Hp & _).
  assert (s = sub) as -> by (rewrite <-(ec_sub _ _ _ _ _ _ Hx); exact (f_equal snd Hk)).
  destruct (answered_snapshot _ _ _ _ _ _ _ _ Hw Hq Hf) as (_ & _ & _ & Hle).
  rewrite (ec_send _ _ _ _ _ _ Hx) in Hrev.
  destruct (Hxs (send, g)) as [Hle2 Heq]; [unfold outstanding; rewrite Hq; left|].
  simpl in *. rewrite <-Heq by lia. done.
Qed.

Lemma persisted_rows : rows_ok w2 (coverage c2).
Proof.
  assert (rows_ok w2 (coverage (core w))) as Hold.
  { intros k s i Hi. destruct (i_rows _ Hw _ _ _ Hi) as [? Hj]. split; [done|].
    intros t Ht. by apply after_eose_mono, Hj. }
  destruct (ps_coverage _ _ _ Hps) as [->|[Hel ->]]; [done|]. apply record_rows_ok; [done|].
  intros k s i (claim & [= -> -> ->] & Hin)%list_elem_of_fmap. rewrite (ec_sub _ _ _ _ _ _ Hx).
  destruct (eose_justifies _ c2 _ _ _ _ _ _ _ _ (cc_interval claim) Hw Hq Hf Hx Hel)
    as (Hlim & [Hmax Hp] & Hall); [by exists claim|].
  split; [done|]. intros t Ht. apply Hp; [by apply Hall|done|done].
Qed.

Lemma inv_persisted : core_ok c2 → inv w2.
Proof.
  intros Hok. split; simpl; rewrite ?(ps_attempts _ _ _ Hps), ?(ps_send _ _ _ Hps), ?(ps_clock _ _ _ Hps);
    try apply Hw; try done; simpl; rewrite ?Hn; try apply Hw.
  - apply persisted_sends.
  - intros s y Hy%persisted_outstanding. destruct (i_bound _ Hw _ _ Hy) as [? Hown]. split; [done|].
    intros s2 (z & E & Hz)%list_elem_of_fmap. apply Hown. unfold sent_in. rewrite E.
    by apply list_elem_of_fmap_2, persisted_snapshot.
  - intros s y Hy. by apply (i_poisoned _ Hw s), persisted_snapshot.
  - intros s. unfold put. pose proof (i_inbox _ Hw s) as Hi. case_decide; [subst|done].
    rewrite Hq in Hi. by destruct Hi.
  - apply persisted_live.
  - apply persisted_rows.
  - intros key p Hp. destruct (i_transfers _ Hw key p) as [Hc (h & ? & ? & ?)];
      [by eapply lookup_weaken, (ps_transfers _ _ _ Hps)|].
    split; [done|]. exists h. split_and!; [done..|]. by apply after_eose_proven.
Qed.
End persisted.

(** An EOSE nothing is attributed to only leaves the inbox. *)
Lemma inv_stale_eose w sub send g held rest :
  inv w → inbox w sub = FEose send g held :: rest → inv (after_eose w (core w) sub g held rest).
Proof.
  intros Hw Hq. apply inv_wire; try done.
  - intros s. fold (after_eose w (core w) sub g held rest).
    rewrite (after_eose_outstanding _ _ _ _ _ _ _ _ Hq). case_decide; [subst|done].
    destruct (outstanding w sub); [done|by apply sublist_cons].
  - intros a ?. by right.
  - intros s. unfold put. pose proof (i_inbox _ Hw s) as Hi. case_decide; [subst|done].
    rewrite Hq in Hi. by destruct Hi.
Qed.

Lemma inv_eose w sub send g held rest observations stored c' effects :
  inv w → inbox w sub = FEose send g held :: rest →
  on_eose observations stored (core w) (sub_session sub) (wire_sub_id_string sub) =
    Some (c', effects) →
  inv (after_eose w c' sub g held rest).
Proof.
  intros Hw Hq. pose proof (i_core _ Hw) as Hok. unfold on_eose.
  pose proof (attribute_eose_spec _ sub (clock (core w)) (k_attribution _ Hok)) as Hspec.
  destruct (fifo_of (attribution (core w)) sub) as [|f fifo] eqn:Hf.
  { rewrite Hspec. cbn [mbind option_bind]. intros [= <- _].
    replace (with_attribution (core w) (attribution (core w))) with (core w) by by destruct (core w).
    by eapply inv_stale_eose. }
  destruct Hspec as (x & Hrun & Hx). rewrite Hrun. cbn [mbind option_bind].
  destruct (attribute_eose_ok _ _ _ _ _ (k_attribution _ Hok) Hrun) as (Hattr & Hpop & Hsame).
  set (attr := set_inflight _ _) in *. rewrite Hf in Hpop. simpl in Hpop.
  assert (core_ok (with_attribution (core w) attr)) as Hok1 by by apply with_attribution_ok.
  pose proof (persist_ok stored _ x Hok1) as Hok2.
  pose proof (persist_view stored (with_attribution (core w) attr) x) as Hps.
  destruct (persist_attributed_completion stored _ x) as [c2 o]. simpl in *.
  assert (inv (after_eose w c2 sub g held rest)) as Hw2
    by exact (inv_persisted w sub send g held rest f fifo x attr c2 Hw Hq Hf Hx eq_refl Hpop Hsame Hps Hok2).
  destruct o as [keys|].
  - pose proof (emit_settled_ok observations c2 (ca_send_id x) Hok2) as Hok3.
    pose proof (emit_settled_shrinks observations c2 (ca_send_id x) Hok2) as Hs3.
    destruct (emit_request_settled _ _ _) as [[c3 e] d]. intros [= <- _].
    by apply (inv_shrinks (after_eose w c2 sub g held rest)).
  - intros [= <- _]. apply (inv_shrinks (after_eose w c2 sub g held rest)); [done|..].
    + by apply retire_evidence_ok.
    + by apply retire_evidence_shrinks.
Qed.

(** ** Every step *)

Lemma inv_disconnect w session c' :
  inv w → abandon_session_subs (core w) session = Some c' →
  inv (with_inbox (with_unanswered (with_core w c')
         (λ s, if decide (sub_session s = session) then [] else unanswered w s))
         (λ s, if decide (sub_session s = session) then [] else inbox w s)).
Proof.
  intros Hw Hc. destruct (abandon_session_shrinks _ _ _ (i_core _ Hw) Hc) as [Hok Hs].
  pose proof (inv_shrinks _ _ Hw Hok Hs) as Hw1.
  apply (inv_wire (with_core w c') _ _ (answers w) (committed w)); try done.
  - intros s. unfold outstanding. simpl. case_decide; [apply sublist_nil_l|done].
  - intros s. simpl. case_decide; [done|apply (i_inbox _ Hw)].
Qed.

Lemma inv_clock w now :
  inv w → (clock (core w) ≤ now ≤ u64_max)%N → inv (with_core w (with_clock (core w) now)).
Proof.
  intros Hw Hnow. pose proof Hw as []. split; simpl; try done; [by apply with_clock_ok|lia].
Qed.

Lemma inv_handed w sub p rest handle c' effects demands :
  inv w → pending_request_evidence (core w) !! home_key sub = Some (p :: rest) →
  consume_wire_request_handoff (core w) (Accepted (pe_attempt_id p) handle) =
    Some (c', effects, demands) →
  inv (with_unanswered (with_core w c')
         (put (unanswered w) sub (unanswered w sub ++ [(pe_request_revision p, pe_filter p)]))).
Proof.
  intros Hw Hp Hrun.
  destruct (accept_head_ok (core w) sub p rest handle (i_core _ Hw) Hp)
    as (c1 & c2 & e & subs & Hrun2 & Hacc & Hok & Hab & Hdec & _).
  rewrite Hrun in Hrun2. injection Hrun2 as <- _ _.
  pose proof (inv_accepted _ _ _ _ _ _ Hw Hp Hacc) as Hw1.
  apply (inv_shrinks _ c') in Hw1; [done|done|]. by eapply abandons_shrinks.
Qed.

Lemma inv_record w r c' ids :
  inv w → rs_session r = sub_session (rs_sub_id r) →
  all_cover (rs_coverage_claims r) (rs_filter r) → unambiguous w (rs_sub_id r) →
  ids_left (core w) → record_observed_request_detailed (core w) r = Some (c', ids) →
  inv (with_core w c').
Proof.
  intros Hw Hhome Hcov Hamb [Hsend Hn] Hrun.
  destruct (record_view _ _ _ _ (i_core _ Hw) Hhome Hsend Hn Hrun) as (? & ? & _).
  by eapply inv_recorded.
Qed.

Lemma inv_not_handed w sub p rest cause c' effects demands :
  inv w → pending_request_evidence (core w) !! home_key sub = Some (p :: rest) →
  consume_wire_request_handoff (core w) (Refused (pe_attempt_id p) cause) =
    Some (c', effects, demands) →
  inv (with_core w c').
Proof.
  intros Hw Hp Hrun.
  destruct (refuse_head_ok (core w) sub p rest cause (i_core _ Hw) Hp) as (c2 & Hrun2 & Hok & Href).
  rewrite Hrun in Hrun2. injection Hrun2 as <- _ _. by eapply inv_refused.
Qed.

(** A change of the core that only takes away. *)
Lemma inv_taken w c' : inv w → core_ok c' ∧ shrinks (core w) c' → inv (with_core w c').
Proof. intros Hw [? ?]. by apply inv_shrinks. Qed.

Lemma step_inv w w' : inv w → step w w' → inv w'.
Proof.
  intros Hw. pose proof (i_core _ Hw) as Hok. destruct 1.
  - by eapply inv_record.
  - by eapply inv_handed.
  - by eapply inv_not_handed.
  - by eapply inv_answer.
  - by apply inv_live_event.
  - by apply inv_commit.
  - by eapply inv_commit_failed.
  - by eapply inv_eose.
  - by eapply inv_taken, abandon_sub_shrinks.
  - by eapply inv_taken, cancel_replacement_shrinks.
  - by apply inv_disconnect.
  - by eapply inv_taken, abandon_session_shrinks.
  - by apply inv_taken, close_session_ok.
  - by apply inv_taken, close_sub_ok.
  - by apply inv_evolves, update_evolves.
  - by apply inv_evolves, removal_evolves.
  - apply inv_evolves, attempt_transfer_evolves, shrinks_evolves; done.
  - by apply inv_taken, reconcile_op_ok.
  - by eapply inv_retry.
  - by apply inv_taken, install_request_ok.
  - by apply inv_taken, install_op_ok.
  - by eapply inv_taken, install_replacement_shrinks.
  - by eapply inv_taken, abandon_replacements_shrinks.
  - by apply inv_clock.
Qed.

Lemma reachable_inv now w : (now ≤ u64_max)%N → reachable now w → inv w.
Proof.
  intros Hnow. induction 1 as [|w w' _ IH Hstep]; [by apply world_new_inv|by eapply step_inv].
Qed.


(** C36: in every reachable conversation the owners of the requests are well
    formed: the attempt and retry indexes, the FIFOs and the wire lookup, the
    evidence and its index mirror each other, every pending send has its live
    attempt, every revision is known under one key, and everything is filed
    under the session its own subscription names. *)
Theorem requests_well_formed now w :
  (now ≤ u64_max)%N → reachable now w → core_ok (core w).
Proof. intros Hnow Hr. by apply i_core, (reachable_inv now). Qed.

(** C38: in every reachable conversation no handler of the requests panics: not an
    EOSE, not the handoff of the oldest pending send, not an abandonment, and
    not a new send while identifiers are left. *)
Theorem requests_never_panic now w sub :
  (now ≤ u64_max)%N → reachable now w →
  (∀ observations stored, is_Some (on_eose observations stored (core w) (sub_session sub)
                                     (wire_sub_id_string sub))) ∧
  (∀ p rest, pending_request_evidence (core w) !! home_key sub = Some (p :: rest) →
     (∀ handle, is_Some (consume_wire_request_handoff (core w) (Accepted (pe_attempt_id p) handle))) ∧
     (∀ cause, is_Some (consume_wire_request_handoff (core w) (Refused (pe_attempt_id p) cause)))) ∧
  is_Some (abandon_sub (core w) sub) ∧
  (∀ session, is_Some (abandon_session_subs (core w) session)) ∧
  (∀ r, rs_session r = sub_session (rs_sub_id r) → ids_left (core w) →
     is_Some (record_observed_request_detailed (core w) r)).
Proof.
  intros Hnow Hr. pose proof (i_core _ (reachable_inv _ _ Hnow Hr)) as Hok. split_and!.
  - intros obs stored. destruct (on_eose_ok obs stored _ sub Hok) as (c' & e & -> & _). by eexists.
  - intros p rest Hp. split.
    + intros handle. destruct (accept_head_ok _ _ _ _ handle Hok Hp) as (? & ? & ? & ? & -> & _).
      by eexists.
    + intros cause. destruct (refuse_head_ok _ _ _ _ cause Hok Hp) as (? & -> & _). by eexists.
  - destruct (abandon_sub_ok _ sub Hok) as (? & -> & _). by eexists.
  - intros session. destruct (abandon_session_subs_ok _ session Hok) as (? & -> & _). by eexists.
  - intros r Hhome [Hsend [n Hn]].
    destruct (record_observed_request_ok _ r n Hok Hhome Hsend Hn) as (? & -> & _). by eexists.
Qed.
End sound.

(** ** Concrete conversations *)

Module ExchangeSample.
Import Sample.

Definition hash : FilterHash := λ _, 0%N.
#[local] Existing Instance hash.

Definition sub : SubId := mkSub "wss://r.example" 4 None.
Definition note (created : N) : Event := mkEvent 1 7 created 1 [] "" 0.
Definition notes : ConcreteFilter := set_kinds (Some {[ 1%N ]}) filter_default.
Definition key : CoverageKey := coverage_key (mkAtom notes Auto None ∅).
Definition send : RequestSend := mkSend (sub_session sub) sub notes {[ key ]} ∅.
Definition handle : RelayHandle := mkHandle 1 1.
Definition pending (n : N) : PendingRequestEvidence :=
  mkPendingEvidence n n (sub_session sub) sub notes ∅.

Lemma notes_covered : all_cover (rs_coverage_claims send) (rs_filter send).
Proof.
  intros k Hk. simpl in Hk. apply elem_of_singleton in Hk as ->. by intros e ? _ _.
Qed.

(** The result of an operation that is known not to fail. *)
Definition got {A} (d : A) (o : option A) : A := default d o.
Lemma got_Some {A} (d : A) (o : option A) : is_Some o → o = Some (got d o).
Proof. by intros [x ->]. Qed.

Definition fresh : CoreRequests := core_new 10.
Definition recorded_run (c : CoreRequests) := got (c, (0, 0)%N) (record_observed_request_detailed c send).
Definition accepted_run (c : CoreRequests) (n : N) :=
  got (c, [], ∅) (consume_wire_request_handoff c (Accepted n handle)).
Definition eose_run (c : CoreRequests) :=
  got (c, []) (on_eose (λ _, ∅) true c (sub_session sub) (wire_sub_id_string sub)).

Definition w1 : World := with_core (world_new 10) (recorded_run fresh).1.
Definition w2 : World :=
  with_unanswered (with_core w1 (accepted_run (core w1) 0).1.1)
    (put (unanswered w1) sub (unanswered w1 sub ++ [(0%N, notes)])).
Definition w3 : World :=
  with_inbox (with_unanswered w2 (put (unanswered w2) sub []))
    (put (inbox w2) sub (inbox w2 sub ++ (FEvent <$> [note 5]) ++ [FEose 0 notes [note 5]])).
Definition w4 : World :=
  mkWorld (core w3) (unanswered w3) (put (inbox w3) sub [FEose 0 notes [note 5]]) (answers w3)
    (note 5 :: committed w3) (tainted w3).
Definition w5 : World := after_eose w4 (eose_run (core w4)).1 sub notes [note 5] [].

Lemma reach_w1 : reachable 10 w1.
Proof.
  eapply ReachStep; [apply ReachNew|].
  apply (StRecord _ send _ (recorded_run fresh).2); [done|apply notes_covered|done|..].
  - split; [vm_compute; reflexivity|by eexists].
  - assert (is_Some (record_observed_request_detailed fresh send)) as Hs by decide_now.
    rewrite <-surjective_pairing. by apply got_Some.
Qed.

Lemma reach_w2 : reachable 10 w2.
Proof.
  eapply ReachStep; [apply reach_w1|].
  apply (StAccept _ sub (pending 0) [] handle _ (accepted_run (core w1) 0).1.2
           (accepted_run (core w1) 0).2); [vm_compute; reflexivity|].
  assert (is_Some (consume_wire_request_handoff (core w1) (Accepted 0 handle))) as Hs
    by decide_now.
  rewrite <-!surjective_pairing. by apply got_Some.
Qed.

Lemma reach_w3 : reachable 10 w3.
Proof.
  eapply ReachStep; [apply reach_w2|].
  apply (StAnswer _ sub [] 0 notes [] [note 5] [note 5]); [vm_compute; reflexivity|done].
Qed.

Lemma reach_w5 : reachable 10 w5.
Proof.
  eapply ReachStep; [eapply ReachStep; [apply reach_w3|]|].
  - apply (StCommit w3 sub (note 5) [FEose 0 notes [note 5]]). vm_compute. reflexivity.
  - apply (StEose w4 sub 0 notes [note 5] [] (λ _, ∅) true (eose_run (core w4)).1 (eose_run (core w4)).2).
    { vm_compute. reflexivity. }
    assert (is_Some (on_eose (λ _, ∅) true (core w4) (sub_session sub) (wire_sub_id_string sub))) as Hs
      by decide_now.
    rewrite <-surjective_pairing. by apply got_Some.
Qed.



End ExchangeSample.

#[local] Existing Instance ExchangeSample.hash.




Lemma requests_never_panic_witness :
  is_Some (consume_wire_request_handoff (core ExchangeSample.w1)
             (Accepted 0 ExchangeSample.handle)).
Proof.
  destruct (@requests_never_panic Sample.sample_hex ExchangeSample.hash sample_ts sample_ts_laws 10
    ExchangeSample.w1 ExchangeSample.sub) as (_ & Hh & _).
  - decide_now.
  - apply ExchangeSample.reach_w1.
  - destruct (Hh (ExchangeSample.pending 0) []) as [Ha _]; [vm_compute; reflexivity|].
    exact (Ha ExchangeSample.handle).
Defined.

Lemma requests_well_formed_witness : core_ok (core ExchangeSample.w5).
Proof.
  apply (@requests_well_formed Sample.sample_hex ExchangeSample.hash sample_ts sample_ts_laws 10);
    [decide_now|apply ExchangeSample.reach_w5].
Defined.
