(* ===== verification/Postings.v ===== *)
(** * Packed postings

    [crates/nmp-store/src/redb_store/postings.rs]: the immutable runs of the
    query index.  A run is a dictionary of event keys and ids and, per family
    and shard, a segment: a directory of prefixes, each with the list of its
    postings in canonical order (newest first, then by id).  Readers find a
    prefix and a position by binary search over the bytes; compaction merges
    segments of several runs.

    An event id is the number its 32 bytes spell; the order of ids as byte
    arrays is the order of these numbers.  An error and a panic are [None].  A
    [usize] is 64 bits, so that the products of a [u32] the code checks do not
    overflow.  The keyed BLAKE3 of a prefix is the parameter [ShardHash]. *)

From S2P Require Import Prelude Grammar Schema QueueBytes.

Definition segment_magic : bytes := as_bytes "NMPPS" ++ [0; 3; 0]%N.
Definition dictionary_magic : bytes := as_bytes "NMPID" ++ [0; 2; 0]%N.
Definition dead_keys_magic : bytes := as_bytes "NMPPD" ++ [0; 3; 0]%N.
Definition run_meta_magic : bytes := as_bytes "NMPRM" ++ [0; 1; 0]%N.
Definition segment_header_len : nat := 14.
Definition dictionary_entry_len : nat := 40.
Definition posting_entry_len : nat := 12.
Definition shard_mask : N := 63.
Definition max_death_blocks : nat := 8.

#[global] Arguments segment_magic : simpl never.
#[global] Arguments dictionary_magic : simpl never.
#[global] Arguments dead_keys_magic : simpl never.
#[global] Arguments run_meta_magic : simpl never.

(** ** Data *)

Inductive Family := FGlobal | FAuthor | FKind | FTag.
#[global] Instance Family_eq_dec : EqDecision Family.
Proof. solve_decision. Defined.

(** [family as u8]. *)
Definition family_u8 (f : Family) : N :=
  match f with FGlobal => 0 | FAuthor => 1 | FKind => 2 | FTag => 3 end.
Definition family_from_u8 (n : N) : option Family :=
  find (λ f, (family_u8 f =? n)%N) [FGlobal; FAuthor; FKind; FTag].

(** The derived order is that of the discriminants. *)
#[global] Instance Family_ord : Ord Family := ord_via family_u8.
#[global] Instance Family_ord_laws : OrdLaws Family.
Proof. apply ord_via_laws. by intros [] []. Qed.

Record RunEvent := mkRunEvent { re_created_at : N; re_id : N; re_event_key : N }.
#[global] Instance RunEvent_eq_dec : EqDecision RunEvent.
Proof. solve_decision. Defined.

Record Membership := mkMembership {
  mb_family : Family;
  mb_shard : N;
  mb_prefix : bytes;
  mb_event : RunEvent
}.
#[global] Instance Membership_eq_dec : EqDecision Membership.
Proof. solve_decision. Defined.

Record EncodedRun := mkEncodedRun {
  er_dictionary : bytes;
  er_segments : list (Family * N * bytes);
  er_dictionary_entries : N;
  er_postings : N;
  er_prefixes : N;
  er_posting_bytes : N
}.

(** The first byte of the keyed hash of a family byte and a prefix. *)
Class ShardHash := shard_hash : N → bytes → N.

Definition shard_for `{ShardHash} (family : Family) (prefix : bytes) : N :=
  if decide (family = FGlobal) then 0%N
  else N.land (shard_hash (family_u8 family) prefix) shard_mask.

Definition canonical_order (left right : RunEvent) : comparison :=
  then_with (cmp (re_created_at right) (re_created_at left))
    (then_with (cmp (re_id left) (re_id right)) (cmp (re_event_key left) (re_event_key right))).

(** ** Encoding a run *)

(** [usize] to [u32], refusing what does not fit. *)
Definition u32_try (n : nat) : option N :=
  if (N.of_nat n <=? u32_max)%N then Some (N.of_nat n) else None.

Definition encode_dictionary (entries : list (N * N)) : option bytes :=
  count ← u32_try (length entries);
  Some (dictionary_magic ++ be_bytes 4 count ++
        concat ((λ e, be_bytes 8 e.1 ++ be_bytes 32 e.2) <$> entries)).

(** The identity checks of [encode_run], one membership at a time: the ids by
    key, the times by key, and the ids seen. *)
Definition RunIds : Type := gmap N N * gmap N N * gset N.

Definition check_membership `{ShardHash} (st : RunIds) (m : Membership) : option RunIds :=
  let '(ids_by_key, created_at_by_key, ids) := st in
  let key := re_event_key (mb_event m) in
  if decide (mb_shard m ≠ shard_for (mb_family m) (mb_prefix m)) then None
  else
    '(ids_by_key, ids) ←
      match ids_by_key !! key with
      | None =>
          if decide (re_id (mb_event m) ∈ ids) then None
          else Some (<[key := re_id (mb_event m)]> ids_by_key, {[ re_id (mb_event m) ]} ∪ ids)
      | Some id => if decide (id ≠ re_id (mb_event m)) then None else Some (ids_by_key, ids)
      end;
    created_at_by_key ←
      match created_at_by_key !! key with
      | None => Some (<[key := re_created_at (mb_event m)]> created_at_by_key)
      | Some t => if decide (t ≠ re_created_at (mb_event m)) then None else Some created_at_by_key
      end;
    Some (ids_by_key, created_at_by_key, ids).

(** The comparator of [memberships.sort_unstable_by]. *)
Definition membership_cmp (left right : Membership) : comparison :=
  then_with (cmp (mb_family left) (mb_family right))
    (then_with (cmp (mb_shard left) (mb_shard right))
       (then_with (cmp (mb_prefix left) (mb_prefix right))
          (canonical_order (mb_event left) (mb_event right)))).
Definition membership_le (left right : Membership) : Prop := membership_cmp left right ≠ Gt.
#[global] Instance membership_le_dec left right : Decision (membership_le left right).
Proof. unfold membership_le. apply _. Defined.

(** [Vec::dedup_by]: an element that repeats the last one kept goes. *)
Fixpoint dedup_by {A} (same : A → A → bool) (kept : A) (l : list A) : list A :=
  match l with
  | [] => []
  | x :: l => if same x kept then dedup_by same kept l else x :: dedup_by same x l
  end.
Definition dedup {A} (same : A → A → bool) (l : list A) : list A :=
  match l with [] => [] | x :: l => x :: dedup_by same x l end.

Definition same_posting (right left : Membership) : bool :=
  bool_decide (mb_family left = mb_family right ∧ mb_prefix left = mb_prefix right ∧
               re_event_key (mb_event left) = re_event_key (mb_event right)).

(** The maximal runs of neighbours with one key, in order: the [start]/[end]
    loops of [encode_run] and [encode_segment]. *)
Fixpoint runs {A K} `{EqDecision K} (key : A → K) (l : list A) : list (list A) :=
  match l with
  | [] => []
  | x :: l =>
      match runs key l with
      | (y :: g) :: gs => if decide (key x = key y) then (x :: y :: g) :: gs else [x] :: (y :: g) :: gs
      | gs => [x] :: gs
      end
  end.

(** [1 + windows(2).filter(..).count()]. *)
Fixpoint count_changes (l : list Membership) : nat :=
  match l with
  | x :: ((y :: _) as rest) =>
      (if decide (mb_prefix x ≠ mb_prefix y) then 1 else 0) + count_changes rest
  | _ => 0
  end.
Definition prefix_count_of (l : list Membership) : nat := 1 + count_changes l.

Definition encode_posting (ordinals : gmap N N) (m : Membership) : option bytes :=
  ordinal ← ordinals !! re_event_key (mb_event m);
  Some (be_bytes 8 (re_created_at (mb_event m)) ++ be_bytes 4 ordinal).

Definition encode_prefix_record (prefix : bytes) (postings : list Membership)
    (ordinals : gmap N N) : option bytes :=
  prefix_len ← u32_try (length prefix);
  posting_count ← u32_try (length postings);
  encoded ← mapM (encode_posting ordinals) postings;
  Some (be_bytes 4 prefix_len ++ prefix ++ be_bytes 4 posting_count ++ concat encoded).

(** One prefix of a segment: its offset joins the table, its record the end. *)
Definition encode_group (ordinals : gmap N N) (records_start : nat)
    (acc : list N * bytes) (group : list Membership) : option (list N * bytes) :=
  let '(offsets, records) := acc in
  offset ← u32_try (records_start + length records);
  match group with
  | [] => None
  | m :: _ =>
      record ← encode_prefix_record (mb_prefix m) group ordinals;
      Some (offsets ++ [offset], records ++ record)
  end.

Definition segment_header (family : Family) (shard count : N) : bytes :=
  segment_magic ++ [family_u8 family] ++ [shard] ++ be_bytes 4 count.

Definition encode_segment (family : Family) (shard : N) (memberships : list Membership)
    (ordinals : gmap N N) : option bytes :=
  let prefix_count := prefix_count_of memberships in
  prefix_count_u32 ← u32_try prefix_count;
  let records_start := segment_header_len + prefix_count * 4 in
  '(offsets, records) ←
    foldl (λ o group, acc ← o; encode_group ordinals records_start acc group)
      (Some ([], [])) (runs mb_prefix memberships);
  Some (segment_header family shard prefix_count_u32 ++
        concat (be_bytes 4 <$> resize prefix_count 0%N offsets) ++ records).

Definition ordinals_of (entries : list (N * N)) : gmap N N :=
  list_to_map (imap (λ i e, (e.1, N.of_nat i)) entries).

(** One segment of a run. *)
Definition encode_run_segment (ordinals : gmap N N) (group : list Membership)
    : option (Family * N * bytes) :=
  match group with
  | [] => None
  | m :: _ =>
      value ← encode_segment (mb_family m) (mb_shard m) group ordinals;
      Some (mb_family m, mb_shard m, value)
  end.

Definition encode_run `{ShardHash} (memberships : list Membership) : option EncodedRun :=
  if decide (memberships = []) then None
  else
    '(ids_by_key, _, _) ← foldl (λ o m, st ← o; check_membership st m) (Some (∅, ∅, ∅)) memberships;
    let entries := ordered_map ids_by_key in
    _ ← u32_try (length entries);
    let ordinals := ordinals_of entries in
    let memberships := dedup same_posting (merge_sort membership_le memberships) in
    let groups := runs (λ m, (mb_family m, mb_shard m)) memberships in
    segments ← mapM (encode_run_segment ordinals) groups;
    dictionary ← encode_dictionary entries;
    Some (mkEncodedRun dictionary segments (N.of_nat (length entries))
            (N.of_nat (length memberships)) (N.of_nat (sum_list (prefix_count_of <$> groups)))
            (N.min (N.of_nat (length memberships) * N.of_nat posting_entry_len) u64_max)).

(** ** Reading bytes *)

(** [take]: the next [len] bytes, and the cursor past them. *)
Definition take_at (bs : bytes) (cursor len : nat) : option (bytes * nat) :=
  value ← slice bs cursor (cursor + len);
  Some (value, cursor + len).

Definition read_u32 (bs : bytes) (cursor : nat) : option (N * nat) :=
  '(value, cursor) ← take_at bs cursor 4;
  Some (from_be_bytes value, cursor).

(** A big-endian integer of [width] bytes at [start]. *)
Definition read_be (bs : bytes) (start width : nat) : option N :=
  from_be_bytes <$> slice bs start (start + width).

(** A loop of [while left < right] whose comparison may fail: the position
    that compares equal, or where the search closed in. *)
Fixpoint binary_search_loop (fuel left right : nat) (compare : nat → option comparison)
    : option (nat + nat) :=
  match fuel with
  | 0 => None
  | S fuel =>
      if left <? right then
        let middle := left + (right - left) / 2 in
        order ← compare middle;
        match order with
        | Lt => binary_search_loop fuel (S middle) right compare
        | Gt => binary_search_loop fuel left middle compare
        | Eq => Some (inl middle)
        end
      else Some (inr left)
  end.

Definition binary_search_index (len : nat) (compare : nat → option comparison) : option (nat + nat) :=
  binary_search_loop (S len) 0 len compare.

(** ** The dictionary *)

Record DictionaryView := mkDictionaryView { dv_entries : bytes; dv_count : nat }.

Definition dictionary_entry (entries : bytes) (ordinal : nat) : option (N * N) :=
  let start := ordinal * dictionary_entry_len in
  event_key ← read_be entries start 8;
  id ← read_be entries (start + 8) 32;
  Some (event_key, id).

Definition dictionary_parse (value : bytes) : option DictionaryView :=
  '(magic, cursor) ← take_at value 0 (length dictionary_magic);
  if decide (magic ≠ dictionary_magic) then None
  else
    '(count, cursor) ← read_u32 value cursor;
    let count := N.to_nat count in
    if decide (cursor + count * dictionary_entry_len ≠ length value) then None
    else Some (mkDictionaryView (drop cursor value) count).

Definition validate_order_step (d : DictionaryView) (previous : option N) (ordinal : nat)
    : option (option N) :=
  '(event_key, _) ← dictionary_entry (dv_entries d) ordinal;
  if match previous with Some prior => (event_key <=? prior)%N | None => false end then None
  else Some (Some event_key).

Definition validate_order (d : DictionaryView) : option DictionaryView :=
  _ ← foldl (λ o ordinal, previous ← o; validate_order_step d previous ordinal)
        (Some None) (seq 0 (dv_count d));
  Some d.

Definition validate_ids_step (d : DictionaryView) (ids : gset N) (ordinal : nat) : option (gset N) :=
  '(_, id) ← dictionary_entry (dv_entries d) ordinal;
  if decide (id ∈ ids) then None else Some ({[ id ]} ∪ ids).

Definition dictionary_validate (d : DictionaryView) : option DictionaryView :=
  _ ← validate_order d;
  _ ← foldl (λ o ordinal, ids ← o; validate_ids_step d ids ordinal) (Some ∅) (seq 0 (dv_count d));
  Some d.

Definition dictionary_event (d : DictionaryView) (ordinal : nat) (created_at : N) : option RunEvent :=
  if decide (dv_count d ≤ ordinal) then None
  else
    '(event_key, id) ← dictionary_entry (dv_entries d) ordinal;
    Some (mkRunEvent created_at id event_key).

Definition dictionary_entry_at (d : DictionaryView) (ordinal : nat) : option (N * N) :=
  if decide (dv_count d ≤ ordinal) then None else dictionary_entry (dv_entries d) ordinal.

(** ** A posting list *)

Record PostingListView := mkPostingListView { pl_posting_count : nat; pl_postings : bytes }.

Definition posting_created_at (l : PostingListView) (ordinal : nat) : option N :=
  read_be (pl_postings l) (ordinal * posting_entry_len) 8.

Definition posting_dictionary_ordinal (l : PostingListView) (ordinal : nat) : option nat :=
  N.to_nat <$> read_be (pl_postings l) (ordinal * posting_entry_len + 8) 4.

Definition posting_event (l : PostingListView) (d : DictionaryView) (ordinal : nat)
    : option RunEvent :=
  if decide (pl_posting_count l ≤ ordinal) then None
  else
    created_at ← posting_created_at l ordinal;
    dictionary_ordinal ← posting_dictionary_ordinal l ordinal;
    dictionary_event d dictionary_ordinal created_at.

Definition posting_search (l : PostingListView) (d : DictionaryView) (target : N * N)
    : option (nat + nat) :=
  binary_search_index (pl_posting_count l) (λ ordinal,
    event ← posting_event l d ordinal;
    Some (then_with (cmp target.1 (re_created_at event)) (cmp (re_id event) target.2))).

Record PostingCursor := mkPostingCursor {
  pc_list : PostingListView;
  pc_dictionary : DictionaryView;
  pc_next_ordinal : nat;
  pc_since : N;
  pc_exhausted : bool;
  pc_visited : N
}.

Definition posting_cursor (l : PostingListView) (d : DictionaryView) (before : option (N * N))
    (since until : N) : option PostingCursor :=
  start ←
    (if decide (until ≠ u64_max) then
       found ← posting_search l d (until, 0%N);
       Some (match found with inl index | inr index => index end)
     else Some 0);
  start ←
    match before with
    | Some before =>
        found ← posting_search l d before;
        Some (start `max` match found with inl index => index + 1 | inr index => index end)
    | None => Some start
    end;
  Some (mkPostingCursor l d start since false 0).

(** [PostingCursor::next], with the cursor it leaves. *)
Definition cursor_next (c : PostingCursor) : option (option RunEvent * PostingCursor) :=
  if pc_exhausted c || (pl_posting_count (pc_list c) <=? pc_next_ordinal c) then Some (None, c)
  else
    event ← posting_event (pc_list c) (pc_dictionary c) (pc_next_ordinal c);
    let past exhausted :=
      mkPostingCursor (pc_list c) (pc_dictionary c) (S (pc_next_ordinal c)) (pc_since c)
        exhausted (pc_visited c + 1) in
    if (re_created_at event <? pc_since c)%N then Some (None, past true)
    else Some (Some event, past (pc_exhausted c)).

(** ** Dead keys *)

Definition DeadKeys : Type := list N.

Fixpoint any_adjacent {A} (P : A → A → bool) (l : list A) : bool :=
  match l with
  | x :: ((y :: _) as rest) => P x y || any_adjacent P rest
  | _ => false
  end.

Definition dead_new (keys : list N) : option DeadKeys :=
  if decide (keys = []) then None
  else if any_adjacent (λ x y, (y <=? x)%N) keys then None
  else Some keys.

(** A binary search of the keys. *)
Definition dead_contains (keys : DeadKeys) (event_key : N) : bool :=
  match binary_search_index (length keys) (λ i, k ← (keys : list N) !! i; Some (cmp k event_key)) with
  | Some (inl _) => true
  | _ => false
  end.

(** [next_live]: the events of dead keys are skipped.  A call of [next] that
    returns an event moves the cursor, so the list's length bounds the loop. *)
Fixpoint next_live_loop (fuel : nat) (dead : option DeadKeys) (c : PostingCursor)
    : option (option RunEvent * PostingCursor) :=
  match fuel with
  | 0 => None
  | S fuel =>
      '(event, c) ← cursor_next c;
      match event with
      | Some event =>
          if match dead with Some keys => negb (dead_contains keys (re_event_key event)) | None => true end
          then Some (Some event, c)
          else next_live_loop fuel dead c
      | None => Some (None, c)
      end
  end.
Definition next_live (dead : option DeadKeys) (c : PostingCursor)
    : option (option RunEvent * PostingCursor) :=
  next_live_loop (S (pl_posting_count (pc_list c))) dead c.

(** [while value >= 0x80]: nine shifts by seven empty a [u64]. *)
Fixpoint put_varint_loop (fuel : nat) (value : N) : bytes :=
  match fuel with
  | 0 => [N.land value 255]
  | S fuel =>
      if (128 <=? value)%N then N.lor (N.land value 127) 128 :: put_varint_loop fuel (N.shiftr value 7)
      else [N.land value 255]
  end.
Definition put_varint (value : N) : bytes := put_varint_loop 9 value.

(** [for shift in (0..=63).step_by(7)]. *)
Fixpoint read_varint_loop (shifts : list N) (bs : bytes) (cursor : nat) (value : N)
    : option (N * nat) :=
  match shifts with
  | [] => None
  | shift :: shifts =>
      '(b, cursor) ← take_at bs cursor 1;
      byte ← head b;
      if decide (shift = 63 ∧ 1 < byte)%N then None
      else
        let value := N.lor value (N.shiftl (N.land byte 127) shift) in
        if decide (N.land byte 128 = 0)%N then Some (value, cursor)
        else read_varint_loop shifts bs cursor value
  end.
Definition read_varint (bs : bytes) (cursor : nat) : option (N * nat) :=
  read_varint_loop [0; 7; 14; 21; 28; 35; 42; 49; 56; 63]%N bs cursor 0.

Fixpoint dead_deltas (first : bool) (previous : N) (keys : list N) : bytes :=
  match keys with
  | [] => []
  | key :: keys =>
      put_varint (if first then key else (key - previous)%N) ++ dead_deltas false key keys
  end.
Definition dead_encode (keys : DeadKeys) : option bytes :=
  Some (dead_keys_magic ++ put_varint (N.of_nat (length keys)) ++ dead_deltas true 0 keys).

(** [for index in 0..count]: a turn reads at least one byte, so that more turns
    than bytes cannot succeed. *)
Fixpoint dead_keys_loop (fuel : nat) (left : N) (first : bool) (previous : N) (bs : bytes)
    (cursor : nat) : option (list N * nat) :=
  if decide (left = 0%N) then Some ([], cursor)
  else
    match fuel with
    | 0 => None
    | S fuel =>
        '(encoded, cursor) ← read_varint bs cursor;
        key ← (if first then Some encoded
               else if (previous + encoded <=? u64_max)%N then Some (previous + encoded)%N else None);
        '(keys, cursor) ← dead_keys_loop fuel (left - 1) false key bs cursor;
        Some (key :: keys, cursor)
    end.
Definition dead_decode (value : bytes) : option DeadKeys :=
  '(magic, cursor) ← take_at value 0 (length dead_keys_magic);
  if decide (magic ≠ dead_keys_magic) then None
  else
    '(count, cursor) ← read_varint value cursor;
    '(keys, cursor) ← dead_keys_loop (length value) count true 0 value cursor;
    if decide (cursor ≠ length value) then None else dead_new keys.

Definition merge_dead_blocks (blocks : list DeadKeys) : option (option DeadKeys) :=
  if decide (max_death_blocks < length blocks) then None
  else
    let keys := concat blocks in
    if decide (keys = []) then Some None
    else
      merged ← dead_new (dedup (λ x y, bool_decide (x = y)) (merge_sort cmp_le keys));
      Some (Some merged).

(** ** Run metadata *)

Record RunMeta := mkRunMeta {
  rm_run_id : N;
  rm_level : N;
  rm_min_event_key : N;
  rm_max_event_key : N;
  rm_live_events : N
}.
#[global] Instance RunMeta_eq_dec : EqDecision RunMeta.
Proof. solve_decision. Defined.

(** [max - min + 1] of a [u64]: the sum can overflow, which is a panic where
    overflow is checked; the key 0 is refused first, so it does not. *)
Definition meta_encode (m : RunMeta) : option bytes :=
  if ((rm_min_event_key m =? 0) || (rm_max_event_key m <? rm_min_event_key m) ||
      (rm_live_events m =? 0) ||
      (rm_max_event_key m - rm_min_event_key m + 1 <? rm_live_events m))%N
  then None
  else Some (run_meta_magic ++ be_bytes 8 (rm_run_id m) ++ [rm_level m] ++
             be_bytes 8 (rm_min_event_key m) ++ be_bytes 8 (rm_max_event_key m) ++
             be_bytes 8 (rm_live_events m)).

Definition meta_decode (value : bytes) : option RunMeta :=
  if decide (length value ≠ 41 ∨ take 8 value ≠ run_meta_magic) then None
  else
    run_id ← read_be value 8 8;
    level ← value !! 16;
    min_event_key ← read_be value 17 8;
    max_event_key ← read_be value 25 8;
    live_events ← read_be value 33 8;
    let meta := mkRunMeta run_id level min_event_key max_event_key live_events in
    _ ← meta_encode meta;
    Some meta.

Definition meta_key (m : RunMeta) : N * N * N := (rm_min_event_key m, rm_max_event_key m, rm_run_id m).
Definition meta_le (m n : RunMeta) : Prop := cmp_le (meta_key m) (meta_key n).
#[global] Instance meta_le_dec m n : Decision (meta_le m n).
Proof. unfold meta_le. apply _. Defined.

Definition validate_run_meta (st : gset N * option N) (m : RunMeta) : option (gset N * option N) :=
  let '(run_ids, previous) := st in
  _ ← meta_encode m;
  if decide (rm_run_id m ∈ run_ids) then None
  else if match previous with Some maximum => (rm_min_event_key m <=? maximum)%N | None => false end
  then None
  else Some ({[ rm_run_id m ]} ∪ run_ids, Some (rm_max_event_key m)).

Definition validate_run_metas (metas : list RunMeta) : option unit :=
  _ ← foldl (λ o m, st ← o; validate_run_meta st m) (Some (∅, None)) (merge_sort meta_le metas);
  Some tt.

(** ** A segment *)

Record PrefixRecord := mkPrefixRecord { pr_prefix : bytes; pr_list : PostingListView }.

Definition parse_prefix_record (value : bytes) : option PrefixRecord :=
  '(prefix_len, cursor) ← read_u32 value 0;
  '(prefix, cursor) ← take_at value cursor (N.to_nat prefix_len);
  '(posting_count, cursor) ← read_u32 value cursor;
  if decide (posting_count = 0%N) then None
  else
    '(postings, cursor) ← take_at value cursor (N.to_nat posting_count * posting_entry_len);
    if decide (cursor ≠ length value) then None
    else Some (mkPrefixRecord prefix (mkPostingListView (N.to_nat posting_count) postings)).

Record SegmentView := mkSegmentView {
  sv_value : bytes;
  sv_family : Family;
  sv_shard : N;
  sv_prefix_count : nat
}.

Definition segment_parse (value : bytes) : option SegmentView :=
  '(magic, cursor) ← take_at value 0 (length segment_magic);
  if decide (magic ≠ segment_magic) then None
  else
    '(family, cursor) ← take_at value cursor 1;
    family ← head family ≫= family_from_u8;
    '(shard, cursor) ← take_at value cursor 1;
    shard ← head shard;
    if decide (shard_mask < shard ∨ family = FGlobal ∧ shard ≠ 0)%N then None
    else
      '(prefix_count, cursor) ← read_u32 value cursor;
      let prefix_count := N.to_nat prefix_count in
      if decide (prefix_count = 0) then None
      else if decide (length value < cursor + prefix_count * 4) then None
      else Some (mkSegmentView value family shard prefix_count).

Definition record_offset (s : SegmentView) (ordinal : nat) : option nat :=
  if decide (sv_prefix_count s ≤ ordinal) then None
  else N.to_nat <$> read_be (sv_value s) (segment_header_len + ordinal * 4) 4.

Definition segment_record (s : SegmentView) (ordinal : nat) : option PrefixRecord :=
  start ← record_offset s ordinal;
  end_ ← (if decide (ordinal + 1 = sv_prefix_count s) then Some (length (sv_value s))
          else record_offset s (ordinal + 1));
  if decide (end_ ≤ start ∨ length (sv_value s) < end_) then None
  else slice (sv_value s) start end_ ≫= parse_prefix_record.

Definition validate_directory_step `{ShardHash} (s : SegmentView) (acc : option bytes * nat)
    (ordinal : nat) : option (option bytes * nat) :=
  let '(previous_prefix, previous_offset) := acc in
  offset ← record_offset s ordinal;
  if decide (offset < previous_offset) then None
  else
    record ← segment_record s ordinal;
    if match previous_prefix with
       | Some prefix => bool_decide (cmp_le (pr_prefix record) prefix)
       | None => false
       end then None
    else if decide (shard_for (sv_family s) (pr_prefix record) ≠ sv_shard s) then None
    else Some (Some (pr_prefix record), offset).

Definition validate_prefix_directory `{ShardHash} (s : SegmentView) : option unit :=
  _ ← foldl (λ o ordinal, acc ← o; validate_directory_step s acc ordinal)
        (Some (None, segment_header_len + sv_prefix_count s * 4)) (seq 0 (sv_prefix_count s));
  Some tt.

Definition segment_prefix (s : SegmentView) (wanted : bytes) : option (option PostingListView) :=
  found ← binary_search_index (sv_prefix_count s) (λ middle,
            record ← segment_record s middle;
            Some (cmp (pr_prefix record) wanted));
  match found with
  | inl middle => record ← segment_record s middle; Some (Some (pr_list record))
  | inr _ => Some None
  end.

Definition validate_posting_step (l : PostingListView) (d : DictionaryView)
    (previous : option RunEvent) (posting : nat) : option (option RunEvent) :=
  event ← posting_event l d posting;
  if match previous with
     | Some prior => bool_decide (canonical_order prior event ≠ Lt)
     | None => false
     end then None
  else Some (Some event).

Definition validate_record_step (s : SegmentView) (d : DictionaryView) (postings : N) (ordinal : nat)
    : option N :=
  record ← segment_record s ordinal;
  let l := pr_list record in
  _ ← foldl (λ o posting, previous ← o; validate_posting_step l d previous posting)
        (Some None) (seq 0 (pl_posting_count l));
  Some (N.min (postings + N.of_nat (pl_posting_count l)) u64_max).

Definition segment_validate `{ShardHash} (s : SegmentView) (d : DictionaryView) : option N :=
  _ ← validate_prefix_directory s;
  foldl (λ o ordinal, postings ← o; validate_record_step s d postings ordinal)
    (Some 0%N) (seq 0 (sv_prefix_count s)).
