(* ===== verification/PostingsRead.v ===== *)
(** * Reading packed postings

    What the binary searches and the cursor of [postings.rs] return, for any
    bytes that [SegmentView::validate] and [DictionaryView::validate_order]
    accept: a prefix is found when the segment has it, and a cursor yields, in
    canonical order, exactly the events of the list that the bounds and the
    dead keys admit. *)

From S2P Require Import Prelude Grammar Schema QueueBytes Postings.

(** ** Binary search *)

Section search.
Context (len : nat) (f : nat → comparison) (compare : nat → option comparison).
Context (Hcompare : ∀ i, i < len → compare i = Some (f i)).
Context (Hlt : ∀ i j, i < j → j < len → f j = Lt → f i = Lt).
Context (Hgt : ∀ i j, i < j → j < len → f i = Gt → f j = Gt).

Lemma binary_search_loop_spec fuel left right :
  right - left < fuel → left ≤ right → right ≤ len →
  (∀ i, i < left → f i = Lt) → (∀ i, right ≤ i → i < len → f i = Gt) →
  ∃ r, binary_search_loop fuel left right compare = Some r ∧
    match r with
    | inl m => m < len ∧ f m = Eq
    | inr k => k ≤ len ∧ (∀ i, i < k → f i = Lt) ∧ (∀ i, k ≤ i → i < len → f i = Gt)
    end.
Proof.
  revert left right. induction fuel as [|fuel IH]; intros left right Hf Hle Hlen Hl Hr; [lia|].
  cbn [binary_search_loop]. destruct (Nat.ltb_spec left right) as [Hlr|Hlr].
  - assert (left ≤ left + (right - left) / 2 < right) as Hm.
    { pose proof (Nat.div_lt (right - left) 2 ltac:(lia) ltac:(lia)). lia. }
    set (middle := left + (right - left) / 2) in *. clearbody middle. cbn zeta. rewrite Hcompare by lia. cbn [mbind option_bind].
    destruct (f middle) eqn:E.
    + exists (inl middle). split; [done|]. split; [lia|done].
    + apply IH; [lia..| |done]. intros i Hi.
      destruct (decide (i = middle)) as [->|]; [done|]. apply (Hlt i middle); [lia..|done].
    + apply IH; [lia..|done|]. intros i Hi ?.
      destruct (decide (i = middle)) as [->|]; [done|]. apply (Hgt middle i); [lia..|done].
  - exists (inr left). split; [done|]. split; [lia|]. split; [done|]. intros i ??. apply Hr; lia.
Qed.

Lemma binary_search_index_spec :
  ∃ r, binary_search_index len compare = Some r ∧
    match r with
    | inl m => m < len ∧ f m = Eq
    | inr k => k ≤ len ∧ (∀ i, i < k → f i = Lt) ∧ (∀ i, k ≤ i → i < len → f i = Gt)
    end.
Proof. apply binary_search_loop_spec; [lia..|]. intros i ?. lia. Qed.
End search.

(** ** The canonical order *)

#[global] Instance RunEvent_ord : Ord RunEvent := canonical_order.
#[global] Instance RunEvent_ord_laws : OrdLaws RunEvent.
Proof.
  assert (Comparator canonical_order) as Hc.
  { apply (comparator_then (λ x y, cmp (re_created_at y) (re_created_at x))
             (λ x y, then_with (cmp (re_id x) (re_id y)) (cmp (re_event_key x) (re_event_key y)))).
    - exact (comparator_rev _ (comparator_by re_created_at)).
    - apply comparator_then; apply comparator_by. }
  split.
  - intros [c i k] [c' i' k']. change (canonical_order (mkRunEvent c i k) (mkRunEvent c' i' k') = Eq ↔
      mkRunEvent c i k = mkRunEvent c' i' k'). unfold canonical_order; simpl. split.
    + destruct (cmp c' c) eqn:E1, (cmp i i') eqn:E2; simpl; intros E3; try done.
      apply cmp_eq in E1, E2, E3. by subst.
    + intros [= -> -> ->]. by rewrite !cmp_refl.
  - intros. apply Hc.
  - intros x y z Hxy Hyz. change (canonical_order x y = Lt) in Hxy. change (canonical_order y z = Lt) in Hyz.
    apply (comparator_lt _ x y z Hc); [by rewrite Hxy|by rewrite Hyz|by left].
Qed.

(** [e] comes strictly before the cursor position [t] of the list. *)
Definition target_order (t : N * N) (e : RunEvent) : comparison :=
  then_with (cmp t.1 (re_created_at e)) (cmp (re_id e) t.2).

Lemma target_order_Lt t e :
  target_order t e = Lt ↔ (t.1 < re_created_at e)%N ∨ t.1 = re_created_at e ∧ (re_id e < t.2)%N.
Proof.
  unfold target_order, cmp, N_ord.
  destruct (N.compare_spec t.1 (re_created_at e)), (N.compare_spec (re_id e) t.2); simpl;
    split; intros; try done; lia.
Qed.
Lemma target_order_Eq t e : target_order t e = Eq ↔ t = (re_created_at e, re_id e).
Proof.
  destruct t as [c i]. unfold target_order, cmp, N_ord. simpl.
  destruct (N.compare_spec c (re_created_at e)), (N.compare_spec (re_id e) i); simpl;
    split; intros [=]; try done; subst; try done; lia.
Qed.
Lemma target_order_Gt t e :
  target_order t e = Gt ↔ (re_created_at e < t.1)%N ∨ t.1 = re_created_at e ∧ (t.2 < re_id e)%N.
Proof.
  unfold target_order, cmp, N_ord.
  destruct (N.compare_spec t.1 (re_created_at e)), (N.compare_spec (re_id e) t.2); simpl;
    split; intros; try done; lia.
Qed.

Lemma canonical_lt e e' :
  cmp_lt e e' ↔ (re_created_at e' < re_created_at e)%N ∨
    re_created_at e = re_created_at e' ∧
      ((re_id e < re_id e')%N ∨ re_id e = re_id e' ∧ (re_event_key e < re_event_key e')%N).
Proof.
  unfold cmp_lt, cmp, RunEvent_ord, canonical_order, cmp, N_ord.
  destruct (N.compare_spec (re_created_at e') (re_created_at e)), (N.compare_spec (re_id e) (re_id e')),
    (N.compare_spec (re_event_key e) (re_event_key e')); simpl; split; intros; try done; lia.
Qed.

(** ** Loops over an indexed column

    A loop that reads item after item and carries what it needs of the items
    read so far succeeds exactly when there is a list of such items. *)

Definition items {X} (get : nat → option X) (xs : list X) : Prop :=
  ∀ i x, xs !! i = Some x → get i = Some x.

(** [x] follows the last of [xs] in the order [R]. *)
Definition follows {X} (R : relation X) (xs : list X) (x : X) : Prop :=
  match last xs with Some y => R y x | None => True end.

Lemma items_snoc {X} (get : nat → option X) xs x :
  items get (xs ++ [x]) ↔ items get xs ∧ get (length xs) = Some x.
Proof.
  unfold items. split.
  - intros Hg. split.
    + intros i y Hi. apply Hg. by apply lookup_app_l_Some.
    + apply Hg. by apply list_lookup_middle.
  - intros [Hg Hx] i y [Hi|[Hi Hy]]%lookup_app_Some; [by apply Hg|].
    apply list_lookup_singleton_Some in Hy as [? ->]. by replace i with (length xs) by lia.
Qed.

Lemma items_unique {X} (get : nat → option X) xs ys :
  items get xs → items get ys → length xs = length ys → xs = ys.
Proof.
  intros Hx Hy Hl. apply list_eq_same_length with (length xs); [done..|].
  intros i x y _ Hi Hi'. apply Hx in Hi. apply Hy in Hi'. congruence.
Qed.

Lemma StronglySorted_follows {X} (R : relation X) `{!Transitive R} xs x :
  StronglySorted R (xs ++ [x]) ↔ StronglySorted R xs ∧ follows R xs x.
Proof.
  unfold follows. split.
  - intros Hs. apply StronglySorted_app in Hs as (Hx & Hs & _). split; [done|].
    destruct (last xs) as [y|] eqn:E; [|done]. apply Hx; [|by apply list_elem_of_singleton].
    apply last_Some in E as [l ->]. set_solver.
  - intros [Hs Hx]. apply StronglySorted_snoc; [done|]. intros y Hy.
    destruct (last xs) as [z|] eqn:E.
    + destruct (StronglySorted_last R xs z y Hs E Hy) as [->|]; [done|]. by transitivity z.
    + apply last_None in E. subst. by apply not_elem_of_nil in Hy.
Qed.

Section column.
Context {X B : Type} (get : nat → option X) (step : B → nat → option B).
Context (st : list X → B) (ok : list X → X → Prop).
Context (Hstep : ∀ xs b, step (st xs) (length xs) = Some b ↔
                   ∃ x, get (length xs) = Some x ∧ ok xs x ∧ b = st (xs ++ [x])).

Lemma column_loop b0 n b :
  st [] = b0 →
  foldl (λ o i, b ← o; step b i) (Some b0) (seq 0 n) = Some b ↔
  ∃ xs, length xs = n ∧ items get xs ∧ (∀ i x, xs !! i = Some x → ok (take i xs) x) ∧ b = st xs.
Proof.
  intros <-. revert b. induction n as [|n IH]; intros b.
  - simpl. split.
    + intros [= <-]. exists []. repeat split; by intros ? ? ?%list_elem_of_lookup_2%not_elem_of_nil.
    + intros ([|] & ? & _ & _ & ->); done.
  - rewrite seq_S, foldl_app. simpl. rewrite bind_Some. setoid_rewrite IH. split.
    + intros (c & (xs & Hl & Hx & Hok & ->) & Hb). rewrite <-Hl in Hb.
      apply Hstep in Hb as (x & Hget & Hokx & ->). exists (xs ++ [x]). split_and!; [|by apply items_snoc| |done].
      { rewrite length_app. simpl. lia. }
      intros i y [Hi|[Hi Hy]]%lookup_app_Some.
      * rewrite take_app_le by (apply lookup_lt_Some in Hi; lia). by apply Hok.
      * apply list_lookup_singleton_Some in Hy as [? <-]. by rewrite take_app_length' by lia.
    + intros (xs & Hl & Hx & Hok & ->). destruct xs as [|x xs _] using rev_ind; [done|].
      rewrite length_app in Hl. simpl in Hl. assert (length xs = n) as Hn by lia.
      apply items_snoc in Hx as [Hx Hget]. exists (st xs). split.
      * exists xs. split_and!; [done..| |done]. intros i y Hi.
        specialize (Hok i y). rewrite take_app_le in Hok by (apply lookup_lt_Some in Hi; lia).
        apply Hok. by apply lookup_app_l_Some.
      * rewrite <-Hn. apply Hstep. exists x. split_and!; [done| |done].
        specialize (Hok (length xs) x). rewrite take_app_length in Hok. apply Hok.
        by apply list_lookup_middle.
Qed.
End column.

Lemma StronglySorted_column {X} (R : relation X) `{!Transitive R} xs :
  (∀ i x, xs !! i = Some x → follows R (take i xs) x) ↔ StronglySorted R xs.
Proof.
  induction xs as [|x xs IH] using rev_ind.
  - split; [constructor|]. by intros _ ? ? ?%list_elem_of_lookup_2%not_elem_of_nil.
  - rewrite StronglySorted_follows, <-IH by done. split.
    + intros Hf. split.
      * intros i y Hi. specialize (Hf i y). rewrite take_app_le in Hf by (apply lookup_lt_Some in Hi; lia).
        apply Hf. by apply lookup_app_l_Some.
      * specialize (Hf (length xs) x). rewrite take_app_length in Hf. apply Hf. by apply list_lookup_middle.
    + intros [Hf Hx] i y [Hi|[Hi Hy]]%lookup_app_Some.
      * rewrite take_app_le by (apply lookup_lt_Some in Hi; lia). by apply Hf.
      * apply list_lookup_singleton_Some in Hy as [? <-]. by rewrite take_app_length' by lia.
Qed.

(** ** What validation accepts *)

Definition entry_lt (e f : N * N) : Prop := (e.1 < f.1)%N.
#[global] Instance entry_lt_trans : Transitive entry_lt.
Proof. intros x y z. unfold entry_lt. lia. Qed.

(** The entries a dictionary view holds. *)
Definition dictionary_of (d : DictionaryView) (es : list (N * N)) : Prop :=
  length es = dv_count d ∧ items (dictionary_entry (dv_entries d)) es.

Lemma validate_order_iff d :
  validate_order d = Some d ↔ ∃ es, dictionary_of d es ∧ StronglySorted entry_lt es.
Proof.
  unfold validate_order, dictionary_of. setoid_rewrite <-(StronglySorted_column entry_lt).
  assert (∀ b, foldl (λ o i, b ← o; validate_order_step d b i) (Some None) (seq 0 (dv_count d)) = Some b ↔
    ∃ es, length es = dv_count d ∧ items (dictionary_entry (dv_entries d)) es ∧
      (∀ i x, es !! i = Some x → follows entry_lt (take i es) x) ∧ b = fst <$> last es) as Hl.
  { intros b. apply (column_loop (dictionary_entry (dv_entries d)) (validate_order_step d)
             (λ es, fst <$> last es) (follows entry_lt)); [|done].
    intros es c. unfold validate_order_step, follows. rewrite bind_Some. setoid_rewrite last_snoc.
    split.
    - intros ([k id] & Hg & Hc). exists (k, id). split; [done|].
      destruct (last es) as [[k' id']|]; simpl in *; [|by simplify_eq].
      destruct (N.leb_spec k k'); [done|]. by simplify_eq.
    - intros ([k id] & Hg & Hf & ->). exists (k, id). split; [done|].
      destruct (last es) as [[k' id']|]; simpl in *; [|done]. unfold entry_lt in Hf. simpl in Hf.
      destruct (N.leb_spec k k'); [lia|done]. }
  split.
  - intros (b & Hb & _)%bind_Some. apply Hl in Hb as (es & ? & ? & ? & _). by exists es.
  - intros (es & [??] & ?). rewrite (proj2 (Hl (fst <$> last es))) by eauto. done.
Qed.

Lemma validate_order_id d d' : validate_order d = Some d' → d' = d.
Proof. unfold validate_order. intros (? & _ & [= ->])%bind_Some. done. Qed.

Lemma dictionary_validate_iff d :
  dictionary_validate d = Some d ↔
  ∃ es, dictionary_of d es ∧ StronglySorted entry_lt es ∧ NoDup es.*2.
Proof.
  assert (∀ b, foldl (λ o i, b ← o; validate_ids_step d b i) (Some ∅) (seq 0 (dv_count d)) = Some b ↔
    ∃ es, length es = dv_count d ∧ items (dictionary_entry (dv_entries d)) es ∧
      (∀ i x, es !! i = Some x → x.2 ∉ (take i es).*2) ∧ b = list_to_set es.*2) as Hl.
  { intros b. apply (column_loop (dictionary_entry (dv_entries d)) (validate_ids_step d)
             (λ es, list_to_set es.*2) (λ es x, x.2 ∉ es.*2)); [|done].
    intros es c. unfold validate_ids_step. rewrite bind_Some. split.
    - intros ([k id] & Hg & Hc). exists (k, id). split; [done|]. case_decide as Hd; [done|]. simplify_eq.
      rewrite elem_of_list_to_set in Hd. split; [done|]. rewrite fmap_app. set_solver.
    - intros ([k id] & Hg & Hf & ->). exists (k, id). split; [done|]. simpl.
      rewrite decide_False by (by rewrite elem_of_list_to_set). f_equal. rewrite fmap_app. set_solver. }
  assert (∀ es : list (N * N), (∀ i x, es !! i = Some x → x.2 ∉ (take i es).*2) ↔ NoDup es.*2) as Hnd.
  { induction es as [|x es IH] using rev_ind.
    - split; [intros; apply NoDup_nil_2|]. by intros _ ? ? ?%list_elem_of_lookup_2%not_elem_of_nil.
    - rewrite fmap_app, NoDup_app, <-IH. split.
      + intros Hx. split; [|split; [|apply NoDup_singleton]].
        * intros i y Hi. specialize (Hx i y). rewrite take_app_le in Hx by (apply lookup_lt_Some in Hi; lia).
          apply Hx. by apply lookup_app_l_Some.
        * specialize (Hx (length es) x). rewrite take_app_length in Hx. intros id Hid ->%list_elem_of_singleton.
          apply Hx; [by apply list_lookup_middle|done].
      + intros (Hx & Hnx & _) i y [Hi|[Hi Hy]]%lookup_app_Some.
        * rewrite take_app_le by (apply lookup_lt_Some in Hi; lia). by apply Hx.
        * apply list_lookup_singleton_Some in Hy as [? <-]. rewrite take_app_length' by lia.
          intros Hin. by apply (Hnx _ Hin), list_elem_of_singleton. }
  unfold dictionary_validate. split.
  - intros (d' & Ho & (b & Hb & _)%bind_Some)%bind_Some. rewrite (validate_order_id d d' Ho) in Ho.
    apply validate_order_iff in Ho as (es & [Hn Hi] & Hs).
    apply Hl in Hb as (es' & Hn' & Hi' & Hx & _). exists es. split_and!; [done..|].
    rewrite (items_unique _ es es') by (done || lia). by apply Hnd.
  - intros (es & [Hn Hi] & Hs & Hx). rewrite (proj2 (validate_order_iff d)) by (exists es; done). simpl.
    rewrite (proj2 (Hl (list_to_set es.*2))); [done|]. exists es. split_and!; [done..| |done]. by apply Hnd.
Qed.

Lemma dictionary_event_of d es i c :
  dictionary_of d es → dictionary_event d i c = (λ e, mkRunEvent c e.2 e.1) <$> es !! i.
Proof.
  intros [Hn Hi]. unfold dictionary_event. case_decide as Hd.
  - by rewrite lookup_ge_None_2 by lia.
  - destruct (lookup_lt_is_Some_2 es i) as [[k id] He]; [lia|]. by rewrite (Hi _ _ He), He.
Qed.
Lemma dictionary_entry_at_of d es i : dictionary_of d es → dictionary_entry_at d i = es !! i.
Proof.
  intros [Hn Hi]. unfold dictionary_entry_at. case_decide as Hd.
  - by rewrite lookup_ge_None_2 by lia.
  - destruct (lookup_lt_is_Some_2 es i) as [e He]; [lia|]. by rewrite (Hi _ _ He), He.
Qed.

(** The events a posting list holds, under a dictionary. *)
Definition list_of (l : PostingListView) (d : DictionaryView) (evs : list RunEvent) : Prop :=
  length evs = pl_posting_count l ∧ items (posting_event l d) evs.

Lemma validate_postings_iff l d :
  is_Some (foldl (λ o i, b ← o; validate_posting_step l d b i) (Some None) (seq 0 (pl_posting_count l))) ↔
  ∃ evs, list_of l d evs ∧ StronglySorted cmp_lt evs.
Proof.
  assert (∀ b, foldl (λ o i, b ← o; validate_posting_step l d b i) (Some None)
                 (seq 0 (pl_posting_count l)) = Some b ↔
    ∃ evs, length evs = pl_posting_count l ∧ items (posting_event l d) evs ∧
      (∀ i x, evs !! i = Some x → follows cmp_lt (take i evs) x) ∧ b = last evs) as Hl.
  { intros b. apply (column_loop (posting_event l d) (validate_posting_step l d) last (follows cmp_lt));
      [|done].
    intros evs c. unfold validate_posting_step, follows. rewrite bind_Some. setoid_rewrite last_snoc. split.
    - intros (e & Hg & Hc). exists e. split; [done|].
      destruct (last evs) as [e'|]; [|by simplify_eq]. unfold cmp_lt, cmp, RunEvent_ord.
      destruct (decide (canonical_order e' e = Lt)) as [E|E].
      + rewrite E, bool_decide_false in Hc by naive_solver. by simplify_eq.
      + by rewrite bool_decide_true in Hc.
    - intros (e & Hg & Hf & ->). exists e. split; [done|].
      destruct (last evs) as [e'|]; [|done]. unfold cmp_lt, cmp, RunEvent_ord in Hf.
      by rewrite Hf, bool_decide_false by naive_solver. }
  unfold is_Some, list_of. setoid_rewrite Hl. setoid_rewrite <-(StronglySorted_column cmp_lt). naive_solver.
Qed.

Lemma posting_event_of l d evs i : list_of l d evs → posting_event l d i = evs !! i.
Proof.
  intros [Hn Hi]. destruct (evs !! i) as [e|] eqn:E; [by apply Hi|].
  apply lookup_ge_None in E. unfold posting_event. by rewrite decide_True by lia.
Qed.

Definition record_lt (r r' : PrefixRecord * nat) : Prop :=
  cmp_lt (pr_prefix r.1) (pr_prefix r'.1) ∧ r.2 ≤ r'.2.
#[global] Instance record_lt_trans : Transitive record_lt.
Proof. intros x y z [??] [??]. split; [by etransitivity|lia]. Qed.

Definition located_record (s : SegmentView) (i : nat) : option (PrefixRecord * nat) :=
  offset ← record_offset s i;
  record ← segment_record s i;
  Some (record, offset).

(** The records a segment holds. *)
Definition directory_of (s : SegmentView) (recs : list PrefixRecord) : Prop :=
  length recs = sv_prefix_count s ∧ items (segment_record s) recs.

Section validate.
Context `{ShardHash}.

(** What the directory check accepts: increasing prefixes of the segment's
    shard, at increasing offsets past the offset table. *)
Definition directory_ok (s : SegmentView) (recs : list (PrefixRecord * nat)) : Prop :=
  length recs = sv_prefix_count s ∧ items (located_record s) recs ∧
  StronglySorted record_lt recs ∧
  Forall (λ r, segment_header_len + sv_prefix_count s * 4 ≤ r.2 ∧
               shard_for (sv_family s) (pr_prefix r.1) = sv_shard s) recs.

Lemma validate_directory_step_iff s acc i c :
  validate_directory_step s acc i = Some c ↔
  ∃ r, located_record s i = Some r ∧ acc.2 ≤ r.2 ∧ (∀ p, acc.1 = Some p → cmp_lt p (pr_prefix r.1)) ∧
       shard_for (sv_family s) (pr_prefix r.1) = sv_shard s ∧ c = (Some (pr_prefix r.1), r.2).
Proof.
  destruct acc as [p o']. unfold validate_directory_step, located_record. simpl.
  destruct (record_offset s i) as [o|]; simpl; [|split; [done|by intros (? & ? & _)]].
  destruct (decide (o < o')) as [Ho|Ho].
  { split; [done|]. intros (? & (r & _ & [= <-])%bind_Some & ? & _). simpl in *. lia. }
  destruct (segment_record s i) as [r|]; simpl; [|split; [done|by intros (? & ? & _)]].
  destruct (match p with Some p => bool_decide (cmp_le (pr_prefix r) p) | None => false end) eqn:Ep.
  { split; [done|]. intros (? & [= <-] & _ & Hp & _). destruct p as [p|]; [|done].
    apply bool_decide_eq_true in Ep. by apply cmp_not_le in Ep; [|by apply Hp]. }
  destruct (decide (shard_for (sv_family s) (pr_prefix r) ≠ sv_shard s)) as [Hs|Hs].
  { split; [done|]. by intros (? & [= <-] & _ & _ & ? & _). }
  apply dec_stable in Hs. split.
  - intros [= <-]. exists (r, o). split_and!; [done|simpl; lia| |done|done].
    intros q ->. apply bool_decide_eq_false in Ep. by apply cmp_not_le.
  - intros (? & [= <-] & _ & _ & _ & ->). done.
Qed.

Lemma validate_prefix_directory_iff s :
  validate_prefix_directory s = Some tt ↔ ∃ recs, directory_ok s recs.
Proof.
  set (start := segment_header_len + sv_prefix_count s * 4).
  set (ok := λ (recs : list (PrefixRecord * nat)) (r : PrefixRecord * nat),
         follows record_lt recs r ∧ (start ≤ r.2 ∨ recs ≠ []) ∧
         shard_for (sv_family s) (pr_prefix r.1) = sv_shard s).
  assert (∀ b, foldl (λ o i, b ← o; validate_directory_step s b i) (Some (None, start))
                 (seq 0 (sv_prefix_count s)) = Some b ↔
    ∃ recs, length recs = sv_prefix_count s ∧ items (located_record s) recs ∧
      (∀ i x, recs !! i = Some x → ok (take i recs) x) ∧
      b = ((λ r, pr_prefix r.1) <$> last recs, from_option snd start (last recs))) as Hl.
  { intros b. apply (column_loop (located_record s) (validate_directory_step s)
      (λ recs, ((λ r, pr_prefix r.1) <$> last recs, from_option snd start (last recs))) ok); [|done].
    intros recs c. rewrite validate_directory_step_iff. unfold ok, follows. setoid_rewrite last_snoc. simpl.
    apply exist_proper. intros r. destruct (last recs) as [[r' o']|] eqn:El; simpl.
    - assert (recs ≠ []) by (by intros ->). unfold record_lt. naive_solver.
    - apply last_None in El. naive_solver. }
  assert (∀ recs, (∀ i x, recs !! i = Some x → ok (take i recs) x) ↔
    StronglySorted record_lt recs ∧
    Forall (λ r, start ≤ r.2 ∧ shard_for (sv_family s) (pr_prefix r.1) = sv_shard s) recs) as Hok.
  { intros recs. rewrite <-(StronglySorted_column record_lt), Forall_lookup. unfold ok. split.
    - intros Hx. split; [by intros i x Hi; apply Hx|]. intros i x Hi. split; [|by apply (Hx i)].
      assert (StronglySorted record_lt recs) as Hs.
      { apply (StronglySorted_column record_lt). by intros j y Hj; apply Hx. }
      destruct recs as [|r recs]; [done|].
      assert (start ≤ r.2) by (by destruct (Hx 0 r) as (_ & [|] & _)).
      apply list_elem_of_lookup_2, elem_of_cons in Hi as [->|Hi]; [done|].
      apply StronglySorted_inv in Hs as [_ Hs]. rewrite Forall_forall in Hs.
      destruct (Hs x Hi). lia.
    - intros [Hf Hx] i x Hi. destruct (Hx i x Hi). split_and!; [by apply Hf|by left|done]. }
  unfold validate_prefix_directory, directory_ok. fold start. split.
  - intros (b & Hb & _)%bind_Some. apply Hl in Hb as (recs & ? & ? & Hx%Hok & _). exists recs. naive_solver.
  - intros (recs & ? & ? & Hs & Hf).
    rewrite (proj2 (Hl ((λ r, pr_prefix r.1) <$> last recs, from_option snd start (last recs)))); [done|].
    exists recs. split_and!; [done..| |done]. by apply Hok.
Qed.

(** The number of postings, as the loop adds it up. *)
Definition count_postings (recs : list PrefixRecord) : N :=
  foldl (λ n r, N.min (n + N.of_nat (pl_posting_count (pr_list r))) u64_max) 0%N recs.

Lemma located_directory s recs :
  directory_ok s recs → directory_of s recs.*1.
Proof.
  intros (Hn & Hi & _). split; [by rewrite length_fmap|]. intros i r Hr.
  apply list_lookup_fmap_Some in Hr as ([r' o] & -> & Hr). apply Hi in Hr. unfold located_record in Hr.
  apply bind_Some in Hr as (? & _ & (? & ? & [= -> _])%bind_Some). done.
Qed.

Lemma segment_validate_iff s d n :
  segment_validate s d = Some n ↔
  ∃ recs, directory_ok s recs ∧ n = count_postings recs.*1 ∧
    Forall (λ r, ∃ evs, list_of (pr_list r.1) d evs ∧ StronglySorted cmp_lt evs) recs.
Proof.
  assert (∀ b, foldl (λ o i, b ← o; validate_record_step s d b i) (Some 0%N)
                 (seq 0 (sv_prefix_count s)) = Some b ↔
    ∃ recs, length recs = sv_prefix_count s ∧ items (segment_record s) recs ∧
      (∀ i r, recs !! i = Some r → ∃ evs, list_of (pr_list r) d evs ∧ StronglySorted cmp_lt evs) ∧
      b = count_postings recs) as Hl.
  { intros b. apply (column_loop (segment_record s) (validate_record_step s d) count_postings
      (λ _ r, ∃ evs, list_of (pr_list r) d evs ∧ StronglySorted cmp_lt evs)); [|done].
    intros recs c. unfold validate_record_step. rewrite bind_Some. apply exist_proper. intros r.
    rewrite <-validate_postings_iff. unfold count_postings. rewrite foldl_app. cbn zeta.
    rewrite bind_Some. unfold is_Some. simpl. naive_solver. }
  unfold segment_validate. rewrite bind_Some. split.
  - intros ([] & Hd & Hb). apply validate_prefix_directory_iff in Hd as (recs & Hd).
    apply Hl in Hb as (recs' & Hn & Hi & Hr & ->). exists recs. split; [done|].
    destruct (located_directory s recs Hd) as [Hn' Hi'].
    rewrite (items_unique _ _ _ Hi Hi') in * by lia. split; [done|]. apply Forall_lookup.
    intros i [r o] Hro. apply (Hr i r). by rewrite list_lookup_fmap, Hro.
  - intros (recs & Hd & -> & Hr). exists tt. split; [apply validate_prefix_directory_iff; by exists recs|].
    apply Hl. destruct (located_directory s recs Hd) as [Hn Hi]. exists recs.*1. split_and!; [done..| |done].
    intros i r ([r' o] & -> & Hro)%list_lookup_fmap_Some. rewrite Forall_lookup in Hr. by apply (Hr i (r', o)).
Qed.
End validate.

(** ** The contents of a segment *)

Lemma Forall_choice {A B} (P : A → B → Prop) l : Forall (λ x, ∃ y, P x y) l → ∃ k, Forall2 P l k.
Proof.
  induction 1 as [|x l [y Hy] _ [k Hk]]; [by exists []|]. exists (y :: k). by constructor.
Qed.

(** A segment holds, prefix by prefix, the events of a posting list. *)
Definition segment_of (s : SegmentView) (d : DictionaryView) (content : list (bytes * list RunEvent)) : Prop :=
  length content = sv_prefix_count s ∧
  ∀ i p evs, content !! i = Some (p, evs) →
    ∃ r, segment_record s i = Some r ∧ pr_prefix r = p ∧ list_of (pr_list r) d evs.

(** The two orders a search relies on. *)
Definition sorted_content (content : list (bytes * list RunEvent)) : Prop :=
  StronglySorted cmp_lt content.*1 ∧ Forall (StronglySorted cmp_lt) content.*2.

Lemma segment_validate_content `{ShardHash} s d n :
  segment_validate s d = Some n →
  ∃ content, segment_of s d content ∧ sorted_content content ∧
    Forall (λ c, shard_for (sv_family s) c.1 = sv_shard s) content.
Proof.
  intros (recs & Hd & _ & Hr)%segment_validate_iff. pose proof (located_directory s recs Hd) as [Hn Hi].
  destruct Hd as (_ & _ & Hs & Hf).
  apply Forall_choice in Hr as [evss Hr].
  exists (zip ((λ r, pr_prefix r.1) <$> recs) evss). pose proof (Forall2_length _ _ _ Hr) as Hl.
  assert ((zip ((λ r, pr_prefix r.1) <$> recs) evss).*1 = (λ r, pr_prefix r.1) <$> recs) as Hfst
    by (apply fst_zip; rewrite length_fmap; lia).
  split; [split|split].
  - by rewrite <-(length_fmap fst), Hfst, length_fmap, <-(length_fmap fst).
  - intros i p evs (p' & evs' & [= -> ->] & Hp & He)%lookup_zip_with_Some.
    apply list_lookup_fmap_Some in Hp as (r & -> & Hro). exists r.1.
    split_and!; [apply Hi; by rewrite list_lookup_fmap, Hro|done|].
    by destruct (Forall2_lookup_lr _ _ _ _ _ _ Hr Hro He).
  - split.
    + rewrite Hfst. apply (StronglySorted_fmap _ record_lt); [|done]. by intros ? ? [??].
    + rewrite snd_zip by (rewrite length_fmap; lia). apply Forall_lookup. intros i evs He.
      destruct (Forall2_lookup_r _ _ _ _ _ Hr He) as (r & _ & _ & ?). done.
  - apply (Forall_fmap fst (λ p, shard_for (sv_family s) p = sv_shard s)). rewrite Hfst. apply Forall_fmap.
    by eapply Forall_impl; [exact Hf|intros r [_ ?]].
Qed.

(** ** Looking a prefix up *)

Lemma StronglySorted_at {A} (R : relation A) l i j x y :
  StronglySorted R l → i < j → l !! i = Some x → l !! j = Some y → R x y.
Proof.
  intros Hs Hij Hx Hy. rewrite <-(take_drop_middle l i x Hx) in Hs.
  apply StronglySorted_app_1_r, StronglySorted_inv in Hs as [_ Hs].
  rewrite Forall_forall in Hs. apply Hs, list_elem_of_lookup. exists (j - S i).
  rewrite lookup_drop. by replace (S i + (j - S i)) with j by lia.
Qed.

Lemma StronglySorted_weaken {A} (R S : relation A) l :
  (∀ x y, x ∈ l → y ∈ l → R x y → S x y) → StronglySorted R l → StronglySorted S l.
Proof.
  intros Hw Hs. induction Hs as [|x l _ IH Hx]; constructor.
  - apply IH. intros y z Hy Hz. apply Hw; by right.
  - rewrite Forall_forall in *. intros y Hy. apply Hw; [left|by right|by apply Hx].
Qed.

Lemma StronglySorted_of_at {A} (R : relation A) l :
  (∀ i j x y, i < j → l !! i = Some x → l !! j = Some y → R x y) → StronglySorted R l.
Proof.
  induction l as [|x l IH]; intros Hl; constructor.
  - apply IH. intros i j y z ? Hy Hz. by apply (Hl (S i) (S j)); [lia|..].
  - apply Forall_lookup. intros i y Hy. by apply (Hl 0 (S i)); [lia|..].
Qed.

Lemma segment_prefix_spec s d content wanted :
  segment_of s d content → StronglySorted cmp_lt content.*1 →
  match segment_prefix s wanted with
  | Some (Some l) => ∃ evs, (wanted, evs) ∈ content ∧ list_of l d evs
  | Some None => wanted ∉ content.*1
  | None => False
  end.
Proof.
  intros [Hn Hc] Hs. unfold segment_prefix.
  set (f := λ i, match content.*1 !! i with Some p => cmp p wanted | None => Eq end).
  assert (∀ i, i < length content → ∃ p evs r, content !! i = Some (p, evs) ∧ f i = cmp p wanted ∧
    segment_record s i = Some r ∧ pr_prefix r = p ∧ list_of (pr_list r) d evs) as Hi.
  { intros i Hi. destruct (lookup_lt_is_Some_2 content i Hi) as [[p evs] Hp].
    destruct (Hc i p evs Hp) as (r & ? & ? & ?). exists p, evs, r. split_and!; [done| |done..].
    unfold f. by rewrite list_lookup_fmap, Hp. }
  assert (∀ i j, i < j → j < length content → ∃ p q, f i = cmp p wanted ∧ f j = cmp q wanted ∧ cmp_lt p q)
    as Hij.
  { intros i j Hlt Hj. destruct (Hi i) as (p & ? & _ & Hp & Hfp & _); [lia|].
    destruct (Hi j Hj) as (q & ? & _ & Hq & Hfq & _). exists p, q. split_and!; [done..|].
    eapply (StronglySorted_at _ _ i j _ _ Hs Hlt); rewrite list_lookup_fmap; [by rewrite Hp|by rewrite Hq]. }
  destruct (binary_search_index_spec (sv_prefix_count s) f
    (λ middle, r ← segment_record s middle; Some (cmp (pr_prefix r) wanted))) as (r & Hr & Hspec).
  - intros i. rewrite <-Hn. intros Hlt. destruct (Hi i Hlt) as (p & evs & r & _ & -> & -> & <- & _). done.
  - intros i j Hlt. rewrite <-Hn. intros Hj. destruct (Hij i j Hlt Hj) as (p & q & -> & -> & ?).
    by apply cmp_trans.
  - intros i j Hlt. rewrite <-Hn. intros Hj. destruct (Hij i j Hlt Hj) as (p & q & -> & -> & Hpq).
    rewrite <-!cmp_lt_gt. intros ?. by apply (cmp_trans _ p).
  - rewrite Hr. cbn [mbind option_bind]. rewrite <-Hn in Hspec. destruct r as [m|k].
    + destruct Hspec as [Hm Heq]. destruct (Hi m Hm) as (p & evs & r & Hp & Hf & -> & <- & Hl). simpl.
      rewrite Hf in Heq. apply cmp_eq in Heq as <-. exists evs. split; [|done].
      by apply list_elem_of_lookup_2 in Hp.
    + destruct Hspec as (Hk & Hlt & Hgt). intros Hw. apply list_elem_of_lookup in Hw as [i Hw].
      assert (f i = Eq) as Hf by (unfold f; rewrite Hw; apply cmp_refl).
      apply lookup_lt_Some in Hw. rewrite length_fmap in Hw.
      destruct (decide (i < k)); [rewrite Hlt in Hf by done|rewrite Hgt in Hf by lia]; done.
Qed.

(** ** Dead keys *)

Definition key_alive (dead : option DeadKeys) (k : N) : Prop :=
  match dead with Some keys => k ∉ keys | None => True end.
#[global] Instance key_alive_dec dead k : Decision (key_alive dead k).
Proof. destruct dead; simpl; apply _. Defined.

Definition dead_sorted (dead : option DeadKeys) : Prop :=
  match dead with Some keys => StronglySorted N.lt keys | None => True end.

Lemma any_adjacent_false {A} (P : A → A → bool) (R : relation A) `{!Transitive R} l :
  (∀ x y, P x y = false ↔ R x y) → any_adjacent P l = false ↔ StronglySorted R l.
Proof.
  intros HP. assert (any_adjacent P l = false ↔ Sorted R l) as ->.
  { induction l as [|x [|y l] IH]; [split; constructor|split; repeat constructor|].
    cbn [any_adjacent]. rewrite orb_false_iff, IH, HP. split.
    - intros [??]. constructor; [done|by constructor].
    - intros Hs. apply Sorted_inv in Hs as [? Hd]. by inversion Hd. }
  split; [by apply Sorted_StronglySorted|apply StronglySorted_Sorted].
Qed.

Lemma dead_new_iff keys dead :
  dead_new keys = Some dead ↔ dead = keys ∧ keys ≠ [] ∧ StronglySorted N.lt keys.
Proof.
  unfold dead_new. pose proof (any_adjacent_false (λ x y, (y <=? x)%N) N.lt keys) as Ha.
  rewrite <-Ha by (intros x y; rewrite N.leb_gt; done).
  case_decide; [naive_solver|]. destruct (any_adjacent _ keys); naive_solver.
Qed.

Lemma dead_contains_spec keys k : StronglySorted N.lt keys → dead_contains keys k = true ↔ k ∈ keys.
Proof.
  intros Hs. unfold dead_contains.
  set (f := λ i, match keys !! i with Some k' => cmp k' k | None => Eq end).
  assert (∀ i j x y, i < j → keys !! i = Some x → keys !! j = Some y → (x < y)%N) as Hij
    by (intros; by eapply (StronglySorted_at N.lt keys i j)).
  destruct (binary_search_index_spec (length keys) f (λ i, k' ← keys !! i; Some (cmp k' k))) as (r & -> & Hr).
  - intros i [x Hx]%lookup_lt_is_Some_2. unfold f. by rewrite Hx.
  - intros i j Hlt [y Hy]%lookup_lt_is_Some_2. unfold f. rewrite Hy.
    destruct (lookup_lt_is_Some_2 keys i) as [x Hx]; [apply lookup_lt_Some in Hy; lia|]. rewrite Hx.
    unfold cmp, N_ord. rewrite !N.compare_lt_iff. pose proof (Hij i j x y Hlt Hx Hy). lia.
  - intros i j Hlt [y Hy]%lookup_lt_is_Some_2. unfold f. rewrite Hy.
    destruct (lookup_lt_is_Some_2 keys i) as [x Hx]; [apply lookup_lt_Some in Hy; lia|]. rewrite Hx.
    unfold cmp, N_ord. rewrite !N.compare_gt_iff. pose proof (Hij i j x y Hlt Hx Hy). lia.
  - rewrite list_elem_of_lookup. destruct r as [m|m].
    + destruct Hr as [[x Hx]%lookup_lt_is_Some_2 Hf]. unfold f in Hf. rewrite Hx in Hf.
      apply cmp_eq in Hf as ->. split; [by exists m|done].
    + destruct Hr as (Hm & Hlt & Hgt). split; [done|]. intros [i Hi].
      assert (f i = Eq) as Hf by (unfold f; rewrite Hi; apply cmp_refl).
      apply lookup_lt_Some in Hi.
      destruct (decide (i < m)); [rewrite Hlt in Hf by done|rewrite Hgt in Hf by lia]; done.
Qed.

(** ** The cursor *)

Lemma filter_none {A} (P : A → Prop) `{∀ x, Decision (P x)} (l : list A) :
  (∀ x, x ∈ l → ¬ P x) → filter P l = [].
Proof.
  induction l as [|x l IH]; intros Hl; [done|]. rewrite filter_cons_False by (apply Hl; left).
  apply IH. intros y Hy. apply Hl. by right.
Qed.
Lemma filter_on {A} (P Q : A → Prop) `{∀ x, Decision (P x), ∀ x, Decision (Q x)} (l : list A) :
  (∀ x, x ∈ l → P x ↔ Q x) → filter P l = filter Q l.
Proof.
  induction l as [|x l IH]; intros Hl; [done|].
  assert (filter P l = filter Q l) as IH' by (apply IH; intros y Hy; apply Hl; by right).
  pose proof (Hl x ltac:(left)). destruct (decide (P x)).
  - rewrite !filter_cons_True by naive_solver. by rewrite IH'.
  - rewrite !filter_cons_False by naive_solver. done.
Qed.

Definition cursor_admits (before : option (N * N)) (since until : N) (e : RunEvent) : Prop :=
  (since ≤ re_created_at e ≤ until)%N ∧
  match before with Some t => target_order t e = Gt | None => True end.
#[global] Instance cursor_admits_dec before since until e : Decision (cursor_admits before since until e).
Proof. unfold cursor_admits. destruct before; apply _. Defined.

Section cursor.
Context (l : PostingListView) (d : DictionaryView) (evs : list RunEvent).
Context (Hlist : list_of l d evs) (Hsorted : StronglySorted cmp_lt evs).

Lemma posting_search_spec t :
  NoDup (re_id <$> evs) →
  ∃ r, posting_search l d t = Some r ∧
    ∀ i e, evs !! i = Some e →
      (i < match r with inl i | inr i => i end ↔ target_order t e = Lt) ∧
      (i < match r with inl i => i + 1 | inr i => i end ↔ target_order t e ≠ Gt).
Proof.
  intros Hids. unfold posting_search.
  set (f := λ i, match evs !! i with Some e => target_order t e | None => Eq end).
  assert (∀ i j x y, i < j → evs !! i = Some x → evs !! j = Some y → cmp_lt x y) as Hij
    by (intros; by eapply (StronglySorted_at cmp_lt evs i j)).
  assert (∀ i j, i < j → j < length evs → (f j = Lt → f i = Lt) ∧ (f i = Gt → f j = Gt)) as Hmono.
  { intros i j Hlt [y Hy]%lookup_lt_is_Some_2.
    destruct (lookup_lt_is_Some_2 evs i) as [x Hx]; [apply lookup_lt_Some in Hy; lia|].
    unfold f. rewrite Hx, Hy, !target_order_Lt, !target_order_Gt.
    pose proof (Hij i j x y Hlt Hx Hy) as Hxy%canonical_lt. lia. }
  destruct Hlist as [Hn Hi].
  destruct (binary_search_index_spec (pl_posting_count l) f (λ ordinal,
    event ← posting_event l d ordinal;
    Some (then_with (cmp t.1 (re_created_at event)) (cmp (re_id event) t.2)))) as (r & -> & Hr).
  - intros i. rewrite <-Hn. intros [x Hx]%lookup_lt_is_Some_2. unfold f. by rewrite Hx, (Hi i x Hx).
  - intros i j Hlt. rewrite <-Hn. intros Hj. by apply Hmono.
  - intros i j Hlt. rewrite <-Hn. intros Hj. by apply Hmono.
  - exists r. split; [done|]. rewrite <-Hn in Hr. intros i e He.
    assert (f i = target_order t e) as Hf by (unfold f; by rewrite He).
    pose proof (lookup_lt_Some _ _ _ He) as Hlen. rewrite <-Hf. destruct r as [m|k].
    + destruct Hr as [Hm Heq]. assert (i ≠ m → f i ≠ Eq) as Hne.
      { intros Him Hfi. destruct (lookup_lt_is_Some_2 evs m Hm) as [x Hx]. unfold f in Heq, Hfi.
        rewrite Hx in Heq. rewrite He in Hfi. apply target_order_Eq in Heq, Hfi. apply Him.
        eapply (NoDup_lookup _ i m (re_id e) Hids); rewrite list_lookup_fmap; [by rewrite He|].
        rewrite Hx. simpl. congruence. }
      destruct (decide (i = m)) as [->|Him]; [rewrite Heq; split; split; intros; done || lia|].
      specialize (Hne Him). destruct (decide (i < m)) as [Hlt|Hlt].
      * assert (f i ≠ Gt) as Hgt.
        { intros Hg. apply (Hmono i m) in Hg; [congruence|lia..]. }
        destruct (f i); split; split; intros; done || lia.
      * assert (f i ≠ Lt) as Hgt.
        { intros Hg. apply (Hmono m i) in Hg; [congruence|lia..]. }
        destruct (f i); split; split; intros; done || lia.
    + destruct Hr as (Hk & Hlt & Hgt). destruct (decide (i < k)).
      * rewrite Hlt by done. split; split; intros; done || lia.
      * rewrite Hgt by lia. split; split; intros; done || lia.
Qed.

(** What a cursor has yet to yield. *)
Definition remaining (dead : option DeadKeys) (c : PostingCursor) : list RunEvent :=
  if pc_exhausted c then []
  else filter (λ e, (pc_since c ≤ re_created_at e)%N ∧ key_alive dead (re_event_key e))
         (drop (pc_next_ordinal c) evs).

Lemma posting_cursor_spec before since until dead :
  NoDup (re_id <$> evs) → Forall (λ e, re_created_at e ≤ u64_max)%N evs →
  ∃ c, posting_cursor l d before since until = Some c ∧ pc_list c = l ∧ pc_dictionary c = d ∧
    remaining dead c =
      filter (λ e, cursor_admits before since until e ∧ key_alive dead (re_event_key e)) evs.
Proof.
  intros Hids Hmax. unfold posting_cursor.
  assert (∃ start, (if decide (until ≠ u64_max) then
       found ← posting_search l d (until, 0%N);
       Some (match found with inl index | inr index => index end)
     else Some 0) = Some start ∧
    ∀ i e, evs !! i = Some e → i < start ↔ ¬ (re_created_at e ≤ until)%N) as (start & -> & Hstart).
  { case_decide as Hu.
    - destruct (posting_search_spec (until, 0%N) Hids) as (r & -> & Hr). eexists. split; [done|].
      intros i e Hi. rewrite (proj1 (Hr i e Hi)), target_order_Lt. simpl. lia.
    - exists 0. split; [done|]. intros i e Hi. subst until.
      rewrite Forall_lookup in Hmax. specialize (Hmax i e Hi). lia. }
  cbn [mbind option_bind].
  assert (∃ start', match before with
    | Some before =>
        found ← posting_search l d before;
        Some (start `max` match found with inl index => index + 1 | inr index => index end)
    | None => Some start
    end = Some start' ∧
    ∀ i e, evs !! i = Some e → start' ≤ i ↔
      (re_created_at e ≤ until)%N ∧ match before with Some t => target_order t e = Gt | None => True end)
    as (start' & -> & Hstart').
  { destruct before as [t|].
    - destruct (posting_search_spec t Hids) as (r & -> & Hr). eexists. split; [done|].
      intros i e Hi. destruct (Hr i e Hi) as [_ Ha]. specialize (Hstart i e Hi).
      set (a := match r with inl i => i + 1 | inr i => i end) in *. clearbody a.
      assert (a ≤ i ↔ target_order t e = Gt) as Ha'.
      { rewrite Nat.le_ngt, Ha. split; [apply dec_stable|by intros ? ?]. }
      rewrite <-Ha', Nat.max_lub_iff. assert (start ≤ i ↔ (re_created_at e ≤ until)%N) as -> by lia. done.
    - exists start. split; [done|]. intros i e Hi. specialize (Hstart i e Hi).
      assert (start ≤ i ↔ (re_created_at e ≤ until)%N) as -> by lia. naive_solver. }
  cbn [mbind option_bind]. eexists. split_and!; [done..|]. unfold remaining. simpl.
  rewrite <-(take_drop start' evs) at 2. rewrite filter_app.
  rewrite (filter_none _ (take start' evs)).
  - simpl. apply filter_on. intros e [i Hi]%list_elem_of_lookup. rewrite lookup_drop in Hi.
    pose proof (proj1 (Hstart' _ e Hi) ltac:(lia)). unfold cursor_admits. naive_solver.
  - intros e [i Hi]%list_elem_of_lookup [[[_ Hu] Hb] _]. apply lookup_take_Some in Hi as [Hi Hlt].
    assert (start' ≤ i) by (apply (Hstart' i e Hi); naive_solver). lia.
Qed.

Lemma cursor_next_spec c :
  pc_list c = l → pc_dictionary c = d →
  ∃ o c', cursor_next c = Some (o, c') ∧ pc_list c' = l ∧ pc_dictionary c' = d ∧
    (∀ dead, match o with
     | Some e => remaining dead c = if decide (key_alive dead (re_event_key e)) then e :: remaining dead c'
                                    else remaining dead c'
     | None => remaining dead c = [] ∧ remaining dead c' = []
     end) ∧
    (is_Some o → pc_next_ordinal c < length evs ∧ pc_next_ordinal c' = S (pc_next_ordinal c)).
Proof.
  intros Hl Hd. unfold cursor_next, remaining. rewrite Hl, Hd, (posting_event_of l d evs) by done.
  destruct (pc_exhausted c) eqn:Ex; simpl.
  { eexists None, c. rewrite Ex. by split_and!; [..|intros []]. }
  destruct Hlist as [Hn _]. rewrite <-Hn. destruct (Nat.leb_spec (length evs) (pc_next_ordinal c)) as [Hle|Hlt].
  { eexists None, c. rewrite Ex, drop_ge by done. by split_and!; [..|intros []]. }
  destruct (lookup_lt_is_Some_2 evs (pc_next_ordinal c) Hlt) as [e He]. rewrite He. cbn [mbind option_bind].
  pose proof (drop_S _ _ _ He) as Hdrop. destruct (N.ltb_spec (re_created_at e) (pc_since c)) as [Hs|Hs].
  - eexists None, _. split_and!; [done..| |by intros []]. intros dead. split; [|done].
    apply filter_none. intros e' [i Hi]%list_elem_of_lookup [Hsince _]. rewrite lookup_drop in Hi.
    destruct (decide (i = 0)) as [->|].
    + rewrite Nat.add_0_r, He in Hi. simplify_eq. lia.
    + assert (cmp_lt e e') as Hlt'%canonical_lt
        by (by apply (StronglySorted_at cmp_lt evs (pc_next_ordinal c) (pc_next_ordinal c + i)); [|lia|..]).
      lia.
  - eexists (Some e), _. split_and!; [done..| |done]. intros dead. simpl.
    rewrite Hdrop. case_decide; [rewrite filter_cons_True|rewrite filter_cons_False]; naive_solver.
Qed.

Lemma next_live_loop_spec dead fuel c :
  dead_sorted dead → pc_list c = l → pc_dictionary c = d →
  0 < fuel → length evs - pc_next_ordinal c < fuel →
  ∃ c', next_live_loop fuel dead c = Some (head (remaining dead c), c') ∧
    pc_list c' = l ∧ pc_dictionary c' = d ∧ remaining dead c' = tail (remaining dead c).
Proof.
  intros Hdead. revert c. induction fuel as [|fuel IH]; intros c Hl Hd Hpos Hfuel; [lia|].
  cbn [next_live_loop]. destruct (cursor_next_spec c Hl Hd) as (o & c' & -> & Hl' & Hd' & Hr & Hnext).
  cbn [mbind option_bind]. specialize (Hr dead). destruct o as [e|].
  - assert (match dead with Some keys => negb (dead_contains keys (re_event_key e)) | None => true end =
      bool_decide (key_alive dead (re_event_key e))) as ->.
    { destruct dead as [keys|]; simpl in *; [|done]. pose proof (dead_contains_spec keys (re_event_key e) Hdead).
      destruct (dead_contains keys (re_event_key e)); case_bool_decide; naive_solver. }
    destruct (Hnext (ex_intro _ e eq_refl)) as [Hlt Hn']. case_bool_decide; case_decide; try done; rewrite Hr.
    + by exists c'.
    + apply IH; [done..|lia|lia].
  - destruct Hr as [-> Hr]. by exists c'.
Qed.

Lemma next_live_spec dead c :
  dead_sorted dead → pc_list c = l → pc_dictionary c = d →
  ∃ c', next_live dead c = Some (head (remaining dead c), c') ∧
    pc_list c' = l ∧ pc_dictionary c' = d ∧ remaining dead c' = tail (remaining dead c).
Proof.
  intros Hdead Hl Hd. apply next_live_loop_spec; [done..|lia|]. rewrite Hl. destruct Hlist as [<- _]. lia.
Qed.
End cursor.
