(* ===== verification/PostingsFormat.v ===== *)
(** * The packed format

    The bytes the encoders of [postings.rs] write, and that the views read them
    back: a dictionary as its entries, a segment as its records, a posting list
    as its postings.  [encode_segment] writes the segment of its memberships'
    groups. *)

From S2P Require Import Prelude Grammar Schema QueueBytes Postings PostingsRead.

(** ** Fixed-width arrays *)

Lemma slice_mid {A} (a b c : list A) s e :
  s = length a → e = s + length b → slice (a ++ b ++ c) s e = Some b.
Proof.
  intros -> ->. unfold slice. rewrite decide_True by (rewrite !length_app; lia).
  rewrite drop_app_length. replace (length a + length b - length a) with (length b) by lia.
  by rewrite take_app_length.
Qed.

Lemma read_be_mid a c w n s :
  (n < 256 ^ N.of_nat w)%N → s = length a → read_be (a ++ be_bytes w n ++ c) s w = Some n.
Proof.
  intros Hn Hs. unfold read_be. rewrite (slice_mid a (be_bytes w n) c); [|done|by rewrite length_be_bytes].
  simpl. by rewrite from_to_be_bytes.
Qed.

Lemma take_at_mid a b c s n :
  s = length a → n = length b → take_at (a ++ b ++ c) s n = Some (b, s + n).
Proof. intros -> ->. unfold take_at. by rewrite slice_mid. Qed.

Lemma take_at_head b c n : n = length b → take_at (b ++ c) 0 n = Some (b, n).
Proof. intros Hn. by apply (take_at_mid [] b c 0 n). Qed.

Lemma take_at_tail a b s n : s = length a → n = length b → take_at (a ++ b) s n = Some (b, s + n).
Proof. intros. rewrite <-(app_nil_r b) at 1. by apply take_at_mid. Qed.

Lemma read_u32_mid a c n s :
  (n ≤ u32_max)%N → s = length a → read_u32 (a ++ be_bytes 4 n ++ c) s = Some (n, s + 4).
Proof.
  intros Hn Hs. unfold read_u32. rewrite take_at_mid by (rewrite ?length_be_bytes; done).
  cbn [mbind option_bind]. rewrite from_to_be_bytes; [done|]. unfold u32_max in Hn. simpl. lia.
Qed.

Section fixed_width.
Context {A : Type} (f : A → bytes) (w : nat) (Hw : ∀ x, length (f x) = w).

Lemma length_concat_fixed l : length (concat (f <$> l)) = length l * w.
Proof. induction l as [|x l IH]; [done|]. csimpl. by rewrite length_app, IH, Hw. Qed.

Lemma concat_fixed_at l i x :
  l !! i = Some x →
  concat (f <$> l) = concat (f <$> take i l) ++ f x ++ concat (f <$> drop (S i) l) ∧
  length (concat (f <$> take i l)) = i * w.
Proof.
  intros Hi. split.
  - rewrite <-(take_drop_middle l i x Hi) at 1. by rewrite fmap_app, concat_app.
  - rewrite length_concat_fixed, length_take_le; [done|]. apply lookup_lt_Some in Hi. lia.
Qed.
End fixed_width.

Lemma u32_try_Some n m : u32_try n = Some m ↔ (N.of_nat n ≤ u32_max)%N ∧ m = N.of_nat n.
Proof. unfold u32_try. destruct (N.leb_spec (N.of_nat n) u32_max); naive_solver lia. Qed.

(** ** The dictionary *)

Definition enc_entry (e : N * N) : bytes := be_bytes 8 e.1 ++ be_bytes 32 e.2.
Definition enc_entries (es : list (N * N)) : bytes := concat (enc_entry <$> es).
Definition entry_typed (e : N * N) : Prop := (e.1 ≤ u64_max ∧ e.2 < 2 ^ 256)%N.
Definition dictionary_view (es : list (N * N)) : DictionaryView :=
  mkDictionaryView (enc_entries es) (length es).

Lemma length_enc_entry e : length (enc_entry e) = dictionary_entry_len.
Proof. unfold enc_entry. by rewrite length_app, !length_be_bytes. Qed.

Lemma dictionary_view_of es : Forall entry_typed es → dictionary_of (dictionary_view es) es.
Proof.
  intros Ht. split; [done|]. intros i [k id] Hi. simpl.
  rewrite Forall_lookup in Ht. destruct (Ht i _ Hi) as [Hk Hid]. simpl in *.
  destruct (concat_fixed_at enc_entry _ length_enc_entry es i _ Hi) as [Heq Hlen].
  change (enc_entry (k, id)) with (be_bytes 8 k ++ be_bytes 32 id) in Heq.
  unfold dictionary_entry, enc_entries. rewrite Heq.
  rewrite <-!(assoc_L (++)), (read_be_mid _ _ 8 k) by (simpl; unfold u64_max in Hk; lia).
  cbn [mbind option_bind]. rewrite (app_assoc (concat _)).
  rewrite (read_be_mid _ _ 32 id); [done|done|]. rewrite length_app, length_be_bytes. lia.
Qed.

Lemma encode_dictionary_view es v :
  encode_dictionary es = Some v → dictionary_parse v = Some (dictionary_view es).
Proof.
  unfold encode_dictionary. intros (n & [Hn ->]%u32_try_Some & Hv)%bind_Some. apply (inj Some) in Hv as <-.
  change (concat _) with (enc_entries es). unfold dictionary_parse.
  rewrite take_at_head by done. cbn [mbind option_bind]. rewrite decide_False by naive_solver.
  rewrite read_u32_mid by done. cbn [mbind option_bind]. rewrite Nat2N.id, decide_False.
  - done.
  - rewrite !length_app, length_be_bytes. unfold enc_entries.
    rewrite (length_concat_fixed enc_entry _ length_enc_entry). simpl. lia.
Qed.

Lemma encode_dictionary_fits es :
  (N.of_nat (length es) ≤ u32_max)%N →
  encode_dictionary es = Some (dictionary_magic ++ be_bytes 4 (N.of_nat (length es)) ++ enc_entries es).
Proof. intros Hn. unfold encode_dictionary. by rewrite (proj2 (u32_try_Some _ (N.of_nat (length es)))). Qed.

(** ** A posting list *)

Definition enc_posting (p : N * N) : bytes := be_bytes 8 p.1 ++ be_bytes 4 p.2.
Definition enc_postings (ps : list (N * N)) : bytes := concat (enc_posting <$> ps).
Definition posting_typed (p : N * N) : Prop := (p.1 ≤ u64_max ∧ p.2 ≤ u32_max)%N.
Definition list_view (ps : list (N * N)) : PostingListView :=
  mkPostingListView (length ps) (enc_postings ps).

(** The event a posting names. *)
Definition resolve (es : list (N * N)) (p : N * N) : option RunEvent :=
  (λ e, mkRunEvent p.1 e.2 e.1) <$> es !! N.to_nat p.2.

Lemma length_enc_posting p : length (enc_posting p) = posting_entry_len.
Proof. unfold enc_posting. by rewrite length_app, !length_be_bytes. Qed.

Lemma list_view_at ps i p :
  Forall posting_typed ps → ps !! i = Some p →
  posting_created_at (list_view ps) i = Some p.1 ∧
  posting_dictionary_ordinal (list_view ps) i = Some (N.to_nat p.2).
Proof.
  intros Ht Hi. rewrite Forall_lookup in Ht. destruct (Ht i p Hi) as [Hc Ho]. destruct p as [c o]. simpl in *.
  destruct (concat_fixed_at enc_posting _ length_enc_posting ps i _ Hi) as [Heq Hlen].
  change (enc_posting (c, o)) with (be_bytes 8 c ++ be_bytes 4 o) in Heq.
  unfold posting_created_at, posting_dictionary_ordinal, list_view, enc_postings; simpl pl_postings.
  rewrite Heq, <-!(assoc_L (++)). split.
  - rewrite (read_be_mid _ _ 8 c); [done| |done]. unfold u64_max in Hc. simpl. lia.
  - rewrite (app_assoc (concat _)), (read_be_mid _ _ 4 o); [done| |].
    + unfold u32_max in Ho. simpl. lia.
    + rewrite length_app, length_be_bytes. lia.
Qed.

Lemma list_view_of d es ps evs :
  dictionary_of d es → Forall posting_typed ps → mapM (resolve es) ps = Some evs →
  list_of (list_view ps) d evs.
Proof.
  intros Hd Ht Hm. apply mapM_Some_1 in Hm. split; [by rewrite <-(Forall2_length _ _ _ Hm)|].
  intros i e He. destruct (Forall2_lookup_r _ _ _ _ _ Hm He) as (p & Hp & Hr).
  unfold posting_event. rewrite decide_False by (apply lookup_lt_Some in Hp; simpl; lia).
  destruct (list_view_at ps i p Ht Hp) as [-> ->]. cbn [mbind option_bind].
  by rewrite (dictionary_event_of d es).
Qed.

(** ** A prefix record *)

Definition enc_record (r : bytes * list (N * N)) : bytes :=
  be_bytes 4 (N.of_nat (length r.1)) ++ r.1 ++ be_bytes 4 (N.of_nat (length r.2)) ++ enc_postings r.2.
Definition rec_fits (r : bytes * list (N * N)) : Prop :=
  (N.of_nat (length r.1) ≤ u32_max ∧ N.of_nat (length r.2) ≤ u32_max)%N ∧ r.2 ≠ [].

Lemma parse_enc_record r :
  rec_fits r → parse_prefix_record (enc_record r) = Some (mkPrefixRecord r.1 (list_view r.2)).
Proof.
  destruct r as [p ps]. intros [[Hp Hps] Hne]. simpl in *. unfold enc_record, parse_prefix_record. simpl.
  rewrite (read_u32_mid [] _ _ 0 Hp eq_refl : read_u32 (be_bytes 4 _ ++ _) 0 = _). cbn [mbind option_bind].
  rewrite (take_at_mid (be_bytes 4 (N.of_nat (length p))) p)
    by (rewrite ?length_be_bytes, ?Nat2N.id; done). cbn [mbind option_bind].
  rewrite Nat2N.id, (app_assoc (be_bytes 4 (N.of_nat (length p)))), read_u32_mid
    by (rewrite ?length_app, ?length_be_bytes; done). cbn [mbind option_bind].
  assert (length (enc_postings ps) = length ps * posting_entry_len) as Hlen
    by apply (length_concat_fixed enc_posting _ length_enc_posting).
  rewrite decide_False by (destruct ps; [done|simpl; lia]).
  rewrite Nat2N.id, app_assoc, take_at_tail by (rewrite ?length_app, ?length_be_bytes; simpl; lia).
  cbn [mbind option_bind]. rewrite decide_False; [done|]. rewrite !length_app, !length_be_bytes. lia.
Qed.

(** ** A segment *)

Definition enc_records (recs : list (bytes * list (N * N))) : bytes := concat (enc_record <$> recs).
Definition offset_of (recs : list (bytes * list (N * N))) (i : nat) : nat :=
  segment_header_len + length recs * 4 + length (enc_records (take i recs)).
Definition enc_offsets (recs : list (bytes * list (N * N))) : bytes :=
  concat ((λ i, be_bytes 4 (N.of_nat (offset_of recs i))) <$> seq 0 (length recs)).
Definition enc_segment (family : Family) (shard : N) (recs : list (bytes * list (N * N))) : bytes :=
  segment_header family shard (N.of_nat (length recs)) ++ enc_offsets recs ++ enc_records recs.
Definition segment_view (family : Family) (shard : N) (recs : list (bytes * list (N * N))) : SegmentView :=
  mkSegmentView (enc_segment family shard recs) family shard (length recs).

Record seg_fits (recs : list (bytes * list (N * N))) : Prop := {
  sf_nonempty : recs ≠ [];
  sf_count : (N.of_nat (length recs) ≤ u32_max)%N;
  sf_records : Forall rec_fits recs;
  sf_offsets : ∀ i, i < length recs → (N.of_nat (offset_of recs i) ≤ u32_max)%N
}.

Lemma length_segment_header f s n : length (segment_header f s n) = segment_header_len.
Proof. unfold segment_header. by rewrite !length_app, length_be_bytes. Qed.

Lemma length_enc_offsets recs : length (enc_offsets recs) = length recs * 4.
Proof.
  unfold enc_offsets. rewrite (length_concat_fixed _ 4) by (intros; apply length_be_bytes).
  by rewrite length_seq.
Qed.

Lemma length_enc_segment f s recs : length (enc_segment f s recs) = offset_of recs (length recs).
Proof.
  unfold enc_segment, offset_of. rewrite !length_app, length_segment_header, length_enc_offsets, take_ge; lia.
Qed.

Lemma enc_records_at recs i r :
  recs !! i = Some r →
  enc_records recs = enc_records (take i recs) ++ enc_record r ++ enc_records (drop (S i) recs) ∧
  offset_of recs (i + 1) = offset_of recs i + length (enc_record r).
Proof.
  intros Hi. unfold enc_records, offset_of. split.
  - rewrite <-(take_drop_middle recs i r Hi) at 1. by rewrite fmap_app, concat_app.
  - rewrite (Nat.add_comm i 1). simpl (1 + i). rewrite (take_S_r _ _ _ Hi). unfold enc_records.
    rewrite fmap_app, concat_app, length_app. csimpl. rewrite app_nil_r. lia.
Qed.

Section segment_view.
Context (f : Family) (s : N) (recs : list (bytes * list (N * N))) (Hfits : seg_fits recs).

Lemma record_offset_view i :
  i < length recs → record_offset (segment_view f s recs) i = Some (offset_of recs i).
Proof.
  intros Hi. unfold record_offset. cbn [sv_prefix_count segment_view]. rewrite decide_False by lia.
  assert (seq 0 (length recs) !! i = Some i) as Hseq by (by rewrite lookup_seq_lt).
  destruct (concat_fixed_at (λ i, be_bytes 4 (N.of_nat (offset_of recs i))) 4
    ltac:(intros; apply length_be_bytes) _ _ _ Hseq) as [Heq Hlen].
  unfold segment_view, enc_segment, enc_offsets; cbn [sv_value segment_view]. rewrite Heq. cbn beta.
  rewrite <-!(assoc_L (++)), app_assoc, read_be_mid; [by simpl; rewrite Nat2N.id| |].
  - pose proof (sf_offsets _ Hfits i Hi) as Hle. unfold u32_max in Hle. simpl. lia.
  - by rewrite length_app, length_segment_header, Hlen.
Qed.

Lemma segment_record_view i r :
  recs !! i = Some r →
  segment_record (segment_view f s recs) i = Some (mkPrefixRecord r.1 (list_view r.2)).
Proof.
  intros Hi. pose proof (lookup_lt_Some _ _ _ Hi) as Hlt. destruct (enc_records_at recs i r Hi) as [Heq Hoff].
  unfold segment_record. rewrite (record_offset_view i Hlt). cbn [mbind option_bind].
  change (sv_prefix_count (segment_view f s recs)) with (length recs).
  change (sv_value (segment_view f s recs)) with (enc_segment f s recs).
  assert ((if decide (i + 1 = length recs) then Some (length (enc_segment f s recs))
           else record_offset (segment_view f s recs) (i + 1)) = Some (offset_of recs (i + 1))) as ->.
  { case_decide as He; [by rewrite length_enc_segment, He|]. apply record_offset_view. lia. }
  cbn [mbind option_bind]. pose proof (sf_records _ Hfits) as Hr. rewrite Forall_lookup in Hr.
  assert (0 < length (enc_record r)) by (unfold enc_record; rewrite length_app, length_be_bytes; lia).
  assert (slice (enc_segment f s recs) (offset_of recs i) (offset_of recs (i + 1)) = Some (enc_record r))
    as Hslice.
  { unfold enc_segment. rewrite Heq, !app_assoc, <-(app_assoc _ (enc_record r)). apply slice_mid.
    - by rewrite !length_app, length_segment_header, length_enc_offsets.
    - done. }
  rewrite decide_False.
  - rewrite Hslice. cbn [mbind option_bind]. by apply parse_enc_record, (Hr i).
  - unfold slice in Hslice. case_decide; [lia|done].
Qed.

Lemma segment_parse_view :
  (s ≤ shard_mask)%N → (f = FGlobal → s = 0%N) →
  segment_parse (enc_segment f s recs) = Some (segment_view f s recs).
Proof.
  intros Hs Hg. unfold segment_view. set (v := enc_segment f s recs).
  assert (v = segment_magic ++ [family_u8 f] ++ [s] ++ be_bytes 4 (N.of_nat (length recs)) ++
            enc_offsets recs ++ enc_records recs) as Hv.
  { unfold v, enc_segment, segment_header. by rewrite <-!(assoc_L (++)). }
  clearbody v. unfold segment_parse.
  assert (take_at v 0 (length segment_magic) = Some (segment_magic, 8)) as ->
    by (rewrite Hv; by apply take_at_head).
  cbn [mbind option_bind]. rewrite decide_False by naive_solver.
  assert (take_at v 8 1 = Some ([family_u8 f], 9)) as -> by (rewrite Hv; by apply take_at_mid).
  cbn [mbind option_bind head]. assert (family_from_u8 (family_u8 f) = Some f) as -> by (by destruct f).
  assert (take_at v 9 1 = Some ([s], 10)) as ->.
  { rewrite Hv, app_assoc. by apply take_at_mid. }
  cbn [mbind option_bind head]. rewrite decide_False by (intros [?|[??]]; [lia|naive_solver]).
  assert (read_u32 v 10 = Some (N.of_nat (length recs), 14)) as ->.
  { rewrite Hv, app_assoc, app_assoc. apply (read_u32_mid _ _ _ 10); [apply Hfits|done]. }
  cbn [mbind option_bind]. cbn zeta. rewrite Nat2N.id, decide_False, decide_False; [done| |].
  - rewrite Hv, !length_app, length_be_bytes, length_enc_offsets. simpl. lia.
  - pose proof (sf_nonempty _ Hfits). destruct recs; [done|]. simpl. lia.
Qed.
End segment_view.

(** ** What a written segment holds *)

(** Record by record, the prefix and the events its postings name. *)
Definition rec_content (es : list (N * N)) (r : bytes * list (N * N)) (c : bytes * list RunEvent) : Prop :=
  c.1 = r.1 ∧ Forall posting_typed r.2 ∧ mapM (resolve es) r.2 = Some c.2.

Section written.
Context (f : Family) (s : N) (recs : list (bytes * list (N * N))) (Hfits : seg_fits recs).
Context (d : DictionaryView) (es : list (N * N)) (Hd : dictionary_of d es).
Context (content : list (bytes * list RunEvent)) (Hcontent : Forall2 (rec_content es) recs content).

Lemma segment_view_of : segment_of (segment_view f s recs) d content.
Proof.
  split; [by rewrite <-(Forall2_length _ _ _ Hcontent)|]. intros i p evs Hi.
  destruct (Forall2_lookup_r _ _ _ _ _ Hcontent Hi) as (r & Hr & Hp & Ht & Hm).
  exists (mkPrefixRecord r.1 (list_view r.2)). split_and!; [by apply segment_record_view|done|].
  by apply (list_view_of d es).
Qed.

Lemma segment_view_validates `{ShardHash} :
  sorted_content content → Forall (λ c, shard_for f c.1 = s) content →
  is_Some (segment_validate (segment_view f s recs) d).
Proof.
  intros [Hsp Hse] Hsh.
  set (locs := imap (λ i r, (mkPrefixRecord r.1 (list_view r.2), offset_of recs i)) recs).
  assert (∀ i x, locs !! i = Some x → ∃ r c, recs !! i = Some r ∧ content !! i = Some c ∧ rec_content es r c ∧
    x = (mkPrefixRecord r.1 (list_view r.2), offset_of recs i)) as Hlocs.
  { intros i x. unfold locs. rewrite list_lookup_imap, fmap_Some. intros (r & Hr & ->).
    destruct (Forall2_lookup_l _ _ _ _ _ Hcontent Hr) as (c & Hc & ?). eauto 10. }
  exists (count_postings locs.*1). apply segment_validate_iff. exists locs. split; [|split; [done|]].
  - unfold directory_ok. split; [by unfold locs; rewrite length_imap|]. split_and!.
    + intros i x (r & c & Hr & _ & _ & ->)%Hlocs. unfold located_record.
      rewrite record_offset_view by (done || by apply lookup_lt_Some in Hr).
      cbn [mbind option_bind]. by rewrite (segment_record_view _ _ _ Hfits i r).
    + apply StronglySorted_of_at. intros i j x y Hij (r & c & Hr & Hc & [Hp _] & ->)%Hlocs
        (r' & c' & Hr' & Hc' & [Hp' _] & ->)%Hlocs. split; simpl.
      * rewrite <-Hp, <-Hp'. eapply (StronglySorted_at cmp_lt content.*1 i j); [done..| |];
          rewrite list_lookup_fmap; [by rewrite Hc|by rewrite Hc'].
      * unfold offset_of. assert (take i recs `prefix_of` take j recs) as [k ->].
        { exists (drop i (take j recs)). rewrite <-(take_drop i (take j recs)) at 1. by rewrite take_take, min_l by lia. }
        unfold enc_records. rewrite fmap_app, concat_app, length_app. lia.
    + apply Forall_lookup. intros i x (r & c & Hr & Hc & [Hp _] & ->)%Hlocs. simpl. split.
      * unfold offset_of, segment_header_len. lia.
      * rewrite Forall_lookup in Hsh. specialize (Hsh i c Hc). simpl in Hsh. by rewrite <-Hp.
  - apply Forall_lookup. intros i x (r & c & Hr & Hc & (Hp & Ht & Hm) & ->)%Hlocs. exists c.2.
    split; [by apply (list_view_of d es)|]. rewrite Forall_lookup in Hse. apply (Hse i).
    by rewrite list_lookup_fmap, Hc.
Qed.
End written.

(** ** What the bytes of a segment hold

    [M p e]: the event [e] is posted under the prefix [p]. *)
Definition segment_holds `{ShardHash} (f : Family) (s : N) (value : bytes) (d : DictionaryView)
    (M : bytes → RunEvent → Prop) : Prop :=
  ∃ view content, segment_parse value = Some view ∧ sv_family view = f ∧ sv_shard view = s ∧
    is_Some (segment_validate view d) ∧ segment_of view d content ∧ sorted_content content ∧
    (∀ p evs, (p, evs) ∈ content → evs ≠ [] ∧ ∀ e, e ∈ evs ↔ M p e) ∧
    (∀ p e, M p e → shard_for f p = s → p ∈ content.*1).

Lemma written_holds `{ShardHash} f s recs d es content (M : bytes → RunEvent → Prop) :
  seg_fits recs → dictionary_of d es → Forall2 (rec_content es) recs content → sorted_content content →
  Forall (λ c, shard_for f c.1 = s) content → (s ≤ shard_mask)%N → (f = FGlobal → s = 0%N) →
  (∀ p evs e, (p, evs) ∈ content → e ∈ evs ↔ M p e) →
  (∀ p e, M p e → shard_for f p = s → p ∈ content.*1) →
  segment_holds f s (enc_segment f s recs) d M.
Proof.
  intros Hfits Hd Hc Hs Hsh Hmask Hg HM Hall. exists (segment_view f s recs), content.
  split_and!; [by apply segment_parse_view|done|done|by apply (segment_view_validates f s recs Hfits d es Hd content)
    |by apply (segment_view_of f s recs Hfits d es)|done| |done].
  intros p evs Hin. split; [|intros e; by apply (HM p evs)].
  apply list_elem_of_lookup in Hin as [i Hi]. destruct (Forall2_lookup_r _ _ _ _ _ Hc Hi) as (r & Hr & _ & _ & Hm).
  pose proof (sf_records _ Hfits) as Hrf. rewrite Forall_lookup in Hrf. destruct (Hrf i r Hr) as [_ Hne].
  apply mapM_Some_1, Forall2_length in Hm. simpl in Hm. intros ->. by destruct r.2.
Qed.

Lemma shard_for_mask `{ShardHash} f p : (shard_for f p ≤ shard_mask)%N.
Proof.
  unfold shard_for. case_decide; [done|]. unfold shard_mask. change 63%N with (N.ones 6).
  rewrite N.land_ones. pose proof (N.mod_lt (shard_hash (family_u8 f) p) (2 ^ 6) ltac:(done)) as Hlt.
  change (N.ones 6) with 63%N. change (2 ^ 6)%N with 64%N in *. lia.
Qed.
