(* ===== verification/PostingsRun.v ===== *)
(** * Writing a run

    [encode_run] of [postings.rs]: the memberships of a batch, checked for one
    id and one time per event key, sorted and with repeats dropped, are written
    as a dictionary and one segment per family and shard.  Reading the run back
    gives, prefix by prefix, the events of the memberships in canonical order. *)

From S2P Require Import Prelude Grammar Schema QueueBytes Postings PostingsRead PostingsFormat.

(** ** Runs of neighbours *)

Lemma sublist_concat {A} (g : list A) gs : g ∈ gs → g `sublist_of` concat gs.
Proof.
  induction gs as [|h gs IH]; [by intros ?%not_elem_of_nil|]. intros [->|Hg]%elem_of_cons; simpl.
  - by apply sublist_inserts_r.
  - by apply sublist_inserts_l, IH.
Qed.

Section runs.
Context {A K : Type} `{EqDecision K} (key : A → K).

Lemma runs_concat l : concat (runs key l) = l.
Proof.
  induction l as [|x l IH]; [done|]. simpl. destruct (runs key l) as [|[|y g] gs]; simpl in *.
  - by rewrite IH.
  - by rewrite IH.
  - case_decide; simpl; by rewrite IH.
Qed.

Lemma runs_group l g : g ∈ runs key l → ∃ x g', g = x :: g' ∧ ∀ y, y ∈ g → key y = key x.
Proof.
  revert g. induction l as [|x l IH]; intros g; [by intros ?%not_elem_of_nil|]. simpl.
  destruct (runs key l) as [|[|y h] gs] eqn:E.
  - intros ->%list_elem_of_singleton. exists x, []. split; [done|]. by intros y ->%list_elem_of_singleton.
  - destruct (IH []) as (? & ? & ? & _); [left|done].
  - case_decide as Hk.
    + intros [->|Hg]%elem_of_cons; [|apply IH; by right].
      destruct (IH (y :: h)) as (? & ? & [= <- <-] & Hh); [left|]. exists x, (y :: h). split; [done|].
      intros z [->|Hz]%elem_of_cons; [done|]. by rewrite Hh.
    + intros [->|Hg]%elem_of_cons; [|by apply IH]. exists x, []. split; [done|].
      by intros z ->%list_elem_of_singleton.
Qed.

Lemma elem_of_runs l x : x ∈ l ↔ ∃ g, x ∈ g ∧ g ∈ runs key l.
Proof. rewrite <-(runs_concat l) at 1. apply elem_of_concat. Qed.

Context `{!Ord K, !OrdLaws K}.

Lemma runs_sorted l :
  StronglySorted (λ x y, cmp_le (key x) (key y)) l →
  StronglySorted (λ g h, ∀ x y, x ∈ g → y ∈ h → cmp_lt (key x) (key y)) (runs key l).
Proof.
  induction 1 as [|x l Hs IH Hx]; [constructor|]. simpl.
  pose proof (runs_group l) as Hgroup. pose proof (elem_of_runs l) as Helem.
  destruct (runs key l) as [|[|y g] gs]; [repeat constructor| |].
  { destruct (Hgroup []) as (? & ? & ? & _); [left|done]. }
  apply StronglySorted_inv in IH as [IH Hg]. rewrite Forall_forall in Hg. rewrite Forall_forall in Hx.
  destruct (Hgroup (y :: g)) as (? & ? & [= <- <-] & Hkey); [left|].
  assert (cmp_le (key x) (key y)) as Hxy by (apply Hx, Helem; exists (y :: g); split; left).
  case_decide as Hk.
  - constructor; [done|]. apply Forall_forall. intros h Hh u v [->|Hu]%elem_of_cons Hv; [|by apply (Hg h)].
    rewrite Hk. apply (Hg h); [done|left|done].
  - apply cmp_le_lt_eq in Hxy as [Hxy|]; [|done]. constructor; [constructor; [done|by apply Forall_forall]|].
    apply Forall_forall. intros h Hh u v ->%list_elem_of_singleton Hv. apply elem_of_cons in Hh as [->|Hh].
    + by rewrite (Hkey v Hv).
    + etrans; [exact Hxy|]. apply (Hg h); [done|left|done].
Qed.

Lemma runs_elem l g x :
  StronglySorted (λ x y, cmp_le (key x) (key y)) l → g ∈ runs key l → x ∈ g →
  ∀ y, y ∈ g ↔ y ∈ l ∧ key y = key x.
Proof.
  intros Hs Hg Hx y. split.
  - intros Hy. split; [apply elem_of_runs; eauto|]. destruct (runs_group l g Hg) as (z & _ & _ & Hz).
    by rewrite (Hz y), (Hz x).
  - intros [(h & Hy & Hh)%elem_of_runs Hkey]. apply list_elem_of_lookup in Hg as [i Hi], Hh as [j Hj].
    pose proof (runs_sorted l Hs) as Hr. destruct (decide (i = j)) as [->|Hij]; [by simplify_eq|].
    exfalso. destruct (decide (i < j)).
    + eapply (StronglySorted_at _ _ i j) in Hr; [|done..]. pose proof (Hr x y Hx Hy) as Hlt.
      rewrite Hkey in Hlt. by apply cmp_lt_irrefl in Hlt.
    + eapply (StronglySorted_at _ _ j i) in Hr; [|lia|done..]. pose proof (Hr y x Hy Hx) as Hlt.
      rewrite Hkey in Hlt. by apply cmp_lt_irrefl in Hlt.
Qed.
End runs.

Lemma prefix_count_runs ms : ms ≠ [] → prefix_count_of ms = length (runs mb_prefix ms).
Proof.
  unfold prefix_count_of. induction ms as [|x ms IH]; intros Hne; [done|].
  destruct ms as [|y ms]; [done|]. specialize (IH ltac:(done)).
  change (count_changes (x :: y :: ms))
    with ((if decide (mb_prefix x ≠ mb_prefix y) then 1 else 0) + count_changes (y :: ms)).
  assert (∃ g gs, runs mb_prefix (y :: ms) = (y :: g) :: gs) as (g & gs & E).
  { simpl. destruct (runs mb_prefix ms) as [|[|z g] gs]; [eauto..|]. case_decide; eauto. }
  change (runs mb_prefix (x :: y :: ms)) with (match runs mb_prefix (y :: ms) with
    | (y :: g) :: gs => if decide (mb_prefix x = mb_prefix y) then (x :: y :: g) :: gs else [x] :: (y :: g) :: gs
    | gs => [x] :: gs end).
  rewrite E in *. simpl in IH. repeat case_decide; simpl; try done; lia.
Qed.

(** ** A segment of memberships *)

Definition posting_of (ordinals : gmap N N) (m : Membership) : option (N * N) :=
  (λ o, (re_created_at (mb_event m), o)) <$> ordinals !! re_event_key (mb_event m).

(** The record of one prefix's memberships. *)
Definition group_rec (ordinals : gmap N N) (g : list Membership) (r : bytes * list (N * N)) : Prop :=
  ∃ m g', g = m :: g' ∧ r.1 = mb_prefix m ∧ mapM (posting_of ordinals) g = Some r.2.

Lemma mapM_encode_posting ordinals g (encs : list bytes) :
  mapM (encode_posting ordinals) g = Some encs →
  ∃ ps : list (N * N), mapM (posting_of ordinals) g = Some ps ∧ encs = enc_posting <$> ps.
Proof.
  rewrite mapM_Some. intros Hg. induction Hg as [|m enc g encs Hm Hg (ps & Hps & ->)]; [by exists []|].
  apply bind_Some in Hm as (o & Ho & Hv). apply (inj Some) in Hv as <-.
  exists ((re_created_at (mb_event m), o) :: ps). split; [|done]. apply mapM_Some. constructor.
  - unfold posting_of. by rewrite Ho.
  - by apply mapM_Some.
Qed.

Lemma encode_group_spec ordinals start acc g acc' :
  encode_group ordinals start acc g = Some acc' →
  ∃ r, group_rec ordinals g r ∧ rec_fits r ∧ (N.of_nat (start + length acc.2) ≤ u32_max)%N ∧
    acc' = (acc.1 ++ [N.of_nat (start + length acc.2)], acc.2 ++ enc_record r).
Proof.
  destruct acc as [offsets records]. unfold encode_group, encode_prefix_record.
  intros (o & [Ho ->]%u32_try_Some & Hg)%bind_Some. destruct g as [|m g]; [done|].
  apply bind_Some in Hg as (v & Hv & Hacc). apply (inj Some) in Hacc as <-.
  apply bind_Some in Hv as (pl & [Hpl ->]%u32_try_Some & Hv).
  apply bind_Some in Hv as (pc & [Hpc ->]%u32_try_Some & Hv).
  apply bind_Some in Hv as (encs & (ps & Hps & ->)%mapM_encode_posting & Hv). apply (inj Some) in Hv as <-.
  assert (length ps = length (m :: g)) as Hlen.
  { apply mapM_Some_1, Forall2_length in Hps. done. }
  exists (mb_prefix m, ps). split_and!; [by exists m, g| |done|].
  - split; simpl; [by rewrite Hlen|]. by destruct ps.
  - simpl. unfold enc_record. simpl. by rewrite Hlen.
Qed.

Definition offsets_from (start : nat) (recs : list (bytes * list (N * N))) : list N :=
  (λ i, N.of_nat (start + length (enc_records (take i recs)))) <$> seq 0 (length recs).

Lemma offsets_from_snoc start recs r :
  offsets_from start (recs ++ [r]) =
  offsets_from start recs ++ [N.of_nat (start + length (enc_records recs))].
Proof.
  unfold offsets_from. rewrite length_app, Nat.add_1_r, seq_S, fmap_app. f_equal.
  - apply list_fmap_ext. intros i j Hi. apply lookup_seq in Hi as [-> Hi]. simpl.
    by rewrite take_app_le by lia.
  - simpl. by rewrite take_app_length.
Qed.

Lemma encode_groups_spec ordinals start gs offsets records :
  foldl (λ o group, acc ← o; encode_group ordinals start acc group) (Some ([], [])) gs
    = Some (offsets, records) →
  ∃ recs, Forall2 (group_rec ordinals) gs recs ∧ Forall rec_fits recs ∧ records = enc_records recs ∧
    offsets = offsets_from start recs ∧ Forall (λ o, o ≤ u32_max)%N offsets.
Proof.
  intros Hf. change offsets with (offsets, records).1. change records with (offsets, records).2.
  revert Hf. apply (foldl_option_inv (encode_group ordinals start) (λ gs acc, ∃ recs,
    Forall2 (group_rec ordinals) gs recs ∧ Forall rec_fits recs ∧ acc.2 = enc_records recs ∧
    acc.1 = offsets_from start recs ∧ Forall (λ o, o ≤ u32_max)%N acc.1)).
  - exists []. by split_and!; [..|constructor|].
  - intros pre g post acc acc' _ (recs & Hg & Hr & Hrec & Hoff & Hmax) Henc.
    apply encode_group_spec in Henc as (r & Hgr & Hfit & Hle & ->). exists (recs ++ [r]). simpl. split_and!.
    + apply Forall2_app; [done|by constructor].
    + apply Forall_app; split; [done|by constructor].
    + unfold enc_records. rewrite fmap_app, concat_app, Hrec. simpl. by rewrite app_nil_r.
    + by rewrite offsets_from_snoc, Hoff, Hrec.
    + apply Forall_app; split; [done|by constructor].
Qed.

Lemma encode_segment_spec f s ms ordinals v :
  ms ≠ [] → encode_segment f s ms ordinals = Some v →
  ∃ recs, Forall2 (group_rec ordinals) (runs mb_prefix ms) recs ∧ seg_fits recs ∧ v = enc_segment f s recs.
Proof.
  intros Hne. unfold encode_segment. intros (n & [Hn ->]%u32_try_Some & Hv)%bind_Some.
  apply bind_Some in Hv as ([offsets records] & Hgs & Hv). apply (inj Some) in Hv as <-.
  apply encode_groups_spec in Hgs as (recs & Hgs & Hfit & -> & -> & Hmax).
  rewrite prefix_count_runs in * by done. pose proof (Forall2_length _ _ _ Hgs) as Hlen. rewrite Hlen in *.
  assert (length (offsets_from (segment_header_len + length recs * 4) recs) = length recs) as Hlen'
    by (unfold offsets_from; by rewrite length_fmap, length_seq).
  exists recs. split; [done|]. split.
  - split; [|done..|].
    + intros ->. assert (concat (runs mb_prefix ms) = []) as Hc by (by destruct (runs mb_prefix ms)).
      by rewrite runs_concat in Hc.
    + intros i Hi. rewrite Forall_lookup in Hmax. apply (Hmax i). unfold offsets_from, offset_of.
      rewrite list_lookup_fmap, lookup_seq_lt by done. done.
  - unfold enc_segment. f_equal. f_equal. rewrite resize_all_alt by done.
    unfold enc_offsets, offsets_from. by rewrite <-list_fmap_compose.
Qed.

(** ** The order of the memberships *)

Definition mb_key (m : Membership) : Family * N * bytes * RunEvent :=
  (mb_family m, mb_shard m, mb_prefix m, mb_event m).
#[global] Instance mb_key_inj : Inj (=) (=) mb_key.
Proof. intros [] []. unfold mb_key. simpl. congruence. Qed.

Lemma membership_cmp_key x y : membership_cmp x y = cmp (mb_key x) (mb_key y).
Proof.
  unfold membership_cmp, mb_key. destruct x as [f s p e], y as [f' s' p' e'].
  unfold cmp, prod_ord. simpl. unfold cmp. simpl.
  change (canonical_order e e') with (cmp e e').
  by destruct (Family_ord f f'), (N_ord s s'), (list_ord p p').
Qed.

Lemma cmp_le_fst {A B} `{OrdLaws A, OrdLaws B} (p q : A * B) : cmp_le p q → cmp_le p.1 q.1.
Proof.
  destruct p as [a b], q as [a' b']. unfold cmp_le.
  change (cmp (a, b) (a', b')) with (then_with (cmp a a') (cmp b b')). simpl. by destruct (cmp a a').
Qed.
Lemma cmp_lt_snd {A B} `{OrdLaws A, OrdLaws B} (p q : A * B) : cmp_lt p q → p.1 = q.1 → cmp_lt p.2 q.2.
Proof.
  destruct p as [a b], q as [a' b']. unfold cmp_lt.
  change (cmp (a, b) (a', b')) with (then_with (cmp a a') (cmp b b')). simpl. intros Hlt ->.
  by rewrite cmp_refl in Hlt.
Qed.

(** The strict order of the sorted memberships. *)
Definition mb_lt (x y : Membership) : Prop := cmp_lt (mb_key x) (mb_key y).
#[global] Instance mb_lt_trans : Transitive mb_lt.
Proof. intros x y z Hxy Hyz. exact (cmp_trans _ _ _ Hxy Hyz). Qed.
Definition mb_segment (m : Membership) : Family * N := (mb_family m, mb_shard m).

Lemma mb_lt_segment x y : mb_lt x y → cmp_le (mb_segment x) (mb_segment y).
Proof.
  intros Hlt. assert (cmp_le (mb_key x) (mb_key y)) as Hle by (apply cmp_le_lt_eq; by left).
  exact (cmp_le_fst _ _ (cmp_le_fst _ _ Hle)).
Qed.
Lemma mb_lt_prefix x y : mb_lt x y → mb_segment x = mb_segment y → cmp_le (mb_prefix x) (mb_prefix y).
Proof.
  intros Hlt Heq. assert (cmp_le (mb_key x) (mb_key y)) as Hle by (apply cmp_le_lt_eq; by left).
  pose proof (cmp_le_fst _ _ Hle) as Hf. apply cmp_le_lt_eq in Hf as [Hp|Hp]; apply cmp_le_lt_eq; [left|right].
  - exact (cmp_lt_snd _ _ Hp Heq).
  - by injection Hp.
Qed.
Lemma mb_lt_event x y :
  mb_lt x y → mb_segment x = mb_segment y → mb_prefix x = mb_prefix y → cmp_lt (mb_event x) (mb_event y).
Proof.
  intros Hlt Heq Hp. apply (cmp_lt_snd _ _ Hlt). unfold mb_segment in Heq. unfold mb_key. simpl. congruence.
Qed.

Section dedup.
Context {A : Type} (same : A → A → bool) (R : relation A) `{!Transitive R}.
Context (l : list A) (Hsame : ∀ x y, x ∈ l → y ∈ l → same x y = true ↔ x = y).

Lemma dedup_by_sorted k kept :
  (∀ x, x ∈ k → x ∈ l) → kept ∈ l →
  StronglySorted (λ x y, R x y ∨ x = y) (kept :: k) →
  StronglySorted R (kept :: dedup_by same kept k) ∧ (∀ x, x ∈ kept :: dedup_by same kept k ↔ x ∈ kept :: k).
Proof.
  revert kept. induction k as [|x k IH]; intros kept Hk Hkept Hs.
  - split; [repeat constructor|done].
  - cbn [dedup_by]. apply StronglySorted_inv in Hs as [Hs Hfirst].
    assert (∀ y, y ∈ k → y ∈ l) as Hk' by (intros; apply Hk; by right).
    pose proof (Hk x ltac:(left)) as Hx. destruct (same x kept) eqn:E.
    + apply Hsame in E as ->; [|done..].
      destruct (IH kept) as [IH1 IH2]; [done..|]. split; [done|]. intros y. rewrite IH2. set_solver.
    + assert (x ≠ kept) as Hne.
      { intros ->. by rewrite (proj2 (Hsame kept kept Hkept Hkept)) in E. }
      destruct (IH x) as [IH1 IH2]; [done..|]. split.
      * constructor; [done|]. apply Forall_forall. intros y Hy%IH2. rewrite Forall_forall in Hfirst.
        assert (R kept x) as Hkx by (by destruct (Hfirst x) as [|]; [left| |]).
        apply elem_of_cons in Hy as [->|Hy]; [done|]. apply StronglySorted_inv in Hs as [_ Hs].
        rewrite Forall_forall in Hs. destruct (Hs y Hy) as [Hxy| ->]; [by etrans|done].
      * intros y. rewrite !(elem_of_cons _ y kept), IH2. done.
Qed.
End dedup.

Lemma dedup_postings_sorted {A} (same : A → A → bool) (R : relation A) `{!Transitive R} (l : list A) :
  (∀ x y, x ∈ l → y ∈ l → same x y = true ↔ x = y) → StronglySorted (λ x y, R x y ∨ x = y) l →
  StronglySorted R (dedup same l) ∧ ∀ x, x ∈ dedup same l ↔ x ∈ l.
Proof.
  intros Hsame Hs. destruct l as [|x l]; [by split; [constructor|]|]. cbn [dedup].
  apply (dedup_by_sorted same R (x :: l)); [done|by right|left|done].
Qed.

(** ** The checks of [encode_run] *)

Section run.
Context `{ShardHash}.

Record run_checked (ms : list Membership) (st : RunIds) : Prop := {
  rc_member m : m ∈ ms → st.1.1 !! re_event_key (mb_event m) = Some (re_id (mb_event m)) ∧
                         st.1.2 !! re_event_key (mb_event m) = Some (re_created_at (mb_event m)) ∧
                         mb_shard m = shard_for (mb_family m) (mb_prefix m);
  rc_key k id : st.1.1 !! k = Some id → ∃ m, m ∈ ms ∧ re_event_key (mb_event m) = k ∧ re_id (mb_event m) = id;
  rc_time k t : st.1.2 !! k = Some t → ∃ m, m ∈ ms ∧ re_event_key (mb_event m) = k;
  rc_ids id : id ∈ st.2 ↔ ∃ k, st.1.1 !! k = Some id;
  rc_inj k k' id : st.1.1 !! k = Some id → st.1.1 !! k' = Some id → k = k'
}.

Lemma check_membership_step ms st m st' :
  run_checked ms st → check_membership st m = Some st' → run_checked (ms ++ [m]) st'.
Proof.
  intros [Hm Hk Ht Hi Hinj]. destruct st as [[ids times] seen]. unfold check_membership. simpl in *.
  case_decide as Hsh; [done|]. set (k := re_event_key (mb_event m)) in *.
  intros ([ids' seen'] & Hids & (times' & Htimes & Hst)%bind_Some)%bind_Some. simplify_eq.
  assert (times' !! k = Some (re_created_at (mb_event m)) ∧ (∀ k', k' ≠ k → times' !! k' = times !! k') ∧
    (times !! k = None ∨ times !! k = Some (re_created_at (mb_event m)))) as (Htk & Hto & Htc).
  { destruct (times !! k) as [t|] eqn:Et.
    - case_decide as Hd; [done|]. subst t. simplify_eq. eauto.
    - simplify_eq. split; [apply lookup_insert_eq|]. split; [|by left]. intros k' ?. by rewrite lookup_insert_ne. }
  assert (ids' !! k = Some (re_id (mb_event m)) ∧ (∀ k', k' ≠ k → ids' !! k' = ids !! k') ∧
    ((ids !! k = None ∧ (re_id (mb_event m) ∉ seen) ∧ seen' = {[ re_id (mb_event m) ]} ∪ seen) ∨
     ids !! k = Some (re_id (mb_event m)) ∧ seen' = seen)) as (Hik & Hio & Hic).
  { destruct (ids !! k) as [id|] eqn:Ei.
    - case_decide as Hd; [done|]. subst id. simplify_eq. eauto.
    - case_decide as Hd; [done|]. simplify_eq. split_and!; [apply lookup_insert_eq| |by left].
      intros k' ?. by rewrite lookup_insert_ne. }
  clear Hids Htimes.
  assert (∀ k' id, ids !! k' = Some id → ids' !! k' = Some id) as Hup.
  { intros k' id Hk'. destruct (decide (k' = k)) as [->|]; [|by rewrite Hio].
    destruct Hic as [[? _]|[? _]]; congruence. }
  assert (∀ k' id, ids' !! k' = Some id → k' = k ∧ id = re_id (mb_event m) ∨ ids !! k' = Some id) as Hdown.
  { intros k' id Hk'. destruct (decide (k' = k)) as [->|]; [left|right; by rewrite <-Hio]. split; congruence. }
  split; simpl.
  - intros m' [Hm'| ->%list_elem_of_singleton]%elem_of_app; [|done].
    destruct (Hm m' Hm') as (Hmi & Hmt & Hms). split_and!; [by apply Hup| |done].
    destruct (decide (re_event_key (mb_event m') = k)) as [E|]; [|by rewrite Hto].
    rewrite E in *. destruct Htc; congruence.
  - intros k' id [[-> ->]|Hk']%Hdown.
    + exists m. split; [apply elem_of_app; right; left|done].
    + destruct (Hk _ _ Hk') as (m' & ? & ?). exists m'. split; [apply elem_of_app; by left|done].
  - intros k' t Hk'. destruct (decide (k' = k)) as [->|].
    + exists m. split; [apply elem_of_app; right; left|done].
    + rewrite Hto in Hk' by done. destruct (Ht _ _ Hk') as (m' & ? & ?).
      exists m'. split; [apply elem_of_app; by left|done].
  - intros id. assert ((∃ k', ids' !! k' = Some id) ↔ id = re_id (mb_event m) ∨ id ∈ seen) as ->.
    { rewrite Hi. split.
      - intros [k' [[_ ->]|?]%Hdown]; [by left|right; by exists k'].
      - intros [->|[k' Hk']]; [by exists k|exists k'; by apply Hup]. }
    destruct Hic as [(_ & _ & ->)|[Hin ->]]; [set_solver|]. split; [by right|]. intros [->|?]; [|done].
    apply Hi. by exists k.
  - assert (∀ k' , ids !! k' = Some (re_id (mb_event m)) → k' = k) as Hsame.
    { intros k' Hk'. destruct Hic as [(_ & Hns & _)|[Hin _]]; [|by eapply Hinj].
      exfalso. apply Hns, Hi. by exists k'. }
    intros k1 k2 id [[-> ->]|Hk1]%Hdown [[-> E]|Hk2]%Hdown.
    + done.
    + symmetry. by apply Hsame.
    + apply Hsame. by rewrite <-E.
    + by eapply Hinj.
Qed.

Lemma run_checks ms st :
  foldl (λ o m, st ← o; check_membership st m) (Some (∅, ∅, ∅)) ms = Some st → run_checked ms st.
Proof.
  apply (foldl_option_inv check_membership run_checked).
  - split; simpl; set_solver.
  - intros pre m post st' st'' _. apply check_membership_step.
Qed.

(** What the fields of a membership hold. *)
Definition membership_typed (m : Membership) : Prop :=
  (re_created_at (mb_event m) ≤ u64_max ∧ re_event_key (mb_event m) ≤ u64_max ∧ re_id (mb_event m) < 2 ^ 256)%N.

Section checked.
Context (ms : list Membership) (st : RunIds) (Hck : run_checked ms st).
Context (Htyped : Forall membership_typed ms).
Abbreviation entries := (ordered_map st.1.1).
Context (Hfits : (N.of_nat (length entries) ≤ u32_max)%N).

Lemma checked_event m m' :
  m ∈ ms → m' ∈ ms → re_event_key (mb_event m) = re_event_key (mb_event m') → mb_event m = mb_event m'.
Proof.
  intros Hm Hm' Hk. destruct (rc_member _ _ Hck m Hm) as (Hi & Ht & _), (rc_member _ _ Hck m' Hm') as (Hi' & Ht' & _).
  rewrite <-Hk in Hi', Ht'. destruct (mb_event m), (mb_event m'). simpl in *. congruence.
Qed.

Lemma checked_same m m' : m ∈ ms → m' ∈ ms → same_posting m m' = true ↔ m = m'.
Proof.
  intros Hm Hm'. unfold same_posting. rewrite bool_decide_eq_true. split; [|by intros ->].
  intros (Hf & Hp & Hk). pose proof (checked_event m m' Hm Hm' (eq_sym Hk)) as He.
  destruct (rc_member _ _ Hck m Hm) as (_ & _ & Hs), (rc_member _ _ Hck m' Hm') as (_ & _ & Hs').
  apply (inj mb_key). unfold mb_key. congruence.
Qed.

Lemma entries_typed : Forall entry_typed entries.
Proof.
  apply Forall_forall. intros [k id] (m & Hm & <- & <-)%elem_of_ordered_map%(rc_key _ _ Hck).
  rewrite Forall_forall in Htyped. destruct (Htyped m Hm) as (? & ? & ?). done.
Qed.

Lemma entries_sorted : StronglySorted entry_lt entries.
Proof.
  apply StronglySorted_of_at. intros i j [k id] [k' id'] Hij Hi Hj. unfold entry_lt. simpl.
  pose proof (StronglySorted_at _ _ i j _ _ (Sorted_ordered_map st.1.1) Hij Hi Hj) as Hle.
  unfold key_le in Hle. simpl in Hle. apply cmp_le_lt_eq in Hle as [Hlt|Heq]; [by apply N.compare_lt_iff|].
  exfalso. pose proof (NoDup_ordered_map_fst st.1.1) as Hnd.
  assert (i = j); [|lia]. eapply (NoDup_lookup _ i j k Hnd); rewrite list_lookup_fmap; [by rewrite Hi|].
  rewrite Hj. simpl. congruence.
Qed.

Lemma entries_ids : NoDup entries.*2.
Proof.
  apply NoDup_fmap_2_strong; [|by apply (NoDup_fmap_1 fst), NoDup_ordered_map_fst].
  intros [k id] [k' id'] Hk%elem_of_ordered_map Hk'%elem_of_ordered_map. simpl. intros ->.
  by rewrite (rc_inj _ _ Hck k k' id').
Qed.

Lemma posting_of_resolves m :
  m ∈ ms → ∃ p, posting_of (ordinals_of entries) m = Some p ∧ posting_typed p ∧
    resolve entries p = Some (mb_event m).
Proof.
  intros Hm. destruct (rc_member _ _ Hck m Hm) as (Hid & _ & _).
  pose proof (proj2 (elem_of_ordered_map _ _ _) Hid) as Hin. apply list_elem_of_lookup in Hin as [i Hi].
  assert (ordinals_of entries !! re_event_key (mb_event m) = Some (N.of_nat i)) as Ho.
  { unfold ordinals_of. apply elem_of_list_to_map_1.
    - assert ((imap (λ i e, (e.1, N.of_nat i)) entries).*1 = entries.*1) as ->; [|apply NoDup_ordered_map_fst].
      apply list_eq. intros j. rewrite !list_lookup_fmap, list_lookup_imap.
      by destruct (entries !! j).
    - apply list_elem_of_lookup. exists i. by rewrite list_lookup_imap, Hi. }
  unfold posting_of. rewrite Ho. simpl. eexists. split; [done|].
  rewrite Forall_forall in Htyped. destruct (Htyped m Hm) as (? & ? & ?). split.
  - split; simpl; [done|]. apply lookup_lt_Some in Hi. lia.
  - unfold resolve. simpl. rewrite Nat2N.id, Hi. simpl. by destruct (mb_event m).
Qed.

Lemma group_rec_content g r :
  (∀ m, m ∈ g → m ∈ ms) → group_rec (ordinals_of entries) g r →
  rec_content entries r (r.1, mb_event <$> g).
Proof.
  intros Hg (m & g' & _ & _ & Hr). apply mapM_Some_1 in Hr. split; [done|].
  assert (∀ m p, m ∈ g → posting_of (ordinals_of entries) m = Some p →
    posting_typed p ∧ resolve entries p = Some (mb_event m)) as Hp.
  { intros m' p Hm' Hp. destruct (posting_of_resolves m') as (p' & Hp' & ?); [by apply Hg|]. by simplify_eq. }
  clear Hg. generalize dependent r.2. intros ps Hr. induction Hr as [|m' p l ps Hmp Hr IH]; [done|].
  destruct (Hp m' p ltac:(left) Hmp) as [Ht He].
  destruct IH as [IH1 IH2]; [intros; apply Hp; [by right|done]|]. split; [by constructor|].
  apply mapM_Some_2. constructor; [done|by apply mapM_Some_1].
Qed.

Lemma sorted_memberships :
  StronglySorted mb_lt (dedup same_posting (merge_sort membership_le ms)) ∧
  ∀ m, m ∈ dedup same_posting (merge_sort membership_le ms) ↔ m ∈ ms.
Proof.
  assert (∀ m, m ∈ merge_sort membership_le ms ↔ m ∈ ms) as Hperm by (intros; by rewrite merge_sort_Permutation).
  setoid_rewrite <-Hperm. apply (dedup_postings_sorted _ mb_lt).
  - intros m m'. rewrite !Hperm. apply checked_same.
  - assert (StronglySorted membership_le (merge_sort membership_le ms)) as Hs.
    { apply (sort_by_sorted _ membership_cmp); [|done].
      destruct (comparator_by mb_key) as [Hopp Htrans].
      split; intros *; rewrite !membership_cmp_key; [apply Hopp|apply Htrans]. }
    eapply StronglySorted_weaken, Hs. intros x y _ _ Hy. unfold membership_le in Hy. rewrite membership_cmp_key in Hy.
    apply cmp_le_lt_eq in Hy as [?|?%(inj mb_key)]; [by left|by right].
Qed.

(** One segment: the memberships [G] of a family and shard. *)
Lemma encoded_segment_holds G f s v :
  StronglySorted mb_lt G → G ≠ [] →
  (∀ m, m ∈ G ↔ m ∈ ms ∧ mb_family m = f ∧ mb_shard m = s) →
  encode_segment f s G (ordinals_of entries) = Some v →
  segment_holds f s v (dictionary_view entries)
    (λ p e, ∃ m, m ∈ ms ∧ mb_family m = f ∧ mb_prefix m = p ∧ mb_event m = e).
Proof.
  intros Hs Hne HG Hv. apply encode_segment_spec in Hv as (recs & Hrecs & Hfit & ->); [|done].
  assert (∀ x y, x ∈ G → y ∈ G → mb_segment x = mb_segment y) as Hseg.
  { intros x y (_ & Hfx & Hsx)%HG (_ & Hfy & Hsy)%HG. unfold mb_segment. congruence. }
  assert (StronglySorted (λ x y, cmp_le (mb_prefix x) (mb_prefix y)) G) as Hsp.
  { apply StronglySorted_of_at. intros i j x y Hij Hx Hy.
    apply mb_lt_prefix; [by apply (StronglySorted_at _ _ i j x y Hs)|].
    apply Hseg; by eapply list_elem_of_lookup_2. }
  set (content := zip_with (λ r g, (r.1, mb_event <$> g)) recs (runs mb_prefix G)).
  assert (∀ i c, content !! i = Some c → ∃ r m g', recs !! i = Some r ∧ runs mb_prefix G !! i = Some (m :: g') ∧
    c = (mb_prefix m, mb_event <$> m :: g') ∧ r.1 = mb_prefix m ∧ group_rec (ordinals_of entries) (m :: g') r ∧
    m ∈ G ∧ ∀ x, x ∈ m :: g' ↔ x ∈ G ∧ mb_prefix x = mb_prefix m) as Hcl.
  { unfold content. intros i c (r & g & -> & Hr & Hg)%lookup_zip_with_Some.
    destruct (Forall2_lookup_lr _ _ _ _ _ _ Hrecs Hg Hr) as (m & g' & -> & Hp & Hps).
    assert (∀ x, x ∈ m :: g' ↔ x ∈ G ∧ mb_prefix x = mb_prefix m) as Hx.
    { intros x. apply (runs_elem mb_prefix G); [done|by eapply list_elem_of_lookup_2|left]. }
    exists r, m, g'. rewrite Hp. split_and!; [done..|by exists m, g'|by apply Hx; left|done]. }
  assert (length recs = length (runs mb_prefix G)) as Hlen by (by rewrite (Forall2_length _ _ _ Hrecs)).
  apply (written_holds f s recs (dictionary_view entries) entries content).
  - done.
  - apply dictionary_view_of, entries_typed.
  - apply Forall2_same_length_lookup. split; [unfold content; rewrite length_zip_with; lia|].
    intros i r c Hr Hc. destruct (Hcl i c Hc) as (r' & m & g' & Hr' & _ & -> & Hp & Hgr & _ & Hx).
    simplify_eq. rewrite <-Hp. apply group_rec_content; [|done]. intros x [Hin _]%Hx. by apply HG in Hin as [].
  - split.
    + apply StronglySorted_of_at. intros i j p q Hij Hi Hj. rewrite list_lookup_fmap in Hi, Hj.
      apply fmap_Some in Hi as (c & Hc & ->), Hj as (c' & Hc' & ->).
      apply Hcl in Hc as (_ & m & g & _ & Hg & -> & _), Hc' as (_ & m' & g' & _ & Hg' & -> & _). simpl.
      eapply (StronglySorted_at _ _ i j _ _ (runs_sorted mb_prefix G Hsp)); [done..|left|left].
    + apply Forall_forall. intros evs ([p evs'] & -> & Hin)%list_elem_of_fmap.
      apply list_elem_of_lookup in Hin as [i Hi]. apply Hcl in Hi as (_ & m & g & _ & Hg & [= -> ->] & _ & _ & _ & Hx).
      assert (m :: g `sublist_of` G) as Hsub.
      { rewrite <-(runs_concat mb_prefix G). by apply sublist_concat, (list_elem_of_lookup_2 _ i). }
      pose proof (StronglySorted_sublist _ _ _ Hsub Hs) as Hsg. apply StronglySorted_of_at.
      intros a b e e' Hab He He'. change ((mb_event <$> m :: g) !! a = Some e) in He.
      change ((mb_event <$> m :: g) !! b = Some e') in He'. rewrite list_lookup_fmap in He, He'.
      apply fmap_Some in He as (x & Hxa & ->), He' as (y & Hyb & ->).
      pose proof (list_elem_of_lookup_2 _ _ _ Hxa) as [HxG Hpx]%Hx.
      pose proof (list_elem_of_lookup_2 _ _ _ Hyb) as [HyG Hpy]%Hx.
      apply mb_lt_event; [by apply (StronglySorted_at _ _ a b x y Hsg)|by apply Hseg|congruence].
  - apply Forall_lookup. intros i c (_ & m & g & _ & _ & -> & _ & _ & Hm & _)%Hcl. simpl.
    apply HG in Hm as (Hm & <- & <-). destruct (rc_member _ _ Hck m Hm) as (_ & _ & ->). done.
  - destruct G as [|m G']; [done|]. destruct (proj1 (HG m) ltac:(left)) as (Hm & _ & <-).
    destruct (rc_member _ _ Hck m Hm) as (_ & _ & ->). apply shard_for_mask.
  - intros ->. destruct G as [|m G']; [done|]. destruct (proj1 (HG m) ltac:(left)) as (Hm & Hf & <-).
    destruct (rc_member _ _ Hck m Hm) as (_ & _ & ->). by rewrite Hf.
  - intros p evs e Hin. apply list_elem_of_lookup in Hin as [i Hi].
    apply Hcl in Hi as (_ & m & g & _ & _ & Heq & _ & _ & Hm & Hx).
    assert (p = mb_prefix m) as -> by congruence. assert (evs = mb_event <$> m :: g) as -> by congruence.
    clear Heq. rewrite list_elem_of_fmap.
    apply HG in Hm as (Hmm & Hfm & Hsm). split.
    + intros (x & -> & [Hin Hp]%Hx). apply HG in Hin as (? & ? & ?). by exists x.
    + intros (x & Hxm & Hfx & Hp & <-). exists x. split; [done|]. apply Hx. split; [|done]. apply HG.
      split_and!; [done..|]. destruct (rc_member _ _ Hck x Hxm) as (_ & _ & ->).
      destruct (rc_member _ _ Hck m Hmm) as (_ & _ & Hs'). congruence.
  - intros p e (x & Hxm & Hfx & <- & <-) Hsh.
    assert (x ∈ G) as HxG.
    { apply HG. split_and!; [done..|]. destruct (rc_member _ _ Hck x Hxm) as (_ & _ & ->). congruence. }
    apply (elem_of_runs mb_prefix) in HxG as (g & Hxg & Hg). apply list_elem_of_lookup in Hg as [i Hg].
    destruct (lookup_lt_is_Some_2 recs i) as [r Hr]; [rewrite Hlen; by eapply lookup_lt_Some|].
    assert (content !! i = Some (r.1, mb_event <$> g)) as Hc.
    { unfold content. rewrite lookup_zip_with, Hr. simpl. by rewrite Hg. }
    destruct (Hcl i _ Hc) as (_ & m & g' & _ & Hg' & [= E1 _] & _ & _ & _ & Hx). simplify_eq.
    apply list_elem_of_fmap. exists (r.1, mb_event <$> m :: g'). split; [|by eapply list_elem_of_lookup_2].
    simpl. rewrite E1. by apply Hx.
Qed.
End checked.

(** ** A run *)

(** What a written run holds: a dictionary of the memberships' events, and one
    segment for each family and shard that a membership names. *)
Record run_written (ms : list Membership) (run : EncodedRun) (es : list (N * N)) : Prop := {
  rw_parse : dictionary_parse (er_dictionary run) = Some (dictionary_view es);
  rw_typed : Forall entry_typed es;
  rw_sorted : StronglySorted entry_lt es;
  rw_ids : NoDup es.*2;
  rw_entries k id : (k, id) ∈ es ↔ ∃ m, m ∈ ms ∧ re_event_key (mb_event m) = k ∧ re_id (mb_event m) = id;
  rw_count : er_dictionary_entries run = N.of_nat (length es);
  rw_keys : NoDup (er_segments run).*1;
  rw_segment f s v : (f, s, v) ∈ er_segments run →
    segment_holds f s v (dictionary_view es)
      (λ p e, ∃ m, m ∈ ms ∧ mb_family m = f ∧ mb_prefix m = p ∧ mb_event m = e);
  rw_member f s : (f, s) ∈ (er_segments run).*1 ↔ ∃ m, m ∈ ms ∧ mb_family m = f ∧ mb_shard m = s;
  rw_shard m : m ∈ ms → mb_shard m = shard_for (mb_family m) (mb_prefix m)
}.

Lemma encode_run_Some ms run :
  encode_run ms = Some run →
  ∃ st, run_checked ms st ∧ (N.of_nat (length (ordered_map st.1.1)) ≤ u32_max)%N ∧
    Forall2 (λ G sv, encode_run_segment (ordinals_of (ordered_map st.1.1)) G = Some sv)
      (runs mb_segment (dedup same_posting (merge_sort membership_le ms))) (er_segments run) ∧
    encode_dictionary (ordered_map st.1.1) = Some (er_dictionary run) ∧
    er_dictionary_entries run = N.of_nat (length (ordered_map st.1.1)).
Proof.
  unfold encode_run. case_decide as Hne; [done|].
  intros ([[ids times] seen] & Hck%run_checks & Hrun)%bind_Some.
  apply bind_Some in Hrun as (n & [Hn _]%u32_try_Some & Hrun). cbn zeta in Hrun.
  apply bind_Some in Hrun as (segments & Hsegs%mapM_Some_1 & Hrun).
  apply bind_Some in Hrun as (dictionary & Hdict & Hrun). apply (inj Some) in Hrun as <-.
  exists (ids, times, seen). cbn [fst snd er_segments er_dictionary er_dictionary_entries].
  split_and!; done.
Qed.

Section written_segments.
Context (ms : list Membership) (st : RunIds) (Hck : run_checked ms st).
Context (Htyped : Forall membership_typed ms).
Abbreviation entries := (ordered_map st.1.1).
Context (Hn : (N.of_nat (length entries) ≤ u32_max)%N).
Context (sorted : list Membership) (Hs : StronglySorted mb_lt sorted) (Hel : ∀ m, m ∈ sorted ↔ m ∈ ms).
Context (segments : list (Family * N * bytes)).
Context (Hsegs : Forall2 (λ G sv, encode_run_segment (ordinals_of entries) G = Some sv)
                   (runs mb_segment sorted) segments).

Lemma sorted_segments : StronglySorted (λ x y, cmp_le (mb_segment x) (mb_segment y)) sorted.
Proof using Hs.
  apply StronglySorted_of_at. intros i j x y Hij Hx Hy. apply mb_lt_segment.
  by apply (StronglySorted_at _ _ i j x y Hs).
Qed.

Lemma segment_at i sv :
  segments !! i = Some sv →
  ∃ m G', runs mb_segment sorted !! i = Some (m :: G') ∧ sv.1 = mb_segment m ∧
    encode_segment (mb_family m) (mb_shard m) (m :: G') (ordinals_of entries) = Some sv.2 ∧
    ∀ x, x ∈ m :: G' ↔ x ∈ ms ∧ mb_segment x = mb_segment m.
Proof using Hs Hel Hsegs.
  intros Hsv. destruct (Forall2_lookup_r _ _ _ _ _ Hsegs Hsv) as (G & HG & He).
  unfold encode_run_segment in He. destruct G as [|m G']; [done|].
  apply bind_Some in He as (v & Hv & Hsv'). apply (inj Some) in Hsv' as <-.
  exists m, G'. split_and!; [done|done|done|]. intros x.
  rewrite (runs_elem mb_segment sorted _ m sorted_segments (list_elem_of_lookup_2 _ _ _ HG) ltac:(left) x), Hel.
  done.
Qed.

Lemma segments_NoDup : NoDup segments.*1.
Proof using Hs Hel Hsegs.
  apply NoDup_alt. intros i j k Hi Hj. rewrite list_lookup_fmap in Hi, Hj.
  apply fmap_Some in Hi as (sv & Hsv & ->), Hj as (sv' & Hsv' & Heq).
  destruct (segment_at i sv Hsv) as (m & G & HG & Hm & _), (segment_at j sv' Hsv') as (m' & G' & HG' & Hm' & _).
  pose proof (runs_sorted mb_segment sorted sorted_segments) as Hr.
  destruct (Nat.lt_trichotomy i j) as [Hij|[?|Hij]]; [|done|].
  - pose proof (StronglySorted_at _ _ _ _ _ _ Hr Hij HG HG' m m' ltac:(left) ltac:(left)) as Hlt.
    rewrite <-Hm, <-Hm', Heq in Hlt. by apply cmp_lt_irrefl in Hlt.
  - pose proof (StronglySorted_at _ _ _ _ _ _ Hr Hij HG' HG m' m ltac:(left) ltac:(left)) as Hlt.
    rewrite <-Hm, <-Hm', Heq in Hlt. by apply cmp_lt_irrefl in Hlt.
Qed.

Lemma segments_hold f s v :
  (f, s, v) ∈ segments →
  segment_holds f s v (dictionary_view entries)
    (λ p e, ∃ m, m ∈ ms ∧ mb_family m = f ∧ mb_prefix m = p ∧ mb_event m = e).
Proof using Hck Htyped Hn Hs Hel Hsegs.
  intros Hv. apply list_elem_of_lookup in Hv as [i Hv].
  destruct (segment_at i _ Hv) as (m & G' & HG & [= -> ->] & Hev & Hx).
  apply (encoded_segment_holds ms st Hck Htyped Hn (m :: G')); [| done| |done].
  - eapply StronglySorted_sublist; [|exact Hs]. rewrite <-(runs_concat mb_segment sorted).
    by apply sublist_concat, (list_elem_of_lookup_2 _ i).
  - intros x. rewrite Hx. unfold mb_segment. split.
    + by intros [? [= -> ->]].
    + by intros (? & -> & ->).
Qed.

Lemma segments_member f s :
  (f, s) ∈ segments.*1 ↔ ∃ m, m ∈ ms ∧ mb_family m = f ∧ mb_shard m = s.
Proof using Hs Hel Hsegs.
  split.
  - intros ([[f' s'] v] & [= -> ->] & Hv)%list_elem_of_fmap. apply list_elem_of_lookup in Hv as [i Hv].
    destruct (segment_at i _ Hv) as (m & G' & HG & [= -> ->] & _ & Hx). exists m. split; [|done].
    by apply (Hx m); left.
  - intros (x & Hx & <- & <-). apply Hel, (elem_of_runs mb_segment) in Hx as (G & HxG & HG).
    apply list_elem_of_lookup in HG as [i HG]. destruct (Forall2_lookup_l _ _ _ _ _ Hsegs HG) as (sv & Hsv & _).
    destruct (segment_at i sv Hsv) as (m & G' & HG' & Hm & _ & Hxs). simplify_eq. apply Hxs in HxG as [_ HxG].
    apply list_elem_of_fmap. exists sv. split; [|by eapply list_elem_of_lookup_2]. by rewrite Hm, <-HxG.
Qed.
End written_segments.

Lemma encode_run_written ms run :
  Forall membership_typed ms → encode_run ms = Some run → ∃ es, run_written ms run es.
Proof.
  intros Htyped (st & Hck & Hn & Hsegs & Hdict & Hcount)%encode_run_Some.
  destruct (sorted_memberships ms st Hck) as [Hs Hel].
  exists (ordered_map st.1.1). split.
  - by apply encode_dictionary_view.
  - by apply (entries_typed ms st Hck).
  - by apply (entries_sorted st).
  - by apply (entries_ids ms st).
  - intros k id. rewrite elem_of_ordered_map. split; [apply (rc_key _ _ Hck)|].
    intros (m & Hm & <- & <-). by apply (rc_member _ _ Hck m Hm).
  - done.
  - by apply (segments_NoDup ms st _ Hs Hel).
  - by apply (segments_hold ms st Hck Htyped Hn _ Hs Hel).
  - by apply (segments_member ms st _ Hs Hel).
  - intros m Hm. apply (rc_member _ _ Hck m Hm).
Qed.
End run.
