(* ===== verification/Compaction.v ===== *)
(** * Compacting segments

    [compact_segment] of [postings.rs]: the segments of one family and shard, of
    several runs, are merged into one.  Each source comes with a map from its
    dictionary's ordinals to those of the output, which drops dead events.  The
    prefixes are merged in order, and the postings of one prefix by a heap with
    one head per source list. *)

From S2P Require Import Prelude Grammar Schema QueueBytes Postings.

Record CompactionSegmentSource := mkCompactionSegmentSource {
  cs_segment : SegmentView;
  cs_ordinal_map : list (option N)
}.

Record CompactedSegment := mkCompactedSegment { cg_value : bytes; cg_postings : N }.

Record CompactionHeapEntry := mkCompactionHeapEntry {
  he_event : RunEvent;
  he_output_ordinal : N;
  he_list : nat
}.

(** [impl Ord for CompactionHeapEntry]. *)
Definition heap_entry_cmp (self other : CompactionHeapEntry) : comparison :=
  then_with (cmp (re_created_at (he_event self)) (re_created_at (he_event other)))
    (then_with (cmp (re_id (he_event other)) (re_id (he_event self)))
       (then_with (cmp (re_event_key (he_event other)) (re_event_key (he_event self)))
          (cmp (he_list other) (he_list self)))).

(** [BinaryHeap::pop]: a greatest entry, and the rest. *)
Fixpoint heap_pop {A} (c : A → A → comparison) (heap : list A) : option (A * list A) :=
  match heap with
  | [] => None
  | x :: heap =>
      match heap_pop c heap with
      | None => Some (x, [])
      | Some (greatest, rest) =>
          if decide (c x greatest = Gt) then Some (x, greatest :: rest) else Some (greatest, x :: rest)
      end
  end.

Definition minimum_step (minimum : option bytes) (x : CompactionSegmentSource * nat)
    : option (option bytes) :=
  let '(candidate, record) := x in
  if decide (sv_prefix_count (cs_segment candidate) ≤ record) then Some minimum
  else
    r ← segment_record (cs_segment candidate) record;
    Some (if match minimum with Some current => bool_decide (cmp_lt (pr_prefix r) current) | None => true end
          then Some (pr_prefix r) else minimum).

Definition minimum_compaction_prefix (sources : list CompactionSegmentSource) (records : list nat)
    : option (option bytes) :=
  foldl (λ o x, minimum ← o; minimum_step minimum x) (Some None) (zip sources records).

(** A posting whose event the output keeps; the loop returns at the first. *)
Fixpoint has_live_loop (l : PostingListView) (ordinal_map : list (option N)) (postings : list nat)
    : option bool :=
  match postings with
  | [] => Some false
  | posting :: postings =>
      source_ordinal ← posting_dictionary_ordinal l posting;
      output_ordinal ← ordinal_map !! source_ordinal;
      match output_ordinal with
      | Some _ => Some true
      | None => has_live_loop l ordinal_map postings
      end
  end.
Definition posting_list_has_live (l : PostingListView) (ordinal_map : list (option N)) : option bool :=
  has_live_loop l ordinal_map (seq 0 (pl_posting_count l)).

(** The source lists of one prefix, each with the index of its source, and the
    record positions past them: the [for] loop over the sources. *)
Definition match_step (prefix : bytes) (acc : list (nat * PostingListView) * list nat)
    (x : nat * (CompactionSegmentSource * nat)) : option (list (nat * PostingListView) * list nat) :=
  let '(matching, records) := acc in
  let '(source, (candidate, record)) := x in
  if decide (sv_prefix_count (cs_segment candidate) ≤ record) then Some (matching, records ++ [record])
  else
    r ← segment_record (cs_segment candidate) record;
    if decide (pr_prefix r = prefix)
    then Some (matching ++ [(source, pr_list r)], records ++ [S record])
    else Some (matching, records ++ [record]).

Definition match_prefix (sources : list CompactionSegmentSource) (records : list nat) (prefix : bytes)
    : option (list (nat * PostingListView) * list nat) :=
  foldl (λ o x, acc ← o; match_step prefix acc x) (Some ([], []))
    (imap (λ i x, (i, x)) (zip sources records)).

(** Whether one of the lists has a live posting; every list is asked. *)
Definition matching_live (sources : list CompactionSegmentSource)
    (matching : list (nat * PostingListView)) : option bool :=
  foldl (λ o x, live ← o;
           source ← sources !! x.1;
           l ← posting_list_has_live x.2 (cs_ordinal_map source);
           Some (live || l)) (Some false) matching.

(** Each turn moves a record position, so the records bound the loop. *)
Fixpoint count_live_loop (fuel : nat) (sources : list CompactionSegmentSource) (records : list nat)
    (count : nat) : option nat :=
  match fuel with
  | 0 => None
  | S fuel =>
      minimum ← minimum_compaction_prefix sources records;
      match minimum with
      | None => Some count
      | Some prefix =>
          '(matching, records) ← match_prefix sources records prefix;
          live ← matching_live sources matching;
          count_live_loop fuel sources records (count + if (live : bool) then 1 else 0)
      end
  end.

Definition prefix_fuel (sources : list CompactionSegmentSource) : nat :=
  S (sum_list ((λ s, sv_prefix_count (cs_segment s)) <$> sources)).

Definition count_live_compaction_prefixes (sources : list CompactionSegmentSource) : option nat :=
  count_live_loop (prefix_fuel sources) sources (replicate (length sources) 0) 0.

(** ** Merging the postings of one prefix *)

(** The next posting of a list, from position [posting] on, whose event the
    output keeps, and the position past it. *)
Fixpoint next_kept (fuel : nat) (postings : PostingListView) (ordinal_map : list (option N))
    (output_dictionary : DictionaryView) (posting : nat) : option (option (RunEvent * N) * nat) :=
  match fuel with
  | 0 => Some (None, posting)
  | S fuel =>
      if posting <? pl_posting_count postings then
        created_at ← posting_created_at postings posting;
        source_ordinal ← posting_dictionary_ordinal postings posting;
        output_ordinal ← ordinal_map !! source_ordinal;
        match output_ordinal with
        | None => next_kept fuel postings ordinal_map output_dictionary (S posting)
        | Some output_ordinal =>
            event ← dictionary_event output_dictionary (N.to_nat output_ordinal) created_at;
            Some (Some (event, output_ordinal), S posting)
        end
      else Some (None, posting)
  end.

Definition push_next_compaction_posting (heap : list CompactionHeapEntry) (list_ : nat)
    (matching : list (nat * PostingListView)) (next_postings : list nat)
    (sources : list CompactionSegmentSource) (output_dictionary : DictionaryView)
    : option (list CompactionHeapEntry * list nat) :=
  '(source, postings) ← matching !! list_;
  posting ← next_postings !! list_;
  candidate ← sources !! source;
  '(found, posting) ← next_kept (pl_posting_count postings - posting) postings
                        (cs_ordinal_map candidate) output_dictionary posting;
  let next_postings := <[list_ := posting]> next_postings in
  Some (match found with
        | Some (event, output_ordinal) => mkCompactionHeapEntry event output_ordinal list_ :: heap
        | None => heap
        end, next_postings).

(** [while let Some(entry) = heap.pop()]: the bytes and the number of the
    postings written.  Each turn takes a posting of a list. *)
Fixpoint merge_postings (fuel : nat) (matching : list (nat * PostingListView))
    (sources : list CompactionSegmentSource) (output_dictionary : DictionaryView)
    (heap : list CompactionHeapEntry) (next_postings : list nat)
    (previous_output_ordinal : option N) (previous_event : option RunEvent)
    (written : bytes) (posting_count : N) : option (bytes * N) :=
  match fuel with
  | 0 => None
  | S fuel =>
      match heap_pop heap_entry_cmp heap with
      | None => Some (written, posting_count)
      | Some (entry, heap) =>
          '(heap, next_postings) ←
            push_next_compaction_posting heap (he_list entry) matching next_postings sources
              output_dictionary;
          if decide (previous_output_ordinal = Some (he_output_ordinal entry)) then
            merge_postings fuel matching sources output_dictionary heap next_postings
              previous_output_ordinal previous_event written posting_count
          else if match previous_event with
                  | Some prior => bool_decide (canonical_order prior (he_event entry) ≠ Lt)
                  | None => false
                  end then None
          else if (posting_count + 1 <=? u32_max)%N then
            merge_postings fuel matching sources output_dictionary heap next_postings
              (Some (he_output_ordinal entry)) (Some (he_event entry))
              (written ++ be_bytes 8 (re_created_at (he_event entry)) ++
               be_bytes 4 (he_output_ordinal entry)) (posting_count + 1)
          else None
      end
  end.

Definition posting_fuel (matching : list (nat * PostingListView)) : nat :=
  S (sum_list ((λ x, pl_posting_count x.2) <$> matching)).

(** The heads of all lists, then the merge. *)
Definition compact_postings (matching : list (nat * PostingListView))
    (sources : list CompactionSegmentSource) (output_dictionary : DictionaryView)
    : option (bytes * N) :=
  '(heap, next_postings) ←
    foldl (λ o list_, '(heap, next_postings) ← o;
             push_next_compaction_posting heap list_ matching next_postings sources output_dictionary)
      (Some ([], replicate (length matching) 0)) (seq 0 (length matching));
  merge_postings (posting_fuel matching) matching sources output_dictionary heap next_postings
    None None [] 0.

(** ** The segment *)

(** What the loop over the prefixes has written: the offsets, the records past
    the offset table, and the number of postings. *)
Record CompactState := mkCompactState {
  ct_offsets : list N;
  ct_records : bytes;
  ct_postings : N
}.

Definition compact_prefix (sources : list CompactionSegmentSource) (output_dictionary : DictionaryView)
    (records_start : nat) (prefix : bytes) (matching : list (nat * PostingListView))
    (st : CompactState) : option CompactState :=
  offset ← u32_try (records_start + length (ct_records st));
  prefix_len ← u32_try (length prefix);
  '(written, posting_count) ← compact_postings matching sources output_dictionary;
  if decide (posting_count = 0%N) then None
  else
    Some (mkCompactState (ct_offsets st ++ [offset])
            (ct_records st ++ be_bytes 4 prefix_len ++ prefix ++ be_bytes 4 posting_count ++ written)
            (N.min (ct_postings st + posting_count) u64_max)).

Fixpoint compact_loop (fuel : nat) (sources : list CompactionSegmentSource)
    (output_dictionary : DictionaryView) (records_start : nat) (records : list nat)
    (st : CompactState) : option CompactState :=
  match fuel with
  | 0 => None
  | S fuel =>
      minimum ← minimum_compaction_prefix sources records;
      match minimum with
      | None => Some st
      | Some prefix =>
          '(matching, records) ← match_prefix sources records prefix;
          has_live ← matching_live sources matching;
          if (has_live : bool) then
            st ← compact_prefix sources output_dictionary records_start prefix matching st;
            compact_loop fuel sources output_dictionary records_start records st
          else compact_loop fuel sources output_dictionary records_start records st
      end
  end.

Definition check_source `{ShardHash} (family : Family) (shard : N) (source : CompactionSegmentSource)
    : option unit :=
  if decide (sv_family (cs_segment source) ≠ family ∨ sv_shard (cs_segment source) ≠ shard) then None
  else validate_prefix_directory (cs_segment source).

Definition compact_segment `{ShardHash} (family : Family) (shard : N)
    (sources : list CompactionSegmentSource) (output_dictionary : DictionaryView)
    : option (option CompactedSegment) :=
  if decide (sources = []) then Some None
  else
    _ ← mapM (check_source family shard) sources;
    prefix_count ← count_live_compaction_prefixes sources;
    if decide (prefix_count = 0) then Some None
    else
      prefix_count_u32 ← u32_try prefix_count;
      let records_start := segment_header_len + prefix_count * 4 in
      st ← compact_loop (prefix_fuel sources) sources output_dictionary records_start
             (replicate (length sources) 0) (mkCompactState [] [] 0);
      if decide (length (ct_offsets st) ≠ prefix_count) then None
      else
        Some (Some (mkCompactedSegment
          (segment_header family shard prefix_count_u32 ++ concat (be_bytes 4 <$> ct_offsets st) ++
           ct_records st) (ct_postings st))).
