(* ===== verification/HeapMerge.v ===== *)
(** * Merging sorted lists with a heap of heads

    Scans and compactions merge sorted lists of events the same way: a heap
    holds the next event of each list, the greatest entry is popped, and its
    list pushes its next event.  The events come out as the sort of all of
    them. *)

From S2P Require Import Prelude Grammar Schema QueueBytes Postings PostingsRead Compaction.

Lemma heap_pop_spec {A} (c : A → A → comparison) heap :
  Comparator c →
  match heap_pop c heap with
  | None => heap = []
  | Some (m, rest) => heap ≡ₚ m :: rest ∧ ∀ x, x ∈ rest → c x m ≠ Gt
  end.
Proof.
  intros Hc. induction heap as [|x heap IH]; [done|]. simpl.
  destruct (heap_pop c heap) as [[m rest]|].
  - destruct IH as [Hp Hm]. case_decide as Hx.
    + split; [by rewrite Hp|]. assert (c m x ≠ Gt) as Hmx by (by rewrite (comparator_opp c Hc), Hx).
      intros y [->|Hy]%elem_of_cons; [done|]. by apply (comparator_trans c Hc y m x); [apply Hm|].
    + split; [rewrite Hp; apply Permutation_swap|]. intros y [->|Hy]%elem_of_cons; [done|by apply Hm].
  - subst. split; [done|]. by intros y ?%not_elem_of_nil.
Qed.

Lemma sort_cons_min (e : RunEvent) l k :
  l ≡ₚ e :: k → (∀ x, x ∈ k → cmp_le e x) → merge_sort cmp_le l = e :: merge_sort cmp_le k.
Proof.
  intros Hp Hmin. apply (StronglySorted_unique cmp_le).
  - apply (StronglySorted_merge_sort _).
  - constructor; [apply (StronglySorted_merge_sort _)|]. apply Forall_forall. intros x Hx.
    apply Hmin. by rewrite merge_sort_Permutation in Hx.
  - by rewrite !merge_sort_Permutation.
Qed.

(** ** The order of heap entries

    A max-heap gives the canonical order's least event first, of two equal ones
    that of the first list. *)
Section entries.
Context {A : Type} (ev : A → RunEvent) (src : A → nat).

Definition entry_cmp (x y : A) : comparison := then_with (cmp (ev y) (ev x)) (cmp (src y) (src x)).

Lemma entry_cmp_alt x y :
  then_with (cmp (re_created_at (ev x)) (re_created_at (ev y)))
    (then_with (cmp (re_id (ev y)) (re_id (ev x)))
       (then_with (cmp (re_event_key (ev y)) (re_event_key (ev x))) (cmp (src y) (src x)))) = entry_cmp x y.
Proof.
  unfold entry_cmp. change (cmp (ev y) (ev x)) with (canonical_order (ev y) (ev x)). unfold canonical_order.
  by destruct (cmp (re_created_at (ev x)) (re_created_at (ev y))),
    (cmp (re_id (ev y)) (re_id (ev x))), (cmp (re_event_key (ev y)) (re_event_key (ev x))).
Qed.

Lemma entry_comparator : Comparator entry_cmp.
Proof.
  apply comparator_then.
  - exact (comparator_rev _ (comparator_by ev)).
  - exact (comparator_rev _ (comparator_by src)).
Qed.

Lemma entry_cmp_le x y : entry_cmp x y ≠ Gt → cmp_le (ev y) (ev x).
Proof. unfold entry_cmp, cmp_le. by destruct (cmp (ev y) (ev x)). Qed.
End entries.

Section merge.
Context {A : Type} (ev : A → RunEvent) (src : A → nat) (c : A → A → comparison).
Context (Hc : Comparator c) (Hev : ∀ x y, c x y ≠ Gt → cmp_le (ev y) (ev x)).

(** What the heap and the lists behind it have yet to give. *)
Definition pending (heap : list A) (rests : list (list RunEvent)) : list RunEvent :=
  (ev <$> heap) ++ concat rests.

(** A list that has more is behind a smaller head of its own. *)
Definition heads_ok (heap : list A) (rests : list (list RunEvent)) : Prop :=
  ∀ i r, rests !! i = Some r → StronglySorted cmp_lt r ∧
    (r ≠ [] → ∃ x, x ∈ heap ∧ src x = i ∧ ∀ y, y ∈ r → cmp_lt (ev x) y).

Lemma pop_pending heap rests m rest :
  heads_ok heap rests → heap_pop c heap = Some (m, rest) →
  merge_sort cmp_le (pending heap rests) = ev m :: merge_sort cmp_le (pending rest rests).
Proof.
  intros Hok Hpop. pose proof (heap_pop_spec c heap Hc) as Hs. rewrite Hpop in Hs. destruct Hs as [Hp Hm].
  assert (∀ x, x ∈ heap → cmp_le (ev m) (ev x)) as Hle.
  { intros x Hx. rewrite Hp in Hx. apply elem_of_cons in Hx as [->|Hx]; [done|]. by apply Hev, Hm. }
  unfold pending. apply sort_cons_min.
  - by rewrite Hp.
  - intros y [(x & -> & Hx)%list_elem_of_fmap|(r & Hy & Hr)%elem_of_concat]%elem_of_app.
    + apply Hle. rewrite Hp. by right.
    + apply list_elem_of_lookup in Hr as [i Hr]. destruct (Hok i r Hr) as [_ Hh].
      destruct Hh as (x & Hx & _ & Hlt); [by intros ->; apply not_elem_of_nil in Hy|].
      transitivity (ev x); [by apply Hle|]. apply cmp_le_lt_eq. left. by apply Hlt.
Qed.

(** The list of the popped entry is at its end. *)
Lemma advance_none heap rests m rest :
  heads_ok heap rests → heap_pop c heap = Some (m, rest) → rests !! src m = Some [] ∨ rests !! src m = None →
  heads_ok rest rests.
Proof.
  intros Hok Hpop Hm i r Hr. pose proof (heap_pop_spec c heap Hc) as Hs. rewrite Hpop in Hs. destruct Hs as [Hp _].
  destruct (Hok i r Hr) as [Hsort Hh]. split; [done|]. intros Hne. destruct (Hh Hne) as (x & Hx & Hi & Hlt).
  exists x. split; [|done]. rewrite Hp in Hx. apply elem_of_cons in Hx as [->|Hx]; [|done].
  rewrite Hi, Hr in Hm. destruct Hm; by simplify_eq.
Qed.

(** The list of the popped entry pushes its next event. *)
Lemma advance_some heap rests m rest x r :
  heads_ok heap rests → heap_pop c heap = Some (m, rest) → rests !! src m = Some (ev x :: r) → src x = src m →
  heads_ok (x :: rest) (<[src m := r]> rests) ∧
  pending (x :: rest) (<[src m := r]> rests) ≡ₚ pending rest rests.
Proof.
  intros Hok Hpop Hm Hx. pose proof (heap_pop_spec c heap Hc) as Hs. rewrite Hpop in Hs. destruct Hs as [Hp _].
  destruct (Hok _ _ Hm) as [Hsort _]. apply StronglySorted_inv in Hsort as [Hsort Hfirst].
  rewrite Forall_forall in Hfirst. split.
  - intros i q Hq. destruct (decide (i = src m)) as [->|Hne].
    + rewrite list_lookup_insert_eq in Hq by (by eapply lookup_lt_Some). simplify_eq. split; [done|].
      intros _. exists x. split_and!; [left|done|done].
    + rewrite list_lookup_insert_ne in Hq by done. destruct (Hok i q Hq) as [Hs Hh]. split; [done|].
      intros Hq'. destruct (Hh Hq') as (y & Hy & Hi & Hlt). exists y. split; [|done]. right.
      rewrite Hp in Hy. apply elem_of_cons in Hy as [->|Hy]; [by subst|done].
  - unfold pending. csimpl. rewrite <-(take_drop_middle rests _ _ Hm) at 2.
    rewrite (insert_take_drop rests) by (by eapply lookup_lt_Some).
    rewrite !concat_app. cbn [concat app]. solve_Permutation.
Qed.
(** The next event of the list [i], if any, joins the heap. *)
Definition pushed (i : nat) (heap : list A) (rests : list (list RunEvent))
    (heap' : list A) (rests' : list (list RunEvent)) : Prop :=
  ∃ r, rests !! i = Some r ∧
    match r with
    | [] => heap' = heap ∧ rests' = rests
    | e :: r' => ∃ x, heap' = x :: heap ∧ ev x = e ∧ src x = i ∧ rests' = <[i := r']> rests
    end.

(** One turn of a merge: the least event is popped, its list pushes. *)
Lemma pop_turn heap rests m rest heap' rests' :
  heads_ok heap rests → heap_pop c heap = Some (m, rest) → pushed (src m) rest rests heap' rests' →
  heads_ok heap' rests' ∧
  merge_sort cmp_le (pending heap rests) = ev m :: merge_sort cmp_le (pending heap' rests') ∧
  length (pending heap rests) = S (length (pending heap' rests')).
Proof using Hc Hev.
  intros Hheads Hpop (r & Hr & Hcase). pose proof (pop_pending heap rests m rest Hheads Hpop) as Hsort.
  assert (pending heap' rests' ≡ₚ pending rest rests ∧ heads_ok heap' rests') as [Hperm Hheads'].
  { destruct r as [|e r'].
    - destruct Hcase as [-> ->]. split; [done|]. eapply (advance_none heap); [done..|by left].
    - destruct Hcase as (y & -> & <- & Hy & ->).
      destruct (advance_some heap rests m rest y r') as [Ha Hb]; done. }
  split_and!; [done| |].
  - rewrite Hsort. f_equal. apply (StronglySorted_unique cmp_le).
    + apply (StronglySorted_merge_sort _).
    + apply (StronglySorted_merge_sort _).
    + by rewrite !merge_sort_Permutation.
  - rewrite Hperm, <-(merge_sort_Permutation cmp_le (pending heap _)), Hsort. simpl.
    by rewrite merge_sort_Permutation.
Qed.

(** The lists asked so far have their heads in the heap. *)
Definition heads_upto (pre : list nat) (heap : list A) (rests : list (list RunEvent)) : Prop :=
  (∀ i r, rests !! i = Some r → StronglySorted cmp_lt r) ∧
  ∀ i r, i ∈ pre → rests !! i = Some r → r ≠ [] →
    ∃ x, x ∈ heap ∧ src x = i ∧ ∀ y, y ∈ r → cmp_lt (ev x) y.

Lemma push_turn pre i heap rests heap' rests' :
  heads_upto pre heap rests → pushed i heap rests heap' rests' →
  heads_upto (pre ++ [i]) heap' rests' ∧ pending heap' rests' ≡ₚ pending heap rests.
Proof.
  intros [Hs Hh] (r & Hr & Hcase). destruct r as [|e r'].
  - destruct Hcase as [-> ->]. split; [|done]. split; [done|].
    intros j q [Hj| ->%list_elem_of_singleton]%elem_of_app Hq Hne; [by apply (Hh j q)|by simplify_eq].
  - destruct Hcase as (x & -> & <- & <- & ->). pose proof (Hs _ _ Hr) as [Hr' Hx]%StronglySorted_inv.
    assert (Hlt : src x < length rests) by (by eapply lookup_lt_Some). split; [split|].
    + intros j q [(<- & <- & _)|[_ Hq]]%list_lookup_insert_Some; [done|by eapply Hs].
    + intros j q Hj [(<- & <- & _)|[Hjx Hq]]%list_lookup_insert_Some Hne.
      * exists x. split_and!; [left|done|]. by rewrite Forall_forall in Hx.
      * destruct (Hh j q) as (y & Hy & ?); [|done..|].
        { apply elem_of_app in Hj as [|?%list_elem_of_singleton]; done. }
        exists y. split; [by right|done].
    + unfold pending. csimpl. rewrite <-(take_drop_middle rests _ _ Hr) at 2.
      rewrite (insert_take_drop rests) by done.
      rewrite !concat_app. cbn [concat app]. solve_Permutation.
Qed.

Lemma heads_all n heap rests : n = length rests → heads_upto (seq 0 n) heap rests → heads_ok heap rests.
Proof.
  intros -> [Hs Hh] i r Hr. split; [by eapply Hs|]. apply (Hh i r); [|done].
  apply elem_of_seq. apply lookup_lt_Some in Hr. lia.
Qed.
End merge.

(** ** Merged lists without repeats *)

(** Two strictly sorted lists of the same events are one list. *)
Lemma strictly_sorted_unique (l k : list RunEvent) :
  StronglySorted cmp_lt l → StronglySorted cmp_lt k → (∀ e, e ∈ l ↔ e ∈ k) → l = k.
Proof.
  apply StronglySorted_ext. intros x y Hxy Hyx. apply (cmp_lt_irrefl x). by transitivity y.
Qed.
