(* ===== verification/CompactionCorrect.v ===== *)
(** * Compaction keeps exactly the live postings

    Given sources whose segments are sorted, and maps that send an event to its
    place in the output dictionary unless it is dead, [compact_segment] writes
    the segment that posts, under each prefix and in canonical order, the live
    events of all sources. *)

From S2P Require Import Prelude Grammar Schema QueueBytes Postings PostingsRead PostingsFormat PostingsRun Compaction HeapMerge.

Section compaction.
Context (out : list (N * N)) (outd : DictionaryView).
Context (Hout : dictionary_of outd out) (Hout_sorted : StronglySorted entry_lt out).

(** The output posting of an event. *)
Definition ordinal_is (e : RunEvent) (o : N) : Prop :=
  out !! N.to_nat o = Some (re_event_key e, re_id e).

Lemma ordinal_key e e' o : ordinal_is e o → ordinal_is e' o → re_event_key e = re_event_key e'.
Proof. unfold ordinal_is. congruence. Qed.

Lemma ordinal_unique e o o' : ordinal_is e o → ordinal_is e o' → o = o'.
Proof using Hout_sorted.
  unfold ordinal_is. intros Ho Ho'. destruct (Nat.lt_trichotomy (N.to_nat o) (N.to_nat o')) as [Hlt|[?|Hlt]];
    [|lia|]; pose proof (StronglySorted_at _ _ _ _ _ _ Hout_sorted Hlt ltac:(eassumption) ltac:(eassumption)) as Hk;
    unfold entry_lt in Hk; simpl in Hk; lia.
Qed.

(** How a source's map treats the entries of its dictionary. *)
Definition maps (es : list (N * N)) (om : list (option N)) (dead : option DeadKeys) : Prop :=
  ∀ o k id, es !! o = Some (k, id) → ∃ oo, om !! o = Some oo ∧
    match oo with
    | Some o' => key_alive dead k ∧ out !! N.to_nat o' = Some (k, id) ∧ (o' ≤ u32_max)%N
    | None => ¬ key_alive dead k
    end.

(** ** One list *)

Record list_maps (l : PostingListView) (om : list (option N)) (dead : option DeadKeys)
    (evs : list RunEvent) : Prop := {
  lm_count : pl_posting_count l = length evs;
  lm_sorted : StronglySorted cmp_lt evs;
  lm_at i e : evs !! i = Some e → ∃ o oo, posting_created_at l i = Some (re_created_at e) ∧
    posting_dictionary_ordinal l i = Some o ∧ om !! o = Some oo ∧
    match oo with
    | Some o' => key_alive dead (re_event_key e) ∧ ordinal_is e o' ∧ (o' ≤ u32_max)%N
    | None => ¬ key_alive dead (re_event_key e)
    end
}.

Lemma list_maps_of l d es om dead evs :
  list_of l d evs → dictionary_of d es → maps es om dead → StronglySorted cmp_lt evs →
  list_maps l om dead evs.
Proof.
  intros [Hn Hi] Hd Hm Hs. split; [done|done|]. intros i e He. apply Hi in He. unfold posting_event in He.
  case_decide; [done|]. apply bind_Some in He as (c & Hc & (o & Ho & He)%bind_Some).
  rewrite (dictionary_event_of d es) in He by done. apply fmap_Some in He as ([k id] & Hk & ->). simpl.
  destruct (Hm o k id Hk) as (oo & Hoo & Hcase). by exists o, oo.
Qed.

Definition kept (dead : option DeadKeys) (evs : list RunEvent) : list RunEvent :=
  filter (λ e, key_alive dead (re_event_key e)) evs.

Lemma kept_sorted dead evs : StronglySorted cmp_lt evs → StronglySorted cmp_lt (kept dead evs).
Proof. intros Hs. eapply StronglySorted_sublist; [|exact Hs]. apply sublist_filter. Qed.

Lemma has_live_spec l om dead evs :
  list_maps l om dead evs → posting_list_has_live l om = Some (bool_decide (kept dead evs ≠ [])).
Proof.
  intros Hl. unfold posting_list_has_live. rewrite (lm_count _ _ _ _ Hl).
  cut (∀ n, n ≤ length evs → has_live_loop l om (seq n (length evs - n)) =
         Some (bool_decide (kept dead (drop n evs) ≠ []))).
  { intros Hcut. specialize (Hcut 0 ltac:(lia)). by rewrite Nat.sub_0_r in Hcut. }
  intros n Hn. remember (length evs - n) as k eqn:Hk. revert n Hn Hk. induction k as [|k IH]; intros n Hn Hk.
  - rewrite drop_ge by lia. done.
  - destruct (lookup_lt_is_Some_2 evs n) as [e He]; [lia|]. rewrite (drop_S _ _ _ He). unfold kept.
    destruct (lm_at _ _ _ _ Hl n e He) as (o & oo & _ & Ho & Hoo & Hcase). cbn [seq has_live_loop].
    rewrite Ho. cbn [mbind option_bind]. rewrite Hoo. cbn [mbind option_bind]. destruct oo as [o'|].
    + rewrite filter_cons_True by naive_solver. by rewrite bool_decide_true.
    + rewrite filter_cons_False by done. apply IH; lia.
Qed.

Lemma next_kept_spec l om dead evs fuel n :
  list_maps l om dead evs → n ≤ length evs → fuel = length evs - n →
  ∃ found n', next_kept fuel l om outd n = Some (found, n') ∧ n' ≤ length evs ∧
    match found with
    | Some (e, o) => kept dead (drop n evs) = e :: kept dead (drop n' evs) ∧ ordinal_is e o ∧ (o ≤ u32_max)%N
    | None => kept dead (drop n evs) = [] ∧ kept dead (drop n' evs) = []
    end.
Proof using Hout.
  intros Hl. revert n. induction fuel as [|fuel IH]; intros n Hn Hf.
  { exists None, n. rewrite drop_ge by lia. done. }
  cbn [next_kept]. rewrite (lm_count _ _ _ _ Hl). rewrite (proj2 (Nat.ltb_lt n (length evs))) by lia.
  destruct (lookup_lt_is_Some_2 evs n) as [e He]; [lia|].
  destruct (lm_at _ _ _ _ Hl n e He) as (o & oo & Hc & Ho & Hoo & Hcase).
  rewrite Hc, Ho. cbn [mbind option_bind]. rewrite Hoo. cbn [mbind option_bind].
  rewrite (drop_S _ _ _ He). unfold kept. destruct oo as [o'|].
  - destruct Hcase as (Ha & Ho' & Hmax). rewrite (dictionary_event_of outd out) by done.
    unfold ordinal_is in Ho'. rewrite Ho'. cbn [mbind option_bind fmap option_fmap option_map].
    eexists (Some (_, o')), (S n). split; [done|]. split; [lia|]. rewrite filter_cons_True by done.
    split_and!; [|done|done]. simpl. by destruct e.
  - rewrite filter_cons_False by done. destruct (IH (S n)) as (found & n' & -> & ?); [lia..|]. by exists found, n'.
Qed.

(** ** The lists of one prefix *)

Section one_prefix.
Context (matching : list (nat * PostingListView)) (sources : list CompactionSegmentSource).
Context (lists : list (option DeadKeys * list RunEvent)).

Definition matching_ok : Prop :=
  length matching = length lists ∧
  ∀ i s l dead evs, matching !! i = Some (s, l) → lists !! i = Some (dead, evs) →
    ∃ source, sources !! s = Some source ∧ list_maps l (cs_ordinal_map source) dead evs.

Context (Hok : matching_ok).

Definition rests (next : list nat) : list (list RunEvent) :=
  zip_with (λ x n, kept x.1 (drop n x.2)) lists next.

Definition next_ok (next : list nat) : Prop :=
  Forall2 (λ x n, n ≤ length x.2) lists next.

Definition entry_ok (x : CompactionHeapEntry) : Prop :=
  ordinal_is (he_event x) (he_output_ordinal x) ∧ (he_output_ordinal x ≤ u32_max)%N ∧
  he_list x < length lists.

Lemma rests_at next i r :
  rests next !! i = Some r ↔
  ∃ dead evs n, lists !! i = Some (dead, evs) ∧ next !! i = Some n ∧ r = kept dead (drop n evs).
Proof.
  unfold rests. rewrite lookup_zip_with_Some. split.
  - intros ([dead evs] & n & -> & ? & ?). by exists dead, evs, n.
  - intros (dead & evs & n & ? & ? & ->). by exists (dead, evs), n.
Qed.

Lemma rests_sorted next i r : rests next !! i = Some r → StronglySorted cmp_lt r.
Proof using Hok.
  intros (dead & evs & n & Hl & _ & ->)%rests_at. apply kept_sorted. destruct Hok as [Hlen Hm].
  destruct (lookup_lt_is_Some_2 matching i) as [[s l] Hs]; [rewrite Hlen; by eapply lookup_lt_Some|].
  destruct (Hm i s l dead evs Hs Hl) as (? & _ & Hlm). eapply StronglySorted_sublist; [|by apply Hlm].
  apply sublist_drop.
Qed.

Lemma rests_insert next i dead evs n n' :
  lists !! i = Some (dead, evs) → next !! i = Some n →
  rests (<[i := n']> next) = <[i := kept dead (drop n' evs)]> (rests next).
Proof.
  intros Hl Hn. apply list_eq. intros j. destruct (decide (j = i)) as [->|Hj].
  - rewrite list_lookup_insert_eq.
    + apply rests_at. exists dead, evs, n'. rewrite list_lookup_insert_eq by (by eapply lookup_lt_Some). done.
    + apply (lookup_lt_Some _ _ (kept dead (drop n evs))). apply rests_at. by exists dead, evs, n.
  - rewrite list_lookup_insert_ne by done. unfold rests.
    by rewrite !lookup_zip_with, list_lookup_insert_ne by done.
Qed.

Lemma push_next_spec heap next i :
  next_ok next → i < length lists →
  ∃ heap' next' r, push_next_compaction_posting heap i matching next sources outd = Some (heap', next') ∧
    next_ok next' ∧ rests next !! i = Some r ∧
    match r with
    | [] => heap' = heap ∧ rests next' = rests next
    | e :: r' => ∃ x, heap' = x :: heap ∧ he_event x = e ∧ he_list x = i ∧ entry_ok x ∧
                      rests next' = <[i := r']> (rests next)
    end.
Proof using Hok Hout.
  intros Hnext Hi. destruct Hok as [Hlen Hm].
  destruct (lookup_lt_is_Some_2 lists i Hi) as [[dead evs] Hl].
  destruct (lookup_lt_is_Some_2 matching i) as [[s l] Hs]; [lia|].
  destruct (Forall2_lookup_l _ _ _ _ _ Hnext Hl) as (n & Hn & Hle). simpl in Hle.
  destruct (Hm i s l dead evs Hs Hl) as (source & Hsource & Hlm).
  unfold push_next_compaction_posting. rewrite Hs. cbn [mbind option_bind]. rewrite Hn. cbn [mbind option_bind].
  rewrite Hsource. cbn [mbind option_bind]. rewrite (lm_count _ _ _ _ Hlm).
  destruct (next_kept_spec l _ dead evs (length evs - n) n Hlm Hle eq_refl) as (found & n' & -> & Hle' & Hf).
  cbn [mbind option_bind]. eexists _, (<[i := n']> next), (kept dead (drop n evs)). split; [done|].
  assert (rests next !! i = Some (kept dead (drop n evs))) as Hr by (apply rests_at; by exists dead, evs, n).
  split_and!; [|done|].
  - unfold next_ok. rewrite <-(list_insert_id lists i _ Hl). by apply Forall2_insert.
  - rewrite (rests_insert next i dead evs n n') by done. destruct found as [[e o]|].
    + destruct Hf as (Hk & Ho & Hmax). rewrite Hk. eexists. split_and!; [done..| |done]. by split_and!.
    + destruct Hf as [Hk Hk']. rewrite Hk. split; [done|]. rewrite Hk'. apply list_insert_id. by rewrite Hr, Hk.
Qed.

Definition posting_rel (e : RunEvent) (p : N * N) : Prop :=
  p.1 = re_created_at e ∧ ordinal_is e p.2 ∧ (p.2 ≤ u32_max)%N.

Definition same_event (x y : RunEvent) : bool := bool_decide (x = y).

(** The events to write after [previous]. *)
Definition unwritten (previous : option RunEvent) (evs : list RunEvent) : list RunEvent :=
  match previous with Some p => dedup_by same_event p evs | None => dedup same_event evs end.

Definition previous_ok (ordinal : option N) (previous : option RunEvent) (evs : list RunEvent) : Prop :=
  match ordinal, previous with
  | Some o, Some p => ordinal_is p o ∧ ∀ y, y ∈ evs → cmp_le p y ∧ (re_event_key p = re_event_key y → p = y)
  | None, None => True
  | _, _ => False
  end.

Lemma heap_entry_cmp_alt x y : heap_entry_cmp x y = entry_cmp he_event he_list x y.
Proof. apply entry_cmp_alt. Qed.

Lemma heap_entry_comparator : Comparator heap_entry_cmp.
Proof.
  destruct (entry_comparator he_event he_list) as [H1 H2].
  split; intros *; rewrite !heap_entry_cmp_alt; [apply H1|apply H2].
Qed.

Lemma heap_entry_le x y : heap_entry_cmp x y ≠ Gt → cmp_le (he_event y) (he_event x).
Proof. rewrite heap_entry_cmp_alt. apply entry_cmp_le. Qed.

Lemma pop_entries_ok heap x rest :
  Forall entry_ok heap → heap_pop heap_entry_cmp heap = Some (x, rest) → entry_ok x ∧ Forall entry_ok rest.
Proof.
  intros Hh Hp. pose proof (heap_pop_spec heap_entry_cmp heap heap_entry_comparator) as Hs. rewrite Hp in Hs.
  destruct Hs as [Hperm _]. rewrite Hperm in Hh. by inversion Hh.
Qed.

(** One turn of the merge: the least event is popped, its list pushes. *)
Lemma pop_and_push heap next x rest :
  next_ok next → heads_ok he_event he_list heap (rests next) → Forall entry_ok heap →
  heap_pop heap_entry_cmp heap = Some (x, rest) →
  ∃ heap' next', push_next_compaction_posting rest (he_list x) matching next sources outd = Some (heap', next') ∧
    next_ok next' ∧ heads_ok he_event he_list heap' (rests next') ∧ Forall entry_ok heap' ∧
    merge_sort cmp_le (pending he_event heap (rests next)) =
      he_event x :: merge_sort cmp_le (pending he_event heap' (rests next')) ∧
    length (pending he_event heap (rests next)) = S (length (pending he_event heap' (rests next'))).
Proof using Hok Hout.
  intros Hnext Hheads Hentries Hpop.
  destruct (pop_entries_ok heap x rest Hentries Hpop) as [Hx Hrest].
  destruct (push_next_spec rest next (he_list x) Hnext) as (heap' & next' & r & Hpush & Hnext' & Hr & Hcase);
    [apply Hx|].
  exists heap', next'. split; [done|]. split; [done|].
  destruct (pop_turn he_event he_list heap_entry_cmp heap_entry_comparator heap_entry_le
              heap (rests next) x rest heap' (rests next')) as (? & ? & ?); [done..| |].
  { exists r. split; [done|]. destruct r; naive_solver. }
  split_and!; try done. destruct r; naive_solver.
Qed.

Lemma merge_postings_spec fuel heap next ordinal previous written count :
  next_ok next → heads_ok he_event he_list heap (rests next) → Forall entry_ok heap →
  length (pending he_event heap (rests next)) < fuel →
  (∀ x y, x ∈ pending he_event heap (rests next) → y ∈ pending he_event heap (rests next) →
     re_event_key x = re_event_key y → x = y) →
  previous_ok ordinal previous (pending he_event heap (rests next)) →
  ∃ ps, Forall2 posting_rel
          (unwritten previous (merge_sort cmp_le (pending he_event heap (rests next)))) ps ∧
    merge_postings fuel matching sources outd heap next ordinal previous written count =
      if decide (ps = [] ∨ (count + N.of_nat (length ps) ≤ u32_max)%N)
      then Some (written ++ enc_postings ps, count + N.of_nat (length ps))%N else None.
Proof using Hok Hout Hout_sorted.
  revert heap next ordinal previous written count.
  induction fuel as [|fuel IH]; intros heap next ordinal previous written count Hnext Hheads Hentries Hfuel Hkeys Hprev;
    [lia|]. cbn [merge_postings].
  destruct (heap_pop heap_entry_cmp heap) as [[x rest]|] eqn:Hpop.
  - destruct (pop_and_push heap next x rest) as (heap' & next' & -> & Hnext' & Hheads' & Hentries' & Hsort & Hlen);
      [done..|]. cbn [mbind option_bind].
    destruct (pop_entries_ok heap x rest Hentries Hpop) as [(Hox & Hmaxx & _) _].
    set (P := pending he_event heap (rests next)) in *. set (P' := pending he_event heap' (rests next')) in *.
    assert (∀ y, y ∈ P ↔ y = he_event x ∨ y ∈ P') as Hin.
    { intros y. rewrite <-(merge_sort_Permutation cmp_le P), Hsort, elem_of_cons, merge_sort_Permutation. done. }
    assert (∀ y, y ∈ P' → cmp_le (he_event x) y) as Hmin.
    { intros y Hy. pose proof (StronglySorted_merge_sort cmp_le P) as Hs. rewrite Hsort in Hs.
      apply StronglySorted_inv in Hs as [_ Hs]. rewrite Forall_forall in Hs. apply Hs. by rewrite merge_sort_Permutation. }
    assert (∀ a b, a ∈ P' → b ∈ P' → re_event_key a = re_event_key b → a = b) as Hkeys'
      by (intros a b Ha Hb; apply Hkeys; apply Hin; by right).
    rewrite Hsort. case_decide as Hskip.
    + subst ordinal. destruct previous as [p|]; [|done]. destruct Hprev as [Hop Hp].
      assert (p = he_event x) as Hpx by (apply Hp; [apply Hin; by left|by eapply ordinal_key]).
      destruct (IH heap' next' (Some (he_output_ordinal x)) (Some p) written count) as (ps & Hps & Heq); [done..|fold P'; lia|done| |].
      { split; [done|]. intros y Hy. apply Hp, Hin. by right. }
      exists ps. split; [|exact Heq]. cbn [unwritten dedup_by]. unfold same_event at 1. by rewrite bool_decide_true.
    + assert (unwritten previous (he_event x :: merge_sort cmp_le P') =
        he_event x :: unwritten (Some (he_event x)) (merge_sort cmp_le P') ∧
        match previous with Some prior => bool_decide (canonical_order prior (he_event x) ≠ Lt) | None => false end
          = false) as [-> ->].
      { destruct previous as [p|]; [|done]. destruct ordinal as [o|]; [|done]. destruct Hprev as [Hop Hp].
        assert (he_event x ≠ p) as Hne.
        { intros <-. apply Hskip. f_equal. by eapply ordinal_unique. }
        destruct (Hp (he_event x)) as [Hle _]; [apply Hin; by left|].
        apply cmp_le_lt_eq in Hle as [Hlt|]; [|by subst]. split.
        - cbn [unwritten dedup_by]. unfold same_event at 1. by rewrite bool_decide_false.
        - apply bool_decide_eq_false. intros Hn. by apply Hn. }
      destruct (IH heap' next' (Some (he_output_ordinal x)) (Some (he_event x))
        (written ++ be_bytes 8 (re_created_at (he_event x)) ++ be_bytes 4 (he_output_ordinal x)) (count + 1)%N)
        as (ps & Hps & Heq); [done..|fold P'; lia|done| |].
      { split; [done|]. intros y Hy. split; [by apply Hmin|]. intros Hk. apply Hkeys; [apply Hin; by left|apply Hin; by right|done]. }
      exists ((re_created_at (he_event x), he_output_ordinal x) :: ps). split; [by constructor|].
      cbn [length]. rewrite Nat2N.inj_succ. destruct (N.leb_spec (count + 1) u32_max) as [Hc1|Hc1].
      * rewrite Heq. destruct (decide (ps = [] ∨ _)) as [Hc2|Hc2].
        -- rewrite decide_True by (right; destruct Hc2 as [->|]; simpl; lia).
           f_equal. f_equal; [|lia]. unfold enc_postings. csimpl. unfold enc_posting at 2. simpl.
           by rewrite <-!(assoc_L (++)).
        -- rewrite decide_False; [done|]. intros [?|?]; [done|]. apply Hc2. right. lia.
      * rewrite decide_False; [done|]. intros [?|?]; [done|lia].
  - pose proof (heap_pop_spec heap_entry_cmp heap heap_entry_comparator) as Hs. rewrite Hpop in Hs. subst heap.
    assert (pending he_event [] (rests next) = []) as Hnil.
    { unfold pending. simpl. apply elem_of_nil_inv. intros y (r & Hy & Hr)%elem_of_concat.
      apply list_elem_of_lookup in Hr as [i Hr]. destruct (Hheads i r Hr) as [_ Hh].
      destruct Hh as (x & Hx & _); [by intros ->; apply not_elem_of_nil in Hy|by apply not_elem_of_nil in Hx]. }
    rewrite Hnil. exists []. split; [by destruct previous; constructor|]. rewrite decide_True by (by left).
    simpl. by rewrite N.add_0_r, app_nil_r.
Qed.

(** All live events of the lists. *)
Definition all_kept : list RunEvent := concat ((λ x, kept x.1 x.2) <$> lists).

Lemma rests_start : rests (replicate (length lists) 0) = (λ x, kept x.1 x.2) <$> lists.
Proof.
  unfold rests. induction lists as [|x l IH]; [done|]. csimpl. by rewrite drop_0, IH.
Qed.

Lemma next_ok_start : next_ok (replicate (length lists) 0).
Proof. unfold next_ok. induction lists as [|x l IH]; simpl; constructor; [lia|done]. Qed.

Lemma posting_fuel_enough : length all_kept < posting_fuel matching.
Proof using Hok.
  unfold posting_fuel, all_kept. destruct Hok as [Hlen Hm].
  assert ((λ x, pl_posting_count x.2) <$> matching = (λ x, length x.2) <$> lists) as ->.
  { apply list_eq_same_length with (length lists); [by rewrite length_fmap|by rewrite length_fmap|].
    intros i a b _ Ha Hb. rewrite list_lookup_fmap in Ha. rewrite list_lookup_fmap in Hb.
    apply fmap_Some in Ha as ([s l] & Hs & ->), Hb as ([dead evs] & Hl & ->). simpl.
    destruct (Hm i s l dead evs Hs Hl) as (? & _ & Hlm). apply Hlm. }
  clear. induction lists as [|[dead evs] l IH]; csimpl; [lia|]. rewrite length_app.
  pose proof (length_filter (λ e, key_alive dead (re_event_key e)) evs). unfold kept at 1. lia.
Qed.

Lemma push_heads :
  ∃ heap next,
    foldl (λ o list_, '(heap, next_postings) ← o;
             push_next_compaction_posting heap list_ matching next_postings sources outd)
      (Some ([], replicate (length matching) 0)) (seq 0 (length matching)) = Some (heap, next) ∧
    next_ok next ∧ heads_ok he_event he_list heap (rests next) ∧ Forall entry_ok heap ∧
    pending he_event heap (rests next) ≡ₚ all_kept.
Proof using Hok Hout Hout_sorted.
  destruct (foldl_option_ind (λ (st : list CompactionHeapEntry * list nat) i,
      let '(heap, next) := st in push_next_compaction_posting heap i matching next sources outd)
    (λ pre st, next_ok st.2 ∧ Forall entry_ok st.1 ∧ pending he_event st.1 (rests st.2) ≡ₚ all_kept ∧
       heads_upto he_event he_list pre st.1 (rests st.2))
    (seq 0 (length matching)) ([], replicate (length matching) 0)) as ([heap next] & Hf & Hn & He & Hp & Hh).
  - destruct Hok as [Hlen _]. rewrite Hlen. simpl. split_and!; [apply next_ok_start|constructor| |].
    + by rewrite rests_start.
    + split; [by apply rests_sorted|]. by intros ? ? ?%not_elem_of_nil.
  - intros pre i post [heap next] Hseq (Hn & He & Hp & Hh). simpl in *.
    assert (i < length lists) as Hi.
    { destruct Hok as [<- _]. assert (i ∈ seq 0 (length matching)) as [_ Hlt]%elem_of_seq; [|lia].
      rewrite Hseq. set_solver. }
    destruct (push_next_spec heap next i Hn Hi) as (heap' & next' & r & -> & Hn' & Hr & Hcase).
    exists (heap', next'). split; [done|]. simpl. split; [done|].
    destruct (push_turn he_event he_list pre i heap (rests next) heap' (rests next')) as [Hh' Hp']; [done| |].
    { exists r. split; [done|]. destruct r; naive_solver. }
    rewrite Hp'. split_and!; try done. destruct r; naive_solver.
  - exists heap, next. split_and!; [exact Hf|done| |done|done]. eapply heads_all, Hh.
    unfold rests. rewrite length_zip_with. destruct Hok as [-> _]. apply Forall2_length in Hn. simpl in Hn. lia.
Qed.

Lemma compact_postings_spec :
  (∀ x y, x ∈ all_kept → y ∈ all_kept → re_event_key x = re_event_key y → x = y) →
  ∃ ps, Forall2 posting_rel (dedup same_event (merge_sort cmp_le all_kept)) ps ∧
    compact_postings matching sources outd =
      if decide (ps = [] ∨ (N.of_nat (length ps) ≤ u32_max)%N)
      then Some (enc_postings ps, N.of_nat (length ps)) else None.
Proof using Hok Hout Hout_sorted.
  intros Hkeys. destruct push_heads as (heap & next & Hf & Hn & Hh & He & Hp).
  destruct (merge_postings_spec (posting_fuel matching) heap next None None [] 0) as (ps & Hps & Heq);
    [done..|rewrite Hp; apply posting_fuel_enough| |done|].
  { intros x y. rewrite Hp. apply Hkeys. }
  exists ps. split.
  - assert (merge_sort cmp_le all_kept = merge_sort cmp_le (pending he_event heap (rests next))) as ->; [|done].
    apply (StronglySorted_unique cmp_le); [apply (StronglySorted_merge_sort _)..|].
    by rewrite !merge_sort_Permutation, Hp.
  - unfold compact_postings. rewrite Hf. cbn [mbind option_bind]. rewrite Heq. by rewrite !N.add_0_l.
Qed.
End one_prefix.
End compaction.
