(* ===== verification/CompactionSegment.v ===== *)
(** * The compacted segment

    The loop of [compact_segment] over the prefixes of its sources: they are
    taken in increasing order, each once, from every source that has it.  The
    segment written holds, for each prefix with a live event, the live events of
    all sources in canonical order, and the two passes agree on the number of
    prefixes. *)

From S2P Require Import Prelude Grammar Schema QueueBytes Postings PostingsRead PostingsFormat PostingsRun Compaction HeapMerge CompactionCorrect.

Section prefixes.
Context (out : list (N * N)) (outd : DictionaryView).
Context (Hout : dictionary_of outd out) (Hout_sorted : StronglySorted entry_lt out).
Context (sources : list CompactionSegmentSource).
Context (inputs : list (option DeadKeys * list (bytes * list RunEvent))).

(** The sources hold these contents, of which these keys are dead. *)
Definition sources_ok : Prop :=
  length sources = length inputs ∧
  ∀ i source dead content, sources !! i = Some source → inputs !! i = Some (dead, content) →
    ∃ d es, dictionary_of d es ∧ segment_of (cs_segment source) d content ∧ sorted_content content ∧
      maps out es (cs_ordinal_map source) dead.

Context (Hok : sources_ok).

(** The prefix a source is at. *)
Definition head_prefix (records : list nat) (i : nat) : option bytes :=
  x ← inputs !! i;
  r ← records !! i;
  fst <$> (x.2 !! r).

Definition records_ok (records : list nat) : Prop := Forall2 (λ x r, r ≤ length x.2) inputs records.

Lemma source_at i source dead content :
  sources !! i = Some source → inputs !! i = Some (dead, content) →
  sv_prefix_count (cs_segment source) = length content ∧ sorted_content content ∧
  ∀ r p evs, content !! r = Some (p, evs) → ∃ rec, segment_record (cs_segment source) r = Some rec ∧
    pr_prefix rec = p ∧ list_maps out (pr_list rec) (cs_ordinal_map source) dead evs.
Proof using Hok.
  intros Hs Hi. destruct Hok as [_ Hsrc]. destruct (Hsrc i source dead content Hs Hi) as (d & es & Hd & [Hn Hc] & Hsort & Hm).
  split_and!; [done..|]. intros r p evs Hr. destruct (Hc r p evs Hr) as (rec & Hrec & Hp & Hl).
  exists rec. split_and!; [done..|]. apply (list_maps_of out _ d es); [done..|].
  destruct Hsort as [_ Hse]. rewrite Forall_forall in Hse. apply Hse. apply list_elem_of_fmap.
  exists (p, evs). split; [done|]. by eapply list_elem_of_lookup_2.
Qed.

(** What position [i] of the walk over the sources sees. *)
Lemma walk_at records i source r :
  records_ok records → zip sources records !! i = Some (source, r) →
  ∃ dead content, sources !! i = Some source ∧ inputs !! i = Some (dead, content) ∧
    records !! i = Some r ∧ r ≤ length content ∧ head_prefix records i = fst <$> content !! r.
Proof using Hok.
  intros Hr (? & ? & [= <- <-] & Hs & Hrec)%lookup_zip_with_Some.
  destruct (Forall2_lookup_r _ _ _ _ _ Hr Hrec) as ([dead content] & Hi & Hle). exists dead, content.
  split_and!; [done..|]. unfold head_prefix. by rewrite Hi, Hrec.
Qed.

Lemma minimum_spec records :
  records_ok records →
  ∃ m, minimum_compaction_prefix sources records = Some m ∧
    match m with
    | None => ∀ i, head_prefix records i = None
    | Some p => (∃ i, head_prefix records i = Some p) ∧ ∀ i q, head_prefix records i = Some q → cmp_le p q
    end.
Proof using Hok.
  intros Hr. destruct (foldl_option_ind minimum_step
    (λ pre m, match m with
      | None => ∀ i, i < length pre → head_prefix records i = None
      | Some p => (∃ i, head_prefix records i = Some p) ∧
                  ∀ i q, i < length pre → head_prefix records i = Some q → cmp_le p q
      end) (zip sources records) None) as (m & Hm & Hspec).
  - intros i ?. simpl in *. lia.
  - intros pre [source r] post m Hz HP.
    destruct (walk_at records (length pre) source r Hr) as (dead & content & Hs & Hi & Hrec & Hle & Hhead);
      [rewrite Hz; by apply list_lookup_middle|].
    destruct (source_at _ _ _ _ Hs Hi) as (Hn & _ & Hat). unfold minimum_step. rewrite Hn.
    assert (∀ i, i < length (pre ++ [(source, r)]) → i < length pre ∨ i = length pre) as Hlast
      by (intros i; rewrite length_app; simpl; lia).
    case_decide as Hend.
    + exists m. split; [done|]. rewrite lookup_ge_None_2 in Hhead by lia.
      destruct m as [p|].
      * split; [apply HP|]. intros i q [?| ->]%Hlast Hq; [by apply (proj2 HP i)|]. by rewrite Hhead in Hq.
      * intros i [?| ->]%Hlast; [by apply HP|done].
    + destruct (lookup_lt_is_Some_2 content r) as [[p evs] Hp]; [lia|]. rewrite Hp in Hhead. simpl in Hhead.
      destruct (Hat r p evs Hp) as (rec & -> & <- & _). cbn [mbind option_bind]. eexists. split; [done|].
      destruct m as [cur|].
      * case_bool_decide as Hlt.
        -- split; [by exists (length pre)|]. intros i q [?| ->]%Hlast Hq; [|rewrite Hhead in Hq; by simplify_eq].
           transitivity cur; [apply cmp_le_lt_eq; by left|by apply (proj2 HP i)].
        -- split; [apply HP|]. intros i q [?| ->]%Hlast Hq; [by apply (proj2 HP i)|].
           rewrite Hhead in Hq. simplify_eq. apply dec_stable. intros Hn'. by apply cmp_not_le in Hn'.
      * split; [by exists (length pre)|]. intros i q [Hi'| ->]%Hlast Hq; [by rewrite (HP i Hi') in Hq|].
        rewrite Hhead in Hq. by simplify_eq.
  - exists m. split; [exact Hm|]. assert (length (zip sources records) = length inputs) as Hlen.
    { rewrite length_zip_with. destruct Hok as [-> _]. pose proof (Forall2_length _ _ _ Hr). lia. }
    assert (∀ i q, head_prefix records i = Some q → i < length (zip sources records)) as Hbound.
    { intros i q (x & Hx & _)%bind_Some. rewrite Hlen. by eapply lookup_lt_Some. }
    destruct m as [p|].
    + split; [apply Hspec|]. intros i q Hq. by apply (proj2 Hspec i q); [eapply Hbound|].
    + intros i. destruct (head_prefix records i) as [q|] eqn:E; [|done]. rewrite <-E. by eapply Hspec, Hbound.
Qed.

(** The record positions past the prefix [p]. *)
Definition advance (records : list nat) (p : bytes) : list nat :=
  imap (λ i r, if decide (head_prefix records i = Some p) then S r else r) records.

(** The events a source posts under [p] at its position. *)
Definition at_prefix (records : list nat) (p : bytes) (i : nat) (dead : option DeadKeys)
    (evs : list RunEvent) : Prop :=
  ∃ content r, inputs !! i = Some (dead, content) ∧ records !! i = Some r ∧ content !! r = Some (p, evs).

Lemma matching_ok_snoc matching lists s l dead evs source :
  matching_ok out matching sources lists → sources !! s = Some source →
  list_maps out l (cs_ordinal_map source) dead evs →
  matching_ok out (matching ++ [(s, l)]) sources (lists ++ [(dead, evs)]).
Proof.
  intros [Hlen Hm] Hs Hl. split; [rewrite !length_app; simpl; lia|]. intros i s' l' dead' evs' Hi Hi'.
  apply lookup_app_Some in Hi as [Hi|[Hge Hi]].
  - rewrite lookup_app_l in Hi' by (apply lookup_lt_Some in Hi; lia). by apply (Hm i).
  - rewrite lookup_app_r in Hi' by lia. rewrite Hlen in Hi. apply list_lookup_singleton_Some in Hi as [Hz [= <- <-]].
    rewrite Hz in Hi'. simpl in Hi'. simplify_eq. by exists source.
Qed.

Lemma match_prefix_spec records p :
  records_ok records →
  ∃ matching lists, match_prefix sources records p = Some (matching, advance records p) ∧
    matching_ok out matching sources lists ∧
    ∀ dead evs, (dead, evs) ∈ lists ↔ ∃ i, at_prefix records p i dead evs.
Proof using Hok.
  intros Hr. assert (length (zip sources records) = length inputs) as Hlen.
  { rewrite length_zip_with. destruct Hok as [-> _]. pose proof (Forall2_length _ _ _ Hr). lia. }
  destruct (foldl_option_ind (match_step p)
    (λ pre st, ∃ lists, matching_ok out st.1 sources lists ∧ st.2 = take (length pre) (advance records p) ∧
       ∀ dead evs, (dead, evs) ∈ lists ↔ ∃ i, i < length pre ∧ at_prefix records p i dead evs)
    (imap (λ i x, (i, x)) (zip sources records)) ([], [])) as ([matching records'] & Hf & lists & Hm & Hrec & Hl).
  - exists []. split_and!; [by split|done|]. intros dead evs. split; [by intros ?%not_elem_of_nil|].
    intros (i & Hi & _). simpl in Hi. lia.
  - intros pre [i [source r]] post [matching records'] Hz (lists & Hm & Hrec' & Hl). cbn [fst snd] in Hm, Hrec'. subst records'.
    assert (i = length pre ∧ zip sources records !! length pre = Some (source, r)) as [-> Hz'].
    { assert (imap (λ i x, (i, x)) (zip sources records) !! length pre = Some (i, (source, r))) as Hi
        by (rewrite Hz; by apply list_lookup_middle).
      rewrite list_lookup_imap in Hi. apply fmap_Some in Hi as ([??] & ? & [= -> -> ->]). done. }
    destruct (walk_at records (length pre) source r Hr Hz') as (dead & content & Hs & Hi & Hrec & Hle & Hhead).
    destruct (source_at _ _ _ _ Hs Hi) as (Hn & _ & Hat).
    assert (advance records p !! length pre =
      Some (if decide (head_prefix records (length pre) = Some p) then S r else r)) as Hadv
      by (unfold advance; by rewrite list_lookup_imap, Hrec).
    assert (∀ n, length (pre ++ [(n, (source, r))]) = S (length pre)) as Hpre
      by (intros; rewrite length_app; apply Nat.add_1_r).
    unfold match_step. rewrite Hn. destruct (decide (length content ≤ r)) as [Hend|Hend].
    + rewrite (lookup_ge_None_2 content r) in Hhead by lia. rewrite Hhead, decide_False in Hadv by done.
      eexists. split; [done|]. exists lists. cbn [fst snd]. split_and!; [done| |].
      * by rewrite Hpre, (take_S_r _ _ _ Hadv).
      * intros dead' evs'. rewrite Hl, Hpre. split; intros (j & Hj & Hjat); exists j; (split; [|done]); [lia|].
        destruct (decide (j = length pre)) as [->|]; [|lia].
        destruct Hjat as (content' & r' & ? & ? & Hx). simplify_eq. apply lookup_lt_Some in Hx. lia.
    + destruct (lookup_lt_is_Some_2 content r) as [[q evs] Hq]; [lia|]. rewrite Hq in Hhead. simpl in Hhead.
      destruct (Hat r q evs Hq) as (rec & -> & Hqp & Hlm). cbn [mbind option_bind]. rewrite Hqp.
      rewrite Hhead in Hadv. destruct (decide (q = p)) as [->|Hqne].
      * rewrite decide_True in Hadv by done. eexists. split; [done|]. exists (lists ++ [(dead, evs)]).
        cbn [fst snd]. split_and!.
        -- by eapply matching_ok_snoc.
        -- by rewrite Hpre, (take_S_r _ _ _ Hadv).
        -- intros dead' evs'. rewrite elem_of_app, Hl, Hpre, list_elem_of_singleton. split.
           ++ intros [(j & Hj & Hjat)|[= -> ->]]; [exists j; split; [lia|done]|].
              exists (length pre). split; [lia|]. by exists content, r.
           ++ intros (j & Hj & Hjat). destruct (decide (j = length pre)) as [->|].
              ** right. destruct Hjat as (content' & r' & ? & ? & Hx). by simplify_eq.
              ** left. exists j. split; [lia|done].
      * rewrite decide_False in Hadv by naive_solver. eexists. split; [done|]. exists lists. cbn [fst snd]. split_and!; [done| |].
        -- by rewrite Hpre, (take_S_r _ _ _ Hadv).
        -- intros dead' evs'. rewrite Hl, Hpre. split; intros (j & Hj & Hjat); exists j; (split; [|done]); [lia|].
           destruct (decide (j = length pre)) as [->|]; [|lia].
           destruct Hjat as (content' & r' & ? & ? & Hx). by simplify_eq.
  - exists matching, lists. rewrite length_imap, Hlen in Hrec.
    assert (length (advance records p) = length inputs) as Ha
      by (unfold advance; rewrite length_imap; symmetry; by eapply Forall2_length).
    rewrite take_ge in Hrec by lia. simpl in Hrec. subst records'. split_and!; [exact Hf|done|].
    intros dead evs. rewrite Hl, length_imap, Hlen. split; [naive_solver|].
    intros (i & Hi). exists i. split; [|done]. destruct Hi as (? & ? & Hi & _). by eapply lookup_lt_Some.
Qed.

Lemma matching_live_spec matching lists :
  matching_ok out matching sources lists →
  matching_live sources matching = Some (bool_decide (all_kept lists ≠ [])).
Proof.
  intros [Hlen Hm].
  destruct (foldl_option_ind (λ (live : bool) (x : nat * PostingListView), source ← sources !! x.1;
      l ← posting_list_has_live x.2 (cs_ordinal_map source); Some (live || l))
    (λ pre live, live = bool_decide (all_kept (take (length pre) lists) ≠ [])) matching false) as (live & Hf & ->).
  - done.
  - intros pre [s l] post live Hsplit ->.
    assert (matching !! length pre = Some (s, l)) as Hi by (rewrite Hsplit; by apply list_lookup_middle).
    destruct (lookup_lt_is_Some_2 lists (length pre)) as [[dead evs] Hl];
      [rewrite <-Hlen; by eapply lookup_lt_Some|].
    destruct (Hm _ _ _ _ _ Hi Hl) as (source & Hsource & Hlm). cbn [fst snd].
    rewrite Hsource. cbn [mbind option_bind]. rewrite (has_live_spec out _ _ _ _ Hlm). cbn [mbind option_bind]. eexists. split; [done|].
    rewrite length_app, Nat.add_1_r, (take_S_r _ _ _ Hl). unfold all_kept. rewrite fmap_app, concat_app. simpl.
    rewrite app_nil_r. destruct (concat _) as [|a b]; [|done]. by destruct (kept dead evs).
  - unfold matching_live. rewrite Hf, take_ge by lia. done.
Qed.

(** ** The walk over the prefixes *)

(** A live event of some source. *)
Definition live_post (p : bytes) (e : RunEvent) : Prop :=
  ∃ i dead content evs, inputs !! i = Some (dead, content) ∧ (p, evs) ∈ content ∧ e ∈ evs ∧
    key_alive dead (re_event_key e).

(** A prefix that some source has yet to give. *)
Definition waiting (records : list nat) (p : bytes) : Prop :=
  ∃ i dead content r, inputs !! i = Some (dead, content) ∧ records !! i = Some r ∧ p ∈ (drop r content).*1.

(** Every prefix given is less than every prefix waiting. *)
Definition bound_ok (records : list nat) : Prop :=
  records_ok records ∧
  ∀ i dead content r q p, inputs !! i = Some (dead, content) → records !! i = Some r →
    q ∈ (take r content).*1 → waiting records p → cmp_lt q p.

Definition left (records : list nat) : nat :=
  sum_list (zip_with (λ x r, length x.2 - r) inputs records).

Lemma content_sorted i dead content : inputs !! i = Some (dead, content) → sorted_content content.
Proof using Hok.
  intros Hi. destruct (lookup_lt_is_Some_2 sources i) as [source Hs];
    [destruct Hok as [-> _]; by eapply lookup_lt_Some|]. by destruct (source_at i source dead content Hs Hi) as (_ & ? & _).
Qed.

Lemma head_waiting records i p : head_prefix records i = Some p → waiting records p.
Proof.
  unfold head_prefix. intros ([dead content] & Hi & (r & Hr & Hp)%bind_Some)%bind_Some.
  apply fmap_Some in Hp as ([p' evs] & Hp & ->). exists i, dead, content, r. split_and!; [done..|].
  apply list_elem_of_fmap. exists (p', evs). split; [done|]. apply list_elem_of_lookup. exists 0.
  by rewrite lookup_drop, Nat.add_0_r.
Qed.

(** A waiting prefix of a source is its head, or greater. *)
Lemma waiting_head records i dead content r p :
  inputs !! i = Some (dead, content) → records !! i = Some r → p ∈ (drop r content).*1 →
  ∃ q, head_prefix records i = Some q ∧ (q = p ∨ cmp_lt q p).
Proof using Hok.
  intros Hi Hr Hp. apply list_elem_of_fmap in Hp as ([p' evs] & -> & Hp). apply list_elem_of_lookup in Hp as [j Hj].
  rewrite lookup_drop in Hj. destruct (lookup_lt_is_Some_2 content r) as [[q evs'] Hq];
    [apply lookup_lt_Some in Hj; lia|].
  exists q. split; [unfold head_prefix; by rewrite Hi; cbn [mbind option_bind]; rewrite Hr; simpl; rewrite Hq|].
  destruct j as [|j].
  - rewrite Nat.add_0_r in Hj. left. by simplify_eq.
  - right. destruct (content_sorted i dead content Hi) as [Hs _].
    apply (StronglySorted_at _ _ r (r + S j) _ _ Hs); [lia|by rewrite list_lookup_fmap, Hq|by rewrite list_lookup_fmap, Hj].
Qed.

Section step.
Context (records : list nat) (Hbound : bound_ok records) (p : bytes).
Context (Hp : ∃ i, head_prefix records i = Some p) (Hmin : ∀ i q, head_prefix records i = Some q → cmp_le p q).

Lemma waiting_min q : waiting records q → cmp_le p q.
Proof using Hok Hmin.
  intros (i & dead & content & r & Hi & Hr & Hq). destruct (waiting_head records i dead content r q Hi Hr Hq)
    as (q' & Hh & Hcase). apply Hmin in Hh. destruct Hcase as [->|Hlt]; [done|].
  transitivity q'; [done|]. apply cmp_le_lt_eq. by left.
Qed.

(** The sources at [p] are all that have it. *)
Lemma at_prefix_all dead evs :
  (∃ i, at_prefix records p i dead evs) ↔ ∃ i content, inputs !! i = Some (dead, content) ∧ (p, evs) ∈ content.
Proof using Hok Hbound Hp Hmin.
  split.
  - intros (i & content & r & Hi & _ & Hc). exists i, content. split; [done|]. by eapply list_elem_of_lookup_2.
  - intros (i & content & Hi & Hc). exists i. destruct Hbound as [Hrec Hlt].
    destruct (Forall2_lookup_l _ _ _ _ _ Hrec Hi) as (r & Hr & Hle). exists content, r. split_and!; [done..|].
    destruct Hp as [j Hj]. apply head_waiting in Hj.
    apply list_elem_of_lookup in Hc as [k Hk]. destruct (decide (k < r)) as [Hkr|Hkr].
    + exfalso. assert (cmp_lt p p) as Hpp; [|by apply cmp_lt_irrefl in Hpp].
      apply (Hlt i dead content r); [done..| |done]. apply list_elem_of_fmap. exists (p, evs). split; [done|].
      apply list_elem_of_lookup. exists k. by rewrite lookup_take_lt.
    + destruct (decide (k = r)) as [->|]; [done|]. exfalso.
      destruct (lookup_lt_is_Some_2 content r) as [[q evs'] Hq]; [apply lookup_lt_Some in Hk; lia|].
      assert (head_prefix records i = Some q) as Hh
        by (unfold head_prefix; by rewrite Hi; cbn [mbind option_bind]; rewrite Hr; simpl; rewrite Hq).
      apply Hmin in Hh. destruct (content_sorted i dead content Hi) as [Hs _].
      assert (cmp_lt q p) as Hqp.
      { apply (StronglySorted_at _ _ r k _ _ Hs); [lia|by rewrite list_lookup_fmap, Hq|by rewrite list_lookup_fmap, Hk]. }
      apply cmp_not_le in Hqp. done.
Qed.

Lemma live_post_lists lists e :
  (∀ dead evs, (dead, evs) ∈ lists ↔ ∃ i, at_prefix records p i dead evs) →
  e ∈ all_kept lists ↔ live_post p e.
Proof using Hok Hbound Hp Hmin.
  intros Hl. unfold all_kept. rewrite elem_of_concat. split.
  - intros (l & He & ([dead evs] & -> & Hin)%list_elem_of_fmap). apply Hl, at_prefix_all in Hin as (i & content & Hi & Hc).
    unfold kept in He. apply list_elem_of_filter in He as [Ha He]. by exists i, dead, content, evs.
  - intros (i & dead & content & evs & Hi & Hc & He & Ha). exists (kept dead evs). split.
    + unfold kept. by apply list_elem_of_filter.
    + apply list_elem_of_fmap. exists (dead, evs). split; [done|]. apply Hl, at_prefix_all. eauto.
Qed.

Lemma advance_at i :
  advance records p !! i = (λ r, if decide (head_prefix records i = Some p) then S r else r) <$> records !! i.
Proof. unfold advance. by rewrite list_lookup_imap. Qed.

Lemma waiting_advance q : waiting (advance records p) q ↔ waiting records q ∧ q ≠ p.
Proof using Hok Hbound Hmin.
  destruct Hbound as [Hrec _]. split.
  - intros (i & dead & content & r' & Hi & Hr' & Hq). rewrite advance_at in Hr'.
    apply fmap_Some in Hr' as (r & Hr & ->). case_decide as Hh.
    + assert (q ∈ (drop r content).*1) as Hq'.
      { apply list_elem_of_fmap in Hq as (c & -> & Hc). apply list_elem_of_fmap. exists c. split; [done|].
        apply list_elem_of_lookup in Hc as [k Hc]. rewrite lookup_drop in Hc. apply list_elem_of_lookup.
        exists (S k). rewrite lookup_drop. by rewrite Nat.add_succ_r. }
      split; [by exists i, dead, content, r|]. intros ->.
      unfold head_prefix in Hh. rewrite Hi in Hh. cbn [mbind option_bind] in Hh. rewrite Hr in Hh.
      cbn [mbind option_bind snd] in Hh. apply fmap_Some in Hh as (c & Hc & Hpc).
      apply list_elem_of_fmap in Hq as (c' & Hpc' & Hc'). apply list_elem_of_lookup in Hc' as [k Hc'].
      rewrite lookup_drop in Hc'. destruct (content_sorted i dead content Hi) as [Hs _].
      assert (cmp_lt p p) as Hpp; [|by apply cmp_lt_irrefl in Hpp].
      apply (StronglySorted_at _ _ r (S r + k) _ _ Hs); [lia|rewrite list_lookup_fmap, Hc|rewrite list_lookup_fmap, Hc'];
        simpl; congruence.
    + split; [by exists i, dead, content, r|]. intros ->.
      destruct (waiting_head records i dead content r p Hi Hr Hq) as (q & Hq' & [->|Hlt]); [done|].
      apply Hmin in Hq'. by apply cmp_not_le in Hlt.
  - intros [(i & dead & content & r & Hi & Hr & Hq) Hne].
    exists i, dead, content, (if decide (head_prefix records i = Some p) then S r else r).
    split_and!; [done|by rewrite advance_at, Hr|]. case_decide as Hh; [|done].
    apply list_elem_of_fmap in Hq as (c & -> & Hc). apply list_elem_of_lookup in Hc as [k Hc]. rewrite lookup_drop in Hc.
    apply list_elem_of_fmap. exists c. split; [done|]. apply list_elem_of_lookup. destruct k as [|k].
    + exfalso. rewrite Nat.add_0_r in Hc. unfold head_prefix in Hh. rewrite Hi in Hh. cbn [mbind option_bind] in Hh.
      rewrite Hr in Hh. cbn [mbind option_bind snd] in Hh. rewrite Hc in Hh. simpl in Hh. by simplify_eq.
    + exists k. rewrite lookup_drop, <-Hc. f_equal. lia.
Qed.

Lemma head_at i dead content r :
  inputs !! i = Some (dead, content) → records !! i = Some r → head_prefix records i = fst <$> content !! r.
Proof. intros Hi Hr. unfold head_prefix. rewrite Hi. cbn [mbind option_bind]. by rewrite Hr. Qed.

Lemma advance_records : records_ok (advance records p).
Proof using Hbound.
  destruct Hbound as [Hrec _]. apply Forall2_same_length_lookup. split.
  { unfold advance. rewrite length_imap. by eapply Forall2_length. }
  intros i [dead content] r' Hi Hr'. rewrite advance_at in Hr'. apply fmap_Some in Hr' as (r & Hr & ->).
  pose proof (Forall2_lookup_lr _ _ _ _ _ _ Hrec Hi Hr) as Hle. simpl in *. case_decide as Hh; [|done].
  rewrite (head_at i dead content r Hi Hr) in Hh. apply fmap_Some in Hh as (c & Hc & _).
  apply lookup_lt_Some in Hc. lia.
Qed.

Lemma bound_advance : bound_ok (advance records p).
Proof using Hok Hbound Hp Hmin.
  split; [apply advance_records|]. intros i dead content r' q p' Hi Hr' Hq [Hw Hne]%waiting_advance.
  pose proof (waiting_min p' Hw) as Hle. destruct Hbound as [_ Hlt]. rewrite advance_at in Hr'.
  apply fmap_Some in Hr' as (r & Hr & ->). case_decide as Hh; [|by apply (Hlt i dead content r)].
  rewrite (head_at i dead content r Hi Hr) in Hh. apply fmap_Some in Hh as ([p'' evs] & Hc & [= <-]).
  rewrite (take_S_r _ _ _ Hc), fmap_app in Hq. apply elem_of_app in Hq as [Hq|Hq]; [by apply (Hlt i dead content r)|].
  apply list_elem_of_singleton in Hq as ->. apply cmp_le_lt_eq in Hle as [|]; [done|]. by subst.
Qed.

Lemma left_advance : left (advance records p) < left records.
Proof using Hbound Hp.
  destruct Hp as [j Hj]. destruct Hbound as [Hrec _]. unfold left, advance.
  assert (∀ k (ins : list (option DeadKeys * list (bytes * list RunEvent))) recs,
    Forall2 (λ x r, r ≤ length x.2) ins recs →
    sum_list (zip_with (λ x r, length x.2 - r) ins
      (imap (λ i r, if decide (head_prefix records (k + i) = Some p) then S r else r) recs))
    ≤ sum_list (zip_with (λ x r, length x.2 - r) ins recs)) as Hle.
  { intros k ins recs Hf. revert k. induction Hf as [|x r ins recs Hx Hf IH]; intros k; [done|]. csimpl.
    specialize (IH (S k)). rewrite (imap_ext _ (λ i r, if decide (head_prefix records (S k + i) = Some p) then S r else r))
      by (intros i y _; simpl; by rewrite Nat.add_succ_r). case_decide; lia. }
  assert (∀ k (ins : list (option DeadKeys * list (bytes * list RunEvent))) recs i x r,
    Forall2 (λ x r, r ≤ length x.2) ins recs → ins !! i = Some x → recs !! i = Some r → r < length x.2 →
    head_prefix records (k + i) = Some p →
    sum_list (zip_with (λ x r, length x.2 - r) ins
      (imap (λ i r, if decide (head_prefix records (k + i) = Some p) then S r else r) recs))
    < sum_list (zip_with (λ x r, length x.2 - r) ins recs)) as Hstrict.
  { intros k ins recs i x r Hf. revert k i. induction Hf as [|x' r' ins recs Hx Hf IH]; intros k i Hi Hr Hlt Hh; [done|].
    csimpl. rewrite (imap_ext _ (λ i r, if decide (head_prefix records (S k + i) = Some p) then S r else r))
      by (intros ? ? _; simpl; by rewrite Nat.add_succ_r). destruct i as [|i]; simplify_eq/=.
    - rewrite decide_True by done. pose proof (Hle (S k) ins recs Hf). simpl in *. lia.
    - rewrite Nat.add_succ_r in Hh. pose proof (IH (S k) i Hi Hr Hlt Hh). simpl in *. case_decide; lia. }
  destruct (inputs !! j) as [[dead content]|] eqn:Hi; [|by unfold head_prefix in Hj; rewrite Hi in Hj].
  destruct (Forall2_lookup_l _ _ _ _ _ Hrec Hi) as (r & Hr & _).
  pose proof Hj as Hj'. rewrite (head_at j dead content r Hi Hr) in Hj'. apply fmap_Some in Hj' as (c & Hc & _).
  apply (Hstrict 0 inputs records j (dead, content) r); [done..| |done]. by apply lookup_lt_Some in Hc.
Qed.
End step.

(** ** What is written *)

Fixpoint fits_at (offset : nat) (recs : list (bytes * list (N * N))) : Prop :=
  match recs with
  | [] => True
  | r :: recs => (N.of_nat offset ≤ u32_max)%N ∧ rec_fits r ∧ fits_at (offset + length (enc_record r)) recs
  end.

Fixpoint offsets_at (offset : nat) (recs : list (bytes * list (N * N))) : list N :=
  match recs with
  | [] => []
  | r :: recs => N.of_nat offset :: offsets_at (offset + length (enc_record r)) recs
  end.

Definition count_from (n : N) (recs : list (bytes * list (N * N))) : N :=
  foldl (λ n r, N.min (n + N.of_nat (length r.2)) u64_max) n recs.

Definition written (start : nat) (st : CompactState) (recs : list (bytes * list (N * N))) : CompactState :=
  mkCompactState (ct_offsets st ++ offsets_at (start + length (ct_records st)) recs)
    (ct_records st ++ enc_records recs) (count_from (ct_postings st) recs).

(** The record of a prefix and its events. *)
Definition out_rel (c : bytes * list RunEvent) (r : bytes * list (N * N)) : Prop :=
  r.1 = c.1 ∧ Forall2 (posting_rel out) c.2 r.2.

Context (Hkeys : ∀ p e e', live_post p e → live_post p e' → re_event_key e = re_event_key e' → e = e').

Lemma compact_prefix_spec records p matching lists :
  bound_ok records → (∃ i, head_prefix records i = Some p) →
  (∀ i q, head_prefix records i = Some q → cmp_le p q) →
  matching_ok out matching sources lists →
  (∀ dead evs, (dead, evs) ∈ lists ↔ ∃ i, at_prefix records p i dead evs) → all_kept lists ≠ [] →
  ∃ evs ps, StronglySorted cmp_lt evs ∧ evs ≠ [] ∧ (∀ e, e ∈ evs ↔ live_post p e) ∧
    Forall2 (posting_rel out) evs ps ∧
    ∀ start st,
      (∀ st', compact_prefix sources outd start p matching st = Some st' →
              (N.of_nat (start + length (ct_records st)) ≤ u32_max)%N ∧ rec_fits (p, ps)) ∧
      ((N.of_nat (start + length (ct_records st)) ≤ u32_max)%N → rec_fits (p, ps) →
       compact_prefix sources outd start p matching st = Some (written start st [(p, ps)])).
Proof using Hok Hout Hout_sorted Hkeys.
  intros Hb Hp Hmin Hm Hl Hlive.
  assert (∀ e, e ∈ all_kept lists ↔ live_post p e) as Hposted by (intros; by apply (live_post_lists records)).
  destruct (compact_postings_spec out outd Hout Hout_sorted matching sources lists Hm) as (ps & Hps & Heq).
  { intros x y Hx%Hposted Hy%Hposted. by apply (Hkeys p). }
  destruct (dedup_postings_sorted same_event cmp_lt (merge_sort cmp_le (all_kept lists))) as [Hs Hel].
  { intros x y _ _. apply bool_decide_eq_true. }
  { pose proof (StronglySorted_merge_sort cmp_le (all_kept lists)) as Hs.
    clear -Hs. induction Hs as [|x l _ IH Hx]; [constructor|]. constructor; [done|].
    eapply Forall_impl; [exact Hx|]. intros y Hy. by apply cmp_le_lt_eq. }
  set (evs := dedup same_event (merge_sort cmp_le (all_kept lists))) in *. clearbody evs.
  assert (∀ e, e ∈ evs ↔ live_post p e) as Hev by (intros e; by rewrite Hel, merge_sort_Permutation).
  assert (evs ≠ []) as Hne.
  { intros ->. destruct (all_kept lists) as [|e l]; [done|]. apply (not_elem_of_nil e), Hev, Hposted. left. }
  exists evs, ps. split_and!; [done..|]. intros start st. unfold compact_prefix. rewrite Heq. split.
  - intros st' (o & [Ho _]%u32_try_Some & (pl & [Hpl _]%u32_try_Some & Hst)%bind_Some)%bind_Some. split; [done|].
    case_decide as Hc; [|done]. split.
    2:{ simpl. intros ->. apply Hne. by inversion Hps. }
    split; [done|]. destruct Hc as [->|]; [simpl; lia|done].
  - intros Ho [[Hpl Hpc] Hpne]. simpl in *.
    rewrite (proj2 (u32_try_Some _ _) (conj Ho eq_refl)). cbn [mbind option_bind].
    rewrite (proj2 (u32_try_Some _ _) (conj Hpl eq_refl)). cbn [mbind option_bind].
    rewrite decide_True by (by right). cbn [mbind option_bind]. rewrite decide_False by (destruct ps; [done|simpl; lia]).
    unfold written, enc_records, enc_record. simpl. rewrite app_nil_r. done.
Qed.

(** What the loops do from a position on: [content] is what remains to be
    written and [recs] its records. *)
Record loop_spec (fuel : nat) (records : list nat) (content : list (bytes * list RunEvent))
    (recs : list (bytes * list (N * N))) : Prop := {
  ls_recs : Forall2 out_rel content recs;
  ls_sorted : sorted_content content;
  ls_events p evs : (p, evs) ∈ content → waiting records p ∧ evs ≠ [] ∧ ∀ e, e ∈ evs ↔ live_post p e;
  ls_all p e : live_post p e → waiting records p → p ∈ content.*1;
  ls_count count : count_live_loop fuel sources records count = Some (count + length recs);
  ls_only start st st' : compact_loop fuel sources outd start records st = Some st' →
    fits_at (start + length (ct_records st)) recs;
  ls_written start st : fits_at (start + length (ct_records st)) recs →
    compact_loop fuel sources outd start records st = Some (written start st recs)
}.

Lemma written_cons start st r recs :
  written start (written start st [r]) recs = written start st (r :: recs).
Proof.
  unfold written, enc_records. simpl. rewrite app_nil_r, <-!(assoc_L (++)). f_equal.
  rewrite length_app. simpl. by rewrite Nat.add_assoc.
Qed.

Lemma loop_spec_end fuel records :
  minimum_compaction_prefix sources records = Some None → (∀ i, head_prefix records i = None) →
  loop_spec (S fuel) records [] [].
Proof using Hok.
  intros Hm Hspec. split.
  - constructor.
  - by split; constructor.
  - by intros ? ? ?%not_elem_of_nil.
  - intros p e _ (i & dead & content & r & Hi & Hr & Hq).
    destruct (waiting_head records i dead content r p Hi Hr Hq) as (q & Hh & _). by rewrite Hspec in Hh.
  - intros count. cbn [count_live_loop]. rewrite Hm. cbn [mbind option_bind]. f_equal. simpl. lia.
  - done.
  - intros start st _. cbn [compact_loop]. rewrite Hm. cbn [mbind option_bind]. unfold written, enc_records. simpl.
    rewrite !app_nil_r. by destruct st.
Qed.

Section turn.
Context (fuel : nat) (records : list nat) (Hb : bound_ok records) (p : bytes).
Context (Hp : ∃ i, head_prefix records i = Some p) (Hmin : ∀ i q, head_prefix records i = Some q → cmp_le p q).
Context (Hm : minimum_compaction_prefix sources records = Some (Some p)).
Context (matching : list (nat * PostingListView)) (lists : list (option DeadKeys * list RunEvent)).
Context (Hmatch : match_prefix sources records p = Some (matching, advance records p)).
Context (Hmok : matching_ok out matching sources lists).
Context (Hl : ∀ dead evs, (dead, evs) ∈ lists ↔ ∃ i, at_prefix records p i dead evs).
Context (content : list (bytes * list RunEvent)) (recs : list (bytes * list (N * N))).
Context (Hrest : loop_spec fuel (advance records p) content recs).

Lemma waiting_rest q : waiting (advance records p) q → waiting records q ∧ cmp_lt p q.
Proof using Hok Hb Hmin.
  intros [Hq Hne]%(waiting_advance records Hb p Hmin). split; [done|].
  apply (waiting_min records p Hmin) in Hq as Hle. by apply cmp_le_lt_eq in Hle as [|].
Qed.

Lemma count_turn count :
  count_live_loop (S fuel) sources records count =
  count_live_loop fuel sources (advance records p) (count + if bool_decide (all_kept lists ≠ []) then 1 else 0).
Proof using Hm Hmatch Hmok.
  cbn [count_live_loop]. rewrite Hm. cbn [mbind option_bind]. rewrite Hmatch. cbn [mbind option_bind].
  by rewrite (matching_live_spec matching lists Hmok).
Qed.

Lemma compact_turn start st :
  compact_loop (S fuel) sources outd start records st =
  if decide (all_kept lists = []) then compact_loop fuel sources outd start (advance records p) st
  else st ← compact_prefix sources outd start p matching st;
       compact_loop fuel sources outd start (advance records p) st.
Proof using Hm Hmatch Hmok.
  cbn [compact_loop]. rewrite Hm. cbn [mbind option_bind]. rewrite Hmatch. cbn [mbind option_bind].
  rewrite (matching_live_spec matching lists Hmok). cbn [mbind option_bind].
  by destruct (all_kept lists).
Qed.

(** A prefix with no live event is passed over. *)
Lemma loop_spec_skip : all_kept lists = [] → loop_spec (S fuel) records content recs.
Proof using Hok Hb Hp Hmin Hm Hmatch Hmok Hl Hrest.
  intros Hnil. destruct Hrest as [H1 H2 H3 H4 H5 H6 H7]. split; [done..| | | | |].
  - intros q evs Hq. destruct (H3 q evs Hq) as [Hw ?]. split; [by apply waiting_rest|done].
  - intros q e Hq Hqw. apply (H4 q e Hq), (waiting_advance records Hb p Hmin). split; [done|]. intros ->.
    apply (live_post_lists records Hb p Hp Hmin lists e Hl) in Hq. rewrite Hnil in Hq. by apply not_elem_of_nil in Hq.
  - intros count. rewrite count_turn, Hnil, H5. f_equal. simpl. lia.
  - intros start st st'. rewrite compact_turn, decide_True by done. apply H6.
  - intros start st. rewrite compact_turn, decide_True by done. apply H7.
Qed.

Lemma loop_spec_write :
  all_kept lists ≠ [] → ∃ evs ps, loop_spec (S fuel) records ((p, evs) :: content) ((p, ps) :: recs).
Proof using Hok Hout Hout_sorted Hkeys Hb Hp Hmin Hm Hmatch Hmok Hl Hrest.
  intros Hne.
  destruct (compact_prefix_spec records p matching lists) as (evs & ps & Hse & Hene & Hev & Hps & Hcp); [done..|].
  exists evs, ps. destruct Hrest as [H1 [H2 H2'] H3 H4 H5 H6 H7].
  assert (∀ start st, start + length (ct_records (written start st [(p, ps)])) =
    start + length (ct_records st) + length (enc_record (p, ps))) as Hlen.
  { intros. unfold written, enc_records. simpl. rewrite app_nil_r, length_app. lia. }
  split.
  - by constructor.
  - split; csimpl; constructor; [done| |done|done]. apply Forall_forall.
    intros q ([q' evs'] & -> & Hq)%list_elem_of_fmap. destruct (H3 q' evs' Hq) as [Hw _]. by apply waiting_rest.
  - intros q evs' [[= -> ->]|Hq]%elem_of_cons.
    + split; [|done]. destruct Hp as [i Hi]. by eapply head_waiting.
    + destruct (H3 q evs' Hq) as [Hw ?]. split; [by apply waiting_rest|done].
  - intros q e Hq Hqw. csimpl. apply elem_of_cons. destruct (decide (q = p)) as [->|Hqp]; [by left|right].
    apply (H4 q e Hq). by apply (waiting_advance records Hb p Hmin).
  - intros count. rewrite count_turn, bool_decide_true, H5 by done. f_equal. simpl. lia.
  - intros start st st'. rewrite compact_turn, decide_False by done. intros (st1 & Hst1 & Hst')%bind_Some.
    destruct (proj1 (Hcp start st) st1 Hst1) as [Ho Hfit].
    rewrite (proj2 (Hcp start st) Ho Hfit) in Hst1. apply (inj Some) in Hst1 as <-.
    apply H6 in Hst'. rewrite Hlen in Hst'. done.
  - intros start st (Ho & Hfit & Htail). rewrite compact_turn, decide_False by done.
    rewrite (proj2 (Hcp start st) Ho Hfit). cbn [mbind option_bind].
    rewrite H7 by (by rewrite Hlen). by rewrite written_cons.
Qed.
End turn.

Lemma loop_spec_exists fuel records :
  bound_ok records → left records < fuel → ∃ content recs, loop_spec fuel records content recs.
Proof using Hok Hout Hout_sorted Hkeys.
  revert records. induction fuel as [|fuel IH]; intros records Hb Hf; [lia|].
  destruct (minimum_spec records (proj1 Hb)) as (m & Hm & Hspec). destruct m as [p|].
  - destruct Hspec as [Hp Hmin].
    destruct (match_prefix_spec records p (proj1 Hb)) as (matching & lists & Hmatch & Hmok & Hl).
    pose proof (left_advance records Hb p Hp) as Hleft.
    destruct (IH (advance records p) (bound_advance records Hb p Hp Hmin) ltac:(lia)) as (content & recs & Hls).
    destruct (decide (all_kept lists = [])) as [Hnil|Hne].
    + exists content, recs. by eapply loop_spec_skip.
    + destruct (loop_spec_write fuel records Hb p Hp Hmin Hm matching lists Hmatch Hmok Hl content recs Hls Hne)
        as (evs & ps & ?). eauto.
  - exists [], []. by apply loop_spec_end.
Qed.

(** ** The whole segment *)

Lemma offsets_at_alt off recs :
  offsets_at off recs = (λ i, N.of_nat (off + length (enc_records (take i recs)))) <$> seq 0 (length recs).
Proof.
  revert off. induction recs as [|r recs IH]; intros off; [done|]. cbn [offsets_at length seq fmap list_fmap].
  f_equal; [f_equal; unfold enc_records; simpl; lia|]. rewrite IH, <-fmap_S_seq, <-list_fmap_compose.
  apply list_fmap_ext. intros i j _. unfold enc_records. csimpl. rewrite length_app. by rewrite Nat.add_assoc.
Qed.

Lemma fits_at_alt off recs :
  fits_at off recs ↔ Forall rec_fits recs ∧
    ∀ i, i < length recs → (N.of_nat (off + length (enc_records (take i recs))) ≤ u32_max)%N.
Proof.
  revert off. induction recs as [|r recs IH]; intros off; cbn [fits_at length].
  - split; [|done]. intros _. split; [constructor|]. intros; lia.
  - rewrite IH, Forall_cons. split.
    + intros (Ho & Hr & Hrs & Hoff). split; [done|]. intros [|i] Hi.
      * unfold enc_records. simpl. by rewrite Nat.add_0_r.
      * specialize (Hoff i ltac:(lia)). unfold enc_records in *. csimpl. rewrite length_app. lia.
    + intros ([Hr Hrs] & Hoff). split_and!; [|done|done|].
      * specialize (Hoff 0 ltac:(lia)). unfold enc_records in Hoff. simpl in Hoff. by rewrite Nat.add_0_r in Hoff.
      * intros i Hi. specialize (Hoff (S i) ltac:(lia)). unfold enc_records in *. csimpl in Hoff.
        rewrite length_app in Hoff. lia.
Qed.

Lemma start_ok : bound_ok (replicate (length sources) 0) ∧ left (replicate (length sources) 0) < prefix_fuel sources.
Proof using Hok.
  assert (length sources = length inputs) as Hlen by apply Hok. split.
  - split.
    + unfold records_ok. rewrite Hlen. clear. induction inputs as [|x l IH]; simpl; constructor; [lia|done].
    + intros i dead content r q p _ Hr Hq. apply lookup_replicate in Hr as [-> _]. by apply not_elem_of_nil in Hq.
  - unfold left, prefix_fuel.
    assert ((λ s, sv_prefix_count (cs_segment s)) <$> sources = (λ x, length x.2) <$> inputs) as ->.
    { apply list_eq_same_length with (length inputs); [by rewrite length_fmap|by rewrite length_fmap|].
      intros i a b _ Ha Hb. rewrite list_lookup_fmap in Ha. rewrite list_lookup_fmap in Hb.
      apply fmap_Some in Ha as (s & Hs & ->), Hb as ([dead content] & Hi & ->).
      by destruct (source_at i s dead content Hs Hi). }
    rewrite Hlen. clear. induction inputs as [|x l IH]; csimpl; lia.
Qed.

Lemma start_waiting p e : live_post p e → waiting (replicate (length sources) 0) p.
Proof using Hok.
  intros (i & dead & content & evs & Hi & Hc & _). exists i, dead, content, 0. split_and!; [done| |].
  - apply lookup_replicate. split; [done|]. destruct Hok as [-> _]. by eapply lookup_lt_Some.
  - rewrite drop_0. apply list_elem_of_fmap. by exists (p, evs).
Qed.

Lemma compact_segment_spec `{ShardHash} family shard :
  sources ≠ [] → Forall (λ s, check_source family shard s = Some tt) sources →
  ∃ content recs, Forall2 out_rel content recs ∧ sorted_content content ∧
    (∀ p evs e, (p, evs) ∈ content → e ∈ evs ↔ live_post p e) ∧ (∀ p e, live_post p e → p ∈ content.*1) ∧
    (recs = [] → compact_segment family shard sources outd = Some None) ∧
    (recs ≠ [] →
      (∀ c, compact_segment family shard sources outd = Some c → seg_fits recs) ∧
      (seg_fits recs → compact_segment family shard sources outd =
         Some (Some (mkCompactedSegment (enc_segment family shard recs) (count_from 0 recs))))).
Proof using Hok Hout Hout_sorted Hkeys.
  intros Hne Hcheck. destruct start_ok as [Hb Hf].
  destruct (loop_spec_exists (prefix_fuel sources) _ Hb Hf) as (content & recs & [H1 H2 H3 H4 H5 H6 H7]).
  exists content, recs.
  assert (compact_segment family shard sources outd =
    if decide (length recs = 0) then Some None
    else
      n ← u32_try (length recs);
      st ← compact_loop (prefix_fuel sources) sources outd (segment_header_len + length recs * 4)
             (replicate (length sources) 0) (mkCompactState [] [] 0);
      if decide (length (ct_offsets st) ≠ length recs) then None
      else Some (Some (mkCompactedSegment (segment_header family shard n ++
             concat (be_bytes 4 <$> ct_offsets st) ++ ct_records st) (ct_postings st)))) as Hseg.
  { unfold compact_segment. rewrite decide_False by done.
    assert (mapM (check_source family shard) sources = Some (replicate (length sources) tt)) as ->.
    { clear -Hcheck. induction Hcheck as [|x l Hx _ IH]; [done|]. simpl. rewrite Hx. cbn [mbind option_bind].
      by rewrite IH. }
    cbn [mbind option_bind]. unfold count_live_compaction_prefixes. rewrite H5. done. }
  split_and!; [done|done| | |..].
  - intros p evs e Hin. by apply (H3 p evs).
  - intros p e Hp. apply (H4 p e Hp). by eapply start_waiting.
  - intros ->. rewrite Hseg. by rewrite decide_True.
  - intros Hrne. assert (length recs ≠ 0) as Hl by (by destruct recs).
    assert (∀ st, u32_try (length recs) = Some (N.of_nat (length recs)) →
      compact_loop (prefix_fuel sources) sources outd (segment_header_len + length recs * 4)
        (replicate (length sources) 0) (mkCompactState [] [] 0) = Some st →
      fits_at (segment_header_len + length recs * 4) recs) as Honly.
    { intros st _ Hst. apply H6 in Hst. simpl in Hst. by rewrite Nat.add_0_r in Hst. }
    rewrite Hseg, decide_False by done. split.
    + intros c (n & Hn & (st & Hst & _)%bind_Some)%bind_Some. pose proof Hn as [Hn' ->]%u32_try_Some.
      destruct (proj1 (fits_at_alt _ _) (Honly st Hn Hst)) as [Hrf Hoff]. split; [done..|]. exact Hoff.
    + intros [_ Hn Hrf Hoff]. rewrite (proj2 (u32_try_Some _ _) (conj Hn eq_refl)). cbn [mbind option_bind].
      rewrite H7 by (simpl; rewrite Nat.add_0_r; by apply fits_at_alt). cbn [mbind option_bind].
      unfold written. simpl. rewrite Nat.add_0_r, offsets_at_alt.
      rewrite decide_False by (rewrite length_fmap, length_seq; intros Hx; by apply Hx).
      unfold enc_segment, enc_offsets, offset_of. by rewrite <-list_fmap_compose.
Qed.
End prefixes.
