(* ===== verification/PostingsCodec.v ===== *)
(** * Dead keys, run metadata and the run catalog

    The remaining codecs of [postings.rs]: blocks of dead keys are sorted keys,
    written as varints of their differences; a run's metadata is a fixed layout.
    Both read back as written.  A catalog of runs is accepted exactly when its
    runs are well formed, with distinct ids and disjoint ranges. *)

From S2P Require Import Prelude Grammar Schema QueueBytes Postings PostingsRead PostingsFormat PostingsRun.

(** ** Varints *)

Lemma lor_shift a b s : (a < 2 ^ s)%N → N.lor a (N.shiftl b s) = (a + b * 2 ^ s)%N.
Proof.
  intros Ha. rewrite N.shiftl_mul_pow2, <-N.lxor_lor, <-N.add_nocarry_lxor; [done|..].
  all: apply N.bits_inj_0; intros n; rewrite N.land_spec; destruct (N.lt_ge_cases n s).
  all: try (rewrite (N.mul_pow2_bits_low b s n) by done; by rewrite andb_false_r).
  all: rewrite <-(N.mod_small a (2 ^ s)), N.mod_pow2_bits_high by done; done.
Qed.

(** The shifts left when [fuel] more bytes may be written. *)
Fixpoint shifts_of (fuel : nat) : list N :=
  match fuel with
  | 0 => [63%N]
  | S f => (63 - 7 * N.of_nat fuel)%N :: shifts_of f
  end.

Lemma low_bits v : N.land v 127 = (v mod 128)%N ∧ N.land v 255 = (v mod 256)%N.
Proof. split; [apply (N.land_ones v 7)|apply (N.land_ones v 8)]. Qed.

Lemma small_byte v :
  (v < 128)%N → N.land v 255 = v ∧ N.land v 127 = v ∧ N.land v 128 = 0%N.
Proof.
  intros Hv. destruct (low_bits v) as [-> ->]. rewrite !N.mod_small by lia. split_and!; [done..|].
  apply N.bits_inj_0. intros n. rewrite N.land_spec. destruct (decide (n = 7%N)) as [->|Hn].
  - replace (N.testbit v 7) with false; [done|]. symmetry. destruct (decide (v = 0%N)) as [->|]; [done|].
    apply N.bits_above_log2, N.log2_lt_pow2; lia.
  - change 128%N with (2 ^ 7)%N. by rewrite N.pow2_bits_false, andb_false_r.
Qed.

Lemma more_byte v :
  let b := N.lor (N.land v 127) 128 in N.land b 127 = (v mod 128)%N ∧ N.land b 128 ≠ 0%N.
Proof.
  simpl. rewrite (proj1 (low_bits v)). change 128%N with (N.shiftl 1 7) at 2 5. rewrite lor_shift
    by (apply N.mod_lt; done).
  split.
  - rewrite (proj1 (low_bits _)). rewrite N.Div0.add_mod. change (2 ^ 7)%N with 128%N.
    rewrite N.Div0.mod_mul, N.add_0_r, !N.Div0.mod_mod. done.
  - intros H. apply (f_equal (λ n, N.testbit n 7)) in H. rewrite N.land_spec, N.bits_0 in H.
    replace (N.testbit (v mod 128 + 1 * 2 ^ 7) 7) with true in H; [done|]. symmetry.
    apply N.testbit_true. rewrite N.div_add by done.
    rewrite N.div_small by (apply N.mod_lt; done). done.
Qed.

Lemma read_put_varint_loop fuel v a c cursor acc :
  fuel ≤ 9 → (v < 2 ^ (7 * N.of_nat fuel + 1))%N → (acc < 2 ^ (63 - 7 * N.of_nat fuel))%N →
  cursor = length a →
  read_varint_loop (shifts_of fuel) (a ++ put_varint_loop fuel v ++ c) cursor acc =
  Some ((acc + v * 2 ^ (63 - 7 * N.of_nat fuel))%N, cursor + length (put_varint_loop fuel v)).
Proof.
  revert v a cursor acc. induction fuel as [|f IH]; intros v a cursor acc Hf Hv Hacc ->.
  - destruct (small_byte v) as (E1 & E2 & E3); [change (2 ^ (7 * N.of_nat 0 + 1))%N with 2%N in Hv; lia|].
    cbn [shifts_of read_varint_loop put_varint_loop]. rewrite E1.
    rewrite (take_at_mid a [v] c) by done. cbn [mbind option_bind head]. rewrite E2, E3.
    rewrite decide_False by (change (2 ^ (7 * N.of_nat 0 + 1))%N with 2%N in Hv; lia).
    rewrite decide_True by done. by rewrite lor_shift.
  - cbn [shifts_of read_varint_loop put_varint_loop]. destruct (N.leb_spec 128 v).
    + set (b := N.lor _ _). destruct (more_byte v) as [E1 E2]. fold b in E1, E2.
      change ((b :: put_varint_loop f (N.shiftr v 7)) ++ c) with ([b] ++ (put_varint_loop f (N.shiftr v 7) ++ c)).
      rewrite (take_at_mid a [b] _) by done. cbn [mbind option_bind head].
      rewrite decide_False by lia. rewrite (decide_False (P := N.land b 128 = 0%N)) by done. rewrite E1.
      rewrite lor_shift by done. rewrite (app_assoc a [b]). rewrite IH; try lia.
      * f_equal. f_equal; [|cbn; lia]. rewrite N.shiftr_div_pow2. change (2 ^ 7)%N with 128%N.
        replace (63 - 7 * N.of_nat f)%N with (7 + (63 - 7 * N.of_nat (S f)))%N by lia.
        rewrite N.pow_add_r. change (2 ^ 7)%N with 128%N. pose proof (N.div_mod v 128). nia.
      * rewrite N.shiftr_div_pow2. apply N.Div0.div_lt_upper_bound.
        rewrite <-N.pow_add_r. by replace (7 + (7 * N.of_nat f + 1))%N with (7 * N.of_nat (S f) + 1)%N by lia.
      * replace (63 - 7 * N.of_nat f)%N with (7 + (63 - 7 * N.of_nat (S f)))%N by lia.
        rewrite N.pow_add_r. change (2 ^ 7)%N with 128%N. pose proof (N.mod_lt v 128). nia.
      * rewrite length_app. cbn. lia.
    + destruct (small_byte v) as (E1 & E2 & E3); [done|]. rewrite E1.
      rewrite (take_at_mid a [v] c) by done. cbn [mbind option_bind head]. rewrite E2, E3.
      rewrite decide_False by lia. rewrite decide_True by done. by rewrite lor_shift.
Qed.

Lemma read_put_varint a v c cursor :
  (v ≤ u64_max)%N → cursor = length a →
  read_varint (a ++ put_varint v ++ c) cursor = Some (v, cursor + length (put_varint v)).
Proof.
  intros Hv ->. unfold read_varint, put_varint. change [0; 7; 14; 21; 28; 35; 42; 49; 56; 63]%N with (shifts_of 9).
  rewrite (read_put_varint_loop 9); [|lia|unfold u64_max in Hv; cbn in *; lia|done|done].
  change (63 - 7 * N.of_nat 9)%N with 0%N. rewrite N.pow_0_r. f_equal. f_equal. lia.
Qed.

(** ** Blocks of dead keys *)

Lemma put_varint_length v : 0 < length (put_varint v).
Proof. unfold put_varint. generalize 9. intros [|n]; cbn [put_varint_loop]; [|destruct (128 <=? v)%N]; cbn; lia. Qed.

Lemma length_dead_deltas first previous keys : length keys ≤ length (dead_deltas first previous keys).
Proof.
  revert first previous. induction keys as [|k keys IH]; intros first previous; simpl; [lia|].
  rewrite length_app. pose proof (put_varint_length (if first then k else (k - previous)%N)).
  specialize (IH false k). lia.
Qed.

Lemma dead_keys_loop_deltas keys : ∀ fuel first previous a cursor,
  length keys ≤ fuel → StronglySorted N.lt keys → Forall (λ k, k ≤ u64_max)%N keys →
  (first = false → Forall (λ k, previous < k)%N keys) → cursor = length a →
  dead_keys_loop fuel (N.of_nat (length keys)) first previous (a ++ dead_deltas first previous keys) cursor =
  Some (keys, length (a ++ dead_deltas first previous keys)).
Proof.
  induction keys as [|k keys IH]; intros fuel first previous a cursor Hfuel Hs Ht Hprev ->.
  { simpl. rewrite app_nil_r. by destruct fuel. }
  destruct fuel as [|fuel]; simpl in Hfuel; [lia|]. apply StronglySorted_inv in Hs as [Hs Hk].
  apply Forall_cons in Ht as [Htk Ht]. cbn [dead_keys_loop dead_deltas].
  rewrite decide_False by (cbn [length]; lia).
  set (e := if first then k else (k - previous)%N).
  assert (He : (e ≤ u64_max)%N) by (subst e; destruct first; lia).
  rewrite (read_put_varint a e) by done. cbn [mbind option_bind].
  assert (Hkey : (if first then Some e else if (previous + e <=? u64_max)%N then Some (previous + e)%N else None)
                 = Some k).
  { subst e. destruct first; [done|]. specialize (Hprev eq_refl). apply Forall_cons in Hprev as [Hp _].
    replace (previous + (k - previous))%N with k by lia. by destruct (N.leb_spec k u64_max); [|lia]. }
  rewrite Hkey. cbn [mbind option_bind].
  replace (N.of_nat (length (k :: keys)) - 1)%N with (N.of_nat (length keys)) by (cbn [length]; lia).
  rewrite (app_assoc a). rewrite IH; [done|lia|done|done|done|]. by rewrite length_app.
Qed.

Lemma dead_roundtrip keys :
  keys ≠ [] → StronglySorted N.lt keys → Forall (λ k, k ≤ u64_max)%N keys →
  (N.of_nat (length keys) ≤ u64_max)%N →
  ∃ v, dead_encode keys = Some v ∧ dead_decode v = Some keys.
Proof.
  intros Hne Hs Ht Hn. eexists. split; [done|]. unfold dead_decode.
  rewrite take_at_head by done. cbn [mbind option_bind]. rewrite decide_False by (intros H; by apply H).
  rewrite read_put_varint by done. cbn [mbind option_bind].
  rewrite (app_assoc dead_keys_magic). rewrite dead_keys_loop_deltas; [|..|by rewrite length_app]; try done.
  - cbn [mbind option_bind]. rewrite decide_False by (intros H; by apply H). by apply dead_new_iff.
  - rewrite !length_app. pose proof (length_dead_deltas true 0 keys). lia.
Qed.

(** ** Merging blocks *)

Lemma sort_dedup_keys (l : list N) :
  let r := dedup (λ x y, bool_decide (x = y)) (merge_sort cmp_le l) in
  StronglySorted N.lt r ∧ ∀ k, k ∈ r ↔ k ∈ l.
Proof.
  destruct (dedup_postings_sorted (λ x y : N, bool_decide (x = y)) N.lt (merge_sort cmp_le l)) as [Hs Hel].
  - intros x y _ _. apply bool_decide_eq_true.
  - eapply StronglySorted_weaken, (StronglySorted_merge_sort cmp_le).
    intros x y _ _ Hle. apply cmp_le_lt_eq in Hle as [Hlt|]; [left|by right]. by apply N.compare_lt_iff.
  - split; [done|]. intros k. rewrite Hel. by rewrite merge_sort_Permutation.
Qed.

Lemma merge_dead_blocks_spec blocks :
  length blocks ≤ max_death_blocks →
  ∃ dead, merge_dead_blocks blocks = Some dead ∧ dead_sorted dead ∧
    (∀ k, key_alive dead k ↔ ∀ ks, ks ∈ blocks → k ∉ ks) ∧
    match dead with Some keys => keys ≠ [] | None => True end.
Proof.
  intros Hn. unfold merge_dead_blocks. rewrite decide_False by lia.
  assert (Hel : ∀ k, k ∈ concat blocks ↔ ∃ ks, k ∈ ks ∧ ks ∈ blocks) by (intros; apply elem_of_concat).
  destruct (decide (concat blocks = [])) as [E|Hne].
  - exists None. split_and!; [done..| |done]. intros k. simpl. split; [|done]. intros _ ks Hks Hk.
    apply (not_elem_of_nil k). rewrite <-E. apply Hel. eauto.
  - destruct (sort_dedup_keys (concat blocks)) as [Hs Hm]. set (r := dedup _ _) in *.
    assert (Hr : r ≠ []).
    { intros E. destruct (concat blocks) as [|x ?] eqn:Ec; [done|]. apply (not_elem_of_nil x).
      rewrite <-E. apply Hm. left. }
    exists (Some r). rewrite (proj2 (dead_new_iff r r)) by done. split_and!; [done..| |done].
    intros k. simpl. rewrite Hm, Hel. naive_solver.
Qed.

(** ** Run metadata *)

(** The conditions [encode] checks. *)
Definition meta_ok (m : RunMeta) : Prop :=
  (0 < rm_min_event_key m ≤ rm_max_event_key m ∧
   0 < rm_live_events m ≤ rm_max_event_key m - rm_min_event_key m + 1)%N.

(** The fields' widths. *)
Definition meta_typed (m : RunMeta) : Prop :=
  (rm_run_id m ≤ u64_max ∧ rm_level m ≤ 255 ∧ rm_min_event_key m ≤ u64_max ∧
   rm_max_event_key m ≤ u64_max ∧ rm_live_events m ≤ u64_max)%N.

Lemma meta_encode_ok m : is_Some (meta_encode m) ↔ meta_ok m.
Proof.
  unfold meta_encode, meta_ok.
  destruct (N.eqb_spec (rm_min_event_key m) 0), (N.ltb_spec (rm_max_event_key m) (rm_min_event_key m)),
    (N.eqb_spec (rm_live_events m) 0),
    (N.ltb_spec (rm_max_event_key m - rm_min_event_key m + 1) (rm_live_events m)); simpl;
    split; intros Hs; try (by destruct Hs); try (by eexists); try lia.
Qed.

Lemma u64_pow v : (v ≤ u64_max)%N → (v < 256 ^ N.of_nat 8)%N.
Proof. unfold u64_max. intros H. cbn in *. lia. Qed.

Lemma meta_roundtrip m v : meta_typed m → meta_encode m = Some v → meta_decode v = Some m.
Proof.
  intros (T1 & T2 & T3 & T4 & T5) Hv. pose proof Hv as Hv'. unfold meta_encode in Hv'.
  match type of Hv' with (if ?b then _ else _) = _ => destruct b; [done|] end.
  apply (inj Some) in Hv' as <-. unfold meta_decode.
  set (v := run_meta_magic ++ _). set (a1 := run_meta_magic) in *.
  assert (Ha : length a1 = 8) by reflexivity. clearbody a1.
  assert (R1 : read_be v 8 8 = Some (rm_run_id m)) by (apply read_be_mid; [by apply u64_pow|done]).
  assert (R2 : v !! 16 = Some (rm_level m)).
  { subst v. rewrite (app_assoc a1), lookup_app_r; rewrite length_app, length_be_bytes, Ha; [done|lia]. }
  assert (R3 : read_be v 17 8 = Some (rm_min_event_key m)).
  { subst v. rewrite (app_assoc a1), (app_assoc (a1 ++ _)).
    apply read_be_mid; [by apply u64_pow|]. rewrite !length_app, length_be_bytes, Ha. done. }
  assert (R4 : read_be v 25 8 = Some (rm_max_event_key m)).
  { subst v. rewrite (app_assoc a1), (app_assoc (a1 ++ _)), (app_assoc ((a1 ++ _) ++ _)).
    apply read_be_mid; [by apply u64_pow|]. rewrite !length_app, !length_be_bytes, Ha. done. }
  assert (R5 : read_be v 33 8 = Some (rm_live_events m)).
  { subst v. rewrite (app_assoc a1), (app_assoc (a1 ++ _)), (app_assoc ((a1 ++ _) ++ _)),
      (app_assoc (((a1 ++ _) ++ _) ++ _)). rewrite <-(app_nil_r (be_bytes 8 (rm_live_events m))).
    apply read_be_mid; [by apply u64_pow|]. rewrite !length_app, !length_be_bytes, Ha. done. }
  rewrite decide_False.
  2:{ intros [Hl|Ht]; [apply Hl; subst v; by rewrite !length_app, !length_be_bytes, Ha|].
      apply Ht. subst v. by rewrite take_app_length'. }
  rewrite R1. cbn [mbind option_bind]. rewrite R2. cbn [mbind option_bind]. rewrite R3. cbn [mbind option_bind].
  rewrite R4. cbn [mbind option_bind]. rewrite R5. cbn [mbind option_bind].
  destruct m; simpl in *. rewrite Hv. done.
Qed.

(** ** The run catalog *)

(** One run's keys are all before another's. *)
Definition range_lt (m n : RunMeta) : Prop := (rm_max_event_key m < rm_min_event_key n)%N.

Lemma meta_le_comparator : Comparator (λ m n, cmp (meta_key m) (meta_key n)).
Proof. apply comparator_by. Qed.

Lemma meta_le_min m n : meta_le m n → (rm_min_event_key m ≤ rm_min_event_key n)%N.
Proof. intros H. do 2 apply cmp_le_fst in H. by apply N.compare_le_iff. Qed.

Definition catalog_state (metas : list RunMeta) : gset N * option N :=
  (list_to_set (rm_run_id <$> metas), rm_max_event_key <$> last metas).

Lemma validate_run_meta_step pre m st :
  validate_run_meta (catalog_state pre) m = Some st ↔
  meta_ok m ∧ (rm_run_id m ∉ rm_run_id <$> pre) ∧ follows range_lt pre m ∧ st = catalog_state (pre ++ [m]).
Proof.
  unfold validate_run_meta, catalog_state, follows. rewrite last_snoc, fmap_app, list_to_set_app_L. simpl.
  rewrite <-meta_encode_ok. destruct (meta_encode m) as [v|]; simpl.
  2:{ split; [done|]. intros [[??] _]. done. }
  unfold range_lt.
  replace ({[rm_run_id m]} ∪ list_to_set (rm_run_id <$> pre)) with
    (list_to_set (rm_run_id <$> pre) ∪ ({[rm_run_id m]} ∪ ∅ : gset N)) by set_solver.
  destruct (decide (rm_run_id m ∈ list_to_set (C := gset N) (rm_run_id <$> pre))) as [Hin|Hin];
    rewrite elem_of_list_to_set in Hin.
  { split; [done|]. by intros (_ & ? & _). }
  destruct (last pre) as [n|]; simpl.
  - destruct (N.leb_spec (rm_min_event_key m) (rm_max_event_key n)).
    + split; [done|]. intros (_ & _ & ? & _). lia.
    + split; [intros [= <-]; eauto|]. by intros (_ & _ & _ & ->).
  - split; [intros [= <-]; eauto|]. by intros (_ & _ & _ & ->).
Qed.

Lemma range_sorted metas :
  Forall meta_ok metas →
  (∀ i m, metas !! i = Some m → follows range_lt (take i metas) m) ↔ StronglySorted range_lt metas.
Proof.
  intros Hok. split.
  - induction metas as [|m metas IH] using rev_ind; [constructor|]. intros Hf.
    apply Forall_app in Hok as [Hok Hm]. apply Forall_singleton in Hm.
    assert (Hs : StronglySorted range_lt metas).
    { apply IH; [done|]. intros i n Hi. specialize (Hf i n). rewrite take_app_le in Hf
        by (apply lookup_lt_Some in Hi; lia). apply Hf. by apply lookup_app_l_Some. }
    apply StronglySorted_snoc; [done|]. intros n Hn.
    specialize (Hf (length metas) m). rewrite take_app_length in Hf.
    assert (Hfol : follows range_lt metas m) by (apply Hf; by apply list_lookup_middle).
    unfold follows in Hfol. destruct (last metas) as [l|] eqn:El.
    2:{ apply last_None in El as ->. by apply elem_of_nil in Hn. }
    destruct (StronglySorted_last _ _ _ _ Hs El Hn) as [->|Hr]; [done|].
    rewrite Forall_forall in Hok. assert (Hl : meta_ok l).
    { apply Hok, list_elem_of_lookup. exists (pred (length metas)). by rewrite <-last_lookup. }
    unfold range_lt, meta_ok in *. lia.
  - intros Hs i m Hi. unfold follows. destruct (last (take i metas)) as [l|] eqn:El; [|done].
    assert (l ∈ take i metas) as Hl.
    { apply list_elem_of_lookup. eexists. by rewrite <-last_lookup. }
    apply list_elem_of_lookup in Hl as [j Hj]. apply lookup_take_Some in Hj as [Hj ?].
    by eapply StronglySorted_at.
Qed.

Lemma validate_metas_iff metas :
  is_Some (foldl (λ o m, st ← o; validate_run_meta st m) (Some (∅, None)) metas) ↔
  Forall meta_ok metas ∧ NoDup (rm_run_id <$> metas) ∧ StronglySorted range_lt metas.
Proof.
  split.
  - intros [st Hst]. assert (Hinv : st = catalog_state metas ∧ Forall meta_ok metas ∧
      NoDup (rm_run_id <$> metas) ∧ ∀ i m, metas !! i = Some m → follows range_lt (take i metas) m).
    { revert Hst. apply (foldl_option_inv validate_run_meta (λ pre b, b = catalog_state pre ∧ Forall meta_ok pre ∧
        NoDup (rm_run_id <$> pre) ∧ ∀ i m, pre !! i = Some m → follows range_lt (take i pre) m)).
      - split_and!; [done|constructor|constructor|done].
      - intros pre m post b c _ (-> & Hok & Hnd & Hf) (Hm & Hid & Hfol & ->)%validate_run_meta_step.
        split_and!; [done|by apply Forall_app; auto| |].
        + rewrite fmap_app. apply NoDup_app. split_and!; [done| |apply NoDup_singleton].
          intros x Hx ->%list_elem_of_singleton. done.
        + intros i n [Hi|[Hlen Hi]]%lookup_app_Some.
          * rewrite take_app_le by (apply lookup_lt_Some in Hi; lia). eauto.
          * apply list_lookup_singleton_Some in Hi as [Hi <-].
            replace i with (length pre) by lia. by rewrite take_app_length. }
    destruct Hinv as (_ & Hok & Hnd & Hf). split_and!; [done..|]. by apply range_sorted.
  - intros (Hok & Hnd & Hs). pose proof (proj2 (range_sorted _ Hok) Hs) as Hf.
    destruct (foldl_option_ind validate_run_meta (λ pre b, b = catalog_state pre) metas (∅, None)) as (st & Hst & _);
      [done| |eauto].
    intros pre m post b Hl ->. eexists. split; [|done]. apply validate_run_meta_step. subst metas.
    split_and!; [| | |done].
    + rewrite Forall_forall in Hok. apply Hok. apply elem_of_app. right. left.
    + rewrite fmap_app, fmap_cons in Hnd. apply NoDup_app in Hnd as (_ & Hd & _). intros Hin.
      apply (Hd _ Hin). left.
    + specialize (Hf (length pre) m). rewrite take_app_length in Hf. apply Hf. by apply list_lookup_middle.
Qed.

(** A catalog is accepted when its runs are well formed, their ids distinct and
    their ranges disjoint. *)
Lemma validate_run_metas_spec metas :
  validate_run_metas metas = Some tt ↔
  Forall meta_ok metas ∧ NoDup (rm_run_id <$> metas) ∧
  ∀ m n, m ∈ metas → n ∈ metas → rm_run_id m ≠ rm_run_id n → range_lt m n ∨ range_lt n m.
Proof.
  set (L := merge_sort meta_le metas). assert (Hp : L ≡ₚ metas) by apply merge_sort_Permutation.
  assert (HL : StronglySorted meta_le L) by (by apply (sort_by_sorted _ _ meta_le_comparator)).
  assert (Hv : validate_run_metas metas = Some tt ↔
               is_Some (foldl (λ o m, st ← o; validate_run_meta st m) (Some (∅, None)) L)).
  { unfold validate_run_metas. fold L. destruct (foldl _ _ L); simpl; split; intros H; try done; by destruct H. }
  rewrite Hv, validate_metas_iff.
  assert (Hel : ∀ m, m ∈ metas ↔ m ∈ L) by (intros; by rewrite Hp). setoid_rewrite Hel.
  rewrite <-(Forall_Permutation meta_ok meta_ok (λ _, reflexivity _) _ _ Hp).
  split; intros (Hok & Hnd & Hs); (split_and!; [done|by rewrite Hp in Hnd || rewrite Hp|]).
  - intros m n [i Hi]%list_elem_of_lookup [j Hj]%list_elem_of_lookup Hne.
    destruct (Nat.lt_trichotomy i j) as [Hij|[->|Hij]].
    + left. by eapply StronglySorted_at.
    + congruence.
    + right. by eapply StronglySorted_at.
  - apply StronglySorted_of_at. intros i j m n Hij Hi Hj.
    assert (Hmn : meta_le m n) by (by eapply StronglySorted_at). apply meta_le_min in Hmn.
    rewrite <-Hp in Hnd. rewrite Forall_forall in Hok.
    assert (Hm : m ∈ L) by (by eapply list_elem_of_lookup_2). assert (Hn : n ∈ L) by (by eapply list_elem_of_lookup_2).
    destruct (Hs m n Hm Hn) as [?|Hr]; [|done|].
    + intros E. assert (i = j); [|lia].
      apply (NoDup_lookup (rm_run_id <$> L) i j (rm_run_id m)); [done|..].
      * by rewrite list_lookup_fmap, Hi.
      * by rewrite list_lookup_fmap, Hj, E.
    + pose proof (Hok m Hm). pose proof (Hok n Hn). unfold range_lt, meta_ok in *. lia.
Qed.
