(* ===== verification/PackedStore.v ===== *)
(** * The packed index

    [crates/nmp-store/src/redb_store/postings_store.rs]: the runs of the query
    index in their tables, and the operations on them: publishing a batch,
    recording deaths, compacting levels, and scanning.

    The catalog table is four columns by the byte that leads its keys, which
    never collide ([PackedTheorems.catalog_columns_contiguous]); each column is a map from the rest of the
    key.  The values are the bytes the code stores.  [None] is an error or a
    panic, on either of which the transaction is not committed. *)

From S2P Require Import Prelude Grammar Schema QueueBytes Canonical Ingest Postings Compaction.

#[global] Instance Family_countable : Countable Family.
Proof.
  refine (inj_countable family_u8 family_from_u8 _). by intros [].
Defined.

Definition all_families : list Family := [FGlobal; FAuthor; FKind; FTag].
(** [0..=SHARD_MASK]. *)
Definition all_shards : list N := N.of_nat <$> seq 0 64.
#[global] Arguments all_shards : simpl never.

Definition base_run_fan_in : nat := 8.
Definition large_run_fan_in : nat := 6.

(** ** Keys *)

Definition catalog_run_meta : N := 0.
Definition catalog_dictionary : N := 1.
Definition catalog_by_min : N := 2.
Definition catalog_deaths : N := 3.

Definition catalog_key (column id : N) : bytes := column :: be_bytes 8 id.
Definition catalog_column_bounds (column : N) : bytes * bytes :=
  (catalog_key column 0, catalog_key column u64_max).
Definition death_key (run_id : N) (level : nat) : bytes :=
  catalog_key catalog_deaths run_id ++ [N.of_nat level].
Definition segment_key (family : Family) (shard run_id : N) : bytes :=
  family_u8 family :: shard :: be_bytes 8 run_id.

Definition decode_run_id (value : bytes) : option N :=
  if decide (length value = 8) then Some (from_be_bytes value) else None.

(** ** Tables *)

Record PackedStore := mkPacked {
  pk_metas : gmap N bytes;
  pk_dictionaries : gmap N bytes;
  pk_by_min : gmap N bytes;
  pk_deaths : gmap (N * nat) bytes;
  pk_segments : gmap (Family * N * N) bytes;
  pk_next_run_id : option N
}.

Definition set_metas (pk : PackedStore) (m : gmap N bytes) : PackedStore :=
  mkPacked m (pk_dictionaries pk) (pk_by_min pk) (pk_deaths pk) (pk_segments pk) (pk_next_run_id pk).
Definition set_dictionaries (pk : PackedStore) (m : gmap N bytes) : PackedStore :=
  mkPacked (pk_metas pk) m (pk_by_min pk) (pk_deaths pk) (pk_segments pk) (pk_next_run_id pk).
Definition set_by_min (pk : PackedStore) (m : gmap N bytes) : PackedStore :=
  mkPacked (pk_metas pk) (pk_dictionaries pk) m (pk_deaths pk) (pk_segments pk) (pk_next_run_id pk).
Definition set_deaths (pk : PackedStore) (m : gmap (N * nat) bytes) : PackedStore :=
  mkPacked (pk_metas pk) (pk_dictionaries pk) (pk_by_min pk) m (pk_segments pk) (pk_next_run_id pk).
Definition set_segments (pk : PackedStore) (m : gmap (Family * N * N) bytes) : PackedStore :=
  mkPacked (pk_metas pk) (pk_dictionaries pk) (pk_by_min pk) (pk_deaths pk) m (pk_next_run_id pk).
Definition set_next_run_id (pk : PackedStore) (n : option N) : PackedStore :=
  mkPacked (pk_metas pk) (pk_dictionaries pk) (pk_by_min pk) (pk_deaths pk) (pk_segments pk) n.

(** ** The run catalog *)

Definition decode_meta_row (row : N * bytes) : option RunMeta :=
  meta ← meta_decode row.2;
  if decide (rm_run_id meta ≠ row.1) then None else Some meta.

Definition catalog_run_metas (pk : PackedStore) : option (list RunMeta) :=
  mapM decode_meta_row (ordered_map (pk_metas pk)).

(** The range entry of a run. *)
Definition check_range_entry (pk : PackedStore) (meta : RunMeta) : option unit :=
  value ← pk_by_min pk !! rm_min_event_key meta;
  mapped ← decode_run_id value;
  if decide (mapped ≠ rm_run_id meta) then None else Some tt.

Definition load_run_catalog (pk : PackedStore) : option (list RunMeta) :=
  metas ← catalog_run_metas pk;
  _ ← validate_run_metas metas;
  if decide (size (pk_by_min pk) ≠ length metas) then None
  else
    _ ← mapM (check_range_entry pk) metas;
    Some metas.

Definition highest (ids : list N) : option N :=
  foldl (λ o id, match o with Some h => Some (N.max h id) | None => Some id end) None ids.

Definition allocate_run_id (pk : PackedStore) : option (N * PackedStore) :=
  runs ← load_run_catalog pk;
  if decide (size (pk_dictionaries pk) ≠ length runs) then None
  else
    _ ← mapM (λ meta, pk_dictionaries pk !! rm_run_id meta) runs;
    run_id ←
      match pk_next_run_id pk, highest (rm_run_id <$> runs) with
      | None, None => Some 1%N
      | None, Some _ => None
      | Some next, highest_live =>
          if decide (next = 0%N) then None
          else
            match highest_live with
            | None => Some next
            | Some highest => if (highest <? next)%N then Some next else None
            end
      end;
    if (run_id + 1 <=? u64_max)%N then Some (run_id, set_next_run_id pk (Some (run_id + 1)%N)) else None.

(** ** Publishing a run *)

Definition pending_run_event (p : PendingEvent) : RunEvent :=
  mkRunEvent (pe_created_at p) (from_be_bytes (pe_id p)) (pe_event_key p).

Definition push_membership `{ShardHash} (family : Family) (prefix : bytes) (event : RunEvent) : Membership :=
  mkMembership family (shard_for family prefix) prefix event.

Definition pending_memberships `{ShardHash} (p : PendingEvent) : list Membership :=
  let event := pending_run_event p in
  push_membership FGlobal [] event ::
  push_membership FAuthor (pe_author p) event ::
  push_membership FKind (pe_kind p) event ::
  ((λ prefix, push_membership FTag prefix event) <$> ordered (pe_tags p)).

Definition memberships_for_pending `{ShardHash} (events : gmap N PendingEvent) : list Membership :=
  concat ((λ kv, pending_memberships kv.2) <$> ordered_map events).

Definition insert_run_catalog (pk : PackedStore) (meta : RunMeta) : option PackedStore :=
  encoded_meta ← meta_encode meta;
  let pk := set_metas pk (<[rm_run_id meta := encoded_meta]> (pk_metas pk)) in
  Some (set_by_min pk (<[rm_min_event_key meta := be_bytes 8 (rm_run_id meta)]> (pk_by_min pk))).

Definition insert_segments (run_id : N) (segments : list (Family * N * bytes))
    (t : gmap (Family * N * N) bytes) : gmap (Family * N * N) bytes :=
  foldl (λ t s, <[(s.1.1, s.1.2, run_id) := s.2]> t) t segments.

Definition insert_run (pk : PackedStore) (meta : RunMeta) (encoded : EncodedRun) : option PackedStore :=
  let pk := set_dictionaries pk (<[rm_run_id meta := er_dictionary encoded]> (pk_dictionaries pk)) in
  let pk := set_segments pk (insert_segments (rm_run_id meta) (er_segments encoded) (pk_segments pk)) in
  insert_run_catalog pk meta.

Definition delete_run (pk : PackedStore) (meta : RunMeta) : PackedStore :=
  let run_id := rm_run_id meta in
  let keys := concat ((λ f, (λ s, (f, s, run_id)) <$> all_shards) <$> all_families) in
  let pk := set_segments pk (foldl (λ t k, delete k t) (pk_segments pk) keys) in
  let pk := set_dictionaries pk (delete run_id (pk_dictionaries pk)) in
  let pk := set_metas pk (delete run_id (pk_metas pk)) in
  let pk := set_by_min pk (delete (rm_min_event_key meta) (pk_by_min pk)) in
  set_deaths pk (foldl (λ t l, delete (run_id, l) t) (pk_deaths pk) (seq 0 max_death_blocks)).

(** The death blocks of a run, in level order. *)
Definition read_block (pk : PackedStore) (run_id : N) (blocks : list DeadKeys) (level : nat)
    : option (list DeadKeys) :=
  match pk_deaths pk !! (run_id, level) with
  | Some value => block ← dead_decode value; Some (blocks ++ [block])
  | None => Some blocks
  end.
Definition read_blocks (pk : PackedStore) (run_id : N) : option (list DeadKeys) :=
  foldl (λ o level, blocks ← o; read_block pk run_id blocks level) (Some []) (seq 0 max_death_blocks).
Definition load_run_deaths (pk : PackedStore) (run_id : N) : option (option DeadKeys) :=
  read_blocks pk run_id ≫= merge_dead_blocks.

Definition is_dead (dead : option DeadKeys) (event_key : N) : bool :=
  match dead with Some keys => dead_contains keys event_key | None => false end.

(** ** Compacting runs *)

(** One dictionary entry of a source: dropped when dead, or given the next
    ordinal of the output. *)
Definition cohort_entry (dead : option DeadKeys) (d : DictionaryView)
    (acc : list (N * N) * list (option N)) (ordinal : nat) : option (list (N * N) * list (option N)) :=
  let '(entries, ordinal_map) := acc in
  '(event_key, id) ← dictionary_entry_at d ordinal;
  if is_dead dead event_key then Some (entries, ordinal_map ++ [None])
  else if match last entries with Some (prior, _) => (event_key <=? prior)%N | None => false end then None
  else
    output_ordinal ← u32_try (length entries);
    Some (entries ++ [(event_key, id)], ordinal_map ++ [Some output_ordinal]).

Definition cohort_source (pk : PackedStore) (acc : list (N * N) * list (list (option N)))
    (x : RunMeta * option DeadKeys) : option (list (N * N) * list (list (option N))) :=
  let '(entries, ordinal_maps) := acc in
  let '(meta, dead) := x in
  bytes ← pk_dictionaries pk !! rm_run_id meta;
  d ← dictionary_parse bytes ≫= dictionary_validate;
  '(entries, ordinal_map) ←
    foldl (λ o ordinal, acc ← o; cohort_entry dead d acc ordinal) (Some (entries, [])) (seq 0 (dv_count d));
  Some (entries, ordinal_maps ++ [ordinal_map]).

(** The segments of one family and shard, with the ordinal maps of their runs. *)
Definition segment_source (pk : PackedStore) (family : Family) (shard : N)
    (sources : list CompactionSegmentSource) (x : RunMeta * list (option N))
    : option (list CompactionSegmentSource) :=
  match pk_segments pk !! (family, shard, rm_run_id x.1) with
  | None => Some sources
  | Some value =>
      segment ← segment_parse value;
      Some (sources ++ [mkCompactionSegmentSource segment x.2])
  end.

Definition compact_family_shard `{ShardHash} (cohort : list (RunMeta * list (option N))) (run_id : N)
    (output_dictionary : DictionaryView) (acc : PackedStore * N) (x : Family * N)
    : option (PackedStore * N) :=
  let '(pk, postings) := acc in
  let '(family, shard) := x in
  sources ← foldl (λ o x, sources ← o; segment_source pk family shard sources x) (Some []) cohort;
  if decide (sources = []) then Some (pk, postings)
  else
    compacted ← compact_segment family shard sources output_dictionary;
    match compacted with
    | None => Some (pk, postings)
    | Some c =>
        Some (set_segments pk (<[(family, shard, run_id) := cg_value c]> (pk_segments pk)),
              N.min (postings + cg_postings c) u64_max)
    end.

Definition stream_compaction_cohort `{ShardHash} (pk : PackedStore) (cohort : list RunMeta)
    (dead : list (option DeadKeys)) : option (option (N * N * N * N) * PackedStore) :=
  if decide (length cohort ≠ length dead) then None
  else
    '(entries, ordinal_maps) ← foldl (λ o x, acc ← o; cohort_source pk acc x) (Some ([], [])) (zip cohort dead);
    match head entries, last entries with
    | Some (min_event_key, _), Some (max_event_key, _) =>
        dictionary ← encode_dictionary entries;
        '(run_id, pk) ← allocate_run_id pk;
        let pk := set_dictionaries pk (<[run_id := dictionary]> (pk_dictionaries pk)) in
        output_dictionary ← dictionary_parse dictionary;
        '(pk, postings) ←
          foldl (λ o x, acc ← o; compact_family_shard (zip cohort ordinal_maps) run_id output_dictionary acc x)
            (Some (pk, 0%N)) (all_families ≫= λ f, (λ s, (f, s)) <$> all_shards);
        if decide (postings = 0%N) then None
        else Some (Some (run_id, min_event_key, max_event_key, N.of_nat (length entries)), pk)
    | _, _ => Some (None, pk)
    end.

Definition compact_cohort `{ShardHash} (pk : PackedStore) (level : N) (cohort : list RunMeta)
    : option PackedStore :=
  if (level + 1 <=? 255)%N then
    dead ← mapM (λ meta, load_run_deaths pk (rm_run_id meta)) cohort;
    '(output, pk) ← stream_compaction_cohort pk cohort dead;
    let pk := foldl delete_run pk cohort in
    match output with
    | None => Some pk
    | Some (run_id, min_event_key, max_event_key, live_events) =>
        insert_run_catalog pk (mkRunMeta run_id (level + 1) min_event_key max_event_key live_events)
    end
  else None.

Definition min_key_le (m n : RunMeta) : Prop := (rm_min_event_key m ≤ rm_min_event_key n)%N.
#[global] Instance min_key_le_dec m n : Decision (min_key_le m n).
Proof. unfold min_key_le. apply _. Defined.

(** The two nested loops, one turn at a time: a level with too few runs is left
    for the next, or the loop ends; else its oldest runs are compacted. *)
Fixpoint compact_levels `{ShardHash} (fuel : nat) (pk : PackedStore) (level : N) : option PackedStore :=
  match fuel with
  | 0 => None
  | S fuel =>
      let fan_in := if decide (level = 0%N) then base_run_fan_in else large_run_fan_in in
      metas ← catalog_run_metas pk;
      let cohort := filter (λ m, rm_level m = level) metas in
      if length cohort <? fan_in then
        if existsb (λ m, (level <? rm_level m)%N) metas then
          if (level + 1 <=? 255)%N then compact_levels fuel pk (level + 1) else None
        else Some pk
      else
        pk ← compact_cohort pk level (take fan_in (merge_sort min_key_le cohort));
        compact_levels fuel pk level
  end.

(** A compaction leaves fewer runs, and there are 256 levels. *)
Definition compact_overfull_levels `{ShardHash} (pk : PackedStore) : option PackedStore :=
  compact_levels (size (pk_metas pk) + 257) pk 0.

Definition publish_pending `{ShardHash} (pk : PackedStore) (events : gmap N PendingEvent)
    : option PackedStore :=
  '(run_id, pk) ← allocate_run_id pk;
  encoded ← encode_run (memberships_for_pending events);
  min_event_key ← head (ordered_map events).*1;
  max_event_key ← last (ordered_map events).*1;
  pk ← insert_run pk (mkRunMeta run_id 0 min_event_key max_event_key (er_dictionary_entries encoded)) encoded;
  compact_overfull_levels pk.

(** ** Deaths *)

Definition rewrite_run_without_dead `{ShardHash} (pk : PackedStore) (old_meta : RunMeta) (dead : DeadKeys)
    : option PackedStore :=
  '(output, pk) ← stream_compaction_cohort pk [old_meta] [Some dead];
  '(run_id, min_event_key, max_event_key, live_events) ← output;
  insert_run_catalog (delete_run pk old_meta)
    (mkRunMeta run_id (rm_level old_meta) min_event_key max_event_key live_events).

(** The carry of a binary counter: each occupied level is merged and freed, the
    first free one takes the block. *)
Fixpoint carry_deaths (pk : PackedStore) (run_id : N) (levels : list nat) (carry : DeadKeys)
    : option (PackedStore * option DeadKeys) :=
  match levels with
  | [] => Some (pk, Some carry)
  | level :: levels =>
      match pk_deaths pk !! (run_id, level) with
      | Some value =>
          prior ← dead_decode value;
          let pk := set_deaths pk (delete (run_id, level) (pk_deaths pk)) in
          merged ← merge_dead_blocks [prior; carry];
          carry ← merged;
          carry_deaths pk run_id levels carry
      | None =>
          encoded ← dead_encode carry;
          Some (set_deaths pk (<[(run_id, level) := encoded]> (pk_deaths pk)), None)
      end
  end.

Definition set_live_events (m : RunMeta) (n : N) : RunMeta :=
  mkRunMeta (rm_run_id m) (rm_level m) (rm_min_event_key m) (rm_max_event_key m) n.

Definition apply_run_deaths `{ShardHash} (pk : PackedStore) (run_id : N) (keys : list N)
    : option PackedStore :=
  value ← pk_metas pk !! run_id;
  meta ← meta_decode value;
  dictionary_bytes ← pk_dictionaries pk !! run_id;
  d ← dictionary_parse dictionary_bytes;
  let total_events := N.of_nat (dv_count d) in
  existing_union ← load_run_deaths pk run_id;
  let fresh := filter (λ k, is_dead existing_union k = false) keys in
  let fresh := dedup (λ x y, bool_decide (x = y)) (merge_sort cmp_le fresh) in
  if decide (fresh = []) then Some pk
  else
    let existing_dead_count := match existing_union with Some dead => N.of_nat (length dead) | None => 0%N end in
    let total_dead := (existing_dead_count + N.of_nat (length fresh))%N in
    if (u64_max <? total_dead)%N then None
    else if (total_events <? total_dead)%N then None
    else
      let meta := set_live_events meta (total_events - total_dead) in
      if decide (rm_live_events meta = 0%N) then Some (delete_run pk meta)
      else
        carry ← dead_new fresh;
        '(pk, left_over) ← carry_deaths pk run_id (seq 0 max_death_blocks) carry;
        match left_over with
        | None =>
            encoded_meta ← meta_encode meta;
            Some (set_metas pk (<[run_id := encoded_meta]> (pk_metas pk)))
        | Some carry => rewrite_run_without_dead pk meta carry
        end.

(** The run whose range holds a key, if any. *)
Definition run_of_key (pk : PackedStore) (event_key : N) : option (option N) :=
  match last (filter (λ p, (p.1 ≤ event_key)%N) (ordered_map (pk_by_min pk))) with
  | None => Some None
  | Some (_, value) =>
      run_id ← decode_run_id value;
      row ← pk_metas pk !! run_id;
      meta ← meta_decode row;
      Some (if (event_key <=? rm_max_event_key meta)%N then Some run_id else None)
  end.

Definition group_death (pk : PackedStore) (by_run : gmap N (list N)) (event_key : N)
    : option (gmap N (list N)) :=
  run ← run_of_key pk event_key;
  Some (match run with
        | None => by_run
        | Some run_id => <[run_id := default [] (by_run !! run_id) ++ [event_key]]> by_run
        end).

Definition apply_deaths `{ShardHash} (pk : PackedStore) (deaths : gset N) : option PackedStore :=
  by_run ← foldl (λ o k, by_run ← o; group_death pk by_run k) (Some ∅) (ordered deaths);
  foldl (λ o p, pk ← o; apply_run_deaths pk p.1 p.2) (Some pk) (ordered_map by_run).

(** [PostingsBatch::flush]. *)
Definition flush `{ShardHash} (pk : PackedStore) (b : PostingsBatch) : option (PackedStore * PostingsBatch) :=
  pk ← (if decide (pb_deaths b = ∅) then Some pk else apply_deaths pk (pb_deaths b));
  pk ← (if decide (pb_additions b = ∅) then Some pk else publish_pending pk (pb_additions b));
  Some (pk, mkBatch ∅ ∅).

(** ** Scanning *)

Record PackedScan := mkPackedScan {
  ps_family : Family;
  ps_prefixes : list bytes;
  ps_since : N;
  ps_until : N;
  ps_before : option (N * N);
  ps_limit : option nat
}.

Definition scan_shards `{ShardHash} (scan : PackedScan) : gset N :=
  list_to_set (shard_for (ps_family scan) <$> ps_prefixes scan).

(** Whether a segment has one of the prefixes; every one is looked up. *)
Definition segment_matches (prefixes : list bytes) (segment : SegmentView) : option bool :=
  foldl (λ o prefix, matches ← o;
           found ← segment_prefix segment prefix;
           Some (matches || match found with Some _ => true | None => false end))
    (Some false) prefixes.

Definition candidate_segment `{ShardHash} (prefixes : list bytes) (d : DictionaryView)
    (run_segments : list bytes) (value : bytes) : option (list bytes) :=
  segment ← segment_parse value;
  _ ← segment_validate segment d;
  matches ← segment_matches prefixes segment;
  Some (if (matches : bool) then run_segments ++ [value] else run_segments).

(** What a scan has loaded of a run: its dictionary, the segments that match and
    its dead keys. *)
Record LoadedRun := mkLoadedRun {
  lr_dictionary : bytes;
  lr_segments : list bytes;
  lr_dead : option DeadKeys
}.

Definition load_run `{ShardHash} (pk : PackedStore) (scan : PackedScan) (loaded : list LoadedRun)
    (meta : RunMeta) : option (list LoadedRun) :=
  let candidates :=
    omap (λ shard, pk_segments pk !! (ps_family scan, shard, rm_run_id meta)) (ordered (scan_shards scan)) in
  if decide (candidates = []) then Some loaded
  else
    dictionary ← pk_dictionaries pk !! rm_run_id meta;
    d ← dictionary_parse dictionary ≫= validate_order;
    run_segments ←
      foldl (λ o value, run_segments ← o; candidate_segment (ps_prefixes scan) d run_segments value)
        (Some []) candidates;
    if decide (run_segments = []) then Some loaded
    else
      dead ← load_run_deaths pk (rm_run_id meta);
      Some (loaded ++ [mkLoadedRun dictionary run_segments dead]).

Record ScanSource := mkScanSource { ss_cursor : PostingCursor; ss_dead : option DeadKeys }.

Definition prefix_source (scan : PackedScan) (d : DictionaryView) (dead : option DeadKeys)
    (segment : SegmentView) (sources : list ScanSource) (prefix : bytes) : option (list ScanSource) :=
  found ← segment_prefix segment prefix;
  match found with
  | None => Some sources
  | Some l =>
      cursor ← posting_cursor l d (ps_before scan) (ps_since scan) (ps_until scan);
      Some (sources ++ [mkScanSource cursor dead])
  end.

Definition segment_sources (scan : PackedScan) (d : DictionaryView) (dead : option DeadKeys)
    (sources : list ScanSource) (value : bytes) : option (list ScanSource) :=
  segment ← segment_parse value;
  foldl (λ o prefix, sources ← o; prefix_source scan d dead segment sources prefix)
    (Some sources) (ps_prefixes scan).

Definition run_sources (scan : PackedScan) (sources : list ScanSource) (run : LoadedRun)
    : option (list ScanSource) :=
  d ← dictionary_parse (lr_dictionary run);
  foldl (λ o value, sources ← o; segment_sources scan d (lr_dead run) sources value)
    (Some sources) (lr_segments run).

Record ScanHead := mkScanHead { sh_event : RunEvent; sh_source : nat }.

(** [impl Ord for ScanHead]. *)
Definition scan_head_cmp (self other : ScanHead) : comparison :=
  then_with (cmp (re_created_at (sh_event self)) (re_created_at (sh_event other)))
    (then_with (cmp (re_id (sh_event other)) (re_id (sh_event self)))
       (then_with (cmp (re_event_key (sh_event other)) (re_event_key (sh_event self)))
          (cmp (sh_source other) (sh_source self)))).

(** The sources, the heap of their heads and the number of visits. *)
Record ScanState := mkScanState {
  st_sources : list ScanSource;
  st_heap : list ScanHead;
  st_visited : N
}.

(** The next live event of a source joins the heap. *)
Definition advance_source (st : ScanState) (source : nat) : option ScanState :=
  run ← st_sources st !! source;
  '(event, cursor) ← next_live (ss_dead run) (ss_cursor run);
  let sources := <[source := mkScanSource cursor (ss_dead run)]> (st_sources st) in
  Some (match event with
        | Some event => mkScanState sources (mkScanHead event source :: st_heap st) (st_visited st + 1)
        | None => mkScanState sources (st_heap st) (st_visited st)
        end).

(** Every turn takes a posting of a source. *)
Fixpoint scan_loop {T} (fuel : nat) (limit : option nat) (project : N → N → option (option T))
    (st : ScanState) (seen : gset N) (output : list T) : option (list T * N) :=
  match fuel with
  | 0 => None
  | S fuel =>
      match heap_pop scan_head_cmp (st_heap st) with
      | None => Some (output, st_visited st)
      | Some (head, heap) =>
          st ← advance_source (mkScanState (st_sources st) heap (st_visited st)) (sh_source head);
          let key := re_event_key (sh_event head) in
          if decide (key ∈ seen) then scan_loop fuel limit project st seen output
          else
            let seen := {[ key ]} ∪ seen in
            projected ← project key (re_id (sh_event head));
            match projected with
            | None => scan_loop fuel limit project st seen output
            | Some projected =>
                let output := output ++ [projected] in
                if decide (limit = Some (length output)) then Some (output, st_visited st)
                else scan_loop fuel limit project st seen output
            end
      end
  end.

Definition scan_fuel (sources : list ScanSource) : nat :=
  S (sum_list ((λ s, pl_posting_count (pc_list (ss_cursor s))) <$> sources)).

(** The rows projected, and how often [visited] was called.  [project] reads the
    transaction's snapshot. *)
Definition scan_packed `{ShardHash} {T} (pk : PackedStore) (scan : PackedScan)
    (project : N → N → option (option T)) : option (list T * N) :=
  if decide (ps_limit scan = Some 0) then Some ([], 0%N)
  else
    runs ← load_run_catalog pk;
    loaded ← foldl (λ o meta, loaded ← o; load_run pk scan loaded meta) (Some []) runs;
    sources ← foldl (λ o run, sources ← o; run_sources scan sources run) (Some []) loaded;
    st ← foldl (λ o source, st ← o; advance_source st source)
           (Some (mkScanState sources [] 0)) (seq 0 (length sources));
    scan_loop (scan_fuel sources) (ps_limit scan) project st ∅ [].
