(* ===== verification/PackedRep.v ===== *)
(** * What the packed tables hold

    The abstract state of the packed index: runs by id, each with the events it
    was written with and its blocks of dead keys.  [rep] relates it to the bytes
    of the tables; [packs] forgets the runs, and relates the tables to the map of
    live postings. *)

From S2P Require Import Prelude Grammar Schema QueueBytes Canonical Ingest Postings PostingsRead PostingsFormat PostingsRun PostingsCodec PackedStore.

(** ** Runs *)

(** [run_count] is the stored [live_events]. *)
Record Run := mkRun {
  run_level : N;
  run_count : N;
  run_events : gmap N PendingEvent;
  run_deaths : gmap nat (list N)
}.

Definition dead_set (r : Run) : gset N := list_to_set (concat (map_to_list (run_deaths r)).*2).
Definition run_live (r : Run) : gmap N PendingEvent :=
  filter (λ kp, kp.1 ∉ dead_set r) (run_events r).

Definition pending_entry (p : PendingEvent) : N * N := (pe_event_key p, from_be_bytes (pe_id p)).
Definition run_entries (r : Run) : list (N * N) := (λ kp, pending_entry kp.2) <$> ordered_map (run_events r).

Definition run_min (r : Run) : N := default 0%N (head (ordered_map (run_events r)).*1).
Definition run_max (r : Run) : N := default 0%N (last (ordered_map (run_events r)).*1).

Definition meta_of (id : N) (r : Run) : RunMeta :=
  mkRunMeta id (run_level r) (run_min r) (run_max r) (run_count r).

(** The prefixes an event is posted under. *)
Definition pending_prefixes (p : PendingEvent) : list (Family * bytes) :=
  [(FGlobal, []); (FAuthor, pe_author p); (FKind, pe_kind p)] ++ ((λ t, (FTag, t)) <$> ordered (pe_tags p)).

Definition run_posts (r : Run) (f : Family) (prefix : bytes) (e : RunEvent) : Prop :=
  ∃ k p, run_events r !! k = Some p ∧ (f, prefix) ∈ pending_prefixes p ∧ e = pending_run_event p.

(** The widths of an event's fields, and the key it is filed under. *)
Definition pending_typed (k : N) (p : PendingEvent) : Prop :=
  pe_event_key p = k ∧ (k ≤ u64_max ∧ pe_created_at p ≤ u64_max ∧ from_be_bytes (pe_id p) < 2 ^ 256)%N.

Definition pending_id (p : PendingEvent) : N := from_be_bytes (pe_id p).

(** No id is under two keys. *)
Definition unique_ids (m : gmap N PendingEvent) : Prop :=
  ∀ k k' p p', m !! k = Some p → m !! k' = Some p' → pending_id p = pending_id p' → k = k'.

Record run_ok (r : Run) : Prop := {
  ro_typed k p : run_events r !! k = Some p → pending_typed k p;
  ro_ids : unique_ids (run_events r);
  ro_level : (run_level r ≤ 255)%N;
  ro_deaths l ks : run_deaths r !! l = Some ks →
    l < max_death_blocks ∧ ks ≠ [] ∧ StronglySorted N.lt ks ∧ ∀ k, k ∈ ks → is_Some (run_events r !! k)
}.

(** ** The tables *)

Section rep.
Context `{ShardHash}.

Record rep (pk : PackedStore) (R : gmap N Run) : Prop := {
  rep_run id r : R !! id = Some r → run_ok r;
  rep_id id r : R !! id = Some r → (id ≤ u64_max)%N;
  rep_next : match pk_next_run_id pk with
             | None => R = ∅
             | Some next => (0 < next ≤ u64_max)%N ∧ ∀ id r, R !! id = Some r → (id < next)%N
             end;
  rep_metas id : Some <$> pk_metas pk !! id = (λ r, meta_encode (meta_of id r)) <$> R !! id;
  rep_dictionaries id : dictionary_parse <$> pk_dictionaries pk !! id =
                        (λ r, Some (dictionary_view (run_entries r))) <$> R !! id;
  rep_by_min k v : pk_by_min pk !! k = Some v ↔ ∃ id r, R !! id = Some r ∧ run_min r = k ∧ v = be_bytes 8 id;
  rep_deaths id l : dead_decode <$> pk_deaths pk !! (id, l) = Some <$> (R !! id ≫= λ r, run_deaths r !! l);
  rep_segments f s id v : pk_segments pk !! (f, s, id) = Some v →
    (s ≤ shard_mask)%N ∧ ∃ r, R !! id = Some r ∧ segment_holds f s v (dictionary_view (run_entries r)) (run_posts r f);
  rep_posted id r f prefix e : R !! id = Some r → run_posts r f prefix e →
    is_Some (pk_segments pk !! (f, shard_for f prefix, id));
  rep_ranges id id' r r' : R !! id = Some r → R !! id' = Some r' → id ≠ id' →
    (run_max r < run_min r')%N ∨ (run_max r' < run_min r)%N;
  rep_levels id id' r r' : R !! id = Some r → R !! id' = Some r' →
    (run_max r < run_min r')%N → (run_level r' ≤ run_level r)%N
}.

Definition runs_live (R : gmap N Run) (k : N) (p : PendingEvent) : Prop :=
  ∃ id r, R !! id = Some r ∧ run_live r !! k = Some p.

(** The stored counts are those of the live events. *)
Definition counted (R : gmap N Run) : Prop :=
  ∀ id r, R !! id = Some r → run_count r = N.of_nat (size (run_live r)).

(** Every run's keys are below [next]. *)
Definition runs_below (R : gmap N Run) (next : N) : Prop :=
  ∀ id r, R !! id = Some r → (run_max r < next)%N.

(** The tables hold exactly these live postings, of keys below [next]. *)
Definition packs (pk : PackedStore) (next : N) (live : gmap N PendingEvent) : Prop :=
  unique_ids live ∧
  ∃ R, rep pk R ∧ counted R ∧ runs_below R next ∧ ∀ k p, live !! k = Some p ↔ runs_live R k p.
End rep.

(** ** Facts about runs *)

Lemma elem_of_dead_set r k : k ∈ dead_set r ↔ ∃ l ks, run_deaths r !! l = Some ks ∧ k ∈ ks.
Proof.
  unfold dead_set. rewrite elem_of_list_to_set, elem_of_concat. split.
  - intros (ks & Hk & Hks). apply list_elem_of_fmap in Hks as ([l ks'] & -> & Hl%elem_of_map_to_list). eauto.
  - intros (l & ks & Hl & Hk). exists ks. split; [done|]. apply list_elem_of_fmap. exists (l, ks).
    by rewrite elem_of_map_to_list.
Qed.

Lemma run_live_Some r k p : run_live r !! k = Some p ↔ run_events r !! k = Some p ∧ k ∉ dead_set r.
Proof. unfold run_live. by rewrite map_lookup_filter_Some. Qed.

Lemma ordered_keys_sorted {V} (m : gmap N V) : StronglySorted N.lt (ordered_map m).*1.
Proof.
  apply StronglySorted_of_at. intros i j x y Hij Hx Hy.
  rewrite list_lookup_fmap in Hx, Hy. apply fmap_Some in Hx as ([k v] & Hx & ->), Hy as ([k' v'] & Hy & ->).
  assert (Hle : key_le (k, v) (k', v')) by (eapply StronglySorted_at; [apply Sorted_ordered_map|..]; eauto).
  unfold key_le in Hle. apply cmp_le_lt_eq in Hle as [Hlt|Heq]; [by apply N.compare_lt_iff|]. simpl in Heq. subst k'.
  assert (i = j); [|lia]. apply (NoDup_lookup (ordered_map m).*1 i j k).
  - apply NoDup_ordered_map_fst.
  - by rewrite list_lookup_fmap, Hx.
  - by rewrite list_lookup_fmap, Hy.
Qed.

Lemma sorted_head_le l m k : StronglySorted N.lt l → head l = Some m → k ∈ l → (m ≤ k)%N.
Proof.
  intros Hs Hh Hk. destruct l as [|x l]; [done|]. simpl in Hh. injection Hh as <-.
  apply StronglySorted_inv in Hs as [_ Hs]. rewrite Forall_forall in Hs.
  apply elem_of_cons in Hk as [->|Hk]; [done|]. apply Hs in Hk. lia.
Qed.

Lemma head_elem {A} (l : list A) x : head l = Some x → x ∈ l.
Proof. destruct l; [done|]. intros [= ->]. left. Qed.
Lemma last_elem {A} (l : list A) x : last l = Some x → x ∈ l.
Proof. intros Hl. apply list_elem_of_lookup. eexists. by rewrite <-last_lookup. Qed.

Section run_bounds.
Context (r : Run) (Hr : run_events r ≠ ∅).

Lemma run_min_spec : head (ordered_map (run_events r)).*1 = Some (run_min r) ∧ is_Some (run_events r !! run_min r).
Proof using Hr.
  assert (Hh : is_Some (head (ordered_map (run_events r)).*1)).
  { destruct (ordered_map (run_events r)) as [|x l] eqn:E; [|by eexists].
    exfalso. apply Hr, map_size_empty_inv. by rewrite <-length_ordered_map, E. }
  destruct Hh as [m Hm]. unfold run_min. rewrite Hm. split; [done|].
  by apply elem_of_ordered_map_fst, head_elem.
Qed.

Lemma run_max_spec : last (ordered_map (run_events r)).*1 = Some (run_max r) ∧ is_Some (run_events r !! run_max r).
Proof using Hr.
  assert (Hh : is_Some (last (ordered_map (run_events r)).*1)).
  { rewrite fmap_last. destruct (last (ordered_map (run_events r))) as [x|] eqn:E; [by eexists|].
    exfalso. apply Hr, map_size_empty_inv. apply last_None in E. by rewrite <-length_ordered_map, E. }
  destruct Hh as [m Hm]. unfold run_max. rewrite Hm. split; [done|].
  by apply elem_of_ordered_map_fst, last_elem.
Qed.

Lemma run_bounds k p : run_events r !! k = Some p → (run_min r ≤ k ≤ run_max r)%N.
Proof using Hr.
  intros Hk. assert (Hin : k ∈ (ordered_map (run_events r)).*1) by (apply elem_of_ordered_map_fst; eauto).
  pose proof (ordered_keys_sorted (run_events r)) as Hs. split.
  - eapply sorted_head_le; [done|apply run_min_spec|done].
  - destruct (StronglySorted_last _ _ _ _ Hs (proj1 run_max_spec) Hin) as [->|?]; lia.
Qed.
End run_bounds.

Lemma run_entries_elem r k id :
  (∀ k p, run_events r !! k = Some p → pending_typed k p) →
  (k, id) ∈ run_entries r ↔ ∃ p, run_events r !! k = Some p ∧ pending_id p = id.
Proof.
  intros Ht. unfold run_entries. rewrite list_elem_of_fmap. split.
  - intros ([k' p] & [= -> ->] & Hp%elem_of_ordered_map). exists p. destruct (Ht _ _ Hp) as [-> _]. done.
  - intros (p & Hp & <-). exists (k, p). rewrite elem_of_ordered_map. split; [|done].
    destruct (Ht _ _ Hp) as [E _]. unfold pending_entry. simpl. by rewrite E.
Qed.

Section run_facts.
Context (r : Run) (Hok : run_ok r).

Lemma run_entries_keys : (run_entries r).*1 = (ordered_map (run_events r)).*1.
Proof using Hok.
  unfold run_entries. rewrite <-list_fmap_compose. apply list_fmap_ext. intros i [k p] Hi. simpl.
  apply (ro_typed _ Hok). by eapply elem_of_ordered_map, list_elem_of_lookup_2.
Qed.

Lemma run_entries_sorted : StronglySorted entry_lt (run_entries r).
Proof using Hok.
  apply StronglySorted_of_at. intros i j x y Hij Hx Hy. unfold entry_lt.
  eapply (StronglySorted_at N.lt (run_entries r).*1 i j); [|done|by rewrite list_lookup_fmap, Hx|by rewrite list_lookup_fmap, Hy].
  rewrite run_entries_keys. apply ordered_keys_sorted.
Qed.

Lemma run_entries_typed : Forall entry_typed (run_entries r).
Proof using Hok.
  apply Forall_forall. intros [k id] (p & Hp & <-)%run_entries_elem; [|apply Hok].
  apply (ro_typed _ Hok) in Hp as (_ & ? & _ & ?). done.
Qed.

Lemma run_entries_ids : NoDup (run_entries r).*2.
Proof using Hok.
  apply NoDup_alt. intros i j x Hx Hy. rewrite list_lookup_fmap in Hx, Hy.
  apply fmap_Some in Hx as ([k id] & Hx & ->), Hy as ([k' id'] & Hy & E). simpl in E. subst id'.
  assert (k = k') as ->.
  { pose proof (list_elem_of_lookup_2 _ _ _ Hx) as (p & Hp & E)%run_entries_elem; [|apply Hok].
    pose proof (list_elem_of_lookup_2 _ _ _ Hy) as (p' & Hp' & E')%run_entries_elem; [|apply Hok].
    eapply (ro_ids _ Hok); [done|done|]. congruence. }
  apply (NoDup_lookup (run_entries r).*1 i j k').
  - rewrite run_entries_keys. apply NoDup_ordered_map_fst.
  - by rewrite list_lookup_fmap, Hx.
  - by rewrite list_lookup_fmap, Hy.
Qed.

Lemma run_dictionary : dictionary_of (dictionary_view (run_entries r)) (run_entries r).
Proof using Hok. apply dictionary_view_of, run_entries_typed. Qed.

Lemma length_run_entries : length (run_entries r) = size (run_events r).
Proof. unfold run_entries. by rewrite length_fmap, length_ordered_map. Qed.

Lemma dead_set_events k : k ∈ dead_set r → is_Some (run_events r !! k).
Proof using Hok. intros (l & ks & Hl & Hk)%elem_of_dead_set. by eapply (ro_deaths _ Hok). Qed.
End run_facts.

(** ** Reading the catalog *)

(** Two maps with the same keys list them alike. *)
Lemma ordered_map_keys {V W} (m : gmap N V) (m' : gmap N W) :
  (∀ k, is_Some (m !! k) ↔ is_Some (m' !! k)) → (ordered_map m).*1 = (ordered_map m').*1.
Proof.
  intros Hdom. assert (Hp : (ordered_map m).*1 ≡ₚ (ordered_map m').*1).
  { apply NoDup_Permutation; [apply NoDup_ordered_map_fst..|]. intros k. by rewrite !elem_of_ordered_map_fst. }
  apply (StronglySorted_unique N.le); [..|done];
    (eapply StronglySorted_weaken, ordered_keys_sorted; intros; lia).
Qed.

Lemma mapM_ordered_map {V W X} (g : N * V → option X) (h : N → W → X) (m : gmap N V) (m' : gmap N W) :
  (∀ k, (λ v, g (k, v)) <$> m !! k = (λ w, Some (h k w)) <$> m' !! k) →
  mapM g (ordered_map m) = Some ((λ kw, h kw.1 kw.2) <$> ordered_map m').
Proof.
  intros Hg. apply mapM_Some_2. apply Forall2_fmap_r, Forall2_same_length_lookup_2.
  { assert (Hk : (ordered_map m).*1 = (ordered_map m').*1).
    { apply ordered_map_keys. intros k. specialize (Hg k). destruct (m !! k), (m' !! k); naive_solver. }
    by rewrite <-(length_fmap fst), Hk, length_fmap. }
  intros i [k v] [k' w] Hv Hw. assert (k = k') as <-.
  { assert (Hk : (ordered_map m).*1 = (ordered_map m').*1).
    { apply ordered_map_keys. intros k0. specialize (Hg k0). destruct (m !! k0), (m' !! k0); naive_solver. }
    apply (f_equal (lookup i)) in Hk. rewrite !list_lookup_fmap, Hv, Hw in Hk. by injection Hk. }
  specialize (Hg k).
  rewrite (proj1 (elem_of_ordered_map m k v)) in Hg by (by eapply list_elem_of_lookup_2).
  rewrite (proj1 (elem_of_ordered_map m' k w)) in Hg by (by eapply list_elem_of_lookup_2).
  simpl in *. congruence.
Qed.

Section catalog.
Context `{ShardHash} (pk : PackedStore) (R : gmap N Run) (Hrep : rep pk R).

Lemma rep_encoded id r : R !! id = Some r → ∃ v, pk_metas pk !! id = Some v ∧ meta_encode (meta_of id r) = Some v.
Proof using Hrep.
  intros Hr. pose proof (rep_metas _ _ Hrep id) as Hm. rewrite Hr in Hm.
  destruct (pk_metas pk !! id) as [v|]; [|done]. exists v. split; [done|]. by injection Hm.
Qed.

Lemma rep_meta_ok id r : R !! id = Some r → meta_ok (meta_of id r).
Proof using Hrep. intros (v & _ & Hv)%rep_encoded. apply meta_encode_ok. eauto. Qed.

Lemma rep_events id r : R !! id = Some r → run_events r ≠ ∅.
Proof using Hrep.
  intros [[Hm _] _]%rep_meta_ok E. simpl in Hm. unfold run_min in Hm. rewrite E in Hm. by vm_compute in Hm.
Qed.

Lemma rep_meta_typed id r : R !! id = Some r → meta_typed (meta_of id r).
Proof using Hrep.
  intros Hr. pose proof (rep_events id r Hr) as He. pose proof (rep_run _ _ Hrep _ _ Hr) as Hok.
  pose proof (rep_meta_ok id r Hr) as [[Hlo _] [_ Hcount]]. simpl in Hlo, Hcount.
  destruct (run_min_spec r He) as [_ [p Hp]], (run_max_spec r He) as [_ [p' Hp']].
  apply (ro_typed _ Hok) in Hp as (_ & ? & _), Hp' as (_ & ? & _).
  split_and!; simpl; try done; [by eapply rep_id|apply Hok|lia].
Qed.

Lemma rep_decode id r v : R !! id = Some r → pk_metas pk !! id = Some v → meta_decode v = Some (meta_of id r).
Proof using Hrep.
  intros Hr Hv. destruct (rep_encoded id r Hr) as (v' & Hv' & He). assert (v' = v) as -> by congruence.
  apply meta_roundtrip; [by apply rep_meta_typed|done].
Qed.

Definition catalog_metas : list RunMeta := (λ x, meta_of x.1 x.2) <$> ordered_map R.

Lemma elem_of_catalog m : m ∈ catalog_metas ↔ ∃ id r, R !! id = Some r ∧ m = meta_of id r.
Proof.
  unfold catalog_metas. rewrite list_elem_of_fmap. split.
  - intros ([id r] & -> & Hr%elem_of_ordered_map). eauto.
  - intros (id & r & Hr & ->). exists (id, r). by rewrite elem_of_ordered_map.
Qed.

Lemma catalog_run_metas_spec : catalog_run_metas pk = Some catalog_metas.
Proof using Hrep.
  apply mapM_ordered_map. intros id. destruct (R !! id) as [r|] eqn:Hr.
  - destruct (rep_encoded id r Hr) as (v & Hv & He). rewrite Hv. simpl. f_equal.
    unfold decode_meta_row. simpl. rewrite (rep_decode id r v Hr Hv). simpl. by rewrite decide_False by (intros Hn; by apply Hn).
  - pose proof (rep_metas _ _ Hrep id) as Hm. rewrite Hr in Hm. by destruct (pk_metas pk !! id).
Qed.

Lemma catalog_ids : NoDup (rm_run_id <$> catalog_metas).
Proof.
  unfold catalog_metas. rewrite <-list_fmap_compose. apply (NoDup_ordered_map_fst R).
Qed.

Lemma validate_catalog : validate_run_metas catalog_metas = Some tt.
Proof using Hrep.
  apply validate_run_metas_spec. split_and!.
  - apply Forall_forall. intros m (id & r & Hr & ->)%elem_of_catalog. by apply rep_meta_ok.
  - apply catalog_ids.
  - intros m n (id & r & Hr & ->)%elem_of_catalog (id' & r' & Hr' & ->)%elem_of_catalog Hne.
    apply (rep_ranges _ _ Hrep id id' r r' Hr Hr' Hne).
Qed.

Lemma run_min_inj id id' r r' : R !! id = Some r → R !! id' = Some r' → run_min r = run_min r' → id = id'.
Proof using Hrep.
  intros Hr Hr' Hm. destruct (decide (id = id')) as [|Hne]; [done|].
  destruct (rep_meta_ok id r Hr) as [[_ ?] _], (rep_meta_ok id' r' Hr') as [[_ ?] _]; simpl in *.
  destruct (rep_ranges _ _ Hrep id id' r r' Hr Hr' Hne); lia.
Qed.

Lemma size_by_min : size (pk_by_min pk) = length catalog_metas.
Proof using Hrep.
  assert (Hp : (map_to_list (pk_by_min pk)).*1 ≡ₚ rm_min_event_key <$> catalog_metas).
  { apply NoDup_Permutation; [apply NoDup_fst_map_to_list| |].
    - unfold catalog_metas. rewrite <-list_fmap_compose. apply NoDup_fmap_2_strong; [|apply NoDup_fmap_1 with fst, NoDup_ordered_map_fst].
      intros [id r] [id' r'] Hr%elem_of_ordered_map Hr'%elem_of_ordered_map Hm. simpl in Hm.
      assert (id = id') as -> by (by eapply run_min_inj). congruence.
    - intros k. rewrite !list_elem_of_fmap. split.
      + intros ([k' v] & -> & Hv%elem_of_map_to_list). apply (rep_by_min _ _ Hrep) in Hv as (id & r & Hr & <- & _).
        exists (meta_of id r). split; [done|]. apply elem_of_catalog. eauto.
      + intros (m & -> & (id & r & Hr & ->)%elem_of_catalog). exists (run_min r, be_bytes 8 id). split; [done|].
        apply elem_of_map_to_list, (rep_by_min _ _ Hrep). eauto. }
  apply Permutation_length in Hp. rewrite !length_fmap in Hp. by rewrite <-Hp, length_map_to_list.
Qed.

Lemma decode_run_id_be id : (id ≤ u64_max)%N → decode_run_id (be_bytes 8 id) = Some id.
Proof.
  intros Hid. unfold decode_run_id. rewrite decide_True by apply length_be_bytes.
  f_equal. apply from_to_be_bytes. by apply u64_pow.
Qed.

Lemma load_run_catalog_spec : load_run_catalog pk = Some catalog_metas.
Proof using Hrep.
  unfold load_run_catalog. rewrite catalog_run_metas_spec. simpl. rewrite validate_catalog. simpl.
  rewrite decide_False by (rewrite size_by_min; lia).
  assert (Hm : is_Some (mapM (check_range_entry pk) catalog_metas)).
  { apply mapM_is_Some_2, Forall_forall. intros m (id & r & Hr & ->)%elem_of_catalog.
    unfold compose, check_range_entry. change (rm_min_event_key (meta_of id r)) with (run_min r).
    assert (Hb : pk_by_min pk !! run_min r = Some (be_bytes 8 id)) by (apply (rep_by_min _ _ Hrep); eauto).
    rewrite Hb. cbn [mbind option_bind]. rewrite decode_run_id_be by (by eapply rep_id). cbn [mbind option_bind].
    rewrite decide_False by (intros Hn; by apply Hn). by eexists. }
  destruct Hm as [us ->]. done.
Qed.
End catalog.

(** ** Reading the deaths *)

Lemma is_dead_spec dead k : dead_sorted dead → is_dead dead k = false ↔ key_alive dead k.
Proof.
  intros Hs. destruct dead as [keys|]; [|done]. simpl. rewrite <-not_true_iff_false.
  by rewrite dead_contains_spec.
Qed.

Lemma sorted_keys_size (keys : list N) (X : gset N) :
  StronglySorted N.lt keys → (∀ k, k ∈ keys ↔ k ∈ X) → length keys = size X.
Proof.
  intros Hs Hk. assert (Hnd : NoDup keys).
  { apply NoDup_alt. intros i j x Hi Hj. destruct (Nat.lt_trichotomy i j) as [Hij|[->|Hij]]; [|done|].
    - pose proof (StronglySorted_at _ _ _ _ _ _ Hs Hij Hi Hj). lia.
    - pose proof (StronglySorted_at _ _ _ _ _ _ Hs Hij Hj Hi). lia. }
  assert (X = list_to_set keys) as -> by (apply set_eq; intros k; by rewrite elem_of_list_to_set, Hk).
  by rewrite size_list_to_set.
Qed.

Lemma length_omap_le {A B} (f : A → option B) l : length (omap f l) ≤ length l.
Proof. induction l as [|x l IH]; [done|]. cbn. destruct (f x); cbn in *; [by apply le_n_S|by apply Nat.le_le_succ_r]. Qed.

Section deaths.
Context `{ShardHash} (pk : PackedStore) (R : gmap N Run) (Hrep : rep pk R).

Lemma read_blocks_spec id r :
  R !! id = Some r → read_blocks pk id = Some (omap (λ l, run_deaths r !! l) (seq 0 max_death_blocks)).
Proof using Hrep.
  intros Hr. unfold read_blocks.
  destruct (foldl_option_ind (read_block pk id) (λ pre bs, bs = omap (λ l, run_deaths r !! l) pre)
    (seq 0 max_death_blocks) []) as (bs & -> & ->); [done| |done].
  intros pre l post bs _ ->. exists (omap (λ l, run_deaths r !! l) (pre ++ [l])). split; [|done].
  rewrite omap_app. unfold read_block. pose proof (rep_deaths _ _ Hrep id l) as Hd. rewrite Hr in Hd. simpl in Hd.
  destruct (pk_deaths pk !! (id, l)) as [v|], (run_deaths r !! l) as [ks|] eqn:El; try done; simpl; rewrite El.
  - simpl in Hd. injection Hd as ->. done.
  - by rewrite app_nil_r.
Qed.

Lemma load_run_deaths_spec id r :
  R !! id = Some r →
  ∃ dead, load_run_deaths pk id = Some dead ∧ dead_sorted dead ∧ (∀ k, key_alive dead k ↔ k ∉ dead_set r).
Proof using Hrep.
  intros Hr. unfold load_run_deaths. rewrite (read_blocks_spec id r Hr). cbn [mbind option_bind].
  destruct (merge_dead_blocks_spec (omap (λ l, run_deaths r !! l) (seq 0 max_death_blocks))) as (dead & -> & Hs & Hd & _).
  { by rewrite length_omap_le, length_seq. }
  exists dead. split_and!; [done..|]. intros k. rewrite Hd, elem_of_dead_set. split.
  - intros Hn (l & ks & Hl & Hk). apply (Hn ks); [|done]. apply list_elem_of_omap. exists l. split; [|done].
    apply elem_of_seq. apply (ro_deaths _ (rep_run _ _ Hrep _ _ Hr)) in Hl. lia.
  - intros Hn ks (l & _ & Hl)%list_elem_of_omap Hk. eauto.
Qed.
End deaths.
