(* ===== verification/ScanCorrect.v ===== *)
(** * Scanning the packed index

    A scan of tables that hold a map of live postings returns what a scan of the
    map returns: the live events posted under one of the prefixes, within the
    bounds of time and before the cursor, newest first, each once, projected
    until the limit is reached.  It always returns, unless the projection fails. *)

From S2P Require Import Prelude Grammar Schema QueueBytes Canonical Ingest Postings PostingsRead PostingsFormat PostingsRun Compaction HeapMerge PostingsCodec PackedStore PackedRep.

(** ** What a scan of a map returns *)

Definition scan_wanted (scan : PackedScan) (p : PendingEvent) : Prop :=
  Exists (λ prefix, (ps_family scan, prefix) ∈ pending_prefixes p) (ps_prefixes scan) ∧
  cursor_admits (ps_before scan) (ps_since scan) (ps_until scan) (pending_run_event p).
#[global] Instance scan_wanted_dec scan p : Decision (scan_wanted scan p).
Proof. unfold scan_wanted. apply _. Defined.

Definition scan_matches (live : gmap N PendingEvent) (scan : PackedScan) : list RunEvent :=
  merge_sort cmp_le (pending_run_event <$> filter (scan_wanted scan) (map_to_list live).*2).

(** The rows the projection lets through, up to the limit. *)
Fixpoint first_visible {T} (project : N → N → option (option T)) (limit : option nat)
    (evs : list RunEvent) : option (list T) :=
  match limit, evs with
  | Some 0, _ | _, [] => Some []
  | _, e :: evs =>
      projected ← project (re_event_key e) (re_id e);
      match projected with
      | None => first_visible project limit evs
      | Some x => rest ← first_visible project (pred <$> limit) evs; Some (x :: rest)
      end
  end.

Lemma first_visible_full {T} (project : N → N → option (option T)) evs :
  first_visible project (Some 0) evs = Some [].
Proof. by destruct evs. Qed.

Lemma first_visible_nil {T} (project : N → N → option (option T)) limit :
  first_visible project limit [] = Some [].
Proof. by destruct limit as [[]|]. Qed.

Lemma first_visible_cons {T} (project : N → N → option (option T)) limit e evs :
  limit ≠ Some 0 →
  first_visible project limit (e :: evs) =
  projected ← project (re_event_key e) (re_id e);
  match projected with
  | None => first_visible project limit evs
  | Some x => rest ← first_visible project (pred <$> limit) evs; Some (x :: rest)
  end.
Proof. by destruct limit as [[]|]. Qed.

(** ** The sources of a scan *)

(** A source has yet to give the events [evs]. *)
Definition source_ok (s : ScanSource) (evs : list RunEvent) : Prop :=
  ∃ l d all, list_of l d all ∧ StronglySorted cmp_lt all ∧ dead_sorted (ss_dead s) ∧
    pc_list (ss_cursor s) = l ∧ pc_dictionary (ss_cursor s) = d ∧ remaining all (ss_dead s) (ss_cursor s) = evs.

(** The events of the sources are within [S], and all of [C]. *)
Definition gives (S C : RunEvent → Prop) (new : list ScanSource) : Prop :=
  ∃ rests, Forall2 source_ok new rests ∧ (∀ e, e ∈ concat rests → S e) ∧ ∀ e, C e → e ∈ concat rests.

(** A loop that appends sources. *)
Lemma append_loop {X} (f : list ScanSource → X → option (list ScanSource)) (S C : X → RunEvent → Prop) l acc :
  (∀ acc x, x ∈ l → ∃ new, f acc x = Some (acc ++ new) ∧ gives (S x) (C x) new) →
  ∃ new, foldl (λ o x, acc ← o; f acc x) (Some acc) l = Some (acc ++ new) ∧
    gives (λ e, ∃ x, x ∈ l ∧ S x e) (λ e, ∃ x, x ∈ l ∧ C x e) new.
Proof.
  intros Hf. revert acc. induction l as [|x l IH]; intros acc.
  - exists []. rewrite app_nil_r. split; [done|]. exists []. split_and!; [constructor| |].
    + by intros e ?%not_elem_of_nil.
    + by intros e (x & ?%not_elem_of_nil & _).
  - destruct (Hf acc x) as (new & Hx & rests & Hok & HS & HC); [left|]. cbn [foldl mbind option_bind]. rewrite Hx.
    destruct (IH (λ acc y Hy, Hf acc y (list_elem_of_further _ _ _ Hy)) (acc ++ new))
      as (new' & -> & rests' & Hok' & HS' & HC').
    exists (new ++ new'). rewrite app_assoc. split; [done|]. exists (rests ++ rests').
    split_and!; [by apply Forall2_app|..]; intros e; rewrite concat_app, elem_of_app; setoid_rewrite elem_of_cons;
      naive_solver.
Qed.

Section scan.
Context `{ShardHash} (scan : PackedScan).

Abbreviation fam := (ps_family scan).

Definition run_wants (r : Run) (e : RunEvent) : Prop :=
  ∃ k p, run_live r !! k = Some p ∧ scan_wanted scan p ∧ e = pending_run_event p.

Lemma run_posts_alive r e :
  run_ok r →
  run_wants r e ↔ ∃ prefix, prefix ∈ ps_prefixes scan ∧ run_posts r fam prefix e ∧ (re_event_key e ∉ dead_set r) ∧
    cursor_admits (ps_before scan) (ps_since scan) (ps_until scan) e.
Proof.
  intros Hok. split.
  - intros (k & p & [Hp Hd]%run_live_Some & [(px & Hpx & Hin)%Exists_exists Hadm] & ->). exists px.
    split; [done|]. split; [by exists k, p|]. split; [|done]. destruct (ro_typed _ Hok _ _ Hp) as [E _].
    simpl. by rewrite E.
  - intros (px & Hpx & (k & p & Hp & Hin & ->) & Hd & Hadm). destruct (ro_typed _ Hok _ _ Hp) as [E _].
    exists k, p. rewrite run_live_Some. simpl in Hd. rewrite E in Hd. split; [done|]. split; [|done].
    split; [|done]. apply Exists_exists. eauto.
Qed.

Lemma run_posts_ids r f prefix evs :
  run_ok r → StronglySorted cmp_lt evs → (∀ e, e ∈ evs → run_posts r f prefix e) →
  NoDup (re_id <$> evs) ∧ Forall (λ e, re_created_at e ≤ u64_max)%N evs.
Proof.
  intros Hok Hs Hev. split.
  - apply NoDup_fmap_2_strong.
    + intros e e' (k & p & Hp & _ & ->)%Hev (k' & p' & Hp' & _ & ->)%Hev E. simpl in E.
      assert (k = k') as -> by (by eapply (ro_ids _ Hok)). congruence.
    + apply NoDup_alt. intros i j x Hi Hj. destruct (Nat.lt_trichotomy i j) as [Hij|[->|Hij]]; [|done|].
      * by pose proof (StronglySorted_at _ _ _ _ _ _ Hs Hij Hi Hj) as ?%cmp_lt_irrefl.
      * by pose proof (StronglySorted_at _ _ _ _ _ _ Hs Hij Hj Hi) as ?%cmp_lt_irrefl.
  - apply Forall_forall. intros e (k & p & Hp & _ & ->)%Hev. by apply (ro_typed _ Hok) in Hp as (_ & _ & ? & _).
Qed.

(** ** One segment *)

Section segment.
Context (r : Run) (Hok : run_ok r) (s : N) (value : bytes).
Abbreviation d := (dictionary_view (run_entries r)).
Context (Hholds : segment_holds fam s value d (run_posts r fam)).

Lemma segment_matches_spec view content :
  segment_of view d content → sorted_content content →
  ∃ b, segment_matches (ps_prefixes scan) view = Some b ∧
    (b = true ↔ ∃ prefix, prefix ∈ ps_prefixes scan ∧ prefix ∈ content.*1).
Proof.
  clear Hok Hholds. intros Hof [Hsorted _]. unfold segment_matches.
  destruct (foldl_option_ind (λ (b : bool) prefix, found ← segment_prefix view prefix;
      Some (b || match found with Some _ => true | None => false end))
    (λ pre b, b = true ↔ ∃ prefix, prefix ∈ pre ∧ prefix ∈ content.*1) (ps_prefixes scan) false)
    as (b & Hb & Hm); [| |by exists b].
  { split; [done|]. by intros (? & ?%not_elem_of_nil & _). }
  intros pre prefix post b _ Hb. pose proof (segment_prefix_spec view d content prefix Hof Hsorted) as Hp.
  destruct (segment_prefix view prefix) as [[l|]|]; [| |done]; simpl; eexists; (split; [done|]).
  - destruct Hp as (evs & Hin & _). rewrite orb_true_r. split; [intros _|done]. exists prefix. split; [set_solver|].
    apply list_elem_of_fmap. by exists (prefix, evs).
  - rewrite orb_false_r, Hb. setoid_rewrite elem_of_app. setoid_rewrite list_elem_of_singleton. naive_solver.
Qed.

Lemma candidate_segment_spec acc :
  ∃ b : bool, candidate_segment (ps_prefixes scan) d acc value = Some (if b then acc ++ [value] else acc) ∧
    (b = false → ∀ prefix e, prefix ∈ ps_prefixes scan → run_posts r fam prefix e → shard_for fam prefix ≠ s).
Proof using Hholds.
  destruct Hholds as (view & content & Hparse & _ & _ & [n Hval] & Hof & Hsorted & _ & Hall).
  destruct (segment_matches_spec view content Hof Hsorted) as (b & Hb & Hiff).
  exists b. unfold candidate_segment. rewrite Hparse. cbn [mbind option_bind]. rewrite Hval. cbn [mbind option_bind].
  rewrite Hb. split; [done|]. intros -> prefix e Hpx Hpost Hsh.
  assert (false = true) by (apply Hiff; exists prefix; split; [done|by eapply Hall]). done.
Qed.

Context (dead : option DeadKeys) (Hdead : dead_sorted dead) (Halive : ∀ k, key_alive dead k ↔ k ∉ dead_set r).

Definition prefix_wants (prefix : bytes) (e : RunEvent) : Prop :=
  run_posts r fam prefix e ∧ (re_event_key e ∉ dead_set r) ∧
  cursor_admits (ps_before scan) (ps_since scan) (ps_until scan) e.

Lemma segment_sources_spec sources :
  ∃ new, segment_sources scan d dead sources value = Some (sources ++ new) ∧
    gives (λ e, ∃ prefix, prefix ∈ ps_prefixes scan ∧ prefix_wants prefix e)
          (λ e, ∃ prefix, prefix ∈ ps_prefixes scan ∧ prefix_wants prefix e ∧ shard_for fam prefix = s) new.
Proof using Hok Hholds Hdead Halive.
  destruct Hholds as (view & content & Hparse & _ & _ & _ & Hof & Hsorted & Hev & Hall).
  unfold segment_sources. rewrite Hparse. cbn [mbind option_bind].
  destruct (append_loop (prefix_source scan d dead view) prefix_wants
    (λ prefix e, prefix ∈ content.*1 ∧ prefix_wants prefix e)
    (ps_prefixes scan) sources) as (new & -> & rests & Hnew & HS & HC).
  2:{ exists new. split; [done|]. exists rests. split; [done|]. split; [done|].
      intros e (px & Hpx & Hw & Hsh). apply HC. exists px. split; [done|]. split; [|done].
      by eapply Hall, Hsh; apply Hw. }
  intros acc prefix _. unfold prefix_source. destruct Hsorted as [Hs1 Hs2].
  pose proof (segment_prefix_spec view d content prefix Hof Hs1) as Hp.
  destruct (segment_prefix view prefix) as [[l|]|]; [| |done]; cbn [mbind option_bind].
  - destruct Hp as (evs & Hin & Hlist). destruct (Hev _ _ Hin) as [_ Hm].
    assert (Hsort : StronglySorted cmp_lt evs).
    { rewrite Forall_forall in Hs2. apply Hs2, list_elem_of_fmap. by exists (prefix, evs). }
    destruct (run_posts_ids r fam prefix evs Hok Hsort (λ e, proj1 (Hm e))) as [Hids Htimes].
    destruct (posting_cursor_spec l d evs Hlist Hsort (ps_before scan) (ps_since scan) (ps_until scan) dead Hids Htimes)
      as (c & -> & Hcl & Hcd & Hrem). cbn [mbind option_bind].
    exists [mkScanSource c dead]. split; [done|]. exists [remaining evs dead c]. split.
    { constructor; [|constructor]. by exists l, d, evs. }
    simpl. rewrite app_nil_r, Hrem.
    split; intros e; rewrite list_elem_of_filter, Hm, Halive; unfold prefix_wants; [|intros [_ ?]]; naive_solver.
  - exists []. rewrite app_nil_r. split; [done|]. exists []. split_and!; [constructor| |].
    + by intros e ?%not_elem_of_nil.
    + by intros e [? _].
Qed.
End segment.

(** ** Loading the runs *)

(** What is loaded of a run answers for all of it. *)
Record loaded_ok (r : Run) (lr : LoadedRun) : Prop := {
  lo_run : run_ok r;
  lo_dictionary : dictionary_parse (lr_dictionary lr) = Some (dictionary_view (run_entries r));
  lo_dead : dead_sorted (lr_dead lr);
  lo_alive k : key_alive (lr_dead lr) k ↔ k ∉ dead_set r;
  lo_segments v : v ∈ lr_segments lr →
    ∃ s, segment_holds fam s v (dictionary_view (run_entries r)) (run_posts r fam);
  lo_complete prefix e : prefix ∈ ps_prefixes scan → run_posts r fam prefix e →
    ∃ v, v ∈ lr_segments lr ∧
      segment_holds fam (shard_for fam prefix) v (dictionary_view (run_entries r)) (run_posts r fam)
}.

Lemma segment_holds_shard f s s' v d M : segment_holds f s v d M → segment_holds f s' v d M → s = s'.
Proof. intros (view & ? & Hv & _ & <- & _) (view' & ? & Hv' & _ & <- & _). congruence. Qed.

Lemma run_sources_spec r lr sources :
  loaded_ok r lr →
  ∃ new, run_sources scan sources lr = Some (sources ++ new) ∧ gives (run_wants r) (run_wants r) new.
Proof.
  intros Hlo. unfold run_sources. rewrite (lo_dictionary _ _ Hlo). cbn [mbind option_bind].
  destruct (append_loop (segment_sources scan (dictionary_view (run_entries r)) (lr_dead lr))
    (λ _ e, ∃ prefix, prefix ∈ ps_prefixes scan ∧ prefix_wants r prefix e)
    (λ v e, ∃ prefix, prefix ∈ ps_prefixes scan ∧ prefix_wants r prefix e ∧
       segment_holds fam (shard_for fam prefix) v (dictionary_view (run_entries r)) (run_posts r fam))
    (lr_segments lr) sources) as (new & -> & rests & Hnew & HS & HC).
  - intros acc v Hv. destruct (lo_segments _ _ Hlo v Hv) as [s Hs].
    destruct (segment_sources_spec r (lo_run _ _ Hlo) s v Hs (lr_dead lr) (lo_dead _ _ Hlo) (lo_alive _ _ Hlo) acc)
      as (new & -> & rests & Hok & HS & HC).
    exists new. split; [done|]. exists rests. split_and!; [done..|]. intros e (px & Hpx & Hw & Hh). apply HC.
    exists px. split_and!; [done|apply Hw..|]. by eapply segment_holds_shard.
  - exists new. split; [done|]. exists rests. split; [done|].
    split; intros e; rewrite (run_posts_alive r e (lo_run _ _ Hlo)).
    + intros (_ & _ & Hw)%HS. done.
    + intros (px & Hpx & Hw). apply HC. destruct (lo_complete _ _ Hlo px e Hpx) as (v & Hv & Hh); [apply Hw|].
      exists v. split; [done|]. by exists px.
Qed.

Context (pk : PackedStore) (R : gmap N Run) (Hrep : rep pk R).

Definition candidates (id : N) : list bytes :=
  omap (λ shard, pk_segments pk !! (fam, shard, id)) (ordered (scan_shards scan)).

Lemma candidates_hold id r v :
  R !! id = Some r → v ∈ candidates id →
  ∃ s, segment_holds fam s v (dictionary_view (run_entries r)) (run_posts r fam).
Proof using Hrep.
  intros Hr (s & _ & Hv)%list_elem_of_omap. exists s.
  destruct (rep_segments _ _ Hrep _ _ _ _ Hv) as (_ & r' & Hr' & Hh). simplify_eq. done.
Qed.

Lemma candidates_complete id r prefix e :
  R !! id = Some r → prefix ∈ ps_prefixes scan → run_posts r fam prefix e →
  ∃ v, v ∈ candidates id ∧
    segment_holds fam (shard_for fam prefix) v (dictionary_view (run_entries r)) (run_posts r fam).
Proof using Hrep.
  intros Hr Hpx Hpost. destruct (rep_posted _ _ Hrep id r fam prefix e Hr Hpost) as [v Hv]. exists v. split.
  - apply list_elem_of_omap. exists (shard_for fam prefix). split; [|done]. apply elem_of_ordered.
    unfold scan_shards. apply elem_of_list_to_set, list_elem_of_fmap. eauto.
  - destruct (rep_segments _ _ Hrep _ _ _ _ Hv) as (_ & r' & Hr' & Hh). simplify_eq. done.
Qed.

Lemma candidate_loop id r :
  R !! id = Some r →
  ∃ kept, foldl (λ o v, acc ← o;
             candidate_segment (ps_prefixes scan) (dictionary_view (run_entries r)) acc v)
            (Some []) (candidates id) = Some kept ∧
    (∀ v, v ∈ kept → v ∈ candidates id) ∧
    (∀ prefix e, prefix ∈ ps_prefixes scan → run_posts r fam prefix e → ∃ v, v ∈ kept ∧
       segment_holds fam (shard_for fam prefix) v (dictionary_view (run_entries r)) (run_posts r fam)).
Proof using Hrep.
  intros Hr. set (d := dictionary_view (run_entries r)).
  destruct (foldl_option_ind (candidate_segment (ps_prefixes scan) d)
    (λ pre kept, (∀ v, v ∈ kept → v ∈ pre) ∧
       ∀ v prefix e, v ∈ pre → segment_holds fam (shard_for fam prefix) v d (run_posts r fam) →
         prefix ∈ ps_prefixes scan → run_posts r fam prefix e → v ∈ kept) (candidates id) [])
    as (kept & Hf & Hsub & Hkept).
  - split; [done|]. by intros v ? ? ?%not_elem_of_nil.
  - intros pre v post kept Hl [Hsub Hkept].
    destruct (candidates_hold id r v Hr) as [s Hs]; [rewrite Hl; set_solver|].
    destruct (candidate_segment_spec r s v Hs kept) as (b & Hc & Hb). eexists. split; [exact Hc|]. split.
    + intros w Hw. destruct b; set_solver.
    + intros w px e [Hw| ->%list_elem_of_singleton]%elem_of_app Hh Hpx Hpost.
      * assert (w ∈ kept) by eauto. destruct b; set_solver.
      * destruct b; [set_solver|]. exfalso. apply (Hb eq_refl px e Hpx Hpost). by eapply segment_holds_shard.
  - exists kept. split_and!; [done..|]. intros px e Hpx Hpost.
    destruct (candidates_complete id r px e Hr Hpx Hpost) as (v & Hv & Hh). exists v. split; [|done]. eauto.
Qed.

Lemma load_run_spec loaded id r :
  R !! id = Some r →
  ∃ new, load_run pk scan loaded (meta_of id r) = Some (loaded ++ new) ∧ (∀ lr, lr ∈ new → loaded_ok r lr) ∧
    ((∃ e, run_wants r e) → new ≠ []).
Proof using Hrep.
  intros Hr. pose proof (rep_run _ _ Hrep _ _ Hr) as Hok. unfold load_run.
  change (rm_run_id (meta_of id r)) with id. fold (candidates id).
  assert (Hnone : ∀ l, (∀ prefix e, prefix ∈ ps_prefixes scan → run_posts r fam prefix e → ∃ v : bytes, v ∈ l ∧
     segment_holds fam (shard_for fam prefix) v (dictionary_view (run_entries r)) (run_posts r fam)) →
     (∃ e, run_wants r e) → l ≠ []).
  { intros l Hl (e & (px & Hpx & Hpost & _)%(run_posts_alive r e Hok)) ->.
    by destruct (Hl px e Hpx Hpost) as (v & ?%not_elem_of_nil & _). }
  destruct (decide (candidates id = [])) as [E|_].
  { exists []. rewrite app_nil_r. split; [done|]. split; [by intros ? ?%not_elem_of_nil|]. intros Hw.
    exfalso. apply (Hnone (candidates id)); [|done|done]. intros px e. by apply candidates_complete. }
  pose proof (rep_dictionaries _ _ Hrep id) as Hd. rewrite Hr in Hd.
  destruct (pk_dictionaries pk !! id) as [dict|]; [|done]. simpl in Hd. injection Hd as Hd.
  cbn [mbind option_bind]. rewrite Hd. cbn [mbind option_bind].
  rewrite (proj2 (validate_order_iff _)) by (eexists; split; [by apply run_dictionary|by apply run_entries_sorted]).
  cbn [mbind option_bind]. destruct (candidate_loop id r Hr) as (kept & -> & Hsub & Hkept). cbn [mbind option_bind].
  destruct (decide (kept = [])) as [->|Hne].
  { exists []. rewrite app_nil_r. split; [done|]. split; [by intros ? ?%not_elem_of_nil|]. intros Hw.
    exfalso. by apply (Hnone [] Hkept Hw). }
  destruct (load_run_deaths_spec pk R Hrep id r Hr) as (dead & -> & Hds & Hal). cbn [mbind option_bind].
  eexists. split; [done|]. split; [|done]. intros lr ->%list_elem_of_singleton.
  split; simpl; try done. intros v Hv%Hsub. by eapply candidates_hold.
Qed.

Definition all_wanted (e : RunEvent) : Prop := ∃ id r, R !! id = Some r ∧ run_wants r e.

Lemma load_runs :
  ∃ runs : list (Run * LoadedRun),
    foldl (λ o meta, loaded ← o; load_run pk scan loaded meta) (Some []) (catalog_metas R) = Some runs.*2 ∧
    (∀ x, x ∈ runs → loaded_ok x.1 x.2) ∧ (∀ e, all_wanted e ↔ ∃ x, x ∈ runs ∧ run_wants x.1 e).
Proof using Hrep.
  destruct (foldl_option_ind (load_run pk scan)
    (λ pre loaded, ∃ runs : list (Run * LoadedRun), loaded = runs.*2 ∧
       (∀ x, x ∈ runs → loaded_ok x.1 x.2 ∧ ∃ id, R !! id = Some x.1) ∧
       ∀ id r e, R !! id = Some r → meta_of id r ∈ pre → run_wants r e → ∃ x, x ∈ runs ∧ x.1 = r)
    (catalog_metas R) []) as (loaded & Hf & runs & -> & Hruns & Hall).
  - exists []. split_and!; [done|by intros ? ?%not_elem_of_nil|]. by intros ? ? ? ? ?%not_elem_of_nil.
  - intros pre m post loaded Hl (runs & -> & Hruns & Hall).
    assert (m ∈ catalog_metas R) as (id & r & Hr & ->)%elem_of_catalog by (rewrite Hl; set_solver).
    destruct (load_run_spec runs.*2 id r Hr) as (new & -> & Hnew & Hne). eexists. split; [done|].
    exists (runs ++ ((λ lr, (r, lr)) <$> new)). split_and!.
    + rewrite fmap_app, <-list_fmap_compose. f_equal. symmetry. apply list_fmap_id.
    + intros x [Hx|(lr & -> & Hlr)%list_elem_of_fmap]%elem_of_app; [by apply Hruns|]. simpl. eauto.
    + intros id' r' e Hr' [Hm|Hm%list_elem_of_singleton]%elem_of_app Hw.
      * destruct (Hall id' r' e Hr' Hm Hw) as (x & ? & ?). exists x. split; [set_solver|done].
      * apply (f_equal rm_run_id) in Hm. simpl in Hm. subst id'. assert (r' = r) as -> by congruence.
        destruct new as [|lr new]; [by destruct (Hne (ex_intro _ e Hw))|].
        exists (r, lr). split; [|done]. apply elem_of_app. right. apply list_elem_of_fmap. exists lr. split; [done|left].
  - exists runs. split; [done|]. split; [intros x Hx; by apply Hruns|]. intros e. split.
    + intros (id & r & Hr & Hw). destruct (Hall id r e Hr) as (x & Hx & <-); [|done|eauto].
      apply elem_of_catalog. eauto.
    + intros (x & Hx & Hw). destruct (Hruns x Hx) as [_ [id Hr]]. by exists id, x.1.
Qed.

Lemma foldl_fmap_r {A B X} (f : X → B → X) (g : A → B) (l : list A) x :
  foldl f x (g <$> l) = foldl (λ x a, f x (g a)) x l.
Proof. revert x. induction l as [|a l IH]; intros x; [done|]. apply IH. Qed.

Lemma load_sources :
  ∃ loaded sources,
    foldl (λ o meta, loaded ← o; load_run pk scan loaded meta) (Some []) (catalog_metas R) = Some loaded ∧
    foldl (λ o run, sources ← o; run_sources scan sources run) (Some []) loaded = Some sources ∧
    gives all_wanted all_wanted sources.
Proof using Hrep.
  destruct load_runs as (runs & Hload & Hok & Hall). exists runs.*2.
  rewrite foldl_fmap_r.
  destruct (append_loop (λ acc x, run_sources scan acc x.2) (λ x, run_wants x.1) (λ x, run_wants x.1) runs [])
    as (new & Hf & rests & Hnew & HS & HC).
  - intros acc x Hx. by apply run_sources_spec, Hok.
  - exists new. split_and!; [done|exact Hf|]. exists rests. split; [done|].
    split; intros e; rewrite Hall; [apply HS|apply HC].
Qed.
End scan.

(** ** Merging the sources *)

Lemma scan_head_cmp_alt x y : scan_head_cmp x y = entry_cmp sh_event sh_source x y.
Proof. apply entry_cmp_alt. Qed.

Lemma scan_head_comparator : Comparator scan_head_cmp.
Proof.
  destruct (entry_comparator sh_event sh_source) as [H1 H2].
  split; intros *; rewrite !scan_head_cmp_alt; [apply H1|apply H2].
Qed.

Lemma scan_head_le x y : scan_head_cmp x y ≠ Gt → cmp_le (sh_event y) (sh_event x).
Proof. rewrite scan_head_cmp_alt. apply entry_cmp_le. Qed.

Lemma source_sorted s evs : source_ok s evs → StronglySorted cmp_lt evs.
Proof.
  intros (l & d & all & _ & Hs & _ & _ & _ & <-). unfold remaining. destruct (pc_exhausted _); [constructor|].
  eapply StronglySorted_sublist, StronglySorted_sublist, Hs; [|apply sublist_drop].
  apply sublist_filter.
Qed.

Definition heads_in (n : nat) (heap : list ScanHead) : Prop := Forall (λ x, sh_source x < n) heap.

Lemma advance_source_spec st i rests :
  Forall2 source_ok (st_sources st) rests → i < length rests → heads_in (length rests) (st_heap st) →
  ∃ st' rests', advance_source st i = Some st' ∧ Forall2 source_ok (st_sources st') rests' ∧
    pushed sh_event sh_source i (st_heap st) rests (st_heap st') rests' ∧
    length rests' = length rests ∧ heads_in (length rests) (st_heap st').
Proof.
  intros Hok Hi Hheads. destruct (lookup_lt_is_Some_2 rests i Hi) as [r Hr].
  destruct (Forall2_lookup_r _ _ _ _ _ Hok Hr) as (s & Hs & l & d & all & Hl & Hsort & Hd & Hcl & Hcd & Hrem).
  destruct (next_live_spec l d all Hl Hsort (ss_dead s) (ss_cursor s) Hd Hcl Hcd) as (c' & Hnext & Hcl' & Hcd' & Hrem').
  unfold advance_source. rewrite Hs. cbn [mbind option_bind]. rewrite Hnext. cbn [mbind option_bind]. rewrite Hrem in *.
  assert (Hs' : Forall2 source_ok (<[i := mkScanSource c' (ss_dead s)]> (st_sources st)) (<[i := tail r]> rests)).
  { apply Forall2_insert; [done|]. exists l, d, all. exact (conj Hl (conj Hsort (conj Hd (conj Hcl' (conj Hcd' Hrem'))))). }
  destruct r as [|e r']; simpl.
  - eexists _, rests. split; [done|]. simpl. rewrite (list_insert_id rests) in Hs' by done. split; [done|]. split; [by exists []|]. done.
  - eexists _, (<[i := r']> rests). split; [done|]. simpl. split_and!; try done.
    + exists (e :: r'). split; [done|]. by exists (mkScanHead e i).
    + by rewrite length_insert.
    + by constructor.
Qed.

Lemma start_heads sources rests :
  Forall2 source_ok sources rests →
  ∃ st rests', foldl (λ o i, st ← o; advance_source st i) (Some (mkScanState sources [] 0)) (seq 0 (length sources)) = Some st ∧
    Forall2 source_ok (st_sources st) rests' ∧ heads_ok sh_event sh_source (st_heap st) rests' ∧
    heads_in (length rests') (st_heap st) ∧ pending sh_event (st_heap st) rests' ≡ₚ concat rests.
Proof.
  intros Hok. pose proof (Forall2_length _ _ _ Hok) as Hlen.
  destruct (foldl_option_ind advance_source (λ pre st, ∃ rests', Forall2 source_ok (st_sources st) rests' ∧
      length rests' = length rests ∧ heads_upto sh_event sh_source pre (st_heap st) rests' ∧
      heads_in (length rests) (st_heap st) ∧ pending sh_event (st_heap st) rests' ≡ₚ concat rests)
    (seq 0 (length sources)) (mkScanState sources [] 0)) as (st & Hf & rests' & Hok' & Hlen' & Hh & Hin & Hp).
  - exists rests. split_and!; [done|done| |constructor|done]. split; [|by intros ? ? ?%not_elem_of_nil].
    intros i r Hr. destruct (Forall2_lookup_r _ _ _ _ _ Hok Hr) as (s & _ & Hs). by eapply source_sorted.
  - intros pre i post st Hseq (rests' & Hok' & Hlen' & Hh & Hin & Hp).
    assert (Hi : i ∈ seq 0 (length sources)) by (rewrite Hseq; set_solver). apply elem_of_seq in Hi.
    destruct (advance_source_spec st i rests' Hok') as (st' & rests'' & -> & Hok'' & Hpush & Hl & Hin'); [lia|by rewrite Hlen'|].
    exists st'. split; [done|]. exists rests''. destruct (push_turn _ _ _ _ _ _ _ _ Hh Hpush) as [Hh' Hp'].
    rewrite Hp'. split_and!; [done|congruence|done|by rewrite <-Hlen'|done].
  - exists st, rests'. split_and!; [done|done| |by rewrite Hlen'|done]. eapply heads_all, Hh. congruence.
Qed.

(** ** The loop *)

(** The events the loop has not seen, each once. *)
Fixpoint fresh (seen : gset N) (evs : list RunEvent) : list RunEvent :=
  match evs with
  | [] => []
  | e :: evs =>
      if decide (re_event_key e ∈ seen) then fresh seen evs
      else e :: fresh ({[ re_event_key e ]} ∪ seen) evs
  end.

Lemma heap_drained heap rests :
  heap = [] → heads_ok sh_event sh_source heap rests → pending sh_event heap rests = [].
Proof.
  intros -> Hheads. unfold pending. simpl. apply elem_of_nil_inv. intros e (r & He & Hr)%elem_of_concat.
  apply list_elem_of_lookup in Hr as [i Hi]. destruct (Hheads i r Hi) as [_ Hx].
  destruct Hx as (x & Hx & _); [by intros ->; apply elem_of_nil in He|]. by apply elem_of_nil in Hx.
Qed.

Definition room {T} (limit : option nat) (output : list T) : option nat := (λ n, n - length output) <$> limit.

Lemma scan_loop_spec {T} (project : N → N → option (option T)) limit fuel st rests seen output :
  Forall2 source_ok (st_sources st) rests → heads_ok sh_event sh_source (st_heap st) rests →
  heads_in (length rests) (st_heap st) → length (pending sh_event (st_heap st) rests) < fuel →
  (∀ n, limit = Some n → length output < n) →
  fst <$> scan_loop fuel limit project st seen output =
  app output <$> first_visible project (room limit output)
                   (fresh seen (merge_sort cmp_le (pending sh_event (st_heap st) rests))).
Proof.
  revert st rests seen output. induction fuel as [|fuel IH]; intros st rests seen output Hok Hheads Hin Hfuel Hlim; [lia|].
  cbn [scan_loop]. destruct (heap_pop scan_head_cmp (st_heap st)) as [[h heap]|] eqn:Hpop.
  2:{ pose proof (heap_pop_spec scan_head_cmp (st_heap st) scan_head_comparator) as E. rewrite Hpop in E.
      rewrite (heap_drained _ _ E Hheads).
      cbn [merge_sort fresh]. rewrite first_visible_nil. cbn. by rewrite app_nil_r. }
  pose proof (heap_pop_spec scan_head_cmp (st_heap st) scan_head_comparator) as Hperm. rewrite Hpop in Hperm.
  destruct Hperm as [Hperm _]. unfold heads_in in Hin. rewrite Hperm in Hin. apply Forall_cons in Hin as [Hh Hin].
  destruct (advance_source_spec (mkScanState (st_sources st) heap (st_visited st)) (sh_source h) rests Hok Hh Hin)
    as (st' & rests' & -> & Hok' & Hpush & Hlen & Hin'). cbn [mbind option_bind].
  destruct (pop_turn _ _ _ scan_head_comparator scan_head_le _ _ _ _ _ _ Hheads Hpop Hpush) as (Hheads' & -> & Hl).
  rewrite <-Hlen in Hin'. cbn [fresh]. destruct (decide (re_event_key (sh_event h) ∈ seen)) as [Hseen|Hseen].
  { apply IH; [done..|lia|done]. }
  assert (Hroom : room limit output ≠ Some 0).
  { destruct limit as [n|]; [|done]. simpl. specialize (Hlim n eq_refl). intros [= ?]. lia. }
  rewrite first_visible_cons by done.
  destruct (project _ _) as [[x|]|]; cbn [mbind option_bind]; [| |done].
  2:{ apply IH; [done..|lia|done]. }
  assert (Hpred : pred <$> room limit output = room limit (output ++ [x])).
  { unfold room. destruct limit as [n|]; [|done]. cbn. rewrite length_app. cbn. f_equal. lia. }
  rewrite Hpred. destruct (decide (limit = Some (length (output ++ [x])))) as [E|E].
  - rewrite E. unfold room. cbn [fmap option_fmap option_map]. by rewrite Nat.sub_diag, first_visible_full.
  - rewrite (IH st' rests'); [|done..|lia|].
    + destruct (first_visible project (room limit (output ++ [x])) _) as [rest|]; cbn; [|done].
      by rewrite <-app_assoc.
    + intros n ->. specialize (Hlim n eq_refl). rewrite length_app in *. cbn in *.
      destruct (decide (n = length output + 1)) as [->|]; [done|lia].
Qed.

(** ** Each event once *)

Lemma fresh_sublist seen evs : fresh seen evs `sublist_of` evs.
Proof.
  revert seen. induction evs as [|e evs IH]; intros seen; simpl; [done|].
  destruct (decide _); [by apply sublist_cons|by apply sublist_skip].
Qed.

Lemma fresh_keys seen evs e : e ∈ fresh seen evs → re_event_key e ∉ seen.
Proof.
  revert seen. induction evs as [|x evs IH]; intros seen; simpl; [by intros ?%not_elem_of_nil|].
  destruct (decide _) as [Hin|Hin]; [by apply IH|]. intros [->|He]%elem_of_cons; [done|]. apply IH in He. set_solver.
Qed.

Lemma fresh_NoDup seen evs : NoDup (re_event_key <$> fresh seen evs).
Proof.
  revert seen. induction evs as [|x evs IH]; intros seen; simpl; [constructor|].
  destruct (decide _); [done|]. simpl. constructor; [|done].
  intros (e & E & He%fresh_keys)%list_elem_of_fmap. rewrite E in He. set_solver.
Qed.

Lemma elem_of_fresh seen evs e :
  (∀ x y, x ∈ evs → y ∈ evs → re_event_key x = re_event_key y → x = y) →
  e ∈ fresh seen evs ↔ e ∈ evs ∧ re_event_key e ∉ seen.
Proof.
  intros Hkeys. split; [intros He; split; [by eapply elem_of_sublist, fresh_sublist|by eapply fresh_keys]|].
  revert seen. induction evs as [|x evs IH]; intros seen [He Hs]; [by apply not_elem_of_nil in He|]. simpl.
  assert (Hkeys' : ∀ x y, x ∈ evs → y ∈ evs → re_event_key x = re_event_key y → x = y).
  { intros y z Hy Hz. apply Hkeys; by right. }
  destruct (decide (re_event_key x ∈ seen)) as [Hx|Hx].
  - apply elem_of_cons in He as [->|He]; [done|]. by apply IH.
  - apply elem_of_cons. destruct (decide (e = x)) as [->|Hne]; [by left|right]. apply elem_of_cons in He as [?|He]; [done|].
    apply IH; [done|]. split; [done|]. rewrite not_elem_of_union, not_elem_of_singleton. split; [|done].
    intros E. apply Hne, Hkeys; [by right|left|done].
Qed.

Lemma fresh_sorted evs :
  (∀ x y, x ∈ evs → y ∈ evs → re_event_key x = re_event_key y → x = y) →
  StronglySorted cmp_lt (fresh ∅ (merge_sort cmp_le evs)).
Proof.
  intros Hkeys. pose proof (fresh_sublist ∅ (merge_sort cmp_le evs)) as Hsub.
  pose proof (StronglySorted_sublist _ _ _ Hsub (StronglySorted_merge_sort cmp_le evs)) as Hs.
  apply StronglySorted_of_at. intros i j x y Hij Hx Hy.
  pose proof (StronglySorted_at _ _ _ _ _ _ Hs Hij Hx Hy) as [?| ->]%cmp_le_lt_eq; [done|].
  assert (i = j); [|lia]. apply (NoDup_lookup (re_event_key <$> fresh ∅ (merge_sort cmp_le evs)) i j (re_event_key y)).
  - apply fresh_NoDup.
  - by rewrite list_lookup_fmap, Hx.
  - by rewrite list_lookup_fmap, Hy.
Qed.

(** ** The scan *)

Lemma scan_fuel_enough sources rests :
  Forall2 source_ok sources rests → length (concat rests) < scan_fuel sources.
Proof.
  unfold scan_fuel. induction 1 as [|s evs sources rests (l & d & all & [Hlen _] & _ & _ & Hl & _ & <-) _ IH]; [simpl; lia|].
  csimpl. rewrite length_app, Hl, <-Hlen. unfold remaining.
  destruct (pc_exhausted _); simpl; [lia|]. pose proof (length_filter (λ e, (pc_since (ss_cursor s) ≤ re_created_at e)%N ∧
    key_alive (ss_dead s) (re_event_key e)) (drop (pc_next_ordinal (ss_cursor s)) all)) as Hf.
  rewrite length_drop in Hf. lia.
Qed.

Section scan_packed.
Context `{ShardHash} {T : Type} (pk : PackedStore) (next : N) (live : gmap N PendingEvent) (Hpacks : packs pk next live).
Context (scan : PackedScan) (project : N → N → option (option T)).

Lemma elem_of_matches e :
  e ∈ scan_matches live scan ↔ ∃ k p, live !! k = Some p ∧ scan_wanted scan p ∧ e = pending_run_event p.
Proof.
  unfold scan_matches. rewrite merge_sort_Permutation, list_elem_of_fmap. split.
  - intros (p & -> & [Hw ([k p'] & -> & Hk%elem_of_map_to_list)%list_elem_of_fmap]%list_elem_of_filter). eauto.
  - intros (k & p & Hk & Hw & ->). exists p. split; [done|]. apply list_elem_of_filter. split; [done|].
    apply list_elem_of_fmap. exists (k, p). by rewrite elem_of_map_to_list.
Qed.

Lemma live_typed k p : live !! k = Some p → pending_typed k p.
Proof using Hpacks.
  destruct Hpacks as (_ & R & Hrep & _ & _ & Hlive). intros (id & r & Hr & [Hk _]%run_live_Some)%Hlive.
  by apply (ro_typed _ (rep_run _ _ Hrep _ _ Hr)).
Qed.

Lemma matches_keys x y :
  x ∈ scan_matches live scan → y ∈ scan_matches live scan → re_event_key x = re_event_key y → x = y.
Proof using Hpacks.
  intros (k & p & Hk & _ & ->)%elem_of_matches (k' & p' & Hk' & _ & ->)%elem_of_matches E. simpl in E.
  destruct (live_typed k p Hk) as [<- _], (live_typed k' p' Hk') as [<- _]. rewrite E in Hk. congruence.
Qed.

Lemma matches_sorted : StronglySorted cmp_lt (scan_matches live scan).
Proof using Hpacks.
  apply StronglySorted_of_at. intros i j x y Hij Hx Hy.
  assert (Hle : cmp_le x y) by (eapply (StronglySorted_at cmp_le (scan_matches live scan)); [apply (StronglySorted_merge_sort _)|done..]).
  apply cmp_le_lt_eq in Hle as [?| ->]; [done|].
  assert (NoDup (scan_matches live scan)) as Hnd.
  { unfold scan_matches. rewrite merge_sort_Permutation. apply NoDup_fmap_2_strong.
    - intros p p' [_ Hp]%list_elem_of_filter [_ Hp']%list_elem_of_filter E.
      apply list_elem_of_fmap in Hp as ([k p0] & -> & Hk%elem_of_map_to_list), Hp' as ([k' p1] & -> & Hk'%elem_of_map_to_list).
      destruct (live_typed k p0 Hk) as [E0 _], (live_typed k' p1 Hk') as [E1 _]. injection E as _ _ E. simpl in *. congruence.
    - apply NoDup_filter, NoDup_fmap_2_strong; [|apply NoDup_map_to_list].
      intros [k p] [k' p'] Hk%elem_of_map_to_list Hk'%elem_of_map_to_list E. simpl in E. subst p'.
      destruct (live_typed k p Hk) as [E0 _], (live_typed k' p Hk') as [E1 _]. congruence. }
  assert (i = j); [|lia]. by eapply NoDup_lookup.
Qed.

(** A scan of the tables is a scan of the live postings. *)
Lemma scan_packed_spec :
  fst <$> scan_packed pk scan project = first_visible project (ps_limit scan) (scan_matches live scan).
Proof using Hpacks.
  unfold scan_packed. destruct (decide (ps_limit scan = Some 0)) as [->|Hlim]; [by rewrite first_visible_full|].
  destruct Hpacks as (_ & R & Hrep & _ & _ & Hlive). rewrite (load_run_catalog_spec pk R Hrep). cbn [mbind option_bind].
  destruct (load_sources scan pk R Hrep) as (loaded & sources & -> & Hf & rests & Hok & HS & HC). cbn [mbind option_bind].
  rewrite Hf. cbn [mbind option_bind].
  destruct (start_heads sources rests Hok) as (st & rests' & -> & Hok' & Hheads & Hin & Hperm). cbn [mbind option_bind].
  rewrite (scan_loop_spec project (ps_limit scan) _ st rests' ∅ []); [|done..| |].
  2:{ rewrite Hperm. by apply scan_fuel_enough. }
  2:{ intros n E. destruct n; [congruence|simpl; lia]. }
  assert (Hroom : room (ps_limit scan) ([] : list T) = ps_limit scan).
  { unfold room. destruct (ps_limit scan) as [n|]; [|done]. cbn. f_equal. lia. }
  rewrite Hroom. assert (Hmem : ∀ e, e ∈ pending sh_event (st_heap st) rests' ↔ e ∈ scan_matches live scan).
  { intros e. rewrite Hperm, elem_of_matches. assert (e ∈ concat rests ↔ all_wanted scan R e) as -> by (split; [apply HS|apply HC]).
    unfold all_wanted, run_wants. setoid_rewrite Hlive. unfold runs_live. naive_solver. }
  assert (Hkeys : ∀ x y, x ∈ pending sh_event (st_heap st) rests' → y ∈ pending sh_event (st_heap st) rests' →
    re_event_key x = re_event_key y → x = y) by (intros x y; rewrite !Hmem; apply matches_keys).
  rewrite (strictly_sorted_unique (fresh ∅ _) (scan_matches live scan)).
  - by destruct (first_visible _ _ _).
  - by apply fresh_sorted.
  - apply matches_sorted.
  - intros e. rewrite elem_of_fresh.
    + rewrite merge_sort_Permutation, Hmem. set_solver.
    + intros x y. rewrite !merge_sort_Permutation. apply Hkeys.
Qed.
End scan_packed.
