(* ===== verification/PackedUpdate.v ===== *)
(** * Adding and deleting runs

    How the operations that write a run's rows change what the tables hold: a
    run id is allocated above all live ones, a run whose dictionary and segments
    are staged becomes live with its catalog rows, and deleting a run's rows
    removes the run. *)

From S2P Require Import Prelude Grammar Schema QueueBytes Canonical Ingest Postings PostingsRead PostingsFormat PostingsRun PostingsCodec PackedStore PackedRep.

Section update.
Context `{ShardHash}.

(** ** Run ids *)

Lemma highest_spec ids :
  match highest ids with
  | None => ids = []
  | Some h => h ∈ ids ∧ ∀ id, id ∈ ids → (id ≤ h)%N
  end.
Proof.
  unfold highest. induction ids as [|id ids IH] using rev_ind; [done|]. rewrite foldl_app. simpl.
  destruct (foldl _ None ids) as [h|].
  - destruct IH as [Hin Hmax]. split.
    + apply elem_of_app. destruct (N.max_spec h id) as [[_ ->]|[_ ->]]; [right; left|by left].
    + intros x [Hx| ->%list_elem_of_singleton]%elem_of_app; [apply Hmax in Hx|]; lia.
  - subst ids. split; [left|]. intros x ->%list_elem_of_singleton. done.
Qed.

Lemma size_dictionaries pk R : rep pk R → size (pk_dictionaries pk) = length (catalog_metas R).
Proof.
  intros Hrep. unfold catalog_metas. rewrite length_fmap, length_ordered_map, <-!size_dom. f_equal.
  apply set_eq. intros id. rewrite !elem_of_dom. pose proof (rep_dictionaries _ _ Hrep id) as Hd.
  destruct (pk_dictionaries pk !! id), (R !! id); naive_solver.
Qed.

Lemma allocate_run_id_spec pk R :
  rep pk R →
  allocate_run_id pk =
  let id := default 1%N (pk_next_run_id pk) in
  if (id + 1 <=? u64_max)%N then Some (id, set_next_run_id pk (Some (id + 1)%N)) else None.
Proof.
  intros Hrep. unfold allocate_run_id. rewrite (load_run_catalog_spec pk R Hrep). cbn [mbind option_bind].
  rewrite decide_False by (rewrite (size_dictionaries pk R Hrep); lia).
  assert (is_Some (mapM (λ meta, pk_dictionaries pk !! rm_run_id meta) (catalog_metas R))) as [ds ->].
  { apply mapM_is_Some_2, Forall_forall. intros m (id & r & Hr & ->)%elem_of_catalog. unfold compose. simpl.
    pose proof (rep_dictionaries _ _ Hrep id) as Hd. rewrite Hr in Hd. destruct (pk_dictionaries pk !! id); [by eexists|done]. }
  cbn [mbind option_bind]. pose proof (highest_spec (rm_run_id <$> catalog_metas R)) as Hh.
  pose proof (rep_next _ _ Hrep) as Hn. destruct (pk_next_run_id pk) as [next|]; simpl.
  - destruct Hn as [Hn Hids]. rewrite decide_False by lia.
    destruct (highest (rm_run_id <$> catalog_metas R)) as [h|]; [|done].
    destruct Hh as [(m & -> & (id & r & Hr & ->)%elem_of_catalog)%list_elem_of_fmap _].
    apply Hids in Hr. simpl. by rewrite (proj2 (N.ltb_lt _ _)) by done.
  - destruct (highest (rm_run_id <$> catalog_metas R)) as [h|]; [|done].
    destruct Hh as [(m & -> & (id & r & Hr & ->)%elem_of_catalog)%list_elem_of_fmap _]. by rewrite Hn in Hr.
Qed.

(** An allocated id is above every live one. *)
Lemma allocate_fresh pk R id pk' :
  rep pk R → allocate_run_id pk = Some (id, pk') →
  pk' = set_next_run_id pk (Some (id + 1)%N) ∧ (0 < id ∧ id + 1 ≤ u64_max)%N ∧
  ∀ id' r, R !! id' = Some r → (id' < id)%N.
Proof.
  intros Hrep Ha. rewrite (allocate_run_id_spec pk R Hrep) in Ha. simpl in Ha.
  destruct (N.leb_spec (default 1%N (pk_next_run_id pk) + 1) u64_max); [|done]. injection Ha as <- <-.
  pose proof (rep_next _ _ Hrep) as Hn. destruct (pk_next_run_id pk) as [next|]; simpl in *.
  - split_and!; [done|lia..|]. apply Hn.
  - split_and!; [done|lia..|]. intros id' r Hr. by rewrite Hn in Hr.
Qed.

Lemma rep_set_next pk R n :
  rep pk R → (0 < n ≤ u64_max)%N → (∀ id r, R !! id = Some r → (id < n)%N) → rep (set_next_run_id pk (Some n)) R.
Proof. intros Hrep Hn Hids. destruct Hrep. split; simpl; done. Qed.

(** ** Staging and publishing a run *)

(** [pk'] is [pk] with the dictionary and the segments of the run [id]. *)
Record staged (pk pk' : PackedStore) (id : N) (dict : bytes) (seg : Family → N → option bytes) : Prop := {
  sg_metas : pk_metas pk' = pk_metas pk;
  sg_by_min : pk_by_min pk' = pk_by_min pk;
  sg_deaths : pk_deaths pk' = pk_deaths pk;
  sg_next : pk_next_run_id pk' = pk_next_run_id pk;
  sg_dictionaries : pk_dictionaries pk' = <[id := dict]> (pk_dictionaries pk);
  sg_segments f s id' : pk_segments pk' !! (f, s, id') = if decide (id' = id) then seg f s else pk_segments pk !! (f, s, id')
}.

(** The staged rows are those of the run [r]. *)
Record staged_run (r : Run) (dict : bytes) (seg : Family → N → option bytes) : Prop := {
  sr_ok : run_ok r;
  sr_deaths : run_deaths r = ∅;
  sr_dictionary : dictionary_parse dict = Some (dictionary_view (run_entries r));
  sr_segments f s v : seg f s = Some v →
    (s ≤ shard_mask)%N ∧ segment_holds f s v (dictionary_view (run_entries r)) (run_posts r f);
  sr_posted f prefix e : run_posts r f prefix e → is_Some (seg f (shard_for f prefix))
}.

Lemma insert_run_catalog_Some pk m pk' :
  insert_run_catalog pk m = Some pk' →
  ∃ v, meta_encode m = Some v ∧
    pk' = mkPacked (<[rm_run_id m := v]> (pk_metas pk)) (pk_dictionaries pk)
            (<[rm_min_event_key m := be_bytes 8 (rm_run_id m)]> (pk_by_min pk)) (pk_deaths pk) (pk_segments pk)
            (pk_next_run_id pk).
Proof. unfold insert_run_catalog. destruct (meta_encode m) as [v|]; [|done]. intros [= <-]. eauto. Qed.

(** The range and level of [r] fit among those of [R]. *)
Definition placed (R : gmap N Run) (r : Run) : Prop :=
  ∀ id r', R !! id = Some r' →
    (run_max r' < run_min r ∧ run_level r ≤ run_level r')%N ∨
    (run_max r < run_min r' ∧ run_level r' ≤ run_level r)%N.

Section publish.
Context (pk pk1 pk2 : PackedStore) (R : gmap N Run) (id : N) (r : Run) (dict : bytes) (seg : Family → N → option bytes).
Context (Hrep : rep pk R) (Hid : R !! id = None) (Hstaged : staged pk pk1 id dict seg) (Hrun : staged_run r dict seg).
Context (Hplaced : placed R r) (Hnext : ∃ n, pk_next_run_id pk = Some n ∧ (id < n ∧ id ≤ u64_max)%N).
Context (Hcat : insert_run_catalog pk1 (meta_of id r) = Some pk2).

Lemma publish_range : (run_min r ≤ run_max r)%N.
Proof using Hcat.
  destruct (insert_run_catalog_Some _ _ _ Hcat) as (v & Hv & _).
  assert (Hm : meta_ok (meta_of id r)) by (apply meta_encode_ok; eauto). apply Hm.
Qed.

Lemma publish_min_fresh id' r' : R !! id' = Some r' → run_min r' ≠ run_min r.
Proof using Hrep Hplaced Hcat.
  intros Hr'. pose proof publish_range. destruct (rep_meta_ok pk R Hrep id' r' Hr') as [[_ ?] _].
  simpl in *. destruct (Hplaced id' r' Hr'); lia.
Qed.

Lemma publish_rows :
  (∀ id', Some <$> pk_metas pk2 !! id' = (λ r, meta_encode (meta_of id' r)) <$> <[id := r]> R !! id') ∧
  (∀ id', dictionary_parse <$> pk_dictionaries pk2 !! id' =
     (λ r, Some (dictionary_view (run_entries r))) <$> <[id := r]> R !! id') ∧
  (∀ k v, pk_by_min pk2 !! k = Some v ↔
     ∃ id' r', <[id := r]> R !! id' = Some r' ∧ run_min r' = k ∧ v = be_bytes 8 id') ∧
  (∀ id' l, dead_decode <$> pk_deaths pk2 !! (id', l) = Some <$> (<[id := r]> R !! id' ≫= λ r, run_deaths r !! l)).
Proof using Hrep Hid Hstaged Hrun Hplaced Hcat.
  clear Hnext. pose proof publish_min_fresh as Hfresh.
  destruct (insert_run_catalog_Some _ _ _ Hcat) as (v & Hv & E). rewrite E. simpl.
  rewrite (sg_metas _ _ _ _ _ Hstaged), (sg_by_min _ _ _ _ _ Hstaged), (sg_deaths _ _ _ _ _ Hstaged),
    (sg_dictionaries _ _ _ _ _ Hstaged). split_and!.
  - intros id'. destruct (decide (id' = id)) as [->|Hne]; [rewrite !lookup_insert_eq; simpl; by rewrite Hv|].
    rewrite !lookup_insert_ne by done. apply (rep_metas _ _ Hrep).
  - intros id'. destruct (decide (id' = id)) as [->|Hne].
    + rewrite !lookup_insert_eq. simpl. by rewrite (sr_dictionary _ _ _ Hrun).
    + rewrite !lookup_insert_ne by done. apply (rep_dictionaries _ _ Hrep).
  - intros k w. destruct (decide (k = run_min r)) as [->|Hne].
    + rewrite lookup_insert_eq. split.
      * intros [= <-]. exists id, r. by rewrite lookup_insert_eq.
      * intros (id' & r' & Hr' & Hmin & ->). destruct (decide (id' = id)) as [->|Hn]; [done|].
        rewrite lookup_insert_ne in Hr' by done. by apply Hfresh in Hr'.
    + rewrite lookup_insert_ne by done. rewrite (rep_by_min _ _ Hrep).
      split; intros (id' & r' & Hr' & Hmin & ->); exists id', r'; (split; [|done]).
      * rewrite lookup_insert_ne; [done|]. intros ->. congruence.
      * destruct (decide (id' = id)) as [->|]; [|by rewrite lookup_insert_ne in Hr'].
        rewrite lookup_insert_eq in Hr'. simplify_eq.
  - intros id' l. rewrite (rep_deaths _ _ Hrep id' l).
    destruct (decide (id' = id)) as [->|Hne]; [|by rewrite lookup_insert_ne].
    rewrite lookup_insert_eq, Hid. simpl. by rewrite (sr_deaths _ _ _ Hrun).
Qed.

Lemma publish_rep : rep pk2 (<[id := r]> R).
Proof using Hrep Hid Hstaged Hrun Hplaced Hnext Hcat.
  pose proof publish_range as Hrange. destruct publish_rows as (Hm & Hd & Hb & Hde).
  destruct (insert_run_catalog_Some _ _ _ Hcat) as (v & _ & E).
  split; try done.
  - intros id' r' [[<- <-]|[_ Hr']]%lookup_insert_Some; [apply Hrun|by eapply rep_run].
  - intros id' r' [[<- <-]|[_ Hr']]%lookup_insert_Some; [|by eapply rep_id]. by destruct Hnext as (n & _ & _ & ?).
  - rewrite E. simpl. rewrite (sg_next _ _ _ _ _ Hstaged). pose proof (rep_next _ _ Hrep) as Hn.
    destruct Hnext as (n & En & Hlt). rewrite En in *. split; [apply Hn|].
    intros id' r' [[<- <-]|[_ Hr']]%lookup_insert_Some; [lia|by eapply Hn].
  - intros f s id' w Hw. rewrite E in Hw. simpl in Hw. rewrite (sg_segments _ _ _ _ _ Hstaged) in Hw.
    destruct (decide (id' = id)) as [->|Hne].
    + destruct (sr_segments _ _ _ Hrun f s w Hw). split; [done|]. exists r. by rewrite lookup_insert_eq.
    + destruct (rep_segments _ _ Hrep _ _ _ _ Hw) as (? & r' & ? & ?). split; [done|]. exists r'. by rewrite lookup_insert_ne.
  - intros id' r' f px e Hr' Hpost. rewrite E. simpl. rewrite (sg_segments _ _ _ _ _ Hstaged).
    apply lookup_insert_Some in Hr' as [[<- <-]|[Hne Hr']].
    + rewrite decide_True by done. by eapply (sr_posted _ _ _ Hrun).
    + rewrite decide_False by done. by eapply (rep_posted _ _ Hrep).
  - intros id1 id2 r1 r2 [[<- <-]|[Hn1 Hr1]]%lookup_insert_Some [[<- <-]|[Hn2 Hr2]]%lookup_insert_Some Hne; [done|..].
    + destruct (Hplaced _ _ Hr2); [right|left]; lia.
    + destruct (Hplaced _ _ Hr1); [left|right]; lia.
    + by eapply (rep_ranges _ _ Hrep id1 id2).
  - intros id1 id2 r1 r2 [[<- <-]|[Hn1 Hr1]]%lookup_insert_Some [[<- <-]|[Hn2 Hr2]]%lookup_insert_Some Hlt; [lia|..].
    + destruct (rep_meta_ok pk R Hrep id2 r2 Hr2) as [[_ ?] _]. simpl in *. destruct (Hplaced _ _ Hr2); lia.
    + destruct (rep_meta_ok pk R Hrep id1 r1 Hr1) as [[_ ?] _]. simpl in *. destruct (Hplaced _ _ Hr1); lia.
    + by eapply (rep_levels _ _ Hrep id1 id2).
Qed.
End publish.

(** ** Deleting a run *)

Lemma foldl_delete_lookup {K V} `{Countable K} (ks : list K) (m : gmap K V) k :
  foldl (λ t k, delete k t) m ks !! k = if decide (k ∈ ks) then None else m !! k.
Proof.
  induction ks as [|x ks IH] using rev_ind; [done|]. rewrite foldl_app. simpl.
  destruct (decide (k = x)) as [->|Hne].
  - rewrite lookup_delete_eq, decide_True; [done|]. apply elem_of_app. right. left.
  - rewrite lookup_delete_ne, IH by done. destruct (decide (k ∈ ks)) as [Hk|Hk].
    + rewrite decide_True; [done|]. apply elem_of_app. by left.
    + rewrite decide_False; [done|]. intros [?|?%list_elem_of_singleton]%elem_of_app; done.
Qed.

Lemma elem_of_shards s : s ∈ all_shards ↔ (s ≤ shard_mask)%N.
Proof.
  unfold all_shards, shard_mask. rewrite list_elem_of_fmap. split.
  - intros (n & -> & Hn%elem_of_seq). lia.
  - intros Hs. exists (N.to_nat s). rewrite N2Nat.id, elem_of_seq. split; [done|lia].
Qed.

Lemma elem_of_families f : f ∈ all_families.
Proof. unfold all_families. destruct f; set_solver. Qed.

Lemma delete_run_segments pk m f s id :
  pk_segments (delete_run pk m) !! (f, s, id) =
  if decide (id = rm_run_id m ∧ (s ≤ shard_mask)%N) then None else pk_segments pk !! (f, s, id).
Proof.
  unfold delete_run. cbn [pk_segments set_segments set_dictionaries set_metas set_by_min set_deaths].
  rewrite foldl_delete_lookup. apply decide_ext. rewrite elem_of_concat. split.
  - intros (l & Hl & (f' & -> & _)%list_elem_of_fmap). apply list_elem_of_fmap in Hl as (s' & [= -> -> ->] & Hs).
    by apply elem_of_shards in Hs.
  - intros [-> Hs]. exists ((λ s, (f, s, rm_run_id m)) <$> all_shards).
    split; [apply list_elem_of_fmap; exists s; split; [done|by apply elem_of_shards]|].
    apply list_elem_of_fmap. exists f. split; [done|]. apply elem_of_families.
Qed.

Lemma delete_run_deaths pk m id l :
  pk_deaths (delete_run pk m) !! (id, l) =
  if decide (id = rm_run_id m ∧ l < max_death_blocks) then None else pk_deaths pk !! (id, l).
Proof.
  unfold delete_run. cbn [pk_deaths set_segments set_dictionaries set_metas set_by_min set_deaths].
  set (f := λ t l, delete (rm_run_id m, l) t).
  assert (E : foldl f (pk_deaths pk) (seq 0 max_death_blocks) =
    foldl (λ t k, delete k t) (pk_deaths pk) ((λ l, (rm_run_id m, l)) <$> seq 0 max_death_blocks)) by done.
  rewrite E, foldl_delete_lookup. apply decide_ext. rewrite list_elem_of_fmap. split.
  - intros (l' & [= -> ->] & Hl%elem_of_seq). lia.
  - intros [-> Hl]. exists l. split; [done|]. apply elem_of_seq. lia.
Qed.

Lemma delete_run_rep pk R m id r :
  rep pk R → R !! id = Some r → rm_run_id m = id → rm_min_event_key m = run_min r → rep (delete_run pk m) (delete id R).
Proof.
  intros Hrep Hr <- Hmin. split.
  - intros id' r' [_ Hr']%lookup_delete_Some. by eapply rep_run.
  - intros id' r' [_ Hr']%lookup_delete_Some. by eapply rep_id.
  - pose proof (rep_next _ _ Hrep) as Hn. change (pk_next_run_id (delete_run pk m)) with (pk_next_run_id pk).
    destruct (pk_next_run_id pk); [|by rewrite Hn, delete_empty]. split; [apply Hn|].
    intros id' r' [_ Hr']%lookup_delete_Some. by eapply Hn.
  - intros id'. change (pk_metas (delete_run pk m)) with (delete (rm_run_id m) (pk_metas pk)).
    destruct (decide (id' = rm_run_id m)) as [->|]; [by rewrite !lookup_delete_eq|].
    rewrite !lookup_delete_ne by done. apply (rep_metas _ _ Hrep).
  - intros id'. change (pk_dictionaries (delete_run pk m)) with (delete (rm_run_id m) (pk_dictionaries pk)).
    destruct (decide (id' = rm_run_id m)) as [->|]; [by rewrite !lookup_delete_eq|].
    rewrite !lookup_delete_ne by done. apply (rep_dictionaries _ _ Hrep).
  - intros k v. change (pk_by_min (delete_run pk m)) with (delete (rm_min_event_key m) (pk_by_min pk)).
    rewrite Hmin, lookup_delete_Some, (rep_by_min _ _ Hrep). split.
    + intros (Hk & id' & r' & Hr' & Hm & ->). exists id', r'. split; [|done]. apply lookup_delete_Some.
      split; [|done]. intros <-. congruence.
    + intros (id' & r' & [Hne Hr']%lookup_delete_Some & Hm & ->). split; [|eauto].
      intros <-. by apply Hne, (run_min_inj pk R Hrep _ _ r r').
  - intros id' l. rewrite delete_run_deaths. destruct (decide (id' = rm_run_id m)) as [->|Hne].
    + rewrite lookup_delete_eq. simpl. case_decide as Hl; [done|]. rewrite (rep_deaths _ _ Hrep), Hr. simpl.
      destruct (run_deaths r !! l) as [ks|] eqn:El; [|done].
      apply (ro_deaths _ (rep_run _ _ Hrep _ _ Hr)) in El. naive_solver.
    + rewrite lookup_delete_ne by done. rewrite decide_False by naive_solver. apply (rep_deaths _ _ Hrep).
  - intros f s id' v Hv. rewrite delete_run_segments in Hv. case_decide as Hd; [done|].
    destruct (rep_segments _ _ Hrep _ _ _ _ Hv) as (Hs & r' & Hr' & Hh). split; [done|]. exists r'.
    rewrite lookup_delete_ne; naive_solver.
  - intros id' r' f px e [Hne Hr']%lookup_delete_Some Hpost. rewrite delete_run_segments, decide_False by naive_solver.
    by eapply (rep_posted _ _ Hrep).
  - intros id1 id2 r1 r2 [_ Hr1]%lookup_delete_Some [_ Hr2]%lookup_delete_Some. by apply (rep_ranges _ _ Hrep).
  - intros id1 id2 r1 r2 [_ Hr1]%lookup_delete_Some [_ Hr2]%lookup_delete_Some. by apply (rep_levels _ _ Hrep id1 id2).
Qed.

Lemma delete_run_staged pk pk' id dict seg m :
  staged pk pk' id dict seg → rm_run_id m ≠ id → staged (delete_run pk m) (delete_run pk' m) id dict seg.
Proof.
  intros [E1 E2 E3 E4 E5 E6] Hne. split.
  - exact (f_equal (delete (rm_run_id m)) E1).
  - exact (f_equal (delete (rm_min_event_key m)) E2).
  - exact (f_equal (λ t, foldl (λ t l, delete (rm_run_id m, l) t) t (seq 0 max_death_blocks)) E3).
  - exact E4.
  - change (delete (rm_run_id m) (pk_dictionaries pk') = <[id := dict]> (delete (rm_run_id m) (pk_dictionaries pk))).
    by rewrite E5, delete_insert_ne.
  - intros f s id'. rewrite !delete_run_segments, E6.
    destruct (decide (id' = id)) as [->|]; [by rewrite decide_False by naive_solver|done].
Qed.

Lemma delete_runs_next pk ms : pk_next_run_id (foldl delete_run pk ms) = pk_next_run_id pk.
Proof. revert pk. induction ms as [|m ms IH]; intros pk; [done|]. simpl. by rewrite IH. Qed.

Lemma delete_runs_staged pk pk' id dict seg ms :
  staged pk pk' id dict seg → Forall (λ m, rm_run_id m ≠ id) ms →
  staged (foldl delete_run pk ms) (foldl delete_run pk' ms) id dict seg.
Proof.
  intros Hs Hms. revert pk pk' Hs. induction Hms as [|m ms Hm _ IH]; intros pk pk' Hs; [done|].
  by apply IH, delete_run_staged.
Qed.
End update.
