(* ===== verification/PackedCompact.v ===== *)
(** * Compacting runs

    [stream_compaction_cohort] stages one run with the surviving events of
    several runs: its dictionary is the sources' surviving entries, and each of
    its segments holds what the sources' segments hold of them. *)

From S2P Require Import Prelude Grammar Schema QueueBytes Canonical Ingest Postings PostingsRead PostingsFormat PostingsRun Compaction HeapMerge CompactionCorrect CompactionSegment PostingsCodec PackedStore PackedRep PackedUpdate.

(** A source of a compaction: a run, its id, and the keys to drop. *)
Record Source := mkSource { src_id : N; src_run : Run; src_dead : gset N }.

Definition survivors (x : Source) : gmap N PendingEvent :=
  filter (λ kp, kp.1 ∉ src_dead x) (run_events (src_run x)).
Definition surviving_entries (x : Source) : list (N * N) :=
  filter (λ e, e.1 ∉ src_dead x) (run_entries (src_run x)).

Fixpoint merged (xs : list Source) : gmap N PendingEvent :=
  match xs with [] => ∅ | x :: xs => survivors x ∪ merged xs end.

Definition merged_run (level : N) (xs : list Source) : Run :=
  mkRun level (N.of_nat (size (merged xs))) (merged xs) ∅.

Definition source_before (x y : Source) : Prop := (run_max (src_run x) < run_min (src_run y))%N.

Lemma survivors_Some x k p :
  survivors x !! k = Some p ↔ run_events (src_run x) !! k = Some p ∧ k ∉ src_dead x.
Proof. unfold survivors. by rewrite map_lookup_filter_Some. Qed.

(** ** The dictionary *)

Section entries.
Context (dead : option DeadKeys) (D : gset N) (Hd : dead_sorted dead) (HD : ∀ k, key_alive dead k ↔ k ∉ D).
Context (es : list (N * N)) (d : DictionaryView) (Hof : dictionary_of d es).

(** The ordinal map of the first [n] entries. *)
Definition mapped (out : list (N * N)) (om : list (option N)) (n : nat) : Prop :=
  length om = n ∧
  ∀ o k id, es !! o = Some (k, id) → o < n → ∃ oo, om !! o = Some oo ∧
    match oo with
    | Some o' => key_alive dead k ∧ out !! N.to_nat o' = Some (k, id) ∧ (o' ≤ u32_max)%N
    | None => ¬ key_alive dead k
    end.

Lemma mapped_snoc out om n new k id oo :
  mapped out om n → es !! n = Some (k, id) →
  match oo with
  | Some o' => key_alive dead k ∧ (out ++ new) !! N.to_nat o' = Some (k, id) ∧ (o' ≤ u32_max)%N
  | None => ¬ key_alive dead k
  end →
  mapped (out ++ new) (om ++ [oo]) (S n).
Proof.
  intros [Hlen Hm] Hn Hoo. split; [rewrite length_app; simpl; lia|]. intros o k' id' Ho Hlt.
  destruct (decide (o = n)) as [->|Hne].
  - simplify_eq. exists oo. split; [|done]. by apply list_lookup_middle.
  - destruct (Hm o k' id' Ho) as (oo' & Hoo' & Hcase); [lia|]. exists oo'. split; [by apply lookup_app_l_Some|].
    destruct oo' as [o'|]; [|done]. destruct Hcase as (? & Hl & ?). split_and!; try done. by apply lookup_app_l_Some.
Qed.

Lemma cohort_entries start entries om :
  foldl (λ o ordinal, acc ← o; cohort_entry dead d acc ordinal) (Some (start, [])) (seq 0 (dv_count d))
    = Some (entries, om) →
  entries = start ++ filter (λ e, e.1 ∉ D) es ∧ mapped entries om (length es).
Proof using Hd HD Hof.
  destruct Hof as [Hlen _]. rewrite <-Hlen. intros Hf.
  assert (Hinv : entries = start ++ filter (λ e, e.1 ∉ D) (take (length (seq 0 (length es))) es) ∧
                 mapped entries om (length (seq 0 (length es)))).
  { change entries with (entries, om).1. change om with (entries, om).2 at 3. revert Hf.
    apply (foldl_option_inv (cohort_entry dead d) (λ pre acc,
      acc.1 = start ++ filter (λ e, e.1 ∉ D) (take (length pre) es) ∧ mapped acc.1 acc.2 (length pre))).
    { simpl. rewrite app_nil_r. split; [done|]. split; [done|]. intros; lia. }
    intros pre n post [acc om'] acc' Hseq [Hacc Hmap] Hstep. simpl in Hacc, Hmap.
    assert (n = length pre) as ->.
    { apply (f_equal (lookup (length pre))) in Hseq. rewrite list_lookup_middle in Hseq by done.
      apply lookup_seq in Hseq. lia. }
    unfold cohort_entry in Hstep. rewrite (dictionary_entry_at_of d es _ Hof) in Hstep.
    destruct (es !! length pre) as [[k id]|] eqn:He; [|done]. cbn [mbind option_bind] in Hstep.
    rewrite length_app, Nat.add_1_r. rewrite (take_S_r _ _ _ He), filter_app, filter_cons, filter_nil. simpl.
    destruct (is_dead dead k) eqn:Ek.
    - injection Hstep as <-. simpl. assert (Hk : ¬ key_alive dead k).
      { rewrite <-(is_dead_spec dead k Hd). congruence. }
      rewrite decide_False by (rewrite <-HD; done). rewrite app_nil_r. split; [done|].
      rewrite <-(app_nil_r acc). by eapply mapped_snoc.
    - apply (is_dead_spec dead k Hd) in Ek. rewrite decide_True by (by apply HD).
      match type of Hstep with (if ?b then _ else _) = _ => destruct b; [done|] end.
      destruct (u32_try (length acc)) as [n|] eqn:Hn; [|done]. cbn [mbind option_bind] in Hstep. injection Hstep as <-.
      apply u32_try_Some in Hn as [Hle ->]. simpl. split; [by rewrite Hacc, <-app_assoc|].
      eapply mapped_snoc; [done..|]. rewrite Nat2N.id. split_and!; [done| |done]. by apply list_lookup_middle. }
  rewrite length_seq, firstn_all in Hinv. done.
Qed.
End entries.

Lemma maps_app out new es om dead : maps out es om dead → maps (out ++ new) es om dead.
Proof.
  intros Hm o k id Ho. destruct (Hm o k id Ho) as (oo & Hoo & Hcase). exists oo. split; [done|].
  destruct oo as [o'|]; [|done]. destruct Hcase as (? & ? & ?). split_and!; try done. by apply lookup_app_l_Some.
Qed.

Section cohort.
Context `{ShardHash} (pk : PackedStore) (R : gmap N Run) (Hrep : rep pk R).
Context (xs : list Source) (cohort : list RunMeta) (deads : list (option DeadKeys)).
Context (Hsrc : ∀ x, x ∈ xs → R !! src_id x = Some (src_run x)).
Context (Hbefore : StronglySorted source_before xs).
Context (Hcohort : rm_run_id <$> cohort = src_id <$> xs).
Context (Hdeads : Forall2 (λ dead x, dead_sorted dead ∧ ∀ k, key_alive dead k ↔ k ∉ src_dead x) deads xs).

Lemma cohort_at i m dead :
  zip cohort deads !! i = Some (m, dead) →
  ∃ x, xs !! i = Some x ∧ deads !! i = Some dead ∧ rm_run_id m = src_id x ∧ R !! src_id x = Some (src_run x) ∧
    dead_sorted dead ∧ ∀ k, key_alive dead k ↔ k ∉ src_dead x.
Proof using Hsrc Hcohort Hdeads.
  intros Hi. apply lookup_zip_Some in Hi as [Hm Hd].
  assert (Hid : (src_id <$> xs) !! i = Some (rm_run_id m)) by (by rewrite <-Hcohort, list_lookup_fmap, Hm).
  rewrite list_lookup_fmap in Hid. apply fmap_Some in Hid as (x & Hx & E). exists x.
  pose proof (Forall2_lookup_lr _ _ _ _ _ _ Hdeads Hd Hx) as [??]. split_and!; try done.
  by eapply Hsrc, list_elem_of_lookup_2.
Qed.

Lemma cohort_sources out oms :
  foldl (λ o x, acc ← o; cohort_source pk acc x) (Some ([], [])) (zip cohort deads) = Some (out, oms) →
  out = concat (surviving_entries <$> xs) ∧ length oms = length xs ∧
  ∀ i x dead om, xs !! i = Some x → deads !! i = Some dead → oms !! i = Some om →
    maps out (run_entries (src_run x)) om dead.
Proof using Hrep Hsrc Hcohort Hdeads.
  intros Hf. assert (Hn : length (zip cohort deads) = length xs).
  { rewrite length_zip. apply (f_equal length) in Hcohort. rewrite !length_fmap in Hcohort.
    apply Forall2_length in Hdeads. lia. }
  assert (Hinv : out = concat (surviving_entries <$> take (length (zip cohort deads)) xs) ∧
    length oms = length (zip cohort deads) ∧
    ∀ i x dead om, xs !! i = Some x → deads !! i = Some dead → oms !! i = Some om →
      maps out (run_entries (src_run x)) om dead).
  { clear Hn. change out with (out, oms).1. change oms with (out, oms).2 at 2 3. revert Hf.
    apply (foldl_option_inv (cohort_source pk) (λ pre acc,
      acc.1 = concat (surviving_entries <$> take (length pre) xs) ∧ length acc.2 = length pre ∧
      ∀ i x dead om, xs !! i = Some x → deads !! i = Some dead → acc.2 !! i = Some om →
        maps acc.1 (run_entries (src_run x)) om dead)).
    { split_and!; [done|done|]. intros i x dead om _ _ Ho. simpl in Ho. by rewrite lookup_nil in Ho. }
    intros pre [m dead] post [acc oms'] acc' Hl (Hacc & Hlen & Hmaps) Hstep. simpl in Hacc, Hlen, Hmaps.
    destruct (cohort_at (length pre) m dead) as (x & Hx & Hdead & Hid & Hr & Hds & HD);
      [rewrite Hl; by apply list_lookup_middle|].
    pose proof (rep_run _ _ Hrep _ _ Hr) as Hok. pose proof (rep_dictionaries _ _ Hrep (src_id x)) as Hdict.
    rewrite Hr in Hdict. unfold cohort_source in Hstep. rewrite Hid in Hstep.
    destruct (pk_dictionaries pk !! src_id x) as [dict|]; [|done]. simpl in Hdict. injection Hdict as Hdict.
    cbn [mbind option_bind] in Hstep. rewrite Hdict in Hstep. cbn [mbind option_bind] in Hstep.
    rewrite (proj2 (dictionary_validate_iff _)) in Hstep
      by (eexists; split_and!; [by apply run_dictionary|by apply run_entries_sorted|by apply run_entries_ids]).
    cbn [mbind option_bind] in Hstep. apply bind_Some in Hstep as ([entries om] & Hent & [= <-]).
    apply (cohort_entries dead (src_dead x) Hds HD (run_entries (src_run x)) _ (run_dictionary _ Hok)) in Hent as [-> Hom].
    simpl. rewrite !length_app, Hlen. simpl. split_and!; [| done |].
    - rewrite Nat.add_1_r, (take_S_r _ _ _ Hx), fmap_app, concat_app, Hacc. simpl. by rewrite app_nil_r.
    - intros i y dead' om' Hy Hd' [Ho|[Hge Ho]]%lookup_app_Some.
      + apply maps_app. by eapply Hmaps.
      + apply list_lookup_singleton_Some in Ho as [Hi <-]. assert (i = length pre) as -> by lia. simplify_eq.
        intros o k id Ho. destruct Hom as [_ Hom]. apply (Hom o k id Ho). by eapply lookup_lt_Some. }
  destruct Hinv as (-> & -> & Hm). rewrite Hn, firstn_all in *. done.
Qed.

(** ** The merged events *)

Lemma source_ok_at x : x ∈ xs → run_ok (src_run x) ∧ run_events (src_run x) ≠ ∅.
Proof using Hrep Hsrc. intros Hr%Hsrc. split; [by eapply rep_run|by eapply rep_events]. Qed.

Lemma sources_disjoint x y k p q :
  x ∈ xs → y ∈ xs → run_events (src_run x) !! k = Some p → run_events (src_run y) !! k = Some q → x = y.
Proof using Hrep Hsrc Hbefore.
  intros Hx Hy Hp Hq. destruct (source_ok_at x Hx) as [_ Hex], (source_ok_at y Hy) as [_ Hey].
  pose proof (run_bounds _ Hex k p Hp). pose proof (run_bounds _ Hey k q Hq).
  apply list_elem_of_lookup in Hx as [i Hi], Hy as [j Hj].
  destruct (Nat.lt_trichotomy i j) as [Hij|[->|Hij]]; [|congruence|].
  - pose proof (StronglySorted_at _ _ _ _ _ _ Hbefore Hij Hi Hj) as Hb. unfold source_before in Hb. lia.
  - pose proof (StronglySorted_at _ _ _ _ _ _ Hbefore Hij Hj Hi) as Hb. unfold source_before in Hb. lia.
Qed.

Lemma merged_Some k p :
  merged xs !! k = Some p ↔ ∃ x, x ∈ xs ∧ survivors x !! k = Some p.
Proof using Hrep Hsrc Hbefore.
  clear Hcohort Hdeads. assert (Hgen : ∀ ys, (∀ y, y ∈ ys → y ∈ xs) → merged ys !! k = Some p ↔ ∃ x, x ∈ ys ∧ survivors x !! k = Some p);
    [|by apply Hgen].
  induction ys as [|y ys IH]; intros Hys; simpl.
  { rewrite lookup_empty. split; [done|]. by intros (x & ?%not_elem_of_nil & _). }
  rewrite lookup_union_Some_raw, IH by (intros; apply Hys; by right). setoid_rewrite elem_of_cons. split.
  - naive_solver.
  - intros (x & [->|Hx] & Hk); [by left|]. destruct (survivors y !! k) as [q|] eqn:Hq; [|by right; eauto].
    left. pose proof (proj1 (survivors_Some _ _ _) Hk) as [Hk' _]. pose proof (proj1 (survivors_Some _ _ _) Hq) as [Hq' _].
    assert (x = y) as ->; [|congruence].
    apply (sources_disjoint x y k p q); [apply Hys; by right|apply Hys; left|apply Hk'|done].
Qed.

Lemma merged_typed k p : merged xs !! k = Some p → pending_typed k p.
Proof using Hrep Hsrc Hbefore.
  intros (x & Hx & [Hp _]%survivors_Some)%merged_Some. by apply (ro_typed _ (proj1 (source_ok_at x Hx))).
Qed.

Lemma surviving_elem x k id :
  x ∈ xs → (k, id) ∈ surviving_entries x ↔ ∃ p, survivors x !! k = Some p ∧ pending_id p = id.
Proof using Hrep Hsrc.
  clear Hcohort Hdeads. intros Hx. unfold surviving_entries. rewrite list_elem_of_filter, run_entries_elem by (apply source_ok_at; done).
  setoid_rewrite survivors_Some. simpl. naive_solver.
Qed.

Lemma entry_lt_sorted_unique (l k : list (N * N)) :
  StronglySorted entry_lt l → StronglySorted entry_lt k → (∀ e, e ∈ l ↔ e ∈ k) → l = k.
Proof.
  intros Hl Hk Hel. assert (Hnd : ∀ l, StronglySorted entry_lt l → NoDup l).
  { intros l' Hs. apply NoDup_alt. intros i j x Hi Hj. destruct (Nat.lt_trichotomy i j) as [Hij|[->|Hij]]; [|done|].
    - pose proof (StronglySorted_at _ _ _ _ _ _ Hs Hij Hi Hj) as Hlt. unfold entry_lt in Hlt. lia.
    - pose proof (StronglySorted_at _ _ _ _ _ _ Hs Hij Hj Hi) as Hlt. unfold entry_lt in Hlt. lia. }
  assert (AntiSymm (=) entry_lt) by (intros x y; unfold entry_lt; lia).
  apply (StronglySorted_unique entry_lt); [done..|]. apply NoDup_Permutation; auto.
Qed.

Lemma StronglySorted_concat {A} (P : relation A) (ls : list (list A)) :
  Forall (StronglySorted P) ls → StronglySorted (λ l k, ∀ x y, x ∈ l → y ∈ k → P x y) ls →
  StronglySorted P (concat ls).
Proof.
  intros Hls Hs. induction Hs as [|l ls _ IH Hl]; [constructor|]. apply Forall_cons in Hls as [Hl' Hls]. simpl.
  apply StronglySorted_app_2; [|done|by apply IH]. rewrite Forall_forall in Hl.
  intros x y Hx (k & Hy & Hk)%elem_of_concat. by eapply Hl.
Qed.

Context (level : N) (Hlevel : (level ≤ 255)%N) (Hids : unique_ids (merged xs)).
Abbreviation out := (merged_run level xs).

Lemma merged_run_ok : run_ok out.
Proof using Hrep Hsrc Hbefore Hlevel Hids.
  split; simpl; [apply merged_typed|done|done|]. intros l ks Hl. by rewrite lookup_empty in Hl.
Qed.

Lemma merged_entries : concat (surviving_entries <$> xs) = run_entries out.
Proof using Hrep Hsrc Hbefore Hlevel Hids.
  apply entry_lt_sorted_unique.
  - apply StronglySorted_concat.
    + apply Forall_fmap, Forall_forall. intros x Hx. unfold compose, surviving_entries.
      eapply StronglySorted_sublist; [apply sublist_filter|]. by apply run_entries_sorted, source_ok_at.
    + apply StronglySorted_of_at. intros i j l l' Hij Hi Hj. rewrite list_lookup_fmap in Hi, Hj.
      apply fmap_Some in Hi as (x & Hx & ->), Hj as (y & Hy & ->).
      pose proof (StronglySorted_at _ _ _ _ _ _ Hbefore Hij Hx Hy) as Hb. unfold source_before in Hb.
      apply list_elem_of_lookup_2 in Hx, Hy. intros [k id] [k' id'] Hk Hk'.
      apply surviving_elem in Hk as (p & [Hp _]%survivors_Some & _); [|done].
      apply surviving_elem in Hk' as (p' & [Hp' _]%survivors_Some & _); [|done].
      destruct (source_ok_at x Hx) as [_ Hex], (source_ok_at y Hy) as [_ Hey].
      pose proof (run_bounds _ Hex k p Hp). pose proof (run_bounds _ Hey k' p' Hp'). unfold entry_lt. simpl. lia.
  - apply run_entries_sorted, merged_run_ok.
  - intros [k id]. rewrite run_entries_elem by apply merged_run_ok. simpl. setoid_rewrite merged_Some.
    rewrite elem_of_concat. split.
    + intros (l & Hk & (x & -> & Hx)%list_elem_of_fmap). apply surviving_elem in Hk as (p & Hp & Hi); eauto.
    + intros (p & (x & Hx & Hp) & Hi). exists (surviving_entries x). split; [|apply list_elem_of_fmap; eauto].
      apply surviving_elem; eauto.
Qed.

(** An event is posted by the output when a source that keeps it posts it. *)
Lemma merged_posts f prefix e :
  run_posts out f prefix e ↔
  ∃ x, x ∈ xs ∧ run_posts (src_run x) f prefix e ∧ re_event_key e ∉ src_dead x.
Proof using Hrep Hsrc Hbefore.
  split.
  - intros (k & p & Hk & Hin & ->). simpl in Hk. apply merged_Some in Hk as (x & Hx & [Hp Hd]%survivors_Some).
    exists x. split; [done|]. split; [by exists k, p|]. simpl.
    destruct (ro_typed _ (proj1 (source_ok_at x Hx)) _ _ Hp) as [-> _]. done.
  - intros (x & Hx & (k & p & Hp & Hin & ->) & Hd). exists k, p. split; [|done]. simpl. apply merged_Some. exists x.
    split; [done|]. apply survivors_Some. split; [done|]. simpl in Hd.
    destruct (ro_typed _ (proj1 (source_ok_at x Hx)) _ _ Hp) as [E _]. by rewrite E in Hd.
Qed.

(** ** One family and shard *)

Section shard.
Context (oms : list (list (option N))) (Hlen : length oms = length xs).
Context (Hmaps : ∀ i x dead om, xs !! i = Some x → deads !! i = Some dead → oms !! i = Some om →
                   maps (run_entries out) (run_entries (src_run x)) om dead).
Context (cur : PackedStore) (f : Family) (s : N).
Context (Hcur : ∀ x, x ∈ xs → pk_segments cur !! (f, s, src_id x) = pk_segments pk !! (f, s, src_id x)).

(** What a source's segment gives the compaction. *)
Definition input_for (x : Source) (i : option DeadKeys * list (bytes * list RunEvent)) : Prop :=
  (∀ k, key_alive i.1 k ↔ k ∉ src_dead x) ∧
  (∀ p evs, (p, evs) ∈ i.2 → shard_for f p = s ∧ ∀ e, e ∈ evs ↔ run_posts (src_run x) f p e) ∧
  (∀ p e, run_posts (src_run x) f p e → shard_for f p = s → p ∈ i.2.*1).

Lemma segment_holds_input x v dead :
  segment_holds f s v (dictionary_view (run_entries (src_run x))) (run_posts (src_run x) f) →
  (∀ k, key_alive dead k ↔ k ∉ src_dead x) →
  ∃ view content, segment_parse v = Some view ∧ (∀ om, check_source f s (mkCompactionSegmentSource view om) = Some tt) ∧
    segment_of view (dictionary_view (run_entries (src_run x))) content ∧ sorted_content content ∧
    input_for x (dead, content).
Proof.
  intros (view & content & Hparse & Hf & Hs & [n Hval] & Hof & Hsorted & Hev & Hall) Hdead.
  exists view, content. split; [done|]. split.
  { intros om. unfold check_source. simpl. rewrite decide_False by (intros [?|?]; done).
    apply validate_prefix_directory_iff. apply segment_validate_iff in Hval as (recs & Hr & _). eauto. }
  split; [done|]. split; [done|]. split; [done|]. split; [|done]. simpl. intros p evs Hp. split; [|by apply (Hev p evs)].
  destruct (segment_validate_content view _ n Hval) as (content' & Hof' & _ & Hshard).
  apply list_elem_of_lookup in Hp as [j Hj]. destruct Hof as [Hl Hof], Hof' as [Hl' Hof'].
  destruct (lookup_lt_is_Some_2 content' j) as [[p' evs'] Hj']; [apply lookup_lt_Some in Hj; lia|].
  destruct (Hof j p evs Hj) as (r & Hr & <- & _), (Hof' j p' evs' Hj') as (r' & Hr' & <- & _).
  rewrite Forall_forall in Hshard. pose proof (Hshard _ (list_elem_of_lookup_2 _ _ _ Hj')) as Hsh. simpl in Hsh.
  rewrite Hf, Hs in Hsh. congruence.
Qed.

Lemma segment_sources_loop :
  ∃ sources inputs,
    foldl (λ o x, sources ← o; segment_source cur f s sources x) (Some []) (zip cohort oms) = Some sources ∧
    sources_ok (run_entries out) sources inputs ∧ Forall (λ c, check_source f s c = Some tt) sources ∧
    (∀ i, i ∈ inputs → ∃ x, x ∈ xs ∧ input_for x i) ∧
    (∀ x, x ∈ xs → is_Some (pk_segments pk !! (f, s, src_id x)) → ∃ i, i ∈ inputs ∧ input_for x i).
Proof using Hrep Hsrc Hbefore Hcohort Hdeads Hlevel Hids Hlen Hmaps Hcur.
  assert (Hn : length (zip cohort oms) = length xs).
  { rewrite length_zip, Hlen. apply (f_equal length) in Hcohort. rewrite !length_fmap in Hcohort. lia. }
  destruct (foldl_option_ind (segment_source cur f s) (λ pre sources, ∃ inputs,
      sources_ok (run_entries out) sources inputs ∧ Forall (λ c, check_source f s c = Some tt) sources ∧
      (∀ i, i ∈ inputs → ∃ x, x ∈ xs ∧ input_for x i) ∧
      (∀ x, x ∈ take (length pre) xs → is_Some (pk_segments pk !! (f, s, src_id x)) → ∃ i, i ∈ inputs ∧ input_for x i))
    (zip cohort oms) []) as (sources & Hf & inputs & ? & ? & ? & Hall).
  - exists []. split_and!; [split; [done|]; intros ? ? ? ? Hi; by rewrite lookup_nil in Hi|constructor| |].
    + by intros ? ?%not_elem_of_nil.
    + by intros ? ?%not_elem_of_nil.
  - intros pre [m om] post sources Hl (inputs & [Hsl Hso] & Hck & Hin & Hall).
    assert (Hi : zip cohort oms !! length pre = Some (m, om)) by (rewrite Hl; by apply list_lookup_middle).
    apply lookup_zip_Some in Hi as [Hm Hom].
    destruct (lookup_lt_is_Some_2 deads (length pre)) as [dead Hd].
    { apply lookup_lt_Some in Hom. apply Forall2_length in Hdeads. lia. }
    destruct (cohort_at (length pre) m dead) as (x & Hx & _ & Hid & Hr & Hds & HD); [by apply lookup_zip_Some|].
    assert (Hxin : x ∈ xs) by (by eapply list_elem_of_lookup_2).
    rewrite length_app, Nat.add_1_r, (take_S_r _ _ _ Hx).
    unfold segment_source. cbn [fst snd]. rewrite Hid, (Hcur x Hxin).
    destruct (pk_segments pk !! (f, s, src_id x)) as [v|] eqn:Hv.
    + destruct (rep_segments _ _ Hrep _ _ _ _ Hv) as (_ & r' & Hr' & Hh). assert (r' = src_run x) as -> by congruence.
      destruct (segment_holds_input x v dead Hh HD) as (view & content & -> & Hc & Hof & Hsc & Hinput).
      cbn [mbind option_bind]. eexists. split; [done|]. exists (inputs ++ [(dead, content)]). split_and!.
      * split; [rewrite !length_app; simpl; lia|]. intros i source dead' content' [Hi|[Hge Hi]]%lookup_app_Some Hi'.
        -- rewrite lookup_app_l in Hi' by (rewrite <-Hsl; by eapply lookup_lt_Some). by eapply Hso.
        -- apply list_lookup_singleton_Some in Hi as [Hi0 <-]. rewrite lookup_app_r in Hi' by lia.
           replace (i - length inputs) with 0 in Hi' by lia. simpl in Hi'. injection Hi' as <- <-.
           exists (dictionary_view (run_entries (src_run x))), (run_entries (src_run x)).
           split_and!; try done; [by eapply run_dictionary, rep_run|]. simpl. by eapply Hmaps.
      * apply Forall_app. split; [done|]. by constructor.
      * intros i [Hi| ->%list_elem_of_singleton]%elem_of_app; eauto.
      * intros y [Hy| ->%list_elem_of_singleton]%elem_of_app Hsome.
        -- destruct (Hall y Hy Hsome) as (i & ? & ?). exists i. split; [set_solver|done].
        -- exists (dead, content). split; [set_solver|done].
    + eexists. split; [done|]. exists inputs. split_and!; try done.
      intros y [Hy| ->%list_elem_of_singleton]%elem_of_app Hsome; [eauto|]. rewrite Hv in Hsome. by destruct Hsome.
  - exists sources, inputs. split_and!; try done. intros x Hx. apply Hall. by rewrite Hn, firstn_all.
Qed.

Lemma live_post_merged inputs p e :
  (∀ i, i ∈ inputs → ∃ x, x ∈ xs ∧ input_for x i) →
  (∀ x, x ∈ xs → is_Some (pk_segments pk !! (f, s, src_id x)) → ∃ i, i ∈ inputs ∧ input_for x i) →
  live_post inputs p e ↔ run_posts out f p e ∧ shard_for f p = s.
Proof using Hrep Hsrc Hbefore.
  clear Hmaps Hlen Hdeads Hcohort. intros Hin Hall. rewrite merged_posts. split.
  - intros (i & dead & content & evs & Hi & Hp & He & Hal). apply list_elem_of_lookup_2 in Hi.
    destruct (Hin _ Hi) as (x & Hx & Hal' & Hev & _). simpl in *. destruct (Hev p evs Hp) as [Hs Hm].
    split; [|done]. exists x. split; [done|]. split; [by apply Hm|by apply Hal'].
  - intros [(x & Hx & Hpost & Hd) Hs].
    assert (is_Some (pk_segments pk !! (f, s, src_id x))) as Hsome.
    { rewrite <-Hs. eapply (rep_posted _ _ Hrep); [by apply Hsrc|done]. }
    destruct (Hall x Hx Hsome) as ([dead content] & Hi & Hal & Hev & Hc). simpl in *.
    pose proof (Hc p e Hpost Hs) as ([p' evs] & -> & Hp)%list_elem_of_fmap. simpl in *.
    apply list_elem_of_lookup in Hi as [i Hi]. exists i, dead, content, evs. split_and!; [done|done| |by apply Hal].
    by apply (Hev p' evs Hp).
Qed.

Lemma out_rel_content es c r :
  Forall (λ e, re_created_at e ≤ u64_max)%N c.2 → out_rel es c r → rec_content es r c.
Proof.
  intros Ht [E Hps]. split; [done|]. split.
  - apply Forall_forall. intros p Hp. apply list_elem_of_lookup in Hp as [i Hi].
    destruct (Forall2_lookup_r _ _ _ _ _ Hps Hi) as (e & He & E' & _ & Ho). rewrite Forall_forall in Ht.
    apply list_elem_of_lookup_2, Ht in He. split; [|done]. by rewrite E'.
  - apply mapM_Some_2. apply Forall2_flip. eapply Forall2_impl; [exact Hps|].
    intros e p (E1 & Ho & _). unfold flip, resolve. unfold ordinal_is in Ho. rewrite Ho. simpl. rewrite E1. by destruct e.
Qed.

Lemma rec_nonempty es content recs p evs :
  Forall2 (out_rel es) content recs → seg_fits recs → (p, evs) ∈ content → ∃ e, e ∈ evs.
Proof.
  intros Hrel Hfit Hp. apply list_elem_of_lookup in Hp as [i Hi].
  destruct (Forall2_lookup_l _ _ _ _ _ Hrel Hi) as (r & Hr & _ & Hps).
  pose proof (sf_records _ Hfit) as Hrf. rewrite Forall_forall in Hrf.
  destruct (Hrf r (list_elem_of_lookup_2 _ _ _ Hr)) as [_ Hr2]. destruct evs as [|e evs].
  - simpl in Hps. by apply Forall2_nil_inv_l in Hps.
  - exists e. left.
Qed.

Lemma compacted_shard sources inputs c :
  sources_ok (run_entries out) sources inputs → Forall (λ c, check_source f s c = Some tt) sources → sources ≠ [] →
  (∀ p e, live_post inputs p e ↔ run_posts out f p e ∧ shard_for f p = s) →
  compact_segment f s sources (dictionary_view (run_entries out)) = Some c →
  match c with
  | None => ∀ p e, run_posts out f p e → shard_for f p ≠ s
  | Some c => (s ≤ shard_mask)%N ∧
      segment_holds f s (cg_value c) (dictionary_view (run_entries out)) (run_posts out f)
  end.
Proof using Hrep Hsrc Hbefore Hlevel Hids.
  clear Hcur Hmaps Hlen Hdeads Hcohort. intros Hso Hck Hne Hlp Hc. pose proof merged_run_ok as Hok.
  assert (Hkeys : ∀ p e e', live_post inputs p e → live_post inputs p e' → re_event_key e = re_event_key e' → e = e').
  { intros p e e' [(k & q & Hq & _ & ->) _]%Hlp [(k' & q' & Hq' & _ & ->) _]%Hlp E. simpl in E.
    destruct (ro_typed _ Hok _ _ Hq) as [E1 _], (ro_typed _ Hok _ _ Hq') as [E2 _]. rewrite <-E1 in Hq.
    rewrite <-E2 in Hq'. rewrite E in Hq. congruence. }
  destruct (compact_segment_spec (run_entries out) (dictionary_view (run_entries out)) (run_dictionary _ Hok)
    (run_entries_sorted _ Hok) sources inputs Hso Hkeys f s Hne Hck)
    as (content & recs & Hrel & Hsort & Hev & Hall & Hnil & Hcons).
  destruct (decide (recs = [])) as [->|Hrne].
  { rewrite Hnil in Hc by done. injection Hc as <-. intros p e Hpost Hs. apply Forall2_nil_inv_r in Hrel as ->.
    by pose proof (Hall p e (proj2 (Hlp p e) (conj Hpost Hs))) as ?%not_elem_of_nil. }
  destruct (Hcons Hrne) as [Hfit Hval]. specialize (Hfit _ Hc). rewrite (Hval Hfit) in Hc. injection Hc as <-. simpl.
  assert (Hsome : ∀ p evs, (p, evs) ∈ content → shard_for f p = s).
  { intros p evs Hp. destruct (rec_nonempty _ content recs p evs Hrel Hfit Hp) as [e He].
    by apply (Hev p evs e Hp), Hlp in He as [_ ?]. }
  assert (Hshard : Forall (λ c, shard_for f c.1 = s) content).
  { apply Forall_forall. intros [p evs] Hp. by apply (Hsome p evs). }
  destruct content as [|[p0 evs0] content']; [by apply Forall2_nil_inv_l in Hrel|].
  assert (Hs0 : shard_for f p0 = s) by (by apply Forall_cons in Hshard as [? _]).
  split; [rewrite <-Hs0; apply shard_for_mask|].
  apply (written_holds f s recs _ (run_entries out) ((p0, evs0) :: content') _ Hfit (run_dictionary _ Hok)); try done.
  - apply Forall2_same_length_lookup_2; [symmetry; by eapply Forall2_length|]. intros i r [p evs] Hr Hi.
    apply out_rel_content; [|by eapply (Forall2_lookup_lr _ _ _ _ _ _ Hrel)]. apply Forall_forall. intros e He.
    assert (Hp : (p, evs) ∈ (p0, evs0) :: content') by (by eapply list_elem_of_lookup_2).
    apply (Hev p evs e Hp), Hlp in He as [(k & q & Hq & _ & ->) _]. by apply (ro_typed _ Hok) in Hq as (_ & _ & ? & _).
  - rewrite <-Hs0. apply shard_for_mask.
  - intros ->. by rewrite <-Hs0.
  - intros p evs e Hp. rewrite (Hev p evs e Hp), Hlp. pose proof (Hsome p evs Hp). naive_solver.
  - intros p e Hpost Hs. by apply (Hall p e), Hlp.
Qed.
End shard.

(** ** All families and shards *)

Definition shard_pairs : list (Family * N) := all_families ≫= λ f, (λ s, (f, s)) <$> all_shards.

Lemma elem_of_shard_pairs f s : (f, s) ∈ shard_pairs ↔ (s ≤ shard_mask)%N.
Proof.
  unfold shard_pairs. rewrite <-elem_of_shards, list_elem_of_bind. split.
  - intros (f' & Hf & _). by apply list_elem_of_fmap in Hf as (s' & [= -> ->] & Hs).
  - intros Hs. exists f. split; [apply list_elem_of_fmap; eauto|apply elem_of_families].
Qed.

Section loop.
Context (oms : list (list (option N))) (Hlen : length oms = length xs).
Context (Hmaps : ∀ i x dead om, xs !! i = Some x → deads !! i = Some dead → oms !! i = Some om →
                   maps (run_entries out) (run_entries (src_run x)) om dead).
Context (base : PackedStore) (Hbase : pk_segments base = pk_segments pk).
Context (id : N) (Hid : ∀ x, x ∈ xs → src_id x ≠ id) (dict : bytes).

(** The staged segments hold the output's postings, all of those processed. *)
Definition shards_done (pairs : list (Family * N)) (cur : PackedStore) (seg : Family → N → option bytes) : Prop :=
  staged base cur id dict seg ∧
  (∀ f s v, seg f s = Some v →
     (s ≤ shard_mask)%N ∧ segment_holds f s v (dictionary_view (run_entries out)) (run_posts out f)) ∧
  (∀ f p e, run_posts out f p e → (f, shard_for f p) ∈ pairs → is_Some (seg f (shard_for f p))).

Lemma compact_family_shard_spec pairs cur seg postings f s acc :
  shards_done pairs cur seg →
  compact_family_shard (zip cohort oms) id (dictionary_view (run_entries out)) (cur, postings) (f, s) = Some acc →
  ∃ seg', shards_done (pairs ++ [(f, s)]) acc.1 seg'.
Proof using Hrep Hsrc Hbefore Hcohort Hdeads Hlevel Hids Hlen Hmaps Hbase Hid.
  intros (Hst & Hseg & Hpost) Hc. unfold compact_family_shard in Hc.
  destruct (segment_sources_loop oms Hlen Hmaps cur f s) as (sources & inputs & Hloop & Hso & Hck & Hin & Hall).
  { intros x Hx. rewrite (sg_segments _ _ _ _ _ Hst), decide_False, Hbase by (by apply Hid). done. }
  rewrite Hloop in Hc. cbn [mbind option_bind] in Hc.
  assert (Hlp : ∀ p e, live_post inputs p e ↔ run_posts out f p e ∧ shard_for f p = s)
    by (intros p e; by apply live_post_merged).
  assert (Hsame : (∀ p e, run_posts out f p e → shard_for f p ≠ s) → shards_done (pairs ++ [(f, s)]) cur seg).
  { intros Hno. split_and!; [done..|]. intros f' p e Hpe [Hp|Hp%list_elem_of_singleton]%elem_of_app; [by eapply Hpost|].
    injection Hp as -> Hs. by destruct (Hno p e Hpe). }
  destruct (decide (sources = [])) as [->|Hne].
  { injection Hc as <-. exists seg. apply Hsame. intros p e Hpe Hs. destruct Hso as [Hl _].
    destruct (proj2 (Hlp p e) (conj Hpe Hs)) as (i & ? & ? & ? & Hi & _). apply lookup_lt_Some in Hi. simpl in Hl. lia. }
  apply bind_Some in Hc as (c & Hcomp & Hc). pose proof (compacted_shard f s sources inputs c Hso Hck Hne Hlp Hcomp) as Hres.
  destruct c as [c|]; [|injection Hc as <-; eauto]. injection Hc as <-. simpl.
  exists (λ f' s', if decide ((f', s') = (f, s)) then Some (cg_value c) else seg f' s'). split_and!.
  - destruct Hst as [E1 E2 E3 E4 E5 E6]. split; simpl; try done. intros f' s' id'.
    destruct (decide ((f', s', id') = (f, s, id))) as [[= -> -> ->]|Hne'].
    + by rewrite lookup_insert_eq, !decide_True.
    + rewrite lookup_insert_ne, E6 by congruence. destruct (decide (id' = id)) as [->|]; [|done].
      rewrite decide_False; [done|]. congruence.
  - intros f' s' v. destruct (decide _) as [[= -> ->]|]; [|apply Hseg]. intros [= <-]. done.
  - intros f' p e Hpe Hp. destruct (decide _) as [|Hn]; [by eexists|]. eapply Hpost; [done|].
    apply elem_of_app in Hp as [|?%list_elem_of_singleton]; done.
Qed.

Lemma compact_all_shards cur0 cur postings :
  shards_done [] cur0 (λ _ _, None) →
  foldl (λ o x, acc ← o; compact_family_shard (zip cohort oms) id (dictionary_view (run_entries out)) acc x)
    (Some (cur0, 0%N)) shard_pairs = Some (cur, postings) →
  ∃ seg, shards_done shard_pairs cur seg.
Proof using Hrep Hsrc Hbefore Hcohort Hdeads Hlevel Hids Hlen Hmaps Hbase Hid.
  intros H0 Hf. change cur with (cur, postings).1. revert Hf.
  apply (foldl_option_inv (compact_family_shard (zip cohort oms) id (dictionary_view (run_entries out)))
    (λ pre acc, ∃ seg, shards_done pre acc.1 seg)); [by eexists|].
  intros pre [f s] post [cur' n] acc _ [seg Hd] Hc. by eapply compact_family_shard_spec.
Qed.
End loop.

Lemma out_bounds entries lo hi :
  entries = run_entries out → head entries = Some lo → last entries = Some hi →
  run_min out = lo.1 ∧ run_max out = hi.1 ∧ length entries = size (merged xs) ∧ merged xs ≠ ∅.
Proof using Hrep Hsrc Hbefore Hlevel Hids.
  intros -> Hlo Hhi. pose proof (run_entries_keys _ merged_run_ok) as Hkeys.
  unfold run_min, run_max. rewrite <-Hkeys, fmap_last, Hhi. simpl. split_and!; [|done| |].
  - by destruct (run_entries out) as [|e l]; [|injection Hlo as ->].
  - by rewrite length_run_entries.
  - intros E. assert (Hl : length (run_entries out) = 0) by (rewrite length_run_entries; simpl; by rewrite E, map_size_empty).
    apply nil_length_inv in Hl. by rewrite Hl in Hlo.
Qed.

Lemma stream_spec result pk' :
  stream_compaction_cohort pk cohort deads = Some (result, pk') →
  match result with
  | None => pk' = pk ∧ merged xs = ∅
  | Some (id, lo, hi, n) =>
      ∃ dict seg, (0 < id ∧ id + 1 ≤ u64_max)%N ∧ (∀ id' r, R !! id' = Some r → (id' < id)%N) ∧
        staged (set_next_run_id pk (Some (id + 1)%N)) pk' id dict seg ∧ staged_run out dict seg ∧
        mkRunMeta id level lo hi n = meta_of id out
  end.
Proof using Hrep Hsrc Hbefore Hcohort Hdeads Hlevel Hids.
  unfold stream_compaction_cohort. destruct (decide _) as [|_]; [done|].
  intros Hs. apply bind_Some in Hs as ([entries oms] & Hent & Hs).
  destruct (cohort_sources entries oms Hent) as (Hout & Hlen & Hmaps). rewrite merged_entries in Hout.
  pose proof merged_run_ok as Hok.
  destruct (head entries) as [lo|] eqn:Hlo.
  2:{ destruct entries; [|done]. simpl in Hs. injection Hs as <- <-. split; [done|].
      apply map_size_empty_inv. pose proof (length_run_entries out) as Hl. rewrite <-Hout in Hl. done. }
  destruct (last entries) as [hi|] eqn:Hhi.
  2:{ apply last_None in Hhi as ->. done. }
  destruct lo as [klo ilo], hi as [khi ihi].
  apply bind_Some in Hs as (dict & Hdict & Hs). apply bind_Some in Hs as ([id base] & Halloc & Hs).
  destruct (allocate_fresh pk R id base Hrep Halloc) as (-> & Hidb & Hfresh).
  apply encode_dictionary_view in Hdict. rewrite Hdict in Hs. cbn [mbind option_bind] in Hs.
  apply bind_Some in Hs as ([cur postings] & Hloop & Hs). destruct (decide (postings = 0%N)); [done|]. injection Hs as <- <-.
  rewrite Hout in Hmaps, Hdict, Hloop.
  assert (Hnone : R !! id = None).
  { destruct (R !! id) as [r|] eqn:E; [|done]. apply Hfresh in E. lia. }
  apply (compact_all_shards oms Hlen Hmaps (set_next_run_id pk (Some (id + 1)%N)) eq_refl id) with (dict := dict) in Hloop
    as (seg & Hst & Hseg & Hpost).
  - exists dict, seg. split; [done|]. split; [done|]. split; [done|]. split.
    + split; try done. intros f p e Hpe. eapply Hpost; [done|]. apply elem_of_shard_pairs, shard_for_mask.
    + destruct (out_bounds entries (klo, ilo) (khi, ihi) Hout Hlo Hhi) as (E1 & E2 & E3 & _). simpl in E1, E2.
      unfold meta_of. by rewrite E1, E2, E3.
  - intros x Hx E. apply Hsrc in Hx. rewrite E in Hx. congruence.
  - split_and!; [|done|by intros ? ? ? _ ?%not_elem_of_nil]. split; try done. intros f s id'. simpl.
    destruct (decide (id' = id)) as [->|]; [|done]. destruct (pk_segments pk !! (f, s, id)) eqn:E; [|done].
    apply (rep_segments _ _ Hrep) in E as (_ & r & Hr & _). congruence.
Qed.
End cohort.
