(* ===== verification/PackedLevels.v ===== *)
(** * Levels

    [compact_overfull_levels] replaces the oldest runs of an overfull level by
    one run of the next level, until no level is overfull.  What the tables hold
    does not change, and the loop ends: each compaction leaves fewer runs. *)

From S2P Require Import Prelude Grammar Schema QueueBytes Canonical Ingest Postings PostingsRead PostingsFormat PostingsRun Compaction CompactionCorrect PostingsCodec PackedStore PackedRep PackedUpdate PackedCompact.

Definition runs_unique (R : gmap N Run) : Prop :=
  ∀ k k' p p', runs_live R k p → runs_live R k' p' → pending_id p = pending_id p' → k = k'.

Definition same_live (R R' : gmap N Run) : Prop := ∀ k p, runs_live R k p ↔ runs_live R' k p.

(** The runs of a level. *)
Definition level_runs (R : gmap N Run) (level : N) : gmap N Run := filter (λ x, run_level x.2 = level) R.

Definition delete_ids (R : gmap N Run) (ids : list N) : gmap N Run := foldl (λ R id, delete id R) R ids.

Lemma delete_ids_Some R ids id r : delete_ids R ids !! id = Some r ↔ R !! id = Some r ∧ id ∉ ids.
Proof.
  unfold delete_ids. rewrite (foldl_delete_lookup ids R id). destruct (decide (id ∈ ids)); naive_solver.
Qed.

Lemma size_delete_ids R ids :
  NoDup ids → (∀ id, id ∈ ids → is_Some (R !! id)) → size (delete_ids R ids) + length ids = size R.
Proof.
  intros Hnd. revert R. induction Hnd as [|id ids Hid _ IH]; intros R Hids; [simpl; unfold delete_ids; simpl; lia|].
  destruct (Hids id) as [r Hr]; [left|]. cbn [length].
  change (delete_ids R (id :: ids)) with (delete_ids (delete id R) ids). specialize (IH (delete id R)).
  rewrite map_size_delete, Hr in IH. assert (size R ≠ 0).
  { intros E. apply map_size_empty_inv in E. by rewrite E in Hr. }
  assert (Hdel : ∀ id', id' ∈ ids → is_Some (delete id R !! id')); [|specialize (IH Hdel); lia].
  intros id' Hid'. rewrite lookup_delete_ne by (intros ->; done). apply Hids. by right.
Qed.

(** The catalog rows of the sources. *)
Definition meta_of_source (m : RunMeta) (x : Source) : Prop :=
  rm_run_id m = src_id x ∧ rm_min_event_key m = run_min (src_run x).

Lemma cohort_ids cohort xs : Forall2 meta_of_source cohort xs → rm_run_id <$> cohort = src_id <$> xs.
Proof. induction 1 as [|m x ms ys [E _] _ IH]; [done|]. rewrite !fmap_cons. by rewrite E, IH. Qed.

Lemma delete_cohort_rep `{ShardHash} cohort xs pk R :
  Forall2 meta_of_source cohort xs → NoDup (src_id <$> xs) → rep pk R →
  (∀ x, x ∈ xs → R !! src_id x = Some (src_run x)) →
  rep (foldl delete_run pk cohort) (delete_ids R (src_id <$> xs)).
Proof.
  intros Hcohort. revert pk R. induction Hcohort as [|m x ms ys [Hm1 Hm2] _ IH]; intros pk R Hnd Hr Hs; [done|].
  rewrite fmap_cons in *. apply NoDup_cons in Hnd as [Hx Hnd].
  change (delete_ids R (src_id x :: (src_id <$> ys))) with (delete_ids (delete (src_id x) R) (src_id <$> ys)).
  apply IH; [done| |].
  - apply (delete_run_rep pk R m (src_id x) (src_run x)); try done. apply Hs. left.
  - intros y Hy. rewrite lookup_delete_ne; [apply Hs; by right|]. intros E. apply Hx. rewrite E.
    apply list_elem_of_fmap. eauto.
Qed.

Section replace.
Context `{ShardHash} (pk : PackedStore) (R : gmap N Run) (Hrep : rep pk R).
Context (xs : list Source) (cohort : list RunMeta) (deads : list (option DeadKeys)).
Context (Hsrc : ∀ x, x ∈ xs → R !! src_id x = Some (src_run x)).
Context (Hbefore : StronglySorted source_before xs).
Context (Hcohort : Forall2 meta_of_source cohort xs).
Context (Hdeads : Forall2 (λ dead x, dead_sorted dead ∧ ∀ k, key_alive dead k ↔ k ∉ src_dead x) deads xs).
Context (level : N) (Hlevel : (level ≤ 255)%N) (Hids : unique_ids (merged xs)).

Lemma sources_NoDup : NoDup (src_id <$> xs).
Proof using Hrep Hsrc Hbefore.
  clear Hlevel Hids. apply NoDup_alt. intros i j id Hi Hj. rewrite list_lookup_fmap in Hi, Hj.
  apply fmap_Some in Hi as (x & Hx & ->), Hj as (y & Hy & E).
  assert (Hxr : R !! src_id x = Some (src_run x)) by (by eapply Hsrc, list_elem_of_lookup_2).
  assert (Hyr : R !! src_id y = Some (src_run y)) by (by eapply Hsrc, list_elem_of_lookup_2).
  assert (Er : src_run x = src_run y) by congruence.
  destruct (rep_meta_ok pk R Hrep _ _ Hyr) as [[_ Hle] _]. simpl in Hle.
  destruct (Nat.lt_trichotomy i j) as [Hij|[->|Hij]]; [|done|].
  - pose proof (StronglySorted_at _ _ _ _ _ _ Hbefore Hij Hx Hy) as Hb. unfold source_before in Hb. rewrite Er in Hb. lia.
  - pose proof (StronglySorted_at _ _ _ _ _ _ Hbefore Hij Hy Hx) as Hb. unfold source_before in Hb. rewrite Er in Hb. lia.
Qed.

(** The runs are replaced by one with their surviving events, or by none. *)
Definition replaced : gmap N Run := delete_ids R (src_id <$> xs).

Context (Hplaced : merged xs ≠ ∅ → placed replaced (merged_run level xs)).

Lemma replace_spec result pk1 pk' :
  stream_compaction_cohort pk cohort deads = Some (result, pk1) →
  match result with
  | None => pk' = foldl delete_run pk1 cohort
  | Some (id, lo, hi, n) => insert_run_catalog (foldl delete_run pk1 cohort) (mkRunMeta id level lo hi n) = Some pk'
  end →
  match result with
  | None => merged xs = ∅ ∧ rep pk' replaced
  | Some _ => merged xs ≠ ∅ ∧ ∃ id, R !! id = None ∧ rep pk' (<[id := merged_run level xs]> replaced)
  end.
Proof using Hrep Hsrc Hbefore Hcohort Hdeads Hlevel Hids Hplaced.
  intros Hs Hres. pose proof (cohort_ids _ _ Hcohort) as Hci.
  pose proof (stream_spec pk R Hrep xs cohort deads Hsrc Hbefore Hci Hdeads level Hlevel Hids result pk1 Hs) as Hspec.
  destruct result as [[[[id lo] hi] n]|].
  - destruct Hspec as (dict & seg & Hidb & Hfresh & Hst & Hrun & Hmeta). rewrite Hmeta in Hres.
    assert (Hnone : R !! id = None).
    { destruct (R !! id) as [r|] eqn:E; [|done]. apply Hfresh in E. lia. }
    destruct (insert_run_catalog_Some _ _ _ Hres) as (v & Hv & _).
    assert (Hne : merged xs ≠ ∅).
    { intros E. assert (Hm : meta_ok (meta_of id (merged_run level xs))) by (apply meta_encode_ok; eauto).
      destruct Hm as [_ [Hm _]]. simpl in Hm. rewrite E, map_size_empty in Hm. lia. }
    split; [done|]. exists id. split; [done|].
    assert (Hr0 : rep (set_next_run_id pk (Some (id + 1)%N)) R).
    { apply rep_set_next; [done|lia|]. intros id' r Hr. apply Hfresh in Hr. lia. }
    eapply (publish_rep (foldl delete_run (set_next_run_id pk (Some (id + 1)%N)) cohort) (foldl delete_run pk1 cohort)).
    + apply delete_cohort_rep; [done|apply sources_NoDup|exact Hr0|exact Hsrc].
    + unfold replaced. destruct (delete_ids R (src_id <$> xs) !! id) as [r|] eqn:E; [|done].
      apply delete_ids_Some in E as [E _]. congruence.
    + apply delete_runs_staged; [exact Hst|]. apply Forall_forall. intros m Hm E.
      assert (Hin : rm_run_id m ∈ rm_run_id <$> cohort) by (apply list_elem_of_fmap; eauto).
      rewrite Hci, E in Hin. apply list_elem_of_fmap in Hin as (x & -> & Hx). apply Hsrc in Hx. congruence.
    + exact Hrun.
    + by apply Hplaced.
    + exists (id + 1)%N. split; [by rewrite delete_runs_next|lia].
    + exact Hres.
  - destruct Hspec as [-> He]. subst pk'. split; [done|]. apply delete_cohort_rep; [done|apply sources_NoDup|done|done].
Qed.
End replace.

(** ** One compaction *)

Lemma dead_set_none level count events : dead_set (mkRun level count events ∅) = ∅.
Proof.
  apply set_eq. intros k. rewrite elem_of_dead_set. simpl. setoid_rewrite lookup_empty. set_solver.
Qed.

Lemma run_live_none level count events : run_live (mkRun level count events ∅) = events.
Proof.
  apply map_eq. intros k. apply option_eq. intros p. rewrite run_live_Some, dead_set_none. set_solver.
Qed.

Section compact.
Context `{ShardHash} (pk : PackedStore) (R : gmap N Run) (Hrep : rep pk R) (Hcounted : counted R) (Hunique : runs_unique R).
Context (level : N) (fan_in : nat).

Definition level_metas : list RunMeta := filter (λ m, rm_level m = level) (catalog_metas R).
Definition chosen : list RunMeta := take fan_in (merge_sort min_key_le level_metas).

Definition source_of (m : RunMeta) : Source :=
  let r := default (mkRun 0 0 ∅ ∅) (R !! rm_run_id m) in mkSource (rm_run_id m) r (dead_set r).
Definition chosen_sources : list Source := source_of <$> chosen.

Lemma elem_of_level m : m ∈ level_metas ↔ ∃ id r, R !! id = Some r ∧ m = meta_of id r ∧ run_level r = level.
Proof.
  unfold level_metas. rewrite list_elem_of_filter, elem_of_catalog. split.
  - intros [Hl (id & r & Hr & ->)]. exists id, r. done.
  - intros (id & r & Hr & -> & Hl). split; [done|]. eauto.
Qed.

Lemma sorted_level m : m ∈ merge_sort min_key_le level_metas ↔ m ∈ level_metas.
Proof. by rewrite merge_sort_Permutation. Qed.

Lemma elem_of_chosen m : m ∈ chosen → ∃ id r, R !! id = Some r ∧ m = meta_of id r ∧ run_level r = level.
Proof. intros (i & Hm & _)%elem_of_take. by apply list_elem_of_lookup_2, sorted_level, elem_of_level in Hm. Qed.

Lemma min_key_comparator : Comparator (λ m n, cmp (rm_min_event_key m) (rm_min_event_key n)).
Proof. apply comparator_by. Qed.

Lemma level_sorted : StronglySorted min_key_le (merge_sort min_key_le level_metas).
Proof.
  apply (sort_by_sorted _ _ min_key_comparator). intros m n. unfold min_key_le.
  by rewrite <-(N.compare_le_iff (rm_min_event_key m)).
Qed.

Lemma level_NoDup : NoDup (merge_sort min_key_le level_metas).
Proof.
  rewrite merge_sort_Permutation. apply NoDup_filter, (NoDup_fmap_1 rm_run_id), catalog_ids.
Qed.

(** Of two runs of the level, the one with the lesser first key is before. *)
Lemma level_before i j m n :
  i < j → merge_sort min_key_le level_metas !! i = Some m → merge_sort min_key_le level_metas !! j = Some n → range_lt m n.
Proof using Hrep.
  intros Hij Hm Hn. pose proof (StronglySorted_at _ _ _ _ _ _ level_sorted Hij Hm Hn) as Hle.
  assert (Hne : m ≠ n). { intros ->. assert (i = j); [|lia]. by eapply NoDup_lookup; [apply level_NoDup|..]. }
  apply list_elem_of_lookup_2, sorted_level, elem_of_level in Hm as (id & r & Hr & -> & _).
  apply list_elem_of_lookup_2, sorted_level, elem_of_level in Hn as (id' & r' & Hr' & -> & _).
  unfold min_key_le in Hle. simpl in Hle. unfold range_lt. simpl.
  destruct (rep_meta_ok pk R Hrep _ _ Hr) as [[_ ?] _], (rep_meta_ok pk R Hrep _ _ Hr') as [[_ ?] _]. simpl in *.
  destruct (decide (id = id')) as [->|Hid]; [congruence|].
  destruct (rep_ranges _ _ Hrep id id' r r' Hr Hr' Hid); lia.
Qed.

Lemma chosen_source x : x ∈ chosen_sources →
  R !! src_id x = Some (src_run x) ∧ src_dead x = dead_set (src_run x) ∧ run_level (src_run x) = level ∧
  meta_of (src_id x) (src_run x) ∈ chosen.
Proof.
  intros (m & -> & Hm)%list_elem_of_fmap. pose proof (elem_of_chosen m Hm) as (id & r & Hr & -> & Hl).
  unfold source_of. simpl. rewrite Hr. simpl. done.
Qed.

Lemma chosen_before : StronglySorted source_before chosen_sources.
Proof using Hrep.
  apply StronglySorted_of_at. intros i j x y Hij Hx Hy. unfold chosen_sources in Hx, Hy. rewrite list_lookup_fmap in Hx, Hy.
  apply fmap_Some in Hx as (m & Hm & ->), Hy as (n & Hn & ->). unfold chosen in Hm, Hn.
  apply lookup_take_Some in Hm as [Hm _], Hn as [Hn _]. pose proof (level_before i j m n Hij Hm Hn) as Hb.
  apply list_elem_of_lookup_2, sorted_level, elem_of_level in Hm as (id & r & Hr & -> & _).
  apply list_elem_of_lookup_2, sorted_level, elem_of_level in Hn as (id' & r' & Hr' & -> & _).
  unfold source_before, source_of. simpl. rewrite Hr, Hr'. exact Hb.
Qed.

Lemma chosen_metas : Forall2 meta_of_source chosen chosen_sources.
Proof.
  unfold chosen_sources. apply Forall2_fmap_r, Forall_Forall2_diag, Forall_forall.
  intros m (id & r & Hr & -> & _)%elem_of_chosen. unfold meta_of_source, source_of. simpl. by rewrite Hr.
Qed.

Lemma chosen_survivors x : x ∈ chosen_sources → survivors x = run_live (src_run x).
Proof. intros (_ & Hd & _)%chosen_source. unfold survivors, run_live. by rewrite Hd. Qed.

Lemma merged_chosen k p :
  merged chosen_sources !! k = Some p ↔ ∃ x, x ∈ chosen_sources ∧ run_live (src_run x) !! k = Some p.
Proof using Hrep.
  rewrite (merged_Some pk R Hrep chosen_sources (λ x Hx, proj1 (chosen_source x Hx)) chosen_before).
  split; intros (x & Hx & Hk); exists x; (split; [done|]); by rewrite chosen_survivors in *.
Qed.

Lemma merged_chosen_unique : unique_ids (merged chosen_sources).
Proof using Hrep Hunique.
  intros k k' p p' (x & Hx & Hp)%merged_chosen (y & Hy & Hp')%merged_chosen.
  apply Hunique; [exists (src_id x), (src_run x)|exists (src_id y), (src_run y)]; (split; [|done]); by apply chosen_source.
Qed.

Abbreviation output := (merged_run (level + 1) chosen_sources).

Lemma output_bound k :
  is_Some (run_events output !! k) → ∃ x, x ∈ chosen_sources ∧ (run_min (src_run x) ≤ k ≤ run_max (src_run x))%N.
Proof using Hrep.
  intros [p Hp]. simpl in Hp. apply merged_chosen in Hp as (x & Hx & [Hp _]%run_live_Some). exists x. split; [done|].
  eapply run_bounds; [|done]. eapply rep_events; [done|]. by apply chosen_source.
Qed.

(** A run that is not chosen is on one side of all those chosen. *)
Lemma chosen_apart id r x :
  R !! id = Some r → (id ∉ src_id <$> chosen_sources) → x ∈ chosen_sources →
  if decide (level < run_level r)%N then (run_max r < run_min (src_run x))%N else (run_max (src_run x) < run_min r)%N.
Proof using Hrep.
  intros Hr Hid Hx. destruct (chosen_source x Hx) as (Hrx & _ & Hl & Hm).
  assert (Hne : id ≠ src_id x) by (intros ->; apply Hid, list_elem_of_fmap; eauto).
  pose proof (rep_ranges _ _ Hrep _ _ _ _ Hr Hrx Hne) as Hd.
  pose proof (rep_levels _ _ Hrep _ _ _ _ Hr Hrx) as Hl1. pose proof (rep_levels _ _ Hrep _ _ _ _ Hrx Hr) as Hl2.
  destruct (decide (level < run_level r)%N) as [Hlt|Hge]; [destruct Hd; [done|lia]|].
  destruct (decide (run_level r = level)) as [He|Hn]; [|destruct Hd; [lia|done]].
  assert (Hin : meta_of id r ∈ merge_sort min_key_le level_metas) by (apply sorted_level, elem_of_level; eauto).
  apply list_elem_of_lookup in Hin as [j Hj]. apply elem_of_take in Hm as (i & Hi & Hif).
  assert (Hjf : fan_in ≤ j).
  { destruct (decide (fan_in ≤ j)) as [|Hn]; [done|]. exfalso. apply Hid. apply list_elem_of_fmap.
    exists (source_of (meta_of id r)). split; [done|]. apply list_elem_of_fmap. eexists. split; [done|].
    apply elem_of_take. exists j. split; [done|lia]. }
  exact (level_before i j _ _ ltac:(lia) Hi Hj).
Qed.

Lemma output_placed : merged chosen_sources ≠ ∅ → placed (replaced R chosen_sources) output.
Proof using Hrep.
  intros Hne id r [Hr Hid]%delete_ids_Some.
  destruct (run_min_spec output Hne) as [_ Hmin], (run_max_spec output Hne) as [_ Hmax].
  apply output_bound in Hmin as (x & Hx & Hxb), Hmax as (y & Hy & Hyb).
  pose proof (chosen_apart id r x Hr Hid Hx) as Hax. pose proof (chosen_apart id r y Hr Hid Hy) as Hay. simpl.
  destruct (decide (level < run_level r)%N); [left|right]; lia.
Qed.

Lemma chosen_deads :
  ∃ deads, mapM (λ meta, load_run_deaths pk (rm_run_id meta)) chosen = Some deads ∧
    Forall2 (λ dead x, dead_sorted dead ∧ ∀ k, key_alive dead k ↔ k ∉ src_dead x) deads chosen_sources.
Proof using Hrep.
  unfold chosen_sources. assert (Hall : ∀ m, m ∈ chosen → m ∈ chosen) by done. revert Hall. generalize chosen at 1 3 4.
  intros l. induction l as [|m l IH]; intros Hall; [exists []; by split; [|constructor]|].
  destruct IH as (deads & Hd & Hf); [intros; apply Hall; by right|].
  destruct (elem_of_chosen m) as (id & r & Hr & -> & _); [apply Hall; left|].
  destruct (load_run_deaths_spec pk R Hrep id r Hr) as (dead & Hl & Hs & Hk).
  exists (dead :: deads). cbn [mapM]. change (rm_run_id (meta_of id r)) with id. rewrite Hl. cbn [mbind option_bind].
  rewrite Hd. split; [done|]. constructor; [|done]. split; [done|]. unfold source_of. simpl. by rewrite Hr.
Qed.

Lemma replaced_live k p :
  runs_live R k p ↔ runs_live (replaced R chosen_sources) k p ∨ merged chosen_sources !! k = Some p.
Proof using Hrep.
  rewrite merged_chosen. split.
  - intros (id & r & Hr & Hk). destruct (decide (id ∈ src_id <$> chosen_sources)) as [Hin|Hin].
    + right. apply list_elem_of_fmap in Hin as (x & -> & Hx). exists x. split; [done|].
      destruct (chosen_source x Hx) as [Hr' _]. by simplify_eq.
    + left. exists id, r. split; [|done]. by apply delete_ids_Some.
  - intros [(id & r & [Hr _]%delete_ids_Some & Hk)|(x & Hx & Hk)]; [by exists id, r|].
    exists (src_id x), (src_run x). split; [by apply chosen_source|done].
Qed.

Lemma replaced_level l : level_runs (replaced R chosen_sources) l ⊆ level_runs R l.
Proof.
  unfold level_runs. apply map_filter_subseteq_mono. apply map_subseteq_spec. by intros id r [? _]%delete_ids_Some.
Qed.

Lemma compact_cohort_spec pk' :
  2 ≤ length chosen → compact_cohort pk level chosen = Some pk' →
  ∃ R', rep pk' R' ∧ counted R' ∧ same_live R R' ∧ size R' < size R ∧
    (∀ l, (l ≤ level)%N → level_runs R' l ⊆ level_runs R l) ∧ ∀ n, runs_below R n → runs_below R' n.
Proof using Hrep Hcounted Hunique.
  intros Hlen Hc. unfold compact_cohort in Hc. destruct (N.leb_spec (level + 1) 255) as [Hlevel|]; [|done].
  destruct chosen_deads as (deads & Hd & Hdeads). rewrite Hd in Hc. cbn [mbind option_bind] in Hc.
  apply bind_Some in Hc as ([result pk1] & Hstream & Hc).
  assert (Hsize : size (replaced R chosen_sources) + length chosen = size R).
  { rewrite <-(length_fmap source_of chosen), <-(length_fmap src_id). apply size_delete_ids.
    - by apply (sources_NoDup pk R Hrep), chosen_before; intros; apply chosen_source.
    - intros id (x & -> & Hx)%list_elem_of_fmap. apply chosen_source in Hx as [-> _]. by eexists. }
  assert (Hcr : counted (replaced R chosen_sources)) by (intros id r [Hr _]%delete_ids_Some; by eapply Hcounted).
  pose proof (replace_spec pk R Hrep chosen_sources chosen deads (λ x Hx, proj1 (chosen_source x Hx)) chosen_before
    chosen_metas Hdeads (level + 1) Hlevel merged_chosen_unique output_placed result pk1 pk' Hstream) as Hspec.
  destruct result as [[[[id0 lo] hi] n]|].
  2:{ injection Hc as <-. destruct (Hspec eq_refl) as [He Hrep'].
    exists (replaced R chosen_sources). split_and!; [done..| |lia| |].
    + intros k p. rewrite replaced_live, He, lookup_empty. naive_solver.
    + intros l _. apply replaced_level.
    + intros n Hb id r [Hr _]%delete_ids_Some. by eapply Hb. }
  destruct (Hspec Hc) as (Hne & id & Hnone & Hrep').
  assert (Hnone' : replaced R chosen_sources !! id = None).
  { destruct (replaced R chosen_sources !! id) as [r|] eqn:E; [|done]. apply delete_ids_Some in E as [E _]. congruence. }
  exists (<[id := output]> (replaced R chosen_sources)). split_and!; [done| | | | |].
  - intros id' r [[<- <-]|[_ Hr]]%lookup_insert_Some; [|by eapply Hcr]. unfold merged_run. by rewrite run_live_none.
  - intros k p. rewrite replaced_live. unfold runs_live. split.
    + intros [(id' & r & Hr & Hk)|Hk]; [exists id', r|exists id, output].
        -- rewrite lookup_insert_ne by congruence. done.
        -- rewrite lookup_insert_eq. split; [done|]. unfold merged_run. by rewrite run_live_none.
    + intros (id' & r & [[<- <-]|[_ Hr]]%lookup_insert_Some & Hk); [|by left; eauto].
        right. unfold merged_run in Hk. by rewrite run_live_none in Hk.
  - rewrite map_size_insert, Hnone'. lia.
  - intros l Hl. etrans; [|apply replaced_level]. unfold level_runs. rewrite map_filter_insert_False by (simpl; lia).
      apply map_filter_subseteq_mono, delete_subseteq.
  - intros m Hb id' r [[<- <-]|[_ Hr]]%lookup_insert_Some; [|apply delete_ids_Some in Hr as [Hr _]; by eapply Hb].
      destruct (run_max_spec output Hne) as [_ Hmax]. apply output_bound in Hmax as (x & Hx & Hxb).
      destruct (chosen_source x Hx) as [Hr _]. apply Hb in Hr. lia.
Qed.
End compact.

(** ** The loop *)

Lemma same_live_unique R R' : same_live R R' → runs_unique R → runs_unique R'.
Proof. intros Hs Hu k k' p p' Hp%Hs Hp'%Hs. by apply Hu. Qed.

Definition level_fan_in (level : N) : nat := if decide (level = 0%N) then base_run_fan_in else large_run_fan_in.

Lemma level_fan_in_pos level : 2 ≤ level_fan_in level.
Proof. unfold level_fan_in, base_run_fan_in, large_run_fan_in. destruct (decide _); lia. Qed.

Lemma length_level_metas R level : length (level_metas R level) = size (level_runs R level).
Proof.
  assert (Hp : rm_run_id <$> level_metas R level ≡ₚ (map_to_list (level_runs R level)).*1).
  { apply NoDup_Permutation; [|apply NoDup_fst_map_to_list|].
    - eapply sublist_NoDup; [apply catalog_ids|]. apply fmap_sublist, sublist_filter.
    - intros id. rewrite !list_elem_of_fmap. split.
      + intros (m & -> & (id' & r & Hr & -> & Hl)%elem_of_level). exists (id', r). split; [done|].
        apply elem_of_map_to_list, map_lookup_filter_Some. done.
      + intros ([id' r] & -> & [Hr Hl]%elem_of_map_to_list%map_lookup_filter_Some). exists (meta_of id' r). split; [done|].
        apply elem_of_level. eauto. }
  apply Permutation_length in Hp. by rewrite !length_fmap, length_map_to_list in Hp.
Qed.

Section levels.
Context `{ShardHash}.

Definition underfull (R : gmap N Run) (level : N) : Prop := size (level_runs R level) < level_fan_in level.

#[global] Instance underfull_dec R level : Decision (underfull R level).
Proof. unfold underfull. apply _. Defined.

Definition has_higher (R : gmap N Run) (level : N) : bool := existsb (λ m, (level <? rm_level m)%N) (catalog_metas R).

Lemma has_higher_spec R level : has_higher R level = true ↔ ∃ id r, R !! id = Some r ∧ (level < run_level r)%N.
Proof.
  unfold has_higher. rewrite existsb_exists. split.
  - intros (m & (id & r & Hr & ->)%list_elem_of_In%elem_of_catalog & Hlt%N.ltb_lt). eauto.
  - intros (id & r & Hr & Hlt). exists (meta_of id r). split; [|by apply N.ltb_lt].
    apply list_elem_of_In, elem_of_catalog. eauto.
Qed.

(** One turn of the loop. *)
Lemma compact_levels_turn fuel pk R level :
  rep pk R →
  compact_levels (S fuel) pk level =
  if decide (underfull R level) then
    if has_higher R level then compact_levels fuel pk (level + 1) else Some pk
  else pk ← compact_cohort pk level (chosen R level (level_fan_in level)); compact_levels fuel pk level.
Proof.
  intros Hrep. cbn [compact_levels]. rewrite (catalog_run_metas_spec pk R Hrep). cbn [mbind option_bind].
  fold (level_fan_in level). fold (level_metas R level). fold (has_higher R level).
  fold (chosen R level (level_fan_in level)).
  assert (Hun : underfull R level ↔ length (level_metas R level) < level_fan_in level)
    by (unfold underfull; by rewrite length_level_metas).
  destruct (Nat.ltb_spec (length (level_metas R level)) (level_fan_in level)) as [Hlt|Hge].
  - rewrite decide_True by (by apply Hun). destruct (has_higher R level) eqn:Hh; [|done].
    apply has_higher_spec in Hh as (id & r & Hr & Hl). pose proof (ro_level _ (rep_run _ _ Hrep _ _ Hr)).
    destruct (N.leb_spec (level + 1) 255); [done|lia].
  - rewrite decide_False by (rewrite Hun; lia). done.
Qed.

Lemma length_chosen R level : ¬ underfull R level → 2 ≤ length (chosen R level (level_fan_in level)).
Proof.
  unfold underfull. rewrite <-length_level_metas. intros Hn. unfold chosen. rewrite length_take.
  rewrite merge_sort_Permutation. pose proof (level_fan_in_pos level). lia.
Qed.

Lemma compact_levels_spec fuel pk R level pk' :
  rep pk R → counted R → runs_unique R → (∀ l, (l < level)%N → underfull R l) →
  compact_levels fuel pk level = Some pk' →
  ∃ R', rep pk' R' ∧ counted R' ∧ same_live R R' ∧ (∀ n, runs_below R n → runs_below R' n) ∧ ∀ l, underfull R' l.
Proof.
  revert pk R level. induction fuel as [|fuel IH]; intros pk R level Hrep Hc Hu Hlow Hl; [done|].
  rewrite (compact_levels_turn fuel pk R level Hrep) in Hl. destruct (decide (underfull R level)) as [Hun|Hov].
  - destruct (has_higher R level) eqn:Hh.
    + apply (IH pk R (level + 1)%N); try done. intros l Hll. destruct (decide (l = level)) as [->|]; [done|]. apply Hlow. lia.
    + injection Hl as <-. exists R. split_and!; [done..|by intros|done|]. intros l.
      destruct (N.lt_trichotomy l level) as [|[->|Hgt]]; [by apply Hlow|done|].
      unfold underfull. assert (level_runs R l = ∅) as ->.
      { apply map_empty. intros id. apply map_lookup_filter_None. right. intros r Hr E. simpl in E. apply not_true_iff_false in Hh. apply Hh, has_higher_spec.
        exists id, r. split; [done|lia]. }
      rewrite map_size_empty. pose proof (level_fan_in_pos l). lia.
  - apply bind_Some in Hl as (pk1 & Hcomp & Hl).
    destruct (compact_cohort_spec pk R Hrep Hc Hu level _ pk1 (length_chosen R level Hov) Hcomp) as (R1 & Hr1 & Hc1 & Hs1 & _ & Hlv & Hb1).
    destruct (IH pk1 R1 level) as (R' & ? & ? & Hs' & Hb' & ?); try done; [by eapply same_live_unique| |].
    + intros l Hll. specialize (Hlow l Hll). unfold underfull in *. eapply Nat.le_lt_trans, Hlow.
      apply map_subseteq_size, Hlv. lia.
    + exists R'. split_and!; [done..| |by auto|done]. intros k p. by rewrite (Hs1 k p), (Hs' k p).
Qed.

(** The fuel does not matter once it is above the measure: the number of runs
    and of levels left. *)
Lemma compact_levels_fuel n m pk R level :
  rep pk R → counted R → runs_unique R →
  size R + N.to_nat (255 - level) < n → size R + N.to_nat (255 - level) < m →
  compact_levels n pk level = compact_levels m pk level.
Proof.
  revert m pk R level. induction n as [|n IH]; intros m pk R level Hrep Hc Hu Hn Hm; [lia|].
  destruct m as [|m]; [lia|]. rewrite !(compact_levels_turn _ pk R level Hrep).
  destruct (decide (underfull R level)) as [Hun|Hov].
  - destruct (has_higher R level) eqn:Hh; [|done].
    apply has_higher_spec in Hh as (id & r & Hr & Hl). pose proof (ro_level _ (rep_run _ _ Hrep _ _ Hr)).
    apply (IH m pk R (level + 1)%N); try done; lia.
  - destruct (compact_cohort pk level (chosen R level (level_fan_in level))) as [pk1|] eqn:Hcomp; [|done].
    cbn [mbind option_bind].
    destruct (compact_cohort_spec pk R Hrep Hc Hu level _ pk1 (length_chosen R level Hov) Hcomp)
      as (R1 & Hr1 & Hc1 & Hs1 & Hlt & _).
    apply (IH m pk1 R1 level); try done; [by eapply same_live_unique|lia|lia].
Qed.

Lemma size_metas pk R : rep pk R → size (pk_metas pk) = size R.
Proof.
  intros Hrep. rewrite <-!size_dom. f_equal. apply set_eq. intros id. rewrite !elem_of_dom.
  pose proof (rep_metas _ _ Hrep id) as Hm. destruct (pk_metas pk !! id), (R !! id); naive_solver.
Qed.

Lemma compact_overfull_levels_fuel pk R n :
  rep pk R → counted R → runs_unique R → size (pk_metas pk) + 257 ≤ n →
  compact_levels n pk 0 = compact_overfull_levels pk.
Proof.
  intros Hrep Hc Hu Hn. unfold compact_overfull_levels. apply (compact_levels_fuel _ _ pk R); try done;
    rewrite (size_metas pk R Hrep) in *; change (N.to_nat (255 - 0)) with 255; lia.
Qed.

Lemma compact_overfull_levels_spec pk R pk' :
  rep pk R → counted R → runs_unique R → compact_overfull_levels pk = Some pk' →
  ∃ R', rep pk' R' ∧ counted R' ∧ same_live R R' ∧ (∀ n, runs_below R n → runs_below R' n) ∧ ∀ l, underfull R' l.
Proof. intros Hrep Hc Hu. apply compact_levels_spec; try done. intros l Hl. lia. Qed.
End levels.
