(* ===== verification/PackedPublish.v ===== *)
(** * Publishing a batch

    [publish_pending] writes the events of a batch as a run of level 0, above
    all keys of the live runs, and compacts the levels.  The tables then hold
    the batch's events besides those they held. *)

From S2P Require Import Prelude Grammar Schema QueueBytes Canonical Ingest Postings PostingsRead PostingsFormat PostingsRun PostingsCodec PackedStore PackedRep PackedUpdate PackedCompact PackedLevels.

Lemma segment_holds_ext `{ShardHash} f s v d M M' :
  (∀ p e, M p e ↔ M' p e) → segment_holds f s v d M → segment_holds f s v d M'.
Proof.
  intros Hm (view & content & H1 & H2 & H3 & H4 & H5 & H6 & H7 & H8). exists view, content. split_and!; try done.
  - intros p evs Hp. destruct (H7 p evs Hp) as [? He]. split; [done|]. intros e. by rewrite He, Hm.
  - intros p e Hp%Hm. by eapply H8.
Qed.

Section segments.
Context (id : N) (segs : list (Family * N * bytes)) (t : gmap (Family * N * N) bytes).

Lemma insert_segments_other f s id' : id' ≠ id → insert_segments id segs t !! (f, s, id') = t !! (f, s, id').
Proof.
  intros Hne. unfold insert_segments. induction segs as [|x l IH] using rev_ind; [done|]. rewrite foldl_app. simpl.
  rewrite lookup_insert_ne by congruence. done.
Qed.

Lemma insert_segments_elem f s v :
  insert_segments id segs t !! (f, s, id) = Some v → (f, s, v) ∈ segs ∨ t !! (f, s, id) = Some v.
Proof.
  unfold insert_segments. induction segs as [|[[f' s'] v'] l IH] using rev_ind; [by right|]. rewrite foldl_app. simpl.
  intros [[[= -> ->] ->]|[_ Hv]]%lookup_insert_Some; [left; set_solver|]. destruct (IH Hv); [left; set_solver|by right].
Qed.

Lemma insert_segments_some f s : (f, s) ∈ segs.*1 → is_Some (insert_segments id segs t !! (f, s, id)).
Proof.
  unfold insert_segments. induction segs as [|[[f' s'] v'] l IH] using rev_ind; [by intros ?%not_elem_of_nil|].
  rewrite foldl_app, fmap_app. simpl. intros Hin. destruct (decide ((f, s) = (f', s'))) as [[= -> ->]|Hne].
  - rewrite lookup_insert_eq. by eexists.
  - rewrite lookup_insert_ne by congruence. apply IH. apply elem_of_app in Hin as [|?%list_elem_of_singleton]; done.
Qed.
End segments.

Section publish.
Context `{ShardHash} (pk : PackedStore) (R : gmap N Run) (Hrep : rep pk R).
Context (events : gmap N PendingEvent) (Htyped : ∀ k p, events !! k = Some p → pending_typed k p).

Lemma elem_of_memberships m :
  m ∈ memberships_for_pending events ↔
  ∃ k p f prefix, events !! k = Some p ∧ (f, prefix) ∈ pending_prefixes p ∧ m = push_membership f prefix (pending_run_event p).
Proof.
  unfold memberships_for_pending. rewrite elem_of_concat.
  assert (Hp : ∀ p, m ∈ pending_memberships p ↔
    ∃ f prefix, (f, prefix) ∈ pending_prefixes p ∧ m = push_membership f prefix (pending_run_event p)).
  { intros p. assert (E : pending_memberships p =
      (λ x, push_membership x.1 x.2 (pending_run_event p)) <$> pending_prefixes p).
    { unfold pending_memberships, pending_prefixes. rewrite fmap_app, <-list_fmap_compose. done. }
    rewrite E, list_elem_of_fmap. split.
    - intros ([f px] & -> & ?). eauto.
    - intros (f & px & ? & ->). by exists (f, px). }
  split.
  - intros (l & Hm & ([k p] & -> & Hk%elem_of_ordered_map)%list_elem_of_fmap). apply Hp in Hm as (f & px & ? & ?).
    by exists k, p, f, px.
  - intros (k & p & f & px & Hk & Hpx & ->). exists (pending_memberships p). split; [apply Hp; eauto|].
    apply list_elem_of_fmap. exists (k, p). by rewrite elem_of_ordered_map.
Qed.

Lemma memberships_typed : Forall membership_typed (memberships_for_pending events).
Proof using Htyped.
  apply Forall_forall. intros m (k & p & f & px & Hk & _ & ->)%elem_of_memberships.
  destruct (Htyped k p Hk) as (E & ? & ? & ?). unfold membership_typed. simpl. by rewrite E.
Qed.

Context (encoded : EncodedRun) (Hencoded : encode_run (memberships_for_pending events) = Some encoded).

Definition new_run : Run := mkRun 0 (er_dictionary_entries encoded) events ∅.

Lemma new_run_written :
  run_written (memberships_for_pending events) encoded (run_entries new_run) ∧ run_ok new_run.
Proof using Htyped Hencoded.
  destruct (encode_run_written _ _ memberships_typed Hencoded) as [es Hw].
  assert (Hel : ∀ k id, (k, id) ∈ es ↔ ∃ p, events !! k = Some p ∧ pending_id p = id).
  { intros k id. rewrite (rw_entries _ _ _ Hw). setoid_rewrite elem_of_memberships. split.
    - intros (m & (k' & p & f & px & Hk & _ & ->) & Ek & Ei). simpl in *. destruct (Htyped k' p Hk) as [E _].
      exists p. split; [congruence|done].
    - intros (p & Hk & <-). destruct (Htyped k p Hk) as [E _].
      exists (push_membership FGlobal [] (pending_run_event p)). split; [|done].
      exists k, p, FGlobal, []. split_and!; [done|left|done]. }
  assert (Hok : run_ok new_run).
  { split; simpl; [done| |done|].
    - intros k k' p p' Hp Hp' E. assert (H1 : (k, pending_id p) ∈ es) by (apply Hel; eauto).
      assert (H2 : (k', pending_id p) ∈ es) by (apply Hel; rewrite E; eauto).
      pose proof (unique_by_key snd es _ _ (rw_ids _ _ _ Hw) H1 H2 eq_refl) as Eq. by injection Eq.
    - intros l ks Hl. by rewrite lookup_empty in Hl. }
  assert (es = run_entries new_run) as <-; [|done].
  apply entry_lt_sorted_unique; [apply Hw|by apply run_entries_sorted|].
  intros [k id]. rewrite Hel, run_entries_elem by apply Hok. done.
Qed.

Lemma new_run_posts f prefix e :
  (∃ m, m ∈ memberships_for_pending events ∧ mb_family m = f ∧ mb_prefix m = prefix ∧ mb_event m = e) ↔
  run_posts new_run f prefix e.
Proof.
  setoid_rewrite elem_of_memberships. split.
  - intros (m & (k & p & f' & px & Hk & Hpx & ->) & <- & <- & <-). by exists k, p.
  - intros (k & p & Hk & Hpx & ->). eexists. split; [by exists k, p, f, prefix|done].
Qed.

(** The rows [insert_run] writes before the catalog's. *)
Definition staged_rows (pk0 : PackedStore) (id : N) : PackedStore :=
  set_segments (set_dictionaries pk0 (<[id := er_dictionary encoded]> (pk_dictionaries pk0)))
    (insert_segments id (er_segments encoded) (pk_segments pk0)).

Lemma new_run_staged pk0 id :
  (∀ f s, pk_segments pk0 !! (f, s, id) = None) →
  staged pk0 (staged_rows pk0 id) id (er_dictionary encoded)
    (λ f s, insert_segments id (er_segments encoded) (pk_segments pk0) !! (f, s, id)) ∧
  staged_run new_run (er_dictionary encoded)
    (λ f s, insert_segments id (er_segments encoded) (pk_segments pk0) !! (f, s, id)).
Proof using Htyped Hencoded.
  intros Hnone. destruct new_run_written as [Hw Hok]. split.
  - split; try done. intros f s id'. simpl. destruct (decide (id' = id)) as [->|Hne]; [done|].
    by apply insert_segments_other.
  - split; try done; [apply (rw_parse _ _ _ Hw)| |].
    + intros f s v [Hin|Hv]%insert_segments_elem; [|by rewrite Hnone in Hv].
      assert (Hm : (f, s) ∈ (er_segments encoded).*1) by (apply list_elem_of_fmap; by exists (f, s, v)).
      apply (rw_member _ _ _ Hw) in Hm as (m & Hm & <- & <-).
      split; [rewrite (rw_shard _ _ _ Hw m Hm); apply shard_for_mask|].
      eapply segment_holds_ext, (rw_segment _ _ _ Hw _ _ _ Hin). intros p e. apply new_run_posts.
    + intros f px e (m & Hm & <- & <- & _)%new_run_posts. apply insert_segments_some, (rw_member _ _ _ Hw).
      exists m. split_and!; [done..|]. by apply (rw_shard _ _ _ Hw).
Qed.
End publish.

(** ** The batch *)

Section publish_pending.
Context `{ShardHash}.

Lemma new_run_size events encoded :
  (∀ k p, events !! k = Some p → pending_typed k p) → encode_run (memberships_for_pending events) = Some encoded →
  run_count (new_run events encoded) = N.of_nat (size events).
Proof.
  intros Ht He. destruct (new_run_written events Ht encoded He) as [Hw _]. simpl.
  by rewrite (rw_count _ _ _ Hw), length_run_entries.
Qed.

(** ** One run more *)

Section insert_new.
Context (pk : PackedStore) (R : gmap N Run) (next : N) (events : gmap N PendingEvent) (encoded : EncodedRun).
Context (Hrep : rep pk R) (Hbelow : runs_below R next) (Hne : events ≠ ∅).
Context (Hev : ∀ k p, events !! k = Some p → pending_typed k p ∧ (next ≤ k)%N).
Context (Henc : encode_run (memberships_for_pending events) = Some encoded).
Abbreviation r := (new_run events encoded).

Lemma new_run_bounds : (next ≤ run_min r)%N ∧ is_Some (events !! run_max r).
Proof using Hne Hev.
  destruct (run_min_spec r Hne) as [_ [p Hp]], (run_max_spec r Hne) as [_ Hmax]. split; [|done]. by apply (Hev _ p).
Qed.

Lemma insert_run_rep id pk0 pk' :
  allocate_run_id pk = Some (id, pk0) →
  insert_run pk0 (mkRunMeta id 0 (run_min r) (run_max r) (er_dictionary_entries encoded)) encoded = Some pk' →
  R !! id = None ∧ rep pk' (<[id := r]> R).
Proof using Hrep Hbelow Hne Hev Henc.
  intros Halloc Hins. destruct (allocate_fresh pk R id pk0 Hrep Halloc) as (-> & Hidb & Hfresh).
  assert (Hnone : R !! id = None).
  { destruct (R !! id) as [r'|] eqn:E; [|done]. apply Hfresh in E. lia. }
  assert (Hseg : ∀ f s, pk_segments (set_next_run_id pk (Some (id + 1)%N)) !! (f, s, id) = None).
  { intros f s. simpl. destruct (pk_segments pk !! (f, s, id)) eqn:E; [|done].
    apply (rep_segments _ _ Hrep) in E as (_ & r' & Hr' & _). congruence. }
  destruct (new_run_staged events (λ k p Hk, proj1 (Hev k p Hk)) encoded Henc _ id Hseg) as [Hst Hrun]. split; [done|].
  eapply (publish_rep (set_next_run_id pk (Some (id + 1)%N)) (staged_rows encoded (set_next_run_id pk (Some (id + 1)%N)) id));
    [|done|exact Hst|exact Hrun| | |exact Hins].
  - apply rep_set_next; [done|lia|]. intros id' r' Hr'. apply Hfresh in Hr'. lia.
  - intros id' r' Hr'. left. apply Hbelow in Hr'. pose proof new_run_bounds. simpl. lia.
  - exists (id + 1)%N. split; [done|lia].
Qed.

Lemma insert_run_live id k p :
  R !! id = None → runs_live (<[id := r]> R) k p ↔ runs_live R k p ∨ events !! k = Some p.
Proof.
  intros Hnone. assert (Hl : run_live r = events) by apply run_live_none. unfold runs_live. split.
  - intros (id' & r' & [[<- <-]|[_ Hr']]%lookup_insert_Some & Hk); [right; by rewrite Hl in Hk|left; eauto].
  - intros [(id' & r' & Hr' & Hk)|Hk]; [exists id', r'|exists id, r].
    + rewrite lookup_insert_ne by congruence. done.
    + by rewrite lookup_insert_eq, Hl.
Qed.
End insert_new.

Lemma publish_pending_spec pk R next next' events pk' :
  rep pk R → counted R → runs_below R next → events ≠ ∅ →
  (∀ k p, events !! k = Some p → pending_typed k p ∧ (next ≤ k < next')%N) →
  (∀ k k' p p', runs_live R k p ∨ events !! k = Some p → runs_live R k' p' ∨ events !! k' = Some p' →
     pending_id p = pending_id p' → k = k') →
  publish_pending pk events = Some pk' →
  ∃ R', rep pk' R' ∧ counted R' ∧ runs_below R' next' ∧
    (∀ k p, runs_live R' k p ↔ runs_live R k p ∨ events !! k = Some p) ∧ ∀ l, underfull R' l.
Proof.
  intros Hrep Hc Hbelow Hne Hev Hu Hp. unfold publish_pending in Hp.
  apply bind_Some in Hp as ([id pk0] & Halloc & Hp). apply bind_Some in Hp as (encoded & Henc & Hp).
  assert (Hev' : ∀ k p, events !! k = Some p → pending_typed k p ∧ (next ≤ k)%N).
  { intros k p Hk. destruct (Hev k p Hk). split; [done|lia]. }
  set (r := new_run events encoded).
  rewrite (proj1 (run_min_spec r Hne) : head (ordered_map events).*1 = _) in Hp. cbn [mbind option_bind] in Hp.
  rewrite (proj1 (run_max_spec r Hne) : last (ordered_map events).*1 = _) in Hp. cbn [mbind option_bind] in Hp.
  apply bind_Some in Hp as (pk2 & Hins & Hcomp).
  destruct (insert_run_rep pk R next events encoded Hrep Hbelow Hne Hev' Henc id pk0 pk2 Halloc Hins) as [Hnone Hrep1].
  pose proof (λ k p, insert_run_live R events encoded id k p Hnone) as Hlive.
  destruct (compact_overfull_levels_spec pk2 (<[id := r]> R) pk') as (R' & ? & ? & Hs & Hb & ?); try done.
  - intros id' r' [[<- <-]|[_ Hr']]%lookup_insert_Some; [|by apply Hc in Hr']. subst r.
    rewrite (new_run_size events encoded (λ k p Hk, proj1 (Hev k p Hk)) Henc). unfold new_run. by rewrite run_live_none.
  - intros k k' p p' Hk Hk'. apply Hu; by apply Hlive.
  - destruct (new_run_bounds next events encoded Hne Hev') as [_ [p Hmax]]. apply Hev in Hmax as [_ Hmax]. exists R'.
    split_and!; try done.
    + apply Hb. intros id' r' [[<- <-]|[_ Hr']]%lookup_insert_Some; [apply Hmax|]. apply Hbelow in Hr'. lia.
    + intros k q. rewrite <-(Hs k q). apply Hlive.
Qed.
End publish_pending.
