(* ===== verification/PackedDeaths.v ===== *)
(** * Recording deaths

    [apply_deaths] finds the run of each dead key and adds the keys to the run's
    blocks, which carry over like the digits of a binary counter.  A run with no
    live event left is deleted; one whose blocks are all occupied is rewritten
    without its dead events. *)

From S2P Require Import Prelude Grammar Schema QueueBytes Canonical Ingest Postings PostingsRead PostingsFormat PostingsRun PostingsCodec PackedStore PackedRep PackedUpdate PackedCompact PackedLevels.

(** Distinct keys of an interval are no more than the interval holds. *)
Lemma sorted_keys_length l lo hi :
  StronglySorted N.lt l → (∀ k, k ∈ l → lo ≤ k ≤ hi)%N → l = [] ∨ (N.of_nat (length l) ≤ hi - lo + 1)%N.
Proof.
  intros Hs. revert lo. induction Hs as [|x l _ IH Hx]; intros lo Hk; [by left|right].
  rewrite Forall_forall in Hx. assert (lo ≤ x ≤ hi)%N by (apply Hk; left).
  destruct (IH (x + 1)%N) as [->|Hl].
  - intros k Hin. pose proof (Hx k Hin). assert (lo ≤ k ≤ hi)%N by (apply Hk; by right). lia.
  - cbn. lia.
  - cbn [length]. destruct l as [|y l]; [cbn; lia|]. assert (x < y)%N by (apply Hx; left).
    assert (lo ≤ y ≤ hi)%N by (apply Hk; right; left). lia.
Qed.

Definition with_deaths (r : Run) (D : gmap nat (list N)) : Run :=
  mkRun (run_level r) (run_count r) (run_events r) D.
Definition with_count (r : Run) (n : N) : Run :=
  mkRun (run_level r) n (run_events r) (run_deaths r).

(** Keys to add to the blocks of a run. *)
Definition block_ok (r : Run) (ks : list N) : Prop :=
  ks ≠ [] ∧ StronglySorted N.lt ks ∧ ∀ k, k ∈ ks → is_Some (run_events r !! k).

Section deaths.
Context `{ShardHash}.

Lemma block_typed pk R id r ks :
  rep pk R → R !! id = Some r → block_ok r ks → Forall (λ k, k ≤ u64_max)%N ks ∧ (N.of_nat (length ks) ≤ u64_max)%N.
Proof.
  intros Hrep Hr (Hne & Hs & Hk). pose proof (rep_events pk R Hrep id r Hr) as He.
  destruct (rep_meta_typed pk R Hrep id r Hr) as (_ & _ & _ & Hmax & _).
  destruct (rep_meta_ok pk R Hrep id r Hr) as [[Hmin Hle] _]. simpl in *.
  assert (Hb : ∀ k, k ∈ ks → (run_min r ≤ k ≤ run_max r)%N).
  { intros k [p Hp]%Hk. by eapply run_bounds. }
  split; [apply Forall_forall; intros k Hin%Hb; lia|].
  destruct (sorted_keys_length ks _ _ Hs Hb); [done|lia].
Qed.

Lemma block_roundtrip pk R id r ks :
  rep pk R → R !! id = Some r → block_ok r ks → ∃ v, dead_encode ks = Some v ∧ dead_decode v = Some ks.
Proof.
  intros Hrep Hr Hb. destruct (block_typed pk R id r ks Hrep Hr Hb) as [Ht Hn]. destruct Hb as (Hne & Hs & _).
  by apply dead_roundtrip.
Qed.

(** ** Changing the rows of one run *)

(** The count and the blocks of a run may change. *)
Lemma rep_set_run pk R id r n D m t :
  rep pk R → R !! id = Some r →
  Some <$> m !! id = Some (meta_encode (meta_of id (mkRun (run_level r) n (run_events r) D))) →
  (∀ id', id' ≠ id → m !! id' = pk_metas pk !! id') →
  (∀ l ks, D !! l = Some ks → l < max_death_blocks ∧ block_ok r ks) →
  (∀ l, dead_decode <$> t !! (id, l) = Some <$> D !! l) →
  (∀ id' l, id' ≠ id → t !! (id', l) = pk_deaths pk !! (id', l)) →
  rep (set_deaths (set_metas pk m) t) (<[id := mkRun (run_level r) n (run_events r) D]> R).
Proof.
  intros Hrep Hr Hm Hmo HD Ht Hother. pose proof (rep_run _ _ Hrep _ _ Hr) as Hok. split; simpl.
  - intros id' r' [[<- <-]|[_ Hr']]%lookup_insert_Some; [|by eapply rep_run].
    split; simpl; try apply Hok. intros l ks Hl. by apply HD.
  - intros id' r' [[<- <-]|[_ Hr']]%lookup_insert_Some; by eapply rep_id.
  - pose proof (rep_next _ _ Hrep) as Hn. destruct (pk_next_run_id pk); [|by rewrite Hn in Hr]. split; [apply Hn|].
    intros id' r' [[<- <-]|[_ Hr']]%lookup_insert_Some; by eapply Hn.
  - intros id'. destruct (decide (id' = id)) as [->|]; [by rewrite lookup_insert_eq|].
    rewrite lookup_insert_ne, Hmo by done. apply (rep_metas _ _ Hrep).
  - intros id'. rewrite (rep_dictionaries _ _ Hrep). destruct (decide (id' = id)) as [->|]; [|by rewrite lookup_insert_ne].
    by rewrite lookup_insert_eq, Hr.
  - intros k v. rewrite (rep_by_min _ _ Hrep). split; intros (id' & r' & Hr' & Hk & ->).
    + destruct (decide (id' = id)) as [->|]; [|exists id', r'; by rewrite lookup_insert_ne].
      exists id, (mkRun (run_level r) n (run_events r) D). simplify_eq. by rewrite lookup_insert_eq.
    + apply lookup_insert_Some in Hr' as [[<- <-]|[_ Hr']]; eauto.
  - intros id' l. destruct (decide (id' = id)) as [->|].
    + rewrite lookup_insert_eq. apply Ht.
    + rewrite lookup_insert_ne, Hother by done. apply (rep_deaths _ _ Hrep).
  - intros f s id' v Hv. destruct (rep_segments _ _ Hrep _ _ _ _ Hv) as (Hs & r' & Hr' & Hh). split; [done|].
    destruct (decide (id' = id)) as [->|]; [|exists r'; by rewrite lookup_insert_ne].
    exists (mkRun (run_level r) n (run_events r) D). simplify_eq. by rewrite lookup_insert_eq.
  - intros id' r' f px e [[<- <-]|[_ Hr']]%lookup_insert_Some Hpost; by eapply (rep_posted _ _ Hrep).
  - intros id1 id2 r1 r2 [[<- <-]|[Hn1 Hr1]]%lookup_insert_Some [[<- <-]|[Hn2 Hr2]]%lookup_insert_Some Hne; [done|..].
    + exact (rep_ranges _ _ Hrep _ _ _ _ Hr Hr2 Hne).
    + exact (rep_ranges _ _ Hrep _ _ _ _ Hr1 Hr Hne).
    + exact (rep_ranges _ _ Hrep _ _ _ _ Hr1 Hr2 Hne).
  - intros id1 id2 r1 r2 [[<- <-]|[Hn1 Hr1]]%lookup_insert_Some [[<- <-]|[Hn2 Hr2]]%lookup_insert_Some; [done|..].
    + exact (rep_levels _ _ Hrep _ _ _ _ Hr Hr2).
    + exact (rep_levels _ _ Hrep _ _ _ _ Hr1 Hr).
    + exact (rep_levels _ _ Hrep _ _ _ _ Hr1 Hr2).
Qed.

Lemma rep_set_deaths pk R id r t D :
  rep pk R → R !! id = Some r →
  (∀ l ks, D !! l = Some ks → l < max_death_blocks ∧ block_ok r ks) →
  (∀ l, dead_decode <$> t !! (id, l) = Some <$> D !! l) →
  (∀ id' l, id' ≠ id → t !! (id', l) = pk_deaths pk !! (id', l)) →
  rep (set_deaths pk t) (<[id := with_deaths r D]> R).
Proof.
  intros Hrep Hr HD Ht Hother. pose proof (rep_metas _ _ Hrep id) as Hm. rewrite Hr in Hm.
  assert (E : set_deaths pk t = set_deaths (set_metas pk (pk_metas pk)) t) by (by destruct pk).
  rewrite E. by apply rep_set_run.
Qed.

Lemma rep_set_count pk R id r n v :
  rep pk R → R !! id = Some r → meta_encode (meta_of id (with_count r n)) = Some v →
  rep (set_metas pk (<[id := v]> (pk_metas pk))) (<[id := with_count r n]> R).
Proof.
  intros Hrep Hr Hv. assert (E : set_metas pk (<[id := v]> (pk_metas pk)) =
    set_deaths (set_metas pk (<[id := v]> (pk_metas pk))) (pk_deaths pk)) by (by destruct pk).
  rewrite E. apply rep_set_run; try done.
  - rewrite lookup_insert_eq. simpl. by rewrite <-Hv.
  - intros id' Hne. by rewrite lookup_insert_ne.
  - intros l ks Hl. apply (ro_deaths _ (rep_run _ _ Hrep _ _ Hr)) in Hl as (? & ? & ? & ?). done.
  - intros l. rewrite (rep_deaths _ _ Hrep), Hr. done.
Qed.

(** ** The carry *)

Lemma elem_of_with_deaths r D k : k ∈ dead_set (with_deaths r D) ↔ ∃ l ks, D !! l = Some ks ∧ k ∈ ks.
Proof. apply elem_of_dead_set. Qed.

Lemma merge_blocks r (ks ks' : DeadKeys) :
  block_ok r ks → block_ok r ks' →
  ∃ merged, merge_dead_blocks [ks; ks'] = Some (Some merged) ∧ block_ok r merged ∧ ∀ k, k ∈ merged ↔ k ∈ ks ∨ k ∈ ks'.
Proof.
  intros (Hne & _ & Hk) (Hne' & _ & Hk').
  destruct (merge_dead_blocks_spec [ks; ks']) as (dead & -> & Hs & Hal & Hd); [unfold max_death_blocks; simpl; lia|].
  destruct dead as [m|].
  - simpl in Hs, Hal. assert (Hm : ∀ k, k ∈ m ↔ k ∈ ks ∨ k ∈ ks').
    { intros k. specialize (Hal k). destruct (decide (k ∈ m)) as [Hin|Hin], (decide (k ∈ ks)), (decide (k ∈ ks')); try tauto.
      - exfalso. apply (proj2 Hal); [|done]. intros x. rewrite !elem_of_cons. set_solver.
      - exfalso. apply (proj1 Hal Hin ks); [left|done].
      - exfalso. apply (proj1 Hal Hin ks); [left|done].
      - exfalso. apply (proj1 Hal Hin ks'); [right; left|done]. }
    exists m. split; [done|]. split; [|done]. split_and!; [done|done|]. intros k [?|?]%Hm; auto.
  - exfalso. destruct ks as [|x ks]; [done|]. apply (proj1 (Hal x) I (x :: ks)); [left|left].
Qed.

Section one_level.
Context (pk : PackedStore) (R : gmap N Run) (id : N) (r : Run) (l : nat).
Context (Hrep : rep pk R) (Hr : R !! id = Some r).

Lemma blocks_ok l' ks : run_deaths r !! l' = Some ks → l' < max_death_blocks ∧ block_ok r ks.
Proof using Hrep Hr. intros Hl. by apply (ro_deaths _ (rep_run _ _ Hrep _ _ Hr)) in Hl as (? & ? & ? & ?). Qed.

Lemma free_level :
  rep (set_deaths pk (delete (id, l) (pk_deaths pk))) (<[id := with_deaths r (delete l (run_deaths r))]> R).
Proof using Hrep Hr.
  apply rep_set_deaths; try done.
  - intros l' ks [_ Hl]%lookup_delete_Some. by apply blocks_ok.
  - intros l'. destruct (decide (l' = l)) as [->|Hne]; [by rewrite !lookup_delete_eq|].
    rewrite !lookup_delete_ne by congruence. rewrite (rep_deaths _ _ Hrep), Hr. done.
  - intros id' l' Hne. by rewrite lookup_delete_ne by congruence.
Qed.

Lemma fill_level carry v :
  l < max_death_blocks → block_ok r carry → dead_encode carry = Some v →
  rep (set_deaths pk (<[(id, l) := v]> (pk_deaths pk))) (<[id := with_deaths r (<[l := carry]> (run_deaths r))]> R).
Proof using Hrep Hr.
  intros Hl Hb Hv. destruct (block_roundtrip pk R id r carry Hrep Hr Hb) as (v' & Hv' & Hd). assert (v' = v) as -> by congruence.
  apply rep_set_deaths; try done.
  - intros l' ks [[<- <-]|[_ Hk]]%lookup_insert_Some; [done|by apply blocks_ok].
  - intros l'. destruct (decide (l' = l)) as [->|Hne]; [rewrite !lookup_insert_eq; simpl; by rewrite Hd|].
    rewrite !lookup_insert_ne by congruence. rewrite (rep_deaths _ _ Hrep), Hr. done.
  - intros id' l' Hne. by rewrite lookup_insert_ne by congruence.
Qed.
End one_level.

Lemma dead_set_split r l prior k :
  run_deaths r !! l = Some prior →
  k ∈ dead_set r ↔ k ∈ dead_set (with_deaths r (delete l (run_deaths r))) ∨ k ∈ prior.
Proof.
  intros Hp. rewrite elem_of_with_deaths, elem_of_dead_set. split.
  - intros (l' & ks & Hl & Hk). destruct (decide (l' = l)) as [->|Hne]; [right; by simplify_eq|left].
    exists l', ks. by rewrite lookup_delete_ne.
  - intros [(l' & ks & [_ Hl]%lookup_delete_Some & Hk)|Hk]; eauto.
Qed.

Lemma carry_deaths_spec levels : ∀ pk R id r carry pk' left,
  rep pk R → R !! id = Some r → block_ok r carry → (∀ l, l ∈ levels → l < max_death_blocks) →
  carry_deaths pk id levels carry = Some (pk', left) →
  ∃ D, rep pk' (<[id := with_deaths r D]> R) ∧
    match left with
    | None => ∀ k, k ∈ dead_set (with_deaths r D) ↔ k ∈ dead_set r ∨ k ∈ carry
    | Some c => block_ok r c ∧ (∀ l ks, D !! l = Some ks → run_deaths r !! l = Some ks ∧ l ∉ levels) ∧
        ∀ k, (k ∈ c ∨ k ∈ dead_set (with_deaths r D)) ↔ k ∈ dead_set r ∨ k ∈ carry
    end.
Proof.
  induction levels as [|l levels IH]; intros pk R id r carry pk' left Hrep Hr Hb Hl Hc.
  - simpl in Hc. injection Hc as <- <-. exists (run_deaths r).
    assert (E : with_deaths r (run_deaths r) = r) by (by destruct r). rewrite E, insert_id by done.
    split; [done|]. split; [done|]. split; [|naive_solver]. intros l ks Hd. split; [done|apply not_elem_of_nil].
  - cbn [carry_deaths] in Hc. pose proof (rep_deaths _ _ Hrep id l) as Hd. rewrite Hr in Hd. cbn [mbind option_bind] in Hd.
    assert (Hll : l < max_death_blocks) by (apply Hl; left).
    destruct (pk_deaths pk !! (id, l)) as [v|] eqn:Hv, (run_deaths r !! l) as [prior|] eqn:Hp; try done.
    + simpl in Hd. injection Hd as Hd. rewrite Hd in Hc. cbn [mbind option_bind] in Hc.
      destruct (blocks_ok pk R id r Hrep Hr l prior Hp) as [_ Hpb].
      destruct (merge_blocks r prior carry Hpb Hb) as (m & Hm & Hmb & Hmk). rewrite Hm in Hc. cbn [mbind option_bind] in Hc.
      destruct (IH _ _ id (with_deaths r (delete l (run_deaths r))) m pk' left (free_level pk R id r l Hrep Hr))
        as (D & HrepD & Hcase); [by rewrite lookup_insert_eq|done|intros; apply Hl; by right|done|].
      rewrite insert_insert_eq in HrepD. exists D. split; [exact HrepD|].
      pose proof (dead_set_split r l prior) as Hsplit.
      destruct left as [c|].
      * destruct Hcase as (Hcb & HD & Hk). split; [done|]. split.
        -- intros l' ks Hks. destruct (HD l' ks Hks) as [Hks' Hnl]. simpl in Hks'.
           apply lookup_delete_Some in Hks' as [Hne Hks']. split; [done|].
           rewrite not_elem_of_cons. done.
        -- intros k. change (with_deaths r D) with (with_deaths (with_deaths r (delete l (run_deaths r))) D).
           rewrite Hk, Hmk, (Hsplit k Hp). tauto.
      * intros k. change (with_deaths r D) with (with_deaths (with_deaths r (delete l (run_deaths r))) D).
        rewrite Hcase, Hmk, (Hsplit k Hp). tauto.
    + apply bind_Some in Hc as (v & Hv' & [= <- <-]). exists (<[l := carry]> (run_deaths r)).
      split; [by apply fill_level|]. intros k. rewrite elem_of_with_deaths, elem_of_dead_set. split.
      * intros (l' & ks & [[<- <-]|[_ Hk]]%lookup_insert_Some & Hin); eauto.
      * intros [(l' & ks & Hk & Hin)|Hin]; [exists l', ks|exists l, carry; by rewrite lookup_insert_eq].
        rewrite lookup_insert_ne; [done|]. intros ->. by pose proof (eq_trans (eq_sym Hk) Hp).
Qed.

(** ** The events that are left *)

(** A run's events without the keys in [X]. *)
Definition spared (r : Run) (X : gset N) : gmap N PendingEvent := filter (λ kp, kp.1 ∉ X) (run_events r).

Lemma spared_Some r X k p : spared r X !! k = Some p ↔ run_events r !! k = Some p ∧ k ∉ X.
Proof. unfold spared. by rewrite map_lookup_filter_Some. Qed.

Lemma size_spared r X : (∀ k, k ∈ X → is_Some (run_events r !! k)) → size (spared r X) + size X = size (run_events r).
Proof.
  intros HX. rewrite <-!size_dom. rewrite <-size_union; [|].
  - f_equal. apply set_eq. intros k. rewrite elem_of_union, !elem_of_dom. split.
    + intros [[p [Hp _]%spared_Some]|Hk]; [by eexists|by apply HX].
    + intros [p Hp]. destruct (decide (k ∈ X)); [by right|left]. exists p. by apply spared_Some.
  - intros k Hk%elem_of_dom Hx. destruct Hk as [p [_ Hn]%spared_Some]. done.
Qed.

Section one_run.
Context (pk : PackedStore) (R : gmap N Run) (id : N) (r : Run).
Context (Hrep : rep pk R) (Hcounted : counted R) (Hr : R !! id = Some r).
Context (keys : list N) (Hkeys : ∀ k, k ∈ keys → is_Some (run_events r !! k)).

Definition killed : gset N := dead_set r ∪ list_to_set keys.

Lemma killed_events k : k ∈ killed → is_Some (run_events r !! k).
Proof using Hrep Hr Hkeys.
  unfold killed. rewrite elem_of_union, elem_of_list_to_set. intros [Hk|Hk]; [|by apply Hkeys].
  eapply dead_set_events; [by eapply rep_run|done].
Qed.

(** A key of the run is in no other. *)
Lemma other_run id' r' k p : R !! id' = Some r' → id' ≠ id → run_events r' !! k = Some p → run_events r !! k = None.
Proof using Hrep Hr.
  intros Hr' Hne Hp. destruct (run_events r !! k) as [q|] eqn:Hq; [|done].
  pose proof (run_bounds r (rep_events pk R Hrep _ _ Hr) k q Hq).
  pose proof (run_bounds r' (rep_events pk R Hrep _ _ Hr') k p Hp).
  destruct (rep_ranges _ _ Hrep _ _ _ _ Hr Hr' (not_eq_sym Hne)); lia.
Qed.

Lemma killed_live k p :
  runs_live R k p ∧ k ∉ keys ↔ runs_live (delete id R) k p ∨ spared r killed !! k = Some p.
Proof using Hrep Hr Hkeys.
  rewrite spared_Some. unfold killed. rewrite not_elem_of_union, elem_of_list_to_set. split.
  - intros [(id' & r' & Hr' & Hk) Hn]. destruct (decide (id' = id)) as [->|Hne].
    + right. simplify_eq. apply run_live_Some in Hk as [??]. done.
    + left. exists id', r'. by rewrite lookup_delete_ne.
  - intros [(id' & r' & [Hne Hr']%lookup_delete_Some & Hk)|(Hk & Hd & Hn)].
    + split; [by exists id', r'|]. intros [q Hq]%Hkeys. apply run_live_Some in Hk as [Hk _].
      rewrite (other_run id' r' k p) in Hq; done.
    + split; [|done]. exists id, r. split; [done|]. by apply run_live_Some.
Qed.

(** What a step that records the deaths leaves. *)
Definition killed_in (R' : gmap N Run) : Prop :=
  counted R' ∧ (∀ n, runs_below R n → runs_below R' n) ∧
  (∀ k p, runs_live R' k p ↔ runs_live R k p ∧ k ∉ keys) ∧
  (∀ id' r', id' ≠ id → R !! id' = Some r' → R' !! id' = Some r').

Lemma counted_delete : counted (delete id R).
Proof using Hcounted. intros id' r' [_ Hr']%lookup_delete_Some. by eapply Hcounted. Qed.

Lemma killed_all : spared r killed = ∅ → killed_in (delete id R).
Proof using Hrep Hcounted Hr Hkeys.
  intros He. split; [apply counted_delete|]. split; [|split].
  - intros n Hb id' r' [_ Hr']%lookup_delete_Some. by eapply Hb.
  - intros k p. rewrite killed_live, He, lookup_empty. naive_solver.
  - intros id' r' Hne Hr'. by rewrite lookup_delete_ne.
Qed.

(** The run is replaced by one of its spared events, under a new id or its own. *)
Lemma killed_run id' r' :
  (id' = id ∨ R !! id' = None) → run_live r' = spared r killed → run_count r' = N.of_nat (size (run_live r')) →
  (run_max r' ≤ run_max r)%N → killed_in (<[id' := r']> (delete id R)).
Proof using Hrep Hcounted Hr Hkeys.
  intros Hid Hlive Hcount Hmax. split; [|split; [|split]].
  - intros id1 r1 [[<- <-]|[_ Hr1]]%lookup_insert_Some; [done|]. by eapply counted_delete.
  - intros n Hb id1 r1 [[<- <-]|[_ Hr1]]%lookup_insert_Some; [apply Hb in Hr; lia|].
    apply lookup_delete_Some in Hr1 as [_ Hr1]. by eapply Hb.
  - intros k p. rewrite killed_live, <-Hlive. unfold runs_live. split.
    + intros (id1 & r1 & [[<- <-]|[_ Hr1]]%lookup_insert_Some & Hk); [by right|left; eauto].
    + intros [(id1 & r1 & Hr1 & Hk)|Hk]; [|exists id', r'; by rewrite lookup_insert_eq].
      exists id1, r1. split; [|done]. rewrite lookup_insert_ne; [done|]. intros ->.
      apply lookup_delete_Some in Hr1 as [? Hr1]. destruct Hid; congruence.
  - intros id1 r1 Hne Hr1. rewrite lookup_insert_ne, lookup_delete_ne by (try congruence; intros ->; destruct Hid; congruence). done.
Qed.
End one_run.

(** ** Rewriting a run *)

Section rewrite.
Context (pk : PackedStore) (R : gmap N Run) (id : N) (r : Run) (Hrep : rep pk R) (Hr : R !! id = Some r).
Context (c : list N) (Hc : StronglySorted N.lt c).

Definition rewritten : Run :=
  mkRun (run_level r) (N.of_nat (size (spared r (list_to_set c)))) (spared r (list_to_set c)) ∅.

Lemma rewritten_merged :
  merged [mkSource id r (list_to_set c)] = run_events rewritten ∧
  merged_run (run_level r) [mkSource id r (list_to_set c)] = rewritten.
Proof.
  assert (E : merged [mkSource id r (list_to_set c)] = spared r (list_to_set c))
    by exact (right_id_L ∅ (∪) (survivors (mkSource id r (list_to_set c)))).
  unfold merged_run. rewrite E. done.
Qed.

Lemma rewritten_bounds :
  run_events rewritten ≠ ∅ → (run_min r ≤ run_min rewritten ∧ run_max rewritten ≤ run_max r)%N.
Proof using Hrep Hr.
  intros Hne. destruct (run_min_spec rewritten Hne) as [_ [p Hp]], (run_max_spec rewritten Hne) as [_ [q Hq]].
  simpl in Hp, Hq. apply spared_Some in Hp as [Hp _], Hq as [Hq _].
  pose proof (rep_events pk R Hrep id r Hr) as He. split; eapply run_bounds; done.
Qed.

Lemma rewrite_spec m pk' :
  rm_run_id m = id → rm_min_event_key m = run_min r → rm_level m = run_level r →
  rewrite_run_without_dead pk m c = Some pk' →
  ∃ id', R !! id' = None ∧ run_events rewritten ≠ ∅ ∧ rep pk' (<[id' := rewritten]> (delete id R)).
Proof using Hrep Hr Hc.
  intros Hid Hmin Hlev Hw. unfold rewrite_run_without_dead in Hw. apply bind_Some in Hw as ([result pk1] & Hs & Hw).
  apply bind_Some in Hw as ([[[id' lo] hi] n] & -> & Hw). rewrite Hlev in Hw.
  pose proof (rep_run _ _ Hrep _ _ Hr) as Hok. destruct rewritten_merged as [E1 E2].
  pose proof (replace_spec pk R Hrep [mkSource id r (list_to_set c)] [m] [Some c]) as Hspec.
  specialize (Hspec ltac:(by intros y ->%list_elem_of_singleton) ltac:(by repeat constructor) ltac:(by repeat constructor)).
  specialize (Hspec ltac:(by constructor; [split; [done|intros k; simpl; by rewrite elem_of_list_to_set]|constructor])).
  specialize (Hspec (run_level r) (ro_level _ Hok)). rewrite E1, E2 in Hspec.
  destruct (Hspec) with (result := Some (id', lo, hi, n)) (pk1 := pk1) (pk' := pk') as (Hne & id1 & Hnone & Hrep'); try done.
  - intros k k' p p' [Hp _]%spared_Some [Hp' _]%spared_Some. by apply (ro_ids _ Hok).
  - intros Hne id1 r1 [Hr1 Hn1]%delete_ids_Some. pose proof (rewritten_bounds Hne).
    assert (Hne1 : id1 ≠ id) by (intros ->; apply Hn1; left).
    pose proof (rep_levels _ _ Hrep _ _ _ _ Hr Hr1). pose proof (rep_levels _ _ Hrep _ _ _ _ Hr1 Hr). simpl.
    destruct (rep_ranges _ _ Hrep _ _ _ _ Hr1 Hr Hne1); [left|right]; lia.
  - exists id1. split_and!; [done..|exact Hrep'].
Qed.
End rewrite.

(** ** The deaths of one run *)

Lemma fresh_keys_spec dead r keys :
  dead_sorted dead → (∀ k, key_alive dead k ↔ k ∉ dead_set r) →
  let fresh := dedup (λ x y, bool_decide (x = y)) (merge_sort cmp_le (filter (λ k, is_dead dead k = false) keys)) in
  StronglySorted N.lt fresh ∧ ∀ k, k ∈ fresh ↔ k ∈ keys ∧ k ∉ dead_set r.
Proof.
  intros Hs Hal fresh. destruct (sort_dedup_keys (filter (λ k, is_dead dead k = false) keys)) as [Hsort Hel].
  split; [done|]. intros k. unfold fresh. rewrite Hel, list_elem_of_filter, is_dead_spec, Hal by done. tauto.
Qed.

Lemma dead_count dead r :
  dead_sorted dead → (∀ k, key_alive dead k ↔ k ∉ dead_set r) →
  match dead with Some keys => N.of_nat (length keys) | None => 0%N end = N.of_nat (size (dead_set r)).
Proof.
  intros Hs Hal. destruct dead as [keys|]; simpl in *.
  - f_equal. apply sorted_keys_size; [done|]. intros k. specialize (Hal k).
    destruct (decide (k ∈ keys)), (decide (k ∈ dead_set r)); tauto.
  - assert (dead_set r = ∅) as ->; [|done]. apply set_eq. intros k. specialize (Hal k). set_solver.
Qed.

Section apply_one.
Context (pk : PackedStore) (R : gmap N Run) (id : N) (r : Run).
Context (Hrep : rep pk R) (Hcounted : counted R) (Hr : R !! id = Some r).
Context (keys : list N) (Hkeys : ∀ k, k ∈ keys → is_Some (run_events r !! k)).
Context (fresh : list N) (Hsorted : StronglySorted N.lt fresh) (Hfresh : ∀ k, k ∈ fresh ↔ k ∈ keys ∧ k ∉ dead_set r).

Lemma elem_of_killed k : k ∈ killed r keys ↔ k ∈ dead_set r ∨ k ∈ fresh.
Proof using Hfresh.
  clear Hrep Hcounted Hkeys. unfold killed. rewrite elem_of_union, elem_of_list_to_set, Hfresh.
  destruct (decide (k ∈ dead_set r)); tauto.
Qed.

Lemma killed_none : fresh = [] → killed_in R id keys R.
Proof using Hrep Hcounted Hr Hkeys Hfresh.
  intros Hf. split; [done|]. split; [done|]. split; [|done]. intros k p. split; [|by intros [? _]].
  intros Hk. split; [done|]. intros Hin. destruct Hk as (id' & r' & Hr' & [Hk Hd]%run_live_Some).
  destruct (decide (id' = id)) as [->|Hne].
  - assert (r' = r) as -> by congruence. assert (Hfr : k ∈ fresh) by (by apply Hfresh). rewrite Hf in Hfr. by apply not_elem_of_nil in Hfr.
  - destruct (Hkeys k Hin) as [q Hq]. by rewrite (other_run pk R id r Hrep Hr id' r' k p) in Hq.
Qed.

Lemma killed_size : size (killed r keys) = size (dead_set r) + length fresh.
Proof using Hsorted Hfresh.
  assert (Hset : ∀ k, k ∈ fresh ↔ k ∈ (list_to_set fresh : gset N)) by (intros; by rewrite elem_of_list_to_set).
  rewrite (sorted_keys_size fresh (list_to_set fresh) Hsorted Hset), <-size_union.
  - f_equal. apply set_eq. intros k. by rewrite elem_of_killed, elem_of_union, elem_of_list_to_set.
  - intros k Hd. rewrite elem_of_list_to_set, Hfresh. tauto.
Qed.

Lemma spared_count :
  (N.of_nat (size (run_events r)) - (N.of_nat (size (dead_set r)) + N.of_nat (length fresh)))%N =
  N.of_nat (size (spared r (killed r keys))).
Proof using Hrep Hr Hkeys Hsorted Hfresh.
  pose proof (size_spared r (killed r keys) (killed_events pk R id r Hrep Hr keys Hkeys)) as Hs.
  rewrite killed_size in Hs. lia.
Qed.

Lemma fresh_block : fresh ≠ [] → block_ok r fresh.
Proof using Hkeys Hsorted Hfresh. intros Hne. split_and!; [done..|]. intros k [? _]%Hfresh. by apply Hkeys. Qed.

(** The blocks take the keys. *)
Lemma blocks_killed D pk1 pk' v :
  rep pk1 (<[id := with_deaths r D]> R) → (∀ k, k ∈ dead_set (with_deaths r D) ↔ k ∈ dead_set r ∨ k ∈ fresh) →
  meta_encode (set_live_events (meta_of id r) (N.of_nat (size (spared r (killed r keys))))) = Some v →
  pk' = set_metas pk1 (<[id := v]> (pk_metas pk1)) → ∃ R', rep pk' R' ∧ killed_in R id keys R'.
Proof using Hrep Hcounted Hr Hkeys Hfresh.
  intros Hrep1 HD Hv ->. set (n := N.of_nat (size (spared r (killed r keys)))) in *.
  assert (Hlive : run_live (with_count (with_deaths r D) n) = spared r (killed r keys)).
  { apply map_eq. intros k. apply option_eq. intros p. rewrite run_live_Some, spared_Some, elem_of_killed. simpl.
    by rewrite (HD k : k ∈ dead_set (with_count (with_deaths r D) n) ↔ _). }
  eexists. split.
  - eapply (rep_set_count pk1 _ id (with_deaths r D) n v Hrep1); [by rewrite lookup_insert_eq|exact Hv].
  - rewrite insert_insert_eq, <-insert_delete_eq. apply (killed_run pk R id r Hrep Hcounted Hr keys Hkeys); [by left|done| |done].
    by rewrite Hlive.
Qed.

(** All blocks were taken: the run is rewritten. *)
Lemma rewrite_killed D c pk1 pk' :
  rep pk1 (<[id := with_deaths r D]> R) → block_ok r c →
  (∀ l ks, D !! l = Some ks → run_deaths r !! l = Some ks ∧ l ∉ seq 0 max_death_blocks) →
  (∀ k, (k ∈ c ∨ k ∈ dead_set (with_deaths r D)) ↔ k ∈ dead_set r ∨ k ∈ fresh) →
  rewrite_run_without_dead pk1 (set_live_events (meta_of id r) (N.of_nat (size (spared r (killed r keys))))) c = Some pk' →
  ∃ R', rep pk' R' ∧ killed_in R id keys R'.
Proof using Hrep Hcounted Hr Hkeys Hfresh.
  clear Hsorted. intros Hrep1 (_ & Hcs & _) HD Hk Hw.
  assert (D = ∅) as ->.
  { apply map_empty. intros l. destruct (D !! l) as [ks|] eqn:El; [|done]. destruct (HD l ks El) as [Hl Hn]. exfalso.
    apply Hn, elem_of_seq. apply (ro_deaths _ (rep_run _ _ Hrep _ _ Hr)) in Hl. lia. }
  assert (Hck : ∀ k, k ∈ c ↔ k ∈ killed r keys).
  { intros k. rewrite elem_of_killed, <-Hk. unfold with_deaths. rewrite dead_set_none. set_solver. }
  destruct (rewrite_spec pk1 _ id (with_deaths r ∅) Hrep1 (lookup_insert_eq _ _ _) c Hcs
              (set_live_events (meta_of id r) (N.of_nat (size (spared r (killed r keys))))) pk' eq_refl eq_refl eq_refl Hw)
    as (id' & Hid' & Hne & Hrep').
  rewrite delete_insert_eq in Hrep'. eexists. split; [exact Hrep'|].
  assert (Hlive : run_live (rewritten (with_deaths r ∅) c) = spared r (killed r keys)).
  { unfold rewritten. rewrite run_live_none. apply map_eq. intros k. apply option_eq. intros p.
    rewrite !spared_Some, elem_of_list_to_set, Hck. done. }
  apply (killed_run pk R id r Hrep Hcounted Hr keys Hkeys); [| done | |].
  - right. apply lookup_insert_None in Hid' as [? _]. done.
  - rewrite Hlive. simpl. f_equal. rewrite <-Hlive. unfold rewritten. by rewrite run_live_none.
  - by apply (rewritten_bounds pk1 _ id (with_deaths r ∅) Hrep1 (lookup_insert_eq _ _ _)).
Qed.
End apply_one.

Lemma apply_run_deaths_spec pk R id r keys pk' :
  rep pk R → counted R → R !! id = Some r → (∀ k, k ∈ keys → is_Some (run_events r !! k)) →
  apply_run_deaths pk id keys = Some pk' → ∃ R', rep pk' R' ∧ killed_in R id keys R'.
Proof.
  intros Hrep Hc Hr Hkeys Ha. unfold apply_run_deaths in Ha.
  apply bind_Some in Ha as (v & Hv & Ha). rewrite (rep_decode pk R Hrep id r v Hr Hv) in Ha. cbn [mbind option_bind] in Ha.
  pose proof (rep_dictionaries _ _ Hrep id) as Hd. rewrite Hr in Hd.
  destruct (pk_dictionaries pk !! id) as [dict|]; [|done]. simpl in Hd. injection Hd as Hd.
  cbn [mbind option_bind] in Ha. rewrite Hd in Ha. cbn [mbind option_bind] in Ha.
  destruct (load_run_deaths_spec pk R Hrep id r Hr) as (dead & Hl & Hs & Hal). rewrite Hl in Ha. cbn [mbind option_bind] in Ha.
  destruct (fresh_keys_spec dead r keys Hs Hal) as [Hfs Hfk]. set (fresh := dedup _ _) in *. clearbody fresh.
  destruct (decide (fresh = [])) as [Hf|Hf].
  { injection Ha as <-. exists R. split; [done|]. by apply (killed_none pk R id r Hrep Hc Hr keys Hkeys fresh). }
  rewrite (dead_count dead r Hs Hal) in Ha. change (dv_count (dictionary_view (run_entries r))) with (length (run_entries r)) in Ha.
  rewrite length_run_entries in Ha.
  match type of Ha with (if ?b then _ else _) = _ => destruct b; [done|] end.
  match type of Ha with (if ?b then _ else _) = _ => destruct b; [done|] end.
  rewrite (spared_count pk R id r Hrep Hr keys Hkeys fresh Hfs Hfk) in Ha.
  destruct (decide _) as [H0|H0].
  { injection Ha as <-. exists (delete id R). split; [by apply (delete_run_rep pk R _ id r)|].
    apply (killed_all pk R id r Hrep Hc Hr keys Hkeys), map_size_empty_inv. simpl in H0. lia. }
  apply bind_Some in Ha as (carry & Hcarry & Ha). apply dead_new_iff in Hcarry as (-> & _ & _).
  apply bind_Some in Ha as ([pk1 left] & Hcar & Ha).
  destruct (carry_deaths_spec (seq 0 max_death_blocks) pk R id r fresh pk1 left Hrep Hr (fresh_block r keys Hkeys fresh Hfs Hfk Hf)) as (D & Hrep1 & HD);
    [intros l Hl'%elem_of_seq; lia|exact Hcar|].
  destruct left as [c|].
  - destruct HD as (Hcb & HD & Hk). by eapply (rewrite_killed pk R id r Hrep Hc Hr keys Hkeys fresh Hfk D c pk1).
  - apply bind_Some in Ha as (w & Hw & [= <-]). by eapply (blocks_killed pk R id r Hrep Hc Hr keys Hkeys fresh Hfk D pk1).
Qed.
End deaths.
