(* ===== verification/PackedFlush.v ===== *)
(** * Flushing a batch

    [PostingsBatch::flush] records the batch's deaths and publishes its
    additions.  On tables that hold a map of live postings it leaves tables that
    hold the map with the dead keys removed and the additions inserted. *)

From S2P Require Import Prelude Grammar Schema QueueBytes Canonical Ingest Postings PostingsRead PostingsFormat PostingsRun PostingsCodec PackedStore PackedRep PackedUpdate PackedCompact PackedLevels PackedPublish PackedDeaths.

Section deaths.
Context `{ShardHash} (pk : PackedStore) (R : gmap N Run) (Hrep : rep pk R).

(** [k] is among the events of the run [id]. *)
Definition key_of_run (id k : N) : Prop := ∃ r, R !! id = Some r ∧ is_Some (run_events r !! k).

Lemma run_of_key_spec id k : key_of_run id k → run_of_key pk k = Some (Some id).
Proof using Hrep.
  intros (r & Hr & p & Hp). pose proof (rep_events pk R Hrep id r Hr) as He.
  pose proof (run_bounds r He k p Hp) as Hb. unfold run_of_key.
  set (L := filter _ _).
  assert (Hin : (run_min r, be_bytes 8 id) ∈ L).
  { apply list_elem_of_filter. split; [simpl; lia|]. apply elem_of_ordered_map, (rep_by_min _ _ Hrep). eauto. }
  assert (HL : StronglySorted key_le L).
  { eapply StronglySorted_sublist, Sorted_ordered_map. apply sublist_filter. }
  destruct (last L) as [[k' v]|] eqn:El; [|apply last_None in El; rewrite El in Hin; by apply not_elem_of_nil in Hin].
  assert (Hle : (run_min r ≤ k')%N).
  { destruct (StronglySorted_last _ _ _ _ HL El Hin) as [[= -> _]|Hle]; [done|]. by apply N.compare_le_iff. }
  apply last_elem, list_elem_of_filter in El as [Hk' (id' & r' & Hr' & <- & ->)%elem_of_ordered_map%(rep_by_min _ _ Hrep)].
  simpl in Hk'. assert (id' = id) as ->.
  { destruct (decide (id' = id)) as [|Hne]; [done|]. destruct (rep_meta_ok pk R Hrep _ _ Hr') as [[_ ?] _]. simpl in *.
    destruct (rep_ranges _ _ Hrep _ _ _ _ Hr' Hr Hne); lia. }
  assert (r' = r) as -> by congruence.
  rewrite decode_run_id_be by (by eapply rep_id). cbn [mbind option_bind].
  destruct (rep_encoded pk R Hrep id r Hr) as (row & Hrow & _). rewrite Hrow. cbn [mbind option_bind].
  rewrite (rep_decode pk R Hrep id r row Hr Hrow). cbn [mbind option_bind].
  change (rm_max_event_key (meta_of id r)) with (run_max r). by rewrite (proj2 (N.leb_le _ _)) by lia.
Qed.

Lemma group_deaths keys :
  (∀ k, k ∈ keys → ∃ id, key_of_run id k) →
  ∃ by_run, foldl (λ o k, by_run ← o; group_death pk by_run k) (Some ∅) keys = Some by_run ∧
    (∀ id ks, by_run !! id = Some ks → ks ≠ [] ∧ ∀ k, k ∈ ks → key_of_run id k ∧ k ∈ keys) ∧
    (∀ k, k ∈ keys → ∃ id ks, by_run !! id = Some ks ∧ k ∈ ks).
Proof using Hrep.
  intros Hkeys. destruct (foldl_option_ind (group_death pk) (λ pre by_run,
    (∀ id ks, by_run !! id = Some ks → ks ≠ [] ∧ ∀ k, k ∈ ks → key_of_run id k ∧ k ∈ keys) ∧
    (∀ k, k ∈ pre → ∃ id ks, by_run !! id = Some ks ∧ k ∈ ks)) keys ∅) as (by_run & ? & ? & ?); [| |by exists by_run].
  { split; [|by intros ? ?%not_elem_of_nil]. intros id ks Hl. by rewrite lookup_empty in Hl. }
  intros pre k post by_run Hl [Hin Hall].
  assert (Hk : k ∈ keys) by (rewrite Hl; set_solver). destruct (Hkeys k Hk) as [id Hid].
  unfold group_death. rewrite (run_of_key_spec id k Hid). cbn [mbind option_bind]. eexists. split; [done|]. split.
  - intros id' ks [[<- <-]|[_ Hks]]%lookup_insert_Some; [|by eapply Hin].
    split; [by destruct (default [] (by_run !! id))|]. intros k' [Hk'| ->%list_elem_of_singleton]%elem_of_app; [|done].
    destruct (by_run !! id) as [ks|] eqn:E; [by apply (Hin id ks E)|]. by apply not_elem_of_nil in Hk'.
  - intros k' [Hk'| ->%list_elem_of_singleton]%elem_of_app.
    + destruct (Hall k' Hk') as (id' & ks & Hks & Hin'). destruct (decide (id' = id)) as [->|Hne].
      * eexists id, _. rewrite lookup_insert_eq. split; [done|]. rewrite Hks. simpl. set_solver.
      * exists id', ks. by rewrite lookup_insert_ne.
    + eexists id, _. rewrite lookup_insert_eq. split; [done|]. set_solver.
Qed.

Lemma apply_deaths_spec deaths pk' :
  counted R → (∀ k, k ∈ deaths → ∃ id, key_of_run id k) → apply_deaths pk deaths = Some pk' →
  ∃ R', rep pk' R' ∧ counted R' ∧ (∀ n, runs_below R n → runs_below R' n) ∧
    ∀ k p, runs_live R' k p ↔ runs_live R k p ∧ k ∉ deaths.
Proof using Hrep.
  intros Hc Hd Ha. unfold apply_deaths in Ha.
  destruct (group_deaths (ordered deaths)) as (by_run & Hg & Hin & Hall).
  { intros k Hk%elem_of_ordered. by apply Hd. }
  rewrite Hg in Ha. cbn [mbind option_bind] in Ha.
  assert (Hinv : ∃ R', rep pk' R' ∧ counted R' ∧ (∀ n, runs_below R n → runs_below R' n) ∧
    (∀ k p, runs_live R' k p ↔ runs_live R k p ∧ ∀ id ks, (id, ks) ∈ ordered_map by_run → k ∉ ks) ∧
    (∀ id r, R !! id = Some r → id ∉ (ordered_map by_run).*1 → R' !! id = Some r)).
  { revert Ha. apply (foldl_option_inv (λ pk p, apply_run_deaths pk p.1 p.2) (λ pre pk1, ∃ R', rep pk1 R' ∧ counted R' ∧
      (∀ n, runs_below R n → runs_below R' n) ∧
      (∀ k p, runs_live R' k p ↔ runs_live R k p ∧ ∀ id ks, (id, ks) ∈ pre → k ∉ ks) ∧
      (∀ id r, R !! id = Some r → id ∉ pre.*1 → R' !! id = Some r))).
    { exists R. split_and!; [done..| |done]. intros k p. split; [|by intros [? _]]. intros Hk. split; [done|].
      by intros ? ? ?%not_elem_of_nil. }
    intros pre [id ks] post pk1 pk2 Hl (R1 & Hr1 & Hc1 & Hb1 & Hlive1 & Hrest1) Hap. simpl in Hap.
    assert (Hks : by_run !! id = Some ks) by (apply elem_of_ordered_map; rewrite Hl; set_solver).
    assert (Hnot : id ∉ pre.*1).
    { pose proof (NoDup_ordered_map_fst by_run) as Hnd. rewrite Hl, fmap_app, fmap_cons in Hnd.
      apply NoDup_app in Hnd as (_ & Hnd & _). intros Hid. apply (Hnd _ Hid). left. }
    destruct (Hin id ks Hks) as [Hne Hin']. destruct ks as [|k0 ks0]; [done|].
    destruct (Hin' k0) as [(r & Hr & _) _]; [left|].
    destruct (apply_run_deaths_spec pk1 R1 id r (k0 :: ks0) pk2) as (R2 & Hr2 & Hc2 & Hb2 & Hlive2 & Hrest2); try done.
    { by apply Hrest1. }
    { intros k Hk. destruct (Hin' k Hk) as [(r' & Hr' & ?) _]. by simplify_eq. }
    exists R2. split_and!; [done|done|by auto| |].
    - intros k p. rewrite Hlive2, Hlive1. setoid_rewrite elem_of_app. setoid_rewrite list_elem_of_singleton. naive_solver.
    - intros id' r' Hr' Hn. rewrite fmap_app, not_elem_of_app in Hn. destruct Hn as [Hn1 Hn2].
      apply Hrest2; [|by apply Hrest1]. intros ->. apply Hn2. left. }
  destruct Hinv as (R' & ? & ? & ? & Hlive & _). exists R'. split_and!; try done. intros k p. rewrite Hlive.
  split; intros [Hk Hn]; (split; [done|]).
  - intros Hdk. destruct (Hall k) as (id & ks & Hks & Hkin); [by apply elem_of_ordered|].
    apply (Hn id ks); [by apply elem_of_ordered_map|done].
  - intros id ks Hks%elem_of_ordered_map Hkin. apply Hn, elem_of_ordered. by apply (Hin id ks Hks).
Qed.
End deaths.

(** ** The batch *)

(** The live postings once a batch is flushed. *)
Definition flushed (live : gmap N PendingEvent) (b : PostingsBatch) : gmap N PendingEvent :=
  pb_additions b ∪ filter (λ kp, kp.1 ∉ pb_deaths b) live.

Lemma flushed_Some live b k p :
  (∀ k, is_Some (live !! k) → pb_additions b !! k = None) →
  flushed live b !! k = Some p ↔ (live !! k = Some p ∧ k ∉ pb_deaths b) ∨ pb_additions b !! k = Some p.
Proof.
  intros Hdisj. unfold flushed. rewrite lookup_union_Some_raw, map_lookup_filter_Some. simpl. split; [naive_solver|].
  intros [[Hk Hn]|Hk]; [|by left]. right. split; [|done]. apply Hdisj. eauto.
Qed.

(** What a flush relies on: the batch removes live keys only, and adds keys above
    all of the runs', of events whose ids are then each under one key. *)
Record batch_ok (next next' : N) (live : gmap N PendingEvent) (b : PostingsBatch) : Prop := {
  bo_deaths k : k ∈ pb_deaths b → is_Some (live !! k);
  bo_additions k p : pb_additions b !! k = Some p → pending_typed k p ∧ (next ≤ k < next')%N;
  bo_next : (next ≤ next')%N;
  bo_ids : unique_ids (flushed live b)
}.

Section flush.
Context `{ShardHash}.

Lemma runs_below_mono R n n' : (n ≤ n')%N → runs_below R n → runs_below R n'.
Proof. intros Hle Hb id r Hr. apply Hb in Hr. lia. Qed.

Lemma live_below pk next live k : packs pk next live → is_Some (live !! k) → (k < next)%N.
Proof.
  intros (_ & R & Hrep & _ & Hb & Hlive) [p (id & r & Hr & [Hk _]%run_live_Some)%Hlive].
  pose proof (run_bounds r (rep_events pk R Hrep id r Hr) k p Hk). apply Hb in Hr. lia.
Qed.

Lemma flush_spec pk next next' live b pk' b' :
  packs pk next live → batch_ok next next' live b → flush pk b = Some (pk', b') →
  b' = mkBatch ∅ ∅ ∧ packs pk' next' (flushed live b).
Proof.
  intros Hp Hb Hf. pose proof (λ k, live_below pk next live k Hp) as Hlb.
  assert (Hdisj : ∀ k, is_Some (live !! k) → pb_additions b !! k = None).
  { intros k Hk%Hlb. destruct (pb_additions b !! k) as [p|] eqn:E; [|done]. apply (bo_additions _ _ _ _ Hb) in E as [_ ?]. lia. }
  destruct Hp as (Hu & R & Hrep & Hc & Hbelow & Hlive).
  unfold flush in Hf. apply bind_Some in Hf as (pk1 & H1 & Hf). apply bind_Some in Hf as (pk2 & H2 & [= -> <-]).
  assert (Hd : ∃ R1, rep pk1 R1 ∧ counted R1 ∧ runs_below R1 next ∧
            ∀ k p, runs_live R1 k p ↔ live !! k = Some p ∧ k ∉ pb_deaths b).
  { destruct (decide (pb_deaths b = ∅)) as [E|_].
    - injection H1 as <-. exists R. split_and!; try done. intros k p. rewrite E, <-Hlive. set_solver.
    - destruct (apply_deaths_spec pk R Hrep (pb_deaths b) pk1 Hc) as (R1 & ? & ? & Hb1 & Hl1); [|done|].
      + intros k [p (id & r & Hr & [Hk _]%run_live_Some)%Hlive]%(bo_deaths _ _ _ _ Hb). exists id, r. eauto.
      + exists R1. split_and!; [done|done|by apply Hb1|]. intros k p. by rewrite Hl1, <-Hlive. }
  destruct Hd as (R1 & Hrep1 & Hc1 & Hb1 & Hl1). split; [done|]. split; [apply Hb|].
  destruct (decide (pb_additions b = ∅)) as [E|Hne].
  - injection H2 as <-. exists R1. split_and!; [done|done|by eapply runs_below_mono, Hb1; apply Hb|].
    intros k p. rewrite flushed_Some, Hl1, E, lookup_empty by done. naive_solver.
  - destruct (publish_pending_spec pk1 R1 next next' (pb_additions b) pk' Hrep1 Hc1 Hb1 Hne (bo_additions _ _ _ _ Hb))
      as (R2 & ? & ? & ? & Hl2 & _); [|done|].
    + intros k k' p p' Hk Hk'. apply (bo_ids _ _ _ _ Hb); apply flushed_Some; try done; by rewrite <-Hl1.
    + exists R2. split_and!; try done. intros k p. by rewrite flushed_Some, Hl2, Hl1.
Qed.

Definition empty_packed : PackedStore := mkPacked ∅ ∅ ∅ ∅ ∅ None.

Lemma empty_packs next : packs empty_packed next ∅.
Proof.
  split; [intros k k' p p' Hk; by rewrite lookup_empty in Hk|]. exists ∅.
  split; [|split_and!].
  - split; simpl; try (intros *; rewrite ?lookup_empty; done); try done.
    + intros k v. rewrite lookup_empty. split; [done|]. intros (id & r & Hr & _). by rewrite lookup_empty in Hr.
  - intros id r Hr. by rewrite lookup_empty in Hr.
  - intros id r Hr. by rewrite lookup_empty in Hr.
  - intros k p. rewrite lookup_empty. split; [done|]. intros (id & r & Hr & _). by rewrite lookup_empty in Hr.
Qed.
End flush.
