(* ===== verification/PackedTheorems.v ===== *)
(** * The packed index, as its callers rely on it

    The layout of its tables, what an encoded run reads back, what a scan
    returns, and what a flush and a compaction leave. *)

From S2P Require Import Prelude Grammar Schema QueueBytes Canonical Ingest Postings PostingsRead PostingsFormat PostingsRun Compaction PostingsCodec PackedStore PackedRep ScanCorrect PackedUpdate PackedCompact PackedLevels PackedPublish PackedDeaths PackedFlush.

(** ** The keys of the catalog *)

Inductive CatalogKey := CatRow (column id : N) | CatDeath (run_id : N) (level : nat).

Definition encoded_key (k : CatalogKey) : bytes :=
  match k with CatRow column id => catalog_key column id | CatDeath run_id level => death_key run_id level end.

(** The [u64]-keyed columns are the first three. *)
Definition catalog_key_ok (k : CatalogKey) : Prop :=
  match k with
  | CatRow column id => (column ≤ catalog_by_min ∧ id ≤ u64_max)%N
  | CatDeath run_id level => (run_id ≤ u64_max)%N ∧ level < max_death_blocks
  end.

Lemma catalog_key_cmp c i c' i' :
  (i ≤ u64_max)%N → (i' ≤ u64_max)%N →
  cmp (catalog_key c i) (catalog_key c' i') = then_with (cmp c c') (cmp i i').
Proof.
  intros Hi Hi'. unfold u64_max in *. unfold catalog_key.
  change (c :: be_bytes 8 i) with ([c] ++ be_bytes 8 i). change (c' :: be_bytes 8 i') with ([c'] ++ be_bytes 8 i').
  rewrite cmp_app, cmp_be_bytes by (done || (change (256 ^ N.of_nat 8)%N with (2 ^ 64)%N; lia)).
  unfold cmp, N_ord, list_ord. simpl. unfold cmp. by destruct (N.compare c c').
Qed.

Lemma length_catalog_key c i : length (catalog_key c i) = 9.
Proof. unfold catalog_key. simpl. by rewrite length_be_bytes. Qed.

Lemma catalog_key_inj c i c' i' :
  (i ≤ u64_max)%N → (i' ≤ u64_max)%N → catalog_key c i = catalog_key c' i' → c = c' ∧ i = i'.
Proof.
  intros Hi Hi' E. assert (Hc : cmp (catalog_key c i) (catalog_key c' i') = Eq) by (rewrite E; apply cmp_refl).
  rewrite catalog_key_cmp in Hc by done. unfold then_with in Hc. destruct (cmp c c') eqn:Ec; [|done..].
  by apply cmp_eq in Ec, Hc.
Qed.

Lemma cmp_longer_key c i c' i' x :
  (i ≤ u64_max)%N → (i' ≤ u64_max)%N → c ≠ c' →
  cmp (catalog_key c i ++ [x]) (catalog_key c' i') = cmp c c' ∧ cmp (catalog_key c' i') (catalog_key c i ++ [x]) = cmp c' c.
Proof.
  intros Hi Hi' Hc. rewrite <-(app_nil_r (catalog_key c' i')), !cmp_app, !catalog_key_cmp by (done || by rewrite !length_catalog_key).
  unfold cmp, N_ord. destruct (N.compare_spec c c') as [|Hlt|Hlt]; [done|..];
    rewrite (proj2 (N.compare_gt_iff _ _) Hlt) || rewrite (proj2 (N.compare_lt_iff _ _) Hlt); done.
Qed.

(** In the catalog table each column is one contiguous range of keys, so a
    range read of a column meets the rows of that column and no other, the longer
    keys of the death blocks included; and no two rows share a key. *)
Theorem catalog_columns_contiguous column k :
  (column ≤ catalog_by_min)%N → catalog_key_ok k →
  (in_range (catalog_column_bounds column) (encoded_key k) ↔ ∃ id, k = CatRow column id) ∧
  ∀ k', catalog_key_ok k' → encoded_key k = encoded_key k' → k = k'.
Proof.
  intros Hcol Hk. assert (H0 : (0 ≤ u64_max)%N) by done. assert (Hm : (u64_max ≤ u64_max)%N) by done. split.
  - unfold in_range, catalog_column_bounds. simpl. destruct k as [c i|r l]; simpl in *; unfold cmp_le; destruct Hk as [Hc Hi].
    + rewrite !catalog_key_cmp by done. unfold then_with, cmp, N_ord. split.
      * destruct (N.compare_spec column c), (N.compare_spec c column); try lia; naive_solver.
      * intros [id [= -> ->]]. rewrite N.compare_refl. split; apply N.compare_le_iff; lia.
    + assert (catalog_deaths ≠ column) by (unfold catalog_deaths, catalog_by_min in *; lia). unfold death_key.
      destruct (cmp_longer_key catalog_deaths r column 0 (N.of_nat l)) as [_ ->]; [done..|].
      destruct (cmp_longer_key catalog_deaths r column u64_max (N.of_nat l)) as [-> _]; [done..|].
      split; [|by intros [id ?]]. intros [_ Hle]. change (catalog_deaths ≤ column)%N in Hle. exfalso.
      unfold catalog_deaths, catalog_by_min in *. lia.
  - intros k' Hk' E. destruct k as [c i|r l], k' as [c' i'|r' l']; unfold encoded_key, death_key in E; simpl in Hk, Hk'.
    + by destruct (catalog_key_inj _ _ _ _ (proj2 Hk) (proj2 Hk') E) as [-> ->].
    + apply (f_equal length) in E. by rewrite length_app, !length_catalog_key in E.
    + apply (f_equal length) in E. by rewrite length_app, !length_catalog_key in E.
    + apply app_inj_1 in E as [E El]; [|by rewrite !length_catalog_key].
      destruct (catalog_key_inj _ _ _ _ (proj1 Hk) (proj1 Hk') E) as [_ ->]. by injection El as ->%Nat2N.inj.
Qed.

Section packed.
Context `{ShardHash}.

(** C24: an encoded run reads back what was written: under the prefix of every
    membership the run's segment of that family and shard finds a list, sorted,
    of exactly the events posted under that prefix. *)
Theorem encode_run_reads_back ms run m :
  Forall membership_typed ms → encode_run ms = Some run → m ∈ ms →
  ∃ d v view l evs,
    dictionary_parse (er_dictionary run) = Some d ∧
    (mb_family m, shard_for (mb_family m) (mb_prefix m), v) ∈ er_segments run ∧
    segment_parse v = Some view ∧ segment_prefix view (mb_prefix m) = Some (Some l) ∧
    list_of l d evs ∧ StronglySorted cmp_lt evs ∧
    ∀ e, e ∈ evs ↔ ∃ m', m' ∈ ms ∧ mb_family m' = mb_family m ∧ mb_prefix m' = mb_prefix m ∧ mb_event m' = e.
Proof.
  intros Ht Hrun Hm. destruct (encode_run_written ms run Ht Hrun) as [es Hw].
  pose proof (rw_shard _ _ _ Hw m Hm) as Hsh.
  assert ((mb_family m, mb_shard m) ∈ (er_segments run).*1) as Hin by (apply (rw_member _ _ _ Hw); eauto).
  apply list_elem_of_fmap in Hin as ([[f sh] v] & [= <- <-] & Hv).
  destruct (rw_segment _ _ _ Hw _ _ _ Hv) as (view & content & Hp & _ & _ & _ & Hof & [Hs He] & Hc & Hall).
  pose proof (segment_prefix_spec view _ content (mb_prefix m) Hof Hs) as Hpre.
  assert (Hwanted : mb_prefix m ∈ content.*1) by (eapply (Hall _ (mb_event m)); [eauto 6|done]).
  destruct (segment_prefix view (mb_prefix m)) as [[l|]|] eqn:El; [|done..]. destruct Hpre as (evs & Hevs & Hl).
  exists (dictionary_view es), v, view, l, evs. rewrite <-Hsh.
  split; [apply Hw|]. split; [done|]. split; [done|]. split; [done|]. split; [done|]. split.
  - rewrite Forall_forall in He. apply He, list_elem_of_fmap. by exists (mb_prefix m, evs).
  - by apply (Hc _ _ Hevs).
Qed.

(** C7: a scan of the packed index is a scan of the live postings: newest first,
    each event once however many prefixes and runs carry it, none that is dead,
    projected until the limit is reached; it fails only when the projection
    does. *)
Theorem scan_returns_live {T} pk next live scan (project : N → N → option (option T)) :
  packs pk next live →
  fst <$> scan_packed pk scan project = first_visible project (ps_limit scan) (scan_matches live scan).
Proof. intros Hp. by eapply scan_packed_spec. Qed.

(** C6: flushing a batch onto an index that holds the postings [live] leaves an
    index that holds them without the batch's deaths and with its additions, and
    an empty batch. *)
Theorem flush_refines pk next next' live b pk' b' :
  packs pk next live → batch_ok next next' live b → flush pk b = Some (pk', b') →
  b' = mkBatch ∅ ∅ ∧ packs pk' next' (flushed live b).
Proof. apply flush_spec. Qed.

(** C23: compacting the overfull levels keeps every live posting and leaves each
    level fewer runs than its fan-in. *)
Theorem compaction_keeps_postings pk next live pk' :
  packs pk next live → compact_overfull_levels pk = Some pk' →
  packs pk' next live ∧ ∃ metas, catalog_run_metas pk' = Some metas ∧
    ∀ level, length (filter (λ m, rm_level m = level) metas) < level_fan_in level.
Proof.
  intros (Hu & R & Hrep & Hc & Hb & Hlive) Hrun.
  destruct (compact_overfull_levels_spec pk R pk' Hrep Hc) as (R' & Hrep' & Hc' & Hsame & Hb' & Hunder); [|done|].
  { intros k k' p p' Hp%Hlive Hp'%Hlive. by eapply Hu. }
  split.
  - split; [done|]. exists R'. split; [done|]. split; [done|]. split; [by apply Hb'|].
    intros k p. rewrite Hlive. apply Hsame.
  - exists (catalog_metas R'). split; [by apply catalog_run_metas_spec|]. intros level.
    fold (level_metas R' level). rewrite length_level_metas. apply Hunder.
Qed.

(** The compaction loop ends by itself: more fuel than the runs and levels
    there are changes nothing, so a failure is never the loop running on. *)
Theorem compaction_terminates pk next live fuel :
  packs pk next live → size (pk_metas pk) + 257 ≤ fuel → compact_levels fuel pk 0 = compact_overfull_levels pk.
Proof.
  intros (Hu & R & Hrep & Hc & _ & Hlive) Hf. apply (compact_overfull_levels_fuel pk R fuel); [done..| |done].
  intros k k' p p' Hp%Hlive Hp'%Hlive. by eapply Hu.
Qed.
End packed.

(** ** An index that runs *)

Module PackedSample.
#[global] Instance sample_hash : ShardHash := λ family prefix, (family + foldl N.add 0 prefix)%N.

Definition posting (k at_ id : N) : PendingEvent :=
  mkPending at_ (be_bytes 32 id) k (be_bytes 32 7) (be_bytes 2 1) ∅.
Definition two : gmap N PendingEvent := {[ 1%N := posting 1 10 100; 2%N := posting 2 20 200 ]}.
Definition batch : PostingsBatch := mkBatch two ∅.

Lemma two_typed k p : two !! k = Some p → pending_typed k p ∧ (1 ≤ k < 3)%N.
Proof.
  unfold two. intros [[<- <-]|[_ [<- <-]%lookup_singleton_Some]]%lookup_insert_Some;
    (split; [split; [done|]; vm_compute; repeat split; by intros|lia]).
Qed.

Lemma two_ids : unique_ids two.
Proof.
  unfold two. intros k k' p p' [[<- <-]|[_ [<- <-]%lookup_singleton_Some]]%lookup_insert_Some
    [[<- <-]|[_ [<- <-]%lookup_singleton_Some]]%lookup_insert_Some; vm_compute; congruence.
Qed.

Lemma batch_fine : batch_ok 1 3 ∅ batch.
Proof.
  split; [set_solver|apply two_typed|done|]. assert (flushed ∅ batch = two) as ->; [|apply two_ids].
  unfold flushed, batch. simpl. by rewrite map_filter_empty, (right_id_L ∅ _).
Qed.

(** The index after the flush of [batch]. *)
Definition filled : option (PackedStore * PostingsBatch) := flush empty_packed batch.

Lemma filled_packs : ∃ pk b, filled = Some (pk, b) ∧ packs pk 3 (flushed ∅ batch).
Proof.
  assert (is_Some filled) as [[pk b] Hrun] by decide_now. exists pk, b. split; [done|].
  by destruct (flush_spec empty_packed 1 3 ∅ batch pk b (empty_packs 1) batch_fine Hrun).
Qed.

Definition all_rows : PackedScan := mkPackedScan FAuthor [be_bytes 32 7] 0 u64_max None (Some 5).
Definition every_key (k id : N) : option (option N) := Some (Some k).
End PackedSample.
Import PackedSample.

Lemma catalog_columns_contiguous_witness :
  in_range (catalog_column_bounds catalog_dictionary) (encoded_key (CatRow catalog_dictionary 5)) ∧
  ¬ in_range (catalog_column_bounds catalog_dictionary) (encoded_key (CatDeath 5 1)).
Proof.
  split.
  - apply (catalog_columns_contiguous catalog_dictionary (CatRow catalog_dictionary 5)); [by vm_compute|by vm_compute|eauto].
  - intros Hin. apply (catalog_columns_contiguous catalog_dictionary (CatDeath 5 1)) in Hin as [id [=]];
      [by vm_compute|]. split; [by vm_compute|]. unfold max_death_blocks. lia.
Defined.

Lemma encode_run_reads_back_witness :
  ∃ run d, encode_run (memberships_for_pending two) = Some run ∧ dictionary_parse (er_dictionary run) = Some d.
Proof.
  assert (is_Some (encode_run (memberships_for_pending two))) as [run Hrun] by decide_now.
  destruct (encode_run_reads_back (memberships_for_pending two) run (push_membership FGlobal [] (pending_run_event (posting 1 10 100))))
    as (d & _ & _ & _ & _ & Hd & _); [|exact Hrun| |exists run, d; exact (conj Hrun Hd)]; decide_now.
Defined.

Lemma scan_returns_live_witness :
  ∃ pk b, filled = Some (pk, b) ∧ fst <$> scan_packed pk all_rows every_key = Some [2; 1]%N.
Proof.
  destruct filled_packs as (pk & b & Hrun & Hp). exists pk, b. split; [exact Hrun|].
  rewrite (scan_returns_live pk 3 (flushed ∅ batch) all_rows every_key Hp). vm_compute. reflexivity.
Defined.

Lemma flush_refines_witness : ∃ pk, filled = Some (pk, mkBatch ∅ ∅) ∧ packs pk 3 (flushed ∅ batch).
Proof.
  destruct filled_packs as (pk & b & Hrun & _). exists pk.
  destruct (flush_refines empty_packed 1 3 ∅ batch pk b (empty_packs 1) batch_fine Hrun) as [Hb Hp].
  rewrite <-Hb. exact (conj Hrun Hp).
Defined.

Lemma compaction_keeps_postings_witness :
  ∃ pk b pk', filled = Some (pk, b) ∧ compact_overfull_levels pk = Some pk' ∧ packs pk' 3 (flushed ∅ batch).
Proof.
  destruct filled_packs as (pk & b & Hrun & Hp). exists pk, b.
  assert (is_Some (filled ≫= λ x, compact_overfull_levels x.1)) as [pk' Hc] by decide_now.
  rewrite Hrun in Hc. cbn [mbind option_bind fst] in Hc. exists pk'.
  exact (conj Hrun (conj Hc (proj1 (compaction_keeps_postings pk 3 (flushed ∅ batch) pk' Hp Hc)))).
Defined.

Lemma compaction_terminates_witness :
  ∃ pk b, filled = Some (pk, b) ∧ compact_levels 1000 pk 0 = compact_overfull_levels pk.
Proof.
  destruct filled_packs as (pk & b & Hrun & Hp). exists pk, b.
  assert ((filled ≫= λ x, Some (size (pk_metas x.1))) = Some 1) as Hs by (vm_compute; reflexivity).
  rewrite Hrun in Hs. cbn [mbind option_bind fst] in Hs. injection Hs as Hs.
  exact (conj Hrun (compaction_terminates pk 3 (flushed ∅ batch) 1000 Hp ltac:(lia))).
Defined.
