(* ===== verification/Commit.v ===== *)
(** * The commit of a governed write

    [GovernedWrite::commit_prepared] of [redb_store/ingest_txn.rs] flushes the
    batch of postings and commits.  On committed tables the packed index holds
    exactly the postings of the canonical rows, and a commit of a governed
    mutation leaves such tables: this closes the circle between the governed
    ingest ([IngestRefine]) and the packed index ([PackedFlush]). *)

From S2P Require Import Prelude Grammar Schema QueueBytes Address Coverage Canonical Ingest IngestSpec IngestRefine Governed Postings PackedStore PackedRep PackedFlush.

(** The fields of an event at their widths. *)
Definition event_typed (e : Event) : Prop :=
  (e_id e < 2 ^ 256 ∧ e_pubkey e < 2 ^ 256 ∧ e_created_at e ≤ u64_max ∧ e_kind e < 2 ^ 16)%N.

Section commit.
Context `{ShardHash, HexCodec, TagReader, EventReader, CanonicalStore C}.

(** [GovernedWrite::commit_prepared]. *)
Definition commit_prepared {A} (pk : PackedStore) (prepared : A * Txn C) : option (A * Txn C * PackedStore) :=
  let '(result, t) := prepared in
  '(pk, b) ← flush pk (t_postings t);
  Some (result, set_postings t b, pk).

(** [event_ops::insert_batch] and [expire_due], committed. *)
Definition db_insert_batch (pk : PackedStore) (t : Txn C) (events : list (Event * RelayObserved))
    : option (list InsertOutcome * Txn C * PackedStore) :=
  if decide (events = []) then Some ([], t, pk)
  else prepared ← governed_apply (λ t, insert_batch t events) t; commit_prepared pk prepared.
Definition db_expire_due (pk : PackedStore) (t : Txn C) (now : N)
    : option (list StoredEvent * Txn C * PackedStore) :=
  prepared ← governed_apply (λ t, expire_due t now) t; commit_prepared pk prepared.
End commit.

Section db.
Context `{ShardHash, HexLaws, TagReader, EventReader, CanonicalLaws C, GenuineLaws}.

(** Committed tables: an empty batch, and an index that holds the postings of
    the canonical rows. *)
Definition db_ok (pk : PackedStore) (t : Txn C) (s : Store) : Prop :=
  t_postings t = mkBatch ∅ ∅ ∧
  ∃ durable, represents durable t s ∧ du_next durable = cs_next (t_canonical t) ∧
    packs pk (du_next durable) (du_live durable).

Definition rows_typed (t : Txn C) : Prop :=
  ∀ key se, cs_rows (t_canonical t) !! key = Some se → event_typed (se_event se) ∧ (key ≤ u64_max)%N.

Lemma flushed_posted durable b key :
  flushed (du_live durable) b !! key = posted durable b key.
Proof.
  unfold flushed, posted. rewrite lookup_union. destruct (pb_additions b !! key) as [p|] eqn:E.
  - by rewrite union_Some_l.
  - rewrite (left_id_L None _). case_decide as Hd.
    + apply map_lookup_filter_None. right. intros x _ Hn. by apply Hn.
    + rewrite map_lookup_filter. destruct (du_live durable !! key); [|done]. simpl. by rewrite option_guard_True.
Qed.

Lemma prepared_typed se key p :
  event_typed (se_event se) → (key ≤ u64_max)%N → prepare (se_event se) key = Some p →
  pending_typed key p ∧ pending_id p = e_id (se_event se).
Proof.
  intros (Hid & _ & Hat & _) Hk (prefixes & _ & [= <-])%bind_Some. unfold pending_id. simpl.
  rewrite from_to_be_bytes by (change (256 ^ N.of_nat 32)%N with (2 ^ 256)%N; done).
  split; [|done]. unfold pending_typed. simpl. rewrite from_to_be_bytes; [done|].
  by change (256 ^ N.of_nat 32)%N with (2 ^ 256)%N.
Qed.

Lemma posted_typed durable t key p :
  indexed durable t → rows_typed t → posted durable (t_postings t) key = Some p →
  ∃ se, cs_rows (t_canonical t) !! key = Some se ∧ prepare (se_event se) key = Some p ∧
    pending_typed key p ∧ pending_id p = e_id (se_event se).
Proof.
  intros Hix Hty Hp. rewrite (ix_posted _ _ Hix) in Hp. apply bind_Some in Hp as (se & Hse & Hp).
  destruct (Hty key se Hse) as [He Hk]. exists se. destruct (prepared_typed se key p He Hk Hp). done.
Qed.

Lemma batch_ready durable t :
  indexed durable t → rows_typed t →
  batch_ok (du_next durable) (cs_next (t_canonical t)) (du_live durable) (t_postings t).
Proof.
  intros Hix Hty. split.
  - apply Hix.
  - intros k p Hk. destruct (posted_typed durable t k p Hix Hty) as (_ & _ & _ & Hp & _); [unfold posted; by rewrite Hk|].
    split; [done|]. apply (ix_additions _ _ Hix). eauto.
  - apply Hix.
  - intros k k' p p' Hp Hp' E. rewrite flushed_posted in Hp, Hp'.
    destruct (posted_typed _ _ _ _ Hix Hty Hp) as (se & Hse & _ & _ & Hid).
    destruct (posted_typed _ _ _ _ Hix Hty Hp') as (se' & Hse' & _ & _ & Hid').
    assert (cs_key_for_id (t_canonical t) (e_id (se_event se)) = Some k) as Hk
      by (apply cs_key_for_id_spec; [apply Hix|eauto]).
    assert (cs_key_for_id (t_canonical t) (e_id (se_event se)) = Some k') as Hk'
      by (apply cs_key_for_id_spec; [apply Hix|exists se'; split; [done|congruence]]).
    congruence.
Qed.

(** The durable postings once a transaction is committed. *)
Definition commit_durable (durable : Durable) (t : Txn C) : Durable :=
  mkDurable (flushed (du_live durable) (t_postings t)) (cs_next (t_canonical t)).

Lemma commit_represents durable t s :
  represents durable t s → rows_typed t →
  represents (commit_durable durable t) (set_postings t (mkBatch ∅ ∅)) s.
Proof.
  intros Hr Hty. pose proof (rp_indexed _ _ _ Hr) as Hix. split; [|apply Hr..].
  split; simpl; try (by apply Hix).
  - intros key. unfold posted at 1. simpl. rewrite lookup_empty, decide_False by set_solver.
    rewrite flushed_posted. apply Hix.
  - intros key [p Hp]. rewrite flushed_posted in Hp. destruct (posted_typed _ _ _ _ Hix Hty Hp) as (se & Hse & _).
    apply cs_keys; [apply Hix|eauto].
  - done.
  - intros key [p Hp]. by rewrite lookup_empty in Hp.
  - intros key Hk. set_solver.
Qed.

Lemma db_commit {A} durable pk t s (result : A) t' pk' (r : A) :
  represents durable t s → rows_typed t → packs pk (du_next durable) (du_live durable) →
  commit_prepared pk (result, t) = Some (r, t', pk') →
  r = result ∧ t' = set_postings t (mkBatch ∅ ∅) ∧ db_ok pk' t' s.
Proof.
  intros Hr Hty Hp Hc. unfold commit_prepared in Hc. apply bind_Some in Hc as ([pk1 b] & Hf & [= <- <- <-]).
  destruct (flush_spec _ _ _ _ _ _ _ Hp (batch_ready _ _ (rp_indexed _ _ _ Hr) Hty) Hf) as [-> Hp'].
  split_and!; [done..|]. split; [done|]. exists (commit_durable durable t). split_and!; [|done|done].
  by apply commit_represents.
Qed.

(** A row of a store whose events are genuine has its event's widths. *)
Lemma represented_typed durable t s :
  (∀ e, genuine e → event_typed e) → represents durable t s → store_ok s →
  (cs_next (t_canonical t) ≤ 2 ^ 64)%N → rows_typed t.
Proof.
  intros Hg Hr Hok Hn key se Hse. split.
  - apply Hg. eapply so_genuine; [done|]. apply (rp_rows _ _ _ Hr). eauto.
  - assert (key < cs_next (t_canonical t))%N by (apply cs_keys; [apply Hr|eauto]). unfold u64_max. lia.
Qed.
End db.
