(* ===== verification/Query.v ===== *)
(** * Queries of the store

    The planner of [crates/nmp-store/src/redb_store/query.rs], the ordered scan
    [RedbStore::query_ordered] of [store.rs], the residual filter
    [StoredEventView::matches_prepared_filter_after_index] of [binary_event.rs]
    and the query doors of [event_ops.rs].

    A read transaction sees the committed tables: [pk] and [t].  A canonical row
    is the event itself ([Canonical]), so the filter reads the event's fields;
    its tag elements are the atoms the row's codec makes of them, and [BinaryView]
    shows that the filter on the bytes of the row gives the same answer.  The relay
    cache of a read only remembers rows of the relay table, which the transaction
    does not change, and is left out.  [None] is a [PersistenceError], or the
    panic of [tag_index_prefix]. *)

From S2P Require Import Prelude Grammar Schema QueueBytes Address Coverage Canonical Ingest Postings PackedStore.

(** ** [slice::sort_by], which is stable *)

Fixpoint insert_by {A} (le : A → A → bool) (x : A) (l : list A) : list A :=
  match l with
  | [] => [x]
  | y :: l' => if le x y then x :: l else y :: insert_by le x l'
  end.
Definition sort_by {A} (le : A → A → bool) (l : list A) : list A := foldr (insert_by le) [] l.

(** ** The planner *)

Inductive IndexedMatch := MatchNone | MatchAuthor | MatchKind | MatchTag (tag : N).
Inductive OrderedIndex := IndexGlobal | IndexAuthor | IndexKind | IndexTag (tag : N).

#[global] Instance IndexedMatch_eq_dec : EqDecision IndexedMatch.
Proof. solve_decision. Defined.

Definition matched (index : OrderedIndex) : IndexedMatch :=
  match index with
  | IndexGlobal => MatchNone
  | IndexAuthor => MatchAuthor
  | IndexKind => MatchKind
  | IndexTag tag => MatchTag tag
  end.

Definition tie_rank (index : OrderedIndex) : N :=
  match index with IndexAuthor => 0 | IndexTag _ => 1 | IndexKind => 2 | IndexGlobal => 3 end.

Definition packed_family (index : OrderedIndex) : Family :=
  match index with IndexGlobal => FGlobal | IndexAuthor => FAuthor | IndexKind => FKind | IndexTag _ => FTag end.

Record OrderedPlan := mkPlan { op_index : OrderedIndex; op_prefixes : list bytes }.

Definition by_author_prefix (author : PublicKey) : bytes := be_bytes 32 author.
Definition by_kind_prefix (kind : N) : bytes := be_bytes 2 kind.

(** The order in which a map keyed by [SingleLetterTag] is iterated. *)
Class TagOrder := tags_in_order : gmap N (gset string) → list (N * gset string).
Class TagOrderLaws `{TagOrder} : Prop := tags_in_order_perm m : tags_in_order m ≡ₚ map_to_list m.

(** [filter.authors.as_ref().filter(|values| !values.is_empty())]. *)
Definition nonempty `{Countable A} (values : option (gset A)) : option (gset A) :=
  values ≫= λ values, if decide (values = ∅) then None else Some values.

Definition tag_plan (named : N * gset string) : option (list OrderedPlan) :=
  let '(tag, values) := named in
  if decide (values = ∅) then Some []
  else prefixes ← mapM (tag_index_prefix tag) (ordered values); Some [mkPlan (IndexTag tag) prefixes].

Definition candidate_ordered_plans `{TagOrder} (filter : NFilter) : option (list OrderedPlan) :=
  let authors :=
    match nonempty (nf_authors filter) with
    | Some authors => [mkPlan IndexAuthor (by_author_prefix <$> ordered authors)]
    | None => []
    end in
  tags ← mapM tag_plan (tags_in_order (nf_generic_tags filter));
  let kinds :=
    match nonempty (nf_kinds filter) with
    | Some kinds => [mkPlan IndexKind (by_kind_prefix <$> ordered kinds)]
    | None => []
    end in
  let plans := authors ++ concat tags ++ kinds ++ [mkPlan IndexGlobal [[]]] in
  Some (sort_by (λ p q, tie_rank (op_index p) <=? tie_rank (op_index q))%N plans).

Definition plan_ordered_query `{TagOrder} (filter : NFilter) : option OrderedPlan :=
  plans ← candidate_ordered_plans filter; head plans.

(** ** The residual filter *)

Inductive AtomRef := AtomText (text : string) | AtomRaw32 (raw : bytes).

(** The atom [encode_event] makes of a tag element. *)
Definition atom_of (element : string) : AtomRef :=
  match decode_hex_32 element with Some raw => AtomRaw32 raw | None => AtomText element end.

Definition is_single_ascii (a : AtomRef) (wanted : N) : bool :=
  match a with AtomText text => bool_decide (as_bytes text = [wanted]) | AtomRaw32 _ => false end.

Record PreparedTagValues := mkPreparedValues { pt_text : gset string; pt_raw32 : list bytes }.

(** [raw32.binary_search] on the sorted vector is a membership test. *)
Definition values_match (wanted : PreparedTagValues) (a : AtomRef) : bool :=
  match a with
  | AtomText actual => bool_decide (actual ∈ pt_text wanted)
  | AtomRaw32 actual => bool_decide (actual ∈ pt_raw32 wanted)
  end.

(** [PreparedFilter::new], the sort of [raw32] apart. *)
Definition prepare_tags `{TagOrder} (filter : NFilter) : list (N * PreparedTagValues) :=
  (λ named, (named.1, mkPreparedValues named.2 (omap decode_hex_32 (ordered named.2)))) <$>
    tags_in_order (nf_generic_tags filter).

(** One tag of the row against one wanted name. *)
Definition tag_matches (name : N) (wanted : PreparedTagValues) (tag : list string) : bool :=
  match atom_of <$> tag with
  | tag_name :: value :: _ => is_single_ascii tag_name name && values_match wanted value
  | _ => false
  end.

Definition to_ascii_lowercase (b : N) : N := if ((65 <=? b) && (b <=? 90))%N then (b + 32)%N else b.

(** [content.windows(query.len()).any(|w| w.eq_ignore_ascii_case(query))]. *)
Definition contains_ignore_case (content query : bytes) : bool :=
  existsb (λ i, bool_decide (to_ascii_lowercase <$> take (length query) (drop i content) =
                             to_ascii_lowercase <$> query))
    (seq 0 (S (length content) - length query)).

Definition excluded `{Countable A} (values : option (gset A)) (actual : A) : bool :=
  match values with
  | Some values => bool_decide (values ≠ ∅) && bool_decide (actual ∉ values)
  | None => false
  end.

Definition matches_prepared_filter_after_index `{TagOrder} (filter : NFilter) (indexed : IndexedMatch) (e : Event)
    : bool :=
  if excluded (nf_ids filter) (e_id e) then false
  else if negb (bool_decide (indexed = MatchAuthor)) && excluded (nf_authors filter) (e_pubkey e) then false
  else if negb (bool_decide (indexed = MatchKind)) && excluded (nf_kinds filter) (e_kind e) then false
  else if match nf_since filter with Some since => (e_created_at e <? since)%N | None => false end ||
          match nf_until filter with Some until => (until <? e_created_at e)%N | None => false end then false
  else if existsb (λ named, negb (bool_decide (indexed = MatchTag named.1)) &&
                            negb (existsb (tag_matches named.1 named.2) (e_tags e))) (prepare_tags filter) then false
  else match nf_search filter with
       | Some query =>
           (length (as_bytes query) =? 0) || contains_ignore_case (as_bytes (e_content e)) (as_bytes query)
       | None => true
       end.

(** ** The ordered scan *)

Section doors.
Context `{ShardHash, HexCodec, TagReader, RelayParser, TagOrder}.
Context (pk : PackedStore) (t : Txn Canonical).

(** [RedbStore::decode_row] and [read_provenance]. *)
Definition decode_row (event_key : EventKey) (event : Event) (local : option LocalOrigin) : option StoredEvent :=
  seen ← load_seen (t_canonical t) event_key;
  Some (mkStored event (mkProv seen local)).

Definition pinned_relay_keys (pinned : gset RelayUrl) : gset RelayKey :=
  list_to_set (omap (λ relay, c_relay_ids (t_canonical t) !! relay) (ordered pinned)).

Definition carried_by_pinned (event_key : EventKey) (keys : gset RelayKey) : bool :=
  existsb (λ relay_key, bool_decide (is_Some (c_observations (t_canonical t) !! (event_key, relay_key)))) (ordered keys).

(** The closure [materialize_if_visible]. *)
Definition materialize_if_visible (plan : OrderedPlan) (filter : NFilter) (pinned : option (gset RelayKey))
    (event_key : EventKey) : option (option StoredEvent) :=
  let local := c_locals (t_canonical t) !! event_key in
  let hidden :=
    match pinned with
    | Some pinned => negb (carried_by_pinned event_key pinned) && bool_decide (local = None)
    | None => false
    end in
  if hidden then Some None
  else
    event ← c_rows (t_canonical t) !! event_key;
    if matches_prepared_filter_after_index filter (matched (op_index plan)) event then
      stored ← decode_row event_key event local;
      Some (if is_suppressed (t_queue t) (se_event stored) then None else Some stored)
    else Some None.

Definition query_ordered (plan : OrderedPlan) (filter : NFilter) (before : option (N * N)) (limit : option nat)
    (pinned : option (gset RelayUrl)) : option (list StoredEvent) :=
  let scan := mkPackedScan (packed_family (op_index plan)) (op_prefixes plan) (default 0%N (nf_since filter))
                (default u64_max (nf_until filter)) before limit in
  fst <$> scan_packed pk scan (λ event_key _, materialize_if_visible plan filter (pinned_relay_keys <$> pinned) event_key).

(** ** The query doors *)

(** The filter matches nothing on sight. *)
Definition unmatchable (filter : NFilter) : bool :=
  match nf_since filter, nf_until filter with
  | Some since, Some until => (until <? since)%N
  | _, _ => false
  end || bool_decide (map_Exists (λ _ values, values = ∅) (nf_generic_tags filter)).

(** One id of the exact-id path of [query]. *)
Definition query_id (filter : NFilter) (id : EventId) : option (list StoredEvent) :=
  match c_event_ids (t_canonical t) !! id with
  | None => Some []
  | Some event_key =>
      event ← c_rows (t_canonical t) !! event_key;
      if matches_prepared_filter_after_index filter MatchNone event then
        se ← decode_row event_key event (c_locals (t_canonical t) !! event_key);
        Some (if is_suppressed (t_queue t) (se_event se) then [] else [se])
      else Some []
  end.

Definition query (filter : NFilter) : option (list StoredEvent) :=
  if unmatchable filter then Some []
  else match nonempty (nf_ids filter) with
       | Some ids => rows ← mapM (query_id filter) (ordered ids); Some (concat rows)
       | None => plan ← plan_ordered_query filter; query_ordered plan filter None None None
       end.

(** [b.created_at.cmp(&a.created_at).then_with(|| a.id.cmp(&b.id))]. *)
Definition newest_first (a b : StoredEvent) : bool :=
  bool_decide (then_with (cmp (e_created_at (se_event b)) (e_created_at (se_event a)))
                 (cmp (e_id (se_event a)) (e_id (se_event b))) ≠ Gt).

Definition after_cursor (before : N * N) (row : StoredEvent) : bool :=
  (e_created_at (se_event row) <? before.1)%N ||
  ((e_created_at (se_event row) =? before.1)%N && (before.2 <? e_id (se_event row))%N).

Definition query_newest (filter : NFilter) (limit : nat) : option (list StoredEvent) :=
  if (limit =? 0) || unmatchable filter then Some []
  else match nonempty (nf_ids filter) with
       | Some _ => rows ← query filter; Some (take limit (sort_by newest_first rows))
       | None => plan ← plan_ordered_query filter; query_ordered plan filter None (Some limit) None
       end.

Definition query_newest_under_pin (filter_ : NFilter) (pinned : gset RelayUrl) (limit : nat) : option (list StoredEvent) :=
  if (limit =? 0) || unmatchable filter_ then Some []
  else match nonempty (nf_ids filter_) with
       | Some _ =>
           rows ← query filter_;
           let rows := filter (λ row, visible_under_pin (se_provenance row) pinned) rows in
           Some (take limit (sort_by newest_first rows))
       | None => plan ← plan_ordered_query filter_; query_ordered plan filter_ None (Some limit) (Some pinned)
       end.

Definition query_newest_before (filter_ : NFilter) (before : N * N) (limit : nat) : option (list StoredEvent) :=
  if (limit =? 0) || unmatchable filter_ then Some []
  else match nonempty (nf_ids filter_) with
       | Some _ =>
           rows ← query filter_;
           Some (take limit (sort_by newest_first (filter (after_cursor before) rows)))
       | None => plan ← plan_ordered_query filter_; query_ordered plan filter_ (Some before) (Some limit) None
       end.

Definition query_newest_before_under_pin (filter_ : NFilter) (pinned : gset RelayUrl) (before : N * N) (limit : nat)
    : option (list StoredEvent) :=
  if (limit =? 0) || unmatchable filter_ then Some []
  else match nonempty (nf_ids filter_) with
       | Some _ =>
           rows ← query filter_;
           let rows := filter (λ row, after_cursor before row && visible_under_pin (se_provenance row) pinned) rows in
           Some (take limit (sort_by newest_first rows))
       | None => plan ← plan_ordered_query filter_; query_ordered plan filter_ (Some before) (Some limit) (Some pinned)
       end.

(** [by_id.entry(row.event.id).or_insert(row)] over the rows of each filter. *)
Definition merge_rows (by_id : gmap EventId StoredEvent) (rows : list StoredEvent) : gmap EventId StoredEvent :=
  foldl (λ m row, match m !! e_id (se_event row) with Some _ => m | None => <[e_id (se_event row) := row]> m end) by_id rows.

Definition query_any (door : NFilter → option (list StoredEvent)) (filters : list NFilter) (limit : nat)
    : option (list StoredEvent) :=
  if (limit =? 0) || (length filters =? 0) then Some []
  else
    by_id ← foldl (λ o filter, by_id ← o; rows ← door filter; Some (merge_rows by_id rows)) (Some ∅) filters;
    Some (take limit (sort_by newest_first (ordered_map by_id).*2)).

Definition query_newest_before_any (filters : list NFilter) (before : N * N) (limit : nat) : option (list StoredEvent) :=
  query_any (λ filter, query_newest_before filter before limit) filters limit.
Definition query_newest_before_any_under_pin (filters : list NFilter) (pinned : gset RelayUrl) (before : N * N)
    (limit : nat) : option (list StoredEvent) :=
  query_any (λ filter, query_newest_before_under_pin filter pinned before limit) filters limit.
End doors.
