(* ===== verification/BinaryEvent.v ===== *)
(** * The bytes of an event row

    [crates/nmp-store/src/binary_event.rs]: the envelope of an immutable event,
    of the local state of a row, of the provenance of a displaced row and of the
    two together, and [StoredEventView], which reads an event where it lies.

    A byte is an [N], an offset a [nat]; [usize] is 64 bits wide and its checked
    sums are written out ([checked]).  A failed slice or [expect] is [Panic], an
    error value [Err].  A [String] is UTF-8 ([QueueBytes.text_ok]). *)

From S2P Require Import Prelude Grammar Schema QueueBytes Coverage Canonical Query.

Inductive DecodeError :=
  | Truncated | BadMagic | UnsupportedVersion (version : N) | InvalidFlags (flags : N)
  | InvalidReserved | InvalidUtf8 | EmptyTag | InvalidTag | InvalidRelay | DuplicateRelay
  | DuplicateOwner | InvalidOwnerOrder | InvalidSignature | InvalidLocalState (state : N)
  | TrailingBytes | LengthOverflow | InvalidAtom | NonCanonicalLength.

Inductive Outcome (A : Type) := Ok (x : A) | Err (e : DecodeError) | Panic.
Arguments Ok {_} _.
Arguments Err {_} _.
Arguments Panic {_}.

#[global] Instance outcome_ret : MRet Outcome := λ A x, Ok x.
#[global] Instance outcome_bind : MBind Outcome := λ A B f m,
  match m with Ok x => f x | Err e => Err e | Panic => Panic end.

(** [?] on an [Option] turned into an error, and [expect]. *)
Definition or_err {A} (e : DecodeError) (o : option A) : Outcome A := match o with Some x => Ok x | None => Err e end.
Definition expect {A} (o : option A) : Outcome A := match o with Some x => Ok x | None => Panic end.
(** [expect] on a [Result]. *)
Definition expect_ok {A} (m : Outcome A) : Outcome A := match m with Err _ => Panic | m => m end.

Fixpoint fold_outcome {A B} (f : A → B → Outcome A) (a : A) (l : list B) : Outcome A :=
  match l with [] => Ok a | x :: l => a ← f a x; fold_outcome f a l end.

(** ** Constants *)

Definition event_magic : bytes := as_bytes "NMPE".
Definition local_magic : bytes := as_bytes "NMPL".
Definition provenance_magic : bytes := as_bytes "NMPP".
Definition composite_magic : bytes := as_bytes "NMPC".
Definition event_version : N := 4.
Definition sidecar_version : N := 3.
Definition composite_version : N := 4.
Definition flag_local : N := 1.

Definition event_header_len : nat := 158.
Definition id_offset : nat := 8.
Definition pubkey_offset : nat := 40.
Definition sig_offset : nat := 72.
Definition created_at_offset : nat := 136.
Definition kind_offset : nat := 144.
Definition tag_count_offset : nat := 146.
Definition tag_section_len_offset : nat := 150.
Definition content_len_offset : nat := 154.

Definition atom_kind_mask : N := 3221225472.
Definition atom_offset_mask : N := 1073741823.
Definition atom_inline : N := 0.
Definition atom_utf8 : N := 1073741824.
Definition atom_raw32 : N := 2147483648.

Definition local_header_len : nat := 12.
Definition provenance_header_len : nat := 16.
Definition composite_header_len : nat := 16.

(** ** Integers and slices *)

(** A [usize] that fits. *)
Definition checked (n : nat) : Outcome nat := if (N.of_nat n <=? u64_max)%N then Ok n else Err LengthOverflow.
(** [u32::try_from]. *)
Definition try_u32 (n : nat) : Outcome N := if (N.of_nat n <=? u32_max)%N then Ok (N.of_nat n) else Err LengthOverflow.

Definition push_u32 (out : bytes) (value : nat) : Outcome bytes := value ← try_u32 value; Ok (out ++ be_bytes 4 value).

(** [read_u16], [read_u32] and [read_u64] are [read_uint] at 2, 4 and 8 bytes. *)
Definition read_uint (width : nat) (bs : bytes) (offset : nat) : Outcome N :=
  raw ← or_err Truncated (slice bs offset (offset + width)); Ok (from_be_bytes raw).

(** [take], [take_u32] and [take_u64]: the value, and the cursor past it. *)
Definition take_bytes (bs : bytes) (cursor len : nat) : Outcome (bytes * nat) :=
  end_ ← checked (cursor + len);
  value ← or_err Truncated (slice bs cursor end_);
  Ok (value, end_).
Definition take_uint (width : nat) (bs : bytes) (cursor : nat) : Outcome (N * nat) :=
  value ← read_uint width bs cursor;
  cursor ← checked (cursor + width);
  Ok (value, cursor).

Definition check_magic_and_version (bs magic : bytes) (expected_version : N) : Outcome unit :=
  if decide (slice bs 0 4 ≠ Some magic) then Err (if length bs <? 4 then Truncated else BadMagic)
  else
    version ← or_err Truncated (bs !! 4);
    if decide (version ≠ expected_version) then Err (UnsupportedVersion version) else Ok tt.

Definition checked_capacity (base first second : nat) : Outcome nat :=
  value ← checked (base + first); checked (value + second).
Definition checked_add_len (total value : nat) : Outcome nat := checked (total + value).

Definition encode_hex_32 (raw : bytes) : string := string_of_bytes (encode_pairs raw).

(** ** LEB128 lengths *)

(** A [u32] has at most five groups of seven bits. *)
Fixpoint leb_loop (fuel : nat) (value : N) : bytes :=
  let byte := N.land value 127 in
  let value := N.shiftr value 7 in
  if decide (value = 0%N) then [byte]
  else N.lor byte 128 :: match fuel with 0 => [] | S fuel => leb_loop fuel value end.

Definition push_leb128_u32 (out : bytes) (value : nat) : Outcome bytes :=
  value ← try_u32 value; Ok (out ++ leb_loop 4 value).

Definition leb128_u32_len (value : nat) : Outcome nat :=
  value ← try_u32 value;
  Ok (if (value <=? 127)%N then 1 else if (value <=? 16383)%N then 2 else if (value <=? 2097151)%N then 3
      else if (value <=? 268435455)%N then 4 else 5).

Fixpoint take_leb_loop (indexes : list N) (bs : bytes) (cursor : nat) (value : N) : Outcome (N * nat) :=
  match indexes with
  | [] => Err LengthOverflow
  | index :: indexes =>
      '(taken, cursor) ← take_bytes bs cursor 1;
      byte ← expect (head taken);
      let payload := N.land byte 127 in
      if decide (index = 4 ∧ 15 < payload)%N then Err LengthOverflow
      else
        let value := N.lor value (N.shiftl payload (index * 7)) in
        if decide (N.land byte 128 = 0%N) then
          if decide (0 < index ∧ payload = 0)%N then Err NonCanonicalLength else Ok (value, cursor)
        else take_leb_loop indexes bs cursor value
  end.
Definition take_leb128_u32 (bs : bytes) (cursor : nat) : Outcome (N * nat) :=
  take_leb_loop [0; 1; 2; 3; 4]%N bs cursor 0.

(** ** Atoms *)

Definition arena_offset_descriptor (kind : N) (arena_len : nat) : Outcome N :=
  offset ← try_u32 arena_len;
  if (atom_offset_mask <? offset)%N then Err LengthOverflow else Ok (N.lor kind offset).

(** [payload[1..1 + bytes.len()]] of a zeroed [payload], for at most three bytes. *)
Definition inline_atom_descriptor (bs : bytes) : N :=
  N.lor (N.shiftl (N.of_nat (length bs)) 28) (from_be_bytes (0%N :: bs ++ replicate (3 - length bs) 0%N)).

(** [std::str::from_utf8]. *)
Definition utf8_text (bs : bytes) : Outcome string :=
  if utf8_valid bs then Ok (string_of_bytes bs) else Err InvalidUtf8.

(** The atom and, for an atom in the arena, its cell. *)
Definition decode_atom (descriptor arena : bytes) : Outcome (AtomRef * option (nat * nat)) :=
  let word := from_be_bytes descriptor in
  let kind := N.land word atom_kind_mask in
  let offset := N.land word atom_offset_mask in
  if decide (kind = atom_inline) then
    let len := N.to_nat (N.land (N.shiftr word 28) 3) in
    padding ← expect (slice descriptor (1 + len) (length descriptor));
    if bool_decide (N.land word 251658240 ≠ 0%N) || existsb (λ b, negb (b =? 0)%N) padding then Err InvalidAtom
    else
      raw ← expect (slice descriptor 1 (1 + len));
      text ← utf8_text raw;
      Ok (AtomText text, None)
  else if decide (kind = atom_utf8) then
    '(len, cursor) ← take_leb128_u32 arena (N.to_nat offset);
    '(raw, cursor) ← take_bytes arena cursor (N.to_nat len);
    text ← utf8_text raw;
    if (length raw <=? 3) || bool_decide (is_Some (decode_hex_32 text)) then Err InvalidAtom
    else Ok (AtomText text, Some (N.to_nat offset, cursor))
  else if decide (kind = atom_raw32) then
    '(raw, cursor) ← take_bytes arena (N.to_nat offset) 32;
    Ok (AtomRaw32 raw, Some (N.to_nat offset, cursor))
  else Err InvalidAtom.

Definition to_owned_text (a : AtomRef) : string :=
  match a with AtomText text => text | AtomRaw32 raw => encode_hex_32 raw end.

(** ** Encoding an event *)

Definition shape_element (acc : nat * nat) (element : string) : Outcome (nat * nat) :=
  let '(atom_count, arena_len) := acc in
  atom_count ← checked (atom_count + 1);
  let len := length (as_bytes element) in
  if len <=? 3 then Ok (atom_count, arena_len)
  else
    cell_len ←
      match decode_hex_32 element with
      | Some _ => Ok 32
      | None => n ← leb128_u32_len len; checked (n + len)
      end;
    arena_len ← checked (arena_len + cell_len);
    if (atom_offset_mask <? N.of_nat arena_len)%N then Err LengthOverflow else Ok (atom_count, arena_len).

Definition shape_tag (acc : nat * nat) (tag : list string) : Outcome (nat * nat) :=
  match tag with [] => Err EmptyTag | _ => fold_outcome shape_element acc tag end.

Definition encoded_tag_shape (tags : list (list string)) : Outcome (nat * nat) :=
  '(atom_count, arena_len) ← fold_outcome shape_tag (0, 0) tags;
  _ ← try_u32 atom_count;
  Ok (atom_count, arena_len).

(** [out[offset..][..value.len()].copy_from_slice(value)]. *)
Definition write_at (out : bytes) (offset : nat) (value : bytes) : Outcome bytes :=
  if decide (offset + length value ≤ length out) then
    Ok (take offset out ++ value ++ drop (offset + length value) out)
  else Panic.

(** One element of a tag: its cell joins the arena, its descriptor the directory. *)
Definition encode_atom (atom_refs_start arena_start : nat) (acc : bytes * nat) (element : string)
    : Outcome (bytes * nat) :=
  let '(out, atom_index) := acc in
  let bs := as_bytes element in
  let arena_offset := length out - arena_start in
  '(descriptor, out) ←
    (if length bs <=? 3 then Ok (inline_atom_descriptor bs, out)
     else match decode_hex_32 element with
          | Some raw =>
              descriptor ← arena_offset_descriptor atom_raw32 arena_offset;
              Ok (descriptor, out ++ raw)
          | None =>
              descriptor ← arena_offset_descriptor atom_utf8 arena_offset;
              out ← push_leb128_u32 out (length bs);
              Ok (descriptor, out ++ bs)
          end);
  out ← write_at out (atom_refs_start + atom_index * 4) (be_bytes 4 descriptor);
  Ok (out, atom_index + 1).

Definition encode_tag (atom_refs_start arena_start : nat) (acc : bytes * nat * nat) (tag : list string)
    : Outcome (bytes * nat * nat) :=
  let '(out, atom_index, tag_index) := acc in
  '(out, atom_index) ← fold_outcome (encode_atom atom_refs_start arena_start) (out, atom_index) tag;
  end_ ← try_u32 atom_index;
  out ← write_at out (event_header_len + tag_index * 4) (be_bytes 4 end_);
  Ok (out, atom_index, tag_index + 1).

Definition encode_event (event : Event) : Outcome bytes :=
  let tags := e_tags event in
  let content := as_bytes (e_content event) in
  '(atom_count, arena_len) ← encoded_tag_shape tags;
  count ← checked (length tags + atom_count);
  directory_len ← checked (count * 4);
  tag_section_len ← checked (directory_len + arena_len);
  _ ← try_u32 (length tags);
  _ ← try_u32 tag_section_len;
  _ ← try_u32 (length content);
  capacity ← checked (event_header_len + tag_section_len);
  _ ← checked (capacity + length content);
  let out := event_magic ++ [event_version] ++ replicate 3 0%N ++ be_bytes 32 (e_id event) ++
               be_bytes 32 (e_pubkey event) ++ be_bytes 64 (e_sig event) ++
               be_bytes 8 (e_created_at event) ++ be_bytes 2 (e_kind event) in
  out ← push_u32 out (length tags);
  out ← push_u32 out tag_section_len;
  out ← push_u32 out (length content);
  let atom_refs_start := event_header_len + length tags * 4 in
  let arena_start := atom_refs_start + atom_count * 4 in
  let out := resize arena_start 0%N out in
  '(out, _, _) ← fold_outcome (encode_tag atom_refs_start arena_start) (out, 0, 0) tags;
  Ok (out ++ content).

(** ** The view of an event *)

Record StoredEventView := mkView {
  vw_bytes : bytes;
  vw_tag_count : nat;
  vw_atom_count : nat;
  vw_atom_refs_start : nat;
  vw_arena_start : nat;
  vw_arena_len : nat;
  vw_content_start : nat;
  vw_content_len : nat
}.

Definition from_trusted (bs : bytes) : Outcome StoredEventView :=
  if length bs <? event_header_len then Err Truncated
  else
    _ ← check_magic_and_version bs event_magic event_version;
    reserved ← expect (slice bs 5 8);
    if decide (reserved ≠ [0; 0; 0]%N) then Err InvalidReserved
    else
      tag_count ← read_uint 4 bs tag_count_offset;
      tag_section_len ← read_uint 4 bs tag_section_len_offset;
      content_len ← read_uint 4 bs content_len_offset;
      let tag_count := N.to_nat tag_count in
      let tag_section_len := N.to_nat tag_section_len in
      let content_len := N.to_nat content_len in
      content_start ← checked (event_header_len + tag_section_len);
      expected_len ← checked (content_start + content_len);
      if length bs <? expected_len then Err Truncated
      else if expected_len <? length bs then Err TrailingBytes
      else
        tag_ends_len ← checked (tag_count * 4);
        if tag_section_len <? tag_ends_len then Err LengthOverflow
        else
          atom_count ←
            (if tag_count =? 0 then Ok 0%N else read_uint 4 bs (event_header_len + tag_ends_len - 4));
          let atom_count := N.to_nat atom_count in
          atom_refs_len ← checked (atom_count * 4);
          atom_refs_start ← checked (event_header_len + tag_ends_len);
          arena_start ← checked (atom_refs_start + atom_refs_len);
          if content_start <? arena_start then Err LengthOverflow
          else Ok (mkView bs tag_count atom_count atom_refs_start arena_start (content_start - arena_start)
                     content_start content_len).

(** [&self.bytes[arena_start..arena_start + arena_len]]. *)
Definition view_arena (v : StoredEventView) : Outcome bytes :=
  expect (slice (vw_bytes v) (vw_arena_start v) (vw_arena_start v + vw_arena_len v)).

(** The loops of [parse]: the ends of the tags, and the atoms with their cells. *)
Fixpoint parse_tag_ends (v : StoredEventView) (count index previous_end : nat) : Outcome nat :=
  match count with
  | 0 => Ok previous_end
  | S count =>
      end_ ← read_uint 4 (vw_bytes v) (event_header_len + index * 4);
      let end_ := N.to_nat end_ in
      if end_ <=? previous_end then Err EmptyTag
      else if vw_atom_count v <? end_ then Err LengthOverflow
      else parse_tag_ends v count (index + 1) end_
  end.

Fixpoint parse_atoms (v : StoredEventView) (arena : bytes) (count index arena_cursor : nat) : Outcome nat :=
  match count with
  | 0 => Ok arena_cursor
  | S count =>
      let offset := vw_atom_refs_start v + index * 4 in
      descriptor ← expect (slice (vw_bytes v) offset (offset + 4));
      '(_, cell) ← decode_atom descriptor arena;
      match cell with
      | Some (start, end_) =>
          if decide (start ≠ arena_cursor) then Err InvalidAtom
          else parse_atoms v arena count (index + 1) end_
      | None => parse_atoms v arena count (index + 1) arena_cursor
      end
  end.

Definition parse (bs : bytes) : Outcome StoredEventView :=
  v ← from_trusted bs;
  previous_end ← parse_tag_ends v (vw_tag_count v) 0 0;
  if decide (previous_end ≠ vw_atom_count v) then Err LengthOverflow
  else
    arena ← view_arena v;
    arena_cursor ← parse_atoms v arena (vw_atom_count v) 0 0;
    if decide (arena_cursor ≠ length arena) then Err InvalidAtom
    else
      content ← or_err Truncated (slice bs (vw_content_start v) (vw_content_start v + vw_content_len v));
      _ ← utf8_text content;
      Ok v.

(** The fixed fields. *)
Definition view_field (v : StoredEventView) (offset width : nat) : Outcome bytes :=
  expect (slice (vw_bytes v) offset (offset + width)).
Definition id_bytes (v : StoredEventView) : Outcome bytes := view_field v id_offset 32.
Definition pubkey_bytes (v : StoredEventView) : Outcome bytes := view_field v pubkey_offset 32.
Definition signature_bytes (v : StoredEventView) : Outcome bytes := view_field v sig_offset 64.
Definition created_at_secs (v : StoredEventView) : Outcome N := expect_ok (read_uint 8 (vw_bytes v) created_at_offset).
Definition kind_u16 (v : StoredEventView) : Outcome N := expect_ok (read_uint 2 (vw_bytes v) kind_offset).

Definition view_content (v : StoredEventView) : Outcome string :=
  raw ← expect (slice (vw_bytes v) (vw_content_start v) (vw_content_start v + vw_content_len v)); utf8_text raw.

(** [TagElementsIter::next]: the item, and the next atom.  An error ends the tag. *)
Definition next_element (v : StoredEventView) (atom_index atom_end : nat)
    : Outcome (option (DecodeError + AtomRef) * nat) :=
  if decide (atom_index = atom_end) then Ok (None, atom_index)
  else
    let offset := vw_atom_refs_start v + atom_index * 4 in
    match slice (vw_bytes v) offset (offset + 4) with
    | None => Ok (Some (inl Truncated), atom_end)
    | Some descriptor =>
        arena ← view_arena v;
        match decode_atom descriptor arena with
        | Ok (atom, _) => Ok (Some (inr atom), atom_index + 1)
        | Err error => Ok (Some (inl error), atom_end)
        | Panic => Panic
        end
    end.

(** [TagsIter::next]: the end of the tag at [tag_index]. *)
Definition tag_end (v : StoredEventView) (tag_index : nat) : Outcome nat :=
  end_ ← expect_ok (read_uint 4 (vw_bytes v) (event_header_len + tag_index * 4)); Ok (N.to_nat end_).

(** [tag.elements().collect()]; every element takes four bytes of the row. *)
Fixpoint collect_elements (fuel : nat) (v : StoredEventView) (atom_index atom_end : nat) : Outcome (list AtomRef) :=
  match fuel with
  | 0 => Panic
  | S fuel =>
      '(item, atom_index) ← next_element v atom_index atom_end;
      match item with
      | None => Ok []
      | Some (inl error) => Err error
      | Some (inr atom) => rest ← collect_elements fuel v atom_index atom_end; Ok (atom :: rest)
      end
  end.
Definition elements_fuel (v : StoredEventView) : nat := S (length (vw_bytes v)).

(** [Tag::parse] and [Signature::from_slice] of the nostr crate. *)
Class RowReader := {
  tag_parse : list string → option (list string);
  signature_from_slice : bytes → option N
}.
(** A tag is its elements, of which there is one at least; a signature is 64 bytes. *)
Class RowReaderLaws `{RowReader} : Prop := {
  tag_parse_Some elements tag : tag_parse elements = Some tag ↔ elements ≠ [] ∧ tag = elements;
  signature_from_slice_Some raw sig : length raw = 64 → is_bytes raw →
    signature_from_slice raw = Some sig ↔ sig = from_be_bytes raw
}.

Section materialize.
Context `{RowReader}.

Fixpoint materialize_tags (v : StoredEventView) (count tag_index previous_end : nat) : Outcome (list (list string)) :=
  match count with
  | 0 => Ok []
  | S count =>
      end_ ← tag_end v tag_index;
      atoms ← collect_elements (elements_fuel v) v previous_end end_;
      tag ← or_err InvalidTag (tag_parse (to_owned_text <$> atoms));
      rest ← materialize_tags v count (tag_index + 1) end_;
      Ok (tag :: rest)
  end.

Definition materialize_event (v : StoredEventView) : Outcome Event :=
  tags ← materialize_tags v (vw_tag_count v) 0 0;
  id ← id_bytes v;
  pubkey ← pubkey_bytes v;
  created_at ← created_at_secs v;
  kind ← kind_u16 v;
  content ← view_content v;
  signature ← signature_bytes v;
  sig ← or_err InvalidSignature (signature_from_slice signature);
  Ok (mkEvent (from_be_bytes id) (from_be_bytes pubkey) created_at kind tags content sig).
End materialize.

(** ** The residual filter on a view *)

(** One name of the filter against the tags, which are read until one matches. *)
Fixpoint any_tag_matches (v : StoredEventView) (name : N) (wanted : PreparedTagValues)
    (count tag_index previous_end : nat) : Outcome bool :=
  match count with
  | 0 => Ok false
  | S count =>
      end_ ← tag_end v tag_index;
      '(item, atom_index) ← next_element v previous_end end_;
      match item with
      | None => any_tag_matches v name wanted count (tag_index + 1) end_
      | Some (inl error) => Err error
      | Some (inr tag_name) =>
          '(item, _) ← next_element v atom_index end_;
          match item with
          | None => any_tag_matches v name wanted count (tag_index + 1) end_
          | Some (inl error) => Err error
          | Some (inr value) =>
              if is_single_ascii tag_name name && values_match wanted value then Ok true
              else any_tag_matches v name wanted count (tag_index + 1) end_
          end
      end
  end.

Fixpoint all_names_match (v : StoredEventView) (indexed : IndexedMatch) (names : list (N * PreparedTagValues))
    : Outcome bool :=
  match names with
  | [] => Ok true
  | (name, wanted) :: names =>
      if decide (indexed = MatchTag name) then all_names_match v indexed names
      else
        any_match ← any_tag_matches v name wanted (vw_tag_count v) 0 0;
        if any_match : bool then all_names_match v indexed names else Ok false
  end.

(** A set of values none of which is spelled [raw]. *)
Definition bytes_excluded (width : nat) (values : option (gset N)) (raw : bytes) : bool :=
  match values with
  | Some values => bool_decide (values ≠ ∅) && negb (existsb (λ x, bool_decide (be_bytes width x = raw)) (ordered values))
  | None => false
  end.

Definition view_matches `{TagOrder} (filter : NFilter) (indexed : IndexedMatch) (v : StoredEventView) : Outcome bool :=
  id ← id_bytes v;
  if bytes_excluded 32 (nf_ids filter) id then Ok false
  else
    pubkey ← pubkey_bytes v;
    if negb (bool_decide (indexed = MatchAuthor)) && bytes_excluded 32 (nf_authors filter) pubkey then Ok false
    else
      kind ← kind_u16 v;
      if negb (bool_decide (indexed = MatchKind)) && excluded (nf_kinds filter) kind then Ok false
      else
        created_at ← created_at_secs v;
        if match nf_since filter with Some since => (created_at <? since)%N | None => false end ||
           match nf_until filter with Some until => (until <? created_at)%N | None => false end then Ok false
        else
          tags ← all_names_match v indexed (prepare_tags filter);
          if (tags : bool) then
            match nf_search filter with
            | Some query =>
                if length (as_bytes query) =? 0 then Ok true
                else
                  content ← view_content v;
                  Ok (contains_ignore_case (as_bytes content) (as_bytes query))
            | None => Ok true
            end
          else Ok false.

(** ** Local state *)

Definition sig_state_byte (s : SigState) : N := match s with Pending => 0 | Signed => 1 end.
Definition decode_local_state (b : N) : Outcome SigState :=
  if decide (b = 0%N) then Ok Pending else if decide (b = 1%N) then Ok Signed else Err (InvalidLocalState b).

Definition checked_local_len (owner_count : nat) : Outcome nat :=
  _ ← try_u32 owner_count;
  owners_len ← checked (owner_count * 8);
  checked (local_header_len + owners_len).

Definition encode_owners (owners : gset N) : bytes := concat (be_bytes 8 <$> ordered owners).

Definition encode_local (local : LocalOrigin) : Outcome bytes :=
  _ ← checked_local_len (size (lo_owners local));
  out ← push_u32 (local_magic ++ [sidecar_version] ++ [sig_state_byte (lo_sig_state local)] ++ replicate 2 0%N)
          (size (lo_owners local));
  Ok (out ++ encode_owners (lo_owners local)).

Fixpoint decode_owners_loop (count : nat) (bs : bytes) (cursor : nat) (previous : option N) (owners : gset N)
    : Outcome (gset N * nat) :=
  match count with
  | 0 => Ok (owners, cursor)
  | S count =>
      '(owner, cursor) ← take_uint 8 bs cursor;
      match previous with
      | Some prior =>
          if (owner =? prior)%N then Err DuplicateOwner
          else if (owner <? prior)%N then Err InvalidOwnerOrder
          else decode_owners_loop count bs cursor (Some owner) ({[ owner ]} ∪ owners)
      | None => decode_owners_loop count bs cursor (Some owner) ({[ owner ]} ∪ owners)
      end
  end.
Definition decode_owners (bs : bytes) (cursor count : nat) : Outcome (gset N * nat) :=
  decode_owners_loop count bs cursor None ∅.

Definition decode_local (bs : bytes) : Outcome LocalOrigin :=
  if length bs <? local_header_len then Err Truncated
  else
    _ ← check_magic_and_version bs local_magic sidecar_version;
    state ← expect (bs !! 5);
    sig_state ← decode_local_state state;
    reserved ← expect (slice bs 6 8);
    if decide (reserved ≠ [0; 0]%N) then Err InvalidReserved
    else
      owner_count ← read_uint 4 bs 8;
      let owner_count := N.to_nat owner_count in
      expected_len ← checked_local_len owner_count;
      if length bs <? expected_len then Err Truncated
      else if expected_len <? length bs then Err TrailingBytes
      else
        '(owners, _) ← decode_owners bs local_header_len owner_count;
        Ok (mkLocal owners sig_state).

(** ** Provenance *)

Definition encoded_provenance_body_len (p : Provenance) : Outcome nat :=
  total ← fold_outcome (λ total relay,
    total ← checked_add_len total 4;
    total ← checked_add_len total (length (as_bytes relay));
    checked_add_len total 8) 0 (ordered_map (pv_seen p)).*1;
  match pv_local p with
  | Some local =>
      total ← checked_add_len total 1;
      owners_len ← checked (size (lo_owners local) * 8);
      checked_add_len total owners_len
  | None => Ok total
  end.

Definition encode_seen (out : bytes) (entry : RelayUrl * N) : Outcome bytes :=
  out ← push_u32 out (length (as_bytes entry.1));
  Ok (out ++ as_bytes entry.1 ++ be_bytes 8 entry.2).

Definition encode_provenance (p : Provenance) : Outcome bytes :=
  let flags := match pv_local p with Some _ => flag_local | None => 0%N end in
  let owner_count := match pv_local p with Some local => size (lo_owners local) | None => 0 end in
  body_len ← encoded_provenance_body_len p;
  _ ← checked_capacity provenance_header_len body_len 0;
  out ← push_u32 (provenance_magic ++ [sidecar_version] ++ [flags] ++ replicate 2 0%N) (size (pv_seen p));
  out ← push_u32 out owner_count;
  out ← fold_outcome encode_seen out (ordered_map (pv_seen p));
  Ok (match pv_local p with
      | Some local => out ++ [sig_state_byte (lo_sig_state local)] ++ encode_owners (lo_owners local)
      | None => out
      end).

Section provenance.
Context `{RelayParser}.

Fixpoint decode_seen (count : nat) (bs : bytes) (cursor : nat) (seen : gmap RelayUrl N)
    : Outcome (gmap RelayUrl N * nat) :=
  match count with
  | 0 => Ok (seen, cursor)
  | S count =>
      '(relay_len, cursor) ← take_uint 4 bs cursor;
      '(raw, cursor) ← take_bytes bs cursor (N.to_nat relay_len);
      text ← utf8_text raw;
      relay ← or_err InvalidRelay (parse_relay text);
      '(at_, cursor) ← take_uint 8 bs cursor;
      match seen !! relay with
      | Some _ => Err DuplicateRelay
      | None => decode_seen count bs cursor (<[relay := at_]> seen)
      end
  end.

Definition decode_provenance (bs : bytes) : Outcome Provenance :=
  if length bs <? provenance_header_len then Err Truncated
  else
    _ ← check_magic_and_version bs provenance_magic sidecar_version;
    flags ← expect (bs !! 5);
    if decide (N.ldiff flags flag_local ≠ 0%N) then Err (InvalidFlags flags)
    else
      reserved ← expect (slice bs 6 8);
      if decide (reserved ≠ [0; 0]%N) then Err InvalidReserved
      else
        seen_count ← read_uint 4 bs 8;
        owner_count ← read_uint 4 bs 12;
        if decide (N.land flags flag_local = 0%N ∧ owner_count ≠ 0%N) then Err (InvalidFlags flags)
        else
          '(seen, cursor) ← decode_seen (N.to_nat seen_count) bs provenance_header_len ∅;
          '(local, cursor) ←
            (if decide (N.land flags flag_local ≠ 0%N) then
               '(taken, cursor) ← take_bytes bs cursor 1;
               state ← expect (head taken);
               sig_state ← decode_local_state state;
               '(owners, cursor) ← decode_owners bs cursor (N.to_nat owner_count);
               Ok (Some (mkLocal owners sig_state), cursor)
             else Ok (None, cursor));
          if decide (cursor ≠ length bs) then Err TrailingBytes else Ok (mkProv seen local).

(** ** A displaced row *)

Definition encode (stored : StoredEvent) : Outcome bytes :=
  event ← encode_event (se_event stored);
  provenance ← encode_provenance (se_provenance stored);
  _ ← checked_capacity composite_header_len (length event) (length provenance);
  out ← push_u32 (composite_magic ++ [composite_version] ++ replicate 3 0%N) (length event);
  out ← push_u32 out (length provenance);
  Ok (out ++ event ++ provenance).

Definition decode `{RowReader} (bs : bytes) : Outcome StoredEvent :=
  if length bs <? composite_header_len then Err Truncated
  else
    _ ← check_magic_and_version bs composite_magic composite_version;
    reserved ← expect (slice bs 5 8);
    if decide (reserved ≠ [0; 0; 0]%N) then Err InvalidReserved
    else
      event_len ← read_uint 4 bs 8;
      provenance_len ← read_uint 4 bs 12;
      let event_len := N.to_nat event_len in
      let provenance_len := N.to_nat provenance_len in
      expected_len ← checked_capacity composite_header_len event_len provenance_len;
      if length bs <? expected_len then Err Truncated
      else if expected_len <? length bs then Err TrailingBytes
      else
        provenance_start ← checked (composite_header_len + event_len);
        event_bytes ← expect (slice bs composite_header_len provenance_start);
        v ← parse event_bytes;
        event ← materialize_event v;
        provenance_bytes ← expect (slice bs provenance_start expected_len);
        provenance ← decode_provenance provenance_bytes;
        Ok (mkStored event provenance).
End provenance.
