(* ===== verification/BinaryAtoms.v ===== *)
(** * Lengths and atoms of an event row

    An atom decodes to what was encoded, and what decodes was encoded so: a
    length has one LEB128 spelling, and an element of a tag one descriptor and one
    cell. *)

From S2P Require Import Prelude Grammar Schema QueueBytes PostingsFormat PostingsCodec Query BinaryEvent.

(** ** Outcomes *)

#[global] Instance Ok_inj {A} : Inj (=) (=) (@Ok A).
Proof. by intros x y [= ->]. Qed.

Lemma Ok_bind {A B} (x : A) (k : A → Outcome B) : Ok x ≫= k = k x.
Proof. done. Qed.

Lemma bind_Ok {A B} (m : Outcome A) (k : A → Outcome B) y :
  m ≫= k = Ok y ↔ ∃ x, m = Ok x ∧ k x = Ok y.
Proof. destruct m as [x|e|]; unfold mbind, outcome_bind; naive_solver. Qed.

Lemma or_err_Ok {A} e (o : option A) x : or_err e o = Ok x ↔ o = Some x.
Proof. destruct o; naive_solver. Qed.
Lemma expect_Ok {A} (o : option A) x : expect o = Ok x ↔ o = Some x.
Proof. destruct o; naive_solver. Qed.
Lemma expect_ok_Ok {A} (m : Outcome A) x : expect_ok m = Ok x ↔ m = Ok x.
Proof. destruct m; naive_solver. Qed.

Lemma checked_Ok n m : checked n = Ok m ↔ m = n ∧ (N.of_nat n ≤ u64_max)%N.
Proof. unfold checked. destruct (N.leb_spec (N.of_nat n) u64_max); naive_solver lia. Qed.
Lemma checked_fits n : (N.of_nat n ≤ u64_max)%N → checked n = Ok n.
Proof. intros. by apply checked_Ok. Qed.
Lemma try_u32_Ok n m : try_u32 n = Ok m ↔ m = N.of_nat n ∧ (N.of_nat n ≤ u32_max)%N.
Proof. unfold try_u32. destruct (N.leb_spec (N.of_nat n) u32_max); naive_solver lia. Qed.
Lemma try_u32_fits n : (N.of_nat n ≤ u32_max)%N → try_u32 n = Ok (N.of_nat n).
Proof. intros. by apply try_u32_Ok. Qed.

Lemma push_u32_Ok out n out' :
  push_u32 out n = Ok out' ↔ out' = out ++ be_bytes 4 (N.of_nat n) ∧ (N.of_nat n ≤ u32_max)%N.
Proof. unfold push_u32. rewrite bind_Ok. setoid_rewrite try_u32_Ok. naive_solver. Qed.

(** ** Fields in place *)

Lemma slice_inv {A} (l : list A) s e x :
  slice l s e = Some x → ∃ a c, l = a ++ x ++ c ∧ length a = s ∧ s + length x = e.
Proof.
  unfold slice. case_decide as Hd; [|done]. intros [= <-]. exists (take s l), (drop e l). split_and!.
  - rewrite <-(take_drop s l) at 1. f_equal. rewrite <-(take_drop (e - s) (drop s l)) at 1. f_equal.
    rewrite drop_drop. f_equal. lia.
  - rewrite length_take. lia.
  - rewrite length_take, length_drop. lia.
Qed.

Lemma slice_empty {A} (l : list A) s : s ≤ length l → slice l s s = Some [].
Proof. intros. unfold slice. rewrite decide_True by lia. by rewrite Nat.sub_diag. Qed.

Lemma slice_join {A} (l : list A) s m e x y :
  slice l s m = Some x → slice l m e = Some y → slice l s e = Some (x ++ y).
Proof.
  intros (a & c & -> & <- & <-)%slice_inv (a' & c' & E & El & <-)%slice_inv. rewrite app_assoc in E |- *.
  rewrite E. apply app_inj_1 in E as [<- ->]; [|by rewrite length_app]. rewrite <-!app_assoc.
  rewrite (app_assoc x). apply slice_mid; [done|]. rewrite length_app. lia.
Qed.

Lemma slice_one {A} (l : list A) i x : l !! i = Some x → slice l i (S i) = Some [x].
Proof.
  intros E%list_elem_of_split_length. destruct E as (a & c & -> & ->). apply (slice_mid a [x] c); [done|cbn; lia].
Qed.

Lemma slice_full {A} (l x : list A) : slice l 0 (length l) = Some x → l = x.
Proof.
  intros (a & c & -> & Ha & Hl)%slice_inv. destruct a; [|done]. rewrite app_nil_l, length_app in *.
  destruct c; [by rewrite app_nil_r|cbn in Hl; lia].
Qed.

Lemma is_bytes_slice bs s e x : is_bytes bs → slice bs s e = Some x → is_bytes x.
Proof. intros Hb (a & c & -> & _)%slice_inv. by apply is_bytes_app in Hb as [_ [? _]%is_bytes_app]. Qed.

Lemma read_uint_inv w bs s n :
  is_bytes bs → read_uint w bs s = Ok n → slice bs s (s + w) = Some (be_bytes w n) ∧ (n < 256 ^ N.of_nat w)%N.
Proof.
  intros Hb (raw & E & [= <-])%bind_Ok. apply or_err_Ok in E. pose proof (is_bytes_slice _ _ _ _ Hb E) as Hr.
  assert (length raw = w) as <- by (apply slice_inv in E as (? & ? & _ & _ & ?); lia).
  destruct (be_from_bytes raw Hr) as [-> ?]. done.
Qed.

Lemma read_uint_mid a c w n s :
  (n < 256 ^ N.of_nat w)%N → s = length a → read_uint w (a ++ be_bytes w n ++ c) s = Ok n.
Proof.
  intros Hn Hs. unfold read_uint. rewrite (slice_mid a (be_bytes w n) c); [|done|by rewrite length_be_bytes].
  cbn. by rewrite from_to_be_bytes.
Qed.

Lemma take_bytes_mid a b c s n :
  s = length a → n = length b → (N.of_nat (length (a ++ b ++ c)) ≤ u64_max)%N →
  take_bytes (a ++ b ++ c) s n = Ok (b, s + n).
Proof.
  intros -> -> Hfit. rewrite !length_app in Hfit. unfold take_bytes. rewrite checked_fits by lia. cbn.
  by rewrite slice_mid.
Qed.

Lemma take_bytes_Ok bs cursor len x c' :
  take_bytes bs cursor len = Ok (x, c') ↔ c' = cursor + len ∧ slice bs cursor c' = Some x ∧ (N.of_nat c' ≤ u64_max)%N.
Proof.
  unfold take_bytes. rewrite bind_Ok. setoid_rewrite checked_Ok. setoid_rewrite bind_Ok. setoid_rewrite or_err_Ok. naive_solver.
Qed.

Lemma check_magic_slice bs magic v u :
  check_magic_and_version bs magic v = Ok u → slice bs 0 5 = Some (magic ++ [v]).
Proof.
  unfold check_magic_and_version. case_decide as Hd; [done|]. intros (v' & Hv%or_err_Ok & H')%bind_Ok.
  case_decide; [done|]. subst v'. by eapply slice_join, slice_one.
Qed.

(** ** LEB128 *)

(** The positions of the bytes left when [fuel] more may follow. *)
Definition leb_indexes (fuel : nat) : list N := N.of_nat <$> seq (4 - fuel) (S fuel).

Lemma leb_indexes_S fuel : fuel < 4 → leb_indexes (S fuel) = N.of_nat (4 - S fuel) :: leb_indexes fuel.
Proof. intros. unfold leb_indexes. cbn [seq fmap list_fmap]. by replace (S (4 - S fuel)) with (4 - fuel) by lia. Qed.

Lemma leb_loop_small fuel v : (v < 128)%N → leb_loop fuel v = [v].
Proof.
  intros Hv. destruct (small_byte v Hv) as (_ & E & _).
  destruct fuel; cbn [leb_loop]; rewrite N.shiftr_div_pow2, N.div_small, decide_True by done; by rewrite E.
Qed.

Lemma leb_loop_more fuel v :
  (128 ≤ v)%N → leb_loop (S fuel) v = N.lor (N.land v 127) 128 :: leb_loop fuel (v / 128).
Proof.
  intros Hv. cbn [leb_loop]. rewrite N.shiftr_div_pow2. change (2 ^ 7)%N with 128%N.
  rewrite decide_False; [done|]. intros E%N.div_small_iff; lia.
Qed.

Lemma take_leb_loop_reads fuel : ∀ v acc a c,
  fuel ≤ 4 → (v < 2 ^ (4 + 7 * N.of_nat fuel))%N → (acc < 2 ^ (7 * N.of_nat (4 - fuel)))%N →
  (fuel < 4 → (0 < v)%N) → (N.of_nat (length (a ++ leb_loop fuel v ++ c)) ≤ u64_max)%N →
  take_leb_loop (leb_indexes fuel) (a ++ leb_loop fuel v ++ c) (length a) acc =
  Ok ((acc + v * 2 ^ (7 * N.of_nat (4 - fuel)))%N, length a + length (leb_loop fuel v)).
Proof.
  induction fuel as [|fuel IH]; intros v acc a c Hf Hv Hacc Hpos Hfit.
  - change (2 ^ (4 + 7 * N.of_nat 0))%N with 16%N in Hv. rewrite (leb_loop_small 0 v) in * by lia.
    destruct (small_byte v) as (_ & E & E'); [lia|]. unfold leb_indexes. cbn [seq fmap list_fmap take_leb_loop].
    rewrite (take_bytes_mid a [v] c) by done. cbn. rewrite E, E'.
    rewrite decide_False by lia. rewrite decide_True by done. rewrite decide_False by lia.
    rewrite lor_shift by done. done.
  - rewrite leb_indexes_S by lia. cbn [take_leb_loop]. destruct (N.lt_ge_cases v 128) as [Hlt|Hge].
    + rewrite (leb_loop_small (S fuel) v) in * by done. destruct (small_byte v) as (_ & E & E'); [done|].
      rewrite (take_bytes_mid a [v] c) by done. cbn [mbind outcome_bind head expect]. rewrite E, E'.
      rewrite decide_False by lia. rewrite decide_True by done. rewrite decide_False by lia.
      rewrite lor_shift by (by rewrite N.mul_comm). by rewrite (N.mul_comm 7).
    + rewrite leb_loop_more in * by done. destruct (more_byte v) as [E E']. set (b := N.lor _ _) in *.
      change ((b :: leb_loop fuel (v / 128)) ++ c) with ([b] ++ (leb_loop fuel (v / 128) ++ c)) in *.
      rewrite (take_bytes_mid a [b]) by done. cbn [mbind outcome_bind head expect]. rewrite E.
      rewrite decide_False by lia. rewrite decide_False by done.
      rewrite lor_shift by (by rewrite N.mul_comm). rewrite (app_assoc a [b]) in *.
      replace (length a + 1) with (length (a ++ [b])) by (by rewrite length_app).
      rewrite IH; [|lia| | | |done].
      * f_equal. f_equal; [|rewrite length_app; cbn; lia].
        replace (7 * N.of_nat (4 - fuel))%N with (7 + 7 * N.of_nat (4 - S fuel))%N by lia.
        rewrite (N.mul_comm (N.of_nat (4 - S fuel)) 7), N.pow_add_r. change (2 ^ 7)%N with 128%N.
        pose proof (N.div_mod v 128). nia.
      * apply N.Div0.div_lt_upper_bound. change 128%N with (2 ^ 7)%N. rewrite <-N.pow_add_r.
        by replace (7 + (4 + 7 * N.of_nat fuel))%N with (4 + 7 * N.of_nat (S fuel))%N by lia.
      * replace (7 * N.of_nat (4 - fuel))%N with (7 + 7 * N.of_nat (4 - S fuel))%N by lia.
        rewrite (N.mul_comm (N.of_nat (4 - S fuel)) 7), N.pow_add_r. change (2 ^ 7)%N with 128%N.
        pose proof (N.mod_lt v 128 ltac:(done)). nia.
      * intros _. apply N.div_str_pos. lia.
Qed.

Lemma take_leb128_reads v a c :
  (v ≤ u32_max)%N → (N.of_nat (length (a ++ leb_loop 4 v ++ c)) ≤ u64_max)%N →
  take_leb128_u32 (a ++ leb_loop 4 v ++ c) (length a) = Ok (v, length a + length (leb_loop 4 v)).
Proof.
  intros Hv Hfit. unfold take_leb128_u32. change [0; 1; 2; 3; 4]%N with (leb_indexes 4).
  rewrite (take_leb_loop_reads 4); [|done| |done|lia|done].
  - change (2 ^ (7 * N.of_nat (4 - 4)))%N with 1%N. by rewrite N.mul_1_r.
  - unfold u32_max in Hv. change (2 ^ (4 + 7 * N.of_nat 4))%N with 4294967296%N. lia.
Qed.

Lemma length_leb_loop fuel : ∀ v, length (leb_loop fuel v) ≤ S fuel.
Proof.
  induction fuel as [|fuel IH]; intros v; cbn [leb_loop]; case_decide; cbn [length]; try lia.
  apply le_n_S, IH.
Qed.

Lemma take_leb128_fits len : (N.of_nat len ≤ u32_max)%N → leb128_u32_len len = Ok (length (leb_loop 4 (N.of_nat len))).
Proof.
  intros Hl. unfold leb128_u32_len. rewrite try_u32_fits by done. cbn [mbind outcome_bind]. f_equal.
  set (v := N.of_nat len) in *. clearbody v.
  assert (Hd : ∀ k w, (w < 128 * k → w / 128 < k)%N) by (intros; by apply N.Div0.div_lt_upper_bound).
  assert (Hu : ∀ k w, (128 * k ≤ w → k ≤ w / 128)%N) by (intros; by apply N.div_le_lower_bound).
  destruct (N.leb_spec v 127); [by rewrite leb_loop_small by lia|]. rewrite leb_loop_more by lia.
  destruct (N.leb_spec v 16383). { rewrite leb_loop_small; [done|]. apply Hd. lia. }
  assert (128 ≤ v / 128)%N by (apply Hu; lia). rewrite leb_loop_more by done.
  destruct (N.leb_spec v 2097151). { rewrite leb_loop_small; [done|]. do 2 apply Hd. lia. }
  assert (128 ≤ v / 128 / 128)%N by (do 2 apply Hu; lia). rewrite leb_loop_more by done.
  destruct (N.leb_spec v 268435455). { rewrite leb_loop_small; [done|]. do 3 apply Hd. lia. }
  assert (128 ≤ v / 128 / 128 / 128)%N by (do 3 apply Hu; lia). rewrite leb_loop_more by done.
  rewrite leb_loop_small; [done|]. do 4 apply Hd. unfold u32_max in Hl. lia.
Qed.

(** ** Bit fields *)

Lemma land_field w k s : N.land w (N.shiftl (N.ones k) s) = ((w / 2 ^ s) mod 2 ^ k * 2 ^ s)%N.
Proof.
  rewrite <-N.shiftr_div_pow2, <-N.land_ones, <-N.shiftl_mul_pow2. apply N.bits_inj. intros n.
  rewrite N.land_spec. destruct (N.lt_ge_cases n s) as [Hn|Hn].
  - rewrite !N.shiftl_spec_low by done. by rewrite andb_false_r.
  - rewrite !N.shiftl_spec_high by lia. rewrite N.land_spec, N.shiftr_spec by lia.
    by replace (n - s + s)%N with n by lia.
Qed.

(** A word of an atom in the arena: its kind above, its offset below. *)
Lemma arena_word kind off :
  (kind < 4 → off ≤ atom_offset_mask →
   N.lor (kind * 2 ^ 30) off = kind * 2 ^ 30 + off ∧ kind * 2 ^ 30 + off ≤ u32_max ∧
   N.land (kind * 2 ^ 30 + off) atom_kind_mask = kind * 2 ^ 30 ∧
   N.land (kind * 2 ^ 30 + off) atom_offset_mask = off)%N.
Proof.
  unfold atom_offset_mask, u32_max. change (2 ^ 30)%N with 1073741824%N. intros Hk Ho. split_and!.
  - rewrite N.lor_comm. change 1073741824%N with (2 ^ 30)%N. rewrite <-N.shiftl_mul_pow2, lor_shift.
    all: rewrite ?N.shiftl_mul_pow2; change (2 ^ 30)%N with 1073741824%N; lia.
  - lia.
  - change atom_kind_mask with (N.shiftl (N.ones 2) 30). rewrite land_field.
    change (2 ^ 30)%N with 1073741824%N. rewrite (N.add_comm _ off), N.div_add, (N.div_small off), N.add_0_l by lia.
    by rewrite N.mod_small.
  - change 1073741823%N with (N.ones 30). rewrite N.land_ones. change (2 ^ 30)%N with 1073741824%N.
    rewrite N.add_comm, N.Div0.mod_add. apply N.mod_small. lia.
Qed.

(** ** What an element is encoded to *)

Definition is_inline (element : string) : bool := length (as_bytes element) <=? 3.

Definition atom_cell (element : string) : bytes :=
  if is_inline element then []
  else match decode_hex_32 element with
       | Some raw => raw
       | None => leb_loop 4 (N.of_nat (length (as_bytes element))) ++ as_bytes element
       end.

Definition atom_word (offset : nat) (element : string) : N :=
  if is_inline element then inline_atom_descriptor (as_bytes element)
  else match decode_hex_32 element with
       | Some _ => atom_raw32 + N.of_nat offset
       | None => atom_utf8 + N.of_nat offset
       end.

(** The cell [decode_atom] reports of it. *)
Definition atom_span (offset : nat) (element : string) : option (nat * nat) :=
  if is_inline element then None else Some (offset, offset + length (atom_cell element)).

Lemma inline_descriptor_bytes bs :
  length bs ≤ 3 → is_bytes bs →
  be_bytes 4 (inline_atom_descriptor bs) = (N.of_nat (length bs) * 16)%N :: bs ++ replicate (3 - length bs) 0%N.
Proof.
  intros Hlen Hb. set (d := _ :: _). enough (inline_atom_descriptor bs = from_be_bytes d) as ->.
  { replace 4 with (length d); [apply be_from_bytes|]; unfold d.
    - constructor; [lia|]. apply is_bytes_app. split; [done|]. by apply Forall_replicate.
    - cbn. rewrite length_app, length_replicate. lia. }
  unfold inline_atom_descriptor, d.
  destruct bs as [|x [|y [|z [|]]]]; unfold is_bytes in Hb; decompose_Forall_hyps; cbn -[N.shiftl]; try lia.
  all: rewrite N.lor_comm, lor_shift; [lia|]; change (2 ^ 28)%N with 268435456%N; lia.
Qed.

Lemma inline_descriptor_word bs :
  length bs ≤ 3 → is_bytes bs →
  (inline_atom_descriptor bs < 2 ^ 32 ∧ N.land (inline_atom_descriptor bs) atom_kind_mask = 0 ∧
   N.land (N.shiftr (inline_atom_descriptor bs) 28) 3 = N.of_nat (length bs) ∧
   N.land (inline_atom_descriptor bs) 251658240 = 0)%N.
Proof.
  intros Hlen Hb. assert (∃ p, p < 2 ^ 24 ∧ inline_atom_descriptor bs = p + N.of_nat (length bs) * 2 ^ 28)%N as (p & Hp & ->).
  { unfold inline_atom_descriptor. set (p := from_be_bytes _). exists p.
    assert (p < 2 ^ 24)%N as Hp.
    { unfold p. destruct bs as [|x [|y [|z [|]]]]; unfold is_bytes in Hb; decompose_Forall_hyps; cbn; try lia. }
    split; [done|]. rewrite N.lor_comm, lor_shift; [done|]. change (2 ^ 28)%N with (2 ^ 24 * 16)%N. lia. }
  change (2 ^ 24)%N with 16777216%N in Hp. set (n := N.of_nat (length bs)). assert (n ≤ 3)%N by lia. clearbody n.
  change (2 ^ 28)%N with 268435456%N. change (2 ^ 32)%N with 4294967296%N. split_and!.
  - lia.
  - change atom_kind_mask with (N.shiftl (N.ones 2) 30). rewrite land_field, N.div_small; [done|].
    change (2 ^ 30)%N with 1073741824%N. lia.
  - rewrite N.shiftr_div_pow2. change (2 ^ 28)%N with 268435456%N. rewrite N.div_add, N.div_small by lia.
    change 3%N with (N.ones 2). rewrite N.land_ones. apply N.mod_small. change (2 ^ 2)%N with 4%N. lia.
  - change 251658240%N with (N.shiftl (N.ones 4) 24). rewrite land_field.
    replace (p + n * 268435456)%N with (p + n * 16 * 2 ^ 24)%N by (change (2 ^ 24)%N with 16777216%N; lia).
    change (2 ^ 24)%N with 16777216%N. rewrite N.div_add, N.div_small by lia.
    rewrite N.add_0_l. change (2 ^ 4)%N with 16%N. by rewrite N.Div0.mod_mul.
Qed.

Lemma utf8_text_ok s : text_ok s → utf8_text (as_bytes s) = Ok s.
Proof. unfold utf8_text, text_ok. intros ->. by rewrite string_of_as_bytes. Qed.

Lemma to_owned_atom_of s : to_owned_text (atom_of s) = s.
Proof.
  unfold atom_of. destruct (decode_hex_32 s) as [raw|] eqn:E; [|done].
  simpl. unfold encode_hex_32. by rewrite <-(decode_hex_32_bytes _ _ E), string_of_as_bytes.
Qed.

Lemma inline_not_hex s : is_inline s = true → decode_hex_32 s = None.
Proof.
  unfold is_inline, decode_hex_32. intros ?%Nat.leb_le. by rewrite (proj2 (Nat.eqb_neq _ _)) by lia.
Qed.

Lemma decode_inline s arena :
  is_inline s = true → text_ok s →
  decode_atom (be_bytes 4 (inline_atom_descriptor (as_bytes s))) arena = Ok (AtomText s, None).
Proof.
  intros Hlen%Nat.leb_le Ht. pose proof (is_bytes_as_bytes s) as Hb.
  destruct (inline_descriptor_word _ Hlen Hb) as (Hw & Hk & Hn & Hr). unfold decode_atom.
  rewrite from_to_be_bytes by done. rewrite Hk, decide_True by done. rewrite Hn, Hr, Nat2N.id.
  rewrite inline_descriptor_bytes by done. set (n := (_ * 16)%N). set (pad := replicate _ _).
  change (n :: as_bytes s ++ pad) with ([n] ++ as_bytes s ++ pad).
  assert (length pad = 3 - length (as_bytes s)) as Hp by apply length_replicate.
  pose proof (slice_mid ([n] ++ as_bytes s) pad [] (1 + length (as_bytes s)) (length ([n] ++ as_bytes s ++ pad))) as Hpad.
  rewrite app_nil_r, <-app_assoc in Hpad. rewrite Hpad by (rewrite !length_app; cbn; lia). clear Hpad.
  cbn [expect mbind outcome_bind]. rewrite (bool_decide_false (0 ≠ 0)%N) by naive_solver.
  assert (existsb (λ b, negb (b =? 0)%N) pad = false) as ->.
  { apply not_true_iff_false. by intros (b & [-> _]%list_elem_of_In%elem_of_replicate & ?)%existsb_exists. }
  cbn [orb]. rewrite slice_mid by done. cbn [expect mbind outcome_bind]. by rewrite utf8_text_ok.
Qed.

Lemma decode_arena_text s a c :
  is_inline s = false → decode_hex_32 s = None → text_ok s → (N.of_nat (length (as_bytes s)) ≤ u32_max)%N →
  (N.of_nat (length a) ≤ atom_offset_mask)%N → (N.of_nat (length (a ++ atom_cell s ++ c)) ≤ u64_max)%N →
  decode_atom (be_bytes 4 (atom_utf8 + N.of_nat (length a))) (a ++ atom_cell s ++ c) =
  Ok (AtomText s, Some (length a, length a + length (atom_cell s))).
Proof.
  intros Hi Hx Ht Hs Ha Hfit. destruct (arena_word 1 (N.of_nat (length a))) as (_ & Hw & Hk & Ho); [done..|].
  change (1 * 2 ^ 30)%N with atom_utf8 in *. unfold decode_atom. rewrite from_to_be_bytes.
  2:{ change (256 ^ N.of_nat 4)%N with (N.succ u32_max). lia. }
  rewrite Hk, Ho. rewrite decide_False by done. rewrite decide_True by done. rewrite Nat2N.id.
  unfold atom_cell in *. rewrite Hi, Hx in *. rewrite <-app_assoc in *. rewrite take_leb128_reads by done.
  cbn [mbind outcome_bind]. rewrite Nat2N.id. rewrite app_assoc in *.
  rewrite (take_bytes_mid _ (as_bytes s) c); [|by rewrite length_app|done..].
  cbn [mbind outcome_bind]. rewrite utf8_text_ok by done. cbn [mbind outcome_bind].
  unfold is_inline in Hi. rewrite Hi, Hx. rewrite bool_decide_false by (by intros []). cbn [orb].
  by rewrite length_app, Nat.add_assoc.
Qed.

Lemma decode_arena_raw s raw a c :
  is_inline s = false → decode_hex_32 s = Some raw →
  (N.of_nat (length a) ≤ atom_offset_mask)%N → (N.of_nat (length (a ++ atom_cell s ++ c)) ≤ u64_max)%N →
  decode_atom (be_bytes 4 (atom_raw32 + N.of_nat (length a))) (a ++ atom_cell s ++ c) =
  Ok (AtomRaw32 raw, Some (length a, length a + length (atom_cell s))).
Proof.
  intros Hi Hx Ha Hfit. destruct (arena_word 2 (N.of_nat (length a))) as (_ & Hw & Hk & Ho); [done..|].
  change (2 * 2 ^ 30)%N with atom_raw32 in *. unfold decode_atom. rewrite from_to_be_bytes.
  2:{ change (256 ^ N.of_nat 4)%N with (N.succ u32_max). lia. }
  rewrite Hk, Ho. rewrite !decide_False by done. rewrite decide_True by done. rewrite Nat2N.id.
  unfold atom_cell in *. rewrite Hi, Hx in *. pose proof (decode_hex_32_length _ _ Hx) as Hl.
  rewrite take_bytes_mid by done. cbn [mbind outcome_bind]. by rewrite Hl.
Qed.

(** The descriptor and the cell of an element decode to its atom and its span. *)
Lemma decode_atom_encoded s a c :
  text_ok s → (N.of_nat (length (as_bytes s)) ≤ u32_max)%N →
  (N.of_nat (length a) ≤ atom_offset_mask)%N → (N.of_nat (length (a ++ atom_cell s ++ c)) ≤ u64_max)%N →
  decode_atom (be_bytes 4 (atom_word (length a) s)) (a ++ atom_cell s ++ c) = Ok (atom_of s, atom_span (length a) s).
Proof.
  intros Ht Hs Ha Hfit. unfold atom_word, atom_of, atom_span. destruct (is_inline s) eqn:Hi.
  - rewrite inline_not_hex by done. by apply decode_inline.
  - destruct (decode_hex_32 s) as [raw|] eqn:Hx; [by apply decode_arena_raw|by apply decode_arena_text].
Qed.
