(* ===== verification/BinaryRow.v ===== *)
(** * The layout of an event row

    [row_bytes] spells out the bytes of an event: the fixed fields, the ends of the
    tags, the descriptors of their elements, the cells of the elements and the
    content.  [encode_event] writes them when they fit and refuses the event when
    they do not. *)

From S2P Require Import Prelude Grammar Schema QueueBytes PostingsFormat Query BinaryEvent BinaryAtoms.

(** ** The layout *)

Definition cells (elements : list string) : bytes := concat (atom_cell <$> elements).

Fixpoint words (offset : nat) (elements : list string) : bytes :=
  match elements with
  | [] => []
  | s :: elements => be_bytes 4 (atom_word offset s) ++ words (offset + length (atom_cell s)) elements
  end.

Fixpoint ends (atoms : nat) (tags : list (list string)) : bytes :=
  match tags with
  | [] => []
  | tag :: tags => be_bytes 4 (N.of_nat (atoms + length tag)) ++ ends (atoms + length tag) tags
  end.

Definition section_len (tags : list (list string)) : nat :=
  (length tags + length (concat tags)) * 4 + length (cells (concat tags)).

Definition row_fields (e : Event) : bytes :=
  event_magic ++ [event_version] ++ replicate 3 0%N ++ be_bytes 32 (e_id e) ++ be_bytes 32 (e_pubkey e) ++
  be_bytes 64 (e_sig e) ++ be_bytes 8 (e_created_at e) ++ be_bytes 2 (e_kind e).
Definition row_head (e : Event) : bytes :=
  row_fields e ++ be_bytes 4 (N.of_nat (length (e_tags e))) ++ be_bytes 4 (N.of_nat (section_len (e_tags e))) ++
  be_bytes 4 (N.of_nat (length (as_bytes (e_content e)))).
Definition row_bytes (e : Event) : bytes :=
  row_head e ++ ends 0 (e_tags e) ++ words 0 (concat (e_tags e)) ++ cells (concat (e_tags e)) ++ as_bytes (e_content e).

(** What the widths of the row's lengths leave room for. *)
Definition row_fits (e : Event) : Prop :=
  Forall (λ tag, tag ≠ []) (e_tags e) ∧ (N.of_nat (length (cells (concat (e_tags e)))) ≤ atom_offset_mask)%N ∧
  (N.of_nat (section_len (e_tags e)) ≤ u32_max)%N ∧ (N.of_nat (length (as_bytes (e_content e))) ≤ u32_max)%N.

Lemma length_words off els : length (words off els) = length els * 4.
Proof. revert off. induction els as [|s els IH]; intros off; cbn [words]; [done|]. rewrite length_app, length_be_bytes, IH. cbn. lia. Qed.
Lemma length_ends n tags : length (ends n tags) = length tags * 4.
Proof. revert n. induction tags as [|t tags IH]; intros n; cbn [ends]; [done|]. rewrite length_app, length_be_bytes, IH. cbn. lia. Qed.
Lemma length_row_fields e : length (row_fields e) = 146.
Proof. unfold row_fields. rewrite !length_app, !length_be_bytes. done. Qed.
Lemma length_row_head e : length (row_head e) = event_header_len.
Proof. unfold row_head. rewrite !length_app, !length_be_bytes, length_row_fields. done. Qed.

Lemma cells_app l k : cells (l ++ k) = cells l ++ cells k.
Proof. unfold cells. by rewrite fmap_app, concat_app. Qed.
Lemma cells_cons s l : cells (s :: l) = atom_cell s ++ cells l.
Proof. done. Qed.
Lemma words_app off l k : words off (l ++ k) = words off l ++ words (off + length (cells l)) k.
Proof.
  revert off. induction l as [|s l IH]; intros off; cbn [words app]; [by rewrite Nat.add_0_r|].
  rewrite IH, cells_cons, length_app, <-app_assoc. by rewrite Nat.add_assoc.
Qed.
Lemma ends_app n l k : ends n (l ++ k) = ends n l ++ ends (n + length (concat l)) k.
Proof.
  revert n. induction l as [|t l IH]; intros n; cbn [ends app concat]; [by rewrite Nat.add_0_r|].
  rewrite IH, length_app, <-app_assoc. by rewrite Nat.add_assoc.
Qed.

(** ** Writing it *)

Lemma write_at_mid a b c x s :
  s = length a → length b = length x → write_at (a ++ b ++ c) s x = Ok (a ++ x ++ c).
Proof.
  intros -> Hl. unfold write_at. rewrite decide_True by (rewrite !length_app; lia).
  rewrite take_app_length, <-Hl, <-length_app. do 3 f_equal. rewrite app_assoc. apply drop_app_length.
Qed.

Lemma arena_offset_fits kind off :
  (kind < 4)%N → (N.of_nat off ≤ atom_offset_mask)%N →
  arena_offset_descriptor (kind * 2 ^ 30) off = Ok (kind * 2 ^ 30 + N.of_nat off)%N.
Proof.
  intros Hk Ho. unfold arena_offset_descriptor. rewrite try_u32_fits by (unfold atom_offset_mask, u32_max in *; lia).
  cbn [mbind outcome_bind]. rewrite (proj2 (N.ltb_ge _ _)) by done. by rewrite (proj1 (arena_word kind _ Hk Ho)).
Qed.

Lemma arena_cell_length s :
  is_inline s = false → decode_hex_32 s = None → length (as_bytes s) ≤ length (atom_cell s).
Proof. intros Hi Hx. unfold atom_cell. rewrite Hi, Hx, length_app. lia. Qed.

Lemma fits_text s : (N.of_nat (length (atom_cell s)) ≤ atom_offset_mask)%N → (N.of_nat (length (as_bytes s)) ≤ u32_max)%N.
Proof.
  intros Hc. unfold atom_offset_mask, u32_max in *. destruct (is_inline s) eqn:Hi; [apply Nat.leb_le in Hi; lia|].
  destruct (decode_hex_32 s) as [raw|] eqn:Hx; [|pose proof (arena_cell_length s Hi Hx); lia].
  unfold decode_hex_32 in Hx. destruct (Nat.eqb_spec (length (as_bytes s)) 64); [lia|done].
Qed.

Lemma encode_atom_writes refs start pre mid arena idx s :
  length pre = refs + idx * 4 → start = length (pre ++ replicate 4 0%N ++ mid) →
  (N.of_nat (length arena + length (atom_cell s)) ≤ atom_offset_mask)%N →
  encode_atom refs start (pre ++ replicate 4 0%N ++ mid ++ arena, idx) s =
  Ok (pre ++ be_bytes 4 (atom_word (length arena) s) ++ mid ++ arena ++ atom_cell s, idx + 1).
Proof.
  intros Hpre Hstart Hfit. unfold encode_atom.
  replace (length (pre ++ _) - start) with (length arena) by (rewrite Hstart, !length_app; lia).
  assert (N.of_nat (length (as_bytes s)) ≤ u32_max)%N as Hs by (apply fits_text; lia).
  fold (is_inline s). unfold atom_word, atom_cell in *.
  destruct (is_inline s) eqn:Hi; [|destruct (decode_hex_32 s) as [raw|] eqn:Hx].
  - cbn [mbind outcome_bind]. rewrite write_at_mid by (rewrite ?length_be_bytes; done). by rewrite app_nil_r.
  - change atom_raw32 with (2 * 2 ^ 30)%N. rewrite arena_offset_fits by lia. cbn [mbind outcome_bind].
    rewrite <-!app_assoc. rewrite write_at_mid by (rewrite ?length_be_bytes; done). done.
  - change atom_utf8 with (1 * 2 ^ 30)%N. rewrite arena_offset_fits by lia. cbn [mbind outcome_bind].
    unfold push_leb128_u32. rewrite try_u32_fits by done. cbn [mbind outcome_bind].
    rewrite <-!app_assoc. rewrite write_at_mid by (rewrite ?length_be_bytes; done). done.
Qed.

Lemma encode_atoms_writes refs start els : ∀ pre m arena idx,
  length pre = refs + idx * 4 → start = length pre + length els * 4 + m →
  (N.of_nat (length arena + length (cells els)) ≤ atom_offset_mask)%N →
  fold_outcome (encode_atom refs start) (pre ++ replicate (length els * 4 + m) 0%N ++ arena, idx) els =
  Ok (pre ++ words (length arena) els ++ replicate m 0%N ++ arena ++ cells els, idx + length els).
Proof.
  induction els as [|s els IH]; intros pre m arena idx Hpre Hstart Hfit.
  { cbn [fold_outcome words length Nat.mul Nat.add]. unfold cells. cbn. by rewrite app_nil_r, Nat.add_0_r. }
  rewrite cells_cons, length_app in Hfit. cbn [fold_outcome].
  replace (length (s :: els) * 4 + m) with (4 + (length els * 4 + m)) by (cbn; lia).
  rewrite replicate_add, <-app_assoc. rewrite encode_atom_writes; [|done| |lia].
  2:{ cbn [length] in Hstart. rewrite !length_app, !length_replicate. lia. }
  cbn [mbind outcome_bind]. rewrite app_assoc. rewrite IH.
  - f_equal. f_equal; [|cbn; lia]. cbn [words]. by rewrite length_app, cells_cons, <-!app_assoc.
  - rewrite length_app, length_be_bytes. lia.
  - rewrite length_app, length_be_bytes. cbn [length] in Hstart. lia.
  - rewrite length_app. lia.
Qed.

Lemma encode_tags_write refs start tags : ∀ H W arena n ti,
  length H = event_header_len + ti * 4 → length W = n * 4 → refs = length H + length tags * 4 →
  start = refs + (n + length (concat tags)) * 4 → (N.of_nat (n + length (concat tags)) ≤ u32_max)%N →
  (N.of_nat (length arena + length (cells (concat tags))) ≤ atom_offset_mask)%N →
  fold_outcome (encode_tag refs start)
    (H ++ replicate (length tags * 4) 0%N ++ W ++ replicate (length (concat tags) * 4) 0%N ++ arena, n, ti) tags =
  Ok (H ++ ends n tags ++ W ++ words (length arena) (concat tags) ++ arena ++ cells (concat tags),
      n + length (concat tags), ti + length tags).
Proof.
  induction tags as [|t tags IH]; intros H W arena n ti HH HW Hrefs Hstart Hn Hfit.
  { cbn. unfold cells. cbn. by rewrite app_nil_r, !Nat.add_0_r. }
  cbn [concat length] in *. rewrite cells_app, !length_app in *. cbn [fold_outcome].
  unfold encode_tag at 2. rewrite (Nat.mul_add_distr_r (length t)).
  rewrite !(app_assoc H), !(app_assoc (H ++ _)). rewrite encode_atoms_writes; [|rewrite !length_app, !length_replicate; lia..|lia].
  cbn [mbind outcome_bind]. rewrite try_u32_fits by lia. cbn [mbind outcome_bind].
  rewrite <-!app_assoc. change (S (length tags) * 4) with (4 + length tags * 4). rewrite replicate_add, <-app_assoc.
  rewrite write_at_mid by (rewrite ?length_be_bytes; done). cbn [mbind outcome_bind].
  rewrite !(app_assoc H), !(app_assoc W). rewrite IH.
  - cbn [ends]. rewrite words_app, length_app, <-!app_assoc. f_equal. f_equal; [f_equal|]; lia.
  - rewrite length_app, length_be_bytes. lia.
  - rewrite length_app, length_words. lia.
  - rewrite length_app, length_be_bytes. lia.
  - lia.
  - lia.
  - rewrite length_app. lia.
Qed.

(** ** Sizing it *)

(** The [cell_len] of [shape_element]. *)
Lemma cell_len_Ok s c :
  is_inline s = false →
  match decode_hex_32 s with
  | Some _ => Ok 32
  | None => n ← leb128_u32_len (length (as_bytes s)); checked (n + length (as_bytes s))
  end = Ok c ↔
  c = length (atom_cell s) ∧ (N.of_nat (length (as_bytes s)) ≤ u32_max)%N.
Proof.
  intros Hi. unfold atom_cell. rewrite Hi. destruct (decode_hex_32 s) as [raw|] eqn:Hx.
  - rewrite (decode_hex_32_length _ _ Hx). unfold decode_hex_32 in Hx.
    destruct (Nat.eqb_spec (length (as_bytes s)) 64) as [E|]; [|done]. rewrite E.
    split; [by intros [= <-]|by intros [-> _]].
  - rewrite length_app. split.
    + intros (l & Hl & [-> _]%checked_Ok)%bind_Ok.
      assert (N.of_nat (length (as_bytes s)) ≤ u32_max)%N as Hu.
      { unfold leb128_u32_len in Hl. by apply bind_Ok in Hl as (? & [-> ?]%try_u32_Ok & _). }
      rewrite take_leb128_fits in Hl by done. apply (inj Ok) in Hl as <-. exact (conj eq_refl Hu).
    + intros [-> Hu]. rewrite take_leb128_fits by done. cbn [mbind outcome_bind]. apply checked_fits.
      pose proof (length_leb_loop 4 (N.of_nat (length (as_bytes s)))).
      unfold u32_max, u64_max in *. lia.
Qed.

Lemma shape_element_Ok n k s r :
  (N.of_nat k ≤ atom_offset_mask)%N →
  shape_element (n, k) s = Ok r ↔
  r = (n + 1, k + length (atom_cell s)) ∧ (N.of_nat (n + 1) ≤ u64_max)%N ∧
  (N.of_nat (k + length (atom_cell s)) ≤ atom_offset_mask)%N.
Proof.
  intros Hk. unfold shape_element. fold (is_inline s). split.
  - intros (? & [-> Hn]%checked_Ok & H')%bind_Ok. destruct (is_inline s) eqn:Hi.
    { unfold atom_cell. rewrite Hi. cbn. rewrite Nat.add_0_r. naive_solver. }
    apply bind_Ok in H' as (c & Hc & H'). apply cell_len_Ok in Hc as [-> Hu]; [|done].
    apply bind_Ok in H' as (? & [-> _]%checked_Ok & H').
    destruct (N.ltb_spec atom_offset_mask (N.of_nat (k + length (atom_cell s)))); naive_solver.
  - intros (-> & Hn & Hc). rewrite checked_fits by done. cbn [mbind outcome_bind]. destruct (is_inline s) eqn:Hi.
    { unfold atom_cell. rewrite Hi. cbn. by rewrite Nat.add_0_r. }
    apply bind_Ok. exists (length (atom_cell s)). split; [apply cell_len_Ok; [done|]|].
    { split; [done|]. apply fits_text. lia. }
    rewrite checked_fits by (unfold atom_offset_mask, u64_max in *; lia). cbn [mbind outcome_bind].
    by rewrite (proj2 (N.ltb_ge _ _)).
Qed.

Lemma shape_elements_Ok els : ∀ n k r,
  (N.of_nat n ≤ u64_max)%N → (N.of_nat k ≤ atom_offset_mask)%N →
  fold_outcome shape_element (n, k) els = Ok r ↔
  r = (n + length els, k + length (cells els)) ∧ (N.of_nat (n + length els) ≤ u64_max)%N ∧
  (N.of_nat (k + length (cells els)) ≤ atom_offset_mask)%N.
Proof.
  induction els as [|s els IH]; intros n k r Hn Hk; cbn [fold_outcome].
  { unfold cells. cbn. rewrite !Nat.add_0_r. naive_solver. }
  rewrite bind_Ok, cells_cons, length_app. cbn [length]. split.
  - intros (r' & (-> & Hn' & Hk')%shape_element_Ok & (-> & ? & ?)%IH); [|done..].
    split_and!; [f_equal; lia|lia..].
  - intros (-> & ? & ?). exists (n + 1, k + length (atom_cell s)). split.
    + apply shape_element_Ok; [done|]. split_and!; [done|lia..].
    + apply IH; [lia..|]. split_and!; [f_equal; lia|lia..].
Qed.

Lemma shape_tags_Ok tags : ∀ n k r,
  (N.of_nat n ≤ u64_max)%N → (N.of_nat k ≤ atom_offset_mask)%N →
  fold_outcome shape_tag (n, k) tags = Ok r ↔
  Forall (λ tag, tag ≠ []) tags ∧ r = (n + length (concat tags), k + length (cells (concat tags))) ∧
  (N.of_nat (n + length (concat tags)) ≤ u64_max)%N ∧ (N.of_nat (k + length (cells (concat tags))) ≤ atom_offset_mask)%N.
Proof.
  induction tags as [|t tags IH]; intros n k r Hn Hk; cbn [fold_outcome concat].
  { unfold cells. cbn. rewrite !Nat.add_0_r. split; [intros [= <-]|]; naive_solver. }
  rewrite bind_Ok, cells_app, !length_app, Forall_cons. unfold shape_tag at 1. destruct t as [|s t].
  { naive_solver. }
  set (tag := s :: t). split.
  - intros (r' & (-> & Hn' & Hk')%shape_elements_Ok & (? & -> & ? & ?)%IH); [|done..].
    split_and!; [done|done|f_equal; lia|lia..].
  - intros ([_ ?] & -> & ? & ?). exists (n + length tag, k + length (cells tag)). split.
    + apply shape_elements_Ok; [done..|]. split_and!; [done|lia..].
    + apply IH; [lia..|]. split_and!; [done|f_equal; lia|lia..].
Qed.

(** ** The whole row *)

Lemma bind_fails {A B} (m : Outcome A) (k : A → Outcome B) :
  m ≠ Panic → (∀ x, m = Ok x → ∃ err, k x = Err err) → ∃ err, m ≫= k = Err err.
Proof. destruct m as [x|err|]; intros Hp Hk; [by apply Hk|by exists err|done]. Qed.

Lemma checked_total n : checked n ≠ Panic.
Proof. unfold checked. by case_match. Qed.
Lemma try_u32_total n : try_u32 n ≠ Panic.
Proof. unfold try_u32. by case_match. Qed.
Lemma bind_total {A B} (m : Outcome A) (k : A → Outcome B) :
  m ≠ Panic → (∀ x, k x ≠ Panic) → m ≫= k ≠ Panic.
Proof. destruct m as [x|err|]; intros Hp Hk; [apply Hk|done|done]. Qed.
Lemma fold_total {A B} (f : A → B → Outcome A) l : ∀ a, (∀ a b, f a b ≠ Panic) → fold_outcome f a l ≠ Panic.
Proof. induction l as [|b l IH]; intros a Hf; cbn [fold_outcome]; [done|]. apply bind_total; [apply Hf|]. intros. by apply IH. Qed.

Lemma encoded_tag_shape_total tags : encoded_tag_shape tags ≠ Panic.
Proof.
  unfold encoded_tag_shape. apply bind_total.
  - apply fold_total. intros a [|s t]; [done|]. apply fold_total. clear. intros [n k] s. unfold shape_element.
    apply bind_total; [apply checked_total|]. intros m. case_match; [done|]. apply bind_total.
    + case_match; [done|]. apply bind_total; [|intros; apply checked_total].
      unfold leb128_u32_len. apply bind_total; [apply try_u32_total|done].
    + intros. apply bind_total; [apply checked_total|]. intros. by case_match.
  - intros [n k]. apply bind_total; [apply try_u32_total|done].
Qed.

Lemma encoded_tag_shape_Ok tags r :
  encoded_tag_shape tags = Ok r ↔
  Forall (λ tag, tag ≠ []) tags ∧ r = (length (concat tags), length (cells (concat tags))) ∧
  (N.of_nat (length (concat tags)) ≤ u32_max)%N ∧ (N.of_nat (length (cells (concat tags))) ≤ atom_offset_mask)%N.
Proof.
  unfold encoded_tag_shape. rewrite bind_Ok. split.
  - intros ([n k] & (Hne & [= -> ->] & _ & Hk)%shape_tags_Ok & (? & [-> ?]%try_u32_Ok & [= <-])%bind_Ok); done.
  - intros (Hne & -> & Hn & Hk). eexists. split.
    { apply shape_tags_Ok; [done..|]. split_and!; [done..| |done]. unfold u32_max, u64_max in *. lia. }
    cbn [Nat.add]. by rewrite try_u32_fits.
Qed.

(** An event that fits is encoded to its row. *)
Lemma encode_event_fits e : row_fits e → encode_event e = Ok (row_bytes e).
Proof.
  intros (Hne & Hk & Hs & Hc). unfold section_len in Hs. unfold encode_event.
  rewrite (proj2 (encoded_tag_shape_Ok _ (length (concat (e_tags e)), length (cells (concat (e_tags e)))))).
  2:{ split_and!; [done|done| |done]. unfold u32_max in *. lia. }
  assert (∀ n, (N.of_nat n ≤ 3 * u32_max)%N → checked n = Ok n) as Hch
    by (intros; apply checked_fits; unfold u32_max, u64_max in *; lia).
  rewrite !Ok_bind; cbv beta iota. unfold push_u32.
  repeat (first [rewrite Hch by (unfold event_header_len, u32_max in *; lia)
                |rewrite try_u32_fits by (unfold u32_max in *; lia)]; rewrite !Ok_bind; cbv beta iota).
  fold (row_fields e). rewrite <-!app_assoc. fold (section_len (e_tags e)). fold (row_head e).
  rewrite resize_ge by (rewrite length_row_head; lia). rewrite length_row_head.
  replace (_ - event_header_len) with (length (e_tags e) * 4 + length (concat (e_tags e)) * 4) by lia.
  rewrite replicate_add.
  pose proof (encode_tags_write (event_header_len + length (e_tags e) * 4)
    (event_header_len + length (e_tags e) * 4 + length (concat (e_tags e)) * 4) (e_tags e) (row_head e) [] [] 0 0) as Hw.
  rewrite app_nil_r, app_nil_l in Hw. rewrite Hw; [|by rewrite length_row_head|done|by rewrite length_row_head|lia..|cbn; lia].
  rewrite !Ok_bind; cbv beta iota. unfold row_bytes. by rewrite <-!app_assoc.
Qed.

(** An event that does not fit is refused. *)
Lemma encode_event_refuses e : ¬ row_fits e → ∃ err, encode_event e = Err err.
Proof.
  intros Hno. unfold encode_event. apply bind_fails; [apply encoded_tag_shape_total|].
  intros ? (Hne & -> & _ & Hk)%encoded_tag_shape_Ok.
  do 3 (apply bind_fails; [apply checked_total|]; intros ? [-> _]%checked_Ok).
  do 3 (apply bind_fails; [apply try_u32_total|]; intros ? [-> ?]%try_u32_Ok).
  by destruct Hno.
Qed.

Lemma encode_event_Ok e bs : encode_event e = Ok bs ↔ row_fits e ∧ bs = row_bytes e.
Proof.
  split; [|by intros [? ->]; apply encode_event_fits]. intros E. destruct (decide (row_fits e)) as [Hf|Hf].
  - rewrite encode_event_fits in E by done. by apply (inj Ok) in E as <-.
  - apply encode_event_refuses in Hf as [err Hf]. congruence.
Qed.
