(* ===== verification/BinaryView.v ===== *)
(** * Reading an event row

    The view of a row that was written by [encode_event]: [from_trusted] and [parse]
    accept it, its fields are the event's, its elements the atoms of the event's tag
    elements in their order, [materialize_event] gives the event back and the
    residual filter decides on the bytes what [Query] decides on the event. *)

From S2P Require Import Prelude Grammar Schema QueueBytes PostingsFormat Commit Query BinaryEvent BinaryAtoms BinaryRow.

(** An event of the widths the row has room for, whose text is UTF-8. *)
Definition row_typed (e : Event) : Prop :=
  event_typed e ∧ (e_sig e < 2 ^ 512)%N ∧ Forall (Forall text_ok) (e_tags e) ∧ text_ok (e_content e).

Definition refs_start (e : Event) : nat := event_header_len + length (e_tags e) * 4.
Definition arena_at (e : Event) : nat := refs_start e + length (concat (e_tags e)) * 4.

Definition view_of (e : Event) : StoredEventView :=
  mkView (row_bytes e) (length (e_tags e)) (length (concat (e_tags e))) (refs_start e) (arena_at e)
    (length (cells (concat (e_tags e)))) (event_header_len + section_len (e_tags e)) (length (as_bytes (e_content e))).

Section view.
Context (e : Event) (Hfits : row_fits e).
Local Abbreviation tags := (e_tags e).
Local Abbreviation atoms := (concat (e_tags e)).

Lemma length_row_bytes :
  length (row_bytes e) = event_header_len + section_len tags + length (as_bytes (e_content e)).
Proof using Type.
  unfold row_bytes, section_len. rewrite !length_app, length_row_head, length_ends, length_words. lia.
Qed.

Lemma row_bytes_fit : (N.of_nat (length (row_bytes e)) ≤ u64_max)%N.
Proof using All.
  destruct Hfits as (_ & _ & Hs & Hc). rewrite length_row_bytes. unfold event_header_len, u32_max, u64_max in *. lia.
Qed.

(** The parts of a row, each between what precedes it and what follows. *)
Lemma row_fields_at a x c :
  row_fields e = a ++ x ++ c → slice (row_bytes e) (length a) (length a + length x) = Some x.
Proof using Type.
  intros E. unfold row_bytes, row_head. rewrite E, <-!app_assoc. by apply slice_mid.
Qed.

Lemma row_ends_at l t k :
  tags = l ++ t :: k →
  read_uint 4 (row_bytes e) (event_header_len + length l * 4) = Ok (N.of_nat (length (concat l) + length t)).
Proof using All.
  intros E. unfold row_bytes. destruct Hfits as (_ & _ & Hs & _). unfold section_len in Hs.
  assert (length (concat l) + length t ≤ length atoms) by (rewrite E, concat_app; cbn; rewrite !length_app; lia).
  rewrite E at 1. rewrite ends_app. cbn [ends]. rewrite <-!app_assoc, app_assoc. apply read_uint_mid.
  - change (256 ^ N.of_nat 4)%N with (N.succ u32_max). lia.
  - by rewrite length_app, length_row_head, length_ends.
Qed.

Lemma row_words_at l s k :
  atoms = l ++ s :: k →
  slice (row_bytes e) (refs_start e + length l * 4) (refs_start e + length l * 4 + 4) =
  Some (be_bytes 4 (atom_word (length (cells l)) s)).
Proof using Type.
  intros E. unfold row_bytes. rewrite E at 1. rewrite words_app. cbn [words Nat.add].
  rewrite <-!app_assoc, !(app_assoc (row_head e)), (app_assoc _ (words 0 l)). apply slice_mid.
  - rewrite !length_app, length_row_head, length_ends, length_words. done.
  - rewrite length_be_bytes. done.
Qed.

Lemma view_arena_of : view_arena (view_of e) = Ok (cells atoms).
Proof using Type.
  unfold view_arena, view_of. cbn [vw_bytes vw_arena_start vw_arena_len]. unfold row_bytes.
  rewrite 2!app_assoc, slice_mid; [done| |done].
  unfold arena_at, refs_start. rewrite !length_app, length_row_head, length_ends, length_words. lia.
Qed.

Lemma view_content_at :
  slice (row_bytes e) (event_header_len + section_len tags)
    (event_header_len + section_len tags + length (as_bytes (e_content e))) = Some (as_bytes (e_content e)).
Proof using Type.
  unfold row_bytes. rewrite !app_assoc, <-(app_nil_r (_ ++ as_bytes _)), <-(app_assoc _ (as_bytes _)).
  apply slice_mid; [|done]. unfold section_len. rewrite !length_app, length_row_head, length_ends, length_words. lia.
Qed.

Lemma view_atom_at l s k :
  atoms = l ++ s :: k → Forall text_ok atoms →
  decode_atom (be_bytes 4 (atom_word (length (cells l)) s)) (cells atoms) = Ok (atom_of s, atom_span (length (cells l)) s).
Proof using All.
  intros E Ht. destruct Hfits as (_ & Ha & _ & _). rewrite E in *. rewrite cells_app, cells_cons in *.
  rewrite !length_app in Ha. apply Forall_app in Ht as [_ [Hs _]%Forall_cons].
  apply decode_atom_encoded; [done|apply fits_text; lia|lia|].
  rewrite !length_app. unfold atom_offset_mask, u64_max in *. lia.
Qed.

(** ** The header *)

Lemma row_magic : check_magic_and_version (row_bytes e) event_magic event_version = Ok tt.
Proof using Type.
  unfold check_magic_and_version. pose proof (row_fields_at [] event_magic (drop 4 (row_fields e)) eq_refl) as H.
  change (slice (row_bytes e) 0 4 = Some event_magic) in H. rewrite H. rewrite decide_False by (intros []; done).
  unfold row_bytes, row_head, row_fields. rewrite <-!app_assoc. done.
Qed.

Lemma row_length_at n a c :
  row_head e = row_fields e ++ a ++ be_bytes 4 (N.of_nat n) ++ c → (N.of_nat n ≤ u32_max)%N →
  read_uint 4 (row_bytes e) (146 + length a) = Ok (N.of_nat n).
Proof using Type.
  intros E Hn. unfold row_bytes. rewrite E, <-!app_assoc, app_assoc. apply read_uint_mid.
  - change (256 ^ N.of_nat 4)%N with (N.succ u32_max). lia.
  - by rewrite length_app, length_row_fields.
Qed.

Lemma row_lengths :
  read_uint 4 (row_bytes e) tag_count_offset = Ok (N.of_nat (length tags)) ∧
  read_uint 4 (row_bytes e) tag_section_len_offset = Ok (N.of_nat (section_len tags)) ∧
  read_uint 4 (row_bytes e) content_len_offset = Ok (N.of_nat (length (as_bytes (e_content e)))).
Proof using All.
  destruct Hfits as (_ & _ & Hs & Hc). split_and!.
  - apply (row_length_at _ [] _ eq_refl). unfold section_len, u32_max in *. lia.
  - pose proof (row_length_at (section_len tags) (be_bytes 4 (N.of_nat (length tags))) _ eq_refl Hs) as E.
    by rewrite length_be_bytes in E.
  - pose proof (row_length_at (length (as_bytes (e_content e)))
      (be_bytes 4 (N.of_nat (length tags)) ++ be_bytes 4 (N.of_nat (section_len tags))) []) as E.
    rewrite length_app, !length_be_bytes, app_nil_r, <-app_assoc in E. by apply E.
Qed.

Lemma row_last_end :
  (if length tags =? 0 then Ok 0%N else read_uint 4 (row_bytes e) (event_header_len + length tags * 4 - 4)) =
  Ok (N.of_nat (length atoms)).
Proof using All.
  destruct (tags) as [|t l] eqn:E using rev_ind; [done|clear IHl].
  rewrite concat_app, !length_app. cbn [concat length]. rewrite app_nil_r.
  rewrite (proj2 (Nat.eqb_neq _ _)) by lia.
  replace (event_header_len + (length l + 1) * 4 - 4) with (event_header_len + length l * 4) by lia.
  by apply (row_ends_at l t []).
Qed.

Lemma from_trusted_row : from_trusted (row_bytes e) = Ok (view_of e).
Proof using All.
  pose proof row_bytes_fit as Hfit. rewrite length_row_bytes in Hfit. destruct row_lengths as (E1 & E2 & E3).
  pose proof row_last_end as E4. destruct Hfits as (_ & _ & Hs & Hc).
  assert (∀ n, (N.of_nat n ≤ 3 * u32_max)%N → checked n = Ok n) as Hch
    by (intros; apply checked_fits; unfold u32_max, u64_max in *; lia).
  unfold from_trusted. rewrite (proj2 (Nat.ltb_ge _ _)) by (rewrite length_row_bytes; lia). rewrite row_magic, Ok_bind.
  pose proof (row_fields_at (event_magic ++ [event_version]) (replicate 3 0%N) (drop 8 (row_fields e)) eq_refl) as Hr.
  change (slice (row_bytes e) 5 8 = Some [0; 0; 0]%N) in Hr. rewrite Hr. cbn [expect]. rewrite Ok_bind.
  rewrite decide_False by (intros []; done). rewrite E1, E2, E3, !Ok_bind. cbv zeta. rewrite !Nat2N.id.
  repeat first [rewrite Hch by (unfold section_len, event_header_len, u32_max in *; lia) | rewrite Ok_bind].
  rewrite length_row_bytes, !(proj2 (Nat.ltb_ge _ _)) by (unfold section_len; lia).
  rewrite E4, Ok_bind, Nat2N.id.
  repeat first [rewrite Hch by (unfold section_len, event_header_len, u32_max in *; lia) | rewrite Ok_bind].
  rewrite (proj2 (Nat.ltb_ge _ _)) by (unfold section_len; lia). unfold view_of, arena_at, refs_start. do 2 f_equal.
  unfold section_len. lia.
Qed.

(** ** The loops of [parse] *)

Lemma parse_tag_ends_row l k :
  tags = l ++ k →
  parse_tag_ends (view_of e) (length k) (length l) (length (concat l)) = Ok (length atoms).
Proof using All.
  revert l. induction k as [|t k IH]; intros l E; cbn [parse_tag_ends length].
  { by rewrite E, app_nil_r. }
  change (vw_bytes (view_of e)) with (row_bytes e). rewrite (row_ends_at l t k E), Ok_bind. cbv zeta. rewrite Nat2N.id.
  assert (length t ≠ 0) as Ht.
  { destruct Hfits as (Hne & _). rewrite E in Hne. apply Forall_app in Hne as [_ [? _]%Forall_cons]. by destruct t. }
  assert (length (concat l) + length t ≤ length atoms) by (rewrite E, concat_app; cbn; rewrite !length_app; lia).
  rewrite (proj2 (Nat.leb_gt _ _)) by lia. rewrite (proj2 (Nat.ltb_ge _ _)) by done.
  specialize (IH (l ++ [t])). rewrite concat_app, !length_app in IH. cbn [concat length] in IH.
  rewrite app_nil_r in IH. apply IH. by rewrite <-app_assoc.
Qed.

Lemma parse_atoms_row l k :
  atoms = l ++ k → Forall text_ok atoms →
  parse_atoms (view_of e) (cells atoms) (length k) (length l) (length (cells l)) = Ok (length (cells atoms)).
Proof using All.
  intros E Ht. revert l E. induction k as [|s k IH]; intros l E; cbn [parse_atoms length].
  { by rewrite E, app_nil_r. }
  change (vw_bytes (view_of e)) with (row_bytes e). change (vw_atom_refs_start (view_of e)) with (refs_start e).
  cbv zeta. rewrite (row_words_at l s k E). cbn [expect]. rewrite Ok_bind.
  rewrite (view_atom_at l s k E Ht), Ok_bind. specialize (IH (l ++ [s])).
  rewrite cells_app, !length_app in IH. unfold cells at 3 in IH. cbn [fmap list_fmap concat length] in IH.
  rewrite app_nil_r in IH. unfold atom_span. destruct (is_inline s) eqn:Hi.
  - replace (length (atom_cell s)) with 0 in IH by (unfold atom_cell; by rewrite Hi).
    rewrite Nat.add_0_r in IH. apply IH. by rewrite <-app_assoc.
  - rewrite decide_False by naive_solver. apply IH. by rewrite <-app_assoc.
Qed.

(** ** Reading it back *)

Context (Htyped : row_typed e).

Lemma atoms_text : Forall text_ok atoms.
Proof using All. destruct Htyped as (_ & _ & Ht & _). by apply Forall_concat. Qed.

Lemma parse_row : parse (row_bytes e) = Ok (view_of e).
Proof using All.
  unfold parse. rewrite from_trusted_row, Ok_bind.
  change (vw_tag_count (view_of e)) with (length tags). change (vw_atom_count (view_of e)) with (length atoms).
  pose proof (parse_tag_ends_row [] tags eq_refl) as Hte. cbn [length concat] in Hte. rewrite Hte, Ok_bind. rewrite decide_False by naive_solver.
  rewrite view_arena_of, Ok_bind. pose proof (parse_atoms_row [] atoms eq_refl atoms_text) as Ha.
  change (length (cells [])) with 0 in Ha. change (length (@nil string)) with 0 in Ha. rewrite Ha, Ok_bind.
  rewrite decide_False by naive_solver. cbn [view_of vw_content_start vw_content_len]. rewrite view_content_at.
  cbn [or_err]. rewrite Ok_bind, utf8_text_ok; [done|]. by destruct Htyped as (_ & _ & _ & ?).
Qed.

Lemma view_field_of a x c offset width :
  row_fields e = a ++ x ++ c → offset = length a → width = length x → view_field (view_of e) offset width = Ok x.
Proof using Type.
  intros E -> ->. unfold view_field. change (vw_bytes (view_of e)) with (row_bytes e). by rewrite (row_fields_at _ _ _ E).
Qed.

Lemma view_id : id_bytes (view_of e) = Ok (be_bytes 32 (e_id e)).
Proof using Type.
  by apply (view_field_of (event_magic ++ [event_version] ++ replicate 3 0%N) _ (drop 40 (row_fields e))).
Qed.
Lemma view_pubkey : pubkey_bytes (view_of e) = Ok (be_bytes 32 (e_pubkey e)).
Proof using Type.
  by apply (view_field_of (event_magic ++ [event_version] ++ replicate 3 0%N ++ be_bytes 32 (e_id e)) _ (drop 72 (row_fields e))).
Qed.
Lemma view_signature : signature_bytes (view_of e) = Ok (be_bytes 64 (e_sig e)).
Proof using Type.
  by apply (view_field_of (take 72 (row_fields e)) _ (drop 136 (row_fields e))).
Qed.
Lemma view_uint_of a width n c offset :
  row_fields e = a ++ be_bytes width n ++ c → offset = length a → (n < 256 ^ N.of_nat width)%N →
  expect_ok (read_uint width (vw_bytes (view_of e)) offset) = Ok n.
Proof using Type.
  intros E -> Hn. apply expect_ok_Ok. cbn [view_of vw_bytes]. unfold row_bytes, row_head.
  rewrite E, <-!app_assoc. by apply read_uint_mid.
Qed.
Lemma view_created_at : created_at_secs (view_of e) = Ok (e_created_at e).
Proof using All.
  destruct Htyped as ((_ & _ & Hat & _) & _).
  apply (view_uint_of (take 136 (row_fields e)) _ _ (be_bytes 2 (e_kind e))); [done|done|].
  change (256 ^ N.of_nat 8)%N with (N.succ u64_max). lia.
Qed.
Lemma view_kind : kind_u16 (view_of e) = Ok (e_kind e).
Proof using All.
  destruct Htyped as ((_ & _ & _ & Hk) & _).
  by apply (view_uint_of (take 144 (row_fields e)) _ _ []).
Qed.
Lemma view_content_of : view_content (view_of e) = Ok (e_content e).
Proof using All.
  destruct Htyped as (_ & _ & _ & Ht). unfold view_content. cbn [view_of vw_bytes vw_content_start vw_content_len].
  rewrite view_content_at. cbn [expect]. rewrite Ok_bind. by apply utf8_text_ok.
Qed.

Lemma tag_end_row l t k : tags = l ++ t :: k → tag_end (view_of e) (length l) = Ok (length (concat l) + length t).
Proof using All.
  intros E. unfold tag_end. cbn [view_of vw_bytes]. rewrite (row_ends_at l t k E). cbn [expect_ok].
  by rewrite Ok_bind, Nat2N.id.
Qed.

(** The element after the [l] first. *)
Lemma next_element_row l s k atom_end :
  atoms = l ++ s :: k → length l < atom_end →
  next_element (view_of e) (length l) atom_end = Ok (Some (inr (atom_of s)), length l + 1).
Proof using All.
  intros E Hend. unfold next_element. rewrite decide_False by lia.
  cbn [view_of vw_bytes vw_atom_refs_start]. rewrite (row_words_at l s k E). rewrite view_arena_of, Ok_bind.
  by rewrite (view_atom_at l s k E atoms_text).
Qed.

Lemma next_element_end i : next_element (view_of e) i i = Ok (None, i).
Proof using Type. unfold next_element. by rewrite decide_True. Qed.

Lemma collect_row fuel l els k :
  atoms = l ++ els ++ k → length els < fuel →
  collect_elements fuel (view_of e) (length l) (length l + length els) = Ok (atom_of <$> els).
Proof using All.
  revert fuel l. induction els as [|s els IH]; intros [|fuel] l E Hf; cbn [length] in *; [lia| |lia|].
  { cbn [collect_elements]. by rewrite Nat.add_0_r, next_element_end, Ok_bind. }
  cbn [collect_elements]. rewrite (next_element_row l s (els ++ k)) by (done || lia). rewrite Ok_bind.
  specialize (IH fuel (l ++ [s])). rewrite length_app in IH. cbn [length] in IH.
  replace (length l + S (length els)) with (length l + 1 + length els) by lia.
  rewrite IH; [done| |lia]. by rewrite <-app_assoc.
Qed.

(** The elements of the tag after the [l] first, and where they end. *)
Lemma tag_atoms l t k : tags = l ++ t :: k → atoms = concat l ++ t ++ concat k.
Proof using Type. intros ->. by rewrite concat_app. Qed.

Lemma materialize_tags_row `{RowReader, !RowReaderLaws} l k :
  tags = l ++ k → materialize_tags (view_of e) (length k) (length l) (length (concat l)) = Ok k.
Proof using All.
  revert l. induction k as [|t k IH]; intros l E; cbn [materialize_tags length]; [done|].
  rewrite (tag_end_row l t k E), Ok_bind. pose proof (tag_atoms l t k E) as Ea. rewrite (collect_row _ _ t _ Ea).
  2:{ unfold elements_fuel. cbn [view_of vw_bytes]. rewrite length_row_bytes. unfold section_len.
      rewrite Ea, !length_app. lia. }
  rewrite Ok_bind, <-list_fmap_compose. rewrite (list_fmap_ext _ id) by (intros; apply to_owned_atom_of).
  rewrite list_fmap_id. replace (tag_parse t) with (Some t).
  2:{ symmetry. apply tag_parse_Some. split; [|done]. destruct Hfits as (Hne & _). rewrite E in Hne.
      by apply Forall_app in Hne as [_ [? _]%Forall_cons]. }
  cbn [or_err]. rewrite Ok_bind. specialize (IH (l ++ [t])).
  rewrite concat_app, !length_app in IH. cbn [concat length] in IH. rewrite app_nil_r in IH.
  rewrite IH; [done|]. by rewrite <-app_assoc.
Qed.

Lemma materialize_row `{RowReader, !RowReaderLaws} : materialize_event (view_of e) = Ok e.
Proof using All.
  unfold materialize_event. pose proof (materialize_tags_row [] tags eq_refl) as Hm. cbn [length concat] in Hm.
  cbn [view_of vw_tag_count]. fold (view_of e). rewrite Hm, Ok_bind.
  rewrite view_id, Ok_bind, view_pubkey, Ok_bind, view_created_at, Ok_bind, view_kind, Ok_bind, view_content_of, Ok_bind.
  rewrite view_signature, Ok_bind. destruct Htyped as ((Hid & Hpk & _) & Hsig & _).
  replace (signature_from_slice _) with (Some (e_sig e)).
  2:{ symmetry. apply signature_from_slice_Some; [apply length_be_bytes|apply is_bytes_be|].
      by rewrite from_to_be_bytes. }
  cbn [or_err]. rewrite Ok_bind. rewrite !from_to_be_bytes by done. by destruct e.
Qed.

(** ** The residual filter *)

Lemma any_tag_row name wanted l k :
  tags = l ++ k →
  any_tag_matches (view_of e) name wanted (length k) (length l) (length (concat l)) =
  Ok (existsb (tag_matches name wanted) k).
Proof using All.
  revert l. induction k as [|t k IH]; intros l E; cbn [any_tag_matches length existsb]; [done|].
  rewrite (tag_end_row l t k E), Ok_bind. pose proof (tag_atoms l t k E) as Ea.
  specialize (IH (l ++ [t])). rewrite concat_app, !length_app in IH. cbn [concat length] in IH.
  rewrite app_nil_r, <-app_assoc in IH. specialize (IH E). unfold tag_matches at 1.
  destruct t as [|s [|s' t]]; cbn [length fmap list_fmap orb] in *.
  - by rewrite Nat.add_0_r, next_element_end, Ok_bind in *.
  - rewrite (next_element_row (concat l) s (concat k)) by (done || lia). rewrite Ok_bind.
    by rewrite next_element_end, Ok_bind.
  - rewrite (next_element_row (concat l) s (s' :: t ++ concat k)) by (done || lia). rewrite Ok_bind.
    pose proof (next_element_row (concat l ++ [s]) s' (t ++ concat k)) as Hn. rewrite length_app in Hn. cbn [length] in Hn.
    rewrite Hn; [|by rewrite <-app_assoc|lia]. rewrite Ok_bind.
    destruct (is_single_ascii _ _ && values_match _ _); [done|]. by rewrite IH.
Qed.

Lemma all_names_row indexed names :
  all_names_match (view_of e) indexed names =
  Ok (negb (existsb (λ named, negb (bool_decide (indexed = MatchTag named.1)) &&
                              negb (existsb (tag_matches named.1 named.2) tags)) names)).
Proof using All.
  induction names as [|[name wanted] names IH]; cbn [all_names_match existsb fst snd]; [done|].
  case_decide as Hd; [by rewrite bool_decide_true|]. rewrite bool_decide_false by done. cbn [negb andb].
  pose proof (any_tag_row name wanted [] tags eq_refl) as Ha. cbn [length concat] in Ha.
  cbn [view_of vw_tag_count]. fold (view_of e). rewrite Ha, Ok_bind. by destruct (existsb _ tags).
Qed.

Lemma bytes_excluded_row width values n :
  (n < 256 ^ N.of_nat width)%N → (∀ vs x, values = Some vs → x ∈ vs → x < 256 ^ N.of_nat width)%N →
  bytes_excluded width values (be_bytes width n) = excluded values n.
Proof using Type.
  intros Hn Hv. unfold bytes_excluded, excluded. destruct values as [vs|]; [|done]. f_equal.
  destruct (decide (n ∈ vs)) as [Hin|Hin].
  - rewrite bool_decide_false by naive_solver. apply negb_false_iff, existsb_elem. exists n.
    by rewrite elem_of_ordered, bool_decide_true.
  - rewrite bool_decide_true by done. apply negb_true_iff, not_true_iff_false.
    intros (x & Hx%elem_of_ordered & E%bool_decide_eq_true)%existsb_elem.
    apply be_bytes_inj in E as ->; [done|by eapply Hv|done].
Qed.

Lemma view_matches_row `{TagOrder} f indexed :
  (∀ vs x, nf_ids f = Some vs → x ∈ vs → x < 2 ^ 256)%N → (∀ vs x, nf_authors f = Some vs → x ∈ vs → x < 2 ^ 256)%N →
  view_matches f indexed (view_of e) = Ok (matches_prepared_filter_after_index f indexed e).
Proof using All.
  intros Hids Hauthors. destruct Htyped as ((Hid & Hpk & _) & _).
  unfold view_matches, matches_prepared_filter_after_index. rewrite view_id, Ok_bind, bytes_excluded_row by done.
  case_match; [done|]. rewrite view_pubkey, Ok_bind, bytes_excluded_row by done.
  case_match; [done|]. rewrite view_kind, Ok_bind. case_match; [done|]. rewrite view_created_at, Ok_bind.
  case_match; [done|]. rewrite all_names_row, Ok_bind. destruct (existsb _ (prepare_tags f)); cbn [negb]; [done|].
  destruct (nf_search f) as [query|]; [|done]. destruct (length (as_bytes query) =? 0); [done|].
  by rewrite view_content_of, Ok_bind.
Qed.
End view.
