(* ===== verification/BinarySidecar.v ===== *)
(** * The bytes of a row's local state and of its provenance

    [encode_local] and [decode_local] are inverse: the owners are written in
    ascending order and no other order is read.  [encode_provenance] and the
    envelope of a displaced row read back what was written. *)

From S2P Require Import Prelude Grammar Schema QueueBytes PostingsFormat Coverage Canonical Query BinaryEvent BinaryAtoms BinaryRow BinaryView.

(** ** Owners *)

Lemma ordered_lt (X : gset N) : StronglySorted N.lt (ordered X).
Proof.
  pose proof (Sorted_ordered X) as Hs. pose proof (NoDup_ordered X) as Hn. induction Hs as [|x l Hs IH Hx]; [constructor|].
  apply NoDup_cons in Hn as [Hnx Hn]. constructor; [by apply IH|]. rewrite Forall_forall in *. intros y Hy.
  specialize (Hx y Hy). rewrite cmp_le_lt_eq in Hx. destruct Hx as [Hlt| ->]; [|done]. by apply N.compare_lt_iff.
Qed.

Lemma ordered_list_to_set (l : list N) : StronglySorted N.lt l → ordered (list_to_set l : gset N) = l.
Proof.
  intros Hl. apply (StronglySorted_ext N.lt); [intros; lia|apply ordered_lt|done|].
  intros x. by rewrite elem_of_ordered, elem_of_list_to_set.
Qed.

(** The owners after [previous]. *)
Definition after (previous : option N) (xs : list N) : Prop :=
  StronglySorted N.lt (option_list previous ++ xs).

Lemma after_cons previous x xs :
  after previous (x :: xs) ↔ (∀ p, previous = Some p → (p < x)%N) ∧ after (Some x) xs.
Proof.
  unfold after. destruct previous as [p|]; cbn [option_list app]; [|naive_solver]. split.
  - intros (Hs & Hf)%StronglySorted_inv. split; [|done]. intros ? [= <-]. by apply Forall_cons in Hf as [? _].
  - intros [Hp Hs]. constructor; [done|]. specialize (Hp p eq_refl). constructor; [done|].
    apply StronglySorted_inv in Hs as [_ Hf]. eapply Forall_impl; [done|]. intros; lia.
Qed.

Lemma take_uint_mid a c w n s :
  (n < 256 ^ N.of_nat w)%N → s = length a → (N.of_nat (length (a ++ be_bytes w n ++ c)) ≤ u64_max)%N →
  take_uint w (a ++ be_bytes w n ++ c) s = Ok (n, s + w).
Proof.
  intros Hn Hs Hfit. unfold take_uint. rewrite read_uint_mid, Ok_bind by done.
  rewrite !length_app, length_be_bytes in Hfit. by rewrite checked_fits, Ok_bind by lia.
Qed.

Lemma decode_owners_reads xs : ∀ a c previous owners,
  after previous xs → Forall (λ x, x ≤ u64_max)%N xs →
  (N.of_nat (length (a ++ concat (be_bytes 8 <$> xs) ++ c)) ≤ u64_max)%N →
  decode_owners_loop (length xs) (a ++ concat (be_bytes 8 <$> xs) ++ c) (length a) previous owners =
  Ok (list_to_set xs ∪ owners, length a + length xs * 8).
Proof.
  induction xs as [|x xs IH]; intros a c previous owners Ha Hx Hfit; cbn [decode_owners_loop length fmap list_fmap concat] in *.
  { f_equal. f_equal; [set_solver|lia]. }
  apply after_cons in Ha as [Hp Ha]. apply Forall_cons in Hx as [Hx Hxs]. rewrite <-app_assoc in *.
  rewrite take_uint_mid, Ok_bind; [|change (256 ^ N.of_nat 8)%N with (N.succ u64_max); lia|done|done].
  replace (length a + 8) with (length (a ++ be_bytes 8 x)) by (by rewrite length_app, length_be_bytes).
  assert (list_to_set xs ∪ ({[x]} ∪ owners) = list_to_set (x :: xs) ∪ owners) as Hset by set_solver.
  rewrite app_assoc in *. replace (length a + S (length xs) * 8) with (length (a ++ be_bytes 8 x) + length xs * 8)
    by (rewrite length_app, length_be_bytes; lia).
  destruct previous as [p|]; [|by rewrite IH, Hset].
  specialize (Hp p eq_refl). rewrite (proj2 (N.eqb_neq _ _)) by lia. rewrite (proj2 (N.ltb_ge _ _)) by lia.
  by rewrite IH, Hset.
Qed.

(** What the loop reads is the spelling of the owners it adds. *)
Lemma decode_owners_inv bs count : ∀ cursor previous owners owners' cursor',
  is_bytes bs → cursor ≤ length bs → decode_owners_loop count bs cursor previous owners = Ok (owners', cursor') →
  ∃ xs, length xs = count ∧ after previous xs ∧ Forall (λ x, x ≤ u64_max)%N xs ∧ owners' = list_to_set xs ∪ owners ∧
        slice bs cursor cursor' = Some (concat (be_bytes 8 <$> xs)).
Proof.
  induction count as [|count IH]; intros cursor previous owners owners' cursor' Hb Hc Hd; cbn [decode_owners_loop] in Hd.
  { injection Hd as <- <-. exists []. split_and!; [done| |done|set_solver|].
    - unfold after. rewrite app_nil_r. by destruct previous; repeat constructor.
    - by apply slice_empty. }
  apply bind_Ok in Hd as ([x c] & Hx & Hd). unfold take_uint in Hx.
  apply bind_Ok in Hx as (? & Hx & (? & [-> _]%checked_Ok & [= -> <-])%bind_Ok).
  apply (read_uint_inv _ _ _ _ Hb) in Hx as [Hx Hlt].
  assert ((∀ p, previous = Some p → (p < x)%N) ∧
          decode_owners_loop count bs (cursor + 8) (Some x) ({[x]} ∪ owners) = Ok (owners', cursor')) as [Hp Hd'].
  { destruct previous as [p|]; [|by split]. destruct (N.eqb_spec x p); [done|]. destruct (N.ltb_spec x p); [done|].
    split; [|done]. intros ? [= <-]. lia. }
  apply IH in Hd' as (xs & <- & Ha & Hxs & -> & Hs); [|done|apply slice_inv in Hx as (? & ? & -> & ? & E)].
  - exists (x :: xs). split_and!; [done|by apply after_cons| |set_solver|by eapply slice_join].
    constructor; [|done]. change (256 ^ N.of_nat 8)%N with (N.succ u64_max) in Hlt. lia.
  - rewrite !length_app. lia.
Qed.

Lemma check_magic_Ok bs magic v u :
  length magic = 4 → check_magic_and_version bs magic v = Ok u ↔ ∃ rest, bs = magic ++ v :: rest.
Proof.
  intros Hm. unfold check_magic_and_version. split.
  - case_decide as Hd; [done|]. intros (v' & Hv%or_err_Ok & H')%bind_Ok. case_decide as Hd'; [done|].
    subst v'. apply slice_inv in Hd as (a & c & -> & Ha & _).
    destruct a; [|done]. rewrite app_nil_l in *. rewrite lookup_app_r, Hm in Hv by lia.
    destruct c as [|x c]; [done|]. injection Hv as ->. by exists c.
  - intros [rest ->]. pose proof (slice_mid [] magic (v :: rest) 0 4 eq_refl) as Hs. rewrite app_nil_l in Hs.
    rewrite Hs by (by rewrite Hm). rewrite decide_False by naive_solver. rewrite lookup_app_r, Hm by lia.
    cbn [Nat.sub lookup list_lookup or_err]. rewrite Ok_bind. rewrite decide_False by naive_solver. by destruct u.
Qed.

(** ** Local state *)

Definition local_bytes (l : LocalOrigin) : bytes :=
  local_magic ++ sidecar_version :: sig_state_byte (lo_sig_state l) :: 0%N :: 0%N ::
  be_bytes 4 (N.of_nat (size (lo_owners l))) ++ encode_owners (lo_owners l).

Definition owners_typed (owners : gset N) : Prop := set_Forall (λ x, x ≤ u64_max)%N owners.

Lemma length_encode_owners X : length (encode_owners X) = size X * 8.
Proof.
  unfold encode_owners. rewrite <-length_ordered. apply length_concat_fixed. intros. apply length_be_bytes.
Qed.

Lemma owners_typed_ordered X : owners_typed X ↔ Forall (λ x, x ≤ u64_max)%N (ordered X).
Proof. unfold owners_typed. rewrite Forall_forall. by setoid_rewrite elem_of_ordered. Qed.

Lemma decode_owners_ordered X a c :
  owners_typed X → (N.of_nat (length (a ++ encode_owners X ++ c)) ≤ u64_max)%N →
  decode_owners (a ++ encode_owners X ++ c) (length a) (size X) = Ok (X, length a + size X * 8).
Proof.
  intros HX%owners_typed_ordered Hfit. unfold decode_owners, encode_owners in *. rewrite <-length_ordered.
  rewrite decode_owners_reads; [|apply ordered_lt|done|done]. f_equal. f_equal. apply leibniz_equiv. intros x.
  rewrite elem_of_union, elem_of_list_to_set, elem_of_ordered. set_solver.
Qed.

Lemma decode_owners_spells bs cursor count X cursor' :
  is_bytes bs → cursor ≤ length bs → decode_owners bs cursor count = Ok (X, cursor') →
  count = size X ∧ owners_typed X ∧ slice bs cursor cursor' = Some (encode_owners X).
Proof.
  intros Hb Hc (xs & <- & Ha & Hxs & -> & Hs)%decode_owners_inv; [|done..].
  rewrite (right_id_L ∅ (∪)). unfold encode_owners. pose proof (ordered_list_to_set xs Ha) as E.
  rewrite owners_typed_ordered, <-(length_ordered (list_to_set xs)), E. done.
Qed.

Lemma checked_local_len_Ok n m :
  checked_local_len n = Ok m ↔ m = local_header_len + n * 8 ∧ (N.of_nat n ≤ u32_max)%N.
Proof.
  unfold checked_local_len. rewrite bind_Ok. setoid_rewrite try_u32_Ok. split.
  - by intros (? & [-> ?] & (? & [-> _]%checked_Ok & [-> _]%checked_Ok)%bind_Ok).
  - intros [-> Hn]. eexists. split; [done|]. unfold u32_max, u64_max, local_header_len in *.
    rewrite checked_fits, Ok_bind by (unfold u64_max; lia). apply checked_fits. unfold u64_max. lia.
Qed.

Lemma encode_local_spec l bs :
  encode_local l = Ok bs ↔ bs = local_bytes l ∧ (N.of_nat (size (lo_owners l)) ≤ u32_max)%N.
Proof.
  unfold encode_local, local_bytes. rewrite bind_Ok. setoid_rewrite checked_local_len_Ok. setoid_rewrite bind_Ok.
  setoid_rewrite push_u32_Ok. split.
  - intros (? & [-> Hn] & ? & [-> _] & <-%(inj Ok)). by rewrite <-!app_assoc.
  - intros [-> Hn]. by do 2 (eexists; split; [done|]).
Qed.

Lemma decode_local_state_Ok b s : decode_local_state b = Ok s ↔ b = sig_state_byte s.
Proof.
  unfold decode_local_state. destruct (decide (b = 0%N)) as [->|]; [destruct s; naive_solver|].
  destruct (decide (b = 1%N)) as [->|]; destruct s; naive_solver.
Qed.

Lemma decode_local_reads l :
  owners_typed (lo_owners l) → (N.of_nat (size (lo_owners l)) ≤ u32_max)%N → decode_local (local_bytes l) = Ok l.
Proof.
  intros Ho Hn. unfold decode_local.
  assert (length (local_bytes l) = local_header_len + size (lo_owners l) * 8) as Hlen.
  { unfold local_bytes. rewrite length_app. cbn [length]. by rewrite length_app, length_be_bytes, length_encode_owners. }
  rewrite (proj2 (Nat.ltb_ge _ _)) by lia. rewrite (proj2 (check_magic_Ok _ local_magic sidecar_version tt eq_refl)) by by eexists.
  rewrite Ok_bind. change (local_bytes l !! 5) with (Some (sig_state_byte (lo_sig_state l))). cbn [expect]. rewrite Ok_bind.
  rewrite (proj2 (decode_local_state_Ok _ (lo_sig_state l)) eq_refl), Ok_bind.
  pose proof (slice_mid (take 6 (local_bytes l)) [0; 0]%N (drop 8 (local_bytes l)) 6 8 eq_refl eq_refl) as Hs.
  change (slice (local_bytes l) 6 8 = Some [0; 0]%N) in Hs. rewrite Hs. cbn [expect]. rewrite Ok_bind.
  rewrite decide_False by (intros []; done).
  set (h := take 8 (local_bytes l)).
  assert (local_bytes l = h ++ be_bytes 4 (N.of_nat (size (lo_owners l))) ++ encode_owners (lo_owners l)) as E by done.
  rewrite E at 1. rewrite read_uint_mid, Ok_bind; [|change (256 ^ N.of_nat 4)%N with (N.succ u32_max); lia|done].
  cbv zeta. rewrite Nat2N.id. rewrite (proj2 (checked_local_len_Ok _ _) (conj eq_refl Hn)), Ok_bind.
  rewrite Hlen, Nat.ltb_irrefl.
  pose proof (decode_owners_ordered (lo_owners l) (h ++ be_bytes 4 (N.of_nat (size (lo_owners l)))) []) as Hd.
  rewrite app_nil_r, <-app_assoc, <-E, Hlen, length_app, length_be_bytes in Hd. change (length h + 4) with local_header_len in Hd.
  rewrite Hd, Ok_bind; [by destruct l|done|]. unfold local_header_len, u32_max, u64_max in *. lia.
Qed.

Lemma decode_local_inv bs l :
  is_bytes bs → decode_local bs = Ok l →
  bs = local_bytes l ∧ owners_typed (lo_owners l) ∧ (N.of_nat (size (lo_owners l)) ≤ u32_max)%N.
Proof.
  intros Hb. unfold decode_local. destruct (Nat.ltb_spec (length bs) local_header_len) as [|Hlen]; [done|].
  intros ([] & Hm%check_magic_slice & H)%bind_Ok.
  apply bind_Ok in H as (st & Hst%expect_Ok%slice_one & H). apply bind_Ok in H as (sg & ->%decode_local_state_Ok & H).
  apply bind_Ok in H as (r & Hr%expect_Ok & H). case_decide as Hz; [done|]. subst r.
  apply bind_Ok in H as (n & Hn & H). apply (read_uint_inv _ _ _ _ Hb) in Hn as [Hn _]. cbv zeta in H.
  apply bind_Ok in H as (len & [-> Hmax]%checked_local_len_Ok & H). case_match eqn:E1; [done|]. case_match eqn:E2; [done|].
  apply Nat.ltb_ge in E1, E2. apply bind_Ok in H as ([X c] & Hd & [= <-]). pose proof Hd as Hd'.
  apply decode_owners_spells in Hd as (Hsize & Ho & Hs); [|done..]. cbn [lo_owners].
  rewrite Hsize in Hmax. split_and!; [|done..].
  assert (c = length bs) as ->.
  { apply slice_inv in Hs as (? & ? & _ & _ & <-). rewrite length_encode_owners. lia. }
  apply slice_full. unfold local_bytes. cbn [lo_owners lo_sig_state].
  replace (N.of_nat (size X)) with n by (rewrite <-Hsize; lia).
  pose proof (slice_join _ _ _ _ _ _ Hm (slice_join _ _ _ _ _ _ Hst (slice_join _ _ _ _ _ _ Hr (slice_join _ _ _ _ _ _ Hn Hs)))) as E.
  by rewrite <-app_assoc in E.
Qed.

(** The local state that bytes decode to is the one they encode. *)
Lemma decode_local_iff bs l :
  is_bytes bs → decode_local bs = Ok l ↔ owners_typed (lo_owners l) ∧ encode_local l = Ok bs.
Proof.
  intros Hb. rewrite encode_local_spec. split.
  - by intros (-> & ? & ?)%decode_local_inv.
  - intros (? & -> & ?). by apply decode_local_reads.
Qed.

(** ** Provenance *)

Definition seen_bytes (entry : RelayUrl * N) : bytes :=
  be_bytes 4 (N.of_nat (length (as_bytes entry.1))) ++ as_bytes entry.1 ++ be_bytes 8 entry.2.
Definition seen_section (entries : list (RelayUrl * N)) : bytes := concat (seen_bytes <$> entries).

Definition owner_count (p : Provenance) : nat := match pv_local p with Some local => size (lo_owners local) | None => 0 end.
Definition local_section (p : Provenance) : bytes :=
  match pv_local p with Some local => sig_state_byte (lo_sig_state local) :: encode_owners (lo_owners local) | None => [] end.
Definition provenance_head (p : Provenance) : bytes :=
  provenance_magic ++ sidecar_version :: match pv_local p with Some _ => flag_local | None => 0%N end :: 0%N :: 0%N ::
  be_bytes 4 (N.of_nat (size (pv_seen p))) ++ be_bytes 4 (N.of_nat (owner_count p)).
Definition provenance_bytes (p : Provenance) : bytes :=
  provenance_head p ++ seen_section (ordered_map (pv_seen p)) ++ local_section p.

Definition provenance_fits (p : Provenance) : Prop :=
  (N.of_nat (size (pv_seen p)) ≤ u32_max)%N ∧ (N.of_nat (owner_count p) ≤ u32_max)%N ∧
  Forall (λ entry, N.of_nat (length (as_bytes entry.1)) ≤ u32_max)%N (ordered_map (pv_seen p)) ∧
  (N.of_nat (length (provenance_bytes p)) ≤ u64_max)%N.

Lemma length_provenance_head p : length (provenance_head p) = provenance_header_len.
Proof. unfold provenance_head. rewrite length_app. cbn [length]. by rewrite length_app, !length_be_bytes. Qed.

Lemma length_seen_cons entry entries :
  length (seen_section (entry :: entries)) = 12 + length (as_bytes entry.1) + length (seen_section entries).
Proof. unfold seen_section. cbn [fmap list_fmap concat]. unfold seen_bytes. rewrite !length_app, !length_be_bytes. lia. Qed.

Lemma seen_len_Ok entries : ∀ total r,
  fold_outcome (λ total relay,
    total ← checked_add_len total 4;
    total ← checked_add_len total (length (as_bytes relay));
    checked_add_len total 8) total entries.*1 = Ok r →
  (N.of_nat total ≤ u64_max)%N → r = total + length (seen_section entries) ∧ (N.of_nat r ≤ u64_max)%N.
Proof.
  induction entries as [|[relay at_] entries IH]; intros total r; cbn [fold_outcome fmap list_fmap fst].
  { intros [= <-] ?. split; [cbn; lia|done]. }
  intros (t & Ht & Hr)%bind_Ok _. unfold checked_add_len in Ht.
  apply bind_Ok in Ht as (? & [-> _]%checked_Ok & (? & [-> _]%checked_Ok & [-> ?]%checked_Ok)%bind_Ok).
  apply IH in Hr as [-> ?]; [|done]. rewrite length_seen_cons. cbn [fst]. split; [lia|done].
Qed.

Lemma seen_len_fits entries : ∀ total,
  (N.of_nat (total + length (seen_section entries)) ≤ u64_max)%N →
  fold_outcome (λ total relay,
    total ← checked_add_len total 4;
    total ← checked_add_len total (length (as_bytes relay));
    checked_add_len total 8) total entries.*1 = Ok (total + length (seen_section entries)).
Proof.
  induction entries as [|[relay at_] entries IH]; intros total Hfit; cbn [fold_outcome fmap list_fmap fst].
  { by rewrite Nat.add_0_r. }
  rewrite length_seen_cons in *. cbn [fst] in *. unfold checked_add_len in *.
  rewrite checked_fits, Ok_bind, checked_fits, Ok_bind, checked_fits, Ok_bind by lia.
  rewrite IH by lia. f_equal. lia.
Qed.

Lemma body_len_Ok p r :
  encoded_provenance_body_len p = Ok r ↔
  r = length (seen_section (ordered_map (pv_seen p)) ++ local_section p) ∧ (N.of_nat r ≤ u64_max)%N.
Proof.
  unfold encoded_provenance_body_len, local_section. rewrite length_app. set (S := seen_section _). split.
  - intros (t & Ht & H)%bind_Ok. apply seen_len_Ok in Ht as [-> Hseen]; [|done]. fold S in H, Hseen. rewrite Nat.add_0_l in *. destruct (pv_local p) as [l|].
    + apply bind_Ok in H as (? & [-> _]%checked_Ok & H). apply bind_Ok in H as (? & [-> _]%checked_Ok & H).
      apply checked_Ok in H as [-> ?]. split; [|done]. cbn [length]. rewrite length_encode_owners. lia.
    + injection H as <-. cbn. by rewrite Nat.add_0_r.
  - intros [-> Hr]. rewrite seen_len_fits by (fold S; lia). fold S. rewrite Ok_bind, Nat.add_0_l.
    destruct (pv_local p) as [l|]; [|cbn; by rewrite Nat.add_0_r].
    cbn [length] in *. rewrite length_encode_owners in *. unfold checked_add_len.
    repeat first [rewrite checked_fits by lia|rewrite Ok_bind]. f_equal. lia.
Qed.

Lemma encode_seen_Ok entries : ∀ out r,
  fold_outcome encode_seen out entries = Ok r ↔
  r = out ++ seen_section entries ∧ Forall (λ entry, N.of_nat (length (as_bytes entry.1)) ≤ u32_max)%N entries.
Proof.
  induction entries as [|entry entries IH]; intros out r; cbn [fold_outcome].
  { unfold seen_section. cbn. rewrite app_nil_r. naive_solver. }
  rewrite bind_Ok, Forall_cons. unfold seen_section. cbn [fmap list_fmap concat]. fold (seen_section entries). split.
  - intros (? & (? & [-> Hl]%push_u32_Ok & <-%(inj Ok))%bind_Ok & [-> ?]%IH).
    split; [|done]. unfold seen_bytes. by rewrite <-!app_assoc.
  - intros [-> [Hl Hs]]. exists (out ++ seen_bytes entry). split; [|apply IH; by rewrite app_assoc].
    apply bind_Ok. eexists. split; [by apply push_u32_Ok|]. unfold seen_bytes. by rewrite <-!app_assoc.
Qed.

Lemma encode_provenance_spec p bs :
  encode_provenance p = Ok bs ↔ provenance_fits p ∧ bs = provenance_bytes p.
Proof.
  unfold encode_provenance, provenance_fits. fold (owner_count p).
  assert (length (provenance_bytes p) = provenance_header_len + length (seen_section (ordered_map (pv_seen p)) ++ local_section p))
    as Hlen by (unfold provenance_bytes; by rewrite length_app, length_provenance_head).
  assert (∀ seen, provenance_head p ++ seen ++ local_section p =
    match pv_local p with
    | Some local => (provenance_head p ++ seen) ++ [sig_state_byte (lo_sig_state local)] ++ encode_owners (lo_owners local)
    | None => provenance_head p ++ seen
    end) as Hlocal.
  { intros seen. unfold local_section. rewrite app_assoc. destruct (pv_local p); [done|by rewrite app_nil_r]. }
  unfold checked_capacity. split.
  - intros (n & [-> _]%body_len_Ok & H)%bind_Ok.
    apply bind_Ok in H as (? & (? & [-> _]%checked_Ok & [-> Hcap]%checked_Ok)%bind_Ok & H).
    apply bind_Ok in H as (? & [-> Hs]%push_u32_Ok & H). apply bind_Ok in H as (? & [-> Ho]%push_u32_Ok & H).
    apply bind_Ok in H as (? & [-> Hf]%encode_seen_Ok & <-%(inj Ok)).
    split; [split_and!; [done..|by rewrite Hlen, <-(Nat.add_0_r (_ + _))]|]. unfold provenance_bytes. rewrite Hlocal.
    unfold provenance_head. by rewrite <-!app_assoc.
  - intros [(Hs & Ho & Hf & Hcap) ->]. rewrite Hlen in Hcap.
    rewrite (proj2 (body_len_Ok p _)) by (split; [done|lia]). rewrite Ok_bind.
    rewrite checked_fits, Ok_bind, checked_fits, Ok_bind by lia.
    apply bind_Ok. eexists. split; [by apply push_u32_Ok|]. apply bind_Ok. eexists. split; [by apply push_u32_Ok|].
    apply bind_Ok. eexists. split; [by apply encode_seen_Ok|]. f_equal. unfold provenance_bytes. rewrite Hlocal.
    unfold provenance_head. by rewrite <-!app_assoc.
Qed.

(** Relays are UTF-8 text, and times and owners [u64]. *)
Definition provenance_typed (p : Provenance) : Prop :=
  map_Forall (λ relay at_, text_ok relay ∧ (at_ ≤ u64_max)%N) (pv_seen p) ∧
  ∀ local, pv_local p = Some local → owners_typed (lo_owners local).

Section provenance_reads.
Context `{RelayParser, !RelayParserLaws}.

Lemma decode_seen_reads entries : ∀ a c seen,
  NoDup entries.*1 → (∀ relay, relay ∈ entries.*1 → seen !! relay = None) →
  Forall (λ entry, text_ok entry.1 ∧ (N.of_nat (length (as_bytes entry.1)) ≤ u32_max)%N ∧ (entry.2 ≤ u64_max)%N) entries →
  (N.of_nat (length (a ++ seen_section entries ++ c)) ≤ u64_max)%N →
  decode_seen (length entries) (a ++ seen_section entries ++ c) (length a) seen =
  Ok (list_to_map entries ∪ seen, length a + length (seen_section entries)).
Proof using All.
  induction entries as [|[relay at_] entries IH]; intros a c seen Hn Hseen Hok Hfit; cbn [decode_seen length].
  { cbn. by rewrite (left_id_L ∅ (∪)), Nat.add_0_r. }
  apply Forall_cons in Hok as [(Ht & Hl & Hat) Hok]. cbn [fst snd fmap list_fmap] in *. apply NoDup_cons in Hn as [Hnew Hn].
  unfold seen_section in *. cbn [fmap list_fmap concat] in *. fold (seen_section entries) in *.
  unfold seen_bytes in *. cbn [fst snd] in *. rewrite <-!app_assoc in *.
  rewrite take_uint_mid, Ok_bind; [|change (256 ^ N.of_nat 4)%N with (N.succ u32_max); lia|done|done].
  set (len := be_bytes 4 _) in *. assert (length len = 4) as Hlen by apply length_be_bytes. rewrite Nat2N.id.
  rewrite (app_assoc a) in *. replace (length a + 4) with (length (a ++ len)) by (by rewrite length_app, Hlen).
  rewrite take_bytes_mid, Ok_bind by done. rewrite utf8_text_ok, Ok_bind by done. rewrite parse_relay_as_str. cbn [or_err].
  rewrite Ok_bind. rewrite (app_assoc (a ++ len)) in *. rewrite <-length_app.
  rewrite take_uint_mid, Ok_bind; [|change (256 ^ N.of_nat 8)%N with (N.succ u64_max); lia|done|done].
  rewrite Hseen by set_solver. rewrite (app_assoc ((a ++ len) ++ _)) in *.
  replace (length ((a ++ len) ++ as_bytes relay) + 8) with (length (((a ++ len) ++ as_bytes relay) ++ be_bytes 8 at_))
    by (by rewrite (length_app _ (be_bytes 8 at_)), length_be_bytes).
  rewrite IH; [|done| |done|done].
  - f_equal. f_equal; [|rewrite !length_app; lia]. rewrite list_to_map_cons, <-insert_union_l, insert_union_r; [done|].
    by apply not_elem_of_list_to_map_1.
  - intros r Hr. rewrite lookup_insert_ne by (intros ->; done). apply Hseen. set_solver.
Qed.

Lemma provenance_lengths p :
  provenance_fits p →
  read_uint 4 (provenance_bytes p) 8 = Ok (N.of_nat (size (pv_seen p))) ∧
  read_uint 4 (provenance_bytes p) 12 = Ok (N.of_nat (owner_count p)).
Proof using Type.
  intros (Hs & Ho & _). set (h := take 8 (provenance_bytes p)).
  assert (provenance_bytes p = h ++ be_bytes 4 (N.of_nat (size (pv_seen p))) ++ be_bytes 4 (N.of_nat (owner_count p)) ++
    seen_section (ordered_map (pv_seen p)) ++ local_section p) as ->.
  { unfold provenance_bytes at 1, provenance_head. rewrite <-app_assoc. cbn [app]. by rewrite <-!app_assoc. }
  split; [|rewrite app_assoc]; apply read_uint_mid; try done.
  all: change (256 ^ N.of_nat 4)%N with (N.succ u32_max); lia.
Qed.

Lemma decode_provenance_reads p :
  provenance_typed p → provenance_fits p → decode_provenance (provenance_bytes p) = Ok p.
Proof using All.
  intros [Hseen Hlocal] Hfits. destruct (provenance_lengths p Hfits) as [E1 E2]. destruct Hfits as (_ & Ho & Hf & Hfit).
  set (flags := match pv_local p with Some _ => flag_local | None => 0%N end). unfold decode_provenance.
  rewrite (proj2 (Nat.ltb_ge _ _)) by (unfold provenance_bytes; rewrite length_app, length_provenance_head; lia).
  rewrite (proj2 (check_magic_Ok _ provenance_magic sidecar_version tt eq_refl)) by by eexists.
  rewrite Ok_bind. change (provenance_bytes p !! 5) with (Some flags). cbn [expect]. rewrite Ok_bind.
  rewrite decide_False by (unfold flags; by destruct (pv_local p); intros []).
  pose proof (slice_mid (take 6 (provenance_bytes p)) [0; 0]%N (drop 8 (provenance_bytes p)) 6 8 eq_refl eq_refl) as Hz.
  change (slice (provenance_bytes p) 6 8 = Some [0; 0]%N) in Hz. rewrite Hz. cbn [expect]. rewrite Ok_bind.
  rewrite decide_False by (intros []; done). rewrite E1, E2, !Ok_bind.
  rewrite decide_False by (unfold flags, owner_count; destruct (pv_local p); intros []; done).
  rewrite !Nat2N.id, <-(length_provenance_head p), <-length_ordered_map.
  unfold provenance_bytes in Hfit |- *. rewrite decode_seen_reads; [|apply NoDup_ordered_map_fst|done| |done].
  2:{ rewrite Forall_forall in Hf |- *. intros [relay at_] Hin. specialize (Hf _ Hin). apply elem_of_ordered_map, Hseen in Hin. naive_solver. }
  rewrite Ok_bind, (right_id_L ∅ (∪)), list_to_ordered_map. rewrite app_assoc in *. rewrite <-length_app.
  set (front := provenance_head p ++ _) in *. unfold flags, local_section, owner_count in *.
  destruct p as [seen [l|]]; cbn [pv_local pv_seen] in *.
  - rewrite decide_True by done. change (sig_state_byte ?s :: ?o) with ([sig_state_byte s] ++ o) in *.
    rewrite take_bytes_mid, Ok_bind by done. cbn [head expect]. rewrite Ok_bind.
    rewrite (proj2 (decode_local_state_Ok _ (lo_sig_state l)) eq_refl), Ok_bind.
    pose proof (decode_owners_ordered (lo_owners l) (front ++ [sig_state_byte (lo_sig_state l)]) []) as Hd.
    rewrite app_nil_r, <-app_assoc, (length_app front [_]) in Hd. change (length [_]) with 1 in Hd.
    rewrite Hd, !Ok_bind; [|by apply Hlocal|done]. rewrite decide_False; [by destruct l|].
    intros []. rewrite !length_app, length_encode_owners. cbn; lia.
  - rewrite decide_False by (intros []; done). rewrite Ok_bind, app_nil_r. by rewrite decide_False by naive_solver.
Qed.
End provenance_reads.

(** ** A displaced row *)

Definition composite_bytes (se : StoredEvent) : bytes :=
  let event := row_bytes (se_event se) in
  let provenance := provenance_bytes (se_provenance se) in
  composite_magic ++ composite_version :: 0%N :: 0%N :: 0%N ::
  be_bytes 4 (N.of_nat (length event)) ++ be_bytes 4 (N.of_nat (length provenance)) ++ event ++ provenance.

Definition composite_fits (se : StoredEvent) : Prop :=
  row_fits (se_event se) ∧ provenance_fits (se_provenance se) ∧
  (N.of_nat (length (row_bytes (se_event se))) ≤ u32_max)%N ∧
  (N.of_nat (length (provenance_bytes (se_provenance se))) ≤ u32_max)%N.

Lemma encode_spec se bs : encode se = Ok bs ↔ composite_fits se ∧ bs = composite_bytes se.
Proof.
  unfold encode, composite_fits, composite_bytes, checked_capacity. split.
  - intros (? & [He ->]%encode_event_Ok & Hk)%bind_Ok. apply bind_Ok in Hk as (? & [Hp ->]%encode_provenance_spec & Hk).
    apply bind_Ok in Hk as (_ & _ & Hk). apply bind_Ok in Hk as (? & [-> ?]%push_u32_Ok & Hk).
    apply bind_Ok in Hk as (? & [-> ?]%push_u32_Ok & <-%(inj Ok)). split; [done|]. by rewrite <-!app_assoc.
  - intros [(He & Hp & Hle & Hlp) ->]. apply bind_Ok. eexists. split; [by apply encode_event_Ok|].
    apply bind_Ok. eexists. split; [by apply encode_provenance_spec|].
    rewrite checked_fits, Ok_bind, checked_fits, Ok_bind by (unfold composite_header_len, u32_max, u64_max in *; lia).
    apply bind_Ok. eexists. split; [by apply push_u32_Ok|]. apply bind_Ok. eexists. split; [by apply push_u32_Ok|].
    by rewrite <-!app_assoc.
Qed.

Lemma decode_reads `{RelayParser, !RelayParserLaws, RowReader, !RowReaderLaws} se :
  row_typed (se_event se) → provenance_typed (se_provenance se) → composite_fits se →
  decode (composite_bytes se) = Ok se.
Proof.
  intros Hrow Hprov (He & Hp & Hle & Hlp). unfold decode.
  set (event := row_bytes (se_event se)) in *. set (prov := provenance_bytes (se_provenance se)) in *.
  set (h := take 8 (composite_bytes se)). set (bs := composite_bytes se).
  set (l1 := be_bytes 4 (N.of_nat (length event))). set (l2 := be_bytes 4 (N.of_nat (length prov))).
  assert (bs = h ++ l1 ++ l2 ++ event ++ prov) as E by done.
  assert (length bs = composite_header_len + length event + length prov) as Hlen.
  { rewrite E, !length_app. unfold l1, l2. rewrite !length_be_bytes. change (length h) with 8. cbn; lia. }
  rewrite (proj2 (Nat.ltb_ge _ _)) by (rewrite Hlen; lia).
  rewrite (proj2 (check_magic_Ok _ composite_magic composite_version tt eq_refl)) by by eexists. rewrite Ok_bind.
  pose proof (slice_mid (take 5 bs) [0; 0; 0]%N (drop 8 bs) 5 8 eq_refl eq_refl) as Hz.
  change (slice bs 5 8 = Some [0; 0; 0]%N) in Hz. rewrite Hz. cbn [expect]. rewrite Ok_bind.
  rewrite decide_False by (intros []; done).
  assert (read_uint 4 bs 8 = Ok (N.of_nat (length event)) ∧ read_uint 4 bs 12 = Ok (N.of_nat (length prov))) as [-> ->].
  { rewrite E. split; [|rewrite app_assoc]; apply read_uint_mid; try done.
    all: change (256 ^ N.of_nat 4)%N with (N.succ u32_max); lia. }
  rewrite !Ok_bind, !Nat2N.id. unfold checked_capacity.
  repeat first [rewrite checked_fits by (unfold composite_header_len, u32_max, u64_max in *; lia)|rewrite Ok_bind].
  rewrite Hlen, Nat.ltb_irrefl. rewrite E, !app_assoc, <-(app_assoc _ event).
  assert (length ((h ++ l1) ++ l2) = composite_header_len) as Hh by (rewrite !length_app; unfold l1, l2; by rewrite !length_be_bytes).
  rewrite (slice_mid _ event prov composite_header_len (composite_header_len + length event)) by done. cbn [expect]. rewrite Ok_bind.
  unfold event. rewrite parse_row, Ok_bind, materialize_row, Ok_bind by done. fold event.
  pose proof (slice_mid (((h ++ l1) ++ l2) ++ event) prov [] (composite_header_len + length event)
    (composite_header_len + length event + length prov)) as Hs. rewrite app_nil_r, length_app, Hh, <-app_assoc in Hs.
  rewrite Hs by done. cbn [expect]. rewrite Ok_bind. unfold prov. rewrite decode_provenance_reads by done.
  rewrite Ok_bind. by destruct se.
Qed.
