(* ===== verification/BinaryCanonical.v ===== *)
(** * Every row that parses was encoded

    What [parse] accepts is the encoding of an event, and of one event only: a
    length, an atom, a directory and a cell that are not spelled the way
    [encode_event] spells them are refused. *)

From S2P Require Import Prelude Grammar Schema QueueBytes PostingsFormat PostingsCodec Commit Query BinaryEvent BinaryAtoms BinaryRow BinaryView.

(** ** Lengths *)

Lemma byte_split b : (b < 256)%N → (N.land b 127 < 128)%N ∧
  (N.land b 128 = 0%N → b = N.land b 127) ∧ (N.land b 128 ≠ 0%N → b = N.lor (N.land b 127) 128).
Proof.
  intros Hb. pose proof (N.mod_lt b 128 ltac:(done)) as Hm. pose proof (N.div_mod b 128 ltac:(done)) as Hd.
  pose proof (land_field b 1 7) as Hf. change (N.shiftl (N.ones 1) 7) with 128%N in Hf. change (2 ^ 7)%N with 128%N in Hf.
  assert (b / 128 < 2)%N by (apply N.Div0.div_lt_upper_bound; lia). rewrite N.mod_small in Hf by done.
  rewrite (proj1 (low_bits b)). pose proof (lor_shift (b mod 128) 1 7 Hm) as Hl. change (N.shiftl 1 7) with 128%N in Hl.
  rewrite Hl. change (2 ^ 7)%N with 128%N. split_and!; [done|..]; intros; lia.
Qed.

(** One step of the loop. *)
Lemma take_leb_step index indexes bs cursor acc v cursor' :
  is_bytes bs → take_leb_loop (index :: indexes) bs cursor acc = Ok (v, cursor') →
  ∃ b, slice bs cursor (cursor + 1) = Some [b] ∧ (b < 256)%N ∧ (index = 4 → N.land b 127 ≤ 15)%N ∧
    let acc' := N.lor acc (N.shiftl (N.land b 127) (index * 7)) in
    (N.land b 128 = 0%N ∧ (0 < index → 0 < N.land b 127)%N ∧ v = acc' ∧ cursor' = cursor + 1 ∨
     N.land b 128 ≠ 0%N ∧ take_leb_loop indexes bs (cursor + 1) acc' = Ok (v, cursor')).
Proof.
  intros Hb Hd. cbn [take_leb_loop] in Hd. apply bind_Ok in Hd as ([x c] & (-> & Hx & _)%take_bytes_Ok & Hd).
  apply bind_Ok in Hd as (b & Hh%expect_Ok & Hd). destruct x as [|b' x]; [done|]. injection Hh as ->.
  destruct x; [|apply slice_inv in Hx as (? & ? & _ & _ & ?); cbn in *; lia].
  exists b. pose proof (is_bytes_slice _ _ _ _ Hb Hx) as [Hlt _]%Forall_cons. case_decide as H4; [done|].
  split_and!; [done..|lia|]. cbv zeta. case_decide as H7; [|by right]. case_decide as H0; [done|].
  injection Hd as <- <-. left. split_and!; [done|lia|done..].
Qed.

Lemma take_leb_loop_inv bs fuel : ∀ cursor acc v cursor',
  is_bytes bs → fuel ≤ 4 → (acc < 2 ^ (7 * N.of_nat (4 - fuel)))%N →
  take_leb_loop (leb_indexes fuel) bs cursor acc = Ok (v, cursor') →
  ∃ w, v = (acc + w * 2 ^ (7 * N.of_nat (4 - fuel)))%N ∧ (w < 2 ^ (4 + 7 * N.of_nat fuel))%N ∧ (fuel < 4 → (0 < w)%N) ∧
       slice bs cursor cursor' = Some (leb_loop fuel w).
Proof.
  induction fuel as [|fuel IH]; intros cursor acc v cursor' Hb Hf Hacc Hd.
  - change (leb_indexes 0) with [4%N] in Hd. apply take_leb_step in Hd as (b & Hs & Hlt & H4 & Hd); [|done].
    destruct Hd as [(H7 & H0 & -> & ->)|(_ & Hd)]; [|done]. destruct (byte_split b Hlt) as (_ & Eb & _). specialize (Eb H7).
    specialize (H4 eq_refl). exists b. rewrite lor_shift by done. rewrite <-Eb in *.
    split_and!; [done|change (2 ^ (4 + 7 * N.of_nat 0))%N with 16%N; lia|lia|]. by rewrite leb_loop_small by lia.
  - destruct (decide (fuel < 4)); [|lia]. rewrite leb_indexes_S in Hd by done.
    apply take_leb_step in Hd as (b & Hs & Hlt & _ & Hd); [|done]. destruct (byte_split b Hlt) as (Hp & Eb & Eb').
    rewrite (N.mul_comm _ 7) in Hd. rewrite lor_shift in Hd by done.
    set (e := (7 * N.of_nat (4 - S fuel))%N) in *.
    assert (2 ^ (7 * N.of_nat (4 - fuel)) = 128 * 2 ^ e)%N as Ee.
    { replace (7 * N.of_nat (4 - fuel))%N with (7 + e)%N by lia. by rewrite N.pow_add_r. }
    assert (2 ^ (4 + 7 * N.of_nat (S fuel)) = 128 * 2 ^ (4 + 7 * N.of_nat fuel))%N as Ef.
    { replace (4 + 7 * N.of_nat (S fuel))%N with (7 + (4 + 7 * N.of_nat fuel))%N by lia. by rewrite N.pow_add_r. }
    assert (1 ≤ 2 ^ (4 + 7 * N.of_nat fuel))%N by (pose proof (N.pow_nonzero 2 (4 + 7 * N.of_nat fuel)); lia).
    destruct Hd as [(H7 & H0 & -> & ->)|(H7 & Hd)].
    + specialize (Eb H7). rewrite <-Eb in *. exists b. split_and!; [done|lia|intros; apply H0; lia|].
      by rewrite leb_loop_small.
    + apply IH in Hd as (w & -> & Hw & Hpos & Hs'); [|done|lia|rewrite Ee; nia]. specialize (Eb' H7).
      assert (0 < w)%N by (apply Hpos; lia). exists (N.land b 127 + w * 128)%N. rewrite Ee.
      split_and!; [lia|lia|lia|]. rewrite leb_loop_more by lia.
      assert ((N.land b 127 + w * 128) / 128 = w)%N as -> by (by rewrite N.div_add, N.div_small by lia).
      rewrite (proj1 (low_bits (_ + _))), N.Div0.mod_add, N.mod_small by done. rewrite <-Eb'.
      by eapply (slice_join _ _ _ _ [b]).
Qed.

Lemma take_leb128_inv bs cursor len cursor' :
  is_bytes bs → take_leb128_u32 bs cursor = Ok (len, cursor') →
  (len ≤ u32_max)%N ∧ slice bs cursor cursor' = Some (leb_loop 4 len).
Proof.
  intros Hb Hd. apply (take_leb_loop_inv bs 4) in Hd as (w & -> & Hw & _ & Hs); [|done..].
  change (2 ^ (7 * N.of_nat (4 - 4)))%N with 1%N. rewrite N.add_0_l, N.mul_1_r. split; [|done].
  change (2 ^ (4 + 7 * N.of_nat 4))%N with (N.succ u32_max) in Hw. lia.
Qed.

(** ** Hexadecimal *)

Lemma nibble_hex x : (x < 16)%N → nibble (hex_digit x) = Some x.
Proof.
  intros Hx. unfold nibble, hex_digit. destruct (N.ltb_spec x 10).
  - rewrite !(proj2 (N.leb_le _ _)) by lia. cbn [andb]. f_equal. lia.
  - rewrite (proj2 (N.leb_gt (87 + x) 57)) by lia. rewrite andb_false_r, !(proj2 (N.leb_le _ _)) by lia.
    cbn [andb]. f_equal. lia.
Qed.

Lemma byte_nibbles b : (b < 256)%N →
  (N.shiftr b 4 < 16)%N ∧ (N.land b 15 < 16)%N ∧ N.lor (N.shiftl (N.shiftr b 4) 4) (N.land b 15) = b.
Proof.
  intros Hb. change 15%N with (N.ones 4). rewrite N.land_ones, N.shiftr_div_pow2. change (2 ^ 4)%N with 16%N.
  pose proof (N.mod_lt b 16 ltac:(done)). pose proof (N.div_mod b 16 ltac:(done)). split_and!; [|done|].
  - by apply N.Div0.div_lt_upper_bound.
  - rewrite N.lor_comm, lor_shift by done. change (2 ^ 4)%N with 16%N. lia.
Qed.

Lemma decode_encode_pairs raw : is_bytes raw → decode_pairs (encode_pairs raw) = Some raw.
Proof.
  induction 1 as [|b raw Hb Hraw IH]; [done|]. unfold encode_pairs. csimpl. fold (encode_pairs raw).
  destruct (byte_nibbles b Hb) as (Hh & Hl & E). rewrite !nibble_hex by done. cbn [mbind option_bind].
  rewrite IH. cbn [mbind option_bind]. by rewrite E.
Qed.

Lemma encode_pairs_ascii raw : is_bytes raw → Forall (λ b, b ≤ 127)%N (encode_pairs raw).
Proof.
  induction 1 as [|b raw Hb Hraw IH]; [constructor|]. unfold encode_pairs. csimpl. fold (encode_pairs raw).
  destruct (byte_nibbles b Hb) as (Hh & Hl & _). repeat constructor; [..|done]; unfold hex_digit; case_match; lia.
Qed.

Lemma ascii_utf8 bs : Forall (λ b, b ≤ 127)%N bs → utf8_valid bs = true.
Proof. induction 1 as [|b bs Hb _ IH]; [done|]. cbn [utf8_valid]. by rewrite (proj2 (N.leb_le _ _)). Qed.

Lemma length_encode_pairs raw : length (encode_pairs raw) = 2 * length raw.
Proof. unfold encode_pairs. induction raw as [|b raw IH]; csimpl; [done|]. rewrite IH. lia. Qed.

Lemma hex_text raw :
  is_bytes raw → length raw = 32 →
  as_bytes (encode_hex_32 raw) = encode_pairs raw ∧ text_ok (encode_hex_32 raw) ∧
  decode_hex_32 (encode_hex_32 raw) = Some raw.
Proof.
  intros Hb Hl. pose proof (encode_pairs_ascii raw Hb) as Ha.
  assert (as_bytes (encode_hex_32 raw) = encode_pairs raw) as E.
  { apply as_string_of_bytes. eapply Forall_impl; [done|]. intros x Hx; cbn in *; lia. }
  unfold text_ok, decode_hex_32. rewrite E, length_encode_pairs, Hl. split_and!; [done|by apply ascii_utf8|].
  by apply decode_encode_pairs.
Qed.

(** ** Atoms *)

Lemma utf8_text_inv raw text :
  is_bytes raw → utf8_text raw = Ok text → as_bytes text = raw ∧ text_ok text.
Proof.
  intros Hb. unfold utf8_text, text_ok. destruct (utf8_valid raw) eqn:E; [|done]. intros [= <-].
  by rewrite as_string_of_bytes.
Qed.

(** The element a descriptor stands for, and its cell. *)
Definition spells (descriptor arena : bytes) (s : string) (offset : nat) : Prop :=
  text_ok s ∧ descriptor = be_bytes 4 (atom_word offset s) ∧
  (is_inline s = false → slice arena offset (offset + length (atom_cell s)) = Some (atom_cell s)).

(** The first byte of an inline descriptor is the length of the text. *)
Lemma inline_first_byte b0 rest :
  length rest = 3 → is_bytes (b0 :: rest) →
  let word := from_be_bytes (b0 :: rest) in
  N.land word atom_kind_mask = atom_inline → N.land word 251658240 = 0%N →
  ∃ n, (n ≤ 3)%N ∧ b0 = (n * 16)%N ∧ N.land (N.shiftr word 28) 3 = n.
Proof.
  intros Hl [Hb0 Hr]%Forall_cons word Hk Hz. pose proof (proj2 (be_from_bytes rest Hr)) as Hp. rewrite Hl in Hp.
  change (256 ^ N.of_nat 3)%N with 16777216%N in Hp.
  assert (word = from_be_bytes rest + b0 * 16777216)%N as Hw.
  { unfold word. change (b0 :: rest) with ([b0] ++ rest). rewrite from_be_bytes_app, Hl.
    change (256 ^ N.of_nat 3)%N with 16777216%N. change (from_be_bytes [b0]) with b0. lia. }
  assert (word / 16777216 = b0)%N as H24 by (rewrite Hw, N.div_add, N.div_small by lia; done).
  assert (∀ k, word / (16777216 * k) = b0 / k)%N as Hdiv by (intros; by rewrite <-N.Div0.div_div, H24).
  change atom_kind_mask with (N.shiftl (N.ones 2) 30) in Hk. rewrite land_field in Hk.
  change (2 ^ 30)%N with (16777216 * 64)%N in Hk. rewrite Hdiv in Hk.
  change 251658240%N with (N.shiftl (N.ones 4) 24) in Hz. rewrite land_field in Hz. change (2 ^ 24)%N with 16777216%N in Hz.
  rewrite H24 in Hz. change (2 ^ 2)%N with 4%N in Hk. change (2 ^ 4)%N with 16%N in Hz. unfold atom_inline in Hk.
  assert (b0 / 64 < 4)%N by (by apply N.Div0.div_lt_upper_bound). rewrite N.mod_small in Hk by done.
  assert (b0 < 64)%N by (pose proof (N.div_mod b0 64 ltac:(done)); pose proof (N.mod_lt b0 64 ltac:(done)); lia).
  pose proof (N.div_mod b0 16 ltac:(done)). assert (b0 / 16 < 4)%N by (by apply N.Div0.div_lt_upper_bound).
  exists (b0 / 16)%N. split_and!; [lia|lia|]. rewrite N.shiftr_div_pow2. change (2 ^ 28)%N with (16777216 * 16)%N.
  rewrite Hdiv. change 3%N with (N.ones 2). rewrite N.land_ones. by apply N.mod_small.
Qed.

Lemma inline_inv descriptor s :
  length descriptor = 4 → is_bytes descriptor →
  let word := from_be_bytes descriptor in
  let len := N.to_nat (N.land (N.shiftr word 28) 3) in
  N.land word atom_kind_mask = atom_inline → N.land word 251658240 = 0%N →
  slice descriptor 1 (1 + len) = Some (as_bytes s) →
  (∀ padding, slice descriptor (1 + len) 4 = Some padding → Forall (λ b, b = 0)%N padding) →
  is_inline s = true ∧ descriptor = be_bytes 4 (inline_atom_descriptor (as_bytes s)).
Proof.
  intros Hl Hb word len Hk Hz Hs Hp. destruct descriptor as [|b0 rest]; [done|]. injection Hl as Hl.
  destruct (inline_first_byte b0 rest Hl Hb Hk Hz) as (n & Hn & -> & En). fold word in En.
  unfold len in *. rewrite En in *. clear len word En Hk Hz.
  apply slice_inv in Hs as (a & c & E & Ha & Hlen). destruct a as [|x [|]]; try done. injection E as <- ->.
  assert (length (as_bytes s) = N.to_nat n) as Hsl by lia. rewrite length_app in Hl.
  assert (c = replicate (3 - length (as_bytes s)) 0%N) as ->.
  { specialize (Hp c). rewrite (app_comm_cons _ _ (n * 16)%N) in Hp.
    pose proof (slice_mid ((n * 16)%N :: as_bytes s) c [] (1 + N.to_nat n) 4) as Hc. rewrite app_nil_r in Hc.
    cbn [length] in Hc. rewrite Hsl in Hc. specialize (Hp (Hc eq_refl ltac:(lia))).
    symmetry. apply replicate_as_Forall. split; [lia|]. eapply Forall_impl; [done|]. by intros ? ->. }
  split; [apply Nat.leb_le; lia|]. rewrite inline_descriptor_bytes; [|lia|apply is_bytes_as_bytes].
  cbn [app]. do 2 f_equal. lia.
Qed.

Lemma arena_word_inv descriptor :
  length descriptor = 4 → is_bytes descriptor →
  let word := from_be_bytes descriptor in
  descriptor = be_bytes 4 (N.land word atom_kind_mask + N.land word atom_offset_mask) ∧
  (N.land word atom_offset_mask ≤ atom_offset_mask)%N.
Proof.
  intros Hl Hb word. destruct (be_from_bytes descriptor Hb) as [E Hlt]. rewrite Hl in *. fold word in E, Hlt.
  change (256 ^ N.of_nat 4)%N with 4294967296%N in Hlt.
  change atom_kind_mask with (N.shiftl (N.ones 2) 30). rewrite land_field.
  change atom_offset_mask with (N.ones 30) at 1 2. rewrite N.land_ones. change (2 ^ 30)%N with 1073741824%N.
  rewrite (N.mod_small (word / _)) by (apply N.Div0.div_lt_upper_bound; lia).
  pose proof (N.div_mod word 1073741824 ltac:(done)). pose proof (N.mod_lt word 1073741824 ltac:(done)). split.
  - rewrite <-E at 1. f_equal. lia.
  - unfold atom_offset_mask. lia.
Qed.

(** A descriptor that decodes is the one of the atom's text. *)
Lemma decode_atom_inv descriptor arena a span :
  length descriptor = 4 → is_bytes descriptor → is_bytes arena → decode_atom descriptor arena = Ok (a, span) →
  ∃ offset, spells descriptor arena (to_owned_text a) offset ∧ a = atom_of (to_owned_text a) ∧
            span = atom_span offset (to_owned_text a).
Proof.
  intros Hl Hb Harena. destruct (arena_word_inv descriptor Hl Hb) as [Hword Hmask]. unfold decode_atom, spells.
  set (word := from_be_bytes descriptor) in *. case_decide as Hk.
  - intros (pad & Hpad%expect_Ok & Hd)%bind_Ok. destruct (_ || _) eqn:Ez; [done|]. apply orb_false_iff in Ez as [Hz Hzs].
    apply bool_decide_eq_false, dec_stable in Hz.
    apply bind_Ok in Hd as (raw & Hraw%expect_Ok & (text & Ht & [= <- <-])%bind_Ok).
    apply utf8_text_inv in Ht as [Et Ht]; [|exact (is_bytes_slice _ _ _ _ Hb Hraw)]. subst raw. exists 0.
    destruct (inline_inv descriptor text) as [Hi Hdesc]; [done..| |].
    { intros padding Hp. rewrite Hl in Hpad. assert (Some padding = Some pad) as [= ->] by exact (eq_trans (eq_sym Hp) Hpad).
      apply Forall_forall. intros b Hin.
      destruct (N.eqb_spec b 0) as [|Hb0]; [done|]. exfalso. apply not_true_iff_false in Hzs. apply Hzs, existsb_elem.
      exists b. split; [done|]. by rewrite (proj2 (N.eqb_neq _ _)). }
    cbn [to_owned_text]. unfold atom_word, atom_span, atom_of. rewrite Hi, inline_not_hex by done. done.
  - case_decide as Hk1; [|case_decide as Hk2; [|done]].
    + intros ([len c] & Hlen & Hd)%bind_Ok. apply bind_Ok in Hd as ([raw c'] & (Ec & Hraw & _)%take_bytes_Ok & Hd).
      apply take_leb128_inv in Hlen as [Hmax Hlen]; [|done].
      apply bind_Ok in Hd as (text & Ht & Hd). apply utf8_text_inv in Ht as [Et Ht]; [|exact (is_bytes_slice _ _ _ _ Harena Hraw)].
      destruct (_ || _) eqn:Ez; [done|]. apply orb_false_iff in Ez as [Hi Hx%bool_decide_eq_false].
      rewrite <-eq_None_not_Some in Hx. injection Hd as <- <-. subst raw. fold (is_inline text) in Hi.
      exists (N.to_nat (N.land word atom_offset_mask)). cbn [to_owned_text].
      assert (length (as_bytes text) = N.to_nat len) as Hn by (apply slice_inv in Hraw as (? & ? & _ & _ & ?); lia).
      unfold atom_word, atom_span, atom_of, atom_cell. rewrite Hi, Hx, Hn, !N2Nat.id. rewrite Hk1 in Hword.
      pose proof (slice_join _ _ _ _ _ _ Hlen Hraw) as Hcell.
      assert (c' = N.to_nat (N.land word atom_offset_mask) + length (leb_loop 4 len ++ as_bytes text)) as ->
        by (apply slice_inv in Hcell as (? & ? & _ & _ & ?); lia). done.
    + intros ([raw c] & (-> & Hraw & _)%take_bytes_Ok & [= <- <-])%bind_Ok.
      exists (N.to_nat (N.land word atom_offset_mask)). cbn [to_owned_text].
      assert (length raw = 32) as Hn by (apply slice_inv in Hraw as (? & ? & _ & _ & ?); lia).
      destruct (hex_text raw) as (Eh & Ht & Hx); [exact (is_bytes_slice _ _ _ _ Harena Hraw)|done|].
      assert (is_inline (encode_hex_32 raw) = false) as Hi by (unfold is_inline; by rewrite Eh, length_encode_pairs, Hn).
      unfold atom_word, atom_span, atom_of, atom_cell. rewrite Hi, Hx, Hn, !N2Nat.id. by rewrite Hk2 in Hword.
Qed.

(** ** The directories *)

Lemma atom_word_inline s off off' : is_inline s = true → atom_word off s = atom_word off' s.
Proof. unfold atom_word. by intros ->. Qed.

Section directories.
Context (v : StoredEventView) (arena : bytes).
Hypothesis (Hbytes : is_bytes (vw_bytes v)) (Harena : is_bytes arena).

Lemma parse_atoms_inv count : ∀ index cursor final,
  vw_atom_refs_start v + index * 4 ≤ length (vw_bytes v) → cursor ≤ length arena →
  parse_atoms v arena count index cursor = Ok final →
  ∃ els, length els = count ∧ Forall text_ok els ∧
    slice (vw_bytes v) (vw_atom_refs_start v + index * 4) (vw_atom_refs_start v + (index + count) * 4) = Some (words cursor els) ∧
    slice arena cursor final = Some (cells els).
Proof using All.
  induction count as [|count IH]; intros index cursor final Hi Hc Hp; cbn [parse_atoms] in Hp.
  { injection Hp as <-. exists []. rewrite Nat.add_0_r, !slice_empty by done. done. }
  apply bind_Ok in Hp as (d & Hd%expect_Ok & Hp). apply bind_Ok in Hp as ([a span] & Ha & Hp).
  assert (length d = 4) as Hl by (apply slice_inv in Hd as (? & ? & _ & _ & ?); lia).
  assert (vw_atom_refs_start v + (index + 1) * 4 ≤ length (vw_bytes v)) as Hi'.
  { apply slice_inv in Hd as (? & ? & -> & ? & ?). rewrite !length_app. lia. }
  apply decode_atom_inv in Ha as (off & (Ht & Ed & Hcell) & _ & ->); [|done|exact (is_bytes_slice _ _ _ _ Hbytes Hd)|done].
  set (s := to_owned_text a) in *. unfold atom_span in Hp.
  assert (d = be_bytes 4 (atom_word cursor s) ∧ slice arena cursor (cursor + length (atom_cell s)) = Some (atom_cell s) ∧
    parse_atoms v arena count (index + 1) (cursor + length (atom_cell s)) = Ok final) as (Ed' & Hcell' & Hp').
  { destruct (is_inline s) eqn:Es.
    - assert (atom_cell s = []) as -> by (unfold atom_cell; by rewrite Es). rewrite Nat.add_0_r.
      split_and!; [by rewrite (atom_word_inline s cursor off)|by apply slice_empty|done].
    - case_decide as Ho; [done|]. subst off. by split_and!; [|apply Hcell|]. }
  apply IH in Hp' as (els & <- & Hok & Hw & Hs); [|done|apply slice_inv in Hcell' as (? & ? & -> & ? & ?); rewrite !length_app; lia].
  exists (s :: els). split_and!; [done|by constructor| |by eapply slice_join]. rewrite Ed' in Hd.
  replace (index + S (length els)) with (index + 1 + length els) by lia. cbn [words].
  apply (slice_join _ _ (vw_atom_refs_start v + index * 4 + 4)); [done|].
  by replace (vw_atom_refs_start v + index * 4 + 4) with (vw_atom_refs_start v + (index + 1) * 4) by lia.
Qed.

Lemma parse_tag_ends_inv count : ∀ index prev last,
  event_header_len + index * 4 ≤ length (vw_bytes v) → parse_tag_ends v count index prev = Ok last →
  prev ≤ last ∧ ∀ els : list string, length els = last - prev →
  ∃ tags, length tags = count ∧ concat tags = els ∧ Forall (λ tag, tag ≠ []) tags ∧
    slice (vw_bytes v) (event_header_len + index * 4) (event_header_len + (index + count) * 4) = Some (ends prev tags).
Proof using Hbytes.
  induction count as [|count IH]; intros index prev last Hi Hp; cbn [parse_tag_ends] in Hp.
  { injection Hp as <-. split; [done|]. intros els Hl. rewrite Nat.sub_diag in Hl. apply nil_length_inv in Hl as ->.
    exists []. rewrite Nat.add_0_r, slice_empty by done. done. }
  apply bind_Ok in Hp as (n & Hn & Hp). apply (read_uint_inv _ _ _ _ Hbytes) in Hn as [Hn _]. cbv zeta in Hp.
  case_match eqn:E1; [done|]. case_match eqn:E2; [done|]. apply Nat.leb_gt in E1. clear E2.
  assert (event_header_len + (index + 1) * 4 ≤ length (vw_bytes v)) as Hi'.
  { apply slice_inv in Hn as (? & ? & -> & ? & ?). rewrite !length_app. lia. }
  apply IH in Hp as [Hle Hp]; [|done]. split; [lia|]. intros els Hl.
  destruct (Hp (drop (N.to_nat n - prev) els)) as (tags & <- & Hcat & Hne & Hs); [rewrite length_drop; lia|].
  exists (take (N.to_nat n - prev) els :: tags).
  assert (length (take (N.to_nat n - prev) els) = N.to_nat n - prev) as Htake by (rewrite length_take; lia).
  split_and!; [done|cbn; by rewrite Hcat, take_drop| |].
  { constructor; [|done]. intros Hnil. rewrite Hnil in Htake. cbn in Htake. lia. }
  cbn [ends]. rewrite Htake. replace (prev + (N.to_nat n - prev)) with (N.to_nat n) by lia. rewrite N2Nat.id.
  replace (index + S (length tags)) with (index + 1 + length tags) by lia.
  apply (slice_join _ _ (event_header_len + index * 4 + 4)); [done|].
  by replace (event_header_len + index * 4 + 4) with (event_header_len + (index + 1) * 4) by lia.
Qed.
End directories.

(** ** The header *)

Lemma field_at bs s w :
  is_bytes bs → s + w ≤ length bs →
  ∃ n, (n < 256 ^ N.of_nat w)%N ∧ slice bs s (s + w) = Some (be_bytes w n).
Proof.
  intros Hb Hl. destruct (slice bs s (s + w)) as [x|] eqn:E.
  - exists (from_be_bytes x). pose proof (is_bytes_slice _ _ _ _ Hb E) as Hx.
    assert (length x = w) as <- by (apply slice_inv in E as (? & ? & _ & _ & ?); lia).
    destruct (be_from_bytes x Hx) as [-> ?]. done.
  - unfold slice in E. rewrite decide_True in E by lia. done.
Qed.

(** The fixed fields of some event without tags or content. *)
Lemma fields_at bs :
  is_bytes bs → event_header_len ≤ length bs → slice bs 0 5 = Some (event_magic ++ [event_version]) →
  slice bs 5 8 = Some [0; 0; 0]%N →
  ∃ e, event_typed e ∧ (e_sig e < 2 ^ 512)%N ∧ slice bs 0 146 = Some (row_fields e).
Proof.
  intros Hb Hl Hm Hz. unfold event_header_len in Hl.
  destruct (field_at bs 8 32 Hb ltac:(lia)) as (id & Hid & E1). destruct (field_at bs 40 32 Hb ltac:(lia)) as (pk & Hpk & E2).
  destruct (field_at bs 72 64 Hb ltac:(lia)) as (sig & Hsig & E3). destruct (field_at bs 136 8 Hb ltac:(lia)) as (at_ & Hat & E4).
  destruct (field_at bs 144 2 Hb ltac:(lia)) as (kind & Hkind & E5).
  exists (mkEvent id pk at_ kind [] "" sig). split_and!; [|done|].
  - split_and!; [done..| |done]. change (256 ^ N.of_nat 8)%N with (N.succ u64_max) in Hat. cbn. lia.
  - pose proof (slice_join _ _ _ _ _ _ Hm (slice_join _ _ _ _ _ _ Hz (slice_join _ _ _ _ _ _ E1 (slice_join _ _ _ _ _ _ E2
      (slice_join _ _ _ _ _ _ E3 (slice_join _ _ _ _ _ _ E4 E5)))))) as E. rewrite <-app_assoc in E. exact E.
Qed.

Lemma from_trusted_inv bs v :
  is_bytes bs → from_trusted bs = Ok v →
  ∃ e section content,
    event_typed e ∧ (e_sig e < 2 ^ 512)%N ∧ (section ≤ u32_max ∧ content ≤ u32_max)%N ∧
    slice bs 0 event_header_len =
      Some (row_fields e ++ be_bytes 4 (N.of_nat (vw_tag_count v)) ++ be_bytes 4 section ++ be_bytes 4 content) ∧
    v = mkView bs (vw_tag_count v) (vw_atom_count v) (event_header_len + vw_tag_count v * 4)
          (event_header_len + vw_tag_count v * 4 + vw_atom_count v * 4)
          (event_header_len + N.to_nat section - (event_header_len + vw_tag_count v * 4 + vw_atom_count v * 4))
          (event_header_len + N.to_nat section) (N.to_nat content) ∧
    event_header_len + vw_tag_count v * 4 + vw_atom_count v * 4 ≤ event_header_len + N.to_nat section ∧
    length bs = event_header_len + N.to_nat section + N.to_nat content.
Proof.
  intros Hb. unfold from_trusted. destruct (Nat.ltb_spec (length bs) event_header_len) as [|Hl]; [done|].
  intros ([] & Hm%check_magic_slice & Hd)%bind_Ok. apply bind_Ok in Hd as (r & Hr%expect_Ok & Hd).
  case_decide; [done|]. subst r. apply bind_Ok in Hd as (tags & Ht & Hd). apply bind_Ok in Hd as (section & Hs & Hd).
  apply bind_Ok in Hd as (content & Hc & Hd). apply (read_uint_inv _ _ _ _ Hb) in Ht as [Ht _], Hs as [Hs Hs'], Hc as [Hc Hc'].
  cbv zeta in Hd. apply bind_Ok in Hd as (? & [-> _]%checked_Ok & Hd). apply bind_Ok in Hd as (? & [-> _]%checked_Ok & Hd).
  case_match eqn:E1; [done|]. case_match eqn:E2; [done|]. apply Nat.ltb_ge in E1, E2.
  apply bind_Ok in Hd as (? & [-> _]%checked_Ok & Hd). case_match eqn:E3; [done|].
  apply bind_Ok in Hd as (atoms & _ & Hd). apply bind_Ok in Hd as (? & [-> _]%checked_Ok & Hd).
  apply bind_Ok in Hd as (? & [-> _]%checked_Ok & Hd). apply bind_Ok in Hd as (? & [-> _]%checked_Ok & Hd).
  case_match eqn:E4; [done|]. apply Nat.ltb_ge in E4. apply (inj Ok) in Hd as <-. cbn [vw_tag_count vw_atom_count].
  destruct (fields_at bs Hb Hl Hm Hr) as (e & He & Hsig & Hf).
  change (256 ^ N.of_nat 4)%N with (N.succ u32_max) in *. exists e, section, content. rewrite N2Nat.id.
  split_and!; [done|done|lia|lia| |done|done|lia].
  exact (slice_join _ _ _ _ _ _ Hf (slice_join _ _ _ _ _ _ Ht (slice_join _ _ _ _ _ _ Hs Hc))).
Qed.

(** ** The whole row *)

Lemma parse_inv bs v :
  is_bytes bs → parse bs = Ok v → (N.of_nat (vw_arena_len v) ≤ atom_offset_mask)%N →
  ∃ e, row_typed e ∧ row_fits e ∧ bs = row_bytes e.
Proof.
  intros Hb (v' & Hv & Hd)%bind_Ok Harena.
  destruct (from_trusted_inv bs v' Hb Hv) as (e & section & content & He & Hsig & [Hs Hc] & Hhead & Ev & Hle & Hlen).
  apply bind_Ok in Hd as (last & Hends & Hd). case_decide; [done|]. subst last.
  apply bind_Ok in Hd as (arena & Ha%expect_Ok & Hd). apply bind_Ok in Hd as (final & Hatoms & Hd).
  case_decide; [done|]. subst final. apply bind_Ok in Hd as (raw & Hraw%or_err_Ok & Hd).
  apply bind_Ok in Hd as (text & Htext & [= <-]).
  apply utf8_text_inv in Htext as [<- Htext]; [|exact (is_bytes_slice _ _ _ _ Hb Hraw)].
  set (T := vw_tag_count v') in *. set (A := vw_atom_count v') in *.
  rewrite Ev in Ha, Harena, Hraw, Hends, Hatoms. cbn [vw_bytes vw_arena_start vw_arena_len vw_content_start vw_content_len] in *.
  assert (is_bytes arena) as Hba by exact (is_bytes_slice _ _ _ _ Hb Ha).
  apply parse_atoms_inv in Hatoms as (els & Hels & Hok & Hwords & Hcells); [|done|done|cbn [vw_bytes vw_atom_refs_start]; lia|lia].
  apply parse_tag_ends_inv in Hends as [_ Hends]; [|done|cbn [vw_bytes]; lia].
  destruct (Hends els) as (tags & Htags & Hcat & Hne & Hends'); [lia|]. clear Hends.
  apply slice_full in Hcells as ->. cbn [vw_bytes vw_atom_refs_start vw_tag_count vw_atom_count] in *.
  assert (length (cells els) = event_header_len + N.to_nat section - (event_header_len + T * 4 + A * 4)) as Hcl
    by (apply slice_inv in Ha as (? & ? & _ & _ & ?); lia).
  assert (section = N.of_nat (section_len tags)) as -> by (unfold section_len; rewrite Hcat, Htags, Hels; lia).
  assert (content = N.of_nat (length (as_bytes text))) as ->
    by (apply slice_inv in Hraw as (? & ? & _ & _ & ?); lia).
  rewrite !Nat2N.id in *. exists (mkEvent (e_id e) (e_pubkey e) (e_created_at e) (e_kind e) tags text (e_sig e)).
  split_and!.
  - split_and!; [done..| |done]. change (Forall (Forall text_ok) tags). apply Forall_concat. by rewrite Hcat.
  - split_and!; cbn [e_tags e_content]; [done|rewrite Hcat, Hcl; lia|done..].
  - apply slice_full. unfold row_bytes, row_head. cbn [e_tags e_content]. rewrite Hcat, Htags.
    rewrite !Nat.add_0_l, !Nat.add_0_r, ?Nat.mul_0_l, ?Nat.add_0_r in *.
    rewrite Hlen. replace (event_header_len + section_len tags) with
      (event_header_len + T * 4 + A * 4 + length (cells els)) in Ha, Hraw |- * by lia.
    apply (slice_join _ _ event_header_len); [exact Hhead|]. apply (slice_join _ _ (event_header_len + T * 4)); [done|].
    apply (slice_join _ _ (event_header_len + T * 4 + A * 4)); [done|].
    apply (slice_join _ _ (event_header_len + T * 4 + A * 4 + length (cells els))); [|exact Hraw].
    rewrite <-Ha. f_equal. lia.
Qed.

Lemma parse_iff `{RowReader, !RowReaderLaws} bs e :
  is_bytes bs →
  (∃ v, parse bs = Ok v ∧ (N.of_nat (vw_arena_len v) ≤ atom_offset_mask)%N ∧ materialize_event v = Ok e) ↔
  row_typed e ∧ encode_event e = Ok bs.
Proof.
  intros Hb. split.
  - intros (v & Hp & Ha & Hm). destruct (parse_inv bs v Hb Hp Ha) as (e' & Ht & Hf & ->).
    rewrite parse_row in Hp by done. apply (inj Ok) in Hp as <-. rewrite materialize_row in Hm by done.
    apply (inj Ok) in Hm as <-. split; [done|]. by apply encode_event_fits.
  - intros [Ht [Hf ->]%encode_event_Ok]. exists (view_of e). rewrite parse_row, materialize_row by done.
    split_and!; [done| |done]. by destruct Hf as (_ & ? & _).
Qed.
