(* ===== verification/BinarySafety.v ===== *)
(** * A corrupt row is an error, never a panic

    [from_trusted] checks the header of a row and the bounds of its sections only.
    Whatever lies in the sections, reading the view ends, in a value or in an error:
    no slice is out of bounds and no walk of a tag goes on for ever. *)

From S2P Require Import Prelude Grammar Schema QueueBytes Query BinaryEvent BinaryAtoms BinaryRow.

(** ** The view stays inside its bytes *)

Record in_bounds (v : StoredEventView) : Prop := {
  ib_header : event_header_len + vw_tag_count v * 4 ≤ length (vw_bytes v);
  ib_atoms : vw_atom_refs_start v + vw_atom_count v * 4 ≤ length (vw_bytes v);
  ib_arena : vw_arena_start v + vw_arena_len v ≤ length (vw_bytes v);
  ib_content : vw_content_start v + vw_content_len v ≤ length (vw_bytes v)
}.

Lemma from_trusted_in_bounds bs v : from_trusted bs = Ok v → in_bounds v.
Proof.
  unfold from_trusted. destruct (Nat.ltb_spec (length bs) event_header_len) as [|Hl]; [done|].
  intros (_ & _ & Hd)%bind_Ok. apply bind_Ok in Hd as (r & _ & Hd). case_decide; [done|].
  do 3 (apply bind_Ok in Hd as (? & _ & Hd)). cbv zeta in Hd.
  do 2 (apply bind_Ok in Hd as (? & [-> _]%checked_Ok & Hd)).
  case_match eqn:E1; [done|]. case_match eqn:E2; [done|]. apply Nat.ltb_ge in E1, E2.
  apply bind_Ok in Hd as (? & [-> _]%checked_Ok & Hd). case_match eqn:E3; [done|]. apply Nat.ltb_ge in E3.
  apply bind_Ok in Hd as (? & _ & Hd). do 3 (apply bind_Ok in Hd as (? & [-> _]%checked_Ok & Hd)).
  case_match eqn:E4; [done|]. apply Nat.ltb_ge in E4. apply (inj Ok) in Hd as <-.
  split; cbn [vw_bytes vw_tag_count vw_atom_count vw_atom_refs_start vw_arena_start vw_arena_len vw_content_start vw_content_len]; lia.
Qed.

Lemma slice_total {A} (l : list A) s e : s ≤ e → e ≤ length l → ∃ x, slice l s e = Some x ∧ length x = e - s.
Proof.
  intros. unfold slice. rewrite decide_True by lia. eexists. split; [done|]. rewrite length_take, length_drop. lia.
Qed.

(** ** Atoms *)

Lemma take_bytes_total bs cursor len : take_bytes bs cursor len ≠ Panic.
Proof.
  unfold take_bytes. apply bind_total; [apply checked_total|]. intros. apply bind_total; [by destruct (slice _ _ _)|done].
Qed.

Lemma take_leb_loop_total indexes bs : ∀ cursor acc, take_leb_loop indexes bs cursor acc ≠ Panic.
Proof.
  induction indexes as [|index indexes IH]; intros cursor acc; cbn [take_leb_loop]; [done|].
  destruct (take_bytes bs cursor 1) as [[x c]|err|] eqn:E; [|done|by apply take_bytes_total in E].
  apply take_bytes_Ok in E as (-> & (? & ? & _ & _ & Hl)%slice_inv & _). rewrite Ok_bind.
  destruct x as [|b x]; [cbn in Hl; lia|]. cbn [head expect]. rewrite Ok_bind.
  case_decide; [done|]. cbv zeta. case_decide; [by case_decide|apply IH].
Qed.

Lemma utf8_text_total raw : utf8_text raw ≠ Panic.
Proof. unfold utf8_text. by case_match. Qed.

Lemma decode_atom_total descriptor arena : length descriptor = 4 → decode_atom descriptor arena ≠ Panic.
Proof.
  intros Hl. unfold decode_atom. case_decide; [|case_decide; [|case_decide; [|done]]].
  - set (word := from_be_bytes descriptor). set (len := N.to_nat (N.land (N.shiftr word 28) 3)).
    assert (len < 4) as Hlen.
    { unfold len. change 3%N with (N.ones 2). rewrite N.land_ones. pose proof (N.mod_lt (N.shiftr word 28) (2 ^ 2) ltac:(done)).
      change (2 ^ 2)%N with 4%N in *. lia. }
    destruct (slice_total descriptor (1 + len) (length descriptor)) as (pad & -> & _); [lia..|]. cbn [expect].
    rewrite Ok_bind. case_match; [done|]. destruct (slice_total descriptor 1 (1 + len)) as (raw & -> & _); [lia..|].
    cbn [expect]. rewrite Ok_bind. apply bind_total; [apply utf8_text_total|done].
  - apply bind_total; [apply take_leb_loop_total|]. intros [len c]. apply bind_total; [apply take_bytes_total|].
    intros [raw c']. apply bind_total; [apply utf8_text_total|]. intros text. by case_match.
  - apply bind_total; [apply take_bytes_total|]. by intros [raw c].
Qed.

(** ** The walk of a view *)

Section view.
Context (v : StoredEventView) (Hv : in_bounds v).

Lemma view_arena_total : ∃ arena, view_arena v = Ok arena.
Proof using All.
  unfold view_arena. destruct (slice_total (vw_bytes v) (vw_arena_start v) (vw_arena_start v + vw_arena_len v)) as (x & -> & _).
  - lia.
  - apply Hv.
  - by exists x.
Qed.

Lemma parse_tag_ends_total count : ∀ i prev, parse_tag_ends v count i prev ≠ Panic.
Proof using Type.
  induction count as [|count IH]; intros i prev; cbn [parse_tag_ends]; [done|].
  apply bind_total; [unfold read_uint; by destruct (slice _ _ _)|]. intros n. cbv zeta. do 2 (case_match; [done|]). apply IH.
Qed.

Lemma parse_atoms_total arena count : ∀ i cursor,
  i + count ≤ vw_atom_count v → parse_atoms v arena count i cursor ≠ Panic.
Proof using All.
  induction count as [|count IH]; intros i cursor Hi; cbn [parse_atoms]; [done|]. cbv zeta.
  destruct (slice_total (vw_bytes v) (vw_atom_refs_start v + i * 4) (vw_atom_refs_start v + i * 4 + 4)) as (d & -> & Hd).
  { lia. }
  { destruct Hv as [_ Ha _ _]. lia. }
  cbn [expect]. rewrite Ok_bind. apply bind_total; [apply decode_atom_total; lia|]. intros [a [[start end_]|]].
  - case_decide; [done|]. apply IH. lia.
  - apply IH. lia.
Qed.

Lemma view_field_total offset width : offset + width ≤ event_header_len → view_field v offset width ≠ Panic.
Proof using All.
  intros Hle. unfold view_field. destruct Hv as [Hh _ _ _].
  destruct (slice_total (vw_bytes v) offset (offset + width)) as (x & -> & _); [lia..|]. done.
Qed.

Lemma view_uint_total width offset :
  offset + width ≤ event_header_len + vw_tag_count v * 4 → expect_ok (read_uint width (vw_bytes v) offset) ≠ Panic.
Proof using All.
  intros Hle. unfold read_uint. destruct Hv as [Hh _ _ _].
  destruct (slice_total (vw_bytes v) offset (offset + width)) as (x & -> & _); [lia..|]. done.
Qed.

Lemma view_content_total : view_content v ≠ Panic.
Proof using All.
  unfold view_content. destruct (slice_total (vw_bytes v) (vw_content_start v) (vw_content_start v + vw_content_len v)) as (x & -> & _).
  - lia.
  - apply Hv.
  - apply utf8_text_total.
Qed.

Lemma tag_end_total i : i < vw_tag_count v → tag_end v i ≠ Panic.
Proof using All. intros Hi. apply bind_total; [apply view_uint_total; lia|done]. Qed.

(** An element that was read lies in the bytes, and the walk goes on behind it. *)
Lemma next_element_spec i atom_end :
  match next_element v i atom_end with
  | Ok (Some (inr _), i') => i' = i + 1 ∧ i < length (vw_bytes v)
  | Ok _ => True
  | _ => False
  end.
Proof using All.
  unfold next_element. case_decide; [done|]. cbv zeta. destruct (slice _ _ _) as [d|] eqn:E; [|done].
  apply slice_inv in E as (a & c & E & Ha & Hl). destruct view_arena_total as [arena ->]. rewrite Ok_bind.
  destruct (decode_atom d arena) as [[atom span]|err|] eqn:Ed; [|done|].
  - split; [done|]. rewrite E, !length_app. lia.
  - apply decode_atom_total in Ed; [done|lia].
Qed.

Lemma collect_total fuel : ∀ i atom_end, length (vw_bytes v) ≤ i + fuel → collect_elements (S fuel) v i atom_end ≠ Panic.
Proof using All.
  induction fuel as [|fuel IH]; intros i atom_end Hf; cbn [collect_elements].
  all: pose proof (next_element_spec i atom_end) as Hn; destruct (next_element v i atom_end) as [[[[err|atom]|] i']| |]; try done.
  - lia.
  - destruct Hn as [-> Hi]. rewrite Ok_bind. apply bind_total; [|done]. apply IH. lia.
Qed.

Lemma any_tag_total name wanted count : ∀ i prev,
  i + count ≤ vw_tag_count v → any_tag_matches v name wanted count i prev ≠ Panic.
Proof using All.
  induction count as [|count IH]; intros i prev Hi; cbn [any_tag_matches]; [done|].
  apply bind_total; [apply tag_end_total; lia|]. intros atom_end.
  pose proof (next_element_spec prev atom_end) as Hn. destruct (next_element v prev atom_end) as [[[[err|name']|] j]| |]; try done.
  2:{ rewrite Ok_bind. apply IH. lia. }
  rewrite Ok_bind. pose proof (next_element_spec j atom_end) as Hn'.
  destruct (next_element v j atom_end) as [[[[err|value]|] k]| |]; try done; rewrite Ok_bind; [case_match; [done|]|]; apply IH; lia.
Qed.

Lemma all_names_total indexed names : all_names_match v indexed names ≠ Panic.
Proof using All.
  induction names as [|[name wanted] names IH]; cbn [all_names_match]; [done|]. case_decide; [exact IH|].
  apply bind_total; [by apply any_tag_total|]. intros [|]; [exact IH|done].
Qed.

Lemma view_matches_total `{TagOrder} f indexed : view_matches f indexed v ≠ Panic.
Proof using All.
  unfold view_matches. apply bind_total; [by apply view_field_total, Nat.leb_le|]. intros id. case_match; [done|].
  apply bind_total; [by apply view_field_total, Nat.leb_le|]. intros pubkey. case_match; [done|].
  apply bind_total; [apply view_uint_total; unfold event_header_len, kind_offset; lia|]. intros kind. case_match; [done|].
  apply bind_total; [apply view_uint_total; unfold event_header_len, created_at_offset; lia|]. intros created_at.
  case_match; [done|]. apply bind_total; [apply all_names_total|]. intros [|]; [|done].
  destruct (nf_search f) as [query|]; [|done]. destruct (length (as_bytes query) =? 0); [done|]. apply bind_total; [apply view_content_total|done].
Qed.

Lemma materialize_tags_total `{RowReader} count : ∀ i prev,
  i + count ≤ vw_tag_count v → materialize_tags v count i prev ≠ Panic.
Proof using All.
  induction count as [|count IH]; intros i prev Hi; cbn [materialize_tags]; [done|].
  apply bind_total; [apply tag_end_total; lia|]. intros atom_end.
  apply bind_total; [apply collect_total; lia|]. intros atoms.
  apply bind_total; [by destruct (tag_parse _)|]. intros tag. apply bind_total; [apply IH; lia|done].
Qed.

Lemma materialize_total `{RowReader} : materialize_event v ≠ Panic.
Proof using All.
  unfold materialize_event. apply bind_total; [by apply materialize_tags_total|]. intros tags.
  do 2 (apply bind_total; [by apply view_field_total, Nat.leb_le|]; intros ?).
  apply bind_total; [apply view_uint_total; unfold event_header_len, created_at_offset; lia|]. intros created_at.
  apply bind_total; [apply view_uint_total; unfold event_header_len, kind_offset; lia|]. intros kind.
  apply bind_total; [apply view_content_total|]. intros content.
  apply bind_total; [by apply view_field_total, Nat.leb_le|]. intros signature.
  apply bind_total; [by destruct (signature_from_slice _)|done].
Qed.
End view.

(** ** Opening a row *)

Lemma check_magic_total bs magic version : check_magic_and_version bs magic version ≠ Panic.
Proof.
  unfold check_magic_and_version. case_decide; [by case_match|]. apply bind_total; [by destruct (bs !! 4)|].
  intros found. by case_decide.
Qed.

Lemma from_trusted_total bs : from_trusted bs ≠ Panic.
Proof.
  unfold from_trusted. destruct (Nat.ltb_spec (length bs) event_header_len) as [|Hl]; [done|]. unfold event_header_len in Hl.
  apply bind_total; [apply check_magic_total|]. intros _.
  destruct (slice_total bs 5 8) as (r & -> & _); [lia..|]. cbn [expect]. rewrite Ok_bind. case_decide; [done|].
  assert (∀ o, read_uint 4 bs o ≠ Panic) as Hread by (intros o; unfold read_uint; by destruct (slice _ _ _)).
  do 3 (apply bind_total; [apply Hread|]; intros ?). cbv zeta. do 2 (apply bind_total; [apply checked_total|]; intros ?).
  do 2 (case_match; [done|]). apply bind_total; [apply checked_total|]. intros ?. case_match; [done|].
  apply bind_total; [case_match; [done|apply Hread]|]. intros ?. do 3 (apply bind_total; [apply checked_total|]; intros ?).
  by case_match.
Qed.

Lemma parse_total bs : parse bs ≠ Panic.
Proof.
  unfold parse. destruct (from_trusted bs) as [v|err|] eqn:Hv; [|done|by apply from_trusted_total in Hv].
  rewrite Ok_bind. apply from_trusted_in_bounds in Hv. apply bind_total; [apply parse_tag_ends_total|].
  intros last. case_decide; [done|]. destruct (view_arena_total v Hv) as [arena ->]. rewrite Ok_bind.
  apply bind_total; [by apply parse_atoms_total|]. intros cursor. case_decide; [done|].
  apply bind_total; [by destruct (slice _ _ _)|]. intros content. apply bind_total; [apply utf8_text_total|done].
Qed.
