(* ===== verification/BinaryTheorems.v ===== *)
(** * What the bytes of an event row guarantee

    Decoding and encoding a row are inverse, the filter that reads a row's bytes
    decides as the filter on the event, and the envelopes beside a row read back. *)

From S2P Require Import Prelude Grammar Schema QueueBytes Coverage Canonical Commit Query BinaryEvent BinaryAtoms BinaryRow BinaryView BinarySidecar BinaryCanonical BinarySafety.

(** The ids and the authors of a filter are 32 bytes. *)
Definition filter_keys_typed (f : NFilter) : Prop :=
  (∀ vs x, nf_ids f = Some vs → x ∈ vs → x < 2 ^ 256)%N ∧ (∀ vs x, nf_authors f = Some vs → x ∈ vs → x < 2 ^ 256)%N.

(** C11: A byte string is accepted by [parse] and materialized to an event exactly
    when it is what [encode_event] writes for that event, whose fields have their
    widths and whose text is UTF-8: nothing is lost, and no event has two rows.  The
    arena of a row holds at most the 2^30 - 1 bytes a descriptor can address. *)
Theorem row_codec `{RowReader, !RowReaderLaws} bs e :
  is_bytes bs →
  (∃ v, parse bs = Ok v ∧ (N.of_nat (vw_arena_len v) ≤ atom_offset_mask)%N ∧ materialize_event v = Ok e) ↔
  row_typed e ∧ encode_event e = Ok bs.
Proof. apply parse_iff. Qed.

(** C12: On the row [encode_event] writes, opened without validation, the residual
    filter reads from the bytes, without an error or a panic, the answer it would
    give on the event: the fields compared as bytes, tag elements as atoms that are
    decoded one at a time and only as far as they are needed. *)
Theorem row_filter_agrees `{TagOrder} e bs f indexed :
  row_typed e → filter_keys_typed f → encode_event e = Ok bs →
  ∃ v, from_trusted bs = Ok v ∧
       view_matches f indexed v = Ok (matches_prepared_filter_after_index f indexed e).
Proof.
  intros He [Hids Hauthors] [Hf ->]%encode_event_Ok. exists (view_of e).
  split; [by apply from_trusted_row|by apply view_matches_row].
Qed.

(** C13: No bytes make a row reader panic.  [parse] ends on every byte string in a
    view or an error, and whatever [from_trusted] lets through, the residual filter
    and [materialize_event] end in a value or an error: a corrupt tag directory, a
    descriptor or a content that is out of range or not text never makes them panic,
    nor walk a tag without end. *)
Theorem corrupt_rows_never_panic `{TagOrder, RowReader} bs :
  parse bs ≠ Panic ∧
  ∀ v f indexed, from_trusted bs = Ok v → view_matches f indexed v ≠ Panic ∧ materialize_event v ≠ Panic.
Proof.
  split; [apply parse_total|]. intros v f indexed Hv%from_trusted_in_bounds.
  split; [by apply view_matches_total|by apply materialize_total].
Qed.

(** C30: The local state of a row decodes from bytes exactly when they are what
    [encode_local] writes for it, the owners in ascending order; and a displaced row
    that was encoded, event and provenance, decodes to itself. *)
Theorem sidecars_roundtrip `{RelayParser, !RelayParserLaws, RowReader, !RowReaderLaws} :
  (∀ bs l, is_bytes bs → decode_local bs = Ok l ↔ owners_typed (lo_owners l) ∧ encode_local l = Ok bs) ∧
  (∀ se bs, row_typed (se_event se) → provenance_typed (se_provenance se) →
            encode se = Ok bs → decode bs = Ok se).
Proof.
  split; [apply decode_local_iff|]. intros se bs He Hp [Hf ->]%encode_spec. by apply decode_reads.
Qed.

(** ** Concrete rows *)

Module BinarySample.
Import CanonicalSample.
Local Open Scope string_scope.

#[global] Instance reader : RowReader := {|
  tag_parse elements := match elements with [] => None | _ => Some elements end;
  signature_from_slice raw := Some (from_be_bytes raw)
|}.
#[global] Instance reader_laws : RowReaderLaws.
Proof.
  split; [intros [|x elements] tag; simpl; naive_solver|]. intros raw sig _ _. simpl. naive_solver.
Qed.
#[global] Instance row_order : TagOrder := map_to_list.

Definition hex : string := "0123456789abcdef0123456789abcdef0123456789abcdef0123456789abcdef".
Definition event : Event :=
  mkEvent 1 7 10 1 [["t"; "nmp"]; ["e"; hex; "wss://relay.example"]; [""]] "hello" 100.
Definition row : bytes := match encode_event event with Ok bs => bs | _ => [] end.

(** The end of the second tag moved before its start. *)
Definition corrupt_row : bytes := take 165 row ++ [0%N] ++ drop 166 row.

Lemma corrupt_opens : ∃ v, from_trusted corrupt_row = Ok v.
Proof. vm_compute. eexists. reflexivity. Qed.

Lemma row_bytes_are : is_bytes row.
Proof. apply (bool_decide_unpack _). vm_compute. exact I. Qed.
Lemma row_encodes : encode_event event = Ok row.
Proof. vm_compute. reflexivity. Qed.
Lemma event_row_typed : row_typed event.
Proof.
  split_and!; [by vm_compute..| |by vm_compute]. repeat constructor.
Qed.

(** An [e] tag that holds the key, and a text that holds the query in other case. *)
Definition filter : NFilter := mkNFilter (Some {[ 1%N ]}) None None (Some "ELL") None None None {[ 101%N := {[ hex ]} ]}.
Lemma filter_keys : filter_keys_typed filter.
Proof. split; simpl; [|done]. by intros vs x [= <-] ->%elem_of_singleton. Qed.

Definition local : LocalOrigin := mkLocal {[ 3%N; 9%N ]} Pending.
Definition displaced : StoredEvent := mkStored event (mkProv {[ "wss://relay.example" := 12%N ]} (Some local)).
Definition local_row : bytes := match encode_local local with Ok bs => bs | _ => [] end.
Definition displaced_row : bytes := match encode displaced with Ok bs => bs | _ => [] end.
End BinarySample.

Section witnesses.
Import CanonicalSample BinarySample.

Lemma row_codec_witness :
  ∃ v, parse row = Ok v ∧ (N.of_nat (vw_arena_len v) ≤ atom_offset_mask)%N ∧ materialize_event v = Ok event.
Proof. exact (proj2 (row_codec row event row_bytes_are) (conj event_row_typed row_encodes)). Defined.

Lemma row_filter_agrees_witness :
  ∃ v, from_trusted row = Ok v ∧
       view_matches filter MatchNone v = Ok (matches_prepared_filter_after_index filter MatchNone event).
Proof. exact (row_filter_agrees event row filter MatchNone event_row_typed filter_keys row_encodes). Defined.

Lemma corrupt_rows_never_panic_witness :
  ∃ v, from_trusted corrupt_row = Ok v ∧ parse corrupt_row = Err EmptyTag ∧
       view_matches filter MatchNone v ≠ Panic ∧ materialize_event v ≠ Panic.
Proof.
  destruct corrupt_opens as [v Hv]. exists v. split; [exact Hv|]. split; [by vm_compute|].
  exact (proj2 (corrupt_rows_never_panic corrupt_row) v filter MatchNone Hv).
Defined.

Lemma sidecars_roundtrip_witness : decode_local local_row = Ok local ∧ decode displaced_row = Ok displaced.
Proof.
  split.
  - apply (proj1 sidecars_roundtrip local_row local); [apply (bool_decide_unpack _); by vm_compute|].
    split; [by apply (bool_decide_unpack _); vm_compute|reflexivity].
  - apply (proj2 sidecars_roundtrip displaced displaced_row event_row_typed); [|reflexivity].
    split; [by apply (bool_decide_unpack _); vm_compute|].
    intros ? [= <-]. by apply (bool_decide_unpack _); vm_compute.
Defined.

(** The filter matches the sample. *)
Example row_filter_sample : matches_prepared_filter_after_index filter MatchNone event = true.
Proof. by vm_compute. Qed.
End witnesses.
