(* ===== verification/QueryCorrect.v ===== *)
(** * Queries return the store's rows

    On committed tables every query door returns the rows of the store that the
    filter wants, that no open deletion claim suppresses and that the pin shows,
    newest first and cut at the limit; whichever index the planner could choose,
    the rows are the same. *)

From S2P Require Import Prelude Grammar Schema QueueBytes Address Coverage Canonical Ingest IngestSpec IngestRefine Governed Postings PostingsRead PackedStore PackedRep ScanCorrect PackedFlush Commit Query.

(** ** Sorting *)

Section sorting.
Context {A : Type} (le : A → A → bool).

Lemma insert_by_perm x l : insert_by le x l ≡ₚ x :: l.
Proof. induction l as [|y l IH]; simpl; [done|]. case_match; [done|]. rewrite IH. constructor. Qed.

Lemma sort_by_perm l : sort_by le l ≡ₚ l.
Proof. induction l as [|x l IH]; simpl; [done|]. by rewrite insert_by_perm, IH. Qed.

Context (Htotal : ∀ x y, le x y = true ∨ le y x = true).
Context (Htrans : ∀ x y z, le x y = true → le y z = true → le x z = true).

Lemma insert_by_sorted x l :
  StronglySorted (λ x y, le x y = true) l → StronglySorted (λ x y, le x y = true) (insert_by le x l).
Proof using Htotal Htrans.
  induction l as [|y l IH]; intros Hl; simpl; [by repeat constructor|].
  pose proof Hl as [Hs Hy]%StronglySorted_inv. rewrite Forall_forall in Hy. destruct (le x y) eqn:E.
  - constructor; [done|]. rewrite Forall_forall. intros z [->|Hz]%elem_of_cons; eauto.
  - constructor; [by apply IH|]. rewrite Forall_forall. intros z Hz. rewrite insert_by_perm in Hz.
    apply elem_of_cons in Hz as [->|Hz]; [|by apply Hy]. destruct (Htotal x y); congruence.
Qed.

Lemma sort_by_strongly l : StronglySorted (λ x y, le x y = true) (sort_by le l).
Proof using Htotal Htrans. induction l as [|x l IH]; simpl; [constructor|]. by apply insert_by_sorted. Qed.
End sorting.

(** ** What a filter wants *)

Definition among `{Countable A} (values : option (gset A)) (actual : A) : Prop :=
  match values with Some values => values = ∅ ∨ actual ∈ values | None => True end.

(** A tag of the event is named by the letter [name] and has one of [values]. *)
Definition tagged (e : Event) (name : N) (values : gset string) : Prop :=
  ∃ letter value rest, letter :: value :: rest ∈ e_tags e ∧ as_bytes letter = [name] ∧ value ∈ values.

(** The content contains the query, whatever the case of its letters. *)
Definition found_in (content : string) (query : option string) : Prop :=
  match query with
  | Some query => ∃ before hit after, as_bytes content = before ++ hit ++ after ∧
      to_ascii_lowercase <$> hit = to_ascii_lowercase <$> as_bytes query
  | None => True
  end.

(** What the residual filter tests, the predicate [indexed] apart. *)
Definition wants_but (indexed : IndexedMatch) (f : NFilter) (e : Event) : Prop :=
  among (nf_ids f) (e_id e) ∧
  (indexed ≠ MatchAuthor → among (nf_authors f) (e_pubkey e)) ∧
  (indexed ≠ MatchKind → among (nf_kinds f) (e_kind e)) ∧
  (∀ since, nf_since f = Some since → (since ≤ e_created_at e)%N) ∧
  (∀ until, nf_until f = Some until → (e_created_at e ≤ until)%N) ∧
  (∀ name values, nf_generic_tags f !! name = Some values → indexed ≠ MatchTag name → tagged e name values) ∧
  found_in (e_content e) (nf_search f).

(** The predicate an index proves. *)
Definition proven (indexed : IndexedMatch) (f : NFilter) (e : Event) : Prop :=
  match indexed with
  | MatchNone => True
  | MatchAuthor => among (nf_authors f) (e_pubkey e)
  | MatchKind => among (nf_kinds f) (e_kind e)
  | MatchTag name => ∀ values, nf_generic_tags f !! name = Some values → tagged e name values
  end.

Definition wants (f : NFilter) (e : Event) : Prop := wants_but MatchNone f e.

Lemma wants_split indexed f e : wants f e ↔ wants_but indexed f e ∧ proven indexed f e.
Proof.
  unfold wants, wants_but, proven. split.
  - intros (? & Ha & Hk & ? & ? & Ht & ?). split; [|destruct indexed; auto; intros values Hv; by apply Ht].
    split_and!; auto.
  - intros [(? & Ha & Hk & ? & ? & Ht & ?) Hp]. split_and!; [done| | |done|done| |done].
    + intros _. destruct indexed; (done || by apply Ha).
    + intros _. destruct indexed; (done || by apply Hk).
    + intros name values Hv _. destruct (decide (indexed = MatchTag name)) as [->|]; [by apply Hp|by apply Ht].
Qed.

Lemma excluded_among `{Countable A} (values : option (gset A)) (actual : A) :
  excluded values actual = false ↔ among values actual.
Proof.
  unfold excluded, among. destruct values as [values|]; [|done].
  rewrite andb_false_iff, !bool_decide_eq_false. split.
  - intros [Hv|Ha]; [left|right]; by apply dec_stable.
  - intros [->|Ha]; [left|right]; by intros Hn; apply Hn.
Qed.

Lemma values_match_spec values value :
  values_match (mkPreparedValues values (omap decode_hex_32 (ordered values))) (atom_of value) = true ↔ value ∈ values.
Proof.
  unfold values_match, atom_of. destruct (decode_hex_32 value) as [raw|] eqn:E; simpl; rewrite bool_decide_eq_true; [|done].
  rewrite list_elem_of_omap. setoid_rewrite elem_of_ordered. split; [|by eauto].
  intros (value' & Hv & Hr). by rewrite (decode_hex_32_inj _ _ _ E Hr).
Qed.

Lemma is_single_ascii_spec letter name : is_single_ascii (atom_of letter) name = true ↔ as_bytes letter = [name].
Proof.
  unfold is_single_ascii, atom_of. destruct (decode_hex_32 letter) as [raw|] eqn:E; simpl.
  - split; [done|]. intros Hl. unfold decode_hex_32 in E. by rewrite Hl in E.
  - by rewrite bool_decide_eq_true.
Qed.

Lemma tags_match_spec e name values :
  existsb (tag_matches name (mkPreparedValues values (omap decode_hex_32 (ordered values)))) (e_tags e) = true ↔
  tagged e name values.
Proof.
  rewrite existsb_elem. unfold tagged, tag_matches. split.
  - intros (tag & Hin & Hm). destruct tag as [|letter [|value rest]]; [done..|]. simpl in Hm.
    apply andb_true_iff in Hm as [Hl%is_single_ascii_spec Hv%values_match_spec]. eauto 7.
  - intros (letter & value & rest & Hin & Hl & Hv). eexists. split; [done|]. simpl.
    apply andb_true_iff. split; [by apply is_single_ascii_spec|by apply values_match_spec].
Qed.

Lemma contains_spec content query :
  (length (as_bytes query) =? 0) || contains_ignore_case (as_bytes content) (as_bytes query) = true ↔
  found_in content (Some query).
Proof.
  unfold contains_ignore_case, found_in. rewrite orb_true_iff, Nat.eqb_eq, existsb_elem. split.
  - intros [Hz|(i & _ & Hi%bool_decide_eq_true)].
    + apply nil_length_inv in Hz. exists [], [], (as_bytes content). by rewrite Hz.
    + eexists (take i _), (take _ (drop i _)), (drop _ (drop i _)). split; [|done]. by rewrite !take_drop.
  - intros (before & hit & after & -> & Hhit). pose proof (f_equal length Hhit) as Hlen. rewrite !length_fmap in Hlen.
    right. exists (length before). split; [apply elem_of_seq; rewrite !length_app; lia|].
    apply bool_decide_eq_true. rewrite drop_app_length, <-Hlen, take_app_length. done.
Qed.

Section filter.
Context `{TagOrderLaws}.

Lemma elem_of_prepared f name wanted :
  (name, wanted) ∈ prepare_tags f ↔ ∃ values, nf_generic_tags f !! name = Some values ∧
    wanted = mkPreparedValues values (omap decode_hex_32 (ordered values)).
Proof.
  unfold prepare_tags. rewrite list_elem_of_fmap. split.
  - intros ([n v] & [= -> ->] & Hin). rewrite tags_in_order_perm in Hin. apply elem_of_map_to_list in Hin. eauto.
  - intros (values & Hv & ->). exists (name, values). split; [done|].
    rewrite tags_in_order_perm. by apply elem_of_map_to_list.
Qed.

Lemma residual_tags f indexed e :
  existsb (λ named, negb (bool_decide (indexed = MatchTag named.1)) &&
                    negb (existsb (tag_matches named.1 named.2) (e_tags e))) (prepare_tags f) = false ↔
  (∀ name values, nf_generic_tags f !! name = Some values → indexed ≠ MatchTag name → tagged e name values).
Proof.
  rewrite <-not_true_iff_false, existsb_elem. split.
  - intros Hn name values Hv Hi. apply tags_match_spec, not_false_iff_true. intros Hf. apply Hn.
    eexists (name, _). split; [apply elem_of_prepared; eauto|]. simpl. rewrite Hf. by rewrite bool_decide_eq_false_2.
  - intros Ht ([name wanted] & (values & Hv & ->)%elem_of_prepared & Hm). simpl in Hm.
    apply andb_true_iff in Hm as [Hi%negb_true_iff%bool_decide_eq_false Hf%negb_true_iff].
    by rewrite (proj2 (tags_match_spec e name values) (Ht _ _ Hv Hi)) in Hf.
Qed.

Lemma guarded_excluded `{Countable A} (indexed m : IndexedMatch) (values : option (gset A)) actual :
  negb (bool_decide (indexed = m)) && excluded values actual = false ↔ (indexed ≠ m → among values actual).
Proof.
  rewrite andb_false_iff, negb_false_iff, bool_decide_eq_true, excluded_among. split; [by intros [|]|].
  intros Hm. destruct (decide (indexed = m)); [by left|right; auto].
Qed.

Lemma time_test f e :
  match nf_since f with Some since => (e_created_at e <? since)%N | None => false end ||
  match nf_until f with Some until => (until <? e_created_at e)%N | None => false end = false ↔
  (∀ since, nf_since f = Some since → (since ≤ e_created_at e)%N) ∧
  (∀ until, nf_until f = Some until → (e_created_at e ≤ until)%N).
Proof.
  rewrite orb_false_iff. destruct (nf_since f) as [since|], (nf_until f) as [until|]; rewrite ?N.ltb_ge; naive_solver.
Qed.

Lemma guard_true (b c : bool) : (if b then false else c) = true ↔ b = false ∧ c = true.
Proof. destruct b; naive_solver. Qed.

Lemma matches_spec f indexed e :
  matches_prepared_filter_after_index f indexed e = true ↔ wants_but indexed f e.
Proof.
  unfold matches_prepared_filter_after_index, wants_but. rewrite !guard_true.
  rewrite excluded_among, !guarded_excluded, time_test, residual_tags. rewrite <-!(assoc (∧)).
  assert (Hs : match nf_search f with
    | Some query => (length (as_bytes query) =? 0) || contains_ignore_case (as_bytes (e_content e)) (as_bytes query)
    | None => true end = true ↔ found_in (e_content e) (nf_search f)).
  { destruct (nf_search f) as [query|]; [apply contains_spec|done]. }
  by rewrite Hs.
Qed.
End filter.

(** ** Every candidate plan proves its predicate *)

(** An ASCII letter, as the name of a [SingleLetterTag]. *)
Definition is_letter (c : N) : Prop := (65 ≤ c ≤ 90 ∨ 97 ≤ c ≤ 122)%N.

(** [Tag::single_letter_tag] reads a first element that is one ASCII letter, and
    [Tag::content] the second element. *)
Class TagsIndexedLaws `{EventReader} : Prop := elem_of_tags_indexed tags c v :
  (c, v) ∈ tags_indexed tags ↔ is_letter c ∧ ∃ letter rest, letter :: v :: rest ∈ tags ∧ as_bytes letter = [c].

(** The values of a [nostr::Filter] at their widths; a tag value of 4 GiB panics. *)
Record filter_typed (f : NFilter) : Prop := {
  ft_authors a A : nf_authors f = Some A → a ∈ A → (a < 2 ^ 256)%N;
  ft_kinds k K : nf_kinds f = Some K → k ∈ K → (k < 2 ^ 16)%N;
  ft_tags c V : nf_generic_tags f !! c = Some V → is_letter c;
  ft_values c V v : nf_generic_tags f !! c = Some V → v ∈ V → (N.of_nat (length (as_bytes v)) < 2 ^ 32)%N;
  ft_until until : nf_until f = Some until → (until ≤ u64_max)%N
}.

Lemma elem_of_pending_prefixes p f prefix :
  (f, prefix) ∈ pending_prefixes p ↔
  match f with
  | FGlobal => prefix = []
  | FAuthor => prefix = pe_author p
  | FKind => prefix = pe_kind p
  | FTag => prefix ∈ pe_tags p
  end.
Proof.
  unfold pending_prefixes. rewrite elem_of_app, !elem_of_cons, elem_of_nil, list_elem_of_fmap.
  setoid_rewrite elem_of_ordered. destruct f; naive_solver.
Qed.

Lemma nonempty_Some `{Countable A} (values : option (gset A)) X :
  nonempty values = Some X ↔ values = Some X ∧ X ≠ ∅.
Proof. unfold nonempty. destruct values as [Y|]; simpl; [|naive_solver]. case_decide; naive_solver. Qed.

Section plans.
Context `{TagOrderLaws, TagsIndexedLaws}.

Lemma prepared_tags e key p prefix :
  prepare e key = Some p →
  prefix ∈ pe_tags p ↔ ∃ c v, (c, v) ∈ tags_indexed (e_tags e) ∧ tag_index_prefix c v = Some prefix.
Proof.
  unfold prepare. intros (prefixes & Hm & [= <-])%bind_Some. simpl. rewrite elem_of_list_to_set.
  apply mapM_Some in Hm. split.
  - intros [i Hi]%list_elem_of_lookup. destruct (Forall2_lookup_r _ _ _ _ _ Hm Hi) as ([c v] & Hcv & Hp).
    exists c, v. split; [by eapply list_elem_of_lookup_2|done].
  - intros (c & v & [i Hi]%list_elem_of_lookup & Hp).
    destruct (Forall2_lookup_l _ _ _ _ _ Hm Hi) as (prefix' & Hi' & Hp'). simpl in Hp'.
    assert (prefix' = prefix) as -> by congruence. by eapply list_elem_of_lookup_2.
Qed.

Lemma be_bytes_among (w : nat) (x : N) (X : gset N) :
  (x < 256 ^ N.of_nat w)%N → (∀ y, y ∈ X → (y < 256 ^ N.of_nat w)%N) →
  be_bytes w x ∈ be_bytes w <$> ordered X ↔ x ∈ X.
Proof.
  intros Hx HX. rewrite list_elem_of_fmap. setoid_rewrite elem_of_ordered. split; [|by eauto].
  intros (y & E & Hy). by rewrite (be_bytes_inj w x y Hx (HX y Hy) E).
Qed.

(** The plan of each index. *)
Definition plan_of (f : NFilter) (plan : OrderedPlan) : Prop :=
  match op_index plan with
  | IndexGlobal => op_prefixes plan = [[]]
  | IndexAuthor => ∃ A, nonempty (nf_authors f) = Some A ∧ op_prefixes plan = by_author_prefix <$> ordered A
  | IndexKind => ∃ K, nonempty (nf_kinds f) = Some K ∧ op_prefixes plan = by_kind_prefix <$> ordered K
  | IndexTag c => ∃ V, nf_generic_tags f !! c = Some V ∧
      mapM (tag_index_prefix c) (ordered V) = Some (op_prefixes plan)
  end.

Lemma candidate_plan_of f plans plan :
  candidate_ordered_plans f = Some plans → plan ∈ plans → plan_of f plan.
Proof.
  unfold candidate_ordered_plans. intros (tags & Htags & [= <-])%bind_Some Hin.
  rewrite sort_by_perm, !elem_of_app, list_elem_of_singleton in Hin. apply mapM_Some in Htags.
  destruct Hin as [Ha|[Ht|[Hk| ->]]]; [| | |done].
  - destruct (nonempty (nf_authors f)) as [A|] eqn:E; [|by apply not_elem_of_nil in Ha].
    apply list_elem_of_singleton in Ha as ->. exists A. done.
  - apply list_elem_of_In, in_concat in Ht as (ps & Hps%list_elem_of_In & Hp%list_elem_of_In).
    apply list_elem_of_lookup in Hps as [i Hi].
    destruct (Forall2_lookup_r _ _ _ _ _ Htags Hi) as ([c V] & Hcv%list_elem_of_lookup_2 & Hplan).
    rewrite tags_in_order_perm in Hcv. apply elem_of_map_to_list in Hcv. unfold tag_plan in Hplan.
    case_decide; [injection Hplan as <-; by apply not_elem_of_nil in Hp|].
    apply bind_Some in Hplan as (prefixes & Hm & [= <-]). apply list_elem_of_singleton in Hp as ->. exists V. done.
  - destruct (nonempty (nf_kinds f)) as [K|] eqn:E; [|by apply not_elem_of_nil in Hk].
    apply list_elem_of_singleton in Hk as ->. exists K. done.
Qed.

Lemma candidate_total f : filter_typed f → ∃ plans, candidate_ordered_plans f = Some plans.
Proof.
  intros Hf. unfold candidate_ordered_plans.
  assert (is_Some (mapM tag_plan (tags_in_order (nf_generic_tags f)))) as [tags ->]; [|by eexists].
  apply mapM_is_Some, Forall_forall. intros [c V] Hin. rewrite tags_in_order_perm in Hin.
  apply elem_of_map_to_list in Hin. unfold compose, tag_plan. case_decide; [by eexists|].
  assert (is_Some (mapM (tag_index_prefix c) (ordered V))) as [prefixes ->]; [|by eexists].
  apply mapM_is_Some, Forall_forall. intros v Hv%elem_of_ordered. unfold compose, tag_index_prefix.
  destruct (decode_hex_32 v); [by eexists|]. rewrite (proj2 (N.ltb_lt _ _)); [by eexists|]. by eapply ft_values.
Qed.

Lemma plan_total f : filter_typed f → ∃ plan, plan_ordered_query f = Some plan ∧ plan_of f plan.
Proof.
  intros Hf. destruct (candidate_total f Hf) as [plans Hplans]. unfold plan_ordered_query. rewrite Hplans. simpl.
  destruct plans as [|plan plans].
  - unfold candidate_ordered_plans in Hplans. apply bind_Some in Hplans as (tags & _ & [= Hs]).
    apply (f_equal length) in Hs. rewrite sort_by_perm, !length_app in Hs. simpl in Hs. lia.
  - exists plan. split; [done|]. eapply candidate_plan_of; [done|]. by left.
Qed.

Lemma tag_plan_proves f e key p c V prefixes :
  prepare e key = Some p → is_letter c → nf_generic_tags f !! c = Some V →
  mapM (tag_index_prefix c) (ordered V) = Some prefixes →
  Exists (λ prefix, prefix ∈ pe_tags p) prefixes ↔ proven (MatchTag c) f e.
Proof.
  intros Hp Hc HV Hm. simpl. rewrite Exists_exists. setoid_rewrite (prepared_tags _ _ _ _ Hp). apply mapM_Some in Hm.
  transitivity (tagged e c V); [|rewrite HV; naive_solver]. unfold tagged. split.
  - intros (prefix & [i Hi]%list_elem_of_lookup & c' & v' & Hin & Hpre).
    destruct (Forall2_lookup_r _ _ _ _ _ Hm Hi) as (v & Hv%list_elem_of_lookup_2 & Hpre').
    destruct (tag_index_prefix_sep c v c' v' prefix prefix Hpre' Hpre) as [-> ->]; [done|].
    apply elem_of_tags_indexed in Hin as (_ & letter & rest & ? & ?). exists letter, v', rest.
    split_and!; [done..|]. by apply elem_of_ordered.
  - intros (letter & v & rest & Hin & Hl & [i Hi]%elem_of_ordered%list_elem_of_lookup).
    destruct (Forall2_lookup_l _ _ _ _ _ Hm Hi) as (prefix & Hpi%list_elem_of_lookup_2 & Hpre).
    exists prefix. split; [done|]. exists c, v. split; [|done]. apply elem_of_tags_indexed. eauto.
Qed.

Lemma Exists_eq_elem {A} (x : A) l : Exists (λ y, y = x) l ↔ x ∈ l.
Proof. rewrite Exists_exists. split; [by intros (? & ? & ->)|eauto]. Qed.

Lemma plan_proves f plan e key p :
  plan_of f plan → filter_typed f → event_typed e → prepare e key = Some p →
  Exists (λ prefix, (packed_family (op_index plan), prefix) ∈ pending_prefixes p) (op_prefixes plan) ↔
  proven (matched (op_index plan)) f e.
Proof.
  intros Hplan Hf (_ & Hpk & _ & Hkind) Hp. setoid_rewrite elem_of_pending_prefixes.
  pose proof Hp as (prefixes & _ & Hpe)%bind_Some. unfold plan_of in Hplan.
  destruct (op_index plan) as [| | |c]; simpl in *.
  - rewrite Hplan. split; [done|]. intros _. by constructor.
  - destruct Hplan as (A & [HA Hne]%nonempty_Some & ->). rewrite Exists_eq_elem, HA. injection Hpe as <-. simpl.
    unfold by_author_prefix. rewrite be_bytes_among; [naive_solver|done|]. intros a Ha. by eapply ft_authors.
  - destruct Hplan as (K & [HK Hne]%nonempty_Some & ->). rewrite Exists_eq_elem, HK. injection Hpe as <-. simpl.
    unfold by_kind_prefix. rewrite be_bytes_among; [naive_solver|done|]. intros k Hk. by eapply ft_kinds.
  - destruct Hplan as (V & HV & Hm). eapply tag_plan_proves; [done| |done..]. by eapply ft_tags.
Qed.
End plans.

(** ** The answer to a query *)

Definition newer (a b : StoredEvent) : Prop :=
  then_with (cmp (e_created_at (se_event b)) (e_created_at (se_event a)))
    (cmp (e_id (se_event a)) (e_id (se_event b))) = Lt.

Definition limited {A} (limit : option nat) (l : list A) : list A :=
  match limit with Some n => take n l | None => l end.

(** [rows] are the newest of the rows of [s] that satisfy [P], up to the limit. *)
Definition newest_of (s : Store) (P : StoredEvent → Prop) (limit : option nat) (rows : list StoredEvent) : Prop :=
  ∃ all, StronglySorted newer all ∧ (∀ se, se ∈ all ↔ (∃ id, st_rows s !! id = Some se) ∧ P se) ∧
    rows = limited limit all.

(** No open deletion claim suppresses the row, and the pin shows it. *)
Definition shown `{HexCodec, TagReader} (q : Queue) (pinned : option (gset RelayUrl)) (se : StoredEvent) : bool :=
  negb (is_suppressed q (se_event se)) &&
  match pinned with Some pinned => visible_under_pin (se_provenance se) pinned | None => true end.

Definition behind (before : option (N * N)) (se : StoredEvent) : Prop :=
  match before with Some before => after_cursor before se = true | None => True end.


Lemma newer_spec a b : newer a b ↔
  (e_created_at (se_event b) < e_created_at (se_event a) ∨
   e_created_at (se_event b) = e_created_at (se_event a) ∧ e_id (se_event a) < e_id (se_event b))%N.
Proof.
  unfold newer, then_with, cmp, N_ord.
  destruct (N.compare_spec (e_created_at (se_event b)) (e_created_at (se_event a))) as [E|E|E]; simpl.
  - rewrite N.compare_lt_iff. lia.
  - naive_solver.
  - split; [done|lia].
Qed.

Lemma newer_asym a b : newer a b → newer b a → False.
Proof. rewrite !newer_spec. lia. Qed.

(** A sorted part of a sorted list is the list filtered. *)
Lemma sorted_part l A :
  StronglySorted newer l → StronglySorted newer A → l ⊆ A → l = filter (λ se, se ∈ l) A.
Proof.
  intros Hl HA Hsub. eapply StronglySorted_ext; [by eapply newer_asym|done| |].
  - eapply StronglySorted_sublist; [apply sublist_filter|done].
  - intros x. rewrite list_elem_of_filter. split; [|tauto]. intros Hx. split; [done|]. by apply Hsub.
Qed.

Lemma newest_of_unique s P limit rows rows' : newest_of s P limit rows → newest_of s P limit rows' → rows = rows'.
Proof.
  intros (all & Hs & Hin & ->) (all' & Hs' & Hin' & ->). f_equal. eapply StronglySorted_ext; [by eapply newer_asym|done..|].
  intros se. by rewrite Hin, Hin'.
Qed.

Lemma newest_of_iff s P Q limit rows :
  (∀ se, (∃ id, st_rows s !! id = Some se) → P se ↔ Q se) → newest_of s P limit rows → newest_of s Q limit rows.
Proof. intros HPQ (all & Hs & Hin & ->). exists all. split_and!; [done| |done]. intros se. rewrite Hin. naive_solver. Qed.

Lemma newest_of_in s P limit rows se :
  newest_of s P limit rows → se ∈ rows → (∃ id, st_rows s !! id = Some se) ∧ P se.
Proof.
  intros (all & _ & Hin & ->) Hse. apply Hin. destruct limit as [n|]; [|done].
  by apply elem_of_take in Hse as (i & ?%list_elem_of_lookup_2 & _).
Qed.

Lemma first_visible_omap {T} (project : N → N → option (option T)) (g : RunEvent → option T) limit evs :
  (∀ e, e ∈ evs → project (re_event_key e) (re_id e) = Some (g e)) →
  first_visible project limit evs = Some (limited limit (omap g evs)).
Proof.
  revert limit. induction evs as [|e evs IH]; intros limit Hg.
  { rewrite first_visible_nil. by destruct limit as [[]|]. }
  destruct (decide (limit = Some 0)) as [->|Hl]; [by rewrite first_visible_full|].
  rewrite first_visible_cons by done. rewrite Hg by (by left). cbn [mbind option_bind omap list_omap].
  assert (Hevs : ∀ limit, first_visible project limit evs = Some (limited limit (omap g evs))).
  { intros l. apply IH. intros e' He'. apply Hg. by right. }
  destruct (g e) as [x|]; rewrite Hevs; [|done]. cbn [mbind option_bind].
  by destruct limit as [[|n]|].
Qed.

Section queries.
Context `{ShardHash, HexCodec, TagReader, TagsIndexedLaws, RelayParserLaws, TagOrderLaws}.
Context (pk : PackedStore) (t : Txn Canonical) (s : Store) (Hdb : db_ok pk t s) (Hty : rows_typed t).

Lemma db_live : ∃ next live, packs pk next live ∧
  ∀ key, live !! key = rows_view (t_canonical t) !! key ≫= λ se, prepare (se_event se) key.
Proof using All.
  destruct Hdb as (Hb & durable & Hr & _ & Hp). exists (du_next durable), (du_live durable). split; [done|].
  intros key. transitivity (posted durable (t_postings t) key); [|apply (ix_posted _ _ (rp_indexed _ _ _ Hr))].
  unfold posted. rewrite Hb. simpl. by rewrite lookup_empty, decide_False by set_solver.
Qed.

Lemma db_wf : canonical_wf (t_canonical t).
Proof using All. destruct Hdb as (_ & durable & Hr & _). exact (ix_wf _ _ (rp_indexed _ _ _ Hr)). Qed.

Lemma db_rows se : (∃ id, st_rows s !! id = Some se) ↔ ∃ key, rows_view (t_canonical t) !! key = Some se.
Proof using All.
  destruct Hdb as (_ & durable & Hr & _). setoid_rewrite (rp_rows _ _ _ Hr). simpl. naive_solver.
Qed.

Lemma db_indexable key se : rows_view (t_canonical t) !! key = Some se → indexable (se_event se).
Proof using All. destruct Hdb as (_ & durable & Hr & _). apply (ix_indexable _ _ (rp_indexed _ _ _ Hr)). Qed.

(** ** One row *)

Lemma decode_row_spec key e :
  c_rows (t_canonical t) !! key = Some e →
  decode_row t key e (c_locals (t_canonical t) !! key) = rows_view (t_canonical t) !! key.
Proof using All.
  intros He. pose proof (cs_load_spec (t_canonical t) key db_wf) as Hl. simpl in Hl. unfold load_by_key in Hl.
  rewrite He in Hl. unfold decode_row. apply bind_Some in Hl as (seen & -> & [= <-]). done.
Qed.

Lemma pinned_carried key se pinned :
  rows_view (t_canonical t) !! key = Some se →
  carried_by_pinned t key (pinned_relay_keys t pinned) = bool_decide (dom (pv_seen (se_provenance se)) ∩ pinned ≠ ∅).
Proof using All.
  rewrite lookup_rows_view. intros (e & _ & ->)%fmap_Some. cbn [se_provenance pv_seen].
  apply eq_bool_prop_intro. rewrite bool_decide_spec, Is_true_true. unfold carried_by_pinned, pinned_relay_keys.
  rewrite existsb_elem. setoid_rewrite elem_of_ordered. setoid_rewrite elem_of_list_to_set.
  setoid_rewrite list_elem_of_omap. setoid_rewrite elem_of_ordered. setoid_rewrite bool_decide_eq_true. split.
  - intros (relay_key & (relay & Hrel & Hk) & at_ & Hobs). apply (non_empty_inhabited_L relay), elem_of_intersection.
    split; [|done]. apply elem_of_dom. exists at_. by rewrite lookup_seen_map, Hk.
  - intros (relay & [[at_ Hat]%elem_of_dom Hp]%elem_of_intersection)%set_choose_L.
    rewrite lookup_seen_map in Hat. apply bind_Some in Hat as (relay_key & Hk & Hobs). eauto 8.
Qed.

(** The closure lets a row through iff the residual filter and the pin do. *)
Lemma visible_spec plan f pinned key se :
  rows_view (t_canonical t) !! key = Some se →
  materialize_if_visible t plan f (pinned_relay_keys t <$> pinned) key =
  Some (if matches_prepared_filter_after_index f (matched (op_index plan)) (se_event se) && shown (t_queue t) pinned se
        then Some se else None).
Proof using All.
  intros Hse. pose proof Hse as Hrow. rewrite lookup_rows_view in Hrow. apply fmap_Some in Hrow as (e & He & Hs).
  unfold materialize_if_visible, shown. rewrite He. cbn [mbind option_bind].
  rewrite decode_row_spec, Hse by done. cbn [mbind option_bind].
  assert (e = se_event se) as -> by (by rewrite Hs).
  assert (Hpin : match pinned_relay_keys t <$> pinned with
    | Some keys => negb (carried_by_pinned t key keys) && bool_decide (c_locals (t_canonical t) !! key = None)
    | None => false end = negb match pinned with Some pinned => visible_under_pin (se_provenance se) pinned | None => true end).
  { destruct pinned as [pinned|]; [|done]. cbn [fmap option_fmap option_map]. rewrite (pinned_carried key se) by done.
    unfold visible_under_pin. assert (pv_local (se_provenance se) = c_locals (t_canonical t) !! key) as -> by (by rewrite Hs).
    destruct (c_locals (t_canonical t) !! key), (bool_decide (dom _ ∩ pinned ≠ ∅)); done. }
  rewrite Hpin. destruct (match pinned with Some _ => _ | None => _ end); cbn [negb]; [|by rewrite !andb_false_r].
  rewrite andb_true_r. destruct (matches_prepared_filter_after_index _ _ _), (is_suppressed _ _); done.
Qed.

(** ** The ordered scan *)

Lemma target_order_behind se key t0 p :
  prepare (se_event se) key = Some p → event_typed (se_event se) →
  target_order t0 (pending_run_event p) = Gt ↔ after_cursor t0 se = true.
Proof using.
  intros (prefixes & _ & [= <-])%bind_Some (Hid & _). unfold pending_run_event. simpl.
  rewrite from_to_be_bytes by done. rewrite target_order_Gt. unfold after_cursor. simpl.
  rewrite orb_true_iff, andb_true_iff, !N.ltb_lt, N.eqb_eq. lia.
Qed.

(** What the scan of a plan admits of the postings of a row. *)
Lemma scan_admits plan f before limit se key p :
  plan_of f plan → filter_typed f → event_typed (se_event se) → prepare (se_event se) key = Some p →
  scan_wanted (mkPackedScan (packed_family (op_index plan)) (op_prefixes plan) (default 0%N (nf_since f))
                 (default u64_max (nf_until f)) before limit) p ∧ wants_but (matched (op_index plan)) f (se_event se) ↔
  wants f (se_event se) ∧ behind before se.
Proof using All.
  intros Hplan Hf He Hp. rewrite (wants_split (matched (op_index plan)) f). unfold scan_wanted, cursor_admits.
  cbn [ps_family ps_prefixes ps_since ps_until ps_before]. rewrite (plan_proves f plan (se_event se) key p) by done.
  assert (Hcur : match before with Some t0 => target_order t0 (pending_run_event p) = Gt | None => True end ↔ behind before se).
  { destruct before as [t0|]; [|done]. by apply target_order_behind with key. }
  rewrite Hcur. assert (Hat : re_created_at (pending_run_event p) = e_created_at (se_event se)).
  { apply bind_Some in Hp as (prefixes & _ & [= <-]). done. }
  rewrite Hat. split; [tauto|]. intros [[Hw Hpr] Hb]. split; [|done]. split; [done|]. split; [|done].
  destruct He as (_ & _ & Hu & _), Hw as (_ & _ & _ & Hs & Hun & _). split.
  - destruct (nf_since f); simpl; [by apply Hs|lia].
  - destruct (nf_until f); simpl; [by apply Hun|done].
Qed.

(** [e] is the entry of the row [se] in the index. *)
Definition entry_of (e : RunEvent) (se : StoredEvent) : Prop :=
  rows_view (t_canonical t) !! re_event_key e = Some se ∧
  re_created_at e = e_created_at (se_event se) ∧ re_id e = e_id (se_event se).

Lemma prepared_entry key se p :
  rows_view (t_canonical t) !! key = Some se → prepare (se_event se) key = Some p → entry_of (pending_run_event p) se.
Proof using All.
  intros Hse Hp. destruct (Hty key se Hse) as [He Hu]. destruct (prepared_typed se key p He Hu Hp) as [[Hkey _] Hid].
  unfold entry_of. simpl. rewrite Hkey. split_and!; [done| |done].
  apply bind_Some in Hp as (prefixes & _ & [= <-]). done.
Qed.

Lemma entry_newer e e' se se' : entry_of e se → entry_of e' se' → cmp_lt e e' → newer se se'.
Proof using All.
  intros (Hr & Hc & Hi) (Hr' & Hc' & Hi') Hlt. rewrite newer_spec, <-Hc, <-Hc', <-Hi, <-Hi'.
  unfold cmp_lt, cmp, RunEvent_ord, canonical_order, then_with, cmp, N_ord in Hlt.
  destruct (N.compare_spec (re_created_at e') (re_created_at e)); [|by left|done].
  destruct (N.compare_spec (re_id e) (re_id e')) as [Hid| |]; [|by right|done].
  assert (re_event_key e = re_event_key e') as Hk; [|rewrite Hk, N.compare_refl in Hlt; done].
  assert (∀ k r, rows_view (t_canonical t) !! k = Some r → key_for_id (t_canonical t) (e_id (se_event r)) = Some k) as Hkey
    by (intros k r Hk; apply (key_for_id_spec _ _ _ db_wf); eauto).
  apply Hkey in Hr, Hr'. congruence.
Qed.

Lemma query_ordered_spec plan f before limit pinned :
  plan_of f plan → filter_typed f →
  ∃ rows, query_ordered pk t plan f before limit pinned = Some rows ∧
    newest_of s (λ se, wants f (se_event se) ∧ behind before se ∧ shown (t_queue t) pinned se = true) limit rows.
Proof using All.
  intros Hplan Hf. destruct db_live as (next & live & Hpk & Hlive). unfold query_ordered.
  set (scan := mkPackedScan _ _ _ _ _ _). rewrite (scan_packed_spec pk next live Hpk).
  set (pass := λ se, matches_prepared_filter_after_index f (matched (op_index plan)) (se_event se) &&
                     shown (t_queue t) pinned se).
  set (g := λ e : RunEvent, se ← rows_view (t_canonical t) !! re_event_key e; if pass se then Some se else None).
  assert (Hev : ∀ e, e ∈ scan_matches live scan ↔ ∃ key se p, rows_view (t_canonical t) !! key = Some se ∧
    prepare (se_event se) key = Some p ∧ scan_wanted scan p ∧ e = pending_run_event p).
  { intros e. rewrite elem_of_matches. split.
    - intros (key & p & Hk & Hw & ->). rewrite Hlive in Hk. apply bind_Some in Hk as (se & ? & ?). by exists key, se, p.
    - intros (key & se & p & Hse & Hp & Hw & ->). exists key, p. by rewrite Hlive, Hse. }
  assert (Hg : ∀ e, e ∈ scan_matches live scan → ∃ se, entry_of e se ∧ g e = if pass se then Some se else None).
  { intros e (key & se & p & Hse & Hp & _ & ->)%Hev. exists se.
    pose proof (prepared_entry key se p Hse Hp) as He. split; [done|]. unfold g. by rewrite (proj1 He). }
  rewrite (first_visible_omap _ g).
  2:{ intros e He. destruct (Hg e He) as (se & (Hse & _) & ->). by rewrite (visible_spec plan f pinned _ se Hse). }
  eexists. split; [done|]. exists (omap g (scan_matches live scan)). split_and!; [| |done].
  - eapply StronglySorted_omap; [by eapply matches_sorted|]. intros x y a b Hx Hy Hlt Ha Hb.
    destruct (Hg x Hx) as (se & He & Hgx), (Hg y Hy) as (se' & He' & Hgy). rewrite Hgx in Ha. rewrite Hgy in Hb.
    destruct (pass se), (pass se'); simplify_eq. by eapply entry_newer.
  - intros se. rewrite db_rows, list_elem_of_omap. split.
    + intros (e & He & Hge). apply Hev in He as (key & se' & p & Hse & Hp & Hw & ->).
      pose proof (prepared_entry key se' p Hse Hp) as (Hse' & _). unfold g in Hge. rewrite Hse' in Hge. simpl in Hge.
      destruct (pass se') eqn:Hpass; [|done]. injection Hge as <-.
      apply andb_true_iff in Hpass as [Hm%matches_spec Hsh]. destruct (Hty key se' Hse) as [He' _].
      destruct (proj1 (scan_admits plan f before limit se' key p Hplan Hf He' Hp) (conj Hw Hm)). eauto.
    + intros ([key Hse] & Hwant & Hb & Hsh). destruct (db_indexable key se Hse key) as [p Hp].
      destruct (Hty key se Hse) as [He' _].
      destruct (proj2 (scan_admits plan f before limit se key p Hplan Hf He' Hp) (conj Hwant Hb)) as [Hw Hm].
      exists (pending_run_event p). split; [apply Hev; by exists key, se, p|].
      pose proof (prepared_entry key se p Hse Hp) as (Hse' & _). unfold g. rewrite Hse'. simpl.
      assert (pass se = true) as ->; [|done]. unfold pass. rewrite Hsh, andb_true_r. by apply matches_spec.
Qed.

(** ** Exact ids *)

Lemma db_ids id se : st_rows s !! id = Some se ↔
  ∃ key, c_event_ids (t_canonical t) !! id = Some key ∧ rows_view (t_canonical t) !! key = Some se.
Proof using All.
  destruct Hdb as (_ & durable & Hr & _). rewrite (rp_rows _ _ _ Hr). pose proof db_wf as Hwf.
  change (cs_rows (t_canonical t)) with (rows_view (t_canonical t)). split.
  - intros (key & Hse & Hid). exists key. split; [|done]. apply (key_for_id_spec _ id key Hwf). eauto.
  - intros (key & Hk & Hse). exists key. split; [done|]. apply (key_for_id_spec _ id key Hwf) in Hk as (se' & Hse' & Hid).
    congruence.
Qed.

Lemma db_id id se : st_rows s !! id = Some se → e_id (se_event se) = id.
Proof using All. destruct Hdb as (_ & durable & Hr & _). by intros (key & _ & Hid)%(rp_rows _ _ _ Hr). Qed.

Lemma query_id_spec f id :
  query_id t f id = Some (match st_rows s !! id with
    | Some se => if matches_prepared_filter_after_index f MatchNone (se_event se) && shown (t_queue t) None se
                 then [se] else []
    | None => []
    end).
Proof using All.
  unfold query_id, shown. destruct (c_event_ids (t_canonical t) !! id) as [key|] eqn:Ek.
  - pose proof Ek as (se & Hse & Hid)%(key_for_id_spec _ id key db_wf).
    rewrite (proj2 (db_ids id se)) by eauto. pose proof Hse as Hrow. rewrite lookup_rows_view in Hrow.
    apply fmap_Some in Hrow as (e & He & Hs). rewrite He. cbn [mbind option_bind].
    rewrite decode_row_spec, Hse by done. cbn [mbind option_bind]. assert (e = se_event se) as -> by (by rewrite Hs).
    rewrite andb_true_r. destruct (matches_prepared_filter_after_index _ _ _), (is_suppressed _ _); done.
  - destruct (st_rows s !! id) as [se|] eqn:Es; [|done]. apply db_ids in Es as (key & Hk & _). congruence.
Qed.

Lemma unmatchable_wants f e : unmatchable f = true → ¬ wants f e.
Proof using All.
  unfold unmatchable, wants, wants_but. rewrite orb_true_iff, bool_decide_eq_true.
  intros [Ht|(name & values & Hv & Hempty)%map_Exists_lookup_1] (_ & _ & _ & Hs & Hu & Htags & _).
  - destruct (nf_since f) as [since|], (nf_until f) as [until|]; try done. apply N.ltb_lt in Ht.
    specialize (Hs _ eq_refl). specialize (Hu _ eq_refl). lia.
  - destruct (Htags name values Hv) as (letter & value & rest & _ & _ & Hin); [done|]. set_solver.
Qed.

Lemma newest_of_none P limit : (∀ se, ¬ P se) → newest_of s P limit [].
Proof using.
  intros Hn. exists []. split_and!; [constructor| |by destruct limit as [[]|]].
  intros se. split; [by intros ?%not_elem_of_nil|by intros [_ ?%Hn]].
Qed.

Lemma newest_of_zero P : (∃ all, newest_of s P None all) → newest_of s P (Some 0) [].
Proof using. intros (all & l & Hs & Hin & ->). by exists l. Qed.

(** ** The doors *)

(** What a query of a filter selects. *)
Definition selected (f : NFilter) (before : option (N * N)) (pinned : option (gset RelayUrl)) (se : StoredEvent) : Prop :=
  wants f (se_event se) ∧ behind before se ∧ shown (t_queue t) pinned se = true.

Lemma ordered_query f before limit pinned :
  filter_typed f →
  ∃ rows, (plan ← plan_ordered_query f; query_ordered pk t plan f before limit pinned) = Some rows ∧
    newest_of s (selected f before pinned) limit rows.
Proof using All.
  intros Hf. destruct (plan_total f Hf) as (plan & -> & Hplan). by apply query_ordered_spec.
Qed.

Lemma newest_of_empty f before pinned limit :
  filter_typed f → limit = 0 ∨ unmatchable f = true → newest_of s (selected f before pinned) (Some limit) [].
Proof using All.
  intros Hf [->|Hu].
  - apply newest_of_zero. destruct (ordered_query f before None pinned Hf) as (rows & _ & ?). eauto.
  - apply newest_of_none. intros se [Hw _]. by eapply unmatchable_wants.
Qed.

Lemma newest_first_spec a b :
  newest_first a b = true ↔ newer a b ∨
    e_created_at (se_event a) = e_created_at (se_event b) ∧ e_id (se_event a) = e_id (se_event b).
Proof using.
  unfold newest_first. rewrite bool_decide_eq_true, newer_spec. unfold then_with, cmp, N_ord.
  destruct (N.compare_spec (e_created_at (se_event b)) (e_created_at (se_event a)));
    destruct (N.compare_spec (e_id (se_event a)) (e_id (se_event b))); split; intros; try done; lia.
Qed.

(** Rows of the store, sorted, are strictly sorted. *)
Lemma sort_newer rows :
  NoDup rows → (∀ se, se ∈ rows → ∃ id, st_rows s !! id = Some se) → StronglySorted newer (sort_by newest_first rows).
Proof using All.
  intros Hnd Hin. assert (StronglySorted (λ x y, newest_first x y = true) (sort_by newest_first rows)) as Hs.
  { apply sort_by_strongly; intros *; rewrite !newest_first_spec, !newer_spec; lia. }
  rewrite <-(sort_by_perm newest_first rows) in Hnd. setoid_rewrite <-(sort_by_perm newest_first rows) in Hin.
  induction Hs as [|x l Hl IH Hx]; [constructor|]. apply NoDup_cons in Hnd as [Hn Hnd].
  constructor; [apply IH; [done|]; intros; apply Hin; by right|]. rewrite Forall_forall in Hx |- *.
  intros y Hy. destruct (proj1 (newest_first_spec x y) (Hx y Hy)) as [|[_ Hid]]; [done|]. exfalso. apply Hn.
  destruct (Hin x) as [i Hi]; [by left|]. destruct (Hin y) as [j Hj]; [by right|].
  rewrite (db_id i x Hi), (db_id j y Hj) in Hid. subst. by assert (x = y) as -> by congruence.
Qed.

Lemma sorted_newest_of rows P limit :
  NoDup rows → (∀ se, se ∈ rows ↔ (∃ id, st_rows s !! id = Some se) ∧ P se) →
  newest_of s P (Some limit) (take limit (sort_by newest_first rows)).
Proof using All.
  intros Hnd Hin. exists (sort_by newest_first rows). split_and!; [|intros se; by rewrite sort_by_perm|done].
  apply sort_newer; [done|]. intros se ?%Hin. naive_solver.
Qed.

Lemma newest_of_NoDup P rows : newest_of s P None rows → NoDup rows.
Proof using.
  intros (all & Hs & _ & ->). simpl. induction Hs as [|x l Hl IH Hx]; constructor; [|done].
  rewrite Forall_forall in Hx. intros Hin. pose proof (Hx x Hin) as Hn. rewrite newer_spec in Hn. lia.
Qed.

(** The rows the exact-id path makes of one id. *)
Definition row_of (f : NFilter) (id : EventId) : list StoredEvent :=
  match st_rows s !! id with
  | Some se => if matches_prepared_filter_after_index f MatchNone (se_event se) && shown (t_queue t) None se
               then [se] else []
  | None => []
  end.

Lemma elem_of_row_of f id se : se ∈ row_of f id ↔ st_rows s !! id = Some se ∧ selected f None None se.
Proof using All.
  unfold row_of, selected, behind, wants. rewrite <-matches_spec. destruct (st_rows s !! id) as [se'|]; [|set_solver].
  destruct (matches_prepared_filter_after_index f MatchNone (se_event se')) eqn:Em, (shown (t_queue t) None se') eqn:Es;
    simpl; rewrite ?list_elem_of_singleton, ?elem_of_nil; (split; [intros Hse; try done|intros ([= ->] & ? & _ & ?)]);
    (congruence || by rewrite Hse).
Qed.

Lemma query_by_ids f ids :
  nonempty (nf_ids f) = Some ids →
  ∃ rows, (rows ← mapM (query_id t f) (ordered ids); Some (concat rows)) = Some rows ∧ NoDup rows ∧
    ∀ se, se ∈ rows ↔ (∃ id, st_rows s !! id = Some se) ∧ selected f None None se.
Proof using All.
  intros [Hids Hne]%nonempty_Some. exists (ordered ids ≫= row_of f). split_and!.
  - assert (∀ l, mapM (query_id t f) l = Some (row_of f <$> l)) as Hm.
    { induction l as [|id l IH]; [done|]. cbn [mapM]. rewrite query_id_spec. cbn [mbind option_bind]. by rewrite IH. }
    rewrite Hm. cbn [mbind option_bind]. f_equal. clear Hm. induction (ordered ids) as [|id l IH]; [done|]. rewrite fmap_cons, bind_cons. cbn [concat]. by rewrite IH.
  - apply NoDup_bind; [| |apply NoDup_ordered].
    + intros id id' se _ _ [Hid _]%elem_of_row_of [Hid' _]%elem_of_row_of. apply db_id in Hid, Hid'. congruence.
    + intros id _. unfold row_of. destruct (st_rows s !! id); [|constructor]. destruct (_ && _); repeat constructor. set_solver.
  - intros se. rewrite list_elem_of_bind. setoid_rewrite elem_of_row_of. setoid_rewrite elem_of_ordered. split; [naive_solver|].
    intros [[id Hid] Hsel]. exists id. split; [done|]. destruct Hsel as [(Ha & _) _]. rewrite Hids in Ha.
    rewrite (db_id id se Hid) in Ha. by destruct Ha.
Qed.

Lemma query_spec f :
  filter_typed f →
  ∃ rows, query pk t f = Some rows ∧ NoDup rows ∧
    ∀ se, se ∈ rows ↔ (∃ id, st_rows s !! id = Some se) ∧ selected f None None se.
Proof using All.
  intros Hf. unfold query. destruct (unmatchable f) eqn:Hu.
  { exists []. split_and!; [done|constructor|]. intros se. split; [by intros ?%not_elem_of_nil|].
    intros [_ [Hw _]]. by eapply unmatchable_wants in Hw. }
  destruct (nonempty (nf_ids f)) as [ids|] eqn:Hids; [by apply query_by_ids|].
  destruct (ordered_query f None None None Hf) as (rows & -> & Hn). exists rows. split_and!; [done| |].
  - by eapply newest_of_NoDup.
  - destruct Hn as (all & _ & Hin & ->). exact Hin.
Qed.

(** What every door with a limit does, given the rows [keep] lets through. *)
Lemma door_spec f before pinned limit (keep : StoredEvent → bool) :
  filter_typed f →
  (∀ se, selected f before pinned se ↔ selected f None None se ∧ keep se = true) →
  ∃ rows, (if (limit =? 0) || unmatchable f then Some []
           else match nonempty (nf_ids f) with
                | Some _ => rows ← query pk t f; Some (take limit (sort_by newest_first (filter keep rows)))
                | None => plan ← plan_ordered_query f; query_ordered pk t plan f before (Some limit) pinned
                end) = Some rows ∧
    newest_of s (selected f before pinned) (Some limit) rows.
Proof using All.
  intros Hf Hkeep. destruct ((limit =? 0) || unmatchable f) eqn:Hno.
  { exists []. split; [done|]. apply newest_of_empty; [done|]. apply orb_true_iff in Hno. by rewrite Nat.eqb_eq in Hno. }
  destruct (nonempty (nf_ids f)) as [ids|]; [|by apply ordered_query].
  destruct (query_spec f Hf) as (rows & -> & Hnd & Hin). eexists. split; [done|].
  apply sorted_newest_of; [by apply NoDup_filter|]. intros se.
  rewrite list_elem_of_filter, Hin, Hkeep, Is_true_true. tauto.
Qed.

Lemma query_newest_spec f limit :
  filter_typed f →
  ∃ rows, query_newest pk t f limit = Some rows ∧ newest_of s (selected f None None) (Some limit) rows.
Proof using All.
  intros Hf. destruct (door_spec f None None limit (λ _, true) Hf) as (rows & Hrun & Hn); [naive_solver|].
  exists rows. split; [|done]. rewrite <-Hrun. unfold query_newest.
  destruct (_ || _); [done|]. destruct (nonempty (nf_ids f)); [|done]. destruct (query pk t f) as [all|]; [|done].
  cbn [mbind option_bind]. do 3 f_equal. clear. induction all as [|se all IH]; [done|].
  rewrite filter_cons_True by done. by rewrite <-IH.
Qed.

Lemma query_newest_under_pin_spec f pinned limit :
  filter_typed f →
  ∃ rows, query_newest_under_pin pk t f pinned limit = Some rows ∧
    newest_of s (selected f None (Some pinned)) (Some limit) rows.
Proof using All.
  intros Hf. apply (door_spec f None (Some pinned) limit (λ se, visible_under_pin (se_provenance se) pinned) Hf).
  intros se. unfold selected, shown. rewrite !andb_true_iff. naive_solver.
Qed.

Lemma query_newest_before_spec f before limit :
  filter_typed f →
  ∃ rows, query_newest_before pk t f before limit = Some rows ∧
    newest_of s (selected f (Some before) None) (Some limit) rows.
Proof using All.
  intros Hf. apply (door_spec f (Some before) None limit (after_cursor before) Hf). unfold selected, behind. naive_solver.
Qed.

Lemma query_newest_before_under_pin_spec f pinned before limit :
  filter_typed f →
  ∃ rows, query_newest_before_under_pin pk t f pinned before limit = Some rows ∧
    newest_of s (selected f (Some before) (Some pinned)) (Some limit) rows.
Proof using All.
  intros Hf.
  apply (door_spec f (Some before) (Some pinned) limit
           (λ se, after_cursor before se && visible_under_pin (se_provenance se) pinned) Hf).
  intros se. unfold selected, shown, behind. rewrite !andb_true_iff. naive_solver.
Qed.

(** ** The union of filters *)

(** A list of the rows any of the filters selects. *)
Lemma union_rows {F} (P : F → StoredEvent → Prop) (filters : list F) :
  (∀ f, f ∈ filters → ∃ rows, newest_of s (P f) None rows) →
  ∃ rows, NoDup rows ∧ ∀ se, se ∈ rows ↔ (∃ id, st_rows s !! id = Some se) ∧ ∃ f, f ∈ filters ∧ P f se.
Proof using All.
  intros Hall. induction filters as [|f filters IH].
  { exists []. split; [constructor|]. set_solver. }
  destruct IH as (rows & _ & Hin); [intros f' Hf'; apply Hall; by right|].
  destruct (Hall f) as (? & rows' & _ & Hin' & ->); [by left|]. exists (remove_dups (rows' ++ rows)).
  split; [apply NoDup_remove_dups|]. intros se. rewrite elem_of_remove_dups, elem_of_app, Hin, Hin'. set_solver.
Qed.

Lemma merge_rows_lookup by_id rows :
  (∀ id se, by_id !! id = Some se → e_id (se_event se) = id) →
  (∀ se, se ∈ rows → ∃ id, st_rows s !! id = Some se) →
  (∀ id se, by_id !! id = Some se → st_rows s !! id = Some se) →
  ∀ id se, merge_rows by_id rows !! id = Some se ↔ by_id !! id = Some se ∨ (se ∈ rows ∧ e_id (se_event se) = id).
Proof using All.
  unfold merge_rows. revert by_id. induction rows as [|row rows IH]; intros by_id Hid Hrows Hby id se; simpl; [set_solver|].
  assert (Hrow : st_rows s !! e_id (se_event row) = Some row).
  { destruct (Hrows row) as [i Hi]; [by left|]. by rewrite (db_id i row Hi). }
  destruct (by_id !! e_id (se_event row)) as [old|] eqn:E.
  - assert (old = row) as -> by (apply Hby in E; congruence).
    rewrite IH; [|done|intros; apply Hrows; by right|done]. rewrite elem_of_cons.
    split; [naive_solver|]. intros [|[[->|] <-]]; [by left|by left|by right].
  - rewrite IH; [|..].
    + rewrite lookup_insert_Some, elem_of_cons. naive_solver congruence.
    + intros i r [[<- <-]|[_ ?]]%lookup_insert_Some; [done|by apply Hid].
    + intros; apply Hrows; by right.
    + intros i r [[<- <-]|[_ ?]]%lookup_insert_Some; [done|by apply Hby].
Qed.

(** The map of rows the doors of the filters fill. *)
Lemma union_map {F} (door : F → option (list StoredEvent)) (rows_of : F → list StoredEvent) (filters : list F) :
  (∀ f, f ∈ filters → door f = Some (rows_of f)) →
  (∀ f se, f ∈ filters → se ∈ rows_of f → ∃ id, st_rows s !! id = Some se) →
  ∃ by_id, foldl (λ o f, by_id ← o; rows ← door f; Some (merge_rows by_id rows)) (Some ∅) filters = Some by_id ∧
    ∀ id se, by_id !! id = Some se ↔ e_id (se_event se) = id ∧ ∃ f, f ∈ filters ∧ se ∈ rows_of f.
Proof using All.
  intros Hdoor Hrows.
  destruct (foldl_option_ind (λ by_id f, rows ← door f; Some (merge_rows by_id rows)) (λ pre by_id,
    ∀ id se, by_id !! id = Some se ↔ e_id (se_event se) = id ∧ ∃ f, f ∈ pre ∧ se ∈ rows_of f) filters ∅)
    as (by_id & ? & ?); [set_solver| |by exists by_id].
  intros pre f post by_id Hl Hinv. assert (f ∈ filters) as Hf by (rewrite Hl; set_solver).
  rewrite (Hdoor f Hf). cbn [mbind option_bind]. eexists. split; [done|]. intros id se.
  rewrite merge_rows_lookup.
  - rewrite Hinv. setoid_rewrite elem_of_app. setoid_rewrite list_elem_of_singleton. naive_solver.
  - intros i r Hr. by apply Hinv in Hr as [? _].
  - intros r Hr. by apply (Hrows f).
  - intros i r (Hid & f' & Hf' & Hr)%Hinv. destruct (Hrows f' r) as [j Hj]; [rewrite Hl; set_solver|done|].
    by rewrite <-Hid, (db_id j r Hj).
Qed.

(** The first [limit] rows of the union are among the first [limit] rows of the
    filters. *)
Lemma union_newest {F} (P : F → StoredEvent → Prop) (rows_of : F → list StoredEvent) (filters : list F) rows limit :
  (∀ f, f ∈ filters → newest_of s (P f) (Some limit) (rows_of f)) →
  NoDup rows → (∀ se, se ∈ rows ↔ ∃ f, f ∈ filters ∧ se ∈ rows_of f) →
  newest_of s (λ se, ∃ f, f ∈ filters ∧ P f se) (Some limit) (take limit (sort_by newest_first rows)).
Proof using All.
  intros Hnew Hnd Hin.
  assert (Hfull : ∀ f, f ∈ filters → ∃ rows, newest_of s (P f) None rows).
  { intros f Hf. destruct (Hnew f Hf) as (all & Hs & Hall & _). exists all. by exists all. }
  destruct (union_rows P filters Hfull) as (union & Hnd' & Hunion).
  set (A := sort_by newest_first union).
  assert (HA : ∀ se, se ∈ A ↔ (∃ id, st_rows s !! id = Some se) ∧ ∃ f, f ∈ filters ∧ P f se)
    by (intros se; unfold A; by rewrite sort_by_perm).
  assert (HAs : StronglySorted newer A) by (apply sort_newer; [done|]; intros se [? _]%Hunion; done).
  assert (Hsub : ∀ f se, f ∈ filters → se ∈ rows_of f → (∃ id, st_rows s !! id = Some se) ∧ P f se).
  { intros f se Hf. apply newest_of_in with (Some limit). by apply Hnew. }
  exists A. split_and!; [done..|]. simpl.
  rewrite (sorted_part (sort_by newest_first rows) A); [apply take_filter_all, Forall_forall| |done|].
  - intros se Hse. rewrite sort_by_perm, Hin. assert (se ∈ A) as (_ & f & Hf & Hp)%HA.
    { by apply elem_of_take in Hse as (i & ?%list_elem_of_lookup_2 & _). }
    exists f. split; [done|]. destruct (Hnew f Hf) as (all & Hs & Hall & ->). simpl.
    rewrite (sorted_part all A); [apply elem_of_take_filter; [done|]|done..|].
    + apply Hall. split; [|done]. apply HA. by apply elem_of_take in Hse as (i & ?%list_elem_of_lookup_2 & _).
    + intros x [Hx Hpx]%Hall. apply HA. eauto.
  - apply sort_newer; [done|]. intros se (f & Hf & Hse)%Hin. by apply (Hsub f se Hf).
  - intros se Hse. rewrite sort_by_perm in Hse. apply Hin in Hse as (f & Hf & Hse). apply HA.
    destruct (Hsub f se Hf Hse). eauto.
Qed.

Lemma query_any_spec (door : NFilter → option (list StoredEvent)) P filters limit :
  (∀ f, f ∈ filters → ∃ rows, door f = Some rows ∧ newest_of s (P f) (Some limit) rows) →
  ∃ rows, query_any door filters limit = Some rows ∧
    newest_of s (λ se, ∃ f, f ∈ filters ∧ P f se) (Some limit) rows.
Proof using All.
  intros Hdoor. set (rows_of := λ f, default [] (door f)).
  assert (Hrun : ∀ f, f ∈ filters → door f = Some (rows_of f) ∧ newest_of s (P f) (Some limit) (rows_of f)).
  { intros f Hf. destruct (Hdoor f Hf) as (rows & E & Hn). unfold rows_of. by rewrite E. }
  assert (Hst : ∀ f se, f ∈ filters → se ∈ rows_of f → ∃ id, st_rows s !! id = Some se).
  { intros f se Hf Hse. destruct (Hrun f Hf) as (_ & Hn). by apply (newest_of_in _ _ _ _ _ Hn) in Hse as [? _]. }
  unfold query_any. destruct ((limit =? 0) || (length filters =? 0)) eqn:Hno.
  - exists []. split; [done|]. rewrite <-(take_nil limit : take limit (sort_by newest_first []) = []).
    apply (union_newest P rows_of filters [] limit); [by apply Hrun|constructor|]. intros se.
    split; [by intros ?%not_elem_of_nil|]. intros (f & Hf & Hse). exfalso.
    apply orb_true_iff in Hno as [->%Nat.eqb_eq|Hl%Nat.eqb_eq%nil_length_inv].
    + destruct (Hrun f Hf) as (_ & all & _ & _ & E). rewrite E in Hse. by apply not_elem_of_nil in Hse.
    + rewrite Hl in Hf. by apply not_elem_of_nil in Hf.
  - destruct (union_map door rows_of filters) as (by_id & -> & Hby); [by apply Hrun|done|]. cbn [mbind option_bind].
    eexists. split; [done|]. apply (union_newest P rows_of filters _ limit); [by apply Hrun| |].
    + apply NoDup_fmap_2_strong; [|eapply NoDup_fmap_1, NoDup_ordered_map_fst].
      intros [i a] [j b] [Hi _]%elem_of_ordered_map%Hby [Hj _]%elem_of_ordered_map%Hby E. simpl in *. by subst.
    + intros se. rewrite list_elem_of_fmap. split.
      * intros ([i a] & -> & [_ Ha]%elem_of_ordered_map%Hby). done.
      * intros Hse. exists (e_id (se_event se), se). split; [done|]. by apply elem_of_ordered_map, Hby.
Qed.
End queries.
