(* ===== verification/StoreTheorems.v ===== *)
(** * The store, from deliveries to queries

    Committed tables that represent a store answer every query from that store,
    and a committed batch of deliveries leaves tables that represent the store the
    governed ingest leads to. *)

From S2P Require Import Prelude Grammar Schema QueueBytes Address Coverage Canonical Ingest IngestSpec IngestRefine Governed Postings PostingsRead PackedStore PackedRep ScanCorrect PackedFlush Commit Query QueryCorrect.

Section store.
Context `{ShardHash, HexLaws, TagReader, TagsIndexedLaws, RelayParserLaws, TagOrderLaws, GenuineLaws}.
Context (genuine_typed : ∀ e, genuine e → event_typed e).

Lemma room_typed durable t s n :
  represents durable t s → store_ok s → has_room (t_canonical t) n → rows_typed t.
Proof using genuine_typed.
  intros Hr Hok [Hroom _]. eapply represented_typed; [done..|]. change (cs_next (t_canonical t)) with (c_next_event_key (t_canonical t)).
  lia.
Qed.

Lemma db_insert_spec pk t s evs os t' pk' n :
  db_ok pk t s → store_ok s → Forall genuine evs.*1 → Forall indexable evs.*1 →
  has_room (t_canonical t) (n + 2 * length evs) → db_insert_batch pk t evs = Some (os, t', pk') →
  ∃ s', ingest_run s evs os s' ∧ store_ok s' ∧ db_ok pk' t' s' ∧ rows_typed t' ∧ has_room (t_canonical t') n.
Proof using All.
  intros Hdb Hok Hg Hi Hroom Hrun. pose proof Hdb as (Hb & durable & Hr & Hnext & Hp).
  destruct (store_insert_batch_spec durable t s evs n Hr Hok Hg Hi Hroom)
    as (os1 & t1 & s1 & Hrun1 & Hsteps & Hr1 & Hok1 & Hroom1).
  unfold db_insert_batch in Hrun. unfold store_insert_batch in Hrun1. case_decide as Hnil.
  - injection Hrun as <- <- <-. injection Hrun1 as <- <-. exists s1. split_and!; try done; [|by eapply room_typed].
    split; [done|]. exists durable. done.
  - rewrite Hrun1 in Hrun. cbn [mbind option_bind] in Hrun.
    destruct (db_commit durable pk t1 s1 os1 t' pk' os Hr1) as (-> & -> & Hdb'); [by eapply room_typed|done..|].
    exists s1. split_and!; try done. destruct Hdb' as (_ & durable' & Hr' & _). by eapply room_typed.
Qed.

(** C2: a committed batch of deliveries followed by any query returns exactly
    what the governed ingest of the batch leaves: the newest of the store's rows
    that the filter wants and no open deletion claim hides, up to the limit. *)
Theorem insert_then_query pk t s evs os t' pk' n :
  db_ok pk t s → store_ok s → Forall genuine evs.*1 → Forall indexable evs.*1 →
  has_room (t_canonical t) (n + 2 * length evs) → db_insert_batch pk t evs = Some (os, t', pk') →
  ∃ s', ingest_run s evs os s' ∧ db_ok pk' t' s' ∧
    ∀ f limit, filter_typed f →
      ∃ rows, query_newest pk' t' f limit = Some rows ∧ newest_of s' (selected t' f None None) (Some limit) rows.
Proof using All.
  intros Hdb Hok Hg Hi Hroom Hrun.
  destruct (db_insert_spec pk t s evs os t' pk' n) as (s' & Hsteps & _ & Hdb' & Hty & _); [done..|].
  exists s'. split_and!; [done..|]. intros f limit Hf. by apply (query_newest_spec pk' t' s').
Qed.

End store.

Section reads.
Context `{ShardHash, HexCodec, TagReader, TagsIndexedLaws, RelayParserLaws, TagOrderLaws}.

(** C8: whichever of the candidate plans is walked, the query returns the same
    rows; the choice of an index is a matter of cost only. *)
Theorem plan_choice_irrelevant pk t s f plans before limit pinned :
  db_ok pk t s → rows_typed t → filter_typed f → candidate_ordered_plans f = Some plans →
  ∃ rows, Forall (λ plan, query_ordered pk t plan f before limit pinned = Some rows) plans.
Proof using All.
  intros Hdb Hty Hf Hplans. destruct (plan_total f Hf) as (plan0 & _ & Hplan0).
  destruct (query_ordered_spec pk t s Hdb Hty plan0 f before limit pinned Hplan0 Hf) as (rows & _ & Hrows).
  exists rows. apply Forall_forall. intros plan Hin.
  destruct (query_ordered_spec pk t s Hdb Hty plan f before limit pinned) as (rows' & -> & Hrows');
    [by eapply candidate_plan_of|done|]. f_equal. by eapply newest_of_unique.
Qed.

(** C9: the merged page of several filters is the page of their union: cutting
    each filter's rows at the limit loses none of the union's first rows. *)
Theorem query_newest_before_any_exact pk t s filters before limit :
  db_ok pk t s → rows_typed t → Forall filter_typed filters →
  ∃ rows, query_newest_before_any pk t filters before limit = Some rows ∧
    newest_of s (λ se, ∃ f, f ∈ filters ∧ selected t f (Some before) None se) (Some limit) rows.
Proof using All.
  intros Hdb Hty Hf. rewrite Forall_forall in Hf. eapply query_any_spec; [done..|].
  intros f Hin. apply query_newest_before_spec; auto.
Qed.

Lemma newest_of_take s P n all : newest_of s P None all → newest_of s P (Some n) (take n all).
Proof using. intros (all' & Hs & Hin & ->). by exists all'. Qed.

Lemma after_cursor_newer r se :
  after_cursor (e_created_at (se_event r), e_id (se_event r)) se = true ↔ newer r se.
Proof using.
  unfold after_cursor. rewrite newer_spec, orb_true_iff, andb_true_iff, !N.ltb_lt, N.eqb_eq. simpl. lia.
Qed.

(** The rows behind the last of the first [n] are the rest. *)
Lemma newest_of_page s P n rows r :
  newest_of s P (Some n) rows → last rows = Some r →
  ∃ all, newest_of s P None all ∧ rows = take n all ∧
    newest_of s (λ se, P se ∧ after_cursor (e_created_at (se_event r), e_id (se_event r)) se = true) None (drop n all).
Proof using.
  intros (all & Hs & Hin & ->) Hlast. exists all. split_and!; [by exists all|done|].
  exists (drop n all). simpl. setoid_rewrite after_cursor_newer.
  rewrite <-(take_drop n all) in Hs. apply StronglySorted_app in Hs as (Hcross & Ht & Hd).
  assert (Hsplit : ∀ se, se ∈ all ↔ se ∈ take n all ∨ se ∈ drop n all) by (intros; by rewrite <-elem_of_app, take_drop).
  split_and!; [done| |done]. intros se. split.
  - intros Hse. assert (se ∈ all) as [? ?]%Hin by (apply Hsplit; auto). split_and!; [done..|].
    apply Hcross; [by apply last_elem|done].
  - intros (Hst & Hp & Hnew). destruct (proj1 (Hsplit se)) as [Hse|Hse]; [by apply Hin| |done].
    destruct (StronglySorted_last _ _ _ _ Ht Hlast Hse) as [->|Hnew']; exfalso; by eapply newer_asym.
Qed.

(** C10: paging with the cursor of the last row neither loses nor repeats a row:
    the next page continues the query where the page ended. *)
Theorem pages_continue pk t s f n m rows r :
  db_ok pk t s → rows_typed t → filter_typed f →
  query_newest pk t f n = Some rows → last rows = Some r → length rows = n →
  ∃ more, query_newest_before pk t f (e_created_at (se_event r), e_id (se_event r)) m = Some more ∧
    query_newest pk t f (n + m) = Some (rows ++ more).
Proof using All.
  intros Hdb Hty Hf Hq Hlast Hlen. set (before := (_, _)).
  destruct (query_newest_spec pk t s Hdb Hty f n Hf) as (rows' & Hq' & Hrows).
  assert (rows' = rows) as -> by congruence.
  destruct (query_newest_before_spec pk t s Hdb Hty f before m Hf) as (more & Hmore & Hnext).
  destruct (query_newest_spec pk t s Hdb Hty f (n + m) Hf) as (both & Hboth & Hnew). exists more. split; [done|].
  rewrite Hboth. f_equal. destruct (newest_of_page s _ n rows r Hrows Hlast) as (all & Hall & -> & Hrest).
  assert (both = take (n + m) all) as -> by (eapply newest_of_unique; [done|by apply newest_of_take]).
  assert (more = take m (drop n all)) as ->.
  { eapply newest_of_unique; [done|]. eapply newest_of_iff; [|by apply newest_of_take].
    intros se _. unfold selected, behind. simpl. tauto. }
  rewrite <-(take_drop n all) at 1. by rewrite take_app_add'.
Qed.
End reads.

(** ** A store that runs *)

Module StoreSample.
Import CanonicalSample Sample GovernedSample.

#[global] Instance hash : ShardHash := λ family prefix, (family + foldl N.add 0 prefix)%N.
#[global] Instance order : TagOrder := map_to_list.
#[global] Instance order_laws : TagOrderLaws.
Proof. intros m. reflexivity. Qed.

#[global] Instance indexed_laws : TagsIndexedLaws.
Proof.
  intros tags c v. simpl. rewrite list_elem_of_omap. unfold is_letter. split.
  - intros (tag & Hin & Htag). destruct tag as [|[|a [|]] [|v' rest]]; try done. case_match eqn:E; [|done].
    injection Htag as <- <-. rewrite orb_true_iff, !andb_true_iff, !N.leb_le in E. split; [lia|].
    by exists (String a EmptyString), rest.
  - intros (Hc & letter & rest & Hin & Hl). exists (letter :: v :: rest). split; [done|].
    destruct letter as [|a [|]]; try done. injection Hl as <-.
    by rewrite (proj2 (orb_true_iff _ _)) by (rewrite !andb_true_iff, !N.leb_le; lia).
Qed.

Lemma genuine_typed e : genuine e → event_typed e.
Proof.
  unfold genuine, genuine_sample, events. intros He.
  repeat (apply elem_of_cons in He as [->|He]; [vm_compute; done|]). by apply not_elem_of_nil in He.
Qed.

Lemma fresh_db : db_ok empty_packed fresh empty_store.
Proof. split; [done|]. exists nothing. split_and!; [apply fresh_represents|done|apply empty_packs]. Qed.

(** The rows of one author, and those of one tag. *)
Definition mine : NFilter := mkNFilter None (Some {[ 7%N ]}) None None None None None ∅.
Definition tagged_nmp : NFilter := mkNFilter None None None None None None None {[ 116%N := {[ "nmp"%string ]} ]}.

Lemma mine_typed : filter_typed mine.
Proof.
  split; simpl; try done. intros a A [= <-] ->%elem_of_singleton. done.
Qed.

Lemma tagged_typed : filter_typed tagged_nmp.
Proof.
  split; simpl; try done.
  - intros c V [<- <-]%lookup_singleton_Some. right. lia.
  - intros c V v [<- <-]%lookup_singleton_Some ->%elem_of_singleton. done.
Qed.

Definition delivered : option (list InsertOutcome * Txn Canonical * PackedStore) :=
  db_insert_batch empty_packed fresh deliveries.

Lemma delivered_db : ∃ os t pk, delivered = Some (os, t, pk) ∧ ∃ s, db_ok pk t s ∧ rows_typed t.
Proof.
  assert (is_Some delivered) as [[[os t] pk] Hrun] by decide_now. exists os, t, pk. split; [done|].
  destruct (db_insert_spec genuine_typed empty_packed fresh empty_store deliveries os t pk 0 fresh_db store_ok_empty
    deliveries_genuine deliveries_indexable ltac:(decide_now) Hrun) as (s & _ & _ & Hdb & Hty & _). eauto.
Qed.
End StoreSample.

Import CanonicalSample Sample GovernedSample StoreSample.

Lemma insert_then_query_witness :
  ∃ os t pk rows, delivered = Some (os, t, pk) ∧ query_newest pk t mine 10 = Some rows ∧
    StronglySorted newer rows.
Proof.
  destruct delivered_db as (os & t & pk & Hrun & _). exists os, t, pk.
  destruct (insert_then_query genuine_typed empty_packed fresh empty_store deliveries os t pk 0 fresh_db store_ok_empty
    deliveries_genuine deliveries_indexable ltac:(decide_now) Hrun) as (s & _ & _ & Hq).
  destruct (Hq mine 10 mine_typed) as (rows & Hrows & all & Hs & _ & E). exists rows. split_and!; [done..|].
  rewrite E. eapply StronglySorted_sublist; [apply sublist_take|done].
Defined.

Lemma plan_choice_irrelevant_witness :
  ∃ os t pk plans rows, delivered = Some (os, t, pk) ∧ candidate_ordered_plans mine = Some plans ∧
    length plans = 2 ∧ Forall (λ plan, query_ordered pk t plan mine None (Some 2) None = Some rows) plans.
Proof.
  destruct delivered_db as (os & t & pk & Hrun & s & Hdb & Hty).
  assert (is_Some (candidate_ordered_plans mine)) as [plans Hplans] by decide_now.
  destruct (plan_choice_irrelevant pk t s mine plans None (Some 2) None Hdb Hty mine_typed Hplans) as [rows Hrows].
  exists os, t, pk, plans, rows. split_and!; [done..| |done].
  assert (length <$> candidate_ordered_plans mine = Some 2) as Hl by reflexivity. rewrite Hplans in Hl. by injection Hl.
Defined.

Lemma query_newest_before_any_exact_witness :
  ∃ os t pk rows, delivered = Some (os, t, pk) ∧
    query_newest_before_any pk t [mine; tagged_nmp] (25%N, 0%N) 3 = Some rows.
Proof.
  destruct delivered_db as (os & t & pk & Hrun & s & Hdb & Hty).
  destruct (query_newest_before_any_exact pk t s [mine; tagged_nmp] (25%N, 0%N) 3 Hdb Hty) as (rows & Hq & _).
  { apply Forall_cons; split; [apply mine_typed|]. apply Forall_singleton, tagged_typed. }
  exists os, t, pk, rows. exact (conj Hrun Hq).
Defined.

Lemma pages_continue_witness :
  ∃ os t pk rows more, delivered = Some (os, t, pk) ∧ query_newest pk t mine 1 = Some rows ∧
    query_newest pk t mine 3 = Some (rows ++ more).
Proof.
  destruct delivered_db as (os & t & pk & Hrun & s & Hdb & Hty).
  assert ((delivered ≫= λ x, length <$> query_newest x.2 x.1.2 mine 1) = Some 1) as Hlen by (vm_compute; reflexivity).
  rewrite Hrun in Hlen. cbn [mbind option_bind fst snd] in Hlen. apply fmap_Some in Hlen as (rows & Hq & Hlen).
  destruct rows as [|r [|]]; try discriminate Hlen.
  destruct (pages_continue pk t s mine 1 2 [r] r Hdb Hty mine_typed Hq eq_refl eq_refl) as (more & _ & Hmore).
  exists os, t, pk, [r], more. exact (conj Hrun (conj Hq Hmore)).
Defined.
